(* ===== verification/_CoqProject ===== *)
-Q . S2P
Prelude.v
Ack.v
Tracker.v
Checkpointer.v
CheckpointSystem.v
Framing.v
S3Split.v
S3Offset.v
KafkaFrame.v
KafkaInflight.v
Breaker.v
Floats.v
EndCheck.v
MemoryFeed.v
JobEnd.v
Backpressure.v
Backoff.v
Handoff.v
SinkConfig.v
WriteTask.v
SinkWorker.v
Oracle.v
Controller.v
ControllerProofs.v
Driver.v
DriverProofs.v
Revocation.v
Chain.v
ChainProofs.v
ChainTotal.v
AvroDatum.v
AvroProofs.v
AvroSafety.v
AvroSource.v
AvroSourceProofs.v
AvroConfig.v
S3Unit.v
S3UnitProofs.v
UnitReader.v
UnitReaderProofs.v
UnitReaderSafety.v
UnitReaderRuns.v
S3Fetch.v
S3FetchProofs.v
S3Framer.v
S3Lane.v
S3LaneProofs.v
S3LaneRuns.v
S3Lister.v
S3ListerProofs.v
S3ListerRuns.v
S3Location.v
