(* ===== verification/Prelude.v ===== *)
(** * Spate: a verification development

    Spate moves records from sources to sinks at least once. Pipeline threads
    read payloads from their lanes, frame and transform them, and hand encoded
    chunks to a sink's shards; shard workers batch and write them; the
    acknowledgments of written batches flow back to a checkpointer, which moves
    each partition's watermark over the longest delivered prefix, and a
    controller thread commits the watermarks to the source. This library models
    that path and the parts around it, each as the definitions of one file, and
    proves what they promise one another. Every definition is translated from the
    Rust sources under [src/crates]; a name from the sources is kept where it can
    be.

    ** Conventions

    Integers are [Z] with their width written out: the operations of the release
    build, so overflow wraps where the source adds plainly and saturates where it
    says so ([wrap_u64], [sat_sub], ...); [usize] is 64 bits. Bytes are [Z];
    [Instant]s and [Duration]s are nanoseconds in [Z]; [f64] is binary64 as
    [SpecFloat] defines it. A function that can panic returns an [option], [None]
    being the panic, unless its file says otherwise; a [Result] is a sum or an
    [option] of its error. A [FastMap], [HashMap] or [BTreeMap] is a [gmap], a
    shared [Arc] a cell of an explicit store. Concurrent code is an executable
    step function on labels, with reachability by [rtc]; the invariants are
    inductive over it. Fields and logs called history are read by no operation.
    A clock reading, a random seed or an external answer is an argument of the
    step that reads it. What the sources only call (librdkafka, object stores,
    serde, tokio's runtime) is a parameter or an event of the environment.

    ** Files

    - [Prelude]: machine integers, byte lists, counting keys of maps, the hint
      database [spate] and the tactics of the development.
    - [Ack] ([spate-core/src/checkpoint/ack.rs]): reference-counted batch
      states, their handles [AckRef] and sets [AckSet], and the channel a last
      drop resolves on.
    - [Tracker] ([checkpoint/tracker.rs]): the per-partition ring, held to a
      reference model that keeps every batch of the epoch.
    - [Checkpointer] ([checkpoint/checkpointer.rs], [gate.rs]): issuers, epochs,
      registration and resolution drains, watermarks, advance gates.
    - [CheckpointSystem]: the three together, in every interleaving of issuing
      threads, handle holders and the controller.
    - [Framing] ([framing/mod.rs], [spate-json/src/framing.rs]): the framer
      contract as a class with laws, and the NDJSON framer that keeps it.
    - [S3Split], [S3Offset] ([spate-s3/src/split.rs], [trim.rs],
      [fuzz_seams.rs], [offset.rs]): byte ranges of an object, their readers,
      composite offsets and unit descriptors.
    - [KafkaFrame], [KafkaInflight] ([spate-kafka/src/sink/frame.rs],
      [feed/inflight.rs], [client.rs]): the sink's message frames, and the
      feed's tracker of deliveries and commit points.
    - [EndCheck], [MemoryFeed], [JobEnd] ([feed/end_check.rs], [feed/mod.rs],
      [feed/memory.rs], [spate-s3/src/job_end.rs]): when a bounded job on a feed
      is over, the in-process feed, and the two composed through the class
      [Feed].
    - [Floats], [Backoff], [Backpressure] ([backoff.rs], [config/duration.rs],
      [backpressure.rs]): retry delays, duration bounds, the byte budget and the
      pause controller.
    - [Handoff] ([ops/handoff.rs], [sink/queue.rs]): the chain's terminal stage
      over the bounded shard queues, for any encoder, codec and router.
    - [Breaker], [SinkConfig] ([sink/breaker.rs], [sink/config.rs]): replica
      circuit breakers, and the pool configuration with its checks.
    - [WriteTask], [SinkWorker] ([sink/worker.rs], [sink/failures.rs]): the
      retry loop of one batch, and the shard worker that batches, launches,
      settles, abandons and drains.
    - [Oracle]: programs that consult their environment, with triples; the
      threads below are written as such programs.
    - [Controller], [ControllerProofs] ([pipeline/controller.rs],
      [pipeline/mod.rs], [source/mod.rs], [source/barrier.rs], of
      [config/mod.rs] the checkpoint section and of [pipeline/runtime.rs] the
      settings made of it): the controller thread, over the checkpoint system:
      assignments, revocations, commits, chases, stops and the final report.
    - [Driver], [DriverProofs] ([pipeline/driver.rs]): a pipeline thread, over
      the same system: control messages, the pending ceiling, polls, blocked
      batches and flushes.
    - [Revocation]: the controller and the drivers around a revocation's
      barrier.
    - [Chain], [ChainProofs], [ChainTotal] ([ops/chain.rs], [ops/split.rs]): the
      operator combinators, the terminals and the chain with its resume cursor;
      what a stage promises the stages above it as a class with laws, which every
      combinator passes on; and the properties of whole batches.
    - [AvroDatum], [AvroProofs], [AvroSafety] ([spate-avro/src/de.rs]): the
      schema-driven datum decoder, a visitor that records its calls, the encoding
      it inverts, and its behaviour on arbitrary bytes.
    - [AvroSource], [AvroSourceProofs], [AvroConfig] ([spate-avro/src/wire.rs],
      [cache.rs], [registry.rs], [deser.rs], [datum.rs], [config.rs]): payload
      framings, the schema cache, the registry fetcher and pre-warm with the
      deserializers that read the cache, in any interleaving, and the builders.

    - [S3Unit], [S3UnitProofs] ([spate-s3/src/unit.rs], [split.rs],
      [framer.rs], [listing.rs]): the work units of the object-store source:
      packing a listing into units, their ids, decoding descriptors and
      notifications, cursors over their parts, and the re-enqueue of an
      overwritten object.
    - [UnitReader], [UnitReaderProofs], [UnitReaderSafety], [UnitReaderRuns]
      ([spate-s3/src/unit_reader.rs], [lane_ctx.rs]): the reader that holds
      deliveries of a feed, opens a lane per part and settles them, as programs
      whose environment (the feed, the lanes, downstream) moves between any two
      shared reads; its invariant, the triples of its operations, and its runs.
    - [S3Fetch], [S3FetchProofs] ([spate-s3/src/fetch.rs], [error.rs]): the task
      that reads a part's objects from a store in ranged requests, with its
      retries, pinned ETags, read-ahead and windows, and the stream it sends.
    - [S3Framer] ([spate-s3/src/framer.rs]): decompression and framing of one
      object, over the classes of framers and decoders.
    - [S3Lane], [S3LaneProofs], [S3LaneRuns] ([spate-s3/src/lane.rs],
      [lane_ctx.rs]): the lane that turns the stream into records and reports
      to the unit reader, and the fetcher and the lane together.
    - [S3Lister], [S3ListerProofs], [S3ListerRuns] ([spate-s3/src/lister.rs],
      [location.rs]): the lister's run over the job location, the pages of a
      listing and the feed, its invariant, and runs one after another, each
      done, failed or killed.
    - [S3Location] ([location.rs]): the job fingerprint and a worker's wait for
      it.

    ** What the theorems show

    Delivery: a watermark never covers a batch that was not delivered
    ([CheckpointSystem.watermark_safety]), the controller's cycle moves every
    watermark exactly to the delivered prefix ([commit_cycle_exact]), and the
    tracker refines its reference ([tracker_refines_reference]). A batch resolves
    once ([ack_resolves_exactly_once]); a chain of any stages passes every
    payload's records to its terminal exactly once and in order, up to the first
    fatal, and neither leaks nor forges a handle ([chain_exactly_once],
    [chain_handles_balanced]); the terminal stage loses, duplicates and
    reorders nothing ([handoff_keeps_every_record]); the worker resolves each
    sealed batch once, as delivered only if it was written, and everything it
    gave up on stays failed ([worker_resolves_once],
    [worker_delivers_only_written], [worker_stops_clean]). The Kafka feed's
    commit point never passes an unsettled delivery. The object-store reader
    acknowledges only units it read out, overwritten objects included
    ([acknowledged_was_read]), a stop keeps only what was read to its end
    ([stop_keeps_only_read]), a settling pass forgets no finished unit
    ([settle_forgets_none]), and it panics only where a sequence number is used
    up ([reader_panics_only_exhausted]) and never holds more than it may
    ([reader_capacity]). What that reader takes from its lanes is what the lanes
    do: a lane hands records out under increasing positions of its part, each
    once, and reports an end only with nothing of the part outstanding
    ([lane_hands_out_in_order], [lane_keeps_contract]); the fetcher sends each
    object's bytes from where the part starts, through any retries, as they are
    under one ETag ([fetcher_sends_members]); and a part whose lane ends was
    handed out as exactly the records of its objects ([part_read_whole]). The
    units come from a lister: across runs that fail or are killed anywhere, its
    checkpoint never passes an object without confirmed units, and a run that
    succeeds, or an end marker once it has published, means that every object of
    the bucket has them ([lister_confirms_all], [end_marker_confirmed]). A
    worker's wait for the job's fingerprint ends ([fingerprint_wait_ends]), and
    one fingerprint means one way of cutting units
    ([same_fingerprint_same_packing]).

    The threads: every position the controller passes to the source covers only
    delivered batches, none it harvested is lost, a drained run that reports no
    failure has committed every batch registered by the end of its wait for the
    sink, its books on lanes and partitions are exact, and with settings that
    passed the configuration's checks it never panics, its [Instant]s and
    [Duration]s included ([run_commits_delivered], [run_keeps_watermarks],
    [drained_run_complete], [assignment_exact], [controller_never_panics],
    [exit_report_sound]). A driver keeps every gated partition under its ceiling
    and pushes or fails every batch it polls ([driver_pending_ceiling],
    [driver_batch_fate]); a revocation's wait ends exactly when its owners have
    served it ([revocation_barrier_completes]). In these theorems the source, the
    chain, the clocks and the steps of all other threads are arbitrary answers.

    Data: framing does not depend on chunking, tiles of an object frame to the
    records of the whole, message frames, offsets and descriptors round-trip. A
    listing packed into units reads back as the listing, distinct members have
    distinct ids up to the digest, and a re-enqueue reads back as the object
    overwritten ([packed_listing_reads_back], [unit_ids_identify],
    [re_enqueue_reads_back]). The
    Avro decoder inverts the encoding up to its depth limit, skips what it would
    have decoded, and on any payload ends within its depth and item bounds
    ([datum_roundtrip], [skip_matches_decode], [decode_safe]), a skip counting its
    levels differently from a decode ([recursive_skip_depth]). A payload's schema,
    or its being called undecodable, is always what the registry said, an outage
    never condemns a record, and a schema the registry serves to a fetcher that
    runs arrives ([resolve_justified], [payload_gets_schema],
    [fetcher_books_exact], [avro_payload_roundtrip]).

    Progress and bounds: drains and parsers end, a draining worker stops by its
    deadline, breakers neither leak probe slots nor wedge, an end check completes
    and is sound, a solo job on the in-process feed, which loses no unit
    ([memory_feed_conserves]), is completed exactly when its work is acknowledged
    ([solo_job_done_iff_acknowledged]), delays and budgets stay in their bounds, batches respect their
    thresholds up to one chunk, and the stage and the checkpointer never panic.
    [write_task_verdict] states when a write task gives up, and
    [worker_linger_overflow] what a linger past the range of [Instant] does.

    ** Bounds and fuel

    [drain_loop] and [launch_all] get as much fuel as there are parked chunks or
    waiting batches, and each round uses one; [JobEnd]'s [IDLE_FUEL] is the
    number of reads one idle poll can take, and [job_idle_total] shows it is
    enough; [read_loop] gets a round per byte of the object and one more; the
    frame parser's [collect] takes its fuel as an argument. A
    [loop] of a thread gets one round per answer left, and each round reads one;
    [run_controller] and [run_driver] take the number of passes as an argument,
    over which the theorems quantify. A loop of the fetcher or the lane whose
    first and last rounds may read none gets two rounds more than answers left
    ([turns]); [S3Lane.drain_loop] gets a pass more than the framer's queue holds
    ([drain_framer_total]), [drain_sink] likewise, and [pump] the [PUMP_STEPS] of
    the source. [listing_loop] gets a round more than the listing has objects
    left ([listing_loop_rounds]), [settle_all] one more than there are pending
    publishes, and [fingerprint_wait_ends] bounds the wait's rounds. [pull] gets one round more than the batch
    has payloads left, and [com_attempts] counts the answers its pushes need.
    The Avro walks get one level more than the depth limit leaves, a block loop a
    round per byte left and a visitor's loop a round per item the budget allows;
    [decode_safe] shows that none runs out. [payload_gets_schema] bounds the
    fetcher's rounds by [rounds].
    Theorems about counters carry the side condition that the width is not
    exhausted (fewer than 2^64 batches per partition and epoch, sequence numbers
    or half-open runs; fewer than 2^32 open rows, parked chunks or deliveries)
    as a guard of the step or a hypothesis, met by their witnesses.

    ** Not modelled

    Metrics, logs and the wording of errors; deserialisation by serde; the tokio
    runtime beyond the events above; clients of Kafka, SQS, S3 and ClickHouse, and
    the HTTP exchange with a schema registry, whose answers are events. The gzip
    and zstd decoders are a class with their law, and the fetcher's read-ahead
    asks for its bytes when they have arrived, its requests being reads. Of the
    bucket, the listing and its offsets are a class; listers at one location at
    the same time, and the parsing of a location's URL, are left out. The driver takes what its chain answers as arbitrary; the
    chain's closures and deserializer are parameters of its model. *)

From stdpp Require Import base list gmap sorting.
From Stdlib Require Import ZArith Lia.

#[global] Open Scope Z_scope.

(** ** Machine integers

    Integers are [Z]; every operation that can leave its width says what the
    release build does there: wrap, or saturate. [usize] is 64 bits wide. *)

Definition U64_MAX : Z := 2 ^ 64 - 1.
Definition U32_MAX : Z := 2 ^ 32 - 1.
Definition I64_MAX : Z := 2 ^ 63 - 1.
Definition I64_MIN : Z := - 2 ^ 63.

Definition wrap_u64 (x : Z) : Z := x mod 2 ^ 64.
Definition wrap_u32 (x : Z) : Z := x mod 2 ^ 32.
Definition wrap_i64 (x : Z) : Z := (x + 2 ^ 63) mod 2 ^ 64 - 2 ^ 63.

Definition sat_add_u64 (a b : Z) : Z := Z.min (a + b) U64_MAX.
Definition sat_sub (a b : Z) : Z := Z.max (a - b) 0.

Definition is_u64 (x : Z) : Prop := 0 <= x <= U64_MAX.
Definition is_u32 (x : Z) : Prop := 0 <= x <= U32_MAX.
Definition is_i64 (x : Z) : Prop := I64_MIN <= x <= I64_MAX.

Create HintDb spate.

Ltac unfold_int :=
  unfold is_u64, is_u32, is_i64, sat_add_u64, sat_sub,
    U64_MAX, U32_MAX, I64_MAX, I64_MIN in *.

(** Case analysis on a decision in the conclusion only. *)
Ltac goal_decide H :=
  match goal with
  | |- context [@decide ?P ?d] => destruct (@decide P d) as [H|H]
  end.
Ltac goal_decides := repeat (let H := fresh "Hd" in goal_decide H).

Lemma wrap_u64_small x : is_u64 x -> wrap_u64 x = x.
Proof. unfold wrap_u64; unfold_int; intros. apply Z.mod_small; lia. Qed.

Lemma wrap_u32_small x : is_u32 x -> wrap_u32 x = x.
Proof. unfold wrap_u32; unfold_int; intros. apply Z.mod_small; lia. Qed.

Lemma wrap_u32_add_l x y : wrap_u32 (wrap_u32 x + y) = wrap_u32 (x + y).
Proof. apply Zplus_mod_idemp_l. Qed.

Lemma wrap_u64_add_l x y : wrap_u64 (wrap_u64 x + y) = wrap_u64 (x + y).
Proof. apply Zplus_mod_idemp_l. Qed.

Lemma wrap_i64_small x : is_i64 x -> wrap_i64 x = x.
Proof.
  unfold wrap_i64; unfold_int; intros.
  rewrite Z.mod_small; lia.
Qed.

Lemma wrap_u64_range x : is_u64 (wrap_u64 x).
Proof.
  unfold wrap_u64; unfold_int.
  pose proof (Z.mod_pos_bound x (2 ^ 64)); lia.
Qed.

#[export] Hint Resolve wrap_u64_range : spate.
#[export] Hint Rewrite wrap_u64_small wrap_u32_small wrap_i64_small
  using (unfold_int; lia) : spate.

(** ** Bytes *)

(** A [u8], and a byte string. *)
Definition is_byte (b : Z) : Prop := 0 <= b < 256.

(** [to_le_bytes] of a [k]-byte integer, and its inverse. *)
Fixpoint le_bytes (k : nat) (n : Z) : list Z :=
  match k with
  | O => []
  | S k => n mod 256 :: le_bytes k (n / 256)
  end.

Fixpoint le_val (l : list Z) : Z :=
  match l with
  | [] => 0
  | b :: l => b + 256 * le_val l
  end.

(** [from_be_bytes]. *)
Definition be_val (l : list Z) : Z := le_val (rev l).

Lemma le_bytes_length k n : length (le_bytes k n) = k.
Proof. revert n. induction k as [|k IH]; intros n; simpl; auto. Qed.

Lemma le_val_bytes k : forall n, 0 <= n < 256 ^ Z.of_nat k -> le_val (le_bytes k n) = n.
Proof.
  induction k as [|k IH]; intros n Hn; cbn [le_bytes le_val].
  { change (256 ^ Z.of_nat 0) with 1 in Hn. lia. }
  rewrite Nat2Z.inj_succ, Z.pow_succ_r in Hn by lia.
  rewrite IH; [pose proof (Z.div_mod n 256); lia|].
  split; [apply Z.div_pos; lia|apply Z.div_lt_upper_bound; lia].
Qed.

Lemma le_bytes_val l :
  Forall is_byte l ->
  le_bytes (length l) (le_val l) = l /\ 0 <= le_val l < 256 ^ Z.of_nat (length l).
Proof.
  induction l as [|b l IH]; intros HF; [by split|].
  apply Forall_cons in HF as [Hb HF]. destruct (IH HF) as [He Hr]. unfold is_byte in Hb.
  cbn [length le_bytes le_val]. rewrite Nat2Z.inj_succ, Z.pow_succ_r by lia.
  rewrite (Z.add_comm b), Z.mul_comm, Z.div_add_l, Z.div_small by lia.
  rewrite Z.add_comm, Z.mod_add, Z.mod_small, Z.add_0_r, He by lia. split; [done|lia].
Qed.

Lemma le_bytes_bytes k : forall n, Forall is_byte (le_bytes k n).
Proof.
  induction k as [|k IH]; intros n; constructor; auto.
  apply Z.mod_pos_bound. lia.
Qed.

(** [str::from_utf8]'s well-formedness: the byte sequences of Unicode scalar
    values, shortest form, no surrogates. *)
Definition between (a b x : Z) : bool := bool_decide (a <= x) && bool_decide (x <= b).

Fixpoint valid_utf8 (l : list Z) : bool :=
  match l with
  | [] => true
  | a :: l1 =>
      if between 0 127 a then valid_utf8 l1
      else match l1 with
      | b :: l2 =>
          if between 194 223 a then between 128 191 b && valid_utf8 l2
          else match l2 with
          | c :: l3 =>
              if between 224 239 a
              then (if bool_decide (a = 224) then between 160 191 b
                    else if bool_decide (a = 237) then between 128 159 b
                    else between 128 191 b) && between 128 191 c && valid_utf8 l3
              else match l3 with
              | d :: l4 =>
                  between 240 244 a &&
                  (if bool_decide (a = 240) then between 144 191 b
                   else if bool_decide (a = 244) then between 128 143 b
                   else between 128 191 b) &&
                  between 128 191 c && between 128 191 d && valid_utf8 l4
              | [] => false
              end
          | [] => false
          end
      | [] => false
      end
  end.

(** ** Counting the keys of a map that hold a value *)

Section map_count.
Context {K : Type} `{Countable K} {A : Type} `{EqDecision A}.
Implicit Types (m : gmap K A) (k : K) (x y : A).

Definition map_count m x : nat := size (filter (fun kx => kx.2 = x) m).

Lemma map_count_le_size m x : (map_count m x <= size m)%nat.
Proof. unfold map_count. apply map_subseteq_size, map_filter_subseteq. Qed.

Lemma map_size_delete_S m k x : m !! k = Some x -> size m = S (size (delete k m)).
Proof.
  intros Hk. rewrite <- (insert_delete_id m k x Hk) at 1.
  apply map_size_insert_None, lookup_delete_eq.
Qed.

Lemma map_count_insert m k x y :
  m !! k = None ->
  map_count (<[k := x]> m) y = ((if decide (x = y) then 1 else 0) + map_count m y)%nat.
Proof.
  intros Hk. unfold map_count. destruct (decide (x = y)).
  - rewrite map_filter_insert_True by done. rewrite map_size_insert_None; [done|].
    apply map_lookup_filter_None. by left.
  - rewrite map_filter_insert_False by done. rewrite delete_id by done. done.
Qed.

Lemma map_count_delete m k x y :
  m !! k = Some x ->
  map_count m y = ((if decide (x = y) then 1 else 0) + map_count (delete k m) y)%nat.
Proof.
  intros Hk. rewrite <- (insert_delete_id m k x Hk) at 1.
  apply map_count_insert. apply lookup_delete_eq.
Qed.

Lemma map_count_zero m x : (forall k y, m !! k = Some y -> y <> x) -> map_count m x = 0%nat.
Proof.
  intros Hne. unfold map_count. apply map_size_empty_iff, map_empty. intros k.
  apply map_lookup_filter_None. right. intros y Hk. by eapply Hne.
Qed.

Lemma map_count_pos m k x : m !! k = Some x -> (0 < map_count m x)%nat.
Proof.
  intros Hk. rewrite (map_count_delete m k x x Hk). rewrite decide_True by done. lia.
Qed.

Lemma map_count_inv m x : (0 < map_count m x)%nat -> exists k, m !! k = Some x.
Proof.
  unfold map_count. intros Hpos.
  destruct (map_choose (filter (fun kx => kx.2 = x) m)) as (k & y & Hk).
  { intros He. rewrite He, map_size_empty in Hpos. lia. }
  apply map_lookup_filter_Some in Hk as [Hk Hy]. cbn in Hy. subst. eauto.
Qed.
End map_count.
