(* ===== verification/Ack.v ===== *)
(** * Batch acknowledgment handles ([spate-core/src/checkpoint/ack.rs])

    [AckRef] is an [Arc] of the batch's [AckState]; the [Arc]s live in a store
    keyed by address, each with its strong count, so clones of one handle
    share one state. Dropping the last clone removes the state and sends its
    [AckMsg]. [AckSet] is the fail-on-drop collection of the sink path. *)

From stdpp Require Import base list gmap.
From Stdlib Require Import ZArith Lia.
From S2P Require Import Prelude.

(** Identity of one source poll batch. *)
Record BatchId := mkBatchId {
  bid_partition : Z;
  bid_epoch : Z;
  bid_seq : Z;
}.

(** Resolution status of a batch. *)
Inductive AckStatus := Delivered | Failed.

(** Message sent when the last handle of a batch drops. *)
Record AckMsg := mkAckMsg {
  am_id : BatchId;
  am_last_offset : Z;
  am_status : AckStatus;
}.

#[export] Instance BatchId_eq_dec : EqDecision BatchId.
Proof. solve_decision. Defined.
#[export] Instance AckStatus_eq_dec : EqDecision AckStatus.
Proof. solve_decision. Defined.
#[export] Instance AckMsg_eq_dec : EqDecision AckMsg.
Proof. solve_decision. Defined.
#[export] Instance BatchId_countable : Countable BatchId.
Proof.
  refine (inj_countable' (fun b => (bid_partition b, bid_epoch b, bid_seq b))
            (fun '(p, e, s) => mkBatchId p e s) _).
  by intros [].
Defined.

(** The discriminant of the [repr(u8)] enum, as the atomic stores it. *)
Definition status_u8 (s : AckStatus) : Z :=
  match s with Delivered => 0 | Failed => 1 end.

(** An unbounded channel: what was sent and not received, and whether the
    receiver still exists. *)
Record Channel (A : Type) := mkChannel {
  queue : list A;
  connected : bool;
}.
Arguments mkChannel {A}.
Arguments queue {A}.
Arguments connected {A}.

(** [crossbeam_channel::Sender::send], its error ignored. *)
Definition send {A} (m : A) (c : Channel A) : Channel A :=
  if connected c then mkChannel (queue c ++ [m]) true else c.

(** [crossbeam_channel::Receiver::try_recv]. *)
Definition try_recv {A} (c : Channel A) : option (A * Channel A) :=
  match queue c with
  | [] => None
  | m :: q => Some (m, mkChannel q (connected c))
  end.

(** Shared acknowledgment state of one batch, with its [Arc]'s strong count. *)
Record AckState := mkAckState {
  as_id : BatchId;
  as_last_offset : Z;
  as_status : Z;
  as_strong : nat;
}.

Definition AckRef := nat.

(** The acknowledgment world: the [Arc] store and the channel every handle
    sends on. *)
Record Acks := mkAcks {
  heap : gmap AckRef AckState;
  fresh_ref : AckRef;
  ack_tx : Channel AckMsg;
}.

(** No handle exists and nothing was sent. *)
Definition acks_init : Acks := mkAcks ∅ 0%nat (mkChannel [] true).

(** [AckTx::send]: a send error is ignored. *)
Definition AckTx_send (m : AckMsg) (w : Acks) : Acks :=
  mkAcks (heap w) (fresh_ref w) (send m (ack_tx w)).

(** [<AckState as Drop>::drop]. *)
Definition AckState_drop (s : AckState) (w : Acks) : Acks :=
  let status := if bool_decide (as_status s = status_u8 Delivered)
                then Delivered else Failed in
  AckTx_send (mkAckMsg (as_id s) (as_last_offset s) status) w.

(** [AckRef::new]. *)
Definition AckRef_new (id : BatchId) (last_offset : Z) (w : Acks) : AckRef * Acks :=
  let r := fresh_ref w in
  (r, mkAcks (<[r := mkAckState id last_offset (status_u8 Delivered) 1]> (heap w))
        (S r) (ack_tx w)).

(** [AckRef::clone]: one more strong count on the shared state. *)
Definition AckRef_clone (r : AckRef) (w : Acks) : Acks :=
  mkAcks (alter (fun s => mkAckState (as_id s) (as_last_offset s) (as_status s)
                            (S (as_strong s))) r (heap w))
    (fresh_ref w) (ack_tx w).

(** [AckRef::fail]. *)
Definition AckRef_fail (r : AckRef) (w : Acks) : Acks :=
  mkAcks (alter (fun s => mkAckState (as_id s) (as_last_offset s) (status_u8 Failed)
                            (as_strong s)) r (heap w))
    (fresh_ref w) (ack_tx w).

(** Dropping one [AckRef]: the [Arc] frees the state with its last handle. *)
Definition AckRef_drop (r : AckRef) (w : Acks) : Acks :=
  match heap w !! r with
  | None => w
  | Some s =>
      if bool_decide (as_strong s <= 1)%nat
      then AckState_drop s (mkAcks (delete r (heap w)) (fresh_ref w) (ack_tx w))
      else mkAcks (<[r := mkAckState (as_id s) (as_last_offset s) (as_status s)
                            (pred (as_strong s))]> (heap w)) (fresh_ref w) (ack_tx w)
  end.

(** [AckRef::batch_id]. *)
Definition AckRef_batch_id (r : AckRef) (w : Acks) : option BatchId :=
  as_id <$> heap w !! r.

(** ** [AckSet] *)

Definition AckSet := list AckRef.

Definition AckSet_new : AckSet := [].
Definition AckSet_push (ack : AckRef) (s : AckSet) : AckSet := s ++ [ack].

(** Dropping a [Vec<AckRef>] drops its handles in order. *)
Definition drop_refs (rs : list AckRef) (w : Acks) : Acks :=
  foldl (fun w r => AckRef_drop r w) w rs.

(** [<AckSet as Drop>::drop], then the drop of its [Vec]. *)
Definition AckSet_drop (s : AckSet) (w : Acks) : Acks :=
  drop_refs s (foldl (fun w r => AckRef_fail r w) w s).

(** [AckSet::absorb]: [other] is left empty and dropped. *)
Definition AckSet_absorb (s other : AckSet) (w : Acks) : AckSet * Acks :=
  (s ++ other, AckSet_drop [] w).

Definition AckSet_is_empty (s : AckSet) : bool := bool_decide (s = []).
Definition AckSet_len (s : AckSet) : nat := length s.

(** [AckSet::deliver]: the cleared set is dropped empty. *)
Definition AckSet_deliver (s : AckSet) (w : Acks) : Acks :=
  AckSet_drop [] (drop_refs s w).

(** ** Sequences of handle operations

    What the holders of handles do, in the order the atomics serialize it. *)

Inductive AckOp :=
  | ONew (id : BatchId) (last_offset : Z)
  | OClone (r : AckRef)
  | OFail (r : AckRef)
  | ODrop (r : AckRef).

#[export] Instance AckOp_eq_dec : EqDecision AckOp.
Proof. solve_decision. Defined.

Definition ack_step (o : AckOp) (w : Acks) : Acks :=
  match o with
  | ONew id off => (AckRef_new id off w).2
  | OClone r => AckRef_clone r w
  | OFail r => AckRef_fail r w
  | ODrop r => AckRef_drop r w
  end.

Definition ack_run (ops : list AckOp) (w : Acks) : Acks :=
  foldl (fun w o => ack_step o w) w ops.

(** Ownership of the handle [r], starting from [n] live clones: the clones
    left after [ops], or [None] when [ops] uses [r] with no clone left, which
    the borrow checker rules out. *)
Fixpoint clones_left (r : AckRef) (n : nat) (ops : list AckOp) : option nat :=
  match ops with
  | [] => Some n
  | o :: ops =>
      let here q m := if bool_decide (q = r)
                      then (if bool_decide (n = 0)%nat then None else clones_left r m ops)
                      else clones_left r n ops in
      match o with
      | ONew _ _ => clones_left r n ops
      | OClone q => here q (S n)
      | OFail q => here q n
      | ODrop q => here q (pred n)
      end
  end.

(** Whether some holder of [r] marked it failed. *)
Definition fails_on (r : AckRef) (ops : list AckOp) : bool :=
  bool_decide (OFail r ∈ ops).

(** [ops] creates no other batch under [id]. *)
Definition no_new (id : BatchId) (ops : list AckOp) : Prop :=
  Forall (fun o => match o with ONew id' _ => id' <> id | _ => True end) ops.

(** Messages about batch [id] waiting in the channel. *)
Definition msgs_for (id : BatchId) (w : Acks) : list AckMsg :=
  filter (fun m => am_id m = id) (queue (ack_tx w)).

(** [id] is not in use: no state and no message carries it, and addresses
    are allocated in order. *)
Record id_fresh (id : BatchId) (w : Acks) : Prop := mk_id_fresh {
  idf_heap : forall r s, heap w !! r = Some s -> as_id s <> id;
  idf_msgs : msgs_for id w = [];
  idf_alloc : forall r, (fresh_ref w <= r)%nat -> heap w !! r = None;
}.

(** The status a stored discriminant resolves to at drop time. *)
Definition resolved_status (st : Z) : AckStatus :=
  if bool_decide (st = status_u8 Delivered) then Delivered else Failed.

(** What the world holds about the batch behind [r] while [n] clones are
    left: its state, or, once the last one is gone, its one message. *)
Record tracked (r : AckRef) (id : BatchId) (off st : Z) (n : nat) (w : Acks) : Prop :=
  mk_tracked {
  tr_connected : connected (ack_tx w) = true;
  tr_state : heap w !! r = match n with O => None | S _ => Some (mkAckState id off st n) end;
  tr_unique : forall r' s, heap w !! r' = Some s -> as_id s = id -> r' = r;
  tr_msgs : msgs_for id w =
    match n with O => [mkAckMsg id off (resolved_status st)] | S _ => [] end;
  tr_alloc : forall r', (fresh_ref w <= r')%nat -> heap w !! r' = None;
  tr_below : (r < fresh_ref w)%nat;
}.

Lemma msgs_for_send id m w :
  connected (ack_tx w) = true ->
  msgs_for id (AckTx_send m w) =
    msgs_for id w ++ (if decide (am_id m = id) then [m] else []).
Proof.
  intros Hc. unfold msgs_for, AckTx_send, send; simpl. rewrite Hc; simpl.
  by rewrite filter_app.
Qed.

Lemma tracked_new r id off st n id' off' w :
  id' <> id -> tracked r id off st n w ->
  tracked r id off st n (AckRef_new id' off' w).2.
Proof.
  intros Hid [Hc Hs Hu Hm Ha Hb]. split; simpl; try done; try lia.
  - rewrite lookup_insert_ne by lia. done.
  - intros r' s. rewrite lookup_insert. case_decide; [|by eauto].
    intros [= <-] ?; simpl in *; congruence.
  - intros r' Hr'. rewrite lookup_insert_ne by lia. apply Ha; lia.
Qed.

Lemma tracked_clone r id off st n q w :
  (q = r -> n <> 0%nat) -> tracked r id off st n w ->
  tracked r id off st (if decide (q = r) then S n else n) (AckRef_clone q w).
Proof.
  intros Hn [Hc Hs Hu Hm Ha Hb]. split; simpl; auto.
  - destruct (decide (q = r)) as [->|].
    + rewrite lookup_alter_eq, Hs. destruct n; naive_solver.
    + by rewrite lookup_alter_ne.
  - intros r' s. rewrite lookup_alter. case_decide; [subst|by eauto].
    intros (s0 & Hs0 & ->)%fmap_Some ?. by eapply Hu.
  - unfold msgs_for in *; simpl. rewrite Hm.
    destruct (decide (q = r)); [|done].
    destruct n; naive_solver.
  - intros r' Hr'. rewrite lookup_alter. case_decide; subst; by rewrite Ha.
Qed.

Lemma tracked_fail r id off st n q w :
  (q = r -> n <> 0%nat) -> tracked r id off st n w ->
  tracked r id off (if decide (q = r) then status_u8 Failed else st) n (AckRef_fail q w).
Proof.
  intros Hn [Hc Hs Hu Hm Ha Hb]. split; simpl; auto.
  - destruct (decide (q = r)) as [->|].
    + rewrite lookup_alter_eq, Hs. destruct n; naive_solver.
    + by rewrite lookup_alter_ne.
  - intros r' s. rewrite lookup_alter. case_decide; [subst|by eauto].
    intros (s0 & Hs0 & ->)%fmap_Some ?. by eapply Hu.
  - unfold msgs_for in *; simpl. rewrite Hm.
    destruct (decide (q = r)); [|done].
    destruct n; naive_solver.
  - intros r' Hr'. rewrite lookup_alter. case_decide; subst; by rewrite Ha.
Qed.

Lemma tracked_drop r id off st n q w :
  (q = r -> n <> 0%nat) -> tracked r id off st n w ->
  tracked r id off st (if decide (q = r) then pred n else n) (AckRef_drop q w).
Proof.
  intros Hn [Hc Hs Hu Hm Ha Hb]. unfold AckRef_drop.
  destruct (heap w !! q) as [s|] eqn:Hq.
  2:{ destruct (decide (q = r)) as [->|]; [destruct n; naive_solver|by split]. }
  assert (Hid : q <> r -> as_id s <> id) by (intros ? ?; eauto).
  assert (Hqf : (q < fresh_ref w)%nat).
  { destruct (decide (fresh_ref w <= q)%nat); [|lia]. by rewrite Ha in Hq. }
  case_bool_decide as Hle; unfold AckState_drop.
  - split; simpl.
    + unfold send; simpl. by rewrite Hc.
    + destruct (decide (q = r)) as [->|].
      * rewrite lookup_delete_eq. destruct n as [|[|]]; simplify_eq/=; (done || lia).
      * by rewrite lookup_delete_ne.
    + intros r' s' [_ Hr']%lookup_delete_Some. eauto.
    + rewrite msgs_for_send by done. simpl.
      change (msgs_for id (mkAcks _ _ (ack_tx w))) with (msgs_for id w).
      rewrite Hm. destruct (decide (q = r)) as [->|].
      * destruct n as [|[|]]; simplify_eq/=; [|lia].
        by rewrite decide_True.
      * rewrite decide_False by auto. by rewrite app_nil_r.
    + intros r' Hr'. rewrite lookup_delete_ne by lia. by apply Ha.
    + done.
  - split; simpl; auto.
    + destruct (decide (q = r)) as [->|].
      * rewrite lookup_insert_eq. destruct n as [|[|]]; simplify_eq/=; (done || lia).
      * by rewrite lookup_insert_ne.
    + intros r' s'. rewrite lookup_insert. case_decide; [subst|by eauto].
      intros [= <-] ?; simpl in *. by eapply Hu.
    + change (msgs_for id (mkAcks _ _ (ack_tx w))) with (msgs_for id w).
      rewrite Hm. destruct (decide (q = r)) as [->|]; [|done].
      destruct n as [|[|]]; simplify_eq/=; (done || lia).
    + intros r' Hr'. rewrite lookup_insert_ne by lia. by apply Ha.
Qed.

Lemma fails_on_cons r o ops :
  fails_on r (o :: ops) =
    match o with OFail q => bool_decide (q = r) | _ => false end || fails_on r ops.
Proof.
  unfold fails_on. rewrite (bool_decide_ext _ _ (elem_of_cons ops (OFail r) o)).
  rewrite bool_decide_or. f_equal.
  destruct o; [by rewrite bool_decide_false..| |by rewrite bool_decide_false].
  apply bool_decide_ext; naive_solver.
Qed.

(** The batch behind [r] follows its clone count over any run. *)
Lemma tracked_run r id off ops : forall n k st w,
  no_new id ops -> clones_left r n ops = Some k ->
  tracked r id off st n w ->
  tracked r id off (if fails_on r ops then status_u8 Failed else st) k (ack_run ops w).
Proof.
  induction ops as [|o ops IH]; intros n k st w Hnew Hcl Ht.
  { simpl in Hcl. by simplify_eq. }
  apply Forall_cons in Hnew as [Ho Hnew].
  rewrite fails_on_cons. simpl in Hcl |- *.
  destruct o as [id' off'|q|q|q]; simpl.
  - eapply IH; eauto. by apply tracked_new.
  - case_bool_decide; [case_bool_decide; [done|]|].
    all: eapply IH; eauto.
    all: eapply tracked_clone with (q := q) in Ht; [|naive_solver].
    all: by destruct (decide (q = r)).
  - case_bool_decide; [case_bool_decide; [done|]|].
    all: eapply tracked_fail with (q := q) in Ht; [|naive_solver].
    all: destruct (decide (q = r)); try done; eapply IH in Ht; eauto.
    simpl. by destruct (fails_on r ops).
  - case_bool_decide; [case_bool_decide; [done|]|].
    all: eapply IH; eauto.
    all: eapply tracked_drop with (q := q) in Ht; [|naive_solver].
    all: by destruct (decide (q = r)).
Qed.

(** C4: a batch resolves exactly once, when its last handle drops, and as
    [Failed] exactly when some holder marked it failed. For any sequence of
    operations by the holders of any handles: while a clone of the batch's
    handle is left, no message about it is in the channel; once none is left,
    there is exactly one. *)
Theorem ack_resolves_exactly_once (id : BatchId) (off : Z) (w : Acks)
    (ops : list AckOp) (k : nat) :
  connected (ack_tx w) = true -> id_fresh id w -> no_new id ops ->
  clones_left (AckRef_new id off w).1 1 ops = Some k ->
  msgs_for id (ack_run ops (AckRef_new id off w).2) =
    match k with
    | O => [mkAckMsg id off (if fails_on (AckRef_new id off w).1 ops
                             then Failed else Delivered)]
    | S _ => []
    end.
Proof.
  intros Hc [Hh Hm Ha] Hnew Hcl.
  assert (tracked (AckRef_new id off w).1 id off 0 1 (AckRef_new id off w).2) as Ht.
  { split; simpl; try done; try lia.
    - by rewrite lookup_insert_eq.
    - intros r' s. rewrite lookup_insert. case_decide; [by subst|].
      intros Hr' ?. by destruct (Hh r' s).
    - intros r' Hr'. rewrite lookup_insert_ne by lia. apply Ha; lia. }
  eapply tracked_run in Ht as [_ _ _ -> _ _]; eauto.
  destruct k; [|done]. by destruct (fails_on _ ops).
Qed.

Lemma ack_resolves_exactly_once_witness :
  let w := acks_init in
  let id := mkBatchId 1 7 3 in
  msgs_for id (ack_run [OClone 0%nat; OFail 0%nat; ODrop 0%nat; ODrop 0%nat]
                 (AckRef_new id 99 w).2) = [mkAckMsg id 99 Failed].
Proof.
  intros w id.
  apply (ack_resolves_exactly_once id 99 w [OClone 0%nat; OFail 0%nat; ODrop 0%nat; ODrop 0%nat] 0).
  - reflexivity.
  - split; [intros r s Hs|reflexivity|intros r _; apply lookup_empty].
    exfalso. exact (lookup_empty_Some r s Hs).
  - by repeat constructor.
  - reflexivity.
Defined.

(** ** [AckSet] resolution *)

(** The channel of [w'] extends the one of [w] by messages that satisfy [P]. *)
Definition sends_only (P : AckMsg -> Prop) (w w' : Acks) : Prop :=
  exists ms, queue (ack_tx w') = queue (ack_tx w) ++ ms /\ Forall P ms.

Lemma sends_only_refl P w : sends_only P w w.
Proof. exists []. split; [by rewrite app_nil_r|constructor]. Qed.

Lemma sends_only_trans P w1 w2 w3 :
  sends_only P w1 w2 -> sends_only P w2 w3 -> sends_only P w1 w3.
Proof.
  intros (m1 & H1 & F1) (m2 & H2 & F2). exists (m1 ++ m2). split.
  - by rewrite H2, H1, app_assoc.
  - by apply Forall_app.
Qed.

Lemma AckTx_send_sends (P : AckMsg -> Prop) m w w' :
  P m -> ack_tx w' = ack_tx w -> sends_only P w (AckTx_send m w').
Proof.
  intros Hm Hq. unfold sends_only, AckTx_send, send; simpl. rewrite Hq.
  destruct (connected (ack_tx w)); simpl.
  - exists [m]. by repeat constructor.
  - exists []. by rewrite app_nil_r.
Qed.

(** A drop sends at most the dropped state's own message and leaves the
    status of every state as it was. *)
Lemma AckRef_drop_spec (P : AckMsg -> Prop) r w :
  (forall s, heap w !! r = Some s ->
     P (mkAckMsg (as_id s) (as_last_offset s) (resolved_status (as_status s)))) ->
  sends_only P w (AckRef_drop r w) /\
  (forall q s, heap (AckRef_drop r w) !! q = Some s ->
     exists s0, heap w !! q = Some s0 /\ as_id s0 = as_id s /\
       as_last_offset s0 = as_last_offset s /\ as_status s0 = as_status s).
Proof.
  intros HP. unfold AckRef_drop. destruct (heap w !! r) as [s|] eqn:Hr.
  2:{ split; [apply sends_only_refl|naive_solver]. }
  case_bool_decide.
  - split; [by apply AckTx_send_sends; auto|].
    simpl. intros q s' [_ Hq]%lookup_delete_Some. eauto.
  - split; [apply (sends_only_refl P w)|].
    simpl. intros q s'. rewrite lookup_insert. case_decide; [subst|by eauto].
    intros [= <-]. by eauto.
Qed.

Lemma drop_refs_spec (P : AckMsg -> Prop) rs : forall w,
  (forall r s, r ∈ rs -> heap w !! r = Some s ->
     P (mkAckMsg (as_id s) (as_last_offset s) (resolved_status (as_status s)))) ->
  sends_only P w (drop_refs rs w) /\
  (forall q s, heap (drop_refs rs w) !! q = Some s ->
     exists s0, heap w !! q = Some s0 /\ as_id s0 = as_id s /\
       as_last_offset s0 = as_last_offset s /\ as_status s0 = as_status s).
Proof.
  induction rs as [|r rs IH]; intros w HP; simpl.
  { split; [apply sends_only_refl|naive_solver]. }
  destruct (AckRef_drop_spec P r w) as [Hs Hh].
  { intros s Hs. eapply HP; [by left|done]. }
  destruct (IH (AckRef_drop r w)) as [Hs' Hh'].
  { intros q s Hq (s0 & Hq0 & <- & <- & <-)%Hh. eapply HP; [by right|done]. }
  split; [by eapply sends_only_trans|].
  intros q s (s0 & (s1 & Hq1 & E1 & E2 & E3)%Hh & E4 & E5 & E6)%Hh'.
  exists s1. by rewrite E1, E2, E3.
Qed.

Lemma fail_all_spec rs : forall w,
  let w' := foldl (fun w r => AckRef_fail r w) w rs in
  ack_tx w' = ack_tx w /\
  forall q s, heap w' !! q = Some s ->
    (q ∈ rs -> as_status s = status_u8 Failed) /\
    exists s0, heap w !! q = Some s0 /\ as_id s0 = as_id s /\
      as_last_offset s0 = as_last_offset s /\
      (as_status s = as_status s0 \/ as_status s = status_u8 Failed).
Proof.
  induction rs as [|r rs IH]; intros w; simpl.
  { split; [done|]. intros q s Hq. split; [by intros ?%elem_of_nil|]. eauto 6. }
  destruct (IH (AckRef_fail r w)) as [Ht Hh]. split; [done|].
  intros q s (Hf & s0 & Hq0 & E1 & E2 & E3)%Hh. simpl in Hq0.
  rewrite lookup_alter in Hq0. case_decide as Hqr; [subst q|].
  - apply fmap_Some in Hq0 as (s1 & Hq1 & ->). simpl in *.
    split; [by intros; destruct E3|].
    exists s1. split_and!; auto. by right; destruct E3.
  - split; [by intros [->|]%elem_of_cons; auto|]. eauto 6.
Qed.

(** Dropping a set fails its handles, then resolves those it held last. *)
Lemma AckSet_drop_spec (s : AckSet) (w : Acks) :
  sends_only (fun m => am_status m = Failed) w (AckSet_drop s w) /\
  forall r st, heap (AckSet_drop s w) !! r = Some st ->
    (r ∈ s -> as_status st = status_u8 Failed) /\
    exists st0, heap w !! r = Some st0 /\
      (as_status st = as_status st0 \/ as_status st = status_u8 Failed).
Proof.
  unfold AckSet_drop. destruct (fail_all_spec s w) as [Ht Hh].
  destruct (drop_refs_spec (fun m => am_status m = Failed) s
              (foldl (fun w r => AckRef_fail r w) w s)) as [Hs Hd].
  { intros r st Hr Hst. simpl. apply Hh in Hst as [Hf _]. by rewrite Hf. }
  split.
  - destruct Hs as (ms & Hms & HF). exists ms. by rewrite <- Ht.
  - intros r st (s0 & Hr0 & _ & _ & <-)%Hd. apply Hh in Hr0 as (Hf & s1 & ? & _ & _ & ?). eauto.
Qed.

(** Dropping several sets, one after the other. *)
Definition AckSets_drop (ss : list AckSet) (w : Acks) : Acks :=
  foldl (fun w s => AckSet_drop s w) w ss.

Lemma elem_of_sets (a : AckRef) (ss : list AckSet) : (exists s, s ∈ ss /\ a ∈ s) -> a ∈ concat ss.
Proof. rewrite list_elem_of_In, in_concat. intros (s & Hs & Ha). exists s. by rewrite <- !list_elem_of_In. Qed.

Lemma AckSets_drop_spec (ss : list AckSet) : forall w,
  sends_only (fun m => am_status m = Failed) w (AckSets_drop ss w) /\
  forall r st, heap (AckSets_drop ss w) !! r = Some st ->
    (r ∈ concat ss -> as_status st = status_u8 Failed) /\
    exists st0, heap w !! r = Some st0 /\
      (as_status st = as_status st0 \/ as_status st = status_u8 Failed).
Proof.
  induction ss as [|s ss IH]; intros w; cbn.
  { split; [apply sends_only_refl|]. intros r st Hr. split; [by intros ?%elem_of_nil|eauto]. }
  destruct (AckSet_drop_spec s w) as [Hs Hh]. destruct (IH (AckSet_drop s w)) as [Hs' Hh'].
  split; [by eapply sends_only_trans|].
  intros r st (Hf & s0 & Hr0 & E0)%Hh'. apply Hh in Hr0 as (Hf0 & s1 & Hr1 & E1). split.
  - intros [Hin|Hin]%elem_of_app; [|auto]. destruct E0 as [->|]; auto.
  - exists s1. split; [done|]. destruct E0 as [->|]; auto.
Qed.

(** The state behind [r] is gone or marked failed, and [r] is not reused. *)
Definition failed_ref (w : Acks) (r : AckRef) : Prop :=
  (r < fresh_ref w)%nat /\ forall st, heap w !! r = Some st -> as_status st = status_u8 Failed.

Lemma ack_step_fresh o w : (fresh_ref w <= fresh_ref (ack_step o w))%nat.
Proof.
  destruct o as [id off|q|q|q]; cbn; try lia. unfold AckRef_drop.
  destruct (heap w !! q); [|lia]. case_bool_decide; cbn; lia.
Qed.

(** No operation of any holder undoes a failure. *)
Lemma failed_ref_step o w r : failed_ref w r -> failed_ref (ack_step o w) r.
Proof.
  intros [Hlt Hf]. split; [pose proof (ack_step_fresh o w); lia|]. intros st.
  destruct o as [id off|q|q|q]; cbn.
  - rewrite lookup_insert_ne by lia. apply Hf.
  - rewrite lookup_alter_Some. intros [(-> & s & Hs & ->)|[_ Hs]]; [|by apply Hf]. by apply (Hf s).
  - rewrite lookup_alter_Some. intros [(-> & s & Hs & ->)|[_ Hs]]; [done|by apply Hf].
  - destruct (AckRef_drop_spec (fun _ => True) q w) as [_ Hd]; [done|].
    intros (s0 & Hs0 & _ & _ & <-)%Hd. by apply Hf.
Qed.

Lemma ack_run_fresh ops : forall w, (fresh_ref w <= fresh_ref (ack_run ops w))%nat.
Proof.
  induction ops as [|o ops IH]; intros w; cbn; [lia|].
  pose proof (ack_step_fresh o w). specialize (IH (ack_step o w)). unfold ack_run in IH. lia.
Qed.

Lemma failed_ref_run ops : forall w r, failed_ref w r -> failed_ref (ack_run ops w) r.
Proof.
  induction ops as [|o ops IH]; intros w r Hf; cbn; [done|]. apply IH. by apply failed_ref_step.
Qed.

Lemma drop_refs_run s w : drop_refs s w = ack_run (ODrop <$> s) w.
Proof. unfold drop_refs, ack_run. by rewrite foldl_fmap. Qed.

Lemma AckSet_drop_run s w : AckSet_drop s w = ack_run ((OFail <$> s) ++ (ODrop <$> s)) w.
Proof. unfold AckSet_drop, ack_run. by rewrite foldl_app, !foldl_fmap. Qed.

Lemma AckSet_deliver_run s w : AckSet_deliver s w = ack_run (ODrop <$> s) w.
Proof. unfold AckSet_deliver. rewrite <- drop_refs_run. done. Qed.

Lemma AckSets_drop_run ss w : exists ops, AckSets_drop ss w = ack_run ops w.
Proof.
  revert w. induction ss as [|s ss IH]; intros w; cbn; [by exists []|].
  destruct (IH (AckSet_drop s w)) as [ops Hops]. unfold AckSets_drop in *. rewrite Hops, AckSet_drop_run.
  exists (((OFail <$> s) ++ (ODrop <$> s)) ++ ops). unfold ack_run. by rewrite (foldl_app _ (_ ++ _) ops).
Qed.

(** A dropped set leaves each of its handles failed. *)
Lemma AckSet_drop_failed s w r : (r < fresh_ref w)%nat -> r ∈ s -> failed_ref (AckSet_drop s w) r.
Proof.
  intros Hlt Hin. split.
  - rewrite AckSet_drop_run. pose proof (ack_run_fresh ((OFail <$> s) ++ (ODrop <$> s)) w). lia.
  - intros st Hst. destruct (AckSet_drop_spec s w) as [_ Hh]. by apply Hh in Hst as [? _]; auto.
Qed.

Lemma AckSets_drop_failed ss w r :
  (r < fresh_ref w)%nat -> r ∈ concat ss -> failed_ref (AckSets_drop ss w) r.
Proof.
  intros Hlt Hin. split.
  - destruct (AckSets_drop_run ss w) as [ops ->]. pose proof (ack_run_fresh ops w). lia.
  - intros st Hst. destruct (AckSets_drop_spec ss w) as [_ Hh]. by apply Hh in Hst as [? _]; auto.
Qed.

(** Dropping an [AckSet] whose data was not written never resolves a batch
    as delivered. Every message the drop sends is [Failed], and a batch whose
    other handles are still alive is left marked failed, so its later
    resolution is [Failed] too. *)
Theorem ack_set_drop_never_delivers (s : AckSet) (w : Acks) :
  sends_only (fun m => am_status m = Failed) w (AckSet_drop s w) /\
  forall r st, r ∈ s -> heap (AckSet_drop s w) !! r = Some st ->
    as_status st = status_u8 Failed.
Proof.
  destruct (AckSet_drop_spec s w) as [Hs Hh]. split; [done|].
  intros r st Hin Hr. by apply Hh in Hr as [? _]; auto.
Qed.

(** Delivering an [AckSet] marks nothing: every message it sends carries
    the status its batch already had, and every surviving batch keeps its
    status. *)
Theorem ack_set_deliver_keeps_status (s : AckSet) (w : Acks) :
  sends_only (fun m => exists r st, r ∈ s /\ heap w !! r = Some st /\
      m = mkAckMsg (as_id st) (as_last_offset st) (resolved_status (as_status st)))
    w (AckSet_deliver s w) /\
  forall r st, heap (AckSet_deliver s w) !! r = Some st ->
    exists st0, heap w !! r = Some st0 /\ as_status st0 = as_status st.
Proof.
  unfold AckSet_deliver, AckSet_drop; simpl.
  destruct (drop_refs_spec (fun m => exists r st, r ∈ s /\ heap w !! r = Some st /\
      m = mkAckMsg (as_id st) (as_last_offset st) (resolved_status (as_status st)))
    s w) as [Hs Hd]; [eauto 8|].
  split; [done|]. intros r st (s0 & ? & _ & _ & ?)%Hd. eauto.
Qed.
