(* ===== verification/Tracker.v ===== *)
(** * Per-partition contiguity tracking
    ([spate-core/src/checkpoint/tracker.rs])

    [PartitionTracker] with its operations, the reference model a tracker is
    held to (every batch ever registered, with its resolution, and the length
    of the committed prefix), and the refinement between the two. *)

From stdpp Require Import base list sorting.
From Stdlib Require Import ZArith Lia.
From S2P Require Import Prelude Ack.

(** Result of applying one resolution. *)
Inductive ResolveOutcome := Applied | Duplicate | AlreadyAdvanced | Unregistered.

Inductive SlotState := SPending | SDelivered | SFailed.

Record Slot := mkSlot {
  slot_last_offset : Z;
  slot_state : SlotState;
}.

#[export] Instance ResolveOutcome_eq_dec : EqDecision ResolveOutcome.
Proof. solve_decision. Defined.
#[export] Instance SlotState_eq_dec : EqDecision SlotState.
Proof. solve_decision. Defined.

(** Contiguity tracker of one partition within one assignment epoch. An
    [Instant] is its distance in nanoseconds from the clock's origin. *)
Record PartitionTracker := mkTracker {
  head_seq : Z;
  next_seq : Z;
  ring : list Slot;
  stalled_since : option Z;
  stalled_seq : option Z;
}.

(** [PartitionTracker::new]. *)
Definition tracker_new : PartitionTracker := mkTracker 0 0 [] None None.

(** [PartitionTracker::register]; [None] is the panic on a sequence gap. *)
Definition register (t : PartitionTracker) (seq last_offset : Z)
    : option PartitionTracker :=
  if bool_decide (seq = next_seq t)
  then Some (mkTracker (head_seq t) (wrap_u64 (next_seq t + 1))
               (ring t ++ [mkSlot last_offset SPending])
               (stalled_since t) (stalled_seq t))
  else None.

Definition slot_of_status (status : AckStatus) : SlotState :=
  match status with Delivered => SDelivered | Failed => SFailed end.

(** [PartitionTracker::resolve]. *)
Definition resolve (t : PartitionTracker) (seq : Z) (status : AckStatus)
    : PartitionTracker * ResolveOutcome :=
  if bool_decide (seq < head_seq t) then (t, AlreadyAdvanced)
  else
    let idx := Z.to_nat (seq - head_seq t) in
    match ring t !! idx with
    | None => (t, Unregistered)
    | Some slot =>
        if bool_decide (slot_state slot <> SPending) then (t, Duplicate)
        else (mkTracker (head_seq t) (next_seq t)
                (<[idx := mkSlot (slot_last_offset slot) (slot_of_status status)]> (ring t))
                (stalled_since t) (stalled_seq t), Applied)
    end.

(** The [while let] loop of [advance_on]; [now] is what [clock.now()] reads
    when the loop stamps a stall. *)
Fixpoint advance_loop (now : Z) (rest : list Slot) (head next : Z)
    (since sseq committable : option Z) : PartitionTracker * option Z :=
  match rest with
  | [] => (mkTracker head next [] since sseq, committable)
  | slot :: tl =>
      match slot_state slot with
      | SDelivered =>
          advance_loop now tl (wrap_u64 (head + 1)) next since sseq
            (Some (wrap_i64 (slot_last_offset slot + 1)))
      | SFailed =>
          match since with
          | None => (mkTracker head next rest (Some now) (Some head), committable)
          | Some _ => (mkTracker head next rest since sseq, committable)
          end
      | SPending => (mkTracker head next rest since sseq, committable)
      end
  end.

(** [PartitionTracker::advance_on]. *)
Definition advance_on (now : Z) (t : PartitionTracker) : PartitionTracker * option Z :=
  advance_loop now (ring t) (head_seq t) (next_seq t)
    (stalled_since t) (stalled_seq t) None.

(** [PartitionTracker::stalled] and [PartitionTracker::pending]. *)
Definition stalled (t : PartitionTracker) : bool := bool_decide (is_Some (stalled_since t)).
Definition pending (t : PartitionTracker) : nat := length (ring t).

(** ** Reference model

    Every batch registered in the epoch, in order, with its resolution if it
    has one, and how many of them the watermark has moved past. *)
Record Reference := mkReference {
  batches : list (Z * option AckStatus);
  committed : nat;
}.

Definition ref_new : Reference := mkReference [] 0.

Definition ref_register (r : Reference) (seq last_offset : Z) : option Reference :=
  if bool_decide (seq = Z.of_nat (length (batches r)))
  then Some (mkReference (batches r ++ [(last_offset, None)]) (committed r))
  else None.

Definition ref_resolve (r : Reference) (seq : Z) (status : AckStatus)
    : Reference * ResolveOutcome :=
  if bool_decide (seq < Z.of_nat (committed r)) then (r, AlreadyAdvanced)
  else match batches r !! Z.to_nat seq with
       | None => (r, Unregistered)
       | Some (_, Some _) => (r, Duplicate)
       | Some (o, None) =>
           (mkReference (<[Z.to_nat seq := (o, Some status)]> (batches r)) (committed r),
            Applied)
       end.

(** Length of the delivered run at the front of a list of batches. *)
Fixpoint delivered_run (l : list (Z * option AckStatus)) : nat :=
  match l with
  | (_, Some Delivered) :: l => S (delivered_run l)
  | _ => O
  end.

(** The longest delivered prefix is committed; the position is one past the
    last batch of it, when it grew. *)
Definition ref_advance (r : Reference) : Reference * option Z :=
  let n := delivered_run (drop (committed r) (batches r)) in
  let c := (committed r + n)%nat in
  (mkReference (batches r) c,
   match n with
   | O => None
   | S _ => (fun b => wrap_i64 (b.1 + 1)) <$> batches r !! pred c
   end).

(** Whether the first uncommitted batch has failed. *)
Definition ref_blocked (r : Reference) : bool :=
  match batches r !! committed r with
  | Some (_, Some Failed) => true
  | _ => false
  end.

(** ** Operation sequences *)

Inductive TrackerOp :=
  | TRegister (seq last_offset : Z)
  | TResolve (seq : Z) (status : AckStatus)
  | TAdvance (now : Z).

Inductive TrackerOut :=
  | TRegistered
  | TResolved (o : ResolveOutcome)
  | TAdvanced (w : option Z) (stalled : bool).

Definition tracker_step (o : TrackerOp) (t : PartitionTracker)
    : option (PartitionTracker * TrackerOut) :=
  match o with
  | TRegister s off => (fun t => (t, TRegistered)) <$> register t s off
  | TResolve s st => let '(t, r) := resolve t s st in Some (t, TResolved r)
  | TAdvance now => let '(t, w) := advance_on now t in Some (t, TAdvanced w (stalled t))
  end.

Definition ref_step (o : TrackerOp) (r : Reference) : option (Reference * TrackerOut) :=
  match o with
  | TRegister s off => (fun r => (r, TRegistered)) <$> ref_register r s off
  | TResolve s st => let '(r, x) := ref_resolve r s st in Some (r, TResolved x)
  | TAdvance _ => let '(r, w) := ref_advance r in Some (r, TAdvanced w (ref_blocked r))
  end.

(** Runs an operation sequence; [None] once an operation panics. *)
Fixpoint run {S} (step : TrackerOp -> S -> option (S * TrackerOut))
    (ops : list TrackerOp) (s : S) : option (S * list TrackerOut) :=
  match ops with
  | [] => Some (s, [])
  | o :: ops =>
      match step o s with
      | None => None
      | Some (s', x) =>
          match run step ops s' with
          | None => None
          | Some (s'', xs) => Some (s'', x :: xs)
          end
      end
  end.

(** ** Refinement *)

Definition slot_of (b : Z * option AckStatus) : Slot :=
  mkSlot b.1 (match b.2 with None => SPending | Some s => slot_of_status s end).

(** Whether a list of batches starts with a failed one. *)
Definition failed_first (l : list (Z * option AckStatus)) : bool :=
  match l with (_, Some Failed) :: _ => true | _ => false end.

(** The stall stamps an advance leaves, from the ones it found. *)
Definition stamp {A} (b : bool) (old : option A) (new : A) : option A :=
  match old with None => if b then Some new else None | Some _ => old end.

Lemma delivered_run_le l : (delivered_run l <= length l)%nat.
Proof. induction l as [|[o [[]|]] l IH]; simpl; lia. Qed.

Lemma delivered_run_Forall l :
  Forall (fun b => b.2 = Some Delivered) (take (delivered_run l) l).
Proof. induction l as [|[o [[]|]] l IH]; simpl; by constructor. Qed.

Lemma delivered_run_stop l b :
  l !! delivered_run l = Some b -> b.2 <> Some Delivered.
Proof. induction l as [|[o [[]|]] l IH]; simpl; intros; simplify_eq/=; auto. Qed.

Lemma failed_first_drop r :
  failed_first (drop (committed r) (batches r)) = ref_blocked r.
Proof.
  unfold ref_blocked, failed_first.
  rewrite <- (Nat.add_0_r (committed r)) at 2. rewrite <- lookup_drop.
  by destruct (drop _ _) as [|[? [[]|]] ?].
Qed.

Lemma advance_loop_spec now next l : forall head since sseq c,
  0 <= head -> head + Z.of_nat (length l) <= U64_MAX ->
  let n := delivered_run l in
  let b := failed_first (drop n l) in
  advance_loop now (slot_of <$> l) head next since sseq c =
    (mkTracker (head + Z.of_nat n) next (slot_of <$> drop n l)
       (stamp b since now)
       (if b then match since with None => Some (head + Z.of_nat n) | _ => sseq end
        else sseq),
     match n with
     | O => c
     | S m => (fun x => wrap_i64 (x.1 + 1)) <$> l !! m
     end).
Proof.
  induction l as [|[o s] l IH]; intros head since sseq c H0 Hmax; simpl in *.
  { rewrite Z.add_0_r. by destruct since. }
  destruct s as [[]|]; simpl.
  - rewrite wrap_u64_small by (unfold_int; lia).
    rewrite IH by lia. simpl.
    replace (head + 1 + Z.of_nat (delivered_run l))
      with (head + Z.of_nat (S (delivered_run l))) by lia.
    f_equal. by destruct (delivered_run l).
  - rewrite Z.add_0_r. by destruct since.
  - rewrite Z.add_0_r. by destruct since.
Qed.

(** The tracker [t] implements the reference state [r]. *)
Record refines (t : PartitionTracker) (r : Reference) : Prop := mk_refines {
  rf_head : head_seq t = Z.of_nat (committed r);
  rf_next : next_seq t = Z.of_nat (length (batches r));
  rf_le : (committed r <= length (batches r))%nat;
  rf_room : Z.of_nat (length (batches r)) <= U64_MAX;
  rf_ring : ring t = slot_of <$> drop (committed r) (batches r);
  rf_prefix : Forall (fun b => b.2 = Some Delivered) (take (committed r) (batches r));
  rf_stalled : is_Some (stalled_since t) -> ref_blocked r = true;
}.

Lemma refines_new : refines tracker_new ref_new.
Proof. split; simpl; try done; try lia; by constructor. Qed.

Lemma refines_register t r s off :
  refines t r -> Z.of_nat (length (batches r)) < U64_MAX ->
  match register t s off, ref_register r s off with
  | Some t', Some r' => refines t' r'
  | None, None => True
  | _, _ => False
  end.
Proof.
  intros [Hh Hn Hle Hroom Hr Hp Hs] Hlt. unfold register, ref_register.
  rewrite Hn. case_bool_decide; [|done].
  split; simpl; rewrite ?length_app; simpl; try lia.
  - rewrite wrap_u64_small by (unfold_int; lia). lia.
  - rewrite Hr, drop_app_le, fmap_app by lia. done.
  - rewrite take_app_le by lia. done.
  - intros H2. unfold ref_blocked in *. simpl.
    apply Hs in H2. destruct (batches r !! committed r) as [x|] eqn:E; [|done].
    by rewrite (lookup_app_l_Some _ _ _ _ E).
Qed.

Lemma refines_resolve t r s st :
  refines t r ->
  refines (resolve t s st).1 (ref_resolve r s st).1 /\
  (resolve t s st).2 = (ref_resolve r s st).2.
Proof.
  intros [Hh Hn Hle Hroom Hr Hp Hs]. unfold resolve, ref_resolve. rewrite Hh.
  case_bool_decide as Hlt; [by split|].
  set (i := Z.to_nat (s - Z.of_nat (committed r))).
  assert (Hi : Z.to_nat s = (committed r + i)%nat) by lia.
  rewrite Hr, list_lookup_fmap, lookup_drop, <- Hi.
  destruct (batches r !! Z.to_nat s) as [[o [a|]]|] eqn:E; simpl; [| |by split].
  { by destruct a. }
  split; [|done].
  assert (Hil : (i < length (drop (committed r) (batches r)))%nat).
  { rewrite length_drop. apply lookup_lt_Some in E. lia. }
  split; simpl; rewrite ?length_insert; try done.
  - rewrite drop_insert_ge by lia. rewrite list_fmap_insert.
    by replace (Z.to_nat s - committed r)%nat with i by lia.
  - rewrite take_insert_ge by lia. done.
  - intros Hst%Hs. unfold ref_blocked in *; simpl.
    rewrite list_lookup_insert_ne; [done|].
    intros Heq. rewrite <- Heq, E in Hst. done.
Qed.

Lemma refines_advance t r now :
  refines t r ->
  refines (advance_on now t).1 (ref_advance r).1 /\
  (advance_on now t).2 = (ref_advance r).2 /\
  stalled (advance_on now t).1 = ref_blocked (ref_advance r).1.
Proof.
  intros [Hh Hn Hle Hroom Hr Hp Hs]. unfold advance_on, ref_advance.
  rewrite Hr, advance_loop_spec by (rewrite ?length_drop; lia). simpl.
  set (l := drop (committed r) (batches r)). set (n := delivered_run l).
  pose proof (delivered_run_le l) as Hn'. fold n in Hn'.
  assert (Hll : length l = (length (batches r) - committed r)%nat)
    by apply length_drop.
  assert (Hdd : drop n l = drop (committed r + n) (batches r))
    by (unfold l; by rewrite drop_drop).
  assert (Hb : failed_first (drop n l) = ref_blocked (mkReference (batches r) (committed r + n))).
  { rewrite Hdd. by rewrite <- failed_first_drop. }
  assert (Hsl : is_Some (stalled_since t) -> n = O).
  { intros Hst%Hs. rewrite <- failed_first_drop in Hst. fold l in Hst.
    unfold n. by destruct l as [|[? [[]|]] ?]. }
  assert (Hst : is_Some (stamp (failed_first (drop n l)) (stalled_since t) now) <->
                failed_first (drop n l) = true).
  { destruct (stalled_since t) eqn:Hss; simpl.
    - split; [|by eauto]. intros _. rewrite Hsl, drop_0 by eauto. unfold l.
      rewrite failed_first_drop. apply Hs; eauto.
    - destruct (failed_first _); split; intros; by try done. }
  split_and!.
  - split; simpl; try (done || lia).
    + by rewrite Hdd.
    + rewrite <- take_take_drop. apply Forall_app. split; [done|].
      apply delivered_run_Forall.
    + rewrite <- Hb. by apply Hst.
  - destruct n as [|m] eqn:Em; [done|]. unfold l. rewrite lookup_drop.
    by replace (committed r + m)%nat with (pred (committed r + S m)) by lia.
  - unfold stalled; simpl. rewrite <- Hb.
    rewrite (bool_decide_ext _ _ Hst). by destruct (failed_first _).
Qed.

(** One operation: equal outputs and related states, panics included. *)
Lemma refines_step o t r :
  refines t r -> Z.of_nat (length (batches r)) < U64_MAX ->
  match tracker_step o t, ref_step o r with
  | Some (t', x), Some (r', y) =>
      refines t' r' /\ x = y /\ (length (batches r') <= S (length (batches r)))%nat
  | None, None => True
  | _, _ => False
  end.
Proof.
  intros Hrf Hlt. destruct o as [s off|s st|now]; unfold tracker_step, ref_step.
  - pose proof (refines_register t r s off Hrf Hlt) as H.
    unfold ref_register in *.
    destruct (register t s off), (bool_decide (s = _)); simpl in *; try done.
    rewrite length_app; simpl. split_and!; try done; try lia.
  - destruct (refines_resolve t r s st Hrf) as [H1 H2].
    assert (length (batches (ref_resolve r s st).1) = length (batches r)) as Hl.
    { unfold ref_resolve. case_bool_decide; [done|].
      destruct (batches r !! _) as [[? []]|]; simpl; auto using length_insert. }
    destruct (resolve t s st), (ref_resolve r s st); simpl in *.
    split_and!; [done|by f_equal|lia].
  - destruct (refines_advance t r now Hrf) as (H1 & H2 & H3).
    assert (length (batches (ref_advance r).1) = length (batches r)) as Hl by done.
    destruct (advance_on now t), (ref_advance r); simpl in *.
    split_and!; [done|by f_equal|lia].
Qed.

Lemma refines_run ops : forall t r,
  refines t r -> Z.of_nat (length (batches r)) + Z.of_nat (length ops) <= U64_MAX ->
  match run tracker_step ops t, run ref_step ops r with
  | Some (t', xs), Some (r', ys) => refines t' r' /\ xs = ys
  | None, None => True
  | _, _ => False
  end.
Proof.
  induction ops as [|o ops IH]; intros t r Hrf Hlen; simpl in *; [done|].
  pose proof (refines_step o t r Hrf ltac:(lia)) as Hs.
  destruct (tracker_step o t) as [[t' x]|], (ref_step o r) as [[r' y]|]; try done.
  destruct Hs as (Hrf' & -> & Hl).
  pose proof (IH t' r' Hrf' ltac:(lia)) as Hrun.
  destruct (run tracker_step ops t') as [[t'' xs]|],
    (run ref_step ops r') as [[r'' ys]|]; try done.
  by destruct Hrun as [? ->].
Qed.

(** C2: the tracker implements its reference model. Over any sequence of
    registrations, resolutions and advances, in any order and with any
    sequence numbers, the tracker's outputs (outcome of each resolution, the
    position each advance returns, the stall flag) and its panics are those of
    the model that keeps every batch and recomputes the delivered prefix, and
    the final tracker holds exactly the model's uncommitted batches. *)
Theorem tracker_refines_reference (ops : list TrackerOp) :
  Z.of_nat (length ops) <= U64_MAX ->
  match run tracker_step ops tracker_new, run ref_step ops ref_new with
  | Some (t, xs), Some (r, ys) =>
      xs = ys /\ pending t = (length (batches r) - committed r)%nat /\
      ring t = slot_of <$> drop (committed r) (batches r)
  | None, None => True
  | _, _ => False
  end.
Proof.
  intros Hlen. pose proof (refines_run ops _ _ refines_new Hlen) as H.
  destruct (run tracker_step ops _) as [[t xs]|], (run ref_step ops _) as [[r ys]|];
    try done.
  destruct H as [[_ _ _ _ Hr _ _] ->]. unfold pending.
  rewrite Hr, length_fmap, length_drop. auto.
Qed.

Lemma tracker_refines_reference_witness :
  (2 <= 2)%nat /\
  match run tracker_step [TRegister 0 9; TAdvance 5] tracker_new,
        run ref_step [TRegister 0 9; TAdvance 5] ref_new with
  | Some (t, xs), Some (r, ys) =>
      xs = ys /\ pending t = (length (batches r) - committed r)%nat /\
      ring t = slot_of <$> drop (committed r) (batches r)
  | None, None => True
  | _, _ => False
  end.
Proof.
  split; [lia|]. apply (tracker_refines_reference [TRegister 0 9; TAdvance 5]).
  vm_compute. discriminate.
Defined.

(** ** The watermark over time *)

(** The positions a run's advances returned, in order. *)
Definition positions (xs : list TrackerOut) : list Z :=
  omap (fun x => match x with TAdvanced w _ => w | _ => None end) xs.

(** The last offsets a sequence of operations registers, in order. *)
Definition registered (ops : list TrackerOp) : list Z :=
  omap (fun o => match o with TRegister _ off => Some off | _ => None end) ops.

(** Offsets a source hands out: strictly increasing, with a successor. *)
Definition increasing_offsets (l : list Z) : Prop :=
  StronglySorted Z.lt l /\ Forall (fun o => I64_MIN <= o < I64_MAX) l.

Lemma StronglySorted_lookup (l : list Z) i j x y :
  StronglySorted Z.lt l -> l !! i = Some x -> l !! j = Some y -> (i < j)%nat -> x < y.
Proof.
  intros Hs. revert i j. induction Hs as [|z l Hs IH HF]; intros i j Hi Hj Hij; [done|].
  destruct j as [|j]; [lia|]. destruct i as [|i]; simpl in *; simplify_eq.
  - rewrite Forall_forall in HF. apply HF. by apply list_elem_of_lookup_2 in Hj.
  - eapply IH; eauto; lia.
Qed.

Lemma ref_step_grows o r r' x :
  ref_step o r = Some (r', x) -> (committed r <= length (batches r))%nat ->
  (batches r').*1 = (batches r).*1 ++ registered [o] /\
  (committed r <= committed r' <= length (batches r'))%nat /\
  forall w, positions [x] = [w] ->
    exists b, batches r' !! pred (committed r') = Some b /\ w = wrap_i64 (b.1 + 1) /\
      (committed r < committed r')%nat.
Proof.
  intros Hs Hle. destruct o as [s off|s st|now]; unfold ref_step in Hs.
  - unfold ref_register in Hs. case_bool_decide; simplify_eq/=.
    rewrite fmap_app, length_app. simpl. split_and!; try done; try lia.
  - unfold ref_resolve in Hs. case_bool_decide; simplify_eq/=;
      [rewrite app_nil_r; try done; try lia|].
    destruct (batches r !! _) as [[o []]|] eqn:E; simplify_eq/=;
      rewrite ?app_nil_r, ?length_insert; split_and!; try done; try lia.
    rewrite list_fmap_insert. apply list_insert_id.
    by rewrite list_lookup_fmap, E.
  - unfold ref_advance in Hs. simplify_eq/=. rewrite app_nil_r.
    pose proof (delivered_run_le (drop (committed r) (batches r))) as Hd.
    rewrite length_drop in Hd. split_and!; try done; try lia.
    destruct (delivered_run _) as [|m] eqn:Em; [done|].
    destruct (batches r !! _) as [b|] eqn:E; [|done].
    simpl. intros w [= <-]. exists b. split_and!; try done; try lia.
Qed.

Lemma ref_run_positions ops : forall r r' ys,
  run ref_step ops r = Some (r', ys) -> (committed r <= length (batches r))%nat ->
  increasing_offsets ((batches r).*1 ++ registered ops) ->
  StronglySorted Z.lt (positions ys) /\
  forall k o w, (k < committed r)%nat -> (batches r).*1 !! k = Some o ->
    w ∈ positions ys -> o + 1 < w.
Proof.
  induction ops as [|o ops IH]; intros r r' ys Hrun Hle Hinc; simpl in Hrun.
  { simplify_eq/=. split; [constructor|]. by intros ???? ? ?%elem_of_nil. }
  destruct (ref_step o r) as [[r1 x]|] eqn:Hs; [|done].
  destruct (run ref_step ops r1) as [[r2 xs]|] eqn:Hr; [|done]. simplify_eq.
  destruct (ref_step_grows _ _ _ _ Hs Hle) as (Hb & [Hc1 Hc2] & Hw).
  assert (Hinc1 : increasing_offsets ((batches r1).*1 ++ registered ops)).
  { rewrite Hb, <- app_assoc. unfold registered in *. by rewrite <- omap_app. }
  destruct (IH _ _ _ Hr Hc2 Hinc1) as [Hsort Hlow].
  assert (Hlow' : forall k o0 w, (k < committed r)%nat -> (batches r).*1 !! k = Some o0 ->
                    w ∈ positions xs -> o0 + 1 < w).
  { intros k o0 w Hk Ho. apply (Hlow k); [lia|]. rewrite Hb.
    by apply lookup_app_l_Some. }
  assert (Hpos : positions (x :: xs) = positions [x] ++ positions xs).
  { unfold positions. by rewrite <- omap_app. }
  rewrite Hpos. destruct (positions [x]) as [|w [|]] eqn:Ew.
  - auto.
  - destruct (Hw w eq_refl) as (b & Hbk & -> & Hlt).
    assert (Hbo : (batches r1).*1 !! pred (committed r1) = Some b.1)
      by (by rewrite list_lookup_fmap, Hbk).
    destruct Hinc1 as [Hss HF].
    assert (I64_MIN <= b.1 < I64_MAX).
    { rewrite Forall_forall in HF. apply HF, elem_of_app. left.
      by apply list_elem_of_lookup_2 in Hbo. }
    rewrite wrap_i64_small by (unfold_int; lia). split.
    + simpl. constructor; [done|]. rewrite Forall_forall. intros w Hin.
      by apply (Hlow (pred (committed r1)) b.1 w); try done; try lia.
    + intros k o0 w Hk Ho [->|Hin]%elem_of_cons; [|by eapply Hlow'].
      enough (o0 < b.1) by lia.
      apply (StronglySorted_lookup ((batches r1).*1 ++ registered ops) k
               (pred (committed r1)) o0 b.1 Hss).
      * apply lookup_app_l_Some. rewrite Hb. by apply lookup_app_l_Some.
      * by apply lookup_app_l_Some.
      * lia.
  - exfalso. destruct x as [| |[]]; simpl in Ew; discriminate.
Qed.

(** the watermark only moves forward. When the offsets registered in the
    epoch increase, the positions returned by the advances of any run are
    strictly increasing, whatever the resolutions and their order. *)
Theorem watermark_monotonic (ops : list TrackerOp) (t : PartitionTracker)
    (xs : list TrackerOut) :
  Z.of_nat (length ops) <= U64_MAX ->
  run tracker_step ops tracker_new = Some (t, xs) ->
  increasing_offsets (registered ops) ->
  StronglySorted Z.lt (positions xs).
Proof.
  intros Hlen Hrun Hinc. pose proof (refines_run ops _ _ refines_new Hlen) as H.
  rewrite Hrun in H. destruct (run ref_step ops ref_new) as [[r ys]|] eqn:Hr; [|done].
  destruct H as [_ ->]. eapply ref_run_positions; [exact Hr|simpl; lia|exact Hinc].
Qed.

Lemma watermark_monotonic_witness :
  StronglySorted Z.lt (positions [TRegistered; TRegistered; TResolved Applied;
    TAdvanced None false; TResolved Applied; TAdvanced (Some 20) false]).
Proof.
  apply (watermark_monotonic
    [TRegister 0 9; TRegister 1 19; TResolve 1 Delivered; TAdvance 1;
     TResolve 0 Delivered; TAdvance 2]
    (mkTracker 2 2 [] None None)).
  - vm_compute. discriminate.
  - reflexivity.
  - split; [|repeat constructor; vm_compute; congruence].
    repeat constructor; lia.
Defined.

(** A failed batch at the head that has been stamped as a stall. *)
Definition blocked (t : PartitionTracker) : Prop :=
  is_Some (stalled_since t) /\
  exists slot rest, ring t = slot :: rest /\ slot_state slot = SFailed.

Lemma blocked_step o t t' x :
  blocked t -> tracker_step o t = Some (t', x) ->
  blocked t' /\ positions [x] = [] /\ head_seq t' = head_seq t /\
  stalled_seq t' = stalled_seq t.
Proof.
  intros [[since Hsince] (slot & rest & Hr & Hf)] Hs.
  destruct o as [s off|s st|now]; unfold tracker_step in Hs.
  - unfold register in Hs. case_bool_decide; simplify_eq/=. unfold blocked; simpl.
    rewrite Hr, Hsince. eauto 8.
  - unfold resolve in Hs. unfold blocked.
    case_bool_decide; simplify_eq/=; [rewrite Hr, Hsince; eauto 8|].
    destruct (ring t !! _) as [sl|] eqn:E; simplify_eq/=; [|rewrite Hr, Hsince; eauto 8].
    case_bool_decide as Hp; simplify_eq/=; [rewrite Hr, Hsince; eauto 8|].
    rewrite Hr in E |- *. destruct (Z.to_nat _) as [|i]; simplify_eq/=; [congruence|].
    rewrite Hsince. eauto 8.
  - unfold advance_on in Hs. rewrite Hr, Hsince in Hs. simpl in Hs. rewrite Hf in Hs.
    simplify_eq. unfold blocked; simpl. eauto 8.
Qed.

Lemma blocked_run ops : forall t t' xs,
  blocked t -> run tracker_step ops t = Some (t', xs) ->
  blocked t' /\ positions xs = [] /\ head_seq t' = head_seq t /\
  stalled_seq t' = stalled_seq t.
Proof.
  induction ops as [|o ops IH]; intros t t' xs Hb Hrun; simpl in Hrun; [by simplify_eq|].
  destruct (tracker_step o t) as [[t1 x]|] eqn:Hs; [|done].
  destruct (run tracker_step ops t1) as [[t2 ys]|] eqn:Hr; [|done]. simplify_eq.
  destruct (blocked_step _ _ _ _ Hb Hs) as (Hb1 & Hx & Hh1 & Hq1).
  destruct (IH _ _ _ Hb1 Hr) as (Hb2 & Hxs & Hh2 & Hq2).
  change (x :: ys) with ([x] ++ ys). unfold positions in *. rewrite omap_app, Hx, Hxs.
  split_and!; congruence || done.
Qed.

(** a stall is permanent. Once a failed batch has reached the head and been
    stamped, no later registration, resolution or advance moves the
    watermark: no advance returns a position, the head stays at the failed
    batch and the stall keeps naming it. *)
Theorem stall_is_permanent (ops0 ops : list TrackerOp) (t t' : PartitionTracker)
    (xs0 xs : list TrackerOut) :
  Z.of_nat (length ops0) <= U64_MAX ->
  run tracker_step ops0 tracker_new = Some (t, xs0) -> stalled t = true ->
  run tracker_step ops t = Some (t', xs) ->
  positions xs = [] /\ stalled t' = true /\ head_seq t' = head_seq t /\
  stalled_seq t' = stalled_seq t.
Proof.
  intros Hlen Hrun0 Hst Hrun. pose proof (refines_run ops0 _ _ refines_new Hlen) as H.
  rewrite Hrun0 in H. destruct (run ref_step ops0 ref_new) as [[r ys]|]; [|done].
  destruct H as [Hrf _]. unfold stalled in Hst. apply bool_decide_eq_true in Hst.
  assert (blocked t) as Hb.
  { split; [done|]. pose proof (rf_stalled _ _ Hrf Hst) as Hrb.
    rewrite <- failed_first_drop in Hrb. rewrite (rf_ring _ _ Hrf).
    destruct (drop _ _) as [|[o [[]|]] l]; simpl in *; try done. eauto. }
  destruct (blocked_run _ _ _ _ Hb Hrun) as ([Hs' _] & Hp & Hh & Hq).
  split_and!; try done. unfold stalled. by apply bool_decide_eq_true.
Qed.

Lemma stall_is_permanent_witness :
  positions [TRegistered; TResolved Applied; TAdvanced None true] = [] /\
  stalled (mkTracker 0 2 [mkSlot 9 SFailed; mkSlot 19 SDelivered] (Some 7) (Some 0)) = true /\
  0 = 0 /\ Some 0 = Some 0.
Proof.
  apply (stall_is_permanent [TRegister 0 9; TResolve 0 Failed; TAdvance 7]
           [TRegister 1 19; TResolve 1 Delivered; TAdvance 8]
           (mkTracker 0 1 [mkSlot 9 SFailed] (Some 7) (Some 0))
           (mkTracker 0 2 [mkSlot 9 SFailed; mkSlot 19 SDelivered] (Some 7) (Some 0))
           [TRegistered; TResolved Applied; TAdvanced None true]);
    [vm_compute; discriminate|reflexivity..].
Defined.
