(* ===== verification/Checkpointer.v ===== *)
(** * The checkpointer ([spate-core/src/checkpoint/checkpointer.rs] and
    [gate.rs])

    [AckIssuer] on the pipeline threads, [Checkpointer] on the controller
    thread, and the advance counters they share with the drivers' pending
    gates. Counters are [Arc]s, so a gate handed to a driver and the
    checkpointer's own entry name one cell of a store. *)

From stdpp Require Import base list gmap sorting.
From Stdlib Require Import ZArith Lia.
From S2P Require Import Prelude Ack Tracker.

(** Registration of a newly issued batch, sent issuer to checkpointer. *)
Record Registration := mkRegistration {
  reg_id : BatchId;
  reg_last_offset : Z;
}.

(** Counters of one [drain] call. *)
Record DrainStats := mkStats {
  applied : nat;
  stale_epoch : nat;
  duplicates : nat;
  unknown : nat;
}.

Definition stats_default : DrainStats := mkStats 0 0 0 0.
Definition add_applied (s : DrainStats) : DrainStats :=
  mkStats (S (applied s)) (stale_epoch s) (duplicates s) (unknown s).
Definition add_stale (s : DrainStats) : DrainStats :=
  mkStats (applied s) (S (stale_epoch s)) (duplicates s) (unknown s).
Definition add_duplicate (s : DrainStats) : DrainStats :=
  mkStats (applied s) (stale_epoch s) (S (duplicates s)) (unknown s).
Definition add_unknown (s : DrainStats) : DrainStats :=
  mkStats (applied s) (stale_epoch s) (duplicates s) (S (unknown s)).

(** ** [AckIssuer] *)

(** The issuer's own state; the channels and the epoch cell are shared. *)
Record AckIssuer := mkIssuer {
  local_epoch : Z;
  seqs : gmap Z Z;
}.

(** [<AckIssuer as Clone>::clone]: fresh sequence state. *)
Definition AckIssuer_clone (i : AckIssuer) : AckIssuer := mkIssuer (local_epoch i) ∅.

(** The part of [AckIssuer::issue] that runs before the registration is sent:
    [epoch] is what the load of the shared epoch returned. *)
Definition issue_id (epoch partition : Z) (i : AckIssuer) : BatchId * AckIssuer :=
  let i := if bool_decide (epoch <> local_epoch i) then mkIssuer epoch ∅ else i in
  let s := default 0 (seqs i !! partition) in
  (mkBatchId partition epoch s,
   mkIssuer (local_epoch i) (<[partition := wrap_u64 (s + 1)]> (seqs i))).

(** [AckIssuer::issue], run without interleaving: registration first, then
    the handle. *)
Definition issue (epoch partition last_offset : Z) (i : AckIssuer)
    (regs : Channel Registration) (w : Acks)
    : AckRef * AckIssuer * Channel Registration * Acks :=
  let '(id, i) := issue_id epoch partition i in
  let regs := send (mkRegistration id last_offset) regs in
  let '(r, w) := AckRef_new id last_offset w in
  (r, i, regs, w).

(** ** Advance counters *)

(** The [Arc<AtomicU64>] cells behind [AdvanceCounter]. *)
Record Counters := mkCounters {
  cells : gmap nat Z;
  fresh_cell : nat;
}.

(** [AdvanceCounter::new], [add] and [get]. *)
Definition counter_new (c : Counters) : nat * Counters :=
  (fresh_cell c, mkCounters (<[fresh_cell c := 0]> (cells c)) (S (fresh_cell c))).
Definition counter_add (a : nat) (n : Z) (c : Counters) : Counters :=
  mkCounters (alter (fun v => wrap_u64 (v + n)) a (cells c)) (fresh_cell c).
Definition counter_get (a : nat) (c : Counters) : Z := default 0 (cells c !! a).

(** [PendingGate]: the lane's epoch and its partition's counter. *)
Record PendingGate := mkPendingGate {
  pg_epoch : Z;
  pg_advanced : nat;
}.

(** ** [Checkpointer] *)

Record Checkpointer := mkCheckpointer {
  ck_epoch : Z;
  trackers : gmap Z PartitionTracker;
  gates : gmap Z nat;
  admitted_through : option Z;
  counters : Counters;
}.

(** [Checkpointer::new]; the counter store is the process's. *)
Definition checkpointer_new (c : Counters) : Checkpointer :=
  mkCheckpointer 0 ∅ ∅ None c.

(** [Checkpointer::handle]: [shared] is the epoch cell's value. *)
Definition handle (shared : Z) : AckIssuer := mkIssuer shared ∅.

(** [Option::max] on partitions: [None] below every [Some]. *)
Definition opt_max (a b : option Z) : option Z :=
  match a, b with
  | None, b => b
  | a, None => a
  | Some x, Some y => Some (Z.max x y)
  end.

(** [Iterator::max]. *)
Definition list_max (ps : list Z) : option Z :=
  foldl (fun m p => opt_max m (Some p)) None ps.

(** A fresh tracker and a fresh counter for every partition of [ps]. *)
Definition admit1 (x : gmap Z PartitionTracker * gmap Z nat * Counters) (p : Z)
    : gmap Z PartitionTracker * gmap Z nat * Counters :=
  let '(ts, gs, c) := x in
  let '(a, c) := counter_new c in
  (<[p := tracker_new]> ts, <[p := a]> gs, c).

Definition admit_all (ps : list Z) (ts : gmap Z PartitionTracker) (gs : gmap Z nat)
    (c : Counters) : gmap Z PartitionTracker * gmap Z nat * Counters :=
  foldl admit1 (ts, gs, c) ps.

(** [Checkpointer::begin_epoch]; [None] is the panic on a repeated epoch. The
    second component is what the shared epoch cell is set to. *)
Definition begin_epoch (ps : list Z) (epoch : Z) (ck : Checkpointer)
    : option (Checkpointer * Z) :=
  if bool_decide (ck_epoch ck < epoch) ||
     (bool_decide (ck_epoch ck = 0) && bool_decide (trackers ck = ∅))
  then let '(ts, gs, c) := admit_all ps ∅ ∅ (counters ck) in
       Some (mkCheckpointer epoch ts gs (list_max ps) c, epoch)
  else None.

(** Why [extend_epoch] refuses a partition. *)
Inductive ExtendError :=
  | AlreadyTracked (p : Z)
  | NotAbove (p mark : Z).

(** The check of one partition in [extend_epoch]'s first loop. *)
Definition extend_check (ck : Checkpointer) (p : Z) : option ExtendError :=
  if bool_decide (is_Some (trackers ck !! p)) then Some (AlreadyTracked p)
  else match admitted_through ck with
       | Some mark => if bool_decide (p <= mark) then Some (NotAbove p mark) else None
       | None => None
       end.

Fixpoint first_some {A B} (f : A -> option B) (l : list A) : option B :=
  match l with
  | [] => None
  | x :: l => match f x with Some y => Some y | None => first_some f l end
  end.

(** [Checkpointer::extend_epoch]. *)
Definition extend_epoch (ps : list Z) (ck : Checkpointer) : ExtendError + Checkpointer :=
  match first_some (extend_check ck) ps with
  | Some e => inl e
  | None =>
      let '(ts, gs, c) := admit_all ps (trackers ck) (gates ck) (counters ck) in
      inr (mkCheckpointer (ck_epoch ck) ts gs
             (opt_max (admitted_through ck) (list_max ps)) c)
  end.

(** [Checkpointer::revoke]. *)
Definition revoke (ps : list Z) (ck : Checkpointer) : Checkpointer :=
  mkCheckpointer (ck_epoch ck) (foldl (fun ts p => delete p ts) (trackers ck) ps)
    (foldl (fun gs p => delete p gs) (gates ck) ps) (admitted_through ck) (counters ck).

(** [Checkpointer::advance_handle] and [Checkpointer::tracks]. *)
Definition advance_handle (p : Z) (ck : Checkpointer) : option nat := gates ck !! p.
Definition tracks (p : Z) (ck : Checkpointer) : bool :=
  bool_decide (is_Some (trackers ck !! p)).

Definition set_trackers (ts : gmap Z PartitionTracker) (ck : Checkpointer) : Checkpointer :=
  mkCheckpointer (ck_epoch ck) ts (gates ck) (admitted_through ck) (counters ck).

(** One pass of the loop in [drain_registrations]; [None] is the tracker's
    panic on a sequence gap. *)
Definition apply_registration (reg : Registration) (ck : Checkpointer) (s : DrainStats)
    : option (Checkpointer * DrainStats) :=
  if bool_decide (bid_epoch (reg_id reg) <> ck_epoch ck) then Some (ck, add_stale s)
  else match trackers ck !! bid_partition (reg_id reg) with
       | None => Some (ck, add_stale s)
       | Some t =>
           match register t (bid_seq (reg_id reg)) (reg_last_offset reg) with
           | None => None
           | Some t' =>
               Some (set_trackers (<[bid_partition (reg_id reg) := t']> (trackers ck)) ck, s)
           end
       end.

(** [Checkpointer::drain_registrations] over the registrations [try_recv]
    yields before it finds the channel empty. *)
Fixpoint drain_registrations (regs : list Registration) (ck : Checkpointer) (s : DrainStats)
    : option (Checkpointer * DrainStats) :=
  match regs with
  | [] => Some (ck, s)
  | reg :: regs =>
      match apply_registration reg ck s with
      | None => None
      | Some (ck, s) => drain_registrations regs ck s
      end
  end.

(** [Checkpointer::apply]; [defer] is the list of deferred resolutions in the
    first pass and [None] in the second. *)
Definition apply (msg : AckMsg) (ck : Checkpointer) (s : DrainStats)
    (defer : option (list AckMsg)) : Checkpointer * DrainStats * option (list AckMsg) :=
  if bool_decide (bid_epoch (am_id msg) <> ck_epoch ck) then (ck, add_stale s, defer)
  else match trackers ck !! bid_partition (am_id msg) with
       | None => (ck, add_stale s, defer)
       | Some t =>
           let '(t', o) := resolve t (bid_seq (am_id msg)) (am_status msg) in
           let ck' := set_trackers (<[bid_partition (am_id msg) := t']> (trackers ck)) ck in
           match o with
           | Applied => (ck', add_applied s, defer)
           | Duplicate | AlreadyAdvanced => (ck', add_duplicate s, defer)
           | Unregistered =>
               match defer with
               | Some deferred => (ck', s, Some (deferred ++ [msg]))
               | None => (ck', add_unknown s, None)
               end
           end
       end.

(** The loops of [drain] over resolutions: first pass, then the deferred. *)
Fixpoint apply_all (msgs : list AckMsg) (ck : Checkpointer) (s : DrainStats)
    (defer : option (list AckMsg)) : Checkpointer * DrainStats * option (list AckMsg) :=
  match msgs with
  | [] => (ck, s, defer)
  | m :: msgs => let '(ck, s, defer) := apply m ck s defer in apply_all msgs ck s defer
  end.

(** [Checkpointer::drain]. The pipeline threads send while it runs: [regs1]
    and [acks] are what its first two loops receive, [regs2] what the second
    registration drain receives. *)
Definition drain (regs1 : list Registration) (acks : list AckMsg)
    (regs2 : list Registration) (ck : Checkpointer) : option (Checkpointer * DrainStats) :=
  match drain_registrations regs1 ck stats_default with
  | None => None
  | Some (ck, s) =>
      let '(ck, s, deferred) := apply_all acks ck s (Some []) in
      match default [] deferred with
      | [] => Some (ck, s)
      | ds =>
          match drain_registrations regs2 ck s with
          | None => None
          | Some (ck, s) => let '(ck, s, _) := apply_all ds ck s None in Some (ck, s)
          end
      end
  end.

(** The order of the sorted outputs. *)
Definition key_le {A} (x y : Z * A) : Prop := x.1 <= y.1.
#[export] Instance key_le_dec {A} (x y : Z * A) : Decision (key_le x y).
Proof. unfold key_le. apply _. Defined.

(** The advance of one partition inside [take_watermarks]: the counter grows by
    the batches the advance retired. [now p] is the clock's reading there. *)
Definition take1 (now : Z -> Z) (gs : gmap Z nat) (c : Counters) (x : Z * PartitionTracker)
    : Counters :=
  let retired := Z.of_nat (Tracker.pending x.2) -
                 Z.of_nat (Tracker.pending (advance_on (now x.1) x.2).1) in
  if bool_decide (0 < retired)
  then match gs !! x.1 with Some a => counter_add a retired c | None => c end
  else c.

(** [Checkpointer::take_watermarks]: the map's iteration order is arbitrary
    and the output is sorted by partition. *)
Definition take_watermarks (now : Z -> Z) (ck : Checkpointer)
    : Checkpointer * list (Z * Z) :=
  let ts := map_to_list (trackers ck) in
  (mkCheckpointer (ck_epoch ck)
     (map_imap (fun p t => Some (advance_on (now p) t).1) (trackers ck))
     (gates ck) (admitted_through ck)
     (foldl (take1 now (gates ck)) (counters ck) ts),
   merge_sort key_le
     (omap (fun x => (fun w => (x.1, w)) <$> (advance_on (now x.1) x.2).2) ts)).

(** [Checkpointer::pending], [max_pending], [pending_by_partition] and
    [stalled_partitions]. *)
Definition ck_pending (p : Z) (ck : Checkpointer) : nat :=
  default O (Tracker.pending <$> trackers ck !! p).
Definition max_pending (ck : Checkpointer) : nat :=
  foldr (fun x m => Nat.max (Tracker.pending x.2) m) O (map_to_list (trackers ck)).
Definition pending_by_partition (ck : Checkpointer) : list (Z * nat) :=
  merge_sort key_le ((fun x => (x.1, Tracker.pending x.2)) <$> map_to_list (trackers ck)).
Definition stalled_partitions (ck : Checkpointer) : list (Z * Z) :=
  merge_sort key_le
    (omap (fun x => (fun t => (x.1, t)) <$> stalled_since x.2) (map_to_list (trackers ck))).

(** ** Operation sequences *)

Inductive CkOp :=
  | CkBegin (ps : list Z) (epoch : Z)
  | CkExtend (ps : list Z)
  | CkRevoke (ps : list Z)
  | CkRegister (reg : Registration)
  | CkResolve (msg : AckMsg)
  | CkTake (now : Z -> Z).

(** One controller-side operation; [None] is a panic. *)
Definition ck_step (o : CkOp) (ck : Checkpointer) : option Checkpointer :=
  match o with
  | CkBegin ps e => fst <$> begin_epoch ps e ck
  | CkExtend ps => Some (match extend_epoch ps ck with inl _ => ck | inr ck => ck end)
  | CkRevoke ps => Some (revoke ps ck)
  | CkRegister reg => fst <$> apply_registration reg ck stats_default
  | CkResolve msg => Some (apply msg ck stats_default None).1.1
  | CkTake now => Some (take_watermarks now ck).1
  end.

Fixpoint ck_run (ops : list CkOp) (ck : Checkpointer) : option Checkpointer :=
  match ops with
  | [] => Some ck
  | o :: ops => match ck_step o ck with Some ck => ck_run ops ck | None => None end
  end.

(** Gates and trackers cover the same partitions, each gate has a cell of its
    own, and the cell reads the tracker's head. *)
Record lockstep (ts : gmap Z PartitionTracker) (gs : gmap Z nat) (c : Counters) : Prop :=
  mk_lockstep {
  ls_head : forall p t, ts !! p = Some t ->
    is_u64 (head_seq t) /\
    exists a, gs !! p = Some a /\ cells c !! a = Some (head_seq t);
  ls_dom : forall p, gs !! p = None <-> ts !! p = None;
  ls_fresh : forall p a, gs !! p = Some a -> (a < fresh_cell c)%nat;
  ls_inj : forall p q a, gs !! p = Some a -> gs !! q = Some a -> p = q;
}.

Lemma lockstep_empty c : lockstep ∅ ∅ c.
Proof. by split. Qed.

Lemma lockstep_admit1 ts gs c p :
  lockstep ts gs c ->
  let '(ts', gs', c') := admit1 (ts, gs, c) p in lockstep ts' gs' c'.
Proof.
  intros [Hh Hd Hf Hi]. simpl. split; simpl.
  - intros q t. rewrite lookup_insert. goal_decide Hq.
    + intros [= <-]. split; [by vm_compute|]. exists (fresh_cell c).
      by rewrite Hq, !lookup_insert_eq.
    + intros Ht. destruct (Hh q t Ht) as [Hu (a & Ha & Hc)]. split; [done|]. exists a.
      specialize (Hf q a Ha). rewrite !lookup_insert_ne by (done || lia). done.
  - intros q. rewrite !lookup_insert. goal_decide Hq; [done|apply Hd].
  - intros q a. rewrite lookup_insert. goal_decide Hq; [intros [= <-]; lia|].
    intros Ha. specialize (Hf q a Ha). lia.
  - intros q r a. rewrite !lookup_insert. goal_decides; subst; try done; intros; simplify_eq.
    + specialize (Hf r _ ltac:(eassumption)). lia.
    + specialize (Hf q _ ltac:(eassumption)). lia.
    + by eapply Hi.
Qed.

Lemma lockstep_admit_all ps : forall ts gs c,
  lockstep ts gs c -> let '(ts', gs', c') := admit_all ps ts gs c in lockstep ts' gs' c'.
Proof.
  unfold admit_all. induction ps as [|p ps IH]; intros ts gs c H; simpl; [done|].
  pose proof (lockstep_admit1 ts gs c p H) as H1. simpl in H1. by apply IH.
Qed.

Lemma lockstep_revoke ps : forall ts gs c,
  lockstep ts gs c ->
  lockstep (foldl (fun ts p => delete p ts) ts ps) (foldl (fun gs p => delete p gs) gs ps) c.
Proof.
  induction ps as [|p ps IH]; intros ts gs c [Hh Hd Hf Hi]; simpl; [done|].
  apply IH. split.
  - intros q t [Hne Ht]%lookup_delete_Some. destruct (Hh q t Ht) as [? (a & ? & ?)].
    split; [done|]. exists a. by rewrite lookup_delete_ne.
  - intros q. rewrite !lookup_delete. goal_decides; [done|apply Hd].
  - intros q a [_ ?]%lookup_delete_Some. eauto.
  - intros q r a [_ ?]%lookup_delete_Some [_ ?]%lookup_delete_Some. eauto.
Qed.

(** Replacing a tracker by one with the same head. *)
Lemma lockstep_same_head ts gs c p t t' :
  lockstep ts gs c -> ts !! p = Some t -> head_seq t' = head_seq t ->
  lockstep (<[p := t']> ts) gs c.
Proof.
  intros [Hh Hd Hf Hi] Ht He. split; try done.
  - intros q t0. rewrite lookup_insert. goal_decide Hq; [subst|apply Hh].
    intros [= <-]. rewrite He. by apply Hh.
  - intros q. rewrite lookup_insert. goal_decide Hq; [subst|apply Hd].
    rewrite Hd, Ht. done.
Qed.

(** The head moves by the retired batches, modulo the counter's width. *)
Lemma advance_loop_head now next l : forall head since sseq c,
  is_u64 head ->
  let t' := (advance_loop now l head next since sseq c).1 in
  (length (ring t') <= length l)%nat /\
  head_seq t' = wrap_u64 (head + (Z.of_nat (length l) - Z.of_nat (length (ring t')))).
Proof.
  induction l as [|x l IH]; intros head since sseq c Hu.
  { simpl. by rewrite Z.add_0_r, wrap_u64_small. }
  cbn [advance_loop]. destruct (slot_state x).
  - simpl. rewrite Z.sub_diag, Z.add_0_r, wrap_u64_small by done. split; [lia|done].
  - destruct (IH (wrap_u64 (head + 1)) since sseq
      (Some (wrap_i64 (slot_last_offset x + 1))) (wrap_u64_range _)) as [Hl Hh].
    split; [simpl; lia|]. rewrite Hh. unfold wrap_u64. rewrite Zplus_mod_idemp_l.
    f_equal. simpl length. lia.
  - destruct since; simpl; rewrite Z.sub_diag, Z.add_0_r, wrap_u64_small by done;
      (split; [lia|done]).
Qed.

Lemma advance_on_head now t :
  is_u64 (head_seq t) ->
  is_u64 (head_seq (advance_on now t).1) /\
  0 <= Z.of_nat (Tracker.pending t) - Z.of_nat (Tracker.pending (advance_on now t).1) /\
  head_seq (advance_on now t).1 =
    wrap_u64 (head_seq t + (Z.of_nat (Tracker.pending t) -
                            Z.of_nat (Tracker.pending (advance_on now t).1))).
Proof.
  intros Hu. unfold advance_on, Tracker.pending.
  destruct (advance_loop_head now (next_seq t) (ring t) (head_seq t) (stalled_since t)
              (stalled_seq t) None Hu) as [Hl Hh].
  split_and!; [rewrite Hh; apply wrap_u64_range|lia|exact Hh].
Qed.

Lemma take1_other now gs c x a :
  (forall p, gs !! p = Some a -> p <> x.1) -> cells (take1 now gs c x) !! a = cells c !! a.
Proof.
  intros Hne. unfold take1. case_bool_decide; [|done].
  destruct (gs !! x.1) as [b|] eqn:Hb; [|done]. simpl.
  rewrite lookup_alter_ne; [done|]. intros ->. by eapply Hne.
Qed.

Lemma take1_own now gs c p t a :
  gs !! p = Some a -> is_u64 (head_seq t) -> cells c !! a = Some (head_seq t) ->
  cells (take1 now gs c (p, t)) !! a = Some (head_seq (advance_on (now p) t).1).
Proof.
  intros Ha Hu Hc. destruct (advance_on_head (now p) t Hu) as (_ & Hnn & Hh).
  unfold take1. cbn [fst snd]. rewrite Hh. case_bool_decide.
  - rewrite Ha. simpl. by rewrite lookup_alter_eq, Hc.
  - rewrite Hc. f_equal. symmetry. replace (_ - _) with 0 by lia.
    by rewrite Z.add_0_r, wrap_u64_small.
Qed.

Lemma take1_fold now gs l : forall c p a,
  (forall q, gs !! q = Some a -> q = p) -> NoDup l.*1 -> gs !! p = Some a ->
  (p ∉ l.*1 -> cells (foldl (take1 now gs) c l) !! a = cells c !! a) /\
  (forall t, (p, t) ∈ l -> is_u64 (head_seq t) -> cells c !! a = Some (head_seq t) ->
     cells (foldl (take1 now gs) c l) !! a = Some (head_seq (advance_on (now p) t).1)).
Proof.
  induction l as [|[q u] l IH]; intros c p a Hinj Hnd Ha; [split; [done|]; by intros t ?%elem_of_nil|].
  simpl in Hnd. apply NoDup_cons in Hnd as [Hq Hnd]. cbn [foldl].
  destruct (IH (take1 now gs c (q, u)) p a Hinj Hnd Ha) as [IH1 IH2]. split.
  - intros Hp. cbn in Hp. apply not_elem_of_cons in Hp as [Hpq Hp].
    rewrite IH1 by done. apply take1_other. intros r Hr. cbn. by rewrite (Hinj r Hr).
  - intros t Hin Hu Hc. apply elem_of_cons in Hin as [[= <- <-]|Hin].
    + rewrite IH1 by done. by apply take1_own.
    + apply IH2; [done|done|]. rewrite <- Hc. apply take1_other. intros r Hr. cbn.
      rewrite (Hinj r Hr). intros ->. apply Hq. by apply (list_elem_of_fmap_2 fst) in Hin.
Qed.

Lemma take1_fresh now gs l : forall c, fresh_cell (foldl (take1 now gs) c l) = fresh_cell c.
Proof.
  induction l as [|x l IH]; intros c; [done|]. cbn [foldl]. rewrite IH. unfold take1.
  case_bool_decide; [|done]. by destruct (gs !! x.1).
Qed.

Definition ck_lockstep (ck : Checkpointer) : Prop :=
  lockstep (trackers ck) (gates ck) (counters ck).

Lemma lockstep_take now ck : ck_lockstep ck -> ck_lockstep (take_watermarks now ck).1.
Proof.
  unfold ck_lockstep. intros [Hh Hd Hf Hi]. unfold take_watermarks.
  cbn [fst trackers gates counters]. split.
  - intros p t'. rewrite map_lookup_imap.
    destruct (trackers ck !! p) as [t|] eqn:Ht; [|done]. cbn. intros [= <-].
    destruct (Hh p t Ht) as [Hu (a & Ha & Hc)]. split; [by apply advance_on_head|].
    exists a. split; [done|].
    destruct (take1_fold now (gates ck) (map_to_list (trackers ck)) (counters ck) p a)
      as [_ H2]; [by eauto|apply NoDup_fst_map_to_list|done|].
    apply H2; try done. by apply elem_of_map_to_list.
  - intros p. rewrite map_lookup_imap, Hd. by destruct (trackers ck !! p).
  - intros p a Ha. rewrite take1_fresh. eauto.
  - eauto.
Qed.

Lemma resolve_same_head t k st : head_seq (resolve t k st).1 = head_seq t.
Proof.
  unfold resolve. case_bool_decide; [done|]. destruct (ring t !! _); [|done].
  by case_bool_decide.
Qed.

Lemma lockstep_step o ck ck' : ck_lockstep ck -> ck_step o ck = Some ck' -> ck_lockstep ck'.
Proof.
  intros H Hs. unfold ck_lockstep in *. destruct o as [ps e|ps|ps|reg|msg|now]; cbn in Hs.
  - unfold begin_epoch in Hs. destruct (_ || _); [|done].
    pose proof (lockstep_admit_all ps ∅ ∅ (counters ck) (lockstep_empty _)) as H'.
    destruct (admit_all _ _ _ _) as [[ts gs] c]. by simplify_eq/=.
  - unfold extend_epoch in Hs. destruct (first_some _ ps); simplify_eq; [done|].
    pose proof (lockstep_admit_all ps _ _ _ H) as H'.
    by destruct (admit_all _ _ _ _) as [[ts gs] c].
  - simplify_eq. by apply lockstep_revoke.
  - unfold apply_registration in Hs. case_bool_decide; simplify_eq/=; [done|].
    destruct (trackers ck !! _) as [t|] eqn:Ht; simplify_eq/=; [|done].
    unfold register in Hs. case_bool_decide; simplify_eq/=.
    by eapply lockstep_same_head.
  - unfold apply in Hs. case_bool_decide; simplify_eq/=; [done|].
    destruct (trackers ck !! _) as [t|] eqn:Ht; simplify_eq/=; [|done].
    pose proof (resolve_same_head t (bid_seq (am_id msg)) (am_status msg)) as Hh.
    destruct (resolve t _ _) as [t' []]; cbn in *; by eapply lockstep_same_head.
  - simplify_eq. by apply lockstep_take.
Qed.

Lemma lockstep_run ops : forall ck ck', ck_lockstep ck -> ck_run ops ck = Some ck' -> ck_lockstep ck'.
Proof.
  induction ops as [|o ops IH]; intros ck ck' H Hr; cbn in Hr; [by simplify_eq|].
  destruct (ck_step o ck) eqn:Hs; [|done]. eauto using lockstep_step.
Qed.

(** the pending gates follow the trackers. After any sequence of
    controller operations, the partitions with a gate are exactly the tracked
    ones, no two share a counter, and each counter reads the number of batches
    its partition's tracker has retired in the epoch, so that the batches a
    driver issued minus the counter are its unretired ones. *)
Theorem gates_in_lockstep (ops : list CkOp) (ck : Checkpointer) :
  ck_run ops (checkpointer_new (mkCounters ∅ 0)) = Some ck ->
  forall p,
    match trackers ck !! p with
    | None => advance_handle p ck = None
    | Some t => exists a, advance_handle p ck = Some a /\
        counter_get a (counters ck) = head_seq t /\
        forall q, advance_handle q ck = Some a -> q = p
    end.
Proof.
  intros Hrun p. apply lockstep_run in Hrun as [Hh Hd Hf Hi]; [|apply lockstep_empty].
  destruct (trackers ck !! p) as [t|] eqn:Ht; [|by apply Hd].
  destruct (Hh p t Ht) as [_ (a & Ha & Hc)]. exists a. unfold counter_get. rewrite Hc.
  split_and!; try done. intros q Hq. by eapply Hi.
Qed.

Lemma gates_in_lockstep_witness :
  let ops := [CkBegin [0; 3] 1; CkRegister (mkRegistration (mkBatchId 3 1 0) 9);
              CkResolve (mkAckMsg (mkBatchId 3 1 0) 9 Delivered); CkTake (fun _ => 4)] in
  exists ck, ck_run ops (checkpointer_new (mkCounters ∅ 0)) = Some ck /\
    forall p,
      match trackers ck !! p with
      | None => advance_handle p ck = None
      | Some t => exists a, advance_handle p ck = Some a /\
          counter_get a (counters ck) = head_seq t /\
          forall q, advance_handle q ck = Some a -> q = p
      end.
Proof.
  intros ops. eexists. split; [reflexivity|].
  apply (gates_in_lockstep ops). reflexivity.
Defined.

(** ** Reports *)
Lemma advance_loop_stops now now' next l : forall head since sseq c,
  (advance_on now' (advance_loop now l head next since sseq c).1).2 = None.
Proof.
  induction l as [|x l IH]; intros head since sseq c; cbn [advance_loop]; [done|].
  destruct (slot_state x) eqn:E; [|by apply IH|].
  - unfold advance_on. cbn. by rewrite E.
  - destruct since; unfold advance_on; cbn; by rewrite E.
Qed.

Lemma Sorted_keys_strict {A} (l : list (Z * A)) :
  Sorted key_le l -> NoDup l.*1 -> StronglySorted (fun x y => x.1 < y.1) l.
Proof.
  intros Hs Hnd. apply Sorted_StronglySorted in Hs; [|intros ???; unfold key_le; lia].
  induction Hs as [|x l Hs IH HF]; [constructor|]. cbn in Hnd.
  apply NoDup_cons in Hnd as [Hx Hnd]. constructor; [by apply IH|].
  rewrite Forall_forall in *. intros y Hy. specialize (HF y Hy). unfold key_le in HF.
  enough (x.1 <> y.1) by lia. intros Heq. apply Hx. rewrite Heq.
  by apply list_elem_of_fmap_2.
Qed.

Lemma NoDup_omap_keys (f : Z * PartitionTracker -> option Z) l :
  NoDup l.*1 -> NoDup (omap (fun x => (fun w => (x.1, w)) <$> f x) l).*1.
Proof.
  induction l as [|[p t] l IH]; cbn; [done|]. intros [Hp Hnd]%NoDup_cons.
  destruct (f (p, t)) as [w|]; cbn; [|by apply IH]. apply NoDup_cons. split; [|by apply IH].
  intros ([q v] & -> & Hq)%list_elem_of_fmap. apply list_elem_of_omap in Hq as ([r u] & Hr & Hf).
  apply fmap_Some in Hf as (? & _ & [= -> ->]). apply Hp.
  by apply (list_elem_of_fmap_2 fst) in Hr.
Qed.

(** A watermark report is sorted by partition, names a partition at most
    once, and is empty when nothing resolved since the last one. *)
Theorem take_watermarks_sorted_once (now now' : Z -> Z) (ck : Checkpointer) :
  StronglySorted (fun x y => x.1 < y.1) (take_watermarks now ck).2 /\
  (take_watermarks now' (take_watermarks now ck).1).2 = [].
Proof.
  split.
  - unfold take_watermarks. cbn [snd]. apply Sorted_keys_strict.
    + apply Sorted_merge_sort. intros x y. unfold key_le. lia.
    + rewrite merge_sort_Permutation. apply NoDup_omap_keys, NoDup_fst_map_to_list.
  - set (ck1 := (take_watermarks now ck).1). unfold take_watermarks. cbn [snd].
    replace (omap _ (map_to_list (trackers ck1))) with ([] : list (Z * Z)); [done|].
    symmetry. apply elem_of_nil_inv. intros [p w] Hin.
    apply list_elem_of_omap in Hin as ([q t] & Hq & Hf). cbn [fst snd] in Hf.
    apply elem_of_map_to_list in Hq. unfold ck1, take_watermarks in Hq. cbn in Hq.
    rewrite map_lookup_imap in Hq. destruct (trackers ck !! q); [|done]. cbn in Hq.
    injection Hq as <-. unfold advance_on at 2 in Hf. by rewrite advance_loop_stops in Hf.
Qed.
