(* ===== verification/CheckpointSystem.v ===== *)
(** * The checkpoint protocol as a concurrent system

    The pipeline threads ([AckIssuer::issue] in three steps: epoch load,
    registration send, handle creation), the holders of handles (clone, fail,
    drop, on any thread) and the controller thread ([begin_epoch],
    [extend_epoch], [revoke], [drain] one received message at a time,
    [take_watermarks]) interleave freely. A step is a label; [exec] says what
    it does, and [None] that it is not enabled.

    The runtime's side of the contract is in the guards: a partition's lane
    is given to one existing thread when the partition is admitted, old lanes
    are gone when a new epoch begins, epochs increase, and fewer than 2^64
    batches are issued per partition and epoch. *)

From stdpp Require Import base list gmap sorting.
From Stdlib Require Import ZArith Lia.
From S2P Require Import Prelude Ack Tracker Checkpointer.

(** Where a thread is inside [AckIssuer::issue]. *)
Inductive IssuerPc :=
  | IIdle
  | ILoaded (id : BatchId) (off : Z)
  | ISent (id : BatchId) (off : Z).

(** Where the controller is inside [Checkpointer::drain]. *)
Inductive CtlPc :=
  | CIdle
  | CRegs1 (st : DrainStats)
  | CAcks (st : DrainStats) (deferred : list AckMsg)
  | CRegs2 (st : DrainStats) (deferred : list AckMsg)
  | CDeferred (st : DrainStats) (rest : list AckMsg).

(** History of one batch: registered by thread [i], alive behind handle [r],
    or resolved; and whether a holder marked it failed. *)
Inductive Phase := Sent (i : nat) | Live (r : AckRef) | Resolved.

Record Batch := mkBatch {
  b_off : Z;
  b_failed : bool;
  b_phase : Phase;
}.

(** [history], [sent], [reported] and [totals] are history: every batch ever
    registered, how many per partition in this epoch, every watermark
    reported, and the statistics of completed drains. *)
Record Sys := mkSys {
  issuers : gmap nat (AckIssuer * IssuerPc);
  shared_epoch : Z;
  regs : Channel Registration;
  acks : Acks;
  ck : Checkpointer;
  pc : CtlPc;
  owner : gmap Z nat;
  history : gmap BatchId Batch;
  sent : gmap Z Z;
  reported : list (Z * Z * Z);
  totals : list DrainStats;
  panicked : bool;
}.

Definition sys_init : Sys :=
  mkSys ∅ 0 (mkChannel [] true) acks_init (checkpointer_new (mkCounters ∅ 0)) CIdle
    ∅ ∅ ∅ [] [] false.

Inductive Label :=
  | LSpawn (i : nat)
  | LCloneIssuer (i j : nat)
  | LLoad (i : nat) (p off : Z)
  | LSend (i : nat)
  | LNew (i : nat)
  | LClone (r : AckRef)
  | LFail (r : AckRef)
  | LDrop (r : AckRef)
  | LBegin (ps : list Z) (epoch : Z) (own : gmap Z nat)
  | LExtend (ps : list Z) (own : gmap Z nat)
  | LRevoke (ps : list Z)
  | LDrainStart
  | LDrainStep
  | LTake (now : Z -> Z).

(** ** State updates *)

Definition set_issuer (i : nat) (x : AckIssuer * IssuerPc) (s : Sys) : Sys :=
  mkSys (<[i := x]> (issuers s)) (shared_epoch s) (regs s) (acks s) (ck s) (pc s)
    (owner s) (history s) (sent s) (reported s) (totals s) (panicked s).

Definition set_regs (c : Channel Registration) (s : Sys) : Sys :=
  mkSys (issuers s) (shared_epoch s) c (acks s) (ck s) (pc s)
    (owner s) (history s) (sent s) (reported s) (totals s) (panicked s).

Definition set_acks (w : Acks) (b : gmap BatchId Batch) (s : Sys) : Sys :=
  mkSys (issuers s) (shared_epoch s) (regs s) w (ck s) (pc s)
    (owner s) b (sent s) (reported s) (totals s) (panicked s).

Definition set_sent (n : gmap Z Z) (s : Sys) : Sys :=
  mkSys (issuers s) (shared_epoch s) (regs s) (acks s) (ck s) (pc s)
    (owner s) (history s) n (reported s) (totals s) (panicked s).

Definition set_ck (c : Checkpointer) (x : CtlPc) (s : Sys) : Sys :=
  mkSys (issuers s) (shared_epoch s) (regs s) (acks s) c x
    (owner s) (history s) (sent s) (reported s) (totals s) (panicked s).

Definition set_reported (r : list (Z * Z * Z)) (s : Sys) : Sys :=
  mkSys (issuers s) (shared_epoch s) (regs s) (acks s) (ck s) (pc s)
    (owner s) (history s) (sent s) r (totals s) (panicked s).

Definition set_panicked (s : Sys) : Sys :=
  mkSys (issuers s) (shared_epoch s) (regs s) (acks s) (ck s) (pc s)
    (owner s) (history s) (sent s) (reported s) (totals s) true.

(** [drain] returns its statistics. *)
Definition end_drain (c : Checkpointer) (st : DrainStats) (s : Sys) : Sys :=
  mkSys (issuers s) (shared_epoch s) (regs s) (acks s) c CIdle
    (owner s) (history s) (sent s) (reported s) (totals s ++ [st]) (panicked s).

Definition b_set_phase (ph : Phase) (b : Batch) : Batch :=
  mkBatch (b_off b) (b_failed b) ph.
Definition b_set_failed (b : Batch) : Batch := mkBatch (b_off b) true (b_phase b).

(** Batches of [p] registered in this epoch. *)
Definition nsent (s : Sys) (p : Z) : Z := default 0 (sent s !! p).

(** One received registration, in either registration drain. *)
Definition recv_reg (k : DrainStats -> CtlPc) (st : DrainStats) (reg : Registration)
    (rest : Channel Registration) (s : Sys) : Sys :=
  match apply_registration reg (ck s) st with
  | None => set_panicked (set_regs rest s)
  | Some (c, st) => set_ck c (k st) (set_regs rest s)
  end.

(** One pass of whichever loop of [drain] the controller is in. *)
Definition drain_step (s : Sys) : option Sys :=
  match pc s with
  | CIdle => None
  | CRegs1 st =>
      Some match try_recv (regs s) with
           | Some (reg, rest) => recv_reg CRegs1 st reg rest s
           | None => set_ck (ck s) (CAcks st []) s
           end
  | CAcks st ds =>
      Some match try_recv (ack_tx (acks s)) with
           | Some (m, rest) =>
               let '(c, st, ds) := apply m (ck s) st (Some ds) in
               set_ck c (CAcks st (default [] ds))
                 (set_acks (mkAcks (heap (acks s)) (fresh_ref (acks s)) rest) (history s) s)
           | None =>
               match ds with
               | [] => end_drain (ck s) st s
               | _ => set_ck (ck s) (CRegs2 st ds) s
               end
           end
  | CRegs2 st ds =>
      Some match try_recv (regs s) with
           | Some (reg, rest) => recv_reg (fun st => CRegs2 st ds) st reg rest s
           | None => set_ck (ck s) (CDeferred st ds) s
           end
  | CDeferred st ds =>
      Some match ds with
           | [] => end_drain (ck s) st s
           | m :: ds =>
               let '(c, st, _) := apply m (ck s) st None in
               set_ck c (CDeferred st ds) s
           end
  end.

(** Lanes of the admitted partitions go to existing threads. *)
Definition lanes_ok (ps : list Z) (own : gmap Z nat) (s : Sys) : Prop :=
  map_Forall (fun p i => p ∈ ps /\ is_Some (issuers s !! i)) own.
#[export] Instance lanes_ok_dec ps own s : Decision (lanes_ok ps own s).
Proof. unfold lanes_ok. apply _. Defined.

#[export] Instance CtlPc_idle_dec (x : CtlPc) : Decision (x = CIdle).
Proof. destruct x; (by left) || (by right). Defined.

(** The count of registered batches after a send from [ILoaded id]. *)
Definition sent_after (s : Sys) (id : BatchId) : gmap Z Z :=
  if bool_decide (bid_epoch id = shared_epoch s)
  then <[bid_partition id := nsent s (bid_partition id) + 1]> (sent s) else sent s.

(** What label [l] does in state [s]. *)
Definition exec (l : Label) (s : Sys) : option Sys :=
  if panicked s then None else
  match l with
  | LSpawn i =>
      match issuers s !! i with
      | Some _ => None
      | None => Some (set_issuer i (handle (shared_epoch s), IIdle) s)
      end
  | LCloneIssuer i j =>
      match issuers s !! i, issuers s !! j with
      | Some (x, _), None => Some (set_issuer j (AckIssuer_clone x, IIdle) s)
      | _, _ => None
      end
  | LLoad i p off =>
      match issuers s !! i with
      | Some (x, IIdle) =>
          if bool_decide (owner s !! p = Some i) && bool_decide (nsent s p < U64_MAX)
          then let '(id, x) := issue_id (shared_epoch s) p x in
               Some (set_issuer i (x, ILoaded id off) s)
          else None
      | _ => None
      end
  | LSend i =>
      match issuers s !! i with
      | Some (x, ILoaded id off) =>
          Some (set_issuer i (x, ISent id off)
                 (set_sent (sent_after s id)
                   (set_regs (send (mkRegistration id off) (regs s))
                     (set_acks (acks s) (<[id := mkBatch off false (Sent i)]> (history s)) s))))
      | _ => None
      end
  | LNew i =>
      match issuers s !! i with
      | Some (x, ISent id off) =>
          let '(r, w) := AckRef_new id off (acks s) in
          Some (set_issuer i (x, IIdle)
                 (set_acks w (alter (b_set_phase (Live r)) id (history s)) s))
      | _ => None
      end
  | LClone r =>
      match heap (acks s) !! r with
      | Some _ => Some (set_acks (AckRef_clone r (acks s)) (history s) s)
      | None => None
      end
  | LFail r =>
      match heap (acks s) !! r with
      | Some st => Some (set_acks (AckRef_fail r (acks s))
                           (alter b_set_failed (as_id st) (history s)) s)
      | None => None
      end
  | LDrop r =>
      match heap (acks s) !! r with
      | Some st =>
          Some (set_acks (AckRef_drop r (acks s))
                  (if bool_decide (as_strong st <= 1)%nat
                   then alter (b_set_phase Resolved) (as_id st) (history s)
                   else history s) s)
      | None => None
      end
  | LBegin ps e own =>
      if bool_decide (pc s = CIdle) && bool_decide (ck_epoch (ck s) < e) &&
         bool_decide (lanes_ok ps own s)
      then match begin_epoch ps e (ck s) with
           | Some (c, e) =>
               Some (mkSys (issuers s) e (regs s) (acks s) c CIdle own
                       (history s) ∅ (reported s) (totals s) false)
           | None => Some (set_panicked s)
           end
      else None
  | LExtend ps own =>
      if bool_decide (pc s = CIdle) && bool_decide (lanes_ok ps own s)
      then match extend_epoch ps (ck s) with
           | inr c =>
               Some (mkSys (issuers s) (shared_epoch s) (regs s) (acks s) c CIdle
                       (own ∪ owner s) (history s) (sent s) (reported s) (totals s) false)
           | inl _ => Some s
           end
      else None
  | LRevoke ps =>
      if bool_decide (pc s = CIdle) then Some (set_ck (revoke ps (ck s)) CIdle s) else None
  | LDrainStart =>
      if bool_decide (pc s = CIdle) then Some (set_ck (ck s) (CRegs1 stats_default) s) else None
  | LDrainStep => drain_step s
  | LTake now =>
      if bool_decide (pc s = CIdle)
      then let '(c, out) := take_watermarks now (ck s) in
           Some (set_reported (reported s ++ ((fun x => (x.1, ck_epoch (ck s), x.2)) <$> out))
                   (set_ck c CIdle s))
      else None
  end.

(** Runs a schedule; [None] when a label of it is not enabled. *)
Fixpoint exec_all (ls : list Label) (s : Sys) : option Sys :=
  match ls with
  | [] => Some s
  | l :: ls => match exec l s with Some s => exec_all ls s | None => None end
  end.

(** One step, and the states the system can reach. *)
Definition sys_step (s s' : Sys) : Prop := exists l, exec l s = Some s'.
Definition reachable (s : Sys) : Prop := rtc sys_step sys_init s.

(** ** What a tracker has consumed *)

Definition slot_status (x : SlotState) : option AckStatus :=
  match x with SPending => None | SDelivered => Some Delivered | SFailed => Some Failed end.

(** The resolution the tracker holds for sequence [k]; everything below the
    head was delivered. *)
Definition consumed (t : PartitionTracker) (k : Z) : option AckStatus :=
  if bool_decide (k < head_seq t) then Some Delivered
  else match ring t !! Z.to_nat (k - head_seq t) with
       | Some x => slot_status (slot_state x)
       | None => None
       end.

Record tracker_ok (t : PartitionTracker) : Prop := mk_tracker_ok {
  tk_head : 0 <= head_seq t;
  tk_next : next_seq t = head_seq t + Z.of_nat (length (ring t));
  tk_room : next_seq t <= U64_MAX;
}.

Lemma tracker_ok_new : tracker_ok tracker_new.
Proof. split; simpl; unfold_int; lia. Qed.

Lemma register_next t off :
  tracker_ok t -> next_seq t < U64_MAX ->
  exists t', register t (next_seq t) off = Some t' /\ tracker_ok t' /\
    head_seq t' = head_seq t /\ next_seq t' = next_seq t + 1 /\
    ring t' = ring t ++ [mkSlot off SPending] /\
    forall k, consumed t' k = consumed t k.
Proof.
  intros [Hh Hn Hr] Hlt. unfold register. rewrite bool_decide_true by done.
  eexists. split; [done|]. simpl. rewrite wrap_u64_small by (unfold_int; lia).
  split; [split; simpl; rewrite ?length_app; simpl; lia|]. split_and!; try done.
  intros k. unfold consumed; simpl. case_bool_decide; [done|].
  destruct (ring t !! _) as [x|] eqn:E; [by rewrite (lookup_app_l_Some _ _ _ _ E)|].
  apply lookup_ge_None in E. rewrite lookup_app_r by done.
  by destruct (_ - length (ring t))%nat.
Qed.

Lemma resolve_pending t k st :
  tracker_ok t -> 0 <= k < next_seq t -> consumed t k = None ->
  exists t', resolve t k st = (t', Applied) /\ tracker_ok t' /\
    head_seq t' = head_seq t /\ next_seq t' = next_seq t /\
    slot_last_offset <$> ring t' = slot_last_offset <$> ring t /\
    forall j, 0 <= j -> consumed t' j = if bool_decide (j = k) then Some st else consumed t j.
Proof.
  intros [Hh Hn Hr] Hk Hc. unfold resolve, consumed in *.
  case_bool_decide; [done|].
  destruct (lookup_lt_is_Some_2 (ring t) (Z.to_nat (k - head_seq t))) as [x Hx]; [lia|].
  rewrite Hx in Hc |- *. destruct x as [off []]; simpl in *; try done.
  eexists. split; [done|]. simpl.
  split; [split; simpl; rewrite ?length_insert; done|]. split_and!; try done.
  { rewrite list_fmap_insert. apply list_insert_id. by rewrite list_lookup_fmap, Hx. }
  intros j Hj. destruct (decide (j = k)) as [->|Hjk].
  - rewrite bool_decide_false by lia. rewrite bool_decide_true by done.
    rewrite list_lookup_insert_eq by (by apply lookup_lt_is_Some_1; eauto).
    by destruct st.
  - rewrite (bool_decide_false (j = k)) by done. case_bool_decide; [done|].
    rewrite list_lookup_insert_ne by lia. done.
Qed.

Lemma resolve_unregistered t k st :
  tracker_ok t -> next_seq t <= k -> resolve t k st = (t, Unregistered).
Proof.
  intros [Hh Hn Hr] Hk. unfold resolve. rewrite bool_decide_false by lia.
  by rewrite lookup_ge_None_2 by lia.
Qed.

Definition unslot (x : Slot) : Z * option AckStatus :=
  (slot_last_offset x, slot_status (slot_state x)).

Lemma slot_of_unslot (l : list Slot) : slot_of <$> (unslot <$> l) = l.
Proof.
  rewrite <- list_fmap_compose. rewrite <- (list_fmap_id l) at 2.
  apply list_fmap_ext. by intros ? [? []].
Qed.

(** What an advance does, in terms of consumed resolutions: it moves the head
    over the delivered run and returns one past its last offset. *)
Lemma advance_consumed now t :
  tracker_ok t ->
  exists n : nat,
    let t' := (advance_on now t).1 in
    tracker_ok t' /\ head_seq t' = head_seq t + Z.of_nat n /\ next_seq t' = next_seq t /\
    ring t' = drop n (ring t) /\ (n <= length (ring t))%nat /\
    (forall k, 0 <= k -> consumed t' k = consumed t k) /\
    consumed t (head_seq t') <> Some Delivered /\
    (advance_on now t).2 =
      match n with
      | O => None
      | S m => (fun x => wrap_i64 (slot_last_offset x + 1)) <$> ring t !! m
      end.
Proof.
  intros [Hh Hn Hr]. set (l := unslot <$> ring t).
  assert (Hl : ring t = slot_of <$> l) by (by unfold l; rewrite slot_of_unslot).
  assert (Hlen : length l = length (ring t)) by (unfold l; apply length_fmap).
  exists (delivered_run l). pose proof (delivered_run_le l) as Hd.
  pose proof (delivered_run_Forall l) as HF. pose proof (delivered_run_stop l) as Hstop.
  unfold advance_on. rewrite Hl, advance_loop_spec by lia. simpl.
  rewrite <- Hl in *. set (n := delivered_run l) in *.
  assert (Hring : slot_of <$> drop n l = drop n (ring t)) by (by rewrite fmap_drop, <- Hl).
  split_and!; try done; try lia.
  - split; simpl; rewrite ?Hring, ?length_drop; lia.
  - intros k Hk. unfold consumed; simpl. rewrite Hring, lookup_drop.
    case_bool_decide as H1; case_bool_decide as H2; try done; try lia.
    + rewrite Forall_lookup in HF.
      destruct (lookup_lt_is_Some_2 (ring t) (Z.to_nat (k - head_seq t))) as [x Hx]; [lia|].
      rewrite Hx. specialize (HF (Z.to_nat (k - head_seq t)) (unslot x)).
      rewrite lookup_take_lt in HF by lia. unfold l in HF.
      rewrite list_lookup_fmap, Hx in HF. symmetry. by apply HF.
    + by replace (n + Z.to_nat (k - (head_seq t + Z.of_nat n)))%nat
        with (Z.to_nat (k - head_seq t)) by lia.
  - unfold consumed. rewrite bool_decide_false by lia.
    replace (Z.to_nat (head_seq t + Z.of_nat n - head_seq t)) with n by lia.
    destruct (ring t !! n) as [x|] eqn:Hx; [|done].
    apply (Hstop (unslot x)). unfold l. by rewrite list_lookup_fmap, Hx.
  - destruct n as [|m]; [done|]. unfold l. rewrite list_lookup_fmap.
    by destruct (ring t !! m).
Qed.

(** ** The invariant *)

Definition b_status (b : Batch) : AckStatus := if b_failed b then Failed else Delivered.

(** Resolutions received and put aside by the running [drain]. *)
Definition deferred_of (x : CtlPc) : list AckMsg :=
  match x with
  | CAcks _ ds | CRegs2 _ ds | CDeferred _ ds => ds
  | _ => []
  end.

Definition stats_of (x : CtlPc) : DrainStats :=
  match x with
  | CIdle => stats_default
  | CRegs1 st | CAcks st _ | CRegs2 st _ | CDeferred st _ => st
  end.

(** Resolutions sent and not applied yet. *)
Definition msgs (s : Sys) : list AckMsg := queue (ack_tx (acks s)) ++ deferred_of (pc s).

Definition regs_for (e p : Z) (l : list Registration) : list Registration :=
  filter (fun r => bid_partition (reg_id r) = p /\ bid_epoch (reg_id r) = e) l.

(** The handles and the resolutions in flight agree with the history. *)
Record acks_inv (w : Acks) (ms : list AckMsg) (B : gmap BatchId Batch) : Prop := mk_acks_inv {
  ai_conn : connected (ack_tx w) = true;
  ai_alloc : forall r, (fresh_ref w <= r)%nat -> heap w !! r = None;
  ai_heap : forall r st, heap w !! r = Some st ->
    exists b, B !! as_id st = Some b /\ b_phase b = Live r /\
      b_off b = as_last_offset st /\ as_status st = status_u8 (b_status b);
  ai_msgs : forall m, m ∈ ms ->
    exists b, B !! am_id m = Some b /\ b_phase b = Resolved /\ b_status b = am_status m;
  ai_nodup : NoDup (am_id <$> ms);
}.

Definition loaded_bit (x : IssuerPc) (e p : Z) : Z :=
  match x with
  | ILoaded id _ =>
      if bool_decide (bid_epoch id = e) && bool_decide (bid_partition id = p) then 1 else 0
  | _ => 0
  end.

(** A thread's sequence counters continue what it has registered. *)
Record issuer_inv (e : Z) (O : gmap Z nat) (N : Z -> Z) (B : gmap BatchId Batch)
    (i : nat) (x : AckIssuer) (ipc : IssuerPc) : Prop := mk_issuer_inv {
  ii_epoch : local_epoch x <= e;
  ii_mine : local_epoch x = e -> forall p v, seqs x !! p = Some v -> O !! p = Some i;
  ii_seq : forall p, O !! p = Some i ->
    if bool_decide (local_epoch x = e)
    then default 0 (seqs x !! p) = N p + loaded_bit ipc e p
    else N p = 0;
  ii_pc :
    match ipc with
    | IIdle => True
    | ILoaded id _ => B !! id = None /\ bid_epoch id <= e /\
        (bid_epoch id = e -> O !! bid_partition id = Some i /\ local_epoch x = e /\
           bid_seq id = N (bid_partition id) /\ N (bid_partition id) < U64_MAX)
    | ISent id off => B !! id = Some (mkBatch off false (Sent i))
    end;
}.

(** One tracked partition: [n] batches registered, [q] registrations of it
    still in the channel, [ids] the unapplied resolutions. *)
Record part_inv (B : gmap BatchId Batch) (ids : list BatchId) (e p n : Z)
    (q : list Registration) (t : PartitionTracker) : Prop := mk_part_inv {
  pi_ok : tracker_ok t;
  pi_next : next_seq t + Z.of_nat (length q) = n;
  pi_queue : forall i reg, q !! i = Some reg ->
    reg_id reg = mkBatchId p e (next_seq t + Z.of_nat i) /\
    exists b, B !! reg_id reg = Some b /\ b_off b = reg_last_offset reg;
  pi_consumed : forall k, 0 <= k < n ->
    exists b, B !! mkBatchId p e k = Some b /\
      match consumed t k with
      | Some st => b_phase b = Resolved /\ b_status b = st /\ mkBatchId p e k ∉ ids
      | None => b_phase b = Resolved -> mkBatchId p e k ∈ ids
      end;
  pi_off : forall i x, ring t !! i = Some x ->
    exists b, B !! mkBatchId p e (head_seq t + Z.of_nat i) = Some b /\
      slot_last_offset x = b_off b;
}.

(** Every batch of [p] in epoch [e] up to the one [w] stands for resolved,
    none of them failed. *)
Definition delivered (B : gmap BatchId Batch) (id : BatchId) : Prop :=
  exists b, B !! id = Some b /\ b_phase b = Resolved /\ b_failed b = false.

Definition delivered_upto (B : gmap BatchId Batch) (p e w : Z) : Prop :=
  exists k b, 0 <= k /\ B !! mkBatchId p e k = Some b /\ w = wrap_i64 (b_off b + 1) /\
    forall j, 0 <= j <= k -> delivered B (mkBatchId p e j).

Definition clean (st : DrainStats) : Prop := unknown st = 0%nat /\ duplicates st = 0%nat.

Record Inv (s : Sys) : Prop := mk_Inv {
  iv_panic : panicked s = false;
  iv_epoch : shared_epoch s = ck_epoch (ck s);
  iv_conn : connected (regs s) = true;
  iv_acks : acks_inv (acks s) (msgs s) (history s);
  iv_issuer : forall i x ipc, issuers s !! i = Some (x, ipc) ->
    issuer_inv (ck_epoch (ck s)) (owner s) (nsent s) (history s) i x ipc;
  iv_loaded : forall i j x y id o o', issuers s !! i = Some (x, ILoaded id o) ->
    issuers s !! j = Some (y, ILoaded id o') -> i = j;
  iv_owner : forall p,
    match owner s !! p with
    | None => nsent s p = 0
    | Some i => is_Some (issuers s !! i) /\
        exists m, admitted_through (ck s) = Some m /\ p <= m
    end;
  iv_keys : forall id b, history s !! id = Some b ->
    bid_epoch id <= ck_epoch (ck s) /\
    (bid_epoch id = ck_epoch (ck s) -> 0 <= bid_seq id < nsent s (bid_partition id));
  iv_sent : forall p, 0 <= nsent s p <= U64_MAX;
  iv_regs : forall reg, reg ∈ queue (regs s) -> is_Some (history s !! reg_id reg);
  iv_part : forall p t, trackers (ck s) !! p = Some t ->
    part_inv (history s) (am_id <$> msgs s) (ck_epoch (ck s)) p (nsent s p)
      (regs_for (ck_epoch (ck s)) p (queue (regs s))) t;
  iv_deferred :
    match pc s with
    | CDeferred _ ds => forall m t, m ∈ ds -> bid_epoch (am_id m) = ck_epoch (ck s) ->
        trackers (ck s) !! bid_partition (am_id m) = Some t -> bid_seq (am_id m) < next_seq t
    | _ => True
    end;
  iv_stats : clean (stats_of (pc s)) /\ Forall clean (totals s);
  iv_reported : forall p e w, (p, e, w) ∈ reported s -> delivered_upto (history s) p e w;
}.

(** ** Framing *)

(** The history only grows: offsets are fixed and a resolved batch is final. *)
Definition evolve (B B' : gmap BatchId Batch) : Prop :=
  forall id b, B !! id = Some b ->
    exists b', B' !! id = Some b' /\ b_off b' = b_off b /\ (b_phase b = Resolved -> b' = b).

Lemma evolve_refl B : evolve B B.
Proof. intros id b ?. eauto. Qed.

Lemma evolve_insert B id b : B !! id = None -> evolve B (<[id := b]> B).
Proof.
  intros Hn id' b' Hb. exists b'. rewrite lookup_insert_ne by congruence. eauto.
Qed.

Lemma evolve_alter B id f :
  (forall b, b_off (f b) = b_off b) ->
  (forall b, B !! id = Some b -> b_phase b <> Resolved) -> evolve B (alter f id B).
Proof.
  intros Hf Hp id' b Hb. rewrite lookup_alter. case_decide as Hd; [subst|by eauto].
  rewrite Hb. exists (f b). split_and!; [done|done|]. intros Hr. by destruct (Hp b).
Qed.

Lemma delivered_upto_evolve B B' p e w :
  evolve B B' -> delivered_upto B p e w -> delivered_upto B' p e w.
Proof.
  intros Hev (k & b & Hk & Hb & -> & Hall).
  destruct (Hev _ _ Hb) as (b' & Hb' & Ho & _). exists k, b'. rewrite Ho.
  split_and!; try done. intros j Hj. destruct (Hall j Hj) as (c & Hc & Hr & Hf).
  destruct (Hev _ _ Hc) as (c' & Hc' & _ & Heq). exists c'. rewrite (Heq Hr) in Hc' |- *.
  eauto.
Qed.

Lemma part_inv_frame B ids B' ids' e p n q t :
  part_inv B ids e p n q t -> evolve B B' ->
  (forall id b, B !! id = Some b -> b_phase b = Resolved -> (id ∈ ids' <-> id ∈ ids)) ->
  (forall id b b', B !! id = Some b -> b_phase b <> Resolved -> B' !! id = Some b' ->
     b_phase b' = Resolved -> id ∈ ids') ->
  part_inv B' ids' e p n q t.
Proof.
  intros [Hok Hn Hq Hc Ho] Hev Hres Hnew. split; try done.
  - intros i reg Hi. destruct (Hq i reg Hi) as [Hid (b & Hb & Hoff)]. split; [done|].
    destruct (Hev _ _ Hb) as (b' & Hb' & E & _). exists b'. split; congruence.
  - intros k Hk. destruct (Hc k Hk) as (b & Hb & Hcase).
    destruct (Hev _ _ Hb) as (b' & Hb' & _ & Hsame). exists b'. split; [done|].
    destruct (consumed t k) as [st|].
    + destruct Hcase as (Hr & Hst & Hni). rewrite (Hsame Hr). split_and!; try done.
      rewrite (Hres _ _ Hb Hr). done.
    + intros Hr'. destruct (b_phase b) eqn:Ep; [by eapply Hnew; eauto; congruence..|].
      rewrite (Hres _ _ Hb Ep). auto.
  - intros i x Hx. destruct (Ho i x Hx) as (b & Hb & Hoff).
    destruct (Hev _ _ Hb) as (b' & Hb' & E & _). exists b'. split; congruence.
Qed.

Lemma regs_for_cons e p reg l :
  regs_for e p (reg :: l) =
    if bool_decide (bid_partition (reg_id reg) = p /\ bid_epoch (reg_id reg) = e)
    then reg :: regs_for e p l else regs_for e p l.
Proof. unfold regs_for. rewrite filter_cons. by case_decide; case_bool_decide. Qed.

Lemma regs_for_nil e p l :
  (forall reg, reg ∈ l -> bid_partition (reg_id reg) = p -> bid_epoch (reg_id reg) <> e) ->
  regs_for e p l = [].
Proof.
  intros H. induction l as [|r l IH]; [done|]. rewrite regs_for_cons.
  rewrite bool_decide_false.
  - apply IH. intros reg Hr. apply H. by right.
  - intros [H1 H2]. by eapply H; [left| |].
Qed.

(** ** The issuing threads *)
Lemma issuer_inv_not_owner e O N B i x :
  local_epoch x <= e -> seqs x = ∅ -> (forall p, O !! p <> Some i) ->
  issuer_inv e O N B i x IIdle.
Proof.
  intros He Hs Hno. split; try done.
  - intros _ p v. by rewrite Hs, lookup_empty.
  - intros p Hp. by destruct (Hno p).
Qed.

Lemma inv_add_issuer s i x :
  Inv s -> issuers s !! i = None -> local_epoch x <= ck_epoch (ck s) -> seqs x = ∅ ->
  Inv (set_issuer i (x, IIdle) s).
Proof.
  intros HI Hi He Hs. destruct HI. split; simpl; try done.
  - intros j y ipc. rewrite lookup_insert. case_decide; [|by eauto].
    subst. intros [= <- <-]. apply issuer_inv_not_owner; try done.
    intros p Hp. specialize (iv_owner0 p). rewrite Hp in iv_owner0.
    destruct iv_owner0 as [[? ?] _]. congruence.
  - intros j k y z id o o'. rewrite !lookup_insert.
    repeat case_decide; try done. eauto.
  - intros p. specialize (iv_owner0 p). destruct (owner s !! p) as [j|]; [|done].
    destruct iv_owner0 as [[y Hy] Hm]. split; [|done].
    rewrite lookup_insert_ne by congruence. eauto.
Qed.

(** [issue_id] continues the counter of the partition. *)
Lemma issue_id_spec e O N B i x p off :
  issuer_inv e O N B i x IIdle -> O !! p = Some i -> 0 <= N p < U64_MAX ->
  B !! mkBatchId p e (N p) = None ->
  exists x', issue_id e p x = (mkBatchId p e (N p), x') /\
    issuer_inv e O N B i x' (ILoaded (mkBatchId p e (N p)) off).
Proof.
  intros [He Hmine Hseq _] Hp HN Hfresh. unfold issue_id.
  set (y := if bool_decide (e <> local_epoch x) then mkIssuer e ∅ else x).
  assert (Hy : local_epoch y = e /\ default 0 (seqs y !! p) = N p /\
    (forall q v, seqs y !! q = Some v -> O !! q = Some i) /\
    (forall q, O !! q = Some i -> default 0 (seqs y !! q) = N q)).
  { subst y. destruct (decide (e <> local_epoch x)) as [Hne|Hne].
    - rewrite (bool_decide_true (e <> _)) by done. simpl.
      assert (Hz : forall q, O !! q = Some i -> N q = 0).
      { intros q Hq. specialize (Hseq q Hq). by rewrite bool_decide_false in Hseq by done. }
      rewrite lookup_empty. split_and!; [done|symmetry; by apply Hz|by intros ??;
        rewrite lookup_empty|]. intros q Hq. by rewrite lookup_empty, Hz.
    - rewrite (bool_decide_false (e <> _)) by done.
      apply dec_stable in Hne. symmetry in Hne.
      assert (Hz : forall q, O !! q = Some i -> default 0 (seqs x !! q) = N q).
      { intros q Hq. specialize (Hseq q Hq). rewrite bool_decide_true in Hseq by done.
        simpl in Hseq. rewrite Z.add_0_r in Hseq. exact Hseq. }
      split_and!; [done|by apply Hz|exact (Hmine Hne)|exact Hz]. }
  destruct Hy as (Hye & Hyp & Hym & Hyq). clearbody y. clear Hmine Hseq He.
  rewrite Hyp. eexists. split; [done|].
  split; simpl.
  - lia.
  - intros _ q v. rewrite lookup_insert. case_decide; [by subst|]. apply Hym.
  - intros q Hq. rewrite bool_decide_true by done. rewrite (bool_decide_true (e = e)) by done.
    rewrite lookup_insert. simpl. case_decide as Hpq.
    + subst. rewrite bool_decide_true by done. simpl.
      rewrite wrap_u64_small by (unfold_int; lia). done.
    + rewrite bool_decide_false by done. rewrite Hyq by done. lia.
  - split_and!; try done. intros _. split_and!; try done. lia.
Qed.

Lemma inv_load s i p off x :
  Inv s -> issuers s !! i = Some (x, IIdle) -> owner s !! p = Some i ->
  nsent s p < U64_MAX ->
  exists id x', issue_id (shared_epoch s) p x = (id, x') /\
    Inv (set_issuer i (x', ILoaded id off) s).
Proof.
  intros HI Hi Hp Hlt. pose proof HI as HI'. destruct HI'.
  assert (Hfresh : history s !! mkBatchId p (ck_epoch (ck s)) (nsent s p) = None).
  { destruct (history s !! _) as [b|] eqn:E; [|done]. apply iv_keys0 in E as [_ E].
    simpl in E. lia. }
  pose proof (iv_sent0 p) as Hs.
  destruct (issue_id_spec _ _ _ _ _ _ p off (iv_issuer0 _ _ _ Hi) Hp ltac:(lia) Hfresh)
    as (x' & Hid & Hii).
  exists (mkBatchId p (ck_epoch (ck s)) (nsent s p)), x'.
  split; [by rewrite iv_epoch0|]. clear Hid. split; simpl; try done.
  - intros j y ipc. rewrite lookup_insert. case_decide; [|by eauto]. subst.
    intros [= <- <-]. exact Hii.
  - assert (Hoth : forall j y o, issuers s !! j =
      Some (y, ILoaded (mkBatchId p (ck_epoch (ck s)) (nsent s p)) o) -> i = j).
    { intros j y o Hj. pose proof (ii_pc _ _ _ _ _ _ _ (iv_issuer0 _ _ _ Hj)) as (_ & _ & Hw).
      destruct (Hw eq_refl) as [Ho _]. simpl in Ho. congruence. }
    intros j k y z id o o'. rewrite !lookup_insert. repeat case_decide; subst; try done.
    + intros [= <- <- <-]. apply Hoth.
    + intros H1 [= <- <- <-]. symmetry. by eapply Hoth.
    + by eauto.
  - intros q. specialize (iv_owner0 q). destruct (owner s !! q) as [j|]; [|done].
    destruct iv_owner0 as [Hj Hm]. split; [|done]. rewrite lookup_insert.
    case_decide; [by eauto|done].
Qed.

Lemma acks_inv_ext w ms B B' :
  acks_inv w ms B ->
  (forall id b, B !! id = Some b -> (forall i, b_phase b <> Sent i) -> B' !! id = Some b) ->
  acks_inv w ms B'.
Proof.
  intros [Hc Ha Hh Hm Hn] Hext. split; try done.
  - intros r st Hr. destruct (Hh r st Hr) as (b & Hb & Hp & Hx). exists b.
    split_and!; try apply Hx; try done. apply Hext; [done|]. intros i. by rewrite Hp.
  - intros m Hin. destruct (Hm m Hin) as (b & Hb & Hp & Hx). exists b.
    split_and!; try apply Hx; try done. apply Hext; [done|]. intros i. by rewrite Hp.
Qed.

(** A registration of the partition's next sequence number is sent. *)
Lemma part_inv_send B ids e p n q t off i :
  part_inv B ids e p n q t -> 0 <= n -> B !! mkBatchId p e n = None ->
  mkBatchId p e n ∉ ids ->
  part_inv (<[mkBatchId p e n := mkBatch off false (Sent i)]> B) ids e p (n + 1)
    (q ++ [mkRegistration (mkBatchId p e n) off]) t.
Proof.
  intros HP Hn0 Hnone Hni. set (B' := <[_ := _]> B).
  assert (HP' : part_inv B' ids e p n q t).
  { eapply part_inv_frame; [done|by apply evolve_insert|done|].
    intros id b b' Hb Hr Hb' Hr'. unfold B' in Hb'.
    rewrite lookup_insert_ne in Hb' by congruence. congruence. }
  destruct HP' as [Hok Hn Hq Hc Ho]. split; try done.
  - rewrite length_app; simpl. lia.
  - intros j reg Hj. apply lookup_app_Some in Hj as [Hj|[Hj1 Hj]]; [by apply Hq|].
    apply list_lookup_singleton_Some in Hj as [Hj0 <-]. simpl. split.
    + f_equal. lia.
    + unfold B'. rewrite lookup_insert_eq. eauto.
  - intros k Hk. destruct (decide (k = n)) as [->|]; [|apply Hc; lia].
    unfold B'. rewrite lookup_insert_eq. eexists. split; [done|].
    destruct Hok as [Hh Htn _]. unfold consumed. rewrite bool_decide_false by lia.
    by rewrite lookup_ge_None_2 by lia.
Qed.

Lemma sent_after_bit s id off p :
  default 0 (sent_after s id !! p) = nsent s p + loaded_bit (ILoaded id off) (shared_epoch s) p.
Proof.
  unfold sent_after. simpl. destruct (decide (bid_epoch id = shared_epoch s)).
  - rewrite !(bool_decide_true (bid_epoch id = _)) by done. rewrite lookup_insert. simpl.
    case_decide as Hd; [rewrite bool_decide_true by done; by subst|].
    rewrite bool_decide_false by done. unfold nsent. lia.
  - rewrite !(bool_decide_false (bid_epoch id = _)) by done. simpl. unfold nsent. lia.
Qed.

Lemma loaded_bit_01 x e p : loaded_bit x e p = 0 \/ loaded_bit x e p = 1.
Proof. destruct x; simpl; auto. destruct (_ && _); auto. Qed.

Lemma loaded_bit_1 id off e p :
  loaded_bit (ILoaded id off) e p = 1 -> bid_epoch id = e /\ bid_partition id = p.
Proof. simpl. repeat case_bool_decide; simpl; naive_solver. Qed.

Lemma inv_send_issuer s i x id off j y ipc :
  Inv s -> issuers s !! i = Some (x, ILoaded id off) ->
  issuers s !! j = Some (y, ipc) -> j <> i ->
  let N' p := nsent s p + loaded_bit (ILoaded id off) (shared_epoch s) p in
  issuer_inv (ck_epoch (ck s)) (owner s) N'
    (<[id := mkBatch off false (Sent i)]> (history s)) j y ipc.
Proof.
  intros HI Hi Hj Hji N'. destruct HI.
  pose proof (ii_pc _ _ _ _ _ _ _ (iv_issuer0 _ _ _ Hi)) as (Hnone & _ & Hcur).
  assert (HN : forall p, owner s !! p = Some j -> N' p = nsent s p).
  { intros p Hp. unfold N'. destruct (loaded_bit_01 (ILoaded id off) (shared_epoch s) p)
      as [->|H1]; [lia|]. apply loaded_bit_1 in H1 as [H1 <-].
    rewrite iv_epoch0 in H1. destruct (Hcur H1) as [Ho _]. congruence. }
  destruct (iv_issuer0 _ _ _ Hj) as [He Hmine Hseq Hpc]. split; try done.
  - intros p Hp. specialize (Hseq p Hp). by rewrite (HN p Hp).
  - destruct ipc as [|id' o'|id' o']; [done| |].
    + destruct Hpc as (Hb & Hle & Hc). split_and!; [|done|].
      * rewrite lookup_insert_ne; [done|]. intros ->. apply Hji. by eapply iv_loaded0.
      * intros Heq. destruct (Hc Heq) as (Ho & Hl & Hs & Hm). by rewrite (HN _ Ho).
    + rewrite lookup_insert_ne; [done|]. congruence.
Qed.

Lemma inv_send_parts s i x id off p t :
  Inv s -> issuers s !! i = Some (x, ILoaded id off) -> trackers (ck s) !! p = Some t ->
  part_inv (<[id := mkBatch off false (Sent i)]> (history s)) (am_id <$> msgs s)
    (ck_epoch (ck s)) p (nsent s p + loaded_bit (ILoaded id off) (ck_epoch (ck s)) p)
    (regs_for (ck_epoch (ck s)) p (queue (regs s) ++ [mkRegistration id off])) t.
Proof.
  intros HI Hi Ht. destruct HI.
  pose proof (ii_pc _ _ _ _ _ _ _ (iv_issuer0 _ _ _ Hi)) as (Hnone & _ & Hcur).
  pose proof (iv_part0 p t Ht) as HP. unfold regs_for in *. rewrite filter_app.
  change (filter ?P [mkRegistration id off]) with (regs_for (ck_epoch (ck s)) p
    [mkRegistration id off]).
  rewrite regs_for_cons. simpl.
  destruct (decide (bid_partition id = p /\ bid_epoch id = ck_epoch (ck s))) as [[<- He]|Hd].
  - destruct (Hcur He) as (_ & _ & Hs & _).
    rewrite !bool_decide_true by done. simpl. destruct id as [p' e' k]; simpl in *; subst.
    apply part_inv_send; try done; [apply iv_sent0|].
    intros (m & Heq & Hm)%list_elem_of_fmap.
    destruct (ai_msgs _ _ _ iv_acks0 m Hm) as (b & Hb & _). congruence.
  - rewrite (bool_decide_false (_ /\ _)) by done. unfold regs_for; simpl. rewrite app_nil_r.
    replace (_ && _) with false.
    2:{ symmetry. apply andb_false_iff. rewrite !bool_decide_eq_false.
        apply not_and_l in Hd as [?|?]; auto. }
    rewrite Z.add_0_r. eapply part_inv_frame; [done|by apply evolve_insert|done|].
    intros id' b b' Hb Hr Hb' Hr'. rewrite lookup_insert_ne in Hb' by congruence. congruence.
Qed.

Lemma inv_send s i x id off :
  Inv s -> issuers s !! i = Some (x, ILoaded id off) ->
  Inv (set_issuer i (x, ISent id off)
        (set_sent (sent_after s id)
          (set_regs (send (mkRegistration id off) (regs s))
            (set_acks (acks s) (<[id := mkBatch off false (Sent i)]> (history s)) s)))).
Proof.
  intros HI Hi. set (s' := set_issuer _ _ _).
  pose proof (iv_issuer _ HI _ _ _ Hi) as [He Hmine Hseq (Hnone & Hle & Hcur)].
  assert (HN : forall p, nsent s' p = nsent s p + loaded_bit (ILoaded id off) (ck_epoch (ck s)) p).
  { intros p. rewrite <- (iv_epoch _ HI). apply sent_after_bit. }
  pose proof (fun p => loaded_bit_01 (ILoaded id off) (ck_epoch (ck s)) p) as H01.
  pose proof (fun p => loaded_bit_1 id off (ck_epoch (ck s)) p) as H1.
  assert (Hbit : forall p, owner s !! p <> Some i -> nsent s' p = nsent s p).
  { intros p Hp. rewrite HN. destruct (H01 p) as [->|Hb]; [lia|].
    apply H1 in Hb as [Hb <-]. by destruct (Hcur Hb). }
  assert (Hrc : send (mkRegistration id off) (regs s) =
    mkChannel (queue (regs s) ++ [mkRegistration id off]) true).
  { unfold send. by rewrite (iv_conn _ HI). }
  pose proof HI as HI'. destruct HI'. split; simpl; try done.
  - by rewrite Hrc.
  - eapply acks_inv_ext; [done|]. intros id' b Hb _. by rewrite lookup_insert_ne by congruence.
  - intros j y ipc. rewrite lookup_insert. goal_decide Hij.
    + subst j. intros [= <- <-]. split; try done.
      * intros p Hp. specialize (Hseq p Hp). rewrite HN. simpl (loaded_bit (ISent _ _) _ _).
        revert Hseq. case_bool_decide; [lia|]. intros ->.
        destruct (H01 p) as [->|Hb]; [lia|]. apply H1 in Hb as [Hb _].
        by destruct (Hcur Hb) as (_ & ? & _).
      * by rewrite lookup_insert_eq.
    + intros Hj. pose proof (inv_send_issuer _ _ _ _ _ _ _ _ HI Hi Hj ltac:(congruence)) as H.
      simpl in H. rewrite iv_epoch0 in H. destruct H as [G1 G2 G3 G4]. split; try done.
      * intros p Hp. rewrite HN. by apply G3.
      * destruct ipc; try done. destruct G4 as (G5 & G6 & G7). split_and!; try done.
        intros G8. rewrite HN. by apply G7.
  - intros j k y z id' o o'. rewrite !lookup_insert. goal_decides; try done. eauto.
  - intros p. specialize (iv_owner0 p). destruct (owner s !! p) as [j|] eqn:Ho.
    + destruct iv_owner0 as [Hj Hm]. split; [|done]. rewrite lookup_insert.
      goal_decide Hd; [by eauto|done].
    + rewrite Hbit by congruence. done.
  - intros id' b. rewrite lookup_insert. goal_decide Hd.
    + subst id'. intros _. split; [done|]. intros Heq. destruct (Hcur Heq) as (_ & _ & Hs & _).
      pose proof (iv_sent0 (bid_partition id)). rewrite HN, Hs. simpl.
      rewrite !bool_decide_true by done. simpl. lia.
    + intros Hb. destruct (iv_keys0 _ _ Hb) as [G1 G2]. split; [done|]. intros G3.
      specialize (G2 G3). rewrite HN. destruct (H01 (bid_partition id')) as [->| ->]; lia.
  - intros p. pose proof (iv_sent0 p). rewrite HN. destruct (H01 p) as [->|Hb]; [lia|].
    rewrite Hb. apply H1 in Hb as [Hb <-]. destruct (Hcur Hb) as (_ & _ & _ & ?). lia.
  - rewrite Hrc. simpl. intros reg [Hr| ->%list_elem_of_singleton]%elem_of_app.
    + destruct (iv_regs0 _ Hr) as [b Hb]. rewrite lookup_insert_ne by congruence. eauto.
    + simpl. rewrite lookup_insert_eq. eauto.
  - intros p t Ht. rewrite HN, Hrc. exact (inv_send_parts s i x id off p t HI Hi Ht).
  - intros p e w Hw. eapply delivered_upto_evolve; [by apply evolve_insert|by apply iv_reported0].
Qed.

(** ** Handles *)
Lemma inv_set_acks s w B' :
  Inv s -> acks_inv w (queue (ack_tx w) ++ deferred_of (pc s)) B' ->
  evolve (history s) B' ->
  (forall id, is_Some (B' !! id) -> is_Some (history s !! id)) ->
  (forall i x id off, issuers s !! i = Some (x, ISent id off) -> B' !! id = history s !! id) ->
  (forall id b, history s !! id = Some b -> b_phase b = Resolved ->
     id ∈ am_id <$> (queue (ack_tx w) ++ deferred_of (pc s)) <-> id ∈ am_id <$> msgs s) ->
  (forall id b b', history s !! id = Some b -> b_phase b <> Resolved -> B' !! id = Some b' ->
     b_phase b' = Resolved -> id ∈ am_id <$> (queue (ack_tx w) ++ deferred_of (pc s))) ->
  Inv (set_acks w B' s).
Proof.
  intros HI Ha Hev Hdom Hsent Hres Hnew. destruct HI. split; simpl; try done.
  - intros i x ipc Hi. destruct (iv_issuer0 _ _ _ Hi) as [G1 G2 G3 G4]. split; try done.
    destruct ipc as [|id off|id off]; [done| |by rewrite (Hsent _ _ _ _ Hi)].
    destruct G4 as (G5 & G6 & G7). split_and!; try done.
    destruct (B' !! id) eqn:E; [|done].
    destruct (Hdom id) as [b' Hb']; [by eauto|]. congruence.
  - intros id b Hb. destruct (Hdom id) as [b' Hb']; [by eauto|]. by apply (iv_keys0 id b').
  - intros reg Hr. destruct (iv_regs0 reg Hr) as [b Hb].
    destruct (Hev _ _ Hb) as (b' & Hb' & _). eauto.
  - intros p t Ht. eapply part_inv_frame; [by apply iv_part0|done|done|done].
  - intros p e w' Hw. eapply delivered_upto_evolve; [done|by apply iv_reported0].
Qed.

Lemma inv_leave_sent s i x id off :
  Inv s -> issuers s !! i = Some (x, ISent id off) -> Inv (set_issuer i (x, IIdle) s).
Proof.
  intros HI Hi. destruct HI. split; simpl; try done.
  - intros j y ipc. rewrite lookup_insert. goal_decide Hd; [subst|by apply iv_issuer0].
    intros [= <- <-]. destruct (iv_issuer0 _ _ _ Hi) as [G1 G2 G3 G4]. by split.
  - intros j k y z id' o o'. rewrite !lookup_insert. goal_decides; try done. eauto.
  - intros p. specialize (iv_owner0 p). destruct (owner s !! p) as [j|]; [|done].
    destruct iv_owner0 as [Hj Hm]. split; [|done]. rewrite lookup_insert.
    goal_decide Hd; [by eauto|done].
Qed.

Lemma is_Some_alter {A} (f : A -> A) (m : gmap BatchId A) k id :
  is_Some (alter f k m !! id) -> is_Some (m !! id).
Proof. rewrite lookup_alter. goal_decide Hd; [subst|done]. by rewrite fmap_is_Some. Qed.

Lemma inv_new s i x id off :
  Inv s -> issuers s !! i = Some (x, ISent id off) ->
  Inv (set_issuer i (x, IIdle)
        (set_acks (AckRef_new id off (acks s)).2
           (alter (b_set_phase (Live (fresh_ref (acks s)))) id (history s)) s)).
Proof.
  intros HI Hi. pose proof (ii_pc _ _ _ _ _ _ _ (iv_issuer _ HI _ _ _ Hi)) as Hb.
  simpl in Hb. pose proof (iv_acks _ HI) as [A1 A2 A3 A4 A5].
  apply (inv_set_acks (set_issuer i (x, IIdle) s)); simpl; try done.
  - by eapply inv_leave_sent.
  - split; simpl; try done.
    + intros r Hr. rewrite lookup_insert_ne by lia. apply A2. lia.
    + intros r st. rewrite lookup_insert. goal_decide Hd.
      * subst r. intros [= <-]. simpl. rewrite lookup_alter_eq, Hb. simpl. eauto 8.
      * intros Hr. destruct (A3 r st Hr) as (b & Hbb & Hp & Ho & Hs).
        exists b. rewrite lookup_alter_ne; [done|]. intros ->.
        rewrite Hb in Hbb. simplify_eq.
    + intros m Hm. destruct (A4 m Hm) as (b & Hbb & Hp & Hs).
      exists b. rewrite lookup_alter_ne; [done|]. intros ->. rewrite Hb in Hbb. simplify_eq.
  - apply evolve_alter; [done|]. intros b. rewrite Hb. by intros [= <-].
  - intros id'. apply is_Some_alter.
  - intros j y id' o. rewrite lookup_insert. goal_decide Hd; [done|]. intros Hj.
    pose proof (ii_pc _ _ _ _ _ _ _ (iv_issuer _ HI _ _ _ Hj)) as Hb'. simpl in Hb'.
    rewrite lookup_alter_ne; [done|]. intros ->. congruence.
  - intros id' b b' Hbb Hp. rewrite lookup_alter. goal_decide Hd; [subst|congruence].
    rewrite Hbb. intros [= <-]. done.
Qed.

Lemma inv_clone s r : Inv s -> Inv (set_acks (AckRef_clone r (acks s)) (history s) s).
Proof.
  intros HI. pose proof (iv_acks _ HI) as [A1 A2 A3 A4 A5].
  apply inv_set_acks; simpl; try done; [|apply evolve_refl|congruence].
  split; simpl; try done.
  - intros r' Hr. rewrite lookup_alter. goal_decide Hd; [subst|by apply A2]. by rewrite A2.
  - intros r' st. rewrite lookup_alter. goal_decide Hd; [subst|by apply A3].
    intros (st0 & Hst & ->)%fmap_Some. by apply A3 in Hst.
Qed.

Lemma inv_fail s r st :
  Inv s -> heap (acks s) !! r = Some st ->
  Inv (set_acks (AckRef_fail r (acks s)) (alter b_set_failed (as_id st) (history s)) s).
Proof.
  intros HI Hr. pose proof (iv_acks _ HI) as [A1 A2 A3 A4 A5].
  destruct (A3 r st Hr) as (b & Hb & Hp & Ho & Hs).
  apply inv_set_acks; simpl; try done.
  - split; simpl; try done.
    + intros r' Hr'. rewrite lookup_alter. goal_decide Hd; [subst|by apply A2]. by rewrite A2.
    + intros r' st'. rewrite lookup_alter. goal_decide Hd.
      * subst. rewrite Hr. intros [= <-]. simpl. rewrite lookup_alter_eq, Hb. simpl. eauto.
      * intros Hr'. destruct (A3 r' st' Hr') as (b' & Hb' & Hp' & Ho' & Hs').
        exists b'. rewrite lookup_alter_ne; [done|]. congruence.
    + intros m Hm. destruct (A4 m Hm) as (b' & Hb' & Hp' & Hs').
      exists b'. rewrite lookup_alter_ne; [done|]. congruence.
  - apply evolve_alter; [done|]. congruence.
  - intros id'. apply is_Some_alter.
  - intros j y id' o Hj. pose proof (ii_pc _ _ _ _ _ _ _ (iv_issuer _ HI _ _ _ Hj)) as Hb'.
    simpl in Hb'. rewrite lookup_alter_ne; [done|]. intros <-. rewrite Hb in Hb'.
    simplify_eq.
  - intros id' b0 b' Hbb Hp0. rewrite lookup_alter. goal_decide Hd; [subst|congruence].
    rewrite Hbb. intros [= <-]. done.
Qed.

Lemma status_of_u8 x :
  (if bool_decide (status_u8 x = status_u8 Delivered) then Delivered else Failed) = x.
Proof. by destruct x. Qed.

Lemma inv_drop_last s r st :
  Inv s -> heap (acks s) !! r = Some st ->
  Inv (set_acks (AckState_drop st (mkAcks (delete r (heap (acks s))) (fresh_ref (acks s))
                                    (ack_tx (acks s))))
         (alter (b_set_phase Resolved) (as_id st) (history s)) s).
Proof.
  intros HI Hr. pose proof (iv_acks _ HI) as [A1 A2 A3 A4 A5].
  destruct (A3 r st Hr) as (b & Hb & Hp & Ho & Hs).
  unfold AckState_drop. rewrite Hs, status_of_u8. unfold AckTx_send, send. simpl.
  rewrite A1. set (m := mkAckMsg (as_id st) (as_last_offset st) (b_status b)).
  assert (Hmem : forall id, id ∈ am_id <$> ((queue (ack_tx (acks s)) ++ [m]) ++ deferred_of (pc s))
      <-> id = as_id st \/ id ∈ am_id <$> msgs s).
  { intros id. unfold msgs. rewrite !fmap_app, !elem_of_app. simpl.
    rewrite list_elem_of_singleton. tauto. }
  assert (Hnot : as_id st ∉ am_id <$> msgs s).
  { intros (m' & Heq & Hm)%list_elem_of_fmap.
    destruct (A4 m' Hm) as (b' & Hb' & Hp' & _). congruence. }
  apply inv_set_acks; simpl; try done.
  - split; simpl; try done.
    + intros r' Hr'. rewrite lookup_delete. goal_decide Hd; [done|by apply A2].
    + intros r' st' [Hne Hr']%lookup_delete_Some.
      destruct (A3 r' st' Hr') as (b' & Hb' & Hp' & Ho' & Hs').
      exists b'. rewrite lookup_alter_ne; [done|]. congruence.
    + intros m' Hm'. assert (m' = m \/ m' ∈ msgs s) as [->|Hin].
      { unfold msgs. rewrite !elem_of_app, list_elem_of_singleton in *. tauto. }
      * simpl. rewrite lookup_alter_eq, Hb. simpl. eauto.
      * destruct (A4 m' Hin) as (b' & Hb' & Hp' & Hs').
        exists b'. rewrite lookup_alter_ne; [done|]. congruence.
    + rewrite <- app_assoc, fmap_app. simpl. rewrite <- Permutation_middle.
      constructor; [|by rewrite <- fmap_app]. by rewrite <- fmap_app.
  - apply evolve_alter; [done|]. congruence.
  - intros id'. apply is_Some_alter.
  - intros j y id' o Hj. pose proof (ii_pc _ _ _ _ _ _ _ (iv_issuer _ HI _ _ _ Hj)) as Hb'.
    simpl in Hb'. rewrite lookup_alter_ne; [done|]. intros <-. rewrite Hb in Hb'.
    simplify_eq.
  - intros id b0 Hb0 Hp0. rewrite Hmem. split; [|by right].
    intros [->|]; [congruence|done].
  - intros id b0 b' Hb0 Hp0 Hb' Hp'. apply Hmem. rewrite lookup_alter in Hb'.
    destruct (decide (as_id st = id)); [by left|congruence].
Qed.

Lemma inv_drop s r st :
  Inv s -> heap (acks s) !! r = Some st ->
  Inv (set_acks (AckRef_drop r (acks s))
        (if bool_decide (as_strong st <= 1)%nat
         then alter (b_set_phase Resolved) (as_id st) (history s) else history s) s).
Proof.
  intros HI Hr. unfold AckRef_drop. rewrite Hr. case_bool_decide; [by apply inv_drop_last|].
  pose proof (iv_acks _ HI) as [A1 A2 A3 A4 A5].
  apply inv_set_acks; simpl; try done; [|apply evolve_refl|congruence].
  split; simpl; try done.
  - intros r' Hr'. rewrite lookup_insert. goal_decide Hd; [subst|by apply A2].
    by rewrite A2 in Hr.
  - intros r' st'. rewrite lookup_insert. goal_decide Hd; [subst|by apply A3].
    intros [= <-]. by apply A3 in Hr.
Qed.

(** ** Assignments *)
Lemma admit_all_lookup ps : forall ts gs c p,
  (admit_all ps ts gs c).1.1 !! p =
    if bool_decide (p ∈ ps) then Some tracker_new else ts !! p.
Proof.
  unfold admit_all. induction ps as [|q ps IH]; intros ts gs c p; simpl; [done|].
  rewrite IH. destruct (decide (p ∈ ps)).
  - rewrite !bool_decide_true by (set_solver). done.
  - rewrite (bool_decide_false (p ∈ ps)) by done. destruct (decide (q = p)) as [->|].
    + rewrite lookup_insert_eq, bool_decide_true by set_solver. done.
    + rewrite lookup_insert_ne by done. by rewrite bool_decide_false by set_solver.
Qed.

Lemma opt_max_l a b m : a = Some m -> exists m', opt_max a b = Some m' /\ m <= m'.
Proof. intros ->. destruct b; simpl; eexists; split; try done; lia. Qed.

Lemma opt_max_r a b m : b = Some m -> exists m', opt_max a b = Some m' /\ m <= m'.
Proof. intros ->. destruct a; simpl; eexists; split; try done; lia. Qed.

Lemma list_max_ge ps p : p ∈ ps -> exists m, list_max ps = Some m /\ p <= m.
Proof.
  unfold list_max.
  assert (Hmono : forall ps a m, a = Some m ->
    exists m', foldl (fun m p => opt_max m (Some p)) a ps = Some m' /\ m <= m').
  { induction ps0 as [|q l IH]; intros a m Ha; simpl; [eauto with lia|].
    destruct (opt_max_l a (Some q) m Ha) as (m1 & Hm1 & Hle).
    destruct (IH _ _ Hm1) as (m2 & ? & ?). exists m2. split; [done|lia]. }
  generalize (None : option Z). induction ps as [|q l IH]; intros a Hp; [by apply elem_of_nil in Hp|].
  simpl. apply elem_of_cons in Hp as [->|Hp]; [|by apply IH].
  destruct (opt_max_r a (Some q) q eq_refl) as (m1 & Hm1 & Hle).
  destruct (Hmono l _ _ Hm1) as (m2 & ? & ?). exists m2. split; [done|lia].
Qed.

(** A partition admitted with nothing registered. *)
Lemma part_inv_new B ids e p : part_inv B ids e p 0 [] tracker_new.
Proof. split; [apply tracker_ok_new|done|done|intros; lia|done]. Qed.

Lemma inv_begin s ps e own :
  Inv s -> pc s = CIdle -> ck_epoch (ck s) < e -> lanes_ok ps own s ->
  exists c, begin_epoch ps e (ck s) = Some (c, e) /\
    Inv (mkSys (issuers s) e (regs s) (acks s) c CIdle own (history s) ∅
           (reported s) (totals s) false).
Proof.
  intros HI Hpc He Hl. unfold begin_epoch. rewrite bool_decide_true by done. simpl.
  pose proof (admit_all_lookup ps ∅ ∅ (counters (ck s))) as Hts.
  destruct (admit_all ps ∅ ∅ (counters (ck s))) as [[ts gs] c]. simpl in Hts.
  eexists. split; [done|]. destruct HI. split; simpl; try done.
  - unfold msgs in *. simpl. by rewrite Hpc in iv_acks0.
  - intros i x ipc Hi. destruct (iv_issuer0 _ _ _ Hi) as [G1 G2 G3 G4]. split; try lia.
    + intros p _. by rewrite bool_decide_false by lia.
    + destruct ipc as [|id off|id off]; try done. destruct G4 as (G5 & G6 & G7).
      split_and!; [done|lia|lia].
  - intros p. destruct (own !! p) as [i|] eqn:Ho; [|done].
    destruct (Hl p i Ho) as [Hin Hi]. split; [done|]. by apply list_max_ge.
  - intros id b Hb. destruct (iv_keys0 id b Hb). lia.
  - intros p t Ht. rewrite Hts in Ht. case_bool_decide as Hin; [|by rewrite lookup_empty in Ht].
    injection Ht as <-. rewrite regs_for_nil; [apply part_inv_new|].
    intros reg Hr _ Heq. destruct (iv_regs0 _ Hr) as [b Hb].
    destruct (iv_keys0 _ _ Hb). lia.
  - split; [by split|apply iv_stats0].
Qed.

Lemma first_some_None {A B} (f : A -> option B) l :
  first_some f l = None -> forall x, x ∈ l -> f x = None.
Proof.
  induction l as [|y l IH]; simpl; intros H x Hx; [by apply elem_of_nil in Hx|].
  destruct (f y) eqn:E; [done|]. apply elem_of_cons in Hx as [->|Hx]; auto.
Qed.

Lemma extend_check_None ck p :
  extend_check ck p = None ->
  trackers ck !! p = None /\ forall m, admitted_through ck = Some m -> m < p.
Proof.
  unfold extend_check. case_bool_decide as Ht; [done|].
  rewrite <- eq_None_not_Some in Ht. intros Hc. split; [done|]. intros m Hm.
  rewrite Hm in Hc. case_bool_decide; [done|lia].
Qed.

Lemma inv_extend s ps own c :
  Inv s -> pc s = CIdle -> lanes_ok ps own s -> extend_epoch ps (ck s) = inr c ->
  Inv (mkSys (issuers s) (shared_epoch s) (regs s) (acks s) c CIdle (own ∪ owner s)
         (history s) (sent s) (reported s) (totals s) false).
Proof.
  intros HI Hpc Hl Hx. unfold extend_epoch in Hx.
  destruct (first_some _ ps) eqn:Hf; [done|].
  pose proof (admit_all_lookup ps (trackers (ck s)) (gates (ck s)) (counters (ck s))) as Hts.
  destruct (admit_all ps _ _ _) as [[ts gs] cs]. simpl in Hts. injection Hx as <-.
  assert (Hnew : forall p, p ∈ ps -> owner s !! p = None /\ nsent s p = 0).
  { intros p Hp. destruct (extend_check_None _ _ (first_some_None _ _ Hf p Hp)) as [_ Hm].
    pose proof (iv_owner _ HI p) as Ho. destruct (owner s !! p); [|done].
    destruct Ho as [_ (m & Hadm & Hle)]. specialize (Hm m Hadm). lia. }
  assert (Hold : forall p i, (own ∪ owner s) !! p = Some i ->
    own !! p = Some i /\ p ∈ ps \/ owner s !! p = Some i).
  { intros p i [Ho|[_ Ho]]%lookup_union_Some_raw; [left|by right].
    split; [done|]. by destruct (Hl p i Ho). }
  destruct HI. split; simpl; try done.
  - unfold msgs in *. simpl. by rewrite Hpc in iv_acks0.
  - intros i x ipc Hi. destruct (iv_issuer0 _ _ _ Hi) as [G1 G2 G3 G4]. split; try done.
    + intros G5 p v Hv. apply lookup_union_Some_raw. right.
      specialize (G2 G5 p v Hv). split; [|done]. destruct (own !! p) as [j|] eqn:Ho; [|done].
      destruct (Hl p j Ho) as [Hin _]. destruct (Hnew p Hin). congruence.
    + intros p [[Ho Hin]|Ho]%Hold; [|by apply G3]. destruct (Hnew p Hin) as [Hn Hz].
      case_bool_decide as He; [|done]. unfold nsent in *. simpl. rewrite Hz.
      destruct (seqs x !! p) as [v|] eqn:Hv; [specialize (G2 He p v Hv); congruence|].
      simpl. destruct ipc as [|id off|id off]; try done. simpl.
      destruct G4 as (_ & _ & G7). repeat case_bool_decide; try done.
      subst p. destruct G7 as [G8 _]; [done|]. congruence.
    + destruct ipc as [|id off|id off]; try done. destruct G4 as (G5 & G6 & G7).
      split_and!; try done. intros G8. destruct (G7 G8) as (G9 & G10). split; [|done].
      apply lookup_union_Some_raw. right. split; [|done].
      destruct (own !! _) as [j|] eqn:Ho; [|done].
      destruct (Hl _ j Ho) as [Hin _]. destruct (Hnew _ Hin). congruence.
  - intros p. destruct ((own ∪ owner s) !! p) as [i|] eqn:Ho.
    + apply Hold in Ho as [[Ho Hin]|Ho].
      * split; [by destruct (Hl p i Ho)|]. destruct (list_max_ge _ _ Hin) as (m & Hm & Hle).
        destruct (opt_max_r (admitted_through (ck s)) _ _ Hm) as (m' & ? & ?).
        exists m'. split; [done|lia].
      * specialize (iv_owner0 p). rewrite Ho in iv_owner0.
        destruct iv_owner0 as [? (m & Hm & Hle)]. split; [done|].
        destruct (opt_max_l _ (list_max ps) _ Hm) as (m' & ? & ?). exists m'. split; [done|lia].
    + apply lookup_union_None in Ho as [_ Ho]. specialize (iv_owner0 p).
      by rewrite Ho in iv_owner0.
  - intros p t Ht. rewrite Hts in Ht. case_bool_decide as Hin.
    + injection Ht as <-. destruct (Hnew p Hin) as [_ Hz]. unfold nsent in *. simpl.
      rewrite Hz, regs_for_nil; [apply part_inv_new|]. intros reg Hr Hp Heq.
      destruct (iv_regs0 _ Hr) as [b Hb]. destruct (iv_keys0 _ _ Hb) as [_ Hk].
      specialize (Hk Heq). rewrite Hp in Hk. unfold nsent in Hk. lia.
    + unfold msgs in *. simpl. rewrite Hpc in *. by apply iv_part0.
  - split; [by split|apply iv_stats0].
Qed.

(** ** The controller's loops *)
Lemma part_inv_ids B ids ids' e p n q t :
  part_inv B ids e p n q t ->
  (forall k, mkBatchId p e k ∈ ids' <-> mkBatchId p e k ∈ ids) ->
  part_inv B ids' e p n q t.
Proof.
  intros [Hok Hn Hq Hc Ho] Hids. split; try done. intros k Hk.
  destruct (Hc k Hk) as (b & Hb & Hcase). exists b. split; [done|].
  destruct (consumed t k); by rewrite Hids.
Qed.

Lemma part_register B ids e p n reg q t :
  part_inv B ids e p n (reg :: q) t -> n <= U64_MAX ->
  exists t', register t (bid_seq (reg_id reg)) (reg_last_offset reg) = Some t' /\
    part_inv B ids e p n q t'.
Proof.
  intros [Hok Hn Hq Hc Ho] Hmax. simpl in Hn.
  destruct (Hq 0%nat reg eq_refl) as [Hid (b & Hb & Hoff)]. rewrite Z.add_0_r in Hid.
  destruct (register_next t (reg_last_offset reg) Hok) as (t' & Hr & Hok' & Hh & Hx & Hring & Hcons);
    [lia|].
  exists t'. rewrite Hid. split; [done|]. split; try done.
  - lia.
  - intros i r Hi. destruct (Hq (S i) r Hi) as [E1 E2]. split; [|done].
    rewrite E1. f_equal. lia.
  - intros k Hk. rewrite Hcons. by apply Hc.
  - intros i x Hx'. rewrite Hh. rewrite Hring in Hx'.
    apply lookup_app_Some in Hx' as [Hx'|[Hi Hx']]; [by apply Ho|].
    apply list_lookup_singleton_Some in Hx' as [Hi' <-]. simpl. exists b.
    split; [|done]. rewrite <- Hb, Hid. do 2 f_equal. destruct Hok. lia.
Qed.

Lemma part_resolve B ids ids' e p n q t k b :
  part_inv B ids e p n q t -> 0 <= k < next_seq t -> mkBatchId p e k ∈ ids ->
  B !! mkBatchId p e k = Some b -> b_phase b = Resolved ->
  (forall id, id ∈ ids' <-> id ∈ ids /\ id <> mkBatchId p e k) ->
  exists t', resolve t k (b_status b) = (t', Applied) /\ next_seq t' = next_seq t /\
    part_inv B ids' e p n q t'.
Proof.
  intros [Hok Hn Hq Hc Ho] Hk Hin Hb Hp Hids'.
  assert (Hnone : consumed t k = None).
  { destruct (Hc k ltac:(lia)) as (b' & _ & Hcase). destruct (consumed t k); [|done].
    by destruct Hcase as (_ & _ & []). }
  destruct (resolve_pending t k (b_status b) Hok Hk Hnone)
    as (t' & Hr & Hok' & Hh & Hx & Hring & Hcons).
  exists t'. split_and!; try done. split; try done.
  - by rewrite Hx.
  - by rewrite Hx.
  - intros j Hj. destruct (Hc j Hj) as (b' & Hb' & Hcase). exists b'. split; [done|].
    rewrite Hcons by lia. case_bool_decide as Hd.
    + subst j. rewrite Hb in Hb'. simplify_eq. split_and!; try done.
      rewrite Hids'. tauto.
    + assert (mkBatchId p e j <> mkBatchId p e k) by congruence.
      destruct (consumed t j); rewrite Hids'; tauto.
  - intros i x Hi. rewrite Hh.
    assert (Hoff : (slot_last_offset <$> ring t) !! i = Some (slot_last_offset x)).
    { by rewrite <- Hring, list_lookup_fmap, Hi. }
    rewrite list_lookup_fmap in Hoff. apply fmap_Some in Hoff as (y & Hy & ->).
    by apply Ho.
Qed.

(** A step of the controller that keeps the assignment. *)
Lemma inv_ctl s c x rc w tot :
  Inv s ->
  ck_epoch c = ck_epoch (ck s) -> admitted_through c = admitted_through (ck s) ->
  connected rc = true -> connected (ack_tx w) = true ->
  heap w = heap (acks s) -> fresh_ref w = fresh_ref (acks s) ->
  (forall m, m ∈ queue (ack_tx w) ++ deferred_of x -> m ∈ msgs s) ->
  NoDup (am_id <$> (queue (ack_tx w) ++ deferred_of x)) ->
  (forall reg, reg ∈ queue rc -> reg ∈ queue (regs s)) ->
  (forall p t, trackers c !! p = Some t ->
     part_inv (history s) (am_id <$> (queue (ack_tx w) ++ deferred_of x)) (ck_epoch (ck s)) p
       (nsent s p) (regs_for (ck_epoch (ck s)) p (queue rc)) t) ->
  match x with
  | CDeferred _ ds => forall m t, m ∈ ds -> bid_epoch (am_id m) = ck_epoch (ck s) ->
      trackers c !! bid_partition (am_id m) = Some t -> bid_seq (am_id m) < next_seq t
  | _ => True
  end ->
  clean (stats_of x) -> Forall clean tot ->
  Inv (mkSys (issuers s) (shared_epoch s) rc w c x (owner s) (history s) (sent s)
         (reported s) tot (panicked s)).
Proof.
  intros HI He Ha Hrc Hw Hh Hf Hms Hnd Hq Hparts Hdef Hcl Htot. destruct HI.
  split; simpl; rewrite ?He, ?Ha; try done.
  - destruct iv_acks0 as [A1 A2 A3 A4 A5]. split; rewrite ?Hh, ?Hf; try done. eauto.
  - eauto.
Qed.

Lemma inv_ctl_idle s c :
  Inv s -> pc s = CIdle -> ck_epoch c = ck_epoch (ck s) ->
  admitted_through c = admitted_through (ck s) ->
  (forall p t, trackers c !! p = Some t ->
     part_inv (history s) (am_id <$> msgs s) (ck_epoch (ck s)) p (nsent s p)
       (regs_for (ck_epoch (ck s)) p (queue (regs s))) t) ->
  Inv (set_ck c CIdle s).
Proof.
  intros HI Hpc He Ha Hp. pose proof (iv_acks _ HI) as [A1 A2 A3 A4 A5].
  pose proof (iv_conn _ HI) as Hrc. pose proof (iv_stats _ HI) as [_ Htot].
  unfold msgs in *. rewrite Hpc in *. simpl in *. unfold set_ck.
  apply inv_ctl; unfold msgs; rewrite ?Hpc; try done.
Qed.

Lemma delete_all_lookup {A} ps : forall (ts : gmap Z A) p t,
  foldl (fun ts p => delete p ts) ts ps !! p = Some t -> ts !! p = Some t.
Proof.
  induction ps as [|q ps IH]; intros ts p t; simpl; [done|].
  intros [_ ?]%IH%lookup_delete_Some. done.
Qed.

Lemma inv_revoke s ps : Inv s -> pc s = CIdle -> Inv (set_ck (revoke ps (ck s)) CIdle s).
Proof.
  intros HI Hpc. apply inv_ctl_idle; try done. simpl.
  intros p t Ht%delete_all_lookup. by apply iv_part.
Qed.

Lemma inv_recv_reg s k st reg rest :
  Inv s -> stats_of (pc s) = st ->
  (forall st, deferred_of (k st) = deferred_of (pc s) /\ stats_of (k st) = st /\
     match k st with CDeferred _ _ => False | _ => True end) ->
  try_recv (regs s) = Some (reg, rest) ->
  Inv (recv_reg k st reg rest s).
Proof.
  intros HI Hst Hk Hrecv. unfold try_recv in Hrecv.
  destruct (queue (regs s)) as [|reg' q] eqn:Hq; [done|]. injection Hrecv as <- <-.
  set (e := ck_epoch (ck s)). pose proof (iv_acks _ HI) as [A1 A2 A3 A4 A5].
  pose proof (iv_stats _ HI) as [Hcl Htot].
  assert (Hgo : forall c st', ck_epoch c = e ->
    admitted_through c = admitted_through (ck s) -> clean st' ->
    (forall p t, trackers c !! p = Some t ->
       part_inv (history s) (am_id <$> msgs s) e p (nsent s p) (regs_for e p q) t) ->
    Inv (set_ck c (k st') (set_regs (mkChannel q (connected (regs s))) s))).
  { intros c st' He Ha Hc Hp. destruct (Hk st') as (Hk1 & Hk2 & Hk3).
    apply (inv_ctl s c (k st') (mkChannel q (connected (regs s))) (acks s) (totals s));
      rewrite ?Hk1, ?Hk2; try done; try apply HI.
    - simpl. rewrite Hq. intros r Hr. by right.
    - by destruct (k st'). }
  assert (Hskip : forall p t, trackers (ck s) !! p = Some t ->
    ~ (bid_partition (reg_id reg') = p /\ bid_epoch (reg_id reg') = e) ->
    part_inv (history s) (am_id <$> msgs s) e p (nsent s p) (regs_for e p q) t).
  { intros p t Ht Hn. pose proof (iv_part _ HI p t Ht) as HP.
    rewrite Hq, regs_for_cons, bool_decide_false in HP by done. done. }
  unfold recv_reg, apply_registration. case_bool_decide as He.
  { apply Hgo; try done; [by subst|]. intros p t Ht. apply Hskip; [done|]. naive_solver. }
  destruct (trackers (ck s) !! bid_partition (reg_id reg')) as [t|] eqn:Ht.
  2:{ apply Hgo; try done; [by subst|]. intros p t Ht'. apply Hskip; [done|].
      intros [<- _]. congruence. }
  pose proof (iv_part _ HI _ _ Ht) as HP.
  rewrite Hq, regs_for_cons, bool_decide_true in HP by done.
  destruct (part_register _ _ _ _ _ _ _ _ HP) as (t' & -> & HP'); [apply HI|].
  apply Hgo; try done; [by subst|]. simpl. intros p t0.
  rewrite lookup_insert. goal_decide Hd; [subst|].
  - by intros [= <-].
  - intros Ht0. apply Hskip; [done|]. naive_solver.
Qed.

(** What [apply] does to a resolution in flight: it applies it, drops it as
    stale, or finds that its registration has not been drained. *)
Lemma apply_cases s m st df :
  Inv s -> m ∈ msgs s -> clean st ->
  (exists c st', apply m (ck s) st df = (c, st', df) /\ clean st' /\
     ck_epoch c = ck_epoch (ck s) /\ admitted_through c = admitted_through (ck s) /\
     (forall p t, trackers c !! p = Some t ->
        exists t0, trackers (ck s) !! p = Some t0 /\ next_seq t = next_seq t0) /\
     forall ids', (forall id, id ∈ ids' <-> id ∈ am_id <$> msgs s /\ id <> am_id m) ->
       forall p t, trackers c !! p = Some t ->
         part_inv (history s) ids' (ck_epoch (ck s)) p (nsent s p)
           (regs_for (ck_epoch (ck s)) p (queue (regs s))) t) \/
  (exists t, bid_epoch (am_id m) = ck_epoch (ck s) /\
     trackers (ck s) !! bid_partition (am_id m) = Some t /\ next_seq t <= bid_seq (am_id m) /\
     apply m (ck s) st df = (ck s, match df with Some _ => st | None => add_unknown st end,
                             (fun ds => ds ++ [m]) <$> df)).
Proof.
  intros HI Hm Hcl. set (e := ck_epoch (ck s)).
  assert (Hskip : forall ids' p t,
    (forall id, id ∈ ids' <-> id ∈ am_id <$> msgs s /\ id <> am_id m) ->
    trackers (ck s) !! p = Some t -> ~ (bid_partition (am_id m) = p /\ bid_epoch (am_id m) = e) ->
    part_inv (history s) ids' e p (nsent s p) (regs_for e p (queue (regs s))) t).
  { intros ids' p t Hids Ht Hn. eapply part_inv_ids; [by apply iv_part|].
    intros k. rewrite Hids. split; [tauto|]. intros Hin. split; [done|]. intros Heq.
    apply Hn. by rewrite <- Heq. }
  unfold apply. case_bool_decide as He.
  { left. do 2 eexists. split_and!; try done; [eauto|]. intros ids' Hids p t Ht.
    apply Hskip; try done. naive_solver. }
  fold e in He.
  destruct (trackers (ck s) !! bid_partition (am_id m)) as [t|] eqn:Ht.
  2:{ left. do 2 eexists. split_and!; try done; [eauto|]. intros ids' Hids p t Ht'.
      apply Hskip; try done. intros [<- _]. congruence. }
  destruct (ai_msgs _ _ _ (iv_acks _ HI) m Hm) as (b & Hb & Hp & Hs).
  destruct (iv_keys _ HI _ _ Hb) as [_ Hk]. specialize (Hk He).
  assert (Hid : am_id m = mkBatchId (bid_partition (am_id m)) e (bid_seq (am_id m))).
  { rewrite <- He. by destruct (am_id m). }
  pose proof (iv_part _ HI _ _ Ht) as HP.
  destruct (decide (bid_seq (am_id m) < next_seq t)) as [Hlt|Hge].
  - left. assert (Hin : am_id m ∈ am_id <$> msgs s) by (by apply list_elem_of_fmap_2).
    rewrite Hid in Hb, Hin.
    assert (Hres : forall ids', (forall id, id ∈ ids' <-> id ∈ am_id <$> msgs s /\ id <> am_id m) ->
      exists t', resolve t (bid_seq (am_id m)) (am_status m) = (t', Applied) /\
        next_seq t' = next_seq t /\
        part_inv (history s) ids' e (bid_partition (am_id m)) (nsent s (bid_partition (am_id m)))
          (regs_for e (bid_partition (am_id m)) (queue (regs s))) t').
    { intros ids' Hids. rewrite <- Hs. eapply part_resolve; try done; [lia|].
      by rewrite <- Hid. }
    destruct (Hres (filter (fun id => id <> am_id m) (am_id <$> msgs s))) as (t' & Hr & Hn & _).
    { intros id. rewrite list_elem_of_filter. tauto. }
    rewrite Hr. do 2 eexists. split_and!; try done.
    + simpl. intros p t0. rewrite lookup_insert. goal_decide Hd; [subst|by eauto].
      intros [= <-]. eauto.
    + simpl. intros ids' Hids p t0. rewrite lookup_insert. goal_decide Hd.
      * subst. intros [= <-]. destruct (Hres ids' Hids) as (t'' & Hr' & _ & HP').
        rewrite Hr in Hr'. by simplify_eq.
      * intros Ht0. apply Hskip; try done. naive_solver.
  - right. exists t. split_and!; try done; [lia|].
    rewrite (resolve_unregistered t _ _ (pi_ok _ _ _ _ _ _ _ HP)) by lia.
    assert (set_trackers (<[bid_partition (am_id m) := t]> (trackers (ck s))) (ck s) = ck s) as ->.
    { rewrite insert_id by done. by destruct (ck s). }
    by destruct df.
Qed.

Lemma msgs_tail_mem (m : AckMsg) rest :
  NoDup (am_id <$> (m :: rest)) ->
  forall id, id ∈ am_id <$> rest <-> id ∈ am_id <$> (m :: rest) /\ id <> am_id m.
Proof.
  simpl. intros [Hm Hnd]%NoDup_cons id. rewrite elem_of_cons. split; [|tauto].
  intros Hin. split; [by right|]. by intros ->.
Qed.

Lemma inv_recv_ack s st ds m rest :
  Inv s -> pc s = CAcks st ds -> try_recv (ack_tx (acks s)) = Some (m, rest) ->
  let '(c, st', ds') := apply m (ck s) st (Some ds) in
  Inv (set_ck c (CAcks st' (default [] ds'))
         (set_acks (mkAcks (heap (acks s)) (fresh_ref (acks s)) rest) (history s) s)).
Proof.
  intros HI Hpc Hrecv. unfold try_recv in Hrecv.
  destruct (queue (ack_tx (acks s))) as [|m' q] eqn:Hq; [done|]. injection Hrecv as <- <-.
  pose proof (iv_acks _ HI) as [A1 A2 A3 A4 A5]. pose proof (iv_stats _ HI) as [Hcl Htot].
  assert (Hms : msgs s = m' :: q ++ ds) by (unfold msgs; by rewrite Hq, Hpc).
  rewrite Hpc in Hcl. simpl in Hcl. pose proof (iv_conn _ HI) as Hrc.
  assert (Hin : m' ∈ msgs s) by (rewrite Hms; by left).
  destruct (apply_cases s m' st (Some ds) HI Hin Hcl)
    as [(c & st' & -> & Hcl' & He & Ha & Hnx & Hp)|(t & He & Ht & Hge & ->)]; simpl.
  - rewrite Hms in *. apply (inv_ctl s); simpl; rewrite ?Hms; try done.
    + intros m0 Hm0. by right.
    + by apply NoDup_cons in A5 as [_ ?].
    + apply Hp. by apply msgs_tail_mem.
  - assert (Hperm : q ++ ds ++ [m'] ≡ₚ msgs s).
    { rewrite Hms. rewrite app_assoc. symmetry. apply Permutation_cons_append. }
    apply (inv_ctl s); simpl; try done.
    + intros m0 Hm0. by rewrite <- Hperm.
    + by rewrite Hperm.
    + intros p t' Ht'. eapply part_inv_ids; [by apply iv_part|].
      intros k. by rewrite Hperm.
Qed.

Lemma inv_deferred_step s st m ds :
  Inv s -> pc s = CDeferred st (m :: ds) ->
  let '(c, st', _) := apply m (ck s) st None in Inv (set_ck c (CDeferred st' ds) s).
Proof.
  intros HI Hpc. pose proof (iv_acks _ HI) as [A1 A2 A3 A4 A5].
  pose proof (iv_stats _ HI) as [Hcl Htot]. rewrite Hpc in Hcl. simpl in Hcl.
  pose proof (iv_deferred _ HI) as Hdef. rewrite Hpc in Hdef.
  assert (Hperm : msgs s ≡ₚ m :: queue (ack_tx (acks s)) ++ ds).
  { unfold msgs. rewrite Hpc. simpl. by rewrite Permutation_middle. }
  assert (Hin : m ∈ msgs s) by (rewrite Hperm; by left).
  destruct (apply_cases s m st None HI Hin Hcl)
    as [(c & st' & -> & Hcl' & He & Ha & Hnx & Hp)|(t & He & Ht & Hge & ->)].
  - rewrite Hperm in A5. pose proof (iv_conn _ HI) as Hrc.
    apply (inv_ctl s); simpl; try done.
    + intros m0 Hm0. rewrite Hperm. by right.
    + by apply NoDup_cons in A5 as [_ ?].
    + apply Hp. intros id. rewrite msgs_tail_mem by done. by rewrite Hperm.
    + intros m0 t Hm0 He0 (t0 & Ht0 & ->)%Hnx. eapply Hdef; try done. by right.
  - exfalso. specialize (Hdef m t ltac:(by left) He Ht). lia.
Qed.

Lemma inv_set_pc s x :
  Inv s -> deferred_of x = deferred_of (pc s) -> stats_of x = stats_of (pc s) ->
  match x with
  | CDeferred _ ds => forall m t, m ∈ ds -> bid_epoch (am_id m) = ck_epoch (ck s) ->
      trackers (ck s) !! bid_partition (am_id m) = Some t -> bid_seq (am_id m) < next_seq t
  | _ => True
  end -> Inv (set_ck (ck s) x s).
Proof.
  intros HI Hd Hs Hx. pose proof (iv_acks _ HI) as [A1 A2 A3 A4 A5].
  pose proof (iv_conn _ HI). pose proof (iv_stats _ HI) as [? ?].
  apply (inv_ctl s); rewrite ?Hd, ?Hs; try done. intros p t Ht. by apply iv_part.
Qed.

Lemma inv_end_drain s st :
  Inv s -> deferred_of (pc s) = [] -> stats_of (pc s) = st -> Inv (end_drain (ck s) st s).
Proof.
  intros HI Hd Hs. pose proof (iv_acks _ HI) as [A1 A2 A3 A4 A5].
  pose proof (iv_conn _ HI). pose proof (iv_stats _ HI) as [? ?].
  apply (inv_ctl s); try done; simpl; rewrite <- ?Hd; try done.
  - intros p t Ht. by apply iv_part.
  - apply Forall_app. split; [done|]. by rewrite <- Hs, Forall_singleton.
Qed.

(** When the second registration drain finds the channel empty, every deferred
    resolution of a tracked partition has its registration. *)
Lemma deferred_registered s m t :
  Inv s -> queue (regs s) = [] -> m ∈ deferred_of (pc s) ->
  bid_epoch (am_id m) = ck_epoch (ck s) ->
  trackers (ck s) !! bid_partition (am_id m) = Some t -> bid_seq (am_id m) < next_seq t.
Proof.
  intros HI Hq Hm He Ht.
  destruct (ai_msgs _ _ _ (iv_acks _ HI) m) as (b & Hb & _).
  { unfold msgs. rewrite elem_of_app. by right. }
  destruct (iv_keys _ HI _ _ Hb) as [_ Hk]. specialize (Hk He).
  pose proof (pi_next _ _ _ _ _ _ _ (iv_part _ HI _ _ Ht)) as Hn.
  rewrite Hq in Hn. simpl in Hn. lia.
Qed.

Lemma inv_drain_step s s' : Inv s -> drain_step s = Some s' -> Inv s'.
Proof.
  intros HI Hs. unfold drain_step in Hs. destruct (pc s) as [|st|st ds|st ds|st ds] eqn:Hpc;
    [done|..]; injection Hs as <-.
  - destruct (try_recv (regs s)) as [[reg rest]|] eqn:Hr.
    + apply inv_recv_reg; rewrite ?Hpc; try done.
    + apply inv_set_pc; by rewrite ?Hpc.
  - destruct (try_recv (ack_tx (acks s))) as [[m rest]|] eqn:Hr.
    + pose proof (inv_recv_ack _ _ _ _ _ HI Hpc Hr). by destruct (apply _ _ _ _) as [[]].
    + destruct ds; [apply inv_end_drain|apply inv_set_pc]; by rewrite ?Hpc.
  - destruct (try_recv (regs s)) as [[reg rest]|] eqn:Hr.
    + apply inv_recv_reg; rewrite ?Hpc; try done.
    + apply inv_set_pc; rewrite ?Hpc; try done. intros m t Hm.
      apply deferred_registered; [done| |by rewrite Hpc].
      unfold try_recv in Hr. by destruct (queue (regs s)).
  - destruct ds as [|m ds]; [apply inv_end_drain; by rewrite ?Hpc|].
    pose proof (inv_deferred_step _ _ _ _ HI Hpc). by destruct (apply _ _ _ _) as [[]].
Qed.

(** ** Watermarks *)
Lemma part_advance B ids e p n q t now :
  part_inv B ids e p n q t ->
  part_inv B ids e p n q (advance_on now t).1 /\
  forall w, (advance_on now t).2 = Some w -> delivered_upto B p e w.
Proof.
  intros [Hok Hn Hq Hc Ho].
  destruct (advance_consumed now t Hok) as (d & Hok' & Hh & Hx & Hring & Hd & Hcons & _ & Hw).
  set (t' := (advance_on now t).1) in *. split.
  - split; try done.
    + by rewrite Hx.
    + by rewrite Hx.
    + intros k Hk. rewrite Hcons by lia. by apply Hc.
    + intros i x Hi. rewrite Hring, lookup_drop in Hi. rewrite Hh.
      replace (head_seq t + Z.of_nat d + Z.of_nat i)
        with (head_seq t + Z.of_nat (d + i)) by lia. by apply Ho.
  - intros w Heq. rewrite Hw in Heq. destruct d as [|m]; [done|].
    apply fmap_Some in Heq as (x & Hm & ->). destruct (Ho m x Hm) as (b & Hb & Hoff).
    destruct Hok as [Hh0 Htn _]. exists (head_seq t + Z.of_nat m), b.
    rewrite Hoff. split_and!; try done; [lia|]. intros j Hj.
    destruct (Hc j) as (c & Hcb & Hcase); [lia|].
    rewrite <- Hcons in Hcase by lia. unfold consumed in Hcase.
    rewrite bool_decide_true in Hcase by lia. destruct Hcase as (Hr & Hs & _).
    exists c. split_and!; try done. unfold b_status in Hs. by destruct (b_failed c).
Qed.

Lemma take_watermarks_elem now ck p w :
  (p, w) ∈ (take_watermarks now ck).2 <->
  exists t, trackers ck !! p = Some t /\ (advance_on (now p) t).2 = Some w.
Proof.
  unfold take_watermarks. cbn [snd]. rewrite merge_sort_Permutation, list_elem_of_omap.
  split.
  - intros ([q t] & Hin & Heq). cbn [fst snd] in Heq. apply elem_of_map_to_list in Hin.
    apply fmap_Some in Heq as (w' & Hw & [= -> ->]). eauto.
  - intros (t & Ht & Hw). exists (p, t). split; [by apply elem_of_map_to_list|].
    cbn [fst snd]. by rewrite Hw.
Qed.

Lemma inv_take s now :
  Inv s -> pc s = CIdle ->
  let '(c, out) := take_watermarks now (ck s) in
  Inv (set_reported (reported s ++ ((fun x => (x.1, ck_epoch (ck s), x.2)) <$> out))
         (set_ck c CIdle s)).
Proof.
  intros HI Hpc. pose proof (take_watermarks_elem now (ck s)) as Hel.
  assert (HI' : Inv (set_ck (take_watermarks now (ck s)).1 CIdle s)).
  { apply inv_ctl_idle; try done. unfold take_watermarks. cbn [fst trackers].
    intros p t. rewrite map_lookup_imap.
    destruct (trackers (ck s) !! p) as [t0|] eqn:Ht0; [|done]. simpl. intros [= <-].
    apply part_advance. by apply iv_part. }
  destruct (take_watermarks now (ck s)) as [c out]. cbn [fst snd] in *.
  destruct HI'. split; try done. cbn [reported set_reported history].
  intros p e w [Hin|Hin]%elem_of_app; [by apply iv_reported0|].
  apply list_elem_of_fmap in Hin as ([q v] & [= -> -> ->] & Hin).
  apply Hel in Hin as (t & Ht & Hw).
  destruct (part_advance _ _ _ _ _ _ _ (now q) (iv_part _ HI _ _ Ht)) as [_ Hd]. by apply Hd.
Qed.

Lemma inv_init : Inv sys_init.
Proof.
  split; try done; cbn.
  - split; cbn; try done; [by intros m ?%elem_of_nil|constructor].
  - by intros reg ?%elem_of_nil.
  - by intros p e w ?%elem_of_nil.
Qed.

Lemma inv_step s s' : Inv s -> sys_step s s' -> Inv s'.
Proof.
  intros HI [l Hl]. unfold exec in Hl. rewrite (iv_panic _ HI) in Hl.
  destruct l as [i|i j|i p off|i|i|r|r|r|ps e own|ps own|ps| | |now].
  - destruct (issuers s !! i) eqn:Hi; simplify_eq. apply inv_add_issuer; try done.
    simpl. by rewrite (iv_epoch _ HI).
  - destruct (issuers s !! i) as [[x ?]|] eqn:Hi, (issuers s !! j) eqn:Hj; simplify_eq.
    apply inv_add_issuer; try done. apply (iv_issuer _ HI _ _ _ Hi).
  - destruct (issuers s !! i) as [[x []]|] eqn:Hi; try done.
    repeat case_bool_decide; try done.
    destruct (inv_load s i p off x HI) as (id & x' & Hid & HI'); try done.
    cbn [andb] in Hl. rewrite Hid in Hl. by simplify_eq.
  - destruct (issuers s !! i) as [[x [|id off|id off]]|] eqn:Hi; try done. simplify_eq.
    by apply inv_send.
  - destruct (issuers s !! i) as [[x [|id off|id off]]|] eqn:Hi; try done.
    cbn [AckRef_new] in Hl. injection Hl as <-. by eapply inv_new.
  - destruct (heap (acks s) !! r) eqn:Hr; simplify_eq. by apply inv_clone.
  - destruct (heap (acks s) !! r) eqn:Hr; simplify_eq. by apply inv_fail.
  - destruct (heap (acks s) !! r) eqn:Hr; simplify_eq. by apply inv_drop.
  - case_bool_decide as Hpc; [|done]. case_bool_decide as He; [|done].
    case_bool_decide as Hlo; [|done]. cbn in Hl.
    destruct (inv_begin s ps e own HI Hpc He Hlo) as (c & Hb & HI').
    rewrite Hb in Hl. by simplify_eq.
  - case_bool_decide as Hpc; [|done]. case_bool_decide as Hlo; [|done]. cbn in Hl.
    destruct (extend_epoch ps (ck s)) eqn:Hx; simplify_eq; [done|]. by apply inv_extend with (ps := ps).
  - case_bool_decide; simplify_eq. by apply inv_revoke.
  - case_bool_decide as Hpc; simplify_eq. apply inv_set_pc; by rewrite ?Hpc.
  - by eapply inv_drain_step.
  - case_bool_decide as Hpc; [|done]. pose proof (inv_take s now HI Hpc) as HI'.
    destruct (take_watermarks now (ck s)). by simplify_eq.
Qed.

Lemma reachable_inv s : reachable s -> Inv s.
Proof.
  unfold reachable. generalize inv_init. generalize sys_init. intros s0 HI H.
  induction H; [done|]. eauto using inv_step.
Qed.

Lemma exec_all_reachable ls : forall s0 s,
  exec_all ls s0 = Some s -> rtc sys_step s0 s.
Proof.
  induction ls as [|l ls IH]; intros s0 s H; simpl in H; [by simplify_eq|].
  destruct (exec l s0) as [s1|] eqn:E; [|done].
  eapply rtc_l; [by exists l|by apply IH].
Qed.

(** ** A drain that runs alone *)

Definition heads (c : Checkpointer) : gmap Z Z := head_seq <$> trackers c.

Lemma heads_set_trackers c p t t' :
  trackers c !! p = Some t -> head_seq t' = head_seq t ->
  heads (set_trackers (<[p := t']> (trackers c)) c) = heads c.
Proof.
  intros Ht Hh. unfold heads. simpl. rewrite fmap_insert. apply insert_id.
  by rewrite lookup_fmap, Ht, Hh.
Qed.

Lemma apply_registration_frame reg c st c' st' :
  apply_registration reg c st = Some (c', st') ->
  heads c' = heads c /\ ck_epoch c' = ck_epoch c.
Proof.
  unfold apply_registration. case_bool_decide; intros; simplify_eq; [done|].
  destruct (trackers c !! _) as [t|] eqn:Ht; simplify_eq; [|done].
  unfold register in *. case_bool_decide; simplify_eq. split; [|done].
  by eapply heads_set_trackers.
Qed.

Lemma apply_frame m c st df :
  let '(c', _, df') := apply m c st df in
  heads c' = heads c /\ ck_epoch c' = ck_epoch c /\
  (length (default [] df') <= S (length (default [] df)))%nat.
Proof.
  unfold apply. case_bool_decide; [auto with lia|].
  destruct (trackers c !! _) as [t|] eqn:Ht; [|auto with lia].
  pose proof (resolve_same_head t (bid_seq (am_id m)) (am_status m)) as Hh.
  destruct (resolve t _ _) as [t' []]; simpl in Hh.
  4: destruct df; simpl; rewrite ?length_app; simpl.
  all: split_and!; try lia; try done; by eapply heads_set_trackers.
Qed.

(** Passes left, and what the loops already done left empty. *)
Definition passes (s : Sys) : nat :=
  let r := length (queue (regs s)) in
  let a := length (queue (ack_tx (acks s))) in
  match pc s with
  | CIdle => 0
  | CDeferred _ ds => 1 + length ds
  | CRegs2 _ ds => 2 + length ds + r
  | CAcks _ ds => 3 + length ds + r + 2 * a
  | CRegs1 _ => 4 + r + 2 * a
  end.

Definition emptied (s : Sys) : Prop :=
  match pc s with
  | CRegs1 _ => True
  | CAcks _ _ => queue (regs s) = []
  | _ => queue (regs s) = [] /\ queue (ack_tx (acks s)) = []
  end.

Record same_batches (s s' : Sys) : Prop := mk_same_batches {
  sb_history : history s' = history s;
  sb_sent : sent s' = sent s;
  sb_reported : reported s' = reported s;
  sb_heads : heads (ck s') = heads (ck s);
  sb_epoch : ck_epoch (ck s') = ck_epoch (ck s);
}.

Lemma same_batches_trans s1 s2 s3 :
  same_batches s1 s2 -> same_batches s2 s3 -> same_batches s1 s3.
Proof. intros [] []. split; congruence. Qed.

Lemma recv_reg_solo k st reg rest s :
  panicked (recv_reg k st reg rest s) = false ->
  exists c st', recv_reg k st reg rest s = set_ck c (k st') (set_regs rest s) /\
    heads c = heads (ck s) /\ ck_epoch c = ck_epoch (ck s).
Proof.
  unfold recv_reg. destruct (apply_registration _ _ _) as [[c st']|] eqn:E; [|done].
  intros _. exists c, st'. split; [done|]. by eapply apply_registration_frame.
Qed.

Lemma drain_step_solo s :
  Inv s -> pc s <> CIdle -> emptied s ->
  exists s', drain_step s = Some s' /\ Inv s' /\ (passes s' < passes s)%nat /\
    emptied s' /\ same_batches s s'.
Proof.
  intros HI Hpc Hem. assert (Hstep : is_Some (drain_step s)).
  { unfold drain_step. by destruct (pc s). }
  destruct Hstep as [s' Hs]. exists s'. pose proof (inv_drain_step _ _ HI Hs) as HI'.
  split; [done|]. split; [done|]. pose proof (iv_panic _ HI') as Hnp.
  unfold drain_step in Hs. unfold emptied, passes in *.
  destruct (pc s) as [|st|st ds|st ds|st ds] eqn:E; [done|..]; injection Hs as <-.
  - unfold try_recv in *. destruct (queue (regs s)) as [|reg q] eqn:Hq.
    + simpl. rewrite Hq. simpl. split_and!; [lia|done|done].
    + apply recv_reg_solo in Hnp as (c & st' & -> & Hh & He). simpl.
      split_and!; [lia|done|by split].
  - unfold try_recv in *. destruct (queue (ack_tx (acks s))) as [|m q] eqn:Hq.
    + destruct ds; simpl; rewrite ?Hem, ?Hq; simpl; split_and!; try done; lia.
    + pose proof (apply_frame m (ck s) st (Some ds)) as Hf.
      destruct (apply m _ _ _) as [[c st'] ds']. destruct Hf as (Hh & He & Hl). simpl in *.
      rewrite Hem. simpl. split_and!; [lia|done|by split].
  - destruct Hem as [Hr Ha]. unfold try_recv in *. rewrite Hr in *. simpl.
    rewrite Hr, Ha. simpl. split_and!; try done; lia.
  - destruct Hem as [Hr Ha]. destruct ds as [|m ds]; simpl.
    + rewrite Hr, Ha. split_and!; try done; lia.
    + pose proof (apply_frame m (ck s) st None) as Hf.
      destruct (apply m _ _ _) as [[c st'] ds']. destruct Hf as (Hh & He & Hl). simpl in *.
      rewrite Hr, Ha. split_and!; [lia|done|done|by split].
Qed.

Lemma drain_solo s :
  Inv s -> pc s <> CIdle -> emptied s ->
  exists n s', exec_all (replicate n LDrainStep) s = Some s' /\ Inv s' /\ pc s' = CIdle /\
    msgs s' = [] /\ queue (regs s') = [] /\ same_batches s s'.
Proof.
  remember (passes s) as d eqn:Hd. revert s Hd.
  induction d as [d IH] using lt_wf_ind. intros s -> HI Hpc Hem.
  destruct (drain_step_solo s HI Hpc Hem) as (s1 & Hs1 & HI1 & Hlt & Hem1 & Hsb).
  assert (Hex : exec LDrainStep s = Some s1) by (unfold exec; by rewrite (iv_panic _ HI)).
  destruct (decide (pc s1 = CIdle)) as [Hi|Hi].
  - exists 1%nat, s1. cbn [replicate exec_all]. rewrite Hex. split_and!; try done.
    + unfold msgs, emptied in *. rewrite Hi in *. by destruct Hem1 as [_ ->].
    + unfold emptied in Hem1. by rewrite Hi in Hem1; destruct Hem1.
  - destruct (IH _ Hlt s1 eq_refl HI1 Hi Hem1) as (n & s2 & Hrun & HI2 & H2 & Hm & Hq & Hsb2).
    exists (S n), s2. cbn [replicate exec_all]. rewrite Hex. split_and!; try done.
    by eapply same_batches_trans.
Qed.

(** The advance of a partition with nothing in flight. *)
Lemma part_cycle B e p n t now :
  part_inv B [] e p n [] t -> (forall k b, B !! mkBatchId p e k = Some b -> k < n) ->
  let t' := (advance_on now t).1 in
  head_seq t <= head_seq t' /\
  (forall k, 0 <= k < head_seq t' -> delivered B (mkBatchId p e k)) /\
  ~ delivered B (mkBatchId p e (head_seq t')) /\
  (head_seq t < head_seq t' -> exists b, B !! mkBatchId p e (head_seq t' - 1) = Some b /\
     (advance_on now t).2 = Some (wrap_i64 (b_off b + 1))).
Proof.
  intros [Hok Hn Hq Hc Ho] Hkeys.
  destruct (advance_consumed now t Hok) as (d & Hok' & Hh & Hx & Hring & Hd & Hcons & Hstop & Hw).
  set (t' := (advance_on now t).1) in *. simpl in Hn. destruct Hok as [Hh0 Htn _].
  split_and!.
  - lia.
  - intros k Hk. destruct (Hc k) as (b & Hb & Hcase); [lia|].
    rewrite <- Hcons in Hcase by lia. unfold consumed in Hcase.
    rewrite bool_decide_true in Hcase by lia. destruct Hcase as (Hr & Hs & _).
    exists b. split_and!; try done. unfold b_status in Hs. by destruct (b_failed b).
  - intros (b & Hb & Hr & Hf). destruct (Hc (head_seq t')) as (b' & Hb' & Hcase).
    { specialize (Hkeys _ _ Hb). lia. }
    rewrite Hb in Hb'. simplify_eq. destruct (consumed t (head_seq t')) as [[]|]; try done.
    + destruct Hcase as (_ & Hs & _). unfold b_status in Hs. by rewrite Hf in Hs.
    + by apply Hcase, elem_of_nil in Hr.
  - intros Hlt. destruct d as [|m]; [lia|].
    destruct (lookup_lt_is_Some_2 (ring t) m) as [x Hm]; [lia|].
    destruct (Ho m x Hm) as (b & Hb & Hoff). exists b. rewrite Hw, Hm. simpl.
    rewrite Hoff. split; [|done]. rewrite <- Hb. do 2 f_equal. lia.
Qed.

(** ** Properties *)

(** C1: at-least-once safety of the commit position. In every state of every
    interleaving, a watermark [w] ever reported for partition [p] in epoch [e]
    is one past the last offset of some registered batch [k], and every batch
    of the partition up to [k] has resolved with no holder having marked it
    failed; no handle to any of them is left. *)
Theorem watermark_safety (s : Sys) (p e w : Z) :
  reachable s -> (p, e, w) ∈ reported s ->
  exists k b, 0 <= k /\ history s !! mkBatchId p e k = Some b /\
    w = wrap_i64 (b_off b + 1) /\
    forall j, 0 <= j <= k ->
      delivered (history s) (mkBatchId p e j) /\
      forall r st, heap (acks s) !! r = Some st -> as_id st <> mkBatchId p e j.
Proof.
  intros HI%reachable_inv Hw. destruct (iv_reported _ HI _ _ _ Hw) as (k & b & Hk & Hb & -> & Hall).
  exists k, b. split_and!; try done. intros j Hj. specialize (Hall j Hj). split; [done|].
  intros r st Hr Heq. destruct Hall as (b' & Hb' & Hres & _).
  destruct (ai_heap _ _ _ (iv_acks _ HI) r st Hr) as (b'' & Hb'' & Hl & _). congruence.
Qed.

(** A schedule on two threads: partitions 0 and 1, thread 0 issues two batches
    of partition 0, the second resolves first, then both are committed. *)
Definition demo_schedule : list Label :=
  [LSpawn 0; LSpawn 1; LBegin [0; 1] 1 (<[0 := 0%nat]> {[1 := 1%nat]});
   LLoad 0 0 9; LSend 0; LNew 0; LLoad 0 0 19; LSend 0; LNew 0;
   LClone 1%nat; LDrop 1%nat; LDrop 1%nat;
   LDrainStart; LDrainStep; LDrainStep; LDrainStep; LDrainStep; LDrainStep; LTake (fun _ => 5);
   LDrop 0%nat; LDrainStart; LDrainStep; LDrainStep; LDrainStep; LTake (fun _ => 6)].

Definition demo_state : Sys := default sys_init (exec_all demo_schedule sys_init).

Lemma demo_reachable : reachable demo_state.
Proof. apply (exec_all_reachable demo_schedule). vm_compute. reflexivity. Qed.

Lemma watermark_safety_witness :
  (0, 1, 20) ∈ reported demo_state /\
  exists k b, 0 <= k /\ history demo_state !! mkBatchId 0 1 k = Some b /\
    20 = wrap_i64 (b_off b + 1) /\
    forall j, 0 <= j <= k ->
      delivered (history demo_state) (mkBatchId 0 1 j) /\
      forall r st, heap (acks demo_state) !! r = Some st -> as_id st <> mkBatchId 0 1 j.
Proof.
  assert (Hin : (0, 1, 20) ∈ reported demo_state)
    by (vm_compute; apply list_elem_of_here).
  split; [exact Hin|].
  exact (watermark_safety demo_state 0 1 20 demo_reachable Hin).
Defined.

(** C7: the protocol keeps the tracker's contract. In every interleaving the
    controller never panics on a sequence gap or a repeated epoch, and no drain
    ever counts a resolution without a registration or a duplicate. *)
Theorem drain_never_panics (s : Sys) (st : DrainStats) :
  reachable s ->
  panicked s = false /\
  (st ∈ totals s -> unknown st = 0%nat /\ duplicates st = 0%nat).
Proof.
  intros HI%reachable_inv. split; [apply HI|]. intros Hst.
  pose proof (iv_stats _ HI) as [_ HF]. rewrite Forall_forall in HF. by apply HF.
Qed.

Lemma drain_never_panics_witness :
  mkStats 1 0 0 0 ∈ totals demo_state /\ panicked demo_state = false.
Proof.
  assert (Hin : mkStats 1 0 0 0 ∈ totals demo_state)
    by (vm_compute; apply list_elem_of_here).
  split; [exact Hin|]. apply (drain_never_panics demo_state (mkStats 1 0 0 0) demo_reachable).
Defined.

(** C5: a commit cycle makes all the progress it may. From any reachable state,
    a drain that runs alone terminates, and the advance after it leaves every
    tracked partition's head exactly after its longest prefix of delivered
    batches; when that moved the head, the position after the prefix was
    reported. *)
Theorem commit_cycle_exact (s : Sys) (now : Z -> Z) :
  reachable s -> pc s = CIdle ->
  exists n s', exec_all (LDrainStart :: replicate n LDrainStep ++ [LTake now]) s = Some s' /\
    history s' = history s /\
    forall p h0, heads (ck s) !! p = Some h0 ->
      exists h, heads (ck s') !! p = Some h /\ h0 <= h /\
        (forall k, 0 <= k < h -> delivered (history s) (mkBatchId p (ck_epoch (ck s)) k)) /\
        ~ delivered (history s) (mkBatchId p (ck_epoch (ck s)) h) /\
        (h0 < h -> exists b, history s !! mkBatchId p (ck_epoch (ck s)) (h - 1) = Some b /\
           (p, ck_epoch (ck s), wrap_i64 (b_off b + 1)) ∈ reported s').
Proof.
  intros HI%reachable_inv Hpc.
  assert (HI1 : Inv (set_ck (ck s) (CRegs1 stats_default) s))
    by (apply inv_set_pc; by rewrite ?Hpc).
  destruct (drain_solo _ HI1 ltac:(done) I) as (n & s1 & Hrun & HI2 & Hi & Hm & Hq & [S1 S2 S3 S4 S5]).
  exists n. pose proof (take_watermarks_elem now (ck s1)) as Hel.
  assert (Hrun' : exec_all (LDrainStart :: replicate n LDrainStep ++ [LTake now]) s =
    exec (LTake now) s1).
  { cbn [exec_all]. unfold exec at 1. rewrite (iv_panic _ HI), bool_decide_true by done.
    revert Hrun. generalize (set_ck (ck s) (CRegs1 stats_default) s).
    induction n as [|n IH]; intros s0 Hrun; cbn [replicate exec_all app] in *.
    - injection Hrun as <-. by destruct (exec (LTake now) s0).
    - destruct (exec LDrainStep s0); [by apply IH|done]. }
  rewrite Hrun'. unfold exec. rewrite (iv_panic _ HI2), bool_decide_true by done.
  destruct (take_watermarks now (ck s1)) as [c out] eqn:Ht. eexists. split; [done|].
  cbn [history reported ck set_reported set_ck snd] in *. split; [done|].
  intros p h0 Hh0. rewrite <- S4 in Hh0. unfold heads in Hh0. rewrite lookup_fmap in Hh0.
  apply fmap_Some in Hh0 as (t & Htr & ->). pose proof (iv_part _ HI2 p t Htr) as HP.
  pose proof (iv_keys _ HI2) as Hkeys.
  cbn [ck history ck_epoch set_ck] in *. rewrite Hm, Hq in HP. rewrite S1, S5 in *.
  destruct (part_cycle _ _ _ _ _ (now p) HP) as (G1 & G2 & G3 & G4).
  { intros k b Hb. destruct (Hkeys _ _ Hb) as [_ Hk]. by apply Hk. }
  exists (head_seq (advance_on (now p) t).1).
  split_and!; try done.
  - apply (f_equal fst) in Ht. cbn [fst] in Ht. subst c. unfold heads, take_watermarks.
    cbn [fst trackers]. by rewrite lookup_fmap, map_lookup_imap, Htr.
  - intros Hlt. destruct (G4 Hlt) as (b & Hb & Hw). exists b. split; [done|].
    apply elem_of_app. right. apply list_elem_of_fmap. exists (p, wrap_i64 (b_off b + 1)).
    split; [done|]. apply Hel. eauto.
Qed.

Lemma commit_cycle_exact_witness :
  exists n s', exec_all (LDrainStart :: replicate n LDrainStep ++ [LTake (fun _ => 7)])
                 demo_state = Some s' /\
    history s' = history demo_state /\
    forall p h0, heads (ck demo_state) !! p = Some h0 ->
      exists h, heads (ck s') !! p = Some h /\ h0 <= h /\
        (forall k, 0 <= k < h ->
           delivered (history demo_state) (mkBatchId p (ck_epoch (ck demo_state)) k)) /\
        ~ delivered (history demo_state) (mkBatchId p (ck_epoch (ck demo_state)) h) /\
        (h0 < h -> exists b,
           history demo_state !! mkBatchId p (ck_epoch (ck demo_state)) (h - 1) = Some b /\
           (p, ck_epoch (ck demo_state), wrap_i64 (b_off b + 1)) ∈ reported s').
Proof.
  exact (commit_cycle_exact demo_state (fun _ => 7) demo_reachable eq_refl).
Defined.
