(* ===== verification/Framing.v ===== *)
(** * Record framing ([spate-core/src/framing/mod.rs],
    [spate-json/src/framing.rs])

    [RecordFramer] is the trait as a class, [FramerLaws] what its
    documentation promises a source: the records depend on the bytes and not
    on how they were chunked, and a stream can be cut after the resync
    delimiter. [NdjsonFramer] is the implementation; its laws are proved from
    a specification on whole lines. Bytes are [Z]. *)

From stdpp Require Import base list.
From Stdlib Require Import ZArith Lia.
From S2P Require Import Prelude.

(** A run of framing: the records, and whether it ended without an error. *)
Definition Framed : Type := list (list Z) * bool.

(** The framing of one stretch of a stream followed by the next. *)
Definition then_framed (a b : Framed) : Framed :=
  if a.2 then (a.1 ++ b.1, b.2) else a.

(** The [RecordFramer] trait. [false] is an [io::Error]; the framer keeps the
    state it had reached. *)
Class RecordFramer (F : Type) := {
  framer_push : list Z -> F -> F * bool;
  framer_finish : F -> F * bool;
  framer_pop : F -> option (list Z * F);
  framer_decoded_bytes : F -> Z;
  framer_resync_delimiter : F -> option Z;
}.

(** What a source does with a framer: it feeds the chunks in order, stops at
    the first error, and finishes the stream if there was none. *)
Fixpoint feed_chunks {F} `{RecordFramer F} (chunks : list (list Z)) (f : F) : F * bool :=
  match chunks with
  | [] => framer_finish f
  | c :: cs =>
      let '(f, ok) := framer_push c f in
      if ok then feed_chunks cs f else (f, false)
  end.

(** Popping [f] until it is empty yields [rs]. *)
Inductive pops {F} `{RecordFramer F} : F -> list (list Z) -> Prop :=
  | pops_nil f : framer_pop f = None -> pops f []
  | pops_cons f r f' rs : framer_pop f = Some (r, f') -> pops f' rs -> pops f (r :: rs).

(** The documented contract of a framer that starts in state [f0]. *)
Class FramerLaws {F} `{RecordFramer F} (f0 : F) := {
  frame : list Z -> Framed;
  framer_pure : forall chunks,
    exists f, feed_chunks chunks f0 = (f, (frame (concat chunks)).2) /\
      pops f (frame (concat chunks)).1;
  framer_resync : forall d a b, framer_resync_delimiter f0 = Some d ->
    frame (a ++ d :: b) = then_framed (frame (a ++ [d])) (frame b);
}.

(** [FramerWriter]: a [Write] adapter that forwards to the framer. *)
Definition FramerWriter_write {F} `{RecordFramer F} (buf : list Z) (f : F) : F * (Z + unit) :=
  let '(f, ok) := framer_push buf f in
  (f, if ok then inl (Z.of_nat (length buf)) else inr tt).

(** ** [NdjsonFramer] *)

Definition NL : Z := 10.
Definition CR : Z := 13.

(** [u8::is_ascii_whitespace]: space, tab, line feed, form feed, carriage
    return. *)
Definition is_ascii_whitespace (b : Z) : bool :=
  bool_decide (b = 32) || bool_decide (b = 9) || bool_decide (b = 10) ||
  bool_decide (b = 12) || bool_decide (b = 13).

Record NdjsonFramer := mkNdjson {
  partial : list Z;
  ready : list (list Z);
  nd_decoded_bytes : Z;
  max_record_bytes : Z;
}.

(** [NdjsonFramer::new]. *)
Definition ndjson_new (max : Z) : NdjsonFramer := mkNdjson [] [] 0 max.

(** [NdjsonFramer::push_partial]. *)
Definition push_partial (bytes : list Z) (f : NdjsonFramer) : NdjsonFramer * bool :=
  if bool_decide (max_record_bytes f < Z.of_nat (length (partial f)) + Z.of_nat (length bytes))
  then (f, false)
  else (mkNdjson (partial f ++ bytes) (ready f) (nd_decoded_bytes f) (max_record_bytes f), true).

(** [NdjsonFramer::complete_line]. *)
Definition complete_line (f : NdjsonFramer) : NdjsonFramer :=
  let p := if bool_decide (last (partial f) = Some CR)
           then take (pred (length (partial f))) (partial f) else partial f in
  if forallb is_ascii_whitespace p
  then mkNdjson [] (ready f) (nd_decoded_bytes f) (max_record_bytes f)
  else mkNdjson [] (ready f ++ [p]) (nd_decoded_bytes f) (max_record_bytes f).

(** [iter().position(|&b| b == d)]. *)
Fixpoint position (d : Z) (l : list Z) : option nat :=
  match l with
  | [] => None
  | b :: l => if bool_decide (b = d) then Some O else S <$> position d l
  end.

(** The [while let] loop of [push]; each pass consumes a newline, so as many
    passes as bytes are enough. *)
Fixpoint push_loop (fuel : nat) (rest : list Z) (f : NdjsonFramer) : NdjsonFramer * bool :=
  match fuel with
  | O => push_partial rest f
  | S fuel =>
      match position NL rest with
      | None => push_partial rest f
      | Some nl =>
          let '(f, ok) := push_partial (take nl rest) f in
          if ok then push_loop fuel (drop (S nl) rest) (complete_line f) else (f, false)
      end
  end.

(** [NdjsonFramer::push], [finish] and [pop]. *)
Definition ndjson_push (bytes : list Z) (f : NdjsonFramer) : NdjsonFramer * bool :=
  push_loop (length bytes) bytes
    (mkNdjson (partial f) (ready f) (wrap_u64 (nd_decoded_bytes f + Z.of_nat (length bytes)))
       (max_record_bytes f)).

Definition ndjson_finish (f : NdjsonFramer) : NdjsonFramer * bool :=
  ((if bool_decide (partial f <> []) then complete_line f else f), true).

Definition ndjson_pop (f : NdjsonFramer) : option (list Z * NdjsonFramer) :=
  match ready f with
  | [] => None
  | r :: rs => Some (r, mkNdjson (partial f) rs (nd_decoded_bytes f) (max_record_bytes f))
  end.

#[export] Instance NdjsonFramer_RecordFramer : RecordFramer NdjsonFramer := {|
  framer_push := ndjson_push;
  framer_finish := ndjson_finish;
  framer_pop := ndjson_pop;
  framer_decoded_bytes := nd_decoded_bytes;
  framer_resync_delimiter := fun _ => Some NL;
|}.

(** ** The specification: whole lines *)

(** Lines between delimiters; the last one is what follows the last. *)
Fixpoint split_on (d : Z) (l : list Z) : list (list Z) :=
  match l with
  | [] => [[]]
  | b :: l =>
      if bool_decide (b = d) then [] :: split_on d l
      else match split_on d l with
           | [] => [[b]]
           | x :: xs => (b :: x) :: xs
           end
  end.

(** The record of a line: one trailing carriage return is stripped, blank
    lines have none. *)
Definition record_of (line : list Z) : list (list Z) :=
  let p := if bool_decide (last line = Some CR) then take (pred (length line)) line else line in
  if forallb is_ascii_whitespace p then [] else [p].

(** The records of the lines up to the first one over the bound. *)
Fixpoint frame_lines (max : Z) (ls : list (list Z)) : Framed :=
  match ls with
  | [] => ([], true)
  | l :: ls =>
      if bool_decide (max < Z.of_nat (length l)) then ([], false)
      else then_framed (record_of l, true) (frame_lines max ls)
  end.

Definition ndjson_frame (max : Z) (bytes : list Z) : Framed :=
  frame_lines max (split_on NL bytes).

(** ** The framer meets it *)
Lemma position_Some d l n :
  position d l = Some n ->
  l = take n l ++ d :: drop (S n) l /\ (n < length l)%nat /\ d ∉ take n l.
Proof.
  revert n. induction l as [|b l IH]; intros n; cbn; [done|].
  case_bool_decide as Hb.
  - intros [= <-]. subst. rewrite drop_0. split_and!; [done|lia|apply not_elem_of_nil].
  - intros (m & Hm & ->)%fmap_Some. destruct (IH m Hm) as (Hl & Hlt & Hni).
    split_and!; [cbn [take app]; f_equal; exact Hl|lia|]. cbn. apply not_elem_of_cons. auto.
Qed.

Lemma position_None d l : position d l = None <-> d ∉ l.
Proof.
  induction l as [|b l IH]; cbn; [split; [intros; apply not_elem_of_nil|done]|].
  rewrite not_elem_of_cons. case_bool_decide as Hb; [naive_solver|].
  rewrite fmap_None, IH. naive_solver.
Qed.

Lemma split_on_none d l : d ∉ l -> split_on d l = [l].
Proof.
  induction l as [|b l IH]; [done|]. rewrite not_elem_of_cons. intros [Hb Hl]. cbn.
  rewrite bool_decide_false by congruence. by rewrite IH.
Qed.

Lemma split_on_cons d a b : d ∉ a -> split_on d (a ++ d :: b) = a :: split_on d b.
Proof.
  induction a as [|x a IH]; cbn.
  - by rewrite bool_decide_true.
  - rewrite not_elem_of_cons. intros [Hx Ha]. rewrite bool_decide_false by congruence.
    by rewrite IH.
Qed.

Lemma split_on_nonempty d l : split_on d l <> [].
Proof.
  destruct l as [|b l]; cbn; [done|]. case_bool_decide; [done|]. by destruct (split_on d l).
Qed.

Lemma split_on_app d a b : split_on d (a ++ d :: b) = split_on d a ++ split_on d b.
Proof.
  induction a as [|x a IH]; cbn; [by rewrite bool_decide_true|].
  case_bool_decide; [by rewrite IH|]. rewrite IH.
  pose proof (split_on_nonempty d a). by destruct (split_on d a).
Qed.

Lemma then_framed_assoc a b c :
  then_framed a (then_framed b c) = then_framed (then_framed a b) c.
Proof. destruct a as [? []], b as [? []]; unfold then_framed; cbn; by rewrite ?app_assoc. Qed.

Lemma then_framed_empty_l x : then_framed ([], true) x = x.
Proof. by destruct x. Qed.

Lemma then_framed_empty_r x : then_framed x ([], true) = x.
Proof. destruct x as [? []]; unfold then_framed; cbn; by rewrite ?app_nil_r. Qed.

Lemma frame_lines_app max a b :
  frame_lines max (a ++ b) = then_framed (frame_lines max a) (frame_lines max b).
Proof.
  induction a as [|l a IH]; cbn [frame_lines app]; [by destruct (frame_lines max b)|].
  case_bool_decide; [done|]. rewrite IH. by rewrite then_framed_assoc.
Qed.

(** The line in progress has no newline and is within the bound. *)
Record nd_ok (f : NdjsonFramer) : Prop := mk_nd_ok {
  nd_line : NL ∉ partial f;
  nd_bound : Z.of_nat (length (partial f)) <= max_record_bytes f;
}.

(** What is still to be framed from [f] when [more] follows. *)
Definition outstanding (f : NdjsonFramer) (more : list Z) : Framed :=
  frame_lines (max_record_bytes f) (split_on NL (partial f ++ more)).

(** [f'] has queued [delta] on the way from [f]. *)
Definition queued (delta : list (list Z)) (f f' : NdjsonFramer) : Prop :=
  ready f' = ready f ++ delta /\ max_record_bytes f' = max_record_bytes f.

Lemma complete_line_spec f more :
  nd_ok f ->
  nd_ok (complete_line f) /\ queued (record_of (partial f)) f (complete_line f) /\
  outstanding f (NL :: more) =
    then_framed (record_of (partial f), true) (outstanding (complete_line f) more).
Proof.
  intros [Hl Hb]. unfold complete_line, queued, record_of, outstanding.
  rewrite split_on_cons by done. cbn [frame_lines].
  rewrite (bool_decide_false (_ < _)) by lia. unfold record_of.
  destruct (forallb _ _); cbn [partial ready max_record_bytes app];
    rewrite ?app_nil_r; split_and!; try done; split; cbn; try apply not_elem_of_nil; lia.
Qed.

Lemma push_partial_spec bytes f more :
  nd_ok f -> NL ∉ bytes ->
  match push_partial bytes f with
  | (f', true) => nd_ok f' /\ queued [] f f' /\ outstanding f (bytes ++ more) = outstanding f' more
  | (f', false) => f' = f /\ outstanding f (bytes ++ more) = ([], false)
  end.
Proof.
  intros [Hl Hb] Hn. unfold push_partial. case_bool_decide as Hlt.
  - split; [done|]. unfold outstanding.
    assert (Hp : NL ∉ partial f ++ bytes) by (rewrite elem_of_app; tauto).
    assert (exists x xs, split_on NL (partial f ++ bytes ++ more) = x :: xs /\
              (length (partial f ++ bytes) <= length x)%nat) as (x & xs & -> & Hx).
    { rewrite app_assoc. revert Hp. generalize (partial f ++ bytes). intros l Hp.
      induction l as [|b l IH]; cbn.
      - pose proof (split_on_nonempty NL more).
        destruct (split_on NL more); [done|]. eexists _, _. split; [done|lia].
      - apply not_elem_of_cons in Hp as [Hb' Hp]. rewrite bool_decide_false by congruence.
        destruct (IH Hp) as (x & xs & -> & Hx). eexists _, _. split; [done|]. cbn. lia. }
    cbn [frame_lines]. rewrite bool_decide_true; [done|]. rewrite length_app in Hx. lia.
  - unfold queued, outstanding; cbn. rewrite app_nil_r, app_assoc.
    split_and!; try done. split; cbn; [|rewrite length_app; lia].
    rewrite elem_of_app. tauto.
Qed.

Lemma push_loop_spec fuel : forall rest f more,
  (length rest <= fuel)%nat -> nd_ok f ->
  let '(f', ok) := push_loop fuel rest f in
  exists delta, queued delta f f' /\
    outstanding f (rest ++ more) =
      (if ok then then_framed (delta, true) (outstanding f' more) else (delta, false)) /\
    (ok = true -> nd_ok f').
Proof.
  assert (Hlast : forall rest f more, nd_ok f -> NL ∉ rest ->
    let '(f', ok) := push_partial rest f in
    exists delta, queued delta f f' /\
      outstanding f (rest ++ more) =
        (if ok then then_framed (delta, true) (outstanding f' more) else (delta, false)) /\
      (ok = true -> nd_ok f')).
  { intros rest f more Hf Hn. pose proof (push_partial_spec rest f more Hf Hn) as H.
    destruct (push_partial rest f) as [f' []].
    - destruct H as (H1 & H2 & H3). exists []. rewrite H3. unfold then_framed. cbn.
      by destruct (outstanding f' more).
    - destruct H as [-> ->]. exists []. split_and!; try done. split; [by rewrite app_nil_r|done]. }
  induction fuel as [|fuel IH]; intros rest f more Hlen Hf.
  { destruct rest; [|cbn in Hlen; lia]. apply Hlast; [done|apply not_elem_of_nil]. }
  cbn [push_loop]. destruct (position NL rest) as [nl|] eqn:Hpos.
  2:{ apply Hlast; [done|by apply position_None]. }
  apply position_Some in Hpos as (Hrest & Hlt & Hni).
  pose proof (push_partial_spec (take nl rest) f (NL :: drop (S nl) rest ++ more) Hf Hni) as Hp.
  assert (Heq : rest ++ more = take nl rest ++ NL :: drop (S nl) rest ++ more).
  { rewrite Hrest at 1. by rewrite <- app_assoc. }
  rewrite Heq. destruct (push_partial (take nl rest) f) as [f1 []].
  2:{ destruct Hp as [-> Hp]. rewrite Hp. exists []. split_and!; try done.
      split; [by rewrite app_nil_r|done]. }
  destruct Hp as (Hf1 & [Hr1 Hm1] & Hp). rewrite Hp.
  destruct (complete_line_spec f1 (drop (S nl) rest ++ more) Hf1) as (Hf2 & [Hr2 Hm2] & ->).
  specialize (IH (drop (S nl) rest) (complete_line f1) more).
  destruct (push_loop fuel _ _) as [f' ok].
  destruct IH as (delta & [Hr3 Hm3] & IH & Hok); [rewrite length_drop; lia|done|].
  exists (record_of (partial f1) ++ delta). split_and!; [split|..].
  - by rewrite Hr3, Hr2, Hr1, app_nil_r, app_assoc.
  - congruence.
  - rewrite IH. destruct ok; [|done]. unfold then_framed. cbn. by rewrite app_assoc.
  - done.
Qed.

Lemma ndjson_push_spec bytes f more :
  nd_ok f ->
  let '(f', ok) := ndjson_push bytes f in
  exists delta, queued delta f f' /\
    outstanding f (bytes ++ more) =
      (if ok then then_framed (delta, true) (outstanding f' more) else (delta, false)) /\
    (ok = true -> nd_ok f').
Proof.
  intros [Hl Hb]. unfold ndjson_push.
  apply (push_loop_spec (length bytes) bytes
    (mkNdjson (partial f) (ready f) _ (max_record_bytes f)) more); [lia|by split].
Qed.

Lemma ndjson_pops f : pops f (ready f).
Proof.
  destruct f as [p r d m]. cbn. revert p d m. induction r as [|x r IH]; intros.
  - by constructor.
  - econstructor; [done|apply IH].
Qed.

Lemma ndjson_feed chunks : forall f,
  nd_ok f ->
  exists f', feed_chunks chunks f = (f', (outstanding f (concat chunks)).2) /\
    ready f' = ready f ++ (outstanding f (concat chunks)).1.
Proof.
  induction chunks as [|c cs IH]; intros f Hf.
  - cbn. unfold ndjson_finish, outstanding. rewrite app_nil_r.
    destruct Hf as [Hl Hb]. rewrite split_on_none by done. cbn.
    rewrite (bool_decide_false (_ < _)) by lia. unfold then_framed. cbn.
    destruct (decide (partial f = [])) as [Hp|Hp].
    + rewrite (bool_decide_false (_ <> _)) by (by intros []). eexists. split; [done|].
      rewrite Hp. cbn. by rewrite app_nil_r.
    + rewrite (bool_decide_true (_ <> _)) by done. eexists. split; [done|].
      rewrite app_nil_r. by destruct (complete_line_spec f [] (mk_nd_ok _ Hl Hb)) as (_ & [-> _] & _).
  - cbn [feed_chunks concat]. pose proof (ndjson_push_spec c f (concat cs) Hf) as Hp.
    cbn [framer_push NdjsonFramer_RecordFramer].
    destruct (ndjson_push c f) as [f1 []]; destruct Hp as (delta & [Hr Hm] & -> & Hok).
    + destruct (IH f1 (Hok eq_refl)) as (f' & -> & Hr'). exists f'.
      destruct (outstanding f1 (concat cs)) as [rs ok]. unfold then_framed. cbn in *.
      split; [done|]. by rewrite Hr', Hr, app_assoc.
    + by exists f1.
Qed.

(** The NDJSON framer keeps the framer contract. *)
#[export] Instance NdjsonFramer_laws max (Hmax : 0 <= max) :
  FramerLaws (ndjson_new max).
Proof.
  refine {| frame := ndjson_frame max |}.
  - intros chunks. destruct (ndjson_feed chunks (ndjson_new max)) as (f & Hf & Hr).
    { split; cbn; [apply not_elem_of_nil|done]. }
    exists f. split; [done|]. pose proof (ndjson_pops f) as Hp.
    rewrite Hr in Hp. exact Hp.
  - intros d a b [= <-]. unfold ndjson_frame. rewrite split_on_app.
    rewrite (split_on_app NL a []), !frame_lines_app.
    cbn [split_on frame_lines]. rewrite <- then_framed_assoc. f_equal.
    rewrite bool_decide_false by (cbn; lia). cbn. unfold then_framed. cbn.
    by destruct (frame_lines max (split_on NL b)).
Defined.

(** NDJSON framing is a function of the bytes. However a stream is cut
    into chunks, feeding and finishing yields exactly the records of its
    lines (split on newlines, one carriage return stripped, blank lines
    skipped), up to the first line over [max_record_bytes], where every
    chunking fails. *)
Theorem ndjson_chunk_independent (max : Z) (chunks : list (list Z)) :
  0 <= max ->
  exists f, feed_chunks chunks (ndjson_new max) = (f, (ndjson_frame max (concat chunks)).2) /\
    ready f = (ndjson_frame max (concat chunks)).1.
Proof.
  intros Hmax. destruct (ndjson_feed chunks (ndjson_new max)) as (f & Hf & Hr).
  { split; cbn; [apply not_elem_of_nil|done]. }
  by exists f.
Qed.

Lemma ndjson_chunk_independent_witness :
  ndjson_frame 3 [97; 98; 13; 10; 32; 10; 99] = ([[97; 98]; [99]], true) /\
  exists f, feed_chunks [[97]; [98; 13]; [10; 32; 10; 99]] (ndjson_new 3) = (f, true) /\
    ready f = [[97; 98]; [99]].
Proof.
  split; [reflexivity|].
  exact (ndjson_chunk_independent 3 [[97]; [98; 13]; [10; 32; 10; 99]] ltac:(lia)).
Defined.
