(* ===== verification/S3Split.v ===== *)
(** * Cutting an object into byte ranges ([spate-s3/src/split.rs],
    [trim.rs], [fuzz_seams.rs])

    [SplitRange] and [tile], the descriptor's range validation, [RangeTrim]
    with its window schedule, and [read_range], the loop that drives them. The
    client theorem is stated against the [FramerLaws] interface: framing every
    tile of an object on its own yields the records of the whole object. *)

From stdpp Require Import base list sorting.
From Stdlib Require Import ZArith Lia.
From S2P Require Import Prelude Framing.

(** [SplitRange] and [SplitRange::new]. *)
Record SplitRange := mkRange {
  sr_start : Z;
  sr_end : Z;
  sr_delimiter : Z;
}.

(** [tile]: [u128] products, so the boundaries are exact. *)
Definition boundary (size n i : Z) : Z := i * size / n.

Definition tile (size target delimiter : Z) : list SplitRange :=
  let n := (size + target - 1) / target in
  (fun i => mkRange (boundary size n (Z.of_nat i)) (boundary size n (Z.of_nat i + 1)) delimiter)
    <$> seq 0 (Z.to_nat n).

(** ** [RangeTrim] *)

Inductive Phase := Seek | Emit | Done.

#[export] Instance Phase_eq_dec : EqDecision Phase.
Proof. solve_decision. Defined.

Record RangeTrim := mkTrim {
  rt_start : Z;
  rt_end : Z;
  rt_delimiter : Z;
  rt_size : Z;
  rt_phase : Phase;
}.

(** [RangeTrim::new]. *)
Definition trim_new (range : SplitRange) (size : Z) : RangeTrim :=
  mkTrim (sr_start range) (sr_end range) (sr_delimiter range) size
    (if bool_decide (sr_start range = 0) then Emit else Seek).

(** [RangeTrim::first_byte]. *)
Definition first_byte (t : RangeTrim) : Z := sat_sub (rt_start t) 1.

(** [RangeTrim::next_window]. *)
Definition next_window (t : RangeTrim) (pos range_bytes chunk_bytes : Z) : option Z :=
  if bool_decide (rt_phase t = Done) || bool_decide (rt_size t <= pos) then None
  else
    let range_bytes := Z.max range_bytes 1 in
    let chunk_bytes := Z.max chunk_bytes 1 in
    let e := if bool_decide (rt_end t <= pos) then sat_add_u64 pos chunk_bytes
             else if bool_decide (rt_end t <= sat_add_u64 pos range_bytes)
                  then sat_add_u64 (rt_end t) chunk_bytes
                  else wrap_u64 (pos + range_bytes) in
    Some (Z.min e (rt_size t)).

Definition set_phase (ph : Phase) (t : RangeTrim) : RangeTrim :=
  mkTrim (rt_start t) (rt_end t) (rt_delimiter t) (rt_size t) ph.

(** The emitting half of [feed], from index [from] of the window. *)
Definition feed_emit (t : RangeTrim) (pos : Z) (window : list Z) (from : nat)
    : RangeTrim * list Z :=
  let len := Z.of_nat (length window) in
  let tail_from :=
    Nat.max (Z.to_nat (Z.min (sat_sub (wrap_u64 (rt_end t - 1)) pos) len)) from in
  match position (rt_delimiter t) (drop tail_from window) with
  | Some at_ => (set_phase Done t, take (S (tail_from + at_) - from) (drop from window))
  | None => (t, drop from window)
  end.

(** [RangeTrim::feed]. *)
Definition feed (t : RangeTrim) (pos : Z) (window : list Z) : RangeTrim * list Z :=
  let len := Z.of_nat (length window) in
  match rt_phase t with
  | Seek =>
      let seek_len := Z.to_nat (Z.min (sat_sub (wrap_u64 (rt_end t - 1)) pos) len) in
      match position (rt_delimiter t) (take seek_len window) with
      | Some at_ => feed_emit (set_phase Emit t) pos window (S at_)
      | None =>
          (if bool_decide (wrap_u64 (rt_end t - 1) <= wrap_u64 (pos + len))
           then set_phase Done t else t, [])
      end
  | Emit => feed_emit t pos window 0
  | Done => (t, [])
  end.

(** Bytes [a..b] of an object. *)
Definition sub_bytes (obj : list Z) (a b : Z) : list Z :=
  take (Z.to_nat (b - a)) (drop (Z.to_nat a) obj).

(** The [while let] loop of [read_range]; [None] is its panic on an empty
    window. Every window is at least one byte, so as many passes as the object
    has bytes are enough. *)
Fixpoint read_loop (fuel : nat) (obj : list Z) (range_bytes chunk_bytes : Z)
    (t : RangeTrim) (pos : Z) (owned : list Z) : option (list Z) :=
  match fuel with
  | O => None
  | S fuel =>
      match next_window t pos range_bytes chunk_bytes with
      | None => Some owned
      | Some window_end =>
          if bool_decide (pos < window_end)
          then let '(t, out) := feed t pos (sub_bytes obj pos window_end) in
               read_loop fuel obj range_bytes chunk_bytes t window_end (owned ++ out)
          else None
      end
  end.

(** [read_range]: [Some None] is a refused range, [None] the panic. *)
Definition read_range (obj : list Z) (start stop delimiter range_bytes chunk_bytes : Z)
    : option (option (list Z)) :=
  let size := Z.of_nat (length obj) in
  if bool_decide (stop <= start) || bool_decide (size < stop) then Some None
  else
    let t := trim_new (mkRange start stop delimiter) size in
    Some <$> read_loop (S (length obj)) obj range_bytes chunk_bytes t (first_byte t) [].

(** ** The bytes a range owns *)

(** The first record start at or after byte [a]: 0, or one past the first
    delimiter from [a - 1] on, or the end of the object. *)
Definition cut (obj : list Z) (d a : Z) : Z :=
  if bool_decide (a = 0) then 0
  else match position d (drop (Z.to_nat (a - 1)) obj) with
       | Some n => a + Z.of_nat n
       | None => Z.of_nat (length obj)
       end.

Definition no_delim (obj : list Z) (d a b : Z) : Prop :=
  forall i, a <= Z.of_nat i < b -> obj !! i <> Some d.

Lemma sub_bytes_length obj a b :
  0 <= a <= b -> b <= Z.of_nat (length obj) -> length (sub_bytes obj a b) = Z.to_nat (b - a).
Proof. intros. unfold sub_bytes. rewrite length_take, length_drop. lia. Qed.

Lemma sub_bytes_app obj a b c :
  0 <= a <= b -> b <= c -> sub_bytes obj a b ++ sub_bytes obj b c = sub_bytes obj a c.
Proof.
  intros. unfold sub_bytes.
  replace (drop (Z.to_nat b) obj) with (drop (Z.to_nat (b - a)) (drop (Z.to_nat a) obj))
    by (rewrite drop_drop; f_equal; lia).
  rewrite take_take_drop. f_equal. lia.
Qed.

Lemma sub_bytes_all obj : sub_bytes obj 0 (Z.of_nat (length obj)) = obj.
Proof. unfold sub_bytes. rewrite drop_0. apply take_ge. lia. Qed.

Lemma sub_bytes_nil obj a : sub_bytes obj a a = [].
Proof. unfold sub_bytes. by rewrite Z.sub_diag. Qed.

(** A window cut at [x] and [y] bytes from its start. *)
Lemma sub_bytes_sub obj a b (x y : nat) :
  0 <= a -> a + Z.of_nat y <= b -> (x <= y)%nat ->
  take (y - x) (drop x (sub_bytes obj a b)) = sub_bytes obj (a + Z.of_nat x) (a + Z.of_nat y).
Proof.
  intros. unfold sub_bytes. rewrite skipn_firstn_comm, take_take, drop_drop. f_equal; [lia|].
  f_equal. lia.
Qed.

Lemma sub_bytes_drop obj a b (x : nat) :
  0 <= a -> a + Z.of_nat x <= b -> drop x (sub_bytes obj a b) = sub_bytes obj (a + Z.of_nat x) b.
Proof.
  intros. unfold sub_bytes. rewrite skipn_firstn_comm, drop_drop. f_equal; [lia|].
  f_equal. lia.
Qed.

Lemma position_sub_Some obj d a b n :
  0 <= a <= b -> b <= Z.of_nat (length obj) -> position d (sub_bytes obj a b) = Some n ->
  no_delim obj d a (a + Z.of_nat n) /\ obj !! Z.to_nat (a + Z.of_nat n) = Some d /\
  a + Z.of_nat n < b.
Proof.
  intros Hab Hb Hp. apply position_Some in Hp as (Hl & Hn & Hni).
  rewrite sub_bytes_length in Hn by lia.
  assert (Hlk : forall i, (i < Z.to_nat (b - a))%nat ->
    sub_bytes obj a b !! i = obj !! (Z.to_nat a + i)%nat).
  { intros i Hi. unfold sub_bytes. by rewrite lookup_take_lt, lookup_drop by lia. }
  split_and!; [|..|lia].
  - intros i Hi Heq. apply Hni. apply list_elem_of_lookup. exists (i - Z.to_nat a)%nat.
    rewrite lookup_take_lt, Hlk by lia. rewrite <- Heq. f_equal. lia.
  - replace (Z.to_nat (a + Z.of_nat n)) with (Z.to_nat a + n)%nat by lia.
    rewrite <- Hlk by lia. rewrite Hl. rewrite lookup_app_r by (rewrite length_take; lia).
    rewrite length_take, sub_bytes_length by lia.
    by replace (n - _)%nat with 0%nat by lia.
Qed.

Lemma position_sub_None obj d a b :
  0 <= a <= b -> b <= Z.of_nat (length obj) -> position d (sub_bytes obj a b) = None ->
  no_delim obj d a b.
Proof.
  intros Hab Hb Hp i Hi Heq. apply position_None in Hp. apply Hp.
  apply list_elem_of_lookup. exists (i - Z.to_nat a)%nat. unfold sub_bytes.
  rewrite lookup_take_lt, lookup_drop by lia. rewrite <- Heq. f_equal. lia.
Qed.

Lemma cut_found obj d a i :
  0 < a -> a - 1 <= i -> no_delim obj d (a - 1) i -> obj !! Z.to_nat i = Some d ->
  cut obj d a = i + 1.
Proof.
  intros Ha Hi Hno Hd. unfold cut. rewrite bool_decide_false by lia.
  destruct (position _ _) as [n|] eqn:Hp.
  - apply position_Some in Hp as (Hl & Hn & Hni). rewrite length_drop in Hn.
    assert (Hdn : obj !! (Z.to_nat (a - 1) + n)%nat = Some d).
    { rewrite <- lookup_drop, Hl, lookup_app_r by (rewrite length_take; lia).
      rewrite length_take, length_drop. by replace (n - _)%nat with 0%nat by lia. }
    destruct (decide (Z.of_nat (Z.to_nat (a - 1) + n) < i)) as [Hlt|Hge].
    { exfalso. by apply (Hno (Z.to_nat (a - 1) + n)%nat); [lia|]. }
    destruct (decide (i < Z.of_nat (Z.to_nat (a - 1) + n))) as [Hlt|Hge']; [|lia].
    exfalso. apply Hni. apply list_elem_of_lookup. exists (Z.to_nat i - Z.to_nat (a - 1))%nat.
    rewrite lookup_take_lt, lookup_drop by lia. rewrite <- Hd. f_equal. lia.
  - exfalso. apply position_None in Hp. apply Hp. apply list_elem_of_lookup.
    exists (Z.to_nat i - Z.to_nat (a - 1))%nat. rewrite lookup_drop. rewrite <- Hd. f_equal. lia.
Qed.

Lemma cut_none obj d a :
  0 < a -> no_delim obj d (a - 1) (Z.of_nat (length obj)) -> cut obj d a = Z.of_nat (length obj).
Proof.
  intros Ha Hno. unfold cut. rewrite bool_decide_false by lia.
  destruct (position _ _) as [n|] eqn:Hp; [|done].
  apply position_Some in Hp as (Hl & Hn & Hni). rewrite length_drop in Hn. exfalso.
  apply (Hno (Z.to_nat (a - 1) + n)%nat); [lia|].
  rewrite <- lookup_drop, Hl, lookup_app_r by (rewrite length_take; lia).
  rewrite length_take, length_drop. by replace (n - _)%nat with 0%nat by lia.
Qed.

(** [cut] is a record start at or after its argument. *)
Lemma cut_spec obj d a :
  0 <= a <= Z.of_nat (length obj) ->
  a <= cut obj d a <= Z.of_nat (length obj) /\
  (cut obj d a = 0 \/ cut obj d a = Z.of_nat (length obj) \/
   0 < cut obj d a /\ obj !! Z.to_nat (cut obj d a - 1) = Some d) /\
  (0 < a -> no_delim obj d (a - 1) (cut obj d a - 1)).
Proof.
  intros Ha. unfold cut. case_bool_decide as H0; [split_and!; try lia|].
  destruct (position _ _) as [n|] eqn:Hp.
  - apply position_Some in Hp as (Hl & Hn & Hni). rewrite length_drop in Hn.
    split_and!; try lia.
    + right; right. split; [lia|].
      replace (Z.to_nat (a + Z.of_nat n - 1)) with (Z.to_nat (a - 1) + n)%nat by lia.
      rewrite <- lookup_drop, Hl, lookup_app_r by (rewrite length_take; lia).
      rewrite length_take, length_drop. by replace (n - _)%nat with 0%nat by lia.
    + intros _ i Hi Heq. apply Hni. apply list_elem_of_lookup.
      exists (i - Z.to_nat (a - 1))%nat. rewrite lookup_take_lt, lookup_drop by lia.
      rewrite <- Heq. f_equal. lia.
  - apply position_None in Hp. split_and!; try lia. intros _ i Hi Heq. apply Hp.
    apply list_elem_of_lookup. exists (i - Z.to_nat (a - 1))%nat. rewrite lookup_drop.
    rewrite <- Heq. f_equal. lia.
Qed.

(** ** The trim yields exactly the owned bytes *)

Section trim.
Context (obj : list Z) (d s e : Z).
Hypothesis Hrange : 0 <= s < e.
Hypothesis Hsize : e <= Z.of_nat (length obj).
Hypothesis Hwidth : Z.of_nat (length obj) <= U64_MAX.

Notation size := (Z.of_nat (length obj)).
Notation S_ := (cut obj d s).
Notation E_ := (cut obj d e).

(** Where the trim stands after the bytes before [pos], having yielded
    [out]. *)
Definition trim_at (ph : Phase) (pos : Z) (out : list Z) : Prop :=
  match ph with
  | Seek => 0 < s /\ s - 1 <= pos < e - 1 /\ no_delim obj d (s - 1) pos /\ out = []
  | Emit => S_ <= pos /\ s - 1 <= pos <= size /\ no_delim obj d (e - 1) pos /\
            out = sub_bytes obj S_ pos
  | Done => out = sub_bytes obj S_ E_
  end.

Definition the_trim (ph : Phase) : RangeTrim := mkTrim s e d size ph.

Lemma no_delim_app a b c :
  no_delim obj d a b -> no_delim obj d b c -> no_delim obj d a c.
Proof. intros H1 H2 i Hi. destruct (decide (Z.of_nat i < b)); [apply H1|apply H2]; lia. Qed.

Lemma no_delim_weaken a b a' b' :
  no_delim obj d a b -> a <= a' -> b' <= b -> no_delim obj d a' b'.
Proof. intros H ? ? i Hi. apply H. lia. Qed.

(** The emitting half, from byte [x] of the object on, all of it owned. *)
Lemma feed_emit_spec pos wend (from : nat) out :
  0 <= pos -> pos < wend <= size -> pos + Z.of_nat from <= wend ->
  S_ <= pos + Z.of_nat from -> no_delim obj d (e - 1) (pos + Z.of_nat from) ->
  out = sub_bytes obj S_ (pos + Z.of_nat from) -> s - 1 <= pos ->
  let '(t', o) := feed_emit (the_trim Emit) pos (sub_bytes obj pos wend) from in
  exists ph, t' = the_trim ph /\ ph <> Seek /\ trim_at ph wend (out ++ o).
Proof.
  intros Hp0 Hp Hf HS Hno -> Hs. unfold feed_emit. cbn [the_trim rt_end rt_delimiter].
  rewrite (wrap_u64_small (e - 1)) by (unfold_int; lia).
  rewrite sub_bytes_length by lia.
  set (tf := Nat.max _ from).
  assert (Htf : pos + Z.of_nat tf <= wend /\ (from <= tf)%nat /\
                (tf = from \/ pos + Z.of_nat tf <= e - 1) /\
                (e - 1 <= pos + Z.of_nat tf \/ pos + Z.of_nat tf = wend)).
  { unfold tf, sat_sub. lia. }
  destruct Htf as (H1 & H2 & H3 & H4).
  assert (Hno' : no_delim obj d (e - 1) (pos + Z.of_nat tf)).
  { destruct H3 as [->|H3]; [done|]. intros i Hi. lia. }
  destruct (cut_spec obj d s) as (HS1 & _ & _); [lia|].
  rewrite sub_bytes_drop by lia. destruct (position d _) as [n|] eqn:Hn.
  - apply position_sub_Some in Hn as (Hn1 & Hn2 & Hn3); [|lia..].
    assert (HE : E_ = pos + Z.of_nat tf + Z.of_nat n + 1).
    { apply cut_found; [lia| |by eapply no_delim_app|done].
      destruct H4 as [H4|H4]; lia. }
    exists Done. split_and!; try done. cbn [trim_at]. rewrite sub_bytes_sub by lia.
    rewrite sub_bytes_app by lia. f_equal. lia.
  - apply position_sub_None in Hn; [|lia..]. exists Emit. split_and!; try done.
    cbn [trim_at]. rewrite sub_bytes_drop, sub_bytes_app by lia.
    split_and!; try lia; [|done]. by eapply no_delim_app.
Qed.

Lemma feed_spec ph pos wend out :
  0 <= pos -> pos < wend <= size -> ph <> Done -> trim_at ph pos out ->
  let '(t', o) := feed (the_trim ph) pos (sub_bytes obj pos wend) in
  exists ph', t' = the_trim ph' /\ trim_at ph' wend (out ++ o).
Proof.
  intros Hp0 Hp Hph Hat. destruct ph; [| |done].
  - destruct Hat as (Hs0 & Hpos & Hno & ->). unfold feed. cbn [the_trim rt_phase rt_end rt_delimiter].
    rewrite (wrap_u64_small (e - 1)) by (unfold_int; lia). rewrite sub_bytes_length by lia.
    set (sl := Z.to_nat _). assert (Hsl : pos + Z.of_nat sl <= wend /\
      pos + Z.of_nat sl <= e - 1 /\ (pos + Z.of_nat sl = e - 1 \/ pos + Z.of_nat sl = wend)).
    { unfold sl, sat_sub. lia. }
    destruct Hsl as (H1 & H2 & H3).
    assert (Htake : take sl (sub_bytes obj pos wend) = sub_bytes obj pos (pos + Z.of_nat sl)).
    { pose proof (sub_bytes_sub obj pos wend 0 sl) as H. rewrite drop_0, Nat.sub_0_r in H.
      rewrite H by lia. f_equal; lia. }
    rewrite Htake. destruct (position d _) as [n|] eqn:Hn.
    + apply position_sub_Some in Hn as (Hn1 & Hn2 & Hn3); [|lia..].
      assert (HS : S_ = pos + Z.of_nat (S n)).
      { rewrite (cut_found obj d s (pos + Z.of_nat n)); [lia|lia|lia| |done].
        by eapply no_delim_app. }
      pose proof (feed_emit_spec pos wend (S n) []) as H.
      change (set_phase Emit (the_trim Seek)) with (the_trim Emit).
      destruct (feed_emit _ _ _ _) as [t' o]. destruct H as (ph & -> & _ & H); try lia.
      * intros i Hi. lia.
      * by rewrite HS, sub_bytes_nil.
      * by exists ph.
    + apply position_sub_None in Hn; [|lia..].
      rewrite (wrap_u64_small (_ + _)) by (unfold_int; lia).
      assert (Hno2 : no_delim obj d (s - 1) (pos + Z.of_nat sl)) by (by eapply no_delim_app).
      case_bool_decide as Hd.
      * exists Done. split; [done|]. cbn. assert (H3' : pos + Z.of_nat sl = e - 1) by lia.
        assert (HSE : S_ = E_).
        { destruct (cut_spec obj d e) as (HE1 & HE2 & HE3); [lia|].
          assert (Hno3 : no_delim obj d (s - 1) (E_ - 1)).
          { eapply no_delim_app; [exact Hno2|]. rewrite H3'. apply HE3. lia. }
          destruct (decide (obj !! Z.to_nat (E_ - 1) = Some d)) as [Hl|Hl].
          - rewrite (cut_found obj d s (E_ - 1)); [lia|lia|lia|done|done].
          - destruct HE2 as [HE2|[HE2|[_ HE2]]]; [lia| |done].
            rewrite (cut_none obj d s); [lia|lia|].
            intros i Hi Heq. destruct (decide (Z.of_nat i < E_ - 1)).
            + by apply (Hno3 i); [lia|].
            + apply Hl. rewrite <- Heq. f_equal. lia. }
        by rewrite HSE, sub_bytes_nil.
      * exists Seek. split; [done|]. cbn.
        assert (Hw : wend = pos + Z.of_nat sl) by lia. rewrite Hw. split_and!; try done; lia.
  - destruct Hat as (HS & Hpos & Hno & ->). unfold feed. cbn [the_trim rt_phase].
    pose proof (feed_emit_spec pos wend 0 (sub_bytes obj S_ pos)) as H.
    fold (the_trim Emit). destruct (feed_emit _ _ _ _) as [t' o].
    destruct H as (ph & -> & _ & H); rewrite ?Z.add_0_r; try done; try lia. by exists ph.
Qed.

Lemma next_window_spec ph pos rb cb :
  0 <= pos -> ph <> Done -> pos < size ->
  exists w, next_window (the_trim ph) pos rb cb = Some w /\ pos < w <= size.
Proof.
  intros Hp Hph Hlt. unfold next_window. cbn [the_trim rt_phase rt_size rt_end].
  rewrite (bool_decide_false (ph = Done)), (bool_decide_false (size <= pos)) by (done || lia).
  cbn [orb]. eexists. split; [done|].
  repeat case_bool_decide; unfold_int; try lia.
  unfold wrap_u64. rewrite Z.mod_small; lia.
Qed.

Lemma read_loop_spec rb cb fuel : forall ph pos out,
  0 <= pos -> trim_at ph pos out -> size - pos < Z.of_nat fuel ->
  (ph = Done \/ s - 1 <= pos <= size) -> (0 < fuel)%nat ->
  read_loop fuel obj rb cb (the_trim ph) pos out = Some (sub_bytes obj S_ E_).
Proof.
  induction fuel as [|fuel IH]; intros ph pos out Hp Hat Hfuel Hpos Hf; [lia|].
  cbn [read_loop]. destruct (decide (ph = Done)) as [->|Hph].
  { unfold next_window. cbn. by rewrite Hat. }
  destruct (decide (pos < size)) as [Hlt|Hge].
  - destruct (next_window_spec ph pos rb cb Hp Hph Hlt) as (w & -> & Hw).
    rewrite bool_decide_true by lia.
    pose proof (feed_spec ph pos w out Hp Hw Hph Hat) as H.
    destruct (feed _ _ _) as [t' o]. destruct H as (ph' & -> & Hat').
    destruct Hpos as [Hpos|Hpos]; [done|]. apply IH; try done; try lia.
  - unfold next_window. cbn [the_trim rt_phase rt_size].
    rewrite (bool_decide_false (ph = Done)), (bool_decide_true (size <= pos)) by (done || lia).
    cbn [orb]. destruct ph; [|..|done]; cbn in Hat.
    + destruct Hat as (_ & Hat & _). lia.
    + destruct Hat as (HS & Hat & Hno & ->). assert (pos = size) as -> by lia.
      by rewrite (cut_none obj d e) by (done || lia).
Qed.
End trim.

Lemma read_range_spec (obj : list Z) (start stop d range_bytes chunk_bytes : Z) :
  0 <= start < stop -> stop <= Z.of_nat (length obj) -> Z.of_nat (length obj) <= U64_MAX ->
  read_range obj start stop d range_bytes chunk_bytes =
    Some (Some (sub_bytes obj (cut obj d start) (cut obj d stop))).
Proof.
  intros Hr Hs Hw. unfold read_range.
  rewrite !bool_decide_false by lia. cbn [orb]. unfold trim_new, first_byte, sat_sub.
  cbn [sr_start sr_end sr_delimiter rt_start].
  set (ph := if bool_decide (start = 0) then Emit else Seek).
  change (mkTrim start stop d (Z.of_nat (length obj)) ph) with (the_trim obj d start stop ph).
  rewrite (read_loop_spec obj d start stop Hr Hs Hw); [done|lia| |lia| |lia]; unfold ph.
  - case_bool_decide as H0; cbn.
    + subst. unfold cut at 1 2. cbn. rewrite sub_bytes_nil. split_and!; try done; try lia.
      intros i Hi. lia.
    + split_and!; try done; try lia. intros i Hi. lia.
  - right. lia.
Qed.

(** a range's reader yields exactly the bytes the range owns, whatever the
    window and chunk sizes: from the first record start at or after [start] to
    the first record start at or after [stop]. The read terminates and never
    asks for an empty window. *)
Theorem read_range_owned (obj : list Z) (start stop d range_bytes chunk_bytes : Z) :
  0 <= start < stop -> stop <= Z.of_nat (length obj) -> Z.of_nat (length obj) <= U64_MAX ->
  read_range obj start stop d range_bytes chunk_bytes =
    Some (Some (sub_bytes obj (cut obj d start) (cut obj d stop))).
Proof. apply read_range_spec. Qed.

Lemma read_range_owned_witness :
  read_range [97; 98; 10; 99; 10] 1 4 10 1 1 = Some (Some [99; 10]) /\
  sub_bytes [97; 98; 10; 99; 10] (cut [97; 98; 10; 99; 10] 10 1)
    (cut [97; 98; 10; 99; 10] 10 4) = [99; 10].
Proof.
  assert (H := read_range_owned [97; 98; 10; 99; 10] 1 4 10 1 1 ltac:(lia) ltac:(cbn; lia)
                 ltac:(vm_compute; discriminate)).
  split; [exact H|reflexivity].
Defined.

(** ** Tilings *)
Lemma boundary_mono size n i j :
  0 <= size -> 0 < n -> i <= j -> boundary size n i <= boundary size n j.
Proof. intros. unfold boundary. apply Z.div_le_mono; nia. Qed.

Lemma boundary_0 size n : boundary size n 0 = 0.
Proof. unfold boundary. by rewrite Z.mul_0_l, Zdiv_0_l. Qed.

Lemma boundary_n size n : 0 < n -> boundary size n n = size.
Proof. intros. unfold boundary. rewrite Z.mul_comm. apply Z.div_mul. lia. Qed.

(** The number of tiles, and how far apart their boundaries are. *)
Lemma tiles_count size target :
  0 < target -> 0 < size ->
  let n := (size + target - 1) / target in
  0 < n /\ (n - 1) * target < size <= n * target.
Proof.
  intros Ht Hs n. pose proof (Z.div_mod (size + target - 1) target ltac:(lia)) as Hdm.
  pose proof (Z.mod_pos_bound (size + target - 1) target ltac:(lia)) as Hm. fold n in Hdm. nia.
Qed.

Lemma boundary_step size n i :
  0 < n -> 0 <= size ->
  size / n <= boundary size n (i + 1) - boundary size n i /\
  n * (boundary size n (i + 1) - boundary size n i) < size + n.
Proof.
  intros Hn Hs. unfold boundary.
  pose proof (Z.div_mod (i * size) n ltac:(lia)). pose proof (Z.mod_pos_bound (i * size) n Hn).
  pose proof (Z.div_mod ((i + 1) * size) n ltac:(lia)).
  pose proof (Z.mod_pos_bound ((i + 1) * size) n Hn).
  split; [|nia].
  assert (n * (size / n) <= size) by (apply Z.mul_div_le; lia).
  assert (n * (size / n - ((i + 1) * size / n - i * size / n)) < n) by nia. nia.
Qed.

Lemma tile_facts (size target d : Z) :
  0 < target -> 0 < size ->
  let rs := tile size target d in
  sr_start <$> rs = take (length rs) (0 :: (sr_end <$> rs)) /\
  last (sr_end <$> rs) = Some size /\
  Forall (fun r => sr_start r < sr_end r /\ sr_end r - sr_start r <= target /\
            (target < size -> target / 2 <= sr_end r - sr_start r) /\
            sr_delimiter r = d) rs.
Proof.
  intros Ht Hs rs. destruct (tiles_count size target Ht Hs) as [Hn Hb].
  unfold rs, tile. set (n := (size + target - 1) / target) in *. split_and!.
  - rewrite length_fmap, length_seq, <- !list_fmap_compose.
    apply list_eq. intros i. rewrite list_lookup_fmap.
    destruct (decide (i < Z.to_nat n)%nat) as [Hi|Hi].
    + rewrite lookup_take_lt by done. rewrite lookup_seq_lt by done.
      rewrite lookup_cons. destruct i as [|i].
      * cbn. by rewrite boundary_0.
      * rewrite list_lookup_fmap, lookup_seq_lt by lia. cbn. do 2 f_equal. lia.
    + rewrite lookup_seq_ge by lia. by rewrite lookup_take_ge by lia.
  - replace (Z.to_nat n) with (S (Z.to_nat (n - 1))) by lia.
    rewrite seq_S, !fmap_app. cbn. rewrite last_snoc. f_equal.
    replace (Z.of_nat (Z.to_nat (n - 1)) + 1) with n by lia. by apply boundary_n.
  - rewrite Forall_fmap. apply Forall_forall. intros i Hi. cbn.
    destruct (boundary_step size n (Z.of_nat i) Hn ltac:(lia)) as [H1 H2].
    assert (1 <= size / n) by (apply Z.div_le_lower_bound; nia).
    split_and!; [lia|nia| |done]. intros Hlt.
    assert (target / 2 <= size / n); [|lia].
    apply Z.div_le_lower_bound; [lia|].
    pose proof (Z.mul_div_le target 2 ltac:(lia)). nia.
Qed.

(** a tiling covers the object. Its ranges are contiguous from byte 0 to
    the object's end, none is empty or longer than the target, and when the
    object is larger than the target none is shorter than half of it. *)
Theorem tile_covers (size target d : Z) :
  0 < target -> 0 < size ->
  let rs := tile size target d in
  sr_start <$> rs = take (length rs) (0 :: (sr_end <$> rs)) /\
  last (sr_end <$> rs) = Some size /\
  Forall (fun r => sr_start r < sr_end r /\ sr_end r - sr_start r <= target /\
            (target < size -> target / 2 <= sr_end r - sr_start r) /\
            sr_delimiter r = d) rs.
Proof. apply tile_facts. Qed.

Lemma tile_covers_witness :
  let rs := tile 10 4 10 in
  sr_start <$> rs = take (length rs) (0 :: (sr_end <$> rs)) /\
  last (sr_end <$> rs) = Some 10 /\
  Forall (fun r => sr_start r < sr_end r /\ sr_end r - sr_start r <= 4 /\
            (4 < 10 -> 4 / 2 <= sr_end r - sr_start r) /\ sr_delimiter r = 10) rs.
Proof. exact (tile_covers 10 4 10 ltac:(lia) ltac:(lia)). Defined.

(** ** Framing tile by tile *)

(** Each stretch framed by a framer of its own, in order. *)
Definition frame_each {F} `{RecordFramer F} (f0 : F) `{!FramerLaws f0} (os : list (list Z))
    : Framed :=
  foldr (fun o rest => then_framed (frame o) rest) ([], true) os.

Section tiles.
Context {F : Type} `{HRF : RecordFramer F} (f0 : F) `{HL : !FramerLaws f0}.
Context (obj : list Z) (d : Z).
Hypothesis Hd : framer_resync_delimiter f0 = Some d.
Hypothesis Hlone : (frame (f0 := f0) [d]).2 = true.

Lemma frame_empty : frame (f0 := f0) [] = ([], true).
Proof.
  pose proof (framer_resync (f0 := f0) d [] [] Hd) as H. cbn in H. unfold then_framed in H.
  rewrite Hlone in H. destruct (frame [d]) as [a x], (frame []) as [b y]. cbn in *. subst x.
  injection H as H1 H2. rewrite <- (app_nil_r a) in H1 at 1. apply app_inv_head in H1. congruence.
Qed.

(** A cut point is the start of a record or the end of the object. *)
Definition cut_point (c : Z) : Prop :=
  0 <= c <= Z.of_nat (length obj) /\
  (c = 0 \/ c = Z.of_nat (length obj) \/ 0 < c /\ obj !! Z.to_nat (c - 1) = Some d).

Lemma frame_at_cut a c :
  0 <= a <= c -> cut_point c ->
  frame (f0 := f0) (sub_bytes obj a (Z.of_nat (length obj))) =
    then_framed (frame (f0 := f0) (sub_bytes obj a c))
      (frame (f0 := f0) (sub_bytes obj c (Z.of_nat (length obj)))).
Proof.
  intros Hac [Hc Hcp]. destruct (decide (a = c)) as [->|Hne].
  { by rewrite (sub_bytes_nil obj c), frame_empty, then_framed_empty_l. }
  destruct Hcp as [->|[->|[_ Hl]]]; [lia| |].
  { rewrite (sub_bytes_nil obj (Z.of_nat (length obj))), frame_empty.
    by rewrite then_framed_empty_r. }
  rewrite <- (sub_bytes_app obj a c) by lia.
  assert (Hsplit : sub_bytes obj a c = sub_bytes obj a (c - 1) ++ [d]).
  { rewrite <- (sub_bytes_app obj a (c - 1) c) by lia. f_equal. unfold sub_bytes.
    replace (Z.to_nat (c - (c - 1))) with 1%nat by lia.
    rewrite (drop_S _ _ _ Hl). by cbn. }
  rewrite Hsplit, <- app_assoc. cbn. by apply framer_resync.
Qed.

Lemma frame_cuts cs : forall a,
  0 <= a -> StronglySorted Z.le (a :: cs) -> Forall cut_point cs ->
  last (a :: cs) = Some (Z.of_nat (length obj)) ->
  frame_each f0 (zip_with (sub_bytes obj) (a :: cs) cs) =
    frame (f0 := f0) (sub_bytes obj a (Z.of_nat (length obj))).
Proof.
  induction cs as [|c cs IH]; intros a Ha Hs Hcp Hl.
  - cbn in Hl. injection Hl as ->. cbn. by rewrite sub_bytes_nil, frame_empty.
  - inversion Hs as [|? ? Hs' Hle]; subst. inversion Hcp as [|? ? Hc Hcp']; subst.
    apply Forall_inv in Hle. rewrite (frame_at_cut a c) by (done || lia).
    change (frame_each f0 (zip_with (sub_bytes obj) (a :: c :: cs) (c :: cs))) with
      (then_framed (frame (f0 := f0) (sub_bytes obj a c))
         (frame_each f0 (zip_with (sub_bytes obj) (c :: cs) cs))).
    rewrite IH; try done. destruct Hc as [Hc _]. lia.
Qed.
End tiles.

(** What a reader of each range of [rs] owns. *)
Definition reads (obj : list Z) (rb cb : Z) (rs : list SplitRange) (owned : list (list Z)) : Prop :=
  Forall2 (fun r o => read_range obj (sr_start r) (sr_end r) (sr_delimiter r) rb cb =
                      Some (Some o)) rs owned.

Lemma concat_cuts obj cs : forall a,
  0 <= a -> StronglySorted Z.le (a :: cs) -> last (a :: cs) = Some (Z.of_nat (length obj)) ->
  concat (zip_with (sub_bytes obj) (a :: cs) cs) = sub_bytes obj a (Z.of_nat (length obj)).
Proof.
  induction cs as [|c cs IH]; intros a Ha Hs Hl.
  - cbn in Hl. injection Hl as ->. cbn. by rewrite sub_bytes_nil.
  - inversion Hs as [|? ? Hs' Hle]; subst. pose proof (Forall_inv Hle) as Hac.
    change (concat (zip_with (sub_bytes obj) (a :: c :: cs) (c :: cs))) with
      (sub_bytes obj a c ++ concat (zip_with (sub_bytes obj) (c :: cs) cs)).
    rewrite IH by (done || lia). apply sub_bytes_app; [lia|].
    enough (Forall (fun x => x <= Z.of_nat (length obj)) (c :: cs)) by (by apply Forall_inv in H).
    change (last (a :: c :: cs)) with (last (c :: cs)) in Hl.
    clear -Hs' Hl. induction Hs' as [|x l Hs IH HF]; [constructor|].
    destruct l as [|y l]; [cbn in Hl; injection Hl as ->; constructor; [lia|constructor]|].
    specialize (IH Hl). constructor; [|done].
    apply Forall_inv in IH. apply Forall_inv in HF. lia.
Qed.

Lemma cut_mono obj d a b :
  0 <= a <= b -> b <= Z.of_nat (length obj) -> cut obj d a <= cut obj d b.
Proof.
  intros Ha Hb. destruct (decide (a = 0)) as [->|].
  { destruct (cut_spec obj d b) as (? & _); [lia|]. change (cut obj d 0) with 0. lia. }
  destruct (cut_spec obj d a) as (Ha1 & _ & Ha3); [lia|].
  destruct (cut_spec obj d b) as (Hb1 & Hb2 & _); [lia|].
  destruct Hb2 as [|[|[_ Hb2]]]; [lia..|].
  destruct (decide (cut obj d b < cut obj d a)); [|lia]. exfalso.
  apply (Ha3 ltac:(lia) (Z.to_nat (cut obj d b - 1))); [lia|done].
Qed.

Lemma StronglySorted_seq (f : nat -> Z) n : forall k,
  (forall i j, (k <= i)%nat -> (i <= j < k + n)%nat -> f i <= f j) ->
  StronglySorted Z.le (f <$> seq k n).
Proof.
  induction n as [|n IH]; intros k Hf; cbn; constructor.
  - apply IH. intros i j ? ?. apply Hf; lia.
  - rewrite Forall_fmap, Forall_forall. intros i Hi%elem_of_seq. cbn. apply Hf; lia.
Qed.

(** The cuts at a tiling's boundaries. *)
Lemma tile_cuts obj target d :
  0 < target -> 0 < Z.of_nat (length obj) ->
  let rs := tile (Z.of_nat (length obj)) target d in
  let cs := cut obj d ∘ sr_end <$> rs in
  StronglySorted Z.le (0 :: cs) /\ Forall (cut_point obj d) cs /\
  last (0 :: cs) = Some (Z.of_nat (length obj)) /\
  cut obj d ∘ sr_start <$> rs = take (length rs) (0 :: cs) /\
  Forall (fun r => 0 <= sr_start r < sr_end r /\ sr_end r <= Z.of_nat (length obj) /\
                   sr_delimiter r = d) rs.
Proof.
  intros Ht Hs rs cs. destruct (tile_facts _ target d Ht Hs) as (Hst & Hla & HF).
  fold rs in Hst, Hla, HF. set (size := Z.of_nat (length obj)) in *.
  destruct (tiles_count size target Ht Hs) as [Hn Hb].
  assert (Hle : Forall (fun r => 0 <= sr_start r < sr_end r /\ sr_end r <= size /\
                                 sr_delimiter r = d) rs).
  { unfold rs, tile. rewrite Forall_fmap. apply Forall_forall. intros i Hi%elem_of_seq. cbn.
    assert (Hin : mkRange (boundary size _ (Z.of_nat i)) (boundary size _ (Z.of_nat i + 1)) d ∈ rs)
      by (unfold rs, tile; apply list_elem_of_fmap; exists i; split; [done|]; apply elem_of_seq; lia).
    rewrite Forall_forall in HF. destruct (HF _ Hin) as (H1 & _). cbn in H1.
    split_and!; [|done|..|done].
    - rewrite <- (boundary_0 size ((size + target - 1) / target)). apply boundary_mono; lia.
    - rewrite <- (boundary_n size ((size + target - 1) / target)) at 3 by done.
      apply boundary_mono; lia. }
  assert (Hcs : forall x, 0 <= x <= size -> cut_point obj d (cut obj d x)).
  { intros x Hx. destruct (cut_spec obj d x Hx) as (H1 & H2 & _). split; [unfold size in *; lia|done]. }
  assert (Hlast : last cs = Some size).
  { unfold cs. rewrite list_fmap_compose, fmap_last, Hla. cbn. f_equal.
    destruct (cut_spec obj d size ltac:(unfold size; lia)) as (H1 & _). unfold size in *. lia. }
  split_and!; try done.
  - constructor.
    + unfold cs, rs, tile. rewrite <- list_fmap_compose. apply StronglySorted_seq.
      intros i j _ Hj. cbn. apply cut_mono; [|fold size].
      * rewrite <- (boundary_0 size ((size + target - 1) / target)).
        split; apply boundary_mono; lia.
      * rewrite <- (boundary_n size ((size + target - 1) / target)) at 3 by done.
        apply boundary_mono; lia.
    + unfold cs. rewrite Forall_fmap. eapply Forall_impl; [exact Hle|].
      intros r (? & ? & ?). destruct (Hcs (sr_end r)) as [? _]; unfold compose; lia.
  - unfold cs. rewrite Forall_fmap. eapply Forall_impl; [exact Hle|].
    intros r (? & ? & ?). apply Hcs. lia.
  - destruct cs; [done|]. exact Hlast.
  - rewrite list_fmap_compose, Hst. unfold cs. rewrite list_fmap_compose, fmap_take. done.
Qed.

(** C8: reading an object range by range yields its records exactly once, in
    order. For any framer that keeps the contract, the tiles of an object are
    read without error whatever the window sizes, their owned bytes are the
    object's bytes, and framing each tile on its own yields the framing of the
    whole object, errors included. *)
Theorem tiles_frame_whole {F} `{HRF : RecordFramer F} (f0 : F) `{HL : !FramerLaws f0}
    (obj : list Z) (target d rb cb : Z) :
  framer_resync_delimiter f0 = Some d -> (frame (f0 := f0) [d]).2 = true ->
  0 < target -> 0 < Z.of_nat (length obj) <= U64_MAX ->
  exists owned, reads obj rb cb (tile (Z.of_nat (length obj)) target d) owned /\
    concat owned = obj /\ frame_each f0 owned = frame (f0 := f0) obj.
Proof.
  intros Hd Hlone Ht [Hs Hw].
  destruct (tile_cuts obj target d Ht Hs) as (Hso & Hcp & Hla & Hst & Hle).
  set (rs := tile _ target d) in *. set (cs := cut obj d ∘ sr_end <$> rs) in *.
  exists (zip_with (sub_bytes obj) (0 :: cs) cs). split_and!.
  - assert (Hz : zip_with (sub_bytes obj) (0 :: cs) cs =
      (fun r => sub_bytes obj (cut obj d (sr_start r)) (cut obj d (sr_end r))) <$> rs).
    { assert (Hlen : length cs = length rs) by apply length_fmap.
      rewrite <- (take_drop (length rs) (0 :: cs)) at 1. rewrite <- Hst.
      rewrite <- (app_nil_r cs) at 2. rewrite zip_with_app by (by rewrite Hlen, length_fmap).
      rewrite zip_with_nil_r, app_nil_r. unfold cs. clear.
      induction rs as [|r rs IH]; cbn; [done|]. f_equal. exact IH. }
    unfold reads. rewrite Hz, Forall2_fmap_r. apply Forall_Forall2_diag.
    eapply Forall_impl; [exact Hle|]. intros r (H1 & H2 & ->). by apply read_range_spec.
  - rewrite concat_cuts by (done || lia). apply sub_bytes_all.
  - rewrite (frame_cuts f0 obj d Hd Hlone) by (done || lia). by rewrite sub_bytes_all.
Qed.

Lemma tiles_frame_whole_witness :
  let obj := [97; 10; 98; 99; 10; 100] in
  exists owned, reads obj 1 1 (tile 6 2 10) owned /\
    concat owned = obj /\
    frame_each (ndjson_new 8)
      (FramerLaws0 := NdjsonFramer_laws 8 ltac:(lia)) owned = ([[97]; [98; 99]; [100]], true).
Proof.
  exact (tiles_frame_whole (ndjson_new 8) (HL := NdjsonFramer_laws 8 ltac:(lia))
    [97; 10; 98; 99; 10; 100] 2 10 1 1 eq_refl eq_refl ltac:(lia)
    ltac:(vm_compute; split; congruence)).
Defined.
