(* ===== verification/S3Offset.v ===== *)
(** * Composite offsets and unit descriptors of the object-store source
    ([spate-s3/src/offset.rs], [spate-s3/src/split.rs])

    [Position] packs an object ordinal and a record index into the [i64]
    offset space the checkpointer works in. [SplitDescriptor] is the wire form
    of a unit; JSON is a parameter. *)

From stdpp Require Import base list.
From Stdlib Require Import ZArith Lia.
From S2P Require Import Prelude S3Split.

Definition RECORD_BITS : Z := 40.
Definition ORDINAL_BITS : Z := 23.
Definition RECORD_MASK : Z := Z.shiftl 1 RECORD_BITS - 1.
Definition MAX_ORDINAL : Z := Z.shiftl 1 ORDINAL_BITS - 1.
Definition MAX_RECORD_INDEX : Z := RECORD_MASK - 1.

(** A decoded position; [ordinal] is a [u32] and [record] a [u64]. *)
Record Position := mkPosition {
  ordinal : Z;
  record : Z;
}.

Inductive OffsetOverflow :=
  | OrdinalSpace (at_ : Position)
  | RecordSpace (at_ : Position).

(** [Position::encode]. *)
Definition encode (p : Position) : OffsetOverflow + Z :=
  if bool_decide (MAX_ORDINAL < ordinal p) then inl (OrdinalSpace p)
  else if bool_decide (MAX_RECORD_INDEX + 1 < record p) then inl (RecordSpace p)
  else inr (wrap_i64 (Z.lor (Z.shiftl (ordinal p) RECORD_BITS) (record p))).

(** [Position::decode]. *)
Definition decode (offset : Z) : Position :=
  mkPosition (wrap_u32 (Z.shiftr offset RECORD_BITS)) (Z.land offset RECORD_MASK).

(** A position whose fields are in the types' ranges. *)
Definition wf_position (p : Position) : Prop := is_u32 (ordinal p) /\ is_u64 (record p).

(** The order of positions: by object, then by record. *)
Definition pos_lt (p q : Position) : Prop :=
  ordinal p < ordinal q \/ ordinal p = ordinal q /\ record p < record q.

Lemma encode_value p :
  0 <= ordinal p <= MAX_ORDINAL -> 0 <= record p <= MAX_RECORD_INDEX + 1 ->
  encode p = inr (ordinal p * 2 ^ 40 + record p) /\
  0 <= ordinal p * 2 ^ 40 + record p <= I64_MAX.
Proof.
  intros Ho Hr. unfold MAX_RECORD_INDEX, MAX_ORDINAL, RECORD_MASK, ORDINAL_BITS, RECORD_BITS in *.
  rewrite Z.shiftl_mul_pow2 in * by lia.
  assert (Hb : 0 <= ordinal p * 2 ^ 40 + record p <= I64_MAX) by (unfold_int; lia).
  split; [|done]. unfold encode, MAX_RECORD_INDEX, MAX_ORDINAL, RECORD_MASK, ORDINAL_BITS, RECORD_BITS.
  rewrite !Z.shiftl_mul_pow2 by lia. rewrite !bool_decide_false by lia.
  rewrite <- Z.add_nocarry_lor.
  - f_equal. apply wrap_i64_small. unfold_int; lia.
  - apply Z.bits_inj'. intros i Hi. rewrite Z.land_spec, Z.bits_0.
    destruct (Z_lt_le_dec i 40).
    + by rewrite Z.mul_pow2_bits_low by lia.
    + rewrite (Z.bits_above_log2 (record p)), andb_false_r; [done|lia|].
      destruct (decide (record p = 0)) as [->|]; [cbn; lia|].
      apply Z.log2_lt_pow2; [lia|]. apply (Z.lt_le_trans _ (2 ^ 40)); [lia|].
      apply Z.pow_le_mono_r; lia.
Qed.

Lemma encode_inr p v :
  wf_position p -> encode p = inr v ->
  v = ordinal p * 2 ^ 40 + record p /\ 0 <= v <= I64_MAX /\
  0 <= ordinal p < 2 ^ 23 /\ 0 <= record p < 2 ^ 40.
Proof.
  intros [Ho Hr] He. unfold_int.
  assert (Hlim : ordinal p <= MAX_ORDINAL /\ record p <= MAX_RECORD_INDEX + 1).
  { unfold encode in He. repeat case_bool_decide; try done. lia. }
  destruct (encode_value p ltac:(lia) ltac:(lia)) as [He' Hb]. rewrite He' in He.
  injection He as <-. unfold MAX_ORDINAL, MAX_RECORD_INDEX, RECORD_MASK, ORDINAL_BITS, RECORD_BITS in Hlim.
  rewrite !Z.shiftl_mul_pow2 in Hlim by lia. split_and!; try lia.
Qed.

(** composite offsets. Encoding a position of the types' ranges succeeds
    exactly when both fields fit; the offset decodes to the position, offsets
    are ordered as positions are, and the committable position after an
    emittable record, one past its offset, is the next record of the same
    object. *)
Theorem offset_roundtrip_ordered (p q : Position) (v w : Z) :
  wf_position p -> wf_position q -> encode p = inr v -> encode q = inr w ->
  decode v = p /\ 0 <= v <= I64_MAX /\ (v < w <-> pos_lt p q) /\
  (record p <= MAX_RECORD_INDEX ->
     encode (mkPosition (ordinal p) (record p + 1)) = inr (wrap_i64 (v + 1))).
Proof.
  intros Hp Hq Hv Hw.
  destruct (encode_inr p v Hp Hv) as (-> & Hvb & Hpo & Hpr).
  destruct (encode_inr q w Hq Hw) as (-> & Hwb & Hqo & Hqr).
  split_and!; try lia.
  - unfold decode. destruct p as [o r]. cbn in *. f_equal.
    + unfold RECORD_BITS. rewrite Z.shiftr_div_pow2 by lia.
      rewrite Z.div_add_l, Z.div_small by lia. rewrite wrap_u32_small by (unfold_int; lia). lia.
    + change RECORD_MASK with (Z.ones 40). rewrite Z.land_ones by lia.
      rewrite Z.add_comm, Z.mod_add, Z.mod_small by lia. done.
  - unfold pos_lt. lia.
  - intros Hr. unfold MAX_RECORD_INDEX, RECORD_MASK, RECORD_BITS in Hr.
    rewrite Z.shiftl_mul_pow2 in Hr by lia.
    destruct (encode_value (mkPosition (ordinal p) (record p + 1))) as [-> Hb];
      unfold MAX_RECORD_INDEX, MAX_ORDINAL, RECORD_MASK, ORDINAL_BITS, RECORD_BITS in *;
      cbn [ordinal record] in *; rewrite ?Z.shiftl_mul_pow2 in * by lia; try lia.
    f_equal. rewrite wrap_i64_small; unfold_int; lia.
Qed.

Lemma offset_roundtrip_ordered_witness :
  decode 3298534883335 = mkPosition 3 7 /\ 0 <= 3298534883335 <= I64_MAX /\
  (3298534883335 < 4398046511104 <-> pos_lt (mkPosition 3 7) (mkPosition 4 0)) /\
  (record (mkPosition 3 7) <= MAX_RECORD_INDEX ->
     encode (mkPosition 3 (7 + 1)) = inr (wrap_i64 (3298534883335 + 1))).
Proof.
  apply (offset_roundtrip_ordered (mkPosition 3 7) (mkPosition 4 0));
    solve [reflexivity | split; vm_compute; split; discriminate].
Defined.

(** ** Unit descriptors *)

Definition DESCRIPTOR_VERSION : Z := 2.

(** Keys and ETags are byte strings. *)
Record DescriptorObject := mkObject {
  key : list Z;
  size : Z;
  etag : option (list Z);
  last_modified_ms : Z;
}.

Record SplitDescriptor := mkDescriptor {
  v : Z;
  objects : list DescriptorObject;
  range : option SplitRange;
}.

Inductive SplitError :=
  | BadVersion (got : Z)
  | NotJson
  | NotDescriptor
  | RangeMembers (n : nat)
  | RangeNoEtag (key : list Z)
  | RangeBounds (r : SplitRange) (size : Z).

(** [SplitDescriptor::new] and [with_range]. *)
Definition descriptor_new (os : list DescriptorObject) : SplitDescriptor :=
  mkDescriptor DESCRIPTOR_VERSION os None.
Definition with_range (o : DescriptorObject) (r : SplitRange) : SplitDescriptor :=
  mkDescriptor DESCRIPTOR_VERSION [o] (Some r).

(** [SplitDescriptor::validate_range]. *)
Definition validate_range (d : SplitDescriptor) : option SplitError :=
  match range d with
  | None => None
  | Some r =>
      match objects d with
      | [o] =>
          match etag o with
          | None => Some (RangeNoEtag (key o))
          | Some _ =>
              if bool_decide (sr_end r <= sr_start r) || bool_decide (size o < sr_end r)
              then Some (RangeBounds r (size o)) else None
          end
      | os => Some (RangeMembers (length os))
      end
  end.

Section descriptor.
(** [serde_json::to_vec] of a descriptor, and [from_slice] of the version
    probe and of the whole descriptor. *)
Context (to_vec : SplitDescriptor -> list Z) (probe : list Z -> option Z)
  (from_slice : list Z -> option SplitDescriptor).

(** [SplitDescriptor::encode]. *)
Definition descriptor_encode (d : SplitDescriptor) : SplitError + list Z :=
  if bool_decide (v d <> DESCRIPTOR_VERSION) then inl (BadVersion (v d))
  else match validate_range d with
       | Some e => inl e
       | None => inr (to_vec d)
       end.

(** [SplitDescriptor::decode]. *)
Definition descriptor_decode (bytes : list Z) : SplitError + SplitDescriptor :=
  match probe bytes with
  | None => inl NotJson
  | Some pv =>
      if bool_decide (pv <> DESCRIPTOR_VERSION) then inl (BadVersion pv)
      else match from_slice bytes with
           | None => inl NotDescriptor
           | Some d =>
               match validate_range d with
               | Some e => inl e
               | None => inr d
               end
           end
  end.
End descriptor.

(** JSON as the descriptor uses it: what is written reads back, whole and
    through the version probe. *)
Definition json_roundtrips (to_vec : SplitDescriptor -> list Z) (probe : list Z -> option Z)
    (from_slice : list Z -> option SplitDescriptor) : Prop :=
  forall d, from_slice (to_vec d) = Some d /\ probe (to_vec d) = Some (v d).

(** descriptors cross processes intact. Encoding is refused exactly for a
    foreign version or a range that is not of one pinned object within its
    bounds; an encoded descriptor decodes to itself. *)
Theorem descriptor_roundtrip to_vec probe from_slice (d : SplitDescriptor) :
  json_roundtrips to_vec probe from_slice ->
  match descriptor_encode to_vec d with
  | inr bytes => descriptor_decode probe from_slice bytes = inr d
  | inl _ => v d <> DESCRIPTOR_VERSION \/
      exists r, range d = Some r /\
        ~ (exists o, objects d = [o] /\ is_Some (etag o) /\ sr_start r < sr_end r <= size o)
  end.
Proof.
  intros Hj. destruct (Hj d) as [Hf Hp]. unfold descriptor_encode.
  case_bool_decide as Hv; [by left|].
  destruct (validate_range d) eqn:Hr.
  - right. unfold validate_range in Hr. destruct (range d) as [r|]; [|done].
    exists r. split; [done|]. intros (o & Ho & [t Ht] & Hb). rewrite Ho, Ht in Hr.
    by rewrite !bool_decide_false in Hr by lia.
  - unfold descriptor_decode. rewrite Hp, Hf, Hr.
    by rewrite bool_decide_false by (by intros []).
Qed.

(** An encoding that keeps every field, in place of JSON. *)
Definition toy_object (o : DescriptorObject) : list Z :=
  [Z.of_nat (length (key o))] ++ key o ++ [size o; last_modified_ms o] ++
  match etag o with None => [0] | Some t => 1 :: Z.of_nat (length t) :: t end.

Fixpoint toy_read (n : nat) (l : list Z) : option (list DescriptorObject) :=
  match n, l with
  | O, _ => Some []
  | S n, len :: l =>
      let k := take (Z.to_nat len) l in
      match drop (Z.to_nat len) l with
      | sz :: lm :: 0 :: l => cons (mkObject k sz None lm) <$> toy_read n l
      | sz :: lm :: 1 :: tl :: l =>
          cons (mkObject k sz (Some (take (Z.to_nat tl) l)) lm) <$> toy_read n (drop (Z.to_nat tl) l)
      | _ => None
      end
  | _, _ => None
  end.

Definition toy_vec (d : SplitDescriptor) : list Z :=
  v d :: match range d with
         | None => [0]
         | Some r => [1; sr_start r; sr_end r; sr_delimiter r]
         end ++ Z.of_nat (length (objects d)) :: concat (toy_object <$> objects d).

Definition toy_slice (l : list Z) : option SplitDescriptor :=
  match l with
  | w :: 0 :: n :: l => (fun os => mkDescriptor w os None) <$> toy_read (Z.to_nat n) l
  | w :: 1 :: a :: b :: c :: n :: l =>
      (fun os => mkDescriptor w os (Some (mkRange a b c))) <$> toy_read (Z.to_nat n) l
  | _ => None
  end.

Definition toy_probe (l : list Z) : option Z := head l.

Lemma toy_read_objects os : toy_read (length os) (concat (toy_object <$> os)) = Some os.
Proof.
  induction os as [|[k s t m] os IH]; [done|].
  rewrite fmap_cons. cbn [length concat]. unfold toy_object at 1. cbn [key size etag last_modified_ms].
  rewrite <- !app_assoc. cbn [app toy_read].
  rewrite Nat2Z.id, take_app_length, drop_app_length.
  destruct t as [t|]; cbn [app]; [|by rewrite IH].
  by rewrite Nat2Z.id, take_app_length, drop_app_length, IH.
Qed.

Lemma toy_roundtrips : json_roundtrips toy_vec toy_probe toy_slice.
Proof.
  intros [w os [[a b c]|]]; split; try done; unfold toy_vec, toy_slice; cbn [v range objects];
    cbn [app sr_start sr_end sr_delimiter]; by rewrite Nat2Z.id, toy_read_objects.
Qed.

Lemma descriptor_roundtrip_witness :
  let d := with_range (mkObject [97] 10 (Some [98]) 5) (mkRange 0 10 10) in
  descriptor_decode toy_probe toy_slice (toy_vec d) = inr d.
Proof. intros d. exact (descriptor_roundtrip toy_vec toy_probe toy_slice d toy_roundtrips). Defined.
