(* ===== verification/KafkaFrame.v ===== *)
(** * Message framing of the Kafka sink ([spate-kafka/src/sink/frame.rs])

    [write_message] on the encoder's side, [FrameParser] on the writer's. A
    buffer is the list of its bytes; the parser threads its offset through a
    small error monad. *)

From stdpp Require Import base list strings.
From Stdlib Require Import ZArith Lia.
From S2P Require Import Prelude.

Definition FLAG_HAS_KEY : Z := 1.
Definition FLAG_TOMBSTONE : Z := 2.
Definition KNOWN_FLAGS : Z := Z.lor FLAG_HAS_KEY FLAG_TOMBSTONE.

Inductive FrameError :=
  | TooLong (what : string) (len : Z)
  | Corrupt (offset : Z) (reason : string).

(** One message; [payload = None] is a tombstone. Parsed messages borrow the
    frame, so [MessageRef] is the same data. *)
Record MessageRef := mkMessage {
  key : option (list Z);
  headers : list (list Z * list Z);
  payload : option (list Z);
}.

(** ** Writing *)

(** A write to the buffer that can fail part way: the bytes appended stay. *)
Definition Write : Type := list Z -> list Z * option FrameError.

Definition then_write (w1 w2 : Write) : Write := fun buf =>
  match w1 buf with
  | (buf, None) => w2 buf
  | (buf, Some e) => (buf, Some e)
  end.

Definition put (bytes : list Z) : Write := fun buf => (buf ++ bytes, None).
Definition put_u32_le (n : Z) : Write := put (le_bytes 4 n).

(** [put_section]. *)
Definition put_section (what : string) (bytes : list Z) : Write := fun buf =>
  let len := Z.of_nat (length bytes) in
  if bool_decide (len <= U32_MAX)
  then then_write (put_u32_le len) (put bytes) buf
  else (buf, Some (TooLong what len)).

(** The loop over the headers. *)
Fixpoint put_headers (hs : list (list Z * list Z)) : Write :=
  match hs with
  | [] => put []
  | (name, value) :: hs =>
      then_write (put_section "header name" name)
        (then_write (put_section "header value" value) (put_headers hs))
  end.

(** The flags byte of a message. *)
Definition flags_of (m : MessageRef) : Z :=
  let flags := 0 in
  let flags := match key m with Some _ => Z.lor flags FLAG_HAS_KEY | None => flags end in
  match payload m with None => Z.lor flags FLAG_TOMBSTONE | Some _ => flags end.

(** [write_message]. *)
Definition write_message (m : MessageRef) : Write :=
  then_write (put [flags_of m])
    (then_write (match key m with Some k => put_section "key" k | None => put [] end)
      (then_write
        (fun buf =>
           let count := Z.of_nat (length (headers m)) in
           if bool_decide (count <= U32_MAX) then put_u32_le count buf
           else (buf, Some (TooLong "header count" count)))
        (then_write (put_headers (headers m))
          (match payload m with Some p => put_section "payload" p | None => put [] end)))).

(** ** Parsing *)

Record FrameParser := mkParser {
  fp_buf : list Z;
  fp_offset : Z;
  poisoned : bool;
}.

(** [FrameParser::new]. *)
Definition parser_new (frame : list Z) : FrameParser := mkParser frame 0 false.

(** Parsing steps: they advance the offset or fail where they stand. *)
Definition Parse (A : Type) : Type := FrameParser -> (FrameError + A) * FrameParser.

Definition pret {A} (x : A) : Parse A := fun p => (inr x, p).
Definition pfail {A} (e : FrameError) : Parse A := fun p => (inl e, p).
Definition pbind {A B} (m : Parse A) (k : A -> Parse B) : Parse B := fun p =>
  match m p with
  | (inr x, p) => k x p
  | (inl e, p) => (inl e, p)
  end.

Declare Scope parse_scope.
Notation "'plet' x := m 'in' k" := (pbind m (fun x => k))
  (at level 10, x pattern, m at level 100, k at level 200) : parse_scope.
Open Scope parse_scope.

(** [FrameParser::take]. *)
Definition take_bytes (n : Z) (reason : string) : Parse (list Z) := fun p =>
  let start := fp_offset p in
  let e := start + n in
  if bool_decide (e <= U64_MAX) && bool_decide (e <= Z.of_nat (length (fp_buf p)))
  then (inr (take (Z.to_nat n) (drop (Z.to_nat start) (fp_buf p))),
        mkParser (fp_buf p) e (poisoned p))
  else (inl (Corrupt start reason), p).

(** [FrameParser::take_u32] and [take_section]. *)
Definition take_u32 (reason : string) : Parse Z :=
  plet bytes := take_bytes 4 reason in pret (le_val bytes).

Definition take_section (reason : string) : Parse (list Z) :=
  plet len := take_u32 reason in take_bytes len reason.

Definition offset_now : Parse Z := fun p => (inr (fp_offset p), p).

(** The [for] loop over the header count. *)
Fixpoint parse_headers (count : nat) : Parse (list (list Z * list Z)) :=
  match count with
  | O => pret []
  | S count =>
      plet name_offset := offset_now in
      plet name := take_section "truncated header name" in
      if valid_utf8 name
      then plet value := take_section "truncated header value" in
           plet rest := parse_headers count in
           pret ((name, value) :: rest)
      else pfail (Corrupt name_offset "header name is not UTF-8")
  end.

(** [FrameParser::parse_one]. *)
Definition parse_one : Parse MessageRef :=
  plet flag_offset := offset_now in
  plet first := take_bytes 1 "truncated flags byte" in
  let flags := default 0 (head first) in
  if bool_decide (Z.land flags (Z.lxor KNOWN_FLAGS 255) <> 0)
  then pfail (Corrupt flag_offset "unknown flag bits set")
  else
    plet k := (if bool_decide (Z.land flags FLAG_HAS_KEY <> 0)
               then plet k := take_section "truncated key" in pret (Some k)
               else pret None) in
    plet count := take_u32 "truncated header count" in
    plet hs := parse_headers (Z.to_nat count) in
    plet pl := (if bool_decide (Z.land flags FLAG_TOMBSTONE <> 0)
                then pret None
                else plet pl := take_section "truncated payload" in pret (Some pl)) in
    pret (mkMessage k hs pl).

(** [<FrameParser as Iterator>::next]. *)
Definition next (p : FrameParser) : option (FrameError + MessageRef) * FrameParser :=
  if poisoned p || bool_decide (fp_offset p = Z.of_nat (length (fp_buf p))) then (None, p)
  else match parse_one p with
       | (inr m, p) => (Some (inr m), p)
       | (inl e, p) => (Some (inl e), mkParser (fp_buf p) (fp_offset p) true)
       end.

(** Iterating to exhaustion; [None] when [fuel] items were not enough. *)
Fixpoint collect (fuel : nat) (p : FrameParser) : option (list (FrameError + MessageRef)) :=
  match next p with
  | (None, _) => Some []
  | (Some x, p) =>
      match fuel with
      | O => None
      | S fuel => cons x <$> collect fuel p
      end
  end.

(** Everything a frame's parser yields: a message takes at least a byte. *)
Definition parse_frame (frame : list Z) : option (list (FrameError + MessageRef)) :=
  collect (S (length frame)) (parser_new frame).

(** ** What a message is written as *)

Definition section_bytes (bytes : list Z) : list Z :=
  le_bytes 4 (Z.of_nat (length bytes)) ++ bytes.

Definition fits (bytes : list Z) : Prop := Z.of_nat (length bytes) <= U32_MAX.

Definition header_bytes (h : list Z * list Z) : list Z := section_bytes h.1 ++ section_bytes h.2.

Definition opt_section (o : option (list Z)) : list Z :=
  match o with Some b => section_bytes b | None => [] end.

Definition message_bytes (m : MessageRef) : list Z :=
  flags_of m :: opt_section (key m) ++ le_bytes 4 (Z.of_nat (length (headers m))) ++
  concat (header_bytes <$> headers m) ++ opt_section (payload m).

(** Every section and the header count fit the format's [u32]s. *)
Record message_fits (m : MessageRef) : Prop := mk_message_fits {
  mf_key : forall k, key m = Some k -> fits k;
  mf_count : Z.of_nat (length (headers m)) <= U32_MAX;
  mf_headers : Forall (fun h => fits h.1 /\ fits h.2) (headers m);
  mf_payload : forall p, payload m = Some p -> fits p;
}.

Lemma then_write_inv w1 w2 buf buf' :
  then_write w1 w2 buf = (buf', None) <->
  exists b, w1 buf = (b, None) /\ w2 b = (buf', None).
Proof.
  unfold then_write. destruct (w1 buf) as [b [e|]]; split.
  - done.
  - intros (b' & [=] & _).
  - eauto.
  - by intros (b' & [= <-] & H).
Qed.

Lemma put_section_inv what bytes buf buf' :
  put_section what bytes buf = (buf', None) <->
  fits bytes /\ buf' = buf ++ section_bytes bytes.
Proof.
  unfold put_section, fits. case_bool_decide; [|split; [done|]; by intros [? _]].
  unfold then_write, put_u32_le, put, section_bytes. rewrite <- app_assoc.
  split; [by intros [= <-]|]. by intros [_ ->].
Qed.

Lemma put_opt_inv what o buf buf' :
  (match o with Some b => put_section what b | None => put [] end) buf = (buf', None) <->
  (forall b, o = Some b -> fits b) /\ buf' = buf ++ opt_section o.
Proof.
  destruct o as [b|]; cbn [opt_section].
  - rewrite put_section_inv. split; intros [H ->]; split; auto. by intros ? [= <-].
  - unfold put. split; [by intros [= <-]|]. by intros [_ ->].
Qed.

Lemma put_headers_inv hs : forall buf buf',
  put_headers hs buf = (buf', None) <->
  Forall (fun h => fits h.1 /\ fits h.2) hs /\ buf' = buf ++ concat (header_bytes <$> hs).
Proof.
  induction hs as [|[n v] hs IH]; intros buf buf'; cbn [put_headers].
  { unfold put. split; [by intros [= <-]|]. by intros [_ ->]. }
  rewrite then_write_inv. setoid_rewrite then_write_inv. setoid_rewrite put_section_inv.
  setoid_rewrite IH. rewrite Forall_cons, fmap_cons. cbn [concat].
  change (header_bytes (n, v)) with (section_bytes n ++ section_bytes v). split.
  - intros (b1 & [H1 ->] & b2 & [H2 ->] & H3 & ->). split; [done|]. by rewrite <- !app_assoc.
  - intros [[[H1 H2] H3] ->]. eexists. split; [done|]. eexists. split; [done|].
    split; [done|]. by rewrite <- !app_assoc.
Qed.

(** [write_message] succeeds exactly when every section fits, and then appends
    the message's bytes. *)
Lemma write_message_inv m buf buf' :
  write_message m buf = (buf', None) <-> message_fits m /\ buf' = buf ++ message_bytes m.
Proof.
  unfold write_message. rewrite !then_write_inv. setoid_rewrite then_write_inv.
  setoid_rewrite put_opt_inv. setoid_rewrite then_write_inv. setoid_rewrite then_write_inv.
  setoid_rewrite put_headers_inv. setoid_rewrite put_opt_inv. unfold message_bytes. split.
  - intros (b0 & [= <-] & b1 & [Hk ->] & b2 & Hc & b3 & [Hh ->] & Hp & ->).
    case_bool_decide; [|done]. unfold put_u32_le, put in Hc. injection Hc as <-.
    split; [by split|]. by rewrite <- !app_assoc.
  - intros [[Hk Hc Hh Hp] ->]. eexists. split; [done|]. eexists. split; [done|].
    rewrite bool_decide_true by done. eexists. split; [done|]. eexists. split; [done|].
    split; [done|]. by rewrite <- !app_assoc.
Qed.

(** ** Parsing back *)

(** [m] reads exactly the bytes [x], wherever they stand, and returns [v]. *)
Definition takes {A} (m : Parse A) (v : A) (x : list Z) : Prop :=
  forall pre post b, Z.of_nat (length (pre ++ x ++ post)) <= U64_MAX ->
    m (mkParser (pre ++ x ++ post) (Z.of_nat (length pre)) b) =
      (inr v, mkParser (pre ++ x ++ post) (Z.of_nat (length (pre ++ x))) b).

Lemma takes_ret {A} (v : A) : takes (pret v) v [].
Proof. intros pre post b _. unfold pret. by rewrite app_nil_r. Qed.

Lemma takes_bind {A B} (m : Parse A) (k : A -> Parse B) v w x y :
  takes m v x -> takes (k v) w y -> takes (pbind m k) w (x ++ y).
Proof.
  intros Hm Hk pre post b Hlen. unfold pbind. rewrite <- !app_assoc in *.
  rewrite (Hm pre (y ++ post)) by done. specialize (Hk (pre ++ x) post b).
  rewrite <- !app_assoc in Hk. by apply Hk.
Qed.

Lemma takes_take x reason n :
  Z.of_nat (length x) = n -> takes (take_bytes n reason) x x.
Proof.
  intros <- pre post b Hlen. unfold take_bytes. cbn [fp_offset fp_buf poisoned].
  rewrite !length_app in *.
  rewrite !bool_decide_true by lia. cbn [andb].
  rewrite !Nat2Z.id, drop_app_length, take_app_length. do 2 f_equal. lia.
Qed.

Lemma takes_u32 n reason : 0 <= n <= U32_MAX -> takes (take_u32 reason) n (le_bytes 4 n).
Proof.
  intros Hn. unfold take_u32. rewrite <- (app_nil_r (le_bytes 4 n)).
  eapply takes_bind; [apply takes_take; by rewrite le_bytes_length|].
  rewrite <- (le_val_bytes 4 n) at 2; [apply takes_ret|]. unfold_int. cbn. lia.
Qed.

Lemma takes_section bytes reason :
  fits bytes -> takes (take_section reason) bytes (section_bytes bytes).
Proof.
  intros Hf. unfold take_section, section_bytes. unfold fits in Hf.
  eapply takes_bind; [apply takes_u32; lia|by apply takes_take].
Qed.

Lemma takes_opt o reason :
  (forall b, o = Some b -> fits b) ->
  takes (if bool_decide (is_Some o) then pbind (take_section reason) (fun k => pret (Some k))
         else pret None) o (opt_section o).
Proof.
  destruct o as [b|]; intros Hf.
  2:{ rewrite bool_decide_false by (by intros [? [=]]). apply takes_ret. }
  rewrite bool_decide_true by eauto. cbn [opt_section].
  rewrite <- (app_nil_r (section_bytes b)). eapply takes_bind; [|apply takes_ret].
  apply takes_section. by apply Hf.
Qed.

Lemma takes_offset {A} (k : Z -> Parse A) v x :
  (forall o, takes (k o) v x) -> takes (pbind offset_now k) v x.
Proof. intros H pre post b Hlen. unfold pbind, offset_now. by apply H. Qed.

Lemma takes_headers hs :
  Forall (fun h => fits h.1 /\ fits h.2) hs -> Forall (fun h => valid_utf8 h.1 = true) hs ->
  takes (parse_headers (length hs)) hs (concat (header_bytes <$> hs)).
Proof.
  induction hs as [|[n v] hs IH]; intros Hf Hu; cbn [length parse_headers]; [apply takes_ret|].
  apply Forall_cons in Hf as [[Hn Hv] Hf]. apply Forall_cons in Hu as [Hun Hu].
  cbn [fst snd] in *. rewrite fmap_cons. cbn [concat].
  change (header_bytes (n, v)) with (section_bytes n ++ section_bytes v).
  rewrite <- app_assoc. apply takes_offset. intros o.
  eapply takes_bind; [by apply takes_section|]. rewrite Hun.
  eapply takes_bind; [by apply takes_section|]. rewrite <- (app_nil_r (concat _)).
  eapply takes_bind; [by apply IH|]. apply takes_ret.
Qed.

Lemma flags_bits m :
  Z.land (flags_of m) (Z.lxor KNOWN_FLAGS 255) = 0 /\
  (Z.land (flags_of m) FLAG_HAS_KEY <> 0 <-> is_Some (key m)) /\
  (Z.land (flags_of m) FLAG_TOMBSTONE <> 0 <-> payload m = None).
Proof.
  unfold flags_of. destruct (key m), (payload m); vm_compute; split_and!; try split;
    try done; try (by intros [? [=]]); by eauto.
Qed.

(** A written message parses back, consuming its bytes. *)
Lemma takes_message m :
  message_fits m -> Forall (fun h => valid_utf8 h.1 = true) (headers m) ->
  takes parse_one m (message_bytes m).
Proof.
  intros [Hk Hc Hh Hp] Hu. destruct (flags_bits m) as (F1 & F2 & F3).
  unfold parse_one, message_bytes. apply takes_offset. intros o.
  change (flags_of m :: ?l) with ([flags_of m] ++ l).
  eapply takes_bind; [by apply takes_take|]. cbn [head default].
  rewrite (bool_decide_false (_ <> 0)) by (by intros []).
  rewrite (bool_decide_ext _ _ F2).
  eapply takes_bind; [by apply takes_opt|].
  eapply takes_bind; [apply takes_u32; lia|]. rewrite Nat2Z.id.
  eapply takes_bind; [by apply takes_headers|].
  rewrite (bool_decide_ext _ _ F3). rewrite <- (app_nil_r (opt_section (payload m))).
  destruct m as [k hs [pl|]]; cbn [payload key headers] in *.
  - rewrite bool_decide_false by done. eapply takes_bind; [|apply takes_ret].
    rewrite <- (app_nil_r (opt_section _)). eapply takes_bind; [|apply takes_ret].
    apply takes_section. by apply Hp.
  - rewrite bool_decide_true by done. eapply takes_bind; [|apply takes_ret].
    apply takes_ret.
Qed.

Lemma message_bytes_nonempty m : (0 < length (message_bytes m))%nat.
Proof. cbn. lia. Qed.

Lemma collect_messages ms : forall pre fuel,
  Z.of_nat (length (pre ++ concat (message_bytes <$> ms))) <= U64_MAX ->
  Forall (fun m => message_fits m /\ Forall (fun h => valid_utf8 h.1 = true) (headers m)) ms ->
  (length ms <= fuel)%nat ->
  collect fuel (mkParser (pre ++ concat (message_bytes <$> ms)) (Z.of_nat (length pre)) false) =
    Some (inr <$> ms).
Proof.
  induction ms as [|m ms IH]; intros pre fuel Hlen HF Hfuel.
  - cbn [fmap list_fmap concat]. rewrite app_nil_r.
    destruct fuel; unfold collect, next; cbn [poisoned fp_offset fp_buf orb];
      by rewrite bool_decide_true by done.
  - apply Forall_cons in HF as [[Hf Hu] HF]. rewrite fmap_cons in *. cbn [concat] in *.
    destruct fuel as [|fuel]; [cbn in Hfuel; lia|].
    pose proof (message_bytes_nonempty m) as Hne.
    cbn [collect]. unfold next. cbn [poisoned fp_offset fp_buf orb].
    rewrite bool_decide_false by (rewrite !length_app; lia).
    rewrite (takes_message m Hf Hu) by done.
    rewrite app_assoc in Hlen. rewrite (app_assoc pre).
    rewrite (IH (pre ++ message_bytes m) fuel Hlen HF) by (cbn in Hfuel; lia). done.
Qed.

(** A chunk's messages, written back to back. *)
Fixpoint write_all (ms : list MessageRef) : Write :=
  match ms with
  | [] => put []
  | m :: ms => then_write (write_message m) (write_all ms)
  end.

Lemma write_all_inv ms : forall buf buf',
  write_all ms buf = (buf', None) <->
  Forall message_fits ms /\ buf' = buf ++ concat (message_bytes <$> ms).
Proof.
  induction ms as [|m ms IH]; intros buf buf'; cbn [write_all].
  { unfold put. split; [by intros [= <-]|]. by intros [_ ->]. }
  rewrite then_write_inv. setoid_rewrite write_message_inv. setoid_rewrite IH.
  rewrite Forall_cons, fmap_cons. cbn [concat]. split.
  - intros (b & [Hf ->] & HF & ->). by rewrite <- app_assoc.
  - intros [[Hf HF] ->]. eexists. split; [done|]. by rewrite <- app_assoc.
Qed.

(** Header names are [str]s. *)
Definition names_utf8 (m : MessageRef) : Prop :=
  Forall (fun h => valid_utf8 h.1 = true) (headers m).

Lemma count_le_bytes ms : (length ms <= length (concat (message_bytes <$> ms)))%nat.
Proof.
  induction ms as [|m ms IH]; [cbn; lia|]. rewrite fmap_cons. cbn [concat length].
  rewrite length_app. pose proof (message_bytes_nonempty m). lia.
Qed.

(** C30: frames round-trip and concatenate. Messages written one after another,
    in any number of writes appended to one buffer, parse back to exactly
    those messages in order, with no error and nothing left over; keys,
    headers, tombstones and empty payloads included. *)
Theorem frame_roundtrip (ms1 ms2 : list MessageRef) (buf1 buf2 : list Z) :
  Forall names_utf8 ms1 -> Forall names_utf8 ms2 ->
  write_all ms1 [] = (buf1, None) -> write_all ms2 [] = (buf2, None) ->
  Z.of_nat (length (buf1 ++ buf2)) <= U64_MAX ->
  parse_frame (buf1 ++ buf2) = Some (inr <$> (ms1 ++ ms2)).
Proof.
  intros U1 U2 [F1 ->]%write_all_inv [F2 ->]%write_all_inv Hlen. cbn [app] in *.
  rewrite <- concat_app, <- fmap_app in *. unfold parse_frame, parser_new.
  apply (collect_messages (ms1 ++ ms2) []); [done| |].
  - apply Forall_app. split; apply Forall_and; by split.
  - pose proof (count_le_bytes (ms1 ++ ms2)). lia.
Qed.

Lemma frame_roundtrip_witness :
  let m1 := mkMessage (Some [1; 2]) [([104], [7])] (Some []) in
  let m2 := mkMessage None [] None in
  exists buf1 buf2, write_all [m1] [] = (buf1, None) /\ write_all [m2] [] = (buf2, None) /\
    parse_frame (buf1 ++ buf2) = Some [inr m1; inr m2].
Proof.
  intros m1 m2. do 2 eexists. split; [reflexivity|]. split; [reflexivity|].
  apply (frame_roundtrip [m1] [m2]); [by repeat constructor..|reflexivity|reflexivity|].
  vm_compute. discriminate.
Defined.

(** ** Arbitrary bytes *)

(** A parsing step keeps the buffer and only moves the offset forward, inside
    the buffer. *)
Definition advances {A} (m : Parse A) : Prop :=
  forall p, 0 <= fp_offset p <= Z.of_nat (length (fp_buf p)) -> Forall is_byte (fp_buf p) ->
    let p' := (m p).2 in
    fp_buf p' = fp_buf p /\ poisoned p' = poisoned p /\
    fp_offset p <= fp_offset p' <= Z.of_nat (length (fp_buf p)).

Lemma advances_bind {A B} (m : Parse A) (k : A -> Parse B) :
  advances m -> (forall x, advances (k x)) -> advances (pbind m k).
Proof.
  intros Hm Hk p Hp HF. specialize (Hm p Hp HF). unfold pbind.
  destruct (m p) as [[e|x] p1]; cbn [snd] in *; [done|].
  destruct Hm as (Hb & Hq & Ho). specialize (Hk x p1). cbn zeta in Hk. rewrite Hb, Hq in Hk.
  destruct Hk as (? & ? & ?); [lia|done|]. split_and!; try done; lia.
Qed.

Lemma advances_ret {A} (x : A) : advances (pret x).
Proof. intros p Hp HF. cbn. split_and!; (done || lia). Qed.

Lemma advances_fail {A} e : advances (pfail (A := A) e).
Proof. intros p Hp HF. cbn. split_and!; (done || lia). Qed.

Lemma advances_offset : advances offset_now.
Proof. intros p Hp HF. cbn. split_and!; (done || lia). Qed.

Lemma advances_take n reason : 0 <= n -> advances (take_bytes n reason).
Proof.
  intros Hn p Hp HF. unfold take_bytes. repeat case_bool_decide; cbn; split_and!; (done || lia).
Qed.

#[export] Hint Resolve advances_bind advances_ret advances_fail advances_offset : spate.

Lemma le_val_nonneg l : Forall is_byte l -> 0 <= le_val l.
Proof. intros H. by apply le_bytes_val. Qed.

(** A [u32] read from bytes is not negative. *)
Lemma advances_u32 {A} reason (k : Z -> Parse A) :
  (forall n, 0 <= n -> advances (k n)) -> advances (pbind (take_u32 reason) k).
Proof.
  intros Hk p Hp HF. unfold pbind at 1, take_u32, pbind, take_bytes.
  repeat case_bool_decide; cbn [andb pret fst snd fp_buf fp_offset poisoned];
    try (split_and!; (done || lia)).
  set (p1 := mkParser (fp_buf p) (fp_offset p + 4) (poisoned p)).
  destruct (Hk (le_val (take (Z.to_nat 4) (drop (Z.to_nat (fp_offset p)) (fp_buf p))))) with p1
    as (? & ? & ?); cbn [p1 fp_buf fp_offset] in *; try done; try lia.
  - apply le_val_nonneg. by apply Forall_take, Forall_drop.
  - split_and!; try done; lia.
Qed.

Lemma advances_section {A} reason (k : list Z -> Parse A) :
  (forall x, advances (k x)) -> advances (pbind (take_section reason) k).
Proof.
  intros Hk. assert (advances (take_section reason)) as H.
  { unfold take_section. apply advances_u32. intros n Hn. by apply advances_take. }
  by apply advances_bind.
Qed.

Lemma advances_headers n : advances (parse_headers n).
Proof.
  induction n as [|n IH]; cbn [parse_headers]; [apply advances_ret|].
  apply advances_bind; [apply advances_offset|]. intros o. apply advances_section. intros name.
  destruct (valid_utf8 name); [|apply advances_fail].
  apply advances_section. intros v. apply advances_bind; [done|]. intros r. apply advances_ret.
Qed.

(** What follows the flags byte. *)
Lemma advances_rest flags :
  advances (
    plet k := (if bool_decide (Z.land flags FLAG_HAS_KEY <> 0)
               then plet k := take_section "truncated key" in pret (Some k)
               else pret None) in
    plet count := take_u32 "truncated header count" in
    plet hs := parse_headers (Z.to_nat count) in
    plet pl := (if bool_decide (Z.land flags FLAG_TOMBSTONE <> 0)
                then pret None
                else plet pl := take_section "truncated payload" in pret (Some pl)) in
    pret (mkMessage k hs pl)).
Proof.
  apply advances_bind.
  { destruct (bool_decide _); [|apply advances_ret]. apply advances_section.
    intros. apply advances_ret. }
  intros k. apply advances_u32. intros n Hn. apply advances_bind; [apply advances_headers|].
  intros hs. apply advances_bind; [|intros; apply advances_ret].
  destruct (bool_decide _); [apply advances_ret|]. apply advances_section.
  intros. apply advances_ret.
Qed.

(** A parsed message moves the offset forward, a failed one keeps the buffer. *)
Lemma parse_one_advances p :
  0 <= fp_offset p <= Z.of_nat (length (fp_buf p)) -> Forall is_byte (fp_buf p) ->
  match parse_one p with
  | (inr _, p') => fp_buf p' = fp_buf p /\ poisoned p' = poisoned p /\
      fp_offset p < fp_offset p' <= Z.of_nat (length (fp_buf p))
  | (inl _, p') => True
  end.
Proof.
  intros Hp HF. destruct (parse_one p) as [[e|m] p'] eqn:E; [done|].
  unfold parse_one, pbind at 1 2, offset_now, take_bytes in E.
  repeat (case_bool_decide; [|done]). cbn [andb] in E.
  destruct (bool_decide _) in E; [done|].
  match type of E with ?m ?p1 = _ => pose proof (advances_rest
    (default 0 (head (take (Z.to_nat 1) (drop (Z.to_nat (fp_offset p)) (fp_buf p))))) p1) as Hr end.
  cbn zeta in Hr. rewrite E in Hr. cbn [fp_buf fp_offset poisoned snd] in Hr.
  destruct Hr as (? & ? & ?); [lia|done|]. split_and!; try done; lia.
Qed.

Lemma collect_total fuel : forall p,
  0 <= fp_offset p <= Z.of_nat (length (fp_buf p)) -> Forall is_byte (fp_buf p) ->
  Z.of_nat (length (fp_buf p)) - fp_offset p < Z.of_nat fuel -> poisoned p = false ->
  exists ms err, collect fuel p = Some ((inr <$> ms) ++ err) /\
    (err = [] \/ exists e, err = [inl e]).
Proof.
  induction fuel as [|fuel IH]; intros p Hp HF Hfuel Hpo; [lia|].
  cbn [collect]. unfold next. rewrite Hpo. cbn [orb]. case_bool_decide as Hend.
  { exists [], []. eauto. }
  pose proof (parse_one_advances p Hp HF) as H. destruct (parse_one p) as [[e|m] p'].
  - exists [], [inl e]. split; [|eauto]. by destruct fuel.
  - destruct H as (Hb & Hq & Ho).
    destruct (IH p') as (ms & err & -> & Herr); rewrite ?Hb; try done; try lia; [congruence|].
    exists (m :: ms), err. eauto.
Qed.

(** the parser is total on any bytes. Iterating it always ends, within as
    many items as the frame has bytes and one more, and yields messages with
    at most one error, at the very end. *)
Theorem parse_frame_total (frame : list Z) :
  Forall is_byte frame ->
  exists ms err, parse_frame frame = Some ((inr <$> ms) ++ err) /\
    (err = [] \/ exists e, err = [inl e]).
Proof.
  intros HF. unfold parse_frame, parser_new. apply collect_total; cbn; try done; lia.
Qed.

Lemma parse_frame_total_witness :
  exists ms err, parse_frame [2; 0; 0; 0; 0; 7] = Some ((inr <$> ms) ++ err) /\
    (err = [] \/ exists e, err = [inl e]).
Proof.
  apply (parse_frame_total [2; 0; 0; 0; 0; 7]). repeat constructor; lia.
Defined.
