(* ===== verification/KafkaInflight.v ===== *)
(** * The Kafka feed's in-flight tracker
    ([spate-kafka/src/feed/inflight.rs])

    [Tracker] with its operations, and the system of a tracker and the
    deliveries its user has not settled. A [FastMap] or [BTreeMap] is a
    [gmap]; its iteration order is arbitrary where the source's is. *)

From stdpp Require Import base list gmap strings.
From Stdlib Require Import ZArith Lia.
From S2P Require Import Prelude.

Record Tp := mkTp {
  topic : string;
  partition : Z;
}.

#[export] Instance Tp_eq_dec : EqDecision Tp.
Proof. solve_decision. Defined.
#[export] Instance Tp_countable : Countable Tp.
Proof.
  refine (inj_countable' (fun t => (topic t, partition t)) (fun '(a, b) => mkTp a b) _).
  by intros [].
Defined.

(** One delivered message. *)
Record Position := mkPosition {
  tp : Tp;
  offset : Z;
  generation : Z;
}.

#[export] Instance Position_eq_dec : EqDecision Position.
Proof. solve_decision. Defined.

(** What the tracker keeps for one owned partition. *)
Record Partition := mkPartition {
  p_generation : Z;
  unfinished : gmap Z Z;
  next : option Z;
  taken : option Z;
}.

(** The smallest key of a [BTreeMap]. *)
Definition opt_min (a b : option Z) : option Z :=
  match a, b with
  | None, b => b
  | a, None => a
  | Some x, Some y => Some (Z.min x y)
  end.
Definition min_key (m : gmap Z Z) : option Z :=
  foldr (fun k acc => opt_min (Some k) acc) None (map_to_list m).*1.

(** [Partition::commit_point]. *)
Definition commit_point (p : Partition) : option Z :=
  match min_key (unfinished p) with
  | Some first => Some (match next p with None => first | Some n => Z.min n first end)
  | None => next p
  end.

Record Tracker := mkTracker {
  t_generation : Z;
  next_receipt : Z;
  partitions : gmap Tp Partition;
  held : gmap Z Position;
}.

(** [Tracker::default]. *)
Definition tracker_new : Tracker := mkTracker 0 0 ∅ ∅.

(** [Tracker::assign]. *)
Definition assign (tps : list Tp) (t : Tracker) : Tracker :=
  let g := wrap_u64 (t_generation t + 1) in
  mkTracker g (next_receipt t)
    (foldl (fun m tp => <[tp := mkPartition g ∅ None None]> m) (partitions t) tps) (held t).

(** [Tracker::revoke]: each partition is removed before its commit point is
    read. *)
Fixpoint revoke_loop (tps : list Tp) (m : gmap Tp Partition)
    : gmap Tp Partition * list (Tp * Z) :=
  match tps with
  | [] => (m, [])
  | tp :: tps =>
      let '(m', out) := revoke_loop tps (delete tp m) in
      (m', match m !! tp with
           | None => out
           | Some p => match commit_point p with
                       | None => out
                       | Some point => (tp, point) :: out
                       end
           end)
  end.

Definition revoke (tps : list Tp) (t : Tracker) : Tracker * list (Tp * Z) :=
  let '(m, out) := revoke_loop tps (partitions t) in
  (mkTracker (wrap_u64 (t_generation t + 1)) (next_receipt t) m (held t), out).

(** [Tracker::unassign_all]. *)
Definition unassign_all (t : Tracker) : Tracker :=
  mkTracker (wrap_u64 (t_generation t + 1)) (next_receipt t) ∅ (held t).

(** [Tracker::deliver]. *)
Definition deliver (tp : Tp) (offset : Z) (t : Tracker) : option Z * Tracker :=
  match partitions t !! tp with
  | None => (None, t)
  | Some p =>
      let copies := default 0 (unfinished p !! offset) in
      let p' := mkPartition (p_generation p)
                  (<[offset := wrap_u32 (copies + 1)]> (unfinished p))
                  (Some (wrap_i64 (offset + 1))) (taken p) in
      let r := wrap_u64 (next_receipt t + 1) in
      (Some r, mkTracker (t_generation t) r (<[tp := p']> (partitions t))
                 (<[r := mkPosition tp offset (p_generation p)]> (held t)))
  end.

(** [Tracker::current]. *)
Definition current (pos : Position) (t : Tracker) : bool :=
  match partitions t !! tp pos with
  | Some p => bool_decide (p_generation p = generation pos)
  | None => false
  end.

(** [Tracker::held]. *)
Definition held_position (receipt : Z) (t : Tracker) : option Position * Tracker :=
  match held t !! receipt with
  | None => (None, t)
  | Some pos =>
      if current pos t then (Some pos, t)
      else (None, mkTracker (t_generation t) (next_receipt t) (partitions t)
                    (delete receipt (held t)))
  end.

(** [Tracker::release]. *)
Definition release (receipt : Z) (t : Tracker) : option Position * Tracker :=
  match held t !! receipt with
  | None => (None, t)
  | Some pos =>
      let t' := mkTracker (t_generation t) (next_receipt t) (partitions t)
                  (delete receipt (held t)) in
      (if current pos t' then Some pos else None, t')
  end.

(** One copy of [offset] finished. *)
Definition finish_copy (offset : Z) (p : Partition) : Partition :=
  match unfinished p !! offset with
  | None => p
  | Some copies =>
      let c := wrap_u32 (copies - 1) in
      mkPartition (p_generation p)
        (if bool_decide (c = 0) then delete offset (unfinished p)
         else <[offset := c]> (unfinished p)) (next p) (taken p)
  end.

(** [Tracker::complete]. *)
Definition complete (pos : Position) (t : Tracker) : bool * Tracker :=
  match partitions t !! tp pos with
  | Some p =>
      if bool_decide (p_generation p = generation pos)
      then (true, mkTracker (t_generation t) (next_receipt t)
                    (<[tp pos := finish_copy (offset pos) p]> (partitions t)) (held t))
      else (false, t)
  | None => (false, t)
  end.

(** [rdkafka::Offset]: a real offset, or one of the logical positions. *)
Inductive Offset := OffsetAt (o : Z) | OffsetLogical.

(** [offset_to_retire] ([spate-kafka/src/client.rs]). *)
Definition offset_to_retire (position : Offset) (covered_to : option Z) : option Z :=
  match position with
  | OffsetLogical => None
  | OffsetAt o => if bool_decide (default 0 covered_to < o) then Some (wrap_i64 (o - 1)) else None
  end.

(** [Tracker::retire_to]. *)
Definition retire_to (tp : Tp) (read_to : Offset) (t : Tracker)
    : option (option Z * Z) * Tracker :=
  match partitions t !! tp with
  | None => (None, t)
  | Some p =>
      match offset_to_retire read_to (next p) with
      | None => (None, t)
      | Some last =>
          let n := wrap_i64 (last + 1) in
          (Some (next p, n),
           mkTracker (t_generation t) (next_receipt t)
             (<[tp := mkPartition (p_generation p) (unfinished p) (Some n) (taken p)]> (partitions t))
             (held t))
      end
  end.

(** Whether [take_commits] returns the partition's point. *)
Definition moved (p : Partition) : option Z :=
  match commit_point p with
  | Some point => if bool_decide (taken p <> Some point) then Some point else None
  | None => None
  end.

(** [Tracker::take_commits]. *)
Definition take_commits (t : Tracker) : list (Tp * Z) * Tracker :=
  (omap (fun x => (fun point => (x.1, point)) <$> moved x.2) (map_to_list (partitions t)),
   mkTracker (t_generation t) (next_receipt t)
     ((fun p => match moved p with
                | Some point => mkPartition (p_generation p) (unfinished p) (next p) (Some point)
                | None => p
                end) <$> partitions t) (held t)).

(** [Tracker::untake]. *)
Definition untake1 (m : gmap Tp Partition) (x : Tp * Z) : gmap Tp Partition :=
  match m !! x.1 with
  | Some p =>
      if bool_decide (taken p = Some x.2)
      then <[x.1 := mkPartition (p_generation p) (unfinished p) (next p) None]> m
      else m
  | None => m
  end.

Definition untake (points : list (Tp * Z)) (t : Tracker) : Tracker :=
  mkTracker (t_generation t) (next_receipt t) (foldl untake1 (partitions t) points) (held t).

(** The loop of [replace_copies] over the receipts it found. *)
Fixpoint replace_loop (receipts : list Z) (t : Tracker) : Tracker :=
  match receipts with
  | [] => t
  | r :: rs =>
      match held t !! r with
      | None => replace_loop rs t
      | Some pos =>
          let t := mkTracker (t_generation t) (next_receipt t) (partitions t)
                     (delete r (held t)) in
          replace_loop rs (complete pos t).2
      end
  end.

(** [Tracker::replace_copies]. *)
Definition replace_copies (tp : Tp) (offset : Z) (t : Tracker) : list Z * Tracker :=
  match partitions t !! tp with
  | None => ([], t)
  | Some p =>
      match unfinished p !! offset with
      | None => ([], t)
      | Some _ =>
          let rs := (map_to_list (filter (fun x => x.2 = mkPosition tp offset (p_generation p))
                                    (held t))).*1 in
          (rs, replace_loop rs t)
      end
  end.

(** ** The tracker and the deliveries not settled *)

(** [released] are the deliveries taken for a write that is not confirmed. *)
Record Feed := mkFeed {
  tracker : Tracker;
  released : gmap Z Position;
}.

Definition feed_init : Feed := mkFeed tracker_new ∅.

Inductive FeedOp :=
  | FAssign (tps : list Tp)
  | FRevoke (tps : list Tp)
  | FUnassignAll
  | FDeliver (tp : Tp) (offset : Z)
  | FHeld (receipt : Z)
  | FRelease (receipt : Z)
  | FConfirm (receipt : Z)
  | FRetire (tp : Tp) (read_to : Offset)
  | FTake
  | FUntake (points : list (Tp * Z))
  | FReplace (tp : Tp) (offset : Z).

(** A confirmed write completes the delivery released for it, once. Widths:
    fewer than [2^64] assignments and receipts, fewer than [2^32] deliveries
    not settled, offsets with a successor. *)
Definition feed_step (o : FeedOp) (f : Feed) : option Feed :=
  let t := tracker f in
  let keep t := Some (mkFeed t (released f)) in
  let room := bool_decide (t_generation t < U64_MAX) in
  match o with
  | FAssign tps => if room then keep (assign tps t) else None
  | FRevoke tps => if room then keep (revoke tps t).1 else None
  | FUnassignAll => if room then keep (unassign_all t) else None
  | FDeliver tp o =>
      if bool_decide (next_receipt t < U64_MAX) &&
         bool_decide (Z.of_nat (size (held t)) + Z.of_nat (size (released f)) < U32_MAX) &&
         bool_decide (0 <= o < I64_MAX)
      then keep (deliver tp o t).2 else None
  | FHeld r => keep (held_position r t).2
  | FRelease r =>
      match release r t with
      | (Some pos, t) => Some (mkFeed t (<[r := pos]> (released f)))
      | (None, t) => keep t
      end
  | FConfirm r =>
      match released f !! r with
      | Some pos => Some (mkFeed (complete pos t).2 (delete r (released f)))
      | None => None
      end
  | FRetire tp o => keep (retire_to tp o t).2
  | FTake => keep (take_commits t).2
  | FUntake points => keep (untake points t)
  | FReplace tp o => keep (replace_copies tp o t).2
  end.

Definition feed_reachable (f : Feed) : Prop :=
  rtc (fun f f' => exists o, feed_step o f = Some f') feed_init f.

(** ** Counting copies *)

Definition copies (h rel : gmap Z Position) (pos : Position) : Z :=
  Z.of_nat (map_count h pos) + Z.of_nat (map_count rel pos).

(** Every partition counts exactly the copies not settled under its
    assignment. *)
Definition counted (ps : gmap Tp Partition) (h rel : gmap Z Position) : Prop :=
  forall tp p o, ps !! tp = Some p ->
    default 0 (unfinished p !! o) = copies h rel (mkPosition tp o (p_generation p)) /\
    unfinished p !! o <> Some 0.

(** The unsettled deliveries stay below the copy counter's width. *)
Definition few (h rel : gmap Z Position) : Prop :=
  Z.of_nat (size h) + Z.of_nat (size rel) <= U32_MAX.

Record feed_inv (t : Tracker) (rel : gmap Z Position) : Prop := mk_feed_inv {
  fi_counted : counted (partitions t) (held t) rel;
  fi_gen : forall r pos, held t !! r = Some pos \/ rel !! r = Some pos ->
    generation pos <= t_generation t /\ 0 <= offset pos < I64_MAX;
  fi_pgen : forall tp p, partitions t !! tp = Some p -> p_generation p <= t_generation t;
  fi_receipt : forall r pos, held t !! r = Some pos \/ rel !! r = Some pos -> r <= next_receipt t;
  fi_disj : forall r, held t !! r = None \/ rel !! r = None;
  fi_few : few (held t) rel;
  fi_nn : 0 <= t_generation t <= U64_MAX /\ 0 <= next_receipt t <= U64_MAX;
}.

Lemma feed_inv_init : feed_inv tracker_new ∅.
Proof.
  split; cbn; try (by intros ? ? [?|?]); try (by left); try done.
Qed.

(** A change of the partitions that keeps generations and unfinished copies. *)
Lemma feed_inv_partitions t rel ps :
  feed_inv t rel ->
  (forall tp p', ps !! tp = Some p' -> exists p, partitions t !! tp = Some p /\
     p_generation p' = p_generation p /\ unfinished p' = unfinished p) ->
  feed_inv (mkTracker (t_generation t) (next_receipt t) ps (held t)) rel.
Proof.
  intros [Hc Hg Hp Hr Hd Hw Hn] Hps. split; try done.
  - intros tp p o Htp. destruct (Hps tp p Htp) as (p0 & H0 & -> & ->). by apply Hc.
  - intros tp p Htp. destruct (Hps tp p Htp) as (p0 & H0 & -> & _). by eapply Hp.
Qed.

Lemma assign_lookup g tps : forall (m : gmap Tp Partition) tp p,
  foldl (fun m tp => <[tp := mkPartition g ∅ None None]> m) m tps !! tp = Some p ->
  p = mkPartition g ∅ None None \/ m !! tp = Some p.
Proof.
  induction tps as [|x tps IH]; intros m tp p; cbn; [by right|].
  intros [->|H]%IH; [by left|]. rewrite lookup_insert in H.
  destruct (decide (x = tp)); [left; congruence|by right].
Qed.

Lemma feed_inv_assign t rel tps :
  feed_inv t rel -> t_generation t < U64_MAX -> feed_inv (assign tps t) rel.
Proof.
  intros [Hc Hg Hp Hr Hd Hw Hn] Hlt. unfold assign.
  rewrite wrap_u64_small by (unfold_int; lia). split; cbn; try done.
  - intros tp p o [->|H]%assign_lookup; [|by apply Hc]. cbn. rewrite lookup_empty. cbn.
    split; [|done]. unfold copies. rewrite !map_count_zero; [done|..].
    all: intros r q Hq ->; cbn in *.
    + destruct (Hg r _ (or_intror Hq)) as [Hg' _]; cbn in Hg'; lia.
    + destruct (Hg r _ (or_introl Hq)) as [Hg' _]; cbn in Hg'; lia.
  - intros r pos H. destruct (Hg r pos H). lia.
  - intros tp p [->|H]%assign_lookup; cbn; [lia|]. specialize (Hp tp p H). lia.
  - lia.
Qed.

Lemma revoke_loop_lookup tps : forall m tp p,
  (revoke_loop tps m).1 !! tp = Some p -> m !! tp = Some p.
Proof.
  induction tps as [|x tps IH]; intros m tp p; cbn [revoke_loop]; [done|].
  specialize (IH (delete x m) tp p). destruct (revoke_loop tps (delete x m)) as [m' out].
  cbn [fst] in *. intros H%IH. by apply lookup_delete_Some in H as [_ ?].
Qed.

Lemma feed_inv_raise t rel ps :
  feed_inv t rel -> t_generation t < U64_MAX ->
  (forall tp p, ps !! tp = Some p -> partitions t !! tp = Some p) ->
  feed_inv (mkTracker (wrap_u64 (t_generation t + 1)) (next_receipt t) ps (held t)) rel.
Proof.
  intros [Hc Hg Hp Hr Hd Hw Hn] Hlt Hps. rewrite wrap_u64_small by (unfold_int; lia).
  split; cbn; try done.
  - intros tp p o H. by apply Hc, Hps.
  - intros r pos H. destruct (Hg r pos H). lia.
  - intros tp p H. specialize (Hp tp p (Hps _ _ H)). lia.
  - lia.
Qed.

Lemma feed_inv_deliver t rel tp o :
  feed_inv t rel -> next_receipt t < U64_MAX ->
  Z.of_nat (size (held t)) + Z.of_nat (size rel) < U32_MAX -> 0 <= o < I64_MAX ->
  feed_inv (deliver tp o t).2 rel.
Proof.
  intros HI Hnr Hsz Ho. pose proof HI as [Hc Hg Hp Hr Hd Hw Hn]. unfold deliver.
  destruct (partitions t !! tp) as [p|] eqn:Htp; [|done]. cbn [snd].
  rewrite (wrap_u64_small (_ + 1)) by (unfold_int; lia).
  assert (Hfresh : held t !! (next_receipt t + 1) = None /\ rel !! (next_receipt t + 1) = None).
  { split; apply eq_None_not_Some; intros [q Hq];
      [specialize (Hr _ _ (or_introl Hq))|specialize (Hr _ _ (or_intror Hq))]; lia. }
  destruct Hfresh as [Hf1 Hf2].
  destruct (Hc tp p o Htp) as [Hcp _].
  pose proof (map_count_le_size (held t) (mkPosition tp o (p_generation p))).
  pose proof (map_count_le_size rel (mkPosition tp o (p_generation p))).
  unfold copies in Hcp. split; cbn.
  - intros tp' p' o'. rewrite lookup_insert. unfold copies. rewrite !map_count_insert by done.
    goal_decide Hd1.
    + subst tp'. intros [= <-]. cbn. rewrite wrap_u32_small by (unfold_int; lia).
      rewrite lookup_insert. destruct (decide (o = o')) as [->|Hne].
      * rewrite decide_True by done. cbn. split; [lia|]. intros [= ?]. lia.
      * rewrite decide_False by congruence. by apply Hc.
    + intros Hp'. rewrite decide_False by congruence. by apply Hc.
  - intros r pos. rewrite lookup_insert. goal_decide Hd1; [|by apply Hg].
    intros [[= <-]|Hrel]; cbn; [specialize (Hp tp p Htp); lia|]. apply (Hg r pos). by right.
  - intros tp' p'. rewrite lookup_insert. goal_decide Hd1; [|by apply Hp].
    intros [= <-]. cbn. by eapply Hp.
  - intros r pos. rewrite lookup_insert. goal_decide Hd1; [lia|].
    intros H'. specialize (Hr r pos H'). lia.
  - intros r. rewrite lookup_insert. goal_decide Hd1; [subst; by right|apply Hd].
  - unfold few in *. rewrite map_size_insert_None by done. lia.
  - lia.
Qed.

(** A delivery of an assignment that is over counts for no partition. *)
Lemma stale_not_counted t pos q p o :
  current pos t = false -> partitions t !! q = Some p -> pos <> mkPosition q o (p_generation p).
Proof.
  intros Hc Hq ->. unfold current in Hc. cbn in Hc. rewrite Hq in Hc.
  by rewrite bool_decide_true in Hc.
Qed.

Lemma feed_inv_drop_stale t rel r pos :
  feed_inv t rel -> held t !! r = Some pos -> current pos t = false ->
  feed_inv (mkTracker (t_generation t) (next_receipt t) (partitions t) (delete r (held t))) rel.
Proof.
  intros [Hc Hg Hp Hr Hd Hw Hn] Hh Hcur. split; cbn; try done.
  - intros q p o Hq. destruct (Hc q p o Hq) as [E1 E2]. split; [|done]. rewrite E1.
    unfold copies. rewrite (map_count_delete (held t) r pos) by done.
    rewrite decide_False; [lia|]. by apply stale_not_counted with t.
  - intros r' pos' [[_ H]%lookup_delete_Some|H]; eauto.
  - intros r' pos' [[_ H]%lookup_delete_Some|H]; eauto.
  - intros r'. rewrite lookup_delete. goal_decide H; [by left|apply Hd].
  - unfold few in *. pose proof (map_size_delete_S _ _ _ Hh). lia.
Qed.

Lemma feed_inv_release t rel r pos :
  feed_inv t rel -> held t !! r = Some pos ->
  feed_inv (mkTracker (t_generation t) (next_receipt t) (partitions t) (delete r (held t)))
    (<[r := pos]> rel).
Proof.
  intros [Hc Hg Hp Hr Hd Hw Hn] Hh.
  assert (Hrel : rel !! r = None) by (destruct (Hd r); congruence).
  split; cbn; try done.
  - intros q p o Hq. destruct (Hc q p o Hq) as [E1 E2]. split; [|done]. rewrite E1.
    unfold copies. rewrite (map_count_delete (held t) r pos) by done.
    rewrite map_count_insert by done. lia.
  - intros r' pos' [[_ H]%lookup_delete_Some|H]; [by eauto|].
    rewrite lookup_insert in H. destruct (decide (r = r')); [|by eauto].
    injection H as <-. eauto.
  - intros r' pos' [[_ H]%lookup_delete_Some|H]; [by eauto|].
    rewrite lookup_insert in H. destruct (decide (r = r')); [subst|by eauto].
    injection H as <-. eauto.
  - intros r'. rewrite lookup_delete, lookup_insert. goal_decides; [by left|apply Hd].
  - unfold few in *. rewrite map_size_insert_None by done.
    pose proof (map_size_delete_S _ _ _ Hh). lia.
Qed.

(** Completing a delivery that leaves the unsettled set ([h], [rel'] is the set
    without it). *)
Lemma counted_complete t pos h h' rel rel' :
  counted (partitions t) h rel ->
  (forall q, copies h rel q = (if decide (pos = q) then 1 else 0) + copies h' rel' q) ->
  (forall q, copies h' rel' q < U32_MAX) ->
  counted (partitions (complete pos t).2) h' rel'.
Proof.
  intros Hc Hcp Hmax q p o. unfold complete.
  destruct (partitions t !! tp pos) as [p0|] eqn:H0.
  2:{ cbn. intros Hq. destruct (Hc q p o Hq) as [E1 E2]. split; [|done].
      rewrite E1, Hcp. rewrite decide_False; [lia|]. intros ->. cbn in H0. congruence. }
  case_bool_decide as Hg; cbn.
  2:{ intros Hq. destruct (Hc q p o Hq) as [E1 E2]. split; [|done].
      rewrite E1, Hcp. rewrite decide_False; [lia|]. intros ->. cbn in *. congruence. }
  rewrite lookup_insert. goal_decide Hd.
  2:{ intros Hq. destruct (Hc q p o Hq) as [E1 E2]. split; [|done].
      rewrite E1, Hcp. rewrite decide_False; [lia|]. intros ->. by cbn in Hd. }
  intros [= <-]. subst q. unfold finish_copy.
  destruct (Hc _ _ (offset pos) H0) as [E1 E2]. rewrite Hcp in E1.
  assert (Hpos : pos = mkPosition (tp pos) (offset pos) (p_generation p0))
    by (destruct pos; cbn in *; congruence).
  rewrite decide_True in E1 by done.
  pose proof (Hmax (mkPosition (tp pos) (offset pos) (p_generation p0))) as Hm.
  unfold copies in E1, Hm.
  destruct (unfinished p0 !! offset pos) as [c|] eqn:Hc0; [|cbn in E1; lia].
  cbn in E1. rewrite wrap_u32_small by (unfold_int; lia). cbn [p_generation unfinished].
  assert (Hother : o <> offset pos ->
    default 0 (unfinished p0 !! o) = copies h' rel' (mkPosition (tp pos) o (p_generation p0)) /\
    unfinished p0 !! o <> Some 0).
  { intros Hne. destruct (Hc _ _ o H0) as [E3 E4]. split; [|done]. rewrite E3, Hcp.
    rewrite decide_False; [lia|]. rewrite Hpos. intros [=]. congruence. }
  destruct (decide (o = offset pos)) as [->|Hne]; [|specialize (Hother Hne)].
  - unfold copies in *. case_bool_decide.
    + rewrite lookup_delete_eq. cbn. split; [lia|done].
    + rewrite lookup_insert_eq. cbn. split; [lia|]. intros [= ?]. lia.
  - case_bool_decide; [by rewrite lookup_delete_ne|by rewrite lookup_insert_ne].
Qed.

Lemma complete_frame pos t :
  let t' := (complete pos t).2 in
  held t' = held t /\ t_generation t' = t_generation t /\ next_receipt t' = next_receipt t /\
  forall q p, partitions t' !! q = Some p -> exists p0, partitions t !! q = Some p0 /\
    p_generation p = p_generation p0.
Proof.
  unfold complete. destruct (partitions t !! tp pos) as [p0|] eqn:H0; [|by eauto 6].
  case_bool_decide; cbn; [|by eauto 6]. split_and!; try done. intros q p.
  rewrite lookup_insert. goal_decide Hd; [subst|by eauto]. intros [= <-].
  exists p0. split; [done|]. unfold finish_copy. by destruct (unfinished p0 !! _).
Qed.

Lemma feed_inv_settle t rel h' rel' pos :
  feed_inv t rel ->
  counted (partitions (complete pos t).2) h' rel' ->
  (forall r q, h' !! r = Some q \/ rel' !! r = Some q -> held t !! r = Some q \/ rel !! r = Some q) ->
  (forall r, h' !! r = None \/ rel' !! r = None) -> few h' rel' ->
  feed_inv (mkTracker (t_generation t) (next_receipt t) (partitions (complete pos t).2) h') rel'.
Proof.
  intros [Hc Hg Hp Hr Hd Hw Hn] Hc' Hsub Hd' Hw'.
  destruct (complete_frame pos t) as (_ & _ & _ & Hf). split; cbn; try done; eauto.
  intros q p Hq. destruct (Hf q p Hq) as (p0 & H0 & ->). eauto.
Qed.

Lemma copies_lt h rel h' rel' pos :
  few h rel ->
  (forall q, copies h rel q = (if decide (pos = q) then 1 else 0) + copies h' rel' q) ->
  (size h' + size rel' < size h + size rel)%nat ->
  forall q, copies h' rel' q < U32_MAX.
Proof.
  intros Hfew Hcp Hsz q. unfold few, copies in *.
  pose proof (map_count_le_size h' q). pose proof (map_count_le_size rel' q). lia.
Qed.

(** A held delivery is settled at once, as a replaced copy is. *)
Lemma feed_inv_settle_held t rel r pos :
  feed_inv t rel -> held t !! r = Some pos ->
  feed_inv (complete pos (mkTracker (t_generation t) (next_receipt t) (partitions t)
                            (delete r (held t)))).2 rel.
Proof.
  intros HI Hh. pose proof HI as [Hc Hg Hp Hr Hd Hw Hn].
  set (t1 := mkTracker _ _ _ _). pose proof (map_size_delete_S _ _ _ Hh) as Hsz.
  assert (Hcp : forall q, copies (held t) rel q =
    (if decide (pos = q) then 1 else 0) + copies (delete r (held t)) rel q).
  { intros q. unfold copies. rewrite (map_count_delete (held t) r pos) by done.
    destruct (decide (pos = q)); lia. }
  assert (Hcnt : counted (partitions (complete pos t).2) (delete r (held t)) rel).
  { apply counted_complete with (held t) rel; try done.
    eapply copies_lt; try done. lia. }
  assert (Heq : (complete pos t1).2 = mkTracker (t_generation t) (next_receipt t)
    (partitions (complete pos t).2) (delete r (held t))).
  { unfold complete, t1; cbn. destruct (partitions t !! tp pos); [|done]. by case_bool_decide. }
  rewrite Heq. apply feed_inv_settle with rel; try done.
  - intros r' q [[_ H]%lookup_delete_Some|H]; auto.
  - intros r'. rewrite lookup_delete. goal_decide H; [by left|apply Hd].
  - unfold few in *. lia.
Qed.

(** The write of a released delivery is confirmed. *)
Lemma feed_inv_confirm t rel r pos :
  feed_inv t rel -> rel !! r = Some pos -> feed_inv (complete pos t).2 (delete r rel).
Proof.
  intros HI Hh. pose proof HI as [Hc Hg Hp Hr Hd Hw Hn].
  pose proof (map_size_delete_S _ _ _ Hh) as Hsz.
  assert (Hcp : forall q, copies (held t) rel q =
    (if decide (pos = q) then 1 else 0) + copies (held t) (delete r rel) q).
  { intros q. unfold copies. rewrite (map_count_delete rel r pos) by done.
    destruct (decide (pos = q)); lia. }
  assert (Hcnt : counted (partitions (complete pos t).2) (held t) (delete r rel)).
  { apply counted_complete with (held t) rel; try done.
    eapply copies_lt; try done. lia. }
  assert (Heq : (complete pos t).2 = mkTracker (t_generation t) (next_receipt t)
    (partitions (complete pos t).2) (held t)).
  { destruct (complete_frame pos t) as (H1 & H2 & H3 & _).
    destruct (complete pos t) as [b [g n ps h]]. cbn in *. by subst. }
  rewrite Heq. apply feed_inv_settle with rel; try done.
  - intros r' q [H|[_ H]%lookup_delete_Some]; auto.
  - intros r'. rewrite lookup_delete. goal_decide H; [by right|apply Hd].
  - unfold few in *. lia.
Qed.

Lemma feed_inv_replace rs : forall t rel, feed_inv t rel -> feed_inv (replace_loop rs t) rel.
Proof.
  induction rs as [|r rs IH]; intros t rel HI; cbn [replace_loop]; [done|].
  destruct (held t !! r) as [pos|] eqn:Hr; [|by apply IH].
  apply IH. by apply feed_inv_settle_held.
Qed.

Lemma untake1_lookup m x tp p' :
  untake1 m x !! tp = Some p' -> exists p, m !! tp = Some p /\
    p_generation p' = p_generation p /\ unfinished p' = unfinished p.
Proof.
  unfold untake1. destruct (m !! x.1) as [p|] eqn:Hx; [|by eauto].
  case_bool_decide; [|by eauto]. rewrite lookup_insert. goal_decide Hd; [subst|by eauto].
  intros [= <-]. eauto.
Qed.

Lemma untake_lookup points : forall m tp p',
  foldl untake1 m points !! tp = Some p' -> exists p, m !! tp = Some p /\
    p_generation p' = p_generation p /\ unfinished p' = unfinished p.
Proof.
  induction points as [|x points IH]; intros m tp p'; cbn; [by eauto|].
  intros (p & (p0 & H0 & E1 & E2)%untake1_lookup & E3 & E4)%IH. exists p0.
  split_and!; congruence.
Qed.

Lemma feed_inv_step o f f' :
  feed_inv (tracker f) (released f) -> feed_step o f = Some f' ->
  feed_inv (tracker f') (released f').
Proof.
  intros HI Hs. destruct f as [t rel]. cbn in HI. destruct o; cbn in Hs.
  - case_bool_decide; simplify_eq. by apply feed_inv_assign.
  - case_bool_decide; simplify_eq. cbn. unfold revoke.
    pose proof (revoke_loop_lookup tps (partitions t)) as Hl.
    destruct (revoke_loop tps (partitions t)) as [m out]. by apply feed_inv_raise.
  - case_bool_decide; simplify_eq. cbn. by apply feed_inv_raise.
  - repeat case_bool_decide; simplify_eq/=. by apply feed_inv_deliver.
  - simplify_eq. cbn. unfold held_position. destruct (held t !! receipt) as [pos|] eqn:Hr; [|done].
    destruct (current pos t) eqn:Hc; [done|]. by eapply feed_inv_drop_stale.
  - unfold release in Hs. destruct (held t !! receipt) as [pos|] eqn:Hr; [|by simplify_eq].
    destruct (current pos _) eqn:Hc; simplify_eq; cbn.
    + by apply feed_inv_release.
    + by eapply feed_inv_drop_stale.
  - destruct (rel !! receipt) as [pos|] eqn:Hr; simplify_eq. by apply feed_inv_confirm.
  - simplify_eq. cbn. unfold retire_to. destruct (partitions t !! tp0) as [p|] eqn:Hp; [|done].
    destruct (offset_to_retire _ _); [|done]. apply feed_inv_partitions; [done|].
    intros q p'. rewrite lookup_insert. goal_decide Hd; [subst|by eauto]. intros [= <-]. eauto.
  - simplify_eq. cbn. apply feed_inv_partitions; [done|]. intros q p'. rewrite lookup_fmap.
    destruct (partitions t !! q) as [p|] eqn:Hp; [|done]. cbn. intros [= <-]. exists p.
    destruct (moved p); eauto.
  - simplify_eq. cbn. apply feed_inv_partitions; [done|]. apply untake_lookup.
  - simplify_eq. cbn. unfold replace_copies. destruct (partitions t !! tp0) as [p|]; [|done].
    destruct (unfinished p !! _); [|done]. by apply feed_inv_replace.
Qed.

Lemma feed_reachable_inv f : feed_reachable f -> feed_inv (tracker f) (released f).
Proof.
  unfold feed_reachable. generalize feed_inv_init.
  change (feed_inv tracker_new ∅) with (feed_inv (tracker feed_init) (released feed_init)).
  generalize feed_init. intros f0 HI H. induction H as [|f1 f2 f3 [o Ho] _ IH]; [done|].
  apply IH. by eapply feed_inv_step.
Qed.

(** ** Commit points *)
Lemma min_key_spec m :
  match min_key m with
  | None => m = ∅
  | Some k => is_Some (m !! k) /\ forall j, is_Some (m !! j) -> k <= j
  end.
Proof.
  unfold min_key.
  assert (H : forall l : list Z, match foldr (fun k acc => opt_min (Some k) acc) None l with
    | None => l = [] | Some k => k ∈ l /\ forall j, j ∈ l -> k <= j end).
  { induction l as [|x l IH]; [done|]. cbn. destruct (foldr _ None l) as [k|].
    - destruct IH as [Hk Hmin]. cbn. split.
      + destruct (Z.min_spec x k) as [[_ ->]|[_ ->]]; [by left|by right].
      + intros j [->|Hj]%elem_of_cons; [lia|]. specialize (Hmin j Hj). lia.
    - subst l. cbn. split; [by left|]. intros j [->|?%elem_of_nil]%elem_of_cons; [lia|done]. }
  assert (Hkeys : forall k, k ∈ (map_to_list m).*1 <-> is_Some (m !! k)).
  { intros k. rewrite list_elem_of_fmap. split.
    - intros ([k' v] & -> & Hin). apply elem_of_map_to_list in Hin. eauto.
    - intros [v Hv]. exists (k, v). split; [done|]. by apply elem_of_map_to_list. }
  specialize (H (map_to_list m).*1). destruct (foldr _ None _) as [k|].
  - destruct H as [Hk Hmin]. split; [by apply Hkeys|]. intros j Hj. by apply Hmin, Hkeys.
  - apply fmap_nil_inv in H. by apply map_to_list_empty_iff.
Qed.

Lemma commit_point_le p o c :
  is_Some (unfinished p !! o) -> commit_point p = Some c -> c <= o.
Proof.
  intros Ho. unfold commit_point. pose proof (min_key_spec (unfinished p)) as Hm.
  destruct (min_key (unfinished p)) as [k|].
  - destruct Hm as [_ Hmin]. specialize (Hmin o Ho). destruct (next p); intros [= <-]; lia.
  - rewrite Hm, lookup_empty in Ho. by destruct Ho.
Qed.

(** C9: a commit never passes a delivery that is not settled. In every
    reachable state of the tracker and its user, while a delivery made under a
    partition's current assignment is held by the reader or released for a
    write that is not confirmed, the partition's commit point is at or below
    its offset; once none is left the commit point is everything read. *)
Theorem commit_never_passes_unsettled (f : Feed) (q : Tp) (p : Partition) :
  feed_reachable f -> partitions (tracker f) !! q = Some p ->
  (forall r pos c,
     held (tracker f) !! r = Some pos \/ released f !! r = Some pos ->
     tp pos = q -> generation pos = p_generation p ->
     commit_point p = Some c -> c <= offset pos) /\
  ((forall r pos, held (tracker f) !! r = Some pos \/ released f !! r = Some pos ->
      tp pos = q -> generation pos <> p_generation p) ->
   commit_point p = next p).
Proof.
  intros HI%feed_reachable_inv Hp. pose proof HI as [Hc _ _ _ _ _ _]. split.
  - intros r pos c Hr <- Hg Hcp. apply (commit_point_le p (offset pos)); [|done].
    destruct (Hc _ p (offset pos) Hp) as [E _]. rewrite <- Hg in E.
    replace (mkPosition (tp pos) (offset pos) (generation pos)) with pos in E by (by destruct pos).
    destruct (unfinished p !! offset pos); [by eauto|]. exfalso. cbn in E. unfold copies in E.
    destruct Hr as [Hr|Hr]; pose proof (map_count_pos _ _ _ Hr); lia.
  - intros Hnone. unfold commit_point. pose proof (min_key_spec (unfinished p)) as Hm.
    destruct (min_key (unfinished p)) as [k|]; [|done]. exfalso.
    destruct Hm as [[v Hv] _]. destruct (Hc q p k Hp) as [E Hz]. rewrite Hv in E, Hz. cbn in E.
    unfold copies in E. rewrite !map_count_zero in E; [subst; done|..].
    all: intros r pos Hr ->; cbn in *.
    + by apply (Hnone r _ (or_intror Hr)).
    + by apply (Hnone r _ (or_introl Hr)).
Qed.

(** Runs a sequence of operations. *)
Fixpoint feed_run (os : list FeedOp) (f : Feed) : option Feed :=
  match os with
  | [] => Some f
  | o :: os => match feed_step o f with Some f => feed_run os f | None => None end
  end.

Lemma feed_run_reachable os f : feed_run os feed_init = Some f -> feed_reachable f.
Proof.
  unfold feed_reachable. generalize feed_init.
  induction os as [|o os IH]; intros f0 H; cbn in H; [by simplify_eq|].
  destruct (feed_step o f0) eqn:E; [|done]. eapply rtc_l; [by exists o|by apply IH].
Qed.

(** Offsets 5 and 6 delivered, 6 settled, 5 released and not confirmed. *)
Definition demo_ops : list FeedOp :=
  [FAssign [mkTp "units" 0]; FDeliver (mkTp "units" 0) 5; FDeliver (mkTp "units" 0) 6;
   FRelease 2; FConfirm 2; FRelease 1].
Definition demo_feed : Feed := default feed_init (feed_run demo_ops feed_init).
Definition demo_partition : Partition := mkPartition 1 {[5 := 1]} (Some 7) None.

Lemma commit_never_passes_unsettled_witness :
  commit_point demo_partition = Some 5 /\
  forall r pos c,
    held (tracker demo_feed) !! r = Some pos \/ released demo_feed !! r = Some pos ->
    tp pos = mkTp "units" 0 -> generation pos = p_generation demo_partition ->
    commit_point demo_partition = Some c -> c <= offset pos.
Proof.
  split; [vm_compute; reflexivity|].
  apply (commit_never_passes_unsettled demo_feed (mkTp "units" 0) demo_partition).
  - apply (feed_run_reachable demo_ops). vm_compute. reflexivity.
  - vm_compute. reflexivity.
Defined.
