(* ===== verification/Breaker.v ===== *)
(** * Per-replica circuit breakers ([spate-core/src/sink/breaker.rs])

    [BreakerSet] with its state machine, the gauges it publishes and the wake
    counter, and the system of a set and the picks whose attempts are out. An
    [Instant] is a number of nanoseconds; indexing a replica that does not
    exist is the panic [None]. *)

From stdpp Require Import base list gmap.
From Stdlib Require Import ZArith Lia.
From S2P Require Import Prelude.

(** [BreakerConfig]. *)
Record BreakerConfig := mkBreakerConfig {
  failure_threshold : Z;
  open_for : Z;
  half_open_probes : Z;
}.

(** A year, in nanoseconds. *)
Definition MAX_OPEN_FOR : Z := 365 * 24 * 60 * 60 * 1000000000.

Inductive BreakerConfigError :=
  | ZeroFailureThreshold | ZeroHalfOpenProbes | ZeroOpenFor | OpenForTooLong (d : Z).

(** [BreakerConfig::validate]. *)
Definition validate (c : BreakerConfig) : option BreakerConfigError :=
  if bool_decide (failure_threshold c = 0) then Some ZeroFailureThreshold
  else if bool_decide (half_open_probes c = 0) then Some ZeroHalfOpenProbes
  else if bool_decide (open_for c = 0) then Some ZeroOpenFor
  else if bool_decide (MAX_OPEN_FOR < open_for c) then Some (OpenForTooLong (open_for c))
  else None.

Inductive State :=
  | Closed (consecutive_failures : Z)
  | Open (until : Z)
  | HalfOpen (probes_in_flight episode : Z).

Record Pick := mkPick {
  replica : nat;
  probe : option Z;
}.

#[export] Instance Pick_eq_dec : EqDecision Pick.
Proof. solve_decision. Defined.

(** The gauges and the edge-triggered counter of [SinkShardMetrics]. *)
Record ShardMetrics := mkShardMetrics {
  replica_healthy : list bool;
  shard_gauge : bool;
  opened : list nat;
}.

Record BreakerSet := mkBreakerSet {
  cfg : BreakerConfig;
  states : list State;
  cursor : nat;
  metrics : ShardMetrics;
  shard_healthy : bool;
  wake : Z;
  next_episode : Z;
}.

(** [BreakerSet::new]; [None] is the panic on an empty shard. *)
Definition breaker_new (replicas : nat) (c : BreakerConfig) : option BreakerSet :=
  if bool_decide (replicas = 0)%nat then None
  else Some (mkBreakerSet
    (mkBreakerConfig (failure_threshold c) (Z.min (open_for c) MAX_OPEN_FOR)
       (Z.max (half_open_probes c) 1))
    (replicate replicas (Closed 0)) 0
    (mkShardMetrics (replicate replicas true) true (replicate replicas O)) true 0 0).

Definition is_closed (s : State) : bool :=
  match s with Closed _ => true | _ => false end.

Definition set_states (ss : list State) (b : BreakerSet) : BreakerSet :=
  mkBreakerSet (cfg b) ss (cursor b) (metrics b) (shard_healthy b) (wake b) (next_episode b).

(** [BreakerSet::publish_wake]. *)
Definition publish_wake (b : BreakerSet) : BreakerSet :=
  mkBreakerSet (cfg b) (states b) (cursor b) (metrics b) (shard_healthy b)
    (wrap_u64 (wake b + 1)) (next_episode b).

(** One pass of the loop of [next_replica] at index [idx]. *)
Definition try_pick (now : Z) (idx : nat) (b : BreakerSet) : option (Pick * BreakerSet) :=
  let n := length (states b) in
  let taken s ep pr :=
    (mkPick idx pr,
     mkBreakerSet (cfg b) (<[idx := s]> (states b)) ((idx + 1) mod n)%nat (metrics b)
       (shard_healthy b) (wake b) ep) in
  match states b !! idx with
  | Some (Closed f) => Some (taken (Closed f) (next_episode b) None)
  | Some (Open until) =>
      if bool_decide (until <= now)
      then let ep := wrap_u64 (next_episode b + 1) in
           Some (taken (HalfOpen 1 ep) ep (Some ep))
      else None
  | Some (HalfOpen k ep) =>
      if bool_decide (k < half_open_probes (cfg b))
      then Some (taken (HalfOpen (wrap_u32 (k + 1)) ep) (next_episode b) (Some ep))
      else None
  | None => None
  end.

Fixpoint pick_from (now : Z) (steps : list nat) (b : BreakerSet) : option (Pick * BreakerSet) :=
  match steps with
  | [] => None
  | step :: steps =>
      match try_pick now ((cursor b + step) mod length (states b))%nat b with
      | Some x => Some x
      | None => pick_from now steps b
      end
  end.

(** [BreakerSet::next_replica]. *)
Definition next_replica (now : Z) (b : BreakerSet) : option (Pick * BreakerSet) :=
  pick_from now (seq 0 (length (states b))) b.

(** [BreakerSet::release_probe]. *)
Definition release_probe (r : nat) (episode : Z) (b : BreakerSet) : option BreakerSet :=
  match states b !! r with
  | None => None
  | Some (HalfOpen k current) =>
      if bool_decide (current <> episode) then Some b
      else Some (publish_wake (set_states (<[r := HalfOpen (sat_sub k 1) current]> (states b)) b))
  | Some _ => Some b
  end.

(** [BreakerSet::next_probe_at]. *)
Definition next_probe_at (now : Z) (b : BreakerSet) : option Z :=
  let untils := omap (fun s => match s with Open u => Some u | _ => None end) (states b) in
  match untils with
  | [] => None
  | u :: us => Some (Z.max (foldl Z.min u us) now)
  end.

(** [BreakerSet::publish_replica_health]. *)
Definition publish_replica_health (r : nat) (b : BreakerSet) : BreakerSet :=
  let healthy := match states b !! r with Some s => is_closed s | None => false end in
  mkBreakerSet (cfg b) (states b) (cursor b)
    (mkShardMetrics (<[r := healthy]> (replica_healthy (metrics b))) (shard_gauge (metrics b))
       (opened (metrics b))) (shard_healthy b) (wake b) (next_episode b).

Inductive ShardHealthTransition := Recovered | AllQuarantined.

(** [BreakerSet::refresh_shard_health]. *)
Definition refresh_shard_health (b : BreakerSet) : option ShardHealthTransition * BreakerSet :=
  let up := existsb is_closed (states b) in
  let m := mkShardMetrics (replica_healthy (metrics b)) up (opened (metrics b)) in
  (if bool_decide (up = shard_healthy b) then None
   else Some (if up then Recovered else AllQuarantined),
   mkBreakerSet (cfg b) (states b) (cursor b) m up (wake b) (next_episode b)).

(** [BreakerSet::on_success]. *)
Definition on_success (r : nat) (b : BreakerSet)
    : option (option ShardHealthTransition * BreakerSet) :=
  match states b !! r with
  | None => None
  | Some _ =>
      let b := set_states (<[r := Closed 0]> (states b)) b in
      Some (refresh_shard_health (publish_wake (publish_replica_health r b)))
  end.

(** The state a failed write leaves its replica in. *)
Definition failed_state (c : BreakerConfig) (now : Z) (s : State) : State :=
  match s with
  | Closed f =>
      let failures := wrap_u32 (f + 1) in
      if bool_decide (failure_threshold c <= failures) then Open (now + open_for c)
      else Closed failures
  | HalfOpen _ _ => Open (now + open_for c)
  | Open until => Open until
  end.

Definition is_open (s : State) : bool := match s with Open _ => true | _ => false end.

(** [breaker_opened]: one more transition to open. *)
Definition breaker_opened (r : nat) (b : BreakerSet) : BreakerSet :=
  mkBreakerSet (cfg b) (states b) (cursor b)
    (mkShardMetrics (replica_healthy (metrics b)) (shard_gauge (metrics b))
       (alter S r (opened (metrics b)))) (shard_healthy b) (wake b) (next_episode b).

(** [BreakerSet::on_failure]. *)
Definition on_failure (r : nat) (now : Z) (b : BreakerSet)
    : option (option ShardHealthTransition * BreakerSet) :=
  match states b !! r with
  | None => None
  | Some s =>
      let s' := failed_state (cfg b) now s in
      let newly_open := is_open s' && negb (is_open s) in
      let b := publish_replica_health r (set_states (<[r := s']> (states b)) b) in
      let b := if newly_open then breaker_opened r b else b in
      Some (refresh_shard_health (publish_wake b))
  end.

(** ** The set and the attempts out *)

(** Picks handed out whose attempts have neither reported nor been released. *)
Record Shard := mkShard {
  set : BreakerSet;
  picks : gmap nat Pick;
}.

Inductive ShardOp :=
  | SPick (id : nat) (now : Z)
  | SSuccess (id : nat)
  | SFailure (id : nat) (now : Z)
  | SRelease (id : nat).

(** One critical section of the set's mutex. A pick that spent a probe slot is
    released when its attempt dies without an outcome; any attempt may simply
    be dropped otherwise. Fewer than [2^64] half-open runs. *)
Definition shard_step (o : ShardOp) (s : Shard) : option Shard :=
  match o with
  | SPick id now =>
      match picks s !! id with
      | Some _ => None
      | None =>
          if bool_decide (next_episode (set s) < U64_MAX)
          then match next_replica now (set s) with
               | Some (p, b) => Some (mkShard b (<[id := p]> (picks s)))
               | None => Some s
               end
          else None
      end
  | SSuccess id =>
      match picks s !! id with
      | None => None
      | Some p =>
          match on_success (replica p) (set s) with
          | Some (_, b) => Some (mkShard b (delete id (picks s)))
          | None => None
          end
      end
  | SFailure id now =>
      match picks s !! id with
      | None => None
      | Some p =>
          match on_failure (replica p) now (set s) with
          | Some (_, b) => Some (mkShard b (delete id (picks s)))
          | None => None
          end
      end
  | SRelease id =>
      match picks s !! id with
      | None => None
      | Some (mkPick r None) => Some (mkShard (set s) (delete id (picks s)))
      | Some (mkPick r (Some ep)) =>
          match release_probe r ep (set s) with
          | Some b => Some (mkShard b (delete id (picks s)))
          | None => None
          end
      end
  end.

Definition shard_steps (s s' : Shard) : Prop := exists o, shard_step o s = Some s'.

(** Reachable from a fresh set of [n] replicas configured by [c]. *)
Definition shard_reachable (n : nat) (c : BreakerConfig) (s : Shard) : Prop :=
  exists b, breaker_new n c = Some b /\ rtc shard_steps (mkShard b ∅) s.

(** ** What a pick does *)

(** How picking moves a replica's state. *)
Definition picked (b : BreakerSet) (now : Z) (s s' : State) (pr : option Z) (ep : Z) : Prop :=
  match s with
  | Closed f => s' = Closed f /\ pr = None /\ ep = next_episode b
  | Open until => until <= now /\ ep = wrap_u64 (next_episode b + 1) /\
      s' = HalfOpen 1 ep /\ pr = Some ep
  | HalfOpen k e => k < half_open_probes (cfg b) /\ ep = next_episode b /\
      s' = HalfOpen (wrap_u32 (k + 1)) e /\ pr = Some e
  end.

Record pick_result (now : Z) (b b' : BreakerSet) (p : Pick) : Prop := mk_pick_result {
  pr_state : exists s s', states b !! replica p = Some s /\
    states b' = <[replica p := s']> (states b) /\ picked b now s s' (probe p) (next_episode b');
  pr_cfg : cfg b' = cfg b;
  pr_metrics : metrics b' = metrics b;
  pr_healthy : shard_healthy b' = shard_healthy b;
  pr_wake : wake b' = wake b;
}.

Lemma try_pick_spec now idx b p b' :
  try_pick now idx b = Some (p, b') -> pick_result now b b' p.
Proof.
  unfold try_pick. destruct (states b !! idx) as [[f|u|k ep]|] eqn:Hs; [|..|done];
    try (case_bool_decide; [|done]); intros [= <- <-]; split; try done; cbn;
    do 2 eexists; by split_and!.
Qed.

Lemma next_replica_spec now b p b' :
  next_replica now b = Some (p, b') -> pick_result now b b' p.
Proof.
  unfold next_replica. generalize (seq 0 (length (states b))). intros steps.
  induction steps as [|st steps IH]; cbn; [done|].
  destruct (try_pick _ _ _) as [[q c]|] eqn:E; [|done].
  intros [= -> ->]. by apply try_pick_spec in E.
Qed.

Lemma rotation_covers cur n idx :
  (idx < n)%nat -> exists step, (step < n)%nat /\ ((cur + step) mod n = idx)%nat.
Proof.
  intros Hi. set (c := (cur mod n)%nat).
  assert (Hc : (c < n)%nat) by (apply Nat.mod_upper_bound; lia).
  assert (Hcur : cur = (c + (cur / n) * n)%nat)
    by (pose proof (Nat.div_mod_eq cur n); unfold c; lia).
  destruct (decide (c <= idx)%nat).
  - exists (idx - c)%nat. split; [lia|].
    replace (cur + (idx - c))%nat with (idx + (cur / n) * n)%nat by lia.
    rewrite Nat.Div0.mod_add. by apply Nat.mod_small.
  - exists (idx + n - c)%nat. split; [lia|].
    replace (cur + (idx + n - c))%nat with (idx + (cur / n + 1) * n)%nat by lia.
    rewrite Nat.Div0.mod_add. by apply Nat.mod_small.
Qed.

(** No pick: every replica was tried and refused. *)
Lemma next_replica_None now b idx :
  next_replica now b = None -> (idx < length (states b))%nat -> try_pick now idx b = None.
Proof.
  intros Hn Hi. destruct (rotation_covers (cursor b) _ idx Hi) as (step & Hlt & <-).
  unfold next_replica in Hn. assert (Hin : step ∈ seq 0 (length (states b))).
  { apply elem_of_seq. lia. }
  revert Hn Hin. generalize (seq 0 (length (states b))). intros steps.
  induction steps as [|st steps IH]; cbn; intros Hn Hin; [by apply elem_of_nil in Hin|].
  destruct (try_pick _ ((cursor b + st) mod _) b) eqn:E; [done|].
  apply elem_of_cons in Hin as [->|Hin]; auto.
Qed.

(** ** The invariant *)

Record shard_inv (s : Shard) : Prop := mk_shard_inv {
  si_budget : 1 <= half_open_probes (cfg (set s)) <= U32_MAX;
  si_count : forall r k ep, states (set s) !! r = Some (HalfOpen k ep) ->
    k = Z.of_nat (map_count (picks s) (mkPick r (Some ep))) /\
    k <= half_open_probes (cfg (set s)) /\ ep <= next_episode (set s);
  si_eps : forall id p ep, picks s !! id = Some p -> probe p = Some ep ->
    ep <= next_episode (set s);
  si_gauges : replica_healthy (metrics (set s)) = is_closed <$> states (set s);
  si_shard : shard_gauge (metrics (set s)) = existsb is_closed (states (set s)) /\
    shard_healthy (set s) = existsb is_closed (states (set s));
  si_episode : 0 <= next_episode (set s) <= U64_MAX;
}.

Lemma existsb_insert_same l (i : nat) s s' :
  l !! i = Some s -> is_closed s' = is_closed s ->
  existsb is_closed (<[i := s']> l) = existsb is_closed l.
Proof.
  revert i. induction l as [|x l IH]; intros [|i] Hi He; cbn in *; try done.
  - injection Hi as ->. by rewrite He.
  - by rewrite IH.
Qed.

Lemma picked_closed_same b now s s' pr ep :
  picked b now s s' pr ep -> is_closed s' = is_closed s.
Proof. destruct s; cbn; naive_solver. Qed.

Lemma shard_inv_pick s id now p b :
  shard_inv s -> picks s !! id = None -> next_episode (set s) < U64_MAX ->
  next_replica now (set s) = Some (p, b) -> shard_inv (mkShard b (<[id := p]> (picks s))).
Proof.
  intros [Hb Hc He Hg Hs Hep] Hid Hlt Hn.
  apply next_replica_spec in Hn as [(x & x' & Hx & Hst & Hp) H1 H2 H3 H4].
  pose proof (picked_closed_same _ _ _ _ _ _ Hp) as Hcl.
  assert (Hw : wrap_u64 (next_episode (set s) + 1) = next_episode (set s) + 1)
    by (apply wrap_u64_small; unfold_int; lia).
  assert (Hepn : next_episode (set s) <= next_episode b <= U64_MAX)
    by (destruct x; cbn in Hp; lia).
  split; cbn; rewrite ?H1, ?H2, ?H3; try done; try lia.
  - intros r k ep. rewrite Hst, list_lookup_insert_Some.
    rewrite map_count_insert by done. intros [(<- & -> & Hlen)|[Hne Hr]].
    + destruct x as [f|until|k0 ep0]; cbn in Hp; [naive_solver| |].
      * destruct Hp as (Hu & Hep' & [= -> ->] & Hpr). rewrite map_count_zero.
        2:{ intros i q Hq ->. specialize (He i _ _ Hq eq_refl). lia. }
        rewrite decide_True by (by destruct p; cbn in *; subst). cbn. lia.
      * destruct Hp as (Hk & Hep' & [= -> ->] & Hpr). destruct (Hc _ _ _ Hx) as (-> & ? & ?).
        rewrite wrap_u32_small by (unfold_int; lia).
        rewrite decide_True by (by destruct p; cbn in *; subst). lia.
    + destruct (Hc r k ep Hr) as (-> & ? & ?).
      rewrite decide_False by (intros ->; done). lia.
  - intros i q ep. rewrite lookup_insert. goal_decide Hd.
    + intros [= <-] Hpr. destruct x as [f|until|k0 ep0]; cbn in Hp; rewrite Hpr in Hp.
      * by destruct Hp as (_ & ? & _).
      * destruct Hp as (_ & _ & _ & [= ->]). lia.
      * destruct Hp as (_ & -> & _ & [= ->]). by destruct (Hc _ _ _ Hx) as (_ & _ & ?).
    + intros Hq Hpr. specialize (He i q ep Hq Hpr). lia.
  - rewrite Hst, list_fmap_insert, Hcl, list_insert_id; [done|].
    by rewrite list_lookup_fmap, Hx.
  - by rewrite Hst, (existsb_insert_same _ _ x).
Qed.

(** An outcome puts the replica of its pick in a state that is not half-open. *)
Lemma shard_inv_report s id p x' b :
  shard_inv s -> picks s !! id = Some p ->
  (forall k ep, x' <> HalfOpen k ep) -> is_Some (states (set s) !! replica p) ->
  states b = <[replica p := x']> (states (set s)) -> cfg b = cfg (set s) ->
  next_episode b = next_episode (set s) ->
  replica_healthy (metrics b) = <[replica p := is_closed x']> (replica_healthy (metrics (set s))) ->
  shard_inv (mkShard (refresh_shard_health (publish_wake b)).2 (delete id (picks s))).
Proof.
  intros [Hb Hc He Hg Hs Hep] Hid Hx' [x Hx] Hst Hcfg Hne Hm. split; cbn; rewrite ?Hcfg, ?Hne; try done.
  - intros r k ep. rewrite Hst, list_lookup_insert_Some.
    intros [(_ & -> & _)|[Hne' Hr]]; [by destruct (Hx' k ep)|].
    destruct (Hc r k ep Hr) as (-> & ? & ?).
    pose proof (map_count_delete (picks s) id p (mkPick r (Some ep)) Hid) as Hd.
    rewrite decide_False in Hd by (intros ->; done). lia.
  - intros i q ep [_ Hq]%lookup_delete_Some. eauto.
  - by rewrite Hm, Hg, Hst, list_fmap_insert.
Qed.

Lemma shard_inv_success s id p t b :
  shard_inv s -> picks s !! id = Some p -> on_success (replica p) (set s) = Some (t, b) ->
  shard_inv (mkShard b (delete id (picks s))).
Proof.
  intros HI Hid. unfold on_success. destruct (states (set s) !! replica p) as [x|] eqn:Hx; [|done].
  destruct (refresh_shard_health _) as [t' b'] eqn:Hr. intros [= -> ->].
  apply (f_equal snd) in Hr. cbn [snd] in Hr. subst b.
  eapply (shard_inv_report s id p (Closed 0)); rewrite ?Hx; try done. cbn.
  rewrite list_lookup_insert_eq; [done|]. by apply lookup_lt_Some in Hx.
Qed.

Lemma failed_state_not_half c now x k ep : failed_state c now x <> HalfOpen k ep.
Proof. destruct x; cbn; try done. by case_bool_decide. Qed.

Lemma shard_inv_failure s id p now t b :
  shard_inv s -> picks s !! id = Some p -> on_failure (replica p) now (set s) = Some (t, b) ->
  shard_inv (mkShard b (delete id (picks s))).
Proof.
  intros HI Hid. unfold on_failure. destruct (states (set s) !! replica p) as [x|] eqn:Hx; [|done].
  destruct (refresh_shard_health _) as [t' b'] eqn:Hr. intros [= -> ->].
  apply (f_equal snd) in Hr. cbn [snd] in Hr. subst b.
  pose proof (failed_state_not_half (cfg (set s)) now x) as Hnh.
  eapply (shard_inv_report s id p (failed_state (cfg (set s)) now x)); rewrite ?Hx; try done;
    destruct (is_open _ && _); try done; cbn;
    (rewrite list_lookup_insert_eq; [done|]; by apply lookup_lt_Some in Hx).
Qed.

Lemma shard_inv_release s id r ep b :
  shard_inv s -> picks s !! id = Some (mkPick r (Some ep)) ->
  release_probe r ep (set s) = Some b -> shard_inv (mkShard b (delete id (picks s))).
Proof.
  intros HI Hid. pose proof HI as [Hb Hc He Hg Hs Hep]. unfold release_probe.
  assert (Hsame : (forall k, states (set s) !! r <> Some (HalfOpen k ep)) ->
    shard_inv (mkShard (set s) (delete id (picks s)))).
  { intros Hno. split; try done; cbn.
    - intros r' k' ep' Hr'. destruct (Hc r' k' ep' Hr') as (-> & ? & ?).
      pose proof (map_count_delete (picks s) id _ (mkPick r' (Some ep')) Hid) as Hd.
      rewrite decide_False in Hd; [lia|]. intros [= -> ->]. by eapply Hno.
    - intros i q e [_ Hq]%lookup_delete_Some. eauto. }
  destruct (states (set s) !! r) as [[f|u|k cur]|] eqn:Hx; [| | |done].
  - intros [= <-]. by apply Hsame.
  - intros [= <-]. by apply Hsame.
  - case_bool_decide as Hcur; intros [= <-].
    { apply Hsame. intros k' [=]. congruence. }
    subst cur. destruct (Hc r k ep Hx) as (Hk & Hkb & Hke).
    rewrite (map_count_delete (picks s) id (mkPick r (Some ep))) in Hk by done.
    rewrite decide_True in Hk by done. split; cbn; try done.
    + intros r' k' ep'. rewrite list_lookup_insert_Some. intros [(<- & [= <- <-] & _)|[Hne Hr']].
      * unfold sat_sub. lia.
      * destruct (Hc r' k' ep' Hr') as (-> & ? & ?).
        pose proof (map_count_delete (picks s) id _ (mkPick r' (Some ep')) Hid) as Hd.
        rewrite decide_False in Hd by congruence. lia.
    + intros i q e [_ Hq]%lookup_delete_Some. eauto.
    + rewrite Hg, list_fmap_insert. symmetry. apply list_insert_id.
      by rewrite list_lookup_fmap, Hx.
    + by rewrite (existsb_insert_same _ _ (HalfOpen k ep)).
Qed.

Lemma shard_inv_drop s id r :
  shard_inv s -> picks s !! id = Some (mkPick r None) ->
  shard_inv (mkShard (set s) (delete id (picks s))).
Proof.
  intros [Hb Hc He Hg Hs Hep] Hid. split; try done; cbn.
  - intros r' k' ep' Hr'. destruct (Hc r' k' ep' Hr') as (-> & ? & ?).
    pose proof (map_count_delete (picks s) id _ (mkPick r' (Some ep')) Hid) as Hd.
    rewrite decide_False in Hd by done. lia.
  - intros i q e [_ Hq]%lookup_delete_Some. eauto.
Qed.

Lemma shard_inv_step s s' : shard_inv s -> shard_steps s s' -> shard_inv s'.
Proof.
  intros HI [o Ho]. destruct o as [id now|id|id now|id]; cbn in Ho;
    destruct (picks s !! id) as [p|] eqn:Hid; try done.
  - case_bool_decide; [|done]. destruct (next_replica now (set s)) as [[p b]|] eqn:Hn; simplify_eq.
    + by eapply shard_inv_pick.
    + done.
  - destruct (on_success _ _) as [[t b]|] eqn:E; simplify_eq. by eapply shard_inv_success.
  - destruct (on_failure _ _ _) as [[t b]|] eqn:E; simplify_eq. by eapply shard_inv_failure.
  - destruct p as [r [ep|]].
    + destruct (release_probe _ _ _) eqn:E; simplify_eq. by eapply shard_inv_release.
    + simplify_eq. by eapply shard_inv_drop.
Qed.

Lemma existsb_replicate n f : (n <> 0)%nat -> existsb is_closed (replicate n (Closed f)) = true.
Proof. by destruct n. Qed.

Lemma shard_inv_reachable n c s :
  half_open_probes c <= U32_MAX -> shard_reachable n c s -> shard_inv s.
Proof.
  intros Hu (b & Hb & Hr). unfold breaker_new in Hb. case_bool_decide; [done|].
  injection Hb as <-.
  assert (HI : shard_inv (mkShard (mkBreakerSet
    (mkBreakerConfig (failure_threshold c) (Z.min (open_for c) MAX_OPEN_FOR)
       (Z.max (half_open_probes c) 1))
    (replicate n (Closed 0)) 0
    (mkShardMetrics (replicate n true) true (replicate n O)) true 0 0) ∅)).
  { split; cbn; try done.
    - unfold_int. lia.
    - intros r k ep [? _]%lookup_replicate. done.
    - by rewrite fmap_replicate.
    - by rewrite existsb_replicate. }
  induction Hr as [|s1 s2 s3 Hs _ IH]; [done|]. apply IH. by eapply shard_inv_step.
Qed.

(** The set keeps its replicas, and a pick names one of them. *)
Definition picks_in_range (s : Shard) : Prop :=
  forall id p, picks s !! id = Some p -> is_Some (states (set s) !! replica p).

Lemma on_success_total r b : is_Some (states b !! r) -> is_Some (on_success r b).
Proof. intros [x Hx]. unfold on_success. rewrite Hx. by eexists. Qed.

Lemma on_failure_total r now b : is_Some (states b !! r) -> is_Some (on_failure r now b).
Proof. intros [x Hx]. unfold on_failure. rewrite Hx. by eexists. Qed.

Lemma release_total r ep b : is_Some (states b !! r) -> is_Some (release_probe r ep b).
Proof.
  intros [x Hx]. unfold release_probe. rewrite Hx. destruct x; try by eexists.
  case_bool_decide; by eexists.
Qed.

Lemma shard_step_length o s s' :
  shard_step o s = Some s' -> length (states (set s')) = length (states (set s)).
Proof.
  destruct o as [id now|id|id now|id]; cbn; destruct (picks s !! id) as [p|]; try done.
  - case_bool_decide; [|done]. destruct (next_replica now (set s)) as [[p b]|] eqn:Hn; intros [= <-]; [|done].
    apply next_replica_spec in Hn as [(x & x' & _ & Hst & _) _ _ _ _]. cbn. by rewrite Hst, length_insert.
  - unfold on_success. destruct (states (set s) !! replica p); [|done].
    destruct (refresh_shard_health _) as [t b] eqn:Hr. intros [= <-].
    apply (f_equal (fun x => states x.2)) in Hr. cbn in Hr |- *. by rewrite <- Hr, length_insert.
  - unfold on_failure. destruct (states (set s) !! replica p) as [x|]; [|done].
    destruct (refresh_shard_health _) as [t b] eqn:Hr. intros [= <-].
    apply (f_equal (fun x => states x.2)) in Hr. cbn in Hr |- *. rewrite <- Hr.
    destruct (is_open _ && _); cbn; by rewrite length_insert.
  - destruct p as [r [ep|]]; [|by intros [= <-]]. unfold release_probe.
    destruct (states (set s) !! r) as [[f|u|k cur]|]; try done; try (by intros [= <-]).
    case_bool_decide; intros [= <-]; [done|]. cbn. by rewrite length_insert.
Qed.

Lemma shard_step_in_range o s s' : picks_in_range s -> shard_step o s = Some s' -> picks_in_range s'.
Proof.
  intros Hr Hs. pose proof (shard_step_length _ _ _ Hs) as Hlen. intros id' p' Hp'.
  apply lookup_lt_is_Some. rewrite Hlen. apply lookup_lt_is_Some.
  assert (Hsub : picks s !! id' = Some p' -> is_Some (states (set s) !! replica p')) by exact (Hr id' p').
  destruct o as [id now|id|id now|id]; cbn in Hs; destruct (picks s !! id) as [p|] eqn:Hid; try done.
  - revert Hs. case_bool_decide; [|done].
    destruct (next_replica now (set s)) as [[q b]|] eqn:Hn; intros [= <-]; [|auto]. cbn in Hp'.
    apply lookup_insert_Some in Hp' as [[_ <-]|[_ Hp']]; [|auto].
    apply next_replica_spec in Hn as [(x & x' & Hx & _) _ _ _ _]. by eexists.
  - destruct (on_success _ _) as [[t b]|]; simplify_eq; cbn in Hp'. by apply lookup_delete_Some in Hp' as [_ ?]; auto.
  - destruct (on_failure _ _ _) as [[t b]|]; simplify_eq; cbn in Hp'. by apply lookup_delete_Some in Hp' as [_ ?]; auto.
  - destruct p as [r [ep|]]; [destruct (release_probe _ _ _)|]; simplify_eq; cbn in Hp';
      apply lookup_delete_Some in Hp' as [_ ?]; auto.
Qed.

Lemma shard_reachable_in_range n c s : shard_reachable n c s -> picks_in_range s.
Proof.
  intros (b & _ & Hrun). assert (H0 : picks_in_range (mkShard b ∅)).
  { intros id p Hp. cbn in Hp. by rewrite lookup_empty in Hp. }
  revert H0. induction Hrun as [|s1 s2 s3 [o Ho] _ IH]; [done|]. intros H0. apply IH.
  by eapply shard_step_in_range.
Qed.

(** ** Properties *)

(** probe slots are exact. In every reachable state a half-open replica
    counts exactly the probes of its current run that are still out, and they
    never exceed the budget: a slot of an ended run is never credited to a
    later one, and none leaks. The gauges read the states. *)
Theorem breaker_probes_exact (n : nat) (c : BreakerConfig) (s : Shard) :
  half_open_probes c <= U32_MAX -> shard_reachable n c s ->
  (forall r k ep, states (set s) !! r = Some (HalfOpen k ep) ->
     k = Z.of_nat (map_count (picks s) (mkPick r (Some ep))) /\
     k <= half_open_probes (cfg (set s))) /\
  replica_healthy (metrics (set s)) = is_closed <$> states (set s) /\
  shard_gauge (metrics (set s)) = existsb is_closed (states (set s)).
Proof.
  intros Hu HI%shard_inv_reachable; [|done]. destruct HI as [_ Hc _ Hg [Hs _] _].
  split_and!; try done. intros r k ep Hr. by destruct (Hc r k ep Hr) as (? & ? & _).
Qed.

(** Runs a sequence of operations. *)
Fixpoint shard_run (os : list ShardOp) (s : Shard) : option Shard :=
  match os with
  | [] => Some s
  | o :: os => match shard_step o s with Some s => shard_run os s | None => None end
  end.

Lemma shard_run_rtc os : forall s s', shard_run os s = Some s' -> rtc shard_steps s s'.
Proof.
  induction os as [|o os IH]; intros s s' H; cbn in H; [by simplify_eq|].
  destruct (shard_step o s) as [s1|] eqn:E; [|done].
  eapply rtc_l; [by exists o|by apply IH].
Qed.

(** One replica opened by a failure, probed twice past its deadline. *)
Definition demo_cfg : BreakerConfig := mkBreakerConfig 1 10 2.
Definition demo_set : BreakerSet :=
  default (mkBreakerSet demo_cfg [] 0 (mkShardMetrics [] true []) true 0 0)
    (breaker_new 1 demo_cfg).
Definition demo_ops : list ShardOp :=
  [SPick 0 0; SFailure 0 5; SPick 1 20; SPick 2 21; SRelease 1].
Definition demo_shard : Shard :=
  default (mkShard demo_set ∅) (shard_run demo_ops (mkShard demo_set ∅)).

Lemma demo_shard_reachable : shard_reachable 1 demo_cfg demo_shard.
Proof.
  exists demo_set. split; [reflexivity|]. apply (shard_run_rtc demo_ops).
  vm_compute. reflexivity.
Qed.

Lemma breaker_probes_exact_witness :
  states (set demo_shard) = [HalfOpen 1 1] /\
  (forall r k ep, states (set demo_shard) !! r = Some (HalfOpen k ep) ->
     k = Z.of_nat (map_count (picks demo_shard) (mkPick r (Some ep))) /\
     k <= half_open_probes (cfg (set demo_shard))) /\
  replica_healthy (metrics (set demo_shard)) = is_closed <$> states (set demo_shard) /\
  shard_gauge (metrics (set demo_shard)) = existsb is_closed (states (set demo_shard)).
Proof.
  split; [vm_compute; reflexivity|].
  apply (breaker_probes_exact 1 demo_cfg demo_shard); [vm_compute; discriminate|].
  exact demo_shard_reachable.
Defined.

(** a shard that offers nothing is waiting for something. When no replica
    can be picked, every replica is open with its deadline ahead, or half-open
    with a probe out whose outcome will free it; and when some breaker is open,
    [next_probe_at] names the first deadline, which is in the future and picks
    a replica when it comes. *)
Theorem breaker_never_wedged (n : nat) (c : BreakerConfig) (s : Shard) (now : Z) :
  half_open_probes c <= U32_MAX -> shard_reachable n c s ->
  next_replica now (set s) = None ->
  (forall r x, states (set s) !! r = Some x ->
     (exists until, x = Open until /\ now < until) \/
     (exists k ep id, x = HalfOpen k ep /\ picks s !! id = Some (mkPick r (Some ep)))) /\
  match next_probe_at now (set s) with
  | None => forall r until, states (set s) !! r <> Some (Open until)
  | Some at_ => now < at_ /\ is_Some (next_replica at_ (set s))
  end.
Proof.
  intros Hu HI%shard_inv_reachable Hn; [|done]. destruct HI as [Hb Hc _ _ _ _].
  assert (Hall : forall r x, states (set s) !! r = Some x ->
     (exists until, x = Open until /\ now < until) \/
     (exists k ep id, x = HalfOpen k ep /\ picks s !! id = Some (mkPick r (Some ep)))).
  { intros r x Hx. pose proof (next_replica_None now (set s) r Hn) as Ht.
    specialize (Ht (lookup_lt_Some _ _ _ Hx)). unfold try_pick in Ht. rewrite Hx in Ht.
    destruct x as [f|u|k ep]; [done| |]; case_bool_decide; try done.
    - left. exists u. split; [done|lia].
    - right. destruct (Hc r k ep Hx) as (Hk & _ & _).
      destruct (map_count_inv (picks s) (mkPick r (Some ep))) as [id Hid]; [lia|].
      by exists k, ep, id. }
  split; [done|]. unfold next_probe_at.
  set (us := omap _ (states (set s))).
  assert (Hus : forall u, u ∈ us <-> exists r : nat, states (set s) !! r = Some (Open u)).
  { intros u. unfold us. rewrite list_elem_of_omap. split.
    - intros (x & [r Hr]%list_elem_of_lookup & Hx). destruct x; simplify_eq. eauto.
    - intros [r Hr]. exists (Open u). split; [|done]. apply list_elem_of_lookup. eauto. }
  destruct us as [|u us].
  { intros r until Hr. apply (not_elem_of_nil until). apply Hus. eauto. }
  assert (Hmin : forall l a, foldl Z.min a l ∈ a :: l).
  { induction l as [|x l IH]; intros a; cbn; [by left|].
    specialize (IH (Z.min a x)). apply elem_of_cons in IH as [->|H]; [|by do 2 right].
    destruct (Z.min_spec a x) as [[_ ->]|[_ ->]]; [by left|by right; left]. }
  specialize (Hmin us u). apply Hus in Hmin as [r Hr].
  destruct (Hall r _ Hr) as [(m & [= <-] & Hlt)|(k & ep & id & [=] & _)].
  rewrite Z.max_l by lia. split; [done|].
  apply not_eq_None_Some. intros Hnone.
  pose proof (next_replica_None _ (set s) r Hnone (lookup_lt_Some _ _ _ Hr)) as Ht.
  unfold try_pick in Ht. rewrite Hr in Ht. case_bool_decide; [done|lia].
Qed.

(** The same replica with every slot of its run out. *)
Definition demo_busy : Shard :=
  default (mkShard demo_set ∅) (shard_run (demo_ops ++ [SPick 3 22]) (mkShard demo_set ∅)).

Lemma demo_busy_reachable : shard_reachable 1 demo_cfg demo_busy.
Proof.
  exists demo_set. split; [reflexivity|]. apply (shard_run_rtc (demo_ops ++ [SPick 3 22])).
  vm_compute. reflexivity.
Qed.

Lemma breaker_never_wedged_witness :
  (forall r x, states (set demo_busy) !! r = Some x ->
     (exists until, x = Open until /\ 23 < until) \/
     (exists k ep id, x = HalfOpen k ep /\ picks demo_busy !! id = Some (mkPick r (Some ep)))) /\
  match next_probe_at 23 (set demo_busy) with
  | None => forall r until, states (set demo_busy) !! r <> Some (Open until)
  | Some at_ => 23 < at_ /\ is_Some (next_replica at_ (set demo_busy))
  end.
Proof.
  apply (breaker_never_wedged 1 demo_cfg demo_busy 23); [vm_compute; discriminate| |].
  - exact demo_busy_reachable.
  - vm_compute. reflexivity.
Defined.

(** no wake is missed. Any outcome or release that changes a state of the
    set also moves the wake counter, so a task that subscribed when it found
    nothing pickable is woken before anything can be picked without it. *)
Theorem breaker_wakes_on_change (b b' : BreakerSet) (r : nat) (now ep : Z) :
  (exists t, on_success r b = Some (t, b')) \/ (exists t, on_failure r now b = Some (t, b')) \/
  release_probe r ep b = Some b' ->
  is_u64 (wake b) ->
  states b' = states b \/ wake b' <> wake b.
Proof.
  assert (Hw : is_u64 (wake b) -> wrap_u64 (wake b + 1) <> wake b).
  { intros Hu. destruct (decide (wake b = U64_MAX)) as [->|]; [done|].
    rewrite wrap_u64_small; unfold_int; lia. }
  intros [[t H]|[[t H]|H]] Hu; unfold on_success, on_failure, release_probe in H;
    destruct (states b !! r) as [x|]; try done.
  - injection H as _ <-. right. by apply Hw.
  - injection H as _ <-. right. destruct (_ && _); by apply Hw.
  - destruct x as [f|u|k cur]; [left; congruence..|].
    case_bool_decide; [left; congruence|]. injection H as <-. right. by apply Hw.
Qed.

Lemma breaker_wakes_on_change_witness :
  let b' := set (default demo_shard (shard_step (SSuccess 2) demo_shard)) in
  states b' = states (set demo_shard) \/ wake b' <> wake (set demo_shard).
Proof.
  intros b'. apply (breaker_wakes_on_change (set demo_shard) b' 0 0 0).
  - left. eexists. vm_compute. reflexivity.
  - vm_compute. split; discriminate.
Defined.
