(* ===== verification/Floats.v ===== *)
(** * Floats and durations of the standard library

    [f64] arithmetic as the Standard Library's [SpecFloat] defines it for
    binary64 (53 bits of precision, maximal exponent 1024), and the [Duration]
    operations the sources use. A [Duration] is its number of nanoseconds. *)

From Stdlib Require Import ZArith Lia SpecFloat.
From stdpp Require Import base decidable option.
From S2P Require Import Prelude.

Definition f64 : Type := spec_float.

(** [n as f64]. *)
Definition f64_of (n : Z) : f64 := binary_normalize 53 1024 n 0 false.

Definition fmul : f64 -> f64 -> f64 := SFmul 53 1024.
Definition fadd : f64 -> f64 -> f64 := SFadd 53 1024.
Definition fsub : f64 -> f64 -> f64 := SFsub 53 1024.
Definition fdiv : f64 -> f64 -> f64 := SFdiv 53 1024.

Definition is_nan (x : f64) : bool := match x with S754_nan => true | _ => false end.

Definition is_finite (x : f64) : bool :=
  match x with S754_zero _ | S754_finite _ _ _ => true | _ => false end.

(** [f64::min]: the other operand where one is NaN. *)
Definition fmin (x y : f64) : f64 :=
  if is_nan x then y else if is_nan y then x else if SFltb y x then y else x.

(** [f64::clamp], for bounds that are not NaN. *)
Definition fclamp (x lo hi : f64) : f64 :=
  let x := if SFltb x lo then lo else x in if SFltb hi x then hi else x.

(** The whole part of [m * 2 ^ e], toward zero. *)
Definition trunc (m e : Z) : Z := if decide (0 <= e) then m * 2 ^ e else m / 2 ^ (- e).

(** [x as usize], which saturates, and is zero for NaN. *)
Definition as_usize (x : f64) : Z :=
  match x with
  | S754_finite false m e => Z.min (trunc (Z.pos m) e) U64_MAX
  | S754_infinity false => U64_MAX
  | _ => 0
  end.

(** ** Durations *)

Definition NANOS_PER_SEC : Z := 1000000000.
Definition DURATION_MAX : Z := 2 ^ 64 * NANOS_PER_SEC - 1.

Definition is_duration (d : Z) : Prop := 0 <= d <= DURATION_MAX.

Definition as_secs_f64 (d : Z) : f64 :=
  fadd (f64_of (d / NANOS_PER_SEC)) (fdiv (f64_of (d mod NANOS_PER_SEC)) (f64_of NANOS_PER_SEC)).

(** [m * 2 ^ e] to the nearest integer, ties to even. *)
Definition round_even (m e : Z) : Z :=
  if decide (0 <= e) then m * 2 ^ e
  else
    let q := m / 2 ^ (- e) in
    let r := m mod 2 ^ (- e) in
    if decide (2 * r < 2 ^ (- e)) then q
    else if decide (2 ^ (- e) < 2 * r) then q + 1
    else if Z.even q then q else q + 1.

(** [Duration::try_from_secs_f64]: an error for a negative or non-finite value
    and for one past the range. *)
Definition try_from_secs_f64 (x : f64) : option Z :=
  match x with
  | S754_zero _ => Some 0
  | S754_finite false m e =>
      let d := round_even (Z.pos m * NANOS_PER_SEC) e in
      if decide (d <= DURATION_MAX) then Some d else None
  | _ => None
  end.

(** [Ord::clamp], which panics on crossed bounds. *)
Definition clamp (d lo hi : Z) : option Z :=
  if decide (hi < lo) then None
  else Some (if decide (d < lo) then lo else if decide (hi < d) then hi else d).

Lemma clamp_spec d lo hi : lo <= hi -> exists r, clamp d lo hi = Some r /\ lo <= r <= hi.
Proof.
  intros Hle. unfold clamp. rewrite decide_False by lia. eexists. split; [done|].
  goal_decides; lia.
Qed.

Lemma try_from_nonneg x d : try_from_secs_f64 x = Some d -> is_duration d.
Proof.
  unfold is_duration, DURATION_MAX, NANOS_PER_SEC.
  destruct x as [s|s| |[] m e]; cbn [try_from_secs_f64]; try done.
  { intros [= <-]. lia. }
  destruct (decide _) as [Hle|]; [|done]. intros [= <-]. split; [|exact Hle]. clear Hle.
  unfold round_even. destruct (decide (0 <= e)).
  { apply Z.mul_nonneg_nonneg; [unfold NANOS_PER_SEC; lia|apply Z.pow_nonneg; lia]. }
  assert (0 <= Z.pos m * NANOS_PER_SEC / 2 ^ (- e)) by (apply Z.div_pos; unfold NANOS_PER_SEC; lia).
  goal_decides; [lia|lia|]. destruct (Z.even _); lia.
Qed.
