(* ===== verification/EndCheck.v ===== *)
(** * When a bounded job on a feed has ended

    [EndCheck] of [spate-core/src/feed/end_check.rs], with the [Depth],
    [DepthOf] and [FeedError] of [spate-core/src/feed/mod.rs] it reads. The
    check does no I/O and holds no clock: every call takes the instant [now].
    An [Instant] is a number of nanoseconds up to [INSTANT_MAX]; adding past it
    panics, which is [None]. [Obs] records what the source reported, in order,
    so that an outcome can be traced to the reads that justify it. *)

From stdpp Require Import base list option strings.
From Stdlib Require Import ZArith Lia.
From S2P Require Import Prelude.

(** ** Instants *)

Definition SECOND : Z := 1000000000.

(** The last instant of a 64-bit seconds clock. *)
Definition INSTANT_MAX : Z := 2 ^ 63 * SECOND - 1.

(** [Instant::checked_add]; the operator [+] panics on its [None]. *)
Definition checked_add (t d : Z) : option Z :=
  if decide (t + d <= INSTANT_MAX) then Some (t + d) else None.

(** ** Depths and feed errors *)

Inductive ErrorClass := ClassRetryable | ClassRecordLevel | ClassFatal.

#[export] Instance ErrorClass_eq_dec : EqDecision ErrorClass.
Proof. solve_decision. Defined.

Inductive FeedErrorKind := Gone | Refused | Retryable | Fatal.

Record FeedError := mkFeedError {
  kind : FeedErrorKind;
  reason : string
}.

Definition class (e : FeedError) : ErrorClass :=
  match kind e with
  | Retryable => ClassRetryable
  | Gone | Refused | Fatal => ClassFatal
  end.

Inductive DepthOf := OfFeed | OfDeadLetters.

#[export] Instance DepthOf_eq_dec : EqDecision DepthOf.
Proof. solve_decision. Defined.

Record Depth := mkDepth {
  what : string;
  visible : Z;
  delayed : Z;
  in_flight : Z;
  unsent : Z;
  approximate : bool
}.

Definition depth_new (w : string) (approx : bool) : Depth := mkDepth w 0 0 0 0 approx.

Definition is_empty (d : Depth) : bool :=
  bool_decide (visible d = 0) && bool_decide (delayed d = 0) &&
  bool_decide (in_flight d = 0) && bool_decide (unsent d = 0).

(** ** The check *)

Definition END_CHECK_INTERVAL : Z := 20 * SECOND.
Definition READ_EVERY : Z := 15 * SECOND.

Inductive MarkerRead :=
| Present (run : string)
| Absent
| MarkerFailed.

Inductive EndOutcome :=
| Completed
| Stalled (d : Depth)
| Failed (e : FeedError).

Inductive EndAction :=
| Wait (at_ : option Z)
| ReadMarker
| ReadDepth (target : DepthOf)
| Receive
| EndedWith (o : EndOutcome).

Inductive Read := RMarker | RDepth (target : DepthOf) | RReceive.

#[export] Instance Read_eq_dec : EqDecision Read.
Proof. solve_decision. Defined.

Inductive Phase :=
| Opening (due : Z)
| Window (run : string) (start : option Z) (last due : Z)
| Closing (run : string)
| Receiving
| DeadLetters (due : Z)
| Ended (o : EndOutcome).

Record EndCheck := mkCheck {
  window : option Z;
  phase : Phase;
  pending : option (Read * Z);
  last_request : option Z;
  announced : option string
}.

Definition windowed (w now : Z) : EndCheck := mkCheck (Some w) (Opening now) None None None.
Definition exact (now : Z) : EndCheck := mkCheck None (Opening now) None None None.

Definition set_phase (p : Phase) (c : EndCheck) : EndCheck :=
  mkCheck (window c) p (pending c) (last_request c) (announced c).

Definition set_pending (p : option (Read * Z)) (c : EndCheck) : EndCheck :=
  mkCheck (window c) (phase c) p (last_request c) (announced c).

Definition set_announced (a : option string) (c : EndCheck) : EndCheck :=
  mkCheck (window c) (phase c) (pending c) (last_request c) a.

Definition reopen (due : Z) (c : EndCheck) : EndCheck := set_phase (Opening due) c.

Definition take_pending (r : Read) (c : EndCheck) : option (Z * EndCheck) :=
  match pending c with
  | Some (p, requested) => if decide (p = r) then Some (requested, set_pending None c) else None
  | None => None
  end.

Definition request (r : Read) (now : Z) (c : EndCheck) : EndCheck :=
  mkCheck (window c) (phase c) (Some (r, now))
    (match r with
     | RMarker | RDepth OfFeed => Some now
     | RDepth OfDeadLetters | RReceive => last_request c
     end) (announced c).

Definition action_of (r : Read) : EndAction :=
  match r with RMarker => ReadMarker | RDepth target => ReadDepth target | RReceive => Receive end.

(** A window unread past the interval is given up. *)
Definition expire (now : Z) (c : EndCheck) : option EndCheck :=
  match phase c with
  | Window _ _ last _ =>
      limit ← checked_add last END_CHECK_INTERVAL;
      Some (if decide (limit < now) then reopen now c else c)
  | _ => Some c
  end.

(** What the phase reads, and when. *)
Definition due_read (c : EndCheck) : option (option Z * Read) :=
  match phase c with
  | Ended _ => None
  | Opening due =>
      Some (Some due, match window c with None => RDepth OfFeed | Some _ => RMarker end)
  | Closing _ => Some (None, RMarker)
  | Window _ _ _ due => Some (Some due, RDepth OfFeed)
  | Receiving => Some (None, RReceive)
  | DeadLetters due => Some (Some due, RDepth OfDeadLetters)
  end.

Definition next (now : Z) (c : EndCheck) : option (EndAction * EndCheck) :=
  match pending c with
  | Some _ => Some (Wait None, c)
  | None =>
      c ← expire now c;
      Some match phase c, due_read c with
           | Ended o, _ => (EndedWith o, c)
           | _, Some (Some due, r) =>
               if decide (now < due) then (Wait (Some due), c)
               else (action_of r, request r now c)
           | _, Some (None, r) => (action_of r, request r now c)
           | _, None => (Wait None, c)
           end
  end.

Definition marker_read (now : Z) (read : MarkerRead) (c : EndCheck) : option EndCheck :=
  match take_pending RMarker c with
  | None => Some c
  | Some (requested, c) =>
      limit ← checked_add requested END_CHECK_INTERVAL;
      if decide (limit < now) then Some (reopen now c)
      else
        let closing := match phase c with Closing run => Some run | _ => None end in
        match read with
        | Present seen =>
            if decide (closing = Some seen) then Some (set_phase Receiving c)
            else Some (set_phase (Window seen None requested now) (set_announced (Some seen) c))
        | Absent =>
            due ← checked_add requested READ_EVERY;
            Some (set_phase (Opening due) (set_announced None c))
        | MarkerFailed =>
            due ← checked_add requested READ_EVERY;
            Some (set_phase (Opening due) c)
        end
  end.

(** An empty, timely read of the feed, requested at [requested]. *)
Definition advance (requested : Z) (c : EndCheck) : option EndCheck :=
  match phase c, window c with
  | Opening _, None => Some (set_phase Receiving c)
  | Window run start _ _, Some w =>
      let start := default requested start in
      let closes := match checked_add start w with
                    | Some stop => bool_decide (stop <= requested)
                    | None => false
                    end in
      if closes then Some (set_phase (Closing run) c)
      else
        due ← checked_add requested READ_EVERY;
        Some (set_phase (Window run (Some start) requested due) c)
  | _, _ => Some c
  end.

Definition depth_read (now : Z) (read : FeedError + Depth) (c : EndCheck) : option EndCheck :=
  match pending c with
  | Some (RDepth target, requested) =>
      let c := set_pending None c in
      due ← checked_add requested READ_EVERY;
      match read, target with
      | inl e, _ =>
          match class e, target with
          | ClassFatal, _ => Some (set_phase (Ended (Failed e)) c)
          | _, OfDeadLetters => Some (set_phase (DeadLetters due) c)
          | _, OfFeed => Some (reopen due c)
          end
      | inr d, OfDeadLetters =>
          if is_empty d then Some (set_phase (Ended Completed) c)
          else Some (set_phase (Ended (Stalled d)) c)
      | inr d, OfFeed =>
          if negb (is_empty d) then Some (reopen due c)
          else match window c with
               | Some _ =>
                   limit ← checked_add requested END_CHECK_INTERVAL;
                   if decide (limit < now) then Some (reopen now c) else advance requested c
               | None => advance requested c
               end
      end
  | _ => Some c
  end.

Definition restart (now : Z) (c : EndCheck) : option EndCheck :=
  match phase c with
  | Ended _ => Some c
  | _ =>
      due ← match window c, last_request c with
            | Some _, Some last => d ← checked_add last READ_EVERY; Some (Z.max d now)
            | _, _ => Some now
            end;
      Some (set_phase (Opening due) (set_pending None c))
  end.

Definition received (now : Z) (took : bool) (c : EndCheck) : option EndCheck :=
  match take_pending RReceive c with
  | None => Some c
  | Some (_, c) =>
      if took then restart now c else Some (set_phase (DeadLetters now) c)
  end.

Definition outcome (c : EndCheck) : option EndOutcome :=
  match phase c with Ended o => Some o | _ => None end.

(** ** Driving the check *)

Inductive CheckOp :=
| CNext (now : Z)
| CMarker (now : Z) (m : MarkerRead)
| CDepth (now : Z) (r : FeedError + Depth)
| CReceived (now : Z) (took : bool)
| CRestart (now : Z).

(** What the source reported: a read with the times of its request and its
    answer, or that the reader held work. *)
Inductive Obs :=
| OMarker (req ans : Z) (m : MarkerRead)
| ODepth (target : DepthOf) (req ans : Z) (r : FeedError + Depth)
| OReceive (req ans : Z) (took : bool)
| ORestart (now : Z).

Definition observe (o : CheckOp) (c : EndCheck) : list Obs :=
  match o, pending c with
  | CMarker now m, Some (RMarker, req) => [OMarker req now m]
  | CDepth now r, Some (RDepth target, req) => [ODepth target req now r]
  | CReceived now took, Some (RReceive, req) => [OReceive req now took]
  | CRestart now, _ => match phase c with Ended _ => [] | _ => [ORestart now] end
  | _, _ => []
  end.

Definition check_step (o : CheckOp) (c : EndCheck) : option EndCheck :=
  match o with
  | CNext now => snd <$> next now c
  | CMarker now m => marker_read now m c
  | CDepth now r => depth_read now r c
  | CReceived now took => received now took c
  | CRestart now => restart now c
  end.

Fixpoint check_run (os : list CheckOp) (c : EndCheck) (h : list Obs)
    : option (EndCheck * list Obs) :=
  match os with
  | [] => Some (c, h)
  | o :: os => c' ← check_step o c; check_run os c' (h ++ observe o c)
  end.

(** ** What justifies an outcome *)

Definition timely (req ans : Z) : Prop := ans <= req + END_CHECK_INTERVAL.

(** Consecutive empty reads of the feed, each taken within the interval of the
    one before, the first within it of [last], and each answered in time. *)
Fixpoint spaced (last : Z) (reads : list Obs) : Prop :=
  match reads with
  | [] => True
  | ODepth OfFeed req ans (inr d) :: reads =>
      req <= last + END_CHECK_INTERVAL /\ timely req ans /\ is_empty d = true /\ spaced req reads
  | _ => False
  end.

Definition obs_req (o : Obs) : Z :=
  match o with
  | OMarker req _ _ | ODepth _ req _ _ | OReceive req _ _ | ORestart req => req
  end.

Definition first_req (reads : list Obs) : option Z := obs_req <$> head reads.
Definition last_req (t : Z) (reads : list Obs) : Z := default t (obs_req <$> last reads).

(** The history ends with [run]'s marker and then only [reads]. *)
Definition opened (run : string) (tm : Z) (reads h : list Obs) : Prop :=
  exists rest am, h = rest ++ OMarker tm am (Present run) :: reads /\ timely tm am /\
    spaced tm reads.

(** [reads] span the window [w]. *)
Definition spans (w : Z) (reads : list Obs) : Prop :=
  exists first, first_req reads = Some first /\ first + w <= last_req first reads.

(** The history ends with what lets a job close: over a window [w] the feed
    read empty between two reads of one run's marker; or, on an exact check,
    one empty read. *)
Definition quiet (w : option Z) (h : list Obs) : Prop :=
  match w with
  | Some w => exists run tm reads t2 a2 h0,
      h = h0 ++ [OMarker t2 a2 (Present run)] /\ timely t2 a2 /\
      opened run tm reads h0 /\ spans w reads
  | None => exists rest req ans d,
      h = rest ++ [ODepth OfFeed req ans (inr d)] /\ is_empty d = true
  end.

Definition dead_letters_failed (o : Obs) : Prop :=
  match o with ODepth OfDeadLetters _ _ (inl e) => class e <> ClassFatal | _ => False end.

(** ... followed by a receive that took nothing and failed dead-letter reads. *)
Definition closed (w : option Z) (h : list Obs) : Prop :=
  exists h0 tr ar dls, h = h0 ++ OReceive tr ar false :: dls /\ quiet w h0 /\
    Forall dead_letters_failed dls.

Definition outcome_justified (w : option Z) (o : EndOutcome) (h : list Obs) : Prop :=
  match o with
  | Completed => exists h0 req ans d,
      h = h0 ++ [ODepth OfDeadLetters req ans (inr d)] /\ closed w h0 /\ is_empty d = true
  | Stalled d => exists h0 req ans,
      h = h0 ++ [ODepth OfDeadLetters req ans (inr d)] /\ closed w h0 /\ is_empty d = false
  | Failed e => exists h0 target req ans,
      h = h0 ++ [ODepth target req ans (inl e)] /\ class e = ClassFatal
  end.

Definition justified (w : option Z) (p : Phase) (h : list Obs) : Prop :=
  match p with
  | Opening _ => True
  | Window run start lst _ => is_Some w /\ exists tm reads,
      opened run tm reads h /\ start = first_req reads /\ lst = last_req tm reads
  | Closing run => exists tm reads w', w = Some w' /\ opened run tm reads h /\ spans w' reads
  | Receiving => quiet w h
  | DeadLetters _ => closed w h
  | Ended o => outcome_justified w o h
  end.

(** The outstanding read is the phase's own, and a window's was taken in time. *)
Definition pending_ok (c : EndCheck) : Prop :=
  match pending c with
  | None => True
  | Some (r, req) => (snd <$> due_read c) = Some r /\
      match phase c with
      | Window _ _ lst _ => req <= lst + END_CHECK_INTERVAL
      | _ => True
      end
  end.

Record check_inv (w : option Z) (c : EndCheck) (h : list Obs) : Prop := mk_check_inv {
  ck_window : window c = w;
  ck_pending : pending_ok c;
  ck_justified : justified w (phase c) h
}.

Lemma checked_add_Some t d r : checked_add t d = Some r <-> r = t + d /\ t + d <= INSTANT_MAX.
Proof. unfold checked_add. destruct (decide _); naive_solver. Qed.

Lemma last_req_snoc t reads o : last_req t (reads ++ [o]) = obs_req o.
Proof. unfold last_req. by rewrite last_snoc. Qed.

Lemma first_req_snoc reads o :
  first_req (reads ++ [o]) = Some (default (obs_req o) (first_req reads)).
Proof. by destruct reads. Qed.

Lemma last_req_first t t' reads s : first_req reads = Some s -> last_req t reads = last_req t' reads.
Proof. unfold last_req. destruct (last reads) eqn:Hl; [done|]. by apply last_None in Hl as ->. Qed.

Lemma spaced_snoc t reads req ans d :
  spaced t reads -> req <= last_req t reads + END_CHECK_INTERVAL -> timely req ans ->
  is_empty d = true -> spaced t (reads ++ [ODepth OfFeed req ans (inr d)]).
Proof.
  revert t. induction reads as [|o reads IH]; intros t Hs Hreq Ht Hd; [by cbn; auto|].
  destruct o as [| [] r a [e|d']| |]; try done. cbn [spaced app] in *.
  destruct Hs as (H1 & H2 & H3 & H4). split_and!; auto. apply IH; auto.
  destruct reads as [|o reads]; [done|].
  by rewrite (last_req_first r t (o :: reads) (obs_req o) eq_refl).
Qed.

Lemma opened_snoc run tm reads h req ans d :
  opened run tm reads h -> req <= last_req tm reads + END_CHECK_INTERVAL -> timely req ans ->
  is_empty d = true ->
  opened run tm (reads ++ [ODepth OfFeed req ans (inr d)]) (h ++ [ODepth OfFeed req ans (inr d)]).
Proof.
  intros (rest & am & -> & Ht & Hs) Hreq Hans Hd. exists rest, am. split_and!; auto.
  - by rewrite <- app_assoc.
  - by apply spaced_snoc.
Qed.

(** With no read outstanding, only the phase needs its justification. *)
Lemma idle_inv w c h :
  window c = w -> pending c = None -> justified w (phase c) h -> check_inv w c h.
Proof. intros Hw Hp Hj. constructor; auto. unfold pending_ok. by rewrite Hp. Qed.

Lemma request_inv w c h due r now :
  check_inv w c h -> due_read c = Some (due, r) ->
  (forall run st lst d, phase c = Window run st lst d -> now <= lst + END_CHECK_INTERVAL) ->
  check_inv w (request r now c) h.
Proof.
  intros [Hw _ Hj] Hd Hwin. constructor; auto. unfold pending_ok, due_read in *. cbn.
  rewrite Hd. split; [done|]. destruct (phase c) eqn:Hph; auto. by eapply Hwin.
Qed.

Lemma expire_inv w now c c' h :
  check_inv w c h -> pending c = None -> expire now c = Some c' ->
  check_inv w c' h /\ pending c' = None /\
  forall run st lst d, phase c' = Window run st lst d -> now <= lst + END_CHECK_INTERVAL.
Proof.
  intros Hinv Hpe. unfold expire. destruct (phase c) as [|run st lst due| | | |] eqn:Hph;
    try by intros [= <-]; split_and!; auto; rewrite Hph.
  destruct (checked_add lst END_CHECK_INTERVAL) as [lim|] eqn:Hl; cbn; [|done].
  apply checked_add_Some in Hl as [-> _]. intros [= <-].
  destruct (decide _) as [Hgt|Hle]; split_and!; auto; try done.
  - destruct Hinv as [Hw _ _]. by apply idle_inv.
  - rewrite Hph. intros ? ? ? ? [= <- <- <- <-]. lia.
Qed.

Lemma next_inv w now c h a c' :
  check_inv w c h -> next now c = Some (a, c') -> check_inv w c' h.
Proof.
  intros Hinv. unfold next. destruct (pending c) eqn:Hpe; [by intros [= <- <-]|].
  destruct (expire now c) as [c1|] eqn:Hg; cbn; [|done].
  destruct (expire_inv _ _ _ _ _ Hinv Hpe Hg) as (Hinv1 & _ & Hwin).
  destruct (due_read c1) as [[[due|] r]|] eqn:Hd; destruct (phase c1) eqn:Hph;
    repeat destruct (decide _); intros [= <- <-]; auto;
    (eapply request_inv; [done|done|]); rewrite Hph; eauto.
Qed.

Lemma take_pending_Some r c req c' :
  take_pending r c = Some (req, c') ->
  pending c = Some (r, req) /\ c' = set_pending None c.
Proof.
  unfold take_pending. destruct (pending c) as [[p q]|]; [|done].
  destruct (decide _) as [->|]; [|done]. by intros [= <- <-].
Qed.

Lemma take_pending_None r c : take_pending r c = None -> forall q, pending c <> Some (r, q).
Proof.
  unfold take_pending. destruct (pending c) as [[p q]|]; [|done].
  destruct (decide _); [done|]. intros _ q' [= ? ?]. congruence.
Qed.

Lemma marker_read_inv w now m c h c' :
  check_inv w c h -> marker_read now m c = Some c' -> check_inv w c' (h ++ observe (CMarker now m) c).
Proof.
  intros Hinv. unfold marker_read. destruct (take_pending RMarker c) as [[req c1]|] eqn:Htp.
  2:{ intros [= <-]. cbn [observe]. pose proof (take_pending_None _ _ Htp) as Hno.
      destruct (pending c) as [[[] q]|] eqn:Hpe; rewrite ?app_nil_r; try done. by destruct (Hno q). }
  apply take_pending_Some in Htp as [Hpe ->]. cbn [observe]. rewrite Hpe.
  pose proof Hinv as [Hw Hp Hj]. unfold pending_ok in Hp. rewrite Hpe in Hp. destruct Hp as [Hdue _].
  destruct (checked_add req END_CHECK_INTERVAL) as [lim|] eqn:Hl; cbn; [|done].
  apply checked_add_Some in Hl as [-> _].
  destruct (decide _) as [|Hin]; [intros [= <-]; by apply idle_inv|].
  destruct m as [seen| |].
  - destruct (decide _) as [He|Hne]; intros [= <-]; apply idle_inv; cbn; auto.
    + destruct (phase c) as [| |run| | |] eqn:Hph; try done. injection He as ->.
      destruct Hj as (tm & reads & w' & -> & Hop & Hsp).
      exists seen, tm, reads, req, now, h. split_and!; auto. unfold timely. lia.
    + split.
      { unfold due_read in Hdue. rewrite Hw in Hdue.
        destruct (phase c), w as [w|]; try done. by destruct Hj as (? & ? & ? & ? & _). }
      exists req, []. split_and!; auto. exists h, now. split_and!; auto; [|done]. unfold timely. lia.
  - destruct (checked_add req READ_EVERY); cbn; [|done]. intros [= <-]. by apply idle_inv.
  - destruct (checked_add req READ_EVERY); cbn; [|done]. intros [= <-]. by apply idle_inv.
Qed.

Lemma advance_inv w now req d c h c' :
  check_inv w c h -> pending c = Some (RDepth OfFeed, req) -> is_empty d = true ->
  (is_Some w -> timely req now) -> advance req (set_pending None c) = Some c' ->
  check_inv w c' (h ++ [ODepth OfFeed req now (inr d)]).
Proof.
  intros [Hw Hp Hj] Hpe Hd Ht. unfold pending_ok in Hp. rewrite Hpe in Hp.
  destruct Hp as [Hdue Hwin]. unfold advance. cbn.
  destruct (phase c) as [due|run st lst due| | | |] eqn:Hph; unfold due_read in Hdue; rewrite Hph in Hdue;
    try done; rewrite Hw in *; destruct w as [w|]; try done.
  - intros [= <-]. apply idle_inv; cbn; auto. by exists h, req, now, d.
  - destruct Hj as (_ & tm & reads & Hop & Hst & Hlst). subst lst.
    pose proof (opened_snoc _ _ _ _ req now d Hop Hwin (Ht (mk_is_Some _ _ eq_refl)) Hd) as Hop'.
    destruct (checked_add (default req st) w) as [stop|] eqn:Hca;
      [apply checked_add_Some in Hca as [-> _]; destruct (bool_decide_reflect (default req st + w <= req))|].
    + intros [= <-]. apply idle_inv; cbn; auto. exists tm, (reads ++ [ODepth OfFeed req now (inr d)]), w.
      split_and!; auto. exists (default req st). rewrite first_req_snoc, last_req_snoc, <- Hst. auto.
    + destruct (checked_add req READ_EVERY); cbn; [|done]. intros [= <-]. apply idle_inv; cbn; auto.
      split; [done|]. eexists _, _. split_and!; [exact Hop'| |by rewrite last_req_snoc]. by rewrite first_req_snoc, Hst.
    + destruct (checked_add req READ_EVERY); cbn; [|done]. intros [= <-]. apply idle_inv; cbn; auto.
      split; [done|]. eexists _, _. split_and!; [exact Hop'| |by rewrite last_req_snoc]. by rewrite first_req_snoc, Hst.
  - destruct Hj as ([? ?] & _). done.
Qed.

Lemma depth_read_inv w now r c h c' :
  check_inv w c h -> depth_read now r c = Some c' -> check_inv w c' (h ++ observe (CDepth now r) c).
Proof.
  intros Hinv. pose proof Hinv as [Hw Hp Hj]. unfold depth_read. cbn [observe].
  destruct (pending c) as [[[|target|] req]|] eqn:Hpe; try (intros [= <-]; by rewrite app_nil_r).
  destruct (checked_add req READ_EVERY) as [due|]; cbn; [|done].
  assert (Hclosed : target = OfDeadLetters -> closed w h).
  { intros ->. unfold pending_ok in Hp. rewrite Hpe in Hp. destruct Hp as [Hp _].
    unfold due_read in Hp. destruct (phase c); try done. by destruct (window c). }
  destruct r as [e|d].
  { assert (Hend : class e = ClassFatal ->
      check_inv w (set_phase (Ended (Failed e)) (set_pending None c))
        (h ++ [ODepth target req now (inl e)])).
    { intros He. apply idle_inv; cbn; auto. by eexists _, _, _, _. }
    destruct (class e) eqn:He, target; intros [= <-]; auto; apply idle_inv; cbn; auto.
    all: destruct (Hclosed eq_refl) as (h0 & tr & ar & dls & -> & Hq & Hdls).
    all: exists h0, tr, ar, (dls ++ [ODepth OfDeadLetters req now (inl e)]).
    all: rewrite <- app_assoc; split_and!; auto; apply Forall_app; split; auto.
    all: constructor; [cbn; congruence|done]. }
  destruct target.
  - destruct (is_empty d) eqn:Hd; cbn; [|intros [= <-]; by apply idle_inv]. rewrite Hw.
    destruct w as [w|]; [|intros Ha; eapply advance_inv; eauto; by intros [? ?]].
    destruct (checked_add req END_CHECK_INTERVAL) as [lim|] eqn:Hl; cbn; [|done].
    apply checked_add_Some in Hl as [-> _].
    destruct (decide _) as [|Hin]; [intros [= <-]; by apply idle_inv|].
    intros Ha. eapply advance_inv; eauto. unfold timely. lia.
  - destruct (is_empty d) eqn:Hd; intros [= <-]; apply idle_inv; cbn; auto.
    + by eexists h, req, now, d; auto.
    + by eexists h, req, now; auto.
Qed.

Lemma restart_inv w now c h' c' :
  window c = w -> (forall o, phase c = Ended o -> check_inv w c h') ->
  restart now c = Some c' -> check_inv w c' h'.
Proof.
  intros Hw He. unfold restart.
  destruct (phase c) eqn:Hph; try (destruct (match window c with None => _ | _ => _ end);
    cbn; [|done]; intros [= <-]; by apply idle_inv).
  intros [= <-]. by eapply He.
Qed.

Lemma received_inv w now took c h c' :
  check_inv w c h -> received now took c = Some c' ->
  check_inv w c' (h ++ observe (CReceived now took) c).
Proof.
  intros Hinv. unfold received. destruct (take_pending RReceive c) as [[req c1]|] eqn:Htp.
  2:{ intros [= <-]. cbn [observe]. pose proof (take_pending_None _ _ Htp) as Hno.
      destruct (pending c) as [[[] q]|] eqn:Hpe; rewrite ?app_nil_r; try done. by destruct (Hno q). }
  apply take_pending_Some in Htp as [Hpe ->]. cbn [observe]. rewrite Hpe.
  pose proof Hinv as [Hw Hp Hj]. unfold pending_ok in Hp. rewrite Hpe in Hp. destruct Hp as [Hdue _].
  assert (Hph : phase c = Receiving).
  { unfold due_read in Hdue. destruct (phase c); try done. by destruct (window c). }
  destruct took.
  - intros Hr. eapply restart_inv in Hr; [done|done|cbn; congruence].
  - intros [= <-]. apply idle_inv; cbn; auto. rewrite Hph in Hj.
    exists h, req, now, []. auto.
Qed.

Lemma check_step_inv w o c h c' :
  check_inv w c h -> check_step o c = Some c' -> check_inv w c' (h ++ observe o c).
Proof.
  intros Hinv. destruct o as [now|now m|now r|now took|now]; cbn [check_step].
  - cbn [observe]. rewrite app_nil_r. destruct (next now c) as [[a c1]|] eqn:Hn; cbn; [|done].
    intros [= <-]. by eapply next_inv.
  - by apply marker_read_inv.
  - by apply depth_read_inv.
  - by apply received_inv.
  - intros Hr. eapply restart_inv in Hr; [done|apply Hinv|].
    intros o Hph. cbn [observe]. rewrite Hph, app_nil_r. done.
Qed.

Lemma check_run_inv w os c h c' h' :
  check_inv w c h -> check_run os c h = Some (c', h') -> check_inv w c' h'.
Proof.
  revert c h. induction os as [|o os IH]; intros c h Hinv; cbn; [by intros [= <- <-]|].
  destruct (check_step o c) as [c1|] eqn:Hs; cbn; [|done]. by apply IH, check_step_inv.
Qed.

(** ** Panics *)

Definition op_time (o : CheckOp) : Z :=
  match o with
  | CNext t | CMarker t _ | CDepth t _ | CReceived t _ | CRestart t => t
  end.

(** The check's instants are at least the interval away from the clock's end. *)
Definition near : Z := INSTANT_MAX - END_CHECK_INTERVAL.

Record times_ok (c : EndCheck) : Prop := mk_times_ok {
  to_last : forall run st lst due, phase c = Window run st lst due -> lst <= near;
  to_request : forall t, last_request c = Some t -> t <= near;
  to_pending : forall r t, pending c = Some (r, t) -> t <= near
}.

Lemma checked_add_near t d :
  t <= near -> d <= END_CHECK_INTERVAL -> checked_add t d = Some (t + d).
Proof. unfold near. intros. apply checked_add_Some. lia. Qed.

Lemma read_every_le : READ_EVERY <= END_CHECK_INTERVAL.
Proof. by vm_compute. Qed.

Lemma next_total now c :
  times_ok c -> now <= near -> exists a c', next now c = Some (a, c') /\ times_ok c'.
Proof.
  intros Hok Hn. pose proof Hok as [Hl Hr Hp]. unfold next.
  destruct (pending c) eqn:Hpe; [by eexists _, _|].
  assert (Hg : exists c1, expire now c = Some c1 /\ times_ok c1 /\ pending c1 = None).
  { unfold expire. destruct (phase c) eqn:Hph;
      try (by eexists).
    rewrite checked_add_near by (eauto || done). cbn. eexists. split; [done|].
    destruct (decide _); split; auto; constructor; cbn; rewrite ?Hph; eauto; congruence. }
  destruct Hg as (c1 & -> & Hok1 & Hpe1). pose proof Hok1 as [Hl1 Hr1 Hp1]. cbn.
  assert (Hreq : forall r, times_ok (request r now c1)).
  { intros r. constructor; cbn; eauto; [|by intros ? ? [= <- <-]].
    destruct r as [|[]|]; eauto; by intros ? [= <-]. }
  destruct (due_read c1) as [[[due|] r]|]; destruct (phase c1) eqn:Hph;
    repeat destruct (decide _); eexists _, _; split; try done; auto.
Qed.

Lemma restart_total c now : times_ok c -> exists c', restart now c = Some c' /\ times_ok c'.
Proof.
  intros Hok. pose proof Hok as [Hl Hr Hp]. unfold restart.
  assert (Hout : forall due, times_ok (set_phase (Opening due) (set_pending None c)))
    by (intros; constructor; cbn; eauto; done).
  assert (Hdue : exists due, match window c, last_request c with
                             | Some _, Some last => d ← checked_add last READ_EVERY; Some (Z.max d now)
                             | _, _ => Some now
                             end = Some due).
  { destruct (window c), (last_request c) eqn:Hlr; try by eexists.
    rewrite checked_add_near by (auto using read_every_le). by eexists. }
  destruct Hdue as [due Hdue]. destruct (phase c); rewrite ?Hdue; cbn; by eexists.
Qed.

Lemma check_step_total o c :
  times_ok c -> op_time o <= near -> exists c', check_step o c = Some c' /\ times_ok c'.
Proof.
  intros Ht Hn. pose proof Ht as [Hl Hr Hp].
  assert (Hset : forall p, (forall run st lst due, p = Window run st lst due -> lst <= near) ->
    times_ok (set_phase p (set_pending None c))) by (intros p Hpw; constructor; cbn; eauto; done).
  assert (Hreo : times_ok (set_pending None c)) by (constructor; cbn; eauto; done).
  pose proof restart_total as Hrst.
  destruct o as [now|now m|now r|now took|now]; cbn [check_step op_time] in *.
  - destruct (next_total now c Ht Hn) as (a & c' & -> & Hc'). by exists c'.
  - unfold marker_read. destruct (take_pending RMarker c) as [[req c1]|] eqn:Htp; [|by exists c].
    apply take_pending_Some in Htp as [Hpe ->]. specialize (Hp _ _ Hpe).
    rewrite !checked_add_near by (auto using read_every_le || done). cbn.
    destruct (decide _); [eexists; split; [done|]; by apply Hset|].
    destruct m as [seen| |]; [destruct (decide _)| |]; eexists; (split; [done|]);
      constructor; cbn; try done; eauto. by intros ? ? ? ? [= <- <- <- <-].
  - unfold depth_read. destruct (pending c) as [[[|target|] req]|] eqn:Hpe; try by exists c.
    specialize (Hp _ _ eq_refl).
    rewrite !checked_add_near by (auto using read_every_le || done). cbn.
    destruct r as [e|d]; [destruct (class e), target; eexists; (split; [done|]); by apply Hset|].
    assert (Hadv : exists c', advance req (set_pending None c) = Some c' /\ times_ok c').
    { unfold advance. cbn. destruct (phase c) eqn:Hph, (window c); try (by eexists);
        try (eexists; split; [done|by apply Hset]).
      rewrite (checked_add_near req) by (auto using read_every_le).
      destruct (match checked_add _ _ with Some _ => _ | None => _ end); cbn;
        eexists; (split; [done|]); apply Hset; [done|by intros ? ? ? ? [= <- <- <- <-]]. }
    destruct target, (is_empty d); cbn; try (eexists; split; [done|by apply Hset]).
    destruct (window c); cbn; [|done]. destruct (decide _); [|done].
    eexists; split; [done|by apply Hset].
  - unfold received. destruct (take_pending RReceive c) as [[req c1]|] eqn:Htp; [|by exists c].
    apply take_pending_Some in Htp as [Hpe ->].
    destruct took; [by apply Hrst|eexists; split; [done|by apply Hset]].
  - by apply Hrst.
Qed.

Lemma check_run_total os c h :
  times_ok c -> Forall (fun o => op_time o <= near) os ->
  exists c' h', check_run os c h = Some (c', h') /\ times_ok c'.
Proof.
  revert c h. induction os as [|o os IH]; intros c h Ht HF; [by eexists _, _|].
  apply Forall_cons in HF as [Ho HF]. cbn [check_run].
  destruct (check_step_total o c Ht Ho) as (c1 & -> & Ht1). cbn. by apply IH.
Qed.

(** ** A quiet feed ends the job *)

(** [n] empty reads from [t], one read interval apart. *)
Fixpoint empty_reads (n : nat) (t : Z) (d : Depth) : list CheckOp :=
  match n with
  | O => []
  | S n => [CNext t; CDepth t (inr d)] ++ empty_reads n (t + READ_EVERY) d
  end.

(** The reads past the opening marker: [n] are needed for the window [w]. *)
Definition reads_for (w : Z) : nat := S (Z.to_nat ((w + READ_EVERY - 1) / READ_EVERY)).

Definition last_read (w t : Z) : Z := t + READ_EVERY * ((w + READ_EVERY - 1) / READ_EVERY).

(** A source whose feed stays empty, whose marker stays [run]'s and which takes
    nothing, polling every [READ_EVERY] from [t]. *)
Definition quiet_ops (run : string) (w t : Z) (d : Depth) : list CheckOp :=
  let z := last_read w t in
  [CNext t; CMarker t (Present run)] ++ empty_reads (reads_for w) t d ++
  [CNext z; CMarker z (Present run); CNext z; CReceived z false; CNext z; CDepth z (inr d)].

Lemma check_run_app os1 os2 c h :
  check_run (os1 ++ os2) c h =
  match check_run os1 c h with Some (c', h') => check_run os2 c' h' | None => None end.
Proof.
  revert c h. induction os1 as [|o os1 IH]; intros c h; cbn; [done|].
  destruct (check_step o c); cbn; auto.
Qed.

(** One empty read inside a window. *)
Lemma window_read w run st lst t c h d :
  window c = Some w -> pending c = None -> phase c = Window run st lst t ->
  t <= lst + END_CHECK_INTERVAL -> lst <= near -> t <= near -> is_empty d = true ->
  exists c' h', check_run [CNext t; CDepth t (inr d)] c h = Some (c', h') /\
    window c' = Some w /\ pending c' = None /\
    phase c' = (if decide (default t st + w <= t) then Closing run
                else Window run (Some (default t st)) t (t + READ_EVERY)).
Proof.
  intros Hw Hp Hph Hin Hl Ht Hd. pose proof read_every_le as Hre.
  cbn [check_run check_step]. unfold next, expire. rewrite Hp, Hph.
  rewrite checked_add_near by (done || lia). cbn -[READ_EVERY END_CHECK_INTERVAL near].
  rewrite decide_False by lia. unfold due_read. rewrite Hph. rewrite decide_False by lia.
  cbn -[READ_EVERY END_CHECK_INTERVAL near]. unfold depth_read. cbn [request pending].
  rewrite !checked_add_near by (done || lia). cbn -[READ_EVERY END_CHECK_INTERVAL near checked_add].
  rewrite Hd, Hw. cbn -[READ_EVERY END_CHECK_INTERVAL near checked_add].
  rewrite decide_False by (unfold END_CHECK_INTERVAL, SECOND; lia).
  unfold advance. cbn -[READ_EVERY END_CHECK_INTERVAL near checked_add].
  rewrite Hph, Hw, (checked_add_near t READ_EVERY) by (done || lia).
  assert (Hc : match checked_add (default t st) w with
               | Some stop => bool_decide (stop <= t) | None => false
               end = bool_decide (default t st + w <= t)).
  { destruct (checked_add (default t st) w) as [z|] eqn:Hca.
    - by apply checked_add_Some in Hca as [-> _].
    - symmetry. apply bool_decide_eq_false. intros Hle. unfold checked_add in Hca.
      destruct (decide _) as [|Hno]; [done|]. unfold near, END_CHECK_INTERVAL, SECOND in Ht. lia. }
  rewrite Hc. case_bool_decide as Hb; cbn -[READ_EVERY near]; eexists _, _;
    (split_and!; [done|done|done|]); cbn -[READ_EVERY]; by case_decide.
Qed.

(** Empty reads one interval apart carry a window that started at [s] to its
    close, at the first read at or past [s + w]. *)
Lemma window_closes n : forall w run st lst s t c h d,
  window c = Some w -> pending c = None -> phase c = Window run st lst t ->
  default t st = s -> t <= lst + END_CHECK_INTERVAL -> lst <= near ->
  t + READ_EVERY * Z.of_nat n <= near -> is_empty d = true ->
  (forall k, 0 <= k < Z.of_nat n -> t + READ_EVERY * k < s + w) ->
  s + w <= t + READ_EVERY * Z.of_nat n ->
  exists c' h', check_run (empty_reads (S n) t d) c h = Some (c', h') /\
    window c' = Some w /\ pending c' = None /\ phase c' = Closing run.
Proof.
  assert (Hre : READ_EVERY = 15000000000) by done.
  induction n as [|n IH]; intros w run st lst s t c h d Hw Hp Hph Hs Hin Hl Hn Hd Hlt Hge;
    cbn [empty_reads]; rewrite check_run_app;
    destruct (window_read w run st lst t c h d) as (c1 & h1 & -> & Hw1 & Hp1 & Hph1);
    try done; try lia; rewrite Hs in Hph1.
  - rewrite decide_True in Hph1 by lia. by exists c1, h1.
  - rewrite decide_False in Hph1 by (specialize (Hlt 0); lia).
    eapply (IH w run (Some s) t s (t + READ_EVERY)); eauto; try lia.
    + unfold END_CHECK_INTERVAL, SECOND. lia.
    + intros k Hk. specialize (Hlt (k + 1)). lia.
Qed.

Lemma take_pending_request r now c :
  take_pending r (request r now c) = Some (now, set_pending None (request r now c)).
Proof. unfold take_pending. cbn. by rewrite decide_True. Qed.

(** With nothing outstanding and its read due, the check asks for it. *)
Lemma next_due t c due r :
  pending c = None -> due_read c = Some (due, r) -> (forall x, due = Some x -> x <= t) ->
  (forall run st lst d, phase c <> Window run st lst d) ->
  next t c = Some (action_of r, request r t c).
Proof.
  intros Hp Hd Hx Hnw. unfold next, expire. rewrite Hp.
  assert (Hne : forall o, phase c <> Ended o) by (unfold due_read in Hd; intros o Ho; by rewrite Ho in Hd).
  destruct (phase c) eqn:Hph; try (by destruct (Hne o)); try (by edestruct Hnw);
    cbn [mbind option_bind]; rewrite Hd, Hph; (destruct due as [x|]; [|done]);
    by rewrite decide_False by (specialize (Hx x eq_refl); lia).
Qed.

Lemma marker_read_timely t m c :
  t <= near ->
  marker_read t (Present m) (request RMarker t c) =
    Some (if decide (match phase c with Closing run => Some run | _ => None end = Some m)
          then set_phase Receiving (set_pending None (request RMarker t c))
          else set_phase (Window m None t t)
                 (set_announced (Some m) (set_pending None (request RMarker t c)))).
Proof.
  intros Ht. unfold marker_read. rewrite take_pending_request, checked_add_near by done.
  cbn [mbind option_bind]. rewrite decide_False by (unfold END_CHECK_INTERVAL, SECOND; lia).
  cbn [phase set_pending request]. by destruct (decide _).
Qed.

Lemma opening_read w run t due c h :
  window c = Some w -> pending c = None -> phase c = Opening due -> due <= t -> t <= near ->
  exists c' h', check_run [CNext t; CMarker t (Present run)] c h = Some (c', h') /\
    window c' = Some w /\ pending c' = None /\ phase c' = Window run None t t.
Proof.
  intros Hw Hp Hph Hdue Ht. cbn [check_run check_step].
  rewrite (next_due t c (Some due) RMarker); [|done| |by intros ? [= <-]|by rewrite Hph].
  2:{ unfold due_read. by rewrite Hph, Hw. }
  cbn -[marker_read near]. rewrite marker_read_timely, Hph by done. cbn. by eexists _, _.
Qed.

Lemma closing_reads w run z c h d :
  window c = Some w -> pending c = None -> phase c = Closing run -> z <= near ->
  is_empty d = true ->
  exists c' h', check_run [CNext z; CMarker z (Present run); CNext z; CReceived z false;
      CNext z; CDepth z (inr d)] c h = Some (c', h') /\ outcome c' = Some Completed.
Proof.
  intros Hw Hp Hph Hz Hd. pose proof read_every_le as Hre.
  cbn [check_run check_step]. rewrite (next_due z c None RMarker); [|done| |done|by rewrite Hph].
  2:{ unfold due_read. by rewrite Hph. }
  cbn -[marker_read near next received depth_read]. rewrite marker_read_timely, Hph by done.
  rewrite decide_True by done. cbn -[near next received depth_read].
  rewrite (next_due z _ None RReceive); try done. cbn -[near next received depth_read].
  unfold received. rewrite take_pending_request. cbn -[near next depth_read].
  rewrite (next_due z _ (Some z) (RDepth OfDeadLetters)); try done; [|by intros ? [= <-]].
  cbn -[near depth_read]. unfold depth_read. cbn -[near READ_EVERY checked_add].
  rewrite checked_add_near by done. cbn -[near READ_EVERY]. rewrite Hd. by eexists _, _.
Qed.

(** C27: a job ends only on proof. On any sequence of calls whose instants
    are in the clock's range the check never panics, and an outcome follows from
    the reports it got. A windowed check completes only after one run's end
    marker, then nothing but empty reads of the feed spanning the window, none
    later than 20 s after the one before nor answered later than that, then the
    same run's marker, a receive that took nothing, and an empty dead-letter
    destination, with no restart in between; an exact check only after an empty
    read, a receive that took nothing and an empty dead-letter destination. It
    is stalled only when that last read counted units, and failed only on a
    fatal depth read. *)
Theorem end_check_sound (w : option Z) (t0 : Z) (os : list CheckOp) :
  Forall (fun o => op_time o <= near) os ->
  exists c h,
    check_run os (match w with Some w => windowed w t0 | None => exact t0 end) [] = Some (c, h) /\
    (forall o, outcome c = Some o -> outcome_justified w o h).
Proof.
  intros HF. set (c0 := match w with Some _ => _ | None => _ end).
  assert (Hok : times_ok c0) by (subst c0; destruct w; by constructor).
  assert (Hinv : check_inv w c0 []) by (subst c0; destruct w; by apply idle_inv).
  destruct (check_run_total os c0 [] Hok HF) as (c & h & Hrun & _).
  exists c, h. split; [done|]. intros o Ho.
  destruct (check_run_inv _ _ _ _ _ _ Hinv Hrun) as [_ _ Hj].
  unfold outcome in Ho. by destruct (phase c); simplify_eq.
Qed.

Definition empty_depth : Depth := depth_new "queue" false.

Lemma end_check_sound_witness :
  exists h, outcome_justified (Some (30 * SECOND)) Completed h.
Proof.
  destruct (end_check_sound (Some (30 * SECOND)) 0 (quiet_ops "run-a" (30 * SECOND) 0 empty_depth))
    as (c & h & Hrun & Hj).
  - apply (bool_decide_unpack _). vm_compute. exact I.
  - exists h. apply Hj.
    assert (Hv : (outcome ∘ fst) <$> check_run (quiet_ops "run-a" (30 * SECOND) 0 empty_depth)
              (windowed (30 * SECOND) 0) [] = Some (Some Completed)) by (vm_compute; reflexivity).
    rewrite Hrun in Hv. by injection Hv.
Defined.

(** a quiet feed ends the job. Whatever state a windowed check is in,
    short of having ended, once the reader restarts it, if the source then polls
    every 15 s, its feed stays empty, the end marker keeps naming one run and the
    closing receive takes nothing, the check completes, at the first poll at or
    past the window. *)
Theorem end_check_completes (w t t1 : Z) (run : string) (d : Depth) (c : EndCheck) (h : list Obs) :
  window c = Some w -> 0 <= w -> outcome c = None -> is_empty d = true ->
  t <= t1 -> (forall l, last_request c = Some l -> l <= near /\ l + READ_EVERY <= t1) ->
  last_read w t1 <= near ->
  exists c' h', check_run (CRestart t :: quiet_ops run w t1 d) c h = Some (c', h') /\
    outcome c' = Some Completed.
Proof.
  intros Hw Hw0 Ho Hd Ht Hlr Hz. assert (Hre : READ_EVERY = 15000000000) by done.
  set (n := (w + READ_EVERY - 1) / READ_EVERY).
  assert (Hn : 0 <= n) by (apply Z.div_pos; lia).
  assert (Hdiv : w <= READ_EVERY * n /\ READ_EVERY * (n - 1) < w).
  { subst n. pose proof (Z.div_mod (w + READ_EVERY - 1) READ_EVERY).
    pose proof (Z.mod_pos_bound (w + READ_EVERY - 1) READ_EVERY). lia. }
  unfold last_read in Hz. fold n in Hz.
  assert (Hr : exists due c1, restart t c = Some c1 /\ window c1 = Some w /\ pending c1 = None /\
             phase c1 = Opening due /\ due <= t1).
  { unfold restart. rewrite Hw. unfold outcome in Ho.
    destruct (last_request c) as [l|] eqn:Hl.
    - destruct (Hlr l eq_refl). rewrite checked_add_near by (done || lia).
      destruct (phase c); try done; cbn -[READ_EVERY]; eexists _, _; split_and!; try done; lia.
    - destruct (phase c); try done; cbn; eexists _, _; split_and!; done. }
  destruct Hr as (due & c1 & Hr & Hw1 & Hp1 & Hph1 & Hdue).
  cbn [check_run check_step]. rewrite Hr. cbn [mbind option_bind].
  unfold quiet_ops. rewrite check_run_app.
  destruct (opening_read w run t1 due c1 (h ++ observe (CRestart t) c)) as (c2 & h2 & -> & Hw2 & Hp2 & Hph2);
    try done; [lia|].
  rewrite check_run_app. unfold reads_for. fold n.
  destruct (window_closes (Z.to_nat n) w run None t1 t1 t1 c2 h2 d) as (c3 & h3 & -> & Hw3 & Hp3 & Hph3);
    rewrite ?Z2Nat.id by lia; try done; try lia; try (intros; nia).
  { unfold END_CHECK_INTERVAL, SECOND. lia. }
  unfold last_read. fold n. by eapply closing_reads.
Qed.

Lemma end_check_completes_witness :
  exists c' h', check_run (CRestart 5 :: quiet_ops "run-a" (40 * SECOND) 7 empty_depth)
    (windowed (40 * SECOND) 0) [] = Some (c', h') /\ outcome c' = Some Completed.
Proof.
  apply (end_check_completes (40 * SECOND) 5 7 "run-a" empty_depth); try done.
Defined.
