(* ===== verification/MemoryFeed.v ===== *)
(** * The feed interface and the in-process feed

    [Feed] of [spate-core/src/feed/mod.rs], as far as a bounded job uses it,
    and [MemoryFeed] of [spate-core/src/feed/memory.rs]. Every operation holds
    the feed's lock throughout, so an operation is a function on [State]. A
    signal to the waker is part of an operation's result; [FeedSys] joins it to
    the one-slot channel of [wake_channel] and to a reader that parks. *)

From stdpp Require Import base list gmap strings relations.
From Stdlib Require Import ZArith Lia.
From S2P Require Import Prelude EndCheck.

(** ** Data *)

Record WorkUnit := mkUnit {
  id : string;
  body : list Z
}.

Record Delivery := mkDelivery {
  unit_ : WorkUnit;
  receipt : Z;
  deliveries : Z
}.

Record FeedCounts := mkCounts {
  c_visible : Z;
  c_held : Z;
  c_dead_lettered : Z;
  c_acknowledged : Z
}.

Definition ATTEMPT_CAP : Z := 10.

Record State := mkState {
  st_visible : list (WorkUnit * Z);
  st_held : gmap Z (WorkUnit * Z);
  st_dead : list WorkUnit;
  st_acknowledged : Z;
  st_next_receipt : Z;
  st_waker : bool;
  st_attempt_cap : Z
}.

Definition with_attempt_cap (cap : Z) : State := mkState [] ∅ [] 0 0 false cap.

Definition memory_new : State := with_attempt_cap ATTEMPT_CAP.

Definition counts (s : State) : FeedCounts :=
  mkCounts (Z.of_nat (length (st_visible s))) (Z.of_nat (size (st_held s)))
    (Z.of_nat (length (st_dead s))) (st_acknowledged s).

Definition dead_letters (s : State) : list WorkUnit := st_dead s.

Definition gone (r : Z) : FeedError := mkFeedError Gone "is not held by the in-process feed".

(** ** Operations. Where one may signal the waker, its result has whether it did. *)

Definition wakes (s : State) : bool := st_waker s.

Definition set_waker (s : State) : bool * State :=
  (negb (bool_decide (st_visible s = [])),
   mkState (st_visible s) (st_held s) (st_dead s) (st_acknowledged s) (st_next_receipt s) true
     (st_attempt_cap s)).

(** One unit of [receive]'s loop. *)
Definition receive1 (s : State) : option (Delivery * State) :=
  match st_visible s with
  | [] => None
  | (u, n) :: rest =>
      let r := wrap_u64 (st_next_receipt s + 1) in
      let n := wrap_u32 (n + 1) in
      Some (mkDelivery u r n,
            mkState rest (<[r := (u, n)]> (st_held s)) (st_dead s) (st_acknowledged s) r
              (st_waker s) (st_attempt_cap s))
  end.

Fixpoint receive_loop (take : nat) (s : State) : list Delivery * State :=
  match take with
  | O => ([], s)
  | S take =>
      match receive1 s with
      | None => ([], s)
      | Some (d, s) => let '(ds, s) := receive_loop take s in (d :: ds, s)
      end
  end.

Definition receive (max : nat) (s : State) : list Delivery * bool * State :=
  let take := Nat.min max (length (st_visible s)) in
  let '(out, s) := receive_loop take s in
  (out, bool_decide (0 < take)%nat && negb (bool_decide (st_visible s = [])) && wakes s, s).

Definition renew (r : Z) (s : State) : option FeedError :=
  match st_held s !! r with Some _ => None | None => Some (gone r) end.

Definition acknowledge (r : Z) (s : State) : option FeedError * State :=
  match st_held s !! r with
  | None => (Some (gone r), s)
  | Some _ =>
      (None, mkState (st_visible s) (delete r (st_held s)) (st_dead s)
               (wrap_u64 (st_acknowledged s + 1)) (st_next_receipt s) (st_waker s)
               (st_attempt_cap s))
  end.

Definition fail (r : Z) (s : State) : option FeedError * bool * State :=
  match st_held s !! r with
  | None => (Some (gone r), false, s)
  | Some (u, n) =>
      if decide (st_attempt_cap s <= n)
      then (None, false,
            mkState (st_visible s) (delete r (st_held s)) (st_dead s ++ [u]) (st_acknowledged s)
              (st_next_receipt s) (st_waker s) (st_attempt_cap s))
      else (None, wakes s,
            mkState (st_visible s ++ [(u, n)]) (delete r (st_held s)) (st_dead s)
              (st_acknowledged s) (st_next_receipt s) (st_waker s) (st_attempt_cap s))
  end.

Definition publish (u : WorkUnit) (s : State) : bool * State :=
  (wakes s,
   mkState (st_visible s ++ [(u, 0)]) (st_held s) (st_dead s) (st_acknowledged s)
     (st_next_receipt s) (st_waker s) (st_attempt_cap s)).

Definition read_depth (which : DepthOf) (s : State) : Depth :=
  match which with
  | OfDeadLetters =>
      mkDepth "the in-process dead-letter list" (Z.of_nat (length (st_dead s))) 0 0 0 false
  | OfFeed =>
      mkDepth "the in-process feed" (Z.of_nat (length (st_visible s))) 0
        (Z.of_nat (size (st_held s))) 0 false
  end.

(** ** A feed, its wake slot and its reader

    [slot] is the wake channel's one slot. [checked] is true once the reader
    has received since it last consumed a signal. [published] and [acked] are
    the history of units published and acknowledged, and [made] counts the
    deliveries made. *)
Record FeedSys := mkFeedSys {
  feed : State;
  slot : bool;
  checked : bool;
  published : list WorkUnit;
  acked : list WorkUnit;
  made : Z
}.

Definition sys_new (cap : Z) : FeedSys := mkFeedSys (with_attempt_cap cap) false false [] [] 0.

Inductive SysOp :=
| SSetWaker
| SPublish (u : WorkUnit)
| SReceive (max : nat)
| SAcknowledge (r : Z)
| SFail (r : Z)
| SPark.

(** A step of the system. A receive is a step while fewer than [2 ^ 64]
    deliveries have been made, so that receipts are not reused. *)
Definition sys_step (o : SysOp) (y : FeedSys) : option FeedSys :=
  let s := feed y in
  match o with
  | SSetWaker =>
      let '(w, s') := set_waker s in
      Some (mkFeedSys s' (slot y || w) (checked y) (published y) (acked y) (made y))
  | SPublish u =>
      let '(w, s') := publish u s in
      Some (mkFeedSys s' (slot y || w) (checked y) (published y ++ [u]) (acked y) (made y))
  | SReceive max =>
      let '(ds, w, s') := receive max s in
      let made' := made y + Z.of_nat (length ds) in
      if decide (made' <= U64_MAX)
      then Some (mkFeedSys s' (slot y || w) (checked y || bool_decide (0 < max)%nat)
                   (published y) (acked y) made')
      else None
  | SAcknowledge r =>
      let '(_, s') := acknowledge r s in
      Some (mkFeedSys s' (slot y) (checked y) (published y)
              (match st_held s !! r with Some (u, _) => acked y ++ [u] | None => acked y end)
              (made y))
  | SFail r =>
      let '(_, w, s') := fail r s in
      Some (mkFeedSys s' (slot y || w) (checked y) (published y) (acked y) (made y))
  | SPark =>
      if slot y then Some (mkFeedSys s false false (published y) (acked y) (made y)) else None
  end.

Definition sys_reachable (cap : Z) : FeedSys -> Prop :=
  rtc (fun y y' => exists o, sys_step o y = Some y') (sys_new cap).

(** The units of a queue and of the held map, by themselves. *)
Definition held_units (m : gmap Z (WorkUnit * Z)) : list WorkUnit := (map_to_list m).*2.*1.

(** The feed's own invariant, for the units [ps] published, [ak] acknowledged
    and [n] deliveries made. *)
Record feed_ok (cap : Z) (ps ak : list WorkUnit) (n : Z) (s : State) : Prop := mk_feed_ok {
  fo_cap : st_attempt_cap s = cap;
  fo_units : ps ≡ₚ (st_visible s).*1 ++ held_units (st_held s) ++ st_dead s ++ ak;
  fo_visible : Forall (fun x => 0 <= x.2 < cap) (st_visible s);
  fo_held : map_Forall (fun r x => 1 <= x.2 <= cap /\ 1 <= r <= n) (st_held s);
  fo_made : st_next_receipt s = n /\ n <= U64_MAX;
  fo_acked : st_acknowledged s = Z.of_nat (length ak) /\
    Z.of_nat (length ak) + Z.of_nat (size (st_held s)) <= n
}.

Record sys_inv (cap : Z) (y : FeedSys) : Prop := mk_sys_inv {
  si_feed : feed_ok cap (published y) (acked y) (made y) (feed y);
  si_wake : st_waker (feed y) = true -> st_visible (feed y) <> [] ->
    slot y = true \/ checked y = false
}.

Lemma held_insert m r u n :
  m !! r = None -> held_units (<[r := (u, n)]> m) ≡ₚ u :: held_units m.
Proof. intros Hr. unfold held_units. by rewrite map_to_list_insert. Qed.

Lemma held_delete m r u n :
  m !! r = Some (u, n) -> held_units m ≡ₚ u :: held_units (delete r m).
Proof.
  intros Hr. rewrite <- (insert_delete_id m r (u, n) Hr) at 1. apply held_insert, lookup_delete_eq.
Qed.

Lemma receive1_ok cap ps ak n s d s' :
  cap <= U32_MAX -> feed_ok cap ps ak n s -> n + 1 <= U64_MAX -> receive1 s = Some (d, s') ->
  feed_ok cap ps ak (n + 1) s' /\ st_waker s' = st_waker s /\
  length (st_visible s) = S (length (st_visible s')) /\ receipt d = n + 1.
Proof.
  intros Hcap [Hc Hu Hv Hh [Hn Hmax] [Hak Hsz]] Hn1. unfold receive1.
  destruct (st_visible s) as [|[u k] rest] eqn:Hvis; [done|].
  apply Forall_cons in Hv as [Hk Hv]. cbn in Hk. rewrite Hn.
  rewrite (wrap_u64_small (n + 1)) by (unfold_int; lia).
  rewrite (wrap_u32_small (k + 1)) by (unfold_int; lia). intros [= <- <-].
  assert (Hfresh : st_held s !! (n + 1) = None).
  { destruct (st_held s !! (n + 1)) as [x|] eqn:Hx; [|done]. apply Hh in Hx. lia. }
  split_and!; cbn; auto. constructor; cbn; auto.
  - rewrite held_insert by done. rewrite Hu. cbn. solve_Permutation.
  - apply map_Forall_insert_2; [cbn; lia|]. apply (map_Forall_impl _ _ _ Hh). intros r x ?. lia.
  - rewrite map_size_insert_None by done. lia.
Qed.

Lemma receive_loop_ok cap ps ak take : forall n s ds s',
  cap <= U32_MAX -> feed_ok cap ps ak n s -> (take <= length (st_visible s))%nat ->
  n + Z.of_nat take <= U64_MAX -> receive_loop take s = (ds, s') ->
  feed_ok cap ps ak (n + Z.of_nat take) s' /\ st_waker s' = st_waker s /\
  length ds = take /\ (length (st_visible s) = take + length (st_visible s'))%nat.
Proof.
  induction take as [|take IH]; intros n s ds s' Hcap Hok Htk Hn; cbn [receive_loop].
  { intros [= <- <-]. rewrite Z.add_0_r. auto. }
  destruct (receive1 s) as [[d s1]|] eqn:H1.
  2:{ unfold receive1 in H1. destruct (st_visible s) as [|[]]; [cbn in Htk; lia|done]. }
  destruct (receive1_ok _ _ _ _ _ _ _ Hcap Hok ltac:(lia) H1) as (Hok1 & Hw1 & Hl1 & _).
  destruct (receive_loop take s1) as [ds1 s2] eqn:H2. intros [= <- <-].
  destruct (IH (n + 1) s1 ds1 s2) as (Hok2 & Hw2 & Hl2 & Hl3); auto; try lia.
  rewrite Nat2Z.inj_succ, <- Z.add_1_l, Z.add_assoc. cbn. split_and!; auto; [congruence|lia].
Qed.

Lemma receive_loop_length take s : (length (receive_loop take s).1 <= take)%nat.
Proof.
  revert s. induction take as [|take IH]; intros s; cbn; [lia|].
  destruct (receive1 s) as [[d s1]|]; cbn; [|lia]. specialize (IH s1).
  destruct (receive_loop take s1); cbn in *. lia.
Qed.

(** All the units the loop is asked for are there. *)
Lemma receive_loop_full take s :
  (take <= length (st_visible s))%nat -> length (receive_loop take s).1 = take.
Proof.
  revert s. induction take as [|take IH]; intros s Htk; cbn; [done|].
  unfold receive1. destruct (st_visible s) as [|[u n] rest] eqn:Hv; cbn in Htk; [lia|].
  destruct (receive_loop take _) as [ds s2] eqn:Hr. cbn. f_equal.
  pose proof (IH (mkState rest (<[wrap_u64 (st_next_receipt s + 1) := (u, wrap_u32 (n + 1))]> (st_held s))
    (st_dead s) (st_acknowledged s) (wrap_u64 (st_next_receipt s + 1)) (st_waker s) (st_attempt_cap s)))
    as IH1. rewrite Hr in IH1. apply IH1. cbn. lia.
Qed.

Lemma receive_inv cap max y y' :
  0 < cap <= U32_MAX -> sys_inv cap y -> sys_step (SReceive max) y = Some y' -> sys_inv cap y'.
Proof.
  intros Hcap [Hok Hwk]. cbn [sys_step]. unfold receive.
  remember (Nat.min max (length (st_visible (feed y)))) as take eqn:Htake.
  destruct (receive_loop take (feed y)) as [ds s1] eqn:Hr.
  assert (Htk : (take <= length (st_visible (feed y)))%nat) by lia.
  assert (Hlen : length ds = take).
  { pose proof (receive_loop_full take (feed y)) as Hf. rewrite Hr in Hf. apply Hf. lia. }
  rewrite Hlen. destruct (decide _) as [Hmax|]; [|done]. intros [= <-].
  destruct (receive_loop_ok cap _ _ _ _ _ _ _ (proj2 Hcap) Hok Htk Hmax Hr)
    as (Hok1 & Hw1 & _ & Hl1).
  constructor; cbn; [done|]. unfold wakes. rewrite Hw1. intros Hw Hne. specialize (Hwk Hw).
  rewrite Hw. rewrite (bool_decide_false (st_visible s1 = [])) by done.
  destruct (decide (take = 0%nat)) as [H0|H0].
  - rewrite H0 in Hr. injection Hr as <- <-. specialize (Hwk Hne).
    assert (max = 0%nat) by (destruct (st_visible (feed y)); [done|cbn in *; lia]). subst max.
    destruct Hwk as [-> | ->]; auto.
  - rewrite bool_decide_true by lia. left. by destruct (slot y).
Qed.

Lemma acknowledge_inv cap r y y' :
  sys_inv cap y -> sys_step (SAcknowledge r) y = Some y' -> sys_inv cap y'.
Proof.
  intros [[Hc Hu Hv Hh Hm [Hak Hsz]] Hwk]. cbn [sys_step]. unfold acknowledge.
  destruct (st_held (feed y) !! r) as [[u n]|] eqn:Hr; intros [= <-]; [|by constructor].
  pose proof (map_size_delete_S _ _ _ Hr) as Hs. destruct Hm as [Hm1 Hm2].
  assert (Hin : Z.of_nat (length (acked y)) < made y) by lia.
  constructor; cbn; [|done]. constructor; cbn; auto.
  - rewrite Hu, (held_delete _ _ _ _ Hr). solve_Permutation.
  - by apply map_Forall_delete.
  - rewrite length_app, Hak. cbn. rewrite wrap_u64_small by (unfold_int; lia). lia.
Qed.

Lemma fail_inv cap r y y' :
  sys_inv cap y -> sys_step (SFail r) y = Some y' -> sys_inv cap y'.
Proof.
  intros [[Hc Hu Hv Hh Hm [Hak Hsz]] Hwk]. cbn [sys_step]. unfold fail.
  destruct (st_held (feed y) !! r) as [[u n]|] eqn:Hr.
  2:{ intros [= <-]. constructor; cbn; [by constructor|]. intros. by rewrite orb_false_r; auto. }
  pose proof (map_size_delete_S _ _ _ Hr) as Hs. pose proof (Hh _ _ Hr) as [Hn _]. cbn in Hn.
  destruct (decide _) as [Hle|Hlt]; intros [= <-]; (constructor; cbn; [constructor; cbn; auto|]).
  - rewrite Hu, (held_delete _ _ _ _ Hr). solve_Permutation.
  - by apply map_Forall_delete.
  - lia.
  - rewrite orb_false_r. auto.
  - rewrite Hu, (held_delete _ _ _ _ Hr), fmap_app. cbn. solve_Permutation.
  - apply Forall_app. split; [done|]. constructor; [cbn; lia|done].
  - by apply map_Forall_delete.
  - lia.
  - unfold wakes. intros -> _. left. apply orb_true_r.
Qed.

Lemma sys_step_inv cap o y y' :
  0 < cap <= U32_MAX -> sys_inv cap y -> sys_step o y = Some y' -> sys_inv cap y'.
Proof.
  intros Hcap Hinv. destruct o as [|u|max|r|r|];
    eauto using receive_inv, acknowledge_inv, fail_inv; cbn [sys_step];
    destruct Hinv as [[Hc Hu Hv Hh Hm Hak] Hwk].
  - intros [= <-]. constructor; cbn; [by constructor|]. intros _ Hne.
    rewrite bool_decide_false by done. left. apply orb_true_r.
  - intros [= <-]. constructor; cbn; [constructor; cbn; auto|].
    + rewrite Hu, fmap_app. cbn. solve_Permutation.
    + apply Forall_app. split; [done|]. constructor; [cbn; lia|done].
    + unfold wakes. intros -> _. left. apply orb_true_r.
  - destruct (slot y); [|done]. intros [= <-]. constructor; cbn; [by constructor|auto].
Qed.

Lemma sys_reachable_inv cap y : 0 < cap <= U32_MAX -> sys_reachable cap y -> sys_inv cap y.
Proof.
  intros Hcap. unfold sys_reachable. remember (sys_new cap) as y0 eqn:Hy0. intros Hr.
  assert (H0 : sys_inv cap y0).
  { subst. constructor; [|done]. constructor; cbn; auto; [apply map_Forall_empty|split; [done|unfold_int; lia]|by split]. }
  clear Hy0. induction Hr as [|y0 y1 y2 [o Hs] _ IH]; [done|]. eapply IH, sys_step_inv; eauto.
Qed.

(** A spent receipt stays spent. *)
Lemma receive_loop_spent cap ps ak r take : forall n s ds s1,
  cap <= U32_MAX -> feed_ok cap ps ak n s -> r <= n -> n + Z.of_nat (length ds) <= U64_MAX ->
  st_held s !! r = None -> receive_loop take s = (ds, s1) -> st_held s1 !! r = None.
Proof.
  induction take as [|take IH]; intros n s ds s1 Hcap Hok Hr Hmax Hno; cbn; [by intros [= <- <-]|].
  destruct (receive1 s) as [[d s2]|] eqn:H1; [|by intros [= <- <-]].
  destruct (receive_loop take s2) as [ds2 s3] eqn:H2. intros [= <- <-]. cbn [length] in Hmax.
  assert (Hn1 : n + 1 <= U64_MAX) by lia.
  destruct (receive1_ok _ _ _ _ _ _ _ Hcap Hok Hn1 H1) as (Hok1 & _).
  eapply (IH (n + 1) s2 ds2); eauto; try lia.
  unfold receive1 in H1. destruct (st_visible s) as [|[u k] rest]; [done|].
  destruct Hok as [_ _ _ _ [Hn _] [_ Hsz]]. rewrite Hn in H1.
  rewrite (wrap_u64_small (n + 1)) in H1 by (unfold_int; lia). simplify_eq/=.
  rewrite lookup_insert_ne by lia. done.
Qed.

Lemma spent_step cap o y y' r :
  0 < cap <= U32_MAX -> sys_inv cap y -> sys_step o y = Some y' ->
  r <= made y -> st_held (feed y) !! r = None ->
  r <= made y' /\ st_held (feed y') !! r = None.
Proof.
  intros Hcap [Hok _] Hs Hr Hno. destruct o as [|u|max|k|k|]; cbn [sys_step] in Hs.
  - by injection Hs as <-.
  - by injection Hs as <-.
  - unfold receive in Hs.
    destruct (receive_loop _ (feed y)) as [ds s1] eqn:Hrl. case_decide as Hmax; [|done].
    simplify_eq/=. split; [lia|]. eapply receive_loop_spent; [apply Hcap|..]; eauto.
  - unfold acknowledge in Hs. destruct (st_held (feed y) !! k) eqn:Hk; simplify_eq/=; [|done].
    split; [done|]. apply lookup_delete_None. by right.
  - unfold fail in Hs. destruct (st_held (feed y) !! k) as [[u n]|] eqn:Hk; [|by simplify_eq].
    case_decide; simplify_eq/=; (split; [done|]); apply lookup_delete_None; by right.
  - destruct (slot y); by simplify_eq.
Qed.

Lemma spent_forever cap y y' r :
  0 < cap <= U32_MAX -> sys_inv cap y ->
  rtc (fun y y' => exists o, sys_step o y = Some y') y y' ->
  r <= made y -> st_held (feed y) !! r = None -> st_held (feed y') !! r = None.
Proof.
  intros Hcap Hinv Hr. revert Hinv. induction Hr as [|y y1 y2 [o Hs] _ IH]; [done|].
  intros Hinv Hle Hno. destruct (spent_step _ _ _ _ _ Hcap Hinv Hs Hle Hno) as [? ?].
  apply IH; eauto using sys_step_inv.
Qed.


Fixpoint sys_run (os : list SysOp) (y : FeedSys) : option FeedSys :=
  match os with
  | [] => Some y
  | o :: os => y ← sys_step o y; sys_run os y
  end.

Lemma sys_run_rtc os y y' :
  sys_run os y = Some y' -> rtc (fun y y' => exists o, sys_step o y = Some y') y y'.
Proof.
  revert y. induction os as [|o os IH]; intros y; cbn; [by intros [= <-]|].
  destruct (sys_step o y) as [y1|] eqn:Hs; cbn; [|done]. intros Hr.
  eapply rtc_l; [by exists o|auto].
Qed.

Definition demo_unit (b : Z) : WorkUnit := mkUnit "day" [b].

Definition demo_ops : list SysOp :=
  [SSetWaker; SPublish (demo_unit 1); SPublish (demo_unit 2); SPark; SReceive 1; SFail 1; SPark;
   SReceive 5; SAcknowledge 2; SFail 3].

Definition demo_sys : FeedSys := default (sys_new 2) (sys_run demo_ops (sys_new 2)).

Lemma demo_sys_reachable : sys_reachable 2 demo_sys.
Proof. apply (sys_run_rtc demo_ops). vm_compute. reflexivity. Qed.


(** no wake is missed. Whenever a waker is set and a unit is visible, a
    signal is waiting in the channel, or the reader has not received since it
    consumed the last one: a reader that receives before it parks never parks on
    a feed with work. *)
Theorem memory_feed_wakes (cap : Z) (y : FeedSys) :
  0 < cap <= U32_MAX -> sys_reachable cap y -> st_waker (feed y) = true -> checked y = true ->
  (forall max y', (0 < max)%nat -> sys_step (SReceive max) y = Some y' ->
     st_visible (feed y') <> [] -> is_Some (sys_step SPark y')) /\
  (st_visible (feed y) <> [] -> is_Some (sys_step SPark y)).
Proof.
  intros Hcap Hr Hw Hck. pose proof (sys_reachable_inv _ _ Hcap Hr) as Hinv.
  assert (Hgen : forall y, sys_inv cap y -> checked y = true -> st_waker (feed y) = true ->
    st_visible (feed y) <> [] -> is_Some (sys_step SPark y)).
  { intros z [_ Hz] Hc Hwz Hv. cbn. destruct (Hz Hwz Hv) as [->|]; [by eexists|congruence]. }
  split; [|by apply Hgen]. intros max y' Hm Hs Hv.
  pose proof (sys_step_inv _ _ _ _ Hcap Hinv Hs) as Hinv'.
  apply Hgen; auto; cbn [sys_step] in Hs; unfold receive in Hs;
    destruct (receive_loop _ (feed y)) as [ds s1] eqn:Hrl; case_decide; simplify_eq/=.
  - by rewrite Hck.
  - assert (Hwk : forall take s, st_waker (receive_loop take s).2 = st_waker s).
    { clear. induction take as [|take IH]; intros s; cbn; [done|]. unfold receive1.
      destruct (st_visible s) as [|[u n] rest]; [done|].
      match goal with |- context [receive_loop take ?s'] => pose proof (IH s') as H end.
      by destruct (receive_loop take _). }
    specialize (Hwk (Nat.min max (length (st_visible (feed y)))) (feed y)).
    rewrite Hrl in Hwk. cbn in Hwk. congruence.
Qed.

Definition demo_parked : FeedSys :=
  default (sys_new 2) (sys_run [SSetWaker; SReceive 1; SPublish (demo_unit 1)] (sys_new 2)).

Lemma memory_feed_wakes_witness : is_Some (sys_step SPark demo_parked).
Proof.
  destruct (memory_feed_wakes 2 demo_parked) as [_ H].
  - by vm_compute.
  - apply (sys_run_rtc [SSetWaker; SReceive 1; SPublish (demo_unit 1)]). vm_compute. reflexivity.
  - reflexivity.
  - reflexivity.
  - apply H. by vm_compute.
Defined.
