(* ===== verification/JobEnd.v ===== *)
(** * The end of a bounded feed job ([spate-s3/src/job_end.rs])

    [JobEnd] drives an [EndCheck] from the unit reader's idle polls: [idle]
    reports the answers that have come, then asks the check what to do until it
    waits or ends. The feed is the class [Feed]; [ExactFeed] is the promise of a
    feed that counts exactly and at once, which [MemoryFeed] keeps. What other
    tasks answer, the marker read and an outstanding depth read, is an argument
    of the call that polls it. *)

From stdpp Require Import base list gmap strings relations.
From Stdlib Require Import ZArith Lia.
From S2P Require Import Prelude EndCheck MemoryFeed.

(** ** The feed, as a bounded job uses it *)

(** [read_depth]: [None] for a feed that cannot count, else what
    [try_outcome] first says of the reading, [None] while it is pending. *)
Class Feed (F : Type) := {
  feed_read_depth : DepthOf -> F -> option (option (FeedError + Depth))
}.

(** A feed whose counts are exact and settled at once. *)
Class ExactFeed (F : Type) `{Feed F} := {
  holds_nothing : DepthOf -> F -> Prop;
  exact_depth : forall which f, exists d,
    feed_read_depth which f = Some (Some (inr d)) /\
    (is_empty d = true <-> holds_nothing which f)
}.

#[export] Instance MemoryFeed_Feed : Feed State :=
  {| feed_read_depth which s := Some (Some (inr (read_depth which s))) |}.

#[export, refine] Instance MemoryFeed_Exact : ExactFeed State := {|
  holds_nothing which s :=
    match which with
    | OfFeed => st_visible s = [] /\ st_held s = ∅
    | OfDeadLetters => st_dead s = []
    end
|}.
Proof.
  intros which s. eexists. split; [done|].
  unfold is_empty. destruct which; cbn; rewrite !andb_true_iff, !bool_decide_eq_true.
  - split; [intros [[[H1 _] H2] _]|intros [-> ->]; done].
    split; [apply length_zero_iff_nil; lia|apply map_size_empty_iff; lia].
  - split; [intros [[[H1 _] _] _]|intros ->; done]. apply length_zero_iff_nil. lia.
Defined.

(** ** The job's end *)

Inductive Finish :=
| Marker (window : Z)
| Solo (finished : bool).

Inductive SourceError :=
| ErrStalled (d : Depth)
| ErrDepth (which : option DepthOf) (e : FeedError)
| ErrNoDepth
| ErrOther (c : ErrorClass) (what : string).

Definition source_class (e : SourceError) : ErrorClass :=
  match e with ErrOther c _ => c | _ => ClassFatal end.

Record JobEnd := mkJobEnd {
  finish : Finish;
  check : option EndCheck;
  marker_out : bool;
  depth_out : bool;
  depth_of : option DepthOf;
  due : option Z;
  closed_ : bool
}.

Definition job_new (f : Finish) : JobEnd := mkJobEnd f None false false None None false.

Definition park_within (timeout now : Z) (j : JobEnd) : Z :=
  match due j with
  | Some d => Z.min timeout (sat_sub d now)
  | None => timeout
  end.

Definition lister_finished (j : JobEnd) : JobEnd :=
  match finish j with
  | Solo _ => mkJobEnd (Solo true) (check j) (marker_out j) (depth_out j) (depth_of j) (due j)
                (closed_ j)
  | Marker _ => j
  end.

Definition set_check (c : EndCheck) (j : JobEnd) : JobEnd :=
  mkJobEnd (finish j) (Some c) (marker_out j) (depth_out j) (depth_of j) (due j) (closed_ j).

Definition set_outs (m d : bool) (j : JobEnd) : JobEnd :=
  mkJobEnd (finish j) (check j) m d (depth_of j) (due j) (closed_ j).

Definition set_depth_of (o : DepthOf) (j : JobEnd) : JobEnd :=
  mkJobEnd (finish j) (check j) (marker_out j) (depth_out j) (Some o) (due j) (closed_ j).

Definition set_due (d : option Z) (j : JobEnd) : JobEnd :=
  mkJobEnd (finish j) (check j) (marker_out j) (depth_out j) (depth_of j) d (closed_ j).

Definition set_closed (b : bool) (j : JobEnd) : JobEnd :=
  mkJobEnd (finish j) (check j) (marker_out j) (depth_out j) (depth_of j) (due j) b.

Definition busy (now : Z) (j : JobEnd) : option JobEnd :=
  let j := set_closed false (set_due None j) in
  match check j with
  | None => Some j
  | Some c => c ← restart now c; Some (set_outs false false (set_check c j))
  end.

Definition receive_failed (now : Z) (j : JobEnd) : option JobEnd :=
  if closed_ j then busy now j else Some j.

Definition job_stalled (j : JobEnd) : bool :=
  match check j with
  | Some c => match outcome c with Some (Stalled _) => true | _ => false end
  | None => false
  end.

(** How an [idle] ends: its result, a panic, or the loop's fuel spent. *)
Inductive Idle (F : Type) :=
| Out (r : SourceError + bool) (j : JobEnd) (f : F)
| Panicked
| OutOfFuel.
Arguments Out {F}.
Arguments Panicked {F}.
Arguments OutOfFuel {F}.

Section idle.
Context {F : Type} `{Feed F}.

(** The reader's receive: how many units it took, [None] where it failed and
    may succeed later. *)
Variable receive_ : F -> (SourceError + option Z) * F.

Fixpoint idle_loop (fuel : nat) (now : Z) (c : EndCheck) (j : JobEnd) (f : F) : Idle F :=
  match fuel with
  | O => OutOfFuel
  | S fuel =>
      match next now c with
      | None => Panicked
      | Some (ReadMarker, c) =>
          match finish j with
          | Marker _ => idle_loop fuel now c (set_outs true (depth_out j) j) f
          | Solo _ => Panicked
          end
      | Some (ReadDepth which, c) =>
          let j := set_depth_of which j in
          match feed_read_depth which f with
          | None => Out (inl ErrNoDepth) (set_check c j) f
          | Some (Some r) =>
              match depth_read now r c with
              | None => Panicked
              | Some c => idle_loop fuel now c j f
              end
          | Some None => idle_loop fuel now c (set_outs (marker_out j) true j) f
          end
      | Some (Receive, c) =>
          match receive_ f with
          | (inl e, f) => Out (inl e) (set_check c j) f
          | (inr n, f) =>
              let took := match n with None => true | Some n => bool_decide (0 < n) end in
              match received now took c with
              | None => Panicked
              | Some c =>
                  if took then Out (inr false) (set_check c j) f
                  else idle_loop fuel now c (set_closed true j) f
              end
          end
      | Some (EndedWith Completed, c) => Out (inr true) (set_check c j) f
      | Some (EndedWith (Stalled d), c) => Out (inl (ErrStalled d)) (set_check c j) f
      | Some (EndedWith (Failed e), c) => Out (inl (ErrDepth (depth_of j) e)) (set_check c j) f
      | Some (Wait d, c) => Out (inr false) (set_check c (set_due d j)) f
      end
  end.

(** At most four rounds follow one another at one instant. *)
Definition IDLE_FUEL : nat := 4.

(** The marker read's answer: [None] while it runs, [Some None] where it ended
    unanswered. A read that failed retryably is [MarkerFailed]. *)
Definition marker_result (a : option (SourceError + option string)) : SourceError + MarkerRead :=
  match a with
  | Some (inr (Some run)) => inr (Present run)
  | Some (inr None) => inr Absent
  | Some (inl e) =>
      match source_class e with ClassRetryable => inr MarkerFailed | _ => inl e end
  | None => inr MarkerFailed
  end.

Definition idle (now : Z) (stop : bool)
    (marker : option (option (SourceError + option string)))
    (depth : option (FeedError + Depth)) (j : JobEnd) (f : F) : Idle F :=
  let j := set_due None j in
  if stop then Out (inr false) j f
  else
    match match check j with
          | Some c => Some c
          | None =>
              match finish j with
              | Marker w => Some (windowed w now)
              | Solo true => Some (exact now)
              | Solo false => None
              end
          end with
    | None => Out (inr false) j f
    | Some c =>
        let '(read, j) :=
          match marker_out j, marker with
          | true, Some a => (Some (marker_result a), set_outs false (depth_out j) j)
          | _, _ => (None, j)
          end in
        match read with
        | Some (inl e) => Out (inl e) (set_check c j) f
        | _ =>
            match match read with Some (inr m) => marker_read now m c | _ => Some c end with
            | None => Panicked
            | Some c =>
                match depth_out j, depth with
                | true, Some r =>
                    match depth_read now r c with
                    | None => Panicked
                    | Some c => idle_loop IDLE_FUEL now c (set_outs (marker_out j) false j) f
                    end
                | _, _ => idle_loop IDLE_FUEL now c j f
                end
            end
        end
    end.
End idle.

(** What the reader's receive keeps of the feed, a poll keeps. *)
Section feed.
Context {F : Type} `{Feed F} (rc : F -> (SourceError + option Z) * F) (P : F -> Prop).
Hypothesis Hrc : forall f, P f -> P (rc f).2.

Lemma idle_loop_feed fuel : forall now c j f r j' f',
  idle_loop rc fuel now c j f = Out r j' f' -> P f -> P f'.
Proof.
  induction fuel as [|fuel IH]; intros now c j f r j' f'; [done|]. cbn [idle_loop].
  destruct (next now c) as [[a c1]|]; [|done].
  destruct a as [d| |which| |[]]; try (by intros [= _ _ <-]).
  - destruct (finish j); [|done]. apply IH.
  - destruct (feed_read_depth which f) as [[x|]|]; [|apply IH|by intros [= _ _ <-]].
    destruct (depth_read now x c1); [apply IH|done].
  - intros Ho Hf. pose proof (Hrc f Hf) as Hf1. destruct (rc f) as [[e|n] f1]; cbn in Hf1; [by simplify_eq|].
    destruct (received now _ c1); [|done]. destruct (match n with Some _ => _ | None => _ end);
      [by simplify_eq|]. by eapply IH.
Qed.

Lemma idle_feed now stop m d j f r j' f' :
  idle rc now stop m d j f = Out r j' f' -> P f -> P f'.
Proof.
  unfold idle. destruct stop; [by intros [= _ _ <-]|].
  destruct (match check _ with Some _ => _ | None => _ end) as [c|]; [|by intros [= _ _ <-]].
  destruct (match marker_out _ with true => _ | false => _ end) as [read j1].
  destruct read as [[e|mk]|]; [by intros [= _ _ <-]|destruct (marker_read now mk c) as [c1|]; [|done]|];
    destruct (depth_out j1), d as [x|]; try apply idle_loop_feed;
    (destruct (depth_read now x _); [apply idle_loop_feed|done]).
Qed.
End feed.

(** ** The loop ends *)

(** The rounds the check can still take at [now]. *)
Definition rank (now : Z) (c : EndCheck) : nat :=
  match pending c with
  | Some _ => 1%nat
  | None =>
      match phase c with
      | Ended _ => 1%nat
      | DeadLetters due => if decide (now < due) then 1%nat else 2%nat
      | Receiving => 3%nat
      | Closing _ => 2%nat
      | Opening due =>
          if decide (now < due) then 1%nat
          else match window c with None => 4%nat | Some _ => 2%nat end
      | Window _ _ lst due =>
          if decide (lst + END_CHECK_INTERVAL < now) then 2%nat
          else if decide (now < due) then 1%nat else 3%nat
      end
  end.

Definition job_window (fin : Finish) : option Z :=
  match fin with Marker w => Some w | Solo _ => None end.

Record check_ok (fin : Finish) (c : EndCheck) : Prop := mk_check_ok {
  co_times : times_ok c;
  co_inv : exists h, check_inv (job_window fin) c h
}.

Lemma check_ok_step fin o c :
  check_ok fin c -> op_time o <= near -> exists c', check_step o c = Some c' /\ check_ok fin c'.
Proof.
  intros [Ht [h Hi]] Ho. destruct (check_step_total o c Ht Ho) as (c' & Hs & Ht').
  exists c'. split; [done|]. constructor; [done|]. eauto using check_step_inv.
Qed.

Lemma check_ok_window fin c : check_ok fin c -> window c = job_window fin.
Proof. intros [_ [h Hi]]. apply Hi. Qed.

(** Giving up a window does not add a round. *)
Lemma expire_rank fin now c c0 :
  check_ok fin c -> pending c = None -> expire now c = Some c0 ->
  (rank now c0 <= rank now c)%nat.
Proof.
  intros [_ [h [Hw _ Hj]]] Hp. unfold expire.
  destruct (phase c) as [|run st lst dd| | | |] eqn:Hph; try by intros [= <-].
  destruct (checked_add lst END_CHECK_INTERVAL) as [lim|] eqn:Hl; [|done].
  apply checked_add_Some in Hl as [-> _]. cbn. intros [= <-].
  destruct (decide (lst + END_CHECK_INTERVAL < now)) as [Hlt|]; [|done].
  unfold rank. cbn. rewrite Hp, Hph, Hw. rewrite decide_False by lia. rewrite decide_True by done.
  destruct Hj as [[w ->] _]. done.
Qed.

(** A read that [next] asks for was due, and leaves fewer rounds. *)
Lemma next_read fin now c a c' r :
  check_ok fin c -> next now c = Some (a, c') -> a = action_of r ->
  exists c0, c' = request r now c0 /\ pending c0 = None /\ window c0 = window c /\
    snd <$> due_read c0 = Some r /\ (1 < rank now c0 <= rank now c)%nat /\
    (forall due, fst <$> due_read c0 = Some (Some due) -> due <= now) /\
    (forall run st lst d, phase c0 = Window run st lst d ->
       now <= lst + END_CHECK_INTERVAL /\ is_Some (window c0)).
Proof.
  intros Hok. pose proof Hok as [_ [h Hinv]]. unfold next.
  destruct (pending c) eqn:Hp; [intros [= <- <-]; by destruct r|].
  destruct (expire now c) as [c0|] eqn:Hg; [|done]. cbn.
  destruct (expire_inv _ _ _ _ _ Hinv Hp Hg) as (Hinv0 & Hp0 & Hw0).
  pose proof (expire_rank _ _ _ _ Hok Hp Hg) as Hrk.
  intros Hn Ha. exists c0.
  assert (Hwin : window c0 = window c)
    by (rewrite (ck_window _ _ _ Hinv0), (ck_window _ _ _ Hinv); done).
  assert (Hr : c' = request r now c0 /\ snd <$> due_read c0 = Some r /\
    forall due, fst <$> due_read c0 = Some (Some due) -> due <= now).
  { destruct (due_read c0) as [[[x|] r0]|] eqn:Hd; destruct (phase c0) eqn:Hph;
      repeat destruct (decide _); simplify_eq; try (by destruct r);
      assert (r0 = r) as -> by (destruct r0, r; simplify_eq/=; congruence);
      split_and!; try done; intros ? [= <-]; lia. }
  destruct Hr as (-> & Hd & Hdue).
  assert (Hlow : (1 < rank now c0)%nat).
  2:{ split_and!; auto. intros run st lst d Hph. split; [eauto|].
      pose proof (ck_justified _ _ _ Hinv0) as Hj. rewrite Hph in Hj.
      rewrite (ck_window _ _ _ Hinv0). apply Hj. }
  unfold rank. rewrite Hp0. unfold due_read in *.
  destruct (phase c0) eqn:Hph; try done; cbn in Hdue;
    try (specialize (Hdue _ eq_refl)); repeat (rewrite decide_False by lia); try lia.
  - destruct (window c0); lia.
  - goal_decides; lia.
Qed.

Lemma advance_rank now c0 c1 c2 :
  snd <$> due_read c0 = Some (RDepth OfFeed) -> pending c0 = None -> (1 < rank now c0)%nat ->
  (forall run st lst d, phase c0 = Window run st lst d ->
     now <= lst + END_CHECK_INTERVAL /\ is_Some (window c0)) ->
  phase c1 = phase c0 -> window c1 = window c0 -> pending c1 = None ->
  advance now c1 = Some c2 -> (rank now c2 < rank now c0)%nat.
Proof.
  intros Hd Hp Hrk Hwin Hph1 Hw1 Hp1. unfold advance. rewrite Hph1, Hw1.
  assert (Hlater : now < now + READ_EVERY) by (unfold READ_EVERY, SECOND; lia).
  unfold due_read in Hd. revert Hrk.
  unfold rank at 1 3. rewrite Hp.
  destruct (phase c0) as [d|run st lst d| | | |] eqn:Hph; cbn in Hd; try done.
  - destruct (decide (now < d)); [lia|]. destruct (window c0) eqn:Hw; [done|].
    intros _ [= <-]. unfold rank. cbn. rewrite Hp1. lia.
  - destruct (Hwin _ _ _ _ eq_refl) as [Hin [w ->]]. rewrite decide_False by lia.
    destruct (decide (now < d)); [lia|]. intros _.
    destruct (match checked_add _ _ with Some _ => _ | None => _ end);
      [|destruct (checked_add now READ_EVERY) as [e|] eqn:He; cbn -[READ_EVERY]; [|done];
        apply checked_add_Some in He as [-> _]];
      intros [= <-]; unfold rank; cbn -[READ_EVERY END_CHECK_INTERVAL]; rewrite Hp1; [lia|].
    rewrite decide_False by (unfold END_CHECK_INTERVAL, SECOND; lia). rewrite decide_True by done. lia.
Qed.

Lemma depth_rank now which r c0 c2 :
  snd <$> due_read c0 = Some (RDepth which) -> pending c0 = None -> (1 < rank now c0)%nat ->
  (forall run st lst d, phase c0 = Window run st lst d ->
     now <= lst + END_CHECK_INTERVAL /\ is_Some (window c0)) ->
  depth_read now r (request (RDepth which) now c0) = Some c2 ->
  (rank now c2 < rank now c0)%nat.
Proof.
  intros Hd Hp Hrk Hwin. unfold depth_read. cbn [request pending].
  destruct (checked_add now READ_EVERY) as [due|] eqn:Hc; [|done].
  apply checked_add_Some in Hc as [-> _]. cbn [mbind option_bind].
  assert (Hlater : now < now + READ_EVERY) by (unfold READ_EVERY, SECOND; lia).
  set (c1 := set_pending None _).
  assert (Hdone : forall o, (rank now (set_phase (Ended o) c1) < rank now c0)%nat) by done.
  assert (Hopen : (rank now (reopen (now + READ_EVERY) c1) < rank now c0)%nat).
  { unfold rank at 1. cbn -[READ_EVERY]. by rewrite decide_True. }
  assert (Hdl : (rank now (set_phase (DeadLetters (now + READ_EVERY)) c1) < rank now c0)%nat).
  { unfold rank at 1. cbn -[READ_EVERY]. by rewrite decide_True. }
  assert (Hadv : which = OfFeed -> advance now c1 = Some c2 -> (rank now c2 < rank now c0)%nat).
  { intros ->. by apply advance_rank. }
  destruct r as [e|d].
  { destruct (class e), which; intros [= <-]; auto. }
  destruct which, (is_empty d); cbn [negb]; try (by intros [= <-]); auto.
  destruct (window c1); [|auto].
  destruct (checked_add now END_CHECK_INTERVAL) as [lim|] eqn:Hl; [|done].
  apply checked_add_Some in Hl as [-> _]. cbn [mbind option_bind].
  rewrite decide_False by (unfold END_CHECK_INTERVAL, SECOND; lia). auto.
Qed.

Lemma received_rank now c0 c2 :
  snd <$> due_read c0 = Some RReceive -> pending c0 = None ->
  received now false (request RReceive now c0) = Some c2 -> (rank now c2 < rank now c0)%nat.
Proof.
  intros Hd Hp. unfold received. rewrite take_pending_request. intros [= <-].
  unfold rank. cbn. rewrite Hp. unfold due_read in Hd. rewrite decide_False by lia.
  destruct (phase c0); try done; try lia. by destruct (window c0).
Qed.

Definition job_ok (j : JobEnd) : Prop :=
  match check j with None => True | Some c => check_ok (finish j) c end.

(** The read that [next] asked for, started: it is outstanding, and one more
    round waits for it. *)
Lemma started_rank r now c0 : rank now (request r now c0) = 1%nat.
Proof. done. Qed.

Lemma idle_loop_total {F} `{Feed F} (rc : F -> (SourceError + option Z) * F) fuel :
  forall now c j f, check_ok (finish j) c -> now <= near -> (rank now c <= fuel)%nat ->
  exists r j' f', idle_loop rc fuel now c j f = Out r j' f' /\ finish j' = finish j /\ job_ok j'.
Proof.
  induction fuel as [|fuel IH]; intros now c j f Hok Hn Hf.
  { unfold rank in Hf. destruct (pending c), (phase c), (window c); try lia; repeat case_decide; lia. }
  cbn [idle_loop].
  destruct (check_ok_step (finish j) (CNext now) c Hok Hn) as (c' & Hs & Hok').
  cbn in Hs. destruct (next now c) as [[a c1]|] eqn:Hnx; [|done]. injection Hs as ->.
  assert (Hread : forall r, a = action_of r -> exists c0, c' = request r now c0 /\
    pending c0 = None /\ window c0 = window c /\ snd <$> due_read c0 = Some r /\
    (1 < rank now c0 <= S fuel)%nat /\
    (forall run st lst d, phase c0 = Window run st lst d ->
       now <= lst + END_CHECK_INTERVAL /\ is_Some (window c0))).
  { intros r Ha. destruct (next_read _ _ _ _ _ _ Hok Hnx Ha) as (c0 & ? & ? & ? & ? & ? & ? & ?).
    exists c0. split_and!; auto; lia. }
  destruct a as [d| |which| |[| |]]; try by eexists _, _, _.
  - destruct (Hread RMarker eq_refl) as (c0 & -> & _ & Hw & Hd & Hrk & _).
    destruct (finish j) eqn:Hfin.
    + destruct (IH now (request RMarker now c0) (set_outs true (depth_out j) j) f)
        as (r & j' & f' & -> & Hj' & Hok2); cbn [set_outs finish]; rewrite ?Hfin; auto; [cbn; lia|].
      cbn in Hj'. rewrite Hfin in Hj'. by eexists _, _, _.
    + exfalso. rewrite (check_ok_window _ _ Hok) in Hw. cbn in Hw. unfold due_read in Hd.
      rewrite Hw in Hd. pose proof Hok' as [_ [h [_ _ Hj]]]. cbn in Hj.
      destruct (phase c0) eqn:Hph; try done. by destruct Hj as (? & ? & ? & ? & _).
  - destruct (Hread (RDepth which) eq_refl) as (c0 & -> & Hp & Hw & Hd & Hrk & Hwin).
    destruct (feed_read_depth which f) as [[r|]|]; [| |by eexists _, _, _].
    + destruct (check_ok_step (finish j) (CDepth now r) _ Hok' Hn) as (c2 & Hs & Hok2).
      cbn [check_step] in Hs.
      rewrite Hs. pose proof (depth_rank now which r c0 c2 Hd Hp ltac:(apply Hrk) Hwin Hs).
      destruct (IH now c2 (set_depth_of which j) f) as (x & j' & f' & -> & Hj' & Hok3); auto; [lia|].
      by eexists _, _, _.
    + destruct (IH now (request (RDepth which) now c0)
        (set_outs (marker_out j) true (set_depth_of which j)) f) as (x & j' & f' & Hr & Hj' & Hok3);
        auto; [cbn; lia|].
      cbn [marker_out set_depth_of] in Hr |- *. rewrite Hr. by eexists _, _, _.
  - destruct (Hread RReceive eq_refl) as (c0 & -> & Hp & Hw & Hd & Hrk & Hwin).
    destruct (rc f) as [[e|n] f1]; [by eexists _, _, _|].
    set (took := match n with None => true | Some n => _ end).
    destruct (check_ok_step (finish j) (CReceived now took) _ Hok' Hn) as (c2 & Hs & Hok2).
      cbn [check_step] in Hs.
    rewrite Hs. destruct took eqn:Htk; [by eexists _, _, _|].
    pose proof (received_rank now c0 c2 Hd Hp Hs).
    destruct (IH now c2 (set_closed true j) f1) as (x & j' & f' & -> & Hj' & Hok3); auto; [lia|].
    by eexists _, _, _.
Qed.

Lemma rank_le now c : (rank now c <= IDLE_FUEL)%nat.
Proof.
  unfold rank, IDLE_FUEL. destruct (pending c); [lia|].
  destruct (phase c), (window c); repeat case_decide; lia.
Qed.

Lemma idle_total {F} `{Feed F} (rc : F -> (SourceError + option Z) * F) now stop m d j f :
  job_ok j -> now <= near ->
  exists r j' f', idle rc now stop m d j f = Out r j' f' /\ finish j' = finish j /\ job_ok j'.
Proof.
  intros Hj Hn. unfold idle. destruct stop; [by eexists _, _, _|]. cbn [check finish set_due].
  assert (Hc : forall c, match check j with
      | Some c => Some c
      | None => match finish j with
                | Marker w => Some (windowed w now)
                | Solo true => Some (exact now)
                | Solo false => None
                end
      end = Some c -> check_ok (finish j) c).
  { intros c. unfold job_ok in Hj. destruct (check j); [by intros [= <-]|].
    destruct (finish j) as [w|[]]; intros [= <-]; (constructor; [by constructor|]);
      exists []; by apply idle_inv. }
  destruct (match check j with Some _ => _ | None => _ end) as [c|]; [|by eexists _, _, _].
  specialize (Hc c eq_refl).
  set (jr := match marker_out (set_due None j) with true => _ | false => _ end).
  assert (Hfin : finish jr.2 = finish j) by (subst jr; destruct (marker_out _), m; done).
  destruct jr as [read j1]. cbn in Hfin.
  assert (Hgo : forall c j2, check_ok (finish j) c -> finish j2 = finish j ->
    exists r j' f', idle_loop rc IDLE_FUEL now c j2 f = Out r j' f' /\ finish j' = finish j /\ job_ok j').
  { intros c2 j2 Hc2 Hj2. rewrite <- Hj2 in Hc2 |- *. by apply idle_loop_total, rank_le. }
  assert (Hrest : forall c, check_ok (finish j) c -> exists r j' f',
    match depth_out j1, d with
    | true, Some r => match depth_read now r c with
                      | None => Panicked
                      | Some c => idle_loop rc IDLE_FUEL now c (set_outs (marker_out j1) false j1) f
                      end
    | _, _ => idle_loop rc IDLE_FUEL now c j1 f
    end = Out r j' f' /\ finish j' = finish j /\ job_ok j').
  { intros c2 Hc2. destruct (depth_out j1), d as [r|]; auto.
    destruct (check_ok_step _ (CDepth now r) _ Hc2 Hn) as (c3 & Hs & Hc3). cbn [check_step] in Hs.
    rewrite Hs. by apply Hgo. }
  destruct read as [[e|mr]|]; [|destruct (check_ok_step _ (CMarker now mr) _ Hc Hn) as (c2 & Hs & Hc2);
    cbn [check_step] in Hs; rewrite Hs|]; auto.
  eexists _, _, _. split_and!; [done|done|]. unfold job_ok. cbn. by rewrite Hfin.
Qed.

(** ** A job over its life *)

Section job.
Context {F : Type} `{Feed F}.
Variable rc : F -> (SourceError + option Z) * F.

(** The reader's calls, at instants up to [lim], whatever the feed holds at
    each. *)
Inductive job_step (lim : Z) : JobEnd -> JobEnd -> Prop :=
| step_idle now stop m d f r j j' f' :
    now <= lim -> idle rc now stop m d j f = Out r j' f' -> job_step lim j j'
| step_busy now j j' : now <= lim -> busy now j = Some j' -> job_step lim j j'
| step_receive_failed now j j' :
    now <= lim -> receive_failed now j = Some j' -> job_step lim j j'
| step_lister_finished j : job_step lim j (lister_finished j).

Definition job_reachable (lim : Z) (fin : Finish) : JobEnd -> Prop :=
  rtc (job_step lim) (job_new fin).

Lemma busy_ok now j :
  now <= near -> job_ok j -> exists j', busy now j = Some j' /\ finish j' = finish j /\ job_ok j'.
Proof.
  intros Hn Hj. unfold busy, job_ok in *. cbn.
  destruct (check j) as [c|] eqn:Hc; [|eexists; split_and!; [done|done|cbn; by rewrite Hc]].
  destruct (check_ok_step _ (CRestart now) _ Hj Hn) as (c1 & Hs & Hc1). cbn [check_step] in Hs.
  rewrite Hs. cbn. by eexists.
Qed.

Lemma lister_ok j : job_ok j -> job_ok (lister_finished j).
Proof.
  unfold job_ok, lister_finished. destruct (finish j) as [|b] eqn:Hf; cbn; rewrite ?Hf; [done|].
  destruct (check j); [|done]. intros [Ht Hi]. by constructor.
Qed.

Lemma job_step_ok lim j j' : lim <= near -> job_step lim j j' -> job_ok j -> job_ok j'.
Proof.
  intros Hlim Hs Hj.
  destruct Hs as [now stop m d f r j j' f' Hn Hi|now j j' Hn Hb|now j j' Hn Hb|j];
    try (assert (Hn' : now <= near) by lia; clear Hn; rename Hn' into Hn).
  - destruct (idle_total rc now stop m d j f Hj Hn) as (r1 & j1 & f1 & He & _ & Hok).
    rewrite Hi in He. by simplify_eq.
  - destruct (busy_ok now j Hn Hj) as (j1 & He & _ & Hok). rewrite Hb in He. by simplify_eq.
  - unfold receive_failed in Hb. destruct (closed_ j); [|by simplify_eq].
    destruct (busy_ok now j Hn Hj) as (j1 & He & _ & Hok). rewrite Hb in He. by simplify_eq.
  - by apply lister_ok.
Qed.

Lemma job_reachable_ok lim fin j : lim <= near -> job_reachable lim fin j -> job_ok j.
Proof.
  unfold job_reachable. intros Hlim Hr. assert (Hj : job_ok (job_new fin)) by done. revert Hr Hj.
  generalize (job_new fin) as j0. intros j0 Hr Hj.
  induction Hr as [|x y z Hs _ IH]; [done|]. eauto using job_step_ok.
Qed.
End job.

(** ** A solo run over a feed that counts exactly *)

(** No read of an exact feed stays outstanding, except a receive that failed. *)
Definition check_rests (c : EndCheck) : Prop :=
  window c = None /\
  ((pending c = None /\ ((exists due, phase c = Opening due) \/ exists o, phase c = Ended o)) \/
   (exists t, pending c = Some (RReceive, t))).

Definition solo_ok (j : JobEnd) : Prop :=
  (exists b, finish j = Solo b) /\ marker_out j = false /\ depth_out j = false /\
  match check j with None => True | Some c => check_rests c end.

Section solo.
Context {F : Type} `{ExactFeed F}.
Variable rc : F -> (SourceError + option Z) * F.

(** What one poll of an exact check finds: the feed holds something; or it
    holds nothing, and the receive fails, takes a unit, or takes nothing, after
    which the dead letters decide. *)
Definition poll_result (f f' : F) (r : SourceError + bool) : Prop :=
  (~ holds_nothing OfFeed f /\ r = inr false /\ f' = f) \/
  (holds_nothing OfFeed f /\
   ((exists e, rc f = (inl e, f') /\ r = inl e) \/
    (exists n, rc f = (inr n, f') /\ (forall k, n = Some k -> 0 < k) /\ r = inr false) \/
    (exists n, rc f = (inr (Some n), f') /\ n <= 0 /\
       ((holds_nothing OfDeadLetters f' /\ r = inr true) \/
        (~ holds_nothing OfDeadLetters f' /\ exists d, r = inl (ErrStalled d)))))).

(** The fields a poll leaves alone, and how it leaves the check: a read that is
    to come is due within [READ_EVERY], and only a failed receive is outstanding. *)
Definition poll_kept (now : Z) (j j' : JobEnd) : Prop :=
  finish j' = finish j /\ marker_out j' = marker_out j /\ depth_out j' = depth_out j /\
  exists c', check j' = Some c' /\ check_rests c' /\
    (forall d, phase c' = Opening d -> d <= now + READ_EVERY) /\
    (is_Some (pending c') -> exists f e f', rc f = (inl e, f')).

Lemma poll_ended fuel now c j f o :
  window c = None -> pending c = None -> phase c = Ended o ->
  exists j', idle_loop rc (S fuel) now c j f =
      Out (match o with
           | Completed => inr true
           | Stalled d => inl (ErrStalled d)
           | Failed e => inl (ErrDepth (depth_of j) e)
           end) j' f /\ poll_kept now j j' /\ check j' = Some c.
Proof.
  intros Hw Hp Hph. cbn [idle_loop]. unfold next, expire. rewrite Hp, Hph. cbn. rewrite Hph.
  assert (Hrest : check_rests c) by (split; [done|]; left; split; [done|]; right; by eexists).
  destruct o; eexists; (split; [done|]); (split; [|done]); split_and!; try done; exists c;
    rewrite Hph, Hp; (split_and!; [done..|by intros []]).
Qed.

Lemma poll_dead_letters fuel now c j f :
  window c = None -> pending c = None -> phase c = DeadLetters now -> now <= near ->
  exists r j', idle_loop rc (S (S fuel)) now c j f = Out r j' f /\ poll_kept now j j' /\
    ((holds_nothing OfDeadLetters f /\ r = inr true) \/
     (~ holds_nothing OfDeadLetters f /\ exists d, r = inl (ErrStalled d))).
Proof.
  intros Hw Hp Hph Hn. cbn [idle_loop].
  rewrite (next_due now c (Some now) (RDepth OfDeadLetters)); [|done| |by intros ? [= <-]|by rewrite Hph].
  2:{ unfold due_read. by rewrite Hph. }
  cbn [action_of]. destruct (exact_depth OfDeadLetters f) as (d & -> & Hd).
  unfold depth_read. cbn [request pending].
  rewrite checked_add_near by (done || apply read_every_le). cbn [mbind option_bind].
  set (c1 := set_pending None (request (RDepth OfDeadLetters) now c)).
  destruct (is_empty d) eqn:He.
  - destruct (poll_ended fuel now (set_phase (Ended Completed) c1) (set_depth_of OfDeadLetters j) f Completed)
      as (j' & Hr & Hk & _); try done.
    eexists _, j'. split_and!; [exact Hr|done|]. left. split; [by apply Hd|done].
  - destruct (poll_ended fuel now (set_phase (Ended (Stalled d)) c1) (set_depth_of OfDeadLetters j) f (Stalled d))
      as (j' & Hr & Hk & _); try done.
    eexists _, j'. split_and!; [exact Hr|done|]. right. split; [|by eexists].
    intros Hh. apply Hd in Hh. congruence.
Qed.

Lemma poll_receiving fuel now c j f :
  window c = None -> pending c = None -> phase c = Receiving -> now <= near ->
  holds_nothing OfFeed f ->
  exists r j' f', idle_loop rc (S (S (S fuel))) now c j f = Out r j' f' /\ poll_kept now j j' /\
    poll_result f f' r.
Proof.
  intros Hw Hp Hph Hn Hf. cbn [idle_loop].
  rewrite (next_due now c None RReceive); [|done| |done|by rewrite Hph].
  2:{ unfold due_read. by rewrite Hph. }
  cbn [action_of]. destruct (rc f) as [[e|n] f1] eqn:Hrc.
  { eexists _, _, _. split_and!; [done| |].
    - split_and!; try done. eexists. split; [done|]. cbn. rewrite Hph. split_and!; [|done|eauto].
      split; [done|]. right. by eexists.
    - right. split; [done|]. left. by exists e. }
  unfold received. rewrite take_pending_request. set (c1 := set_pending None _).
  destruct (match n with None => true | Some n => bool_decide (0 < n) end) eqn:Htook.
  - unfold restart. cbn [c1 set_pending request phase window last_request].
    rewrite Hph, Hw. cbn -[READ_EVERY]. eexists _, _, _. split_and!; [done| |].
    + split_and!; try done. eexists. split; [done|]. split_and!; [|intros ? [= <-]|by intros []].
      * split; [done|]. left. split; [done|]. left. by eexists.
      * unfold READ_EVERY, SECOND. lia.
    + right. split; [done|]. right. left. exists n. split_and!; try done.
      intros k ->. by apply bool_decide_eq_true in Htook.
  - destruct n as [n|]; [|done]. apply bool_decide_eq_false in Htook.
    destruct (poll_dead_letters fuel now (set_phase (DeadLetters now) c1) (set_closed true j) f1)
      as (r & j' & Hr & Hkp & Hres); try done.
    exists r, j', f1. split_and!; [exact Hr|done|]. right. split; [done|]. right. right.
    exists n. split_and!; [done|lia|done].
Qed.

(** One poll of an exact check whose read is due. *)
Lemma exact_poll now c j f dd :
  window c = None -> pending c = None -> phase c = Opening dd -> dd <= now -> now <= near ->
  exists r j' f', idle_loop rc IDLE_FUEL now c j f = Out r j' f' /\ poll_kept now j j' /\
    poll_result f f' r.
Proof.
  intros Hw Hp Hph Hdd Hn. unfold IDLE_FUEL. remember 3%nat as n eqn:Hn3. cbn [idle_loop].
  rewrite (next_due now c (Some dd) (RDepth OfFeed)); [|done| |by intros ? [= <-]|by rewrite Hph].
  2:{ unfold due_read. by rewrite Hph, Hw. }
  cbn [action_of]. destruct (exact_depth OfFeed f) as (d & -> & Hd).
  unfold depth_read. cbn [request pending].
  rewrite (checked_add_near now READ_EVERY) by (done || apply read_every_le). cbn [mbind option_bind].
  set (c1 := set_pending None (request (RDepth OfFeed) now c)).
  destruct (is_empty d) eqn:He; cbn [negb].
  - change (window c1) with (window c). rewrite Hw. unfold advance.
    change (phase c1) with (phase c). change (window c1) with (window c). rewrite Hph, Hw.
    subst n. apply (poll_receiving 0 now (set_phase Receiving c1) (set_depth_of OfFeed j) f); try done. by apply Hd.
  - assert (Hlater : now < now + READ_EVERY) by (unfold READ_EVERY, SECOND; lia).
    subst n. cbn [idle_loop]. unfold next at 1, expire, due_read. cbn -[READ_EVERY idle_loop]. rewrite Hw.
    rewrite decide_True by done. eexists _, _, _. split_and!; [done| |].
    + split_and!; try done. eexists. split; [done|]. split_and!; [|by intros ? [= <-]|by intros []].
      split; [done|]. left. split; [done|]. left. by eexists.
    + left. split_and!; try done. intros Hh. apply Hd in Hh. congruence.
Qed.

Lemma poll_kept_solo now j j' : poll_kept now j j' -> solo_ok j -> solo_ok j'.
Proof.
  intros (Hf & Hm & Hd & c' & Hc & Hr & _) ([b Hb] & Hmo & Hdo & _). unfold solo_ok.
  rewrite Hf, Hm, Hd, Hc. split_and!; eauto.
Qed.

Lemma wait_poll fuel now c j f d :
  next now c = Some (Wait d, c) ->
  idle_loop rc (S fuel) now c j f = Out (inr false) (set_check c (set_due d j)) f.
Proof. intros Hn. cbn [idle_loop]. by rewrite Hn. Qed.

(** What one idle poll of a solo run does: nothing before the lister finished or
    under a stop; nothing before its next read is due or while a receive is
    outstanding; an ended job repeats its outcome; otherwise it reads. *)
Inductive poll_case (now : Z) (stop : bool) (j j' : JobEnd) (f f' : F) : SourceError + bool -> Prop :=
| poll_off : stop = true \/ (check j = None /\ finish j = Solo false) ->
    check j' = check j -> poll_case now stop j j' f f' (inr false)
| poll_waits c : check j = Some c -> check j' = Some c -> f' = f ->
    is_Some (pending c) \/ (exists d, phase c = Opening d /\ now < d) ->
    poll_case now stop j j' f f' (inr false)
| poll_over c o r : check j = Some c -> check j' = Some c -> phase c = Ended o ->
    poll_case now stop j j' f f' r
| poll_reads r : poll_kept now j j' -> poll_result f f' r -> poll_case now stop j j' f f' r.

Lemma solo_idle now stop m d j f :
  solo_ok j -> now <= near ->
  exists r j' f', idle rc now stop m d j f = Out r j' f' /\ solo_ok j' /\ finish j' = finish j /\
    poll_case now stop j j' f f' r.
Proof.
  intros Hj Hn. pose proof Hj as ([b Hb] & Hm & Hd & Hc). unfold idle.
  assert (Hdue : solo_ok (set_due None j)) by (split_and!; eauto).
  destruct stop; [eexists _, _, _; split_and!; [done..|]; apply poll_off; [by left|done]|].
  cbn [check finish set_due marker_out].
  destruct (check j) as [c|] eqn:Hck; rewrite Hm; cbn [depth_out set_due]; [|rewrite Hb; destruct b; rewrite ?Hd].
  - rewrite Hd. pose proof Hc as Hrest. destruct Hc as (Hw & [(Hp & [[dd Hph]|[o Hph]])|[t Hp]]).
    + destruct (decide (now < dd)) as [Hlt|Hge].
      * change IDLE_FUEL with (S 3). rewrite (wait_poll _ now c _ f (Some dd)).
        2:{ unfold next, expire, due_read. rewrite Hp, Hph. cbn. rewrite Hph, Hw. by rewrite decide_True. }
        eexists _, _, _. split_and!; [done|split_and!; eauto|done|]. apply (poll_waits _ _ _ _ _ _ c); eauto.
      * destruct (exact_poll now c (set_due None j) f dd) as (r & j' & f' & Hr & Hk & Hres); try done; [lia|].
        eexists _, _, _. split_and!; [done|by eapply poll_kept_solo|apply Hk|by apply poll_reads].
    + destruct (poll_ended 3 now c (set_due None j) f o) as (j' & Hr & Hk & Hc'); try done.
      eexists _, _, _. split_and!; [exact Hr|by eapply poll_kept_solo|apply Hk|].
      by apply (poll_over _ _ _ _ _ _ c o).
    + change IDLE_FUEL with (S 3). rewrite (wait_poll _ now c _ f None) by (unfold next; by rewrite Hp).
      eexists _, _, _. split_and!; [done|split_and!; eauto|done|].
      apply (poll_waits _ _ _ _ _ _ c); rewrite ?Hp; eauto.
  - destruct (exact_poll now (exact now) (set_due None j) f now) as (r & j' & f' & Hr & Hk & Hres); try done.
    eexists _, _, _. split_and!; [done|by eapply poll_kept_solo|by rewrite (proj1 Hk)|by apply poll_reads].
  - eexists _, _, _. split_and!; [done|done|done|]. apply poll_off; [by right|cbn; congruence].
Qed.

Lemma solo_busy now j j' : solo_ok j -> busy now j = Some j' -> solo_ok j'.
Proof.
  intros ([b Hb] & Hm & Hd & Hc). unfold busy. cbn.
  destruct (check j) as [c|] eqn:Hck.
  2:{ intros [= <-]. split_and!; eauto. cbn. by rewrite Hck. }
  destruct Hc as (Hw & Hc). unfold restart. rewrite Hw.
  destruct (phase c) as [| | | | |o] eqn:Hph; cbn; intros [= <-]; split_and!; cbn; eauto;
    split; eauto; destruct Hc as [[? ?]|]; eauto 6.
Qed.

Lemma solo_step lim j j' : lim <= near -> job_step rc lim j j' -> solo_ok j -> solo_ok j'.
Proof.
  intros Hlim Hs Hj. destruct Hs as [now stop m d f r j j' f' Hn Hi|now j j' Hn Hb|now j j' Hn Hb|j].
  - destruct (solo_idle now stop m d j f Hj ltac:(lia)) as (r1 & j1 & f1 & He & Hok & _).
    rewrite Hi in He. by simplify_eq.
  - by eapply solo_busy.
  - unfold receive_failed in Hb. destruct (closed_ j); [by eapply solo_busy|by simplify_eq].
  - pose proof Hj as ([b Hb] & Hm & Hd & Hc). unfold lister_finished. rewrite Hb.
    split_and!; cbn; eauto.
Qed.

Lemma solo_reachable lim b j : lim <= near -> job_reachable rc lim (Solo b) j -> solo_ok j.
Proof.
  unfold job_reachable. intros Hlim. assert (Hj : solo_ok (job_new (Solo b))) by (split_and!; cbn; eauto).
  revert Hj. generalize (job_new (Solo b)) as j0. intros j0 Hj Hr.
  induction Hr as [|x y z Hs _ IH]; [done|]. eauto using solo_step.
Qed.

(** ** Where a receive never fails, a read is never far away *)

(** After calls up to [lim], the check reads within [READ_EVERY] of it. *)
Definition due_by (lim : Z) (j : JobEnd) : Prop := forall c, check j = Some c ->
  pending c = None /\ forall d, phase c = Opening d -> d <= lim + READ_EVERY.

Hypothesis rc_answers : forall f e f', rc f <> (inl e, f').

Lemma due_by_idle lim now stop m d j f r j' f' :
  now <= lim -> lim <= near -> solo_ok j -> due_by lim j ->
  idle rc now stop m d j f = Out r j' f' -> due_by lim j'.
Proof.
  intros Hn Hlim Hj Hd Hi.
  destruct (solo_idle now stop m d j f Hj ltac:(lia)) as (r1 & j1 & f1 & He & _ & _ & Hp).
  rewrite Hi in He. injection He as <- <- <-. unfold due_by.
  destruct Hp as [_ ->|c Hc -> _ _|c o r Hc -> _|r (_ & _ & _ & c & -> & _ & Hs & Hp) _]; [done|..];
    intros c0 [= <-]; [by apply Hd..|].
  split; [|intros d0 Hd0%Hs; lia]. destruct (pending c); [|done].
  destruct Hp as (f0 & e & f2 & Hrc); [done|]. by destruct (rc_answers f0 e f2).
Qed.

Lemma due_by_busy lim now j j' :
  now <= lim -> solo_ok j -> due_by lim j -> busy now j = Some j' -> due_by lim j'.
Proof.
  intros Hn (_ & _ & _ & Hc) Hd. unfold busy. cbn.
  destruct (check j) as [c|] eqn:Hck; [|intros [= <-] c; cbn; congruence].
  destruct Hc as [Hw _]. unfold restart. rewrite Hw.
  assert (0 <= READ_EVERY) by done.
  assert (Hopen : due_by lim (set_outs false false
    (set_check (set_phase (Opening now) (set_pending None c)) (set_closed false (set_due None j))))).
  { intros c0 [= <-]. cbn -[READ_EVERY]. split; [done|]. intros d [= <-]. lia. }
  destruct (phase c) eqn:Hph; cbn -[READ_EVERY]; intros [= <-]; try exact Hopen.
  intros c0 [= <-]. by apply Hd.
Qed.

Lemma due_by_step lim j j' :
  lim <= near -> job_step rc lim j j' -> solo_ok j -> due_by lim j -> due_by lim j'.
Proof.
  intros Hlim Hs Hj Hd.
  destruct Hs as [now stop m d f r j j' f' Hn Hi|now j j' Hn Hb|now j j' Hn Hb|j].
  - by eapply due_by_idle.
  - by eapply due_by_busy.
  - unfold receive_failed in Hb. destruct (closed_ j); [by eapply due_by_busy|by simplify_eq].
  - unfold due_by, lister_finished. by destruct (finish j).
Qed.

Lemma due_by_reachable lim b j : lim <= near -> job_reachable rc lim (Solo b) j -> due_by lim j.
Proof.
  unfold job_reachable. intros Hlim.
  assert (Hj : solo_ok (job_new (Solo b)) /\ due_by lim (job_new (Solo b)))
    by (split; [split_and!; cbn; eauto|done]).
  revert Hj. generalize (job_new (Solo b)) as j0. intros j0 Hj Hr.
  induction Hr as [|x y z Hs _ IH]; [apply Hj|].
  apply IH. split; [by eapply solo_step; [| |apply Hj]|by eapply due_by_step; [| |apply Hj..]].
Qed.

(** Idle polls, until one of them is not [Ok(false)]. *)
Record Poll := mkPoll {
  poll_now : Z;
  poll_marker : option (option (SourceError + option string));
  poll_depth : option (FeedError + Depth);
}.
Fixpoint poll_until (ps : list Poll) (j : JobEnd) (f : F) : Idle F :=
  match ps with
  | [] => Out (inr false) j f
  | p :: ps =>
      match idle rc (poll_now p) false (poll_marker p) (poll_depth p) j f with
      | Out (inr false) j f => poll_until ps j f
      | out => out
      end
  end.

Lemma polls_complete lim ps : forall j f,
  solo_ok j -> due_by lim j -> finish j = Solo true ->
  (forall c, check j = Some c -> outcome c = None) ->
  holds_nothing OfFeed f -> holds_nothing OfDeadLetters f -> rc f = (inr (Some 0), f) ->
  Forall (fun p => poll_now p <= near) ps ->
  Exists (fun p => lim + READ_EVERY <= poll_now p) ps ->
  exists j', poll_until ps j f = Out (inr true) j' f.
Proof.
  induction ps as [|p ps IH]; intros j f Hj Hd Hfin Hno Hf Hdl Hrc Hnear Hex;
    [by apply Exists_nil in Hex|].
  apply Forall_cons in Hnear as [Hp Hnear]. cbn [poll_until].
  destruct (solo_idle (poll_now p) false (poll_marker p) (poll_depth p) j f Hj Hp)
    as (r & j' & f' & -> & Hj' & Hfin' & Hcase).
  destruct Hcase as [[?|[_ ?]] _|c Hc Hc' -> Hw|c o r Hc _ Ho|r _ Hres]; [congruence..| | |].
  - destruct (Hd c Hc) as [Hnp Hdue]. destruct Hw as [[? ?]|(d & Hph & Hlt)]; [congruence|].
    apply Exists_cons in Hex as [Hex|Hex]; [specialize (Hdue d Hph); lia|].
    apply IH; try done; [|congruence|].
    + intros c0 Hc0. apply Hd. congruence.
    + intros c0 Hc0. apply Hno. congruence.
  - specialize (Hno c Hc). unfold outcome in Hno. by rewrite Ho in Hno.
  - destruct Hres as [(Hne & _)|(_ & [(e & He & _)|[(n & He & Hk & _)|(n & He & _ & Hr)]])].
    + done.
    + congruence.
    + rewrite Hrc in He. simplify_eq. specialize (Hk 0 eq_refl). lia.
    + rewrite Hrc in He. simplify_eq. destruct Hr as [[_ ->]|[? _]]; [|done]. by exists j'.
Qed.
End solo.

(** The reader's receive on the in-process feed. *)
Definition memory_receive (room : nat) (s : State) : (SourceError + option Z) * State :=
  let '(ds, _, s') := receive room s in (inr (Some (Z.of_nat (length ds))), s').

Lemma memory_receive_nothing room s n s' :
  memory_receive room s = (inr (Some n), s') -> n <= 0 -> s' = s.
Proof.
  unfold memory_receive, receive.
  set (take := Nat.min _ _). destruct (receive_loop take s) as [ds s1] eqn:Hr.
  intros [= <- <-] Hn. assert (Hl : length ds = take).
  { pose proof (receive_loop_full take s) as Hf. rewrite Hr in Hf. apply Hf. subst take. lia. }
  assert (take = 0%nat) as H0 by lia. rewrite H0 in Hr. by injection Hr.
Qed.

(** an idle poll always answers. Whatever the feed and the marker read
    answer, over a job's whole life, no call panics (no marker is read without a
    marker, no answer is reported out of turn), the poll's loop ends within four
    rounds, and the job stays one its check can go on from. *)
Theorem job_idle_total {F} `{Feed F} (rc : F -> (SourceError + option Z) * F) (fin : Finish)
    (j : JobEnd) (now : Z) (stop : bool)
    (marker : option (option (SourceError + option string)))
    (depth : option (FeedError + Depth)) (f : F) :
  job_reachable rc near fin j -> now <= near ->
  (exists r j' f', idle rc now stop marker depth j f = Out r j' f') /\ is_Some (busy now j) /\
  is_Some (receive_failed now j).
Proof.
  intros Hr Hn. pose proof (job_reachable_ok _ near _ _ (Z.le_refl _) Hr) as Hok.
  destruct (idle_total rc now stop marker depth j f Hok Hn) as (r & j' & f' & He & _).
  destruct (busy_ok now j Hn Hok) as (j1 & Hb & _).
  split_and!; [by eexists _, _, _|by eexists|]. unfold receive_failed.
  destruct (closed_ j); by eexists.
Qed.

Lemma memory_receive_answers room s e s' : memory_receive room s <> (inl e, s').
Proof. unfold memory_receive. by destruct (receive room s) as [[ds ?] ?]. Qed.

(** Every published unit is acknowledged: the feed is empty. *)
Lemma all_acknowledged cap y room :
  0 < cap <= U32_MAX -> sys_reachable cap y -> published y ≡ₚ acked y ->
  holds_nothing OfFeed (feed y) /\ holds_nothing OfDeadLetters (feed y) /\
  memory_receive room (feed y) = (inr (Some 0), feed y).
Proof.
  intros Hcap Hy Hall. pose proof (sys_reachable_inv _ _ Hcap Hy) as [[_ Hu _ _ _ _] _].
  assert (Hz : (st_visible (feed y)).*1 ++ held_units (st_held (feed y)) ++ st_dead (feed y) = []).
  { apply length_zero_iff_nil. apply Permutation_length in Hu, Hall. rewrite !length_app in *. lia. }
  apply app_eq_nil in Hz as [Hv [Hh Hd]%app_eq_nil]. apply fmap_nil_inv in Hv.
  split_and!; [split; [done|]|done|].
  - apply map_to_list_empty_iff. unfold held_units in Hh. by apply fmap_nil_inv, fmap_nil_inv in Hh.
  - unfold memory_receive, receive. rewrite Hv. cbn. by rewrite Nat.min_0_r.
Qed.

(** C28: a solo job ends exactly when all of its work is done, on the in-process
    feed, in any reachable state of the feed and of a job that has not ended and
    whose calls came at instants up to [lim]. An idle poll that completes the job
    finds every published unit acknowledged, none dead-lettered, and leaves the
    feed as it was. Conversely, once the lister has finished and every published
    unit is acknowledged, idle polls complete the job, whatever their number and
    instants, as soon as one of them comes fifteen seconds after [lim] or
    later. *)
Theorem solo_job_done_iff_acknowledged (cap : Z) (y : FeedSys) (room : nat) (b : bool) (lim : Z)
    (j : JobEnd) :
  0 < cap <= U32_MAX -> sys_reachable cap y -> lim <= near ->
  job_reachable (memory_receive room) lim (Solo b) j ->
  (forall c, check j = Some c -> outcome c = None) ->
  (forall now marker depth j' s', now <= near ->
     idle (memory_receive room) now false marker depth j (feed y) = Out (inr true) j' s' ->
     published y ≡ₚ acked y /\ st_dead (feed y) = [] /\ s' = feed y) /\
  (finish j = Solo true -> published y ≡ₚ acked y -> forall ps,
     Forall (fun p => poll_now p <= near) ps ->
     Exists (fun p => lim + READ_EVERY <= poll_now p) ps ->
     exists j', poll_until (memory_receive room) ps j (feed y) = Out (inr true) j' (feed y)).
Proof.
  intros Hcap Hy Hlim Hjr Hno. pose proof (solo_reachable _ _ _ _ Hlim Hjr) as Hj. split.
  - intros now marker depth j' s' Hn Hi.
    pose proof (sys_reachable_inv _ _ Hcap Hy) as [[_ Hu _ _ _ _] _].
    destruct (solo_idle (memory_receive room) now false marker depth j (feed y) Hj Hn)
      as (r1 & j1 & f1 & He & _ & _ & Hcase).
    rewrite Hi in He. injection He as <- <- <-.
    inversion Hcase as [| |c o r Hc _ Ho|r _ Hres]; subst.
    { specialize (Hno c Hc). unfold outcome in Hno. by rewrite Ho in Hno. }
    destruct Hres as [(_ & ? & _)|([Hv Hh] & [(e & _ & ?)|[(n & _ & _ & ?)|
      (n & Hrc & Hn0 & Hd)]])]; try congruence.
    apply memory_receive_nothing in Hrc; [|done]. subst s'.
    destruct Hd as [[Hd _]|[_ [? ?]]]; [|congruence]. cbn in Hd.
    rewrite Hu, Hv, Hh, Hd. by cbn.
  - intros Hfin Hall ps Hps Hex. destruct (all_acknowledged cap y room Hcap Hy Hall) as (? & ? & ?).
    apply (polls_complete _ lim); try done.
    eapply due_by_reachable; [|done|done]. apply memory_receive_answers.
Qed.

Definition demo_job : JobEnd := lister_finished (job_new (Solo false)).

Lemma demo_job_reachable : job_reachable (memory_receive 4) near (Solo false) demo_job.
Proof. eapply rtc_l; [apply step_lister_finished|apply rtc_refl]. Qed.

Lemma job_idle_total_witness :
  exists r j' f', idle (memory_receive 4) 5 false None None demo_job (feed demo_sys) = Out r j' f'.
Proof.
  destruct (job_idle_total (memory_receive 4) (Solo false) demo_job 5 false None None
              (feed demo_sys)) as [H _].
  - apply demo_job_reachable.
  - by vm_compute.
  - exact H.
Defined.

Definition demo_done : FeedSys :=
  default (sys_new 2)
    (sys_run [SPublish (demo_unit 1); SReceive 1; SAcknowledge 1] (sys_new 2)).

Definition demo_polls : list Poll := [mkPoll 6 None None; mkPoll (6 + READ_EVERY) None None].

(** The job polled a feed that still held a unit: its next read is due later. *)
Definition demo_held : FeedSys :=
  default (sys_new 2) (sys_run [SPublish (demo_unit 1); SReceive 1] (sys_new 2)).
Definition demo_polled : JobEnd :=
  match idle (memory_receive 4) 5 false None None demo_job (feed demo_held) with
  | Out _ j _ => j
  | _ => demo_job
  end.

Lemma solo_job_done_iff_acknowledged_witness :
  exists j', poll_until (memory_receive 4) demo_polls demo_polled (feed demo_done) =
    Out (inr true) j' (feed demo_done).
Proof.
  destruct (solo_job_done_iff_acknowledged 2 demo_done 4 false 5 demo_polled) as [_ Hall].
  - by vm_compute.
  - apply (sys_run_rtc [SPublish (demo_unit 1); SReceive 1; SAcknowledge 1]).
    vm_compute. reflexivity.
  - by vm_compute.
  - eapply rtc_l; [apply step_lister_finished|]. apply rtc_once.
    eapply (step_idle _ 5 5 false None None (feed demo_held)); [lia|]. vm_compute. reflexivity.
  - intros c Hc. vm_compute in Hc. injection Hc as <-. reflexivity.
  - apply Hall.
    + vm_compute. reflexivity.
    + vm_compute. reflexivity.
    + repeat (apply Forall_cons; split; [by vm_compute|]). apply Forall_nil_2.
    + apply Exists_cons_tl, Exists_cons_hd. by vm_compute.
Defined.
