(* ===== verification/Backpressure.v ===== *)
(** * Backpressure: the in-flight byte budget and the pause controller

    [spate-core/src/backpressure.rs]. [InflightBudget] is the saturating byte
    counter. [WatermarkController] is the pause/resume state machine; an
    operation that reads the clock takes the reading as [now] (nanoseconds), and
    [tick] takes the [usage] it read from the budget. [run] replays what a
    driver does to one controller, and [decision] states the same choices as a
    function of the history alone. *)

From stdpp Require Import base list sorting.
From Stdlib Require Import ZArith Lia SpecFloat.
From S2P Require Import Prelude Floats.

(** ** The budget *)

Definition budget_new : Z := 0.
Definition add (bytes v : Z) : Z := sat_add_u64 v bytes.
Definition sub (bytes v : Z) : Z := sat_sub v bytes.

Inductive BudgetOp := Add (bytes : Z) | Sub (bytes : Z).

Definition budget_step (v : Z) (o : BudgetOp) : Z :=
  match o with Add b => add b v | Sub b => sub b v end.

(** What is in flight by the book: entered minus left. *)
Definition book (ops : list BudgetOp) : Z :=
  foldr (fun o n => match o with Add b => n + b | Sub b => n - b end) 0 ops.

(** ** The controller *)

Record BackpressureParams := mkParams {
  high_bytes : Z;
  low_bytes : Z;
  min_pause : Z
}.

(** [from_budget]; [None] is its panic on an empty budget or bad ratios. *)
Definition scale (max_inflight_bytes : Z) (ratio : f64) : Z :=
  as_usize (fmul (f64_of max_inflight_bytes) ratio).

Definition from_budget (max_inflight_bytes : Z) (high_ratio low_ratio : f64) (mp : Z)
    : option BackpressureParams :=
  if bool_decide (0 < max_inflight_bytes) &&
     SFltb (f64_of 0) low_ratio && SFleb low_ratio high_ratio && SFleb high_ratio (f64_of 1)
  then Some (mkParams (Z.max (scale max_inflight_bytes high_ratio) 1)
               (scale max_inflight_bytes low_ratio) mp)
  else None.

Inductive Transition := Pause | Resume.

Inductive State :=
| Normal
| Paused (since : Z).

Record WatermarkController := mkController {
  params : BackpressureParams;
  state : State;
  rejected : bool
}.

Definition with_clock (p : BackpressureParams) : WatermarkController :=
  mkController p Normal false.

Definition on_send_rejected (now : Z) (c : WatermarkController) : WatermarkController :=
  mkController (params c)
    (match state c with Paused _ => Paused now | Normal => Normal end) true.

(** [Instant::duration_since] is zero for a later instant. *)
Definition duration_since (now earlier : Z) : Z := sat_sub now earlier.

Definition tick (now usage : Z) (queues_below_low : bool) (c : WatermarkController)
    : option Transition * WatermarkController :=
  match state c with
  | Normal =>
      if rejected c || bool_decide (high_bytes (params c) <= usage)
      then (Some Pause, mkController (params c) (Paused now) false)
      else (None, c)
  | Paused since =>
      if rejected c then (None, mkController (params c) (Paused since) false)
      else
        let drained := bool_decide (usage <= low_bytes (params c)) && queues_below_low in
        if drained && bool_decide (min_pause (params c) <= duration_since now since)
        then (Some Resume, mkController (params c) Normal (rejected c))
        else (None, c)
  end.

Definition is_paused (c : WatermarkController) : bool :=
  match state c with Paused _ => true | Normal => false end.

(** ** A driver's calls, and the transitions they return with their times *)

Inductive Event :=
| Rejected (now : Z)
| Tick (now usage : Z) (queues_below_low : bool).

Definition time (e : Event) : Z := match e with Rejected t => t | Tick t _ _ => t end.

Definition event (st : WatermarkController * list (Z * Transition)) (e : Event)
    : WatermarkController * list (Z * Transition) :=
  match e with
  | Rejected t => (on_send_rejected t st.1, st.2)
  | Tick t u q =>
      let r := tick t u q st.1 in
      (r.2, match r.1 with Some tr => st.2 ++ [(t, tr)] | None => st.2 end)
  end.

Definition run (p : BackpressureParams) (es : list Event)
    : WatermarkController * list (Z * Transition) :=
  foldl event (with_clock p, []) es.

(** ** The decision as a function of the history *)

Definition rejections (es : list Event) : list Z :=
  omap (fun e => match e with Rejected t => Some t | Tick _ _ _ => None end) es.

Definition pauses (out : list (Z * Transition)) : list Z :=
  omap (fun x => match x.2 with Pause => Some x.1 | Resume => None end) out.

Definition last_rejected (es : list Event) : bool :=
  match last es with Some (Rejected _) => true | _ => false end.

Definition last_pause (out : list (Z * Transition)) : bool :=
  match last out with Some (_, Pause) => true | _ => false end.

(** A tick's decision after the calls [es] returned [out]. Pausing needs a
    rejection since the previous tick or usage at the high mark. Resuming needs
    no such rejection, usage at the low mark, the queues drained, and
    [min_pause] without a pause or a rejection. *)
Definition decision (p : BackpressureParams) (es : list Event) (out : list (Z * Transition))
    (now usage : Z) (queues_below_low : bool) : option Transition :=
  if last_pause out then
    if negb (last_rejected es) && bool_decide (usage <= low_bytes p) && queues_below_low &&
       bool_decide (Forall (fun t => t + min_pause p <= now) (rejections es ++ pauses out))
    then Some Resume else None
  else if last_rejected es || bool_decide (high_bytes p <= usage) then Some Pause else None.

(** Times never go back. *)
Definition monotonic (es : list Event) : Prop := StronglySorted Z.le (time <$> es).

Fixpoint alternates (next : Transition) (out : list Transition) : Prop :=
  match out with
  | [] => True
  | tr :: out => tr = next /\ alternates (match next with Pause => Resume | Resume => Pause end) out
  end.

(** [t] is the time of a rejection or of a pause. *)
Definition stamped (es : list Event) (out : list (Z * Transition)) (t : Z) : Prop :=
  t ∈ rejections es \/ t ∈ pauses out.

Record ctl_inv (p : BackpressureParams) (es : list Event) (c : WatermarkController)
    (out : list (Z * Transition)) : Prop := mk_ctl_inv {
  ci_params : params c = p;
  ci_rejected : rejected c = last_rejected es;
  ci_past : forall t, stamped es out t -> t ∈ time <$> es;
  ci_state : match state c with
             | Normal => last_pause out = false
             | Paused since => last_pause out = true /\ stamped es out since /\
                 forall t, stamped es out t -> t <= since
             end
}.

Create HintDb ctl.

Lemma run_snoc p es e : run p (es ++ [e]) = event (run p es) e.
Proof. unfold run. by rewrite foldl_app. Qed.

Lemma rejections_snoc es e :
  rejections (es ++ [e]) = rejections es ++ match e with Rejected t => [t] | _ => [] end.
Proof. unfold rejections. rewrite omap_app. by destruct e. Qed.

Lemma pauses_snoc out t tr :
  pauses (out ++ [(t, tr)]) = pauses out ++ match tr with Pause => [t] | Resume => [] end.
Proof. unfold pauses. rewrite omap_app. by destruct tr. Qed.

Lemma last_rejected_snoc es e :
  last_rejected (es ++ [e]) = match e with Rejected _ => true | _ => false end.
Proof. unfold last_rejected. by rewrite last_snoc. Qed.

Lemma last_pause_snoc out t tr :
  last_pause (out ++ [(t, tr)]) = match tr with Pause => true | Resume => false end.
Proof. unfold last_pause. rewrite last_snoc. by destruct tr. Qed.

#[export] Hint Rewrite rejections_snoc pauses_snoc last_rejected_snoc last_pause_snoc : ctl.

Lemma monotonic_snoc es e :
  monotonic (es ++ [e]) -> monotonic es /\ (forall t, t ∈ time <$> es -> t <= time e).
Proof.
  unfold monotonic. rewrite fmap_app. intros HS.
  apply StronglySorted_app in HS as (Hle & HS & _). split; [done|].
  intros t Ht. apply Hle; [done|by left].
Qed.

Lemma stamped_rejected es out t x :
  stamped (es ++ [Rejected t]) out x <-> stamped es out x \/ x = t.
Proof. unfold stamped. autorewrite with ctl. rewrite elem_of_app, list_elem_of_singleton. tauto. Qed.

Lemma stamped_tick es out t u q x : stamped (es ++ [Tick t u q]) out x <-> stamped es out x.
Proof. unfold stamped. autorewrite with ctl. by rewrite app_nil_r. Qed.

Lemma stamped_out es out t tr x :
  stamped es (out ++ [(t, tr)]) x <-> stamped es out x \/ (x = t /\ tr = Pause).
Proof.
  unfold stamped. autorewrite with ctl. rewrite elem_of_app.
  destruct tr; rewrite ?list_elem_of_singleton, ?elem_of_nil; intuition congruence.
Qed.

(** Waiting out the timer is waiting out every pause and rejection. *)
Lemma waited_iff es out since now m :
  0 <= m -> stamped es out since -> (forall t, stamped es out t -> t <= since) ->
  since <= now ->
  m <= duration_since now since <->
  Forall (fun t => t + m <= now) (rejections es ++ pauses out).
Proof.
  intros Hm Hin Hmax Hnow. unfold duration_since, sat_sub. rewrite Forall_forall.
  setoid_rewrite elem_of_app. split.
  - intros Hd t Ht. specialize (Hmax t Ht). lia.
  - intros HF. specialize (HF _ Hin). lia.
Qed.

Lemma tick_decides p es c out t u q :
  ctl_inv p es c out -> (forall x, x ∈ time <$> es -> x <= t) -> 0 <= min_pause p ->
  (tick t u q c).1 = decision p es out t u q.
Proof.
  intros [Hp Hr Hpast Hst] Hle Hm. unfold tick, decision. rewrite Hr, Hp.
  destruct (state c) as [|since].
  { rewrite Hst. by destruct (_ || _). }
  destruct Hst as (-> & Hin & Hmax). destruct (last_rejected es); cbn [negb andb]; [done|].
  rewrite (bool_decide_ext _ _ (waited_iff _ _ since t _ Hm Hin Hmax (Hle _ (Hpast _ Hin)))).
  by destruct (_ && _).
Qed.

Ltac ctl_split :=
  constructor; cbn [params rejected state]; autorewrite with ctl;
  repeat setoid_rewrite stamped_tick; repeat setoid_rewrite stamped_out;
  repeat setoid_rewrite stamped_rejected.

Lemma inv_tick p es c out t u q :
  ctl_inv p es c out -> (forall x, x ∈ time <$> es -> x <= t) ->
  ctl_inv p (es ++ [Tick t u q]) (event (c, out) (Tick t u q)).1
    (event (c, out) (Tick t u q)).2.
Proof.
  intros [Hp Hr Hpast Hst] Hle. cbn [event fst snd]. unfold tick.
  assert (Hpast' : forall x, stamped es out x -> x ∈ (time <$> es) ++ [t])
    by (intros x Hx; apply elem_of_app; auto).
  assert (Ht : t ∈ (time <$> es) ++ [t]) by (apply elem_of_app; right; by left).
  destruct (state c) as [|since] eqn:Hs.
  - destruct (rejected c) eqn:Hrj, (bool_decide (_ <= u)); cbn [orb fst snd]; ctl_split;
      rewrite ?fmap_app, ?Hs; naive_solver.
  - destruct (rejected c) eqn:Hrj; [|destruct (_ && _)]; cbn [fst snd]; ctl_split;
      rewrite ?fmap_app, ?Hs; repeat setoid_rewrite stamped_tick; naive_solver.
Qed.

Lemma inv_rejected p es c out t :
  ctl_inv p es c out -> (forall x, x ∈ time <$> es -> x <= t) ->
  ctl_inv p (es ++ [Rejected t]) (on_send_rejected t c) out.
Proof.
  intros [Hp Hr Hpast Hst] Hle. unfold on_send_rejected. ctl_split; auto.
  - intros x [Hx| ->]; rewrite fmap_app; apply elem_of_app; [auto|right; by left].
  - destruct (state c) as [|since]; [done|]. destruct Hst as (? & _ & _).
    setoid_rewrite stamped_rejected. split_and!; auto. intros x [Hx| ->]; [auto|lia].
Qed.

Lemma run_inv p es : monotonic es -> ctl_inv p es (run p es).1 (run p es).2.
Proof.
  induction es as [|e es IH] using rev_ind; intros Hm.
  { constructor; cbn; auto. intros t [H|H]; by apply elem_of_nil in H. }
  apply monotonic_snoc in Hm as [Hm Hle]. rewrite run_snoc.
  rewrite (surjective_pairing (run p es)).
  destruct e; [apply inv_rejected|apply inv_tick]; auto.
Qed.

Lemma alternates_snoc n out tr :
  alternates n (out ++ [tr]) <->
  alternates n out /\ tr = match last out with
                           | Some Pause => Resume | Some Resume => Pause | None => n end.
Proof.
  revert n. induction out as [|x out IH]; intros n; cbn [app alternates]; [by cbn; intuition|].
  rewrite IH. destruct out as [|y out]; [clear; destruct n, x; cbn; intuition congruence|].
  change (last (x :: y :: out)) with (last (y :: out)).
  destruct (last (y :: out)) eqn:Hl; [tauto|]. by apply last_None in Hl.
Qed.

Lemma last_fmap_snd (out : list (Z * Transition)) : last out.*2 = snd <$> last out.
Proof. by rewrite fmap_last. Qed.

Lemma run_paused p es : is_paused (run p es).1 = last_pause (run p es).2.
Proof.
  induction es as [|x es IH] using rev_ind; [done|]. rewrite run_snoc.
  destruct (run p es) as [c out]. destruct x as [t|t u q]; cbn [event fst snd] in *.
  - revert IH. unfold is_paused, on_send_rejected. by destruct (state c).
  - revert IH. unfold is_paused, tick. destruct (state c) eqn:Hs; repeat case_match;
      cbn [fst snd state]; rewrite ?last_pause_snoc; rewrite ?Hs; simplify_eq/=; auto; congruence.
Qed.

Lemma run_alternates p es : alternates Pause (run p es).2.*2.
Proof.
  induction es as [|e es IH] using rev_ind; [done|]. rewrite run_snoc.
  pose proof (run_paused p es) as Hst.
  destruct (run p es) as [c out]. destruct e as [t|t u q]; cbn [event fst snd] in *; [done|].
  destruct (tick t u q c).1 as [tr|] eqn:Htk; [|done].
  rewrite fmap_app. apply alternates_snoc. split; [done|]. rewrite last_fmap_snd.
  unfold last_pause in Hst. revert Htk Hst. unfold tick, is_paused.
  destruct (last out) as [[? []]|]; cbn;
    destruct (state c) as [|since]; repeat case_match; cbn; intros; simplify_eq/=; done.
Qed.

(** the controller's decisions are those of the history. On a clock that
    never goes back, every tick pauses exactly when the lanes run and a send was
    rejected since the last tick or usage is at the high mark, and resumes
    exactly when they are paused, usage is at the low mark, the queues have
    drained and [min_pause] has passed since the last pause and since every
    rejection. Pauses and resumes strictly alternate, starting with a pause. *)
Theorem controller_follows_history (p : BackpressureParams) (es : list Event)
    (t u : Z) (q : bool) :
  0 <= min_pause p -> monotonic (es ++ [Tick t u q]) ->
  (tick t u q (run p es).1).1 = decision p es (run p es).2 t u q /\
  is_paused (run p es).1 = last_pause (run p es).2 /\
  alternates Pause (run p (es ++ [Tick t u q])).2.*2.
Proof.
  intros Hm Hmono. apply monotonic_snoc in Hmono as [Hmono Hle].
  pose proof (run_inv p es Hmono) as Hinv. split_and!.
  - by apply tick_decides.
  - apply run_paused.
  - apply run_alternates.
Qed.

Definition demo_params : BackpressureParams := mkParams 100 50 10.
Definition demo_events : list Event :=
  [Tick 0 20 true; Tick 1 120 false; Rejected 4; Tick 5 40 true].

Lemma controller_follows_history_witness :
  (tick 14 40 true (run demo_params demo_events).1).1 = Some Resume /\
  (run demo_params demo_events).2 = [(1, Pause)].
Proof.
  destruct (controller_follows_history demo_params demo_events 14 40 true) as [-> _].
  - vm_compute. discriminate.
  - repeat constructor; vm_compute; discriminate.
  - by split; vm_compute.
Defined.

(** the budget reads what is in flight. When every span of bytes that
    leaves entered before, and the total never exceeds the counter's width, the
    counter is exactly entered minus left, and nothing saturates. *)
Theorem budget_exact (ops : list BudgetOp) :
  (forall k, 0 <= book (rev (take k ops)) <= U64_MAX) ->
  foldl budget_step budget_new ops = book (rev ops).
Proof.
  induction ops as [|o ops IH] using rev_ind; intros Hb; [done|].
  rewrite foldl_app, IH.
  - pose proof (Hb (length (ops ++ [o]))) as Hall. rewrite firstn_all in Hall.
    rewrite rev_app_distr in *. cbn [rev app foldl book foldr] in *.
    fold (book (rev ops)) in *. destruct o; cbn [budget_step]; unfold add, sub; unfold_int; lia.
  - intros k. destruct (decide (k <= length ops)%nat).
    + specialize (Hb k). by rewrite take_app_le in Hb.
    + specialize (Hb (length ops)). rewrite take_app_length in Hb. by rewrite take_ge by lia.
Qed.

Lemma budget_exact_witness :
  foldl budget_step budget_new [Add 7; Add 5; Sub 7] = 5.
Proof.
  rewrite (budget_exact [Add 7; Add 5; Sub 7]); [done|].
  intros [|[|[|[|k]]]]; vm_compute; split; discriminate.
Defined.
