(* ===== verification/Backoff.v ===== *)
(** * Retry delays and duration bounds

    [Backoff] of [spate-core/src/backoff.rs], the capped exponential sequence
    of retry delays with its xorshift jitter, and [DurationBounds] of
    [spate-core/src/config/duration.rs], the load-time check of a setting.
    Durations are nanoseconds, floats are binary64; [None] is a panic. *)

From Stdlib Require Import ZArith Lia SpecFloat.
From stdpp Require Import base list option relations.
From S2P Require Import Prelude Floats.

(** ** The schedule *)

Record Backoff := mkBackoff {
  start : Z;
  max : Z;
  multiplier : f64;
  jitter : f64;
  current : Z;
  rng : Z
}.

Definition splitmix64 (seed : Z) : Z :=
  let z := wrap_u64 (seed + 0x9E3779B97F4A7C15) in
  let z := wrap_u64 (Z.lxor z (Z.shiftr z 30) * 0xBF58476D1CE4E5B9) in
  let z := wrap_u64 (Z.lxor z (Z.shiftr z 27) * 0x94D049BB133111EB) in
  Z.lxor z (Z.shiftr z 31).

Definition rng_state (seed : Z) : Z :=
  let mixed := splitmix64 seed in
  if decide (mixed = 0) then 0x9E3779B97F4A7C15 else mixed.

Definition backoff_new (initial mx : Z) : Backoff :=
  let st := if decide (initial <= mx) then initial else mx in
  mkBackoff st mx (f64_of 2) (f64_of 0) st (rng_state 0).

Definition with_multiplier (m : f64) (b : Backoff) : Backoff :=
  mkBackoff (start b) (max b) m (jitter b) (current b) (rng b).

Definition with_jitter (fraction : f64) (b : Backoff) : Backoff :=
  mkBackoff (start b) (max b) (multiplier b) fraction (current b) (rng b).

Definition with_seed (seed : Z) (b : Backoff) : Backoff :=
  mkBackoff (start b) (max b) (multiplier b) (jitter b) (current b) (rng_state seed).

Definition xorshift (x : Z) : Z :=
  let x := Z.lxor x (wrap_u64 (Z.shiftl x 13)) in
  let x := Z.lxor x (Z.shiftr x 7) in
  Z.lxor x (wrap_u64 (Z.shiftl x 17)).

Definition next_rand (b : Backoff) : Z * Backoff :=
  let x := xorshift (rng b) in
  (x, mkBackoff (start b) (max b) (multiplier b) (jitter b) (current b) x).

Definition set_current (d : Z) (b : Backoff) : Backoff :=
  mkBackoff (start b) (max b) (multiplier b) (jitter b) d (rng b).

(** The step after [base], in seconds, clamped before it becomes a duration. *)
Definition grown (b : Backoff) : f64 :=
  if SFleb (f64_of 1) (multiplier b)
  then fmin (fmul (as_secs_f64 (current b)) (multiplier b)) (as_secs_f64 (max b))
  else as_secs_f64 (max b).

Definition bounded_jitter (b : Backoff) : f64 :=
  if is_finite (jitter b) then fclamp (jitter b) (f64_of 0) (f64_of 1) else f64_of 0.

Definition next_delay (b : Backoff) : option (Z * Backoff) :=
  let base := current b in
  let cap := max b in
  let b := set_current (Z.min (default cap (try_from_secs_f64 (grown b))) cap) b in
  if SFleb (bounded_jitter b) (f64_of 0) then Some (base, b)
  else
    let '(x, b) := next_rand b in
    let unit_ := fdiv (f64_of (Z.shiftr x 11)) (f64_of (Z.shiftl 1 53)) in
    let jittered :=
      fmul (as_secs_f64 base) (fsub (f64_of 1) (fmul (bounded_jitter b) unit_)) in
    let floor := Z.min base 1 in
    d ← clamp (default base (try_from_secs_f64 jittered)) floor base;
    Some (d, b).

Definition reset (b : Backoff) : Backoff := set_current (start b) b.

(** ** Bounds of a setting *)

Record DurationBounds := mkBounds {
  floor : Z;
  ceiling : option Z;
  or_zero_ : bool
}.

Definition at_least (fl : Z) : DurationBounds := mkBounds fl None false.

Definition at_most (ceil : Z) (b : DurationBounds) : option DurationBounds :=
  if decide (floor b <= ceil) then Some (mkBounds (floor b) (Some ceil) (or_zero_ b)) else None.

Definition or_zero (b : DurationBounds) : option DurationBounds :=
  if decide (floor b = 0) then None else Some (mkBounds (floor b) (ceiling b) true).

(** [true] is [Ok]. *)
Definition check_duration (value : Z) (b : DurationBounds) : bool :=
  if or_zero_ b && bool_decide (value = 0) then true
  else if bool_decide (value < floor b) ||
          match ceiling b with Some c => bool_decide (c < value) | None => false end
  then false else true.

(** ** Any use of a schedule *)

Inductive BackoffOp :=
| OpMultiplier (m : f64)
| OpJitter (fraction : f64)
| OpSeed (seed : Z)
| OpNext
| OpReset.

(** A call, with the delay it returns. *)
Definition backoff_step (o : BackoffOp) (b : Backoff) : option (list Z * Backoff) :=
  match o with
  | OpMultiplier m => Some ([], with_multiplier m b)
  | OpJitter f => Some ([], with_jitter f b)
  | OpSeed s => Some ([], with_seed s b)
  | OpNext => '(d, b) ← next_delay b; Some ([d], b)
  | OpReset => Some ([], reset b)
  end.

Fixpoint backoff_run (os : list BackoffOp) (b : Backoff) : option (list Z * Backoff) :=
  match os with
  | [] => Some ([], b)
  | o :: os =>
      '(ds, b) ← backoff_step o b;
      '(ds', b) ← backoff_run os b;
      Some (ds ++ ds', b)
  end.

Record backoff_ok (initial mx : Z) (b : Backoff) : Prop := mk_backoff_ok {
  bo_start : start b = Z.min initial mx;
  bo_max : max b = mx;
  bo_current : 0 <= current b <= mx;
  bo_rng : is_u64 (rng b) /\ rng b <> 0
}.

(** *** The generator never reaches its absorbing state *)
Lemma u64_bits x : is_u64 x -> (forall i, 0 <= i < 64 -> Z.testbit x i = false) -> x = 0.
Proof.
  unfold_int. intros Hx Hb. apply Z.bits_inj'. intros i Hi. rewrite Z.bits_0.
  destruct (decide (i < 64)); [apply Hb; lia|].
  rewrite <- (Z.mod_small x (2 ^ 64)) by lia. apply Z.mod_pow2_bits_high. lia.
Qed.

(** [x ^ (x << k)] of a non-zero [u64] is non-zero: its low bits are those of
    [x], and each higher bit repeats the one [k] places below. *)
Lemma shl_xor_nonzero x k :
  is_u64 x -> 0 < k -> Z.lxor x (wrap_u64 (Z.shiftl x k)) = 0 -> x = 0.
Proof.
  intros Hx Hk He. apply Z.lxor_eq in He. apply u64_bits; [done|].
  assert (Hall : forall n i, i < Z.of_nat n -> 0 <= i < 64 -> Z.testbit x i = false).
  2:{ intros i Hi. apply (Hall 64%nat); lia. }
  induction n as [|n IH]; intros i Hn Hi; [lia|].
  rewrite He. unfold wrap_u64. rewrite Z.mod_pow2_bits_low, Z.shiftl_spec by lia.
  destruct (decide (i < k)); [apply Z.testbit_neg_r; lia|apply IH; lia].
Qed.

Lemma shr_xor_nonzero x k : 0 <= x -> 0 < k -> Z.lxor x (Z.shiftr x k) = 0 -> x = 0.
Proof.
  intros Hx Hk He. apply Z.lxor_eq in He. rewrite Z.shiftr_div_pow2 in He by lia.
  destruct (decide (x = 0)) as [|Hne]; [done|].
  assert (1 < 2 ^ k) by (apply Z.pow_gt_1; lia).
  pose proof (Z.div_lt x (2 ^ k)). lia.
Qed.

Lemma u64_lt_pow x : is_u64 x <-> 0 <= x < 2 ^ 64.
Proof. unfold_int. lia. Qed.

Lemma lxor_u64 x y : is_u64 x -> is_u64 y -> is_u64 (Z.lxor x y).
Proof.
  rewrite !u64_lt_pow. intros Hx Hy.
  assert (Hnn : 0 <= Z.lxor x y) by (apply Z.lxor_nonneg; lia). split; [done|].
  destruct (decide (Z.lxor x y = 0)) as [->|Hne]; [lia|].
  apply Z.log2_lt_pow2; [lia|]. pose proof (Z.log2_lxor x y).
  assert (forall z, 0 <= z < 2 ^ 64 -> Z.log2 z < 64).
  { intros z Hz. destruct (decide (z = 0)) as [->|]; [done|]. apply Z.log2_lt_pow2; lia. }
  pose proof (H0 x Hx). pose proof (H0 y Hy). lia.
Qed.

Lemma shr_u64 x k : is_u64 x -> 0 <= k -> is_u64 (Z.shiftr x k).
Proof.
  unfold_int. intros Hx Hk. rewrite Z.shiftr_div_pow2 by lia.
  assert (0 < 2 ^ k) by (apply Z.pow_pos_nonneg; lia).
  pose proof (Z.div_le_upper_bound x (2 ^ k) x). split; [apply Z.div_pos; lia|nia].
Qed.

#[export] Hint Resolve lxor_u64 shr_u64 : spate.

Lemma xorshift_nonzero x : is_u64 x -> x <> 0 -> is_u64 (xorshift x) /\ xorshift x <> 0.
Proof.
  intros Hx Hne. unfold xorshift.
  set (y := Z.lxor x _). assert (Hy : is_u64 y) by (apply lxor_u64; auto with spate).
  assert (y <> 0) by (intros H0; apply Hne; apply (shl_xor_nonzero x 13); [done|lia|done]).
  set (z := Z.lxor y _). assert (Hz : is_u64 z) by (apply lxor_u64; [done|apply shr_u64; [done|lia]]).
  assert (z <> 0) by (intros H0; apply H; apply (shr_xor_nonzero y 7); [unfold_int; lia|lia|done]).
  split; [auto with spate|]. intros H1. apply H0. apply (shl_xor_nonzero z 17); [done|lia|done].
Qed.

Lemma rng_state_nonzero seed : is_u64 (rng_state seed) /\ rng_state seed <> 0.
Proof.
  unfold rng_state. destruct (decide _) as [He|Hne]; [vm_compute; intuition congruence|].
  split; [|done]. unfold splitmix64. apply lxor_u64; [auto with spate|].
  apply shr_u64; [auto with spate|lia].
Qed.

(** *** Every call keeps the schedule in range *)
Lemma next_delay_ok initial mx b :
  backoff_ok initial mx b ->
  exists d b', next_delay b = Some (d, b') /\ Z.min (current b) 1 <= d <= current b /\
    backoff_ok initial mx b'.
Proof.
  intros [Hs Hm Hc Hr]. unfold next_delay. set (b1 := set_current _ b).
  assert (Hcur : 0 <= current b1 <= mx).
  { subst b1. cbn [set_current current]. rewrite Hm.
    destruct (try_from_secs_f64 (grown b)) as [g|] eqn:Hg; cbn [default]; [|cbn; lia].
    apply try_from_nonneg in Hg as [? _]. cbn. lia. }
  assert (Hb1 : backoff_ok initial mx b1) by (by constructor).
  destruct (SFleb (bounded_jitter b1) (f64_of 0)).
  { exists (current b), b1. split_and!; [done|lia|lia|done]. }
  cbn [next_rand]. set (jittered := fmul _ _).
  destruct (clamp_spec (default (current b) (try_from_secs_f64 jittered))
              (Z.min (current b) 1) (current b)) as (d & -> & Hd); [lia|].
  cbn. eexists _, _. split_and!; [done|lia|lia|].
  constructor; cbn; [apply Hs|apply Hm|apply Hcur|]. destruct Hr. by apply xorshift_nonzero.
Qed.

Lemma backoff_step_ok initial mx o b :
  0 <= initial -> 0 <= mx -> backoff_ok initial mx b ->
  exists ds b', backoff_step o b = Some (ds, b') /\ Forall (fun d => 0 <= d <= mx) ds /\
    backoff_ok initial mx b'.
Proof.
  intros Hi Hmx Hb. pose proof Hb as [Hs Hm Hc Hr]. destruct o; cbn [backoff_step];
    try (eexists _, _; split_and!; [done|done|constructor; cbn; auto using rng_state_nonzero; lia]).
  destruct (next_delay_ok _ _ _ Hb) as (d & b' & -> & Hd & Hb'). cbn.
  eexists _, _. split_and!; [done| |done]. constructor; [lia|done].
Qed.

Lemma backoff_run_ok initial mx os b :
  0 <= initial -> 0 <= mx -> backoff_ok initial mx b ->
  exists ds b', backoff_run os b = Some (ds, b') /\ Forall (fun d => 0 <= d <= mx) ds /\
    backoff_ok initial mx b'.
Proof.
  intros Hi Hmx. revert b. induction os as [|o os IH]; intros b Hb; [by eexists _, _|].
  cbn [backoff_run].
  destruct (backoff_step_ok _ _ o b Hi Hmx Hb) as (ds & b1 & -> & Hds & Hb1). cbn.
  destruct (IH b1 Hb1) as (ds' & b2 & -> & Hds' & Hb2). cbn.
  eexists _, _. split_and!; [done|by apply Forall_app|done].
Qed.

Lemma backoff_new_ok initial mx :
  0 <= initial -> 0 <= mx -> backoff_ok initial mx (backoff_new initial mx).
Proof.
  intros. constructor; cbn; [|done| |apply rng_state_nonzero]; destruct (decide _); lia.
Qed.

(** retry delays stay in range, for any floats. Whatever multiplier,
    fraction and seed are set and wherever the schedule is reset, NaN and
    infinities included, no call panics, every delay is at most [max], the
    next delay is at most its step and zero only if the step is, a reset starts
    again from [min(initial, max)], and the jitter generator never reaches zero. *)
Theorem backoff_total_bounded (initial mx : Z) (os : list BackoffOp) :
  is_duration initial -> is_duration mx ->
  exists ds b, backoff_run os (backoff_new initial mx) = Some (ds, b) /\
    Forall (fun d => 0 <= d <= mx) ds /\ rng b <> 0 /\
    (exists d b', next_delay b = Some (d, b') /\ d <= current b /\ (d = 0 -> current b = 0)) /\
    (exists d b', next_delay (reset b) = Some (d, b') /\
       d <= Z.min initial mx /\ (d = 0 -> Z.min initial mx = 0)).
Proof.
  intros [Hi _] [Hm _].
  destruct (backoff_run_ok initial mx os _ Hi Hm (backoff_new_ok _ _ Hi Hm))
    as (ds & b & Hrun & Hds & Hb).
  destruct (next_delay_ok _ _ _ Hb) as (d & b' & Hn & Hd & _).
  destruct (backoff_step_ok _ _ OpReset b Hi Hm Hb) as (? & r & [= <- <-] & _ & Hr).
  destruct (next_delay_ok _ _ _ Hr) as (d2 & b2 & Hn2 & Hd2 & _).
  cbn [reset set_current current] in Hd2. rewrite (bo_start _ _ _ Hb) in Hd2.
  exists ds, b. split_and!; [done|done|apply Hb| |].
  - exists d, b'. split_and!; [done|lia|lia].
  - exists d2, b2. split_and!; [done|lia|lia].
Qed.

Definition demo_ops : list BackoffOp :=
  [OpNext; OpJitter S754_nan; OpNext; OpMultiplier (S754_infinity false); OpNext; OpNext].

Lemma backoff_total_bounded_witness :
  exists b, backoff_run demo_ops (backoff_new 200 1000) = Some ([200; 400; 800; 1000], b).
Proof.
  destruct (backoff_total_bounded 200 1000 demo_ops) as (ds & b & Hrun & _);
    [by vm_compute; split|by vm_compute; split|].
  exists b. rewrite Hrun. f_equal. f_equal.
  assert (Hv : fst <$> backoff_run demo_ops (backoff_new 200 1000) = Some [200; 400; 800; 1000])
    by (vm_compute; reflexivity).
  rewrite Hrun in Hv. by injection Hv.
Defined.

(** A setting is accepted exactly inside its bounds. Bounds built from a
    floor, an optional ceiling and the zero exception (where building them does
    not panic) accept a duration iff it lies between them, both ends included,
    or is the excepted zero. *)
Theorem check_duration_exact (fl : Z) (ceil : option Z) (zero : bool) (b : DurationBounds)
    (value : Z) :
  (b1 ← match ceil with Some c => at_most c (at_least fl) | None => Some (at_least fl) end;
   if zero then or_zero b1 else Some b1) = Some b ->
  check_duration value b = true <->
  (fl <= value /\ (forall c, ceil = Some c -> value <= c)) \/ (zero = true /\ value = 0).
Proof.
  intros Hb. assert (Heq : b = mkBounds fl ceil zero).
  { revert Hb. unfold at_most, or_zero, at_least.
    destruct ceil as [c|], zero; cbn; repeat (destruct (decide _); cbn); congruence. }
  subst b. unfold check_duration. cbn [or_zero_ floor ceiling]. clear Hb.
  destruct zero, (bool_decide_reflect (value = 0)); cbn [andb]; try by intuition.
  all: destruct (bool_decide_reflect (value < fl)); cbn [orb]; [intuition (lia || congruence)|].
  all: destruct ceil as [c|]; [destruct (bool_decide_reflect (c < value))|].
  all: split; intros Hx; try congruence; try (left; split; [lia|intros c' [= <-]; lia]).
  all: try (left; split; [lia|congruence]).
  all: destruct Hx as [[_ Hx]|[? ?]]; try congruence; pose proof (Hx c eq_refl); lia.
Qed.

Lemma check_duration_exact_witness :
  check_duration 0 (mkBounds 20 (Some 60) true) = true /\
  check_duration 5 (mkBounds 20 (Some 60) true) <> true.
Proof.
  split.
  - apply (check_duration_exact 20 (Some 60) true _ 0 eq_refl). by right.
  - intros H. apply (check_duration_exact 20 (Some 60) true _ 5 eq_refl) in H.
    destruct H as [[H _]|[_ H]]; discriminate || (by apply H).
Defined.
