(* ===== verification/Handoff.v ===== *)
(** * The chain's terminal stage and its queues

    [SinkHandoff] of [spate-core/src/ops/handoff.rs] over the bounded
    [ShardQueues] of [spate-core/src/sink/queue.rs]: route, encode, chunk, seal
    and hand off. The encoder, the frame codec and the router are the traits the
    stage is generic over; [EncoderLaws] is the contract of [RowEncoder]. The
    acknowledgment handles are those of [Ack], so cloning a record's handle into
    a shard and dropping an unsent set act on the shared store. Indexing past
    the shards is the panic [None]. The fields and logs marked as history are
    what the theorems speak of and no operation reads them. *)

From stdpp Require Import base list gmap strings relations.
From Stdlib Require Import ZArith Lia.
From S2P Require Import Prelude Ack EndCheck Floats Backpressure.

(** ** Data *)

Record SinkError := mkSinkError {
  se_class : ErrorClass;
  se_text : string
}.

Inductive ErrorPolicy := Skip | FailPolicy.

Inductive Flow := Continue | Blocked.

Record ChunkConfig := mkChunkConfig {
  target_bytes : Z;
  encode_policy : ErrorPolicy
}.

Section data.
Context {T : Type}.

(** A record: its payload, its acknowledgment handle with the batch the handle
  names, and its event time. *)
Record Rec := mkRec {
payload : T;
rec_ack : AckRef;
rec_batch : BatchId;
event_time_ms : Z
}.

(** [c_recs] and [c_raw] are history: the records in the frame, and the frame
  before any codec. *)
Record EncodedChunk := mkChunk {
frame : list Z;
raw_len : Z;
c_rows : Z;
c_acks : AckSet;
oldest_ingest : Z;
c_oldest_event_ms : Z;
c_recs : list Rec;
c_raw : list Z
}.
End data.
Arguments Rec : clear implicits.
Arguments EncodedChunk : clear implicits.

(** ** The shard queues *)

(** One bounded channel; [open_] until its receiver is closed. *)
Record Queue (T : Type) := mkQueue {
  items : list (EncodedChunk T);
  open_ : bool
}.
Arguments mkQueue {T}.
Arguments items {T}.
Arguments open_ {T}.

Record ShardQueues (T : Type) := mkQueues {
  senders : list (Queue T);
  capacity : Z
}.
Arguments mkQueues {T}.
Arguments senders {T}.
Arguments capacity {T}.

Definition shard_queues {T} (num_shards : nat) (cap : Z) : option (ShardQueues T) :=
  if bool_decide (0 < num_shards)%nat && bool_decide (0 < cap)
  then Some (mkQueues (replicate num_shards (mkQueue [] true)) cap) else None.

Definition num_shards {T} (q : ShardQueues T) : nat := length (senders q).

(** [inl] hands the chunk back. *)
Definition try_send {T} (shard : nat) (c : EncodedChunk T) (qs : ShardQueues T)
    : option (EncodedChunk T + ShardQueues T) :=
  q ← senders qs !! shard;
  Some (if open_ q && bool_decide (Z.of_nat (length (items q)) < capacity qs)
        then inr (mkQueues (<[shard := mkQueue (items q ++ [c]) true]> (senders qs)) (capacity qs))
        else inl c).

Definition all_below {T} (ratio : f64) (qs : ShardQueues T) : bool :=
  let threshold := as_usize (fmul (f64_of (capacity qs)) ratio) in
  forallb (fun q => bool_decide (Z.of_nat (length (items q)) <= threshold)) (senders qs).

(** ** The encoder, the codec and the router *)

(** An operation returns the encoder, the buffer, and its error if it failed. *)
Class RowEncoder (T E : Type) := {
  encode : E -> Rec T -> list Z -> E * list Z * option SinkError;
  buffered_bytes : E -> Z;
  finish_chunk : E -> list Z -> E * list Z * option SinkError
}.

(** The encoder's contract. [content e buf] are the rows the encoder holds or
    has written to the open chunk. [encode] appends one row, and where it fails
    it has at most written past the end of the buffer; a finished chunk's bytes
    carry every row of it; cutting off what a failed finish wrote restores the
    chunk. *)
Class EncoderLaws (T E : Type) `{RowEncoder T E} (dec : list Z -> list (Rec T)) := {
  content : E -> list Z -> list (Rec T);
  encode_ok : forall e r b e' b',
    encode e r b = (e', b', None) -> content e' b' = content e b ++ [r];
  encode_err : forall e r b e' b' x,
    encode e r b = (e', b', Some x) ->
    take (length b) b' = b /\ forall b0, content e' b0 = content e b0;
  finish_ok : forall e b e' b',
    finish_chunk e b = (e', b', None) ->
    dec b' = content e b /\ content e' b' = content e b /\ content e' [] = [];
  finish_err : forall e b e' b' x,
    finish_chunk e b = (e', b', Some x) -> content e' (take (length b) b') = content e b
}.

(** [encode_frame]. *)
Class FrameCodec (C : Type) := {
  encode_frame : C -> list Z -> C * (SinkError + list Z)
}.

(** ** The stage *)

Section stage.
Context {T E C : Type} `{RowEncoder T E} `{FrameCodec C}.
Variable route_record : Rec T -> nat -> nat.
Variable cfg : ChunkConfig.

(** [recs] is history: the records encoded into the open chunk. *)
Record ShardBuf := mkShard {
encoder : E;
buf : list Z;
rows : Z;
acks : AckSet;
last_batch : option BatchId;
first_ingest : option Z;
oldest_event_ms : Z;
finished_rows : option Z;
sb_parked : Z;
recs : list (Rec T)
}.

(** The stage with the queues, the budget and the handle store it shares.
  [sent] and [accepted] are history: the chunks that entered a queue, and the
  records the encoder took, each with its shard, in order. *)
Record SinkHandoff := mkHandoff {
shards : list ShardBuf;
parked : list (nat * EncodedChunk T);
codec : option C;
fatal : option SinkError;
queues : ShardQueues T;
budget : Z;
world : Acks;
sent : list (nat * EncodedChunk T);
accepted : list (nat * Rec T)
}.

Definition shard_new (e : E) : ShardBuf :=
mkShard e [] 0 AckSet_new None None I64_MAX None 0 [].

Definition handoff_new (e : E) (c : option C) (qs : ShardQueues T) (bud : Z) (w : Acks)
  : option SinkHandoff :=
if decide (0 < target_bytes cfg)
then Some (mkHandoff (replicate (num_shards qs) (shard_new e)) [] c None qs bud w [] [])
else None.

Definition set_shard (idx : nat) (s : ShardBuf) (h : SinkHandoff) : SinkHandoff :=
mkHandoff (<[idx := s]> (shards h)) (parked h) (codec h) (fatal h) (queues h) (budget h)
  (world h) (sent h) (accepted h).

(** [FatalSlot::get_or_insert_with]. *)
Definition latch_fatal (x : SinkError) (h : SinkHandoff) : SinkHandoff :=
mkHandoff (shards h) (parked h) (codec h)
  (match fatal h with Some y => Some y | None => Some x end) (queues h) (budget h) (world h)
  (sent h) (accepted h).

Definition set_codec (c : C) (h : SinkHandoff) : SinkHandoff :=
mkHandoff (shards h) (parked h) (Some c) (fatal h) (queues h) (budget h) (world h) (sent h)
  (accepted h).

Definition set_enc (e : E) (b : list Z) (s : ShardBuf) : ShardBuf :=
mkShard e b (rows s) (acks s) (last_batch s) (first_ingest s) (oldest_event_ms s)
  (finished_rows s) (sb_parked s) (recs s).

Definition set_finished (f : option Z) (s : ShardBuf) : ShardBuf :=
mkShard (encoder s) (buf s) (rows s) (acks s) (last_batch s) (first_ingest s)
  (oldest_event_ms s) f (sb_parked s) (recs s).

Definition set_parked (n : Z) (s : ShardBuf) : ShardBuf :=
mkShard (encoder s) (buf s) (rows s) (acks s) (last_batch s) (first_ingest s)
  (oldest_event_ms s) (finished_rows s) n (recs s).

(** The emptied shard after a seal. *)
Definition reset_shard (s : ShardBuf) : ShardBuf :=
mkShard (encoder s) [] 0 AckSet_new None None I64_MAX (finished_rows s) (sb_parked s) [].

(** The chunk a seal makes of the finished buffer. *)
Definition chunk_of (now : Z) (fr : list Z) (s : ShardBuf) : EncodedChunk T :=
mkChunk fr (Z.of_nat (length (buf s))) (rows s) (acks s) (default now (first_ingest s))
  (oldest_event_ms s) (recs s) (buf s).

(** Park or send the chunk just sealed from shard [idx], whose shard is [s]. *)
Definition hand_over (idx : nat) (c : EncodedChunk T) (s : ShardBuf) (h : SinkHandoff)
  : option SinkHandoff :=
let park := mkHandoff (<[idx := set_parked (wrap_u32 (sb_parked s + 1)) s]> (shards h))
              (parked h ++ [(idx, c)]) (codec h) (fatal h) (queues h) (budget h) (world h)
              (sent h) (accepted h) in
if decide (0 < sb_parked s) then Some park
else
  r ← try_send idx c (queues h);
  Some match r with
       | inl _ => park
       | inr qs => mkHandoff (<[idx := s]> (shards h)) (parked h) (codec h) (fatal h) qs
                     (budget h) (world h) (sent h ++ [(idx, c)]) (accepted h)
       end.

(** Seal the finished shard [s] with the frame [fr]. *)
Definition ship (now : Z) (idx : nat) (fr : list Z) (s : ShardBuf) (h : SinkHandoff)
  : option SinkHandoff :=
let c := chunk_of now fr s in
let h := mkHandoff (shards h) (parked h) (codec h) (fatal h) (queues h)
           (add (raw_len c) (budget h)) (world h) (sent h) (accepted h) in
hand_over idx c (reset_shard s) h.

Definition seal_and_send (now : Z) (idx : nat) (h : SinkHandoff) : option SinkHandoff :=
s ← shards h !! idx;
if decide (rows s = 0) then Some h
else
  let before := length (buf s) in
  let fin := if decide (finished_rows s = Some (rows s)) then (encoder s, buf s, None)
             else finish_chunk (encoder s) (buf s) in
  match fin with
  | (e, b, Some x) => Some (latch_fatal x (set_shard idx (set_enc e (take before b) s) h))
  | (e, b, None) =>
      let s := set_enc e b s in
      match codec h with
      | None => ship now idx b s h
      | Some c =>
          match encode_frame c b with
          | (c, inr coded) => ship now idx coded (set_finished None s) (set_codec c h)
          | (c, inl x) =>
              Some (latch_fatal x (set_shard idx (set_finished (Some (rows s)) s) (set_codec c h)))
          end
      end
  end.

Fixpoint drain_loop (fuel : nat) (h : SinkHandoff) : option (bool * SinkHandoff) :=
match fuel with
| O => Some (true, h)
| S fuel =>
    match parked h with
    | [] => Some (true, h)
    | (idx, c) :: rest =>
        r ← try_send idx c (queues h);
        match r with
        | inl _ => Some (false, h)
        | inr qs =>
            s ← shards h !! idx;
            drain_loop fuel
              (mkHandoff (<[idx := set_parked (wrap_u32 (sb_parked s - 1)) s]> (shards h)) rest
                 (codec h) (fatal h) qs (budget h) (world h) (sent h ++ [(idx, c)]) (accepted h))
        end
    end
end.

(** [drain_parked]: each round sends one parked chunk, so as many rounds as
  there are parked chunks are enough. *)
Definition drain_parked (h : SinkHandoff) : option (bool * SinkHandoff) :=
drain_loop (length (parked h)) h.

(** Dropping the record drops its handle. *)
Definition drop_record (r : Rec T) (h : SinkHandoff) : SinkHandoff :=
mkHandoff (shards h) (parked h) (codec h) (fatal h) (queues h) (budget h)
  (AckRef_drop (rec_ack r) (world h)) (sent h) (accepted h).

(** The encoded record joins its shard, with a clone of its handle where its
  batch is not the last one's. *)
Definition take_record (now : Z) (idx : nat) (r : Rec T) (s : ShardBuf) (h : SinkHandoff)
  : SinkHandoff :=
let fresh := bool_decide (last_batch s <> Some (rec_batch r)) in
let s := mkShard (encoder s) (buf s) (wrap_u32 (rows s + 1))
           (if fresh then AckSet_push (rec_ack r) (acks s) else acks s)
           (if fresh then Some (rec_batch r) else last_batch s)
           (match first_ingest s with Some t => Some t | None => Some now end)
           (Z.min (oldest_event_ms s) (event_time_ms r)) (finished_rows s) (sb_parked s)
           (recs s ++ [r]) in
mkHandoff (<[idx := s]> (shards h)) (parked h) (codec h) (fatal h) (queues h) (budget h)
  (if fresh then AckRef_clone (rec_ack r) (world h) else world h) (sent h)
  (accepted h ++ [(idx, r)]).

Definition push (now : Z) (r : Rec T) (h : SinkHandoff) : option (Flow * SinkHandoff) :=
match fatal h with
| Some _ => Some (Continue, drop_record r h)
| None =>
    let idx := route_record r (length (shards h)) in
    s ← shards h !! idx;
    let before := length (buf s) in
    match encode (encoder s) r (buf s) with
    | (e, b, None) =>
        let h := take_record now idx r (set_enc e b s) h in
        h ← (if decide (target_bytes cfg <= Z.of_nat (length b) + buffered_bytes e)
             then seal_and_send now idx h else Some h);
        Some (Continue, drop_record r h)
    | (e, b, Some x) =>
        let h := set_shard idx (set_enc e (take before b) s) h in
        Some (Continue, drop_record r
          match encode_policy cfg, se_class x with
          | Skip, ClassFatal => latch_fatal x h
          | Skip, _ => h
          | FailPolicy, _ => latch_fatal x h
          end)
    end
end.

Definition take_fatal (h : SinkHandoff) : option SinkError * SinkHandoff :=
(fatal h, mkHandoff (shards h) (parked h) (codec h) None (queues h) (budget h) (world h)
            (sent h) (accepted h)).

Definition relieve (h : SinkHandoff) : option (Flow * SinkHandoff) :=
if decide (parked h = []) then Some (Continue, h)
else
  '(cleared, h) ← drain_parked h;
  Some (if cleared : bool then Continue else Blocked, h).

Fixpoint seal_all (now : Z) (idxs : list nat) (h : SinkHandoff) : option SinkHandoff :=
match idxs with
| [] => Some h
| idx :: idxs => h ← seal_and_send now idx h; seal_all now idxs h
end.

Definition flush_terminal (now : Z) (h : SinkHandoff) : option (Flow * SinkHandoff) :=
h ← seal_all now (seq 0 (length (shards h))) h;
'(cleared, h) ← drain_parked h;
Some (if cleared : bool then Continue else Blocked, h).

(** [Drop]: the parked chunks leave the budget and drop, then the shards'
  open sets drop. *)
Definition handoff_drop (h : SinkHandoff) : Z * Acks :=
(foldl (fun b x => sub (raw_len x.2) b) (budget h) (parked h),
 AckSets_drop (acks <$> shards h) (AckSets_drop ((fun x => c_acks x.2) <$> parked h) (world h))).

(** ** The stage in use

    A pipeline thread pushes and relieves; the other threads' stages send to
    the same queues, and each shard's worker receives from and closes its own. Counts stay within their width: fewer than [2 ^ 32]
    rows are open in a shard and fewer than [2 ^ 32] chunks are parked. *)

Inductive HandoffOp :=
| HPush (now : Z) (r : Rec T)
| HRelieve
| HFlush (now : Z)
| HTakeFatal
| HOther (shard : nat) (c : EncodedChunk T)
| HReceive (shard : nat)
| HClose (shard : nat).

Definition set_queues (qs : ShardQueues T) (h : SinkHandoff) : SinkHandoff :=
  mkHandoff (shards h) (parked h) (codec h) (fatal h) qs (budget h) (world h) (sent h)
    (accepted h).

Definition room (h : SinkHandoff) : Prop :=
  Forall (fun s => rows s < U32_MAX) (shards h) /\
  Z.of_nat (length (parked h)) + Z.of_nat (length (shards h)) < U32_MAX.

Definition handoff_step (o : HandoffOp) (h : SinkHandoff) : option SinkHandoff :=
  match o with
  | HPush now r => snd <$> push now r h
  | HRelieve => snd <$> relieve h
  | HFlush now => snd <$> flush_terminal now h
  | HTakeFatal => Some (take_fatal h).2
  | HOther i c =>
      r ← try_send i c (queues h);
      Some match r with inl _ => h | inr qs => set_queues qs h end
  | HReceive i =>
      q ← senders (queues h) !! i;
      Some (set_queues (mkQueues (<[i := mkQueue (tail (items q)) (open_ q)]> (senders (queues h)))
                          (capacity (queues h))) h)
  | HClose i =>
      q ← senders (queues h) !! i;
      Some (set_queues (mkQueues (<[i := mkQueue (items q) false]> (senders (queues h)))
                          (capacity (queues h))) h)
  end.

(** What [l] holds for shard [i], in order. *)
Definition on_shard {A} (i : nat) (l : list (nat * A)) : list A :=
  omap (fun x => if decide (x.1 = i) then Some x.2 else None) l.

(** Every record has a handle of its batch in [acks], and every handle is a
    record's. *)
Definition covers (ak : AckSet) (rs : list (Rec T)) : Prop :=
  (forall r, r ∈ rs -> exists r', r' ∈ rs /\ rec_batch r' = rec_batch r /\ rec_ack r' ∈ ak) /\
  (forall a, a ∈ ak -> exists r, r ∈ rs /\ rec_ack r = a).

Definition oldest (rs : list (Rec T)) : Z := foldr Z.min I64_MAX (event_time_ms <$> rs).

Context {dec : list Z -> list (Rec T)} `{!EncoderLaws T E dec}.

(** A sealed chunk carries exactly its records, covers them with handles, and
    its frame is what the encoder wrote, through the codec if there is one. *)
Record chunk_ok (coded : bool) (c : EncodedChunk T) : Prop := mk_chunk_ok {
  ch_rows : c_rows c = Z.of_nat (length (c_recs c)) /\ c_recs c <> [];
  ch_bytes : dec (c_raw c) = c_recs c /\ raw_len c = Z.of_nat (length (c_raw c));
  ch_frame : if coded then exists k k', encode_frame k (c_raw c) = (k', inr (frame c))
             else frame c = c_raw c;
  ch_cover : covers (c_acks c) (c_recs c);
  ch_oldest : c_oldest_event_ms c = oldest (c_recs c)
}.

Record shard_ok (h : SinkHandoff) (i : nat) (s : ShardBuf) : Prop := mk_shard_ok {
  so_rows : rows s = Z.of_nat (length (recs s)) /\ rows s <= U32_MAX;
  so_content : content (encoder s) (buf s) = recs s;
  so_cover : covers (acks s) (recs s);
  so_last : last_batch s = rec_batch <$> last (recs s);
  so_oldest : oldest_event_ms s = oldest (recs s);
  so_finished : match finished_rows s with
                | None => True
                | Some k => is_Some (codec h) /\ 0 < k <= rows s /\
                    (k = rows s -> dec (buf s) = recs s /\ content (encoder s) [] = [])
                end;
  so_parked : sb_parked s = Z.of_nat (length (on_shard i (parked h)));
  so_order : on_shard i (accepted h) =
    concat (c_recs <$> on_shard i (sent h)) ++ concat (c_recs <$> on_shard i (parked h)) ++ recs s
}.

Record stage_ok (h : SinkHandoff) : Prop := mk_stage_ok {
  sk_len : length (shards h) = num_shards (queues h);
  sk_shards : forall i s, shards h !! i = Some s -> shard_ok h i s;
  sk_chunks : Forall (fun x => chunk_ok (bool_decide (is_Some (codec h))) x.2) (sent h ++ parked h);
  sk_parked : Forall (fun x => (x.1 < length (shards h))%nat) (parked h)
}.

Lemma on_shard_app {A} i (l1 l2 : list (nat * A)) :
  on_shard i (l1 ++ l2) = on_shard i l1 ++ on_shard i l2.
Proof. apply omap_app. Qed.

Lemma on_shard_own {A} i (x : A) : on_shard i [(i, x)] = [x].
Proof. unfold on_shard. cbn. by rewrite decide_True. Qed.

Lemma on_shard_other {A} i j (x : A) : i <> j -> on_shard i [(j, x)] = [].
Proof. intros Hne. unfold on_shard. cbn. by rewrite decide_False by congruence. Qed.

Lemma on_shard_length {A} i (l : list (nat * A)) : (length (on_shard i l) <= length l)%nat.
Proof. unfold on_shard. induction l as [|x l IH]; cbn; [lia|]. destruct (decide _); cbn; lia. Qed.

(** A shard's invariant reads only its own part of the logs. *)
Lemma shard_ok_frame h h' i s :
  shard_ok h i s -> (is_Some (codec h) -> is_Some (codec h')) ->
  on_shard i (parked h') = on_shard i (parked h) -> on_shard i (sent h') = on_shard i (sent h) ->
  on_shard i (accepted h') = on_shard i (accepted h) -> shard_ok h' i s.
Proof.
  intros [] Hc Hp Hs Ha. constructor; rewrite ?Hp, ?Hs, ?Ha; auto.
  destruct (finished_rows s); naive_solver.
Qed.

(** Updating one shard and its part of the logs. *)
Lemma stage_ok_update h h' idx s' :
  stage_ok h -> shards h' = <[idx := s']> (shards h) ->
  num_shards (queues h') = num_shards (queues h) -> (is_Some (codec h) <-> is_Some (codec h')) ->
  (forall i, i <> idx -> on_shard i (parked h') = on_shard i (parked h) /\
     on_shard i (sent h') = on_shard i (sent h) /\
     on_shard i (accepted h') = on_shard i (accepted h)) ->
  shard_ok h' idx s' ->
  Forall (fun x => chunk_ok (bool_decide (is_Some (codec h))) x.2) (sent h' ++ parked h') ->
  Forall (fun x => (x.1 < length (shards h))%nat) (parked h') ->
  stage_ok h'.
Proof.
  intros [Hl Hs _ _] Hsh Hq Hc Ho Hi Hch Hp. constructor.
  - by rewrite Hsh, length_insert, Hq.
  - intros i s. rewrite Hsh. intros Hlk.
    apply list_lookup_insert_Some in Hlk as [(-> & -> & _)|(Hne & Hlk)]; [done|].
    destruct (Ho i) as (H1 & H2 & H3); [done|]. eapply shard_ok_frame; eauto. by apply Hc.
  - by rewrite (bool_decide_ext _ _ (iff_sym Hc)).
  - by rewrite Hsh, length_insert.
Qed.

Lemma covers_nil : covers AckSet_new [].
Proof. split; intros x Hx; by apply elem_of_nil in Hx. Qed.

Lemma covers_same ak rs r :
  covers ak rs -> rec_batch <$> last rs = Some (rec_batch r) -> covers ak (rs ++ [r]).
Proof.
  intros [H1 H2] Hl. apply fmap_Some in Hl as (q & Hq & He).
  apply last_Some_elem_of in Hq as Hin. split.
  - intros x Hx. apply elem_of_app in Hx as [Hx|Hx].
    + destruct (H1 _ Hx) as (x' & Hx' & ? & ?). exists x'. rewrite elem_of_app. auto.
    + apply list_elem_of_singleton in Hx as ->. destruct (H1 _ Hin) as (x' & Hx' & Hb & ?).
      exists x'. rewrite elem_of_app. split_and!; auto. congruence.
  - intros a Ha. destruct (H2 _ Ha) as (x & Hx & ?). exists x. rewrite elem_of_app. auto.
Qed.

Lemma covers_fresh ak rs r : covers ak rs -> covers (AckSet_push (rec_ack r) ak) (rs ++ [r]).
Proof.
  intros [H1 H2]. unfold AckSet_push. split.
  - intros x Hx. apply elem_of_app in Hx as [Hx|Hx].
    + destruct (H1 _ Hx) as (x' & Hx' & ? & ?). exists x'. rewrite !elem_of_app. auto.
    + apply list_elem_of_singleton in Hx as ->. exists r. rewrite !elem_of_app, !list_elem_of_singleton.
      auto.
  - intros a Ha. apply elem_of_app in Ha as [Ha|Ha].
    + destruct (H2 _ Ha) as (x & Hx & ?). exists x. rewrite elem_of_app. auto.
    + apply list_elem_of_singleton in Ha as ->. exists r. rewrite elem_of_app, list_elem_of_singleton. auto.
Qed.

Lemma oldest_snoc rs r : oldest (rs ++ [r]) = Z.min (oldest rs) (event_time_ms r).
Proof.
  unfold oldest. rewrite fmap_app, foldr_app. cbn.
  induction (event_time_ms <$> rs) as [|t ts IH]; cbn; [lia|]. rewrite IH. lia.
Qed.

Lemma try_send_Some idx (c : EncodedChunk T) (qs : ShardQueues T) r :
  try_send idx c qs = Some r ->
  match r with inl c' => c' = c | inr qs' => num_shards qs' = num_shards qs end.
Proof.
  unfold try_send. destruct (senders qs !! idx) as [q|]; cbn; [|done].
  destruct (_ && _); intros [= <-]; [|done]. unfold num_shards. cbn. by rewrite length_insert.
Qed.

Lemma try_send_total idx (c : EncodedChunk T) (qs : ShardQueues T) : (idx < num_shards qs)%nat -> is_Some (try_send idx c qs).
Proof.
  intros Hlt. unfold try_send. apply lookup_lt_is_Some_2 in Hlt as [q Hq].
  unfold num_shards in *. rewrite Hq. by eexists.
Qed.

(** [h1] differs from [h] in the codec's state, the latch, the budget or the
    handle store only. *)
Record same_logs (h h1 : SinkHandoff) : Prop := mk_same_logs {
  sl_shards : shards h1 = shards h;
  sl_parked : parked h1 = parked h;
  sl_sent : sent h1 = sent h;
  sl_accepted : accepted h1 = accepted h;
  sl_queues : queues h1 = queues h;
  sl_codec : is_Some (codec h) <-> is_Some (codec h1)
}.

(** [s] is [s0] after its chunk was sealed. *)
Record emptied (s0 s : ShardBuf) : Prop := mk_emptied {
  em_parked : sb_parked s = sb_parked s0;
  em_recs : recs s = [] /\ rows s = 0 /\ acks s = [] /\ last_batch s = None;
  em_oldest : oldest_event_ms s = I64_MAX;
  em_finished : finished_rows s = None;
  em_content : content (encoder s) (buf s) = []
}.

Lemma stage_ok_logs h h1 : stage_ok h -> same_logs h h1 -> stage_ok h1.
Proof.
  intros [Hl Hs Hc Hp] [E1 E2 E3 E4 E5 E6].
  constructor; rewrite ?E1, ?E2, ?E3, ?E5; auto.
  - intros i s Hi. eapply shard_ok_frame; [by apply Hs|by apply E6|by rewrite E2|by rewrite E3|by rewrite E4].
  - by rewrite (bool_decide_ext _ _ (iff_sym E6)).
Qed.

Lemma emptied_ok h h' idx s0 s n :
  shard_ok h idx s0 -> emptied s0 s -> sb_parked (set_parked n s) = Z.of_nat (length (on_shard idx (parked h'))) ->
  on_shard idx (accepted h') =
    concat (c_recs <$> on_shard idx (sent h')) ++ concat (c_recs <$> on_shard idx (parked h')) ->
  shard_ok h' idx (set_parked n s).
Proof.
  intros [] [? (E1 & E2 & E3 & E4) E5 E6 E7] Hp Ho.
  constructor; cbn; rewrite ?E1, ?E2, ?E3, ?E4, ?E5, ?E6, ?app_nil_r; auto.
  - split; [done|unfold_int; lia].
  - apply covers_nil.
Qed.

(** Parking or sending the chunk [c] sealed from the shard [s0]. *)
Lemma hand_over_ok h h1 idx s0 s c :
  stage_ok h -> shards h !! idx = Some s0 -> same_logs h h1 -> emptied s0 s ->
  Z.of_nat (length (parked h)) < U32_MAX ->
  chunk_ok (bool_decide (is_Some (codec h))) c -> c_recs c = recs s0 ->
  exists h', hand_over idx c s h1 = Some h' /\ stage_ok h' /\
    (length (parked h') <= S (length (parked h)))%nat /\ length (shards h') = length (shards h).
Proof.
  intros Hok Hs0 Hsl Hem Hlen Hc Hrec. pose proof (sk_shards _ Hok _ _ Hs0) as Hsok.
  pose proof Hsl as [E1 E2 E3 E4 E5 E6].
  pose proof (lookup_lt_Some _ _ _ Hs0) as Hlt. pose proof (sk_chunks _ Hok) as Hch.
  apply Forall_app in Hch as [Hchs Hchp].
  assert (Hpark : stage_ok (mkHandoff (<[idx := set_parked (wrap_u32 (sb_parked s + 1)) s]> (shards h1))
      (parked h1 ++ [(idx, c)]) (codec h1) (fatal h1) (queues h1) (budget h1) (world h1) (sent h1)
      (accepted h1))).
  { eapply (stage_ok_update h); cbn [shards parked codec queues sent accepted]; [done|by rewrite E1|by rewrite E5|done| | | |].
    - intros i Hne. rewrite E2, E3, E4, on_shard_app, on_shard_other, app_nil_r by done. auto.
    - apply (emptied_ok h _ idx s0 s); auto;
        cbn [parked sent accepted sb_parked set_parked]; rewrite E2, on_shard_app, on_shard_own.
      + rewrite length_app, (em_parked _ _ Hem), (so_parked _ _ _ Hsok).
        pose proof (on_shard_length idx (parked h)). rewrite wrap_u32_small by (unfold_int; lia). cbn. lia.
      + rewrite E3, E4, (so_order _ _ _ Hsok), fmap_app, concat_app. cbn.
        by rewrite Hrec, app_nil_r, app_assoc.
    - rewrite E2, E3, app_assoc. apply Forall_app. split; [by apply Forall_app|]. by constructor.
    - rewrite E2. apply Forall_app. split; [apply Hok|]. by constructor. }
  unfold hand_over. destruct (decide (0 < sb_parked s)) as [Hpos|Hz].
  { eexists. split_and!; [done|done|cbn; rewrite E2, length_app; cbn; lia|cbn; by rewrite length_insert, E1]. }
  destruct (try_send_total idx c (queues h1)) as [r Hr].
  { rewrite E5, <- (sk_len _ Hok). done. }
  rewrite Hr. cbn. pose proof (try_send_Some _ _ _ _ Hr) as Hts. destruct r as [c'|qs].
  { eexists. split_and!; [done|done|cbn; rewrite E2, length_app; cbn; lia|cbn; by rewrite length_insert, E1]. }
  eexists. split; [done|]. split; [|cbn; rewrite E2, length_insert, E1; split; [lia|done]].
  assert (Hnone : on_shard idx (parked h) = []).
  { apply length_zero_iff_nil. pose proof (so_parked _ _ _ Hsok). pose proof (em_parked _ _ Hem). lia. }
  replace s with (set_parked (sb_parked s) s) at 1 by (by destruct s).
  eapply (stage_ok_update h); cbn [shards parked codec queues sent accepted]; [done|by rewrite E1|congruence|done| | | |].
  - intros i Hne. rewrite E2, E3, E4, on_shard_app, on_shard_other, app_nil_r by done. auto.
  - apply (emptied_ok h _ idx s0 s); auto;
        cbn [parked sent accepted sb_parked set_parked]; rewrite E2, Hnone.
    + rewrite (em_parked _ _ Hem), (so_parked _ _ _ Hsok), Hnone. done.
    + rewrite E3, E4, on_shard_app, on_shard_own, (so_order _ _ _ Hsok), Hnone, fmap_app, concat_app.
      cbn. by rewrite Hrec, !app_nil_r.
  - rewrite E2, E3, <- app_assoc. apply Forall_app. split; [done|]. apply Forall_app. split; [by constructor|done].
  - rewrite E2. apply Hok.
Qed.

(** What the finish of a seal returns: on success the buffer carries the
    shard's rows and the encoder is empty; on failure nothing changed. *)
Lemma finish_spec h idx s e b x :
  shard_ok h idx s ->
  (if decide (finished_rows s = Some (rows s)) then (encoder s, buf s, None)
   else finish_chunk (encoder s) (buf s)) = (e, b, x) ->
  match x with
  | None => dec b = recs s /\ content e b = recs s /\ content e [] = []
  | Some _ => content e (take (length (buf s)) b) = recs s /\ finished_rows s <> Some (rows s)
  end.
Proof.
  intros Hs. destruct (decide _) as [Hf|Hf].
  - intros [= <- <- <-]. pose proof (so_finished _ _ _ Hs) as Hfin. rewrite Hf in Hfin.
    destruct Hfin as (_ & _ & Hd). destruct (Hd eq_refl). split_and!; auto. apply Hs.
  - intros Hr. rewrite <- (so_content _ _ _ Hs). destruct x as [x|].
    + apply finish_err in Hr. auto.
    + apply finish_ok in Hr. auto.
Qed.

Lemma set_enc_ok h h' idx s e b :
  shard_ok h idx s -> (is_Some (codec h) -> is_Some (codec h')) -> parked h' = parked h ->
  sent h' = sent h -> accepted h' = accepted h -> content e b = recs s ->
  finished_rows s <> Some (rows s) -> shard_ok h' idx (set_enc e b s).
Proof.
  intros Hs Hc Hp Hse Ha Hct Hf.
  eapply (shard_ok_frame h) in Hs; [|done|by rewrite Hp|by rewrite Hse|by rewrite Ha].
  destruct Hs as [? ? ? ? ? Hfin ? ?]. constructor; cbn; auto.
  destruct (finished_rows s) as [k|]; [|done]. destruct Hfin as (? & ? & _).
  split_and!; auto; try lia. intros ->. congruence.
Qed.

Lemma ship_ok now h h1 idx s0 s fr :
  stage_ok h -> shards h !! idx = Some s0 -> same_logs h h1 -> rows s0 <> 0 ->
  Z.of_nat (length (parked h)) < U32_MAX ->
  (exists e b f, s = set_finished f (set_enc e b s0) /\ f = None /\ dec b = recs s0 /\
     content e [] = []) ->
  (if bool_decide (is_Some (codec h))
   then exists k k', encode_frame k (buf s) = (k', inr fr) else fr = buf s) ->
  exists h', ship now idx fr s h1 = Some h' /\ stage_ok h' /\
    (length (parked h') <= S (length (parked h)))%nat /\ length (shards h') = length (shards h).
Proof.
  intros Hok Hs0 Hsl Hr Hlen (e & b & f & -> & -> & Hd & He) Hfr.
  pose proof (sk_shards _ Hok _ _ Hs0) as Hsok. destruct Hsok as [[Hrows Hmax] Hct Hcov Hlast Hold Hfin Hpk Hord].
  apply (hand_over_ok h _ idx s0); auto.
  - destruct Hsl. by constructor.
  - by constructor.
  - constructor; cbn in *; auto. split; [done|]. intros Hnil. rewrite Hnil in Hrows. done.
Qed.

Lemma seal_ok now h idx :
  stage_ok h -> (idx < length (shards h))%nat -> Z.of_nat (length (parked h)) < U32_MAX ->
  exists h', seal_and_send now idx h = Some h' /\ stage_ok h' /\
    (length (parked h') <= S (length (parked h)))%nat /\ length (shards h') = length (shards h).
Proof.
  intros Hok Hlt Hlen. apply lookup_lt_is_Some_2 in Hlt as [s Hs].
  pose proof (sk_shards _ Hok _ _ Hs) as Hsok. unfold seal_and_send. rewrite Hs. cbn [mbind option_bind].
  destruct (decide (rows s = 0)) as [|Hr]; [eexists; split_and!; [done|done|lia|done]|].
  destruct (if decide (finished_rows s = Some (rows s)) then _ else _) as [[e b] x] eqn:Hf.
  pose proof (finish_spec _ _ _ _ _ _ Hsok Hf) as Hspec. destruct x as [x|].
  { destruct Hspec as [Hct Hne]. eexists.
    split_and!; [done| |cbn; lia|cbn; by rewrite length_insert].
    eapply (stage_ok_update h); cbn; [done|done|done|done|done| |apply Hok|apply Hok].
    by eapply (set_enc_ok h). }
  destruct Hspec as (Hd & Hct & He0). destruct (codec h) as [k|] eqn:Hk.
  2:{ apply (ship_ok now h h idx s); auto.
      - by constructor.
      - exists e, b, None. split_and!; auto. unfold set_finished, set_enc. cbn.
        pose proof (so_finished _ _ _ Hsok) as Hfin. rewrite Hk in Hfin.
        destruct (finished_rows s) as [n|]; [|done]. by destruct Hfin as [[? ?] _].
      - rewrite Hk. done. }
  destruct (encode_frame k b) as [k' [x|coded]] eqn:Hcod.
  - eexists. split_and!; [done| |cbn; lia|cbn; by rewrite length_insert].
    eapply (stage_ok_update h); cbn; [done|done|done|by rewrite Hk|done| |apply Hok|apply Hok].
    destruct Hsok as [[Hrows Hmax] ? ? ? ? ? ? ?]. constructor; cbn; auto.
    split_and!; [by eexists|lia|lia|auto].
  - apply (ship_ok now h _ idx s); auto.
    + constructor; cbn; auto. rewrite Hk. split; by eexists.
    + exists e, b, None. auto.
    + rewrite Hk, bool_decide_true by by eexists. cbn. eauto.
Qed.

Lemma drain_loop_ok fuel : forall h,
  stage_ok h -> Z.of_nat (length (parked h)) <= U32_MAX ->
  exists ok h', drain_loop fuel h = Some (ok, h') /\ stage_ok h' /\
    (length (parked h') <= length (parked h))%nat /\ length (shards h') = length (shards h) /\
    ((length (parked h) <= fuel)%nat -> (ok = true <-> parked h' = [])).
Proof.
  induction fuel as [|fuel IH]; intros h Hok Hlen; cbn [drain_loop].
  { eexists _, _. split_and!; [done|done|lia|done|]. intros Hz. split; [|done].
    intros _. apply length_zero_iff_nil. lia. }
  destruct (parked h) as [|[idx c] rest] eqn:Hp.
  { eexists _, _. split_and!; [done|done|rewrite Hp; cbn; lia|done|by rewrite Hp]. }
  pose proof (sk_parked _ Hok) as Hpk. rewrite Hp in Hpk. apply Forall_cons in Hpk as [Hlt Hpk].
  cbn in Hlt. destruct (try_send_total idx c (queues h)) as [r Hr].
  { by rewrite <- (sk_len _ Hok). }
  rewrite Hr. pose proof (try_send_Some _ _ _ _ Hr) as Hts. cbn [mbind option_bind].
  destruct r as [c'|qs].
  { eexists _, _. split_and!; [done|done|rewrite Hp; done|done|]. rewrite Hp. done. }
  apply lookup_lt_is_Some_2 in Hlt as [s Hs]. rewrite Hs. cbn [mbind option_bind].
  pose proof (sk_shards _ Hok _ _ Hs) as [Hrows Hct Hcov Hlast Hold Hfin Hpark Hord].
  rewrite Hp, (on_shard_app idx [(idx, c)] rest : on_shard idx ((idx, c) :: rest) = _), on_shard_own in Hpark, Hord.
  pose proof (on_shard_length idx rest) as Hol. cbn in Hlen, Hpark.
  set (h1 := mkHandoff _ _ _ _ _ _ _ _ _).
  assert (Hok1 : stage_ok h1).
  { eapply (stage_ok_update h); cbn [h1 shards parked codec queues sent accepted]; [done|done|done|done| | | |].
    - intros i Hne. rewrite Hp. split_and!; [|by rewrite on_shard_app, on_shard_other, app_nil_r|done].
      change ((idx, c) :: rest) with ([(idx, c)] ++ rest). by rewrite on_shard_app, on_shard_other.
    - subst h1. constructor; cbn [rows recs encoder buf acks last_batch oldest_event_ms finished_rows set_parked
        sb_parked parked sent accepted]; auto.
      + rewrite Hpark, wrap_u32_small by (unfold_int; lia). lia.
      + rewrite on_shard_app, on_shard_own, Hord, !fmap_app, !concat_app. cbn.
        by rewrite app_nil_r, <- !app_assoc.
    - pose proof (sk_chunks _ Hok) as Hch. rewrite Hp in Hch.
      change ((idx, c) :: rest) with ([(idx, c)] ++ rest) in Hch. by rewrite app_assoc in Hch.
    - done. }
  destruct (IH h1 Hok1) as (ok & h' & -> & Hok' & Hl' & Hs' & Hfull); [cbn; lia|].
  eexists _, _. split_and!; [done|done|cbn in *; lia|rewrite Hs'; cbn; by rewrite length_insert|].
  intros Hf. apply Hfull. cbn in *. lia.
Qed.

Lemma drop_record_ok r h : stage_ok h -> stage_ok (drop_record r h).
Proof. intros Hok. by apply (stage_ok_logs h). Qed.

Lemma latch_ok x h : stage_ok h -> stage_ok (latch_fatal x h).
Proof. intros Hok. by apply (stage_ok_logs h). Qed.

Lemma encode_err_ok h idx s r e b x :
  stage_ok h -> shards h !! idx = Some s -> encode (encoder s) r (buf s) = (e, b, Some x) ->
  stage_ok (set_shard idx (set_enc e (take (length (buf s)) b) s) h).
Proof.
  intros Hok Hs He. apply encode_err in He as [-> Hc].
  pose proof (sk_shards _ Hok _ _ Hs) as [? Hct ? ? ? Hfin ? ?].
  eapply (stage_ok_update h); cbn; [done|done|done|done|done| |apply Hok|apply Hok].
  constructor; cbn; auto; [by rewrite Hc|]. destruct (finished_rows s); [|done].
  by rewrite Hc.
Qed.

Lemma take_record_ok now h idx s r e b :
  stage_ok h -> shards h !! idx = Some s -> rows s < U32_MAX ->
  encode (encoder s) r (buf s) = (e, b, None) ->
  stage_ok (take_record now idx r (set_enc e b s) h).
Proof.
  intros Hok Hs Hmax He. apply encode_ok in He.
  pose proof (sk_shards _ Hok _ _ Hs) as [[Hr _] Hct Hcov Hl Hold Hfin Hp Ho].
  eapply (stage_ok_update h); cbn [take_record shards parked codec queues sent accepted];
    [done|done|done|done| | |apply Hok|apply Hok].
  { intros i Hne. rewrite on_shard_app, on_shard_other, app_nil_r by done. auto. }
  constructor; cbn [rows recs encoder buf acks last_batch oldest_event_ms finished_rows sb_parked
    parked sent accepted set_enc].
  - rewrite length_app, wrap_u32_small by (unfold_int; lia). cbn. lia.
  - by rewrite He, Hct.
  - destruct (decide (last_batch s = Some (rec_batch r))) as [Hb|Hb].
    + rewrite bool_decide_false by tauto. apply covers_same; [done|]. by rewrite <- Hl.
    + rewrite bool_decide_true by done. by apply covers_fresh.
  - rewrite last_snoc. destruct (decide (last_batch s = Some (rec_batch r))) as [Hb|Hb].
    + by rewrite bool_decide_false by tauto.
    + by rewrite bool_decide_true by done.
  - by rewrite oldest_snoc, Hold.
  - destruct (finished_rows s) as [k|]; [|done]. destruct Hfin as (Hc & Hk & _).
    rewrite wrap_u32_small by (unfold_int; lia). split_and!; [done|lia|lia|]. intros ->. lia.
  - done.
  - cbn [accepted take_record]. rewrite on_shard_app, on_shard_own, Ho. by rewrite <- !app_assoc.
Qed.

Lemma push_ok now r h :
  stage_ok h -> room h -> (route_record r (length (shards h)) < length (shards h))%nat ->
  exists f h', push now r h = Some (f, h') /\ f = Continue /\ stage_ok h' /\
    length (shards h') = length (shards h).
Proof.
  intros Hok [Hrm Hlen] Hlt. unfold push. destruct (fatal h).
  { eexists _, _. split_and!; [done|done|by apply drop_record_ok|done]. }
  apply lookup_lt_is_Some_2 in Hlt as [s Hs]. rewrite Hs. cbn [mbind option_bind].
  pose proof (proj1 (Forall_lookup _ _) Hrm _ _ Hs) as Hmax. cbn in Hmax.
  destruct (encode (encoder s) r (buf s)) as [[e b] [x|]] eqn:He.
  { eexists _, _. split_and!; [done|done|apply drop_record_ok|].
    2:{ by destruct (encode_policy cfg), (se_class x); cbn; rewrite length_insert. }
    pose proof (encode_err_ok _ _ _ _ _ _ _ Hok Hs He) as Hok1.
    destruct (encode_policy cfg), (se_class x); auto using latch_ok. }
  pose proof (take_record_ok now _ _ _ _ _ _ Hok Hs Hmax He) as Hok1.
  set (h1 := take_record _ _ _ _ _) in *.
  destruct (decide _).
  - destruct (seal_ok now h1 (route_record r (length (shards h)))) as (h2 & -> & Hok2 & _ & Hl2); auto.
    + cbn. rewrite length_insert. by eapply lookup_lt_Some.
    + cbn. lia.
    + eexists _, _. split_and!; [done|done|by apply drop_record_ok|].
      cbn in Hl2 |- *. by rewrite Hl2, length_insert.
  - eexists _, _. split_and!; [done|done|by apply drop_record_ok|]. cbn. by rewrite length_insert.
Qed.

Lemma seal_all_ok now idxs : forall h,
  stage_ok h -> Forall (fun i => (i < length (shards h))%nat) idxs ->
  Z.of_nat (length (parked h)) + Z.of_nat (length idxs) <= U32_MAX ->
  exists h', seal_all now idxs h = Some h' /\ stage_ok h' /\
    (length (parked h') <= length (parked h) + length idxs)%nat /\ length (shards h') = length (shards h).
Proof.
  induction idxs as [|i idxs IH]; intros h Hok HF Hlen; cbn [seal_all length].
  { eexists. split_and!; [done|done|lia|done]. }
  apply Forall_cons in HF as [Hi HF]. cbn [length] in Hlen.
  destruct (seal_ok now h i Hok Hi) as (h1 & -> & Hok1 & Hp1 & Hs1); [lia|].
  cbn [mbind option_bind]. destruct (IH h1 Hok1) as (h2 & -> & Hok2 & Hp2 & Hs2); [by rewrite Hs1|lia|].
  eexists. split_and!; [done|done|lia|congruence].
Qed.

Lemma drain_parked_ok h :
  stage_ok h -> Z.of_nat (length (parked h)) <= U32_MAX ->
  exists ok h', drain_parked h = Some (ok, h') /\ stage_ok h' /\ length (shards h') = length (shards h) /\
    (ok = true <-> parked h' = []).
Proof.
  intros Hok Hlen. unfold drain_parked.
  destruct (drain_loop_ok (length (parked h)) h Hok Hlen) as (ok & h' & -> & Hok' & _ & Hl & Hf).
  eexists _, _. split_and!; [done|done|done|by apply Hf].
Qed.

Lemma relieve_ok h :
  stage_ok h -> room h ->
  exists f h', relieve h = Some (f, h') /\ stage_ok h' /\ length (shards h') = length (shards h) /\
    (f = Continue <-> parked h' = []).
Proof.
  intros Hok [_ Hlen]. unfold relieve. destruct (decide _) as [He|He].
  { eexists _, _. split_and!; [done|done|done|done]. }
  destruct (drain_parked_ok h Hok) as (ok & h' & -> & Hok' & Hl & Hf); [lia|].
  cbn. eexists _, _. split; [done|]. split; [done|]. split; [done|]. rewrite <- Hf. by destruct ok.
Qed.

Lemma flush_ok now h :
  stage_ok h -> room h ->
  exists f h', flush_terminal now h = Some (f, h') /\ stage_ok h' /\ length (shards h') = length (shards h) /\
    (f = Continue <-> parked h' = []).
Proof.
  intros Hok [_ Hlen]. unfold flush_terminal.
  destruct (seal_all_ok now (seq 0 (length (shards h))) h Hok) as (h1 & -> & Hok1 & Hp1 & Hl1).
  { apply Forall_forall. intros i Hi%elem_of_seq. lia. }
  { rewrite length_seq. lia. }
  rewrite length_seq in Hp1.
  destruct (drain_parked_ok h1 Hok1) as (ok & h' & Hd & Hok' & Hl & Hf); [lia|].
  cbn. rewrite Hd. cbn. eexists _, _. split; [done|]. split; [done|]. split; [congruence|]. rewrite <- Hf. by destruct ok.
Qed.

(** ** Runs *)

(** A router stays within the shards, as [RecordRouter] documents. *)
Definition routes_in_range : Prop := forall r n, (0 < n)%nat -> (route_record r n < n)%nat.

Definition stage_step (h h' : SinkHandoff) : Prop :=
  room h /\ exists o, handoff_step o h = Some h'.

Lemma set_queues_ok qs h :
  stage_ok h -> num_shards qs = num_shards (queues h) -> stage_ok (set_queues qs h).
Proof.
  intros [Hl Hs Hc Hp] Hq. constructor; cbn; auto; [congruence|].
  intros i s Hi. by apply (shard_ok_frame h); auto.
Qed.

Lemma handoff_step_ok o h h' :
  routes_in_range -> stage_ok h -> room h -> handoff_step o h = Some h' ->
  stage_ok h' /\ length (shards h') = length (shards h).
Proof.
  intros Hr Hok Hroom. destruct o as [now r| |now| |i c|i|i]; cbn [handoff_step].
  - destruct (decide (length (shards h) = 0%nat)) as [Hz|Hz].
    + unfold push. destruct (fatal h); [intros [= <-]; by split; [apply drop_record_ok|]|].
      apply length_zero_iff_nil in Hz. by rewrite Hz, lookup_nil.
    + destruct (push_ok now r h Hok Hroom) as (f & h1 & -> & _ & ?); [apply Hr; lia|]. by intros [= <-].
  - destruct (relieve_ok h Hok Hroom) as (f & h1 & -> & ? & ? & _). by intros [= <-].
  - destruct (flush_ok now h Hok Hroom) as (f & h1 & -> & ? & ? & _). by intros [= <-].
  - intros [= <-]. by split; [apply (stage_ok_logs h)|].
  - destruct (try_send i c (queues h)) as [[c'|qs]|] eqn:Hts; cbn; intros [= <-]; [done|].
    apply try_send_Some in Hts. by split; [apply set_queues_ok|].
  - destruct (senders _ !! i); cbn; intros [= <-]. split; [apply set_queues_ok; [done|]|done].
    unfold num_shards. cbn. by rewrite length_insert.
  - destruct (senders _ !! i); cbn; intros [= <-]. split; [apply set_queues_ok; [done|]|done].
    unfold num_shards. cbn. by rewrite length_insert.
Qed.

Lemma handoff_new_ok e c qs bud w h :
  content e [] = [] -> handoff_new e c qs bud w = Some h ->
  stage_ok h /\ length (shards h) = num_shards qs.
Proof.
  intros He. unfold handoff_new. destruct (decide _); [|done]. intros [= <-].
  split; [|apply length_replicate]. constructor; cbn; auto.
  - apply length_replicate.
  - intros i s Hi. apply lookup_replicate in Hi as [-> _]. constructor; cbn; auto.
    + split; [done|]. unfold_int; lia.
    + apply covers_nil.
Qed.

Lemma reachable_ok e c qs bud w h0 h :
  content e [] = [] -> routes_in_range -> handoff_new e c qs bud w = Some h0 ->
  rtc stage_step h0 h -> stage_ok h /\ length (shards h) = num_shards qs.
Proof.
  intros He Hr Hn Hrun. apply handoff_new_ok in Hn as [Hok Hl]; [|done]. revert Hok Hl.
  induction Hrun as [|h1 h2 h3 [Hroom [o Ho]] _ IH]; [done|]. intros Hok Hl.
  apply handoff_step_ok in Ho as [Hok' Hl']; auto. apply IH; congruence.
Qed.

(** ** The byte budget *)

Definition raw_sum (l : list (nat * EncodedChunk T)) : Z :=
  foldr (fun x n => raw_len x.2 + n) 0 l.

(** Starting from [bud], the budget has grown by the chunks sealed. *)
Definition booked (bud : Z) (h : SinkHandoff) : Prop :=
  budget h = Z.min (bud + raw_sum (sent h ++ parked h)) U64_MAX.

Lemma raw_sum_app l1 l2 : raw_sum (l1 ++ l2) = raw_sum l1 + raw_sum l2.
Proof. unfold raw_sum. induction l1; cbn; lia. Qed.

Lemma hand_over_booked bud idx c s h h' :
  budget h = Z.min (bud + raw_sum (sent h ++ parked h) + raw_len c) U64_MAX ->
  hand_over idx c s h = Some h' -> booked bud h'.
Proof.
  intros Hb. unfold hand_over, booked. rewrite raw_sum_app in Hb. destruct (decide _).
  { intros [= <-]. cbn. rewrite Hb, !raw_sum_app. cbn. f_equal. lia. }
  destruct (try_send idx c (queues h)) as [[c'|qs]|]; cbn; intros [= <-]; cbn;
    rewrite Hb, !raw_sum_app; cbn; f_equal; lia.
Qed.

Lemma ship_booked bud now idx fr s h h' :
  booked bud h -> ship now idx fr s h = Some h' -> booked bud h'.
Proof.
  intros Hb. apply hand_over_booked. cbn [budget sent parked raw_len chunk_of].
  rewrite Hb. unfold add, sat_add_u64. lia.
Qed.

Lemma seal_booked bud now idx h h' :
  booked bud h -> seal_and_send now idx h = Some h' -> booked bud h'.
Proof.
  intros Hb. unfold seal_and_send. destruct (shards h !! idx) as [s|]; cbn [mbind option_bind]; [|done].
  destruct (decide _); [by intros [= <-]|].
  destruct (if decide (finished_rows s = Some (rows s)) then _ else _) as [[e b] [x|]]; [by intros [= <-]|].
  destruct (codec h) as [k|]; [|by apply ship_booked].
  destruct (encode_frame k b) as [k' [x|coded]]; [by intros [= <-]|by apply ship_booked].
Qed.

Lemma drain_booked bud fuel : forall h ok h',
  booked bud h -> drain_loop fuel h = Some (ok, h') -> booked bud h'.
Proof.
  induction fuel as [|fuel IH]; intros h ok h' Hb; cbn [drain_loop]; [by intros [= _ <-]|].
  destruct (parked h) as [|[idx c] rest] eqn:Hp; [by intros [= _ <-]|].
  destruct (try_send idx c (queues h)) as [[c'|qs]|]; cbn; [by intros [= _ <-]| |done].
  destruct (shards h !! idx) as [s|]; cbn; [|done]. apply IH. unfold booked in *. cbn.
  rewrite Hb, Hp, !raw_sum_app. f_equal. unfold raw_sum. cbn. lia.
Qed.

Lemma seal_all_booked bud now idxs : forall h h',
  booked bud h -> seal_all now idxs h = Some h' -> booked bud h'.
Proof.
  induction idxs as [|i idxs IH]; intros h h' Hb; cbn [seal_all]; [by intros [= <-]|].
  destruct (seal_and_send now i h) as [h1|] eqn:Hs; cbn; [|done]. apply IH. by eapply seal_booked.
Qed.

Lemma push_booked bud now r h f h' :
  booked bud h -> push now r h = Some (f, h') -> booked bud h'.
Proof.
  intros Hb. unfold push. destruct (fatal h); [by intros [= _ <-]|].
  destruct (shards h !! _) as [s|]; cbn [mbind option_bind]; [|done].
  destruct (encode (encoder s) r (buf s)) as [[e b] [x|]].
  { intros [= _ <-]. by destruct (encode_policy cfg), (se_class x). }
  destruct (decide _); cbn; [|by intros [= _ <-]].
  destruct (seal_and_send _ _ _) as [h1|] eqn:Hs; cbn; [|done]. intros [= _ <-].
  apply (seal_booked bud) in Hs; [done|]. exact Hb.
Qed.

Lemma handoff_step_booked bud o h h' : booked bud h -> handoff_step o h = Some h' -> booked bud h'.
Proof.
  intros Hb. destruct o as [now r| |now| |i c|i|i]; cbn [handoff_step].
  - destruct (push now r h) as [[f h1]|] eqn:Hs; cbn; [|done]. intros [= <-]. by eapply push_booked.
  - unfold relieve, drain_parked. destruct (decide _); [by intros [= <-]|].
    destruct (drain_loop _ h) as [[ok h1]|] eqn:Hs; cbn; [|done]. intros [= <-]. by eapply drain_booked.
  - unfold flush_terminal, drain_parked. destruct (seal_all _ _ h) as [h1|] eqn:Hs; cbn; [|done].
    destruct (drain_loop _ h1) as [[ok h2]|] eqn:Hd; cbn; [|done]. intros [= <-].
    eapply drain_booked; [|done]. by eapply seal_all_booked.
  - by intros [= <-].
  - destruct (try_send i c (queues h)) as [[c'|qs]|]; cbn; by intros [= <-].
  - destruct (senders _ !! i); cbn; by intros [= <-].
  - destruct (senders _ !! i); cbn; by intros [= <-].
Qed.

Lemma reachable_booked e c qs bud w h0 h :
  0 <= bud <= U64_MAX -> handoff_new e c qs bud w = Some h0 -> rtc stage_step h0 h -> booked bud h.
Proof.
  intros Hbud Hn Hrun.
  assert (Hb : booked bud h0).
  { unfold handoff_new in Hn. destruct (decide _); simplify_eq. unfold booked. cbn. lia. }
  clear Hn. induction Hrun as [|h1 h2 h3 [_ [o Ho]] _ IH]; [done|]. apply IH. by eapply handoff_step_booked.
Qed.

Lemma raw_sum_nonneg (l : list (nat * EncodedChunk T)) :
  Forall (fun x => 0 <= raw_len x.2) l -> 0 <= raw_sum l.
Proof. unfold raw_sum. induction 1; cbn in *; lia. Qed.

Lemma drop_budget l : forall b, Forall (fun x : nat * EncodedChunk T => 0 <= raw_len x.2) l ->
  raw_sum l <= b -> foldl (fun b x => sub (raw_len x.2) b) b l = b - raw_sum l.
Proof.
  induction l as [|x l IH]; intros b HF Hle; cbn in *; [lia|]. fold (raw_sum l) in *.
  apply Forall_cons in HF as [Hx HF]. pose proof (raw_sum_nonneg _ HF).
  unfold sub at 2, sat_sub. rewrite IH; auto; lia.
Qed.

(** ** What the stage promises *)

Context (e : E) (c : option C) (qs : ShardQueues T) (bud : Z) (w : Acks).
Hypothesis fresh_encoder : content e [] = [].
Hypothesis router : routes_in_range.

(** C18: nothing is lost, duplicated or reordered between the chain and a
    shard's queue. Whatever the pushes, encode and codec failures, full and
    closed queues and flushes were: each shard's accepted records are, in order,
    those of the chunks sent to it, then those of the chunks parked for it, then
    those still open. Every chunk sent or parked decodes to exactly its records,
    counts them, and holds a handle of each one's batch. *)
Theorem handoff_keeps_every_record (h0 h : SinkHandoff) (i : nat) (s : ShardBuf) :
  handoff_new e c qs bud w = Some h0 -> rtc stage_step h0 h -> shards h !! i = Some s ->
  on_shard i (accepted h) =
    concat (c_recs <$> on_shard i (sent h)) ++ concat (c_recs <$> on_shard i (parked h)) ++ recs s /\
  content (encoder s) (buf s) = recs s /\ covers (acks s) (recs s) /\
  Forall (fun x => chunk_ok (bool_decide (is_Some (codec h))) x.2) (sent h ++ parked h).
Proof.
  intros Hn Hrun Hs. pose proof (reachable_ok _ _ _ _ _ _ _ fresh_encoder router Hn Hrun) as [Hok _].
  destruct (sk_shards _ Hok _ _ Hs). split_and!; auto. apply Hok.
Qed.

(** the stage never panics and reports pressure exactly. With a router that
    stays in range and counts within their width, [push], [relieve] and
    [flush_terminal] all return: a push always continues, and the other two
    report [Blocked] exactly when a parked chunk is left. *)
Theorem handoff_total (h0 h : SinkHandoff) (now : Z) (r : Rec T) :
  (0 < num_shards qs)%nat -> handoff_new e c qs bud w = Some h0 -> rtc stage_step h0 h -> room h ->
  (exists h', push now r h = Some (Continue, h')) /\
  (exists f h', relieve h = Some (f, h') /\ (f = Blocked <-> parked h' <> [])) /\
  (exists f h', flush_terminal now h = Some (f, h') /\ (f = Blocked <-> parked h' <> [])).
Proof.
  intros Hpos Hn Hrun Hroom. pose proof (reachable_ok _ _ _ _ _ _ _ fresh_encoder router Hn Hrun) as [Hok Hl].
  split_and!.
  - destruct (push_ok now r h Hok Hroom) as (f & h' & -> & -> & _); [|by eauto].
    apply router. by rewrite Hl.
  - destruct (relieve_ok h Hok Hroom) as (f & h' & -> & _ & _ & Hf). exists f, h'. split; [done|].
    rewrite <- Hf. by destruct f.
  - destruct (flush_ok now h Hok Hroom) as (f & h' & -> & _ & _ & Hf). exists f, h'. split; [done|].
    rewrite <- Hf. by destruct f.
Qed.

(** tearing the stage down gives back exactly the parked bytes and delivers
    nothing. The budget is left with what was handed to the queues; every batch
    with a handle in a parked chunk or an open shard resolves [Failed] or is
    left marked so. *)
Theorem handoff_teardown (h0 h : SinkHandoff) :
  0 <= bud -> handoff_new e c qs bud w = Some h0 -> rtc stage_step h0 h ->
  bud + raw_sum (sent h ++ parked h) <= U64_MAX ->
  (handoff_drop h).1 = bud + raw_sum (sent h) /\
  sends_only (fun m => am_status m = Ack.Failed) (world h) (handoff_drop h).2 /\
  forall a st, heap (handoff_drop h).2 !! a = Some st ->
    (exists x, x ∈ parked h /\ a ∈ c_acks x.2) \/ (exists s, s ∈ shards h /\ a ∈ acks s) ->
    as_status st = status_u8 Ack.Failed.
Proof.
  intros Hb0 Hn Hrun Hmax. destruct (reachable_ok _ _ _ _ _ _ _ fresh_encoder router Hn Hrun) as [Hok _].
  rewrite raw_sum_app in Hmax.
  assert (HF : Forall (fun x => 0 <= raw_len x.2) (sent h ++ parked h)).
  { eapply Forall_impl; [apply Hok|]. intros x [_ [_ ->] _ _ _]. lia. }
  apply Forall_app in HF as [HFs HFp]. pose proof (raw_sum_nonneg _ HFs). pose proof (raw_sum_nonneg _ HFp).
  split_and!.
  - pose proof (reachable_booked e c qs bud w h0 h) as Hbk. unfold booked in Hbk. rewrite raw_sum_app in Hbk.
    unfold handoff_drop. cbn. rewrite drop_budget; auto; rewrite Hbk; auto; lia.
  - unfold handoff_drop. cbn. eapply sends_only_trans; apply AckSets_drop_spec.
  - unfold handoff_drop. cbn. intros a st Ha Hin.
    apply AckSets_drop_spec in Ha as (Hf & s1 & Ha1 & E1). apply AckSets_drop_spec in Ha1 as (Hf1 & _).
    destruct Hin as [(x & Hx & Hax)|(s & Hs & Has)].
    + destruct E1 as [->|]; [|done]. apply Hf1. apply elem_of_sets. exists (c_acks x.2).
      split; [|done]. apply list_elem_of_fmap. eauto.
    + apply Hf. apply elem_of_sets. exists (acks s). split; [|done]. apply list_elem_of_fmap. eauto.
Qed.
End stage.

(** ** A stage that runs

    A row encoder of fixed-width rows: it refuses a negative payload after
    writing part of the row. Rows are read back from the end of the buffer. *)

Definition refused : SinkError := mkSinkError ClassRecordLevel "negative".

#[export] Instance fixed_width : RowEncoder Z unit := {
  encode e r b :=
    if decide (payload r < 0) then (e, b ++ [payload r], Some refused)
    else (e, b ++ [payload r; Z.of_nat (rec_ack r); bid_partition (rec_batch r);
                   bid_epoch (rec_batch r); bid_seq (rec_batch r); event_time_ms r], None);
  buffered_bytes _ := 0;
  finish_chunk e b := (e, b, None)
}.

Fixpoint rows_back (l : list Z) : list (Rec Z) :=
  match l with
  | ev :: sq :: ep :: pt :: ak :: pl :: l =>
      mkRec pl (Z.to_nat ak) (mkBatchId pt ep sq) ev :: rows_back l
  | _ => []
  end.

Definition read_rows (b : list Z) : list (Rec Z) := rev (rows_back (rev b)).

#[export] Instance fixed_width_laws : EncoderLaws Z unit read_rows.
Proof.
  refine (Build_EncoderLaws _ _ _ _ (fun _ b => read_rows b) _ _ _ _).
  - intros e r b e' b'. cbn. destruct (decide _); [done|]. intros [= _ <-]. unfold read_rows.
    rewrite rev_app_distr. destruct r as [pl ak [pt ep sq] ev]. cbn. by rewrite Nat2Z.id.
  - intros e r b e' b' x. cbn. destruct (decide _); [|done]. intros [= <- <- _]. by rewrite take_app_length.
  - intros e b e' b' [= <- <-]. done.
  - done.
Defined.

(** A codec that fails on the empty frame and else marks the frame. *)
#[export] Instance marking : FrameCodec Z := {
  encode_frame k b := (k + 1, match b with [] => inl refused | _ => inr (255 :: b) end)
}.

Section demo.
Definition demo_cfg : ChunkConfig := mkChunkConfig 12 Skip.
Definition demo_route (r : Rec Z) (n : nat) : nat := (Z.to_nat (payload r) mod n)%nat.
Definition demo_rec (p : Z) (sq : Z) : Rec Z := mkRec p (Z.to_nat sq) (mkBatchId 0 1 sq) (100 - p).

Fixpoint demo_run (ops : list (HandoffOp (T := Z))) (h : SinkHandoff (T := Z) (E := unit) (C := Z))
    : option (SinkHandoff (T := Z) (E := unit) (C := Z)) :=
  match ops with
  | [] => Some h
  | o :: ops =>
      if decide (room h) then handoff_step demo_route demo_cfg o h ≫= demo_run ops else None
  end.

Lemma demo_run_reaches ops : forall h h', demo_run ops h = Some h' ->
  rtc (stage_step demo_route demo_cfg) h h'.
Proof.
  induction ops as [|o ops IH]; intros h h'; cbn [demo_run]; [by intros [= <-]|].
  destruct (decide (room h)); [|done]. destruct (handoff_step _ _ o h) as [h1|] eqn:Ho; cbn; [|done].
  intros Hr. eapply rtc_l; [|by apply IH]. split; eauto.
Qed.

Lemma demo_routes : routes_in_range demo_route.
Proof. intros r n Hn. unfold demo_route. apply Nat.mod_upper_bound. lia. Qed.

Lemma demo_fresh : content (dec := read_rows) tt [] = [].
Proof. reflexivity. Qed.

Definition demo_queues : ShardQueues Z := mkQueues [mkQueue [] true; mkQueue [] true] 1.

Definition demo_world : Acks :=
  (AckRef_new (mkBatchId 0 1 1) 11 (AckRef_new (mkBatchId 0 1 0) 10 acks_init).2).2.

Definition demo_start : SinkHandoff :=
  mkHandoff (replicate 2 (shard_new tt)) [] (Some 0) None demo_queues 7 demo_world [] [].

(** Two sealed chunks for shard 0, the second parked behind a full queue, a
    refused record, and a row left open in shard 1. *)
Definition demo_ops : list (HandoffOp (T := Z)) :=
  [HPush 1 (demo_rec 2 0); HPush 2 (demo_rec 4 0); HPush 3 (demo_rec 6 1); HPush 4 (demo_rec (-1) 1);
   HPush 5 (demo_rec 8 1); HRelieve; HPush 6 (demo_rec 5 1); HTakeFatal].

Definition demo_end : SinkHandoff := default demo_start (demo_run demo_ops demo_start).

Lemma demo_end_reached : rtc (stage_step demo_route demo_cfg) demo_start demo_end.
Proof.
  apply (demo_run_reaches demo_ops). unfold demo_end.
  assert (Hs : is_Some (demo_run demo_ops demo_start)) by (vm_compute; eauto).
  destruct Hs as [h ->]. done.
Qed.

Lemma handoff_keeps_every_record_witness :
  on_shard 0 (accepted demo_end) = [demo_rec 2 0; demo_rec 4 0; demo_rec 6 1; demo_rec 8 1] /\
  on_shard 0 (accepted demo_end) =
    concat (c_recs <$> on_shard 0 (sent demo_end)) ++ concat (c_recs <$> on_shard 0 (parked demo_end)).
Proof.
  destruct (shards demo_end !! 0%nat) as [s|] eqn:Hs; [|by vm_compute in Hs].
  destruct (handoff_keeps_every_record demo_route demo_cfg tt (Some 0) demo_queues 7 demo_world
    demo_fresh demo_routes demo_start demo_end 0 s eq_refl demo_end_reached Hs) as [Ho _].
  split; [by vm_compute|]. rewrite Ho. vm_compute in Hs. injection Hs as <-. by rewrite app_nil_r.
Defined.

Lemma handoff_total_witness :
  room demo_end /\
  exists f h', relieve demo_end = Some (f, h') /\ (f = Blocked <-> parked h' <> []).
Proof.
  assert (Hr : room demo_end) by (apply (bool_decide_unpack _); by vm_compute).
  split; [done|].
  destruct (handoff_total demo_route demo_cfg tt (Some 0) demo_queues 7 demo_world demo_fresh demo_routes
    demo_start demo_end 9 (demo_rec 3 1)) as (_ & Hrel & _); auto using demo_end_reached.
  by vm_compute; lia.
Defined.

Lemma handoff_teardown_witness : (handoff_drop demo_end).1 = 7 + 12 /\ length (parked demo_end) = 1%nat.
Proof.
  split; [|by vm_compute].
  destruct (handoff_teardown demo_route demo_cfg tt (Some 0) demo_queues 7 demo_world demo_fresh
    demo_routes demo_start demo_end) as [Hb _]; [lia|reflexivity|apply demo_end_reached|by vm_compute|].
  rewrite Hb. by vm_compute.
Defined.
End demo.
