(* ===== verification/SinkConfig.v ===== *)
(** * Sink pool configuration ([spate-core/src/sink/config.rs])

    The sections of a sink's pool configuration and their load-time checks. A
    duration is a number of nanoseconds. [None] is [Ok], and the breaker's
    section is the one of [Breaker]. *)

From stdpp Require Import base list gmap.
From Stdlib Require Import ZArith Lia SpecFloat.
From S2P Require Import Prelude Floats EndCheck Breaker.

Record BatchConfig := mkBatchConfig {
  max_rows : Z;
  max_bytes : Z;
  linger : Z
}.

Definition batch_default : BatchConfig := mkBatchConfig 500000 (128 * 1024 * 1024) SECOND.

Record InflightConfig := mkInflightConfig { max_per_shard : nat }.

Definition inflight_default : InflightConfig := mkInflightConfig 2.

Record RetryConfig := mkRetryConfig {
  rc_initial : Z;
  rc_max : Z;
  rc_multiplier : f64;
  rc_jitter : f64;
  max_attempts : Z
}.

(** [0.2] is the quotient of two integers, correctly rounded. *)
Definition retry_default : RetryConfig :=
  mkRetryConfig 100000000 (10 * SECOND) (f64_of 2) (fdiv (f64_of 2) (f64_of 10)) 0.

Inductive RetryConfigError :=
| Multiplier (m : f64)
| Jitter (j : f64)
| ZeroDelay
| InitialExceedsMax (initial max : Z).

(** [(lo..=hi).contains(&x)]. *)
Definition in_range (lo hi x : f64) : bool := SFleb lo x && SFleb x hi.

Definition retry_validate (c : RetryConfig) : option RetryConfigError :=
  if negb (is_finite (rc_multiplier c)) || negb (in_range (f64_of 1) (f64_of 1000000000) (rc_multiplier c))
  then Some (Multiplier (rc_multiplier c))
  else if negb (is_finite (rc_jitter c)) || negb (in_range (f64_of 0) (f64_of 1) (rc_jitter c))
  then Some (Jitter (rc_jitter c))
  else if bool_decide (rc_initial c = 0) || bool_decide (rc_max c = 0) then Some ZeroDelay
  else if bool_decide (rc_max c < rc_initial c) then Some (InitialExceedsMax (rc_initial c) (rc_max c))
  else None.

Definition stalls_indefinitely (c : RetryConfig) : bool :=
  bool_decide (max_attempts c = 0) && bool_decide (300 * SECOND < rc_max c).

Record SinkPoolConfig := mkPoolConfig {
  batch : BatchConfig;
  inflight : InflightConfig;
  retry : RetryConfig;
  breaker : BreakerConfig
}.

Inductive SinkPoolConfigError :=
| ZeroMaxRows | ZeroMaxBytes | ZeroMaxPerShard
| RetryError (e : RetryConfigError)
| BreakerError (e : BreakerConfigError).

Definition batch_check (c : BatchConfig) : option SinkPoolConfigError :=
  if bool_decide (max_rows c = 0) then Some ZeroMaxRows
  else if bool_decide (max_bytes c = 0) then Some ZeroMaxBytes
  else None.

Definition inflight_check (c : InflightConfig) : option SinkPoolConfigError :=
  if bool_decide (max_per_shard c = 0%nat) then Some ZeroMaxPerShard else None.

(** The sections in order, and the first error. *)
Definition pool_validate (c : SinkPoolConfig) : option SinkPoolConfigError :=
  match batch_check (batch c), inflight_check (inflight c),
        retry_validate (retry c), Breaker.validate (breaker c) with
  | Some e, _, _, _ => Some e
  | None, Some e, _, _ => Some e
  | None, None, Some e, _ => Some (RetryError e)
  | None, None, None, Some e => Some (BreakerError e)
  | None, None, None, None => None
  end.

(** What the pool relies on of a configuration that passed. *)
Lemma pool_validate_ok c :
  pool_validate c = None ->
  max_rows (batch c) <> 0 /\ max_bytes (batch c) <> 0 /\ max_per_shard (inflight c) <> 0%nat /\
  rc_initial (retry c) <> 0 /\ rc_initial (retry c) <= rc_max (retry c) /\
  half_open_probes (breaker c) <> 0 /\ open_for (breaker c) <> 0.
Proof.
  unfold pool_validate, batch_check, inflight_check, retry_validate, Breaker.validate.
  repeat (case_bool_decide; [done|]).
  destruct (negb (is_finite (rc_multiplier _)) || _); [done|].
  destruct (negb (is_finite (rc_jitter _)) || _); [done|].
  repeat (case_bool_decide; cbn; [done|]). intros _. split_and!; auto; lia.
Qed.
