(* ===== verification/WriteTask.v ===== *)
(** * A sink batch's write task

    The future [spawn_write] of [spate-core/src/sink/worker.rs] spawns for one
    sealed batch: pick a replica through the shard's breakers, write, and retry
    with backoff until the batch is written or given up. Between two events
    the other tasks of the shard change the breaker set as they like. A panic
    outside the writer is the phase [Died], as one inside it is. [outcomes] is
    history: what each call of [write_batch] returned, [None] being [Ok]. *)

From stdpp Require Import base list gmap strings relations.
From Stdlib Require Import ZArith Lia.
From S2P Require Import Prelude EndCheck Floats Backoff Breaker SinkConfig Handoff.

(** The sealed batch a writer is handed. *)
Record SealedBatch := mkBatch {
  b_frames : list (list Z);
  b_rows : Z;
  b_bytes : Z;
  dedup_token : string
}.

Definition QUARANTINE_BACKSTOP_MIN : Z := 100000000.
Definition QUARANTINE_BACKSTOP_MAX : Z := 30 * SECOND.

(** [Duration::clamp], whose bounds are in order here. *)
Definition quarantine_backstop (open_for : Z) : Z :=
  Z.min (Z.max open_for QUARANTINE_BACKSTOP_MIN) QUARANTINE_BACKSTOP_MAX.

(** Where the task is suspended. [Parked] holds the version of the wake signal
    its receiver has seen; [Sleeping None] never wakes. *)
Inductive TaskPhase :=
| Picking
| Parked (until seen : Z)
| Writing (p : Pick)
| Sleeping (until : option Z)
| Returned (failure : option SinkError)
| Died.

Record Task := mkTask {
  t_seq : Z;
  t_batch : SealedBatch;
  attempts : Z;
  t_backoff : Backoff;
  t_phase : TaskPhase;
  outcomes : list (option SinkError)
}.

Definition task_backoff (r : RetryConfig) (this_seq : Z) : Backoff :=
  with_seed this_seq (with_jitter (rc_jitter r) (with_multiplier (rc_multiplier r)
    (backoff_new (rc_initial r) (rc_max r)))).

Definition task_new (r : RetryConfig) (this_seq : Z) (b : SealedBatch) : Task :=
  mkTask this_seq b 0 (task_backoff r this_seq) Picking [].

Definition set_t_phase (p : TaskPhase) (t : Task) : Task :=
  mkTask (t_seq t) (t_batch t) (attempts t) (t_backoff t) p (outcomes t).

(** One critical section of the pick loop, up to the wait or the write. *)
Definition task_pick (backstop now : Z) (t : Task) (b : BreakerSet) : Task * BreakerSet :=
  let probe_at := next_probe_at now b in
  match next_replica now b with
  | Some (p, b) =>
      (mkTask (t_seq t) (t_batch t) (wrap_u32 (attempts t + 1)) (t_backoff t) (Writing p)
         (outcomes t), b)
  | None =>
      match checked_add now backstop with
      | None => (set_t_phase Died t, b)
      | Some heartbeat =>
          let until := match probe_at with Some at_ => Z.min at_ heartbeat | None => heartbeat end in
          (set_t_phase (Parked until (wake b)) t, b)
      end
  end.

(** [ProbeGuard]: the slot an attempt that reported nothing hands back. *)
Definition guard_drop (p : Pick) (b : BreakerSet) : BreakerSet :=
  match probe p with
  | Some ep => default b (release_probe (replica p) ep b)
  | None => b
  end.

(** Whether an error ends the attempts. *)
Definition ends_attempts (r : RetryConfig) (n : Z) (x : SinkError) : bool :=
  negb (bool_decide (se_class x = ClassRetryable)) ||
  (bool_decide (0 < max_attempts r) && bool_decide (max_attempts r <= n)).

(** [write_batch] returned [out]. *)
Definition task_wrote (r : RetryConfig) (now : Z) (p : Pick) (out : option SinkError)
    (t : Task) (b : BreakerSet) : Task * BreakerSet :=
  let t := mkTask (t_seq t) (t_batch t) (attempts t) (t_backoff t) (t_phase t) (outcomes t ++ [out]) in
  match out with
  | None =>
      match on_success (replica p) b with
      | Some (_, b) => (set_t_phase (Returned None) t, b)
      | None => (set_t_phase Died t, b)
      end
  | Some x =>
      match on_failure (replica p) now b with
      | None => (set_t_phase Died t, b)
      | Some (_, b) =>
          if ends_attempts r (attempts t) x then (set_t_phase (Returned (Some x)) t, b)
          else
            match next_delay (t_backoff t) with
            | None => (set_t_phase Died t, b)
            | Some (delay, bo) =>
                (mkTask (t_seq t) (t_batch t) (attempts t) bo (Sleeping (checked_add now delay))
                   (outcomes t), b)
            end
      end
  end.

Inductive TaskEvent :=
| EvPick (now : Z)
| EvWake (now : Z)
| EvWrote (now : Z) (out : option SinkError)
| EvSlept (now : Z)
| EvPanic.

(** [None]: the event cannot happen to the task now. *)
Definition task_step (r : RetryConfig) (backstop : Z) (e : TaskEvent) (t : Task) (b : BreakerSet)
    : option (Task * BreakerSet) :=
  match e, t_phase t with
  | EvPick now, Picking => Some (task_pick backstop now t b)
  | EvWake now, Parked until seen =>
      if bool_decide (wake b <> seen) || bool_decide (until <= now)
      then Some (set_t_phase Picking t, b) else None
  | EvWrote now out, Writing p => Some (task_wrote r now p out t b)
  | EvSlept now, Sleeping (Some until) =>
      if bool_decide (until <= now) then Some (set_t_phase Picking t, b) else None
  | EvPanic, Writing p => Some (set_t_phase Died t, guard_drop p b)
  | _, _ => None
  end.

(** The task dropped at an await point. *)
Definition task_abort (t : Task) (b : BreakerSet) : BreakerSet :=
  match t_phase t with Writing p => guard_drop p b | _ => b end.

Definition running (t : Task) : bool :=
  match t_phase t with Returned _ | Died => false | _ => true end.

(** A step is a running task's, keeps its batch, and returns it written only
    on the writer's [Ok]. *)
Lemma task_step_spec r backstop e t b t' b' :
  task_step r backstop e t b = Some (t', b') ->
  running t = true /\ t_seq t' = t_seq t /\ t_batch t' = t_batch t /\
  (t_phase t' = Returned None -> exists now, e = EvWrote now None).
Proof.
  unfold task_step, running. intros Hs. split; [by destruct e, (t_phase t)|]. revert Hs.
  destruct e as [now|now|now out|now|], (t_phase t) as [|u v|p|[u|]|f|]; try done.
  - unfold task_pick. destruct (next_replica now b) as [[p b1]|]; [by intros [= <- <-]|].
    destruct (checked_add now backstop); by intros [= <- <-].
  - destruct (_ || _); [|done]. by intros [= <- <-].
  - unfold task_wrote. destruct out as [x|].
    + destruct (on_failure _ _ _) as [[tr b1]|]; [|by intros [= <- <-]]. cbn [attempts t_backoff].
      destruct (ends_attempts _ _ _); [by intros [= <- <-]|].
      destruct (next_delay _) as [[d bo]|]; by intros [= <- <-].
    + destruct (on_success _ _) as [[tr b1]|]; intros [= <- <-]; cbn; eauto.
  - destruct (bool_decide _); [|done]. by intros [= <- <-].
  - by intros [= <- <-].
Qed.

(** ** The verdict *)

(** A task's own steps, between which the breaker set changes freely. *)
Definition task_steps (r : RetryConfig) (backstop : Z) (t t' : Task) : Prop :=
  exists e b b', task_step r backstop e t b = Some (t', b').

Definition retryable (o : option SinkError) : Prop :=
  match o with Some x => se_class x = ClassRetryable | None => False end.

(** What the outcomes so far say of the task, in terms of the policy alone. *)
Record task_ok (r : RetryConfig) (t : Task) : Prop := mk_task_ok {
  tk_attempts : t_phase t <> Died -> attempts t = wrap_u32 (Z.of_nat (length (outcomes t)) +
                  match t_phase t with Writing _ => 1 | _ => 0 end);
  tk_outcomes : match t_phase t with
    | Returned None => exists os, outcomes t = os ++ [None] /\ Forall retryable os
    | Returned (Some x) => exists os, outcomes t = os ++ [Some x] /\ Forall retryable os /\
        (se_class x <> ClassRetryable \/
         0 < max_attempts r /\ Z.of_nat (length (outcomes t)) = max_attempts r)
    | Died => True
    | _ => Forall retryable (outcomes t)
    end;
  tk_bound : 0 < max_attempts r -> Z.of_nat (length (outcomes t)) <= max_attempts r /\
    (running t = true -> Z.of_nat (length (outcomes t)) < max_attempts r)
}.

Lemma task_new_ok r s b : task_ok r (task_new r s b).
Proof. constructor; cbn; try done. intros ?. split; [lia|intros _; lia]. Qed.

Lemma task_phase_ok r p t :
  task_ok r t -> running t = true ->
  match t_phase t with Writing _ => False | _ => True end ->
  match p with Writing _ | Returned _ => False | _ => True end ->
  task_ok r (set_t_phase p t).
Proof.
  intros [Ha Ho Hb] Hr Hw Hp. constructor; cbn.
  - intros _. unfold running in Hr. rewrite Ha by (by destruct (t_phase t)). by destruct (t_phase t), p.
  - unfold running in Hr. by destruct p, (t_phase t).
  - intros Hm. destruct (Hb Hm) as [? Hlt]. split; [done|]. intros _. auto.
Qed.

Lemma task_pick_ok r backstop now t b :
  task_ok r t -> t_phase t = Picking -> task_ok r (task_pick backstop now t b).1.
Proof.
  intros Hok Hp. unfold task_pick. destruct (next_replica now b) as [[p b']|].
  - destruct Hok as [Ha Ho Hb]. rewrite Hp in Ha, Ho. constructor; cbn.
    + intros _. by rewrite Ha, wrap_u32_add_l, Z.add_0_r.
    + done.
    + intros Hm. destruct (Hb Hm) as [? Hlt]. split; [done|]. intros _. apply Hlt.
      unfold running. by rewrite Hp.
  - assert (Hr : running t = true) by (unfold running; by rewrite Hp).
    destruct (checked_add _ _); apply task_phase_ok; auto; by rewrite Hp.
Qed.

(** The writer's outcome is recorded before anything else happens. *)
Lemma task_report_ok r p out t bo ph :
  task_ok r t -> t_phase t = Writing p ->
  let os := outcomes t ++ [out] in
  match ph with
  | Returned None => out = None
  | Returned (Some x) => out = Some x /\ ends_attempts r (attempts t) x = true
  | Sleeping _ => exists x, out = Some x /\ ends_attempts r (attempts t) x = false
  | Died => True
  | _ => False
  end ->
  max_attempts r <= U32_MAX ->
  task_ok r (mkTask (t_seq t) (t_batch t) (attempts t) bo ph os).
Proof.
  intros [Ha Ho Hb] Hp os Hph Hmax. rewrite Hp in Ha, Ho. unfold running in Hb. rewrite Hp in Hb.
  specialize (Ha ltac:(done)). assert (Hlen : Z.of_nat (length os) = Z.of_nat (length (outcomes t)) + 1).
  { unfold os. rewrite length_app. cbn. lia. }
  assert (Hexact : 0 < max_attempts r -> Z.of_nat (length os) <= max_attempts r /\
    attempts t = Z.of_nat (length os)).
  { intros Hm. destruct (Hb Hm) as [_ Hlt]. specialize (Hlt eq_refl). split; [lia|].
    rewrite Ha, Hlen. apply wrap_u32_small. unfold_int. lia. }
  rewrite <- Hlen in Ha. unfold ends_attempts in Hph.
  constructor; cbn [attempts outcomes t_phase].
  - intros _. rewrite Ha. destruct ph; try done; by rewrite Z.add_0_r.
  - destruct ph as [| | |u|[x|]|]; try done.
    + destruct Hph as (x & -> & Hend). apply Forall_app. split; [done|]. constructor; [|done].
      cbn. apply orb_false_iff in Hend as [Hc _]. apply negb_false_iff in Hc. by apply bool_decide_eq_true in Hc.
    + destruct Hph as [-> Hend]. exists (outcomes t). split_and!; auto.
      apply orb_true_iff in Hend as [Hc|Hm].
      * left. apply negb_true_iff in Hc. by apply bool_decide_eq_false in Hc.
      * right. apply andb_true_iff in Hm as [H1 H2].
        apply bool_decide_eq_true in H1, H2. destruct (Hexact H1). split; [done|]. lia.
    + subst out. exists (outcomes t). auto.
  - intros Hm. destruct (Hexact Hm) as [Hle Hatt]. split; [done|]. intros Hr.
    destruct ph as [| | |u|f|]; try done. destruct Hph as (x & -> & Hend).
    apply orb_false_iff in Hend as [_ Hend]. rewrite (bool_decide_true _ Hm) in Hend. cbn in Hend.
    apply bool_decide_eq_false in Hend. lia.
Qed.

Lemma task_wrote_ok r now p out t b :
  max_attempts r <= U32_MAX -> task_ok r t -> t_phase t = Writing p ->
  task_ok r (task_wrote r now p out t b).1.
Proof.
  intros Hmax Hok Hp. unfold task_wrote. cbn [attempts t_backoff].
  destruct out as [x|]; [destruct (on_failure _ _ _) as [[tr b']|]|destruct (on_success _ _) as [[tr b']|]].
  - destruct (ends_attempts r (attempts t) x) eqn:Hend; [|destruct (next_delay (t_backoff t)) as [[d bo]|]];
      apply (task_report_ok r p _ t); eauto.
  - by apply (task_report_ok r p _ t).
  - by apply (task_report_ok r p _ t).
  - by apply (task_report_ok r p _ t).
Qed.

Lemma task_step_ok r backstop e t b t' b' :
  max_attempts r <= U32_MAX -> task_ok r t -> task_step r backstop e t b = Some (t', b') -> task_ok r t'.
Proof.
  intros Hmax Hok. unfold task_step.
  destruct e as [now|now|now out|now|], (t_phase t) as [|u v|p|[u|]|f|] eqn:Hp; try done.
  - intros Heq. apply (f_equal (fun x => fst <$> x)) in Heq. cbn in Heq. injection Heq as <-.
    by apply task_pick_ok.
  - destruct (_ || _); [|done]. intros [= <- _].
    apply task_phase_ok; auto; [unfold running|]; by rewrite Hp.
  - intros Heq. apply (f_equal (fun x => fst <$> x)) in Heq. cbn in Heq. injection Heq as <-.
    by apply task_wrote_ok.
  - destruct (bool_decide _); [|done]. intros [= <- _].
    apply task_phase_ok; auto; [unfold running|]; by rewrite Hp.
  - intros [= <- _]. destruct Hok as [Ha Ho Hb]. constructor; cbn; try done.
    intros Hm. by destruct (Hb Hm).
Qed.

(** a batch's write task gives up exactly when its policy says so. However
    the replicas fail, park or panic and the breakers move: the task ends
    written exactly on the first [Ok], after errors that were all retryable; it
    ends failed exactly with the error of its last attempt, which was either
    not retryable or the last one [max_attempts] allows; until then every
    outcome was a retryable error, with attempts to spare. A wait for a
    quarantined shard is no attempt. *)
Theorem write_task_verdict (r : RetryConfig) (backstop s : Z) (b : SealedBatch) (t : Task) :
  max_attempts r <= U32_MAX -> rtc (task_steps r backstop) (task_new r s b) t ->
  match t_phase t with
  | Returned None => exists os, outcomes t = os ++ [None] /\ Forall retryable os
  | Returned (Some x) => exists os, outcomes t = os ++ [Some x] /\ Forall retryable os /\
      (se_class x <> ClassRetryable \/
       0 < max_attempts r /\ Z.of_nat (length (outcomes t)) = max_attempts r)
  | Died => True
  | _ => Forall retryable (outcomes t) /\
      (0 < max_attempts r -> Z.of_nat (length (outcomes t)) < max_attempts r)
  end.
Proof.
  intros Hmax Hrun. assert (Hok : task_ok r t).
  { pose proof (task_new_ok r s b) as H0. revert H0.
    induction Hrun as [|t1 t2 t3 (e & b1 & b2 & Hs) _ IH]; [done|]. intros H0. apply IH.
    by eapply task_step_ok. }
  destruct Hok as [_ Ho Hb]. unfold running in Hb.
  destruct (t_phase t) as [|? ?|?|?|[x|]|]; try done; (split; [done|]); intros Hm; by apply Hb.
Qed.

(** Two attempts allowed; the first fails, the shard is then quarantined, and
    the second fails too. *)
Definition demo_retry : RetryConfig := mkRetryConfig 3 40 (f64_of 2) (f64_of 0) 2.
Definition demo_batch : SealedBatch := mkBatch [[1; 2]] 1 2 "t0".
Definition timeout_error : SinkError := mkSinkError ClassRetryable "timeout".
Definition demo_events : list TaskEvent :=
  [EvPick 0; EvWrote 1 (Some timeout_error); EvSlept 4; EvPick 5; EvWake 11; EvPick 11;
   EvWrote 12 (Some timeout_error)].

Fixpoint task_run (es : list TaskEvent) (t : Task) (b : BreakerSet) : option (Task * BreakerSet) :=
  match es with
  | [] => Some (t, b)
  | e :: es => '(t, b) ← task_step demo_retry 100 e t b; task_run es t b
  end.

Lemma task_run_steps es : forall t b t' b',
  task_run es t b = Some (t', b') -> rtc (task_steps demo_retry 100) t t'.
Proof.
  induction es as [|e es IH]; intros t b t' b'; cbn [task_run]; [by intros [= <- _]|].
  destruct (task_step _ _ e t b) as [[t1 b1]|] eqn:Hs; cbn; [|done]. intros Hr.
  eapply rtc_l; [by exists e, b, b1|]. by eapply IH.
Qed.

Definition demo_task : Task :=
  default (task_new demo_retry 0 demo_batch)
    (fst <$> task_run demo_events (task_new demo_retry 0 demo_batch) Breaker.demo_set).

Lemma write_task_verdict_witness :
  t_phase demo_task = Returned (Some timeout_error) /\
  exists os, outcomes demo_task = os ++ [Some timeout_error] /\ Forall retryable os /\
    (se_class timeout_error <> ClassRetryable \/
     0 < max_attempts demo_retry /\ Z.of_nat (length (outcomes demo_task)) = max_attempts demo_retry).
Proof.
  assert (Hp : t_phase demo_task = Returned (Some timeout_error)) by (vm_compute; reflexivity).
  split; [exact Hp|].
  pose proof (write_task_verdict demo_retry 100 0 demo_batch demo_task) as H.
  rewrite Hp in H. apply H; [by vm_compute|].
  destruct (task_run demo_events (task_new demo_retry 0 demo_batch) Breaker.demo_set) as [[t b]|] eqn:Hr;
    [|by vm_compute in Hr].
  unfold demo_task. rewrite Hr. by eapply task_run_steps.
Defined.
