(* ===== verification/SinkWorker.v ===== *)
(** * The shard worker ([spate-core/src/sink/worker.rs])

    [ShardWorker::run]: merge a shard's chunks into batches, seal them, launch
    their write tasks within the in-flight window, and resolve their
    acknowledgments from the tasks' outcomes; then drain. The worker runs
    beside its write tasks ([WriteTask]), the stages that send to its queue
    ([Handoff]), the pool that publishes the drain deadline, and the other
    holders of handles ([Ack]); each step below is one of theirs or one pass of
    whichever [select!] loop the worker is in, with its arms in their biased
    order. Metrics and log lines are not modelled. Fields marked as history are
    read by no operation. *)

From stdpp Require Import base list gmap strings pretty relations.
From Stdlib Require Import ZArith Lia.
From S2P Require Import Prelude Ack EndCheck Floats Backoff Backpressure Breaker SinkConfig Handoff WriteTask.

(** ** The register of failures ([sink/failures.rs]) *)

Definition SinkFailures := list (string * string).

(** [SinkFailures::record]. *)
Fixpoint failures_record (sink reason : string) (es : SinkFailures) : SinkFailures :=
  match es with
  | [] => [(sink, reason)]
  | (name, r) :: es =>
      if decide (name = sink) then (name, reason) :: es else (name, r) :: failures_record sink reason es
  end.

(** ** The worker's data *)

Inductive FlushReason := FlushRows | FlushBytes | FlushLinger | FlushDrain.

Definition ABORT_GRACE : Z := 500000000.

Section worker.
Context {T : Type}.
Variable cfg : SinkPoolConfig.
Variable sink token_prefix : string.

(** [a_chunks] is history: the chunks merged so far. *)
Record Accumulator := mkAcc {
a_frames : list (list Z);
a_rows : Z;
a_bytes : Z;
a_acks : AckSet;
first_at : option Z;
a_oldest_ingest : option Z;
a_oldest_event_ms : Z;
a_chunks : list (EncodedChunk T)
}.

Definition acc_new : Accumulator := mkAcc [] 0 0 AckSet_new None None I64_MAX [].

(** [Accumulator::push]; [AckSet::absorb] leaves an empty set to drop. *)
Definition acc_push (c : EncodedChunk T) (now : Z) (a : Accumulator) : Accumulator :=
  mkAcc (a_frames a ++ [frame c]) (wrap_u64 (a_rows a + c_rows c)) (wrap_u64 (a_bytes a + raw_len c))
    (a_acks a ++ c_acks c)
    (match first_at a with Some t => Some t | None => Some now end)
    (Some match a_oldest_ingest a with Some cur => Z.min cur (oldest_ingest c) | None => oldest_ingest c end)
    (Z.min (a_oldest_event_ms a) (c_oldest_event_ms c)) (a_chunks a ++ [c]).

Definition acc_is_empty (a : Accumulator) : bool := bool_decide (a_frames a = []).

Record Pending := mkPending {
p_acks : AckSet;
p_rows : Z;
p_bytes : Z;
p_reason : FlushReason;
started : Z;
p_oldest_ingest : Z;
p_oldest_event_ms : Z
}.

(** [Ledger] with the budget, the register and the handle store its entries
    act on. [delivered] and [given_up] are history: the batches settled and
    abandoned. *)
Record Ledger := mkLedger {
pending : gmap Z Pending;
ids : gmap nat Z;
flushed : Z;
abandoned : Z;
l_budget : Z;
l_failures : SinkFailures;
l_world : Acks;
delivered : list Z;
given_up : list Z
}.

(** The window of write tasks: a task is in the join set until it is joined,
    and holds its permit until it ends. [written] is history: the batches a
    call of [write_batch] returned [Ok] for. *)
Record Flight := mkFlight {
tasks : gmap nat Task;
next_id : nat;
permits : nat;
waiting : list (Z * SealedBatch);
breakers : BreakerSet;
written : list Z
}.

(** The drain deadline's watch channel, as this worker's receiver sees it. *)
Record Watch := mkWatch {
deadline : option Z;
unseen : bool;
sender_alive : bool;
deadline_watch_live : bool
}.

Inductive Stage := Intake | Draining | Stopped | Killed.

(** [received], [sealed] and [dropped] are history: the chunks taken off the
    queue, the chunks of each sealed batch, at its sequence number, and the
    chunks that dropped with the receiver. *)
Record Worker := mkWorker {
stage : Stage;
acc : Accumulator;
seq_ : Z;
rx : list (EncodedChunk T);
rx_open : bool;
ledger : Ledger;
flight : Flight;
watch : Watch;
received : list (EncodedChunk T);
sealed : list (list (EncodedChunk T));
dropped : list (EncodedChunk T)
}.

Definition set_stage (s : Stage) (w : Worker) : Worker :=
  mkWorker s (acc w) (seq_ w) (rx w) (rx_open w) (ledger w) (flight w) (watch w) (received w) (sealed w) (dropped w).
Definition set_ledger (l : Ledger) (w : Worker) : Worker :=
  mkWorker (stage w) (acc w) (seq_ w) (rx w) (rx_open w) l (flight w) (watch w) (received w) (sealed w) (dropped w).
Definition set_flight (f : Flight) (w : Worker) : Worker :=
  mkWorker (stage w) (acc w) (seq_ w) (rx w) (rx_open w) (ledger w) f (watch w) (received w) (sealed w) (dropped w).
Definition set_watch (x : Watch) (w : Worker) : Worker :=
  mkWorker (stage w) (acc w) (seq_ w) (rx w) (rx_open w) (ledger w) (flight w) x (received w) (sealed w) (dropped w).
Definition set_rx (q : list (EncodedChunk T)) (o : bool) (w : Worker) : Worker :=
  mkWorker (stage w) (acc w) (seq_ w) q o (ledger w) (flight w) (watch w) (received w) (sealed w) (dropped w).

(** ** Resolving batches *)

Definition settle (s : Z) (l : Ledger) : Ledger :=
  match pending l !! s with
  | None => l
  | Some p =>
      mkLedger (delete s (pending l)) (ids l) (wrap_u64 (flushed l + 1)) (abandoned l)
        (sub (p_bytes p) (l_budget l)) (l_failures l) (AckSet_deliver (p_acks p) (l_world l))
        (delivered l ++ [s]) (given_up l)
  end.

Definition abandon (s : Z) (reason : string) (l : Ledger) : Ledger :=
  match pending l !! s with
  | None => l
  | Some p =>
      mkLedger (delete s (pending l)) (ids l) (flushed l) (wrap_u64 (abandoned l + 1))
        (sub (p_bytes p) (l_budget l)) (failures_record sink reason (l_failures l))
        (AckSet_drop (p_acks p) (l_world l)) (delivered l) (given_up l ++ [s])
  end.

Definition set_ids (m : gmap nat Z) (l : Ledger) : Ledger :=
  mkLedger (pending l) m (flushed l) (abandoned l) (l_budget l) (l_failures l) (l_world l)
    (delivered l) (given_up l).

(** [join_next_with_id] returned the ended task [id]; [text] is the panic's. *)
Definition handle_join (id : nat) (text : string) (t : Task) (l : Ledger) : Ledger :=
  match t_phase t with
  | Returned None => settle (t_seq t) (set_ids (delete id (ids l)) l)
  | Returned (Some x) => abandon (t_seq t) (se_text x) (set_ids (delete id (ids l)) l)
  | _ =>
      match ids l !! id with
      | Some s => abandon s ("the write task panicked: " +:+ text) (set_ids (delete id (ids l)) l)
      | None => l
      end
  end.

(** ** Sealing and launching *)

Definition seal_reason (a : Accumulator) : option FlushReason :=
  if bool_decide (max_rows (batch cfg) <= a_rows a) then Some FlushRows
  else if bool_decide (max_bytes (batch cfg) <= a_bytes a) then Some FlushBytes
  else None.

Definition token (s : Z) : string := token_prefix +:+ pretty s.

Definition batch_of (s : Z) (a : Accumulator) : SealedBatch :=
  mkBatch (a_frames a) (a_rows a) (a_bytes a) (token s).

Definition pending_of (now : Z) (reason : FlushReason) (a : Accumulator) : Pending :=
  mkPending (a_acks a) (a_rows a) (a_bytes a) reason now (default now (a_oldest_ingest a))
    (a_oldest_event_ms a).

(** [ShardWorker::seal]: the sequence number, the batch and the worker. *)
Definition seal (now : Z) (reason : FlushReason) (w : Worker) : Z * SealedBatch * Worker :=
  let s := seq_ w in
  let l := ledger w in
  (s, batch_of s (acc w),
   mkWorker (stage w) acc_new (wrap_u64 (s + 1)) (rx w) (rx_open w)
     (mkLedger (<[s := pending_of now reason (acc w)]> (pending l)) (ids l) (flushed l) (abandoned l)
        (l_budget l) (l_failures l) (l_world l) (delivered l) (given_up l))
     (flight w) (watch w) (received w) (sealed w ++ [a_chunks (acc w)]) (dropped w)).

(** [ShardWorker::spawn_write], with a permit already taken. *)
Definition spawn_write (b : SealedBatch) (s : Z) (w : Worker) : Worker :=
  let f := flight w in
  set_ledger (set_ids (<[next_id f := s]> (ids (ledger w))) (ledger w))
    (set_flight (mkFlight (<[next_id f := task_new (retry cfg) s b]> (tasks f)) (S (next_id f))
                   (permits f) (waiting f) (breakers f) (written f)) w).

Definition set_permits (n : nat) (w : Worker) : Worker :=
  let f := flight w in
  set_flight (mkFlight (tasks f) (next_id f) n (waiting f) (breakers f) (written f)) w.

Definition set_waiting (q : list (Z * SealedBatch)) (w : Worker) : Worker :=
  let f := flight w in
  set_flight (mkFlight (tasks f) (next_id f) (permits f) q (breakers f) (written f)) w.

(** [try_acquire_owned], then the launch of the oldest waiting batch. *)
Definition launch_waiting (w : Worker) : option Worker :=
  match permits (flight w), waiting (flight w) with
  | S n, (s, b) :: q => Some (spawn_write b s (set_waiting q (set_permits n w)))
  | _, _ => None
  end.

Definition dispatch (now : Z) (reason : FlushReason) (w : Worker) : Worker :=
  if acc_is_empty (acc w) then w
  else
    let '(s, b, w) := seal now reason w in
    match waiting (flight w), permits (flight w) with
    | [], S n => spawn_write b s (set_permits n w)
    | q, _ => set_waiting (q ++ [(s, b)]) w
    end.

(** One chunk off the queue: merge it, and seal where a threshold is crossed. *)
Definition take_chunk (now : Z) (c : EncodedChunk T) (w : Worker) : Worker :=
  let w := mkWorker (stage w) (acc_push c now (acc w)) (seq_ w) (rx w) (rx_open w) (ledger w)
             (flight w) (watch w) (received w ++ [c]) (sealed w) (dropped w) in
  match seal_reason (acc w) with
  | Some reason => dispatch now reason w
  | None => w
  end.

Definition take_chunks (now : Z) (cs : list (EncodedChunk T)) (w : Worker) : Worker :=
  foldl (fun w c => take_chunk now c w) w cs.

(** ** The sweep *)

(** Dropping every task of the join set. *)
Definition abort_all (ts : gmap nat Task) (b : BreakerSet) : BreakerSet :=
  foldr (fun x b => task_abort x.2 b) b (map_to_list ts).

Definition running_tasks (ts : gmap nat Task) : nat := size (filter (fun x => running x.2 = true) ts).

Definition swept : string := "the drain deadline passed before the write finished".

(** [sweep]; where the tasks did not stop within the grace they stay, unjoined. *)
Definition sweep (shut_down : bool) (w : Worker) : Worker :=
  let f := flight w in
  let f := if shut_down
           then mkFlight ∅ (next_id f) (permits f + running_tasks (tasks f)) [] (abort_all (tasks f) (breakers f))
                  (written f)
           else mkFlight (tasks f) (next_id f) (permits f) [] (breakers f) (written f) in
  let stranded := (map_to_list (pending (ledger w))).*1 in
  set_ledger (set_ids ∅ (foldl (fun l s => abandon s swept l) (ledger w) stranded)) (set_flight f w).

(** ** The end of the run *)

Definition set_world (x : Acks) (l : Ledger) : Ledger :=
  mkLedger (pending l) (ids l) (flushed l) (abandoned l) (l_budget l) (l_failures l) x (delivered l)
    (given_up l).

(** [run] returns: the receiver drops, and with it what is still queued. *)
Definition drop_rx (w : Worker) : Worker :=
  mkWorker (stage w) (acc w) (seq_ w) [] false (ledger w) (flight w) (watch w) (received w) (sealed w)
    (dropped w ++ rx w).

Definition stop (w : Worker) : Worker :=
  set_stage Stopped (drop_rx
    (set_ledger (set_world (AckSets_drop (c_acks <$> rx w) (l_world (ledger w))) (ledger w)) w)).

(** [run] is dropped or unwinds before it returns: [Ledger]'s drop releases
    what is pending, then the pending sets, the accumulator and the queue drop.
    The dropped ledger's entries stay readable as history. *)
Definition kill (w : Worker) : Worker :=
  let l := ledger w in
  let ps := (map_to_list (pending l)).*2 in
  let x := AckSets_drop (p_acks <$> ps) (l_world l) in
  let x := AckSets_drop (c_acks <$> rx w) (AckSet_drop (a_acks (acc w)) x) in
  set_stage Killed (drop_rx
    (set_ledger (mkLedger (pending l) (ids l) (flushed l) (abandoned l)
       (foldl (fun b p => sub (p_bytes p) b) (l_budget l) ps) (l_failures l) x (delivered l) (given_up l)) w)).

(** ** The loops *)

Definition ended (ts : gmap nat Task) : bool := bool_decide (running_tasks ts < size ts)%nat.

(** The join arm, for an ended task [id]. *)
Definition join_arm (id : nat) (text : string) (w : Worker) : option Worker :=
  let f := flight w in
  t ← tasks f !! id;
  if running t then None
  else Some (set_ledger (handle_join id text t (ledger w))
    (set_flight (mkFlight (delete id (tasks f)) (next_id f) (permits f) (waiting f) (breakers f)
                   (written f)) w)).

(** What [drain_deadline.changed] returns, if it is ready: [true] is [Ok]. *)
Definition changed (x : Watch) : option (bool * Watch) :=
  if deadline_watch_live x then
    if unseen x then Some (true, mkWatch (deadline x) false (sender_alive x) true)
    else if sender_alive x then None
    else Some (false, mkWatch (deadline x) false false false)
  else None.

(** What follows the intake loop: take what the queue still holds, force-seal
    the rest, and enter the drain loop. *)
Definition begin_drain (now : Z) (w : Worker) : Worker :=
  set_stage Draining
    (dispatch now FlushDrain (take_chunks now (rx w) (set_rx [] (rx_open w) w))).

Definition deadline_arm (now : Z) (w : Worker) : option Worker :=
  '(ok, x) ← changed (watch w);
  let w := set_watch x w in
  Some (if (ok : bool) && bool_decide (is_Some (deadline x)) then begin_drain now w else w).

(** When the open batch is due; the inner [None] is the overflow of its
    instant, which panics. *)
Definition linger_at (w : Worker) : option (option Z) :=
  (fun at_ => checked_add at_ (linger (batch cfg))) <$> first_at (acc w).

Definition linger_arm (now : Z) (w : Worker) : option Worker :=
  match linger_at w with
  | Some (Some at_) => if bool_decide (at_ <= now) then Some (dispatch now FlushLinger w) else None
  | _ => None
  end.

(** One pass of the intake [select!]. *)
Definition intake_select (now : Z) (id : nat) (text : string) (w : Worker) : option Worker :=
  if ended (tasks (flight w)) then join_arm id text w
  else if bool_decide (waiting (flight w) <> []) then
    match launch_waiting w with
    | Some w => Some w
    | None => deadline_arm now w
    end
  else
    match rx w, rx_open w with
    | [], false => Some (begin_drain now w)
    | [], true =>
        match deadline_arm now w with
        | Some w => Some w
        | None => linger_arm now w
        end
    | q, o => Some (take_chunks now (take 64 q) (set_rx (drop 64 q) o w))
    end.

Definition intake_pass (now : Z) (id : nat) (text : string) (w : Worker) : option Worker :=
  match linger_at w with
  | Some None => Some (kill w)
  | _ => intake_select now id text w
  end.

(** The launches at the head of the drain loop. *)
Fixpoint launch_all (fuel : nat) (w : Worker) : Worker :=
  match fuel with
  | O => w
  | S fuel => match launch_waiting w with Some w => launch_all fuel w | None => w end
  end.

(** One pass of the drain loop; each launch takes a waiting batch, so as many
    rounds as batches wait are enough. A pass with no arm ready waits. *)
Definition drain_pass (now : Z) (id : nat) (text : string) (shut_down : bool) (w : Worker)
    : option Worker :=
  let w := launch_all (length (waiting (flight w))) w in
  if bool_decide (tasks (flight w) = ∅) && bool_decide (waiting (flight w) = [])
  then Some (stop w)
  else if bool_decide (deadline (watch w) = None) && negb (deadline_watch_live (watch w))
  then Some (stop (sweep shut_down w))
  else if ended (tasks (flight w)) then join_arm id text w
  else
    match changed (watch w) with
    | Some (_, x) => Some (set_watch x w)
    | None =>
        match deadline (watch w) with
        | Some at_ => if bool_decide (at_ <= now) then Some (stop (sweep shut_down w)) else Some w
        | None => Some w
        end
    end.

(** ** The worker among the rest *)

Definition task_event (id : nat) (e : TaskEvent) (w : Worker) : option Worker :=
  let f := flight w in
  t ← tasks f !! id;
  '(t', b) ← task_step (retry cfg) (quarantine_backstop (open_for (breaker cfg))) e t (breakers f);
  Some (set_flight (mkFlight (<[id := t']> (tasks f)) (next_id f)
    (if running t' then permits f else S (permits f)) (waiting f) b
    (match e with EvWrote _ None => written f ++ [t_seq t] | _ => written f end)) w).

(** A task the dropped join set aborted. *)
Definition task_aborted (id : nat) (w : Worker) : option Worker :=
  let f := flight w in
  t ← tasks f !! id;
  Some (set_flight (mkFlight (delete id (tasks f)) (next_id f)
    (if running t then S (permits f) else permits f) (waiting f) (task_abort t (breakers f)) (written f)) w).

Definition alive (w : Worker) : bool :=
  match stage w with Intake | Draining => true | _ => false end.

Inductive WorkerOp :=
| WSend (c : EncodedChunk T)
| WClose
| WPublish (at_ : Z)
| WDropPool
| WHolder (o : AckOp)
| WTask (id : nat) (e : TaskEvent)
| WAborted (id : nat)
| WPass (now : Z) (id : nat) (text : string) (shut_down : bool)
| WKill.

(** A chunk enters the budget before it enters the queue, with handles that
    exist. *)
Definition chunk_in (c : EncodedChunk T) (w : Worker) : bool :=
  rx_open w && bool_decide (0 <= raw_len c) &&
  forallb (fun r => bool_decide (r < fresh_ref (l_world (ledger w)))%nat) (c_acks c).

Definition send_chunk (c : EncodedChunk T) (w : Worker) : Worker :=
  let l := ledger w in
  set_rx (rx w ++ [c]) (rx_open w)
    (set_ledger (mkLedger (pending l) (ids l) (flushed l) (abandoned l) (add (raw_len c) (l_budget l))
       (l_failures l) (l_world l) (delivered l) (given_up l)) w).

Definition worker_op (o : WorkerOp) (w : Worker) : option Worker :=
  match o with
  | WSend c => if alive w && chunk_in c w then Some (send_chunk c w) else None
  | WClose => if alive w then Some (set_rx (rx w) false w) else None
  | WPublish at_ =>
      let x := watch w in
      if sender_alive x then Some (set_watch (mkWatch (Some at_) true true (deadline_watch_live x)) w)
      else None
  | WDropPool =>
      let x := watch w in
      Some (set_watch (mkWatch (deadline x) (unseen x) false (deadline_watch_live x)) w)
  | WHolder o => Some (set_ledger (set_world (ack_step o (l_world (ledger w))) (ledger w)) w)
  | WTask id e => task_event id e w
  | WAborted id => if alive w then None else task_aborted id w
  | WPass now id text shut_down =>
      match stage w with
      | Intake => intake_pass now id text w
      | Draining => drain_pass now id text shut_down w
      | _ => None
      end
  | WKill => if alive w then Some (kill w) else None
  end.

(** Sequence numbers and half-open runs stay within their width. *)
Definition worker_room (w : Worker) : Prop :=
  seq_ w + Z.of_nat (length (rx w)) + 1 < U64_MAX /\ next_episode (breakers (flight w)) < U64_MAX.

Definition worker_step (w w' : Worker) : Prop := worker_room w /\ exists o, worker_op o w = Some w'.

(** [run] with [b] breakers, before its first pass. *)
Definition worker_new (b : BreakerSet) (x : Acks) : Worker :=
  mkWorker Intake acc_new 0 [] true (mkLedger ∅ ∅ 0 0 0 [] x [] [])
    (mkFlight ∅ 0 (max_per_shard (inflight cfg)) [] b []) (mkWatch None false true true) [] [] [].

(** Reachable, for a shard of [n] replicas. *)
Definition worker_reachable (n : nat) (w : Worker) : Prop :=
  exists b x, breaker_new n (breaker cfg) = Some b /\ rtc worker_step (worker_new b x) w.

(** ** What a batch is, in terms of its chunks *)

Definition sumz (l : list Z) : Z := foldr Z.add 0 l.
Definition rows_of (cs : list (EncodedChunk T)) : Z := wrap_u64 (sumz (c_rows <$> cs)).
Definition bytes_of (cs : list (EncodedChunk T)) : Z := wrap_u64 (sumz (raw_len <$> cs)).
Definition acks_of (cs : list (EncodedChunk T)) : AckSet := concat (c_acks <$> cs).

Definition below (cs : list (EncodedChunk T)) : Prop :=
  rows_of cs < max_rows (batch cfg) /\ bytes_of cs < max_bytes (batch cfg).

(** Every proper non-empty prefix is below the thresholds. *)
Definition due (cs : list (EncodedChunk T)) : Prop :=
  forall k, (0 < k < length cs)%nat -> below (take k cs).

Record acc_ok (a : Accumulator) : Prop := mk_acc_ok {
ac_frames : a_frames a = frame <$> a_chunks a;
ac_rows : a_rows a = rows_of (a_chunks a);
ac_bytes : a_bytes a = bytes_of (a_chunks a);
ac_acks : a_acks a = acks_of (a_chunks a);
ac_first : first_at a = None <-> a_chunks a = []
}.

(** Sealed as the batch [s]. *)
Definition batch_ok (s : Z) (cs : list (EncodedChunk T)) (b : SealedBatch) : Prop :=
  b = mkBatch (frame <$> cs) (rows_of cs) (bytes_of cs) (token s).

Definition entry_ok (cs : list (EncodedChunk T)) (p : Pending) : Prop :=
  p_acks p = acks_of cs /\ p_rows p = rows_of cs /\ p_bytes p = bytes_of cs.

(** The batch sealed as [s] satisfies [P]. *)
Definition sealed_as (w : Worker) (s : Z) (P : list (EncodedChunk T) -> Prop) : Prop :=
  exists i cs, s = Z.of_nat i /\ sealed w !! i = Some cs /\ P cs.

Record intake_ok (w : Worker) : Prop := mk_intake_ok {
in_seq : seq_ w = Z.of_nat (length (sealed w));
in_received : received w = concat (sealed w) ++ a_chunks (acc w);
in_acc : acc_ok (acc w);
in_due : due (a_chunks (acc w));
in_sealed : Forall (fun cs => cs <> [] /\ due cs) (sealed w)
}.

Record ledger_ok (w : Worker) : Prop := mk_ledger_ok {
le_pending : forall s p, pending (ledger w) !! s = Some p -> sealed_as w s (fun cs => entry_ok cs p);
le_nodup : NoDup (delivered (ledger w) ++ given_up (ledger w));
le_resolved : forall s, s ∈ delivered (ledger w) ++ given_up (ledger w) ->
  pending (ledger w) !! s = None /\ sealed_as w s (fun _ => True);
le_all : forall i : nat, (i < length (sealed w))%nat ->
  is_Some (pending (ledger w) !! Z.of_nat i) \/ Z.of_nat i ∈ delivered (ledger w) ++ given_up (ledger w);
le_report : flushed (ledger w) = wrap_u64 (Z.of_nat (length (delivered (ledger w)))) /\
  abandoned (ledger w) = wrap_u64 (Z.of_nat (length (given_up (ledger w))));
le_failures : given_up (ledger w) <> [] -> exists reason, (sink, reason) ∈ l_failures (ledger w)
}.

Record flight_ok (w : Worker) : Prop := mk_flight_ok {
fl_permits : (permits (flight w) + running_tasks (tasks (flight w)) = max_per_shard (inflight cfg))%nat;
fl_fresh : forall id, (next_id (flight w) <= id)%nat -> tasks (flight w) !! id = None;
fl_task : forall id t, tasks (flight w) !! id = Some t ->
  sealed_as w (t_seq t) (fun cs => batch_ok (t_seq t) cs (t_batch t)) /\
  (t_phase t = Returned None -> t_seq t ∈ written (flight w));
fl_waiting : Forall (fun x => sealed_as w x.1 (fun cs => batch_ok x.1 cs x.2)) (waiting (flight w));
fl_delivered : forall s, s ∈ delivered (ledger w) -> s ∈ written (flight w)
}.

(** While the worker runs, a batch is pending exactly while it waits or its
    task is in the join set, once. *)
Record live_ok (w : Worker) : Prop := mk_live_ok {
lv_ids : forall id, ids (ledger w) !! id = t_seq <$> tasks (flight w) !! id;
lv_pending : forall s, is_Some (pending (ledger w) !! s) <->
  s ∈ (waiting (flight w)).*1 \/ exists id t, tasks (flight w) !! id = Some t /\ t_seq t = s;
lv_waiting : NoDup (waiting (flight w)).*1;
lv_apart : forall id t, tasks (flight w) !! id = Some t -> t_seq t ∉ (waiting (flight w)).*1;
lv_tasks : forall id id' t t', tasks (flight w) !! id = Some t -> tasks (flight w) !! id' = Some t' ->
  t_seq t = t_seq t' -> id = id'
}.

Record worker_ok (w : Worker) : Prop := mk_worker_ok {
wk_intake : intake_ok w;
wk_ledger : ledger_ok w;
wk_flight : flight_ok w;
wk_live : alive w = true -> live_ok w
}.

Lemma sumz_app l1 l2 : sumz (l1 ++ l2) = sumz l1 + sumz l2.
Proof. unfold sumz. induction l1; cbn; lia. Qed.

Lemma acc_new_ok : acc_ok acc_new.
Proof. by constructor. Qed.

Lemma due_snoc cs c : due cs -> (cs = [] \/ below cs) -> due (cs ++ [c]).
Proof.
  intros Hd Hb k Hk. rewrite length_app in Hk. cbn in Hk. rewrite take_app_le by lia.
  destruct (decide (k = length cs)) as [->|Hne].
  - rewrite take_ge by lia. destruct Hb as [->|]; [cbn in Hk; lia|done].
  - apply Hd. lia.
Qed.

Lemma acc_push_ok c now a : acc_ok a -> acc_ok (acc_push c now a).
Proof.
  intros [Hf Hr Hb Ha H1]. constructor; cbn.
  - by rewrite Hf, fmap_app.
  - unfold rows_of in *. rewrite Hr, fmap_app, sumz_app, wrap_u64_add_l. cbn. by rewrite Z.add_0_r.
  - unfold bytes_of in *. rewrite Hb, fmap_app, sumz_app, wrap_u64_add_l. cbn. by rewrite Z.add_0_r.
  - unfold acks_of in *. rewrite Ha, fmap_app, concat_app. cbn. by rewrite app_nil_r.
  - split; [by destruct (first_at a)|by destruct (a_chunks a)].
Qed.

Lemma sealed_as_snoc w w' s P cs :
  sealed_as w s P -> sealed w' = sealed w ++ [cs] -> sealed_as w' s P.
Proof.
  intros (i & cs' & -> & Hi & HP) Hs. exists i, cs'. split_and!; auto. rewrite Hs.
  by apply lookup_app_l_Some.
Qed.

Lemma sealed_as_same w w' s P : sealed_as w s P -> sealed w' = sealed w -> sealed_as w' s P.
Proof. intros (i & cs' & -> & Hi & HP) Hs. exists i, cs'. by rewrite Hs. Qed.

Lemma sealed_as_lt w s P : sealed_as w s P -> s < Z.of_nat (length (sealed w)).
Proof. intros (i & cs' & -> & Hi & HP). apply lookup_lt_Some in Hi. lia. Qed.

Lemma running_insert ts id t :
  ts !! id = None ->
  running_tasks (<[id := t]> ts) = ((if running t then 1 else 0) + running_tasks ts)%nat.
Proof.
  intros Hid. unfold running_tasks. destruct (running t) eqn:Hr.
  - rewrite map_filter_insert_True by done. rewrite map_size_insert_None; [done|].
    apply map_lookup_filter_None. by left.
  - rewrite map_filter_insert_False by (cbn; congruence). by rewrite delete_id.
Qed.

Lemma running_delete ts id t :
  ts !! id = Some t ->
  running_tasks ts = ((if running t then 1 else 0) + running_tasks (delete id ts))%nat.
Proof.
  intros Hid. rewrite <- (insert_delete_id ts id t Hid) at 1. apply running_insert, lookup_delete_eq.
Qed.

Lemma running_update ts id t t' :
  ts !! id = Some t ->
  (running_tasks (<[id := t']> ts) + (if running t then 1 else 0) =
   running_tasks ts + (if running t' then 1 else 0))%nat.
Proof.
  intros Hid. rewrite <- insert_delete_eq, running_insert by apply lookup_delete_eq.
  rewrite (running_delete ts id t Hid). lia.
Qed.

(** Fields a step leaves alone. *)
Lemma intake_ok_frame w w' :
  intake_ok w -> acc w' = acc w -> seq_ w' = seq_ w -> received w' = received w -> sealed w' = sealed w ->
  intake_ok w'.
Proof. intros [] E1 E2 E3 E4. constructor; rewrite ?E1, ?E2, ?E3, ?E4; auto. Qed.

Lemma ledger_ok_frame w w' :
  ledger_ok w -> sealed w' = sealed w -> pending (ledger w') = pending (ledger w) ->
  delivered (ledger w') = delivered (ledger w) -> given_up (ledger w') = given_up (ledger w) ->
  flushed (ledger w') = flushed (ledger w) -> abandoned (ledger w') = abandoned (ledger w) ->
  l_failures (ledger w') = l_failures (ledger w) -> ledger_ok w'.
Proof.
  intros [Hp Hn Hr Ha Hrep Hf] E1 E2 E3 E4 E5 E6 E7.
  constructor; rewrite ?E1, ?E2, ?E3, ?E4, ?E5, ?E6, ?E7; auto.
  - intros s p Hs. eapply sealed_as_same; eauto.
  - intros s Hs. destruct (Hr s Hs) as [? ?]. split; [done|]. eapply sealed_as_same; eauto.
Qed.

Lemma flight_ok_frame w w' :
  flight_ok w -> sealed w' = sealed w -> flight w' = flight w ->
  delivered (ledger w') = delivered (ledger w) -> flight_ok w'.
Proof.
  intros [Hp Hf Ht Hw Hd] E1 E2 E3. constructor; rewrite ?E2, ?E3; auto.
  - intros id t Hid. destruct (Ht id t Hid). split; [|done]. eapply sealed_as_same; eauto.
  - eapply Forall_impl; [exact Hw|]. intros x Hx. by apply (sealed_as_same w).
Qed.

Lemma live_ok_frame w w' :
  live_ok w -> flight w' = flight w -> ids (ledger w') = ids (ledger w) ->
  pending (ledger w') = pending (ledger w) -> live_ok w'.
Proof. intros [] E1 E2 E3. constructor; rewrite ?E1, ?E2, ?E3; auto. Qed.

(** ** Sealing *)
Lemma seal_intake now reason w :
  intake_ok w -> a_chunks (acc w) <> [] -> seq_ w < U64_MAX -> intake_ok (seal now reason w).2.
Proof.
  intros [Hs Hr Ha Hd Hse] Hne Hmax. constructor; cbn.
  - rewrite wrap_u64_small by (unfold_int; lia). rewrite length_app. cbn. lia.
  - rewrite Hr, concat_app. cbn. by rewrite !app_nil_r.
  - apply acc_new_ok.
  - intros k Hk. cbn in Hk. lia.
  - apply Forall_app. split; [done|]. by constructor.
Qed.

Lemma seal_ledger now reason w :
  intake_ok w -> ledger_ok w -> ledger_ok (seal now reason w).2.
Proof.
  intros [Hs Hrc Ha Hd Hse] [Hp Hn Hr Hall Hrep Hf].
  assert (Hfresh : pending (ledger w) !! seq_ w = None).
  { apply eq_None_not_Some. intros [p Hlk]. apply Hp, sealed_as_lt in Hlk. lia. }
  assert (Hmine : sealed (seal now reason w).2 !! length (sealed w) = Some (a_chunks (acc w))).
  { cbn. by rewrite lookup_app_r, Nat.sub_diag by lia. }
  constructor; cbn [seal snd ledger pending delivered given_up flushed abandoned l_failures]; auto.
  - intros s p. rewrite lookup_insert_Some. intros [[<- <-]|[Hne Hlk]].
    + exists (length (sealed w)), (a_chunks (acc w)). split_and!; [done|done|].
      destruct Ha. by split_and!.
    + eapply sealed_as_snoc; [by apply Hp|done].
  - intros s Hin. destruct (Hr s Hin) as [Hnone Has]. split; [|by eapply sealed_as_snoc].
    rewrite lookup_insert_ne; [done|]. intros <-. apply sealed_as_lt in Has. lia.
  - intros i Hi. cbn in Hi. rewrite length_app in Hi. cbn in Hi.
    destruct (decide (i = length (sealed w))) as [->|Hne].
    + left. rewrite <- Hs, lookup_insert_eq. by eexists.
    + destruct (Hall i) as [Hs'|]; [lia| |by right]. left. rewrite lookup_insert_ne by lia. done.
Qed.

(** Sealed, and launched or put in line. *)
Lemma seal_flight now reason w w' :
  intake_ok w -> flight_ok w -> (alive w = true -> live_ok w) -> pending (ledger w) !! seq_ w = None ->
  let '(s, b, w1) := seal now reason w in
  sealed w' = sealed w1 -> delivered (ledger w') = delivered (ledger w1) ->
  pending (ledger w') = pending (ledger w1) ->
  (flight w' = flight (set_waiting (waiting (flight w1) ++ [(s, b)]) w1) /\
     ids (ledger w') = ids (ledger w1) \/
   exists n, permits (flight w) = S n /\ flight w' = flight (spawn_write b s (set_permits n w1)) /\
     ids (ledger w') = ids (ledger (spawn_write b s (set_permits n w1)))) ->
  flight_ok w' /\ (alive w = true -> live_ok w').
Proof.
  intros [Hs Hrc Ha Hd Hse] [Hpm Hfr Ht Hw Hdl] Hlive Hfresh. cbn.
  intros Esl Edl Ep Hcase.
  assert (Hold : forall s P, sealed_as w s P -> sealed_as w' s P).
  { intros s P HP. eapply sealed_as_snoc; eauto. }
  assert (Hb : sealed_as w' (seq_ w) (fun cs => batch_ok (seq_ w) cs (batch_of (seq_ w) (acc w)))).
  { exists (length (sealed w)), (a_chunks (acc w)). split_and!; [done| |].
    - rewrite Esl. by rewrite lookup_app_r, Nat.sub_diag by lia.
    - destruct Ha as [E1 E2 E3 _ _]. unfold batch_ok, batch_of. by rewrite E1, E2, E3. }
  assert (Ht' : forall id t, tasks (flight w) !! id = Some t ->
    sealed_as w' (t_seq t) (fun cs => batch_ok (t_seq t) cs (t_batch t)) /\
    (t_phase t = Returned None -> t_seq t ∈ written (flight w)) /\ t_seq t < seq_ w).
  { intros id t Hid. destruct (Ht id t Hid) as [H1 H2]. split_and!; auto.
    apply sealed_as_lt in H1. lia. }
  assert (Hw' : Forall (fun x => sealed_as w' x.1 (fun cs => batch_ok x.1 cs x.2)) (waiting (flight w)))
    by (eapply Forall_impl; [exact Hw|]; auto).
  destruct Hcase as [[Ef Ei]|(n & Hn & Ef & Ei)].
  - split; [constructor; rewrite ?Ef, ?Edl; cbn; auto|].
    + intros id t Hid. by destruct (Ht' id t Hid) as (? & ? & _).
    + apply Forall_app. split; [done|]. by constructor.
    + intros Hal. destruct (Hlive Hal) as [L1 L2 L3 L4 L5].
      assert (Hnotin : seq_ w ∉ (waiting (flight w)).*1).
      { intros Hin. assert (is_Some (pending (ledger w) !! seq_ w)) as [? ?] by (apply L2; by left). congruence. }
      constructor; rewrite ?Ef, ?Ei, ?Ep; cbn; auto.
      * intros s. rewrite fmap_app, elem_of_app, lookup_insert_is_Some, L2. cbn.
        rewrite list_elem_of_singleton. split.
        -- intros [->|[Hne [Hin|Hin]]]; auto.
        -- intros [[Hin| ->]|Hin]; [right|by left|right].
           ++ split; [|by left]. by intros <-.
           ++ split; [|by right]. intros <-. destruct Hin as (id & t & Hid & Heq).
              destruct (Ht' id t Hid) as (_ & _ & ?). lia.
      * rewrite fmap_app. apply NoDup_app. split_and!; [done| |apply NoDup_singleton].
        intros x Hx ->%list_elem_of_singleton. done.
      * intros id t Hid. rewrite fmap_app, not_elem_of_app. split; [by eapply L4|]. cbn.
        rewrite list_elem_of_singleton. destruct (Ht' id t Hid) as (_ & _ & ?). lia.
  - assert (Hnew : tasks (flight w) !! next_id (flight w) = None) by (apply Hfr; lia).
    split; [constructor; rewrite ?Ef, ?Edl; cbn; auto|].
    + rewrite running_insert by done. cbn. lia.
    + intros id Hid. rewrite lookup_insert_ne by lia. apply Hfr. lia.
    + intros id t. rewrite lookup_insert_Some. intros [[<- <-]|[_ Hid]]; [by split|].
      by destruct (Ht' id t Hid) as (? & ? & _).
    + intros Hal. destruct (Hlive Hal) as [L1 L2 L3 L4 L5].
      constructor; rewrite ?Ef, ?Ei, ?Ep; cbn; auto.
      * intros id. destruct (decide (id = next_id (flight w))) as [->|Hne].
        -- by rewrite !lookup_insert_eq.
        -- by rewrite !lookup_insert_ne by done.
      * intros s. rewrite lookup_insert_is_Some, L2. split.
        -- intros [<-|[_ [Hin|(id & t & Hid & <-)]]]; [right|by left|right].
           ++ exists (next_id (flight w)), (task_new (retry cfg) (seq_ w) (batch_of (seq_ w) (acc w))).
              by rewrite lookup_insert_eq.
           ++ exists id, t. rewrite lookup_insert_ne; [done|]. intros <-. congruence.
        -- intros [Hin|(id & t & Hid & <-)].
           ++ right. split; [|by left]. intros <-. assert (is_Some (pending (ledger w) !! seq_ w)) as [? ?]
                by (apply L2; by left). congruence.
           ++ apply lookup_insert_Some in Hid as [[<- <-]|[Hne Hid]]; [by left|].
              right. destruct (Ht' id t Hid) as (_ & _ & ?). split; [lia|right; eauto].
      * intros id t. rewrite lookup_insert_Some. intros [[<- <-]|[_ Hid]]; [|by eapply L4]. cbn.
        intros Hin. assert (is_Some (pending (ledger w) !! seq_ w)) as [? ?] by (apply L2; by left). congruence.
      * intros id id' t t'. rewrite !lookup_insert_Some.
        intros [[<- <-]|[Hne Hid]] [[<- <-]|[Hne' Hid']] Heq; cbn in Heq; auto; [| |by eapply L5].
        -- destruct (Ht' id' t' Hid') as (_ & _ & ?). lia.
        -- destruct (Ht' id t Hid) as (_ & _ & ?). lia.
Qed.

Lemma dispatch_ok now reason w :
  worker_ok w -> seq_ w < U64_MAX -> worker_ok (dispatch now reason w) /\
  a_chunks (acc (dispatch now reason w)) = [] /\ stage (dispatch now reason w) = stage w /\
  rx (dispatch now reason w) = rx w /\ seq_ (dispatch now reason w) <= seq_ w + 1.
Proof.
  intros [Hin Hle Hfl Hlv] Hmax. unfold dispatch, acc_is_empty. case_bool_decide as Hemp.
  { split_and!; auto; [by constructor| |lia]. rewrite (ac_frames _ (in_acc _ Hin)) in Hemp.
    by apply fmap_nil_inv in Hemp. }
  assert (Hne : a_chunks (acc w) <> []).
  { intros Hnil. apply Hemp. by rewrite (ac_frames _ (in_acc _ Hin)), Hnil. }
  assert (Hfresh : pending (ledger w) !! seq_ w = None).
  { apply eq_None_not_Some. intros [p Hlk]. apply (le_pending _ Hle), sealed_as_lt in Hlk.
    rewrite (in_seq _ Hin) in Hlk. lia. }
  assert (Hwrap : wrap_u64 (seq_ w + 1) <= seq_ w + 1).
  { rewrite wrap_u64_small; [lia|]. pose proof (in_seq _ Hin). unfold_int. lia. }
  pose proof (seal_intake now reason w Hin Hne Hmax) as Hin'.
  pose proof (seal_ledger now reason w Hin Hle) as Hle'.
  pose proof (fun w' => seal_flight now reason w w' Hin Hfl Hlv Hfresh) as Hfl'.
  destruct (seal now reason w) as [[s b] w1] eqn:Hseal. cbn [snd] in *.
  assert (Hw1 : flight w1 = flight w /\ stage w1 = stage w /\ rx w1 = rx w /\ seq_ w1 <= seq_ w + 1 /\
    acc w1 = acc_new) by (by injection Hseal as <- <- <-).
  destruct Hw1 as (Ef & Es & Erx & Esq & Eacc).
  assert (Hdone : forall w', intake_ok w' -> ledger_ok w' -> flight_ok w' /\ (alive w = true -> live_ok w') ->
    stage w' = stage w1 -> worker_ok w').
  { intros w' H1 H2 [H3 H4] H5. constructor; auto. unfold alive in *. rewrite H5, Es. done. }
  destruct (waiting (flight w1)) as [|x q] eqn:Hq; [destruct (permits (flight w1)) as [|n] eqn:Hn|].
  - split_and!; [apply Hdone|by cbn; rewrite Eacc|done..].
    + by apply (intake_ok_frame w1).
    + by apply (ledger_ok_frame w1).
    + apply Hfl'; auto.
    + done.
  - split_and!; [apply Hdone|by cbn; rewrite Eacc|done..].
    + by apply (intake_ok_frame w1).
    + by apply (ledger_ok_frame w1).
    + apply Hfl'; auto. right. exists n. rewrite <- Ef. auto.
    + done.
  - split_and!; [apply Hdone|by cbn; rewrite Eacc|done..].
    + by apply (intake_ok_frame w1).
    + by apply (ledger_ok_frame w1).
    + apply Hfl'; auto.
    + done.
Qed.

(** Between passes the open batch is below the thresholds. *)
Definition fit (w : Worker) : Prop := a_chunks (acc w) = [] \/ below (a_chunks (acc w)).

Lemma take_chunk_ok now c w :
  worker_ok w -> fit w -> seq_ w < U64_MAX ->
  worker_ok (take_chunk now c w) /\ fit (take_chunk now c w) /\ stage (take_chunk now c w) = stage w /\
  rx (take_chunk now c w) = rx w /\ seq_ (take_chunk now c w) <= seq_ w + 1.
Proof.
  intros [Hin Hle Hfl Hlv] Hfit Hmax. unfold take_chunk.
  set (w1 := mkWorker _ _ _ _ _ _ _ _ _ _ _).
  assert (Hok1 : worker_ok w1).
  { constructor.
    - destruct Hin as [Hs Hr Ha Hd Hse]. constructor; cbn; auto.
      + by rewrite Hr, app_assoc.
      + by apply acc_push_ok.
      + by apply due_snoc.
    - by apply (ledger_ok_frame w).
    - by apply (flight_ok_frame w).
    - intros Hal. by apply (live_ok_frame w); auto. }
  destruct (seal_reason (acc w1)) as [reason|] eqn:Hsr.
  - destruct (dispatch_ok now reason w1 Hok1 Hmax) as (H1 & H2 & H3 & H4 & H5).
    split_and!; auto. by left.
  - split_and!; auto; [|cbn; lia]. right. unfold seal_reason in Hsr.
    destruct (bool_decide _) eqn:H1 in Hsr; [done|]. destruct (bool_decide _) eqn:H2 in Hsr; [done|].
    apply bool_decide_eq_false in H1, H2. pose proof (in_acc _ (wk_intake _ Hok1)) as [_ Er Eb _ _].
    rewrite Er in H1. rewrite Eb in H2. split; lia.
Qed.

Lemma take_chunks_ok now cs : forall w,
  worker_ok w -> fit w -> seq_ w + Z.of_nat (length cs) <= U64_MAX ->
  worker_ok (take_chunks now cs w) /\ fit (take_chunks now cs w) /\ stage (take_chunks now cs w) = stage w /\
  rx (take_chunks now cs w) = rx w /\ seq_ (take_chunks now cs w) <= seq_ w + Z.of_nat (length cs).
Proof.
  induction cs as [|c cs IH]; intros w Hok Hfit Hmax; cbn [take_chunks foldl].
  { split_and!; auto. cbn. lia. }
  cbn [length] in *. destruct (take_chunk_ok now c w Hok Hfit) as (H1 & H2 & H3 & H4 & H5); [lia|].
  destruct (IH (take_chunk now c w) H1 H2) as (G1 & G2 & G3 & G4 & G5); [lia|].
  split_and!; auto; [by rewrite <- H3|by rewrite <- H4|unfold take_chunks in G5; lia].
Qed.

(** ** Launching *)
Lemma launch_ok w w' :
  worker_ok w -> launch_waiting w = Some w' ->
  worker_ok w' /\ acc w' = acc w /\ stage w' = stage w /\ rx w' = rx w /\ seq_ w' = seq_ w /\
  pending (ledger w') = pending (ledger w) /\
  length (waiting (flight w)) = S (length (waiting (flight w'))).
Proof.
  intros [Hin Hle Hfl Hlv]. unfold launch_waiting.
  destruct (permits (flight w)) as [|n] eqn:Hn; [done|].
  destruct (waiting (flight w)) as [|[s b] q] eqn:Hq; [done|]. intros [= <-].
  split; [|done].
  destruct Hfl as [Hpm Hfr Ht Hw Hd]. rewrite Hq in Hw. apply Forall_cons in Hw as [Hb Hw]. cbn in Hb.
  assert (Hnew : tasks (flight w) !! next_id (flight w) = None) by (apply Hfr; lia).
  constructor; [by apply (intake_ok_frame w)|by apply (ledger_ok_frame w)|constructor; cbn; auto|].
  - rewrite running_insert by done. cbn. lia.
  - intros id Hid. rewrite lookup_insert_ne by lia. apply Hfr. lia.
  - intros id t. rewrite lookup_insert_Some. intros [[<- <-]|[_ Hid]]; [by split|]. by apply (Ht id).
  - intros Hal. destruct (Hlv Hal) as [L1 L2 L3 L4 L5]. rewrite Hq in L2, L3, L4. cbn in L2, L3, L4.
    apply NoDup_cons in L3 as [Hs L3]. constructor; cbn; auto.
    + intros id. destruct (decide (id = next_id (flight w))) as [->|Hne].
      * by rewrite !lookup_insert_eq.
      * by rewrite !lookup_insert_ne by done.
    + intros x. rewrite L2, elem_of_cons. split.
      * intros [[->|Hin']|(id & t & Hid & <-)]; [right|by left|right].
        -- eexists _, _. by rewrite lookup_insert_eq.
        -- exists id, t. rewrite lookup_insert_ne; [done|]. intros <-. congruence.
      * intros [Hin'|(id & t & Hid & <-)]; [left; by right|].
        apply lookup_insert_Some in Hid as [[<- <-]|[_ Hid]]; [left; by left|right; eauto].
    + intros id t. rewrite lookup_insert_Some. intros [[<- <-]|[_ Hid]]; [done|].
      specialize (L4 id t Hid). rewrite not_elem_of_cons in L4. by destruct L4.
    + intros id id' t t'. rewrite !lookup_insert_Some.
      intros [[<- <-]|[Hne Hid]] [[<- <-]|[Hne' Hid']] Heq; cbn in Heq; auto; [| |by eapply L5].
      * specialize (L4 id' t' Hid'). rewrite <- Heq in L4. exfalso. apply L4. by left.
      * specialize (L4 id t Hid). rewrite Heq in L4. exfalso. apply L4. by left.
Qed.

(** ** Resolving *)
Lemma resolved_ledger w w' s p :
  ledger_ok w -> pending (ledger w) !! s = Some p -> sealed w' = sealed w ->
  pending (ledger w') = delete s (pending (ledger w)) ->
  (delivered (ledger w') = delivered (ledger w) ++ [s] /\ given_up (ledger w') = given_up (ledger w) /\
   flushed (ledger w') = wrap_u64 (flushed (ledger w) + 1) /\
   abandoned (ledger w') = abandoned (ledger w) /\ l_failures (ledger w') = l_failures (ledger w) \/
   delivered (ledger w') = delivered (ledger w) /\ given_up (ledger w') = given_up (ledger w) ++ [s] /\
   flushed (ledger w') = flushed (ledger w) /\
   abandoned (ledger w') = wrap_u64 (abandoned (ledger w) + 1) /\
   exists reason, l_failures (ledger w') = failures_record sink reason (l_failures (ledger w))) ->
  ledger_ok w'.
Proof.
  intros [Hp Hn Hr Hall [Hrf Hra] Hf] Hs Es Ep Hcase.
  assert (Hperm : delivered (ledger w') ++ given_up (ledger w') ≡ₚ
                  s :: delivered (ledger w) ++ given_up (ledger w)).
  { destruct Hcase as [(-> & -> & _)|(-> & -> & _)].
    - rewrite <- app_assoc. cbn. by rewrite <- Permutation_middle.
    - by rewrite app_assoc, <- Permutation_cons_append. }
  assert (Hel : forall x, x ∈ delivered (ledger w') ++ given_up (ledger w') <->
                x = s \/ x ∈ delivered (ledger w) ++ given_up (ledger w)).
  { intros x. by rewrite Hperm, elem_of_cons. }
  constructor.
  - intros x q. rewrite Ep, lookup_delete_Some. intros [_ Hx]. by apply (sealed_as_same w); auto.
  - rewrite Hperm. apply NoDup_cons. split; [|done]. intros Hin. destruct (Hr s Hin). congruence.
  - intros x. rewrite Hel, Ep. intros [->|Hx].
    + rewrite lookup_delete_eq. split; [done|]. apply (sealed_as_same w); [|done].
      destruct (Hp _ _ Hs) as (i & cs & ? & ? & _). by exists i, cs.
    + destruct (Hr x Hx) as [Hnone ?]. split; [|by apply (sealed_as_same w)].
      rewrite lookup_delete_None. by right.
  - intros i. rewrite Es, Hel, Ep. intros Hi. destruct (Hall i Hi) as [Hsome|]; [|auto].
    destruct (decide (Z.of_nat i = s)) as [<-|Hne]; [auto|left]. by rewrite lookup_delete_ne.
  - destruct Hcase as [(-> & -> & -> & -> & _)|(-> & -> & -> & -> & _)];
      rewrite ?Hrf, ?Hra, !length_app; cbn; rewrite wrap_u64_add_l; split; auto; f_equal; lia.
  - destruct Hcase as [(_ & -> & _ & _ & ->)|(_ & _ & _ & _ & reason & ->)]; [done|]. intros _.
    exists reason. clear. induction (l_failures (ledger w)) as [|[n r] es IH]; cbn; [by left|].
    destruct (decide (n = sink)) as [->|]; [by left|by right].
Qed.

(** Fields of the ledger a resolution leaves or sets. *)
Lemma settle_fields x l p :
  pending l !! x = Some p ->
  pending (settle x l) = delete x (pending l) /\ ids (settle x l) = ids l /\
  delivered (settle x l) = delivered l ++ [x] /\ given_up (settle x l) = given_up l /\
  flushed (settle x l) = wrap_u64 (flushed l + 1) /\ abandoned (settle x l) = abandoned l /\
  l_failures (settle x l) = l_failures l.
Proof. intros Hx. unfold settle. by rewrite Hx. Qed.

Lemma abandon_fields x reason l p :
  pending l !! x = Some p ->
  pending (abandon x reason l) = delete x (pending l) /\ ids (abandon x reason l) = ids l /\
  delivered (abandon x reason l) = delivered l /\ given_up (abandon x reason l) = given_up l ++ [x] /\
  flushed (abandon x reason l) = flushed l /\ abandoned (abandon x reason l) = wrap_u64 (abandoned l + 1) /\
  l_failures (abandon x reason l) = failures_record sink reason (l_failures l).
Proof. intros Hx. unfold abandon. by rewrite Hx. Qed.

(** What a join does: settle the task's batch if it returned written, and
    abandon it else. *)
Lemma handle_join_cases id text t l :
  running t = false -> ids l !! id = Some (t_seq t) ->
  (t_phase t = Returned None /\
   handle_join id text t l = settle (t_seq t) (set_ids (delete id (ids l)) l)) \/
  (t_phase t <> Returned None /\ exists reason,
   handle_join id text t l = abandon (t_seq t) reason (set_ids (delete id (ids l)) l)).
Proof.
  unfold running, handle_join. intros Hr Hid.
  destruct (t_phase t) as [| | | |[x|]|]; try done; [right|by left|right]; (split; [done|]); eauto.
  rewrite Hid. eauto.
Qed.

Lemma join_ok id text w w' :
  worker_ok w -> alive w = true -> join_arm id text w = Some w' ->
  worker_ok w' /\ acc w' = acc w /\ stage w' = stage w /\ rx w' = rx w /\ seq_ w' = seq_ w /\
  size (tasks (flight w)) = S (size (tasks (flight w'))) /\ waiting (flight w') = waiting (flight w).
Proof.
  intros [Hin Hle Hfl Hlv] Hal. unfold join_arm.
  destruct (tasks (flight w) !! id) as [t|] eqn:Ht; cbn; [|done].
  destruct (running t) eqn:Hr; [done|]. intros [= <-].
  split; [|split_and!; try done; by apply (map_size_delete_S _ _ t)].
  destruct (Hlv Hal) as [L1 L2 L3 L4 L5]. pose proof (L1 id) as Hid. rewrite Ht in Hid. cbn in Hid.
  assert (Hpend : is_Some (pending (ledger w) !! t_seq t)) by (apply L2; right; eauto).
  destruct Hpend as [p Hp].
  assert (Hp1 : pending (set_ids (delete id (ids (ledger w))) (ledger w)) !! t_seq t = Some p) by done.
  assert (Hmain : forall l', 
    pending l' = delete (t_seq t) (pending (ledger w)) -> ids l' = delete id (ids (ledger w)) ->
    (forall x, x ∈ delivered l' -> x ∈ written (flight w)) ->
    ledger_ok (set_ledger l' w) ->
    worker_ok (set_ledger l' (set_flight (mkFlight (delete id (tasks (flight w))) (next_id (flight w))
      (permits (flight w)) (waiting (flight w)) (breakers (flight w)) (written (flight w))) w))).
  { intros l' Ep Ei Hd Hl'. destruct Hfl as [Hpm Hfr Htk Hw _]. constructor.
    - by apply (intake_ok_frame w).
    - by apply (ledger_ok_frame (set_ledger l' w)).
    - constructor; cbn; auto.
      + rewrite (running_delete _ _ _ Ht), Hr in Hpm. done.
      + intros i Hi. apply lookup_delete_None. right. auto.
      + intros i t' [_ Hi]%lookup_delete_Some. by apply (Htk i).
    - intros _. constructor; cbn; rewrite ?Ep, ?Ei; auto.
      + intros i. destruct (decide (i = id)) as [->|Hne]; [by rewrite !lookup_delete_eq|].
        by rewrite !lookup_delete_ne by done.
      + intros x. destruct (decide (x = t_seq t)) as [->|Hne].
        * rewrite lookup_delete_eq. split; [by intros [? ?]|]. intros [Hw'|(i & t' & Hi & He)].
          -- by destruct (L4 id t Ht).
          -- apply lookup_delete_Some in Hi as [Hne Hi]. by destruct Hne; apply (L5 _ _ t t').
        * rewrite lookup_delete_ne by done. rewrite L2. split; [intros [?|(i & t' & Hi & <-)]; [by left|right]|].
          -- exists i, t'. rewrite lookup_delete_ne; [done|]. intros <-. congruence.
          -- intros [?|(i & t' & [_ Hi]%lookup_delete_Some & <-)]; [by left|right; eauto].
      + intros i t' [_ Hi]%lookup_delete_Some. by eapply L4.
      + intros i i' t1 t2 [_ H1]%lookup_delete_Some [_ H2]%lookup_delete_Some. by apply L5. }
  destruct (handle_join_cases id text t (ledger w) Hr Hid) as [[Hph ->]|[Hph [reason ->]]].
  - destruct (settle_fields _ _ _ Hp1) as (E1 & E2 & E3 & E4 & E5 & E6 & E7).
    apply Hmain; auto.
    + intros x. rewrite E3. cbn. intros [Hx| ->%list_elem_of_singleton]%elem_of_app.
      * by apply (fl_delivered _ Hfl).
      * by apply (fl_task _ Hfl id t Ht).
    + eapply (resolved_ledger w); cbn; eauto. left. by rewrite E3, E4, E5, E6, E7.
  - destruct (abandon_fields _ reason _ _ Hp1) as (E1 & E2 & E3 & E4 & E5 & E6 & E7).
    apply Hmain; auto.
    + intros x. rewrite E3. by apply (fl_delivered _ Hfl).
    + eapply (resolved_ledger w); cbn; eauto. right. rewrite E3, E4, E5, E6, E7. split_and!; eauto.
Qed.

(** ** The sweep *)
Lemma abandon_all_ok reason keys : forall w,
  ledger_ok w -> NoDup keys -> (forall x, x ∈ keys -> is_Some (pending (ledger w) !! x)) ->
  let l := foldl (fun l s => abandon s reason l) (ledger w) keys in
  ledger_ok (set_ledger l w) /\ delivered l = delivered (ledger w) /\
  (forall x, pending l !! x = if decide (x ∈ keys) then None else pending (ledger w) !! x).
Proof.
  induction keys as [|k keys IH]; intros w Hle Hnd Hall; cbn.
  { split_and!; [by apply (ledger_ok_frame w)|done|done]. }
  apply NoDup_cons in Hnd as [Hk Hnd]. destruct (Hall k) as [p Hp]; [by left|].
  destruct (abandon_fields k reason _ _ Hp) as (E1 & E2 & E3 & E4 & E5 & E6 & E7).
  destruct (IH (set_ledger (abandon k reason (ledger w)) w)) as (H1 & H2 & H3).
  - eapply (resolved_ledger w); cbn; eauto. right. rewrite E3, E4, E5, E6, E7. split_and!; eauto.
  - done.
  - intros x Hx. cbn. rewrite E1, lookup_delete_ne by (intros ->; done). apply Hall. by right.
  - cbn in *. split_and!; [by apply (ledger_ok_frame _ _ H1)|by rewrite H2, E3|].
    intros x. rewrite H3, E1. destruct (decide (x = k)) as [->|Hne].
    + rewrite decide_False by done. rewrite lookup_delete_eq. by rewrite decide_True by by left.
    + rewrite lookup_delete_ne by done. destruct (decide (x ∈ keys)).
      * by rewrite decide_True by by right.
      * rewrite decide_False; [done|]. by intros [?|?]%elem_of_cons.
Qed.

Lemma sweep_ok shut_down w :
  worker_ok w ->
  worker_ok (stop (sweep shut_down w)) /\ pending (ledger (stop (sweep shut_down w))) = ∅.
Proof.
  intros [Hin Hle Hfl Hlv].
  destruct (abandon_all_ok swept (map_to_list (pending (ledger w))).*1 w Hle) as (H1 & H2 & H3).
  { apply NoDup_fst_map_to_list. }
  { intros x (kv & -> & Hkv)%list_elem_of_fmap. destruct kv as [k v].
    apply elem_of_map_to_list in Hkv. by exists v. }
  split.
  2:{ apply map_empty. intros x. cbn. rewrite H3. destruct (decide _) as [|Hn]; [done|].
      apply eq_None_not_Some. intros [p Hp]. apply Hn. apply list_elem_of_fmap. exists (x, p).
      split; [done|]. by apply elem_of_map_to_list. }
  constructor.
  - by apply (intake_ok_frame w).
  - by apply (ledger_ok_frame _ _ H1).
  - destruct Hfl as [Hpm Hfr Htk Hw Hd]. destruct shut_down; constructor; cbn; rewrite ?H2; auto.
    + unfold running_tasks at 2. rewrite map_filter_empty, map_size_empty. lia.
    + intros id t. by rewrite lookup_empty.
  - done.
Qed.

(** ** The write tasks *)
Lemma task_event_ok id e w w' :
  worker_ok w -> task_event id e w = Some w' ->
  worker_ok w' /\ acc w' = acc w /\ stage w' = stage w /\ rx w' = rx w /\ seq_ w' = seq_ w /\
  ledger w' = ledger w.
Proof.
  intros [Hin Hle Hfl Hlv]. unfold task_event.
  destruct (tasks (flight w) !! id) as [t|] eqn:Ht; cbn; [|done].
  destruct (task_step _ _ e t _) as [[t' b]|] eqn:Hs; cbn; [|done]. intros [= <-].
  apply task_step_spec in Hs as (Hr & Eseq & Ebatch & Hret).
  split; [|done]. destruct Hfl as [Hpm Hfr Htk Hw Hd].
  assert (Hsub : forall x, x ∈ written (flight w) ->
    x ∈ match e with EvWrote _ None => written (flight w) ++ [t_seq t] | _ => written (flight w) end).
  { intros x Hx. destruct e as [| | ? [|]| |]; auto. apply elem_of_app. by left. }
  constructor; [by apply (intake_ok_frame w)|by apply (ledger_ok_frame w)|constructor; cbn; auto|].
  - pose proof (running_update _ _ _ t' Ht) as Hu. rewrite Hr in Hu. destruct (running t'); lia.
  - intros i Hi. rewrite lookup_insert_ne; [by apply Hfr|]. intros <-. rewrite Hfr in Ht by lia. done.
  - intros i ti. rewrite lookup_insert_Some. intros [[<- <-]|[_ Hi]].
    + rewrite Eseq, Ebatch. split; [by apply (Htk id)|]. intros (now & ->)%Hret.
      apply elem_of_app. right. by apply list_elem_of_singleton.
    + destruct (Htk i ti Hi) as [? Hwr]. split; auto.
  - intros Hal. destruct (Hlv Hal) as [L1 L2 L3 L4 L5]. constructor; cbn; auto.
    + intros i. rewrite L1. destruct (decide (i = id)) as [->|Hne].
      * by rewrite lookup_insert_eq, Ht; cbn; rewrite Eseq.
      * by rewrite lookup_insert_ne.
    + intros x. rewrite L2. split; (intros [?|(i & ti & Hi & <-)]; [by left|right]).
      * destruct (decide (i = id)) as [->|Hne].
        -- exists id, t'. rewrite lookup_insert_eq. split; [done|]. congruence.
        -- exists i, ti. by rewrite lookup_insert_ne.
      * apply lookup_insert_Some in Hi as [[<- <-]|[_ Hi]]; [rewrite Eseq|]; eauto.
    + intros i ti. rewrite lookup_insert_Some. intros [[<- <-]|[_ Hi]]; [rewrite Eseq|]; by eapply L4.
    + intros i i' t1 t2. rewrite !lookup_insert_Some.
      intros [[<- <-]|[_ H1]] [[<- <-]|[_ H2]]; rewrite ?Eseq; auto; intros; by eapply L5.
Qed.

Lemma task_aborted_ok id w w' :
  worker_ok w -> alive w = false -> task_aborted id w = Some w' ->
  worker_ok w' /\ acc w' = acc w /\ stage w' = stage w /\ rx w' = rx w /\ seq_ w' = seq_ w /\
  ledger w' = ledger w.
Proof.
  intros [Hin Hle Hfl Hlv] Hal. unfold task_aborted.
  destruct (tasks (flight w) !! id) as [t|] eqn:Ht; cbn; [|done]. intros [= <-].
  split; [|done]. destruct Hfl as [Hpm Hfr Htk Hw Hd].
  constructor; [by apply (intake_ok_frame w)|by apply (ledger_ok_frame w)|constructor; cbn; auto|].
  - rewrite (running_delete _ _ _ Ht) in Hpm. destruct (running t); lia.
  - intros i Hi. apply lookup_delete_None. right. auto.
  - intros i t' [_ Hi]%lookup_delete_Some. by apply (Htk i).
  - unfold alive in *. cbn. congruence.
Qed.

(** ** The passes *)

(** What holds between steps. *)
Record worker_inv (w : Worker) : Prop := mk_worker_inv {
wi_ok : worker_ok w;
wi_fit : fit w;
wi_drained : stage w = Draining \/ stage w = Stopped -> a_chunks (acc w) = [];
wi_stopped : stage w = Stopped -> pending (ledger w) = ∅
}.

(** A step that touches none of the modelled invariants' fields. *)
Lemma worker_inv_frame w w' :
  worker_inv w -> stage w' = stage w -> acc w' = acc w -> seq_ w' = seq_ w -> received w' = received w ->
  sealed w' = sealed w -> flight w' = flight w -> pending (ledger w') = pending (ledger w) ->
  ids (ledger w') = ids (ledger w) -> delivered (ledger w') = delivered (ledger w) ->
  given_up (ledger w') = given_up (ledger w) -> flushed (ledger w') = flushed (ledger w) ->
  abandoned (ledger w') = abandoned (ledger w) -> l_failures (ledger w') = l_failures (ledger w) ->
  worker_inv w'.
Proof.
  intros [[Hin Hle Hfl Hlv] Hfit Hdr Hst] E1 E2 E3 E4 E5 E6 E7 E8 E9 E10 E11 E12 E13.
  constructor; [constructor|unfold fit; by rewrite E2|by rewrite E1, E2|by rewrite E1, E7].
  - by apply (intake_ok_frame w).
  - by apply (ledger_ok_frame w).
  - by apply (flight_ok_frame w).
  - unfold alive. rewrite E1. intros Hal. by apply (live_ok_frame w); auto.
Qed.

(** The worker's own progress through its stages. *)
Lemma stop_ok w : worker_ok w -> a_chunks (acc w) = [] -> pending (ledger w) = ∅ -> worker_inv (stop w).
Proof.
  intros [Hin Hle Hfl Hlv] Ha Hp. constructor; [constructor|by left|done|done].
  - by apply (intake_ok_frame w).
  - by apply (ledger_ok_frame w).
  - by apply (flight_ok_frame w).
  - done.
Qed.

Lemma kill_ok w : worker_inv w -> worker_inv (kill w).
Proof.
  intros [[Hin Hle Hfl Hlv] Hfit Hdr Hst]. constructor; [constructor|done|by intros [?|?]|done].
  - by apply (intake_ok_frame w).
  - by apply (ledger_ok_frame w).
  - by apply (flight_ok_frame w).
  - done.
Qed.

Lemma begin_drain_ok now w :
  worker_inv w -> alive w = true -> seq_ w + Z.of_nat (length (rx w)) < U64_MAX ->
  worker_inv (begin_drain now w).
Proof.
  intros Hinv Hal Hmax. set (w0 := set_rx [] (rx_open w) w).
  assert (Hinv0 : worker_inv w0) by (by apply (worker_inv_frame w)).
  destruct (take_chunks_ok now (rx w) w0 (wi_ok _ Hinv0) (wi_fit _ Hinv0)) as (H1 & H2 & H3 & H4 & H5);
    [cbn; lia|].
  destruct (dispatch_ok now FlushDrain _ H1) as (G1 & G2 & G3 & G4 & G5); [cbn in H5; lia|].
  unfold begin_drain. fold w0. set (w2 := dispatch _ _ _) in *.
  destruct G1 as [I1 I2 I3 I4].
  constructor; [constructor|by left|done|done].
  - by apply (intake_ok_frame w2).
  - by apply (ledger_ok_frame w2).
  - by apply (flight_ok_frame w2).
  - intros _. apply (live_ok_frame w2); auto. apply I4. unfold alive. rewrite G3, H3. done.
Qed.

Lemma deadline_arm_ok now w w' :
  worker_inv w -> stage w = Intake -> seq_ w + Z.of_nat (length (rx w)) < U64_MAX ->
  deadline_arm now w = Some w' -> worker_inv w'.
Proof.
  intros Hinv Hst Hmax. unfold deadline_arm. destruct (changed (watch w)) as [[ok x]|]; cbn; [|done].
  assert (Hinv' : worker_inv (set_watch x w)) by (by apply (worker_inv_frame w)).
  intros [= <-]. destruct (_ && _); [|done]. apply begin_drain_ok; auto. unfold alive. cbn. by rewrite Hst.
Qed.

(** A worker step inside the intake stage. *)
Lemma intake_inv w : worker_ok w -> fit w -> stage w = Intake -> worker_inv w.
Proof. intros Hok Hfit Hst. constructor; auto; rewrite Hst; [by intros [?|?]|done]. Qed.

Lemma linger_arm_ok now w w' :
  worker_inv w -> stage w = Intake -> seq_ w < U64_MAX -> linger_arm now w = Some w' -> worker_inv w'.
Proof.
  intros Hinv Hst Hmax. unfold linger_arm. destruct (linger_at w) as [[at_|]|]; [|done|done].
  case_bool_decide; [|done]. intros [= <-].
  destruct (dispatch_ok now FlushLinger w (wi_ok _ Hinv) Hmax) as (H1 & H2 & H3 & _).
  apply intake_inv; [done|by left|congruence].
Qed.

Lemma intake_select_ok now id text w w' :
  worker_inv w -> stage w = Intake -> seq_ w + Z.of_nat (length (rx w)) < U64_MAX ->
  intake_select now id text w = Some w' -> worker_inv w'.
Proof.
  intros Hinv Hst Hmax. pose proof Hinv as [Hok Hfit Hdr _].
  assert (Hal : alive w = true) by (unfold alive; by rewrite Hst).
  unfold intake_select. destruct (ended _).
  { intros Hj. destruct (join_ok id text w w' Hok Hal Hj) as (H1 & H2 & H3 & _).
    apply intake_inv; [done|unfold fit; by rewrite H2|congruence]. }
  destruct (bool_decide _).
  { destruct (launch_waiting w) as [w1|] eqn:Hl; [|by apply deadline_arm_ok]. intros [= <-].
    destruct (launch_ok w w1 Hok Hl) as (H1 & H2 & H3 & _).
    apply intake_inv; [done|unfold fit; by rewrite H2|congruence]. }
  destruct (rx w) as [|c q] eqn:Hrx; [destruct (rx_open w)|].
  - destruct (deadline_arm now w) as [w1|] eqn:Hd.
    + intros [= <-]. eapply deadline_arm_ok; eauto. by rewrite Hrx.
    + apply linger_arm_ok; auto. cbn in Hmax. lia.
  - intros [= <-]. apply begin_drain_ok; auto. by rewrite Hrx.
  - intros [= <-]. set (w0 := set_rx _ _ w).
    assert (Hinv0 : worker_inv w0) by (by apply (worker_inv_frame w)).
    destruct (take_chunks_ok now (take 64 (c :: q)) w0 (wi_ok _ Hinv0) (wi_fit _ Hinv0))
      as (H1 & H2 & H3 & _); [rewrite length_take; cbn [w0 set_rx seq_]; lia|].
    apply intake_inv; [done|done|exact (eq_trans H3 Hst)].
Qed.

Lemma launch_all_ok fuel : forall w,
  worker_ok w ->
  worker_ok (launch_all fuel w) /\ acc (launch_all fuel w) = acc w /\ stage (launch_all fuel w) = stage w /\
  rx (launch_all fuel w) = rx w /\ pending (ledger (launch_all fuel w)) = pending (ledger w).
Proof.
  induction fuel as [|fuel IH]; intros w Hok; cbn [launch_all]; [done|].
  destruct (launch_waiting w) as [w1|] eqn:Hl; [|done].
  destruct (launch_ok w w1 Hok Hl) as (H1 & H2 & H3 & H4 & H5 & H6 & _).
  destruct (IH w1 H1) as (G1 & G2 & G3 & G4 & G5). split_and!; congruence.
Qed.

(** No task and nothing waiting: nothing is pending. *)
Lemma nothing_pending w :
  live_ok w -> tasks (flight w) = ∅ -> waiting (flight w) = [] -> pending (ledger w) = ∅.
Proof.
  intros [L1 L2 L3 L4 L5] Ht Hw. apply map_empty. intros x. apply eq_None_not_Some. rewrite L2, Ht, Hw.
  intros [Hin|(id & t & Hid & _)]; [by apply elem_of_nil in Hin|by rewrite lookup_empty in Hid].
Qed.

Lemma drain_pass_ok now id text shut_down w w' :
  worker_inv w -> stage w = Draining -> drain_pass now id text shut_down w = Some w' -> worker_inv w'.
Proof.
  intros [Hok Hfit Hdr _] Hst. specialize (Hdr (or_introl Hst)). unfold drain_pass.
  destruct (launch_all_ok (length (waiting (flight w))) w Hok) as (H1 & H2 & H3 & H4 & H5).
  set (w1 := launch_all _ w) in *. cbv zeta. clearbody w1. rewrite <- H2 in Hdr.
  assert (Hal : alive w1 = true) by (unfold alive; by rewrite H3, Hst).
  assert (Hinv1 : worker_inv w1).
  { constructor; [done|by left|done|rewrite H3, Hst; done]. }
  assert (Hsweep : worker_inv (stop (sweep shut_down w1))).
  { destruct (sweep_ok shut_down w1 H1) as [G1 G2]. constructor; [done|by left|done|done]. }
  destruct (_ && _) eqn:Hemp.
  { intros [= <-]. apply andb_true_iff in Hemp as [He1 He2]. apply bool_decide_eq_true in He1, He2.
    apply stop_ok; auto. apply nothing_pending; auto. by apply H1. }
  destruct (bool_decide (deadline _ = None) && _); [by intros [= <-]|].
  destruct (ended _).
  { intros Hj. destruct (join_ok id text w1 w' H1 Hal Hj) as (G1 & G2 & G3 & _).
    constructor; [done|left; by rewrite G2|intros _; by rewrite G2|rewrite G3, H3, Hst; done]. }
  destruct (changed (watch w1)) as [[ok x]|].
  { intros [= <-]. by apply (worker_inv_frame w1). }
  destruct (deadline (watch w1)) as [at_|]; [|by intros [= <-]].
  destruct (bool_decide (at_ <= now)); by intros [= <-].
Qed.

Lemma worker_op_ok o w w' : worker_inv w -> worker_room w -> worker_op o w = Some w' -> worker_inv w'.
Proof.
  intros Hinv [Hroom _]. destruct o as [c| |at_| |o|id e|id|now id text sd|]; cbn [worker_op].
  - destruct (_ && _); [|done]. intros [= <-]. by apply (worker_inv_frame w).
  - destruct (alive w); [|done]. intros [= <-]. by apply (worker_inv_frame w).
  - destruct (sender_alive _); [|done]. intros [= <-]. by apply (worker_inv_frame w).
  - intros [= <-]. by apply (worker_inv_frame w).
  - intros [= <-]. by apply (worker_inv_frame w).
  - intros Ht. destruct Hinv as [Hok Hfit Hdr Hst].
    destruct (task_event_ok id e w w' Hok Ht) as (H1 & H2 & H3 & H4 & H5 & H6).
    constructor; [done|unfold fit; by rewrite H2|by rewrite H3, H2|by rewrite H3, H6].
  - destruct (alive w) eqn:Hal; [done|]. intros Ht. destruct Hinv as [Hok Hfit Hdr Hst].
    destruct (task_aborted_ok id w w' Hok Hal Ht) as (H1 & H2 & H3 & H4 & H5 & H6).
    constructor; [done|unfold fit; by rewrite H2|by rewrite H3, H2|by rewrite H3, H6].
  - destruct (stage w) eqn:Hst; [| |done|done].
    + unfold intake_pass. destruct (linger_at w) as [[at_|]|].
      * apply intake_select_ok; auto. lia.
      * intros [= <-]. by apply kill_ok.
      * apply intake_select_ok; auto. lia.
    + by apply drain_pass_ok.
  - destruct (alive w); [|done]. intros [= <-]. by apply kill_ok.
Qed.

Lemma worker_new_ok b x : worker_inv (worker_new b x).
Proof.
  constructor; [constructor|by left|by intros [?|?]|done]; constructor; cbn; auto.
  - apply acc_new_ok.
  - intros k Hk. cbn in Hk. lia.
  - intros s p. by rewrite lookup_empty.
  - apply NoDup_nil_2.
  - by intros s ?%elem_of_nil.
  - intros i Hi. cbn in Hi. lia.
  - done.
  - intros id t. by rewrite lookup_empty.
  - intros s. rewrite lookup_empty. split; [by intros [? ?]|].
    intros [?%elem_of_nil|(id & t & Hid & _)]; [done|by rewrite lookup_empty in Hid].
  - apply NoDup_nil_2.
  - intros id t. by rewrite lookup_empty.
  - intros id id' t t'. by rewrite lookup_empty.
Qed.

Lemma worker_reachable_inv n w : worker_reachable n w -> worker_inv w.
Proof.
  intros (b & x & _ & Hrun). pose proof (worker_new_ok b x) as H0. revert H0.
  induction Hrun as [|w1 w2 w3 [Hroom [o Ho]] _ IH]; [done|]. intros H0. apply IH.
  by eapply worker_op_ok.
Qed.

(** ** The breakers

    The write tasks that hold a pick are the attempts out of [Breaker]'s
    system, and every step here is none or several of its steps. *)

Definition picks_of (ts : gmap nat Task) : gmap nat Pick :=
  omap (fun t => match t_phase t with Writing p => Some p | _ => None end) ts.

Definition shard_of (f : Flight) : Shard := Breaker.mkShard (breakers f) (picks_of (tasks f)).

Lemma picks_insert ts id t :
  picks_of (<[id := t]> ts) =
    match t_phase t with Writing p => <[id := p]> (picks_of ts) | _ => delete id (picks_of ts) end.
Proof.
  unfold picks_of. destruct (t_phase t) eqn:Hp.
  3:{ by apply omap_insert_Some; rewrite Hp. }
  all: by apply omap_insert_None; rewrite Hp.
Qed.

Lemma picks_delete ts id : picks_of (delete id ts) = delete id (picks_of ts).
Proof. apply omap_delete. Qed.

Lemma picks_lookup ts id t :
  ts !! id = Some t ->
  picks_of ts !! id = match t_phase t with Writing p => Some p | _ => None end.
Proof. intros Ht. unfold picks_of. by rewrite lookup_omap, Ht. Qed.

Lemma picks_fresh ts id : ts !! id = None -> picks_of ts !! id = None.
Proof. intros Ht. unfold picks_of. by rewrite lookup_omap, Ht. Qed.

(** Replacing a task that holds no pick by one that holds none. *)
Lemma picks_keep ts id t :
  picks_of ts !! id = None -> match t_phase t with Writing _ => False | _ => True end ->
  picks_of (<[id := t]> ts) = picks_of ts.
Proof.
  intros Hn Ht. rewrite picks_insert. destruct (t_phase t); try done; by apply delete_id.
Qed.

Lemma spawn_shard b s w :
  tasks (flight w) !! next_id (flight w) = None ->
  shard_of (flight (spawn_write b s w)) = shard_of (flight w).
Proof.
  intros Hn. unfold shard_of. cbn. f_equal. apply picks_keep; [by apply picks_fresh|done].
Qed.

Lemma dispatch_shard now reason w :
  flight_ok w -> shard_of (flight (dispatch now reason w)) = shard_of (flight w).
Proof.
  intros Hfl. unfold dispatch. destruct (acc_is_empty _); [done|]. cbn.
  destruct (waiting (flight w)) as [|x q]; [destruct (permits (flight w)) as [|n]|]; try done.
  rewrite spawn_shard; [done|]. cbn. by apply Hfl.
Qed.

Lemma take_chunks_shard now cs : forall w,
  worker_ok w -> fit w -> seq_ w + Z.of_nat (length cs) <= U64_MAX ->
  shard_of (flight (take_chunks now cs w)) = shard_of (flight w).
Proof.
  induction cs as [|c cs IH]; intros w Hok Hfit Hmax; cbn [take_chunks foldl]; [done|].
  cbn [length] in *. destruct (take_chunk_ok now c w Hok Hfit) as (H1 & H2 & H3 & H4 & H5); [lia|].
  change (shard_of (flight (take_chunks now cs (take_chunk now c w))) = shard_of (flight w)).
  rewrite IH by (auto; lia). unfold take_chunk.
  destruct (seal_reason _); [|done]. rewrite dispatch_shard; [done|].
  by apply (flight_ok_frame w); [apply Hok|..].
Qed.

Lemma begin_drain_shard now w :
  worker_inv w -> seq_ w + Z.of_nat (length (rx w)) < U64_MAX ->
  shard_of (flight (begin_drain now w)) = shard_of (flight w).
Proof.
  intros Hinv Hmax. set (w0 := set_rx [] (rx_open w) w).
  assert (Hinv0 : worker_inv w0) by (by apply (worker_inv_frame w)).
  destruct (take_chunks_ok now (rx w) w0 (wi_ok _ Hinv0) (wi_fit _ Hinv0)) as (H1 & _);
    [cbn; lia|].
  unfold begin_drain. fold w0. cbn [set_stage flight]. rewrite dispatch_shard by apply H1.
  rewrite take_chunks_shard; [done|apply Hinv0|apply Hinv0|cbn; lia].
Qed.

Lemma launch_shard w w' :
  flight_ok w -> launch_waiting w = Some w' -> shard_of (flight w') = shard_of (flight w).
Proof.
  intros Hfl. unfold launch_waiting. destruct (permits (flight w)); [done|].
  destruct (waiting (flight w)) as [|[s b] q]; [done|]. intros [= <-].
  rewrite spawn_shard; [done|]. cbn. by apply Hfl.
Qed.

Lemma launch_all_shard fuel : forall w,
  worker_ok w -> shard_of (flight (launch_all fuel w)) = shard_of (flight w).
Proof.
  induction fuel as [|fuel IH]; intros w Hok; cbn [launch_all]; [done|].
  destruct (launch_waiting w) as [w1|] eqn:Hl; [|done].
  destruct (launch_ok w w1 Hok Hl) as (H1 & _). rewrite IH by done. by apply launch_shard; [apply Hok|].
Qed.

Lemma join_shard id text w w' :
  join_arm id text w = Some w' -> shard_of (flight w') = shard_of (flight w).
Proof.
  unfold join_arm. destruct (tasks (flight w) !! id) as [t|] eqn:Ht; cbn; [|done].
  destruct (running t) eqn:Hr; [done|]. intros [= <-]. unfold shard_of. cbn. f_equal.
  rewrite picks_delete. apply delete_id. rewrite (picks_lookup _ _ _ Ht). unfold running in Hr.
  by destruct (t_phase t).
Qed.

(** A task that holds a pick dies without an outcome. *)
Lemma release_shard b ts id t :
  picks_in_range (Breaker.mkShard b (picks_of ts)) -> ts !! id = Some t ->
  rtc shard_steps (Breaker.mkShard b (picks_of ts))
    (Breaker.mkShard (task_abort t b) (delete id (picks_of ts))).
Proof.
  intros Hrng Ht. pose proof (picks_lookup _ _ _ Ht) as Hp. unfold task_abort.
  destruct (t_phase t) as [| |p| | |]; try (rewrite delete_id by done; done).
  apply rtc_once. exists (SRelease id). cbn. rewrite Hp. destruct p as [r [ep|]]; [|done].
  unfold guard_drop. cbn [probe replica].
  destruct (release_total r ep b) as [b' Hb']; [apply (Hrng id _ Hp)|]. by rewrite Hb'.
Qed.

Lemma shard_steps_range s s' : picks_in_range s -> rtc shard_steps s s' -> picks_in_range s'.
Proof.
  intros Hr Hs. induction Hs as [|s1 s2 s3 [o Ho] _ IH]; [done|]. apply IH. by eapply shard_step_in_range.
Qed.

Lemma abort_list_shard l : forall b ts,
  picks_in_range (Breaker.mkShard b (picks_of ts)) -> NoDup l.*1 ->
  (forall x, x ∈ l -> ts !! x.1 = Some x.2) ->
  rtc shard_steps (Breaker.mkShard b (picks_of ts))
    (Breaker.mkShard (foldr (fun x b => task_abort x.2 b) b l)
       (picks_of (foldr (fun x m => delete x.1 m) ts l))).
Proof.
  induction l as [|[id t] l IH]; intros b ts Hrng Hnd Hl; cbn; [done|].
  apply NoDup_cons in Hnd as [Hid Hnd]. cbn in Hid.
  assert (Hrun := IH b ts Hrng Hnd ltac:(intros x Hx; apply Hl; by right)).
  etrans; [exact Hrun|]. rewrite picks_delete.
  apply release_shard; [by eapply shard_steps_range|].
  specialize (Hl (id, t) ltac:(by left)). cbn in Hl. rewrite <- Hl. clear -Hid.
  induction l as [|[i u] l IH]; cbn; [done|]. rewrite not_elem_of_cons in Hid. destruct Hid as [H1 H2].
  cbn in H1. rewrite lookup_delete_ne by done. by apply IH.
Qed.

Lemma delete_all {A} (m : gmap nat A) :
  foldr (fun x m => delete x.1 m) m (map_to_list m) = ∅.
Proof.
  apply map_empty. intros i.
  assert (Hl : forall l (m0 : gmap nat A),
    (forall x, m0 !! i = Some x -> i ∈ l.*1) ->
    foldr (fun (x : nat * A) m => delete x.1 m) m0 l !! i = None).
  { induction l as [|[k v] l IH]; intros m0 Hin; cbn.
    - apply eq_None_not_Some. intros [x Hx]. apply Hin in Hx. by apply elem_of_nil in Hx.
    - apply lookup_delete_None. destruct (decide (k = i)) as [->|Hne]; [by left|right].
      apply IH. intros x Hx. apply Hin in Hx. cbn in Hx. by apply elem_of_cons in Hx as [->|]. }
  apply Hl. intros x Hx. apply list_elem_of_fmap. exists (i, x). split; [done|]. by apply elem_of_map_to_list.
Qed.

Lemma sweep_shard shut_down w :
  picks_in_range (shard_of (flight w)) ->
  rtc shard_steps (shard_of (flight w)) (shard_of (flight (stop (sweep shut_down w)))).
Proof.
  intros Hrng. destruct shut_down; [|done]. unfold shard_of, abort_all.
  pose proof (abort_list_shard (map_to_list (tasks (flight w))) (breakers (flight w)) (tasks (flight w)) Hrng)
    as Hrun. rewrite delete_all in Hrun. apply Hrun; [apply NoDup_fst_map_to_list|].
  intros [id t] Hx. by apply elem_of_map_to_list.
Qed.

Lemma task_event_shard id e w w' :
  picks_in_range (shard_of (flight w)) -> next_episode (breakers (flight w)) < U64_MAX ->
  task_event id e w = Some w' -> rtc shard_steps (shard_of (flight w)) (shard_of (flight w')).
Proof.
  intros Hrng Hep. unfold task_event. destruct (tasks (flight w) !! id) as [t|] eqn:Ht; cbn; [|done].
  pose proof (picks_lookup _ _ _ Ht) as Hp. destruct (task_step _ _ e t _) as [[t' b]|] eqn:Hs; cbn; [|done].
  intros [= <-]. unfold shard_of. cbn. rewrite picks_insert. unfold task_step in Hs.
  destruct e as [now|now|now out|now|], (t_phase t) as [|u v|p|[u|]|f|]; try done.
  - unfold task_pick in Hs. destruct (next_replica now (breakers (flight w))) as [[p b1]|] eqn:Hn.
    + injection Hs as <- <-. cbn. apply rtc_once. exists (SPick id now). cbn. rewrite Hp.
      by rewrite bool_decide_true, Hn by done.
    + destruct (checked_add _ _); injection Hs as <- <-; cbn; by rewrite delete_id.
  - destruct (_ || _); [|done]. injection Hs as <- <-. cbn. by rewrite delete_id.
  - apply rtc_once. unfold task_wrote in Hs. cbn [attempts t_backoff] in Hs.
    pose proof (Hrng id p Hp) as Hin. cbn in Hin. destruct out as [x|].
    + exists (SFailure id now). cbn. rewrite Hp.
      destruct (on_failure_total _ now _ Hin) as [[tr b1] Hf]. rewrite Hf in Hs |- *.
      destruct (ends_attempts _ _ _); [by injection Hs as <- <-|].
      destruct (next_delay _) as [[d bo]|]; by injection Hs as <- <-.
    + exists (SSuccess id). cbn. rewrite Hp.
      destruct (on_success_total _ _ Hin) as [[tr b1] Hf]. rewrite Hf in Hs |- *. by injection Hs as <- <-.
  - destruct (bool_decide _); [|done]. injection Hs as <- <-. cbn. by rewrite delete_id.
  - injection Hs as <- <-. cbn.
    pose proof (release_shard (breakers (flight w)) (tasks (flight w)) id t Hrng Ht) as Hrel.
    unfold task_abort in Hrel. rewrite (picks_lookup _ _ _ Ht) in Hp.
    destruct (t_phase t) as [| |q| | |]; try done. by injection Hp as ->.
Qed.

Lemma drain_pass_shard now id text shut_down w w' :
  worker_inv w -> picks_in_range (shard_of (flight w)) ->
  drain_pass now id text shut_down w = Some w' ->
  rtc shard_steps (shard_of (flight w)) (shard_of (flight w')).
Proof.
  intros Hinv Hrng. unfold drain_pass.
  pose proof (launch_all_shard (length (waiting (flight w))) w (wi_ok _ Hinv)) as Hl.
  set (w1 := launch_all _ w) in *. cbv zeta. clearbody w1. rewrite <- Hl in Hrng |- *.
  destruct (_ && _); [by intros [= <-]|].
  destruct (bool_decide (deadline _ = None) && _); [intros [= <-]; by apply sweep_shard|].
  destruct (ended _); [by intros ->%join_shard|].
  destruct (changed (watch w1)) as [[ok x]|]; [by intros [= <-]|].
  destruct (deadline (watch w1)) as [at_|]; [|by intros [= <-]].
  destruct (bool_decide _); intros [= <-]; [by apply sweep_shard|done].
Qed.

Lemma intake_pass_shard now id text w w' :
  worker_inv w -> seq_ w + Z.of_nat (length (rx w)) < U64_MAX ->
  intake_pass now id text w = Some w' -> shard_of (flight w') = shard_of (flight w).
Proof.
  intros Hinv Hmax. assert (Hdl : deadline_arm now w = Some w' -> shard_of (flight w') = shard_of (flight w)).
  { unfold deadline_arm. destruct (changed (watch w)) as [[ok x]|]; cbn; [|done]. intros [= <-].
    assert (worker_inv (set_watch x w)) by (by apply (worker_inv_frame w)).
    destruct (_ && _); [|done]. by rewrite begin_drain_shard. }
  assert (Hsel : intake_select now id text w = Some w' -> shard_of (flight w') = shard_of (flight w)).
  { unfold intake_select. destruct (ended _); [apply join_shard|]. destruct (bool_decide _).
    - destruct (launch_waiting w) as [w1|] eqn:Hl; [|done]. intros [= <-].
      by apply launch_shard; [apply Hinv|].
    - destruct (rx w) as [|c q] eqn:Hrx; [destruct (rx_open w)|].
      + destruct (deadline_arm now w) as [w1|]; [done|]. unfold linger_arm.
        destruct (linger_at w) as [[at_|]|]; [|done|done]. destruct (bool_decide _); [|done].
        intros [= <-]. apply dispatch_shard, Hinv.
      + intros [= <-]. apply begin_drain_shard; [done|]. by rewrite Hrx.
      + intros [= <-]. set (w0 := set_rx _ _ w).
        assert (Hinv0 : worker_inv w0) by (by apply (worker_inv_frame w)).
        apply (take_chunks_shard now (take 64 (c :: q)) w0); [apply Hinv0|apply Hinv0|].
        rewrite length_take. cbn [w0 set_rx seq_]. lia. }
  unfold intake_pass. destruct (linger_at w) as [[at_|]|]; [done| |done]. by intros [= <-].
Qed.

Lemma worker_op_shard o w w' :
  worker_inv w -> worker_room w -> picks_in_range (shard_of (flight w)) -> worker_op o w = Some w' ->
  rtc shard_steps (shard_of (flight w)) (shard_of (flight w')).
Proof.
  intros Hinv [Hroom Hep] Hrng. destruct o as [c| |at_| |o|id e|id|now id text sd|]; cbn [worker_op].
  - destruct (_ && _); [|done]. by intros [= <-].
  - destruct (alive w); [|done]. by intros [= <-].
  - destruct (sender_alive _); [|done]. by intros [= <-].
  - by intros [= <-].
  - by intros [= <-].
  - by apply task_event_shard.
  - destruct (alive w); [done|]. unfold task_aborted.
    destruct (tasks (flight w) !! id) as [t|] eqn:Ht; cbn; [|done]. intros [= <-].
    unfold shard_of. cbn. rewrite picks_delete. by apply release_shard.
  - destruct (stage w); [| |done|done].
    + intros Hp. rewrite (intake_pass_shard now id text w w' Hinv); [done|lia|done].
    + by apply drain_pass_shard.
  - destruct (alive w); [|done]. by intros [= <-].
Qed.

(** Every reachable worker drives its breakers through reachable states. *)
Lemma worker_shard_reachable n w :
  worker_reachable n w -> shard_reachable n (breaker cfg) (shard_of (flight w)).
Proof.
  intros (b & x & Hb & Hrun). exists b. split; [done|].
  pose proof (worker_new_ok b x) as H0.
  assert (Hr0 : picks_in_range (shard_of (flight (worker_new b x)))).
  { intros id p Hp. cbn in Hp. unfold picks_of in Hp. by rewrite lookup_omap, lookup_empty in Hp. }
  assert (Heq : Breaker.mkShard b ∅ = shard_of (flight (worker_new b x))).
  { unfold shard_of. cbn. unfold picks_of. by rewrite omap_empty. }
  rewrite Heq. clear Heq Hb. revert H0 Hr0.
  induction Hrun as [|w1 w2 w3 [Hroom [o Ho]] _ IH]; [done|]. intros H0 Hr0.
  pose proof (worker_op_shard o w1 w2 H0 Hroom Hr0 Ho) as Hst.
  etrans; [exact Hst|]. apply IH; [by eapply worker_op_ok|by eapply shard_steps_range].
Qed.

(** ** Handles and bytes *)

Definition all_chunks (w : Worker) : list (EncodedChunk T) := received w ++ rx w ++ dropped w.
Definition raw_total (cs : list (EncodedChunk T)) : Z := sumz (raw_len <$> cs).

(** The bytes of the batches [ss]. *)
Definition batch_bytes (w : Worker) (ss : list Z) : Z :=
  sumz ((fun s => bytes_of (default [] (sealed w !! Z.to_nat s))) <$> ss).

Definition resolved (w : Worker) : list Z := delivered (ledger w) ++ given_up (ledger w).

Definition refs_failed (w : Worker) (cs : list (EncodedChunk T)) : Prop :=
  Forall (failed_ref (l_world (ledger w))) (acks_of cs).

Record accounts_ok (w : Worker) : Prop := mk_accounts_ok {
ao_nonneg : Forall (fun c => 0 <= raw_len c) (all_chunks w);
ao_refs : Forall (fun r => r < fresh_ref (l_world (ledger w)))%nat (acks_of (all_chunks w));
ao_failed : forall s, s ∈ given_up (ledger w) -> sealed_as w s (refs_failed w);
ao_killed : stage w = Killed -> forall s, is_Some (pending (ledger w) !! s) -> sealed_as w s (refs_failed w);
ao_budget : stage w <> Killed -> raw_total (all_chunks w) <= U64_MAX ->
  l_budget (ledger w) = raw_total (all_chunks w) - batch_bytes w (resolved w)
}.

Lemma raw_total_app c1 c2 : raw_total (c1 ++ c2) = raw_total c1 + raw_total c2.
Proof. unfold raw_total. by rewrite fmap_app, sumz_app. Qed.

Lemma raw_total_nonneg cs : Forall (fun c => 0 <= raw_len c) cs -> 0 <= raw_total cs.
Proof. unfold raw_total, sumz. induction 1; cbn in *; lia. Qed.

Lemma acks_of_app c1 c2 : acks_of (c1 ++ c2) = acks_of c1 ++ acks_of c2.
Proof. unfold acks_of. by rewrite fmap_app, concat_app. Qed.

Lemma acks_of_concat ss cs : cs ∈ ss -> acks_of cs ⊆ acks_of (concat ss).
Proof.
  intros (s1 & s2 & ->)%list_elem_of_split r Hr.
  rewrite concat_app, acks_of_app, elem_of_app. right. cbn [concat]. rewrite acks_of_app, elem_of_app. by left.
Qed.

#[local] Instance sumz_proper : Proper ((≡ₚ) ==> (=)) sumz.
Proof. intros l1 l2 Hp. unfold sumz. induction Hp; cbn in *; lia. Qed.

Lemma batch_bytes_full w :
  batch_bytes w (Z.of_nat <$> seq 0 (length (sealed w))) = sumz (bytes_of <$> sealed w).
Proof.
  unfold batch_bytes. f_equal. rewrite <- list_fmap_compose. apply list_eq. intros i.
  rewrite !list_lookup_fmap. destruct (decide (i < length (sealed w))%nat) as [Hi|Hi].
  - rewrite lookup_seq_lt by done. destruct (lookup_lt_is_Some_2 _ _ Hi) as [cs Hcs].
    rewrite Hcs. cbn. by rewrite Nat2Z.id, Hcs.
  - rewrite lookup_seq_ge by lia. rewrite lookup_ge_None_2 by lia. done.
Qed.

(** Distinct batches hold no more bytes than were received. *)
Lemma batch_bytes_le w ss :
  Forall (fun c => 0 <= raw_len c) (concat (sealed w)) -> NoDup ss ->
  (forall s, s ∈ ss -> exists i : nat, s = Z.of_nat i /\ (i < length (sealed w))%nat) ->
  batch_bytes w ss <= raw_total (concat (sealed w)).
Proof.
  intros Hnn Hnd Hss. set (f := fun s => bytes_of (default [] (sealed w !! Z.to_nat s))).
  set (full := Z.of_nat <$> seq 0 (length (sealed w))).
  assert (Hsub : ss ⊆+ full).
  { apply NoDup_submseteq; [done|]. intros s Hs. destruct (Hss s Hs) as (i & -> & Hi).
    apply list_elem_of_fmap. exists i. split; [done|]. apply elem_of_seq. lia. }
  assert (Hf : forall s, 0 <= f s) by (intros s; apply Z.mod_pos_bound; lia).
  apply submseteq_Permutation in Hsub as [rest Hperm].
  assert (Hsum : batch_bytes w full = batch_bytes w ss + sumz (f <$> rest)).
  { unfold batch_bytes. fold f. by rewrite Hperm, fmap_app, sumz_app. }
  assert (Hrest : 0 <= sumz (f <$> rest)).
  { clear -Hf. unfold sumz. induction rest as [|s rest IH]; cbn; [lia|]. specialize (Hf s). lia. }
  pose proof (batch_bytes_full w) as Hall. fold full in Hall.
  assert (Hle : sumz (bytes_of <$> sealed w) <= raw_total (concat (sealed w))).
  { clear -Hnn. induction (sealed w) as [|cs ss IH]; [done|]. cbn [concat] in *. rewrite fmap_cons.
    apply Forall_app in Hnn as [H1 H2]. rewrite raw_total_app. specialize (IH H2).
    assert (bytes_of cs <= raw_total cs); [|unfold sumz in *; cbn [foldr]; lia].
    unfold bytes_of, wrap_u64. apply Z.mod_le; [by apply raw_total_nonneg|lia]. }
  lia.
Qed.

Lemma batch_bytes_nonneg w ss : 0 <= batch_bytes w ss.
Proof.
  unfold batch_bytes, sumz. induction ss as [|x ss IH]; cbn; [lia|].
  assert (0 <= bytes_of (default [] (sealed w !! Z.to_nat x))) by (apply Z.mod_pos_bound; lia). lia.
Qed.

(** A batch keeps its chunks as more are sealed. *)
Lemma batch_bytes_stable w w' ss :
  sealed w `prefix_of` sealed w' ->
  (forall s, s ∈ ss -> exists i : nat, s = Z.of_nat i /\ (i < length (sealed w))%nat) ->
  batch_bytes w' ss = batch_bytes w ss.
Proof.
  intros [k Hk] Hss. unfold batch_bytes. f_equal. apply list_fmap_ext. intros j s Hj.
  destruct (Hss s) as (i & -> & Hi); [by eapply list_elem_of_lookup_2|].
  rewrite Nat2Z.id, Hk, lookup_app_l by done. done.
Qed.

Lemma resolved_lt w s : ledger_ok w -> s ∈ resolved w -> exists i : nat, s = Z.of_nat i /\ (i < length (sealed w))%nat.
Proof.
  intros Hle Hs. apply (le_resolved _ Hle) in Hs as (_ & i & cs & -> & Hi & _). exists i.
  split; [done|]. by eapply lookup_lt_Some.
Qed.

Lemma sealed_as_prefix w w' s P :
  sealed_as w s P -> sealed w `prefix_of` sealed w' -> sealed_as w' s P.
Proof.
  intros (i & cs & -> & Hi & HP) [k Hk]. exists i, cs. split_and!; auto. rewrite Hk.
  by apply lookup_app_l_Some.
Qed.

(** Steps that move chunks along and touch neither handles nor bytes. *)
Lemma accounts_frame w w' :
  ledger_ok w -> accounts_ok w -> all_chunks w' ≡ₚ all_chunks w -> sealed w `prefix_of` sealed w' ->
  l_world (ledger w') = l_world (ledger w) -> l_budget (ledger w') = l_budget (ledger w) ->
  delivered (ledger w') = delivered (ledger w) -> given_up (ledger w') = given_up (ledger w) ->
  (stage w' = Killed -> stage w = Killed /\ pending (ledger w') = pending (ledger w)) ->
  (stage w' <> Killed -> stage w <> Killed) -> accounts_ok w'.
Proof.
  intros Hle [Hn Hr Hf Hk Hb] Ec Es Ew Eb Ed Eg Ek Ek'.
  assert (Hraw : raw_total (all_chunks w') = raw_total (all_chunks w)).
  { unfold raw_total. by rewrite Ec. }
  assert (Hpf : forall s, sealed_as w s (refs_failed w) -> sealed_as w' s (refs_failed w')).
  { intros s (i & cs & -> & Hi & HP). apply (sealed_as_prefix w); [|done]. exists i, cs.
    split_and!; auto. unfold refs_failed. by rewrite Ew. }
  constructor.
  - by rewrite Ec.
  - rewrite Ew. apply Forall_forall. intros r Hin. apply (proj1 (Forall_forall _ _) Hr).
    unfold acks_of in *. apply list_elem_of_In, in_concat in Hin as (x & Hx & Hrx).
    apply list_elem_of_In, in_concat. exists x. split; [|done].
    apply list_elem_of_In in Hx. apply list_elem_of_In.
    by rewrite <- (fmap_Permutation c_acks _ _ Ec).
  - intros s Hs. rewrite Eg in Hs. auto.
  - intros Hst s Hs. destruct (Ek Hst) as [Hst' Ep]. rewrite Ep in Hs. auto.
  - intros Hst. rewrite Hraw, Eb. intros Hmax. rewrite (Hb (Ek' Hst) Hmax). f_equal.
    unfold resolved. rewrite Ed, Eg. symmetry. apply batch_bytes_stable; [done|].
    intros s Hs. by apply (resolved_lt w).
Qed.

(** A step of the worker's intake moves chunks and keeps the accounts' fields. *)
Record intake_only (w w' : Worker) : Prop := mk_intake_only {
io_chunks : all_chunks w' ≡ₚ all_chunks w;
io_sealed : sealed w `prefix_of` sealed w';
io_world : l_world (ledger w') = l_world (ledger w);
io_budget : l_budget (ledger w') = l_budget (ledger w);
io_delivered : delivered (ledger w') = delivered (ledger w);
io_given_up : given_up (ledger w') = given_up (ledger w)
}.

Lemma intake_only_trans w1 w2 w3 : intake_only w1 w2 -> intake_only w2 w3 -> intake_only w1 w3.
Proof. intros [] []. constructor; try congruence; by etrans. Qed.

Lemma accounts_intake w w' :
  ledger_ok w -> accounts_ok w -> intake_only w w' -> stage w <> Killed -> stage w' <> Killed ->
  accounts_ok w'.
Proof. intros Hle Ha [] H1 H2. by apply (accounts_frame w). Qed.

Lemma dispatch_only now reason w : intake_only w (dispatch now reason w).
Proof.
  unfold dispatch. destruct (acc_is_empty _); [by constructor|]. cbn.
  destruct (waiting (flight w)) as [|x q]; [destruct (permits (flight w)) as [|n]|];
    (constructor; cbn; [done|by eexists|done..]).
Qed.

Lemma take_chunks_only now cs : forall w q,
  rx w = q -> intake_only (set_rx (cs ++ q) (rx_open w) w) (take_chunks now cs w).
Proof.
  induction cs as [|c cs IH]; intros w q <-; cbn [take_chunks foldl app].
  { by constructor. }
  set (w1 := mkWorker (stage w) (acc_push c now (acc w)) (seq_ w) (rx w) (rx_open w) (ledger w)
    (flight w) (watch w) (received w ++ [c]) (sealed w) (dropped w)).
  assert (Hd : intake_only w1 (take_chunk now c w) /\ rx (take_chunk now c w) = rx w).
  { unfold take_chunk. fold w1. destruct (seal_reason (acc w1)); [|by split; [constructor|]].
    split; [apply dispatch_only|]. unfold dispatch. destruct (acc_is_empty _); [done|]. cbn.
    by destruct (waiting (flight w)), (permits (flight w)). }
  destruct Hd as [Hd Hrx]. eapply intake_only_trans; [|exact (IH _ _ Hrx)].
  destruct Hd as [D1 D2 D3 D4 D5 D6]. constructor; cbn; auto.
  unfold all_chunks in *. cbn in *. rewrite Hrx in D1.
  assert (Hmv : forall a d : list (EncodedChunk T), a ++ (cs ++ rx w) ++ d ≡ₚ cs ++ a ++ rx w ++ d).
  { intros a d. by rewrite <- app_assoc, Permutation_app_swap_app. }
  rewrite Hmv, D1, <- !app_assoc. cbn. by rewrite (Permutation_app_swap_app cs), <- (Permutation_middle cs).
Qed.

(** Handles only move on: a world reached by holders' operations. *)
Lemma refs_failed_run w ops cs :
  Forall (failed_ref (l_world (ledger w))) (acks_of cs) ->
  Forall (failed_ref (ack_run ops (l_world (ledger w)))) (acks_of cs).
Proof. intros HF. eapply Forall_impl; [exact HF|]. intros r. apply failed_ref_run. Qed.

(** The handles of a sealed batch exist. *)
Lemma sealed_refs w i cs :
  intake_ok w -> accounts_ok w -> sealed w !! i = Some cs ->
  Forall (fun r => r < fresh_ref (l_world (ledger w)))%nat (acks_of cs).
Proof.
  intros Hin Ha Hi. apply Forall_forall. intros r Hr.
  apply (proj1 (Forall_forall _ _) (ao_refs _ Ha)). unfold all_chunks.
  rewrite acks_of_app, elem_of_app. left. rewrite (in_received _ Hin), acks_of_app, elem_of_app. left.
  eapply (acks_of_concat (sealed w) cs); [by eapply list_elem_of_lookup_2|done].
Qed.

Lemma accounts_world w w' ops :
  accounts_ok w -> all_chunks w' = all_chunks w -> sealed w' = sealed w -> stage w' = stage w ->
  pending (ledger w') = pending (ledger w) -> l_world (ledger w') = ack_run ops (l_world (ledger w)) ->
  l_budget (ledger w') = l_budget (ledger w) -> delivered (ledger w') = delivered (ledger w) ->
  given_up (ledger w') = given_up (ledger w) -> accounts_ok w'.
Proof.
  intros [Hn Hr Hf Hk Hb] Ec Es Est Ep Ew Eb Ed Eg.
  assert (Hpf : forall s, sealed_as w s (refs_failed w) -> sealed_as w' s (refs_failed w')).
  { intros s (i & cs & -> & Hi & HP). exists i, cs. rewrite Es. split_and!; auto.
    unfold refs_failed. rewrite Ew. by apply refs_failed_run. }
  constructor; rewrite ?Ec, ?Ew, ?Eg, ?Est, ?Ep, ?Eb; auto.
  - eapply Forall_impl; [exact Hr|]. intros r Hlt. cbn in Hlt.
    pose proof (ack_run_fresh ops (l_world (ledger w))). lia.
  - intros H1 H2. rewrite (Hb H1 H2). unfold batch_bytes, resolved. by rewrite Es, Ed, Eg.
Qed.

Lemma accounts_resolved w w' x p :
  intake_ok w -> ledger_ok w -> accounts_ok w -> stage w <> Killed -> pending (ledger w) !! x = Some p ->
  all_chunks w' = all_chunks w -> sealed w' = sealed w -> stage w' = stage w ->
  l_budget (ledger w') = sub (p_bytes p) (l_budget (ledger w)) ->
  (delivered (ledger w') = delivered (ledger w) ++ [x] /\ given_up (ledger w') = given_up (ledger w) /\
   l_world (ledger w') = AckSet_deliver (p_acks p) (l_world (ledger w)) \/
   delivered (ledger w') = delivered (ledger w) /\ given_up (ledger w') = given_up (ledger w) ++ [x] /\
   l_world (ledger w') = AckSet_drop (p_acks p) (l_world (ledger w))) ->
  accounts_ok w'.
Proof.
  intros Hin Hle Ha Hst Hx Ec Es Est Eb Hcase. pose proof Ha as [Hn Hr Hf _ Hb].
  destruct (le_pending _ Hle _ _ Hx) as (i & cs & -> & Hi & Epa & _ & Epb).
  assert (Hrun : exists ops, l_world (ledger w') = ack_run ops (l_world (ledger w))).
  { destruct Hcase as [(_ & _ & ->)|(_ & _ & ->)]; eexists; [apply AckSet_deliver_run|apply AckSet_drop_run]. }
  destruct Hrun as [ops Hrun].
  assert (Hold : forall s, s ∈ given_up (ledger w) -> sealed_as w' s (refs_failed w')).
  { intros s Hs. destruct (Hf s Hs) as (j & cs' & -> & Hj & HP). exists j, cs'. rewrite Es.
    split_and!; auto. unfold refs_failed. rewrite Hrun. by apply refs_failed_run. }
  assert (Hperm : resolved w' ≡ₚ Z.of_nat i :: resolved w).
  { unfold resolved. destruct Hcase as [(-> & -> & _)|(-> & -> & _)].
    - rewrite <- app_assoc. cbn. by rewrite <- Permutation_middle.
    - by rewrite app_assoc, <- Permutation_cons_append. }
  constructor; rewrite ?Ec, ?Est; auto; [| |done|].
  - rewrite Hrun. eapply Forall_impl; [exact Hr|]. intros r Hlt. cbn in Hlt.
    pose proof (ack_run_fresh ops (l_world (ledger w))). lia.
  - destruct Hcase as [(_ & -> & _)|(_ & -> & Ew)]; [done|].
    intros s [Hs| ->%list_elem_of_singleton]%elem_of_app; [auto|]. exists i, cs. rewrite Es.
    split_and!; auto. unfold refs_failed. rewrite Ew, Epa. apply Forall_forall. intros r Hrin.
    apply AckSet_drop_failed; [|done]. by apply (proj1 (Forall_forall _ _) (sealed_refs w i cs Hin Ha Hi)).
  - intros _ Hmax. rewrite Eb, (Hb Hst Hmax), Epb.
    assert (Hbb : batch_bytes w' (resolved w') = bytes_of cs + batch_bytes w (resolved w)).
    { unfold batch_bytes. rewrite Es, Hperm. cbn. by rewrite Nat2Z.id, Hi. }
    assert (Hle' : batch_bytes w (Z.of_nat i :: resolved w) <= raw_total (concat (sealed w))).
    { apply batch_bytes_le.
      - unfold all_chunks in Hn. rewrite (in_received _ Hin), <- app_assoc in Hn. by apply Forall_app in Hn as [Hn _].
      - apply NoDup_cons. split; [|apply Hle]. intros Hin'. destruct (le_resolved _ Hle _ Hin'). congruence.
      - intros s [->|Hs]%elem_of_cons; [|by apply resolved_lt]. exists i.
        split; [done|]. by eapply lookup_lt_Some. }
    assert (Hc : batch_bytes w (Z.of_nat i :: resolved w) = bytes_of cs + batch_bytes w (resolved w)).
    { unfold batch_bytes. cbn. by rewrite Nat2Z.id, Hi. }
    assert (Htot : raw_total (concat (sealed w)) <= raw_total (all_chunks w)).
    { unfold all_chunks in *. rewrite (in_received _ Hin), <- app_assoc in *. rewrite raw_total_app.
      apply Forall_app in Hn as [_ Hn]. pose proof (raw_total_nonneg _ Hn). lia. }
    rewrite Hbb. unfold sub, sat_sub. lia.
Qed.

Lemma launch_only w w' : launch_waiting w = Some w' -> intake_only w w'.
Proof.
  unfold launch_waiting. destruct (permits (flight w)); [done|].
  destruct (waiting (flight w)) as [|[x b] q]; [done|]. intros [= <-]. by constructor.
Qed.

Lemma launch_all_only fuel : forall w, intake_only w (launch_all fuel w).
Proof.
  induction fuel as [|fuel IH]; intros w; cbn [launch_all]; [by constructor|].
  destruct (launch_waiting w) as [w1|] eqn:Hl; [|by constructor].
  eapply intake_only_trans; [by apply launch_only|apply IH].
Qed.

Lemma begin_drain_only now w : intake_only w (begin_drain now w).
Proof.
  unfold begin_drain. set (w0 := set_rx [] (rx_open w) w).
  pose proof (take_chunks_only now (rx w) w0 [] eq_refl) as H1.
  pose proof (dispatch_only now FlushDrain (take_chunks now (rx w) w0)) as H2.
  pose proof (intake_only_trans _ _ _ H1 H2) as [D1 D2 D3 D4 D5 D6].
  constructor; cbn in *; auto. rewrite app_nil_r in D1. exact D1.
Qed.

Lemma deadline_arm_only now w w' : deadline_arm now w = Some w' -> intake_only w w'.
Proof.
  unfold deadline_arm. destruct (changed (watch w)) as [[ok x]|]; cbn; [|done]. intros [= <-].
  assert (intake_only w (set_watch x w)) by by constructor.
  destruct (_ && _); [|done]. eapply intake_only_trans; [done|apply begin_drain_only].
Qed.

Lemma join_accounts id text w w' :
  worker_ok w -> alive w = true -> accounts_ok w -> join_arm id text w = Some w' -> accounts_ok w'.
Proof.
  intros Hok Hal Ha. unfold join_arm. destruct (tasks (flight w) !! id) as [t|] eqn:Ht; cbn; [|done].
  destruct (running t) eqn:Hr; [done|]. intros [= <-].
  pose proof (wk_live _ Hok Hal) as [L1 L2 _ _ _]. pose proof (L1 id) as Hid. rewrite Ht in Hid. cbn in Hid.
  assert (Hpend : is_Some (pending (ledger w) !! t_seq t)) by (apply L2; right; eauto).
  destruct Hpend as [p Hp].
  assert (Hst : stage w <> Killed) by (intros Hk; unfold alive in Hal; by rewrite Hk in Hal).
  destruct (handle_join_cases id text t (ledger w) Hr Hid) as [[_ ->]|[_ [reason ->]]];
    apply (accounts_resolved w _ (t_seq t) p (wk_intake _ Hok) (wk_ledger _ Hok)); auto; cbn;
    unfold settle, abandon; cbn; rewrite Hp; auto.
Qed.

Lemma abandon_all_accounts reason keys : forall w,
  intake_ok w -> ledger_ok w -> accounts_ok w -> stage w <> Killed -> NoDup keys ->
  (forall x, x ∈ keys -> is_Some (pending (ledger w) !! x)) ->
  accounts_ok (set_ledger (foldl (fun l s => abandon s reason l) (ledger w) keys) w).
Proof.
  induction keys as [|k keys IH]; intros w Hin Hle Ha Hst Hnd Hall; cbn.
  { by apply (accounts_frame w). }
  apply NoDup_cons in Hnd as [Hk Hnd]. destruct (Hall k) as [p Hp]; [by left|].
  destruct (abandon_fields k reason _ _ Hp) as (E1 & E2 & E3 & E4 & E5 & E6 & E7).
  set (w1 := set_ledger (abandon k reason (ledger w)) w).
  apply (IH w1); auto.
  - by apply (intake_ok_frame w).
  - eapply (resolved_ledger w); cbn; eauto. right. rewrite E3, E4, E5, E6, E7. split_and!; eauto.
  - apply (accounts_resolved w w1 k p); auto; cbn; unfold abandon; rewrite Hp; auto.
  - intros x Hx. cbn. rewrite E1, lookup_delete_ne by (intros ->; done). apply Hall. by right.
Qed.

Lemma stop_accounts w : ledger_ok w -> accounts_ok w -> stage w <> Killed -> accounts_ok (stop w).
Proof.
  intros Hle Ha Hst. destruct (AckSets_drop_run (c_acks <$> rx w) (l_world (ledger w))) as [ops Hops].
  set (w1 := set_ledger (set_world (AckSets_drop (c_acks <$> rx w) (l_world (ledger w))) (ledger w)) w).
  assert (Ha1 : accounts_ok w1) by (by apply (accounts_world w w1 ops)).
  apply (accounts_frame w1); auto; [by apply (ledger_ok_frame w)| |done].
  unfold all_chunks. cbn. by rewrite (Permutation_app_comm (dropped w)).
Qed.

Lemma sweep_accounts shut_down w :
  worker_ok w -> accounts_ok w -> stage w <> Killed -> accounts_ok (stop (sweep shut_down w)).
Proof.
  intros [Hin Hle _ _] Ha Hst. set (keys := (map_to_list (pending (ledger w))).*1).
  assert (Hnd : NoDup keys) by apply NoDup_fst_map_to_list.
  assert (Hall : forall x, x ∈ keys -> is_Some (pending (ledger w) !! x)).
  { intros x ([k v] & -> & Hkv)%list_elem_of_fmap. apply elem_of_map_to_list in Hkv. by exists v. }
  pose proof (abandon_all_accounts swept keys w Hin Hle Ha Hst Hnd Hall) as Ha1.
  destruct (abandon_all_ok swept keys w Hle Hnd Hall) as (Hle1 & _).
  set (w1 := set_ledger _ w) in *. apply stop_accounts.
  - by apply (ledger_ok_frame w1).
  - by apply (accounts_frame w1).
  - done.
Qed.

Lemma kill_accounts w : worker_ok w -> accounts_ok w -> accounts_ok (kill w).
Proof.
  intros [Hin Hle _ _] Ha. pose proof Ha as [Hn Hr Hf _ _].
  set (ps := (map_to_list (pending (ledger w))).*2). set (x0 := l_world (ledger w)).
  set (x1 := AckSets_drop (p_acks <$> ps) x0).
  destruct (AckSets_drop_run (p_acks <$> ps) x0) as [ops0 H0]. fold x1 in H0.
  destruct (AckSets_drop_run (c_acks <$> rx w) (AckSet_drop (a_acks (acc w)) x1)) as [ops2 H2].
  rewrite AckSet_drop_run in H2. set (ops1 := _ ++ _) in H2.
  assert (Ew : l_world (ledger (kill w)) = ack_run (ops1 ++ ops2) x1).
  { change (l_world (ledger (kill w)))
      with (AckSets_drop (c_acks <$> rx w) (AckSet_drop (a_acks (acc w)) x1)).
    rewrite AckSet_drop_run. fold ops1. rewrite H2. unfold ack_run. by rewrite (foldl_app _ ops1). }
  assert (Ew0 : l_world (ledger (kill w)) = ack_run (ops0 ++ ops1 ++ ops2) x0).
  { rewrite Ew, H0. unfold ack_run. by rewrite (foldl_app _ ops0). }
  constructor.
  - unfold all_chunks in *. cbn. by rewrite (Permutation_app_comm (dropped w)).
  - rewrite Ew0. change (all_chunks (kill w)) with (received w ++ dropped w ++ rx w).
    unfold all_chunks in Hr. rewrite !acks_of_app, !Forall_app in Hr |- *.
    destruct Hr as (R1 & R2 & R3).
    assert (Hm : forall cs, Forall (fun r => (r < fresh_ref x0)%nat) (acks_of cs) ->
      Forall (fun r => (r < fresh_ref (ack_run (ops0 ++ ops1 ++ ops2) x0))%nat) (acks_of cs)).
    { intros cs HF. eapply Forall_impl; [exact HF|]. intros r Hlt. cbn in Hlt.
      pose proof (ack_run_fresh (ops0 ++ ops1 ++ ops2) x0). lia. }
    split_and!; auto.
  - intros s Hs. destruct (Hf s Hs) as (i & cs & -> & Hi & HP). exists i, cs. split_and!; auto.
    unfold refs_failed. rewrite Ew0. by apply refs_failed_run.
  - intros _ s [p Hp]. destruct (le_pending _ Hle _ _ Hp) as (i & cs & -> & Hi & Epa & _).
    exists i, cs. split_and!; auto. unfold refs_failed. rewrite Ew. apply Forall_forall. intros r Hrin.
    apply failed_ref_run. apply AckSets_drop_failed.
    + by apply (proj1 (Forall_forall _ _) (sealed_refs w i cs Hin Ha Hi)).
    + apply elem_of_sets. exists (p_acks p). rewrite Epa. split; [|done].
      rewrite <- Epa. apply list_elem_of_fmap. exists p. split; [done|]. apply list_elem_of_fmap.
      exists (Z.of_nat i, p). split; [done|]. by apply elem_of_map_to_list.
  - done.
Qed.

Lemma dispatch_stage now reason w : stage (dispatch now reason w) = stage w.
Proof.
  unfold dispatch. destruct (acc_is_empty _); [done|]. cbn.
  by destruct (waiting (flight w)), (permits (flight w)).
Qed.

Lemma take_chunks_stage now cs : forall w, stage (take_chunks now cs w) = stage w.
Proof.
  induction cs as [|c cs IH]; intros w; cbn [take_chunks foldl]; [done|].
  change (stage (take_chunks now cs (take_chunk now c w)) = stage w). rewrite IH. unfold take_chunk.
  destruct (seal_reason _); [|done]. by rewrite dispatch_stage.
Qed.

Lemma intake_select_stage now id text w w' :
  stage w = Intake -> intake_select now id text w = Some w' -> stage w' <> Killed.
Proof.
  intros Hst. assert (Hdl : deadline_arm now w = Some w' -> stage w' <> Killed).
  { unfold deadline_arm. destruct (changed (watch w)) as [[ok x]|]; cbn; [|done]. intros [= <-].
    destruct (_ && _); cbn; [done|by rewrite Hst]. }
  unfold intake_select. destruct (ended _).
  { unfold join_arm. destruct (tasks (flight w) !! id) as [t|]; cbn; [|done].
    destruct (running t); [done|]. intros [= <-]. cbn. by rewrite Hst. }
  destruct (bool_decide _).
  { unfold launch_waiting. destruct (permits (flight w)); [done|].
    destruct (waiting (flight w)) as [|[x b] q]; [done|]. intros [= <-]. cbn. by rewrite Hst. }
  destruct (rx w) as [|c q]; [destruct (rx_open w)|].
  - destruct (deadline_arm now w) as [w1|]; [done|].
    unfold linger_arm. destruct (linger_at w) as [[at_|]|]; [|done|done].
    destruct (bool_decide _); [|done]. intros [= <-]. by rewrite dispatch_stage, Hst.
  - by intros [= <-].
  - intros Heq.
    assert (Hw' : w' = take_chunks now (take 64 (c :: q)) (set_rx (drop 64 (c :: q)) (rx_open w) w))
      by congruence.
    rewrite Hw', take_chunks_stage. cbn. by rewrite Hst.
Qed.

(** The open batch's handles fail with the worker. *)
Lemma kill_open w :
  intake_ok w -> accounts_ok w ->
  Forall (failed_ref (l_world (ledger (kill w)))) (acks_of (a_chunks (acc w))).
Proof.
  intros Hin Ha. set (ps := (map_to_list (pending (ledger w))).*2).
  set (x1 := AckSets_drop (p_acks <$> ps) (l_world (ledger w))).
  change (l_world (ledger (kill w)))
    with (AckSets_drop (c_acks <$> rx w) (AckSet_drop (a_acks (acc w)) x1)).
  destruct (AckSets_drop_run (c_acks <$> rx w) (AckSet_drop (a_acks (acc w)) x1)) as [ops ->].
  apply Forall_forall. intros r Hr. apply failed_ref_run, AckSet_drop_failed.
  - unfold x1. destruct (AckSets_drop_run (p_acks <$> ps) (l_world (ledger w))) as [ops1 ->].
    pose proof (ack_run_fresh ops1 (l_world (ledger w))).
    assert (r < fresh_ref (l_world (ledger w)))%nat; [|lia].
    apply (proj1 (Forall_forall _ _) (ao_refs _ Ha)). unfold all_chunks.
    rewrite (in_received _ Hin), !acks_of_app, !elem_of_app. auto.
  - by rewrite (ac_acks _ (in_acc _ Hin)).
Qed.

Lemma intake_pass_accounts now id text w w' :
  worker_inv w -> accounts_ok w -> stage w = Intake ->
  intake_pass now id text w = Some w' -> accounts_ok w'.
Proof.
  intros Hinv Ha Hst. pose proof (wi_ok _ Hinv) as Hok. pose proof (wk_ledger _ Hok) as Hle.
  assert (Hnk : stage w <> Killed) by congruence.
  assert (Hsel : intake_select now id text w = Some w' -> accounts_ok w').
  { intros Hs. pose proof (intake_select_stage now id text w w' Hst Hs) as Hk. revert Hs.
    assert (Honly : intake_only w w' -> accounts_ok w') by (intros Ho; by apply (accounts_intake w)).
    unfold intake_select. destruct (ended _).
    { apply join_accounts; auto. unfold alive. by rewrite Hst. }
    destruct (bool_decide _).
    { destruct (launch_waiting w) as [w1|] eqn:Hl; [|by intros ?%deadline_arm_only; auto].
      intros [= <-]. by apply launch_only in Hl; auto. }
    destruct (rx w) as [|c q] eqn:Hrx; [destruct (rx_open w)|].
    - destruct (deadline_arm now w) as [w1|] eqn:Hd.
      + intros [= <-]. by apply deadline_arm_only in Hd; auto.
      + unfold linger_arm. destruct (linger_at w) as [[at_|]|]; [|done|done].
        destruct (bool_decide _); [|done]. intros [= <-]. apply Honly, dispatch_only.
    - intros [= <-]. apply Honly, begin_drain_only.
    - intros Heq. apply Honly.
      assert (Hw' : w' = take_chunks now (take 64 (c :: q)) (set_rx (drop 64 (c :: q)) (rx_open w) w))
        by congruence. rewrite Hw'.
      pose proof (take_chunks_only now (take 64 (c :: q)) (set_rx (drop 64 (c :: q)) (rx_open w) w) _ eq_refl)
        as Ht. cbn [rx set_rx rx_open] in Ht. rewrite take_drop, <- Hrx in Ht. rewrite <- Hrx.
      destruct Ht. by constructor. }
  unfold intake_pass. destruct (linger_at w) as [[at_|]|]; auto.
  intros [= <-]. by apply kill_accounts.
Qed.

Lemma drain_pass_accounts now id text shut_down w w' :
  worker_inv w -> accounts_ok w -> stage w = Draining ->
  drain_pass now id text shut_down w = Some w' -> accounts_ok w'.
Proof.
  intros Hinv Ha Hst. pose proof (wi_ok _ Hinv) as Hok. unfold drain_pass.
  destruct (launch_all_ok (length (waiting (flight w))) w Hok) as (H1 & H2 & H3 & H4 & H5).
  pose proof (launch_all_only (length (waiting (flight w))) w) as Ho.
  set (w1 := launch_all _ w) in *. cbv zeta. clearbody w1.
  assert (Hnk : stage w1 <> Killed) by (rewrite H3, Hst; done).
  assert (Ha1 : accounts_ok w1).
  { apply (accounts_intake w); auto; [apply Hok|by rewrite Hst]. }
  pose proof (wk_ledger _ H1) as Hle1.
  destruct (_ && _); [intros [= <-]; by apply stop_accounts|].
  destruct (bool_decide (deadline _ = None) && _); [intros [= <-]; by apply sweep_accounts|].
  destruct (ended _).
  { apply join_accounts; auto. unfold alive. by rewrite H3, Hst. }
  destruct (changed (watch w1)) as [[ok x]|]; [intros [= <-]; by apply (accounts_frame w1)|].
  destruct (deadline (watch w1)) as [at_|]; [|by intros [= <-]].
  destruct (bool_decide _); intros [= <-]; [by apply sweep_accounts|done].
Qed.

Lemma send_accounts c w :
  ledger_ok w -> accounts_ok w -> stage w <> Killed -> chunk_in c w = true -> accounts_ok (send_chunk c w).
Proof.
  intros Hle Ha Hst Hin. pose proof Ha as [Hn Hr Hf _ Hb].
  apply andb_true_iff in Hin as [[_ Hraw%bool_decide_eq_true]%andb_true_iff Hrefs].
  assert (Hperm : all_chunks (send_chunk c w) ≡ₚ c :: all_chunks w).
  { unfold all_chunks. cbn. rewrite <- app_assoc. cbn. by rewrite <- !Permutation_middle. }
  constructor; [| |exact Hf|intros Hk; by destruct (Hst Hk)|].
  - rewrite Hperm. by constructor.
  - apply Forall_forall. intros r Hr'. cbn [send_chunk set_rx set_ledger ledger l_world]. unfold acks_of in Hr'. apply list_elem_of_In, in_concat in Hr' as (x & Hx & Hrx).
    apply list_elem_of_In in Hx, Hrx. rewrite (fmap_Permutation c_acks _ _ Hperm) in Hx. cbn in Hx.
    apply elem_of_cons in Hx as [->|Hx].
    + rewrite forallb_forall in Hrefs. by apply list_elem_of_In, Hrefs, bool_decide_eq_true in Hrx.
    + apply (proj1 (Forall_forall _ _) Hr). apply elem_of_sets. eauto.
  - assert (Htot : raw_total (all_chunks (send_chunk c w)) = raw_len c + raw_total (all_chunks w)).
    { unfold raw_total. by rewrite Hperm. }
    rewrite Htot. intros _ Hmax. cbn [send_chunk set_rx set_ledger ledger l_budget].
    unfold add, sat_add_u64. rewrite Hb by (auto; lia).
    change (batch_bytes (send_chunk c w) (resolved (send_chunk c w))) with (batch_bytes w (resolved w)).
    pose proof (batch_bytes_nonneg w (resolved w)). lia.
Qed.

Lemma worker_op_accounts o w w' :
  worker_inv w -> accounts_ok w -> worker_op o w = Some w' -> accounts_ok w'.
Proof.
  intros Hinv Ha. pose proof (wi_ok _ Hinv) as Hok. pose proof (wk_ledger _ Hok) as Hle.
  destruct o as [c| |at_| |o|id e|id|now id text sd|]; cbn [worker_op].
  - destruct (alive w) eqn:Hal; [|done]. destruct (chunk_in c w) eqn:Hc; [|done]. intros [= <-].
    apply send_accounts; auto. unfold alive in Hal. by destruct (stage w).
  - destruct (alive w); [|done]. intros [= <-]. by apply (accounts_frame w).
  - destruct (sender_alive _); [|done]. intros [= <-]. by apply (accounts_frame w).
  - intros [= <-]. by apply (accounts_frame w).
  - intros [= <-]. by apply (accounts_world w _ [o]).
  - unfold task_event. destruct (tasks (flight w) !! id) as [t|]; cbn; [|done].
    destruct (task_step _ _ e t _) as [[t' b]|]; cbn; [|done]. intros [= <-]. by apply (accounts_frame w).
  - destruct (alive w); [done|]. unfold task_aborted.
    destruct (tasks (flight w) !! id) as [t|]; cbn; [|done]. intros [= <-]. by apply (accounts_frame w).
  - destruct (stage w) eqn:Hst; [| |done|done].
    + by apply intake_pass_accounts.
    + by apply drain_pass_accounts.
  - destruct (alive w); [|done]. intros [= <-]. by apply kill_accounts.
Qed.

Lemma worker_reachable_accounts n w : worker_reachable n w -> accounts_ok w.
Proof.
  intros (b & x & _ & Hrun). pose proof (worker_new_ok b x) as H0.
  assert (Ha0 : accounts_ok (worker_new b x)).
  { constructor; cbn; try constructor; try done. by intros s ?%elem_of_nil. }
  revert H0 Ha0. induction Hrun as [|w1 w2 w3 [Hroom [o Ho]] _ IH]; [done|]. intros H0 Ha0.
  apply IH; [by eapply worker_op_ok|by eapply worker_op_accounts].
Qed.

(** ** The drain ends *)

Definition drain_by_pass (now : Z) (shut_down : bool) (w w' : Worker) : Prop :=
  exists id text, drain_pass now id text shut_down w = Some w'.

Definition drain_left (w : Worker) : nat :=
  (size (tasks (flight w)) + length (waiting (flight w)) + (if unseen (watch w) then 1 else 0) +
   (if deadline_watch_live (watch w) then 1 else 0))%nat.

Lemma ended_task ts : ended ts = true -> exists id t, ts !! id = Some t /\ running t = false.
Proof.
  unfold ended. intros Hlt%bool_decide_eq_true.
  destruct (decide (map_Forall (fun _ t => running t = true) ts)) as [Hall|Hno].
  - unfold running_tasks in Hlt. rewrite map_filter_id in Hlt; [lia|]. intros id t Ht. by apply (Hall id).
  - apply map_not_Forall in Hno as (id & t & Ht & Hr); [|solve_decision]. exists id, t.
    split; [done|]. by destruct (running t).
Qed.

Lemma launch_all_left fuel : forall w,
  flight_ok w -> worker_ok w ->
  drain_left (launch_all fuel w) = drain_left w /\ watch (launch_all fuel w) = watch w.
Proof.
  induction fuel as [|fuel IH]; intros w Hfl Hok; cbn [launch_all]; [done|].
  destruct (launch_waiting w) as [w1|] eqn:Hl; [|done].
  destruct (launch_ok w w1 Hok Hl) as (Hok1 & _ & _ & _ & _ & _ & Hlen).
  destruct (IH w1 (wk_flight _ Hok1) Hok1) as [-> ->].
  unfold launch_waiting in Hl. destruct (permits (flight w)); [done|].
  destruct (waiting (flight w)) as [|[x b] q] eqn:Hq; [done|]. injection Hl as <-. split; [|done].
  unfold drain_left. cbn. rewrite map_size_insert_None by (apply Hfl; lia). rewrite Hq. cbn. lia.
Qed.

(** A pass after the deadline stops the worker or leaves less to do. *)
Lemma drain_progress now shut_down w at_ :
  worker_inv w -> stage w = Draining -> deadline (watch w) = Some at_ -> at_ <= now ->
  exists w', drain_by_pass now shut_down w w' /\
    (stage w' = Stopped \/
     stage w' = Draining /\ deadline (watch w') = Some at_ /\ (drain_left w' < drain_left w)%nat).
Proof.
  intros Hinv Hst Hdl Hle. pose proof (wi_ok _ Hinv) as Hok. unfold drain_by_pass, drain_pass.
  destruct (launch_all_ok (length (waiting (flight w))) w Hok) as (H1 & H2 & H3 & H4 & H5).
  destruct (launch_all_left (length (waiting (flight w))) w (wk_flight _ Hok) Hok) as [Hleft Hwatch].
  set (w1 := launch_all _ w) in *. cbv zeta. clearbody w1. rewrite <- Hleft, Hwatch, Hdl.
  destruct (_ && _); [exists (stop w1); split; [by exists 0%nat, ""|by left]|].
  rewrite bool_decide_false by done. cbn [andb].
  destruct (ended (tasks (flight w1))) eqn:He.
  { destruct (ended_task _ He) as (id & t & Ht & Hr).
    assert (Hj : is_Some (join_arm id "" w1)) by (unfold join_arm; rewrite Ht; cbn; rewrite Hr; by eexists).
    destruct Hj as [w2 Hj]. exists w2. split; [by exists id, ""|]. right.
    assert (Hal : alive w1 = true) by (unfold alive; by rewrite H3, Hst).
    destruct (join_ok id "" w1 w2 H1 Hal Hj) as (G1 & _ & G3 & _ & _ & G6 & G7).
    assert (Hw2 : watch w2 = watch w1).
    { unfold join_arm in Hj. rewrite Ht in Hj. cbn in Hj. rewrite Hr in Hj. by injection Hj as <-. }
    split_and!; [congruence|congruence|]. unfold drain_left. rewrite G6, G7, Hw2. lia. }
  destruct (changed (watch w)) as [[ok x]|] eqn:Hch.
  - exists (set_watch x w1). split; [by exists 0%nat, ""|]. right. split; [cbn; congruence|].
    unfold changed in Hch. unfold drain_left. cbn. rewrite Hwatch.
    destruct (deadline_watch_live (watch w)); [|done]. destruct (unseen (watch w)).
    + injection Hch as <- <-. cbn. split; [done|lia].
    + destruct (sender_alive (watch w)); [done|]. injection Hch as <- <-. cbn. split; [done|lia].
  - rewrite bool_decide_true by done. exists (stop (sweep shut_down w1)).
    split; [by exists 0%nat, ""|by left].
Qed.

Lemma drain_stops now shut_down at_ k : forall w,
  (drain_left w < k)%nat -> worker_inv w -> stage w = Draining -> deadline (watch w) = Some at_ ->
  at_ <= now -> exists w', rtc (drain_by_pass now shut_down) w w' /\ stage w' = Stopped /\ worker_inv w'.
Proof.
  induction k as [|k IH]; intros w Hk Hinv Hst Hdl Hle; [lia|].
  destruct (drain_progress now shut_down w at_ Hinv Hst Hdl Hle) as (w1 & Hs & Hcase).
  assert (Hinv1 : worker_inv w1) by (destruct Hs as (id & text & Hp); by eapply drain_pass_ok).
  destruct Hcase as [Hstop|(Hst1 & Hdl1 & Hlt)].
  - exists w1. split_and!; auto. by apply rtc_once.
  - destruct (IH w1) as (w' & Hrun & Hw'); [lia|done..|]. exists w'. split; [|done]. by eapply rtc_l.
Qed.

(** ** What the worker promises *)
Lemma token_inj s1 s2 : token s1 = token s2 -> s1 = s2.
Proof. unfold token. intros H. apply (inj _) in H. by apply (inj pretty) in H. Qed.

(** Stopped, every batch is resolved, once. *)
Lemma resolved_all w :
  ledger_ok w -> pending (ledger w) = ∅ -> resolved w ≡ₚ Z.of_nat <$> seq 0 (length (sealed w)).
Proof.
  intros Hle Hp. apply NoDup_Permutation.
  - apply Hle.
  - apply NoDup_fmap_2; [|apply NoDup_seq]. intros i j. lia.
  - intros x. rewrite list_elem_of_fmap. split.
    + intros Hx. destruct (resolved_lt w x Hle Hx) as (i & -> & Hi). exists i. split; [done|].
      apply elem_of_seq. lia.
    + intros (i & -> & Hi%elem_of_seq). destruct (le_all _ Hle i) as [[p Hs]|]; [lia| |done].
      by rewrite Hp, lookup_empty in Hs.
Qed.

Lemma bytes_all w :
  Forall (fun c => 0 <= raw_len c) (concat (sealed w)) -> raw_total (concat (sealed w)) <= U64_MAX ->
  batch_bytes w (Z.of_nat <$> seq 0 (length (sealed w))) = raw_total (concat (sealed w)).
Proof.
  intros Hnn Hmax. rewrite batch_bytes_full.
  revert Hnn Hmax. induction (sealed w) as [|cs ss IH]; intros Hnn Hmax; [done|].
  cbn [concat] in *. rewrite fmap_cons. apply Forall_app in Hnn as [H1 H2]. rewrite raw_total_app in *.
  pose proof (raw_total_nonneg _ H1). pose proof (raw_total_nonneg _ H2).
  change (sumz (bytes_of cs :: (bytes_of <$> ss))) with (bytes_of cs + sumz (bytes_of <$> ss)).
  rewrite IH by (auto; lia). f_equal. apply wrap_u64_small. unfold raw_total in *. unfold_int. lia.
Qed.

(** C25: no chunk is lost or written twice by two batches, and every batch is
    resolved at most once. Whatever the interleaving of intake, write tasks,
    panics, drain and kill: the chunks received are, in order, those of the
    sealed batches and the open one; each sealed batch is in exactly one of
    pending, delivered and abandoned; a task writes exactly the frames of its
    batch's chunks under that batch's own token. *)
Theorem worker_resolves_once (n : nat) (w : Worker) :
  worker_reachable n w ->
  received w = concat (sealed w) ++ a_chunks (acc w) /\
  NoDup (delivered (ledger w) ++ given_up (ledger w)) /\
  (forall i cs, sealed w !! i = Some cs ->
     cs <> [] /\ (is_Some (pending (ledger w) !! Z.of_nat i) <->
                  Z.of_nat i ∉ delivered (ledger w) ++ given_up (ledger w))) /\
  (forall id t, tasks (flight w) !! id = Some t -> exists i cs, t_seq t = Z.of_nat i /\
     sealed w !! i = Some cs /\
     t_batch t = mkBatch (frame <$> cs) (rows_of cs) (bytes_of cs) (token (Z.of_nat i))) /\
  (forall i j, token i = token j -> i = j).
Proof.
  intros Hr. destruct (worker_reachable_inv n w Hr) as [[Hin Hle Hfl _] _ _ _].
  split_and!; [apply Hin|apply Hle| | |apply token_inj].
  - intros i cs Hi. split; [by apply (Forall_lookup_1 _ _ _ _ (in_sealed _ Hin) Hi)|]. split.
    + intros [p Hp] Hres. destruct (le_resolved _ Hle _ Hres). congruence.
    + intros Hno. destruct (le_all _ Hle i) as [|]; [by eapply lookup_lt_Some|done|done].
  - intros id t Ht. destruct (fl_task _ Hfl id t Ht) as [(i & cs & Es & Hi & Hb) _].
    exists i, cs. split_and!; auto. rewrite <- Es. done.
Qed.

(** C24: a batch is acknowledged as delivered only if its write returned [Ok].
    Every other end fails its source batches for good: the handles of every
    batch abandoned, or still pending when the worker was killed, are dropped
    or marked failed, whatever their other holders do since. *)
Theorem worker_delivers_only_written (n : nat) (w : Worker) :
  worker_reachable n w ->
  (forall s, s ∈ delivered (ledger w) -> s ∈ written (flight w)) /\
  (forall s, s ∈ given_up (ledger w) \/ stage w = Killed /\ is_Some (pending (ledger w) !! s) ->
     exists i cs, s = Z.of_nat i /\ sealed w !! i = Some cs /\
       Forall (failed_ref (l_world (ledger w))) (acks_of cs)).
Proof.
  intros Hr. pose proof (worker_reachable_accounts n w Hr) as Ha.
  destruct (worker_reachable_inv n w Hr) as [[_ _ Hfl _] _ _ _]. split; [apply Hfl|].
  intros s [Hs|[Hk Hs]]; [by apply Ha|by apply (ao_killed _ Ha)].
Qed.

(** C26: a worker that stopped accounts for everything. Nothing is pending; each
    batch it ever sealed was delivered or abandoned, and its report counts
    them; every chunk it received was in one of them; the budget is left with
    exactly what it never took off the queue; and if it abandoned anything,
    the reason is on record. *)
Theorem worker_stops_clean (n : nat) (w : Worker) :
  worker_reachable n w -> stage w = Stopped ->
  pending (ledger w) = ∅ /\ received w = concat (sealed w) /\
  delivered (ledger w) ++ given_up (ledger w) ≡ₚ Z.of_nat <$> seq 0 (length (sealed w)) /\
  flushed (ledger w) = wrap_u64 (Z.of_nat (length (delivered (ledger w)))) /\
  abandoned (ledger w) = wrap_u64 (Z.of_nat (length (given_up (ledger w)))) /\
  (raw_total (received w ++ rx w ++ dropped w) <= U64_MAX ->
   l_budget (ledger w) = raw_total (rx w ++ dropped w)) /\
  (given_up (ledger w) <> [] -> exists reason, (sink, reason) ∈ l_failures (ledger w)).
Proof.
  intros Hr Hst. pose proof (worker_reachable_accounts n w Hr) as Ha.
  destruct (worker_reachable_inv n w Hr) as [[Hin Hle _ _] _ Hdr Hstop].
  specialize (Hstop Hst). specialize (Hdr (or_intror Hst)).
  assert (Hrec : received w = concat (sealed w)).
  { by rewrite (in_received _ Hin), Hdr, app_nil_r. }
  pose proof (resolved_all w Hle Hstop) as Hres.
  destruct (le_report _ Hle) as [Hf Hab].
  split_and!; auto; [|apply Hle]. intros Hmax.
  pose proof (ao_nonneg _ Ha) as Hnn. unfold all_chunks in Hnn. apply Forall_app in Hnn as [H1 H2].
  rewrite (ao_budget _ Ha); [|by rewrite Hst|done]. unfold all_chunks in *. rewrite raw_total_app in *.
  pose proof (raw_total_nonneg _ H2). rewrite Hrec in *.
  unfold batch_bytes in *. rewrite Hres. fold (batch_bytes w (Z.of_nat <$> seq 0 (length (sealed w)))).
  rewrite bytes_all by (auto; lia). lia.
Qed.

(** C38: once its deadline has passed, a draining worker stops by itself. In
    finitely many passes of its loop, with no write ever returning, it reaches
    the end with nothing pending. *)
Theorem worker_drain_terminates (n : nat) (w : Worker) (now at_ : Z) (shut_down : bool) :
  worker_reachable n w -> stage w = Draining -> deadline (watch w) = Some at_ -> at_ <= now ->
  exists w', rtc (drain_by_pass now shut_down) w w' /\ stage w' = Stopped /\ pending (ledger w') = ∅.
Proof.
  intros Hr%worker_reachable_inv Hst Hdl Hle.
  destruct (drain_stops now shut_down at_ (S (drain_left w)) w) as (w' & Hrun & Hs & Hinv); auto.
  exists w'. split_and!; auto. by apply Hinv.
Qed.

(** batches respect their thresholds up to one chunk. In every sealed batch
    and in the open one, each proper prefix of the chunks is below both
    [max_rows] and [max_bytes], and between passes the open batch is below them
    itself. *)
Theorem worker_seals_at_threshold (n : nat) (w : Worker) (cs : list (EncodedChunk T)) (k : nat) :
  worker_reachable n w -> cs ∈ sealed w \/ cs = a_chunks (acc w) ->
  ((0 < k < length cs)%nat \/ cs = a_chunks (acc w) /\ (0 < k <= length cs)%nat) ->
  rows_of (take k cs) < max_rows (batch cfg) /\ bytes_of (take k cs) < max_bytes (batch cfg).
Proof.
  intros Hr Hcs Hk. destruct (worker_reachable_inv n w Hr) as [[Hin _ _ _] Hfit _ _].
  assert (Hdue : due cs).
  { destruct Hcs as [Hcs| ->]; [|apply Hin]. by apply (proj1 (Forall_forall _ _) (in_sealed _ Hin)). }
  destruct Hk as [Hk|[-> Hk]]; [by apply Hdue|].
  destruct (decide (k = length (a_chunks (acc w)))) as [->|Hne]; [|apply Hdue; lia].
  rewrite firstn_all. destruct Hfit as [Hnil|]; [|done]. rewrite Hnil in Hk. cbn in Hk. lia.
Qed.

(** the worker never leaks a probe slot of its breakers. Whatever its write
    tasks do, panic or are aborted at the deadline: a half-open replica counts
    exactly the tasks writing to it as probes of its current run, and never
    more than the budget. *)
Theorem worker_probes_exact (n : nat) (w : Worker) (r : nat) (k ep : Z) :
  half_open_probes (breaker cfg) <= U32_MAX -> worker_reachable n w ->
  states (breakers (flight w)) !! r = Some (HalfOpen k ep) ->
  k = Z.of_nat (map_count (picks_of (tasks (flight w))) (mkPick r (Some ep))) /\
  k <= half_open_probes (Breaker.cfg (breakers (flight w))).
Proof.
  intros Hu Hr%worker_shard_reachable Hs.
  destruct (shard_inv_reachable _ _ _ Hu Hr) as [_ Hc _ _ _ _].
  by destruct (Hc r k ep Hs) as (? & ? & _).
Qed.

(** A linger past the range of [Instant] unwinds the worker: once a batch is open
    whose first instant plus [linger] overflows, the next pass panics, and the
    open batch's acknowledgments fail. [pool_validate] accepts such a [linger]. *)
Lemma worker_linger_overflow (n : nat) (w : Worker) (now : Z) (id : nat) (text : string) (at_ : Z) :
  worker_reachable n w -> stage w = Intake -> first_at (acc w) = Some at_ ->
  INSTANT_MAX < at_ + linger (batch cfg) ->
  intake_pass now id text w = Some (kill w) /\ stage (kill w) = Killed /\
  Forall (failed_ref (l_world (ledger (kill w)))) (acks_of (a_chunks (acc w))).
Proof.
  intros Hr Hst Hf Hov. unfold intake_pass, linger_at. rewrite Hf. cbn.
  unfold checked_add. rewrite decide_False by lia. split_and!; [done|done|].
  apply kill_open; [apply (worker_reachable_inv n w Hr)|by apply (worker_reachable_accounts n)].
Qed.
End worker.

(** ** A worker that runs

    Batches of two rows and one write in flight, over one replica that opens on
    its first failure. *)

Definition shard_cfg (lg : Z) : SinkPoolConfig :=
  mkPoolConfig (mkBatchConfig 2 100 lg) (mkInflightConfig 1)
    (mkRetryConfig 3 40 (f64_of 2) (f64_of 0) 0) Breaker.demo_cfg.

Definition demo_chunk (k : Z) (r : AckRef) : EncodedChunk Z :=
  mkChunk [k] 10 1 [r] 5 7 [] [k].

Section demo_worker.
Variable lg : Z.

Fixpoint worker_run (os : list (WorkerOp (T := Z))) (w : Worker (T := Z)) : option (Worker (T := Z)) :=
  match os with
  | [] => Some w
  | o :: os =>
      if decide (worker_room w) then worker_op (shard_cfg lg) "s" "p-" o w ≫= worker_run os else None
  end.

Lemma worker_run_steps os : forall w w',
  worker_run os w = Some w' -> rtc (worker_step (shard_cfg lg) "s" "p-") w w'.
Proof.
  induction os as [|o os IH]; intros w w'; cbn [worker_run]; [by intros [= <-]|].
  destruct (decide (worker_room w)); [|done].
  destruct (worker_op _ _ _ o w) as [w1|] eqn:Ho; cbn; [|done].
  intros Hr. eapply rtc_l; [|by apply IH]. split; eauto.
Qed.

Definition worker_start : Worker (T := Z) :=
  worker_new (shard_cfg lg) Breaker.demo_set demo_world.

Definition worker_after (os : list (WorkerOp (T := Z))) : Worker (T := Z) :=
  default worker_start (worker_run os worker_start).

Lemma worker_after_reachable os :
  bool_decide (is_Some (worker_run os worker_start)) = true -> worker_reachable (shard_cfg lg) "s" "p-" 1 (worker_after os).
Proof.
  intros [w Hw]%bool_decide_eq_true. exists Breaker.demo_set, demo_world. split; [by vm_compute|].
  unfold worker_after. rewrite Hw. by apply (worker_run_steps os).
Qed.
End demo_worker.

(** Two batches sealed, the first written and the second's writer failing on
    the replica, which then opens; a chunk left open. *)
Definition demo_work : list (WorkerOp (T := Z)) :=
  [WSend (demo_chunk 1 0%nat); WSend (demo_chunk 2 0%nat); WSend (demo_chunk 3 1%nat); WPass 10 0%nat "" true;
   WTask 0%nat (EvPick 11); WTask 0%nat (EvWrote 12 None); WPass 13 0%nat "" true;
   WSend (demo_chunk 4 1%nat); WSend (demo_chunk 5 1%nat); WPass 14 0%nat "" true;
   WTask 1%nat (EvPick 15); WTask 1%nat (EvWrote 16 (Some timeout_error)); WTask 1%nat (EvSlept 30); WTask 1%nat (EvPick 31)].

(** Then the pool publishes a deadline. *)
Definition demo_drain : list (WorkerOp (T := Z)) :=
  demo_work ++ [WPublish 50; WPass 32 0%nat "" true; WPass 33 0%nat "" true].

Definition demo_stop : list (WorkerOp (T := Z)) :=
  demo_drain ++ [WPass 60 0%nat "" true].

Ltac reach := apply worker_after_reachable; vm_compute; reflexivity.

Lemma worker_resolves_once_witness :
  let w := worker_after 1000 demo_work in
  length (sealed w) = 2%nat /\ received w = concat (sealed w) ++ a_chunks (acc w) /\
  NoDup (delivered (ledger w) ++ given_up (ledger w)).
Proof.
  intros w. split; [vm_compute; reflexivity|].
  destruct (worker_resolves_once (shard_cfg 1000) "s" "p-" 1 w) as (H1 & H2 & _); [reach|].
  exact (conj H1 H2).
Defined.

Lemma worker_delivers_only_written_witness :
  let w := worker_after 1000 demo_stop in
  delivered (ledger w) = [0] /\ given_up (ledger w) = [2; 1] /\ 0 ∈ written (flight w) /\
  exists i cs, 1 = Z.of_nat i /\ sealed w !! i = Some cs /\
    Forall (failed_ref (l_world (ledger w))) (acks_of cs).
Proof.
  intros w. assert (Hd : delivered (ledger w) = [0]) by (vm_compute; reflexivity).
  assert (Hg : given_up (ledger w) = [2; 1]) by (vm_compute; reflexivity).
  destruct (worker_delivers_only_written (shard_cfg 1000) "s" "p-" 1 w) as (H1 & H2); [reach|].
  split; [exact Hd|]. split; [exact Hg|]. split.
  - apply H1. rewrite Hd. left.
  - apply H2. left. rewrite Hg. right. left.
Defined.

Lemma worker_stops_clean_witness :
  let w := worker_after 1000 demo_stop in
  stage w = Stopped /\ pending (ledger w) = ∅ /\ received w = concat (sealed w).
Proof.
  intros w. assert (Hst : stage w = Stopped) by (vm_compute; reflexivity). split; [exact Hst|].
  destruct (worker_stops_clean (shard_cfg 1000) "s" "p-" 1 w) as (H1 & H2 & _); [reach|exact Hst|].
  exact (conj H1 H2).
Defined.

(** The queue is still open here: a published deadline alone starts a drain. *)
Lemma worker_drain_terminates_witness :
  let w := worker_after 1000 demo_drain in
  rx_open w = true /\ stage w = Draining /\
  exists w', rtc (drain_by_pass (shard_cfg 1000) "s" 60 false) w w' /\ stage w' = Stopped /\
    pending (ledger w') = ∅.
Proof.
  intros w. assert (Hrx : rx_open w = true) by (vm_compute; reflexivity).
  assert (Hst : stage w = Draining) by (vm_compute; reflexivity).
  assert (Hdl : deadline (watch w) = Some 50) by (vm_compute; reflexivity).
  split; [exact Hrx|]. split; [exact Hst|].
  apply (worker_drain_terminates (shard_cfg 1000) "s" "p-" 1 w 60 50 false); [reach|exact Hst|exact Hdl|lia].
Defined.

Lemma worker_seals_at_threshold_witness :
  let w := worker_after 1000 demo_work in
  rows_of (take 1 (a_chunks (acc w))) < 2 /\ bytes_of (take 1 (a_chunks (acc w))) < 100.
Proof.
  intros w. assert (Hl : length (a_chunks (acc w)) = 1%nat) by (vm_compute; reflexivity).
  apply (worker_seals_at_threshold (shard_cfg 1000) "s" "p-" 1 w (a_chunks (acc w)) 1);
    [reach|right; exact eq_refl|].
  right. split; [exact eq_refl|]. rewrite Hl. lia.
Defined.

Lemma worker_probes_exact_witness :
  let w := worker_after 1000 demo_work in
  states (breakers (flight w)) = [HalfOpen 1 1] /\
  1 = Z.of_nat (map_count (picks_of (tasks (flight w))) (mkPick 0 (Some 1))).
Proof.
  intros w. assert (Hs : states (breakers (flight w)) = [HalfOpen 1 1]) by (vm_compute; reflexivity).
  split; [exact Hs|].
  apply (worker_probes_exact (shard_cfg 1000) "s" "p-" 1 w 0 1 1); [vm_compute; discriminate|reach|].
  rewrite Hs. reflexivity.
Defined.

(** A linger of [u64::MAX] seconds passes the configuration's checks. *)
Definition endless : Z := U64_MAX * SECOND.

Lemma worker_linger_overflow_witness :
  let w := worker_after endless [WSend (demo_chunk 1 0%nat); WPass 10 0%nat "" true] in
  pool_validate (shard_cfg endless) = None /\ length (received w) = 1%nat /\
  intake_pass (shard_cfg endless) "s" "p-" 11 0%nat "" w = Some (kill w) /\ stage (kill w) = Killed.
Proof.
  intros w. split; [vm_compute; reflexivity|]. split; [vm_compute; reflexivity|].
  destruct (worker_linger_overflow (shard_cfg endless) "s" "p-" 1 w 11 0 "" 10) as (H1 & H2 & _);
    [reach|vm_compute; reflexivity|vm_compute; reflexivity|vm_compute; reflexivity|].
  exact (conj H1 H2).
Defined.
