(* ===== verification/Oracle.v ===== *)
(** * Programs that consult their environment

    A thread's code as a state transformer that also reads answers: clock
    readings, results of calls to code outside the model, what other threads
    did meanwhile. The answers are a list, consumed from the front; a program
    given an answer of the wrong kind, or none, is [Stuck], which says that the
    list is not one its environment can give. [Panicked] is the code's own
    panic.

    [holds] is the Hoare triple of such programs: from a state that satisfies
    the precondition the program does not panic, and where it ends the
    postcondition holds. [ensures] says nothing of panics, [under] assumes the
    answers to be of a kind, [keeps] names what a program leaves alone, and
    [completes] promises an end, given answers enough. *)

From stdpp Require Import base list.
From Stdlib Require Import Lia.

(** How a run of a program ends. *)
Inductive Outcome (W Q A : Type) :=
  | Ran (a : A) (w : W) (rest : list Q)
  | Panicked (w : W)
  | Stuck.
Arguments Ran {W Q A} a w rest.
Arguments Panicked {W Q A} w.
Arguments Stuck {W Q A}.

Definition Prog (W Q A : Type) : Type := W -> list Q -> Outcome W Q A.

#[export] Instance prog_ret W Q : MRet (Prog W Q) := fun A a w t => Ran a w t.
#[export] Instance prog_bind W Q : MBind (Prog W Q) := fun A B k m w t =>
  match m w t with
  | Ran a w t => k a w t
  | Panicked w => Panicked w
  | Stuck => Stuck
  end.

Section Programs.
Context {W Q : Type}.

(** [unwrap]: a panic where there is no value. *)
Definition or_panic {A} (o : option A) : Prog W Q A := fun w t =>
  match o with Some a => Ran a w t | None => Panicked w end.

(** The state, and its update. *)
Definition get : Prog W Q W := fun w t => Ran w w t.
Definition modify (f : W -> W) : Prog W Q unit := fun w t => Ran tt (f w) t.
Definition panic {A} : Prog W Q A := fun w _ => Panicked w.
Definition stuck {A} : Prog W Q A := fun _ _ => Stuck.

(** The next answer, where [f] recognises it. *)
Definition ask {A} (f : Q -> option A) : Prog W Q A := fun w t =>
  match t with
  | q :: t => match f q with Some a => Ran a w t | None => Stuck end
  | [] => Stuck
  end.

(** [if c { m }]. *)
Definition when (c : bool) (m : Prog W Q unit) : Prog W Q unit :=
  if c then m else mret tt.

(** [for x in l { f(x) }]. *)
Fixpoint each {A} (f : A -> Prog W Q unit) (l : list A) : Prog W Q unit :=
  match l with
  | [] => mret tt
  | x :: l => f x ≫= fun _ => each f l
  end.

(** [loop { body }]: the body says whether to go round again. Every round
    consumes an answer, so the answers left bound the rounds. *)
Fixpoint rounds {A} (n : nat) (body : Prog W Q (option A)) : Prog W Q A :=
  match n with
  | O => stuck
  | S n => body ≫= fun r => match r with Some a => mret a | None => rounds n body end
  end.
Definition loop {A} (body : Prog W Q (option A)) : Prog W Q A :=
  fun w t => rounds (length t) body w t.

(** The same with a state of its own; the first and the last round may consume none. *)
Fixpoint turns {S A} (n : nat) (body : S -> Prog W Q (S + A)) (s : S) : Prog W Q A :=
  match n with
  | O => stuck
  | Datatypes.S n => body s ≫= fun r => match r with inl s => turns n body s | inr a => mret a end
  end.
Definition loop_from {S A} (body : S -> Prog W Q (S + A)) (s : S) : Prog W Q A :=
  fun w t => turns (2 + length t) body s w t.

(** Rounds that lower a measure of the state are enough when there are more of
    them than it. *)
Lemma turns_enough {S A} (m : W -> nat) (body : S -> Prog W Q (S + A)) k n : forall s w t,
  (forall s w t s' w' t', body s w t = Ran (inl s') w' t' -> m w' < m w) -> m w < n ->
  turns (k + n) body s w t = turns n body s w t.
Proof.
  induction n as [|n IH]; intros s w t Hb Hn; [lia|]. rewrite Nat.add_succ_r. cbn [turns].
  unfold mbind, prog_bind. destruct (body s w t) as [[s'|a] w' t'| |] eqn:He; try done.
  apply IH; [done|]. specialize (Hb _ _ _ _ _ _ He). lia.
Qed.

(** ** Triples *)

Definition holds {A} (P : W -> Prop) (m : Prog W Q A) (R : A -> W -> Prop) : Prop :=
  forall w t, P w ->
    match m w t with
    | Ran a w _ => R a w
    | Panicked _ => False
    | Stuck => True
    end.

Lemma holds_run {A} P (m : Prog W Q A) R w t a w' t' :
  holds P m R -> P w -> m w t = Ran a w' t' -> R a w'.
Proof. intros H HP E. specialize (H w t HP). by rewrite E in H. Qed.

Lemma holds_safe {A} P (m : Prog W Q A) R w t w' :
  holds P m R -> P w -> m w t <> Panicked w'.
Proof. intros H HP E. specialize (H w t HP). by rewrite E in H. Qed.

Lemma holds_ret {A} (P : W -> Prop) (a : A) (R : A -> W -> Prop) :
  (forall w, P w -> R a w) -> holds P (mret a) R.
Proof. intros H w t HP. by apply H. Qed.

Lemma holds_bind {A B} P (m : Prog W Q A) (k : A -> Prog W Q B) S R :
  holds P m S -> (forall a, holds (S a) (k a) R) -> holds P (m ≫= k) R.
Proof.
  intros Hm Hk w t HP. specialize (Hm w t HP). unfold mbind, prog_bind.
  destruct (m w t) as [a w' t'| |]; [|done..]. by apply Hk.
Qed.

Lemma holds_weaken {A} (P P' : W -> Prop) (m : Prog W Q A) (R R' : A -> W -> Prop) :
  holds P m R -> (forall w, P' w -> P w) -> (forall a w, R a w -> R' a w) ->
  holds P' m R'.
Proof.
  intros H HP HR w t HP'. specialize (H w t (HP w HP')). destruct (m w t); eauto.
Qed.

Lemma holds_pre {A} (P P' : W -> Prop) (m : Prog W Q A) R :
  holds P m R -> (forall w, P' w -> P w) -> holds P' m R.
Proof. intros H HP. by apply (holds_weaken P _ _ R). Qed.

Lemma holds_get (P : W -> Prop) (R : W -> W -> Prop) :
  (forall w, P w -> R w w) -> holds P get R.
Proof. intros H w t HP. by apply H. Qed.

Lemma holds_get_bind {B} (P : W -> Prop) (k : W -> Prog W Q B) R :
  (forall w, holds (fun w' => w' = w /\ P w) (k w) R) -> holds P (get ≫= k) R.
Proof. intros H w t HP. by apply (H w w t). Qed.

Lemma holds_modify (P : W -> Prop) f (R : unit -> W -> Prop) :
  (forall w, P w -> R tt (f w)) -> holds P (modify f) R.
Proof. intros H w t HP. by apply H. Qed.

Lemma holds_ask {A} (P : W -> Prop) (f : Q -> option A) : holds P (ask f) (fun _ => P).
Proof. intros w [|q t] HP; simpl; [done|]. by destruct (f q). Qed.

Lemma holds_stuck {A} (P : W -> Prop) (R : A -> W -> Prop) : holds P stuck R.
Proof. done. Qed.

Lemma holds_when (P : W -> Prop) c m (R : unit -> W -> Prop) :
  (c = true -> holds P m R) -> (c = false -> forall w, P w -> R tt w) ->
  holds P (when c m) R.
Proof. intros Ht Hf. destruct c; [by apply Ht|]. apply holds_ret. by apply Hf. Qed.

(** A body that keeps an invariant, over a list or round after round. *)
Lemma holds_each {A} (I : W -> Prop) (f : A -> Prog W Q unit) l :
  (forall x, x ∈ l -> holds I (f x) (fun _ => I)) -> holds I (each f l) (fun _ => I).
Proof.
  induction l as [|x l IH]; intros H; simpl; [by apply holds_ret|].
  eapply holds_bind; [apply H; left|]. intros []. apply IH. intros y Hy. apply H. by right.
Qed.

(** The same with an invariant on what is left of the list. *)
Lemma holds_each_rest {A} (I : list A -> W -> Prop) (f : A -> Prog W Q unit) l :
  (forall x l', x :: l' `suffix_of` l -> holds (I (x :: l')) (f x) (fun _ => I l')) ->
  holds (I l) (each f l) (fun _ => I []).
Proof.
  induction l as [|x l IH]; intros H; simpl; [by apply holds_ret|].
  eapply holds_bind; [by apply H|]. intros []. apply IH. intros y l' Hs. apply H.
  by apply suffix_cons_r.
Qed.

Lemma holds_rounds {A} (I : W -> Prop) (body : Prog W Q (option A)) (R : A -> W -> Prop) n :
  holds I body (fun r w => match r with Some a => R a w | None => I w end) ->
  holds I (rounds n body) R.
Proof.
  intros H. induction n as [|n IH]; simpl; [apply holds_stuck|].
  eapply holds_bind; [exact H|]. intros [a|]; [by apply holds_ret|exact IH].
Qed.

Lemma holds_loop {A} (I : W -> Prop) (body : Prog W Q (option A)) (R : A -> W -> Prop) :
  holds I body (fun r w => match r with Some a => R a w | None => I w end) ->
  holds I (loop body) R.
Proof. intros H w t HP. by apply (holds_rounds I body R (length t)). Qed.

(** ** What a program leaves alone, whether or not it panics *)

Definition keeps {X A} (f : W -> X) (m : Prog W Q A) : Prop := forall w t a w' t',
  m w t = Ran a w' t' -> f w' = f w.

Lemma keeps_ret {X A} (f : W -> X) (a : A) : keeps f (mret a : Prog W Q A).
Proof. by intros w t a' w' t' [= _ <- _]. Qed.

Lemma keeps_bind {X A B} (f : W -> X) (m : Prog W Q A) (k : A -> Prog W Q B) :
  keeps f m -> (forall a, keeps f (k a)) -> keeps f (m ≫= k).
Proof.
  intros Hm Hk w t b w' t' H. unfold mbind, prog_bind in H.
  destruct (m w t) as [a w1 t1| |] eqn:E; try done. rewrite <- (Hm _ _ _ _ _ E).
  by eapply Hk.
Qed.

Lemma keeps_get {X} (f : W -> X) : keeps f get.
Proof. by intros w t a w' t' [= _ <- _]. Qed.

Lemma keeps_ask {X A} (f : W -> X) (g : Q -> option A) : keeps f (ask g).
Proof.
  intros w [|q t] a w' t' H; [done|]. cbn in H. destruct (g q); [|done]. by injection H as _ <- _.
Qed.

Lemma keeps_stuck {X A} (f : W -> X) : keeps f (stuck : Prog W Q A).
Proof. done. Qed.

Lemma keeps_modify {X} (f : W -> X) (g : W -> W) :
  (forall w, f (g w) = f w) -> keeps f (modify g).
Proof. intros Hg w t a w' t' [= _ <- _]. apply Hg. Qed.

Lemma keeps_each {X A} (f : W -> X) (g : A -> Prog W Q unit) l :
  (forall x, keeps f (g x)) -> keeps f (each g l).
Proof.
  intros Hg. induction l as [|x l IH]; [apply keeps_ret|]. by apply keeps_bind.
Qed.

Lemma keeps_loop {X A} (f : W -> X) (body : Prog W Q (option A)) :
  keeps f body -> keeps f (loop body).
Proof.
  intros Hb. assert (Hr : forall n, keeps f (rounds n body)).
  { induction n as [|n IH]; [apply keeps_stuck|]. apply keeps_bind; [done|].
    intros [a|]; [apply keeps_ret|done]. }
  intros w t. apply Hr.
Qed.

(** ** Triples that say nothing of panics *)

Definition ensures {A} (P : W -> Prop) (m : Prog W Q A) (R : A -> W -> Prop) : Prop :=
  forall w t a w' t', P w -> m w t = Ran a w' t' -> R a w'.

Lemma ens_ret {A} (P : W -> Prop) (a : A) (R : A -> W -> Prop) :
  (forall w, P w -> R a w) -> ensures P (mret a) R.
Proof. intros H w t a' w' t' HP [= <- <- _]. auto. Qed.

Lemma ens_bind {A B} (P : W -> Prop) (m : Prog W Q A) (k : A -> Prog W Q B)
    (S : A -> W -> Prop) (R : B -> W -> Prop) :
  ensures P m S -> (forall a, ensures (S a) (k a) R) -> ensures P (m ≫= k) R.
Proof.
  intros Hm Hk w t b w' t' HP H. unfold mbind, prog_bind in H.
  destruct (m w t) as [a w1 t1| |] eqn:E; try done. by eapply Hk; [eapply Hm|].
Qed.

Lemma ens_get_bind {A} (P : W -> Prop) (k : W -> Prog W Q A) (R : A -> W -> Prop) :
  (forall w, ensures (fun w' => w' = w /\ P w) (k w) R) -> ensures P (get ≫= k) R.
Proof. intros H w t a w' t' HP E. exact (H w w t a w' t' (conj eq_refl HP) E). Qed.

Lemma ens_modify (P : W -> Prop) (f : W -> W) (R : unit -> W -> Prop) :
  (forall w, P w -> R tt (f w)) -> ensures P (modify f) R.
Proof. intros H w t a w' t' HP [= <- <- _]. auto. Qed.

Lemma ens_ask {A} (P : W -> Prop) (f : Q -> option A) (R : A -> W -> Prop) :
  (forall q a w, f q = Some a -> P w -> R a w) -> ensures P (ask f) R.
Proof.
  intros H w [|q t] a w' t' HP E; [done|]. cbn in E. destruct (f q) as [b|] eqn:Eq; [|done].
  injection E as <- <- _. eauto.
Qed.

Lemma ens_stop {A} (P : W -> Prop) (R : A -> W -> Prop) :
  ensures P stuck R /\ ensures P panic R.
Proof. done. Qed.

Lemma ens_weaken {A} (P P' : W -> Prop) (m : Prog W Q A) (R R' : A -> W -> Prop) :
  ensures P m R -> (forall w, P' w -> P w) -> (forall a w, R a w -> R' a w) -> ensures P' m R'.
Proof. intros H HP HR w t a w' t' HP' E. by eapply HR, H; [apply HP|]. Qed.

(** ** Triples that name the panics allowed *)

(** As [holds], where a panic in a state of [E] is no failure. *)
Definition upto {A} (E : W -> Prop) (P : W -> Prop) (m : Prog W Q A) (R : A -> W -> Prop) : Prop :=
  forall w t, P w ->
    match m w t with
    | Ran a w _ => R a w
    | Panicked w => E w
    | Stuck => True
    end.

Section upto.
Context (E : W -> Prop).

Lemma upto_ret {A} (P : W -> Prop) (a : A) (R : A -> W -> Prop) :
  (forall w, P w -> R a w) -> upto E P (mret a) R.
Proof. intros H w t HP. by apply H. Qed.

Lemma upto_bind {A B} (P : W -> Prop) (m : Prog W Q A) (k : A -> Prog W Q B) S R :
  upto E P m S -> (forall a, upto E (S a) (k a) R) -> upto E P (m ≫= k) R.
Proof.
  intros Hm Hk w t HP. specialize (Hm w t HP). unfold mbind, prog_bind.
  destruct (m w t) as [a w' t'| |]; [|done..]. by apply Hk.
Qed.

Lemma upto_get {A} (P : W -> Prop) (k : W -> Prog W Q A) R :
  (forall w, P w -> upto E (fun w' => w' = w) (k w) R) -> upto E P (get ≫= k) R.
Proof. intros H w t HP. by apply (H w HP w t). Qed.

Lemma upto_modify (P : W -> Prop) f (R : unit -> W -> Prop) :
  (forall w, P w -> R tt (f w)) -> upto E P (modify f) R.
Proof. intros H w t HP. by apply H. Qed.

Lemma upto_ask {A} (P : W -> Prop) (f : Q -> option A) (R : A -> W -> Prop) :
  (forall q a w, f q = Some a -> P w -> R a w) -> upto E P (ask f) R.
Proof. intros H w [|q t] HP; simpl; [done|]. destruct (f q) eqn:Hq; [by eapply H|done]. Qed.

Lemma upto_stuck {A} (P : W -> Prop) (R : A -> W -> Prop) : upto E P stuck R.
Proof. done. Qed.

Lemma upto_panic {A} (P : W -> Prop) (R : A -> W -> Prop) :
  (forall w, P w -> E w) -> upto E P panic R.
Proof. intros H w t HP. by apply H. Qed.

Lemma upto_weaken {A} (P P' : W -> Prop) (m : Prog W Q A) (R R' : A -> W -> Prop) :
  upto E P m R -> (forall w, P' w -> P w) -> (forall a w, R a w -> R' a w) -> upto E P' m R'.
Proof.
  intros H HP HR w t HP'. specialize (H w t (HP w HP')). destruct (m w t); eauto.
Qed.

Lemma upto_each {A} (I : W -> Prop) (f : A -> Prog W Q unit) l :
  (forall x, x ∈ l -> upto E I (f x) (fun _ => I)) -> upto E I (each f l) (fun _ => I).
Proof.
  induction l as [|x l IH]; intros H; simpl; [by apply upto_ret|].
  eapply upto_bind; [apply H; left|]. intros []. apply IH. intros y Hy. apply H. by right.
Qed.

Lemma upto_loop {A} (I : W -> Prop) (body : Prog W Q (option A)) (R : A -> W -> Prop) :
  upto E I body (fun r w => match r with Some a => R a w | None => I w end) ->
  upto E I (loop body) R.
Proof.
  intros H. enough (forall n, upto E I (rounds n body) R) as Hn by (intros w t; apply Hn).
  induction n as [|n IH]; simpl; [apply upto_stuck|].
  eapply upto_bind; [exact H|]. intros [a|]; [by apply upto_ret|exact IH].
Qed.

Lemma upto_turns {S A} (I : S -> W -> Prop) n (body : S -> Prog W Q (S + A)) (R : A -> W -> Prop) s :
  (forall s, upto E (I s) (body s) (fun r w => match r with inl s => I s w | inr a => R a w end)) ->
  upto E (I s) (turns n body s) R.
Proof.
  intros H. revert s. induction n as [|n IH]; intros s; simpl; [apply upto_stuck|].
  eapply upto_bind; [apply H|]. intros [s1|a]; [apply IH|by apply upto_ret].
Qed.

Lemma upto_loop_from {S A} (I : S -> W -> Prop) (body : S -> Prog W Q (S + A)) (R : A -> W -> Prop) s :
  (forall s, upto E (I s) (body s) (fun r w => match r with inl s => I s w | inr a => R a w end)) ->
  upto E (I s) (loop_from body s) R.
Proof. intros H w t. by apply upto_turns. Qed.

(** What the precondition says beside the state. *)
Lemma upto_pure {A} (H : Prop) (P : W -> Prop) (m : Prog W Q A) R :
  (H -> upto E P m R) -> upto E (fun w => H /\ P w) m R.
Proof. intros Hm w t [HH HP]. by apply Hm. Qed.

Lemma upto_ex {A X} (P : X -> W -> Prop) (m : Prog W Q A) R :
  (forall x, upto E (P x) m R) -> upto E (fun w => exists x, P x w) m R.
Proof. intros Hm w t [x HP]. by apply (Hm x). Qed.

(** From a state that is known. *)
Lemma tr_at {A} (P : W -> Prop) (m : Prog W Q A) R :
  (forall w, P w -> upto E (fun w' => w' = w) m R) -> upto E P m R.
Proof. intros Hm w t HP. by apply (Hm w HP w t). Qed.

Lemma tr_ret_at {A} w (a : A) (R : A -> W -> Prop) : R a w -> upto E (fun w' => w' = w) (mret a) R.
Proof. by intros HR w' t ->. Qed.

Lemma tr_step {A} w f (k : unit -> Prog W Q A) R :
  upto E (fun w' => w' = f w) (k tt) R -> upto E (fun w' => w' = w) (modify f ≫= k) R.
Proof. intros Hk w' t ->. by apply (Hk (f w) t). Qed.

Lemma tr_weaken_post {A} (P : W -> Prop) (m : Prog W Q A) (R R' : A -> W -> Prop) :
  upto E P m R -> (forall a w, R a w -> R' a w) -> upto E P m R'.
Proof. intros Hm HR. by eapply upto_weaken. Qed.

Lemma tr_then {A B} w (m : Prog W Q A) (k : A -> Prog W Q B) S R :
  upto E (fun w' => w' = w) m S -> (forall a w', S a w' -> upto E (fun w2 => w2 = w') (k a) R) ->
  upto E (fun w' => w' = w) (m ≫= k) R.
Proof. intros Hm Hk. eapply upto_bind; [exact Hm|]. intros a. apply tr_at, Hk. Qed.

Lemma tr_when w (b : bool) (m : Prog W Q unit) R :
  (b = true -> upto E (fun w' => w' = w) m R) -> (b = false -> R tt w) ->
  upto E (fun w' => w' = w) (when b m) R.
Proof. destruct b; intros Ht Hf; [by apply Ht|]. by apply tr_ret_at, Hf. Qed.

Lemma tr_ask {A B} w (f : Q -> option A) (k : A -> Prog W Q B) R :
  (forall q a, f q = Some a -> upto E (fun w' => w' = w) (k a) R) ->
  upto E (fun w' => w' = w) (ask f ≫= k) R.
Proof.
  intros Hk. eapply (upto_bind _ _ _ (fun a w' => w' = w /\ exists q, f q = Some a)).
  - apply upto_ask. eauto.
  - intros a. apply tr_at. intros w' [-> [q Hq]]. by eapply Hk.
Qed.

(** What a program keeps holds after it too. *)
Lemma upto_keeps {X A} (f : W -> X) (x : X) (P : W -> Prop) (m : Prog W Q A) (R : A -> W -> Prop) :
  keeps f m -> upto E P m R ->
  upto E (fun w => P w /\ f w = x) m (fun a w => R a w /\ f w = x).
Proof.
  intros Hk H w t [HP Hx]. specialize (H w t HP). destruct (m w t) as [a w' t'| |] eqn:Em; [|done..].
  split; [done|]. by rewrite (Hk _ _ _ _ _ Em).
Qed.
End upto.

(** ** Triples relative to the answers *)

(** As [holds] where every answer is one of [G]; a panic is no failure where
    [L] holds. *)
Definition under {A} (G : Q -> Prop) (L : Prop) (P : W -> Prop) (m : Prog W Q A)
    (R : A -> W -> Prop) : Prop :=
  forall w t, P w -> Forall G t ->
    match m w t with
    | Ran a w t => R a w /\ Forall G t
    | Panicked _ => L
    | Stuck => True
    end.

Section under.
Context {G : Q -> Prop} {L : Prop}.

Lemma under_ret {A} (P : W -> Prop) (a : A) (R : A -> W -> Prop) :
  (forall w, P w -> R a w) -> under G L P (mret a) R.
Proof. intros H w t HP HG. split; [by apply H|done]. Qed.

Lemma under_bind {A B} P (m : Prog W Q A) (k : A -> Prog W Q B) S R :
  under G L P m S -> (forall a, under G L (S a) (k a) R) -> under G L P (m ≫= k) R.
Proof.
  intros Hm Hk w t HP HG. specialize (Hm w t HP HG). unfold mbind, prog_bind.
  destruct (m w t) as [a w' t'| |]; [|done..]. destruct Hm. by apply Hk.
Qed.

Lemma under_weaken {A} (P P' : W -> Prop) (m : Prog W Q A) (R R' : A -> W -> Prop) :
  under G L P m R -> (forall w, P' w -> P w) -> (forall a w, R a w -> R' a w) ->
  under G L P' m R'.
Proof.
  intros H HP HR w t HP' HG. specialize (H w t (HP w HP') HG).
  destruct (m w t) as [a w' t'| |]; [|done..]. split; [apply HR, H|apply H].
Qed.

Lemma under_pre {A} (P P' : W -> Prop) (m : Prog W Q A) R :
  under G L P m R -> (forall w, P' w -> P w) -> under G L P' m R.
Proof. intros H HP. by apply (under_weaken P _ _ R). Qed.

Lemma under_get_bind {B} (P : W -> Prop) (k : W -> Prog W Q B) R :
  (forall w, under G L (fun w' => w' = w /\ P w) (k w) R) -> under G L P (get ≫= k) R.
Proof. intros H w t HP. by apply (H w w t). Qed.

Lemma under_modify (P : W -> Prop) f (R : unit -> W -> Prop) :
  (forall w, P w -> R tt (f w)) -> under G L P (modify f) R.
Proof. intros H w t HP HG. split; [by apply H|done]. Qed.

Lemma under_ask_good {A} (P : W -> Prop) (f : Q -> option A) :
  under G L P (ask f) (fun a w => P w /\ exists q, G q /\ f q = Some a).
Proof.
  intros w [|q t] HP HG; simpl; [done|]. apply Forall_cons in HG as [Hq HG].
  destruct (f q) eqn:E; [|done]. split; [|done]. eauto.
Qed.

Lemma under_ask {A} (P : W -> Prop) (f : Q -> option A) : under G L P (ask f) (fun _ => P).
Proof. eapply under_weaken; [apply (under_ask_good P)|done|]. by intros a w [? _]. Qed.

Lemma under_stuck {A} (P : W -> Prop) (R : A -> W -> Prop) : under G L P stuck R.
Proof. done. Qed.

Lemma under_when (P : W -> Prop) c m (R : unit -> W -> Prop) :
  (c = true -> under G L P m R) -> (c = false -> forall w, P w -> R tt w) ->
  under G L P (when c m) R.
Proof. intros Ht Hf. destruct c; [by apply Ht|]. apply under_ret. by apply Hf. Qed.

Lemma under_each {A} (I : W -> Prop) (f : A -> Prog W Q unit) l :
  (forall x, x ∈ l -> under G L I (f x) (fun _ => I)) -> under G L I (each f l) (fun _ => I).
Proof.
  induction l as [|x l IH]; intros H; simpl; [by apply under_ret|].
  eapply under_bind; [apply H; left|]. intros []. apply IH. intros y Hy. apply H. by right.
Qed.

Lemma under_each_rest {A} (I : list A -> W -> Prop) (f : A -> Prog W Q unit) l :
  (forall x l', x :: l' `suffix_of` l -> under G L (I (x :: l')) (f x) (fun _ => I l')) ->
  under G L (I l) (each f l) (fun _ => I []).
Proof.
  induction l as [|x l IH]; intros H; simpl; [by apply under_ret|].
  eapply under_bind; [by apply H|]. intros []. apply IH. intros y l' Hs. apply H.
  by apply suffix_cons_r.
Qed.

Lemma under_loop {A} (I : W -> Prop) (body : Prog W Q (option A)) (R : A -> W -> Prop) :
  under G L I body (fun r w => match r with Some a => R a w | None => I w end) ->
  under G L I (loop body) R.
Proof.
  intros H. enough (forall n, under G L I (rounds n body) R) as Hn by (intros w t; apply Hn).
  induction n as [|n IH]; simpl; [apply under_stuck|].
  eapply under_bind; [exact H|]. intros [a|]; [by apply under_ret|exact IH].
Qed.

(** What the precondition says beside the state. *)
Lemma under_pure {A} (H : Prop) (P : W -> Prop) (m : Prog W Q A) R :
  (H -> under G L P m R) -> under G L (fun w => P w /\ H) m R.
Proof. intros Hm w t [HP HH]. by apply Hm. Qed.

Lemma under_ens {A} P (m : Prog W Q A) R R' :
  under G L P m R -> ensures P m R' -> under G L P m (fun a w => R a w /\ R' a w).
Proof.
  intros H He w t HP HG. specialize (H w t HP HG). destruct (m w t) as [a w' t'| |] eqn:Em; [|done..].
  destruct H as [HR HG']. split; [|done]. split; [done|]. by eapply He.
Qed.

Lemma under_run {A} P (m : Prog W Q A) R w t a w' t' :
  under G L P m R -> P w -> Forall G t -> m w t = Ran a w' t' -> R a w'.
Proof. intros H HP HG E. specialize (H w t HP HG). rewrite E in H. apply H. Qed.

Lemma under_safe {A} P (m : Prog W Q A) R w t w' :
  under G L P m R -> P w -> Forall G t -> m w t = Panicked w' -> L.
Proof. intros H HP HG E. specialize (H w t HP HG). by rewrite E in H. Qed.
End under.

(** ** Triples that promise an end *)

(** Given [n] answers of the kind [V], the program ends, having used at most
    that many. *)
Definition completes {A} (V : Q -> Prop) (n : nat) (P : W -> Prop) (m : Prog W Q A)
    (R : A -> W -> Prop) : Prop :=
  forall w t, P w -> Forall V t -> n <= length t ->
    exists a w' t', m w t = Ran a w' t' /\ Forall V t' /\ length t <= length t' + n /\ R a w'.

Lemma com_ret {A} V (P : W -> Prop) (a : A) (R : A -> W -> Prop) :
  (forall w, P w -> R a w) -> completes V 0 P (mret a) R.
Proof. intros H w t HP HV Hn. exists a, w, t. split_and!; [done|done|lia|auto]. Qed.

Lemma com_bind {A B} V n k (P : W -> Prop) (m : Prog W Q A) (f : A -> Prog W Q B)
    (S : A -> W -> Prop) (R : B -> W -> Prop) :
  completes V n P m S -> (forall a, completes V k (S a) (f a) R) ->
  completes V (n + k) P (m ≫= f) R.
Proof.
  intros Hm Hf w t HP HV Hn. destruct (Hm w t HP HV) as (a & w1 & t1 & E1 & V1 & L1 & S1); [lia|].
  destruct (Hf a w1 t1 S1 V1) as (b & w2 & t2 & E2 & V2 & L2 & S2); [lia|].
  exists b, w2, t2. unfold mbind, prog_bind. rewrite E1. split_and!; [done|done|lia|done].
Qed.

Lemma com_get_bind {A} V n (P : W -> Prop) (k : W -> Prog W Q A) (R : A -> W -> Prop) :
  (forall w, completes V n (fun w' => w' = w /\ P w) (k w) R) -> completes V n P (get ≫= k) R.
Proof. intros H w t HP. by apply (H w w t). Qed.

Lemma com_modify V (P : W -> Prop) (f : W -> W) (R : unit -> W -> Prop) :
  (forall w, P w -> R tt (f w)) -> completes V 0 P (modify f) R.
Proof. intros H w t HP HV Hn. exists tt, (f w), t. split_and!; [done|done|lia|auto]. Qed.

Lemma com_ask {A} (V : Q -> Prop) (P : W -> Prop) (f : Q -> option A) :
  (forall q, V q -> is_Some (f q)) -> completes V 1 P (ask f) (fun _ => P).
Proof.
  intros Hf w [|q t] HP HV Hn; cbn in Hn; [lia|]. apply Forall_cons in HV as [Hq HV].
  destruct (Hf q Hq) as [a Ha]. exists a, w, t. cbn. rewrite Ha. split_and!; [done|done|lia|done].
Qed.

Lemma com_weaken {A} V n n' (P P' : W -> Prop) (m : Prog W Q A) (R R' : A -> W -> Prop) :
  completes V n P m R -> n <= n' -> (forall w, P' w -> P w) -> (forall a w, R a w -> R' a w) ->
  completes V n' P' m R'.
Proof.
  intros H Hle HP HR w t HP' HV Hn. destruct (H w t (HP w HP') HV) as (a & w' & t' & E & V' & L & S);
    [lia|]. exists a, w', t'. split_and!; [done|done|lia|auto].
Qed.

(** A loop whose rounds lower a measure. *)
Lemma com_turns {S A} V c (I : S -> W -> Prop) (m : S -> nat) (body : S -> Prog W Q (S + A)) R :
  (forall s, completes V c (I s) (body s)
     (fun r w => match r with inl s' => I s' w /\ (m s' < m s)%nat | inr a => R a w end)) ->
  forall n s, (m s < n)%nat -> completes V (c * Datatypes.S (m s)) (I s) (turns n body s) R.
Proof.
  intros Hb. induction n as [|n IH]; intros s Hn; [lia|]. cbn [turns].
  rewrite Nat.mul_succ_r, Nat.add_comm. eapply com_bind; [apply Hb|]. intros [s'|a].
  - intros w t [HI Hm] HV Hlen. destruct (IH s') with (w := w) (t := t) as (a & w' & t' & Ht & HV' & Hl & HR);
      [lia|done|done|nia|]. exists a, w', t'. split_and!; [done|done|nia|done].
  - eapply com_weaken; [apply (com_ret V (R a))| | |]; [by intros w|lia|done|done].
Qed.

Lemma com_loop_from {S A} V c (I : S -> W -> Prop) (m : S -> nat) (body : S -> Prog W Q (S + A)) R s :
  (0 < c)%nat ->
  (forall s, completes V c (I s) (body s)
     (fun r w => match r with inl s' => I s' w /\ (m s' < m s)%nat | inr a => R a w end)) ->
  completes V (c * Datatypes.S (m s)) (I s) (loop_from body s) R.
Proof. intros Hc Hb w t HI HV Hlen. apply (com_turns V c I m body R Hb (2 + length t)); [nia|done..]. Qed.

Lemma com_pure {A} V n (H : Prop) (m : Prog W Q A) R :
  (H -> completes V n (fun _ => True) m R) -> completes V n (fun _ => H) m R.
Proof. intros Hm w t HH. by apply Hm. Qed.

End Programs.

Notation at_world w := (fun w' => w' = w).

Notation "m ;;; k" := (m ≫= fun _ => k) (at level 90, right associativity).
