(* ===== verification/Controller.v ===== *)
(** * The pipeline controller ([spate-core/src/pipeline/controller.rs])

    The controller thread owns the source's control plane and the
    checkpointer. It places lanes on pipeline threads, harvests
    acknowledgments, commits watermarks on a tick and in chases, answers
    rebalances, and runs the drain that ends a run.

    Its code is a program over a [World]: the checkpoint system of
    [CheckpointSystem], the controller's own [State] and loop variables, the
    control channels, the drain barriers, and a log of the calls it made to the
    source. What it reads from elsewhere are the answers of [Answer]; other
    threads take steps of the checkpoint system while it drains, through
    [others]. Adding to an [Instant] past its range is a panic here as it is in
    the code. Metrics, logs and health reports are not modelled. *)

From stdpp Require Import base list gmap sorting.
From Stdlib Require Import ZArith Lia.
From S2P Require Import Prelude Ack Tracker Checkpointer CheckpointSystem EndCheck Backoff Oracle.

(** A source lane: its id, its partition, and the issuer it numbers batches
    with. *)
Record Lane := mkLane {
  lane_id : Z;
  lane_partition : Z;
  lane_issuer : nat;
}.

(** [FatalError], by where it arises; [ChainFailed] is a driver's own report. *)
Inductive Failure :=
  | OpenFailed
  | PollFailed
  | CommitFailed
  | WatermarkStalled (p age : Z)
  | ChainFailed (code : Z)
  | ExtendRefused (e : ExtendError)
  | Unacknowledged (pending : nat)
  | Uncommitted (n : nat) (flush_failed : bool).

(** [ThreadControl]; a barrier is named by its place in the store. *)
Inductive ThreadControl :=
  | AddLane (lane : Lane) (gate : option PendingGate)
  | StopLanes (lanes : list Z) (barrier : nat) (deadline : Z)
  | FlushNow
  | DropLanes (lanes : list Z)
  | Shutdown (barrier : nat) (deadline : Z).

(** [DriverEvent]. *)
Inductive DriverEvent :=
  | PauseLanes (lanes : list Z)
  | ResumeLanes (lanes : list Z)
  | DriverFatal (thread : nat) (error : Failure).

(** [SourceEvent]; [parties] sizes the barrier a revocation carries. *)
Inductive SourceEvent :=
  | LanesAssigned (lanes : list Lane)
  | LanesAdded (lanes : list Lane)
  | LanesRevoked (lanes : list Z) (parties : Z)
  | LanesRetired (lanes : list Z)
  | EvIdle
  | CommitReady (partitions : list Z)
  | EvDrained.

(** [Result<(), SourceError>], by the error's class. *)
Definition Reply : Type := option ErrorClass.

(** A call the controller made to the source, or the end of its wait for the
    sink's drain. A commit and that end record the history of batches at that
    moment. *)
Inductive Call :=
  | CallOpen (r : Reply)
  | CallCommit (positions : list (Z * Z)) (r : Reply) (seen : gmap BatchId Batch)
  | CallFlush (r : Reply)
  | CallPause (lanes : list Z) (r : Reply)
  | CallResume (lanes : list Z) (r : Reply)
  | CallStopReading (r : Reply)
  | CallRenew
  | SinkWaited (drained : bool) (seen : gmap BatchId Batch).

(** [DrainBarrier]'s shared state; [arrive] wraps like [fetch_sub]. *)
Record Barrier := mkBarrier {
  remaining : Z;
  done : bool;
}.
Definition barrier_new (parties : Z) : Barrier := mkBarrier parties (bool_decide (parties = 0)).
Definition arrive (b : Barrier) : Barrier :=
  mkBarrier (wrap_u64 (remaining b - 1)) (done b || bool_decide (remaining b = 1)).

(** [StopTimes]. *)
Record StopTimes := mkStopTimes {
  reserve_at : Z;
  stop_deadline : Z;
}.

Definition STOP_RESERVE : Z := 5000000000.
Definition CLOSE_SHARE : Z := 1000000000.
Definition FAST_COMMIT_POLL : Z := 1000000.
Definition STOP_POLL : Z := 10000000.

(** [StopTimes::new], [None] where the deadline is past the clock's range; one
    too early to subtract from is before the trigger too. *)
Definition stop_times (trigger drain_timeout : Z) : option StopTimes :=
  deadline ← checked_add trigger drain_timeout;
  Some (mkStopTimes (Z.max (deadline - STOP_RESERVE) trigger) deadline).

(** [Instant::saturating_duration_since]. *)
Definition since (later earlier : Z) : Z := Z.max 0 (later - earlier).

Definition stop_budget (now deadline fresh : Z) : Z := Z.min fresh (since deadline now).
Definition lanes_deadline (now deadline close_share : Z) : Z :=
  Z.max (deadline - close_share) now.

(** [State]. *)
Record State := mkState {
  assignment : gmap Z (Z * nat);
  thread_load : list Z;
  paused : gset Z;
  epoch : Z;
  pending_commit : gmap Z Z;
  committed : gmap Z Z;
  revoked_committed : gmap Z Z;
  failure : option Failure;
}.

(** The loop's variables. *)
Record Locals := mkLocals {
  last_commit : Z;
  fast_commit : gmap Z Z;
  after_window : gmap Z (option Z);
  stopping : option StopTimes;
}.

Record World := mkWorld {
  sys : Sys;
  state : State;
  locals : Locals;
  control_txs : list (list ThreadControl);
  barriers : list Barrier;
  shutdown : bool;
  calls : list Call;
}.

(** The settings of [ControllerContext]. *)
Record Params := mkParams {
  close_share : Z;
  commit_interval : Z;
  chase_window : Z;
  drain_timeout : Z;
  stalled_fail_after : Z;
}.

(** [CheckpointSection], and the checks of [PipelineConfig::validate] on it. *)
Record CheckpointSection := mkCheckpointSection {
  cs_interval : Z;
  cs_max_pending_batches : Z;
  cs_drain_timeout : Z;
  cs_stalled_fail_after : Z;
}.
Definition ONE_DAY : Z := 24 * 60 * 60 * SECOND.
Definition COMMIT_INTERVAL_FLOOR : DurationBounds := at_least 100000000.
Definition up_to_a_day (value : Z) (b : DurationBounds) : bool :=
  match at_most ONE_DAY b with Some b => check_duration value b | None => false end.
Definition validate_checkpoint (c : CheckpointSection) : bool :=
  check_duration (cs_interval c) COMMIT_INTERVAL_FLOOR &&
  up_to_a_day (cs_interval c) COMMIT_INTERVAL_FLOOR &&
  negb (bool_decide (cs_max_pending_batches c = 0)) &&
  up_to_a_day (cs_drain_timeout c) (at_least 1) &&
  negb (bool_decide (cs_stalled_fail_after c = 0)).

(** The runtime's settings of the controller: [hands_back] is the feed's, and
    [window] is [with_chase_window]'s. *)
Definition context (c : CheckpointSection) (hands_back : bool) (window : option Z) : Params :=
  mkParams (if hands_back then CLOSE_SHARE else 0) (cs_interval c)
    (default (cs_interval c) window) (cs_drain_timeout c) (cs_stalled_fail_after c).

(** What the controller reads from its environment. [Others] is what the other
    threads do at a point where they matter, with the controller's own drain
    steps where it drains; [Visit] is a hash map's iteration order; [Arrivals]
    are the drivers' arrivals during one wait, by barrier. *)
Inductive Answer :=
  | Others (ls : list Label)
  | Clock (now : Z)
  | Clocks (now : Z -> Z)
  | Flag (b : bool)
  | Trigger (at_ : option Z)
  | FromDriver (e : option DriverEvent)
  | FromSource (r : Reply)
  | Event (e : SourceEvent + ErrorClass)
  | Visit (ps : list Z)
  | Arrivals (bs : list nat).

Local Notation M := (Prog World Answer).

(** ** State updates *)

Definition upd_state (f : State -> State) : M unit :=
  modify (fun w => mkWorld (sys w) (f (state w)) (locals w) (control_txs w) (barriers w)
                     (shutdown w) (calls w)).
Definition upd_locals (f : Locals -> Locals) : M unit :=
  modify (fun w => mkWorld (sys w) (state w) (f (locals w)) (control_txs w) (barriers w)
                     (shutdown w) (calls w)).
Definition upd_barriers (f : list Barrier -> list Barrier) : M unit :=
  modify (fun w => mkWorld (sys w) (state w) (locals w) (control_txs w) (f (barriers w))
                     (shutdown w) (calls w)).
Definition set_shutdown : M unit :=
  modify (fun w => mkWorld (sys w) (state w) (locals w) (control_txs w) (barriers w)
                     true (calls w)).
Definition logged (c : Call) (w : World) : World :=
  mkWorld (sys w) (state w) (locals w) (control_txs w) (barriers w) (shutdown w) (calls w ++ [c]).
Definition log_call (c : Call) : M unit := modify (logged c).

Definition with_assignment (a : gmap Z (Z * nat)) (s : State) : State :=
  mkState a (thread_load s) (paused s) (epoch s) (pending_commit s) (committed s)
    (revoked_committed s) (failure s).
Definition with_load (l : list Z) (s : State) : State :=
  mkState (assignment s) l (paused s) (epoch s) (pending_commit s) (committed s)
    (revoked_committed s) (failure s).
Definition with_paused (x : gset Z) (s : State) : State :=
  mkState (assignment s) (thread_load s) x (epoch s) (pending_commit s) (committed s)
    (revoked_committed s) (failure s).
Definition with_epoch (e : Z) (s : State) : State :=
  mkState (assignment s) (thread_load s) (paused s) e (pending_commit s) (committed s)
    (revoked_committed s) (failure s).
Definition with_pending (m : gmap Z Z) (s : State) : State :=
  mkState (assignment s) (thread_load s) (paused s) (epoch s) m (committed s)
    (revoked_committed s) (failure s).
Definition with_committed (c r : gmap Z Z) (s : State) : State :=
  mkState (assignment s) (thread_load s) (paused s) (epoch s) (pending_commit s) c r
    (failure s).

(** [state.failure.get_or_insert(e)] and [state.failure = Some(e)]. *)
Definition fail_with (e : Failure) (s : State) : State :=
  mkState (assignment s) (thread_load s) (paused s) (epoch s) (pending_commit s) (committed s)
    (revoked_committed s) (Some (default e (failure s))).
Definition set_failure (e : Failure) (s : State) : State :=
  mkState (assignment s) (thread_load s) (paused s) (epoch s) (pending_commit s) (committed s)
    (revoked_committed s) (Some e).
Definition failed (w : World) : bool := bool_decide (is_Some (failure (state w))).

Definition with_last_commit (t : Z) (l : Locals) : Locals :=
  mkLocals t (fast_commit l) (after_window l) (stopping l).
Definition with_chases (f : gmap Z Z) (a : gmap Z (option Z)) (l : Locals) : Locals :=
  mkLocals (last_commit l) f a (stopping l).
Definition with_stopping (s : StopTimes) (l : Locals) : Locals :=
  mkLocals (last_commit l) (fast_commit l) (after_window l) (Some s).

(** ** The environment *)

Definition ask_clock : M Z := ask (fun q => match q with Clock t => Some t | _ => None end).
Definition ask_flag : M bool := ask (fun q => match q with Flag b => Some b | _ => None end).
Definition ask_trigger : M (option Z) :=
  ask (fun q => match q with Trigger o => Some o | _ => None end).

(** [Instant + Duration] and [Duration + Duration]. *)
Definition DURATION_MAX : Z := 2 ^ 64 * SECOND - 1.
Definition add_instant (t d : Z) : M Z := or_panic (checked_add t d).
Definition add_duration (d e : Z) : M Z :=
  or_panic (if decide (d + e <= DURATION_MAX) then Some (d + e) else None).

(** A call to the source, its reply, and the log entry it leaves. *)
Definition call (c : Reply -> Call) : M Reply :=
  r ← ask (fun q => match q with FromSource r => Some r | _ => None end);
  log_call (c r) ;;; mret r.

(** The steps other threads take: everything but the controller's own. *)
Definition others_label (l : Label) : bool :=
  match l with
  | LCloneIssuer _ _ | LLoad _ _ _ | LSend _ | LNew _ | LClone _ | LFail _ | LDrop _ => true
  | _ => false
  end.

(** Steps of the checkpoint system; a step that makes it panic is the
    controller's panic. *)
Definition put_sys (s : Sys) (w : World) : World :=
  mkWorld s (state w) (locals w) (control_txs w) (barriers w) (shutdown w) (calls w).
Definition steps (ls : list Label) : M unit := fun w t =>
  match exec_all ls (sys w) with
  | None => Stuck
  | Some s => if panicked s then Panicked (put_sys s w) else Ran tt (put_sys s w) t
  end.

Definition others : M unit :=
  ls ← ask (fun q => match q with Others ls => Some ls | _ => None end);
  if forallb others_label ls then steps ls else stuck.

(** [Checkpointer::drain], the other threads running meanwhile. *)
Definition drain_label (l : Label) : bool :=
  match l with LDrainStep => true | l => others_label l end.
Definition drain_all : M unit :=
  ls ← ask (fun q => match q with Others ls => Some ls | _ => None end);
  if forallb drain_label ls then
    steps (LDrainStart :: ls) ;;;
    w ← get;
    if bool_decide (pc (sys w) = CIdle) then mret tt else stuck
  else stuck.

(** [control_txs[thread].send(m)]: the index can be out of bounds; a closed
    channel is ignored. *)
Definition send_to (thread : nat) (m : ThreadControl) : M unit :=
  w ← get;
  if bool_decide (thread < length (control_txs w))%nat then
    modify (fun w => mkWorld (sys w) (state w) (locals w)
              (alter (fun q => q ++ [m]) thread (control_txs w)) (barriers w)
              (shutdown w) (calls w))
  else panic.
Definition send_all (m : ThreadControl) : M unit :=
  w ← get; each (fun t => send_to t m) (seq 0 (length (control_txs w))).

(** [DrainBarrier::new]: the name of the new barrier. *)
Definition new_barrier (parties : Z) : M nat :=
  w ← get;
  upd_barriers (fun bs => bs ++ [barrier_new parties]) ;;;
  mret (length (barriers w)).

(** [DrainBarrier::wait], the drivers arriving meanwhile. *)
Definition wait (b : nat) (timeout : Z) : M bool :=
  now ← ask_clock;
  _ ← add_instant now timeout;
  bs ← ask (fun q => match q with Arrivals bs => Some bs | _ => None end);
  upd_barriers (fun all => foldl (fun all i => alter arrive i all) all bs) ;;;
  w ← get; mret (default false (done <$> barriers w !! b)).

(** ** Harvest and commit *)

(** The slot of a partition becomes the greater of itself and [offset]. *)
Definition fold_watermark (m : gmap Z Z) (x : Z * Z) : gmap Z Z :=
  <[x.1 := Z.max (default x.2 (m !! x.1)) x.2]> m.

(** [Checkpointer::take_watermarks]. *)
Definition take_all : M (list (Z * Z)) :=
  now ← ask (fun q => match q with Clocks now => Some now | _ => None end);
  w ← get;
  steps [LTake now] ;;;
  mret (take_watermarks now (ck (sys w))).2.

Definition harvest : M unit :=
  drain_all ;;;
  out ← take_all;
  upd_state (fun s => with_pending (foldl fold_watermark (pending_commit s) out) s).

(** A [BTreeMap]'s entries in order. *)
Definition entries {A} (m : gmap Z A) : list (Z * A) := merge_sort key_le (map_to_list m).

(** What a successful commit of [positions] does to the state. *)
Definition commit_one (tracked : Z -> bool) (s : State) (x : Z * Z) : State :=
  let s := with_pending (delete x.1 (pending_commit s)) s in
  if tracked x.1
  then with_committed (<[x.1 := x.2]> (committed s)) (revoked_committed s) s
  else with_committed (committed s) (<[x.1 := x.2]> (revoked_committed s)) s.

Definition chosen (only : option (gset Z)) (p : Z) : bool :=
  match only with None => true | Some f => bool_decide (p ∈ f) end.

Definition commit_cycle (only : option (gset Z)) : M unit :=
  harvest ;;;
  w ← get;
  if bool_decide (pending_commit (state w) = ∅) then mret tt else
  let positions := filter (fun x => chosen only x.1 = true) (entries (pending_commit (state w))) in
  if bool_decide (positions = []) then mret tt else
  r ← call (fun r => CallCommit positions r (history (sys w)));
  match r with
  | None => upd_state (fun s => foldl (commit_one (fun p => tracks p (ck (sys w)))) s positions)
  | Some ClassFatal => upd_state (fail_with CommitFailed)
  | Some _ => mret tt
  end.

(** ** Driver events *)

Definition handle_driver_event (e : DriverEvent) : M unit :=
  w ← get;
  match e with
  | PauseLanes lanes =>
      let newly := filter (fun l => l ∉ paused (state w) /\ is_Some (assignment (state w) !! l))
                     lanes in
      if bool_decide (newly = []) then mret tt else
      r ← call (CallPause newly);
      match r with
      | None => upd_state (fun s => with_paused (paused s ∪ list_to_set newly) s)
      | Some _ => mret tt
      end
  | ResumeLanes lanes =>
      let resumable := filter (fun l => l ∈ paused (state w)) lanes in
      if bool_decide (resumable = []) then mret tt else
      r ← call (CallResume resumable);
      match r with
      | None => upd_state (fun s => with_paused (paused s ∖ list_to_set resumable) s)
      | Some _ => mret tt
      end
  | DriverFatal _ error => upd_state (fail_with error)
  end.

(** [while let Ok(event) = events_rx.try_recv() { f(event) }]. *)
Definition drain_events (f : DriverEvent -> M unit) : M unit :=
  loop (e ← ask (fun q => match q with FromDriver e => Some e | _ => None end);
        match e with None => mret (Some tt) | Some e => f e ;;; mret None end).

(** ** Placing lanes *)

Definition group_lane (g : gmap Z (list Lane)) (l : Lane) : gmap Z (list Lane) :=
  <[lane_partition l := default [] (g !! lane_partition l) ++ [l]]> g.
Definition group_lanes (lanes : list Lane) : gmap Z (list Lane) := foldl group_lane ∅ lanes.

(** The issuer of each partition's lanes. *)
Definition lane_owners (lanes : list Lane) : gmap Z nat :=
  list_to_map ((fun l => (lane_partition l, lane_issuer l)) <$> lanes).

(** The keys of [groups], in the order the hash map yields them. *)
Definition visit (groups : gmap Z (list Lane)) : M (list Z) :=
  ps ← ask (fun q => match q with Visit ps => Some ps | _ => None end);
  if bool_decide (NoDup ps) && bool_decide (list_to_set ps = dom groups) then mret ps else stuck.

(** [min_by_key] over the enumerated loads: the first least one, or 0. *)
Fixpoint argmin (l : list Z) (i : nat) : option (nat * Z) :=
  match l with
  | [] => None
  | x :: l =>
      match argmin l (S i) with
      | Some (j, y) => if bool_decide (x <= y) then Some (i, x) else Some (j, y)
      | None => Some (i, x)
      end
  end.
Definition least_loaded (l : list Z) : nat := default O (fst <$> argmin l 0).

Definition pending_gate (c : Checkpointer) (p e : Z) : option PendingGate :=
  mkPendingGate e <$> advance_handle p c.

Definition place_lane (p : Z) (thread : nat) (gate : option PendingGate) (lane : Lane) : M unit :=
  upd_state (fun s => with_assignment (<[lane_id lane := (p, thread)]> (assignment s)) s) ;;;
  w ← get;
  (if bool_decide (thread < length (thread_load (state w)))%nat
   then upd_state (fun s => with_load (alter (fun n => wrap_u64 (n + 1)) thread (thread_load s)) s)
   else panic) ;;;
  send_to thread (AddLane lane gate).

Definition place_group (groups : gmap Z (list Lane)) (p : Z) : M unit :=
  w ← get;
  let thread := least_loaded (thread_load (state w)) in
  let gate := pending_gate (ck (sys w)) p (epoch (state w)) in
  each (place_lane p thread gate) (default [] (groups !! p)).

(** ** Removing lanes *)

(** The lanes of [lanes] that thread [t] owns, in order. *)
Definition owned_by (a : gmap Z (Z * nat)) (t : nat) (lanes : list Z) : list Z :=
  filter (fun l => snd <$> a !! l = Some t) lanes.

Definition parts_of (a : gmap Z (Z * nat)) (lanes : list Z) : gset Z :=
  list_to_set (omap (fun l => fst <$> a !! l) lanes).
Definition live_partitions (a : gmap Z (Z * nat)) : gset Z :=
  list_to_set ((fun x => x.2.1) <$> map_to_list a).

(** Removes one lane. Assigned threads index the loads, see [pv_assign]. *)
Definition remove_lane (s : State) (l : Z) : State :=
  let s := match assignment s !! l with
           | Some (_, t) =>
               with_load (alter (fun n => Z.max 0 (n - 1)) t (thread_load s))
                 (with_assignment (delete l (assignment s)) s)
           | None => s
           end in
  with_paused (paused s ∖ {[l]}) s.

(** The partitions of [lanes] that keep no lane once they are removed. *)
Definition to_revoke (before after : gmap Z (Z * nat)) (lanes : list Z) : list Z :=
  filter (fun p => p ∉ live_partitions after) (elements (parts_of before lanes)).

(** ** Revocation *)

Section Controller.
Variable P : Params.

(** [StopRequest::triggered_at], or the clock. *)
Definition stop_trigger : M Z :=
  o ← ask_trigger; match o with Some t => mret t | None => ask_clock end.

(** [StopWatch::ends_the_wait]. *)
Definition ends_the_wait : M bool :=
  set ← ask_flag;
  if negb set then mret false else
  trigger ← stop_trigger;
  times ← or_panic (stop_times trigger (drain_timeout P));
  now ← ask_clock;
  if bool_decide (reserve_at times <= now) then mret true else
  reading ← ask_flag; mret (negb reading).

Definition wait_round (b : nat) (deadline : Z) : M (option bool) :=
  now ← ask_clock;
  d ← wait b (Z.min (since deadline now) STOP_POLL);
  if (d : bool) then mret (Some true) else
  now ← ask_clock;
  if bool_decide (deadline <= now) then mret (Some false) else
  log_call CallRenew ;;;
  w ← get;
  (if shutdown w then mret tt
   else ends ← ends_the_wait; when ends set_shutdown) ;;;
  mret None.

Definition wait_revocation (b : nat) (deadline : Z) : M bool := loop (wait_round b deadline).

(** The part of [revoke_lanes] that asks the drivers to stop. *)
Definition stop_owners (lanes : list Z) (b : nat) (deadline : Z) : M unit :=
  w ← get;
  let a := assignment (state w) in
  each (fun l => when (bool_decide (a !! l = None)) (upd_barriers (alter arrive b))) lanes ;;;
  each (fun t => when (bool_decide (owned_by a t lanes <> []))
                   (send_to t (StopLanes (owned_by a t lanes) b deadline)))
    (seq 0 (length (control_txs w))).

Definition revoke_lanes (lanes : list Z) (b : nat) (budget : Z) : M unit :=
  now ← ask_clock;
  deadline ← add_instant now budget;
  stop_owners lanes b deadline ;;;
  wait_revocation b deadline ;;;
  commit_cycle None ;;;
  call CallFlush ;;;
  w ← get;
  let before := assignment (state w) in
  upd_state (fun s => foldl remove_lane s lanes) ;;;
  w ← get;
  let gone := to_revoke before (assignment (state w)) lanes in
  steps [LRevoke gone] ;;;
  upd_state (fun s => foldl (fun s p =>
    match committed s !! p with
    | Some o => with_committed (delete p (committed s)) (<[p := o]> (revoked_committed s)) s
    | None => s
    end) s gone).

Definition handle_revoke (lanes : list Z) (b : nat) (budget : Z) : M unit :=
  revoke_lanes lanes b budget.

(** ** Assignment changes *)

Definition handle_assign (lanes : list Lane) (budget : Z) : M unit :=
  w ← get;
  (if bool_decide (assignment (state w) = ∅) then mret tt else
   let live := (map_to_list (assignment (state w))).*1 in
   b ← new_barrier (Z.of_nat (length live));
   revoke_lanes live b budget) ;;;
  others ;;;
  upd_state (fun s => with_epoch (wrap_u32 (epoch s + 1)) s) ;;;
  let groups := group_lanes lanes in
  partitions ← visit groups;
  w ← get;
  (match begin_epoch partitions (epoch (state w)) (ck (sys w)) with
   | None => panic
   | Some _ => steps [LBegin partitions (epoch (state w)) (lane_owners lanes)]
   end) ;;;
  upd_state (fun s => with_committed
    (committed s ∪ filter (fun x => is_Some (groups !! x.1)) (revoked_committed s)) ∅ s) ;;;
  each (place_group groups) partitions.

Definition handle_added (lanes : list Lane) : M unit :=
  if bool_decide (length lanes = 0%nat) then mret tt else
  upd_state (fun s => with_committed (committed s) ∅ s) ;;;
  let groups := group_lanes lanes in
  partitions ← visit groups;
  others ;;;
  w ← get;
  steps [LExtend partitions (lane_owners lanes)] ;;;
  match extend_epoch partitions (ck (sys w)) with
  | inl e => upd_state (fail_with (ExtendRefused e))
  | inr _ => each (place_group groups) partitions
  end.

Definition handle_retired (lanes : list Z) : M unit :=
  w ← get;
  let before := assignment (state w) in
  each (fun t => when (bool_decide (owned_by before t lanes <> []))
                   (send_to t (DropLanes (owned_by before t lanes))))
    (seq 0 (length (control_txs w))) ;;;
  upd_state (fun s => foldl remove_lane s lanes) ;;;
  w ← get;
  let gone := to_revoke before (assignment (state w)) lanes in
  steps [LRevoke gone] ;;;
  upd_state (fun s => foldl (fun s p =>
    with_committed (delete p (committed s)) (revoked_committed s) s) s gone).

(** ** The loop *)

(** [while state.failure.is_none()] up to the driver requests: whether a stop
    ends the loop, and the budget of a revocation in this pass. *)
Definition check_stop : M bool :=
  w ← get;
  (if bool_decide (stopping (locals w) = None) then
     set ← ask_flag;
     if (set : bool) then
       trigger ← stop_trigger;
       times ← or_panic (stop_times trigger (drain_timeout P));
       upd_locals (with_stopping times)
     else mret tt
   else mret tt) ;;;
  w ← get;
  match stopping (locals w) with
  | None => mret false
  | Some times =>
      now ← ask_clock;
      if bool_decide (reserve_at times <= now) then mret true else
      reading ← ask_flag; mret (negb reading)
  end.

Definition revoke_budget : M Z :=
  w ← get;
  match stopping (locals w) with
  | None => mret (drain_timeout P)
  | Some times => now ← ask_clock; mret (stop_budget now (reserve_at times) (drain_timeout P))
  end.

(** The first watermark stalled for longer than the limit. *)
Definition stalled_too_long (now : Z) (c : Checkpointer) : option (Z * Z) :=
  head (filter (fun x => stalled_fail_after P < x.2)
          ((fun x => (x.1, since now x.2)) <$> stalled_partitions c)).

Definition commit_tick : M unit :=
  now ← ask_clock;
  w ← get;
  if bool_decide (commit_interval P <= since now (last_commit (locals w))) then
    upd_locals (with_last_commit now) ;;;
    send_all FlushNow ;;;
    commit_cycle None ;;;
    now ← ask_clock;
    w ← get;
    match stalled_too_long now (ck (sys w)) with
    | Some (p, age) => upd_state (fail_with (WatermarkStalled p age))
    | None => mret tt
    end
  else mret tt.

(** The threads that own a lane of one of [ps]. *)
Definition owners_of (a : gmap Z (Z * nat)) (ps : list Z) : gset nat :=
  list_to_set (omap (fun x => if bool_decide (x.2.1 ∈ ps) then Some x.2.2 else None)
                 (map_to_list a)).

Definition commit_ready (ps : list Z) : M unit :=
  w ← get;
  each (fun t => send_to t FlushNow) (elements (owners_of (assignment (state w)) ps)) ;;;
  now ← ask_clock;
  until ← add_instant now (chase_window P);
  upd_locals (fun l => with_chases
    (foldl (fun m p => match m !! p with Some _ => m | None => <[p := until]> m end)
       (fast_commit l) ps) (after_window l) l).

(** What a source may report: lane ids are distinct 32-bit numbers, and new
    where they join the running epoch. *)
Definition ids_ok (lanes : list Lane) : bool :=
  bool_decide (NoDup (lane_id <$> lanes)) &&
  bool_decide (Forall (fun l => 0 <= lane_id l <= U32_MAX) lanes).
Definition event_ok (w : World) (e : SourceEvent) : bool :=
  match e with
  | LanesAssigned lanes => ids_ok lanes
  | LanesAdded lanes => ids_ok lanes &&
      bool_decide (Forall (fun l => assignment (state w) !! lane_id l = None) lanes)
  | _ => true
  end.

Definition poll_events : M (SourceEvent + ErrorClass) :=
  e ← ask (fun q => match q with Event e => Some e | _ => None end);
  w ← get;
  match e with
  | inl e' => if event_ok w e' then mret e else stuck
  | inr _ => mret e
  end.

(** One event; whether the source is drained. *)
Definition handle_event (e : SourceEvent + ErrorClass) (budget : Z) : M bool :=
  match e with
  | inl (LanesAssigned lanes) =>
      handle_assign lanes budget ;;; upd_locals (with_chases ∅ ∅) ;;; mret false
  | inl (LanesRevoked lanes parties) =>
      b ← new_barrier parties; handle_revoke lanes b budget ;;; mret false
  | inl (LanesRetired lanes) => handle_retired lanes ;;; mret false
  | inl (LanesAdded lanes) => handle_added lanes ;;; mret false
  | inl (CommitReady ps) => commit_ready ps ;;; mret false
  | inl EvIdle => mret false
  | inl EvDrained => mret true
  | inr ClassFatal => upd_state (set_failure PollFailed) ;;; mret false
  | inr _ => mret false
  end.

(** Partitions whose window closed at [now] move to [after_window]. *)
Definition close_windows (now : Z) (l : Locals) : Locals :=
  with_chases (filter (fun x => now < x.2) (fast_commit l))
    (after_window l ∪ (const None <$> filter (fun x => x.2 <= now) (fast_commit l))) l.

(** The partitions past their window whose pending position was not sent. *)
Definition advanced (w : World) : gset Z :=
  dom (filter (fun x => match pending_commit (state w) !! x.1 with
                        | Some o => bool_decide (Some o <> x.2)
                        | None => false
                        end = true) (after_window (locals w))).

Definition chase : M unit :=
  w ← get;
  if (bool_decide (fast_commit (locals w) = ∅) && bool_decide (after_window (locals w) = ∅))
     || failed w
  then mret tt else
  now ← ask_clock;
  upd_locals (close_windows now) ;;;
  w ← get;
  when (negb (bool_decide (after_window (locals w) = ∅))) harvest ;;;
  w ← get;
  let chasing := dom (fast_commit (locals w)) ∪ advanced w in
  (if bool_decide (chasing = ∅) then mret tt else
   commit_cycle (Some chasing) ;;;
   w ← get;
   let sent := pending_commit (state w) in
   upd_locals (fun l => with_chases (fast_commit l)
     (map_imap (fun p o => Some (if bool_decide (p ∈ chasing)
                                 then match sent !! p with Some x => Some x | None => o end
                                 else o)) (after_window l)) l)) ;;;
  w ← get;
  let a := assignment (state w) in
  upd_locals (fun l => with_chases (filter (fun x => x.1 ∈ live_partitions a) (fast_commit l))
                         (filter (fun x => x.1 ∈ live_partitions a) (after_window l)) l).

(** One pass: [Some drained] when the loop ends. *)
Definition pass : M (option bool) :=
  w ← get;
  if failed w then mret (Some false) else
  stop ← check_stop;
  if (stop : bool) then mret (Some false) else
  budget ← revoke_budget;
  drain_events handle_driver_event ;;;
  w ← get;
  if failed w then mret (Some false) else
  harvest ;;;
  commit_tick ;;;
  w ← get;
  if failed w then mret (Some false) else
  e ← poll_events;
  drained ← handle_event e budget;
  if (drained : bool) then mret (Some true) else
  chase ;;;
  mret None.

(** ** The run *)

Record Report := mkReport {
  rp_failure : option Failure;
  final_watermarks : list (Z * Z);
  close_by : Z;
}.

(** [source.open] with an issuer of the checkpointer's; whether it opened. *)
Definition open_source : M bool :=
  steps [LSpawn 0%nat] ;;;
  r ← call CallOpen;
  match r with
  | None => mret true
  | Some _ => upd_state (set_failure OpenFailed) ;;; mret false
  end.

(** Only a driver's failure is taken from what the drain left behind. *)
Definition handle_late_event (e : DriverEvent) : M unit :=
  match e with
  | DriverFatal _ error => upd_state (fail_with error)
  | _ => mret tt
  end.

(** The drivers flush, drop their lanes and arrive; the instant the sink drains
    by. *)
Definition drain_drivers (deadline : Z) : M Z :=
  now ← ask_clock;
  let lanes_by := lanes_deadline now deadline (close_share P) in
  w ← get;
  b ← new_barrier (Z.of_nat (length (control_txs w)));
  send_all (Shutdown b lanes_by) ;;;
  now ← ask_clock;
  _ ← wait b (since lanes_by now);
  drain_events handle_late_event ;;;
  mret lanes_by.

(** Main joins the drivers and drains the sink, and reports or does not in
    time; the other threads run meanwhile. *)
Definition await_sink (lanes_by : Z) : M unit :=
  now ← ask_clock;
  _ ← add_duration (since lanes_by now) (2 * SECOND);
  drained ← ask_flag;
  others ;;;
  w ← get;
  log_call (SinkWaited drained (history (sys w))).

(** The check that a drained run left nothing unacknowledged or uncommitted. *)
Definition backstop (flush_failed : bool) : M unit :=
  w ← get;
  let pending := max_pending (ck (sys w)) in
  if bool_decide (0 < pending)%nat then upd_state (set_failure (Unacknowledged pending))
  else if negb (bool_decide (pending_commit (state w) = ∅)) || flush_failed
  then upd_state (set_failure (Uncommitted (size (pending_commit (state w))) flush_failed))
  else mret tt.

(** The drain sequence, the final commit and the report. *)
Definition finish (opened drained_exit : bool) : M Report :=
  set_shutdown ;;;
  (if opened && negb drained_exit then call CallStopReading ;;; mret tt else mret tt) ;;;
  w ← get;
  deadline ← match stopping (locals w) with
             | Some times => mret (stop_deadline times)
             | None => now ← ask_clock; add_instant now (drain_timeout P)
             end;
  lanes_by ← drain_drivers deadline;
  await_sink lanes_by ;;;
  commit_cycle None ;;;
  flush_failed ← (if opened then r ← call CallFlush; mret (bool_decide (is_Some r))
                  else mret false);
  w ← get;
  when (drained_exit && negb (failed w)) (backstop flush_failed) ;;;
  w ← get;
  mret (mkReport (failure (state w)) (entries (committed (state w))) deadline).

(** At most [n] passes; [Some drained] when the loop ended in them. *)
Fixpoint run_passes (n : nat) : M (option bool) :=
  match n with
  | O => mret None
  | S n => r ← pass; match r with Some d => mret (Some d) | None => run_passes n end
  end.

(** [run_controller] seen for at most [n] passes of its loop: whether the source
    was drained, and the report, when it ended; [None] while it is running. *)
Definition run_controller (n : nat) : M (option (bool * Report)) :=
  opened ← open_source;
  now ← ask_clock;
  upd_locals (with_last_commit now) ;;;
  r ← run_passes n;
  match r with
  | None => mret None
  | Some drained => rep ← finish opened drained; mret (Some (drained, rep))
  end.

End Controller.

(** The world before the run, with [k] pipeline threads. *)
Definition world_init (k : nat) : World :=
  mkWorld sys_init (mkState ∅ (replicate k 0) ∅ 0 ∅ ∅ ∅ None) (mkLocals 0 ∅ ∅ None)
    (replicate k []) [] false [].
