(* ===== verification/ControllerProofs.v ===== *)
(** * Properties of the pipeline controller

    The controller of [Controller] run over the checkpoint system: every step
    it takes there is one the system allows, so the system's invariant holds of
    it, and its own bookkeeping (assignment, loads, positions not committed yet,
    the exit report) stays exact in every run. *)

From stdpp Require Import base list gmap sorting.
From Stdlib Require Import ZArith Lia.
From S2P Require Import Prelude Ack Tracker Checkpointer CheckpointSystem EndCheck Backoff Oracle.
From S2P Require Import Controller.

(** ** Steps of the checkpoint system *)

(** Batches keep their offsets, trackers their heads, and no watermark is
    reported. *)
Record frame (s s' : Sys) : Prop := mk_frame {
  fr_off : forall id b, history s !! id = Some b ->
    exists b', history s' !! id = Some b' /\ b_off b' = b_off b;
  fr_heads : heads (ck s') = heads (ck s);
  fr_epoch : ck_epoch (ck s') = ck_epoch (ck s);
  fr_gates : gates (ck s') = gates (ck s) /\ counters (ck s') = counters (ck s);
  fr_reported : reported s' = reported s;
}.

Lemma frame_refl s : frame s s.
Proof. split; eauto. Qed.

Lemma frame_trans s1 s2 s3 : frame s1 s2 -> frame s2 s3 -> frame s1 s3.
Proof.
  intros [A1 B1 C1 [D1 D1'] E1] [A2 B2 C2 [D2 D2'] E2].
  split; try congruence; [|split; congruence]. intros id b Hb.
  destruct (A1 _ _ Hb) as (b1 & Hb1 & <-). destruct (A2 _ _ Hb1) as (b2 & Hb2 & <-). eauto.
Qed.

Lemma off_alter f id (B : gmap BatchId Batch) :
  (forall b, b_off (f b) = b_off b) ->
  forall id' b, B !! id' = Some b ->
    exists b', alter f id B !! id' = Some b' /\ b_off b' = b_off b.
Proof.
  intros Hf id' b Hb. rewrite lookup_alter. destruct (decide (id = id')) as [->|]; [|eauto].
  rewrite Hb. simpl. eauto.
Qed.

Lemma others_frame l s s' :
  Inv s -> others_label l = true -> exec l s = Some s' ->
  frame s s' /\ pc s' = pc s /\ ck s' = ck s.
Proof.
  intros HI Hl He. unfold exec in He. rewrite (iv_panic _ HI) in He. destruct l; try done.
  - destruct (issuers s !! i) as [[x ?]|], (issuers s !! j); simplify_eq.
    split; [split; eauto|done].
  - destruct (issuers s !! i) as [[x []]|]; try done.
    destruct (_ && _); [|done]. destruct (issue_id _ _ _); simplify_eq.
    split; [split; eauto|done].
  - destruct (issuers s !! i) as [[x [|id off|id off]]|] eqn:Hi; try done. simplify_eq.
    split; [|done]. split; try done. simpl. intros id' b Hb. exists b. split; [|done].
    destruct (ii_pc _ _ _ _ _ _ _ (iv_issuer _ HI _ _ _ Hi)) as [Hn _].
    rewrite lookup_insert_ne; [done|]. intros ->. congruence.
  - destruct (issuers s !! i) as [[x [|id off|id off]]|] eqn:Hi; try done.
    cbn [AckRef_new] in He. injection He as <-. split; [|done]. split; try done.
    by apply off_alter.
  - destruct (heap (acks s) !! r); simplify_eq. split; [split; eauto|done].
  - destruct (heap (acks s) !! r); simplify_eq. split; [|done]. split; try done.
    by apply off_alter.
  - destruct (heap (acks s) !! r) as [st|]; simplify_eq. split; [|done]. split; try done.
    simpl. destruct (bool_decide _); [by apply off_alter|eauto].
Qed.

Lemma apply_registration_gates reg c st c' st' :
  apply_registration reg c st = Some (c', st') ->
  gates c' = gates c /\ counters c' = counters c.
Proof.
  unfold apply_registration. destruct (bool_decide _); intros; simplify_eq; [done|].
  destruct (trackers c !! _) as [t|]; simplify_eq; [|done].
  destruct (register _ _ _); by simplify_eq.
Qed.

Lemma apply_gates m c st df :
  gates (apply m c st df).1.1 = gates c /\ counters (apply m c st df).1.1 = counters c.
Proof.
  unfold apply. destruct (bool_decide _); [done|]. destruct (trackers c !! _); [|done].
  destruct (resolve _ _ _) as [? []]; try done. by destruct df.
Qed.

Lemma recv_reg_frame k st reg rest s :
  panicked (recv_reg k st reg rest s) = false -> frame s (recv_reg k st reg rest s).
Proof.
  unfold recv_reg. destruct (apply_registration reg (ck s) st) as [[c st']|] eqn:E; [|done].
  intros _. pose proof (apply_registration_gates _ _ _ _ _ E) as Hg.
  apply apply_registration_frame in E as [Hh He].
  split; simpl; eauto.
Qed.

Lemma drain_frame s s' :
  Inv s -> exec LDrainStep s = Some s' -> frame s s'.
Proof.
  intros HI He. unfold exec in He. rewrite (iv_panic _ HI) in He.
  pose proof (iv_panic _ (inv_drain_step _ _ HI He)) as Hnp. unfold drain_step in He.
  destruct (pc s) as [|st|st ds|st ds|st ds]; [done|..]; injection He as <-.
  - destruct (try_recv (regs s)) as [[reg rest]|]; [by apply recv_reg_frame|]. split; eauto.
  - destruct (try_recv (ack_tx (acks s))) as [[m rest]|]; [|destruct ds; split; eauto].
    pose proof (apply_frame m (ck s) st (Some ds)) as Hf.
    pose proof (apply_gates m (ck s) st (Some ds)) as Hg.
    destruct (apply m _ _ _) as [[c st'] ds']. destruct Hf as (Hh & He & _).
    split; simpl; eauto.
  - destruct (try_recv (regs s)) as [[reg rest]|]; [by apply recv_reg_frame|]. split; eauto.
  - destruct ds as [|m ds]; [split; eauto|].
    pose proof (apply_frame m (ck s) st None) as Hf.
    pose proof (apply_gates m (ck s) st None) as Hg.
    destruct (apply m _ _ _) as [[c st'] ds']. destruct Hf as (Hh & He & _).
    split; simpl; eauto.
Qed.

(** The position after a partition's head was reported. *)
Definition head_reported (s : Sys) : Prop := forall p h,
  heads (ck s) !! p = Some h -> 0 < h ->
  exists b, history s !! mkBatchId p (ck_epoch (ck s)) (h - 1) = Some b /\
    (p, ck_epoch (ck s), wrap_i64 (b_off b + 1)) ∈ reported s.

Lemma head_reported_frame s s' : frame s s' -> head_reported s -> head_reported s'.
Proof.
  intros [Fo Fh Fe Fg Fr] H p h Hh Hpos. rewrite Fh in Hh. rewrite Fe, Fr.
  destruct (H p h Hh Hpos) as (b & Hb & Hin). destruct (Fo _ _ Hb) as (b' & Hb' & Heq).
  exists b'. by rewrite Heq.
Qed.

(** Fresh trackers have not moved. *)
Lemma head_reported_admit s s' (ps : list Z) :
  history s' = history s -> reported s' = reported s ->
  (forall p t, trackers (ck s') !! p = Some t ->
     t = tracker_new \/ (ck_epoch (ck s') = ck_epoch (ck s) /\ trackers (ck s) !! p = Some t)) ->
  head_reported s -> head_reported s'.
Proof.
  intros Hh Hr Ht H p h. unfold heads. rewrite lookup_fmap, Hh, Hr.
  destruct (trackers (ck s') !! p) as [t|] eqn:E; [|done]. intros [= <-] Hpos.
  destruct (Ht p t E) as [->|[-> Hold]]; [done|]. apply H; [|done].
  unfold heads. by rewrite lookup_fmap, Hold.
Qed.

Lemma head_reported_take s now :
  Inv s -> head_reported s ->
  let '(c, out) := take_watermarks now (ck s) in
  head_reported (set_reported
    (reported s ++ ((fun x => (x.1, ck_epoch (ck s), x.2)) <$> out)) (set_ck c CIdle s)).
Proof.
  intros HI H. pose proof (take_watermarks_elem now (ck s)) as Hel.
  destruct (take_watermarks now (ck s)) as [c out] eqn:Ht. cbn [snd] in Hel.
  apply (f_equal fst) in Ht. cbn [fst] in Ht. subst c. intros p h.
  unfold heads. cbn [ck set_reported set_ck take_watermarks fst trackers ck_epoch history
                     reported].
  rewrite lookup_fmap, map_lookup_imap.
  destruct (trackers (ck s) !! p) as [t|] eqn:Htp; [|done]. cbn [mbind option_bind].
  intros [= <-] Hpos. destruct (iv_part _ HI p t Htp) as [Hok Hn Hq Hc Ho].
  destruct (advance_consumed (now p) t Hok) as (d & _ & Hh & _ & _ & Hd & _ & _ & Hw).
  rewrite Hh in *. destruct d as [|m].
  - destruct (H p (head_seq t)) as (b & Hb & Hin); [by unfold heads; rewrite lookup_fmap, Htp|lia|].
    exists b. rewrite Z.add_0_r. split; [done|]. apply elem_of_app. by left.
  - destruct (lookup_lt_is_Some_2 (ring t) m) as [x Hm]; [lia|].
    destruct (Ho m x Hm) as (b & Hb & Hoff). exists b. split.
    { rewrite <- Hb. do 2 f_equal. lia. }
    apply elem_of_app. right. apply list_elem_of_fmap. exists (p, wrap_i64 (b_off b + 1)).
    split; [done|]. apply Hel. exists t. rewrite Hw, Hm. cbn. by rewrite Hoff.
Qed.

Lemma revoke_lookup ps : forall c p t,
  trackers (revoke ps c) !! p = Some t -> trackers c !! p = Some t /\ p ∉ ps.
Proof.
  intros c p t. unfold revoke. cbn [trackers]. generalize (trackers c).
  induction ps as [|q ps IH]; intros ts; simpl.
  - intros ?. split; [done|]. by intros ?%elem_of_nil.
  - intros [Hd Hp]%IH. apply lookup_delete_Some in Hd as [Hne Hd].
    split; [done|]. intros [->|]%elem_of_cons; done.
Qed.

Lemma revoke_lookup_back ps : forall c p t,
  trackers c !! p = Some t -> p ∉ ps -> trackers (revoke ps c) !! p = Some t.
Proof.
  intros c p t. unfold revoke. cbn [trackers]. generalize (trackers c).
  induction ps as [|q ps IH]; intros ts Ht Hp; simpl; [done|].
  apply not_elem_of_cons in Hp as [Hne Hp]. apply IH; [|done].
  by rewrite lookup_delete_ne.
Qed.

Lemma begin_trackers ps e c c' e' :
  begin_epoch ps e c = Some (c', e') ->
  e' = e /\ ck_epoch c' = e /\
  forall p, trackers c' !! p = if bool_decide (p ∈ ps) then Some tracker_new else None.
Proof.
  unfold begin_epoch. destruct (_ || _); [|done].
  pose proof (admit_all_lookup ps ∅ ∅ (counters c)) as Hts.
  destruct (admit_all ps ∅ ∅ (counters c)) as [[ts gs] cs]. intros [= <- <-].
  split; [done|]. split; [done|]. intros p. cbn [trackers]. rewrite Hts.
  by rewrite lookup_empty.
Qed.

Lemma extend_trackers ps c c' :
  extend_epoch ps c = inr c' ->
  ck_epoch c' = ck_epoch c /\ (forall p, p ∈ ps -> trackers c !! p = None) /\
  forall p, trackers c' !! p = if bool_decide (p ∈ ps) then Some tracker_new else trackers c !! p.
Proof.
  unfold extend_epoch. destruct (first_some _ ps) eqn:Hf; [done|].
  pose proof (admit_all_lookup ps (trackers c) (gates c) (counters c)) as Hts.
  destruct (admit_all ps _ _ _) as [[ts gs] cs]. intros [= <-]. split; [done|].
  split; [|exact Hts]. intros p Hp.
  by destruct (extend_check_None _ _ (first_some_None _ _ Hf p Hp)).
Qed.

Lemma head_reported_step s s' :
  Inv s -> head_reported s -> sys_step s s' -> head_reported s'.
Proof.
  intros HI H [l Hl]. destruct (others_label l) eqn:Eo.
  { eapply head_reported_frame; [|done]. by destruct (others_frame l s s'). }
  pose proof Hl as He. unfold exec in He. rewrite (iv_panic _ HI) in He.
  destruct l as [i|i j|i p off|i|i|r|r|r|ps e own|ps own|ps| | |now]; try done.
  - destruct (issuers s !! i); simplify_eq. eapply head_reported_frame; [|done]. split; eauto.
  - destruct (bool_decide (pc s = CIdle) && _ && _); [|done].
    destruct (begin_epoch ps e (ck s)) as [[c e']|] eqn:Hb; simplify_eq.
    + apply begin_trackers in Hb as (-> & _ & Ht). eapply (head_reported_admit s _ ps); try done.
      cbn [ck]. intros p t. rewrite Ht. case_bool_decide; [|done]. intros [= <-]. by left.
    + eapply head_reported_frame; [|done]. split; eauto.
  - destruct (bool_decide (pc s = CIdle) && _); [|done].
    destruct (extend_epoch ps (ck s)) as [|c] eqn:Hx; simplify_eq; [done|].
    apply extend_trackers in Hx as (Hep & _ & Ht). eapply (head_reported_admit s _ ps); try done.
    cbn [ck]. intros p t. rewrite Ht. case_bool_decide; [|by right].
    intros [= <-]. by left.
  - destruct (bool_decide _); simplify_eq. eapply (head_reported_admit s _ []); try done.
    cbn [ck set_ck]. intros p t [Ht _]%revoke_lookup. by right.
  - destruct (bool_decide _); simplify_eq. eapply head_reported_frame; [|done]. split; eauto.
  - eapply head_reported_frame; [|done]. by apply drain_frame.
  - destruct (bool_decide _); [|done]. pose proof (head_reported_take s now HI H) as Hr.
    destruct (take_watermarks now (ck s)). by simplify_eq.
Qed.

Lemma reachable_head_reported s : reachable s -> head_reported s.
Proof.
  intros Hr. assert (Inv s /\ head_reported s) as [_ ?]; [|done].
  unfold reachable in Hr.
  assert (H0 : Inv sys_init /\ head_reported sys_init) by (split; [apply inv_init|done]).
  revert H0. induction Hr as [|s1 s2 s3 Hs _ IH]; [done|]. intros [HI H]. apply IH.
  split; [by eapply inv_step|by eapply head_reported_step].
Qed.

(** ** The controller's invariant *)

Definition tracked (s : Sys) (p : Z) : Prop := is_Some (trackers (ck s) !! p).

(** Lanes of a partition share a thread; a tracked partition has lanes, unless
    it waits in [todo] for them; the loads count the lanes of each thread. *)
Record places (k : nat) (T : Z -> Prop) (todo : list Z) (s : State) : Prop := mk_places {
  pv_threads : length (thread_load s) = k;
  pv_assign : forall l p t, assignment s !! l = Some (p, t) ->
    (t < k)%nat /\ T p /\ 0 <= l <= U32_MAX;
  pv_tracked : forall p, T p -> p ∈ todo \/ exists l t, assignment s !! l = Some (p, t);
  pv_single : forall l l' p t t', assignment s !! l = Some (p, t) ->
    assignment s !! l' = Some (p, t') -> t = t';
  pv_load : forall t, (t < k)%nat ->
    thread_load s !! t = Some (Z.of_nat (map_count (snd <$> assignment s) t));
  pv_paused : forall l, l ∈ paused s -> is_Some (assignment s !! l);
}.

(** The positions of successful commits, in order, and what they leave stored. *)
Definition acked (cs : list Call) : list (Z * Z) :=
  c ← cs; match c with CallCommit ps None _ => ps | _ => [] end.
Definition stored (cs : list Call) : gmap Z Z :=
  foldl (fun m x => <[x.1 := x.2]> m) ∅ (acked cs).

(** Reported watermarks are pending or covered by a successful commit, and
    pending positions were reported. *)
Record ledger (R rep : list (Z * Z * Z)) (cs : list Call) (pend : gmap Z Z) : Prop := mk_ledger {
  lg_pending : forall p o, pend !! p = Some o -> exists e, (p, e, o) ∈ rep;
  lg_kept : forall p e x, (p, e, x) ∈ R ->
    (exists o, pend !! p = Some o /\ x <= o) \/ (exists o, (p, o) ∈ acked cs /\ x <= o);
}.

(** The exit report's entries are what the source stores, split by whether the
    partition is tracked. *)
Record exits (T : Z -> Prop) (cs : list Call) (s : State) : Prop := mk_exits {
  ex_committed : forall p o, committed s !! p = Some o -> T p /\ stored cs !! p = Some o;
  ex_revoked : forall p o, revoked_committed s !! p = Some o ->
    ~ T p /\ stored cs !! p = Some o;
}.

(** Every position sent covers delivered batches only, at that moment. *)
Definition calls_ok (cs : list Call) : Prop := forall ps r seen p o,
  CallCommit ps r seen ∈ cs -> (p, o) ∈ ps -> exists e, delivered_upto seen p e o.

(** ** A drain takes every registration it finds *)

(** The registrations in the channel are of batches newer than [h]. *)
Definition newer (h : gmap BatchId Batch) (s : Sys) : Prop := forall reg,
  reg ∈ queue (regs s) -> h !! reg_id reg = None.

(** The first registration loop of the drain runs, or it has emptied the channel. *)
Definition sweeping (h : gmap BatchId Batch) (s : Sys) : Prop :=
  (exists st, pc s = CRegs1 st) \/ newer h s.

Lemma others_sweep h l s s' :
  Inv s -> others_label l = true -> exec l s = Some s' ->
  (forall id, is_Some (h !! id) -> is_Some (history s !! id)) -> newer h s -> newer h s'.
Proof.
  intros HI Hl He Hh Hn. unfold exec in He. rewrite (iv_panic _ HI) in He. destruct l; try done.
  - destruct (issuers s !! i) as [[x ?]|], (issuers s !! j); by simplify_eq.
  - destruct (issuers s !! i) as [[x []]|]; try done.
    destruct (_ && _); [|done]. destruct (issue_id _ _ _); by simplify_eq.
  - destruct (issuers s !! i) as [[x [|id off|id off]]|] eqn:Hi; try done. injection He as <-.
    intros reg Hreg. cbn [set_issuer set_sent set_regs regs] in Hreg. unfold send in Hreg.
    rewrite (iv_conn _ HI) in Hreg. cbn [queue] in Hreg.
    apply elem_of_app in Hreg as [Hreg|Hreg%list_elem_of_singleton]; [by apply Hn|].
    subst reg. cbn [reg_id].
    destruct (ii_pc _ _ _ _ _ _ _ (iv_issuer _ HI _ _ _ Hi)) as [Hnone _].
    destruct (h !! id) eqn:E; [|done]. destruct (Hh id) as [? ?]; [by eexists|congruence].
  - destruct (issuers s !! i) as [[x [|id off|id off]]|] eqn:Hi; try done.
    cbn [AckRef_new] in He. by injection He as <-.
  - destruct (heap (acks s) !! r); by simplify_eq.
  - destruct (heap (acks s) !! r); by simplify_eq.
  - destruct (heap (acks s) !! r) as [st|]; by simplify_eq.
Qed.

Lemma recv_reg_sweep h (k : DrainStats -> CtlPc) st reg rest s :
  try_recv (regs s) = Some (reg, rest) -> newer h s -> newer h (recv_reg k st reg rest s).
Proof.
  unfold try_recv, recv_reg. destruct (queue (regs s)) as [|reg' q] eqn:E; [done|].
  intros [= -> <-] Hn.
  destruct (apply_registration _ _ _) as [[c st']|]; intros r Hr; apply Hn; rewrite E; by right.
Qed.

Lemma drain_sweep h s s' :
  Inv s -> exec LDrainStep s = Some s' -> sweeping h s -> sweeping h s'.
Proof.
  intros HI He Hs. unfold exec in He. rewrite (iv_panic _ HI) in He.
  pose proof (iv_panic _ (inv_drain_step _ _ HI He)) as Hnp. unfold drain_step in He.
  destruct (pc s) as [|st|st ds|st ds|st ds] eqn:Hpc; [done|..]; injection He as <-;
    (destruct Hs as [[st0 Hst]|Hn]; [rewrite Hpc in Hst; simplify_eq|]).
  1,2: destruct (try_recv (regs s)) as [[reg rest]|] eqn:E.
  1,3: left; unfold recv_reg in *; destruct (apply_registration _ _ _) as [[c st']|]; [by eexists|done].
  1,2: right; intros reg Hreg; unfold try_recv in E; cbn in Hreg; destruct (queue (regs s));
    [by apply elem_of_nil in Hreg|done].
  - right. destruct (try_recv (ack_tx (acks s))) as [[m rest]|]; [|destruct ds; exact Hn].
    destruct (apply m _ _ _) as [[c st'] ds']. exact Hn.
  - right. destruct (try_recv (regs s)) as [[reg rest]|] eqn:E; [by apply recv_reg_sweep|exact Hn].
  - right. destruct ds as [|m ds]; [exact Hn|].
    destruct (apply m _ _ _) as [[c st'] ds']. exact Hn.
Qed.

Lemma exec_all_sweep h ls : forall s s',
  Inv s -> forallb drain_label ls = true -> exec_all ls s = Some s' ->
  (forall id, is_Some (h !! id) -> is_Some (history s !! id)) -> sweeping h s -> sweeping h s'.
Proof.
  induction ls as [|l ls IH]; intros s s' HI Hl He Hh Hs; simpl in *; [by simplify_eq|].
  apply andb_prop in Hl as [Hl Hls]. destruct (exec l s) as [s1|] eqn:E; [|done].
  assert (HI1 : Inv s1) by (eapply inv_step; [done|by exists l]).
  assert (HF : frame s s1 /\ sweeping h s1).
  { destruct (others_label l) eqn:Eo; [|destruct l; try done; split; [by apply drain_frame|]].
    - destruct (others_frame l s s1 HI Eo E) as (HF & Hpc & _). split; [done|].
      destruct Hs as [[st Hst]|Hn]; [left; exists st; congruence|right].
      by apply (others_sweep h l s).
    - by apply (drain_sweep h s). }
  destruct HF as [HF Hs1]. apply (IH s1); try done. intros id Hid.
  destruct (Hh id Hid) as [b Hb]. destruct (fr_off _ _ HF _ _ Hb) as (b' & Hb' & _). by exists b'.
Qed.

(** The clock is far from the end of its range. *)
Definition CLOCK_MAX : Z := INSTANT_MAX / 4.
Definition clock_ok (q : Answer) : Prop :=
  match q with
  | Clock t | Trigger (Some t) => 0 <= t <= CLOCK_MAX
  | _ => True
  end.

(** Durations that are added to a clock reading are a day at most. *)
Definition short (P : Params) : Prop :=
  0 <= drain_timeout P <= ONE_DAY /\ 0 <= chase_window P <= ONE_DAY /\ 0 <= close_share P.

Section Invariant.
(** Where [lax] holds, the clock and the settings are arbitrary and an
    [Instant] may overflow. *)
Context (lax : Prop) (prm : Params) (Hshort : lax \/ short prm).

Definition admitted (q : Answer) : Prop := lax \/ clock_ok q.
Notation holds := (under admitted lax).

(** The deadline of a stop under way is near the clock too. *)
Definition stop_near (o : option StopTimes) : Prop := forall times,
  o = Some times -> lax \/ 0 <= stop_deadline times <= CLOCK_MAX + ONE_DAY.

Record WInv (k : nat) (b : Z) (todo : list Z) (R : list (Z * Z * Z)) (w : World) : Prop :=
  mk_WInv {
  wv_reach : reachable (sys w);
  wv_idle : pc (sys w) = CIdle;
  wv_epoch : epoch (state w) = ck_epoch (ck (sys w)) /\ 0 <= epoch (state w) <= b;
  wv_txs : length (control_txs w) = k;
  wv_places : places k (tracked (sys w)) todo (state w);
  wv_ledger : ledger R (reported (sys w)) (calls w) (pending_commit (state w));
  wv_exits : exits (tracked (sys w)) (calls w) (state w);
  wv_calls : calls_ok (calls w);
  wv_stop : stop_near (stopping (locals w));
}.

(** The invariant between operations. *)
Definition WI (k : nat) (b : Z) (todo : list Z) (w : World) : Prop :=
  WInv k b todo (reported (sys w)) w.

Lemma exec_all_drain ls : forall s s',
  Inv s -> forallb drain_label ls = true -> exec_all ls s = Some s' ->
  Inv s' /\ frame s s'.
Proof.
  induction ls as [|l ls IH]; intros s s' HI Hl He; simpl in *.
  - simplify_eq. auto using frame_refl.
  - apply andb_prop in Hl as [Hl Hls]. destruct (exec l s) as [s1|] eqn:E; [|done].
    assert (HI1 : Inv s1) by (eapply inv_step; [done|by exists l]).
    destruct (IH s1 s' HI1 Hls He) as [HI' HF]. split; [done|].
    eapply frame_trans; [|done]. destruct (others_label l) eqn:Eo.
    + by destruct (others_frame l s s1).
    + destruct l; try done. by apply drain_frame.
Qed.

Lemma exec_all_others ls : forall s s',
  Inv s -> forallb others_label ls = true -> exec_all ls s = Some s' ->
  Inv s' /\ frame s s' /\ pc s' = pc s /\ ck s' = ck s.
Proof.
  induction ls as [|l ls IH]; intros s s' HI Hl He; simpl in *.
  - simplify_eq. auto using frame_refl.
  - apply andb_prop in Hl as [Hl Hls]. destruct (exec l s) as [s1|] eqn:E; [|done].
    assert (HI1 : Inv s1) by (eapply inv_step; [done|by exists l]).
    destruct (IH s1 s' HI1 Hls He) as (HI' & HF & Hp & Hc).
    destruct (others_frame l s s1) as (HF1 & Hp1 & Hc1); try done.
    split_and!; try congruence. by eapply frame_trans.
Qed.

Lemma frame_tracked s s' p : frame s s' -> tracked s' p <-> tracked s p.
Proof.
  intros HF. pose proof (f_equal (lookup p) (fr_heads _ _ HF)) as H. unfold heads in H.
  rewrite !lookup_fmap in H. unfold tracked.
  destruct (trackers (ck s') !! p), (trackers (ck s) !! p); simpl in H; split; intros [? ?];
    try done; eauto.
Qed.

Lemma places_ext k T T' todo s :
  (forall p, T' p <-> T p) -> places k T todo s -> places k T' todo s.
Proof.
  intros HT [A B C D E F]. split; try done.
  - intros l p t Hl. rewrite HT. eauto.
  - intros p Hp%HT. eauto.
Qed.

Lemma exits_ext T T' cs s : (forall p, T' p <-> T p) -> exits T cs s -> exits T' cs s.
Proof. intros HT [A B]. split; intros p o; rewrite HT; eauto. Qed.

Lemma ledger_rep R rep rep' cs pend :
  (forall x, x ∈ rep -> x ∈ rep') -> ledger R rep cs pend -> ledger R rep' cs pend.
Proof. intros Hr [A B]. split; [|done]. intros p o (e & He)%A. eauto. Qed.

(** The system moves without touching what the controller knows. *)
Lemma winv_frame k b todo R w s' :
  WInv k b todo R w -> reachable s' -> pc s' = CIdle -> frame (sys w) s' ->
  WInv k b todo R (put_sys s' w).
Proof.
  intros [A B C D E F G H] Hr Hpc HF. pose proof (fun p => frame_tracked _ _ p HF) as HT.
  split; cbn [put_sys sys state control_txs calls]; try done.
  - by rewrite (fr_epoch _ _ HF).
  - by eapply places_ext.
  - by rewrite (fr_reported _ _ HF).
  - by eapply exits_ext.
Qed.

Lemma holds_steps (P : World -> Prop) ls (R : unit -> World -> Prop) :
  (forall w, P w -> reachable (sys w)) ->
  (forall w s', P w -> exec_all ls (sys w) = Some s' -> reachable s' -> R tt (put_sys s' w)) ->
  holds P (steps ls) R.
Proof.
  intros HP H w t Hw HG. unfold steps. destruct (exec_all ls (sys w)) as [s'|] eqn:E; [|done].
  assert (Hr : reachable s') by (unfold reachable; etrans; [by apply HP|by eapply exec_all_reachable]).
  rewrite (iv_panic _ (reachable_inv _ Hr)). split; [by apply H|done].
Qed.

(** Steps of other threads, or of the drain, keep the controller's own state. *)
Definition WS (k : nat) (b : Z) (todo : list Z) (F : State -> Prop) (w : World) : Prop :=
  WI k b todo w /\ F (state w).

Lemma ws_frame k b todo F w s' :
  WS k b todo F w -> reachable s' -> pc s' = CIdle -> frame (sys w) s' ->
  WS k b todo F (put_sys s' w).
Proof.
  intros [HW HF] Hr Hpc Hf. split; [|done]. unfold WI. cbn [put_sys sys].
  rewrite (fr_reported _ _ Hf). by apply winv_frame.
Qed.

Lemma holds_others k b todo F : holds (WS k b todo F) others (fun _ => WS k b todo F).
Proof.
  eapply under_bind; [apply under_ask|]. intros ls. simpl.
  destruct (forallb others_label ls) eqn:El; [|apply under_stuck].
  apply holds_steps; [intros w HW; apply HW|]. intros w s' HW He Hr.
  destruct (exec_all_others ls (sys w) s') as (_ & HF & Hpc & _); try done.
  { apply reachable_inv, HW. }
  apply ws_frame; try done. rewrite Hpc. apply HW.
Qed.

Lemma holds_drain k b todo F : holds (WS k b todo F) drain_all (fun _ => WS k b todo F).
Proof.
  eapply under_bind; [apply under_ask|]. intros ls. simpl.
  destruct (forallb drain_label ls) eqn:El; [|apply under_stuck].
  eapply (under_bind _ _ _ (fun _ w => exists w0, WS k b todo F w0 /\
    reachable (sys w) /\ frame (sys w0) (sys w) /\ w = put_sys (sys w) w0)).
  - apply holds_steps; [intros w HW; apply HW|]. intros w s' HW He Hr.
    exists w. split_and!; try done. cbn [exec_all] in He. unfold exec in He at 1.
    pose proof (reachable_inv _ (wv_reach _ _ _ _ _ (proj1 HW))) as HI.
    pose proof (wv_idle _ _ _ _ _ (proj1 HW)) as Hidle.
    rewrite (iv_panic _ HI), bool_decide_true in He by done.
    assert (HI1 : Inv (set_ck (ck (sys w)) (CRegs1 stats_default) (sys w)))
      by (apply inv_set_pc; by rewrite ?Hidle).
    destruct (exec_all_drain ls _ _ HI1 El He) as [_ HF]. eapply frame_trans; [|exact HF].
    split; eauto.
  - intros []. apply under_get_bind. intros w'. destruct (decide (pc (sys w') = CIdle)) as [Hpc|Hpc].
    + rewrite bool_decide_true by done. apply under_ret. intros w [-> (w0 & HW & Hr & HF & ->)].
      by apply ws_frame.
    + rewrite bool_decide_false by done. apply under_stuck.
Qed.

(** The invariant with the assignment fixed. *)
Definition WA (k : nat) (b : Z) (todo : list Z) (a : gmap Z (Z * nat)) : World -> Prop :=
  WS k b todo (fun s => assignment s = a).

Definition tagged (e : Z) (out : list (Z * Z)) : list (Z * Z * Z) :=
  (fun x => (x.1, e, x.2)) <$> out.

Lemma take_tracked now c p :
  is_Some (trackers (take_watermarks now c).1 !! p) <-> is_Some (trackers c !! p).
Proof.
  unfold take_watermarks. cbn [fst trackers]. rewrite map_lookup_imap.
  destruct (trackers c !! p); simpl; split; intros [? ?]; try done; eauto.
Qed.

Lemma exec_take now s s' :
  exec (LTake now) s = Some s' ->
  ck s' = (take_watermarks now (ck s)).1 /\ pc s' = CIdle /\
  reported s' = reported s ++ tagged (ck_epoch (ck s)) (take_watermarks now (ck s)).2 /\
  ck_epoch (ck s') = ck_epoch (ck s) /\ history s' = history s.
Proof.
  unfold exec. destruct (panicked s); [done|]. destruct (bool_decide _); [|done].
  destruct (take_watermarks now (ck s)) as [c out] eqn:E. intros [= <-]. simpl.
  split_and!; try done. by apply (f_equal fst) in E; simpl in E; subst c.
Qed.

Lemma holds_take k b todo a :
  holds (WA k b todo a) take_all (fun out w => exists R, WInv k b todo R w /\
    assignment (state w) = a /\
    reported (sys w) = R ++ tagged (ck_epoch (ck (sys w))) out).
Proof.
  eapply under_bind; [apply under_ask|]. intros now. apply under_get_bind. intros w.
  eapply (under_bind _ _ _ (fun _ w' => exists s', w' = put_sys s' w /\ WA k b todo a w /\
    exec (LTake now) (sys w) = Some s' /\ reachable s')).
  - apply holds_steps; [by intros ? [-> [HW _]]; apply HW|]. intros ? s' [-> HW] He Hr.
    exists s'. split_and!; try done; try apply HW. cbn [exec_all] in He.
    by destruct (exec (LTake now) (sys w)).
  - intros []. apply under_ret. intros w' (s' & -> & [[A B C D E F G H] Ha] & He & Hr).
    apply exec_take in He as (Hck & Hpc & Hrep & Hep & Hh).
    assert (HT : forall p, tracked s' p <-> tracked (sys w) p).
    { intros p. unfold tracked. rewrite Hck. apply take_tracked. }
    exists (reported (sys w)). split_and!; [|done|by rewrite <- Hep in Hrep; exact Hrep].
    split; cbn [put_sys sys state control_txs calls]; try done.
    + by rewrite Hep.
    + by eapply places_ext.
    + eapply ledger_rep; [|exact F]. intros x Hx. rewrite Hrep. apply elem_of_app. by left.
    + by eapply exits_ext.
Qed.

(** Folding watermarks in keeps what was there and covers them. *)
Lemma fold_watermarks out : forall m p,
  (forall o, m !! p = Some o -> exists o', foldl fold_watermark m out !! p = Some o' /\ o <= o') /\
  (forall x, (p, x) ∈ out -> exists o', foldl fold_watermark m out !! p = Some o' /\ x <= o') /\
  (forall o, foldl fold_watermark m out !! p = Some o -> m !! p = Some o \/ (p, o) ∈ out).
Proof.
  induction out as [|[q y] out IH]; intros m p; simpl.
  { split_and!; [eauto with lia|by intros x ?%elem_of_nil|by left]. }
  destruct (IH (fold_watermark m (q, y)) p) as (I1 & I2 & I3). split_and!.
  - intros o Ho. unfold fold_watermark in I1 at 1. simpl in I1.
    destruct (decide (q = p)) as [->|Hne].
    + destruct (I1 _ (lookup_insert_eq _ _ _)) as (o' & Ho' & Hle). rewrite Ho in Hle.
      simpl in Hle. exists o'. split; [done|lia].
    + rewrite lookup_insert_ne in I1 by done. eauto.
  - intros x [[= <- <-]|Hx]%elem_of_cons; [|by apply I2].
    destruct (I1 _ (lookup_insert_eq _ _ _)) as (o' & Ho' & Hle). simpl in Hle.
    exists o'. split; [done|lia].
  - intros o [Ho|Ho]%I3; [|right; by apply list_elem_of_further].
    unfold fold_watermark in Ho. simpl in Ho. destruct (decide (q = p)) as [->|Hne].
    + rewrite lookup_insert_eq in Ho. injection Ho as <-.
      destruct (m !! p) as [z|]; simpl; [|rewrite Z.max_id; right; apply list_elem_of_here].
      destruct (Z.max_spec z y) as [[_ ->]|[_ ->]]; [right; apply list_elem_of_here|by left].
    + rewrite lookup_insert_ne in Ho by done. by left.
Qed.

Lemma ledger_fold R e out rep cs pend :
  rep = R ++ tagged e out -> ledger R rep cs pend ->
  ledger rep rep cs (foldl fold_watermark pend out).
Proof.
  intros Hrep [A B]. split.
  - intros p o Ho. destruct (fold_watermarks out pend p) as (_ & _ & [Hp|Hp]%(fun f => f o Ho)).
    + by apply A.
    + exists e. rewrite Hrep. apply elem_of_app. right. apply list_elem_of_fmap. by exists (p, o).
  - intros p e' x Hx. destruct (fold_watermarks out pend p) as (I1 & I2 & _).
    rewrite Hrep in Hx. apply elem_of_app in Hx as [Hx|Hx].
    + destruct (B p e' x Hx) as [(o & Ho & Hle)|]; [|by right]. left.
      destruct (I1 o Ho) as (o' & Ho' & Hle'). exists o'. split; [done|lia].
    + left. apply list_elem_of_fmap in Hx as ([q y] & [= -> _ ->] & Hin). by apply I2.
Qed.

Lemma holds_upd_state (P : World -> Prop) f (R : unit -> World -> Prop) :
  (forall w, P w -> R tt (mkWorld (sys w) (f (state w)) (locals w) (control_txs w) (barriers w)
                            (shutdown w) (calls w))) -> holds P (upd_state f) R.
Proof. intros H. by apply under_modify. Qed.

Lemma holds_harvest k b todo a : holds (WA k b todo a) harvest (fun _ => WA k b todo a).
Proof.
  eapply under_bind; [apply holds_drain|]. intros [].
  eapply under_bind; [apply holds_take|]. intros out. apply holds_upd_state.
  intros w (R & [A B C D E F G H] & Ha & Hrep). split; [|done].
  split; cbn [sys state control_txs calls]; try done.
  - destruct E. by split.
  - by eapply ledger_fold.
  - destruct G. by split.
Qed.

(** ** Commits *)
Lemma acked_snoc cs c :
  acked (cs ++ [c]) = acked cs ++ match c with CallCommit ps None _ => ps | _ => [] end.
Proof.
  unfold acked. rewrite bind_app. f_equal. simpl. by rewrite app_nil_r.
Qed.

Lemma elem_of_entries {A} (m : gmap Z A) p x : (p, x) ∈ entries m <-> m !! p = Some x.
Proof. unfold entries. by rewrite merge_sort_Permutation, elem_of_map_to_list. Qed.

Lemma entries_nodup {A} (m : gmap Z A) : NoDup (entries m).*1.
Proof.
  unfold entries. rewrite merge_sort_Permutation. apply NoDup_fst_map_to_list.
Qed.

Lemma nodup_filter_fst {A} (f : Z * A -> Prop) `{forall x, Decision (f x)} (l : list (Z * A)) :
  NoDup l.*1 -> NoDup (filter f l).*1.
Proof.
  induction l as [|x l IH]; simpl; [done|]. intros [Hx Hl]%NoDup_cons. rewrite filter_cons.
  destruct (decide (f x)); [|by apply IH]. simpl. apply NoDup_cons. split; [|by apply IH].
  intros (y & Hy & Hin)%list_elem_of_fmap. apply Hx. apply list_elem_of_fmap. exists y.
  split; [done|]. by apply list_elem_of_filter in Hin as [_ ?].
Qed.

(** Inserting positions one after the other. *)
Lemma fold_insert_lookup (l : list (Z * Z)) : forall (m : gmap Z Z) p,
  NoDup l.*1 ->
  (forall o, (p, o) ∈ l -> foldl (fun m x => <[x.1 := x.2]> m) m l !! p = Some o) /\
  (p ∉ l.*1 -> foldl (fun m x => <[x.1 := x.2]> m) m l !! p = m !! p).
Proof.
  induction l as [|[q y] l IH]; intros m p; simpl.
  - intros _. split; [by intros o ?%elem_of_nil|done].
  - intros [Hq Hl]%NoDup_cons. destruct (IH (<[q := y]> m) p Hl) as [I1 I2]. split.
    + intros o [[= -> ->]|Ho]%elem_of_cons; [|by apply I1].
      rewrite I2 by done. by rewrite lookup_insert_eq.
    + intros [Hne Hp]%not_elem_of_cons. rewrite I2 by done. by rewrite lookup_insert_ne.
Qed.

Lemma stored_snoc cs ps seen :
  stored (cs ++ [CallCommit ps None seen]) =
  foldl (fun m x => <[x.1 := x.2]> m) (stored cs) ps.
Proof. unfold stored. by rewrite acked_snoc, foldl_app. Qed.

(** The state after a successful commit. *)
Record commits (T : Z -> bool) (l : list (Z * Z)) (s s' : State) : Prop := mk_commits {
  cm_rest : assignment s' = assignment s /\ thread_load s' = thread_load s /\
    paused s' = paused s /\ epoch s' = epoch s /\ failure s' = failure s;
  cm_pending : forall p, pending_commit s' !! p =
    if bool_decide (p ∈ l.*1) then None else pending_commit s !! p;
  cm_committed : committed s' =
    foldl (fun m x => if Bool.eqb (T x.1) true then <[x.1 := x.2]> m else m) (committed s) l;
  cm_revoked : revoked_committed s' =
    foldl (fun m x => if Bool.eqb (T x.1) false then <[x.1 := x.2]> m else m)
      (revoked_committed s) l;
}.

Lemma commit_all_spec T l : forall s, commits T l s (foldl (commit_one T) s l).
Proof.
  induction l as [|[q y] l IH]; intros s; simpl.
  - split; [done| |done|done]. intros p. by rewrite bool_decide_false by apply not_elem_of_nil.
  - destruct (IH (commit_one T s (q, y))) as [(A1 & A2 & A3 & A4 & A5) B C D].
    unfold commit_one in *. simpl in *. destruct (T q) eqn:Hq; simpl in *.
    all: split; [done| |by simpl; rewrite C, Hq|by simpl; rewrite D, Hq].
    all: cbn [fmap list_fmap fst].
    all: intros p; rewrite B; destruct (decide (p ∈ l.*1));
      [rewrite !bool_decide_true by (done || by apply list_elem_of_further); done|].
    all: rewrite (bool_decide_false (p ∈ l.*1)) by done; destruct (decide (q = p)) as [->|];
      [by rewrite lookup_delete_eq, bool_decide_true by apply list_elem_of_here|].
    all: rewrite lookup_delete_ne by done; rewrite bool_decide_false; [done|].
    all: by intros [->|]%elem_of_cons.
Qed.

(** The two halves of the exit report, entry by entry. *)
Lemma split_insert_lookup (T : Z -> bool) v (l : list (Z * Z)) : forall (m : gmap Z Z) p o,
  NoDup l.*1 ->
  foldl (fun m x => if Bool.eqb (T x.1) v then <[x.1 := x.2]> m else m) m l !! p = Some o ->
  ((p, o) ∈ l /\ T p = v) \/ (m !! p = Some o /\ (p ∉ l.*1 \/ T p <> v)).
Proof.
  induction l as [|[q y] l IH]; intros m p o; simpl.
  - intros _ ?. right. split; [done|]. left. apply not_elem_of_nil.
  - intros [Hq Hl]%NoDup_cons Ho. destruct (IH _ _ _ Hl Ho) as [[Hin HT]|[Ho' Hor]].
    + left. split; [by apply list_elem_of_further|done].
    + clear Ho. destruct (Bool.eqb (T q) v) eqn:HT; [apply Bool.eqb_prop in HT|apply Bool.eqb_false_iff in HT].
      * destruct (decide (q = p)) as [->|].
        -- rewrite lookup_insert_eq in Ho'. injection Ho' as ->. left.
           split; [apply list_elem_of_here|done].
        -- rewrite lookup_insert_ne in Ho' by done. right. split; [done|].
           destruct Hor; [left; by apply not_elem_of_cons|by right].
      * right. split; [done|]. destruct (decide (q = p)) as [->|]; [by right|].
        destruct Hor; [left; by apply not_elem_of_cons|by right].
Qed.

Definition positions (only : option (gset Z)) (s : State) : list (Z * Z) :=
  filter (fun x => chosen only x.1 = true) (entries (pending_commit s)).

Lemma positions_pending only s p o : (p, o) ∈ positions only s -> pending_commit s !! p = Some o.
Proof. intros [_ Hin]%list_elem_of_filter. by apply elem_of_entries. Qed.

Lemma positions_nodup only s : NoDup (positions only s).*1.
Proof. apply nodup_filter_fst, entries_nodup. Qed.

(** A call that is not a successful commit leaves the accounts alone. *)
Lemma ledger_call R rep cs c pend :
  acked (cs ++ [c]) = acked cs -> ledger R rep cs pend -> ledger R rep (cs ++ [c]) pend.
Proof. intros Hc [A B]. split; [done|]. by rewrite Hc. Qed.

Lemma exits_call T cs c s :
  acked (cs ++ [c]) = acked cs -> exits T cs s -> exits T (cs ++ [c]) s.
Proof. intros Hc [A B]. split; unfold stored; by rewrite Hc. Qed.

Lemma calls_ok_snoc cs c :
  calls_ok cs ->
  (forall ps r seen p o, c = CallCommit ps r seen -> (p, o) ∈ ps ->
     exists e, delivered_upto seen p e o) -> calls_ok (cs ++ [c]).
Proof.
  intros H Hc ps r seen p o [Hin|Hin]%elem_of_app; [by apply (H ps r seen)|].
  apply list_elem_of_singleton in Hin. subst c. by apply (Hc ps r seen).
Qed.

Lemma ledger_commit R rep cs only T s seen :
  ledger R rep cs (pending_commit s) ->
  ledger R rep (cs ++ [CallCommit (positions only s) None seen])
    (pending_commit (foldl (commit_one T) s (positions only s))).
Proof.
  intros [A B]. destruct (commit_all_spec T (positions only s) s) as [_ Hp _ _]. split.
  - intros p o. rewrite Hp. case_bool_decide; [done|apply A].
  - intros p e x Hx. rewrite Hp, acked_snoc. destruct (B p e x Hx) as [(o & Ho & Hle)|(o & Ho & Hle)].
    + case_bool_decide as Hin; [|by left; eauto]. right. exists o. split; [|done].
      apply elem_of_app. right. apply list_elem_of_fmap in Hin as ([q o'] & -> & Hin).
      pose proof (positions_pending _ _ _ _ Hin) as Ho'. simpl in Ho. by simplify_eq.
    + right. exists o. split; [|done]. apply elem_of_app. by left.
Qed.

Lemma exits_commit (T : Z -> bool) (T' : Z -> Prop) cs only s seen :
  (forall p, T p = true <-> T' p) -> exits T' cs s ->
  exits T' (cs ++ [CallCommit (positions only s) None seen])
    (foldl (commit_one T) s (positions only s)).
Proof.
  intros HT [A B]. pose proof (positions_nodup only s) as Hnd.
  destruct (commit_all_spec T (positions only s) s) as [_ _ Hc Hr].
  assert (HF : forall p, T p = false <-> ~ T' p)
    by (intros p; rewrite <- (HT p); by destruct (T p)).
  pose proof (fun p => fold_insert_lookup (positions only s) (stored cs) p Hnd) as Hs.
  split; intros p o Ho; rewrite stored_snoc.
  - rewrite Hc in Ho. apply split_insert_lookup in Ho as [[Hin Hp]|[Ho [Hp|Hp]]]; [..|done].
    + split; [by apply HT|]. by apply Hs.
    + destruct (A p o Ho). split; [done|]. by rewrite (proj2 (Hs p) Hp).
    + apply A in Ho as [Ho _]. by apply HT in Ho.
  - rewrite Hr in Ho. apply split_insert_lookup in Ho as [[Hin Hp]|[Ho [Hp|Hp]]]; [..|done].
    + split; [by apply HF|]. by apply Hs.
    + destruct (B p o Ho). split; [done|]. by rewrite (proj2 (Hs p) Hp).
    + apply B in Ho as [Ho _]. by apply HF in Ho.
Qed.

Lemma places_same k T todo s s' :
  assignment s' = assignment s -> thread_load s' = thread_load s -> paused s' = paused s ->
  places k T todo s -> places k T todo s'.
Proof. intros E1 E2 E3 [A B C D E F]. split; rewrite ?E1, ?E2, ?E3; done. Qed.

Lemma holds_call (P : World -> Prop) c :
  holds P (call c) (fun r w' => exists w, P w /\ w' = logged (c r) w).
Proof.
  eapply under_bind; [apply under_ask|]. intros r.
  eapply (under_bind _ _ _ (fun _ w' => exists w, P w /\ w' = logged (c r) w)).
  - apply under_modify. eauto.
  - intros []. by apply under_ret.
Qed.

(** The invariant after a call that is not a successful commit. *)
Lemma winv_logged k b todo F w c :
  WS k b todo F w -> acked (calls w ++ [c]) = acked (calls w) ->
  (forall ps r seen p o, c = CallCommit ps r seen -> (p, o) ∈ ps ->
     exists e, delivered_upto seen p e o) -> WS k b todo F (logged c w).
Proof.
  intros [[A B C D E L G H] HF] Hc Hok. split; [|done].
  split; cbn [logged sys state control_txs calls]; try done.
  - by apply ledger_call.
  - by apply exits_call.
  - by apply calls_ok_snoc.
Qed.

Lemma winv_failure k b todo F w f :
  WS k b todo F w -> (forall s, F s -> F (f s)) ->
  (forall s, exists o, f s = mkState (assignment s) (thread_load s) (paused s) (epoch s)
     (pending_commit s) (committed s) (revoked_committed s) o) ->
  WS k b todo F (mkWorld (sys w) (f (state w)) (locals w) (control_txs w) (barriers w)
                   (shutdown w) (calls w)).
Proof.
  intros [[A B C D E L G H] HF] Hf Hs. specialize (Hf _ HF). destruct (Hs (state w)) as [o Ho].
  rewrite Ho in *. split; [|done]. split; cbn; try done; [by destruct E|by destruct G].
Qed.

Lemma winv_commit k b todo a only w :
  WA k b todo a w ->
  WA k b todo a (mkWorld (sys w)
    (foldl (commit_one (fun p => tracks p (ck (sys w)))) (state w) (positions only (state w)))
    (locals w) (control_txs w) (barriers w) (shutdown w)
    (calls w ++ [CallCommit (positions only (state w)) None (history (sys w))])).
Proof.
  intros [[A B C D E L G H] Ha].
  destruct (commit_all_spec (fun p => tracks p (ck (sys w))) (positions only (state w)) (state w))
    as [(E1 & E2 & E3 & E4 & E5) _ _ _].
  split; [|by cbn [state]; rewrite E1]. split; cbn [sys state control_txs calls]; try done.
  - by rewrite E4.
  - by eapply places_same.
  - by apply ledger_commit.
  - apply exits_commit; [|done]. intros p. apply bool_decide_eq_true.
  - apply calls_ok_snoc; [done|]. intros ps r seen p o [= <- <- <-] Hin%positions_pending.
    destruct (lg_pending _ _ _ _ L p o Hin) as (e & He). exists e.
    by apply (iv_reported _ (reachable_inv _ A)).
Qed.

Lemma holds_commit_cycle k b todo a only :
  holds (WA k b todo a) (commit_cycle only) (fun _ => WA k b todo a).
Proof.
  eapply under_bind; [apply holds_harvest|]. intros []. apply under_get_bind. intros w.
  destruct (bool_decide (pending_commit (state w) = ∅)); [by apply under_ret; intros ? [-> ?]|].
  cbv zeta. fold (positions only (state w)).
  destruct (bool_decide (positions only (state w) = [])); [by apply under_ret; intros ? [-> ?]|].
  eapply under_bind; [apply holds_call|]. intros r.
  assert (Hlog : WA k b todo a w -> r <> None ->
    WA k b todo a (logged (CallCommit (positions only (state w)) r (history (sys w))) w)).
  { intros HW Hr. apply winv_logged; [done| |].
    - rewrite acked_snoc. destruct r; [by rewrite app_nil_r|done].
    - intros ps r' seen p o [= <- <- <-] Hin%positions_pending.
      destruct (lg_pending _ _ _ _ (wv_ledger _ _ _ _ _ (proj1 HW)) p o Hin) as (e & He).
      exists e. apply (iv_reported _ (reachable_inv _ (wv_reach _ _ _ _ _ (proj1 HW)))). done. }
  destruct r as [[]|].
  - apply under_ret. intros ? (? & [-> HW] & ->). by apply Hlog.
  - apply under_ret. intros ? (? & [-> HW] & ->). by apply Hlog.
  - apply holds_upd_state. intros ? (? & [-> HW] & ->).
    apply (winv_failure _ _ _ _ (logged _ w)); [by apply Hlog|done|by eexists].
  - apply holds_upd_state. intros ? (? & [-> HW] & ->). exact (winv_commit _ _ _ _ only w HW).
Qed.

(** ** Messages, barriers and calls *)

(** Neither the system nor the state nor the commits change. *)
Lemma ws_same k b todo F w w' :
  WS k b todo F w -> sys w' = sys w -> state w' = state w ->
  length (control_txs w') = length (control_txs w) -> calls w' = calls w ->
  stop_near (stopping (locals w')) -> WS k b todo F w'.
Proof.
  intros [[A B C D E L G H _] HF] E1 E2 E3 E4. unfold WS, WI. rewrite E1, E2.
  split; [|done]. split; rewrite ?E1, ?E2, ?E3, ?E4; done.
Qed.

Lemma holds_upd_locals k b todo F f :
  (forall l, stop_near (stopping l) -> stop_near (stopping (f l))) ->
  holds (WS k b todo F) (upd_locals f) (fun _ => WS k b todo F).
Proof. intros Hf. apply under_modify. intros w HW. apply (ws_same _ _ _ _ w); try done. apply Hf, HW. Qed.

Lemma holds_upd_barriers k b todo F f :
  holds (WS k b todo F) (upd_barriers f) (fun _ => WS k b todo F).
Proof. apply under_modify. intros w HW. apply (ws_same _ _ _ _ w); try done; apply HW. Qed.

Lemma holds_set_shutdown k b todo F :
  holds (WS k b todo F) set_shutdown (fun _ => WS k b todo F).
Proof. apply under_modify. intros w HW. apply (ws_same _ _ _ _ w); try done; apply HW. Qed.

Lemma holds_send_to k b todo F t m :
  (t < k)%nat -> holds (WS k b todo F) (send_to t m) (fun _ => WS k b todo F).
Proof.
  intros Ht. apply under_get_bind. intros w.
  destruct (decide (t < length (control_txs w))%nat) as [Hlt|Hge].
  - rewrite bool_decide_true by done. apply under_modify. intros ? [-> HW].
    apply (ws_same _ _ _ _ w); try done; [|apply HW]. cbn [control_txs]. by rewrite length_alter.
  - intros ? ? [-> HW]. destruct Hge. by rewrite (wv_txs _ _ _ _ _ (proj1 HW)).
Qed.

(** A message to some of the threads the world has. *)
Lemma holds_send_some k b todo F (c : nat -> bool) (m : nat -> ThreadControl) w :
  holds (fun w' => w' = w /\ WS k b todo F w)
    (each (fun t => when (c t) (send_to t (m t))) (seq 0 (length (control_txs w))))
    (fun _ => WS k b todo F).
Proof.
  intros w' t [-> HW]. refine (under_each (WS k b todo F) _ _ _ w t HW).
  rewrite (wv_txs _ _ _ _ _ (proj1 HW)). intros i Hi%elem_of_seq.
  apply under_when; [intros _|done]. apply holds_send_to. lia.
Qed.

Lemma holds_send_all k b todo F m :
  holds (WS k b todo F) (send_all m) (fun _ => WS k b todo F).
Proof.
  apply under_get_bind. intros w.
  apply (holds_send_some k b todo F (fun _ => true) (fun _ => m)).
Qed.

Lemma holds_new_barrier k b todo F n :
  holds (WS k b todo F) (new_barrier n) (fun _ => WS k b todo F).
Proof.
  apply under_get_bind. intros w.
  eapply (under_bind _ _ _ (fun _ => WS k b todo F)); [|intros []; by apply under_ret].
  eapply under_pre; [apply holds_upd_barriers|]. by intros ? [-> ?].
Qed.

(** ** Instants *)
Lemma clock_room :
  2 * CLOCK_MAX + ONE_DAY <= INSTANT_MAX /\ CLOCK_MAX + ONE_DAY + 2 * SECOND <= DURATION_MAX.
Proof. by split. Qed.

Lemma holds_clock (I : World -> Prop) :
  holds I ask_clock (fun t w => I w /\ (lax \/ 0 <= t <= CLOCK_MAX)).
Proof.
  eapply under_weaken; [apply (under_ask_good I)|done|]. intros t w [HI (q & Hq & Ht)].
  split; [done|]. destruct q; simplify_eq. exact Hq.
Qed.

Lemma holds_or_panic {A} (I : World -> Prop) (o : option A) :
  (lax \/ is_Some o) -> holds I (or_panic o) (fun a w => I w /\ o = Some a).
Proof. intros Ho w t HI HG. destruct o; [done|]. cbn. by destruct Ho as [|[? [=]]]. Qed.

Lemma holds_add (I : World -> Prop) t d :
  (lax \/ t + d <= INSTANT_MAX) -> holds I (add_instant t d) (fun r w => I w /\ r = t + d).
Proof.
  intros H. eapply under_weaken; [apply (holds_or_panic I)|done|].
  - destruct H as [|H]; [by left|right]. eexists. by apply checked_add_Some.
  - intros r w [HI Hr]. by apply checked_add_Some in Hr as [-> _].
Qed.

(** The timeouts of a wait are at most what is left to a deadline near the clock. *)
Lemma holds_wait k b todo F n timeout :
  (lax \/ timeout <= CLOCK_MAX + ONE_DAY) ->
  holds (WS k b todo F) (wait n timeout) (fun _ => WS k b todo F).
Proof.
  intros Hd. eapply under_bind; [apply holds_clock|]. intros now. apply under_pure. intros Hnow.
  eapply under_bind; [apply holds_add; pose proof clock_room; intuition lia|]. intros ?.
  apply under_pure. intros _. eapply under_bind; [apply under_ask|]. intros bs.
  eapply under_bind; [apply holds_upd_barriers|]. intros []. apply under_get_bind. intros w.
  apply under_ret. by intros ? [-> ?].
Qed.

(** A call that commits nothing. *)
Lemma holds_neutral_call k b todo F c :
  (forall r ps r' seen, c r <> CallCommit ps r' seen) ->
  holds (WS k b todo F) (call c) (fun _ => WS k b todo F).
Proof.
  intros Hc. eapply under_weaken; [apply holds_call|done|]. intros r ? (w & HW & ->).
  apply winv_logged; [done| |].
  - rewrite acked_snoc. specialize (Hc r). destruct (c r); try apply app_nil_r. naive_solver.
  - intros ps r' seen p o Heq. by destruct (Hc r ps r' seen).
Qed.

Lemma holds_stop_trigger (I : World -> Prop) :
  holds I stop_trigger (fun t w => I w /\ (lax \/ 0 <= t <= CLOCK_MAX)).
Proof.
  eapply under_bind; [apply under_ask_good|]. intros o. apply under_pure. intros (q & Hq & Ho).
  destruct o as [t|]; [|apply holds_clock]. apply under_ret. intros w HI. split; [done|].
  destruct q as [| | | |o'| | | | |]; simplify_eq. exact Hq.
Qed.

Lemma holds_stop_times (I : World -> Prop) tr :
  (lax \/ 0 <= tr <= CLOCK_MAX) ->
  holds I (or_panic (stop_times tr (drain_timeout prm)))
    (fun times w => I w /\ stop_near (Some times)).
Proof.
  intros Htr. pose proof clock_room as [Hr _]. unfold short in Hshort.
  eapply under_weaken; [apply (holds_or_panic I)|done|]; unfold stop_times.
  - destruct (checked_add tr (drain_timeout prm)) eqn:E; [eauto|]. left. unfold checked_add in E.
    destruct (decide _); [done|]. assert (0 <= CLOCK_MAX) by done. intuition lia.
  - intros times w [HI Ht]. split; [done|]. intros ? [= <-].
    destruct (checked_add tr _) as [d|] eqn:E; [|done]. apply checked_add_Some in E as [-> _].
    injection Ht as <-. cbn. intuition lia.
Qed.

Lemma holds_ends_the_wait (I : World -> Prop) : holds I (ends_the_wait prm) (fun _ => I).
Proof.
  eapply under_bind; [apply under_ask|]. intros [|]; simpl; [|by apply under_ret].
  eapply under_bind; [apply holds_stop_trigger|]. intros tr. apply under_pure. intros Htr.
  eapply under_bind; [by apply holds_stop_times|]. intros times. apply under_pure. intros _.
  eapply under_bind; [apply under_ask|]. intros now.
  destruct (bool_decide _); [by apply under_ret|].
  eapply under_bind; [apply under_ask|]. intros r. by apply under_ret.
Qed.

Lemma holds_wait_revocation k b todo F n d :
  holds (WS k b todo F) (wait_revocation prm n d) (fun _ => WS k b todo F).
Proof.
  apply (under_loop (WS k b todo F)).
  eapply under_bind; [apply under_ask|]. intros ?.
  eapply under_bind; [apply holds_wait; right; apply Z.le_trans with STOP_POLL; [lia|done]|].
  intros [|]; [by apply under_ret|].
  eapply under_bind; [apply under_ask|]. intros now.
  destruct (bool_decide _); [by apply under_ret|].
  eapply (under_bind _ _ _ (fun _ => WS k b todo F)).
  { apply under_modify. intros w HW. apply (winv_logged _ _ _ _ w CallRenew); [exact HW| |done].
    rewrite acked_snoc. apply app_nil_r. }
  intros []. apply under_get_bind. intros w.
  eapply (under_bind _ _ _ (fun _ => WS k b todo F)); [|intros []; by apply under_ret].
  eapply under_pre; [|intros ? [-> HW]; exact HW].
  destruct (shutdown w); [by apply under_ret|].
  eapply under_bind; [apply holds_ends_the_wait|]. intros e.
  apply under_when; [intros _; apply holds_set_shutdown|done].
Qed.

(** ** Removing lanes *)

(** What removing [lanes] does to the state. *)
Record removal (k : nat) (lanes : list Z) (s s' : State) : Prop := mk_removal {
  rm_assign : forall l, assignment s' !! l =
    if bool_decide (l ∈ lanes) then None else assignment s !! l;
  rm_load : forall t, (t < k)%nat ->
    thread_load s' !! t = Some (Z.of_nat (map_count (snd <$> assignment s') t));
  rm_len : length (thread_load s') = k;
  rm_paused : forall l, l ∈ paused s' -> l ∈ paused s /\ l ∉ lanes;
  rm_rest : epoch s' = epoch s /\ pending_commit s' = pending_commit s /\
    committed s' = committed s /\ revoked_committed s' = revoked_committed s /\
    failure s' = failure s;
}.

Lemma remove_lane_load k s l :
  length (thread_load s) = k ->
  (forall t, (t < k)%nat ->
     thread_load s !! t = Some (Z.of_nat (map_count (snd <$> assignment s) t))) ->
  length (thread_load (remove_lane s l)) = k /\
  forall t, (t < k)%nat -> thread_load (remove_lane s l) !! t =
    Some (Z.of_nat (map_count (snd <$> assignment (remove_lane s l)) t)).
Proof.
  intros Hlen Hload. unfold remove_lane.
  destruct (assignment s !! l) as [[p t0]|] eqn:Hl; simpl; [|done].
  rewrite length_alter. split; [done|]. intros t Ht. rewrite fmap_delete.
  assert (Hsl : (snd <$> assignment s) !! l = Some t0) by (by rewrite lookup_fmap, Hl).
  pose proof (map_count_delete _ _ _ t Hsl) as Hc. destruct (decide (t0 = t)) as [->|Hne].
  - rewrite list_lookup_alter_eq, (Hload t Ht), Hc. simpl. f_equal. lia.
  - rewrite list_lookup_alter_ne by done. rewrite (Hload t Ht), Hc. done.
Qed.

Lemma remove_lanes_spec k lanes : forall s,
  length (thread_load s) = k ->
  (forall t, (t < k)%nat ->
     thread_load s !! t = Some (Z.of_nat (map_count (snd <$> assignment s) t))) ->
  removal k lanes s (foldl remove_lane s lanes).
Proof.
  induction lanes as [|l lanes IH]; intros s Hlen Hload; simpl.
  - split; try done. intros l Hl. split; [done|apply not_elem_of_nil].
  - destruct (remove_lane_load k s l Hlen Hload) as [Hlen' Hload'].
    destruct (IH _ Hlen' Hload') as [A B C D E].
    assert (Ha : assignment (remove_lane s l) = delete l (assignment s)).
    { unfold remove_lane. destruct (assignment s !! l) as [[]|] eqn:Hl; simpl; [done|].
      by rewrite delete_id. }
    assert (Hr : epoch (remove_lane s l) = epoch s /\
      pending_commit (remove_lane s l) = pending_commit s /\
      committed (remove_lane s l) = committed s /\
      revoked_committed (remove_lane s l) = revoked_committed s /\
      failure (remove_lane s l) = failure s).
    { unfold remove_lane. by destruct (assignment s !! l) as [[]|]. }
    split; try done.
    + intros q. rewrite A, Ha. destruct (decide (q ∈ lanes)).
      { rewrite !bool_decide_true by (done || by apply list_elem_of_further). done. }
      rewrite (bool_decide_false (q ∈ lanes)) by done. destruct (decide (l = q)) as [->|].
      { by rewrite lookup_delete_eq, bool_decide_true by apply list_elem_of_here. }
      rewrite lookup_delete_ne by done. rewrite bool_decide_false; [done|].
      by intros [->|]%elem_of_cons.
    + intros q Hq. apply D in Hq as [Hq Hn].
      assert (Hq' : q ∈ paused s ∖ {[l]})
        by (unfold remove_lane in Hq; by destruct (assignment s !! l) as [[]|]).
      apply elem_of_difference in Hq' as [Hq' Hne]. split; [done|].
      rewrite elem_of_singleton in Hne. by apply not_elem_of_cons.
    + destruct E as (-> & -> & -> & -> & ->). done.
Qed.

Lemma live_partitions_spec a p :
  p ∈ live_partitions a <-> exists l t, a !! l = Some (p, t).
Proof.
  unfold live_partitions. rewrite elem_of_list_to_set, list_elem_of_fmap. split.
  - intros ([l [q t]] & -> & Hin%elem_of_map_to_list). eauto.
  - intros (l & t & Hl). exists (l, (p, t)). split; [done|]. by apply elem_of_map_to_list.
Qed.

Lemma to_revoke_spec before after lanes p :
  p ∈ to_revoke before after lanes <->
  (exists l t, l ∈ lanes /\ before !! l = Some (p, t)) /\ ~ (exists l t, after !! l = Some (p, t)).
Proof.
  unfold to_revoke, parts_of. rewrite list_elem_of_filter, live_partitions_spec, elem_of_elements,
    elem_of_list_to_set, list_elem_of_omap.
  split.
  - intros (Hn & l & Hl & Hp). split; [|done].
    destruct (before !! l) as [[q t]|] eqn:E; [|done]. injection Hp as ->. eauto.
  - intros ((l & t & Hl & Hp) & Hn). split; [done|]. exists l. split; [done|]. by rewrite Hp.
Qed.

(** Once the lanes are removed and the partitions they leave are revoked, the
    places are exact again. *)
Lemma places_removed k T T' lanes s s' :
  places k T [] s -> removal k lanes s s' ->
  (forall p, T' p <-> T p /\ p ∉ to_revoke (assignment s) (assignment s') lanes) ->
  places k T' [] s'.
Proof.
  intros [A B C D E F] [R1 R2 R3 R4 _] HT.
  assert (Hold : forall l x, assignment s' !! l = Some x -> assignment s !! l = Some x).
  { intros l x. rewrite R1. by case_bool_decide. }
  split; try done.
  - intros l p t Hl. destruct (B l p t (Hold _ _ Hl)) as (Ht & Hp & Hu).
    split; [done|]. split; [|done]. apply HT. split; [done|].
    rewrite to_revoke_spec. intros [_ Hn]. destruct Hn. eauto.
  - intros p [Hp Hn]%HT. right. destruct (C p Hp) as [Hx|(l & t & Hl)];
      [by apply elem_of_nil in Hx|].
    destruct (decide (p ∈ live_partitions (assignment s'))) as [Hlive|Hdead];
      [by apply live_partitions_spec in Hlive|].
    rewrite live_partitions_spec in Hdead. destruct Hn. apply to_revoke_spec. split; [|done].
    exists l, t. split; [|done]. destruct (decide (l ∈ lanes)) as [|Hni]; [done|].
    destruct Hdead. exists l, t. by rewrite R1, bool_decide_false.
  - intros l l' p t t' Hl Hl'. eapply D; by apply Hold.
  - intros l [Hl Hn]%R4. destruct (F l Hl) as [x Hx]. exists x.
    by rewrite R1, bool_decide_false.
Qed.

(** Forgetting the revoked partitions' entries, or keeping them for the next
    assignment. *)
Definition forget (gone : list Z) (s : State) : State :=
  foldl (fun s p => with_committed (delete p (committed s)) (revoked_committed s) s) s gone.
Definition set_aside (gone : list Z) (s : State) : State :=
  foldl (fun s p =>
    match committed s !! p with
    | Some o => with_committed (delete p (committed s)) (<[p := o]> (revoked_committed s)) s
    | None => s
    end) s gone.

(** Only the exit report's entries change, and they follow the revocation. *)
Definition drops_entries (G : list Z -> State -> State) : Prop := forall gone s,
  let s' := G gone s in
  (assignment s' = assignment s /\ thread_load s' = thread_load s /\ paused s' = paused s /\
   epoch s' = epoch s /\ pending_commit s' = pending_commit s /\ failure s' = failure s) /\
  (forall p o, committed s' !! p = Some o -> committed s !! p = Some o /\ p ∉ gone) /\
  (forall p o, revoked_committed s' !! p = Some o ->
     revoked_committed s !! p = Some o \/ (committed s !! p = Some o /\ p ∈ gone)).

Lemma forget_drops : drops_entries forget.
Proof.
  intros gone. induction gone as [|q gone IH]; intros s; simpl.
  - split_and!; try done; [|by left]. intros p o ?. split; [done|apply not_elem_of_nil].
  - destruct (IH (with_committed (delete q (committed s)) (revoked_committed s) s))
      as (A & B & C). cbn [committed revoked_committed with_committed] in *.
    split; [done|]. split.
    + intros p o [[Hne Ho]%lookup_delete_Some Hp]%B. split; [done|]. by apply not_elem_of_cons.
    + intros p o [Ho|[[_ Ho]%lookup_delete_Some Hp]]%C; [by left|right].
      split; [done|]. by apply list_elem_of_further.
Qed.

Lemma set_aside_drops : drops_entries set_aside.
Proof.
  intros gone. induction gone as [|q gone IH]; intros s; simpl.
  - split_and!; try done; [|by left]. intros p o ?. split; [done|apply not_elem_of_nil].
  - destruct (committed s !! q) as [v|] eqn:Hq.
    + destruct (IH (with_committed (delete q (committed s)) (<[q := v]> (revoked_committed s)) s))
        as (A & B & C). cbn [committed revoked_committed with_committed] in *.
      split; [done|]. split.
      * intros p o [[Hne Ho]%lookup_delete_Some Hp]%B. split; [done|]. by apply not_elem_of_cons.
      * intros p o [Ho|[[_ Ho]%lookup_delete_Some Hp]]%C.
        -- apply lookup_insert_Some in Ho as [[-> ->]|[_ Ho]]; [right|by left].
           split; [done|apply list_elem_of_here].
        -- right. split; [done|]. by apply list_elem_of_further.
    + destruct (IH s) as (A & B & C). split; [done|]. split.
      * intros p o [Ho Hp]%B. split; [done|]. apply not_elem_of_cons. split; [|done].
        intros ->. congruence.
      * intros p o [Ho|[Ho Hp]]%C; [by left|right]. split; [done|by apply list_elem_of_further].
Qed.

Lemma exits_dropped G gone T T' cs s :
  drops_entries G -> (forall p, T' p <-> T p /\ p ∉ gone) -> exits T cs s ->
  exits T' cs (G gone s).
Proof.
  intros HG HT [A B]. destruct (HG gone s) as (_ & HC & HR). split.
  - intros p o [Ho Hp]%HC. destruct (A p o Ho). rewrite HT. done.
  - intros p o [Ho|[Ho Hp]]%HR; rewrite HT.
    + destruct (B p o Ho). split; [|done]. by intros [? _].
    + destruct (A p o Ho). split; [|done]. by intros [_ ?].
Qed.

Lemma exec_revoke ps s s' :
  exec (LRevoke ps) s = Some s' -> s' = set_ck (revoke ps (ck s)) CIdle s.
Proof.
  unfold exec. destruct (panicked s); [done|]. destruct (bool_decide _); [|done]. by intros [= <-].
Qed.

Lemma tracked_revoke ps s p :
  tracked (set_ck (revoke ps (ck s)) CIdle s) p <-> tracked s p /\ p ∉ ps.
Proof.
  unfold tracked. cbn [ck set_ck]. split.
  - intros [t [Ht Hp]%revoke_lookup]. split; [by exists t|done].
  - intros [[t Ht] Hp]. exists t. by apply revoke_lookup_back.
Qed.

(** The tail shared by revocations and retirements. *)
Definition drop_lanes (G : list Z -> State -> State) (before : gmap Z (Z * nat))
    (lanes : list Z) : Prog World Answer unit :=
  upd_state (fun s => foldl remove_lane s lanes) ;;;
  w ← get;
  let gone := to_revoke before (assignment (state w)) lanes in
  steps [LRevoke gone] ;;;
  upd_state (G gone).

Definition without (before : gmap Z (Z * nat)) (lanes : list Z) (s : State) : Prop :=
  forall l, assignment s !! l = if bool_decide (l ∈ lanes) then None else before !! l.

Lemma winv_dropped k b G w lanes s' gone :
  drops_entries G -> WI k b [] w -> removal k lanes (state w) s' ->
  gone = to_revoke (assignment (state w)) (assignment s') lanes ->
  reachable (set_ck (revoke gone (ck (sys w))) CIdle (sys w)) ->
  WS k b [] (without (assignment (state w)) lanes)
    (mkWorld (set_ck (revoke gone (ck (sys w))) CIdle (sys w)) (G gone s') (locals w)
       (control_txs w) (barriers w) (shutdown w) (calls w)).
Proof.
  intros HG [A B C D E L X H] Hrm Hg Hr.
  destruct (HG gone s') as [(G1 & G2 & G3 & G4 & G5 & _) _].
  pose proof (rm_rest _ _ _ _ Hrm) as (R1 & R2 & R3 & R4 & _).
  split; [|by intros l; cbn [state]; rewrite G1; apply (rm_assign _ _ _ _ Hrm)].
  split; cbn [sys state control_txs calls]; try done.
  - cbn [ck set_ck revoke ck_epoch]. by rewrite G4, R1.
  - eapply places_same; [done..|]. eapply places_removed; [exact E|exact Hrm|].
    intros p. rewrite <- Hg. apply tracked_revoke.
  - by rewrite G5, R2.
  - eapply exits_dropped; [done|intros p; apply tracked_revoke|].
    destruct X. split; by rewrite ?R3, ?R4.
Qed.

Lemma holds_drop_lanes k b G before lanes :
  drops_entries G ->
  holds (WA k b [] before) (drop_lanes G before lanes)
    (fun _ => WS k b [] (without before lanes)).
Proof.
  intros HG. unfold drop_lanes.
  eapply (under_bind _ _ _ (fun _ w' => exists w, WA k b [] before w /\
    w' = mkWorld (sys w) (foldl remove_lane (state w) lanes) (locals w) (control_txs w)
           (barriers w) (shutdown w) (calls w))).
  { apply holds_upd_state. eauto. }
  intros []. apply under_get_bind. intros w'. cbv zeta.
  eapply (under_bind _ _ _ (fun _ w2 => exists w s', WA k b [] before w /\ reachable s' /\
    w' = mkWorld (sys w) (foldl remove_lane (state w) lanes) (locals w) (control_txs w)
           (barriers w) (shutdown w) (calls w) /\ w2 = put_sys s' w' /\
    s' = set_ck (revoke (to_revoke before (assignment (state w')) lanes) (ck (sys w'))) CIdle
           (sys w'))).
  - apply holds_steps; [intros ? [-> (w & [HW _] & ->)]; apply HW|].
    intros ? s' [-> (w & HW & Heq)] He Hr. exists w, s'. split_and!; try done.
    cbn [exec_all] in He. destruct (exec (LRevoke _) (sys w')) as [s1|] eqn:E1; [|done].
    injection He as <-. by apply exec_revoke.
  - intros []. apply holds_upd_state.
    intros w2 (w & s' & [HW Ha] & Hr & -> & -> & ->). cbn [put_sys sys state locals control_txs
      barriers shutdown calls] in *. subst before. destruct (wv_places _ _ _ _ _ HW).
    eapply winv_dropped; try done. by apply remove_lanes_spec.
Qed.

Lemma holds_stop_owners k b todo F lanes n d :
  holds (WS k b todo F) (stop_owners lanes n d) (fun _ => WS k b todo F).
Proof.
  apply under_get_bind. intros w. cbv zeta.
  eapply (under_bind _ _ _ (fun _ w' => WS k b todo F w' /\ length (control_txs w) = k)).
  - intros w' t [-> HW].
    refine (under_weaken (WS k b todo F) _ _ (fun _ => WS k b todo F) _ _ _ _ w t HW);
      [|done|intros _ w' HW'; split; [exact HW'|apply HW]].
    apply under_each. intros l _. apply under_when; [intros _; apply holds_upd_barriers|done].
  - intros [] w' t [HW Hk].
    pose proof (holds_send_some k b todo F
      (fun t => bool_decide (owned_by (assignment (state w)) t lanes <> []))
      (fun t => StopLanes (owned_by (assignment (state w)) t lanes) n d) w' w' t
      (conj eq_refl HW)) as H.
    rewrite (wv_txs _ _ _ _ _ (proj1 HW)) in H. rewrite Hk. exact H.
Qed.

Lemma holds_revoke_lanes k b a lanes n budget :
  (lax \/ budget <= ONE_DAY) ->
  holds (WA k b [] a) (revoke_lanes prm lanes n budget) (fun _ => WS k b [] (without a lanes)).
Proof.
  intros Hb. eapply under_bind; [apply holds_clock|]. intros now. apply under_pure. intros Hnow.
  eapply under_bind.
  { apply holds_add. pose proof clock_room. assert (0 <= CLOCK_MAX) by done. intuition lia. }
  intros deadline. apply under_pure. intros _.
  eapply under_bind; [apply holds_stop_owners|]. intros [].
  eapply under_bind; [apply holds_wait_revocation|]. intros ?.
  eapply under_bind; [apply holds_commit_cycle|]. intros [].
  eapply under_bind; [by apply holds_neutral_call|]. intros ?.
  apply under_get_bind. intros w w' t [-> HW].
  pose proof (holds_drop_lanes k b set_aside a lanes set_aside_drops w t HW) as H.
  destruct HW as [HW <-]. exact H.
Qed.

Lemma holds_handle_retired k b a lanes :
  holds (WA k b [] a) (handle_retired lanes) (fun _ => WS k b [] (without a lanes)).
Proof.
  apply under_get_bind. intros w. cbv zeta.
  eapply (under_bind _ _ _ (fun _ w' => WA k b [] a w' /\ assignment (state w) = a)).
  - intros w' t [-> HW].
    refine (under_weaken _ (fun w' => w' = w /\ WA k b [] a w) _ (fun _ => WA k b [] a) _
      (holds_send_some k b [] _ _ _ w) _ _ w t (conj eq_refl HW)); [intros ? H; exact H|].
    intros _ w' HW'. split; [exact HW'|apply HW].
  - intros [] w' t [HW <-]. by apply (holds_drop_lanes k b forget _ lanes forget_drops w' t).
Qed.

(** ** Placing lanes *)
Lemma group_lanes_acc lanes : forall g p,
  default [] (foldl group_lane g lanes !! p) =
    default [] (g !! p) ++ filter (fun l => lane_partition l = p) lanes.
Proof.
  induction lanes as [|l lanes IH]; intros g p; simpl; [by rewrite app_nil_r|].
  rewrite IH. unfold group_lane. rewrite filter_cons.
  destruct (decide (lane_partition l = p)) as [<-|Hne].
  - rewrite lookup_insert_eq. simpl. by rewrite <- app_assoc.
  - by rewrite lookup_insert_ne.
Qed.

Lemma group_lanes_default lanes p :
  default [] (group_lanes lanes !! p) = filter (fun l => lane_partition l = p) lanes.
Proof. unfold group_lanes. rewrite group_lanes_acc. by rewrite lookup_empty. Qed.

Lemma group_lanes_some lanes : forall g p,
  is_Some (foldl group_lane g lanes !! p) <->
  is_Some (g !! p) \/ exists l, l ∈ lanes /\ lane_partition l = p.
Proof.
  induction lanes as [|l lanes IH]; intros g p; simpl.
  - split; [by left|]. intros [?|(l & Hl & _)]; [done|by apply elem_of_nil in Hl].
  - rewrite IH. unfold group_lane. split.
    + intros [Hs|(l' & Hl & Hp)]; [|right; exists l'; split; [by apply list_elem_of_further|done]].
      destruct (decide (lane_partition l = p)) as [<-|Hne].
      * right. exists l. split; [apply list_elem_of_here|done].
      * rewrite lookup_insert_ne in Hs by done. by left.
    + intros [Hs|(l' & [->|Hl]%elem_of_cons & Hp)].
      * left. destruct (decide (lane_partition l = p)) as [<-|Hne];
          [by rewrite lookup_insert_eq|by rewrite lookup_insert_ne].
      * left. rewrite <- Hp. by rewrite lookup_insert_eq.
      * right. eauto.
Qed.

Lemma group_lanes_dom lanes p :
  is_Some (group_lanes lanes !! p) <-> exists l, l ∈ lanes /\ lane_partition l = p.
Proof.
  unfold group_lanes. rewrite group_lanes_some. rewrite lookup_empty. split; [|by right].
  intros [[? ?]|?]; done.
Qed.

Lemma u32_keys_size {A} (m : gmap Z A) :
  (forall l x, m !! l = Some x -> 0 <= l <= U32_MAX) -> Z.of_nat (size m) <= U32_MAX + 1.
Proof.
  intros H. rewrite <- length_map_to_list, <- (length_fmap fst).
  assert (Hsub : (map_to_list m).*1 ⊆+ seqZ 0 (U32_MAX + 1)).
  { apply NoDup_submseteq; [apply NoDup_fst_map_to_list|].
    intros l ([q x] & -> & Hin%elem_of_map_to_list)%list_elem_of_fmap.
    apply elem_of_seqZ. apply H in Hin. simpl. lia. }
  apply submseteq_length in Hsub. rewrite length_seqZ in Hsub. unfold_int. lia.
Qed.

Lemma argmin_lt l : forall i j y, argmin l i = Some (j, y) -> (i <= j < i + length l)%nat.
Proof.
  induction l as [|x l IH]; intros i j y; simpl; [done|].
  destruct (argmin l (S i)) as [[j' y']|] eqn:E.
  - apply IH in E. destruct (bool_decide _); intros [= <- <-]; lia.
  - intros [= <- <-]. lia.
Qed.

Lemma least_loaded_lt l : (0 < length l)%nat -> (least_loaded l < length l)%nat.
Proof.
  intros Hl. unfold least_loaded. destruct (argmin l 0) as [[j y]|] eqn:E; simpl; [|done].
  apply argmin_lt in E. lia.
Qed.

(** The state once a lane is placed. *)
Definition placed (p : Z) (thread : nat) (lane : Lane) (s : State) : State :=
  with_load (alter (fun n => wrap_u64 (n + 1)) thread (thread_load s))
    (with_assignment (<[lane_id lane := (p, thread)]> (assignment s)) s).

Lemma place_lane_run p thread gate lane w t :
  (thread < length (thread_load (state w)))%nat -> (thread < length (control_txs w))%nat ->
  place_lane p thread gate lane w t =
  Ran tt (mkWorld (sys w) (placed p thread lane (state w)) (locals w)
            (alter (fun q => q ++ [AddLane lane gate]) thread (control_txs w)) (barriers w)
            (shutdown w) (calls w)) t.
Proof.
  intros Hl Ht. unfold place_lane, upd_state, modify, send_to, get, mbind, prog_bind.
  cbn [state control_txs with_assignment thread_load].
  rewrite bool_decide_true by done. cbn [control_txs]. by rewrite bool_decide_true by done.
Qed.

Lemma places_placed k T todo s p thread lane :
  places k T todo s -> (thread < k)%nat -> T p -> 0 <= lane_id lane <= U32_MAX ->
  assignment s !! lane_id lane = None ->
  (forall l t, assignment s !! l = Some (p, t) -> t = thread) ->
  places k T todo (placed p thread lane s).
Proof.
  intros [A B C D E F] Ht Hp Hid Hnew Hsame. unfold placed.
  assert (Hlook : forall l x, <[lane_id lane := (p, thread)]> (assignment s) !! l = Some x ->
    (l = lane_id lane /\ x = (p, thread)) \/ assignment s !! l = Some x).
  { intros l x [[-> <-]|[_ ?]]%lookup_insert_Some; auto. }
  split; cbn [thread_load assignment paused with_load with_assignment].
  - by rewrite length_alter.
  - intros l q t [[-> [= -> ->]]|Hl]%Hlook; [done|by apply (B l q t)].
  - intros q [Hq|(l & t & Hl)]%C; [by left|right]. exists l, t.
    rewrite lookup_insert_ne; [done|]. intros <-. congruence.
  - intros l l' q t t' [[-> [= -> ->]]|Hl]%Hlook [[-> Hx]|Hl']%Hlook.
    + by injection Hx.
    + symmetry. by eapply Hsame.
    + injection Hx as -> ->. by eapply Hsame.
    + by eapply D.
  - intros t Htk. rewrite fmap_insert. simpl.
    rewrite map_count_insert by (by rewrite lookup_fmap, Hnew).
    destruct (decide (thread = t)) as [->|Hne].
    + rewrite list_lookup_alter_eq, (E t Htk). simpl. f_equal. rewrite wrap_u64_small; [lia|].
      pose proof (u32_keys_size (assignment s) ltac:(intros l [q u] Hl; by destruct (B l q u Hl) as (_&_&?))) as Hs.
      pose proof (map_count_le_size (snd <$> assignment s) t) as Hc.
      rewrite map_size_fmap in Hc. unfold_int. lia.
    + rewrite list_lookup_alter_ne by done. rewrite (E t Htk). done.
  - intros l Hl. destruct (F l Hl) as [x Hx]. exists x.
    rewrite lookup_insert_ne; [done|]. intros <-. congruence.
Qed.

(** The partitions of [todo] are tracked and wait for their lanes. *)
Record waiting (lanes : list Lane) (todo : list Z) (w : World) : Prop := mk_waiting {
  wt_fresh : forall l, l ∈ lanes -> lane_partition l ∈ todo ->
    assignment (state w) !! lane_id l = None;
  wt_unplaced : forall l q t, assignment (state w) !! l = Some (q, t) -> q ∉ todo;
  wt_tracked : forall q, q ∈ todo -> tracked (sys w) q;
}.

(** While the group of [p] goes to [thread]; [rest] is what is left of it. *)
Record placing (k : nat) (b : Z) (lanes : list Lane) (p : Z) (thread : nat) (todo : list Z)
    (rest : list Lane) (w : World) : Prop := mk_placing {
  pg_inv : WI k b (p :: todo) w;
  pg_rest : forall l, l ∈ rest -> assignment (state w) !! lane_id l = None;
  pg_waiting : waiting lanes todo w;
  pg_tracked : tracked (sys w) p;
  pg_same : forall l t, assignment (state w) !! l = Some (p, t) -> t = thread;
}.

Lemma ids_ok_spec lanes :
  ids_ok lanes = true ->
  NoDup (lane_id <$> lanes) /\ forall l, l ∈ lanes -> 0 <= lane_id l <= U32_MAX.
Proof.
  unfold ids_ok. intros [A B]%andb_prop. apply bool_decide_eq_true in A, B.
  by rewrite Forall_forall in B.
Qed.

Lemma lane_id_inj lanes l l' :
  NoDup (lane_id <$> lanes) -> l ∈ lanes -> l' ∈ lanes -> lane_id l = lane_id l' -> l = l'.
Proof.
  intros Hnd [i Hi]%list_elem_of_lookup [j Hj]%list_elem_of_lookup Heq.
  assert (i = j) as ->; [|congruence].
  eapply (NoDup_lookup (lane_id <$> lanes)); [done| |]; rewrite list_lookup_fmap.
  - by rewrite Hi.
  - rewrite Hj. simpl. by rewrite Heq.
Qed.

Lemma winv_placed k b todo w p thread lane gate :
  WI k b todo w -> places k (tracked (sys w)) todo (placed p thread lane (state w)) ->
  WI k b todo (mkWorld (sys w) (placed p thread lane (state w)) (locals w)
    (alter (fun q => q ++ [AddLane lane gate]) thread (control_txs w)) (barriers w)
    (shutdown w) (calls w)).
Proof.
  intros [A B C D E L X H] HP. split; cbn [sys state control_txs calls]; try done.
  - by rewrite length_alter.
  - destruct X. by split.
Qed.

Lemma holds_place_lane k b lanes p thread todo gate lane rest :
  (thread < k)%nat -> p ∉ todo -> ids_ok lanes = true -> lane ∈ lanes ->
  lane_partition lane = p -> lane_id lane ∉ lane_id <$> rest ->
  holds (placing k b lanes p thread todo (lane :: rest)) (place_lane p thread gate lane)
    (fun _ w => placing k b lanes p thread todo rest w /\
                exists l t, assignment (state w) !! l = Some (p, t)).
Proof.
  intros Ht Hp Hids Hin Hlp Hrest w t [A B [C1 C2 C3] D E] HG.
  destruct (ids_ok_spec _ Hids) as [Hnd Hu]. pose proof (wv_places _ _ _ _ _ A) as HP.
  rewrite place_lane_run;
    [|by rewrite (pv_threads _ _ _ _ HP)|by rewrite (wv_txs _ _ _ _ _ A)].
  assert (Hnew : assignment (state w) !! lane_id lane = None) by (apply B, list_elem_of_here).
  split; [|done]. split; [|exists (lane_id lane), thread; apply lookup_insert_eq].
  split; cbn [sys state placed with_load with_assignment assignment].
  - apply winv_placed; [done|]. apply places_placed; try done. by apply Hu.
  - intros l Hl. rewrite lookup_insert_ne; [apply B; by apply list_elem_of_further|].
    intros Heq. apply Hrest. apply list_elem_of_fmap. by exists l.
  - split; cbn [sys state placed with_load with_assignment assignment]; try done.
    + intros l Hl Hq. rewrite lookup_insert_ne; [by apply C1|].
      intros Heq. rewrite (lane_id_inj lanes lane l) in Hlp by done. subst p. done.
    + intros l q u [[_ [= <- _]]|[_ Hl]]%lookup_insert_Some; [done|by apply (C2 l q u)].
  - done.
  - intros l u [[_ [= <-]]|[_ Hl]]%lookup_insert_Some; [done|by apply (E l)].
Qed.

Lemma places_shrink k T p todo s :
  places k T (p :: todo) s -> (exists l t, assignment s !! l = Some (p, t)) ->
  places k T todo s.
Proof.
  intros [A B C D E F] Hp. split; try done.
  intros q [[->|?]%elem_of_cons|?]%C; [by right|by left|by right].
Qed.

Lemma holds_place_group k b lanes p todo :
  (0 < k)%nat -> p ∉ todo -> ids_ok lanes = true ->
  (exists l, l ∈ lanes /\ lane_partition l = p) ->
  holds (fun w => WI k b (p :: todo) w /\ waiting lanes (p :: todo) w)
    (place_group (group_lanes lanes) p) (fun _ w => WI k b todo w /\ waiting lanes todo w).
Proof.
  intros Hk Hp Hids (l0 & Hl0 & Hlp0). apply under_get_bind. intros w0. cbv zeta.
  rewrite group_lanes_default. destruct (ids_ok_spec _ Hids) as [Hnd _].
  set (group := filter (fun l => lane_partition l = p) lanes).
  set (thread := least_loaded (thread_load (state w0))).
  set (gate := pending_gate (ck (sys w0)) p (epoch (state w0))).
  assert (Hg : forall l, l ∈ group -> l ∈ lanes /\ lane_partition l = p).
  { intros l [? ?]%list_elem_of_filter. done. }
  intros w t [-> [HW [C1 C2 C3]]]. pose proof (wv_places _ _ _ _ _ HW) as HP.
  assert (Ht : (thread < k)%nat).
  { unfold thread. rewrite <- (pv_threads _ _ _ _ HP). apply least_loaded_lt.
    by rewrite (pv_threads _ _ _ _ HP). }
  assert (Hndg : NoDup (lane_id <$> group)).
  { eapply sublist_NoDup; [exact Hnd|]. apply fmap_sublist, sublist_filter. }
  refine (under_weaken _ _ _ _ _ (under_each_rest (fun rest w =>
    placing k b lanes p thread todo rest w /\
    (rest = group \/ exists l t, assignment (state w) !! l = Some (p, t)))
    (place_lane p thread gate) group _) (fun w H => H) _ w0 t _).
  - intros x rest [pre Hpre]. destruct (Hg x) as [Hx Hxp].
    { rewrite Hpre. apply elem_of_app. right. apply list_elem_of_here. }
    eapply under_weaken; [apply (holds_place_lane k b lanes p thread todo gate x rest); try done| |].
    + rewrite Hpre, fmap_app in Hndg. apply NoDup_app in Hndg as (_ & _ & Hn).
      by apply NoDup_cons in Hn as [? _].
    + by intros w [? _].
    + intros [] w [? ?]. split; [done|by right].
  - intros [] w [[A _ B C D] [Hnil|Hhas]].
    + exfalso. apply (not_elem_of_nil l0). rewrite Hnil. by apply list_elem_of_filter.
    + split; [|done]. destruct A. split; try done. by eapply places_shrink.
  - split; [|by left]. split; try done.
    + intros l [Hl Hlp]%Hg. apply C1; [done|]. rewrite Hlp. apply list_elem_of_here.
    + split.
      * intros l Hl Hq. apply C1; [done|by apply list_elem_of_further].
      * intros l q u Hl. apply C2 in Hl. by apply not_elem_of_cons in Hl as [_ ?].
      * intros q Hq. apply C3. by apply list_elem_of_further.
    + apply C3, list_elem_of_here.
    + intros l u Hl. apply C2 in Hl. by apply not_elem_of_cons in Hl as [? _].
Qed.

(** Placing every group of an assignment. *)
Lemma holds_place_groups k b lanes ps :
  (0 < k)%nat -> NoDup ps -> ids_ok lanes = true ->
  (forall p, p ∈ ps -> exists l, l ∈ lanes /\ lane_partition l = p) ->
  holds (fun w => WI k b ps w /\ waiting lanes ps w)
    (each (place_group (group_lanes lanes)) ps) (fun _ => WI k b []).
Proof.
  intros Hk Hnd Hids Hps.
  apply (under_weaken (fun w => WI k b ps w /\ waiting lanes ps w) _ _
    (fun _ w => WI k b [] w /\ waiting lanes [] w)); [|done|by intros ? ? [? _]].
  apply (under_each_rest (fun todo w => WI k b todo w /\ waiting lanes todo w)).
  intros p todo [pre Hpre]. rewrite Hpre in Hnd, Hps. apply NoDup_app in Hnd as (_ & _ & Hn).
  apply NoDup_cons in Hn as [Hp _]. apply holds_place_group; try done.
  apply Hps, elem_of_app. right. apply list_elem_of_here.
Qed.

(** ** Assignments *)
Lemma holds_visit (P : World -> Prop) lanes :
  holds P (visit (group_lanes lanes)) (fun ps w => P w /\ NoDup ps /\
    forall p, p ∈ ps <-> exists l, l ∈ lanes /\ lane_partition l = p).
Proof.
  eapply under_bind; [apply under_ask|]. intros ps.
  destruct (bool_decide (NoDup ps)) eqn:E1; [|apply under_stuck].
  destruct (bool_decide (list_to_set ps = dom (group_lanes lanes))) eqn:E2; [|apply under_stuck].
  apply bool_decide_eq_true in E1, E2. apply under_ret. intros w HP. split_and!; [done|done|].
  intros p. rewrite <- group_lanes_dom, <- elem_of_dom, <- E2. by rewrite elem_of_list_to_set.
Qed.

Lemma exec_begin ps e own s s' :
  ck_epoch (ck s) < e -> exec (LBegin ps e own) s = Some s' -> panicked s' = false ->
  ck_epoch (ck s') = e /\ pc s' = CIdle /\ reported s' = reported s /\ history s' = history s /\
  forall p, tracked s' p <-> p ∈ ps.
Proof.
  intros He Hx Hnp. unfold exec in Hx. destruct (panicked s); [done|].
  destruct (_ && _ && _); [|done].
  destruct (begin_epoch ps e (ck s)) as [[c e']|] eqn:Hb; simplify_eq.
  apply begin_trackers in Hb as (-> & Hep & Ht). split_and!; try done.
  intros p. unfold tracked. cbn [ck]. rewrite Ht. case_bool_decide; split; try done.
Qed.

(** A new epoch over an empty assignment. *)
Lemma winv_begin k b w s' ps lanes (groups : gmap Z (list Lane)) :
  WS k b [] (fun s => assignment s = ∅) w -> b < U32_MAX ->
  reachable s' -> pc s' = CIdle -> ck_epoch (ck s') = epoch (state w) + 1 ->
  reported s' = reported (sys w) -> (forall p, tracked s' p <-> p ∈ ps) ->
  (forall p, is_Some (groups !! p) <-> p ∈ ps) ->
  let s := with_epoch (epoch (state w) + 1) (state w) in
  let w' := mkWorld s' (with_committed
      (committed s ∪ filter (fun x => is_Some (groups !! x.1)) (revoked_committed s)) ∅ s)
      (locals w) (control_txs w) (barriers w) (shutdown w) (calls w) in
  WI k (b + 1) ps w' /\ waiting lanes ps w'.
Proof.
  intros [[A B C D [P1 P2 P3 P4 P5 P6] L [X1 X2] H] Ha] Hb Hr Hpc Hep Hrep HT HG s w'.
  assert (Hnone : forall p, ~ tracked (sys w) p).
  { intros p [Hp|(l & t & Hl)]%P3; [by apply elem_of_nil in Hp|]. by rewrite Ha in Hl. }
  assert (Ha' : assignment (state w') = ∅) by done.
  assert (HI : WI k (b + 1) ps w'); [split; cbn [w' sys state control_txs calls s]; try done|].
  - split; [by rewrite Hep|]. destruct C as [_ C]. cbn. lia.
  - split; cbn; rewrite ?Ha in *; try done. intros p Hp%HT. by left.
  - cbn. by rewrite Hrep.
  - split; cbn; [|done]. intros p o Ho. rewrite HT.
    apply lookup_union_Some_raw in Ho as [Ho|[_ Ho]].
    + apply X1 in Ho as [Ho _]. by apply Hnone in Ho.
    + apply map_lookup_filter_Some in Ho as [Ho Hs]. rewrite <- HG. split; [done|].
      by apply X2 in Ho as [_ ?].
  - split; [done|]. split; cbn [w' state sys s]; cbn; rewrite ?Ha; try done.
    intros q Hq. by apply HT.
Qed.

Lemma holds_handle_assign k b lanes budget :
  (0 < k)%nat -> b < U32_MAX -> ids_ok lanes = true -> (lax \/ budget <= ONE_DAY) ->
  holds (WI k b []) (handle_assign prm lanes budget) (fun _ => WI k (b + 1) []).
Proof.
  intros Hk Hb Hids Hbud. apply under_get_bind. intros w0.
  eapply (under_bind _ _ _ (fun _ => WS k b [] (fun s => assignment s = ∅))).
  { destruct (bool_decide (assignment (state w0) = ∅)) eqn:E.
    - apply bool_decide_eq_true in E. apply under_ret. intros ? [-> HW]. by split.
    - set (a := assignment (state w0)).
      eapply (under_pre (WA k b [] a)); [|intros ? [-> HW]; by split].
      eapply under_bind; [apply holds_new_barrier|]. intros n.
      eapply under_weaken; [by apply holds_revoke_lanes|done|]. intros [] w [HW Hwo].
      split; [done|]. apply map_empty. intros l. rewrite Hwo.
      destruct (a !! l) as [x|] eqn:Hl; [|by destruct (bool_decide (l ∈ _))].
      rewrite bool_decide_true; [done|]. apply list_elem_of_fmap. exists (l, x).
      split; [done|]. by apply elem_of_map_to_list. }
  intros []. eapply under_bind; [apply holds_others|]. intros [].
  eapply (under_bind _ _ _ (fun _ w' => exists w, WS k b [] (fun s => assignment s = ∅) w /\
    w' = mkWorld (sys w) (with_epoch (epoch (state w) + 1) (state w)) (locals w)
           (control_txs w) (barriers w) (shutdown w) (calls w))).
  { apply holds_upd_state. intros w HW. exists w. split; [done|].
    rewrite wrap_u32_small; [done|]. destruct (wv_epoch _ _ _ _ _ (proj1 HW)). unfold_int. lia. }
  intros []. cbv zeta. eapply under_bind; [apply holds_visit|]. intros ps.
  apply under_get_bind. intros w1.
  eapply (under_bind _ _ _ (fun _ w' => exists w s', w' = put_sys s' w1 /\
    WS k b [] (fun s => assignment s = ∅) w /\ NoDup ps /\
    (forall p, p ∈ ps <-> exists l, l ∈ lanes /\ lane_partition l = p) /\
    w1 = mkWorld (sys w) (with_epoch (epoch (state w) + 1) (state w)) (locals w)
           (control_txs w) (barriers w) (shutdown w) (calls w) /\ reachable s' /\
    exec (LBegin ps (epoch (state w) + 1) (lane_owners lanes)) (sys w) = Some s')).
  { intros ? t [-> ((w & HW & Hw1) & Hnd & Hps)].
    assert (Hlt : ck_epoch (ck (sys w)) < epoch (state w) + 1).
    { destruct (wv_epoch _ _ _ _ _ (proj1 HW)). lia. }
    assert (Hbeg : exists c, begin_epoch ps (epoch (state w) + 1) (ck (sys w)) = Some c).
    { unfold begin_epoch. rewrite bool_decide_true by done. simpl.
      destruct (admit_all _ _ _ _) as [[]]. eauto. }
    destruct Hbeg as [c Hbeg]. rewrite Hw1. cbn [sys state with_epoch epoch]. rewrite Hbeg.
    rewrite <- Hw1. refine (holds_steps (fun w' => w' = w1) _ _ _ _ w1 t eq_refl).
    - intros ? ->. rewrite Hw1. apply HW.
    - intros ? s' -> He Hr. exists w, s'. split_and!; try done. rewrite Hw1 in He.
      cbn [exec_all sys] in He. by destruct (exec _ (sys w)). }
  intros []. eapply (under_bind _ _ _ (fun _ w => (WI k (b + 1) ps w /\ waiting lanes ps w) /\
    NoDup ps /\ forall p, p ∈ ps <-> exists l, l ∈ lanes /\ lane_partition l = p)).
  { apply holds_upd_state. intros ? (w & s' & -> & HW & Hnd & Hps & -> & Hr & He).
    split; [|done]. apply exec_begin in He as (E1 & E2 & E3 & _ & E4).
    - apply (winv_begin k b w s' ps lanes); try done. intros p. by rewrite Hps, group_lanes_dom.
    - destruct (wv_epoch _ _ _ _ _ (proj1 HW)). lia.
    - apply iv_panic, reachable_inv, Hr. }
  intros [] w t (HW & Hnd & Hps).
  apply (holds_place_groups k (b + 1) lanes ps); try done. intros p Hp. by apply Hps.
Qed.

Lemma exec_extend ps own s s' :
  exec (LExtend ps own) s = Some s' ->
  match extend_epoch ps (ck s) with
  | inl _ => s' = s
  | inr c => ck_epoch (ck s') = ck_epoch (ck s) /\ pc s' = CIdle /\
      reported s' = reported s /\
      (forall p, p ∈ ps -> ~ tracked s p) /\
      forall p, tracked s' p <-> p ∈ ps \/ tracked s p
  end.
Proof.
  unfold exec. destruct (panicked s); [done|]. destruct (_ && _); [|done].
  destruct (extend_epoch ps (ck s)) as [e|c] eqn:Hx; intros [= <-]; [done|].
  apply extend_trackers in Hx as (Hep & Hn & Ht). split_and!; try done.
  - intros p Hp [t Hs]. rewrite Hn in Hs; done.
  - intros p. unfold tracked. cbn [ck]. rewrite Ht. case_bool_decide as Hin.
    + split; [by left|]. eauto.
    + split; [by right|]. by intros [?|?].
Qed.

Definition joining (lanes : list Lane) (s : State) : Prop :=
  (forall l, l ∈ lanes -> assignment s !! lane_id l = None) /\ revoked_committed s = ∅.

(** The epoch extended by new partitions, whose lanes are not placed yet. *)
Lemma winv_extend k b w s' ps lanes :
  WS k b [] (joining lanes) w -> reachable s' -> pc s' = CIdle ->
  ck_epoch (ck s') = ck_epoch (ck (sys w)) -> reported s' = reported (sys w) ->
  (forall p, p ∈ ps -> ~ tracked (sys w) p) ->
  (forall p, tracked s' p <-> p ∈ ps \/ tracked (sys w) p) ->
  WI k b ps (put_sys s' w) /\ waiting lanes ps (put_sys s' w).
Proof.
  intros [[A B C D [P1 P2 P3 P4 P5 P6] L [X1 X2] H] [Hfresh Hrev]] Hr Hpc Hep Hrep Hnew HT.
  split; [split; cbn [put_sys sys state control_txs calls]; try done|].
  - by rewrite Hep.
  - split; try done.
    + intros l p t Hl. destruct (P2 l p t Hl) as (? & ? & ?).
      split; [done|]. split; [|done]. apply HT. by right.
    + intros p [Hp|Hp]%HT; [by left|]. destruct (P3 p Hp) as [Hx|?]; [|by right].
      by apply elem_of_nil in Hx.
  - by rewrite Hrep.
  - split; [|by rewrite Hrev]. intros p o Ho. rewrite HT. destruct (X1 p o Ho). auto.
  - split; cbn [put_sys sys state].
    + intros l Hl _. by apply Hfresh.
    + intros l q t Hl Hq. apply (Hnew q Hq). by destruct (P2 l q t Hl) as (_ & ? & _).
    + intros q Hq. apply HT. by left.
Qed.

Lemma holds_handle_added k b lanes :
  (0 < k)%nat -> ids_ok lanes = true ->
  holds (WS k b [] (fun s => forall l, l ∈ lanes -> assignment s !! lane_id l = None))
    (handle_added lanes) (fun _ => WI k b []).
Proof.
  intros Hk Hids. unfold handle_added.
  destruct (bool_decide (length lanes = 0%nat)); [by apply under_ret; intros w [? _]|].
  eapply (under_bind _ _ _ (fun _ => WS k b [] (joining lanes))).
  { apply holds_upd_state. intros w [[A B C D E L X H] HF]. split; [|by split].
    split; cbn [sys state control_txs calls]; try done; [by destruct E|].
    destruct X as [X1 X2]. by split. }
  intros []. cbv zeta. eapply under_bind; [apply holds_visit|]. intros ps.
  eapply (under_bind _ _ _ (fun _ w => WS k b [] (joining lanes) w /\ NoDup ps /\
    forall p, p ∈ ps <-> exists l, l ∈ lanes /\ lane_partition l = p)).
  { intros w t (HW & Hnd & Hps).
    refine (under_weaken _ _ _ _ _ (holds_others k b [] (joining lanes)) (fun w H => H) _ w t HW).
    intros _ w' HW'. by split. }
  intros []. apply under_get_bind. intros w0.
  eapply (under_bind _ _ _ (fun _ w => exists s', w = put_sys s' w0 /\
    WS k b [] (joining lanes) w0 /\ NoDup ps /\
    (forall p, p ∈ ps <-> exists l, l ∈ lanes /\ lane_partition l = p) /\ reachable s' /\
    exec (LExtend ps (lane_owners lanes)) (sys w0) = Some s')).
  { apply holds_steps; [intros ? [-> (HW & _)]; apply HW|].
    intros ? s' [-> (HW & Hnd & Hps)] He Hr. exists s'. split_and!; try done.
    cbn [exec_all] in He. by destruct (exec _ (sys w0)). }
  intros [] w t (s' & -> & HW & Hnd & Hps & Hr & He). apply exec_extend in He.
  destruct (extend_epoch ps (ck (sys w0))) as [e|c].
  - subst s'. refine (holds_upd_state (WS k b [] (joining lanes)) _ (fun _ => WI k b []) _ _ t _);
      [|by destruct w0].
    intros w HW'. apply (winv_failure _ _ _ (fun _ => True) w); [|done|by eexists].
    split; [apply HW'|done].
  - destruct He as (E1 & E2 & E3 & E4 & E5).
    apply (holds_place_groups k b lanes ps); try done; [intros p Hp; by apply Hps|].
    by eapply winv_extend.
Qed.

(** ** The loop *)

Definition WT (k : nat) (b : Z) : World -> Prop := WS k b [] (fun _ => True).

Lemma wt_wi k b w : WT k b w <-> WI k b [] w.
Proof. split; [by intros [? _]|by split]. Qed.

Lemma wt_mono k b b' w : b <= b' -> WT k b w -> WT k b' w.
Proof.
  intros Hb [[A B C D E L X H] _]. split; [|done]. split; try done. lia.
Qed.

(** A triple for every assignment is one for the invariant. *)
Lemma holds_any {A} k b (m : Prog World Answer A) (R : A -> World -> Prop) :
  (forall a, holds (WA k b [] a) m R) -> holds (WT k b) m R.
Proof. intros H w t [HW _]. apply (H (assignment (state w)) w t). by split. Qed.

Lemma holds_wt_commit k b only : holds (WT k b) (commit_cycle only) (fun _ => WT k b).
Proof.
  apply holds_any. intros a. eapply under_weaken; [apply holds_commit_cycle|done|].
  intros [] w [? _]. by apply wt_wi.
Qed.

Lemma holds_wt_harvest k b : holds (WT k b) harvest (fun _ => WT k b).
Proof.
  apply holds_any. intros a. eapply under_weaken; [apply holds_harvest|done|].
  intros [] w [? _]. by apply wt_wi.
Qed.

Lemma holds_wt_failure k b f :
  (forall s, exists o, f s = mkState (assignment s) (thread_load s) (paused s) (epoch s)
     (pending_commit s) (committed s) (revoked_committed s) o) ->
  holds (WT k b) (upd_state f) (fun _ => WT k b).
Proof. intros Hf. apply holds_upd_state. intros w HW. by apply winv_failure. Qed.

Lemma wt_paused k b w x :
  WT k b w -> (forall l, l ∈ x -> is_Some (assignment (state w) !! l)) ->
  WT k b (mkWorld (sys w) (with_paused x (state w)) (locals w) (control_txs w) (barriers w)
            (shutdown w) (calls w)).
Proof.
  intros [[A B C D E L X H] _] Hx. split; [|done]. split; cbn [sys state control_txs calls]; try done.
  - destruct E. by split.
  - by destruct X.
Qed.

Lemma holds_driver_event k b e : holds (WT k b) (handle_driver_event e) (fun _ => WT k b).
Proof.
  apply under_get_bind. intros w.
  destruct e as [lanes|lanes|thread error]; cbv zeta.
  - destruct (bool_decide _); [by apply under_ret; intros ? [-> ?]|].
    eapply under_bind; [apply holds_call|]. intros r.
    assert (Hlog : forall r, WT k b w -> WT k b (logged (CallPause (filter (fun l =>
      l ∉ paused (state w) /\ is_Some (assignment (state w) !! l)) lanes) r) w)).
    { intros r' HW. apply winv_logged; [done| |done]. rewrite acked_snoc. apply app_nil_r. }
    destruct r; [apply under_ret|apply holds_upd_state]; intros ? (? & [-> HW] & ->); [by apply Hlog|].
    apply (wt_paused k b (logged _ w)); [by apply Hlog|]. cbn [logged state].
    intros l [Hl|Hl%elem_of_list_to_set]%elem_of_union.
    + by apply (pv_paused _ _ _ _ (wv_places _ _ _ _ _ (proj1 HW))).
    + by apply list_elem_of_filter in Hl as [[_ ?] _].
  - destruct (bool_decide _); [by apply under_ret; intros ? [-> ?]|].
    eapply under_bind; [apply holds_call|]. intros r.
    assert (Hlog : forall r, WT k b w -> WT k b (logged (CallResume (filter (fun l =>
      l ∈ paused (state w)) lanes) r) w)).
    { intros r' HW. apply winv_logged; [done| |done]. rewrite acked_snoc. apply app_nil_r. }
    destruct r; [apply under_ret|apply holds_upd_state]; intros ? (? & [-> HW] & ->); [by apply Hlog|].
    apply (wt_paused k b (logged _ w)); [by apply Hlog|]. cbn [logged state].
    intros l [Hl _]%elem_of_difference.
    by apply (pv_paused _ _ _ _ (wv_places _ _ _ _ _ (proj1 HW))).
  - eapply under_pre; [apply holds_wt_failure; by eexists|]. by intros ? [-> ?].
Qed.

Lemma holds_drain_events k b f :
  (forall e, holds (WT k b) (f e) (fun _ => WT k b)) ->
  holds (WT k b) (drain_events f) (fun _ => WT k b).
Proof.
  intros Hf. apply (under_loop (WT k b)). eapply under_bind; [apply under_ask|].
  intros [e|]; [|by apply under_ret].
  eapply under_bind; [apply Hf|]. intros []. by apply under_ret.
Qed.

Lemma holds_check_stop k b : holds (WT k b) (check_stop prm) (fun _ => WT k b).
Proof.
  apply under_get_bind. intros w. eapply (under_bind _ _ _ (fun _ => WT k b)).
  - eapply under_pre; [|intros ? [-> HW]; exact HW].
    destruct (bool_decide _); [|by apply under_ret].
    eapply under_bind; [apply under_ask|]. intros [|]; [|by apply under_ret].
    eapply under_bind; [apply holds_stop_trigger|]. intros tr. apply under_pure. intros Htr.
    eapply under_bind; [by apply holds_stop_times|]. intros times. apply under_pure. intros Hn.
    by apply holds_upd_locals.
  - intros []. apply under_get_bind. intros w'.
    destruct (stopping (locals w')) as [times|]; [|by apply under_ret; intros ? [-> ?]].
    eapply under_pre; [|intros ? [-> HW]; exact HW].
    eapply under_bind; [apply under_ask|]. intros now.
    destruct (bool_decide _); [by apply under_ret|].
    eapply under_bind; [apply under_ask|]. intros r. by apply under_ret.
Qed.

Lemma holds_revoke_budget k b :
  holds (WT k b) (revoke_budget prm) (fun d w => WT k b w /\ (lax \/ d <= ONE_DAY)).
Proof.
  apply under_get_bind. intros w. eapply under_pre; [|intros ? [-> HW]; exact HW].
  destruct (stopping (locals w)).
  - eapply under_bind; [apply under_ask|]. intros now. apply under_ret. intros ? HW.
    split; [done|]. unfold stop_budget. destruct Hshort as [|[? _]]; [by left|right; lia].
  - apply under_ret. intros ? HW. split; [done|]. destruct Hshort as [|[? _]]; [by left|right; lia].
Qed.

Lemma holds_commit_tick k b : holds (WT k b) (commit_tick prm) (fun _ => WT k b).
Proof.
  eapply under_bind; [apply under_ask|]. intros now. apply under_get_bind. intros w.
  destruct (bool_decide _); [|by apply under_ret; intros ? [-> ?]].
  eapply under_pre; [|intros ? [-> HW]; exact HW].
  eapply under_bind; [by apply holds_upd_locals|]. intros [].
  eapply under_bind; [apply holds_send_all|]. intros [].
  eapply under_bind; [apply holds_wt_commit|]. intros [].
  eapply under_bind; [apply under_ask|]. intros now'. apply under_get_bind. intros w'.
  eapply under_pre; [|intros ? [-> HW]; exact HW].
  destruct (stalled_too_long prm now' _) as [[p age]|]; [|by apply under_ret].
  apply holds_wt_failure. by eexists.
Qed.

Lemma holds_commit_ready k b ps : holds (WT k b) (commit_ready prm ps) (fun _ => WT k b).
Proof.
  apply under_get_bind. intros w. eapply (under_bind _ _ _ (fun _ => WT k b)).
  - intros w' t [-> HW]. refine (under_each (WT k b) _ _ _ w t HW).
    intros i Hi. apply holds_send_to. unfold owners_of in Hi.
    rewrite elem_of_elements, elem_of_list_to_set, list_elem_of_omap in Hi.
    destruct Hi as ([l [p th]] & Hin%elem_of_map_to_list & Hx). cbn [fst snd] in Hx.
    destruct (bool_decide (p ∈ ps)); [|done]. injection Hx as ->.
    by apply (pv_assign _ _ _ _ (wv_places _ _ _ _ _ (proj1 HW)) l p).
  - intros []. eapply under_bind; [apply holds_clock|]. intros now. apply under_pure. intros Hnow.
    eapply under_bind.
    { apply holds_add. pose proof clock_room. unfold short in Hshort.
      assert (0 <= CLOCK_MAX) by done. intuition lia. }
    intros at_. apply under_pure. intros _. by apply holds_upd_locals.
Qed.

Lemma holds_poll_events k b :
  holds (WT k b) poll_events (fun e w => WT k b w /\
    match e with inl e => event_ok w e = true | inr _ => True end).
Proof.
  eapply under_bind; [apply under_ask|]. intros e. apply under_get_bind. intros w.
  destruct e as [e|c]; [|by apply under_ret; intros ? [-> ?]].
  destruct (event_ok w e) eqn:E; [|apply under_stuck]. apply under_ret. by intros ? [-> ?].
Qed.

Lemma holds_handle_event k b e budget :
  (0 < k)%nat -> b < U32_MAX -> (lax \/ budget <= ONE_DAY) ->
  holds (fun w => WT k b w /\ match e with inl e => event_ok w e = true | inr _ => True end)
    (handle_event prm e budget) (fun _ => WT k (b + 1)).
Proof.
  intros Hk Hb Hbud.
  assert (Hup : forall w, WT k b w -> WT k (b + 1) w) by (intros w; apply wt_mono; lia).
  destruct e as [[lanes|lanes|lanes parties|lanes| |ps|]|[]]; cbn [handle_event].
  - intros w t [HW Hok]. cbn [event_ok] in Hok. revert w t HW.
    change (holds (WT k b) (handle_event prm (inl (LanesAssigned lanes)) budget)
      (fun _ => WT k (b + 1))).
    eapply (under_bind _ _ _ (fun _ => WT k (b + 1))).
    + eapply under_weaken; [by apply holds_handle_assign|intros w HW; apply HW|].
      intros [] w HW. exact (conj HW I).
    + intros []. eapply under_bind; [by apply holds_upd_locals|]. intros []. by apply under_ret.
  - intros w t [HW Hok]. cbn [event_ok] in Hok. apply andb_prop in Hok as [Hids Hnew].
    apply bool_decide_eq_true in Hnew. rewrite Forall_forall in Hnew.
    refine (under_bind _ _ _ (fun _ => WT k (b + 1)) _
      (under_weaken _ _ _ _ _ (holds_handle_added k b lanes Hk Hids) (fun w H => H) _) _ w t _).
    + intros [] w' HW'. by apply Hup, wt_wi.
    + intros []. by apply under_ret.
    + split; [apply HW|done].
  - eapply (under_pre (WT k b)); [|by intros w [? _]].
    eapply under_bind; [apply holds_new_barrier|]. intros n.
    eapply (under_bind _ _ _ (fun _ => WT k (b + 1))); [|intros []; by apply under_ret].
    apply holds_any. intros a. eapply under_weaken; [by apply holds_revoke_lanes|done|].
    intros [] w [HW _]. by apply Hup, wt_wi.
  - eapply (under_pre (WT k b)); [|by intros w [? _]].
    eapply (under_bind _ _ _ (fun _ => WT k (b + 1))); [|intros []; by apply under_ret].
    apply holds_any. intros a. eapply under_weaken; [apply holds_handle_retired|done|].
    intros [] w [HW _]. by apply Hup, wt_wi.
  - apply under_ret. intros w [HW _]. by apply Hup.
  - eapply (under_pre (WT k b)); [|by intros w [? _]].
    eapply under_bind; [apply holds_commit_ready|]. intros []. apply under_ret. exact Hup.
  - apply under_ret. intros w [HW _]. by apply Hup.
  - apply under_ret. intros w [HW _]. by apply Hup.
  - apply under_ret. intros w [HW _]. by apply Hup.
  - eapply (under_pre (WT k b)); [|by intros w [? _]].
    eapply under_bind; [apply holds_wt_failure; by eexists|]. intros []. apply under_ret. exact Hup.
Qed.

Lemma holds_chase k b : holds (WT k b) chase (fun _ => WT k b).
Proof.
  apply under_get_bind. intros w0. eapply under_pre; [|intros ? [-> HW]; exact HW].
  destruct (_ || _); [by apply under_ret|].
  eapply under_bind; [apply under_ask|]. intros now.
  eapply under_bind; [by apply holds_upd_locals|]. intros []. apply under_get_bind. intros w1.
  eapply under_pre; [|intros ? [-> HW]; exact HW].
  eapply (under_bind _ _ _ (fun _ => WT k b)).
  { apply under_when; [intros _; apply holds_wt_harvest|done]. }
  intros []. apply under_get_bind. intros w2. cbv zeta.
  eapply under_pre; [|intros ? [-> HW]; exact HW].
  eapply (under_bind _ _ _ (fun _ => WT k b)).
  { destruct (bool_decide _); [by apply under_ret|].
    eapply under_bind; [apply holds_wt_commit|]. intros []. apply under_get_bind. intros w3.
    eapply under_pre; [by apply holds_upd_locals|]. by intros ? [-> HW]. }
  intros []. apply under_get_bind. intros w3.
  eapply under_pre; [by apply holds_upd_locals|]. by intros ? [-> HW].
Qed.

Lemma holds_pass k b :
  (0 < k)%nat -> b < U32_MAX -> holds (WT k b) (pass prm) (fun _ => WT k (b + 1)).
Proof.
  intros Hk Hb.
  assert (Hup : forall w, WT k b w -> WT k (b + 1) w) by (intros w; apply wt_mono; lia).
  apply under_get_bind. intros w0. eapply under_pre; [|intros ? [-> HW]; exact HW].
  destruct (failed w0); [apply under_ret; (exact Hup || done)|].
  eapply under_bind; [apply holds_check_stop|]. intros [|]; [apply under_ret; (exact Hup || done)|].
  eapply under_bind; [apply holds_revoke_budget|]. intros budget. apply under_pure. intros Hbud.
  eapply under_bind; [apply holds_drain_events; intros e; apply holds_driver_event|]. intros [].
  apply under_get_bind. intros w1. eapply under_pre; [|intros ? [-> HW]; exact HW].
  destruct (failed w1); [apply under_ret; (exact Hup || done)|].
  eapply under_bind; [apply holds_wt_harvest|]. intros [].
  eapply under_bind; [apply holds_commit_tick|]. intros [].
  apply under_get_bind. intros w2. eapply under_pre; [|intros ? [-> HW]; exact HW].
  destruct (failed w2); [apply under_ret; (exact Hup || done)|].
  eapply under_bind; [apply holds_poll_events|]. intros e.
  eapply under_bind; [by apply holds_handle_event|]. intros [|]; [apply under_ret; (exact Hup || done)|].
  eapply under_bind; [apply holds_chase|]. intros []. by apply under_ret.
Qed.

Lemma holds_run_passes k n : forall b,
  (0 < k)%nat -> b + Z.of_nat n <= U32_MAX ->
  holds (WT k b) (run_passes prm n) (fun _ => WT k (b + Z.of_nat n)).
Proof.
  induction n as [|n IH]; intros b Hk Hb; cbn [run_passes].
  - apply under_ret. intros w. apply wt_mono. lia.
  - eapply under_bind; [apply holds_pass; [done|lia]|]. intros [d|].
    + apply under_ret. intros w. apply wt_mono. lia.
    + eapply under_weaken; [apply (IH (b + 1)); [done|lia]|done|].
      intros r w. apply wt_mono. lia.
Qed.

Lemma holds_open k b : holds (WT k b) open_source (fun _ => WT k b).
Proof.
  eapply (under_bind _ _ _ (fun _ => WT k b)).
  - apply holds_steps; [intros w HW; apply HW|]. intros w s' HW He Hr.
    cbn [exec_all] in He. destruct (exec (LSpawn 0) (sys w)) as [s1|] eqn:E; [|done].
    injection He as ->. unfold exec in E. destruct (panicked (sys w)); [done|].
    destruct (issuers (sys w) !! 0%nat); [done|]. injection E as <-.
    apply ws_frame; try done; [apply HW|]. split; eauto.
  - intros []. eapply under_bind; [by apply holds_neutral_call|].
    intros [c|]; [|by apply under_ret].
    eapply under_bind; [apply holds_wt_failure; by eexists|]. intros []. by apply under_ret.
Qed.

(** ** The end of a run *)
Lemma holds_drain_drivers k b d :
  (lax \/ 0 <= d <= CLOCK_MAX + ONE_DAY) ->
  holds (WT k b) (drain_drivers prm d) (fun by_ w => WT k b w /\
    (lax \/ by_ <= CLOCK_MAX + ONE_DAY)).
Proof.
  intros Hd. eapply under_bind; [apply holds_clock|]. intros now. apply under_pure. intros Hnow.
  assert (0 <= ONE_DAY) by done.
  assert (Hby : lax \/ lanes_deadline now d (close_share prm) <= CLOCK_MAX + ONE_DAY).
  { unfold lanes_deadline, short in *. intuition lia. }
  apply under_get_bind. intros w. cbv zeta. eapply under_pre; [|intros ? [-> HW]; exact HW].
  eapply under_bind; [apply holds_new_barrier|]. intros n.
  eapply under_bind; [apply holds_send_all|]. intros [].
  eapply under_bind; [apply holds_clock|]. intros now'. apply under_pure. intros Hnow'.
  eapply under_bind.
  { apply holds_wait. unfold since. assert (0 <= CLOCK_MAX) by done. intuition lia. }
  intros ?. eapply under_bind.
  { apply holds_drain_events. intros e. destruct e; try by apply under_ret.
    apply holds_wt_failure. by eexists. }
  intros []. by apply under_ret.
Qed.

(** The log says what was registered when the wait for the sink ended. *)
Definition waited (w : World) : Prop := exists d, SinkWaited d (history (sys w)) ∈ calls w.

Lemma holds_await_sink k b by_ :
  (lax \/ by_ <= CLOCK_MAX + ONE_DAY) ->
  holds (WT k b) (await_sink by_) (fun _ w => WT k b w /\ waited w).
Proof.
  intros Hby. eapply under_bind; [apply holds_clock|]. intros now. apply under_pure. intros Hnow.
  eapply under_bind.
  { apply holds_or_panic. pose proof clock_room as [_ Hr]. destruct (decide _) as [|Hgt]; [eauto|].
    left. unfold since in Hgt. assert (0 <= CLOCK_MAX + ONE_DAY) by done. intuition lia. }
  intros ?. apply under_pure. intros _. eapply under_bind; [apply under_ask|]. intros d.
  eapply under_bind; [apply holds_others|]. intros []. apply under_get_bind. intros w.
  apply under_modify. intros ? [-> HW]. split.
  - apply winv_logged; [done| |done]. rewrite acked_snoc. apply app_nil_r.
  - exists d. cbn [logged calls sys]. apply elem_of_app. right. apply list_elem_of_here.
Qed.

(** The batches of [seen] are known, and their registrations are not in the channel. *)
Definition taken (seen : gmap BatchId Batch) (s : Sys) : Prop :=
  newer seen s /\ forall id, is_Some (seen !! id) -> is_Some (history s !! id).

(** Of the batches registered by the end of the wait, none is left in the channel. *)
Definition swept (w : World) : Prop := exists d seen,
  SinkWaited d seen ∈ calls w /\ taken seen (sys w).

Lemma swept_mono w w' :
  regs (sys w') = regs (sys w) -> history (sys w') = history (sys w) ->
  (forall c, c ∈ calls w -> c ∈ calls w') -> swept w -> swept w'.
Proof.
  intros Hr Hh Hc (d & seen & Hin & Hn & Hd). exists d, seen. unfold taken, newer. rewrite Hr, Hh.
  auto.
Qed.

Lemma ens_drain_taken seen cs :
  ensures (fun w => Inv (sys w) /\ pc (sys w) = CIdle /\ history (sys w) = seen /\ calls w = cs)
    drain_all (fun _ w => taken seen (sys w) /\ calls w = cs).
Proof.
  intros w t a w' t' (HI & Hidle & <- & <-) E. unfold drain_all, mbind, prog_bind, ask in E.
  destruct t as [|[ls| | | | | | | | |] t]; try done.
  destruct (forallb drain_label ls) eqn:El; [|done]. unfold steps, get in E.
  destruct (exec_all _ (sys w)) as [s'|] eqn:He; [|done].
  destruct (panicked s'); [done|]. cbn [put_sys sys] in E.
  destruct (bool_decide (pc s' = CIdle)) eqn:Hpc; [|done]. apply bool_decide_eq_true in Hpc.
  injection E as _ <- _. cbn [put_sys sys calls]. split; [|done].
  cbn [exec_all] in He. unfold exec in He at 1. rewrite (iv_panic _ HI), bool_decide_true in He by done.
  assert (HI1 : Inv (set_ck (ck (sys w)) (CRegs1 stats_default) (sys w)))
    by (apply inv_set_pc; by rewrite ?Hidle).
  destruct (exec_all_drain ls _ _ HI1 El He) as [_ HF]. split.
  - destruct (exec_all_sweep (history (sys w)) ls _ _ HI1 El He) as [[st Hst]|Hn]; try done.
    + left. by eexists.
    + congruence.
  - intros id [b Hb]. destruct (fr_off _ _ HF _ _ Hb) as (b' & Hb' & _). by exists b'.
Qed.

Lemma ens_take_taken seen cs :
  ensures (fun w => taken seen (sys w) /\ calls w = cs) take_all
    (fun _ w => taken seen (sys w) /\ calls w = cs).
Proof.
  intros w t a w' t' [Hs <-] E. unfold take_all, mbind, prog_bind, ask in E.
  destruct t as [|[| |now| | | | | | |] t]; try done. unfold steps, get in E. cbn [exec_all] in E.
  destruct (exec (LTake now) (sys w)) as [s'|] eqn:He; [|done].
  destruct (panicked s'); [done|]. injection E as _ <- _. split; [|done]. cbn [put_sys sys].
  unfold exec in He. destruct (panicked (sys w)); [done|]. destruct (bool_decide _); [|done].
  destruct (take_watermarks _ _) as [c out]. injection He as <-. exact Hs.
Qed.

Lemma ens_harvest_taken seen cs :
  ensures (fun w => Inv (sys w) /\ pc (sys w) = CIdle /\ history (sys w) = seen /\ calls w = cs)
    harvest (fun _ w => taken seen (sys w) /\ calls w = cs).
Proof.
  eapply ens_bind; [apply ens_drain_taken|]. intros [].
  eapply ens_bind; [apply ens_take_taken|]. intros out. by apply ens_modify.
Qed.

(** The final commit's harvest takes every registration sent before it. *)
Lemma ens_commit_swept only :
  ensures (fun w => Inv (sys w) /\ pc (sys w) = CIdle /\ waited w) (commit_cycle only)
    (fun _ => swept).
Proof.
  eapply (ens_bind _ _ _ (fun _ => swept)).
  - intros w t a w' t' (HI & Hidle & d & Hd) E.
    destruct (ens_harvest_taken (history (sys w)) (calls w) w t a w' t') as [Ht Hc]; [done|done|].
    exists d, (history (sys w)). by rewrite Hc.
  - intros []. apply ens_get_bind. intros w.
    apply (ens_weaken swept _ _ (fun _ => swept)); [|by intros ? [-> Hs]|done].
    destruct (bool_decide _); [by apply ens_ret|]. cbv zeta. destruct (bool_decide _); [by apply ens_ret|].
    eapply (ens_bind _ _ _ (fun _ => swept)).
    + eapply (ens_bind _ _ _ (fun _ => swept)); [by apply ens_ask|]. intros r.
      eapply (ens_bind _ _ _ (fun _ => swept)); [|intros []; by apply ens_ret].
      apply ens_modify. intros w'. apply swept_mono; try done. intros c Hc. apply elem_of_app. by left.
    + intros [[]|]; (by apply ens_ret) || (apply ens_modify; intros w'; by apply swept_mono).
Qed.

(** After the last drain, the flush's reply is the last call, where there was a
    flush. *)
Definition flushed (opened ff : bool) (w : World) : Prop := swept w /\
  if opened then exists r, last (calls w) = Some (CallFlush r) /\ ff = bool_decide (is_Some r)
  else ff = false.

(** Nothing is pending and everything was stored. *)
Definition settled (ff : bool) (w : World) : Prop :=
  max_pending (ck (sys w)) = 0%nat /\ pending_commit (state w) = ∅ /\ ff = false.

Lemma holds_backstop k b opened ff :
  holds (fun w => WT k b w /\ flushed opened ff w) (backstop ff)
    (fun _ w => WT k b w /\ flushed opened ff w /\ (failure (state w) = None -> settled ff w)).
Proof.
  apply under_get_bind. intros w. cbv zeta.
  assert (Hset : forall e, holds (fun w' => w' = w /\ WT k b w /\ flushed opened ff w)
    (upd_state (set_failure e))
    (fun _ w => WT k b w /\ flushed opened ff w /\ (failure (state w) = None -> settled ff w))).
  { intros e. apply holds_upd_state. intros ? [-> [HW Hf]]. split; [|split; [exact Hf|done]].
    by apply (winv_failure _ _ _ _ w (set_failure e)); [|done|eexists]. }
  destruct (decide (0 < max_pending (ck (sys w)))%nat) as [Hp|Hp];
    [rewrite bool_decide_true by done; apply Hset|rewrite bool_decide_false by done].
  destruct (negb (bool_decide (pending_commit (state w) = ∅)) || ff) eqn:E; [apply Hset|].
  apply orb_false_iff in E as [E1%negb_false_iff%bool_decide_eq_true ->].
  apply under_ret. intros ? [-> [HW Hf]]. split_and!; try done. intros _.
  split_and!; [lia|done|done].
Qed.

(** What the report says of the world it was made in. *)
Record reports (drained opened : bool) (rep : Report) (w : World) : Prop := mk_reports {
  rs_failure : rp_failure rep = failure (state w);
  rs_watermarks : final_watermarks rep = entries (committed (state w));
  rs_drained : drained = true -> rp_failure rep = None ->
    max_pending (ck (sys w)) = 0%nat /\ pending_commit (state w) = ∅ /\
    (opened = true -> last (calls w) = Some (CallFlush None));
  rs_swept : swept w;
}.

Lemma holds_flush k b (opened : bool) :
  holds (fun w => WT k b w /\ swept w)
    (if opened then r ← call CallFlush; mret (bool_decide (is_Some r)) else mret false)
    (fun ff w => WT k b w /\ flushed opened ff w).
Proof.
  destruct opened; [|apply under_ret; intros w [? ?]; by split_and!].
  eapply under_bind; [apply holds_call|]. intros r. apply under_ret.
  intros ? (w & [HW Hs] & ->). split; [|split].
  - apply winv_logged; [done| |done]. rewrite acked_snoc. apply app_nil_r.
  - revert Hs. apply swept_mono; try done. intros c Hc. apply elem_of_app. by left.
  - exists r. split; [|done]. cbn [logged calls]. by rewrite last_snoc.
Qed.

(** The deadline of a drain that no stop began. *)
Lemma holds_drain_from (I : World -> Prop) :
  holds I (now ← ask_clock; add_instant now (drain_timeout prm))
    (fun d w => I w /\ (lax \/ 0 <= d <= CLOCK_MAX + ONE_DAY)).
Proof.
  eapply under_bind; [apply holds_clock|]. intros now. apply under_pure. intros Hnow.
  pose proof clock_room. unfold short in Hshort. assert (0 <= CLOCK_MAX) by done.
  eapply under_weaken; [apply (holds_add I); intuition lia|done|].
  intros d w [HI ->]. split; [done|]. intuition lia.
Qed.

Lemma holds_final_commit k b :
  holds (fun w => WT k b w /\ waited w) (commit_cycle None) (fun _ w => WT k b w /\ swept w).
Proof.
  apply under_ens.
  - eapply under_pre; [apply holds_wt_commit|]. by intros w [? _].
  - eapply ens_weaken; [apply ens_commit_swept| |done]. intros w [[HW _] Hw].
    split_and!; [apply reachable_inv, HW|apply HW|done].
Qed.

Lemma holds_finish k b opened drained :
  holds (WT k b) (finish prm opened drained)
    (fun rep w => WT k b w /\ reports drained opened rep w).
Proof.
  eapply under_bind; [apply holds_set_shutdown|]. intros [].
  eapply (under_bind _ _ _ (fun _ => WT k b)).
  { destruct (_ && _); [|by apply under_ret].
    eapply under_bind; [by apply holds_neutral_call|]. intros ?. by apply under_ret. }
  intros []. apply under_get_bind. intros w0.
  eapply (under_bind _ _ _ (fun d w => WT k b w /\ (lax \/ 0 <= d <= CLOCK_MAX + ONE_DAY))).
  { destruct (stopping (locals w0)) as [times|] eqn:Es.
    - apply under_ret. intros ? [-> HW]. split; [done|]. by apply (wv_stop _ _ _ _ _ (proj1 HW)).
    - eapply under_pre; [|intros ? [-> HW]; exact HW]. by apply holds_drain_from. }
  intros deadline. apply under_pure. intros Hd.
  eapply under_bind; [by apply holds_drain_drivers|]. intros lanes_by. apply under_pure. intros Hby.
  eapply under_bind; [by apply holds_await_sink|]. intros [].
  eapply under_bind; [apply holds_final_commit|]. intros [].
  eapply under_bind; [apply holds_flush|]. intros ff. apply under_get_bind. intros w1.
  eapply (under_bind _ _ _ (fun _ w => WT k b w /\ flushed opened ff w /\
    (drained = true -> failure (state w) = None -> settled ff w))).
  { apply under_when.
    - intros [_ _]%andb_prop. eapply under_weaken; [apply (holds_backstop k b opened ff)| |].
      + by intros ? [-> ?].
      + intros [] w (? & ? & ?). split_and!; try done.
    - intros [->|Hf%negb_false_iff]%andb_false_iff ? [-> [HW Hfl]]; split_and!; try done.
      intros _ Hn. unfold failed in Hf. apply bool_decide_eq_true in Hf.
      rewrite Hn in Hf. by destruct Hf. }
  intros []. apply under_get_bind. intros w2. apply under_ret.
  intros ? [-> (HW & [Hsw Hfl] & Hs)]. split; [done|]. split; try done.
  intros Hdr Hn. destruct (Hs Hdr Hn) as (S1 & S2 & ->). split_and!; [done|done|].
  intros ->. destruct Hfl as (r & Hl & Hr). rewrite Hl. destruct r; [|done].
  symmetry in Hr. apply bool_decide_eq_false in Hr. by destruct Hr.
Qed.

(** A source that did not open is not polled. *)
Lemma run_passes_failed n w t : failed w = true ->
  run_passes prm n w t = Ran (if decide (n = 0%nat) then None else Some false) w t.
Proof.
  intros Hf. destruct n as [|n]; [done|]. cbn [run_passes].
  unfold pass, get, mbind, prog_bind. by rewrite Hf.
Qed.

Lemma holds_opened k b :
  holds (WT k b) open_source (fun o w => WT k b w /\ (o = false -> failed w = true)).
Proof.
  apply under_ens; [apply holds_open|]. intros w t o w' t' _ E. unfold open_source in E.
  unfold mbind, prog_bind in E. destruct (steps _ w t) as [[] w1 t1| |]; [|done..].
  destruct (call CallOpen w1 t1) as [[c|] w2 t2| |]; [| |done..]; by injection E as <- <- _.
Qed.

(** The world after [n] passes, and after the end where the run ended. *)
Lemma holds_controller k n :
  (0 < k)%nat -> Z.of_nat n <= U32_MAX ->
  holds (WT k 0) (run_controller prm n) (fun r w => WT k (Z.of_nat n) w /\
    match r with Some (d, rep) => reports d d rep w | None => True end).
Proof.
  intros Hk Hn. eapply under_bind; [apply holds_opened|]. intros opened.
  eapply under_bind; [apply under_ask|]. intros now.
  eapply (under_bind _ _ _ (fun _ w => WT k 0 w /\ (opened = false -> failed w = true))).
  { apply under_modify. intros w [HW Hf]. split; [|exact Hf]. apply (ws_same _ _ _ _ w); try done.
    apply HW. }
  intros [].
  eapply (under_bind _ _ _ (fun r w => WT k (Z.of_nat n) w /\ (r = Some true -> opened = true))).
  { apply under_ens.
    - eapply under_pre; [apply (holds_run_passes k n 0 Hk ltac:(lia))|]. by intros w [? _].
    - intros w t r w' t' [HW Hf] E. destruct opened; [done|].
      rewrite run_passes_failed in E by auto. injection E as <- _ _. by destruct (decide _). }
  intros [d|]; [|apply under_ret; by intros w [? _]].
  intros w t [HW Hd].
  refine (under_bind (WT k (Z.of_nat n)) _ _ _ _ (holds_finish k (Z.of_nat n) opened d) _ w t HW).
  intros rep. apply under_ret. intros w' [HW' [R1 R2 R3 R4]]. split; [done|]. split; try done.
  intros -> Hnf. rewrite (Hd eq_refl) in R3. by apply R3.
Qed.

Lemma wt_init k : WT k 0 (world_init k).
Proof.
  split; [|done]. split; cbn; try done; [apply rtc_refl|by rewrite length_replicate|..].
  - split; cbn; try done; [by rewrite length_replicate|by intros p [? ?]|].
    intros t Ht. rewrite fmap_empty. rewrite map_count_zero by done.
    by apply lookup_replicate_2.
  - split; [done|]. intros p e x Hx. by apply elem_of_nil in Hx.
  - intros ps r seen p o Hx. by apply elem_of_nil in Hx.
Qed.

End Invariant.

(** A configuration the checks accept gives settings of a day at most. *)
Lemma context_short c hands_back window :
  validate_checkpoint c = true -> (forall d, window = Some d -> 0 <= d <= ONE_DAY) ->
  short (context c hands_back window).
Proof.
  unfold validate_checkpoint, up_to_a_day, COMMIT_INTERVAL_FLOOR, at_most, at_least, check_duration.
  cbn [floor ceiling or_zero_]. rewrite !decide_True by done. cbn [floor ceiling or_zero_ andb].
  intros [[[[_ Hi]%andb_prop _]%andb_prop Hd]%andb_prop _]%andb_prop Hw.
  assert (HI : 0 <= cs_interval c <= ONE_DAY) by (revert Hi; repeat case_bool_decide; simpl; lia || done).
  assert (HD : 0 <= cs_drain_timeout c <= ONE_DAY) by (revert Hd; repeat case_bool_decide; simpl; lia || done).
  split_and!; cbn; try lia; destruct window as [d|]; cbn; try lia; try (by apply Hw).
  all: destruct hands_back; done.
Qed.

(** ** Properties *)

(** A run on two threads: one lane is assigned, its first batch is issued,
    delivered and committed on the tick, and the source is drained. *)
Definition demo_params : Params := mkParams 0 10 10 100 1000.
Definition demo_tape : list Answer :=
  [FromSource None; Clock 0;
   Flag false; FromDriver None; Others [LDrainStep; LDrainStep]; Clocks (fun _ => 0); Clock 5;
   Event (inl (LanesAssigned [mkLane 7 0 1])); Others [LCloneIssuer 0 1]; Visit [0];
   Flag false; FromDriver None;
   Others [LLoad 1 0 9; LSend 1; LNew 1; LDrainStep; LDrainStep; LDrop 0%nat; LDrainStep;
           LDrainStep]; Clocks (fun _ => 0);
   Clock 20; Others [LDrainStep; LDrainStep]; Clocks (fun _ => 0); FromSource None; Clock 21;
   Event (inl EvDrained);
   Clock 22; Clock 22; Clock 22; Clock 22; Arrivals [0; 0]%nat; FromDriver None; Clock 23;
   Flag true; Others []; Others [LDrainStep; LDrainStep]; Clocks (fun _ => 0); FromSource None].

Definition demo_run : Outcome World Answer (option (bool * Report)) :=
  run_controller demo_params 2 (world_init 2) demo_tape.
Definition demo_world : World :=
  match demo_run with Ran _ w _ => w | _ => world_init 2 end.
Definition demo_result : option (bool * Report) :=
  match demo_run with Ran r _ _ => r | _ => None end.

Lemma demo_runs : demo_run = Ran demo_result demo_world [].
Proof. vm_compute. reflexivity. Qed.

Lemma controller_run_inv P k n t r w rest :
  (0 < k)%nat -> Z.of_nat n <= U32_MAX ->
  run_controller P n (world_init k) t = Ran r w rest ->
  WT True k (Z.of_nat n) w /\ match r with Some (d, rep) => reports d d rep w | None => True end.
Proof.
  intros Hk Hn Hrun.
  apply (under_run _ _ _ _ _ _ _ _ (holds_controller True P (or_introl I) k n Hk Hn) (wt_init True k)
    (proj2 (Forall_forall _ t) (fun q _ => or_introl I)) Hrun).
Qed.

Lemma max_pending_ge c p t :
  trackers c !! p = Some t -> (Tracker.pending t <= max_pending c)%nat.
Proof.
  intros Ht%elem_of_map_to_list. unfold max_pending. revert Ht.
  generalize (map_to_list (trackers c)). intros l.
  induction l as [|x l IH]; intros Hin; [by apply elem_of_nil in Hin|]. simpl.
  apply elem_of_cons in Hin as [<-|Hin]; simpl; [lia|]. specialize (IH Hin). lia.
Qed.

(** A tracked partition with nothing pending: its registered batches are all
    delivered, up to registrations still on their way. *)
Lemma nothing_left_pending s id b :
  Inv s -> max_pending (ck s) = 0%nat -> history s !! id = Some b ->
  bid_epoch id = ck_epoch (ck s) -> tracked s (bid_partition id) ->
  (exists h, heads (ck s) !! bid_partition id = Some h /\ bid_seq id < h /\
     delivered (history s) id) \/
  exists reg, reg ∈ queue (regs s) /\ reg_id reg = id.
Proof.
  intros HI Hmax Hb He [t Ht]. destruct id as [p e q]; cbn [bid_epoch bid_partition bid_seq] in *.
  subst e. pose proof (max_pending_ge _ _ _ Ht) as Hp. unfold Tracker.pending in Hp.
  destruct (iv_keys _ HI _ _ Hb) as [_ Hq]. specialize (Hq eq_refl). cbn in Hq.
  destruct (iv_part _ HI p t Ht) as [[K1 K2 K3] Pn Pq Pc Po].
  destruct (decide (q < next_seq t)) as [Hlt|Hge].
  - left. exists (head_seq t). unfold heads. rewrite lookup_fmap, Ht. split; [done|].
    split; [lia|]. destruct (Pc q) as (b' & Hb' & Hc); [lia|]. rewrite Hb in Hb'.
    injection Hb' as <-. unfold consumed in Hc. rewrite bool_decide_true in Hc by lia.
    destruct Hc as (Hr & Hs & _). exists b. split_and!; try done.
    unfold b_status in Hs. by destruct (b_failed b).
  - right. set (l := regs_for (ck_epoch (ck s)) p (queue (regs s))) in *.
    destruct (lookup_lt_is_Some_2 l (Z.to_nat (q - next_seq t))) as [reg Hreg]; [lia|].
    exists reg. split.
    + apply list_elem_of_lookup_2 in Hreg. by apply list_elem_of_filter in Hreg as [_ ?].
    + destruct (Pq _ _ Hreg) as [-> _]. f_equal. lia.
Qed.

(** C3: at-least-once, end to end. Whatever the source, the drivers and the sinks
    do, every position the controller ever passes to [Source::commit] was, at
    the moment of the call, one past the last offset of a batch all of whose
    predecessors in its partition and epoch had been delivered, and it too. *)
Theorem run_commits_delivered (P : Params) (k n : nat) (t : list Answer)
    (r : option (bool * Report)) (w : World) (rest : list Answer)
    (ps : list (Z * Z)) (reply : Reply) (seen : gmap BatchId Batch) (p o : Z) :
  (0 < k)%nat -> Z.of_nat n <= U32_MAX ->
  run_controller P n (world_init k) t = Ran r w rest ->
  CallCommit ps reply seen ∈ calls w -> (p, o) ∈ ps ->
  exists e j b, 0 <= j /\ seen !! mkBatchId p e j = Some b /\ o = wrap_i64 (b_off b + 1) /\
    forall i, 0 <= i <= j -> delivered seen (mkBatchId p e i).
Proof.
  intros Hk Hn Hrun Hin Hp.
  destruct (controller_run_inv P k n t r w rest Hk Hn Hrun) as [[HW _] _].
  destruct (wv_calls _ _ _ _ _ _ HW ps reply seen p o Hin Hp) as (e & j & b & H). eauto.
Qed.

(** The history at the demo's commit. *)
Definition demo_seen : gmap BatchId Batch :=
  match calls demo_world !! 1%nat with Some (CallCommit _ _ seen) => seen | _ => ∅ end.

Lemma demo_call : CallCommit [(0, 10)] None demo_seen ∈ calls demo_world.
Proof. apply (list_elem_of_lookup_2 _ 1%nat). vm_compute. reflexivity. Qed.

Lemma run_commits_delivered_witness :
  CallCommit [(0, 10)] None demo_seen ∈ calls demo_world /\
  exists e j b, 0 <= j /\ demo_seen !! mkBatchId 0 e j = Some b /\ 10 = wrap_i64 (b_off b + 1) /\
    forall i, 0 <= i <= j -> delivered demo_seen (mkBatchId 0 e i).
Proof.
  split; [exact demo_call|].
  apply (run_commits_delivered demo_params 2 2 demo_tape demo_result demo_world []
    [(0, 10)] None demo_seen 0 10); [lia|unfold_int; lia|exact demo_runs|exact demo_call|].
  apply list_elem_of_here.
Defined.

(** no position is lost. In every run, each watermark the checkpointer ever
    reported for a partition is still waiting in [pending_commit] under a
    position at least as high, to be sent again, or a commit of a position at
    least as high has succeeded; and what waits was reported. *)
Theorem run_keeps_watermarks (P : Params) (k n : nat) (t : list Answer)
    (r : option (bool * Report)) (w : World) (rest : list Answer) :
  (0 < k)%nat -> Z.of_nat n <= U32_MAX ->
  run_controller P n (world_init k) t = Ran r w rest ->
  (forall p e x, (p, e, x) ∈ reported (sys w) ->
     (exists o, pending_commit (state w) !! p = Some o /\ x <= o) \/
     (exists o, (p, o) ∈ acked (calls w) /\ x <= o)) /\
  (forall p o, pending_commit (state w) !! p = Some o ->
     exists e, (p, e, o) ∈ reported (sys w)).
Proof.
  intros Hk Hn Hrun. destruct (controller_run_inv P k n t r w rest Hk Hn Hrun) as [[HW _] _].
  by destruct (wv_ledger _ _ _ _ _ _ HW).
Qed.

(** The demo's first pass and a half: the commit of the second fails. *)
Definition failing_tape : list Answer :=
  take 17 demo_tape ++ [FromSource (Some ClassRetryable); Clock 21; Event (inl EvIdle)].
Definition failing_run : Outcome World Answer (option (bool * Report)) :=
  run_controller demo_params 2 (world_init 2) failing_tape.
Definition failing_world : World :=
  match failing_run with Ran _ w _ => w | _ => world_init 2 end.

Lemma run_keeps_watermarks_witness :
  (0, 1, 10) ∈ reported (sys failing_world) /\ acked (calls failing_world) = [] /\
  exists o, pending_commit (state failing_world) !! 0 = Some o /\ 10 <= o.
Proof.
  assert (Hrun : run_controller demo_params 2 (world_init 2) failing_tape =
    Ran None failing_world []) by (vm_compute; reflexivity).
  assert (Hin : (0, 1, 10) ∈ reported (sys failing_world))
    by (apply (list_elem_of_lookup_2 _ 0%nat); vm_compute; reflexivity).
  assert (Hno : acked (calls failing_world) = []) by (vm_compute; reflexivity).
  split; [exact Hin|]. split; [exact Hno|].
  destruct (run_keeps_watermarks demo_params 2 2 failing_tape None failing_world []) as [H _];
    [lia|unfold_int; lia|exact Hrun|].
  destruct (H 0 1 10 Hin) as [Hp|(o & Ho & _)]; [exact Hp|].
  rewrite Hno in Ho. destruct (proj1 (elem_of_nil (0, o)) Ho).
Defined.

(** A batch of the final epoch on a partition still held. *)
Definition in_force (w : World) (id : BatchId) : Prop :=
  bid_epoch id = ck_epoch (ck (sys w)) /\ is_Some (trackers (ck (sys w)) !! bid_partition id).

(** The batch was delivered, and it or a later batch of its partition has its end
    at or below a position of a successful commit. *)
Definition durably_committed (w : World) (id : BatchId) : Prop :=
  delivered (history (sys w)) id /\
  exists j b' o, bid_seq id <= j /\
    history (sys w) !! mkBatchId (bid_partition id) (bid_epoch id) j = Some b' /\
    (bid_partition id, o) ∈ acked (calls w) /\ wrap_i64 (b_off b' + 1) <= o.

Lemma committed_or_queued P k n t rep w rest id b :
  (0 < k)%nat -> Z.of_nat n <= U32_MAX ->
  run_controller P n (world_init k) t = Ran (Some (true, rep)) w rest ->
  rp_failure rep = None -> history (sys w) !! id = Some b -> in_force w id ->
  durably_committed w id \/ exists reg, reg ∈ queue (regs (sys w)) /\ reg_id reg = id.
Proof.
  intros Hk Hn Hrun Hok Hb [He Ht].
  destruct (controller_run_inv P k n t _ w rest Hk Hn Hrun) as [[HW _] HR].
  destruct (rs_drained _ _ _ _ HR eq_refl Hok) as (Hmax & Hpend & _).
  pose proof (reachable_inv _ (wv_reach _ _ _ _ _ _ HW)) as HI.
  destruct (nothing_left_pending _ _ _ HI Hmax Hb He Ht) as [(h & Hh & Hlt & Hd)|Hreg]; [left|by right].
  split; [done|]. destruct (iv_keys _ HI _ _ Hb) as [_ Hq]. specialize (Hq He).
  destruct (reachable_head_reported _ (wv_reach _ _ _ _ _ _ HW) _ _ Hh) as (b' & Hb' & Hin); [lia|].
  destruct (lg_kept _ _ _ _ (wv_ledger _ _ _ _ _ _ HW) _ _ _ Hin) as [(o & Ho & _)|(o & Ho & Hle)].
  - rewrite Hpend in Ho. by apply lookup_empty_Some in Ho.
  - exists (h - 1), b', o. rewrite He. split_and!; try done. lia.
Qed.

(** C6: a drained run that reports success is complete. When the source was
    drained and the report carries no failure, the last call was a flush that
    succeeded, and every batch of the final epoch on a partition still held that
    was registered when the wait for the sink ended was delivered and lies at or
    below a batch whose end a successful commit reached. A batch registered
    after that, while the last drain ran, is committed in the same way or its
    registration is still in the channel. *)
Theorem drained_run_complete (P : Params) (k n : nat) (t : list Answer) (rep : Report)
    (w : World) (rest : list Answer) :
  (0 < k)%nat -> Z.of_nat n <= U32_MAX ->
  run_controller P n (world_init k) t = Ran (Some (true, rep)) w rest ->
  rp_failure rep = None ->
  last (calls w) = Some (CallFlush None) /\
  exists drained seen, SinkWaited drained seen ∈ calls w /\
    (forall id, is_Some (seen !! id) -> in_force w id -> durably_committed w id) /\
    (forall id b, history (sys w) !! id = Some b -> in_force w id -> durably_committed w id \/
       seen !! id = None /\ exists reg, reg ∈ queue (regs (sys w)) /\ reg_id reg = id).
Proof.
  intros Hk Hn Hrun Hok. destruct (controller_run_inv P k n t _ w rest Hk Hn Hrun) as [_ HR].
  destruct (rs_drained _ _ _ _ HR eq_refl Hok) as (_ & _ & Hlast).
  split; [by apply Hlast|]. destruct (rs_swept _ _ _ _ HR) as (d & seen & Hin & Hnew & Hmono).
  exists d, seen. split; [done|]. split.
  - intros id [b Hb] Hf. destruct (Hmono id) as [b' Hb']; [by eexists|].
    destruct (committed_or_queued P k n t rep w rest id b') as [?|(reg & Hreg & <-)]; try done.
    by rewrite (Hnew reg Hreg) in Hb.
  - intros id b Hb Hf.
    destruct (committed_or_queued P k n t rep w rest id b) as [?|(reg & Hreg & <-)]; try done;
      [by left|right]. split; [by apply Hnew|eauto].
Qed.

Definition demo_report : Report := mkReport None [(0, 10)] 122.

Lemma drained_run_complete_witness :
  last (calls demo_world) = Some (CallFlush None) /\
  delivered (history (sys demo_world)) (mkBatchId 0 1 0).
Proof.
  assert (Hrun : run_controller demo_params 2 (world_init 2) demo_tape =
    Ran (Some (true, demo_report)) demo_world []) by (vm_compute; reflexivity).
  destruct (drained_run_complete demo_params 2 2 demo_tape demo_report demo_world [])
    as [Hlast (d & seen & _ & _ & Hall)]; [lia|unfold_int; lia|exact Hrun|reflexivity|].
  split; [exact Hlast|].
  destruct (Hall (mkBatchId 0 1 0) (mkBatch 9 false Resolved)) as [[Hd _]|(_ & reg & Hreg & _)].
  - vm_compute. reflexivity.
  - split; [vm_compute; reflexivity|]. apply (bool_decide_unpack _). vm_compute. exact I.
  - exact Hd.
  - exfalso. apply (not_elem_of_nil reg).
    replace [] with (queue (regs (sys demo_world))) by (vm_compute; reflexivity). exact Hreg.
Defined.

(** the controller's placement is exact. In every run the lanes of a
    partition share one existing thread, a partition is tracked by the
    checkpointer exactly when it has an assigned lane, each thread's load is the
    number of lanes assigned to it, only assigned lanes are marked paused, and
    the controller's epoch is the checkpointer's. *)
Theorem assignment_exact (P : Params) (k n : nat) (t : list Answer)
    (r : option (bool * Report)) (w : World) (rest : list Answer) :
  (0 < k)%nat -> Z.of_nat n <= U32_MAX ->
  run_controller P n (world_init k) t = Ran r w rest ->
  let a := assignment (state w) in
  (forall l l' p i j, a !! l = Some (p, i) -> a !! l' = Some (p, j) -> i = j /\ (i < k)%nat) /\
  (forall p, is_Some (trackers (ck (sys w)) !! p) <-> exists l i, a !! l = Some (p, i)) /\
  (forall i, (i < k)%nat ->
     thread_load (state w) !! i = Some (Z.of_nat (map_count (snd <$> a) i))) /\
  (forall l, l ∈ paused (state w) -> is_Some (a !! l)) /\
  epoch (state w) = ck_epoch (ck (sys w)).
Proof.
  intros Hk Hn Hrun a. destruct (controller_run_inv P k n t r w rest Hk Hn Hrun) as [[HW _] _].
  destruct (wv_places _ _ _ _ _ _ HW) as [A B C D E F]. split_and!; try done.
  - intros l l' p i j Hl Hl'. split; [by eapply D|]. by destruct (B l p i Hl).
  - intros p. split.
    + intros [Hx|Hx]%C; [by apply elem_of_nil in Hx|done].
    + intros (l & i & Hl). by destruct (B l p i Hl) as (_ & ? & _).
  - apply HW.
Qed.

Lemma assignment_exact_witness :
  assignment (state demo_world) !! 7 = Some (0, 0%nat) /\
  thread_load (state demo_world) !! 0%nat = Some 1.
Proof.
  destruct (assignment_exact demo_params 2 2 demo_tape demo_result demo_world [])
    as (_ & _ & Hload & _); [lia|unfold_int; lia|exact demo_runs|].
  split; [vm_compute; reflexivity|]. rewrite (Hload 0%nat) by lia. vm_compute. reflexivity.
Defined.

(** C40: a configured controller never panics: no repeated epoch, no index out
    of range, no sequence gap in the trackers, no [Instant] or [Duration] past its
    range. The settings come from a [CheckpointSection] that
    [PipelineConfig::validate] accepts and from a chase window of a day at most,
    or none; the clock stays in the first quarter of [Instant]'s range, some
    seventy billion years; the run has a thread and fewer than 2^32 passes went
    by. Any other answers of its environment will do. *)
Theorem controller_never_panics (c : CheckpointSection) (hands_back : bool) (window : option Z)
    (k n : nat) (t : list Answer) (w : World) :
  validate_checkpoint c = true -> (forall d, window = Some d -> 0 <= d <= ONE_DAY) ->
  Forall clock_ok t -> (0 < k)%nat -> Z.of_nat n <= U32_MAX ->
  run_controller (context c hands_back window) n (world_init k) t <> Panicked w.
Proof.
  intros Hc Hw Ht Hk Hn Hrun. pose proof (context_short c hands_back window Hc Hw) as Hs.
  refine (under_safe _ _ _ _ _ _ (holds_controller False _ (or_intror Hs) k n Hk Hn)
    (wt_init False k) _ Hrun).
  apply (Forall_impl _ _ _ Ht). intros q Hq. by right.
Qed.

Definition demo_section : CheckpointSection := mkCheckpointSection 100000000 1000 5000000000 60.

Lemma controller_never_panics_witness :
  run_controller (context demo_section true None) 2 (world_init 2) demo_tape <> Panicked demo_world.
Proof.
  apply (controller_never_panics demo_section true None 2 2);
    [vm_compute; reflexivity|done| |lia|unfold_int; lia].
  repeat (apply Forall_cons; split; [try exact I; by vm_compute|]). apply Forall_nil_2.
Defined.

(** the exit report is what the source holds. Each final watermark is of a
    partition held at the end and is the position the last successful commit of
    that partition stored, over the whole run; no partition is listed twice. *)
Theorem exit_report_sound (P : Params) (k n : nat) (t : list Answer) (d : bool) (rep : Report)
    (w : World) (rest : list Answer) :
  (0 < k)%nat -> Z.of_nat n <= U32_MAX ->
  run_controller P n (world_init k) t = Ran (Some (d, rep)) w rest ->
  NoDup (final_watermarks rep).*1 /\
  forall p o, (p, o) ∈ final_watermarks rep ->
    is_Some (trackers (ck (sys w)) !! p) /\ stored (calls w) !! p = Some o.
Proof.
  intros Hk Hn Hrun. destruct (controller_run_inv P k n t _ w rest Hk Hn Hrun) as [[HW _] HR].
  rewrite (rs_watermarks _ _ _ _ HR). split; [apply entries_nodup|].
  intros p o Ho%elem_of_entries. by apply (ex_committed _ _ _ (wv_exits _ _ _ _ _ _ HW)).
Qed.

Lemma exit_report_sound_witness :
  (0, 10) ∈ final_watermarks demo_report /\ stored (calls demo_world) !! 0 = Some 10.
Proof.
  assert (Hrun : run_controller demo_params 2 (world_init 2) demo_tape =
    Ran (Some (true, demo_report)) demo_world []) by (vm_compute; reflexivity).
  assert (Hin : (0, 10) ∈ final_watermarks demo_report) by apply list_elem_of_here.
  split; [exact Hin|].
  destruct (exit_report_sound demo_params 2 2 demo_tape true demo_report demo_world [])
    as [_ H]; [lia|unfold_int; lia|exact Hrun|]. exact (proj2 (H 0 10 Hin)).
Defined.
