(* ===== verification/Driver.v ===== *)
(** * The pipeline-thread driver ([spate-core/src/pipeline/driver.rs])

    One driver owns lanes, an operator chain and a backpressure controller. It
    serves the controller's messages, polls its lanes in turn, pushes each batch
    through the chain and retries blocked ones, and gates a partition at its
    ceiling of registered batches.

    As for the controller, the code is a program over a world that holds the
    checkpoint system: a poll that yields a batch is the lane's issue in three
    steps, other threads run between them and wherever [others] says, and a
    failed batch is failed there. [d_visited] is history: the states the system
    went through, each with the driver's gates at that moment; so are [d_polled],
    the batches its polls yielded, and [d_fates], how each left the driver. The
    chain, the lanes' payloads, the budget and the queues are answers of the
    environment. Heartbeats, metrics, logs and poll timeouts are not modelled. *)

From stdpp Require Import base list gmap.
From Stdlib Require Import ZArith Lia.
From S2P Require Import Prelude Ack Tracker Checkpointer CheckpointSystem EndCheck Backpressure.
From S2P Require Import Oracle Controller.

(** What the loop uses of [DriverParams]; durations in nanoseconds. *)
Record DriverParams := mkDriverParams {
  dp_thread : nat;
  dp_idle_flush : Z;
  dp_max_pending_batches : Z;
}.

Inductive DriverExit := ExitCompleted | ExitFailed.

(** [GateState]: the counter is a cell of the checkpointer's store. *)
Record GateState := mkGateState {
  g_epoch : Z;
  g_advanced : nat;
  g_issued : Z;
  g_gated : bool;
}.

Inductive BlockReason := Capacity | NotReady.

(** [PushOutcome], with the panic [drive_batch] catches. *)
Inductive PushOutcome :=
  | PushDone
  | PushBlocked (resume_at : Z) (reason : BlockReason)
  | PushFatal (error : Failure)
  | PushPanicked (error : Failure).

Record DWorld := mkDWorld {
  d_sys : Sys;
  d_lanes : list Lane;
  d_next_lane : nat;
  d_gates : gmap Z GateState;
  d_empty_polls : Z;
  d_skipped_streak : Z;
  d_last_data : Z;
  d_flushed : bool;
  d_parked : option ThreadControl;
  d_bp : WatermarkController;
  d_from : Z;
  d_chain : bool;
  d_events : list DriverEvent;
  d_arrivals : list nat;
  d_visited : list (Sys * gmap Z GateState);
  d_polled : list BatchId;
  d_fates : list (BatchId * bool);
}.

(** What the driver reads. [DPoll] is a lane's poll: nothing, a batch ending at
    an offset, or an error. *)
Inductive DAnswer :=
  | DOthers (ls : list Label)
  | DClock (now : Z)
  | DFlag (b : bool)
  | DUsage (bytes : Z)
  | DMessage (m : option ThreadControl)
  | DPush (o : PushOutcome)
  | DPoll (r : option Z + ErrorClass).

Local Notation M := (Prog DWorld DAnswer).

(** ** State updates *)

Definition upd (f : DWorld -> DWorld) : M unit := modify f.

Definition w_sys (s : Sys) (w : DWorld) : DWorld :=
  mkDWorld s (d_lanes w) (d_next_lane w) (d_gates w) (d_empty_polls w) (d_skipped_streak w)
    (d_last_data w) (d_flushed w) (d_parked w) (d_bp w) (d_from w) (d_chain w) (d_events w)
    (d_arrivals w) (d_visited w ++ [(s, d_gates w)]) (d_polled w) (d_fates w).
Definition w_lanes (l : list Lane) (w : DWorld) : DWorld :=
  mkDWorld (d_sys w) l (d_next_lane w) (d_gates w) (d_empty_polls w) (d_skipped_streak w)
    (d_last_data w) (d_flushed w) (d_parked w) (d_bp w) (d_from w) (d_chain w) (d_events w)
    (d_arrivals w) (d_visited w) (d_polled w) (d_fates w).
Definition w_gates (g : gmap Z GateState) (w : DWorld) : DWorld :=
  mkDWorld (d_sys w) (d_lanes w) (d_next_lane w) g (d_empty_polls w) (d_skipped_streak w)
    (d_last_data w) (d_flushed w) (d_parked w) (d_bp w) (d_from w) (d_chain w) (d_events w)
    (d_arrivals w) (d_visited w) (d_polled w) (d_fates w).

(** The counters of the rotation. *)
Definition w_turn (next : nat) (empty streak : Z) (w : DWorld) : DWorld :=
  mkDWorld (d_sys w) (d_lanes w) next (d_gates w) empty streak
    (d_last_data w) (d_flushed w) (d_parked w) (d_bp w) (d_from w) (d_chain w) (d_events w)
    (d_arrivals w) (d_visited w) (d_polled w) (d_fates w).
Definition w_streak (n : Z) (w : DWorld) : DWorld :=
  w_turn (d_next_lane w) (d_empty_polls w) n w.
Definition w_empty (n : Z) (w : DWorld) : DWorld :=
  w_turn (d_next_lane w) n (d_skipped_streak w) w.

Definition w_data (last : Z) (flushed : bool) (w : DWorld) : DWorld :=
  mkDWorld (d_sys w) (d_lanes w) (d_next_lane w) (d_gates w) (d_empty_polls w)
    (d_skipped_streak w) last flushed (d_parked w) (d_bp w) (d_from w) (d_chain w) (d_events w)
    (d_arrivals w) (d_visited w) (d_polled w) (d_fates w).
Definition w_parked (m : option ThreadControl) (w : DWorld) : DWorld :=
  mkDWorld (d_sys w) (d_lanes w) (d_next_lane w) (d_gates w) (d_empty_polls w)
    (d_skipped_streak w) (d_last_data w) (d_flushed w) m (d_bp w) (d_from w) (d_chain w)
    (d_events w) (d_arrivals w) (d_visited w) (d_polled w) (d_fates w).
Definition w_bp (c : WatermarkController) (w : DWorld) : DWorld :=
  mkDWorld (d_sys w) (d_lanes w) (d_next_lane w) (d_gates w) (d_empty_polls w)
    (d_skipped_streak w) (d_last_data w) (d_flushed w) (d_parked w) c (d_from w) (d_chain w)
    (d_events w) (d_arrivals w) (d_visited w) (d_polled w) (d_fates w).
Definition w_from (n : Z) (w : DWorld) : DWorld :=
  mkDWorld (d_sys w) (d_lanes w) (d_next_lane w) (d_gates w) (d_empty_polls w)
    (d_skipped_streak w) (d_last_data w) (d_flushed w) (d_parked w) (d_bp w) n (d_chain w)
    (d_events w) (d_arrivals w) (d_visited w) (d_polled w) (d_fates w).
Definition w_no_chain (w : DWorld) : DWorld :=
  mkDWorld (d_sys w) (d_lanes w) (d_next_lane w) (d_gates w) (d_empty_polls w)
    (d_skipped_streak w) (d_last_data w) (d_flushed w) (d_parked w) (d_bp w) (d_from w) false
    (d_events w) (d_arrivals w) (d_visited w) (d_polled w) (d_fates w).
Definition w_event (e : DriverEvent) (w : DWorld) : DWorld :=
  mkDWorld (d_sys w) (d_lanes w) (d_next_lane w) (d_gates w) (d_empty_polls w)
    (d_skipped_streak w) (d_last_data w) (d_flushed w) (d_parked w) (d_bp w) (d_from w)
    (d_chain w) (d_events w ++ [e]) (d_arrivals w) (d_visited w) (d_polled w) (d_fates w).
Definition w_arrive (n : nat) (b : nat) (w : DWorld) : DWorld :=
  mkDWorld (d_sys w) (d_lanes w) (d_next_lane w) (d_gates w) (d_empty_polls w)
    (d_skipped_streak w) (d_last_data w) (d_flushed w) (d_parked w) (d_bp w) (d_from w)
    (d_chain w) (d_events w) (d_arrivals w ++ replicate n b) (d_visited w) (d_polled w) (d_fates w).
Definition w_polled (id : BatchId) (w : DWorld) : DWorld :=
  mkDWorld (d_sys w) (d_lanes w) (d_next_lane w) (d_gates w) (d_empty_polls w)
    (d_skipped_streak w) (d_last_data w) (d_flushed w) (d_parked w) (d_bp w) (d_from w)
    (d_chain w) (d_events w) (d_arrivals w) (d_visited w) (d_polled w ++ [id]) (d_fates w).
Definition w_fate (id : BatchId) (pushed : bool) (w : DWorld) : DWorld :=
  mkDWorld (d_sys w) (d_lanes w) (d_next_lane w) (d_gates w) (d_empty_polls w)
    (d_skipped_streak w) (d_last_data w) (d_flushed w) (d_parked w) (d_bp w) (d_from w)
    (d_chain w) (d_events w) (d_arrivals w) (d_visited w) (d_polled w)
    (d_fates w ++ [(id, pushed)]).

(** ** The environment *)

Definition dclock : M Z := ask (fun q => match q with DClock t => Some t | _ => None end).
Definition dflag : M bool := ask (fun q => match q with DFlag b => Some b | _ => None end).
Definition dpush : M PushOutcome :=
  ask (fun q => match q with DPush o => Some o | _ => None end).
Definition emit (e : DriverEvent) : M unit := upd (w_event e).

(** One step of the checkpoint system. *)
Definition sys_do (l : Label) : M unit := fun w t =>
  match exec l (d_sys w) with
  | None => Stuck
  | Some s => if panicked s then Panicked w else Ran tt (w_sys s w) t
  end.

(** Another thread's step: it does not issue for this driver's lanes. *)
Definition foreign (mine : list Lane) (l : Label) : bool :=
  match l with
  | LLoad i _ _ | LSend i | LNew i => bool_decide (i ∉ lane_issuer <$> mine)
  | _ => true
  end.
Definition dothers : M unit :=
  ls ← ask (fun q => match q with DOthers ls => Some ls | _ => None end);
  w ← get;
  if forallb (foreign (d_lanes w)) ls then each sys_do ls else stuck.

(** ** Backpressure *)

(** [WatermarkController::on_send_rejected]. *)
Definition rejected : M unit :=
  now ← dclock; upd (fun w => w_bp (on_send_rejected now (d_bp w)) w).

Definition apply_transition (t : Transition) (owned : list Z) : M unit :=
  match t with
  | Pause => emit (PauseLanes owned)
  | Resume => emit (ResumeLanes owned)
  end.

(** A tick of the backpressure controller, and the request it raises. *)
Definition bp_tick : M unit :=
  queues_low ← dflag;
  usage ← ask (fun q => match q with DUsage u => Some u | _ => None end);
  now ← dclock;
  w ← get;
  let '(t, c) := Backpressure.tick now usage queues_low (d_bp w) in
  upd (w_bp c) ;;;
  match t with
  | Some t => apply_transition t (lane_id <$> d_lanes w)
  | None => mret tt
  end.

(** ** Flushing: only [push_batch] runs operators, so a flush does not panic. *)

Definition flush_round (thread : nat) (deadline : Z) : M (option unit) :=
  dothers ;;;
  o ← dpush;
  match o with
  | PushDone => mret (Some tt)
  | PushBlocked _ _ =>
      rejected ;;;
      now ← dclock;
      if bool_decide (deadline <= now) then mret (Some tt) else mret None
  | PushFatal error => emit (DriverFatal thread error) ;;; mret (Some tt)
  | PushPanicked _ => stuck
  end.
Definition flush_until (thread : nat) (deadline : Z) : M unit :=
  loop (flush_round thread deadline).

Definition flush_once (thread : nat) : M unit :=
  dothers ;;;
  o ← dpush;
  match o with
  | PushDone => upd (fun w => w_data (d_last_data w) true w)
  | PushBlocked _ _ => rejected
  | PushFatal error => emit (DriverFatal thread error)
  | PushPanicked _ => stuck
  end.

(** [idle_flush], [quiet_for] since the last data read off the clock. *)
Definition idle_flush (P : DriverParams) : M unit :=
  now ← dclock;
  w ← get;
  if d_flushed w || bool_decide (since now (d_last_data w) < dp_idle_flush P) then mret tt
  else flush_once (dp_thread P).

(** ** Control messages *)

(** [park_on_control]: a message is stashed for the next turn. *)
Definition park_on_control : M unit :=
  m ← ask (fun q => match q with DMessage m => Some m | _ => None end);
  match m with Some m => upd (w_parked (Some m)) | None => mret tt end.

Definition prune_gates (lanes : list Lane) (g : gmap Z GateState) : gmap Z GateState :=
  filter (fun x => x.1 ∈ lane_partition <$> lanes) g.

(** The gate of a newly added lane: a later epoch replaces the old one. *)
Definition add_gate (lane : Lane) (gate : option PendingGate) (gs : gmap Z GateState)
    : gmap Z GateState :=
  match gate with
  | None => gs
  | Some pg =>
      let fresh := mkGateState (pg_epoch pg) (pg_advanced pg) 0 false in
      match gs !! lane_partition lane with
      | Some g => if bool_decide (pg_epoch pg <= g_epoch g) then gs
                  else <[lane_partition lane := fresh]> gs
      | None => <[lane_partition lane := fresh]> gs
      end
  end.

Definition stays (gone : list Z) (l : Lane) : bool := bool_decide (lane_id l ∉ gone).

(** Drops the listed lanes with their gates; how many there were. *)
Definition release_lanes (gone : list Z) : M nat :=
  w ← get;
  let kept := filter (fun l => stays gone l = true) (d_lanes w) in
  upd (w_lanes kept) ;;;
  upd (fun w => w_gates (prune_gates kept (d_gates w)) w) ;;;
  upd (w_streak 0) ;;;
  mret (length (d_lanes w) - length kept)%nat.

(** What the controller hands out. Lanes of a partition share its issuer. A gate
    is of the current epoch or an older one; one of the current epoch is for the
    partition's issuer, and when it is new to this driver, nothing was issued
    for the partition yet and it counts the partition's own advances. *)
Definition gate_valid (w : DWorld) (lane : Lane) (gate : option PendingGate) : bool :=
  let s := d_sys w in
  let p := lane_partition lane in
  bool_decide (Forall (fun l => lane_partition l = p -> lane_issuer l = lane_issuer lane)
                 (d_lanes w)) &&
  match gate with
  | None => true
  | Some pg =>
      bool_decide (pg_epoch pg < ck_epoch (ck s)) ||
      bool_decide (pg_epoch pg = ck_epoch (ck s)) &&
      bool_decide (owner s !! p = Some (lane_issuer lane)) &&
      (bool_decide (g_epoch <$> d_gates w !! p = Some (pg_epoch pg)) ||
       bool_decide (nsent s p = 0) &&
       (bool_decide (trackers (ck s) !! p = None) ||
        bool_decide (Checkpointer.gates (ck s) !! p = Some (pg_advanced pg))))
  end.

Section Driver.
Variable P : DriverParams.

(** One message; the exit where it ends the thread. *)
Definition handle_control (m : ThreadControl) : M (option DriverExit) :=
  match m with
  | AddLane lane gate =>
      w ← get;
      if gate_valid w lane gate then
        upd (fun w => w_gates (add_gate lane gate (d_gates w)) w) ;;;
        upd (fun w => w_lanes (d_lanes w ++ [lane]) w) ;;;
        mret None
      else stuck
  | StopLanes gone barrier deadline =>
      stopped ← release_lanes gone;
      when (bool_decide (0 < stopped)%nat) (flush_until (dp_thread P) deadline) ;;;
      upd (w_arrive stopped barrier) ;;;
      mret None
  | FlushNow => flush_once (dp_thread P) ;;; mret None
  | DropLanes gone => release_lanes gone ;;; mret None
  | Shutdown barrier deadline =>
      flush_until (dp_thread P) deadline ;;;
      upd (fun w => w_lanes [] (w_gates ∅ w)) ;;;
      upd w_no_chain ;;;
      upd (w_arrive 1 barrier) ;;;
      mret (Some ExitCompleted)
  end.

(** [while let Some(msg) = parked.take().or_else(|| control.try_recv().ok())]. *)
Definition control_round : M (option (option DriverExit)) :=
  w ← get;
  m ← match d_parked w with
      | Some m => upd (w_parked None) ;;; mret (Some m)
      | None => dothers ;;; ask (fun q => match q with DMessage m => Some m | _ => None end)
      end;
  match m with
  | None => mret (Some None)
  | Some m => e ← handle_control m; mret (match e with Some e => Some (Some e) | None => None end)
  end.
Definition drain_control : M (option DriverExit) := loop control_round.

(** ** A batch *)

(** One attempt of [drive_batch]: [Some None] when the batch is done with,
    [Some (Some e)] on a fatal error. [r] is the handle, [id] the batch. *)
Definition drive_round (id : BatchId) (r : AckRef) : M (option (option Failure)) :=
  dothers ;;;
  o ← dpush;
  match o with
  | PushDone => upd (w_fate id true) ;;; mret (Some None)
  | PushBlocked resume_at reason =>
      upd (w_from resume_at) ;;;
      shutdown ← dflag;
      if (shutdown : bool) then
        sys_do (LFail r) ;;; upd (w_fate id false) ;;; mret (Some None)
      else
        match reason with
        | Capacity => rejected ;;; bp_tick
        | NotReady => mret tt
        end ;;;
        mret None
  | PushFatal error | PushPanicked error =>
      sys_do (LFail r) ;;; upd (w_fate id false) ;;; mret (Some (Some error))
  end.

(** [drive_batch]: the clone of the batch's handle, the attempts, its drop. *)
Definition drive_batch (id : BatchId) (r : AckRef) : M (option Failure) :=
  sys_do (LClone r) ;;;
  upd (w_from 0) ;;;
  e ← loop (drive_round id r);
  sys_do (LDrop r) ;;;
  mret e.

(** The lane issues one batch ending at [off]: its id and handle. *)
Definition issue_batch (lane : Lane) (off : Z) : M (BatchId * AckRef) :=
  dothers ;;;
  sys_do (LLoad (lane_issuer lane) (lane_partition lane) off) ;;;
  w ← get;
  let id := match issuers (d_sys w) !! lane_issuer lane with
            | Some (_, ILoaded id _) => Some id
            | _ => None
            end in
  dothers ;;;
  sys_do (LSend (lane_issuer lane)) ;;;
  dothers ;;;
  w ← get;
  sys_do (LNew (lane_issuer lane)) ;;;
  match id with Some id => mret (id, fresh_ref (acks (d_sys w))) | None => stuck end.

(** The gate's count after a batch of its epoch. *)
Definition count_issue (id : BatchId) (p : Z) (gs : gmap Z GateState) : gmap Z GateState :=
  match gs !! p with
  | Some g =>
      if bool_decide (bid_epoch id = g_epoch g)
      then <[p := mkGateState (g_epoch g) (g_advanced g)
                    (Z.max (g_issued g) (bid_seq id + 1)) (g_gated g)]> gs
      else gs
  | None => gs
  end.

(** Whether the lane's partition is at its ceiling; the gate's edge flag follows. *)
Definition at_ceiling (finished : bool) (p : Z) (w : DWorld) : bool :=
  match d_gates w !! p with
  | Some g =>
      negb finished &&
      bool_decide (dp_max_pending_batches P <=
        sat_sub (g_issued g) (counter_get (g_advanced g) (counters (ck (d_sys w)))))
  | None => false
  end.
Definition note_gate (finished at_ : bool) (p : Z) (gs : gmap Z GateState) : gmap Z GateState :=
  if finished then gs else
  alter (fun g => mkGateState (g_epoch g) (g_advanced g) (g_issued g) at_) p gs.

(** What a poll came to; whether a fatal error was reported. *)
Definition handle_poll (lane : Lane) (r : option Z + ErrorClass) : M bool :=
  match r with
  | inl (Some off) =>
      x ← issue_batch lane off;
      upd (w_polled x.1) ;;;
      upd (w_empty 0) ;;;
      upd (fun w => w_gates (count_issue x.1 (lane_partition lane) (d_gates w)) w) ;;;
      e ← drive_batch x.1 x.2;
      some ← dflag;
      (if (some : bool) then now ← dclock; upd (w_data now false) else mret tt) ;;;
      (match e with
       | Some error => emit (DriverFatal (dp_thread P) error)
       | None => mret tt
       end) ;;;
      sys_do (LDrop x.2) ;;;
      mret (bool_decide (is_Some e))
  | inl None =>
      upd (fun w => w_empty (sat_add_u64 (d_empty_polls w) 1) w) ;;;
      idle_flush P ;;; mret false
  | inr ClassFatal => emit (DriverFatal (dp_thread P) PollFailed) ;;; mret true
  | inr _ => upd (fun w => w_empty (sat_add_u64 (d_empty_polls w) 1) w) ;;; mret false
  end.

(** ** The loop *)

(** A full pass of skipped lanes parks on the control channel. *)
Definition skip_lane : M unit :=
  upd (fun w => w_streak (d_skipped_streak w + 1) w) ;;;
  w ← get;
  if bool_decide (Z.of_nat (length (d_lanes w)) <= d_skipped_streak w) then
    upd (w_streak 0) ;;; park_on_control ;;; idle_flush P
  else mret tt.

(** The lane whose turn it is: skipped when finished or gated, polled
    otherwise. Whether a fatal error was reported. *)
Definition turn (lane : Lane) : M bool :=
  finished ← dflag;
  w ← get;
  let at_ := at_ceiling finished (lane_partition lane) w in
  upd (fun w => w_gates (note_gate finished at_ (lane_partition lane) (d_gates w)) w) ;;;
  if finished || at_ then skip_lane ;;; mret false
  else
    upd (w_streak 0) ;;;
    r ← ask (fun q => match q with DPoll r => Some r | _ => None end);
    handle_poll lane r.

(** [park_until_shutdown]: [None] is a timeout, a closed channel ends it too. The
    thread polls no more, so its gates are dead. *)
Definition fatal_round : M (option DriverExit) :=
  dothers ;;;
  open ← dflag;
  if negb open then mret (Some ExitFailed) else
  m ← ask (fun q => match q with DMessage m => Some m | _ => None end);
  match m with
  | None | Some FlushNow | Some (AddLane _ _) => mret None
  | Some (StopLanes gone barrier _) =>
      w ← get;
      let kept := filter (fun l => stays gone l = true) (d_lanes w) in
      upd (w_lanes kept) ;;;
      upd (w_arrive (length (d_lanes w) - length kept) barrier) ;;;
      mret None
  | Some (DropLanes gone) =>
      w ← get;
      upd (w_lanes (filter (fun l => stays gone l = true) (d_lanes w))) ;;;
      mret None
  | Some (Shutdown barrier _) =>
      upd (w_lanes []) ;;; upd (w_arrive 1 barrier) ;;; mret (Some ExitFailed)
  end.
Definition park_until_shutdown : M DriverExit := loop fatal_round.

(** One turn of [run_driver]'s loop. *)
Definition iterate : M (option DriverExit) :=
  x ← drain_control;
  match x with
  | Some e => mret (Some e)
  | None =>
      bp_tick ;;;
      w ← get;
      if is_paused (d_bp w) then mret None else
      match d_lanes w !! (d_next_lane w `mod` length (d_lanes w))%nat with
      | None => park_on_control ;;; idle_flush P ;;; mret None
      | Some lane =>
          upd (fun w => w_turn (S (d_next_lane w `mod` length (d_lanes w))) (d_empty_polls w)
                          (d_skipped_streak w) w) ;;;
          fatal ← turn lane;
          if (fatal : bool) then
            upd (fun w => w_gates ∅ (w_no_chain w)) ;;; e ← park_until_shutdown; mret (Some e)
          else mret None
      end
  end.

(** [run_driver] seen for at most [n] turns of its loop. *)
Fixpoint run_driver (n : nat) : M (option DriverExit) :=
  match n with
  | O => mret None
  | S n => r ← iterate; match r with Some e => mret (Some e) | None => run_driver n end
  end.

End Driver.

Definition driver_init (s : Sys) (c : WatermarkController) : DWorld :=
  mkDWorld s [] 0 ∅ 0 0 0 false None c 0 true [] [] [(s, ∅)] [] [].
