(* ===== verification/DriverProofs.v ===== *)
(** * Properties of the pipeline-thread driver

    The pending ceiling: with the checkpoint system running under it, no state
    the system goes through has more registered batches waiting on a gated
    partition than the driver's limit. The fate of every polled batch. And the
    barrier of a revocation, which completes once the owners of the lanes have
    served their messages. *)

From stdpp Require Import base list gmap.
From Stdlib Require Import ZArith Lia.
From S2P Require Import Prelude Ack Tracker Checkpointer CheckpointSystem EndCheck Backpressure.
From S2P Require Import Oracle Controller ControllerProofs Driver.

(** ** Gates and the checkpoint system *)
Lemma heads_lookup c p h :
  heads c !! p = Some h <-> exists t, trackers c !! p = Some t /\ head_seq t = h.
Proof.
  unfold heads. rewrite lookup_fmap. destruct (trackers c !! p) as [t|]; simpl.
  - split; [intros [= <-]; eauto|]. intros (t' & [= <-] & <-). done.
  - split; [done|]. by intros (t' & ? & _).
Qed.

Lemma lockstep_frame s s' : frame s s' -> ck_lockstep (ck s) -> ck_lockstep (ck s').
Proof.
  intros [_ Fh _ [Fg Fc] _] [Hh Hd Hf Hi]. unfold ck_lockstep. rewrite Fg, Fc. split; try done.
  - intros p t Ht. assert (Hp : heads (ck s) !! p = Some (head_seq t))
      by (rewrite <- Fh; apply heads_lookup; eauto).
    apply heads_lookup in Hp as (t0 & Ht0 & Heq). destruct (Hh p t0 Ht0). by rewrite <- Heq.
  - intros p. rewrite Hd. pose proof (f_equal (lookup p) Fh) as E. unfold heads in E.
    rewrite !lookup_fmap in E. by destruct (trackers (ck s) !! p), (trackers (ck s') !! p).
Qed.

(** Gates and trackers stay in lockstep in the concurrent system. *)
Lemma lockstep_sys s s' :
  Inv s -> ck_lockstep (ck s) -> sys_step s s' -> ck_lockstep (ck s').
Proof.
  intros HI HL [l Hl]. destruct (others_label l) eqn:Eo.
  { destruct (others_frame l s s') as (_ & _ & ->); done. }
  pose proof (iv_panic _ (inv_step _ _ HI (ex_intro _ l Hl))) as Hnp. pose proof Hl as Hl'.
  unfold exec in Hl. rewrite (iv_panic _ HI) in Hl.
  destruct l as [i|i j|i p off|i|i|r|r|r|ps e own|ps own|ps| | |now]; try done.
  - destruct (issuers s !! i); by simplify_eq.
  - destruct (bool_decide (pc s = CIdle) && _ && _); [|done].
    destruct (begin_epoch ps e (ck s)) as [[c e']|] eqn:Hb; simplify_eq.
    apply (lockstep_step (CkBegin ps e) (ck s)); [done|]. cbn. by rewrite Hb.
  - destruct (bool_decide (pc s = CIdle) && _); [|done].
    destruct (extend_epoch ps (ck s)) as [|c] eqn:Hx; simplify_eq; [done|].
    apply (lockstep_step (CkExtend ps) (ck s)); [done|]. cbn. by rewrite Hx.
  - destruct (bool_decide _); simplify_eq. by apply (lockstep_step (CkRevoke ps) (ck s)).
  - destruct (bool_decide _); by simplify_eq.
  - eapply lockstep_frame; [|done]. by apply drain_frame.
  - apply exec_take in Hl' as (-> & _). by apply lockstep_take.
Qed.

Lemma reachable_lockstep s : reachable s -> ck_lockstep (ck s).
Proof.
  intros Hr. assert (Inv s /\ ck_lockstep (ck s)) as [_ ?]; [|done]. unfold reachable in Hr.
  assert (H0 : Inv sys_init /\ ck_lockstep (ck sys_init))
    by (split; [apply inv_init|apply lockstep_empty]).
  revert H0. induction Hr as [|s1 s2 s3 Hs _ IH]; [done|]. intros [HI H]. apply IH.
  split; [by eapply inv_step|by eapply lockstep_sys].
Qed.

(** Where the driver is in a poll of a partition: its turn was granted, the lane
    loaded the epoch, or the batch is sent for registration; the gate has not
    counted it yet. *)
Inductive Mid :=
  | MNone
  | MTurn (p : Z)
  | MLoaded (p : Z) (id : BatchId)
  | MSent (p : Z) (id : BatchId).

Definition slack (m : Mid) (p : Z) : Z :=
  match m with
  | MNone => 0
  | MTurn q | MLoaded q _ | MSent q _ => if decide (q = p) then 1 else 0
  end.

(** How the gate's count relates to what was registered. *)
Definition counted (m : Mid) (p : Z) (g : GateState) (n : Z) : Prop :=
  match m with
  | MLoaded q id => n <= g_issued g /\ (q = p -> bid_epoch id = g_epoch g)
  | MSent q id =>
      if decide (q = p)
      then bid_epoch id = g_epoch g /\ n = bid_seq id + 1 /\ bid_seq id <= g_issued g
      else n <= g_issued g
  | _ => n <= g_issued g
  end.

Record live (max : Z) (mine : list Lane) (m : Mid) (s : Sys) (p : Z) (g : GateState) : Prop :=
  mk_live {
  lv_lane : exists l, l ∈ mine /\ lane_partition l = p;
  lv_owner : forall l, l ∈ mine -> lane_partition l = p -> owner s !! p = Some (lane_issuer l);
  lv_count : counted m p g (nsent s p);
  lv_bound : forall t, trackers (ck s) !! p = Some t ->
    Checkpointer.gates (ck s) !! p = Some (g_advanced g) /\
    g_issued g + slack m p - head_seq t <= max;
}.

Record gate_ok (max : Z) (mine : list Lane) (m : Mid) (s : Sys) (p : Z) (g : GateState) : Prop :=
  mk_gate_ok {
  go_pos : 0 <= g_issued g;
  go_epoch : g_epoch g <= ck_epoch (ck s);
  go_live : g_epoch g = ck_epoch (ck s) -> live max mine m s p g;
}.

(** A step that keeps the epoch, the owner and the count of the partition, and
    moves its head only forward. *)
Lemma gate_ok_same max mine m s s' p g :
  gate_ok max mine m s p g -> ck_epoch (ck s') = ck_epoch (ck s) ->
  (g_epoch g = ck_epoch (ck s) -> owner s' !! p = owner s !! p /\ nsent s' p = nsent s p /\
    forall t', trackers (ck s') !! p = Some t' -> exists t, trackers (ck s) !! p = Some t /\
      head_seq t <= head_seq t' /\
      Checkpointer.gates (ck s') !! p = Checkpointer.gates (ck s) !! p) ->
  gate_ok max mine m s' p g.
Proof.
  intros [A B C] He Hs. split; [done|by rewrite He|]. rewrite He. intros Hg.
  destruct (Hs Hg) as (Ho & Hn & Ht). destruct (C Hg) as [L1 L2 L3 L4]. split; try done.
  - intros l Hl Hp. rewrite Ho. by apply L2.
  - by rewrite Hn.
  - intros t' Ht'. destruct (Ht t' Ht') as (t & Hold & Hle & Hgt).
    destruct (L4 t Hold). rewrite Hgt. split; [done|lia].
Qed.

Lemma advance_head_le now t : tracker_ok t -> head_seq t <= head_seq (advance_on now t).1.
Proof.
  intros Hok. destruct (advance_consumed now t Hok) as (d & _ & Hh & _). lia.
Qed.

Lemma admit_all_gates ps : forall ts gs c p, p ∉ ps ->
  (admit_all ps ts gs c).1.2 !! p = gs !! p.
Proof.
  unfold admit_all. induction ps as [|q ps IH]; intros ts gs c p Hp; simpl; [done|].
  apply not_elem_of_cons in Hp as [Hne Hp]. rewrite IH by done. by rewrite lookup_insert_ne.
Qed.

(** The partition of a live gate is not among those an extension admits. *)
Lemma owned_not_extended s p i ps c :
  Inv s -> owner s !! p = Some i -> extend_epoch ps (ck s) = inr c -> p ∉ ps.
Proof.
  intros HI Ho Hx Hin. unfold extend_epoch in Hx. destruct (first_some _ ps) eqn:Hf; [done|].
  destruct (extend_check_None _ _ (first_some_None _ _ Hf p Hin)) as [_ Hm].
  pose proof (iv_owner _ HI p) as Hw. rewrite Ho in Hw. destruct Hw as [_ (m & Ha & Hle)].
  specialize (Hm m Ha). lia.
Qed.

Lemma extend_gates ps c c' p :
  extend_epoch ps c = inr c' -> p ∉ ps ->
  Checkpointer.gates c' !! p = Checkpointer.gates c !! p.
Proof.
  unfold extend_epoch. destruct (first_some _ ps); [done|]. intros Hx Hp.
  pose proof (admit_all_gates ps (trackers c) (Checkpointer.gates c) (counters c) p Hp) as Hg.
  destruct (admit_all ps _ _ _) as [[ts gs] cs]. by injection Hx as <-.
Qed.

Lemma revoke_gates ps c p :
  p ∉ ps -> Checkpointer.gates (revoke ps c) !! p = Checkpointer.gates c !! p.
Proof.
  unfold revoke. cbn [Checkpointer.gates]. generalize (Checkpointer.gates c).
  induction ps as [|q ps IH]; intros gs Hp; simpl; [done|].
  apply not_elem_of_cons in Hp as [Hne Hp]. rewrite IH by done. by rewrite lookup_delete_ne.
Qed.

(** Another thread's registration counts for another partition. *)
Lemma foreign_sent s i x id off (mine : list Lane) p l :
  Inv s -> issuers s !! i = Some (x, ILoaded id off) -> i ∉ lane_issuer <$> mine ->
  l ∈ mine -> owner s !! p = Some (lane_issuer l) ->
  default 0 (sent_after s id !! p) = nsent s p.
Proof.
  intros HI Hi Hn Hl Ho. unfold sent_after, nsent. case_bool_decide as He; [|done].
  rewrite (iv_epoch _ HI) in He.
  destruct (ii_pc _ _ _ _ _ _ _ (iv_issuer _ HI _ _ _ Hi)) as (_ & _ & Hown).
  destruct (Hown He) as (Hown' & _). rewrite lookup_insert_ne; [done|].
  intros Hp. rewrite Hp, Ho in Hown'. injection Hown' as <-. apply Hn.
  apply list_elem_of_fmap. eauto.
Qed.

(** A drain step leaves owners and counts alone. *)
Lemma drain_step_owner s s' : drain_step s = Some s' -> owner s' = owner s.
Proof.
  unfold drain_step, recv_reg. intros Hd. repeat case_match; by simplify_eq.
Qed.

Lemma drain_step_sent s s' : drain_step s = Some s' -> sent s' = sent s.
Proof.
  unfold drain_step, recv_reg. intros Hd. repeat case_match; by simplify_eq.
Qed.

(** Whatever other threads do, a gate stays sound. *)
Lemma gate_ok_foreign max mine m s s' l p g :
  Inv s -> exec l s = Some s' -> foreign mine l = true ->
  gate_ok max mine m s p g -> gate_ok max mine m s' p g.
Proof.
  intros HI Hl Hf HG. pose proof (iv_panic _ (inv_step _ _ HI (ex_intro _ l Hl))) as Hnp.
  pose proof Hl as Hl'. unfold exec in Hl. rewrite (iv_panic _ HI) in Hl.
  assert (Hck : ck s' = ck s -> owner s' = owner s -> sent s' = sent s ->
    gate_ok max mine m s' p g).
  { intros E1 E2 E3. apply (gate_ok_same _ _ _ s); [done|by rewrite E1|]. intros _.
    rewrite E1, E2. unfold nsent. rewrite E3. split_and!; try done. intros t' Ht'.
    exists t'. split_and!; [done|lia|done]. }
  destruct l as [i|i j|i q off|i|i|r|r|r|ps e own|ps own|ps| | |now]; cbn [foreign] in Hf.
  - destruct (issuers s !! i); simplify_eq. by apply Hck.
  - destruct (issuers s !! i) as [[x ?]|], (issuers s !! j); simplify_eq. by apply Hck.
  - destruct (issuers s !! i) as [[x []]|]; try done. destruct (_ && _); [|done].
    destruct (issue_id _ _ _); simplify_eq. by apply Hck.
  - destruct (issuers s !! i) as [[x [|id off|id off]]|] eqn:Hi; try done. simplify_eq.
    apply bool_decide_eq_true in Hf. apply (gate_ok_same _ _ _ s); [done|done|].
    intros He. destruct (go_live _ _ _ _ _ _ HG He) as [(l & Hl & Hp) L2 _ _].
    split_and!; [done| |intros t' Ht'; exists t'; split_and!; [done|lia|done]].
    eapply (foreign_sent s i x id off mine p l); try done. by apply L2.
  - destruct (issuers s !! i) as [[x [|id off|id off]]|]; try done.
    cbn [AckRef_new] in Hl. injection Hl as <-. by apply Hck.
  - destruct (heap (acks s) !! r); simplify_eq. by apply Hck.
  - destruct (heap (acks s) !! r); simplify_eq. by apply Hck.
  - destruct (heap (acks s) !! r); simplify_eq. by apply Hck.
  - destruct (bool_decide (pc s = CIdle)); [|done].
    destruct (bool_decide (ck_epoch (ck s) < e)) eqn:E; [|done]. apply bool_decide_eq_true in E.
    destruct (bool_decide (lanes_ok ps own s)); [|done]. cbn [andb] in Hl.
    destruct (begin_epoch ps e (ck s)) as [[c e']|] eqn:Hb; simplify_eq.
    apply begin_trackers in Hb as (-> & Hep & _). destruct HG as [G1 G2 _].
    split; cbn [ck]; rewrite ?Hep; [done|lia|lia].
  - destruct (bool_decide (pc s = CIdle)); [|done].
    destruct (bool_decide (lanes_ok ps own s)) eqn:E; [|done]. apply bool_decide_eq_true in E.
    cbn [andb] in Hl. destruct (extend_epoch ps (ck s)) as [|c] eqn:Hx; simplify_eq; [by apply Hck|].
    pose proof (extend_trackers _ _ _ Hx) as (Hep & _ & Ht).
    apply (gate_ok_same _ _ _ s); [done|done|]. intros He. cbn [owner ck].
    destruct (go_live _ _ _ _ _ _ HG He) as [(l & Hl & Hp) L2 _ _].
    pose proof (owned_not_extended _ _ _ _ _ HI (L2 l Hl Hp) Hx) as Hn.
    split_and!; [|done|].
    + rewrite lookup_union_r; [done|]. destruct (own !! p) as [j|] eqn:Ho; [|done].
      by destruct (E p j Ho).
    + intros t'. rewrite Ht, bool_decide_false by done. intros Ht'. exists t'.
      split_and!; [done|lia|by eapply extend_gates].
  - destruct (bool_decide _); simplify_eq. apply (gate_ok_same _ _ _ s); [done|done|].
    intros He. split_and!; try done. cbn [ck set_ck]. intros t' [Ht' Hn]%revoke_lookup.
    exists t'. split_and!; [done|lia|by apply revoke_gates].
  - destruct (bool_decide _); simplify_eq. by apply Hck.
  - pose proof (drain_frame _ _ HI Hl') as [_ Fh Fe [Fg _] _].
    apply (gate_ok_same _ _ _ s); [done|done|]. intros He. rewrite Fg. split_and!.
    + by rewrite (drain_step_owner _ _ Hl).
    + unfold nsent. by rewrite (drain_step_sent _ _ Hl).
    + intros t' Ht'. assert (Hh : heads (ck s) !! p = Some (head_seq t'))
        by (rewrite <- Fh; apply heads_lookup; eauto).
      apply heads_lookup in Hh as (t & Ht & Heq). exists t. split_and!; [done|lia|done].
  - destruct (bool_decide _); [|done]. destruct (take_watermarks now (ck s)) as [c out] eqn:Et.
    injection Hl as <-. apply (f_equal fst) in Et. cbn [fst] in Et. subst c.
    apply (gate_ok_same _ _ _ s); [done|done|]. intros He. split_and!; try done.
    cbn [ck set_reported set_ck take_watermarks fst trackers Checkpointer.gates].
    intros t'. rewrite map_lookup_imap. destruct (trackers (ck s) !! p) as [t|] eqn:Ht; [|done].
    cbn. intros [= <-]. exists t. split_and!; [done| |done]. apply advance_head_le.
    apply (iv_part _ HI p t Ht).
Qed.

(** ** The driver's invariant *)

(** No gated partition of the current epoch is past the ceiling. *)
Definition under_ceiling (max : Z) (s : Sys) (G : gmap Z GateState) : Prop :=
  forall p g t, G !! p = Some g -> g_epoch g = ck_epoch (ck s) ->
    trackers (ck s) !! p = Some t -> Z.of_nat (Tracker.pending t) <= max.

Definition failed_in (B : gmap BatchId Batch) (id : BatchId) : Prop :=
  0 <= bid_seq id /\ exists b, B !! id = Some b /\ b_failed b = true.

(** [L] are the driver's lanes, [q] the batches in its hands, [E] what it knows
    of the system besides. *)
Record DI (max : Z) (m : Mid) (L : list Lane) (q : list BatchId) (E : Sys -> Prop)
    (w : DWorld) : Prop := mk_DI {
  di_reach : reachable (d_sys w);
  di_gates : forall p g, d_gates w !! p = Some g -> gate_ok max L m (d_sys w) p g;
  di_seen : forall s G, (s, G) ∈ d_visited w -> under_ceiling max s G;
  di_fates : forall id, (id, false) ∈ d_fates w -> failed_in (history (d_sys w)) id;
  di_polled : d_polled w = (d_fates w).*1 ++ q;
  di_lanes : d_lanes w = L;
  di_env : E (d_sys w);
}.

Lemma gates_under_ceiling max m L s G :
  reachable s -> (forall p g, G !! p = Some g -> gate_ok max L m s p g) ->
  under_ceiling max s G.
Proof.
  intros Hr HG p g t Hp He Ht. pose proof (reachable_inv _ Hr) as HI.
  destruct (HG p g Hp) as [_ _ Hlive]. destruct (Hlive He) as [_ _ Hc Hb].
  destruct (Hb t Ht) as [_ Hle]. destruct (iv_part _ HI p t Ht) as [[K1 K2 K3] Pn _ _ _].
  assert (Hn : nsent s p <= g_issued g + slack m p).
  { destruct m as [|r|r id|r id]; cbn in *; try lia; destruct (decide (r = p)); lia. }
  unfold Tracker.pending. lia.
Qed.

(** Histories keep their failures. *)
Lemma failed_kept l s s' id :
  Inv s -> exec l s = Some s' -> failed_in (history s) id -> failed_in (history s') id.
Proof.
  intros HI Hl (H0 & b & Hb & Hf). split; [done|].
  assert (Halt : forall f id', (forall b, b_failed b = true -> b_failed (f b) = true) ->
    exists b, alter f id' (history s) !! id = Some b /\ b_failed b = true).
  { intros f id' Hk. destruct (decide (id' = id)) as [->|Hne].
    - exists (f b). rewrite lookup_alter_eq, Hb. split; [done|by apply Hk].
    - exists b. by rewrite lookup_alter_ne. }
  pose proof Hl as Hl'. unfold exec in Hl. rewrite (iv_panic _ HI) in Hl.
  destruct l as [i|i j|i p off|i|i|r|r|r|ps e own|ps own|ps| | |now].
  - destruct (issuers s !! i); simplify_eq. by exists b.
  - destruct (issuers s !! i) as [[x ?]|], (issuers s !! j); simplify_eq. by exists b.
  - destruct (issuers s !! i) as [[x []]|]; try done. destruct (_ && _); [|done].
    destruct (issue_id _ _ _); simplify_eq. by exists b.
  - destruct (issuers s !! i) as [[x [|id' off|id' off]]|] eqn:Hi; try done. simplify_eq.
    exists b. cbn. destruct (ii_pc _ _ _ _ _ _ _ (iv_issuer _ HI _ _ _ Hi)) as [Hn _].
    rewrite lookup_insert_ne; [done|]. intros ->. congruence.
  - destruct (issuers s !! i) as [[x [|id' off|id' off]]|]; try done.
    cbn [AckRef_new] in Hl. injection Hl as <-. by apply Halt.
  - destruct (heap (acks s) !! r); simplify_eq. by exists b.
  - destruct (heap (acks s) !! r); simplify_eq. by apply Halt.
  - destruct (heap (acks s) !! r) as [st|]; simplify_eq. cbn.
    destruct (bool_decide _); [by apply Halt|by exists b].
  - destruct (_ && _ && _); [|done]. destruct (begin_epoch _ _ _) as [[]|]; simplify_eq; by exists b.
  - destruct (_ && _); [|done]. destruct (extend_epoch _ _); simplify_eq; by exists b.
  - destruct (bool_decide _); simplify_eq. by exists b.
  - destruct (bool_decide _); simplify_eq. by exists b.
  - exists b. split; [|done]. rewrite <- Hb. f_equal. clear -Hl. unfold drain_step, recv_reg in Hl.
    repeat case_match; by simplify_eq.
  - apply exec_take in Hl' as (_ & _ & _ & _ & ->). by exists b.
Qed.

(** What the driver knows survives other threads' steps. *)
Definition stable (L : list Lane) (E : Sys -> Prop) : Prop := forall l s s',
  Inv s -> foreign L l = true -> exec l s = Some s' -> E s -> E s'.

(** A step of the system under a driver that knows [E] before and [E'] after. *)
Lemma holds_step max m L q (E : Sys -> Prop) l (R : DWorld -> Prop) :
  (forall w s', DI max m L q E w -> exec l (d_sys w) = Some s' ->
     (forall m' (E' : Sys -> Prop), E' s' ->
        (forall p g, d_gates w !! p = Some g -> gate_ok max L m' s' p g) ->
        DI max m' L q E' (w_sys s' w)) -> R (w_sys s' w)) ->
  holds (DI max m L q E) (sys_do l) (fun _ => R).
Proof.
  intros H w t HD. unfold sys_do. destruct (exec l (d_sys w)) as [s'|] eqn:Hl; [|done].
  pose proof (reachable_inv _ (di_reach _ _ _ _ _ _ HD)) as HI.
  assert (Hr : reachable s').
  { unfold reachable. etrans; [apply (di_reach _ _ _ _ _ _ HD)|]. apply rtc_once. by exists l. }
  rewrite (iv_panic _ (reachable_inv _ Hr)). apply (H w s' HD Hl). intros m' E' HE HG.
  destruct HD as [A B C D F G X]. split; cbn [w_sys d_sys d_gates d_visited d_fates d_polled d_lanes];
    try done.
  - intros s G' [Hin|Hin]%elem_of_app; [by apply C|].
    apply list_elem_of_singleton in Hin. injection Hin as -> ->. by eapply gates_under_ceiling.
  - intros id Hid. eapply failed_kept; [done|done|]. by apply D.
Qed.

Lemma holds_sys_do max m m' L q (E E' : Sys -> Prop) l :
  (forall w s', DI max m L q E w -> exec l (d_sys w) = Some s' ->
     E' s' /\ forall p g, d_gates w !! p = Some g -> gate_ok max L m' s' p g) ->
  holds (DI max m L q E) (sys_do l) (fun _ => DI max m' L q E').
Proof.
  intros H. apply holds_step. intros w s' HD Hl K. destruct (H w s' HD Hl). by apply K.
Qed.

Lemma holds_foreign max m L q E l :
  stable L E -> foreign L l = true ->
  holds (DI max m L q E) (sys_do l) (fun _ => DI max m L q E).
Proof.
  intros HE Hf. apply holds_sys_do. intros w s' HD Hl.
  pose proof (reachable_inv _ (di_reach _ _ _ _ _ _ HD)) as HI. split.
  - eapply HE; [done|done|done|apply HD].
  - intros p g Hg. eapply gate_ok_foreign; [done|done|done|]. by apply HD.
Qed.

Lemma holds_dothers max m L q E :
  stable L E -> holds (DI max m L q E) dothers (fun _ => DI max m L q E).
Proof.
  intros HE. eapply holds_bind; [apply holds_ask|]. intros ls. apply holds_get_bind. intros w.
  destruct (forallb (foreign (d_lanes w)) ls) eqn:El; [|apply holds_stuck].
  intros ? t [-> HD]. rewrite (di_lanes _ _ _ _ _ _ HD) in El.
  refine (holds_each (DI max m L q E) sys_do ls _ w t HD). intros l Hl.
  apply holds_foreign; [done|]. rewrite forallb_forall in El. apply El.
  by apply list_elem_of_In.
Qed.

Lemma stable_true L : stable L (fun _ => True).
Proof. done. Qed.

(** ** Steps that leave the gates alone *)
Lemma holds_neutral max m L q E f :
  (forall w, d_sys (f w) = d_sys w /\ d_gates (f w) = d_gates w /\ d_visited (f w) = d_visited w /\
     d_fates (f w) = d_fates w /\ d_polled (f w) = d_polled w /\ d_lanes (f w) = d_lanes w) ->
  holds (DI max m L q E) (upd f) (fun _ => DI max m L q E).
Proof.
  intros Hf. apply holds_modify. intros w [A B C D F G X].
  destruct (Hf w) as (E1 & E2 & E3 & E4 & E5 & E6).
  split; rewrite ?E1, ?E2, ?E3, ?E4, ?E5, ?E6; done.
Qed.

Lemma holds_emit max m L q E e : holds (DI max m L q E) (emit e) (fun _ => DI max m L q E).
Proof. by apply holds_neutral. Qed.

Lemma holds_rejected max m L q E : holds (DI max m L q E) rejected (fun _ => DI max m L q E).
Proof. eapply holds_bind; [apply holds_ask|]. intros now. by apply holds_neutral. Qed.

Lemma holds_bp_tick max m L q E : holds (DI max m L q E) bp_tick (fun _ => DI max m L q E).
Proof.
  eapply holds_bind; [apply holds_ask|]. intros ql.
  eapply holds_bind; [apply holds_ask|]. intros usage.
  eapply holds_bind; [apply holds_ask|]. intros now. apply holds_get_bind. intros w.
  eapply holds_pre; [|intros ? [-> HD]; exact HD].
  destruct (Backpressure.tick now usage ql (d_bp w)) as [tr c].
  eapply holds_bind; [by apply holds_neutral|]. intros [].
  destruct tr as [[]|]; [apply holds_emit..|by apply holds_ret].
Qed.

Lemma holds_flush_until max m L q E th d :
  stable L E -> holds (DI max m L q E) (flush_until th d) (fun _ => DI max m L q E).
Proof.
  intros HE. apply (holds_loop (DI max m L q E)).
  eapply holds_bind; [by apply holds_dothers|]. intros [].
  eapply holds_bind; [apply holds_ask|].
  intros [|r reason|e|e]; [by apply holds_ret| | |apply holds_stuck].
  - eapply holds_bind; [apply holds_rejected|]. intros [].
    eapply holds_bind; [apply holds_ask|]. intros now.
    destruct (bool_decide _); by apply holds_ret.
  - eapply holds_bind; [apply holds_emit|]. intros []. by apply holds_ret.
Qed.

Lemma holds_flush_once max m L q E th :
  stable L E -> holds (DI max m L q E) (flush_once th) (fun _ => DI max m L q E).
Proof.
  intros HE. eapply holds_bind; [by apply holds_dothers|]. intros [].
  eapply holds_bind; [apply holds_ask|].
  intros [|r reason|e|e]; [by apply holds_neutral|apply holds_rejected|apply holds_emit|
    apply holds_stuck].
Qed.

Lemma holds_idle_flush P max m L q E :
  stable L E -> holds (DI max m L q E) (idle_flush P) (fun _ => DI max m L q E).
Proof.
  intros HE. eapply holds_bind; [apply holds_ask|]. intros now. apply holds_get_bind. intros w.
  eapply holds_pre; [|intros ? [-> HD]; exact HD].
  destruct (_ || _); [by apply holds_ret|by apply holds_flush_once].
Qed.

Lemma holds_park max m L q E : holds (DI max m L q E) park_on_control (fun _ => DI max m L q E).
Proof.
  eapply holds_bind; [apply holds_ask|]. intros [msg|]; [by apply holds_neutral|by apply holds_ret].
Qed.

(** ** Lanes come and go *)

(** Between turns, whatever the lanes are. *)
Definition DT (max : Z) (w : DWorld) : Prop := DI max MNone (d_lanes w) [] (fun _ => True) w.

Lemma holds_lanes {A} max (m : Prog DWorld DAnswer A) (R : A -> DWorld -> Prop) :
  (forall L, holds (DI max MNone L [] (fun _ => True)) m R) -> holds (DT max) m R.
Proof. intros H w t HD. by apply (H (d_lanes w) w t). Qed.

Lemma dt_di max L w : DI max MNone L [] (fun _ => True) w -> DT max w.
Proof. intros HD. unfold DT. by rewrite (di_lanes _ _ _ _ _ _ HD). Qed.

Lemma gate_ok_fewer max L L' s p g :
  (forall l, l ∈ L' -> l ∈ L) -> (exists l, l ∈ L' /\ lane_partition l = p) ->
  gate_ok max L MNone s p g -> gate_ok max L' MNone s p g.
Proof.
  intros Hsub Hex [A B C]. split; try done. intros He. destruct (C He) as [L1 L2 L3 L4].
  split; try done. intros l Hl Hp. apply L2; [by apply Hsub|done].
Qed.

Lemma holds_release max gone : holds (DT max) (release_lanes gone) (fun _ => DT max).
Proof.
  apply holds_get_bind. intros w0. cbv zeta.
  set (kept := filter (fun l => stays gone l = true) (d_lanes w0)).
  intros ? t [-> HD]. cbn. destruct HD as [A B C D F G X]. split; cbn; try done.
  intros p g Hg. unfold prune_gates in Hg. apply map_lookup_filter_Some in Hg as [Hg Hp].
  cbn [fst] in Hp. apply list_elem_of_fmap in Hp as (l & -> & Hl).
  apply (gate_ok_fewer max (d_lanes w0)); [|by eauto|by apply B].
  intros l' Hl'. by apply list_elem_of_filter in Hl' as [_ ?].
Qed.

Lemma gate_valid_spec w lane gate :
  gate_valid w lane gate = true ->
  let s := d_sys w in let p := lane_partition lane in
  (forall l, l ∈ d_lanes w -> lane_partition l = p -> lane_issuer l = lane_issuer lane) /\
  forall pg, gate = Some pg ->
    pg_epoch pg < ck_epoch (ck s) \/
    (pg_epoch pg = ck_epoch (ck s) /\ owner s !! p = Some (lane_issuer lane) /\
     (g_epoch <$> d_gates w !! p = Some (pg_epoch pg) \/
      (nsent s p = 0 /\
       (trackers (ck s) !! p = None \/
        Checkpointer.gates (ck s) !! p = Some (pg_advanced pg))))).
Proof.
  unfold gate_valid. cbv zeta. intros [A B]%andb_prop. apply bool_decide_eq_true in A.
  rewrite Forall_forall in A. split; [done|]. intros pg ->.
  apply orb_prop in B as [B|[[B1 B2]%andb_prop B]%andb_prop];
    [left; by apply bool_decide_eq_true in B|right].
  apply bool_decide_eq_true in B1, B2. split_and!; [done|done|].
  apply orb_prop in B as [B|[B3 B]%andb_prop]; [left; by apply bool_decide_eq_true in B|right].
  apply bool_decide_eq_true in B3. split; [done|].
  apply orb_prop in B as [B|B]; apply bool_decide_eq_true in B; auto.
Qed.

(** A lane joins those of its partition, or another partition's. *)
Lemma gate_ok_more max L s p g lane :
  (forall l, l ∈ L -> lane_partition l = lane_partition lane ->
     lane_issuer l = lane_issuer lane) ->
  gate_ok max L MNone s p g -> gate_ok max (L ++ [lane]) MNone s p g.
Proof.
  intros Hsame [A B C]. split; try done. intros He. destruct (C He) as [(l0 & Hl0 & Hp0) L2 L3 L4].
  split; try done.
  - exists l0. split; [|done]. apply elem_of_app. by left.
  - intros l [Hl|Hl]%elem_of_app Hp; [by apply L2|]. apply list_elem_of_singleton in Hl as ->.
    rewrite <- (Hsame l0 Hl0) by congruence. by apply L2.
Qed.

Lemma gate_ok_fresh max L s lane pg :
  Inv s -> 0 <= max ->
  (forall l, l ∈ L -> lane_partition l = lane_partition lane ->
     lane_issuer l = lane_issuer lane) ->
  pg_epoch pg < ck_epoch (ck s) \/
  (pg_epoch pg = ck_epoch (ck s) /\ owner s !! lane_partition lane = Some (lane_issuer lane) /\
   nsent s (lane_partition lane) = 0 /\
   (trackers (ck s) !! lane_partition lane = None \/
    Checkpointer.gates (ck s) !! lane_partition lane = Some (pg_advanced pg))) ->
  gate_ok max (L ++ [lane]) MNone s (lane_partition lane)
    (mkGateState (pg_epoch pg) (pg_advanced pg) 0 false).
Proof.
  intros HI Hmax Hsame Hpg. split; cbn; [lia|destruct Hpg; lia|]. intros He.
  destruct Hpg as [|(_ & Ho & Hn & Hg)]; [lia|]. split; cbn; try lia.
  - exists lane. split; [|done]. apply elem_of_app. right. apply list_elem_of_here.
  - intros l [Hl|Hl]%elem_of_app Hp; [by rewrite (Hsame l Hl Hp)|].
    by apply list_elem_of_singleton in Hl as ->.
  - intros t Ht. destruct Hg as [Hg|Hg]; [congruence|]. split; [done|].
    destruct (iv_part _ HI _ t Ht) as [[K1 _ _] _ _ _ _]. lia.
Qed.

Lemma holds_add_lane max lane gate :
  0 <= max ->
  holds (DT max) (w ← get;
    if gate_valid w lane gate then
      upd (fun w => w_gates (add_gate lane gate (d_gates w)) w) ;;;
      upd (fun w => w_lanes (d_lanes w ++ [lane]) w) ;;;
      mret (@None DriverExit)
    else stuck) (fun _ => DT max).
Proof.
  intros Hmax. apply holds_get_bind. intros w0.
  destruct (gate_valid w0 lane gate) eqn:Hv; [|apply holds_stuck].
  apply gate_valid_spec in Hv as [Hsame Hpg].
  intros ? t [-> HD]. cbn. destruct HD as [A B C D F G X]. split; cbn; try done.
  assert (Hold : forall p g, d_gates w0 !! p = Some g ->
    gate_ok max (d_lanes w0 ++ [lane]) MNone (d_sys w0) p g).
  { intros p g Hg. apply gate_ok_more; [done|]. by apply B. }
  intros p g. unfold add_gate. destruct gate as [pg|]; [|by apply Hold].
  assert (Hfresh : (forall g0, d_gates w0 !! lane_partition lane = Some g0 ->
      g_epoch g0 <> pg_epoch pg) ->
    gate_ok max (d_lanes w0 ++ [lane]) MNone (d_sys w0) (lane_partition lane)
      (mkGateState (pg_epoch pg) (pg_advanced pg) 0 false)).
  { intros Hne. apply gate_ok_fresh; [by apply reachable_inv|done|done|].
    destruct (Hpg pg eq_refl) as [|(E1 & E2 & [E3|[E3 E4]])]; [by left| |by right].
    destruct (d_gates w0 !! lane_partition lane) as [g0|]; [|done]. injection E3 as E3.
    by destruct (Hne g0). }
  destruct (d_gates w0 !! lane_partition lane) as [g0|] eqn:Hg0.
  - destruct (decide (pg_epoch pg <= g_epoch g0)) as [Hle|Hgt].
    + rewrite bool_decide_true by done. apply Hold.
    + rewrite bool_decide_false by done.
      intros [[<- <-]|[_ Hg]]%lookup_insert_Some; [|by apply Hold].
      apply Hfresh. intros g1 [= <-]. lia.
  - intros [[<- <-]|[_ Hg]]%lookup_insert_Some; [|by apply Hold]. by apply Hfresh.
Qed.

Lemma stop_dt max L w :
  DI max MNone L [] (fun _ => True) w -> DT max (w_lanes [] (w_gates ∅ w)).
Proof. intros [A B C D F G X]. split; cbn; try done. Qed.

Lemma dt_upd max f :
  (forall w, d_sys (f w) = d_sys w /\ d_gates (f w) = d_gates w /\ d_visited (f w) = d_visited w /\
     d_fates (f w) = d_fates w /\ d_polled (f w) = d_polled w /\ d_lanes (f w) = d_lanes w) ->
  holds (DT max) (upd f) (fun _ => DT max).
Proof.
  intros Hf. apply holds_lanes. intros L.
  eapply holds_weaken; [by apply holds_neutral|done|]. intros ? w. apply dt_di.
Qed.

Lemma dt_of_di {A} max (m : Prog DWorld DAnswer A) :
  (forall L, holds (DI max MNone L [] (fun _ => True)) m
     (fun _ => DI max MNone L [] (fun _ => True))) ->
  holds (DT max) m (fun _ => DT max).
Proof.
  intros H. apply holds_lanes. intros L.
  eapply holds_weaken; [apply H|done|]. intros ? w. apply dt_di.
Qed.

Lemma holds_handle_control P max msg :
  0 <= max -> holds (DT max) (handle_control P msg) (fun _ => DT max).
Proof.
  intros Hmax. destruct msg as [lane gate|gone b d| |gone|b d]; cbn [handle_control].
  - by apply holds_add_lane.
  - eapply holds_bind; [apply holds_release|]. intros n.
    eapply (holds_bind _ _ _ (fun _ => DT max)).
    + apply holds_when; [|done]. intros _. apply dt_of_di. intros L. by apply holds_flush_until.
    + intros []. eapply holds_bind; [by apply dt_upd|]. intros []. by apply holds_ret.
  - eapply holds_bind; [apply dt_of_di; intros L; by apply holds_flush_once|].
    intros []. by apply holds_ret.
  - eapply holds_bind; [apply holds_release|]. intros n. by apply holds_ret.
  - eapply holds_bind; [apply dt_of_di; intros L; by apply holds_flush_until|]. intros [].
    eapply (holds_bind _ _ _ (fun _ => DT max)).
    { apply holds_modify. intros w HD. by eapply stop_dt. }
    intros []. do 2 (eapply holds_bind; [by apply dt_upd|]; intros []). by apply holds_ret.
Qed.

Lemma holds_drain_control P max :
  0 <= max -> holds (DT max) (drain_control P) (fun _ => DT max).
Proof.
  intros Hmax. apply (holds_loop (DT max)). apply holds_get_bind. intros w.
  eapply holds_pre; [|intros ? [-> HD]; exact HD].
  eapply (holds_bind _ _ _ (fun _ => DT max)).
  - destruct (d_parked w) as [m|].
    + eapply holds_bind; [by apply dt_upd|]. intros []. by apply holds_ret.
    + eapply holds_bind; [apply dt_of_di; intros L; by apply holds_dothers|]. intros [].
      apply holds_ask.
  - intros [m|]; [|by apply holds_ret]. eapply holds_bind; [by apply holds_handle_control|].
    intros [e|]; by apply holds_ret.
Qed.

(** ** One poll *)

(** The issuer of the lane, between the three steps of an issue. *)
Definition loaded_by (i : nat) (id : BatchId) (p : Z) (s : Sys) : Prop :=
  exists x off, issuers s !! i = Some (x, ILoaded id off) /\ bid_partition id = p /\
    0 <= bid_seq id.
Definition sent_by (i : nat) (id : BatchId) (s : Sys) : Prop :=
  exists x off, issuers s !! i = Some (x, ISent id off) /\ 0 <= bid_seq id.
(** The handle [r] is of batch [id], which was registered. *)
Definition handle_of (id : BatchId) (r : AckRef) (s : Sys) : Prop :=
  0 <= bid_seq id /\ (r < fresh_ref (acks s))%nat /\ is_Some (history s !! id) /\
  forall st, heap (acks s) !! r = Some st -> as_id st = id.

(** Other threads leave a lane's issuer alone. *)
Lemma foreign_issuer L l s s' lane y :
  exec l s = Some s' -> foreign L l = true -> lane ∈ L ->
  issuers s !! lane_issuer lane = Some y -> issuers s' !! lane_issuer lane = Some y.
Proof.
  intros Hl Hf Hin Hi. unfold exec in Hl. destruct (panicked s); [done|].
  assert (Hne : forall i, bool_decide (i ∉ lane_issuer <$> L) = true -> i <> lane_issuer lane).
  { intros i Hn ->. apply bool_decide_eq_true in Hn. apply Hn. apply list_elem_of_fmap. eauto. }
  destruct l as [i|i j|i q off|i|i|r|r|r|ps e own|ps own|ps| | |now]; cbn [foreign] in Hf.
  - destruct (issuers s !! i) eqn:Ei; simplify_eq. cbn. rewrite lookup_insert_ne; [done|congruence].
  - destruct (issuers s !! i) as [[x ?]|], (issuers s !! j) eqn:Ej; simplify_eq. cbn.
    rewrite lookup_insert_ne; [done|congruence].
  - destruct (issuers s !! i) as [[x []]|]; try done. destruct (_ && _); [|done].
    destruct (issue_id _ _ _); simplify_eq. cbn. by rewrite lookup_insert_ne by auto.
  - destruct (issuers s !! i) as [[x []]|]; try done. simplify_eq. cbn.
    by rewrite lookup_insert_ne by auto.
  - destruct (issuers s !! i) as [[x []]|]; try done. cbn [AckRef_new] in Hl. simplify_eq. cbn.
    by rewrite lookup_insert_ne by auto.
  - destruct (heap (acks s) !! r); by simplify_eq.
  - destruct (heap (acks s) !! r); by simplify_eq.
  - destruct (heap (acks s) !! r); by simplify_eq.
  - destruct (_ && _ && _); [|done]. destruct (begin_epoch _ _ _) as [[]|]; by simplify_eq.
  - destruct (_ && _); [|done]. destruct (extend_epoch _ _); by simplify_eq.
  - destruct (bool_decide _); by simplify_eq.
  - destruct (bool_decide _); by simplify_eq.
  - unfold drain_step, recv_reg in Hl. repeat case_match; by simplify_eq.
  - destruct (bool_decide _); [|done]. destruct (take_watermarks _ _). by simplify_eq.
Qed.

Lemma stable_loaded L lane id p :
  lane ∈ L -> stable L (loaded_by (lane_issuer lane) id p).
Proof.
  intros Hin l s s' _ Hf Hl (x & off & Hi & Hp). exists x, off. split; [|done].
  by eapply foreign_issuer.
Qed.

Lemma stable_sent L lane id : lane ∈ L -> stable L (sent_by (lane_issuer lane) id).
Proof.
  intros Hin l s s' _ Hf Hl (x & off & Hi & Hp). exists x, off. split; [|done].
  by eapply foreign_issuer.
Qed.

(** What a use of a handle leaves at [r] is of the batch that was there. *)
Lemma use_keeps_id r' w w' r st' :
  w' = AckRef_clone r' w \/ w' = AckRef_fail r' w \/ w' = AckRef_drop r' w ->
  heap w' !! r = Some st' -> exists st, heap w !! r = Some st /\ as_id st' = as_id st.
Proof.
  assert (Halt : forall f : AckState -> AckState, (forall st, as_id (f st) = as_id st) ->
    alter f r' (heap w) !! r = Some st' ->
    exists st, heap w !! r = Some st /\ as_id st' = as_id st).
  { intros f Hf. rewrite lookup_alter_Some. intros [(-> & st & H & ->)|[_ H]]; eauto. }
  intros [->|[->| ->]]; cbn; [by apply Halt..|]. unfold AckRef_drop.
  destruct (heap w !! r') as [st|] eqn:E; [|by eauto]. destruct (bool_decide _); cbn.
  - rewrite lookup_delete_Some. intros [_ ?]. eauto.
  - rewrite lookup_insert_Some. intros [[<- <-]|[_ ?]]; eauto.
Qed.

Lemma drop_fresh r w : fresh_ref (AckRef_drop r w) = fresh_ref w.
Proof. unfold AckRef_drop. destruct (heap w !! r); [|done]. by destruct (bool_decide _). Qed.

(** Histories keep their batches, and handles their batch. *)
Lemma stable_handle L id r : stable L (handle_of id r).
Proof.
  intros l s s' HI _ Hl (H0 & Hr & [b Hb] & Hh). unfold handle_of.
  assert (Halt : forall f id', is_Some (alter f id' (history s) !! id)).
  { intros f id'. rewrite lookup_alter_is_Some. eauto. }
  unfold exec in Hl. rewrite (iv_panic _ HI) in Hl.
  assert (Hsame : heap (acks s') = heap (acks s) -> fresh_ref (acks s') = fresh_ref (acks s) ->
    history s' = history s -> handle_of id r s').
  { intros E1 E2 E3. unfold handle_of. rewrite E1, E2, E3. eauto. }
  destruct l as [i|i j|i q off|i|i|r'|r'|r'|ps e own|ps own|ps| | |now].
  - destruct (issuers s !! i); simplify_eq; by apply Hsame.
  - destruct (issuers s !! i) as [[x ?]|], (issuers s !! j); simplify_eq; by apply Hsame.
  - destruct (issuers s !! i) as [[x []]|]; try done. destruct (_ && _); [|done].
    destruct (issue_id _ _ _); simplify_eq; by apply Hsame.
  - destruct (issuers s !! i) as [[x []]|]; try done. simplify_eq. cbn. split_and!; [done|done| |done].
    apply lookup_insert_is_Some'. eauto.
  - destruct (issuers s !! i) as [[x []]|]; try done. cbn [AckRef_new] in Hl. simplify_eq. cbn.
    split_and!; [done|lia|by apply Halt|]. intros st. rewrite lookup_insert_ne by lia. apply Hh.
  - destruct (heap (acks s) !! r') eqn:E; simplify_eq. cbn [acks history set_acks].
    split_and!; [done|done|by eauto|]. intros st (st0 & Hs0 & ->)%(use_keeps_id r' (acks s)); eauto.
  - destruct (heap (acks s) !! r') eqn:E; simplify_eq. cbn [acks history set_acks].
    split_and!; [done|done|by apply Halt|]. intros st (st0 & Hs0 & ->)%(use_keeps_id r' (acks s)); eauto.
  - destruct (heap (acks s) !! r') eqn:E; simplify_eq. cbn [acks history set_acks].
    rewrite drop_fresh. split_and!; [done|done|destruct (bool_decide _); [by apply Halt|by eauto]|].
    intros st (st0 & Hs0 & ->)%(use_keeps_id r' (acks s)); eauto.
  - destruct (_ && _ && _); [|done]. destruct (begin_epoch _ _ _) as [[]|]; simplify_eq; by apply Hsame.
  - destruct (_ && _); [|done]. destruct (extend_epoch _ _); simplify_eq; by apply Hsame.
  - destruct (bool_decide _); simplify_eq. by apply Hsame.
  - destruct (bool_decide _); simplify_eq. by apply Hsame.
  - apply Hsame; clear -Hl; unfold drain_step, recv_reg in Hl; repeat case_match; by simplify_eq.
  - destruct (bool_decide _); [|done]. destruct (take_watermarks _ _). simplify_eq. by apply Hsame.
Qed.

Lemma issue_id_keys e p x : bid_epoch (issue_id e p x).1 = e /\ bid_partition (issue_id e p x).1 = p.
Proof. unfold issue_id. by repeat case_match. Qed.

(** The driver's own step: what the checkpointer holds is the same, and the
    gate's count follows the phase. *)
Lemma gate_ok_own max L m m' s s' p g :
  gate_ok max L m s p g -> ck s' = ck s -> owner s' = owner s ->
  (g_epoch g = ck_epoch (ck s) -> counted m p g (nsent s p) ->
     counted m' p g (nsent s' p) /\ slack m' p <= slack m p) ->
  gate_ok max L m' s' p g.
Proof.
  intros [A B C] E1 E2 H. split; [done|by rewrite E1|]. rewrite E1. intros He.
  destruct (C He) as [L1 L2 L3 L4]. destruct (H He L3) as [H1 H2].
  split; rewrite ?E1, ?E2; try done. intros t Ht. destruct (L4 t Ht). split; [done|lia].
Qed.

Lemma holds_load max L q p i off :
  holds (DI max (MTurn p) L q (fun _ => True)) (sys_do (LLoad i p off))
    (fun _ w => exists id, DI max (MLoaded p id) L q (loaded_by i id p) w).
Proof.
  apply holds_step. intros w s' HD Hl K.
  pose proof (reachable_inv _ (di_reach _ _ _ _ _ _ HD)) as HI.
  pose proof (inv_step _ _ HI (ex_intro _ _ Hl)) as HI'.
  unfold exec in Hl. rewrite (iv_panic _ HI) in Hl.
  destruct (issuers (d_sys w) !! i) as [[x []]|] eqn:Hi; try done. destruct (_ && _); [|done].
  pose proof (issue_id_keys (shared_epoch (d_sys w)) p x) as [Ke Kp].
  destruct (issue_id _ _ _) as [id x']. injection Hl as <-. cbn [fst] in Ke, Kp.
  exists id. apply K.
  - exists x', off. cbn. rewrite lookup_insert_eq. split_and!; [done|done|].
    destruct (ii_pc _ _ _ _ _ _ _ (iv_issuer _ HI' i x' (ILoaded id off)
      (lookup_insert_eq _ _ _))) as (_ & _ & Hown).
    destruct Hown as (_ & _ & -> & _); [cbn; rewrite Ke; apply (iv_epoch _ HI)|].
    apply (iv_sent _ HI').
  - intros p' g Hg. eapply gate_ok_own; [by apply HD|done|done|]. intros He Hc. cbn in *.
    split; [|done]. split; [done|]. intros _. rewrite Ke, He. apply (iv_epoch _ HI).
Qed.

Lemma holds_send max L q p i id :
  holds (DI max (MLoaded p id) L q (loaded_by i id p)) (sys_do (LSend i))
    (fun _ => DI max (MSent p id) L q (sent_by i id)).
Proof.
  apply holds_sys_do. intros w s' HD Hl.
  pose proof (reachable_inv _ (di_reach _ _ _ _ _ _ HD)) as HI.
  destruct (di_env _ _ _ _ _ _ HD) as (x & off & Hi & Hp & H0).
  unfold exec in Hl. rewrite (iv_panic _ HI), Hi in Hl. injection Hl as <-.
  split; [exists x, off; cbn; by rewrite lookup_insert_eq|].
  intros p' g Hg. eapply gate_ok_own; [by apply HD|done|done|].
  intros He [Hc Hep]. split; [|done].
  change (nsent _ p') with (default 0 (sent_after (d_sys w) id !! p')).
  unfold sent_after. cbn [counted]. rewrite Hp. destruct (decide (p = p')) as [<-|Hne].
  - specialize (Hep eq_refl). assert (Hse : bid_epoch id = shared_epoch (d_sys w))
      by (rewrite (iv_epoch _ HI); congruence).
    rewrite bool_decide_true, lookup_insert_eq by done. cbn.
    destruct (ii_pc _ _ _ _ _ _ _ (iv_issuer _ HI _ _ _ Hi)) as (_ & _ & Hown).
    rewrite (iv_epoch _ HI) in Hse. destruct (Hown Hse) as (_ & _ & Hseq & _).
    rewrite Hp in Hseq. split_and!; [done|lia|lia].
  - destruct (bool_decide _); [|done]. by rewrite lookup_insert_ne.
Qed.

Lemma di_know max m L q (E E' : Sys -> Prop) w :
  DI max m L q E w -> (E (d_sys w) -> E' (d_sys w)) -> DI max m L q E' w.
Proof. intros [A B C D F G X] H. split; try done. by apply H. Qed.

Lemma holds_new max L q p i id w0 :
  holds (fun w => w = w0 /\ DI max (MSent p id) L q (sent_by i id) w0) (sys_do (LNew i))
    (fun _ => DI max (MSent p id) L q (handle_of id (fresh_ref (acks (d_sys w0))))).
Proof.
  apply holds_pre with (DI max (MSent p id) L q (fun s => sent_by i id s /\ s = d_sys w0)).
  2:{ intros w [-> HD]. by eapply di_know. }
  apply holds_sys_do. intros w s' HD Hl.
  pose proof (reachable_inv _ (di_reach _ _ _ _ _ _ HD)) as HI.
  destruct (di_env _ _ _ _ _ _ HD) as [(x & off & Hi & H0) <-].
  unfold exec in Hl. rewrite (iv_panic _ HI), Hi in Hl. cbn [AckRef_new] in Hl. injection Hl as <-.
  split; [|intros p' g Hg; eapply gate_ok_own; [by apply HD|done|done|done]].
  unfold handle_of. cbn. split_and!; [done|lia| |].
  - rewrite lookup_alter_is_Some.
    rewrite (ii_pc _ _ _ _ _ _ _ (iv_issuer _ HI _ _ _ Hi)). eauto.
  - intros st. rewrite lookup_insert_eq. by intros [= <-].
Qed.

Lemma holds_issue max L p lane off :
  lane ∈ L -> lane_partition lane = p ->
  holds (DI max (MTurn p) L [] (fun _ => True)) (issue_batch lane off)
    (fun x => DI max (MSent p x.1) L [] (handle_of x.1 x.2)).
Proof.
  intros Hin <-. eapply holds_bind; [by apply holds_dothers|]. intros [].
  eapply holds_bind; [apply holds_load|]. intros []. apply holds_get_bind. intros w0. cbv zeta.
  intros ? t [-> [id HD]]. pose proof (di_env _ _ _ _ _ _ HD) as (x & off' & Hi & _).
  rewrite Hi. clear Hi x off'. revert w0 t HD.
  eapply holds_bind; [by apply holds_dothers, stable_loaded|]. intros [].
  eapply holds_bind; [apply holds_send|]. intros [].
  eapply holds_bind; [by apply holds_dothers, stable_sent|]. intros [].
  apply holds_get_bind. intros w1. eapply holds_bind; [apply holds_new|]. intros [].
  by apply holds_ret.
Qed.

(** ** The batch goes through the chain *)
Lemma holds_use max m L q id r l :
  match l with LClone r' | LDrop r' => r' = r | _ => False end ->
  holds (DI max m L q (handle_of id r)) (sys_do l) (fun _ => DI max m L q (handle_of id r)).
Proof.
  intros Hl. apply holds_foreign; [apply stable_handle|]. by destruct l.
Qed.

(** The batch leaves the driver's hands, failed when it is said to be. *)
Lemma holds_fate max m L id E pushed :
  (forall s, E s -> pushed = false -> failed_in (history s) id) ->
  holds (DI max m L [id] E) (upd (w_fate id pushed)) (fun _ => DI max m L [] E).
Proof.
  intros HE. apply holds_modify. intros w [A B C D F G X]. split; cbn; try done.
  - intros id' [Hin|Hin]%elem_of_app; [by apply D|]. apply list_elem_of_singleton in Hin.
    injection Hin as -> <-. by apply HE.
  - by rewrite F, app_nil_r, fmap_app.
Qed.

Lemma holds_fail_exit {A} max m L id r (a : A) :
  holds (DI max m L [id] (handle_of id r))
    (sys_do (LFail r) ;;; upd (w_fate id false) ;;; mret (Some a))
    (fun x w => match x with
                | Some _ => DI max m L [] (handle_of id r) w
                | None => DI max m L [id] (handle_of id r) w
                end).
Proof.
  eapply (holds_bind _ _ _ (fun _ => DI max m L [id]
    (fun s => handle_of id r s /\ failed_in (history s) id))).
  - apply holds_sys_do. intros w s' HD Hl.
    pose proof (reachable_inv _ (di_reach _ _ _ _ _ _ HD)) as HI.
    pose proof (di_env _ _ _ _ _ _ HD) as HE.
    split; [split; [by eapply (stable_handle L id r (LFail r))|]|].
    + destruct HE as (H0 & _ & [b Hb] & Hh). unfold exec in Hl. rewrite (iv_panic _ HI) in Hl.
      destruct (heap (acks (d_sys w)) !! r) as [st|] eqn:Est; [|done]. injection Hl as <-.
      cbn. rewrite (Hh st eq_refl). split; [done|]. exists (b_set_failed b). by rewrite lookup_alter_eq, Hb.
    + intros p g Hg. eapply gate_ok_foreign; [done|done|done|]. by apply HD.
  - intros []. eapply holds_bind; [apply holds_fate; by intros s [_ ?]|]. intros [].
    apply holds_ret. intros w HD. eapply di_know; [exact HD|]. by intros [? _].
Qed.

Lemma holds_drive_batch max L id r :
  holds (DI max MNone L [id] (handle_of id r)) (drive_batch id r)
    (fun _ => DI max MNone L [] (handle_of id r)).
Proof.
  eapply holds_bind; [by apply (holds_use _ _ _ _ id r)|]. intros [].
  eapply holds_bind; [by apply holds_neutral|]. intros [].
  eapply (holds_bind _ _ _ (fun _ => DI max MNone L [] (handle_of id r))); [|intros e;
    eapply holds_bind; [by apply (holds_use _ _ _ _ id r)|intros []; by apply holds_ret]].
  apply (holds_loop (DI max MNone L [id] (handle_of id r))).
  eapply holds_bind; [apply holds_dothers, stable_handle|]. intros [].
  eapply holds_bind; [apply holds_ask|]. intros [|at_ reason|e|e].
  - eapply holds_bind; [by apply holds_fate|]. intros []. by apply holds_ret.
  - eapply holds_bind; [by apply holds_neutral|]. intros [].
    eapply holds_bind; [apply holds_ask|]. intros [|]; [apply holds_fail_exit|].
    eapply (holds_bind _ _ _ (fun _ => DI max MNone L [id] (handle_of id r)));
      [|intros []; by apply holds_ret]. destruct reason; [|by apply holds_ret].
    eapply holds_bind; [apply holds_rejected|]. intros []. apply holds_bp_tick.
  - apply holds_fail_exit.
  - apply holds_fail_exit.
Qed.

(** The gate counts the batch that was just issued. *)
Lemma counted_gate max L s p id gs :
  (forall p' g, gs !! p' = Some g -> gate_ok max L (MSent p id) s p' g) ->
  forall p' g, count_issue id p gs !! p' = Some g -> gate_ok max L MNone s p' g.
Proof.
  intros HG p' g Hg.
  assert (Hother : forall p' g, gs !! p' = Some g -> p' <> p \/ g_epoch g <> bid_epoch id ->
    gate_ok max L MNone s p' g).
  { clear p' g Hg. intros p' g Hg Hne. eapply gate_ok_own; [by apply HG|done|done|].
    cbn. intros He Hc. destruct (decide (p = p')) as [<-|]; [|by split; [|lia]].
    destruct Hc as (Hc & _). destruct Hne; congruence. }
  unfold count_issue in Hg. destruct (gs !! p) as [g0|] eqn:E0.
  2:{ apply Hother; [done|]. left. intros ->. congruence. }
  destruct (decide (bid_epoch id = g_epoch g0)) as [Heq|Hne].
  2:{ rewrite bool_decide_false in Hg by done. apply Hother; [done|].
      destruct (decide (p' = p)) as [->|]; [right; congruence|by left]. }
  rewrite bool_decide_true in Hg by done.
  apply lookup_insert_Some in Hg as [[<- <-]|[Hne Hg]]; [|apply Hother; auto].
  destruct (HG p g0 E0) as [A B C]. split; cbn; [lia|done|]. intros He.
  destruct (C He) as [L1 L2 L3 L4]. cbn in L3. rewrite decide_True in L3 by done.
  destruct L3 as (_ & L3 & L3'). split; cbn; try done; [lia|].
  intros t Ht. destruct (L4 t Ht) as [L5 L6]. split; [done|]. cbn in L6.
  rewrite decide_True in L6 by done. lia.
Qed.

(** Turns and polls end with every batch counted. *)
Lemma turn_over max L p q (E : Sys -> Prop) w :
  DI max (MTurn p) L q E w -> DI max MNone L q E w.
Proof.
  intros [A B C D F G X]. split; try done. intros p' g Hg.
  eapply gate_ok_own; [by apply B|done|done|]. cbn. intros _ Hc. split; [done|].
  destruct (decide _); lia.
Qed.

Lemma holds_turn_over {A} max L p (m : Prog DWorld DAnswer A) R :
  holds (DI max MNone L [] (fun _ => True)) m R ->
  holds (DI max (MTurn p) L [] (fun _ => True)) m R.
Proof. intros H. eapply holds_pre; [exact H|]. intros w. apply turn_over. Qed.

Lemma holds_batch P max L lane off :
  lane ∈ L ->
  holds (DI max (MTurn (lane_partition lane)) L [] (fun _ => True))
    (handle_poll P lane (inl (Some off))) (fun _ => DI max MNone L [] (fun _ => True)).
Proof.
  intros Hin. eapply holds_bind; [by apply holds_issue|]. intros [id r]. cbn [fst snd].
  set (p := lane_partition lane).
  eapply (holds_bind _ _ _ (fun _ => DI max (MSent p id) L [id] (handle_of id r))).
  { apply holds_modify. intros w [A B C D F G X]. split; cbn; try done. by rewrite F, app_nil_r. }
  intros []. eapply holds_bind; [by apply holds_neutral|]. intros [].
  eapply (holds_bind _ _ _ (fun _ => DI max MNone L [id] (handle_of id r))).
  { apply holds_modify. intros w [A B C D F G X]. split; cbn; try done. by apply counted_gate. }
  intros []. eapply holds_bind; [apply holds_drive_batch|]. intros e.
  eapply holds_bind; [apply holds_ask|]. intros some.
  set (I := DI max MNone L [] (handle_of id r)).
  eapply (holds_bind _ _ _ (fun _ => I)).
  { destruct some; [|by apply holds_ret]. eapply holds_bind; [apply holds_ask|]. intros now.
    by apply holds_neutral. }
  intros []. eapply (holds_bind _ _ _ (fun _ => I)).
  { destruct e; [apply holds_emit|by apply holds_ret]. }
  intros []. eapply holds_bind; [by apply (holds_use _ _ _ _ id r)|]. intros [].
  apply holds_ret. intros w HD. by eapply di_know.
Qed.

Lemma holds_handle_poll P max L lane r :
  lane ∈ L ->
  holds (DI max (MTurn (lane_partition lane)) L [] (fun _ => True)) (handle_poll P lane r)
    (fun _ => DI max MNone L [] (fun _ => True)).
Proof.
  intros Hin. destruct r as [[off|]|[]]; [by apply holds_batch|..]; apply holds_turn_over; cbn [handle_poll].
  - eapply holds_bind; [by apply holds_neutral|]. intros [].
    eapply holds_bind; [by apply holds_idle_flush|]. intros []. by apply holds_ret.
  - eapply holds_bind; [by apply holds_neutral|]. intros []. by apply holds_ret.
  - eapply holds_bind; [by apply holds_neutral|]. intros []. by apply holds_ret.
  - eapply holds_bind; [by apply holds_emit|]. intros []. by apply holds_ret.
Qed.

Lemma holds_skip_lane P max L :
  holds (DI max MNone L [] (fun _ => True)) (skip_lane P)
    (fun _ => DI max MNone L [] (fun _ => True)).
Proof.
  eapply holds_bind; [by apply holds_neutral|]. intros []. apply holds_get_bind. intros w.
  eapply holds_pre; [|intros ? [-> HD]; exact HD].
  destruct (bool_decide _); [|by apply holds_ret].
  eapply holds_bind; [by apply holds_neutral|]. intros [].
  eapply holds_bind; [apply holds_park|]. intros []. by apply holds_idle_flush.
Qed.

(** Under the ceiling, the partition has room for one more batch. *)
Lemma grant_turn P L q w p :
  DI (dp_max_pending_batches P) MNone L q (fun _ => True) w ->
  at_ceiling P false p w = false ->
  DI (dp_max_pending_batches P) (MTurn p) L q (fun _ => True) w.
Proof.
  intros HD Hat. pose proof (reachable_lockstep _ (di_reach _ _ _ _ _ _ HD)) as HL.
  destruct HD as [A B C D F G X]. split; try done. intros p' g Hg.
  destruct (B p' g Hg) as [G1 G2 G3]. split; try done. intros He.
  destruct (G3 He) as [L1 L2 L3 L4]. split; try done. intros t Ht. destruct (L4 t Ht) as [L5 L6].
  split; [done|]. cbn in L6 |- *. destruct (decide (p = p')) as [<-|]; [|lia].
  unfold at_ceiling in Hat. rewrite Hg in Hat. cbn [negb andb] in Hat.
  apply bool_decide_eq_false in Hat. unfold sat_sub in Hat.
  destruct (ls_head _ _ _ HL p t Ht) as (_ & a & Ha & Hc).
  rewrite L5 in Ha. injection Ha as <-. unfold counter_get in Hat. rewrite Hc in Hat. cbn in Hat.
  lia.
Qed.

Lemma noted_gate max L q (E : Sys -> Prop) finished at_ p w :
  DI max MNone L q E w ->
  DI max MNone L q E (w_gates (note_gate finished at_ p (d_gates w)) w).
Proof.
  intros [A B C D F G X]. split; cbn; try done. unfold note_gate.
  destruct finished; [done|]. intros p' g [(-> & g0 & Hg & ->)|[_ Hg]]%lookup_alter_Some;
    [|by apply B].
  destruct (B p' g0 Hg) as [G1 G2 G3]. split; try done. intros He.
  destruct (G3 He) as [L1 L2 L3 L4]. by split.
Qed.

Lemma holds_turn P L lane :
  lane ∈ L ->
  holds (DI (dp_max_pending_batches P) MNone L [] (fun _ => True)) (turn P lane)
    (fun _ => DI (dp_max_pending_batches P) MNone L [] (fun _ => True)).
Proof.
  intros Hin. eapply holds_bind; [apply holds_ask|]. intros finished.
  apply holds_get_bind. intros w. cbv zeta.
  set (at_ := at_ceiling P finished (lane_partition lane) w).
  eapply (holds_bind _ _ _ (fun _ => DI (dp_max_pending_batches P)
    (if finished || at_ then MNone else MTurn (lane_partition lane)) L [] (fun _ => True))).
  - apply holds_modify. intros w' [-> HD]. destruct (finished || at_) eqn:Eb.
    { by apply noted_gate. }
    apply orb_false_iff in Eb as [-> Eb]. apply grant_turn; [by apply noted_gate|].
    unfold at_ceiling in *. cbn [w_gates d_gates d_sys note_gate].
    rewrite lookup_alter_eq. subst at_. by destruct (d_gates w !! lane_partition lane).
  - intros []. destruct (finished || at_).
    + eapply holds_bind; [apply holds_skip_lane|]. intros []. by apply holds_ret.
    + eapply holds_bind; [by apply holds_neutral|]. intros [].
      eapply holds_bind; [apply holds_ask|]. intros r. by apply holds_handle_poll.
Qed.

(** After a fatal error the thread holds no gate. *)
Definition DX (max : Z) (w : DWorld) : Prop := d_gates w = ∅ /\ DT max w.

Lemma dx_lanes max L w : DX max w -> DX max (w_lanes L w).
Proof.
  intros [Hg [A B C D F G X]]. split; [done|]. split; cbn; try done.
  intros p g. rewrite Hg. by rewrite lookup_empty.
Qed.

Lemma dx_others max : holds (DX max) dothers (fun _ => DX max).
Proof.
  eapply holds_bind; [apply holds_ask|]. intros ls. apply holds_get_bind. intros w.
  destruct (forallb _ ls); [|apply holds_stuck]. eapply holds_pre; [|intros ? [-> HD]; exact HD].
  apply holds_each. intros l _ w' t [Hg HD].
  pose proof (holds_step max MNone (d_lanes w') [] (fun _ => True) l
    (fun w => d_gates w = ∅ -> DX max w)) as H.
  assert (Hr : match sys_do l w' t with
    | Ran _ w1 _ => (d_gates w1 = ∅ -> DX max w1) /\ d_gates w1 = d_gates w'
    | Panicked _ => False | Stuck => True end).
  { specialize (H ltac:(intros w1 s' HD1 _ K Hg1; split; [done|]; eapply dt_di, K; [done|];
      intros p g Hp; cbn in Hg1; rewrite Hg1 in Hp; by rewrite lookup_empty in Hp) w' t HD).
    unfold sys_do in *. destruct (exec l (d_sys w')) as [s'|]; [|done].
    by destruct (panicked s'). }
  destruct (sys_do l w' t) as [[] w1 t1|w1|]; try done. destruct Hr as [Hr Hg1]. apply Hr.
  congruence.
Qed.

Lemma dx_upd max f :
  (forall w, d_sys (f w) = d_sys w /\ d_gates (f w) = d_gates w /\ d_visited (f w) = d_visited w /\
     d_fates (f w) = d_fates w /\ d_polled (f w) = d_polled w /\ d_lanes (f w) = d_lanes w) ->
  holds (DX max) (upd f) (fun _ => DX max).
Proof.
  intros Hf. apply holds_modify. intros w [Hg HD]. split; [by rewrite (proj1 (proj2 (Hf w)))|].
  by apply (dt_upd max f Hf w []).
Qed.

Lemma holds_park_until_shutdown max :
  holds (DX max) park_until_shutdown (fun _ => DX max).
Proof.
  apply (holds_loop (DX max)). eapply holds_bind; [apply dx_others|]. intros [].
  eapply holds_bind; [apply holds_ask|]. intros [|]; [|by apply holds_ret]. cbn [negb].
  eapply holds_bind; [apply holds_ask|].
  intros [[lane gate|gone b d| |gone|b d]|]; try by apply holds_ret.
  - apply holds_get_bind. intros w. eapply holds_pre; [|intros ? [-> HD]; exact HD].
    eapply (holds_bind _ _ _ (fun _ => DX max)).
    { apply holds_modify. intros w'. apply dx_lanes. }
    intros []. eapply holds_bind; [by apply dx_upd|]. intros []. by apply holds_ret.
  - apply holds_get_bind. intros w. eapply holds_pre; [|intros ? [-> HD]; exact HD].
    eapply (holds_bind _ _ _ (fun _ => DX max)).
    { apply holds_modify. intros w'. apply dx_lanes. }
    intros []. by apply holds_ret.
  - eapply (holds_bind _ _ _ (fun _ => DX max)).
    { apply holds_modify. intros w'. apply dx_lanes. }
    intros []. eapply holds_bind; [by apply dx_upd|]. intros []. by apply holds_ret.
Qed.

(** A turn, and the parking of the thread when it was fatal. *)
Lemma holds_turn_end P L lane :
  lane ∈ L ->
  holds (DI (dp_max_pending_batches P) MNone L [] (fun _ => True))
    (fatal ← turn P lane;
     if (fatal : bool) then
       upd (fun w => w_gates ∅ (w_no_chain w)) ;;; e ← park_until_shutdown; mret (Some e)
     else mret None) (fun _ => DT (dp_max_pending_batches P)).
Proof.
  intros Hin. eapply holds_bind; [by apply holds_turn|].
  intros [|]; [|apply holds_ret; intros w; apply dt_di].
  eapply (holds_bind _ _ _ (fun _ => DX (dp_max_pending_batches P))).
  { apply holds_modify. intros w [A B C D F G X]. split; [done|]. split; cbn; try done. }
  intros []. eapply holds_bind; [apply holds_park_until_shutdown|]. intros e.
  apply holds_ret. by intros w [_ ?].
Qed.

Lemma holds_iterate P :
  0 <= dp_max_pending_batches P ->
  holds (DT (dp_max_pending_batches P)) (iterate P) (fun _ => DT (dp_max_pending_batches P)).
Proof.
  intros Hmax. eapply holds_bind; [by apply holds_drain_control|].
  intros [e|]; [by apply holds_ret|].
  eapply holds_bind; [apply dt_of_di; intros L; apply holds_bp_tick|]. intros [].
  apply holds_get_bind. intros w. destruct (is_paused (d_bp w)); [apply holds_ret; by intros w' [-> ?]|].
  destruct (d_lanes w !! _) as [lane|] eqn:El.
  - apply list_elem_of_lookup_2 in El.
    eapply (holds_pre (DI _ MNone (d_lanes w) [] (fun _ => True))); [|intros ? [-> HD]; exact HD].
    eapply holds_bind; [by apply holds_neutral|]. intros []. by apply holds_turn_end.
  - eapply holds_pre; [|intros ? [-> HD]; exact HD].
    eapply holds_bind; [apply dt_of_di; intros L; apply holds_park|]. intros [].
    eapply holds_bind; [apply dt_of_di; intros L; by apply holds_idle_flush|]. intros [].
    by apply holds_ret.
Qed.

Lemma holds_run_driver P n :
  0 <= dp_max_pending_batches P ->
  holds (DT (dp_max_pending_batches P)) (run_driver P n)
    (fun _ => DT (dp_max_pending_batches P)).
Proof.
  intros Hmax. induction n as [|n IH]; [by apply holds_ret|].
  eapply holds_bind; [by apply holds_iterate|]. intros [e|]; [by apply holds_ret|exact IH].
Qed.

Lemma driver_init_dt max s c : reachable s -> DT max (driver_init s c).
Proof.
  intros Hr. split; cbn; try done.
  - intros s' G Hin p g t. apply list_elem_of_singleton in Hin. injection Hin as -> ->.
    by rewrite lookup_empty.
  - intros id Hin. by apply elem_of_nil in Hin.
Qed.

(** ** Properties *)
Lemma driver_inv P n s c t r w rest :
  0 <= dp_max_pending_batches P -> reachable s ->
  run_driver P n (driver_init s c) t = Ran r w rest -> DT (dp_max_pending_batches P) w.
Proof.
  intros Hmax Hr. exact (holds_run _ _ _ _ _ _ _ _ (holds_run_driver P n Hmax)
    (driver_init_dt _ s c Hr)).
Qed.

(** A driver with a ceiling of two batches: it is given a lane, pushes a first
    batch, fails a second on shutdown, finds the partition at its ceiling once
    both are registered, and shuts down. *)
Definition drive_params : DriverParams := mkDriverParams 0 100 2.
Definition drive_sys : Sys :=
  default sys_init (exec_all [LSpawn 0; LBegin [0] 1 {[0 := 0%nat]}] sys_init).
Definition drive_tape : list DAnswer :=
  let idle ls := [DOthers ls; DMessage None; DFlag true; DUsage 0; DClock 1] in
  let issue := [DOthers []; DOthers []; DOthers []; DOthers []] in
  [DOthers []; DMessage (Some (AddLane (mkLane 7 0 0) (Some (mkPendingGate 1 0))))] ++ idle [] ++
  [DFlag false; DPoll (inl (Some 9))] ++ issue ++ [DPush PushDone; DFlag true; DClock 2] ++
  idle [] ++ [DFlag false; DPoll (inl (Some 19))] ++ issue ++
  [DPush (PushBlocked 1 NotReady); DFlag true; DFlag true; DClock 3] ++
  idle [LDrainStart; LDrainStep; LDrainStep] ++ [DFlag false; DMessage (Some (Shutdown 0 50)); DClock 4; DOthers []; DPush PushDone].
Definition drive_bp : WatermarkController := with_clock (Backpressure.mkParams 100 50 10).
Definition drive_run : Outcome DWorld DAnswer (option DriverExit) :=
  run_driver drive_params 4 (driver_init drive_sys drive_bp) drive_tape.
Definition drive_world : DWorld :=
  match drive_run with Ran _ w _ => w | _ => driver_init drive_sys drive_bp end.

Lemma drive_runs : drive_run = Ran (Some ExitCompleted) drive_world [].
Proof. vm_compute. reflexivity. Qed.

Lemma drive_sys_reachable : reachable drive_sys.
Proof. apply (exec_all_reachable [LSpawn 0; LBegin [0] 1 {[0 := 0%nat]}]). vm_compute. reflexivity. Qed.

(** C21: the pending ceiling. Whatever the other threads do between the driver's
    steps, in every state the checkpoint system goes through while the driver
    runs, a partition whose gate is of the current epoch has at most
    [max_pending_batches] registered batches its watermark has not passed. *)
Theorem driver_pending_ceiling (P : DriverParams) (n : nat) (s : Sys) (c : WatermarkController)
    (t : list DAnswer) (r : option DriverExit) (w : DWorld) (rest : list DAnswer) :
  0 <= dp_max_pending_batches P -> reachable s ->
  run_driver P n (driver_init s c) t = Ran r w rest ->
  (forall s' G, (s', G) ∈ d_visited w -> under_ceiling (dp_max_pending_batches P) s' G) /\
  under_ceiling (dp_max_pending_batches P) (d_sys w) (d_gates w).
Proof.
  intros Hmax Hr Hrun. pose proof (driver_inv _ _ _ _ _ _ _ _ Hmax Hr Hrun) as [A B C _ _ _ _].
  split; [done|]. by eapply gates_under_ceiling.
Qed.

(** The demo's state with both batches registered. *)
Definition drive_full : Sys * gmap Z GateState := default (drive_sys, ∅) (last (d_visited drive_world)).

Lemma driver_pending_ceiling_witness :
  Tracker.pending <$> trackers (ck drive_full.1) !! 0 = Some 2%nat /\
  g_epoch <$> drive_full.2 !! 0 = Some (ck_epoch (ck drive_full.1)) /\
  under_ceiling 2 drive_full.1 drive_full.2.
Proof.
  split; [vm_compute; reflexivity|]. split; [vm_compute; reflexivity|].
  apply (driver_pending_ceiling drive_params 4 drive_sys drive_bp drive_tape (Some ExitCompleted)
    drive_world []); [cbn; lia|exact drive_sys_reachable|exact drive_runs|].
  apply (list_elem_of_lookup_2 _ 16%nat). vm_compute. reflexivity.
Defined.

(** A failed batch stays failed. *)
Lemma failed_forever s s' id :
  Inv s -> rtc sys_step s s' -> failed_in (history s) id -> failed_in (history s') id.
Proof.
  intros HI Hr. revert HI. induction Hr as [|s1 s2 s3 Hs _ IH]; [done|]. intros HI Hf.
  apply IH; [by eapply inv_step|]. destruct Hs as [l Hl]. by eapply failed_kept.
Qed.

(** C22: no batch slips through the driver. Every batch a poll yielded was pushed
    whole into the chain or failed, in the order polled; and whatever happens
    afterwards, a watermark reported for a failed batch's partition in its epoch
    ends before that batch. *)
Theorem driver_batch_fate (P : DriverParams) (n : nat) (s : Sys) (c : WatermarkController)
    (t : list DAnswer) (r : option DriverExit) (w : DWorld) (rest : list DAnswer) :
  0 <= dp_max_pending_batches P -> reachable s ->
  run_driver P n (driver_init s c) t = Ran r w rest ->
  d_polled w = (d_fates w).*1 /\
  forall id s' x, (id, false) ∈ d_fates w -> rtc sys_step (d_sys w) s' ->
    (bid_partition id, bid_epoch id, x) ∈ reported s' ->
    exists k b, 0 <= k /\
      history s' !! mkBatchId (bid_partition id) (bid_epoch id) k = Some b /\
      x = wrap_i64 (b_off b + 1) /\ k < bid_seq id.
Proof.
  intros Hmax Hr Hrun. pose proof (driver_inv _ _ _ _ _ _ _ _ Hmax Hr Hrun) as [A _ _ D F _ _].
  split; [by rewrite F, app_nil_r|]. intros id s' x Hid Hrt Hx.
  pose proof (failed_forever _ _ _ (reachable_inv _ A) Hrt (D id Hid)) as (H0 & b0 & Hb0 & Hf0).
  assert (HI : Inv s') by (apply reachable_inv; unfold reachable; by etrans).
  destruct (iv_reported _ HI _ _ _ Hx) as (k & b & Hk & Hb & -> & Hall). exists k, b.
  split_and!; try done. apply Z.lt_nge. intros Hle. destruct (Hall (bid_seq id)) as (b1 & Hb1 & _ & Hn); [lia|].
  assert (id = mkBatchId (bid_partition id) (bid_epoch id) (bid_seq id)) as E by by destruct id.
  rewrite <- E in Hb1. congruence.
Qed.

(** The demo's system once its controller has finished the drain and advanced. *)
Definition drive_later : list Label := [LDrainStep; LDrainStep; LDrainStep; LDrainStep; LTake (fun _ => 9)].
Definition drive_after : Sys := default sys_init (exec_all drive_later (d_sys drive_world)).

Lemma drive_later_steps : rtc sys_step (d_sys drive_world) drive_after.
Proof. apply (exec_all_reachable drive_later). vm_compute. reflexivity. Qed.

Lemma driver_batch_fate_witness :
  (mkBatchId 0 1 1, false) ∈ d_fates drive_world /\ (0, 1, 10) ∈ reported drive_after /\
  exists k b, 0 <= k /\ history drive_after !! mkBatchId 0 1 k = Some b /\
    10 = wrap_i64 (b_off b + 1) /\ k < 1.
Proof.
  assert (Hf : (mkBatchId 0 1 1, false) ∈ d_fates drive_world)
    by (apply (list_elem_of_lookup_2 _ 1%nat); vm_compute; reflexivity).
  assert (Hx : (0, 1, 10) ∈ reported drive_after)
    by (apply (list_elem_of_lookup_2 _ 0%nat); vm_compute; reflexivity).
  split; [exact Hf|]. split; [exact Hx|].
  apply (proj2 (driver_batch_fate drive_params 4 drive_sys drive_bp drive_tape
    (Some ExitCompleted) drive_world [] ltac:(cbn; lia) drive_sys_reachable drive_runs)
    (mkBatchId 0 1 1) drive_after 10 Hf drive_later_steps Hx).
Defined.
