(* ===== verification/Revocation.v ===== *)
(** * A revocation, from the controller through the drivers

    [revoke_lanes] of the controller sizes nothing itself: the barrier it is
    given expects one arrival per lane. It arrives for the lanes no thread owns
    and sends each owner the lanes it is to stop; a driver arrives once for each
    of them, also when it has parked after a fatal error. The counts add up, so
    the controller's wait ends exactly when the last owner has served its
    message. *)

From stdpp Require Import base list gmap.
From Stdlib Require Import ZArith Lia.
From S2P Require Import Prelude Ack Tracker Checkpointer CheckpointSystem EndCheck Backpressure.
From S2P Require Import Oracle Controller Driver.

(** ** The barrier counts down *)
Lemma arrivals_barrier (n j : nat) :
  (j <= n)%nat -> Z.of_nat n <= U64_MAX ->
  Nat.iter j arrive (barrier_new (Z.of_nat n)) =
    mkBarrier (Z.of_nat n - Z.of_nat j) (bool_decide (j = n)).
Proof.
  intros Hj Hn. induction j as [|j IH].
  - unfold barrier_new. cbn. f_equal; [lia|]. apply bool_decide_ext. lia.
  - cbn. change (nat_rect _ _ _ j) with (Nat.iter j arrive (barrier_new (Z.of_nat n))).
    rewrite IH by lia. unfold arrive. cbn [remaining done]. f_equal.
    + unfold wrap_u64, U64_MAX in *. rewrite Z.mod_small; lia.
    + rewrite (bool_decide_false (j = n)) by lia. apply bool_decide_ext. lia.
Qed.

Lemma arrive_all b bs (all : list Barrier) x :
  Forall (eq b) bs -> all !! b = Some x ->
  foldl (fun all i => alter arrive i all) all bs !! b = Some (Nat.iter (length bs) arrive x).
Proof.
  revert all x. induction bs as [|i bs IH]; intros all x Hb Hx; [done|].
  apply Forall_cons in Hb as [<- Hb]. cbn [foldl length]. rewrite Nat.iter_succ_r.
  apply IH; [done|]. by rewrite list_lookup_alter_eq, Hx.
Qed.

(** ** The lanes of a revocation, by owner *)

Definition unowned (a : gmap Z (Z * nat)) (lanes : list Z) : list Z :=
  filter (fun l => a !! l = None) lanes.

Lemma sum_ext (f g : nat -> nat) l :
  (forall j, j ∈ l -> g j = f j) -> sum_list_with g l = sum_list_with f l.
Proof.
  induction l as [|j l IH]; intros H; [done|]. cbn.
  rewrite (H j) by apply list_elem_of_here. f_equal. apply IH. intros i Hi. apply H. by right.
Qed.

Lemma sum_one (f g : nat -> nat) i k m :
  g i = S (f i) -> (forall j, j <> i -> g j = f j) -> (m <= i < m + k)%nat ->
  sum_list_with g (seq m k) = S (sum_list_with f (seq m k)).
Proof.
  intros Hi Hne. revert m. induction k as [|k IH]; intros m Hm; [lia|]. cbn.
  destruct (decide (m = i)) as [->|Hm'].
  - rewrite Hi, (sum_ext f g (seq (S i) k)); [lia|]. intros j Hj%elem_of_seq. apply Hne. lia.
  - rewrite Hne, IH by lia. lia.
Qed.

(** Each lane is owned by one thread or by none. *)
Lemma owners_add_up a k lanes :
  (forall l p i, a !! l = Some (p, i) -> (i < k)%nat) ->
  (length (unowned a lanes) + sum_list_with (fun i => length (owned_by a i lanes)) (seq 0 k))%nat
    = length lanes.
Proof.
  intros Ha. unfold unowned, owned_by. induction lanes as [|l lanes IH].
  { cbn. induction (seq 0 k); by cbn. }
  rewrite filter_cons. cbn [length]. destruct (a !! l) as [[p i]|] eqn:El.
  - rewrite decide_False by done. rewrite <- IH.
    rewrite (sum_one (fun i => length (filter (fun l => snd <$> a !! l = Some i) lanes))
               _ i k 0); [lia| | |specialize (Ha _ _ _ El); lia].
    + by rewrite filter_cons_True by (by rewrite El).
    + intros j Hj. rewrite filter_cons_False; [done|]. rewrite El. cbn. congruence.
  - rewrite decide_True by done. cbn [length]. rewrite <- IH. cbn [Nat.add]. f_equal. f_equal.
    apply sum_ext. intros j _. by rewrite filter_cons_False by (by rewrite El).
Qed.

(** ** The controller's side *)

(** What one thread's queue gets. *)
Definition stop_messages (a : gmap Z (Z * nat)) (lanes : list Z) (b : nat) (deadline : Z) (i : nat)
    : list ThreadControl :=
  if decide (owned_by a i lanes = []) then [] else [StopLanes (owned_by a i lanes) b deadline].

Lemma arrive_unowned a b lanes w t w' t' x :
  each (fun l => when (bool_decide (a !! l = None)) (upd_barriers (alter arrive b))) lanes w t
    = Ran tt w' t' -> barriers w !! b = Some x ->
  barriers w' !! b = Some (Nat.iter (length (unowned a lanes)) arrive x) /\
  control_txs w' = control_txs w /\ t' = t.
Proof.
  revert w x. induction lanes as [|l lanes IH]; intros w x H Hx; [by injection H as <- <-|].
  cbn in H. unfold unowned. destruct (a !! l) as [o|] eqn:El.
  - rewrite bool_decide_false in H by done. rewrite filter_cons_False by (by rewrite El).
    by apply IH.
  - rewrite bool_decide_true in H by done. rewrite filter_cons_True by done.
    cbn [length]. rewrite Nat.iter_succ_r.
    edestruct IH as (H1 & H2 & H3); [exact H| |by rewrite H1, H2].
    cbn. by rewrite list_lookup_alter_eq, Hx.
Qed.

Lemma send_to_run i m w t w' t' :
  send_to i m w t = Ran tt w' t' ->
  barriers w' = barriers w /\ control_txs w' = alter (fun q => q ++ [m]) i (control_txs w) /\ t' = t.
Proof.
  unfold send_to, mbind, prog_bind. cbn. destruct (bool_decide _); [|done]. by intros [= <- <-].
Qed.

Lemma send_stops a lanes b deadline ths w t w' t' :
  NoDup ths ->
  each (fun i => when (bool_decide (owned_by a i lanes <> []))
                   (send_to i (StopLanes (owned_by a i lanes) b deadline))) ths w t
    = Ran tt w' t' ->
  barriers w' = barriers w /\ t' = t /\
  forall i q, control_txs w !! i = Some q ->
    control_txs w' !! i = Some (q ++ if decide (i ∈ ths) then stop_messages a lanes b deadline i else []).
Proof.
  revert w. induction ths as [|j ths IH]; intros w Hnd H.
  { injection H as <- <-. split_and!; [done|done|]. intros i q Hq.
    rewrite decide_False by apply not_elem_of_nil. by rewrite app_nil_r. }
  apply NoDup_cons in Hnd as [Hj Hnd]. cbn [each] in H. unfold stop_messages.
  destruct (decide (owned_by a j lanes = [])) as [Eo|Eo].
  - rewrite bool_decide_false in H by naive_solver. destruct (IH w Hnd H) as (-> & -> & Hq).
    split_and!; [done|done|]. intros i q Hi. rewrite (Hq i q Hi). do 2 f_equal.
    destruct (decide (i = j)) as [->|Hne].
    + destruct (decide (j ∈ ths)); [done|].
      destruct (decide (j ∈ j :: ths)) as [_|[]]; [|apply list_elem_of_here].
      by destruct (decide (owned_by a j lanes = [])).
    + rewrite (decide_ext (i ∈ j :: ths) (i ∈ ths)) by set_solver. done.
  - rewrite bool_decide_true in H by done. cbn [when] in H. unfold mbind at 1, prog_bind at 1 in H.
    destruct (send_to _ _ w t) as [[] w1 t1| |] eqn:E; try done.
    apply send_to_run in E as (Eb & Ec & ->).
    destruct (IH w1 Hnd H) as (E1 & -> & Hq). split_and!; [congruence|done|]. intros i q Hi.
    destruct (decide (i = j)) as [->|Hne].
    + rewrite (Hq j (q ++ [StopLanes (owned_by a j lanes) b deadline])).
      2:{ by rewrite Ec, list_lookup_alter_eq, Hi. }
      destruct (decide (j ∈ ths)); [done|]. rewrite app_nil_r.
      destruct (decide (j ∈ j :: ths)) as [_|[]]; [|apply list_elem_of_here].
      by destruct (decide (owned_by a j lanes = [])).
    + rewrite (Hq i q) by (by rewrite Ec, list_lookup_alter_ne).
      rewrite (decide_ext (i ∈ j :: ths) (i ∈ ths)) by set_solver. done.
Qed.

Lemma stop_owners_run lanes b deadline w t w' t' x :
  stop_owners lanes b deadline w t = Ran tt w' t' -> barriers w !! b = Some x ->
  let a := assignment (state w) in
  barriers w' !! b = Some (Nat.iter (length (unowned a lanes)) arrive x) /\ t' = t /\
  forall i q, control_txs w !! i = Some q ->
    control_txs w' !! i = Some (q ++ stop_messages a lanes b deadline i).
Proof.
  intros H Hx a. unfold stop_owners in H. unfold mbind at 1, prog_bind at 1 in H. cbn [get] in H.
  unfold mbind at 1, prog_bind at 1 in H.
  destruct (each _ lanes w t) as [[] w1 t1| |] eqn:E1; try done.
  destruct (arrive_unowned _ _ _ _ _ _ _ _ E1 Hx) as (Hb & Hc & ->).
  destruct (send_stops _ _ _ _ _ _ _ _ _ (NoDup_seq _ _) H) as (E & -> & Hq).
  split_and!; [by rewrite E|done|]. intros i q Hi. rewrite (Hq i q) by (by rewrite Hc).
  rewrite decide_True; [done|]. apply elem_of_seq. apply lookup_lt_Some in Hi. lia.
Qed.

(** ** The drivers' side *)
Lemma keeps_sys_do {X} (f : DWorld -> X) l :
  (forall s w, f (w_sys s w) = f w) -> keeps f (sys_do l).
Proof.
  intros Hf w t a w' t' H. unfold sys_do in H. destruct (exec l (d_sys w)) as [s|]; [|done].
  destruct (panicked s); [done|]. injection H as _ <- _. apply Hf.
Qed.

Lemma keeps_dothers {X} (f : DWorld -> X) :
  (forall s w, f (w_sys s w) = f w) -> keeps f dothers.
Proof.
  intros Hf. apply keeps_bind; [apply keeps_ask|]. intros ls.
  apply keeps_bind; [apply keeps_get|]. intros w. destruct (forallb _ ls); [|apply keeps_stuck].
  apply keeps_each. intros l. by apply keeps_sys_do.
Qed.

(** A flush neither arrives nor touches the lanes. *)
Lemma keeps_flush th d : keeps d_arrivals (flush_until th d).
Proof.
  apply keeps_loop. apply keeps_bind; [by apply keeps_dothers|]. intros [].
  apply keeps_bind; [apply keeps_ask|]. intros [|r reason|e|e].
  - apply keeps_ret.
  - apply keeps_bind; [apply keeps_bind; [apply keeps_ask|intros now; by apply keeps_modify]|].
    intros []. apply keeps_bind; [apply keeps_ask|]. intros now.
    destruct (bool_decide _); apply keeps_ret.
  - apply keeps_bind; [by apply keeps_modify|]. intros []. apply keeps_ret.
  - apply keeps_stuck.
Qed.

(** How many of the lanes go. *)
Lemma released_count gone (L : list Lane) :
  NoDup (lane_id <$> L) -> NoDup gone -> (forall l, l ∈ gone -> l ∈ lane_id <$> L) ->
  (length L - length (filter (fun l => stays gone l = true) L))%nat = length gone.
Proof.
  intros HL Hg Hsub.
  assert (Hsplit : forall L : list Lane, length L =
    (length (filter (fun l => stays gone l = true) L) +
     length (filter (fun l => lane_id l ∈ gone) L))%nat).
  { clear HL Hsub L. intros L. induction L as [|l L IH]; [done|]. rewrite !filter_cons. cbn [length].
    assert (Hs : stays gone l = true <-> lane_id l ∉ gone) by apply bool_decide_eq_true.
    destruct (decide (lane_id l ∈ gone)), (decide (stays gone l = true)); cbn [length];
      tauto || lia. }
  rewrite (Hsplit L). rewrite <- (length_fmap lane_id (filter (fun l => lane_id l ∈ gone) L)).
  assert (HP : lane_id <$> filter (fun l => lane_id l ∈ gone) L ≡ₚ gone).
  { apply NoDup_Permutation; [|done|].
    - eapply sublist_NoDup; [exact HL|]. apply fmap_sublist, sublist_filter.
    - intros l. rewrite list_elem_of_fmap. split.
      + intros (x & -> & Hx). by apply list_elem_of_filter in Hx as [? _].
      + intros Hl. specialize (Hsub l Hl). apply list_elem_of_fmap in Hsub as (x & -> & Hx).
        exists x. split; [done|]. by apply list_elem_of_filter. }
  rewrite HP. lia.
Qed.

(** A driver serves a message in its loop, or parked after a fatal error. *)
Definition serves (P : DriverParams) (m : ThreadControl) (d d' : DWorld) : Prop :=
  (exists t e rest, handle_control P m d t = Ran e d' rest) \/
  (exists ls e rest, fatal_round d (DOthers ls :: DFlag true :: DMessage (Some m) :: rest)
                     = Ran e d' rest).

Lemma each_sys_tape ls : forall w t a w' t', each sys_do ls w t = Ran a w' t' -> t' = t.
Proof.
  induction ls as [|l ls IH]; intros w t a w' t' H; [by injection H as <- <- <-|].
  cbn in H. unfold mbind, prog_bind, sys_do at 1 in H. destruct (exec l (d_sys w)) as [s|]; [|done].
  destruct (panicked s); [done|]. by eapply IH.
Qed.

Lemma dothers_tape ls w t a w' t' : dothers w (DOthers ls :: t) = Ran a w' t' -> t' = t.
Proof.
  unfold dothers, mbind, prog_bind. cbn. destruct (forallb _ ls); [|done]. apply each_sys_tape.
Qed.

Lemma serves_stop P gone b deadline d d' :
  NoDup (lane_id <$> d_lanes d) -> NoDup gone -> (forall l, l ∈ gone -> l ∈ lane_id <$> d_lanes d) ->
  serves P (StopLanes gone b deadline) d d' ->
  d_arrivals d' = d_arrivals d ++ replicate (length gone) b.
Proof.
  intros HL Hg Hsub. rewrite <- (released_count gone (d_lanes d)) by done.
  intros [(t & e & rest & H)|(ls & e & rest & H)].
  - cbn in H. unfold release_lanes, mbind, prog_bind, get, upd, modify in H. cbn in H.
    destruct (when _ _ _ _) as [[] w1 t1| |] eqn:E; try done. injection H as _ <- _.
    cbn [w_arrive d_arrivals]. f_equal. revert E. unfold when. destruct (bool_decide _).
    + by intros ->%keeps_flush.
    + by intros [= <- _].
  - unfold fatal_round in H. unfold mbind at 1, prog_bind at 1 in H.
    destruct (dothers d _) as [[] w1 t1| |] eqn:E; try done.
    pose proof (keeps_dothers d_arrivals ltac:(done) _ _ _ _ _ E) as Ea.
    pose proof (keeps_dothers d_lanes ltac:(done) _ _ _ _ _ E) as El.
    apply dothers_tape in E as ->. cbn in H. injection H as _ <-.
    cbn [w_arrive w_lanes d_arrivals]. by rewrite Ea, El.
Qed.

(** ** The property *)

(** The messages a thread got, and its arrivals since. *)
Definition new_messages (i : nat) (w w' : World) : list ThreadControl :=
  drop (length (default [] (control_txs w !! i))) (default [] (control_txs w' !! i)).
Definition arrived (d d' : DWorld) : list nat := drop (length (d_arrivals d)) (d_arrivals d').

(** The drivers hold the lanes the controller has assigned to them. *)
Record in_step (w : World) (ds : list DWorld) : Prop := mk_in_step {
  is_threads : length ds = length (control_txs w);
  is_owned : forall l p i, assignment (state w) !! l = Some (p, i) -> (i < length ds)%nat;
  is_lanes : forall i d, ds !! i = Some d ->
    NoDup (lane_id <$> d_lanes d) /\
    forall l, snd <$> assignment (state w) !! l = Some i -> l ∈ lane_id <$> d_lanes d;
}.

Inductive serves_all (P : DriverParams) : list ThreadControl -> DWorld -> DWorld -> Prop :=
  | serves_nil d : serves_all P [] d d
  | serves_cons m ms d d1 d2 : serves P m d d1 -> serves_all P ms d1 d2 -> serves_all P (m :: ms) d d2.

Lemma thread_arrives P w w' rest lanes b deadline t ds i d d' x :
  NoDup lanes -> in_step w ds -> barriers w !! b = Some x ->
  stop_owners lanes b deadline w t = Ran tt w' rest ->
  ds !! i = Some d -> serves_all P (new_messages i w w') d d' ->
  arrived d d' = replicate (length (owned_by (assignment (state w)) i lanes)) b.
Proof.
  intros Hnd [Ht _ Hl] Hx Hrun Hd Hs.
  destruct (stop_owners_run _ _ _ _ _ _ _ _ Hrun Hx) as (_ & _ & Hq).
  destruct (lookup_lt_is_Some_2 (control_txs w) i) as [q Hi].
  { rewrite <- Ht. by eapply lookup_lt_Some. }
  unfold new_messages in Hs. rewrite (Hq i q Hi), Hi in Hs. cbn [from_option id] in Hs.
  rewrite drop_app_length in Hs. unfold stop_messages in Hs.
  destruct (Hl i d Hd) as [Hids Hown]. unfold arrived.
  destruct (decide _) as [E|_]; inversion Hs as [|m ms ? d1 ? H1 H2]; subst.
  { rewrite E. by rewrite drop_all. }
  inversion H2; subst. apply serves_stop in H1 as ->.
  - by rewrite drop_app_length.
  - done.
  - by apply NoDup_filter.
  - intros l Hin. apply Hown. by apply list_elem_of_filter in Hin as [? _].
Qed.

Lemma arrivals_add_up (f : nat -> nat) b ds : forall ds',
  length ds' = length ds ->
  (forall i d d', ds !! i = Some d -> ds' !! i = Some d' -> arrived d d' = replicate (f i) b) ->
  concat (zip_with arrived ds ds') = replicate (sum_list_with f (seq 0 (length ds))) b.
Proof.
  revert f. induction ds as [|d ds IH]; intros f [|d' ds'] Hlen Hall; try done.
  cbn [zip_with concat length seq sum_list_with].
  rewrite (Hall 0%nat d d'), replicate_add by done. f_equal. rewrite (IH (fun i => f (S i)) ds').
  - f_equal. rewrite <- fmap_S_seq. generalize (seq 0 (length ds)).
    induction l as [|i l IHl]; [done|]. cbn. by rewrite IHl.
  - by injection Hlen.
  - intros i x y Hx Hy. by apply (Hall (S i)).
Qed.

Lemma thread_arrivals P w w' rest lanes b deadline t ds ds' x :
  NoDup lanes -> in_step w ds -> barriers w !! b = Some x ->
  stop_owners lanes b deadline w t = Ran tt w' rest ->
  length ds' = length ds ->
  (forall i d d', ds !! i = Some d -> ds' !! i = Some d' ->
     serves_all P (new_messages i w w') d d') ->
  concat (zip_with arrived ds ds') =
    replicate (sum_list_with (fun i => length (owned_by (assignment (state w)) i lanes))
                 (seq 0 (length ds))) b.
Proof.
  intros Hnd Hin Hx Hrun Hlen Hs.
  assert (Hall : forall i d d', ds !! i = Some d -> ds' !! i = Some d' ->
    arrived d d' = replicate (length (owned_by (assignment (state w)) i lanes)) b).
  { intros i d d' Hd Hd'. by eapply thread_arrives; eauto. }
  by apply (arrivals_add_up (fun i => length (owned_by (assignment (state w)) i lanes))).
Qed.

(** C23: a revocation completes. Whatever lanes are revoked with a barrier sized
    by their number, when the drivers hold the lanes the controller assigned to
    them and each serves the messages [revoke_lanes] sent it, in its loop or
    parked after a fatal error, the arrivals release the controller's wait; as
    long as one is missing, the wait goes on. The wait's own end, the clock plus
    its timeout, is within [Instant]'s range. *)
Theorem revocation_barrier_completes (P : DriverParams) (lanes : list Z) (b : nat) (deadline : Z)
    (w w' : World) (t rest : list Answer) (ds ds' : list DWorld) :
  NoDup lanes -> Z.of_nat (length lanes) <= U64_MAX -> in_step w ds ->
  barriers w !! b = Some (barrier_new (Z.of_nat (length lanes))) ->
  stop_owners lanes b deadline w t = Ran tt w' rest ->
  length ds' = length ds ->
  (forall i d d', ds !! i = Some d -> ds' !! i = Some d' ->
     serves_all P (new_messages i w w') d d') ->
  let arrivals := concat (zip_with arrived ds ds') in
  forall bs t' now timeout, bs `prefix_of` arrivals -> now + timeout <= INSTANT_MAX -> exists w1,
    wait b timeout w' (Clock now :: Arrivals bs :: t') =
      Ran (bool_decide (bs = arrivals)) w1 t'.
Proof.
  intros Hnd Hmax Hin Hb Hrun Hlen Hs arrivals bs t' now timeout [more Hpre] Hnow.
  pose proof (thread_arrivals _ _ _ _ _ _ _ _ _ _ _ Hnd Hin Hb Hrun Hlen Hs) as Harr.
  fold arrivals in Harr. pose proof (owners_add_up _ _ lanes (is_owned _ _ Hin)) as Hsum.
  set (N := sum_list_with _ _) in *. assert (HN : length arrivals = N)
    by (rewrite Harr; apply length_replicate).
  assert (Hle : (length bs + length more = N)%nat) by (rewrite <- HN, Hpre, length_app; done).
  assert (Hall : Forall (eq b) bs).
  { apply (Forall_app (eq b) bs more). rewrite <- Hpre, Harr. by apply Forall_replicate. }
  destruct (stop_owners_run _ _ _ _ _ _ _ _ Hrun Hb) as (Hw' & _ & _).
  assert (Hadd : checked_add now timeout = Some (now + timeout)) by by apply checked_add_Some.
  eexists. unfold wait, add_instant, or_panic, mbind, prog_bind. cbn. rewrite Hadd. cbn. f_equal.
  rewrite (arrive_all b bs _ _ Hall Hw'). cbn. rewrite <- Nat.iter_add, arrivals_barrier by lia. cbn.
  apply bool_decide_ext. split; [|intros ->; lia]. intros Heq.
  assert (length more = 0%nat) as ->%nil_length_inv by lia. by rewrite Hpre, app_nil_r.
Qed.

(** Three lanes are revoked: lane 7 of thread 0, lane 8 of thread 1, which has
    parked, and lane 9 of no thread. *)
Definition rev_world : World :=
  let w := world_init 2 in
  mkWorld (sys w) (with_assignment (<[7 := (0, 0%nat)]> {[8 := (1, 1%nat)]}) (state w)) (locals w)
    (control_txs w) [barrier_new 3] false [].
Definition rev_driver (l : Lane) : DWorld :=
  w_lanes [l] (driver_init sys_init (with_clock (Backpressure.mkParams 100 50 10))).
Definition rev_drivers : list DWorld := [rev_driver (mkLane 7 0 0); rev_driver (mkLane 8 1 1)].
Definition rev_params : DriverParams := mkDriverParams 0 100 2.
Definition rev_served : list DWorld :=
  let d0 := rev_driver (mkLane 7 0 0) in
  let d1 := rev_driver (mkLane 8 1 1) in
  [match handle_control rev_params (StopLanes [7] 0 50) d0 [DOthers []; DPush PushDone] with
   | Ran _ d _ => d | _ => d0 end;
   match fatal_round d1 [DOthers []; DFlag true; DMessage (Some (StopLanes [8] 0 50))] with
   | Ran _ d _ => d | _ => d1 end].
Definition rev_stopped : World :=
  match stop_owners [7; 8; 9] 0 50 rev_world [] with Ran _ w _ => w | _ => rev_world end.

Lemma rev_in_step : in_step rev_world rev_drivers.
Proof.
  split; [vm_compute; reflexivity| |].
  - intros l p i H. cbn in H. apply lookup_insert_Some in H as [[_ [= _ <-]]|[_ H]]; [cbn; lia|].
    apply lookup_singleton_Some in H as [_ [= _ <-]]. cbn; lia.
  - intros [|[|i]] d; intros [= <-]; (split; [apply NoDup_singleton|]); intros l H; cbn in H;
      destruct (decide (l = 7)) as [->|H7]; rewrite ?lookup_insert_eq, ?lookup_insert_ne in H by done;
      try done; try apply list_elem_of_here;
      destruct (decide (l = 8)) as [->|H8]; rewrite ?lookup_singleton_eq, ?lookup_singleton_ne in H by done;
      try done; apply list_elem_of_here.
Qed.

Lemma rev_serves i d d' :
  rev_drivers !! i = Some d -> rev_served !! i = Some d' ->
  serves_all rev_params (new_messages i rev_world rev_stopped) d d'.
Proof.
  destruct i as [|[|i]]; intros [= <-] [= <-].
  - change (new_messages 0 rev_world rev_stopped) with [StopLanes [7] 0 50].
    eapply serves_cons; [|apply serves_nil]. left. exists [DOthers []; DPush PushDone], None, [].
    vm_compute. reflexivity.
  - change (new_messages 1 rev_world rev_stopped) with [StopLanes [8] 0 50].
    eapply serves_cons; [|apply serves_nil]. right. exists [], None, []. vm_compute. reflexivity.
Qed.

Lemma revocation_barrier_completes_witness :
  exists w1 w2, wait 0 10 rev_stopped [Clock 40; Arrivals [0; 0]%nat] = Ran true w1 [] /\
    wait 0 10 rev_stopped [Clock 40; Arrivals [0]%nat] = Ran false w2 [].
Proof.
  pose proof (revocation_barrier_completes rev_params [7; 8; 9] 0 50 rev_world rev_stopped [] []
    rev_drivers rev_served) as H.
  assert (Hnd : NoDup [7; 8; 9]) by (apply (bool_decide_unpack _); vm_compute; exact I).
  specialize (H Hnd ltac:(vm_compute; discriminate) rev_in_step eq_refl ltac:(vm_compute; reflexivity)
    eq_refl rev_serves).
  destruct (H [0; 0]%nat [] 40 10) as [w1 E1]; [exists []; vm_compute; reflexivity|by vm_compute|].
  destruct (H [0]%nat [] 40 10) as [w2 E2]; [exists [0]%nat; vm_compute; reflexivity|by vm_compute|].
  exists w1, w2. split; [exact E1|exact E2].
Defined.
