(* ===== verification/Chain.v ===== *)
(** * The operator chain ([spate-core/src/ops/chain.rs], [split.rs])

    The stages a record passes between the deserializer and the sinks, each a
    record over the next one as in the sources, the two terminal stages, and the
    chain that a driver pushes batches into, with its resume cursor.

    A stage's closure is the parameter of its type, and the state an [FnMut]
    keeps is a field. [Collector] and [StageLifecycle] are the traits; the handle
    store the records' [AckRef]s live in belongs to the terminal, and a stage that
    drops or clones a handle reaches it through [st_store]. What a deserializer
    does with a payload is an answer of the environment, and so is what the other
    threads do to the queues. [None] is a panic. Per-stage metrics and the
    operators' own panics, which the driver catches, are not modelled. *)

From stdpp Require Import base list gmap strings.
From Stdlib Require Import ZArith Lia.
From S2P Require Import Prelude Ack EndCheck Handoff Oracle.

(** ** Data *)

Record FatalError := mkFatal {
  component : string;
  reason : string;
}.

(** [Record::map]: the payload changes, metadata and handle stay. *)
Definition with_payload {T U} (u : U) (r : Rec T) : Rec U :=
  mkRec u (rec_ack r) (rec_batch r) (event_time_ms r).

(** [RawPayload], and the owned copy of one that was not ready. *)
Record RawPayload := mkRaw {
  rp_bytes : list Z;
  rp_key : option (list Z);
  rp_partition : Z;
  rp_offset : Z;
  rp_timestamp_ms : Z;
}.

Record PendingPayload := mkPending {
  pp_bytes : list Z;
  pp_key : option (list Z);
  pp_partition : Z;
  pp_offset : Z;
  pp_timestamp_ms : Z;
}.
Definition from_raw (p : RawPayload) : PendingPayload :=
  mkPending (rp_bytes p) (rp_key p) (rp_partition p) (rp_offset p) (rp_timestamp_ms p).
Definition as_raw (p : PendingPayload) : RawPayload :=
  mkRaw (pp_bytes p) (pp_key p) (pp_partition p) (pp_offset p) (pp_timestamp_ms p).

Inductive DeserError :=
  | Malformed (why : string)
  | SchemaUnavailable (why : string)
  | DeserNotReady (why : string)
  | DeserFatal (why : string).

(** [to_string]. *)
Definition deser_text (e : DeserError) : string :=
  match e with
  | Malformed why => "malformed payload: " +:+ why
  | SchemaUnavailable why => "schema unavailable: " +:+ why
  | DeserNotReady why => "not ready: " +:+ why
  | DeserFatal why => "deserializer failed: " +:+ why
  end.

(** Pressure, once seen, is kept. *)
Definition merge_flow (sofar new : Flow) : Flow :=
  match sofar with Blocked => Blocked | Continue => new end.

(** ** The traits *)

Class Collector (S T : Type) := {
  st_push : Rec T -> S -> option (Flow * S);
}.

Class StageLifecycle (S : Type) := {
  st_take_fatal : S -> option FatalError * S;
  st_relieve : S -> option (Flow * S);
  st_flush_terminal : S -> option (Flow * S);
  st_store : S -> Acks;
  st_with_store : Acks -> S -> S;
}.

Section handles.
Context {S : Type} `{StageLifecycle S}.

Definition drop_handle (a : AckRef) (s : S) : S :=
  st_with_store (AckRef_drop a (st_store s)) s.
Definition clone_handle (a : AckRef) (s : S) : S :=
  st_with_store (AckRef_clone a (st_store s)) s.

(** Records emitted one after the other, each with a clone of its handle; the
    flow so far. [Emitter::emit] and [OpsEmit::emit]. *)
Fixpoint emit_all {T} `{Collector S T} (rs : list (Rec T)) (flow : Flow) (s : S)
    : option (Flow * S) :=
  match rs with
  | [] => Some (flow, s)
  | r :: rs =>
      '(fl, s) ← st_push r (clone_handle (rec_ack r) s);
      emit_all rs (merge_flow flow fl) s
  end.
End handles.

(** ** The combinators *)

Record Map {G T U} (f : G -> T -> U * G) (N : Type) := mkMap {
  map_f : G;
  map_next : N;
}.
Arguments mkMap {G T U f N}.
Arguments map_f {G T U f N}.
Arguments map_next {G T U f N}.

#[export] Instance map_push {G T U} (f : G -> T -> U * G) {N} `{Collector N U} :
    Collector (Map f N) T := {
  st_push r s :=
    let '(u, g) := f (map_f s) (payload r) in
    '(fl, n) ← st_push (with_payload u r) (map_next s);
    Some (fl, mkMap g n)
}.

(** A stage that passes the lifecycle on to the one [next] names. *)
Definition delegate {S N} `{StageLifecycle N} (next : S -> N) (put : N -> S -> S) :
    StageLifecycle S := {|
  st_take_fatal s := let '(x, n) := st_take_fatal (next s) in (x, put n s);
  st_relieve s := '(fl, n) ← st_relieve (next s); Some (fl, put n s);
  st_flush_terminal s := '(fl, n) ← st_flush_terminal (next s); Some (fl, put n s);
  st_store s := st_store (next s);
  st_with_store w s := put (st_with_store w (next s)) s
|}.

#[export] Instance map_lifecycle {G T U} (f : G -> T -> U * G) {N} `{StageLifecycle N} :
  StageLifecycle (Map f N) := delegate map_next (fun n s => mkMap (map_f s) n).

Record Filter {G T} (p : G -> T -> bool * G) (N : Type) := mkFilter {
  filter_p : G;
  filter_next : N;
}.
Arguments mkFilter {G T p N}.
Arguments filter_p {G T p N}.
Arguments filter_next {G T p N}.

#[export] Instance filter_push {G T} (p : G -> T -> bool * G) {N} `{Collector N T}
    `{StageLifecycle N} : Collector (Filter p N) T := {
  st_push r s :=
    let '(keep, g) := p (filter_p s) (payload r) in
    if (keep : bool) then
      '(fl, n) ← st_push r (filter_next s);
      Some (fl, mkFilter g n)
    else Some (Continue, mkFilter g (drop_handle (rec_ack r) (filter_next s)))
}.

#[export] Instance filter_lifecycle {G T} (p : G -> T -> bool * G) {N} `{StageLifecycle N} :
  StageLifecycle (Filter p N) := delegate filter_next (fun n s => mkFilter (filter_p s) n).

Record Inspect {G T} (f : G -> T -> G) (N : Type) := mkInspect {
  inspect_f : G;
  inspect_next : N;
}.
Arguments mkInspect {G T f N}.
Arguments inspect_f {G T f N}.
Arguments inspect_next {G T f N}.

#[export] Instance inspect_push {G T} (f : G -> T -> G) {N} `{Collector N T} :
    Collector (Inspect f N) T := {
  st_push r s :=
    let g := f (inspect_f s) (payload r) in
    '(fl, n) ← st_push r (inspect_next s);
    Some (fl, mkInspect g n)
}.

#[export] Instance inspect_lifecycle {G T} (f : G -> T -> G) {N} `{StageLifecycle N} :
  StageLifecycle (Inspect f N) := delegate inspect_next (fun n s => mkInspect (inspect_f s) n).

(** The closure's [Err] is what its [Display] prints. *)
Record TryMap {G T U} (f : G -> T -> (U + string) * G) (N : Type) := mkTryMap {
  try_f : G;
  try_next : N;
  try_policy : ErrorPolicy;
  try_component : string;
  try_fatal : option FatalError;
}.
Arguments mkTryMap {G T U f N}.
Arguments try_f {G T U f N}.
Arguments try_next {G T U f N}.
Arguments try_policy {G T U f N}.
Arguments try_component {G T U f N}.
Arguments try_fatal {G T U f N}.

#[export] Instance try_push {G T U} (f : G -> T -> (U + string) * G) {N} `{Collector N U}
    `{StageLifecycle N} : Collector (TryMap f N) T := {
  st_push r s :=
    match try_fatal s with
    | Some x =>
        Some (Continue, mkTryMap (try_f s) (drop_handle (rec_ack r) (try_next s)) (try_policy s)
                          (try_component s) (Some x))
    | None =>
        let '(res, g) := f (try_f s) (payload r) in
        match res with
        | inl u =>
            '(fl, n) ← st_push (with_payload u r) (try_next s);
            Some (fl, mkTryMap g n (try_policy s) (try_component s) None)
        | inr e =>
            Some (Continue, mkTryMap g (drop_handle (rec_ack r) (try_next s)) (try_policy s)
                    (try_component s)
                    match try_policy s with
                    | Skip => None
                    | FailPolicy => Some (mkFatal (try_component s) e)
                    end)
        end
    end
}.

#[export] Instance try_lifecycle {G T U} (f : G -> T -> (U + string) * G) {N}
    `{StageLifecycle N} : StageLifecycle (TryMap f N) := {
  st_take_fatal s :=
    let '(downstream, n) := st_take_fatal (try_next s) in
    (match downstream with Some x => Some x | None => try_fatal s end,
     mkTryMap (try_f s) n (try_policy s) (try_component s) None);
  st_relieve s :=
    '(fl, n) ← st_relieve (try_next s);
    Some (fl, mkTryMap (try_f s) n (try_policy s) (try_component s) (try_fatal s));
  st_flush_terminal s :=
    '(fl, n) ← st_flush_terminal (try_next s);
    Some (fl, mkTryMap (try_f s) n (try_policy s) (try_component s) (try_fatal s));
  st_store s := st_store (try_next s);
  st_with_store w s :=
    mkTryMap (try_f s) (st_with_store w (try_next s)) (try_policy s) (try_component s)
      (try_fatal s)
}.

(** The closure's emissions, in order; it makes them whatever flow it is told. *)
Record FlatMap {G T U} (g : G -> T -> list U * G) (N : Type) := mkFlatMap {
  flat_g : G;
  flat_next : N;
}.
Arguments mkFlatMap {G T U g N}.
Arguments flat_g {G T U g N}.
Arguments flat_next {G T U g N}.

#[export] Instance flat_push {G T U} (g : G -> T -> list U * G) {N} `{Collector N U}
    `{StageLifecycle N} : Collector (FlatMap g N) T := {
  st_push r s :=
    let '(us, st) := g (flat_g s) (payload r) in
    '(fl, n) ← emit_all ((fun u => with_payload u r) <$> us) Continue (flat_next s);
    Some (fl, mkFlatMap st (drop_handle (rec_ack r) n))
}.

#[export] Instance flat_lifecycle {G T U} (g : G -> T -> list U * G) {N} `{StageLifecycle N} :
  StageLifecycle (FlatMap g N) := delegate flat_next (fun n s => mkFlatMap (flat_g s) n).

(** ** The terminal stage of one sink *)

(** What other threads do to the stage's queues. *)
Inductive QueueEvent (T : Type) :=
  | QOther (shard : nat) (c : EncodedChunk T)
  | QReceive (shard : nat)
  | QClose (shard : nat).
Arguments QOther {T}.
Arguments QReceive {T}.
Arguments QClose {T}.

Definition queue_op {T} (q : QueueEvent T) : HandoffOp (T := T) :=
  match q with
  | QOther i c => HOther i c
  | QReceive i => HReceive i
  | QClose i => HClose i
  end.

(** [SinkHandoff] as a stage. [hs_script] gives, for each operation, the clock's
    reading and what happened to the queues before it; [hs_seen] is history: the
    records that reached the stage with no fatal latched. *)
Record HandoffStage {T} (route : Rec T -> nat -> nat) (cfg : ChunkConfig) (name : string)
    (E C : Type) := mkStage {
  hs_base : SinkHandoff (T := T) (E := E) (C := C);
  hs_script : nat -> Z * list (QueueEvent T);
  hs_ticks : nat;
  hs_seen : list (Rec T);
}.
Arguments mkStage {T route cfg name E C}.
Arguments hs_base {T route cfg name E C}.
Arguments hs_script {T route cfg name E C}.
Arguments hs_ticks {T route cfg name E C}.
Arguments hs_seen {T route cfg name E C}.

Section handoff.
Context {T E C : Type} `{RowEncoder T E} `{FrameCodec C}.
Variable route : Rec T -> nat -> nat.
Variable cfg : ChunkConfig.
Variable name : string.

(** The stage when its next operation starts, and the clock then. *)
Definition hs_enter (s : HandoffStage route cfg name E C) : Z * SinkHandoff :=
  let '(now, qs) := hs_script s (hs_ticks s) in
  (now, foldl (fun h q => default h (handoff_step route cfg (queue_op q) h)) (hs_base s) qs).

Definition hs_leave (h : SinkHandoff) (s : HandoffStage route cfg name E C)
    : HandoffStage route cfg name E C :=
  mkStage h (hs_script s) (S (hs_ticks s)) (hs_seen s).

Definition hs_note (r : Rec T) (s : HandoffStage route cfg name E C)
    : HandoffStage route cfg name E C :=
  mkStage (hs_base s) (hs_script s) (hs_ticks s)
    (match fatal (hs_base s) with None => hs_seen s ++ [r] | Some _ => hs_seen s end).

#[export] Instance handoff_push : Collector (HandoffStage route cfg name E C) T := {
  st_push r s :=
    let '(now, h) := hs_enter s in
    '(fl, h) ← Handoff.push route cfg now r h;
    Some (fl, hs_leave h (hs_note r s))
}.

#[export] Instance handoff_lifecycle : StageLifecycle (HandoffStage route cfg name E C) := {
  st_take_fatal s :=
    let '(x, h) := Handoff.take_fatal (hs_base s) in
    ((fun x => mkFatal name (se_text x)) <$> x, mkStage h (hs_script s) (hs_ticks s) (hs_seen s));
  st_relieve s :=
    let '(_, h) := hs_enter s in
    '(fl, h) ← Handoff.relieve h;
    Some (fl, hs_leave h s);
  st_flush_terminal s :=
    let '(now, h) := hs_enter s in
    '(fl, h) ← Handoff.flush_terminal now h;
    Some (fl, hs_leave h s);
  st_store s := world (hs_base s);
  st_with_store w s :=
    let h := hs_base s in
    mkStage (mkHandoff (shards h) (parked h) (codec h) (fatal h) (queues h) (budget h) w (sent h)
               (accepted h)) (hs_script s) (hs_ticks s) (hs_seen s)
}.
End handoff.

(** ** The terminal stage of several sinks *)

(** [SplitTerminal]: the branches have one row type here, and a branch and a
    handle carry the number of their record family. The store is shared by the
    branches; [sp_seen] is history. *)
Record Split {G T R} (route : G -> T -> list (nat * nat * R) * G) (B : Type) := mkSplit {
  sp_route : G;
  sp_branches : list (nat * B);
  sp_unmatched : ErrorPolicy;
  sp_fatal : option FatalError;
  sp_latched : bool;
  sp_component : string;
  sp_store : Acks;
  sp_seen : list (Rec (nat * R));
}.
Arguments mkSplit {G T R route B}.
Arguments sp_route {G T R route B}.
Arguments sp_branches {G T R route B}.
Arguments sp_unmatched {G T R route B}.
Arguments sp_fatal {G T R route B}.
Arguments sp_latched {G T R route B}.
Arguments sp_component {G T R route B}.
Arguments sp_store {G T R route B}.
Arguments sp_seen {G T R route B}.

(** [SplitEmitter]; the record family of the handle is checked first. *)
Record SplitEmitter (B R : Type) := mkEmitter {
  em_branches : list (nat * B);
  em_emitted : Z;
  em_flow : Flow;
  em_latched : bool;
  em_store : Acks;
  em_seen : list (Rec (nat * R));
}.
Arguments mkEmitter {B R}.
Arguments em_branches {B R}.
Arguments em_emitted {B R}.
Arguments em_flow {B R}.
Arguments em_latched {B R}.
Arguments em_store {B R}.
Arguments em_seen {B R}.

Section split.
Context {G T R B : Type} `{Collector B R} `{StageLifecycle B}.
Variable route : G -> T -> list (nat * nat * R) * G.

Definition split_emit (r : Rec T) (x : nat * nat * R) (em : SplitEmitter B R)
    : option (SplitEmitter B R) :=
  let '(idx, family, row) := x in
  '(fam, b) ← em_branches em !! idx;
  if negb (bool_decide (fam = family)) then None
  else if em_latched em then Some em
  else
    '(fl, b) ← st_push (with_payload row r) (clone_handle (rec_ack r) (st_with_store (em_store em) b));
    Some (mkEmitter (<[idx := (fam, b)]> (em_branches em)) (wrap_u32 (em_emitted em + 1))
            (merge_flow (em_flow em) fl) (bool_decide (is_Some (st_take_fatal b).1)) (st_store b)
            (em_seen em ++ [with_payload (idx, row) r])).

Fixpoint split_emits (r : Rec T) (xs : list (nat * nat * R)) (em : SplitEmitter B R)
    : option (SplitEmitter B R) :=
  match xs with
  | [] => Some em
  | x :: xs => em ← split_emit r x em; split_emits r xs em
  end.

Definition no_branch (component : string) : FatalError :=
  mkFatal component "record matched no split branch".

#[export] Instance split_push : Collector (Split route B) T := {
  st_push r s :=
    if bool_decide (is_Some (sp_fatal s)) || sp_latched s then
      Some (Continue,
        mkSplit (sp_route s) (sp_branches s) (sp_unmatched s) (sp_fatal s) (sp_latched s)
          (sp_component s) (AckRef_drop (rec_ack r) (sp_store s)) (sp_seen s))
    else
      let '(xs, g) := route (sp_route s) (payload r) in
      em ← split_emits r xs (mkEmitter (sp_branches s) 0 Continue false (sp_store s) (sp_seen s));
      Some (em_flow em,
        mkSplit g (em_branches em) (sp_unmatched s)
          (if bool_decide (em_emitted em = 0)
           then match sp_unmatched s with
                | Skip => None
                | FailPolicy => Some (no_branch (sp_component s))
                end
           else None)
          (em_latched em) (sp_component s) (AckRef_drop (rec_ack r) (em_store em)) (em_seen em))
}.

(** One pass over the branches, [Blocked] when one of them is. *)
Fixpoint each_branch (f : B -> option (Flow * B)) (bs : list (nat * B))
    : option (Flow * list (nat * B)) :=
  match bs with
  | [] => Some (Continue, [])
  | (fam, b) :: bs =>
      '(fl, b) ← f b;
      '(rest, bs) ← each_branch f bs;
      Some (match fl with Blocked => Blocked | Continue => rest end, (fam, b) :: bs)
  end.

Definition earliest (bs : list (nat * B)) : option FatalError :=
  head (omap (fun x => (st_take_fatal x.2).1) bs).

#[export] Instance split_lifecycle : StageLifecycle (Split route B) := {
  st_take_fatal s :=
    (match earliest (sp_branches s) with Some x => Some x | None => sp_fatal s end,
     mkSplit (sp_route s) ((fun x => (x.1, (st_take_fatal x.2).2)) <$> sp_branches s)
       (sp_unmatched s)
       (match earliest (sp_branches s) with Some _ => sp_fatal s | None => None end) false
       (sp_component s) (sp_store s) (sp_seen s));
  st_relieve s :=
    '(fl, bs) ← each_branch (fun b => st_relieve (st_with_store (sp_store s) b)) (sp_branches s);
    Some (fl, mkSplit (sp_route s) bs (sp_unmatched s) (sp_fatal s) (sp_latched s)
                (sp_component s) (sp_store s) (sp_seen s));
  st_flush_terminal s :=
    '(fl, bs) ← each_branch (fun b => st_flush_terminal (st_with_store (sp_store s) b))
                  (sp_branches s);
    Some (fl, mkSplit (sp_route s) bs (sp_unmatched s) (sp_fatal s) (sp_latched s)
                (sp_component s) (sp_store s) (sp_seen s));
  st_store s := sp_store s;
  st_with_store w s :=
    mkSplit (sp_route s) (sp_branches s) (sp_unmatched s) (sp_fatal s) (sp_latched s)
      (sp_component s) w (sp_seen s)
}.
End split.

(** ** The chain *)

(** Why a batch could not complete yet, and what a push came to. *)
Inductive ChainOutcome :=
  | ChainDone
  | ChainBlocked (resume_at : Z) (not_ready : bool)
  | ChainFatal (x : FatalError).

Inductive Step :=
  | StepContinue
  | StepBackpressure
  | StepNotReady
  | StepFatal (x : FatalError).

(** [TypedChain] over the stack [S] of stages for records of type [T]. [tc_done]
    is history: the payloads processed, each with what it deserialized to. *)
Record TypedChain (S T : Type) := mkChain {
  tc_ops : S;
  tc_policy : ErrorPolicy;
  tc_cursor : Z;
  tc_mid_batch : bool;
  tc_pending : option PendingPayload;
  tc_done : list (RawPayload * list T);
}.
Arguments mkChain {S T}.
Arguments tc_ops {S T}.
Arguments tc_policy {S T}.
Arguments tc_cursor {S T}.
Arguments tc_mid_batch {S T}.
Arguments tc_pending {S T}.
Arguments tc_done {S T}.

(** The chain with the batch it is given: the payloads the batch has yet to
    yield, and its handle. *)
Record CWorld (S T : Type) := mkCWorld {
  cw_chain : TypedChain S T;
  cw_rest : list RawPayload;
  cw_ack : AckRef;
  cw_batch : BatchId;
}.
Arguments mkCWorld {S T}.
Arguments cw_chain {S T}.
Arguments cw_rest {S T}.
Arguments cw_ack {S T}.
Arguments cw_batch {S T}.

(** What [deserialize] did with a payload: the records it emitted, and its error.
    By its contract one that is not ready, or can decode no further payload, has
    emitted nothing. *)
Definition deser_answer {T} (q : list T * option DeserError) : option (list T * option DeserError) :=
  match q with
  | (_ :: _, Some (DeserNotReady _)) | (_ :: _, Some (DeserFatal _)) => None
  | _ => Some q
  end.

Section chain.
Context {S T : Type} `{Collector S T} `{StageLifecycle S}.

Local Notation M := (Prog (CWorld S T) (list T * option DeserError)).

Definition on_chain (f : TypedChain S T -> TypedChain S T) : M unit :=
  modify (fun w => mkCWorld (f (cw_chain w)) (cw_rest w) (cw_ack w) (cw_batch w)).
Definition with_ops (s : S) (c : TypedChain S T) : TypedChain S T :=
  mkChain s (tc_policy c) (tc_cursor c) (tc_mid_batch c) (tc_pending c) (tc_done c).
Definition with_cursor (n : Z) (c : TypedChain S T) : TypedChain S T :=
  mkChain (tc_ops c) (tc_policy c) n (tc_mid_batch c) (tc_pending c) (tc_done c).
Definition with_pending (p : option PendingPayload) (c : TypedChain S T) : TypedChain S T :=
  mkChain (tc_ops c) (tc_policy c) (tc_cursor c) (tc_mid_batch c) p (tc_done c).
Definition with_mid (b : bool) (c : TypedChain S T) : TypedChain S T :=
  mkChain (tc_ops c) (tc_policy c) (tc_cursor c) b (tc_pending c) (tc_done c).
Definition with_done (x : RawPayload * list T) (c : TypedChain S T) : TypedChain S T :=
  mkChain (tc_ops c) (tc_policy c) (tc_cursor c) (tc_mid_batch c) (tc_pending c)
    (tc_done c ++ [x]).

(** An operation on the stack of stages. *)
Definition run_ops {A} (f : S -> option (A * S)) : M A :=
  w ← get;
  match f (tc_ops (cw_chain w)) with
  | None => panic
  | Some (a, s) => on_chain (with_ops s) ;;; mret a
  end.

Definition take_fatal_now : M (option FatalError) := run_ops (fun s => Some (st_take_fatal s)).

(** A record of a payload. *)
Definition rec_of (a : AckRef) (b : BatchId) (raw : RawPayload) (y : T) : Rec T :=
  mkRec y a b (rp_timestamp_ms raw).

(** The end of a payload that did not stop the chain: a latched fatal first,
    then pressure. *)
Definition settle_payload (raw : RawPayload) (ys : list T) (flow : Flow) : M Step :=
  fatal ← take_fatal_now;
  match fatal with
  | Some x => mret (StepFatal x)
  | None =>
      on_chain (with_done (raw, ys)) ;;;
      match flow with
      | Blocked => mret StepBackpressure
      | Continue =>
          fl ← run_ops st_relieve;
          mret (match fl with Blocked => StepBackpressure | Continue => StepContinue end)
      end
  end.

Definition deser_step (raw : RawPayload) : M Step :=
  '(ys, result) ← ask deser_answer;
  w ← get;
  flow ← run_ops (emit_all (rec_of (cw_ack w) (cw_batch w) raw <$> ys) Continue);
  match result with
  | None => settle_payload raw ys flow
  | Some (DeserNotReady _) => mret StepNotReady
  | Some (DeserFatal why) =>
      fatal ← take_fatal_now;
      mret (StepFatal (default (mkFatal "deserializer" why) fatal))
  | Some e =>
      match tc_policy (cw_chain w) with
      | Skip => settle_payload raw ys flow
      | FailPolicy =>
          fatal ← take_fatal_now;
          mret (StepFatal (default (mkFatal "deserializer" (deser_text e)) fatal))
      end
  end.

(** What the loop makes of a step; [again] is the payload to keep when it was
    not ready. *)
Definition take_step (again : PendingPayload) (x : Step) : M (option ChainOutcome) :=
  match x with
  | StepContinue =>
      on_chain (fun c => with_cursor (wrap_u64 (tc_cursor c + 1)) c) ;;; mret None
  | StepBackpressure =>
      on_chain (fun c => with_cursor (wrap_u64 (tc_cursor c + 1)) c) ;;;
      w ← get; mret (Some (ChainBlocked (tc_cursor (cw_chain w)) false))
  | StepNotReady =>
      on_chain (with_pending (Some again)) ;;;
      w ← get; mret (Some (ChainBlocked (tc_cursor (cw_chain w)) true))
  | StepFatal x => mret (Some (ChainFatal x))
  end.

(** The replay of a stashed payload. *)
Definition replay : M (option ChainOutcome) :=
  w ← get;
  match tc_pending (cw_chain w) with
  | None => mret None
  | Some p => on_chain (with_pending None) ;;; x ← deser_step (as_raw p); take_step p x
  end.

(** [batch.next_payload] until it is exhausted or a payload stops the push. *)
Definition next_round : M (option (option ChainOutcome)) :=
  w ← get;
  match cw_rest w with
  | [] => mret (Some None)
  | raw :: rest =>
      modify (fun w => mkCWorld (cw_chain w) rest (cw_ack w) (cw_batch w)) ;;;
      x ← deser_step raw;
      o ← take_step (from_raw raw) x;
      mret (match o with Some o => Some (Some o) | None => None end)
  end.
Fixpoint pull (n : nat) : M (option ChainOutcome) :=
  match n with
  | O => mret None
  | Datatypes.S n => r ← next_round; match r with Some o => mret o | None => pull n end
  end.

(** [batch.ack().fail()]. *)
Definition fail_batch : M unit :=
  w ← get;
  on_chain (fun c => with_ops (st_with_store (AckRef_fail (cw_ack w) (st_store (tc_ops c)))
                                 (tc_ops c)) c).

Definition push_batch (from : Z) : M ChainOutcome :=
  on_chain (fun c => if tc_mid_batch c then c
                     else with_mid true (with_pending None (with_cursor 0 c))) ;;;
  fl ← run_ops st_relieve;
  match fl with
  | Blocked => w ← get; mret (ChainBlocked (tc_cursor (cw_chain w)) false)
  | Continue =>
      replayed ← replay;
      w ← get;
      outcome ← match replayed with
                | Some o => mret (Some o)
                | None => pull (Datatypes.S (length (cw_rest w)))
                end;
      match outcome with
      | Some (ChainFatal x) =>
          fail_batch ;;; on_chain (fun c => with_mid false (with_pending None c)) ;;;
          mret (ChainFatal x)
      | Some blocked => mret blocked
      | None => on_chain (with_mid false) ;;; mret ChainDone
      end
  end.

(** [flush] and [abandon_batch]. *)
Definition flush_chain : M ChainOutcome :=
  fatal ← take_fatal_now;
  match fatal with
  | Some x => mret (ChainFatal x)
  | None =>
      flow ← run_ops st_flush_terminal;
      fatal ← take_fatal_now;
      match fatal, flow with
      | Some x, _ => mret (ChainFatal x)
      | None, Continue => mret ChainDone
      | None, Blocked => w ← get; mret (ChainBlocked (tc_cursor (cw_chain w)) false)
      end
  end.

Definition abandon_batch : M unit :=
  on_chain (fun c => with_mid false (with_cursor 0 (with_pending None c))).

(** The pushes of one batch that the driver makes, at most [n] more after the
    first: each continues where the last was blocked. *)
Fixpoint attempts (n : nat) (from : Z) : M ChainOutcome :=
  o ← push_batch from;
  match o, n with
  | ChainBlocked at_ _, Datatypes.S n => attempts n at_
  | _, _ => mret o
  end.
End chain.
