(* ===== verification/ChainProofs.v ===== *)
(** * Properties of the operator chain

    [StageLaws] is what a stage promises the stages above it: what reaches the
    terminal of a pushed record is what the closures make of it, in order and up
    to the first fatal; that fatal is the one reported, and until it is taken
    nothing more reaches the terminal; and every handle a record brings is given
    back or kept by the terminal. Each combinator keeps the promise if the next
    stage does, and both terminals keep it, so every stack of them does. The
    properties of the chain are proved of any stage that keeps it. *)

From stdpp Require Import base list gmap strings.
From Stdlib Require Import ZArith Lia.
From S2P Require Import Prelude Ack EndCheck Handoff Oracle Chain.

(** ** What a stage promises *)

(** What the closures make of records: one that reaches the terminal, or a
    fatal error. *)
Inductive Event (O : Type) :=
  | Out (r : Rec O)
  | Trip (x : FatalError).
Arguments Out {O}.
Arguments Trip {O}.

(** Of the events [es], the records [new] reached the terminal: all of them, or
    those before the first fatal; [term] is the fatal the terminal itself came
    to on the last of them. *)
Definition stops {O} (es : list (Event O)) (new : list (Rec O)) (term x : option FatalError)
    : Prop :=
  match x with
  | None => es = Out <$> new
  | Some y => exists rest, es = (Out <$> new) ++ rest /\
      match term with
      | None => head rest = Some (Trip y)
      | Some z => z = y /\ new <> []
      end
  end.

(** The handles of [a]'s batch in a store. *)
Definition strong (a : AckRef) (w : Acks) : nat := default 0%nat (as_strong <$> heap w !! a).

Definition fatal_of {S} `{StageLifecycle S} (s : S) : option FatalError := (st_take_fatal s).1.

Class StageSpec (S T O : Type) := {
  ustate : Type;
  upper : S -> ustate;
  events : Rec T -> ustate -> list (Event O) * ustate;
  seen : S -> list (Rec O);
  term_fatal : S -> option FatalError;
  held : AckRef -> S -> nat;
  stage_wf : S -> Prop;
}.

(** What an operation other than a push keeps. *)
Record quiet {S T O} `{StageLifecycle S, !StageSpec S T O} (s s' : S) : Prop := mk_quiet {
  qt_wf : stage_wf s';
  qt_seen : seen s' = seen s;
  qt_upper : upper s' = upper s;
  qt_held : forall a, held a s' = held a s;
  qt_store : st_store s' = st_store s;
}.
Arguments quiet {S T O _ _}.

Class StageLaws (S T O : Type) `{Collector S T} `{StageLifecycle S} `{!StageSpec S T O} := {
  sl_push : forall r s fl s', stage_wf s -> fatal_of s = None -> st_push r s = Some (fl, s') ->
    fl = Continue /\ stage_wf s' /\ exists new, seen s' = seen s ++ new /\
      stops (events r (upper s)).1 new (term_fatal s') (fatal_of s') /\
      (fatal_of s' = None -> upper s' = (events r (upper s)).2);
  sl_latched : forall r s fl s' y, stage_wf s -> fatal_of s = Some y ->
    st_push r s = Some (fl, s') ->
    fl = Continue /\ stage_wf s' /\ seen s' = seen s /\ fatal_of s' = Some y /\
    term_fatal s' = term_fatal s;
  sl_balance : forall r s fl s', stage_wf s -> (0 < strong (rec_ack r) (st_store s))%nat ->
    st_push r s = Some (fl, s') -> forall a,
    (held a s <= held a s')%nat /\
    (strong a (st_store s') + held a s + (if decide (rec_ack r = a) then 1 else 0) =
     strong a (st_store s) + held a s')%nat;
  sl_take : forall s, stage_wf s ->
    quiet s (st_take_fatal s).2 /\ fatal_of (st_take_fatal s).2 = None;
  sl_relieve : forall s fl s', stage_wf s -> fatal_of s = None -> st_relieve s = Some (fl, s') ->
    quiet s s' /\ fatal_of s' = None;
  sl_flush : forall s fl s', stage_wf s -> fatal_of s = None ->
    st_flush_terminal s = Some (fl, s') ->
    quiet s (st_take_fatal s').2 /\ fatal_of (st_take_fatal s').2 = None;
  sl_term : forall s, fatal_of s = None -> term_fatal s = None;
  sl_store : forall w s, st_store (st_with_store w s) = w;
  sl_with_store : forall w s, (stage_wf (st_with_store w s) <-> stage_wf s) /\
    seen (st_with_store w s) = seen s /\ upper (st_with_store w s) = upper s /\
    (forall a, held a (st_with_store w s) = held a s) /\
    fatal_of (st_with_store w s) = fatal_of s /\ term_fatal (st_with_store w s) = term_fatal s;
}.

(** ** Handles and events *)
Lemma strong_clone a b w :
  (0 < strong a w)%nat ->
  strong b (AckRef_clone a w) = (strong b w + (if decide (a = b) then 1 else 0))%nat.
Proof.
  unfold strong, AckRef_clone. cbn. intros Hpos. destruct (decide (a = b)) as [<-|Hne].
  - rewrite lookup_alter_eq. destruct (heap w !! a); cbn in *; lia.
  - rewrite lookup_alter_ne by done. lia.
Qed.

Lemma strong_drop a b w :
  (0 < strong a w)%nat ->
  (strong b (AckRef_drop a w) + (if decide (a = b) then 1 else 0))%nat = strong b w.
Proof.
  unfold strong, AckRef_drop. intros Hpos. destruct (heap w !! a) as [st|] eqn:E; [|cbn in Hpos; lia].
  cbn in Hpos. destruct (decide (as_strong st <= 1)%nat) as [Hle|Hgt];
    [rewrite bool_decide_true by done|rewrite bool_decide_false by done]; cbn;
    destruct (decide (a = b)) as [<-|Hne].
  - rewrite lookup_delete_eq, E. cbn. lia.
  - rewrite lookup_delete_ne by done. lia.
  - rewrite lookup_insert_eq, E. cbn. lia.
  - rewrite lookup_insert_ne by done. lia.
Qed.

Lemma strong_fail a b w : strong b (AckRef_fail a w) = strong b w.
Proof.
  unfold strong, AckRef_fail. cbn. destruct (decide (a = b)) as [<-|Hne].
  - rewrite lookup_alter_eq. by destruct (heap w !! a).
  - by rewrite lookup_alter_ne.
Qed.

Lemma stops_more {O} (es1 es2 : list (Event O)) new1 new2 term x :
  es1 = Out <$> new1 -> stops es2 new2 term x -> stops (es1 ++ es2) (new1 ++ new2) term x.
Proof.
  intros -> H. destruct x as [y|]; cbn in *.
  - destruct H as (rest & -> & Hr). exists rest. rewrite fmap_app, app_assoc. split; [done|].
    destruct term as [z|]; [|done]. destruct Hr as [-> Hn]. split; [done|].
    by destruct new1, new2.
  - by rewrite H, fmap_app.
Qed.

Lemma stops_cut {O} (es1 es2 : list (Event O)) new term y :
  stops es1 new term (Some y) -> stops (es1 ++ es2) new term (Some y).
Proof.
  intros (rest & -> & Hr). exists (rest ++ es2). rewrite <- app_assoc. split; [done|].
  destruct term; [done|]. by destruct rest.
Qed.

Section laws.
Context {S T O : Type} `{StageLaws S T O}.

(** The events of several records, one after the other. *)
Fixpoint events_all (rs : list (Rec T)) (u : ustate) : list (Event O) * ustate :=
  match rs with
  | [] => ([], u)
  | r :: rs => let '(es, u) := events r u in let '(es', u) := events_all rs u in (es ++ es', u)
  end.

Lemma events_all_cons r rs u :
  events_all (r :: rs) u =
    ((events r u).1 ++ (events_all rs (events r u).2).1, (events_all rs (events r u).2).2).
Proof. cbn. destruct (events r u) as [es u1]. cbn. by destruct (events_all rs u1). Qed.

Lemma events_all_app rs1 rs2 u :
  events_all (rs1 ++ rs2) u =
    ((events_all rs1 u).1 ++ (events_all rs2 (events_all rs1 u).2).1,
     (events_all rs2 (events_all rs1 u).2).2).
Proof.
  revert u. induction rs1 as [|r rs1 IH]; intros u; [cbn; by destruct (events_all rs2 u)|].
  rewrite <- app_comm_cons, !events_all_cons, IH. cbn. by rewrite app_assoc.
Qed.

(** The stage with another store promises the same. *)
Lemma store_quiet w s : stage_wf s ->
  stage_wf (st_with_store w s) /\ seen (st_with_store w s) = seen s /\
  upper (st_with_store w s) = upper s /\ (forall a, held a (st_with_store w s) = held a s) /\
  fatal_of (st_with_store w s) = fatal_of s /\ term_fatal (st_with_store w s) = term_fatal s.
Proof. intros Hw. destruct (sl_with_store w s) as ([_ ?] & ?). auto. Qed.

Lemma emit_all_latched rs y : forall flow s fl s',
  stage_wf s -> fatal_of s = Some y -> emit_all rs flow s = Some (fl, s') ->
  fl = flow /\ stage_wf s' /\ seen s' = seen s /\ fatal_of s' = Some y /\
  term_fatal s' = term_fatal s.
Proof.
  induction rs as [|r rs IH]; intros flow s fl s' Hw Hf He; [by injection He as <- <-|].
  cbn in He. unfold clone_handle in He. destruct (st_push r (st_with_store _ s)) as [[f1 s1]|] eqn:Ep; [|done].
  destruct (store_quiet (AckRef_clone (rec_ack r) (st_store s)) s Hw) as (W1 & W2 & W3 & _ & W5 & W6).
  apply (sl_latched _ _ _ _ y) in Ep as (-> & A1 & A2 & A3 & A4); [|done|by rewrite W5].
  cbn in He. destruct (IH _ _ _ _ A1 A3 He) as (-> & B1 & B2 & B3 & B4).
  split_and!; [by destruct flow|done|congruence|done|congruence].
Qed.

Lemma emit_all_spec rs : forall flow s fl s',
  stage_wf s -> fatal_of s = None -> emit_all rs flow s = Some (fl, s') ->
  fl = flow /\ stage_wf s' /\ exists new, seen s' = seen s ++ new /\
    stops (events_all rs (upper s)).1 new (term_fatal s') (fatal_of s') /\
    (fatal_of s' = None -> upper s' = (events_all rs (upper s)).2).
Proof.
  induction rs as [|r rs IH]; intros flow s fl s' Hw Hf He.
  { injection He as <- <-. split_and!; [done|done|]. exists []. rewrite app_nil_r, Hf. done. }
  cbn in He. unfold clone_handle in He. destruct (st_push r (st_with_store _ s)) as [[f1 s1]|] eqn:Ep; [|done].
  destruct (store_quiet (AckRef_clone (rec_ack r) (st_store s)) s Hw) as (W1 & W2 & W3 & _ & W5 & W6).
  apply sl_push in Ep as (-> & A1 & new & A2 & A3 & A4); [|done|by rewrite W5].
  rewrite W2 in A2. rewrite W3 in A3, A4.
  rewrite events_all_cons. cbn [fst snd]. cbn in He. destruct (fatal_of s1) as [y|] eqn:E1.
  - destruct (emit_all_latched rs y _ _ _ _ A1 E1 He) as (-> & B1 & B2 & B3 & B4).
    split_and!; [by destruct flow|done|]. exists new. rewrite B2, B3, B4. split_and!; [done| |done].
    by apply stops_cut.
  - destruct (IH _ _ _ _ A1 E1 He) as (-> & B1 & new' & B2 & B3 & B4).
    split_and!; [by destruct flow|done|]. exists (new ++ new'). rewrite (A4 eq_refl) in B3, B4.
    split_and!; [by rewrite B2, A2, app_assoc| |done]. by apply stops_more.
Qed.

(** Each emission brings its own clone. *)
Lemma push_wf r s fl s' : stage_wf s -> st_push r s = Some (fl, s') -> fl = Continue /\ stage_wf s'.
Proof.
  intros Hw Hp. destruct (fatal_of s) as [y|] eqn:E.
  - by destruct (sl_latched _ _ _ _ _ Hw E Hp) as (? & ? & _).
  - by destruct (sl_push _ _ _ _ Hw E Hp) as (? & ? & _).
Qed.

Lemma emit_all_balance a rs : forall flow s fl s',
  stage_wf s -> Forall (fun r => rec_ack r = a) rs -> (0 < strong a (st_store s))%nat ->
  emit_all rs flow s = Some (fl, s') -> forall b,
  (held b s <= held b s')%nat /\
  (strong b (st_store s') + held b s = strong b (st_store s) + held b s')%nat.
Proof.
  induction rs as [|r rs IH]; intros flow s fl s' Hw Ha Hpos He b; [injection He as _ <-; lia|].
  apply Forall_cons in Ha as [<- Hrs]. cbn in He. unfold clone_handle in He.
  destruct (st_push r (st_with_store _ s)) as [[f1 s1]|] eqn:Ep; [|done].
  destruct (store_quiet (AckRef_clone (rec_ack r) (st_store s)) s Hw) as (W1 & _ & _ & W4 & _).
  destruct (push_wf _ _ _ _ W1 Ep) as [_ Hw1].
  assert (Hb : forall b, (held b s <= held b s1)%nat /\
    (strong b (st_store s1) + held b s = strong b (st_store s) + held b s1)%nat).
  { intros c. assert (Hp : (0 < strong (rec_ack r)
      (st_store (st_with_store (AckRef_clone (rec_ack r) (st_store s)) s)))%nat)
      by (rewrite sl_store, strong_clone by done; lia).
    pose proof (sl_balance _ _ _ _ W1 Hp Ep c) as B.
    rewrite W4, sl_store, strong_clone in B by done. destruct (decide _); lia. }
  destruct (IH _ _ _ _ Hw1 Hrs ltac:(pose proof (Hb (rec_ack r)); lia) He b).
  pose proof (Hb b). lia.
Qed.

Lemma drop_balance a s b :
  (0 < strong a (st_store s))%nat ->
  (strong b (st_store (drop_handle a s)) + (if decide (a = b) then 1 else 0))%nat =
    strong b (st_store s).
Proof. intros Hp. unfold drop_handle. rewrite sl_store. by apply strong_drop. Qed.
End laws.

(** ** Stages that pass the lifecycle on *)

Section delegate.
Context {S N T U O G : Type} `{StageLaws N U O}.
Variable next : S -> N.
Variable put : N -> S -> S.
Variable own : S -> G.
Hypothesis next_put : forall n s, next (put n s) = n.
Hypothesis own_put : forall n s, own (put n s) = own s.

(** The closure's state joins that of the next stages'. *)
Definition delegate_spec (ev : Rec T -> G * ustate -> list (Event O) * (G * ustate)) :
    StageSpec S T O := {|
  upper s := (own s, upper (next s));
  events := ev;
  seen s := seen (next s);
  term_fatal s := term_fatal (next s);
  held a s := held a (next s);
  stage_wf s := stage_wf (next s)
|}.

Variable ev : Rec T -> G * ustate -> list (Event O) * (G * ustate).
Local Instance d_life : StageLifecycle S := delegate next put.
Local Instance d_spec : StageSpec S T O := delegate_spec ev.

Lemma delegate_fatal s : fatal_of s = fatal_of (next s).
Proof. unfold fatal_of. cbn. by destruct (st_take_fatal (next s)). Qed.

Lemma delegate_put n s : fatal_of (put n s) = fatal_of n.
Proof. by rewrite delegate_fatal, next_put. Qed.

Lemma delegate_quiet s n : quiet (next s) n -> quiet s (put n s).
Proof. intros [A B C D E]. split; cbn; rewrite ?next_put, ?own_put; try done. by rewrite C. Qed.

Lemma delegate_taken s : (st_take_fatal s).2 = put (st_take_fatal (next s)).2 s.
Proof. cbn. by destruct (st_take_fatal (next s)). Qed.

Lemma delegate_laws `{!Collector S T} :
  (forall r s fl s', stage_wf (next s) -> fatal_of (next s) = None -> st_push r s = Some (fl, s') ->
    fl = Continue /\ stage_wf (next s') /\ exists new, seen (next s') = seen (next s) ++ new /\
      stops (ev r (upper s)).1 new (term_fatal (next s')) (fatal_of (next s')) /\
      (fatal_of (next s') = None -> upper s' = (ev r (upper s)).2)) ->
  (forall r s fl s' y, stage_wf (next s) -> fatal_of (next s) = Some y ->
    st_push r s = Some (fl, s') ->
    fl = Continue /\ stage_wf (next s') /\ seen (next s') = seen (next s) /\
    fatal_of (next s') = Some y /\ term_fatal (next s') = term_fatal (next s)) ->
  (forall r s fl s', stage_wf (next s) -> (0 < strong (rec_ack r) (st_store (next s)))%nat ->
    st_push r s = Some (fl, s') -> forall a,
    (held a (next s) <= held a (next s'))%nat /\
    (strong a (st_store (next s')) + held a (next s) + (if decide (rec_ack r = a) then 1 else 0) =
     strong a (st_store (next s)) + held a (next s'))%nat) ->
  StageLaws S T O.
Proof.
  intros Hp Hl Hb. split.
  - intros r s fl s' Hw Hf He. rewrite delegate_fatal in *. by apply (Hp r s fl s').
  - intros r s fl s' y Hw Hf He. rewrite delegate_fatal in *. by apply (Hl r s fl s').
  - done.
  - intros s Hw. rewrite delegate_taken, delegate_put. destruct (sl_take (next s) Hw) as [A B].
    split; [|done]. by apply delegate_quiet.
  - intros s fl s' Hw Hf He. rewrite delegate_fatal in Hf. cbn in He, Hw.
    destruct (st_relieve (next s)) as [[f n]|] eqn:E; [|done]. injection He as <- <-.
    destruct (sl_relieve _ _ _ Hw Hf E) as [A B]. rewrite delegate_put.
    split; [|done]. by apply delegate_quiet.
  - intros s fl s' Hw Hf He. rewrite delegate_fatal in Hf. cbn in He, Hw.
    destruct (st_flush_terminal (next s)) as [[f n]|] eqn:E; [|done]. injection He as <- <-.
    destruct (sl_flush _ _ _ Hw Hf E) as [[A B C D F] X].
    rewrite delegate_taken, delegate_put, next_put. split; [|done].
    split; cbn; rewrite ?next_put, ?own_put; try done. by rewrite C.
  - intros s Hf. rewrite delegate_fatal in Hf. cbn. by apply (sl_term (next s)).
  - intros w s. cbn. by rewrite next_put, sl_store.
  - intros w s. rewrite !delegate_fatal. cbn. rewrite !next_put, own_put.
    destruct (sl_with_store w (next s)) as (A & B & C & D & E). by rewrite C.
Qed.
End delegate.

(** ** The combinators *)

Section map.
Context {G T U N O : Type} (f : G -> T -> U * G) `{StageLaws N U O}.

#[export] Instance map_spec : StageSpec (Map f N) T O :=
  delegate_spec map_next map_f (fun r x =>
    let '(u, g) := f x.1 (payload r) in
    let '(es, n) := events (with_payload u r) x.2 in (es, (g, n))).

#[export] Instance map_laws : StageLaws (Map f N) T O.
Proof.
  apply delegate_laws; try done.
  - intros r s fl s' Hw Hf He. cbn in He |- *. destruct (f (map_f s) (payload r)) as [u g].
    destruct (st_push _ (map_next s)) as [[f1 n]|] eqn:E; [|done]. injection He as <- <-.
    destruct (sl_push _ _ _ _ Hw Hf E) as (-> & A & new & B & C & D).
    split_and!; [done|done|]. exists new. cbn. destruct (events _ _) as [es u'].
    split_and!; [done|done|]. intros Hn. by rewrite (D Hn).
  - intros r s fl s' y Hw Hf He. cbn in He. destruct (f (map_f s) (payload r)) as [u g].
    destruct (st_push _ (map_next s)) as [[f1 n]|] eqn:E; [|done]. injection He as <- <-.
    by apply (sl_latched _ _ _ _ _ Hw Hf E).
  - intros r s fl s' Hw Hp He. cbn in He. destruct (f (map_f s) (payload r)) as [u g].
    destruct (st_push _ (map_next s)) as [[f1 n]|] eqn:E; [|done]. injection He as <- <-.
    exact (sl_balance (with_payload u r) _ _ _ Hw Hp E).
Qed.
End map.

Section inspect.
Context {G T N O : Type} (f : G -> T -> G) `{StageLaws N T O}.

#[export] Instance inspect_spec : StageSpec (Inspect f N) T O :=
  delegate_spec inspect_next inspect_f (fun r x =>
    let '(es, n) := events r x.2 in (es, (f x.1 (payload r), n))).

#[export] Instance inspect_laws : StageLaws (Inspect f N) T O.
Proof.
  apply delegate_laws; try done.
  - intros r s fl s' Hw Hf He. cbn in He |- *.
    destruct (st_push _ (inspect_next s)) as [[f1 n]|] eqn:E; [|done]. injection He as <- <-.
    destruct (sl_push _ _ _ _ Hw Hf E) as (-> & A & new & B & C & D).
    split_and!; [done|done|]. exists new. cbn. destruct (events _ _) as [es u'].
    split_and!; [done|done|]. intros Hn. by rewrite (D Hn).
  - intros r s fl s' y Hw Hf He. cbn in He.
    destruct (st_push _ (inspect_next s)) as [[f1 n]|] eqn:E; [|done]. injection He as <- <-.
    by apply (sl_latched _ _ _ _ _ Hw Hf E).
  - intros r s fl s' Hw Hp He. cbn in He.
    destruct (st_push _ (inspect_next s)) as [[f1 n]|] eqn:E; [|done]. injection He as <- <-.
    by apply (sl_balance _ _ _ _ Hw Hp E).
Qed.
End inspect.

(** A stage that drops the record touches the store only. *)
Lemma dropped_quiet {S T O} `{StageLaws S T O} a (s : S) :
  stage_wf s -> stage_wf (drop_handle a s) /\ seen (drop_handle a s) = seen s /\
  upper (drop_handle a s) = upper s /\ (forall b, held b (drop_handle a s) = held b s) /\
  fatal_of (drop_handle a s) = fatal_of s /\ term_fatal (drop_handle a s) = term_fatal s.
Proof. apply store_quiet. Qed.

Section filter.
Context {G T N O : Type} (p : G -> T -> bool * G) `{StageLaws N T O}.

#[export] Instance filter_spec : StageSpec (Filter p N) T O :=
  delegate_spec filter_next filter_p (fun r x =>
    let '(keep, g) := p x.1 (payload r) in
    if (keep : bool) then let '(es, n) := events r x.2 in (es, (g, n)) else ([], (g, x.2))).

#[export] Instance filter_laws : StageLaws (Filter p N) T O.
Proof.
  apply delegate_laws; try done.
  - intros r s fl s' Hw Hf He. cbn in He |- *.
    destruct (p (filter_p s) (payload r)) as [[] g].
    + destruct (st_push _ (filter_next s)) as [[f1 n]|] eqn:E; [|done]. injection He as <- <-.
      destruct (sl_push _ _ _ _ Hw Hf E) as (-> & A & new & B & C & D).
      split_and!; [done|done|]. exists new. cbn. destruct (events _ _) as [es u'].
      split_and!; [done|done|]. intros Hn. by rewrite (D Hn).
    + injection He as <- <-. cbn.
      destruct (dropped_quiet (rec_ack r) (filter_next s) Hw) as (A & B & C & D & E & F).
      split_and!; [done|done|]. exists []. rewrite app_nil_r, E, Hf. by rewrite C.
  - intros r s fl s' y Hw Hf He. cbn in He. destruct (p (filter_p s) (payload r)) as [[] g].
    + destruct (st_push _ (filter_next s)) as [[f1 n]|] eqn:E; [|done]. injection He as <- <-.
      by apply (sl_latched _ _ _ _ _ Hw Hf E).
    + injection He as <- <-. cbn.
      destruct (dropped_quiet (rec_ack r) (filter_next s) Hw) as (A & B & C & D & E & F).
      by rewrite E.
  - intros r s fl s' Hw Hp He a. cbn in He. destruct (p (filter_p s) (payload r)) as [[] g].
    + destruct (st_push _ (filter_next s)) as [[f1 n]|] eqn:E; [|done]. injection He as <- <-.
      by apply (sl_balance _ _ _ _ Hw Hp E).
    + injection He as <- <-. cbn [filter_next].
      destruct (dropped_quiet (rec_ack r) (filter_next s) Hw) as (_ & _ & _ & D & _).
      rewrite D. pose proof (drop_balance (rec_ack r) (filter_next s) a Hp). lia.
Qed.
End filter.

Section flat_map.
Context {G T U N O : Type} (g : G -> T -> list U * G) `{StageLaws N U O}.

#[export] Instance flat_spec : StageSpec (FlatMap g N) T O :=
  delegate_spec flat_next flat_g (fun r x =>
    let '(us, st) := g x.1 (payload r) in
    let '(es, n) := events_all ((fun u => with_payload u r) <$> us) x.2 in (es, (st, n))).

#[export] Instance flat_laws : StageLaws (FlatMap g N) T O.
Proof.
  apply delegate_laws; try done.
  - intros r s fl s' Hw Hf He. cbn in He |- *. destruct (g (flat_g s) (payload r)) as [us st].
    destruct (emit_all _ _ (flat_next s)) as [[f1 n]|] eqn:E; [|done]. injection He as <- <-.
    destruct (emit_all_spec _ _ _ _ _ Hw Hf E) as (-> & A & new & B & C & D).
    destruct (dropped_quiet (rec_ack r) n A) as (Q1 & Q2 & Q3 & _ & Q5 & Q6).
    split_and!; [done|done|]. exists new. cbn. rewrite Q2, Q3, Q5, Q6.
    destruct (events_all _ _) as [es u']. split_and!; [done|done|]. intros Hn. by rewrite (D Hn).
  - intros r s fl s' y Hw Hf He. cbn in He. destruct (g (flat_g s) (payload r)) as [us st].
    destruct (emit_all _ _ (flat_next s)) as [[f1 n]|] eqn:E; [|done]. injection He as <- <-.
    destruct (emit_all_latched _ y _ _ _ _ Hw Hf E) as (-> & A & B & C & D).
    destruct (dropped_quiet (rec_ack r) n A) as (Q1 & Q2 & Q3 & _ & Q5 & Q6).
    cbn. by rewrite Q2, Q5, Q6.
  - intros r s fl s' Hw Hp He a. cbn in He. destruct (g (flat_g s) (payload r)) as [us st].
    destruct (emit_all _ _ (flat_next s)) as [[f1 n]|] eqn:E; [|done]. injection He as <- <-.
    assert (HF : Forall (fun x => rec_ack x = rec_ack r) ((fun u => with_payload u r) <$> us))
      by (apply Forall_fmap, Forall_true; done).
    pose proof (emit_all_balance (rec_ack r) _ _ _ _ _ Hw HF Hp E) as Hb.
    assert (A : stage_wf n).
    { destruct (fatal_of (flat_next s)) as [y|] eqn:Ef.
      - by destruct (emit_all_latched _ y _ _ _ _ Hw Ef E) as (_ & ? & _).
      - by destruct (emit_all_spec _ _ _ _ _ Hw Ef E) as (_ & ? & _). }
    destruct (dropped_quiet (rec_ack r) n A) as (_ & _ & _ & D & _). cbn [flat_next]. rewrite D.
    pose proof (Hb (rec_ack r)). pose proof (Hb a).
    pose proof (drop_balance (rec_ack r) n a ltac:(lia)). lia.
Qed.
End flat_map.

Section try_map.
Context {G T U N O : Type} (f : G -> T -> (U + string) * G) `{StageLaws N U O}.

#[export] Instance try_spec : StageSpec (TryMap f N) T O := {
  ustate := G * ErrorPolicy * string * ustate;
  upper s := (try_f s, try_policy s, try_component s, upper (try_next s));
  events r x :=
    let '(g, policy, component, n) := x in
    match f g (payload r) with
    | (inl u, g) =>
        let '(es, n) := events (with_payload u r) n in (es, (g, policy, component, n))
    | (inr e, g) =>
        (match policy with Skip => [] | FailPolicy => [Trip (mkFatal component e)] end,
         (g, policy, component, n))
    end;
  seen s := seen (try_next s);
  term_fatal s := term_fatal (try_next s);
  held a s := held a (try_next s);
  stage_wf s := stage_wf (try_next s)
}.

Lemma try_fatal_of (s : TryMap f N) :
  fatal_of s = match fatal_of (try_next s) with Some x => Some x | None => try_fatal s end.
Proof. unfold fatal_of. cbn. by destruct (st_take_fatal (try_next s)). Qed.

Lemma try_taken (s : TryMap f N) :
  (st_take_fatal s).2 = mkTryMap (try_f s) (st_take_fatal (try_next s)).2 (try_policy s)
                          (try_component s) None.
Proof. cbn. by destruct (st_take_fatal (try_next s)). Qed.

Lemma try_quiet (s s' : TryMap f N) :
  quiet (try_next s) (try_next s') -> try_f s' = try_f s -> try_policy s' = try_policy s ->
  try_component s' = try_component s -> quiet s s'.
Proof. intros [A B C D E] E1 E2 E3. split; cbn; try done. by rewrite E1, E2, E3, C. Qed.

Lemma try_push_ok r (s : TryMap f N) fl s' :
  stage_wf s -> fatal_of s = None -> st_push r s = Some (fl, s') ->
  fl = Continue /\ stage_wf s' /\ exists new, seen s' = seen s ++ new /\
    stops (events r (upper s)).1 new (term_fatal s') (fatal_of s') /\
    (fatal_of s' = None -> upper s' = (events r (upper s)).2).
Proof.
  intros Hw Hf He. rewrite try_fatal_of in Hf. cbn in Hw.
  destruct (fatal_of (try_next s)) eqn:Hn; [done|]. cbn in He. rewrite Hf in He.
  cbn. destruct (f (try_f s) (payload r)) as [[u|e] g].
  - destruct (st_push _ (try_next s)) as [[f1 n]|] eqn:E; [|done]. injection He as <- <-.
    destruct (sl_push _ _ _ _ Hw Hn E) as (-> & A & new & B & C & D).
    rewrite try_fatal_of. cbn. split_and!; [done|done|]. exists new.
    destruct (events _ _) as [es u']. cbn in *. destruct (fatal_of n) as [y|]; [done|].
    split_and!; [done|done|]. intros _. by rewrite D.
  - injection He as <- <-. rewrite try_fatal_of. cbn.
    destruct (dropped_quiet (rec_ack r) (try_next s) Hw) as (A & B & C & D & E & F).
    rewrite E, F, Hn, C. split_and!; [done|done|]. exists []. rewrite app_nil_r.
    split_and!; [done| |by intros]. destruct (try_policy s); [done|]. cbn.
    exists [Trip (mkFatal (try_component s) e)]. split; [done|]. by rewrite (sl_term _ Hn).
Qed.

Lemma try_latched_ok r (s : TryMap f N) fl s' y :
  stage_wf s -> fatal_of s = Some y -> st_push r s = Some (fl, s') ->
  fl = Continue /\ stage_wf s' /\ seen s' = seen s /\ fatal_of s' = Some y /\
  term_fatal s' = term_fatal s.
Proof.
  intros Hw Hf He. rewrite try_fatal_of in Hf |- *. cbn in Hw, He |- *.
  destruct (dropped_quiet (rec_ack r) (try_next s) Hw) as (A & B & C & D & E & F).
  destruct (try_fatal s) as [x|] eqn:Et.
  { injection He as <- <-. cbn. by rewrite E. }
  destruct (fatal_of (try_next s)) as [z|] eqn:Hn; [|done]. injection Hf as ->.
  destruct (f (try_f s) (payload r)) as [[u|e] g].
  - destruct (st_push _ (try_next s)) as [[f1 n]|] eqn:Ep; [|done]. injection He as <- <-. cbn.
    destruct (sl_latched _ _ _ _ _ Hw Hn Ep) as (-> & H2 & H3 & H4 & H5). by rewrite H4.
  - injection He as <- <-. cbn. by rewrite E.
Qed.

Lemma try_balance_ok r (s : TryMap f N) fl s' :
  stage_wf s -> (0 < strong (rec_ack r) (st_store s))%nat -> st_push r s = Some (fl, s') ->
  forall a, (held a s <= held a s')%nat /\
  (strong a (st_store s') + held a s + (if decide (rec_ack r = a) then 1 else 0) =
   strong a (st_store s) + held a s')%nat.
Proof.
  intros Hw Hp He a. cbn in Hw, Hp, He.
  destruct (dropped_quiet (rec_ack r) (try_next s) Hw) as (_ & _ & _ & D & _).
  pose proof (drop_balance (rec_ack r) (try_next s) a Hp) as Hb.
  destruct (try_fatal s); [injection He as <- <-; cbn; rewrite D; lia|].
  destruct (f (try_f s) (payload r)) as [[u|e] g]; [|injection He as <- <-; cbn; rewrite D; lia].
  destruct (st_push _ (try_next s)) as [[f1 n]|] eqn:E; [|done]. injection He as <- <-.
  exact (sl_balance (with_payload u r) _ _ _ Hw Hp E a).
Qed.

#[export] Instance try_laws : StageLaws (TryMap f N) T O.
Proof.
  split; [apply try_push_ok|apply try_latched_ok|apply try_balance_ok|..].
  - intros s Hw. rewrite try_taken, try_fatal_of. cbn in Hw |- *.
    destruct (sl_take _ Hw) as [A B]. rewrite B. split; [|done]. by apply try_quiet.
  - intros s fl s' Hw Hf He. rewrite try_fatal_of in Hf. cbn in Hw, He.
    destruct (fatal_of (try_next s)) eqn:Hn; [done|].
    destruct (st_relieve (try_next s)) as [[f1 n]|] eqn:E; [|done]. injection He as <- <-.
    destruct (sl_relieve _ _ _ Hw Hn E) as [A B]. rewrite try_fatal_of. cbn. rewrite B.
    split; [|done]. by apply try_quiet.
  - intros s fl s' Hw Hf He. rewrite try_fatal_of in Hf. cbn in Hw, He.
    destruct (fatal_of (try_next s)) eqn:Hn; [done|].
    destruct (st_flush_terminal (try_next s)) as [[f1 n]|] eqn:E; [|done]. injection He as <- <-.
    destruct (sl_flush _ _ _ Hw Hn E) as [A B]. rewrite try_taken, try_fatal_of. cbn. rewrite B.
    split; [|done]. by apply try_quiet.
  - intros s Hf. rewrite try_fatal_of in Hf. cbn. apply (sl_term (try_next s)).
    by destruct (fatal_of (try_next s)).
  - intros w s. cbn. apply sl_store.
  - intros w s. rewrite !try_fatal_of. cbn.
    destruct (sl_with_store w (try_next s)) as (A & B & C & D & E & F). by rewrite C, E.
Qed.
End try_map.

(** ** The terminal stage of one sink *)

Definition occ (a : AckRef) (l : list AckRef) : nat := length (filter (fun x => x = a) l).
Arguments occ : simpl never.

Lemma occ_app a l1 l2 : occ a (l1 ++ l2) = (occ a l1 + occ a l2)%nat.
Proof. unfold occ. by rewrite filter_app, length_app. Qed.

Lemma occ_one a x : occ a [x] = if decide (x = a) then 1%nat else 0%nat.
Proof. unfold occ. rewrite filter_cons, filter_nil. by destruct (decide (x = a)). Qed.

Section handoff.
Context {T E C : Type} `{RowEncoder T E} `{FrameCodec C}.
Variable route : Rec T -> nat -> nat.
Variable cfg : ChunkConfig.
Variable name : string.
Local Notation SH := (SinkHandoff (T := T) (E := E) (C := C)).

(** The handles in the open shards, in the parked chunks, and in those sent. *)
Definition in_shards (a : AckRef) (ss : list (ShardBuf (T := T) (E := E))) : nat :=
  occ a (concat (acks <$> ss)).
Definition in_chunks (a : AckRef) (cs : list (nat * EncodedChunk T)) : nat :=
  occ a (concat ((fun x => c_acks x.2) <$> cs)).
Definition handles (a : AckRef) (h : SH) : nat :=
  (in_shards a (shards h) + in_chunks a (parked h) + in_chunks a (sent h))%nat.

Lemma in_chunks_app a l1 l2 : in_chunks a (l1 ++ l2) = (in_chunks a l1 + in_chunks a l2)%nat.
Proof. unfold in_chunks. by rewrite fmap_app, concat_app, occ_app. Qed.

Lemma in_shards_insert a ss idx s0 s :
  ss !! idx = Some s0 ->
  (in_shards a (<[idx := s]> ss) + occ a (acks s0) = in_shards a ss + occ a (acks s))%nat.
Proof.
  unfold in_shards. revert idx. induction ss as [|x ss IH]; intros [|idx] Hi; try done; cbn in *.
  - injection Hi as ->. rewrite !occ_app. lia.
  - rewrite !occ_app, <- !Nat.add_assoc. f_equal. exact (IH idx Hi).
Qed.

(** Handles only move from one place of the stage to another. *)
Definition moves (h h' : SH) : Prop :=
  world h' = world h /\ forall a, handles a h' = handles a h.

Lemma moves_refl h : moves h h.
Proof. done. Qed.

Lemma moves_trans h1 h2 h3 : moves h1 h2 -> moves h2 h3 -> moves h1 h3.
Proof. intros [A B] [A' B']. split; [congruence|]. intros a. by rewrite B', B. Qed.

Lemma hand_over_moves idx c s0 s h h' :
  shards h !! idx = Some s0 -> hand_over idx c s h = Some h' ->
  world h' = world h /\ fatal h' = fatal h /\
  forall a, (handles a h' + occ a (acks s0) = handles a h + occ a (c_acks c) + occ a (acks s))%nat.
Proof.
  intros Hs. unfold hand_over.
  assert (Hpark : forall a n, (in_shards a (<[idx := set_parked n s]> (shards h)) + occ a (acks s0)
    = in_shards a (shards h) + occ a (acks s))%nat)
    by (intros; rewrite (in_shards_insert a _ idx s0) by done; done).
  assert (Hone : forall a, in_chunks a [(idx, c)] = occ a (c_acks c))
    by (intros a; unfold in_chunks; cbn; by rewrite app_nil_r).
  destruct (decide _); [|destruct (try_send _ _ _) as [[]|]; cbn; [..|done]]; intros [= <-];
    (split_and!; [done|done|]); intros a; unfold handles; cbn; rewrite ?in_chunks_app, ?Hone.
  - specialize (Hpark a (wrap_u32 (sb_parked s + 1))). lia.
  - specialize (Hpark a (wrap_u32 (sb_parked s + 1))). lia.
  - pose proof (in_shards_insert a _ idx s0 s Hs). lia.
Qed.

Lemma ship_moves now idx fr s0 s h h' :
  shards h !! idx = Some s0 -> acks s = acks s0 -> ship now idx fr s h = Some h' ->
  moves h h' /\ fatal h' = fatal h.
Proof.
  intros Hs Ha. unfold ship. intros He. apply (hand_over_moves _ _ s0) in He as (A & B & D); [|done].
  split; [|done]. split; [done|]. intros a. specialize (D a). cbn in D. rewrite Ha in D.
  change (handles a (mkHandoff (shards h) (parked h) (codec h) (fatal h) (queues h)
    (Backpressure.add (Z.of_nat (length (buf s))) (budget h)) (world h) (sent h) (accepted h)))
    with (handles a h) in D. unfold occ in D. cbn in D. unfold occ. lia.
Qed.

Lemma set_shard_moves idx s0 s h :
  shards h !! idx = Some s0 -> acks s = acks s0 -> moves h (set_shard idx s h).
Proof.
  intros Hs Ha. split; [done|]. intros a. unfold handles. cbn.
  pose proof (in_shards_insert a _ idx s0 s Hs) as Hi. rewrite Ha in Hi. lia.
Qed.

Lemma seal_moves now idx h h' : seal_and_send now idx h = Some h' -> moves h h'.
Proof.
  unfold seal_and_send. destruct (shards h !! idx) as [s|] eqn:Hs; cbn; [|done].
  destruct (decide (rows s = 0)); [by intros [= <-]|].
  destruct (if decide _ then _ else _) as [[e b] [x|]].
  { intros [= <-]. by apply (set_shard_moves idx s). }
  destruct (codec h) as [c|]; [|intros He; by apply (ship_moves _ _ _ s) in He as [? _]].
  destruct (encode_frame c b) as [c' [x|coded]].
  - intros [= <-]. exact (set_shard_moves idx s (set_finished (Some (rows s)) (set_enc e b s))
      (set_codec c' h) Hs eq_refl).
  - intros He. by apply (ship_moves _ _ _ s) in He as [Hm _].
Qed.

Lemma drain_moves fuel : forall h cleared h',
  drain_loop fuel h = Some (cleared, h') -> moves h h' /\ fatal h' = fatal h.
Proof.
  induction fuel as [|fuel IH]; intros h cleared h'; cbn; [by intros [= _ <-]|].
  destruct (parked h) as [|[idx c] rest] eqn:Ep; [by intros [= _ <-]|].
  destruct (try_send idx c (queues h)) as [[c0|qs]|]; cbn; [by intros [= _ <-]| |done].
  destruct (shards h !! idx) as [s|] eqn:Hs; cbn; [|done]. intros He.
  apply IH in He as [[A B] D]. split; [|done]. split; [done|]. intros a. rewrite B.
  unfold handles. cbn. rewrite Ep, in_chunks_app.
  assert (Hone : forall l, in_chunks a ((idx, c) :: l) = (occ a (c_acks c) + in_chunks a l)%nat)
    by (intros l; unfold in_chunks; cbn; by rewrite occ_app).
  rewrite !Hone. change (in_chunks a []) with 0%nat.
  pose proof (in_shards_insert a _ idx s (set_parked (wrap_u32 (sb_parked s - 1)) s) Hs) as Hi.
  change (acks (set_parked _ s)) with (acks s) in Hi. lia.
Qed.

Lemma relieve_moves h fl h' :
  Handoff.relieve h = Some (fl, h') -> moves h h' /\ fatal h' = fatal h.
Proof.
  unfold Handoff.relieve. destruct (decide _); [by intros [= _ <-]|]. unfold drain_parked.
  destruct (drain_loop _ h) as [[cleared h1]|] eqn:Ed; cbn; [|done]. intros [= _ <-].
  by eapply drain_moves.
Qed.

Lemma seal_all_moves now idxs : forall h h', seal_all now idxs h = Some h' -> moves h h'.
Proof.
  induction idxs as [|i idxs IH]; intros h h'; cbn; [by intros [= <-]|].
  destruct (seal_and_send now i h) as [h1|] eqn:Ed; cbn; [|done]. intros He.
  eapply moves_trans; [by eapply seal_moves|by apply IH].
Qed.

Lemma flush_moves now h fl h' : Handoff.flush_terminal now h = Some (fl, h') -> moves h h'.
Proof.
  unfold Handoff.flush_terminal. destruct (seal_all _ _ h) as [h1|] eqn:Es; cbn; [|done].
  unfold drain_parked. destruct (drain_loop _ h1) as [[cleared h2]|] eqn:Ed; cbn; [|done].
  intros [= _ <-]. eapply moves_trans; [by eapply seal_all_moves|by eapply drain_moves].
Qed.

(** A record's handle is dropped; a clone stays where its batch is new to the
    shard. *)
Lemma take_record_handles now idx r s0 s h a :
  shards h !! idx = Some s0 -> acks s = acks s0 -> (0 < strong (rec_ack r) (world h))%nat ->
  (handles a h <= handles a (take_record now idx r s h))%nat /\
  (strong a (world (take_record now idx r s h)) + handles a h =
   strong a (world h) + handles a (take_record now idx r s h))%nat.
Proof.
  intros Hs Ha Hp. unfold take_record. set (fresh := bool_decide _). set (s1 := mkShard _ _ _ _ _ _ _ _ _ _).
  assert (Ho : occ a (acks s1) = (occ a (acks s0) +
    if fresh then if decide (rec_ack r = a) then 1 else 0 else 0)%nat).
  { subst s1. cbn [acks]. destruct fresh; [|rewrite Ha; lia].
    unfold AckSet_push. by rewrite occ_app, occ_one, Ha. }
  clearbody s1. pose proof (in_shards_insert a _ idx s0 s1 Hs) as Hi. unfold handles.
  cbn [shards parked sent world]. destruct fresh; [rewrite strong_clone by done|]; lia.
Qed.

Lemma dropped_handles r h a :
  (0 < strong (rec_ack r) (world h))%nat ->
  handles a (drop_record r h) = handles a h /\
  (strong a (world (drop_record r h)) + (if decide (rec_ack r = a) then 1 else 0))%nat =
    strong a (world h).
Proof. intros Hp. split; [done|]. by apply strong_drop. Qed.

Lemma drop_moved r h h1 h' a :
  (0 < strong (rec_ack r) (world h))%nat -> moves h h1 ->
  h' = drop_record r h1 \/ (exists x, h' = drop_record r (latch_fatal x h1)) ->
  (handles a h <= handles a h')%nat /\
  (strong a (world h') + handles a h + (if decide (rec_ack r = a) then 1 else 0) =
   strong a (world h) + handles a h')%nat.
Proof.
  intros Hp [M1 M2] Hh.
  assert (Hd : world h' = AckRef_drop (rec_ack r) (world h1) /\ handles a h' = handles a h1)
    by (by destruct Hh as [->|[x ->]]).
  destruct Hd as [-> ->]. rewrite M2, M1. pose proof (strong_drop (rec_ack r) a (world h) Hp). lia.
Qed.

Lemma push_handles now r h fl h' :
  (0 < strong (rec_ack r) (world h))%nat -> Handoff.push route cfg now r h = Some (fl, h') ->
  forall a, (handles a h <= handles a h')%nat /\
  (strong a (world h') + handles a h + (if decide (rec_ack r = a) then 1 else 0) =
   strong a (world h) + handles a h')%nat.
Proof.
  intros Hp He a. unfold Handoff.push in He. destruct (fatal h).
  { injection He as <- <-. destruct (dropped_handles r h a Hp) as [-> <-]. lia. }
  set (idx := route r _) in *. destruct (shards h !! idx) as [s|] eqn:Hs; cbn in He; [|done].
  destruct (encode (encoder s) r (buf s)) as [[e b] [x|]].
  { assert (Hm : moves h (set_shard idx (set_enc e (take (length (buf s)) b) s) h))
      by (by apply (set_shard_moves idx s)).
    apply (drop_moved _ _ _ _ _ Hp Hm). injection He as _ <-.
    destruct (encode_policy cfg), (se_class x); eauto. }
  destruct (take_record_handles now idx r s (set_enc e b s) h a Hs eq_refl Hp) as [K1 K2].
  pose proof (take_record_handles now idx r s (set_enc e b s) h (rec_ack r) Hs eq_refl Hp) as [K3 K4].
  set (h1 := take_record _ _ _ _ _) in *.
  assert (Hp1 : (0 < strong (rec_ack r) (world h1))%nat) by lia.
  assert (Hm : exists h2, moves h1 h2 /\ h' = drop_record r h2).
  { destruct (decide _); cbn in He; [|injection He as _ <-; by exists h1].
    destruct (seal_and_send now idx h1) as [h2|] eqn:E2; cbn in He; [|done]. injection He as _ <-.
    exists h2. split; [by eapply seal_moves|done]. }
  destruct Hm as (h2 & Hm & ->).
  pose proof (drop_moved r h1 h2 _ a Hp1 Hm (or_introl eq_refl)) as Hd. lia.
Qed.

(** Other threads touch the queues alone. *)
Lemma queue_event_frame q h :
  let h' := default h (handoff_step route cfg (queue_op q) h) in
  moves h h' /\ fatal h' = fatal h.
Proof.
  destruct q as [i c|i|i]; cbn.
  - destruct (try_send i c (queues h)) as [[]|]; done.
  - by destruct (senders (queues h) !! i).
  - by destruct (senders (queues h) !! i).
Qed.

Lemma enter_frame (s : HandoffStage route cfg name E C) :
  moves (hs_base s) (hs_enter route cfg name s).2 /\
  fatal (hs_enter route cfg name s).2 = fatal (hs_base s).
Proof.
  unfold hs_enter. destruct (hs_script s (hs_ticks s)) as [now qs]. cbn.
  generalize (hs_base s) as h. induction qs as [|q qs IH]; intros h; [done|]. cbn [foldl].
  destruct (queue_event_frame q h) as [A B]. destruct (IH (default h (handoff_step route cfg (queue_op q) h))) as [D F].
  split; [by eapply moves_trans|congruence].
Qed.

#[export] Instance handoff_spec : StageSpec (HandoffStage route cfg name E C) T T := {
  ustate := unit;
  upper _ := tt;
  events r _ := ([Out r], tt);
  seen := hs_seen;
  term_fatal s := (fun x => mkFatal name (se_text x)) <$> fatal (hs_base s);
  held a s := handles a (hs_base s);
  stage_wf _ := True
}.

Lemma handoff_fatal (s : HandoffStage route cfg name E C) :
  fatal_of s = (fun x => mkFatal name (se_text x)) <$> fatal (hs_base s).
Proof. done. Qed.

Lemma push_continues now r (h : SH) fl h' : Handoff.push route cfg now r h = Some (fl, h') ->
  fl = Continue /\ forall x, fatal h = Some x -> fatal h' = Some x.
Proof.
  unfold Handoff.push. destruct (fatal h) as [x|] eqn:Ef.
  { intros [= <- <-]. cbn. by rewrite Ef. }
  destruct (shards h !! _) as [s|]; cbn; [|done].
  destruct (encode (encoder s) r (buf s)) as [[e b] [x|]]; [by intros [= <- _]|].
  destruct (if decide _ then _ else _) as [h1|]; cbn; [|done]. by intros [= <- _].
Qed.

#[export] Instance handoff_laws : StageLaws (HandoffStage route cfg name E C) T T.
Proof.
  split.
  - intros r s fl s' _ Hf He. rewrite handoff_fatal in Hf. cbn in He.
    pose proof (enter_frame s) as [_ Ef]. destruct (hs_enter route cfg name s) as [now h].
    destruct (Handoff.push route cfg now r h) as [[f1 h1]|] eqn:Ep; [|done]. injection He as <- <-.
    apply push_continues in Ep as [-> _]. apply fmap_None in Hf.
    split_and!; [done|done|]. exists [r]. rewrite handoff_fatal. cbn. rewrite Hf.
    split_and!; [done| |done]. destruct (fatal h1); [|done]. cbn. by exists [].
  - intros r s fl s' y _ Hf He. rewrite handoff_fatal in Hf. cbn in He.
    pose proof (enter_frame s) as [_ Ef]. destruct (hs_enter route cfg name s) as [now h].
    destruct (Handoff.push route cfg now r h) as [[f1 h1]|] eqn:Ep; [|done]. injection He as <- <-.
    apply push_continues in Ep as [-> Hk]. apply fmap_Some in Hf as (x & Hx & ->). cbn in Ef.
    rewrite handoff_fatal. cbn. rewrite Hx. rewrite (Hk x) by congruence. done.
  - intros r s fl s' _ Hp He a. cbn in He, Hp.
    pose proof (enter_frame s) as [[E1 E2] _]. destruct (hs_enter route cfg name s) as [now h].
    destruct (Handoff.push route cfg now r h) as [[f1 h1]|] eqn:Ep; [|done]. injection He as <- <-.
    cbn in *. rewrite <- E1, <- E2 in *. by apply (push_handles now r h f1 h1).
  - intros s _. split; [|done]. by split.
  - intros s fl s' _ Hf He. cbn in He. rewrite handoff_fatal in *.
    pose proof (enter_frame s) as [[E1 E2] Ef]. destruct (hs_enter route cfg name s) as [now h].
    destruct (Handoff.relieve h) as [[f1 h1]|] eqn:Er; [|done]. injection He as <- <-.
    apply relieve_moves in Er as [[A B] D]. cbn in *. split; [|by rewrite D, Ef].
    split; cbn; try done; [|congruence]. intros a. by rewrite B, E2.
  - intros s fl s' _ Hf He. cbn in He.
    pose proof (enter_frame s) as [[E1 E2] Ef]. destruct (hs_enter route cfg name s) as [now h].
    destruct (Handoff.flush_terminal now h) as [[f1 h1]|] eqn:Er; [|done]. injection He as <- <-.
    apply flush_moves in Er as [A B]. cbn in *. split; [|done].
    split; cbn; try done; [|congruence]. intros a. etrans; [apply B|apply E2].
  - done.
  - done.
  - done.
Qed.
End handoff.

(** ** The terminal stage of several sinks *)

Section split.
Context {G T R B O : Type} `{StageLaws B R O}.
Variable route : G -> T -> list (nat * nat * R) * G.
(** A [u32] counts a record's emissions. *)
Hypothesis short_routes : forall g x, Z.of_nat (length (route g x).1) <= U32_MAX.

Definition held_all (a : AckRef) (bs : list (nat * B)) : nat :=
  sum_list_with (fun x => held a x.2) bs.
Arguments held_all : simpl never.
Definition unlatched (bs : list (nat * B)) : Prop := Forall (fun x => fatal_of x.2 = None) bs.
Definition branches_wf (bs : list (nat * B)) : Prop := Forall (fun x => stage_wf x.2) bs.

Lemma earliest_None bs : earliest bs = None <-> unlatched bs.
Proof.
  unfold earliest, unlatched. induction bs as [|[fam b] bs IH]; cbn; [done|].
  rewrite Forall_cons. unfold fatal_of at 1. cbn.
  destruct ((st_take_fatal b).1) as [x|] eqn:Ex; [naive_solver|].
  rewrite IH. naive_solver.
Qed.

Lemma held_all_insert a bs idx fam b fam' b' :
  bs !! idx = Some (fam, b) ->
  (held_all a (<[idx := (fam', b')]> bs) + held a b = held_all a bs + held a b')%nat.
Proof.
  unfold held_all. revert idx. induction bs as [|x bs IH]; intros [|idx] Hi; try done; cbn in *.
  - injection Hi as ->. cbn. lia.
  - rewrite <- !Nat.add_assoc. f_equal. exact (IH idx Hi).
Qed.

#[export] Instance split_spec : StageSpec (Split route B) T (nat * R) := {
  ustate := G * ErrorPolicy * string;
  upper s := (sp_route s, sp_unmatched s, sp_component s);
  events r x :=
    let '(g, policy, component) := x in
    let '(xs, g) := route g (payload r) in
    (match xs with
     | [] => match policy with Skip => [] | FailPolicy => [Trip (no_branch component)] end
     | _ => (fun x => Out (with_payload (x.1.1, x.2) r)) <$> xs
     end, (g, policy, component));
  seen := sp_seen;
  term_fatal s := earliest (sp_branches s);
  held a s := held_all a (sp_branches s);
  stage_wf s := branches_wf (sp_branches s) /\
    (is_Some (sp_fatal s) -> earliest (sp_branches s) = None) /\
    (sp_latched s = true <-> is_Some (earliest (sp_branches s)))
}.

Definition row_of (r : Rec T) (x : nat * nat * R) : Rec (nat * R) :=
  with_payload (x.1.1, x.2) r.

Lemma split_emits_latched (r : Rec T) xs : forall em em',
  em_latched em = true -> split_emits r xs em = Some em' -> em' = em.
Proof.
  induction xs as [|[[idx family] row] xs IH]; intros em em' Hl He; [by injection He as <-|].
  cbn in He. destruct (em_branches em !! idx) as [[fam b]|]; [|done]. cbn in He.
  destruct (bool_decide (fam = family)); cbn in He; [|done]. rewrite Hl in He. cbn in He.
  by apply IH.
Qed.

(** One emission to branches none of which is latched. *)
Lemma split_emit_spec (r : Rec T) x em em' :
  em_latched em = false -> branches_wf (em_branches em) -> unlatched (em_branches em) ->
  em_flow em = Continue -> split_emit r x em = Some em' ->
  branches_wf (em_branches em') /\ em_flow em' = Continue /\
  em_emitted em' = wrap_u32 (em_emitted em + 1) /\ em_seen em' = em_seen em ++ [row_of r x] /\
  (em_latched em' = true <-> is_Some (earliest (em_branches em'))) /\
  (em_latched em' = false -> unlatched (em_branches em')).
Proof.
  intros Hl Hw Hu Hf He. destruct x as [[idx family] row]. cbn in He.
  destruct (em_branches em !! idx) as [[fam b]|] eqn:Hb; [|done]. cbn in He.
  destruct (bool_decide (fam = family)); cbn in He; [|done]. rewrite Hl in He.
  pose proof (Forall_lookup_1 _ _ _ _ Hw Hb) as Wb. pose proof (Forall_lookup_1 _ _ _ _ Hu Hb) as Ub.
  cbn in Wb, Ub. unfold clone_handle in He. rewrite sl_store in He.
  destruct (store_quiet (em_store em) b Wb) as (W1 & _ & _ & _ & F1 & _).
  destruct (store_quiet (AckRef_clone (rec_ack r) (em_store em)) _ W1) as (W2 & _ & _ & _ & F2 & _).
  destruct (st_push _ _) as [[fl b1]|] eqn:Ep; [|done]. injection He as <-. cbn.
  destruct (push_wf _ _ _ _ W2 Ep) as [-> W3].
  assert (Hrest : unlatched (<[idx := (fam, b1)]> (em_branches em)) <-> fatal_of b1 = None).
  { split.
    - intros HF. apply (Forall_lookup_1 _ _ idx (fam, b1)) in HF; [done|].
      apply list_lookup_insert_eq. by eapply lookup_lt_Some.
    - intros Hn. by apply Forall_insert. }
  split_and!; [by apply Forall_insert|by rewrite Hf|done|done| |].
  - rewrite bool_decide_eq_true, <- not_eq_None_Some, <- not_eq_None_Some, earliest_None, Hrest. done.
  - rewrite bool_decide_eq_false, <- not_eq_None_Some. intros Hn. apply Hrest.
    by apply dec_stable.
Qed.

(** The rows up to the one that latched a branch were pushed. *)
Lemma split_emits_spec (r : Rec T) xs : forall em em',
  em_latched em = false -> branches_wf (em_branches em) -> unlatched (em_branches em) ->
  em_flow em = Continue -> split_emits r xs em = Some em' ->
  branches_wf (em_branches em') /\ em_flow em' = Continue /\
  (em_latched em' = true <-> is_Some (earliest (em_branches em'))) /\
  exists xs1 xs2, xs = xs1 ++ xs2 /\ em_seen em' = em_seen em ++ (row_of r <$> xs1) /\
    em_emitted em' = Nat.iter (length xs1) (fun n => wrap_u32 (n + 1)) (em_emitted em) /\
    if em_latched em' then xs1 <> [] else xs2 = [].
Proof.
  induction xs as [|x xs IH]; intros em em' Hl Hw Hu Hf He.
  { injection He as <-. rewrite Hl. split_and!; [done|done| |].
    - apply earliest_None in Hu. rewrite Hu. split; [done|]. intros [? [=]].
    - exists [], []. split_and!; [done|by rewrite app_nil_r|done|done]. }
  cbn [split_emits] in He. destruct (split_emit r x em) as [em1|] eqn:E1; cbn in He; [|done].
  destruct (split_emit_spec r x em em1 Hl Hw Hu Hf E1) as (A1 & A2 & A3 & A4 & A5 & A6).
  destruct (em_latched em1) eqn:L1.
  - apply split_emits_latched in He as ->; [|done]. rewrite L1. split_and!; [done|done|done|].
    exists [x], xs. by rewrite A3.
  - destruct (IH em1 em' L1 A1 (A6 eq_refl) A2 He) as (B1 & B2 & B3 & xs1 & xs2 & -> & B5 & B6 & B7).
    split_and!; [done|done|done|]. exists (x :: xs1), xs2. split_and!; [done| | |].
    + by rewrite B5, A4, <- app_assoc.
    + cbn [length]. by rewrite Nat.iter_succ_r, B6, A3.
    + by destruct (em_latched em').
Qed.

Lemma split_emitted n : Z.of_nat n <= U32_MAX ->
  Nat.iter n (fun n => wrap_u32 (n + 1)) 0 = Z.of_nat n.
Proof.
  intros Hn. induction n as [|n IH]; [done|]. rewrite Nat.iter_succ, IH by lia.
  unfold wrap_u32, U32_MAX in *. rewrite Z.mod_small; lia.
Qed.

Lemma split_fatal (s : Split route B) :
  fatal_of s = match earliest (sp_branches s) with Some x => Some x | None => sp_fatal s end.
Proof. done. Qed.

Lemma split_push_ok r (s : Split route B) fl s' :
  stage_wf s -> fatal_of s = None -> st_push r s = Some (fl, s') ->
  fl = Continue /\ stage_wf s' /\ exists new, seen s' = seen s ++ new /\
    stops (events r (upper s)).1 new (term_fatal s') (fatal_of s') /\
    (fatal_of s' = None -> upper s' = (events r (upper s)).2).
Proof.
  intros (Hw & _ & Hlat) Hf He. rewrite split_fatal in Hf.
  destruct (earliest (sp_branches s)) eqn:Ee; [done|]. apply earliest_None in Ee.
  cbn in He. rewrite Hf in He. cbn in He.
  destruct (sp_latched s); [destruct (proj1 Hlat eq_refl); done|].
  pose proof (short_routes (sp_route s) (payload r)) as Hshort. cbn.
  destruct (route (sp_route s) (payload r)) as [xs g]. cbn in Hshort.
  destruct (split_emits r xs _) as [em|] eqn:E1; cbn in He; [|done]. injection He as <- <-.
  apply split_emits_spec in E1 as (A1 & A2 & A3 & xs1 & xs2 & -> & A5 & A6 & A7); try done.
  cbn in A5, A6.
  assert (Hcount : em_emitted em = Z.of_nat (length xs1)).
  { rewrite A6. apply split_emitted. rewrite length_app in Hshort. lia. }
  assert (Hz : bool_decide (Z.of_nat (length xs1) = 0) = bool_decide (xs1 = [])).
  { apply bool_decide_ext. destruct xs1; cbn; [done|]. split; [lia|done]. }
  assert (Hrows : (fun x => Out (with_payload (x.1.1, x.2) r)) <$> xs1 ++ xs2 =
    (Out <$> (row_of r <$> xs1)) ++ (Out <$> (row_of r <$> xs2)))
    by (by rewrite <- fmap_app, <- fmap_app, <- list_fmap_compose).
  cbn. rewrite Hcount, A5, Hz, A2. split_and!; try done.
  - intros Hs. destruct (earliest (em_branches em)); [|done].
    destruct (em_latched em); [|by destruct A3 as [_ A3]; discriminate A3].
    rewrite bool_decide_false in Hs by done. by destruct Hs.
  - exists (row_of r <$> xs1). split_and!; [done| |done].
    destruct (earliest (em_branches em)) as [y|] eqn:Ey; cbn.
    + destruct (em_latched em); [|by destruct A3 as [_ A3]; discriminate A3; eauto].
      destruct xs1 as [|x xs1]; [done|]. cbn [app]. exists (Out <$> (row_of r <$> xs2)).
      split; [exact Hrows|]. by split.
    + destruct (em_latched em); [by destruct (proj1 A3 eq_refl)|]. subst xs2.
      rewrite !app_nil_r in *. destruct xs1 as [|x xs1].
      * rewrite bool_decide_true by done. destruct (sp_unmatched s); [done|]. cbn. by eexists.
      * rewrite bool_decide_false by done. exact Hrows.
Qed.

Lemma split_latched_ok r (s : Split route B) fl s' y :
  stage_wf s -> fatal_of s = Some y -> st_push r s = Some (fl, s') ->
  fl = Continue /\ stage_wf s' /\ seen s' = seen s /\ fatal_of s' = Some y /\
  term_fatal s' = term_fatal s.
Proof.
  intros (Hw & Hown & Hlat) Hf He. rewrite split_fatal in Hf. cbn in He.
  assert (Hb : bool_decide (is_Some (sp_fatal s)) || sp_latched s = true).
  { apply orb_true_iff. rewrite bool_decide_eq_true.
    destruct (earliest (sp_branches s)); [right; apply Hlat; eauto|left; eauto]. }
  rewrite Hb in He. injection He as <- <-. by split_and!.
Qed.

(** An emission's clone is the branch's, or is given back. *)
Lemma split_emit_balance (r : Rec T) x em em' :
  branches_wf (em_branches em) -> (0 < strong (rec_ack r) (em_store em))%nat ->
  split_emit r x em = Some em' ->
  branches_wf (em_branches em') /\ forall a,
  (held_all a (em_branches em) <= held_all a (em_branches em'))%nat /\
  (strong a (em_store em') + held_all a (em_branches em) =
   strong a (em_store em) + held_all a (em_branches em'))%nat.
Proof.
  intros Hw Hp He. destruct x as [[idx family] row]. cbn in He.
  destruct (em_branches em !! idx) as [[fam b]|] eqn:Hb; [|done]. cbn in He.
  destruct (bool_decide (fam = family)); cbn in He; [|done].
  destruct (em_latched em); [injection He as <-; split; [done|lia]|].
  pose proof (Forall_lookup_1 _ _ _ _ Hw Hb) as Wb. cbn in Wb.
  unfold clone_handle in He. rewrite sl_store in He.
  destruct (store_quiet (em_store em) b Wb) as (W1 & _ & _ & K1 & _).
  destruct (store_quiet (AckRef_clone (rec_ack r) (em_store em)) _ W1) as (W2 & _ & _ & K2 & _).
  destruct (st_push _ _) as [[fl b1]|] eqn:Ep; [|done]. injection He as <-. cbn.
  destruct (push_wf _ _ _ _ W2 Ep) as [_ W3]. split; [by apply Forall_insert|]. intros a.
  assert (Hpos : (0 < strong (rec_ack r) (AckRef_clone (rec_ack r) (em_store em)))%nat)
    by (rewrite strong_clone by done; lia).
  pose proof (sl_balance (with_payload row r) _ _ _ W2
    ltac:(rewrite sl_store; exact Hpos) Ep a) as Hbal.
  rewrite K2, K1, sl_store, strong_clone in Hbal by done. cbn [rec_ack with_payload] in Hbal.
  pose proof (held_all_insert a _ idx fam b fam b1 Hb). destruct (decide (rec_ack r = a)); lia.
Qed.

Lemma split_emits_balance (r : Rec T) xs : forall em em',
  branches_wf (em_branches em) -> (0 < strong (rec_ack r) (em_store em))%nat ->
  split_emits r xs em = Some em' -> forall a,
  (held_all a (em_branches em) <= held_all a (em_branches em'))%nat /\
  (strong a (em_store em') + held_all a (em_branches em) =
   strong a (em_store em) + held_all a (em_branches em'))%nat.
Proof.
  induction xs as [|x xs IH]; intros em em' Hw Hp He a; [injection He as <-; lia|].
  cbn [split_emits] in He. destruct (split_emit r x em) as [em1|] eqn:E1; cbn in He; [|done].
  destruct (split_emit_balance r x em em1 Hw Hp E1) as [W1 Hb].
  pose proof (Hb (rec_ack r)). pose proof (Hb a).
  pose proof (IH em1 em' W1 ltac:(lia) He a). lia.
Qed.

Lemma split_balance_ok r (s : Split route B) fl s' :
  stage_wf s -> (0 < strong (rec_ack r) (st_store s))%nat -> st_push r s = Some (fl, s') ->
  forall a, (held a s <= held a s')%nat /\
  (strong a (st_store s') + held a s + (if decide (rec_ack r = a) then 1 else 0) =
   strong a (st_store s) + held a s')%nat.
Proof.
  intros (Hw & _) Hp He a. cbn in Hp, He. destruct (_ || _).
  { injection He as <- <-. cbn. pose proof (strong_drop (rec_ack r) a _ Hp). lia. }
  destruct (route (sp_route s) (payload r)) as [xs g].
  destruct (split_emits r xs _) as [em|] eqn:E1; cbn in He; [|done]. injection He as <- <-. cbn.
  pose proof (split_emits_balance r xs (mkEmitter (sp_branches s) 0 Continue false (sp_store s)
    (sp_seen s)) em Hw Hp E1) as Hb. cbn in Hb.
  pose proof (Hb (rec_ack r)). pose proof (Hb a).
  pose proof (strong_drop (rec_ack r) a (em_store em) ltac:(lia)). lia.
Qed.

(** A branch after an operation: sound, not latched, and with the same handles. *)
Definition settled (b b' : B) : Prop :=
  stage_wf b' /\ fatal_of b' = None /\ forall a, held a b' = held a b.

Lemma each_branch_all (f : B -> option (Flow * B)) (post : B -> B -> Prop) bs : forall fl bs',
  branches_wf bs -> unlatched bs ->
  (forall b fl b', stage_wf b -> fatal_of b = None -> f b = Some (fl, b') -> post b b') ->
  each_branch f bs = Some (fl, bs') -> Forall2 (fun x y => post x.2 y.2) bs bs'.
Proof.
  induction bs as [|[fam b] bs IH]; intros fl bs' Hw Hu Hf He; [injection He as _ <-; constructor|].
  apply Forall_cons in Hw as [W1 Hw]. apply Forall_cons in Hu as [U1 Hu]. cbn in He, W1, U1.
  destruct (f b) as [[f1 b1]|] eqn:E1; cbn in He; [|done].
  destruct (each_branch f bs) as [[f2 bs1]|] eqn:E2; cbn in He; [|done]. injection He as _ <-.
  constructor; [by eapply Hf|by eapply IH].
Qed.

Lemma settled_all bs bs' :
  Forall2 (fun x y => settled x.2 y.2) bs bs' ->
  branches_wf bs' /\ unlatched bs' /\ forall a, held_all a bs' = held_all a bs.
Proof.
  induction 1 as [|[f1 b1] [f2 b2] bs bs' (A & B' & D) _ (IH1 & IH2 & IH3)].
  { split_and!; [constructor|constructor|done]. }
  split_and!; [by constructor|by constructor|]. intros a. unfold held_all in *. cbn in *.
  by rewrite D, IH3.
Qed.

Lemma settled_store w b b' : stage_wf b -> settled (st_with_store w b) b' -> settled b b'.
Proof.
  intros Hw (A & B' & D). destruct (store_quiet w b Hw) as (_ & _ & _ & K & _).
  split_and!; [done|done|]. intros a. by rewrite D, K.
Qed.

Lemma taken_all bs :
  Forall2 (fun x y : nat * B => settled x.2 (st_take_fatal y.2).2) bs bs ->
  Forall2 (fun x y => settled x.2 y.2) bs ((fun x => (x.1, (st_take_fatal x.2).2)) <$> bs).
Proof. intros Hf. by apply Forall2_fmap_r. Qed.

Lemma split_take_ok (s : Split route B) : stage_wf s ->
  quiet s (st_take_fatal s).2 /\ fatal_of (st_take_fatal s).2 = None.
Proof.
  intros (Hw & Hown & _).
  assert (Hall : Forall2 (fun x y => settled x.2 y.2) (sp_branches s)
    ((fun x => (x.1, (st_take_fatal x.2).2)) <$> sp_branches s)).
  { apply taken_all. apply Forall_Forall2_diag. eapply Forall_impl; [exact Hw|]. intros [fam b] Wb.
    cbn in *. destruct (sl_take b Wb) as [[Q1 _ _ Q4 _] Q]. by split_and!. }
  apply settled_all in Hall as (A & U & D). apply earliest_None in U.
  assert (Hfat : match earliest (sp_branches s) with Some _ => sp_fatal s | None => None end = None).
  { destruct (earliest (sp_branches s)); [|done]. destruct (sp_fatal s); [|done].
    discriminate (Hown (ex_intro _ _ eq_refl)). }
  split; [split; cbn; try done|].
  - rewrite U, Hfat. split_and!; [done|done|]. split; [done|]. by intros [? [=]].
  - rewrite split_fatal. cbn. by rewrite U, Hfat.
Qed.

Lemma split_ready (s : Split route B) :
  stage_wf s -> fatal_of s = None ->
  branches_wf (sp_branches s) /\ unlatched (sp_branches s) /\ sp_fatal s = None /\
  sp_latched s = false.
Proof.
  intros (Hw & _ & Hl) Hf. rewrite split_fatal in Hf.
  destruct (earliest (sp_branches s)) eqn:Ee; [done|]. apply earliest_None in Ee.
  split_and!; try done. destruct (sp_latched s); [|done]. by destruct (proj1 Hl eq_refl).
Qed.

#[export] Instance split_laws : StageLaws (Split route B) T (nat * R).
Proof.
  split; [apply split_push_ok|apply split_latched_ok|apply split_balance_ok|apply split_take_ok|..].
  - intros s fl s' Hw Hf He. destruct (split_ready s Hw Hf) as (W & U & F & L). cbn in He.
    destruct (each_branch _ _) as [[f1 bs]|] eqn:E1; [|done]. injection He as _ <-.
    apply (each_branch_all _ settled) in E1; [|done|done|].
    2:{ intros b f2 b' Wb Ub E2. apply (settled_store (sp_store s)); [done|].
        destruct (store_quiet (sp_store s) b Wb) as (W1 & _ & _ & _ & F1 & _).
        destruct (sl_relieve _ _ _ W1 ltac:(by rewrite F1) E2) as [[Q1 _ _ Q4 _] Q].
        by split_and!. }
    apply settled_all in E1 as (A & A' & D). apply earliest_None in A'.
    rewrite split_fatal. cbn. rewrite A', F. split; [|done]. split; cbn; try done.
    rewrite ?A', ?F, ?L. split_and!; [done|done|]. split; [done|]. by intros [? [=]].
  - intros s fl s' Hw Hf He. destruct (split_ready s Hw Hf) as (W & U & F & L). cbn in He.
    destruct (each_branch _ _) as [[f1 bs]|] eqn:E1; [|done]. injection He as _ <-.
    apply (each_branch_all _ (fun b b' => settled b (st_take_fatal b').2)) in E1; [|done|done|].
    2:{ intros b f2 b' Wb Ub E2. apply (settled_store (sp_store s)); [done|].
        destruct (store_quiet (sp_store s) b Wb) as (W1 & _ & _ & _ & F1 & _).
        destruct (sl_flush _ _ _ W1 ltac:(by rewrite F1) E2) as [[Q1 _ _ Q4 _] Q].
        by split_and!. }
    assert (E2 : Forall2 (fun x y => settled x.2 y.2) (sp_branches s)
      ((fun x => (x.1, (st_take_fatal x.2).2)) <$> bs)) by (by apply Forall2_fmap_r).
    apply settled_all in E2 as (A & A' & D). apply earliest_None in A'.
    rewrite split_fatal. cbn. rewrite A', F.
    split; [|by destruct (earliest bs)]. split; cbn; try done.
    rewrite ?A', ?F. split_and!; [done|by destruct (earliest bs)|]. split; [done|]. by intros [? [=]].
  - intros s Hf. rewrite split_fatal in Hf. cbn. by destruct (earliest (sp_branches s)).
  - done.
  - done.
Qed.
End split.

(** ** A batch through the chain *)

Section chain.
Context {S T O : Type} `{StageLaws S T O}.

Local Notation W := (CWorld S T).
Local Notation ops w := (tc_ops (cw_chain w)).

(** The batch: its handle and payloads; what the terminal had seen, the
    closures' states and the history when it came; and for each handle how many
    more there were than the terminal's. *)
Variables (a : AckRef) (bid : BatchId) (ps : list RawPayload).
Variables (E0 : list (Rec O)) (U0 : ustate) (D0 : list (RawPayload * list T)) (K : AckRef -> Z).

Definition recs_of (x : RawPayload * list T) : list (Rec T) := rec_of a bid x.1 <$> x.2.
Definition all_events (d : list (RawPayload * list T)) : list (Event O) * ustate :=
  events_all (concat (recs_of <$> d)) U0.

Lemma all_events_snoc d x :
  all_events (d ++ [x]) =
    ((all_events d).1 ++ (events_all (recs_of x) (all_events d).2).1,
     (events_all (recs_of x) (all_events d).2).2).
Proof.
  unfold all_events. rewrite fmap_app, concat_app, events_all_app. cbn. by rewrite app_nil_r.
Qed.

(** Where the chain is in the batch. *)
Record at_ (k : Z) (q : option PendingPayload) (R : list RawPayload) (w : W) : Prop := mk_at {
  at_cursor : tc_cursor (cw_chain w) = k;
  at_pending : tc_pending (cw_chain w) = q;
  at_rest : cw_rest w = R;
  at_mid : tc_mid_batch (cw_chain w) = true;
  at_ack : cw_ack w = a;
  at_batch : cw_batch w = bid;
}.

Definition balanced (s : S) : Prop :=
  forall c, Z.of_nat (strong c (st_store s)) - Z.of_nat (held c s) = K c.

(** The payloads [d] are processed, and nothing is latched. *)
Record processed (d : list (RawPayload * list T)) (s : S) : Prop := mk_processed {
  pr_wf : stage_wf s;
  pr_clear : fatal_of s = None;
  pr_seen : exists new, (all_events d).1 = Out <$> new /\ seen s = E0 ++ new;
  pr_upper : upper s = (all_events d).2;
  pr_bal : balanced s;
}.

(** One more was emitted into the stack. *)
Record emitted (d : list (RawPayload * list T)) (raw : RawPayload) (ys : list T) (s : S)
    : Prop := mk_emitted {
  em_wf : stage_wf s;
  em_new : exists new, seen s = E0 ++ new /\
    stops (all_events (d ++ [(raw, ys)])).1 new (term_fatal s) (fatal_of s);
  em_upper : fatal_of s = None -> upper s = (all_events (d ++ [(raw, ys)])).2;
  em_bal : balanced s;
}.

(** The fatal [x] stopped the chain on the payload [raw], and was taken to leave
    the stack [s]: the first fatal its records came to, the one the terminal had
    latched, or the deserializer's. *)
Definition why (rest : list (Event O)) (x : FatalError) (s : S) : Prop :=
  head rest = Some (Trip x) \/
  (exists s0, st_take_fatal s0 = (Some x, s) /\ term_fatal s0 = Some x) \/
  (rest = [] /\ component x = "deserializer").
Record stopped (d : list (RawPayload * list T)) (raw : RawPayload) (x : FatalError) (s : S)
    : Prop := mk_stopped {
  sd_wf : stage_wf s;
  sd_clear : fatal_of s = None;
  sd_new : exists ys new rest, seen s = E0 ++ new /\
    (all_events (d ++ [(raw, ys)])).1 = (Out <$> new) ++ rest /\ why rest x s;
  sd_bal : balanced s;
}.

Lemma balanced_quiet s s' : quiet s s' -> balanced s -> balanced s'.
Proof. intros [_ _ _ Q4 Q5] Hb c. rewrite Q4, Q5. apply Hb. Qed.

Lemma processed_quiet d s s' :
  quiet s s' -> fatal_of s' = None -> processed d s -> processed d s'.
Proof.
  intros HQ Hf [A B C D F]. split; [apply HQ|done| | |by eapply balanced_quiet].
  - by rewrite (qt_seen _ _ HQ).
  - by rewrite (qt_upper _ _ HQ).
Qed.

Lemma emit_step d raw ys fl s s' :
  0 < K a -> processed d s -> emit_all (rec_of a bid raw <$> ys) Continue s = Some (fl, s') ->
  fl = Continue /\ emitted d raw ys s' /\ (ys = [] -> processed d s').
Proof.
  intros HK HP He. pose proof HP as [A B (new & C1 & C2) D F].
  destruct (emit_all_spec _ _ _ _ _ A B He) as (-> & W1 & new' & S1 & S2 & S3).
  split_and!; [done| |].
  - split; [done| | |].
    + exists (new ++ new'). rewrite S1, C2, app_assoc. split; [done|].
      rewrite all_events_snoc. cbn [fst]. rewrite <- D. by apply stops_more.
    + intros Hn. rewrite all_events_snoc. cbn [snd]. rewrite <- D. by apply S3.
    + intros c.
      assert (HF : Forall (fun r => rec_ack r = a) (rec_of a bid raw <$> ys))
        by (apply Forall_fmap, Forall_true; done).
      pose proof (F a). pose proof (F c).
      pose proof (emit_all_balance a _ _ _ _ _ A HF ltac:(lia) He c). lia.
  - intros ->. by injection He as <-.
Qed.

Lemma take_step_ok d raw ys s :
  emitted d raw ys s -> let s' := (st_take_fatal s).2 in
  match fatal_of s with
  | Some x => stopped d raw x s'
  | None => processed (d ++ [(raw, ys)]) s'
  end.
Proof.
  intros [A (new & B1 & B2) C D]. cbv zeta. destruct (sl_take s A) as [HQ Hf].
  pose proof (balanced_quiet _ _ HQ D) as Hb.
  destruct (fatal_of s) as [x|] eqn:Ex.
  - split; [apply HQ|done| |done]. destruct B2 as (rest & B2 & B3). exists ys, new, rest.
    rewrite (qt_seen _ _ HQ). split_and!; [done|done|].
    destruct (term_fatal s) as [z|] eqn:Ez; [|by left]. destruct B3 as [-> _]. right. left.
    exists s. split; [|done]. unfold fatal_of in Ex. by rewrite <- Ex, <- surjective_pairing.
  - apply (processed_quiet _ s); [done|done|]. split; [done|done| |by apply C|done]. by exists new.
Qed.

Hypothesis HK : 0 < K a.
Hypothesis Hsize : Z.of_nat (length ps) <= U64_MAX.

Lemma ens_run_ops {A} (P : W -> Prop) (f : S -> option (A * S)) (R : A -> W -> Prop) :
  (forall w x s', P w -> f (ops w) = Some (x, s') ->
     R x (mkCWorld (with_ops s' (cw_chain w)) (cw_rest w) (cw_ack w) (cw_batch w))) ->
  ensures P (run_ops f) R.
Proof.
  intros Hf. apply ens_get_bind. intros w. destruct (f (ops w)) as [[x s']|] eqn:E;
    [|apply ens_stop]. eapply ens_bind; [apply (ens_modify _ _ (fun _ => R x))|].
  - intros w' [-> HP]. by apply Hf.
  - intros []. by apply ens_ret.
Qed.

(** A step on one payload, [d] processed before it. *)
Definition before (d : list (RawPayload * list T)) k q R (w : W) : Prop :=
  at_ k q R w /\ tc_done (cw_chain w) = D0 ++ d /\ processed d (ops w).
Definition after (d : list (RawPayload * list T)) (raw : RawPayload) k q R (x : Step) (w : W)
    : Prop :=
  at_ k q R w /\
  match x with
  | StepContinue | StepBackpressure => exists ys,
      tc_done (cw_chain w) = D0 ++ d ++ [(raw, ys)] /\ processed (d ++ [(raw, ys)]) (ops w)
  | StepNotReady => tc_done (cw_chain w) = D0 ++ d /\ processed d (ops w)
  | StepFatal x => stopped d raw x (ops w)
  end.

Lemma ens_take d raw ys k q R :
  ensures (fun w => at_ k q R w /\ tc_done (cw_chain w) = D0 ++ d /\ emitted d raw ys (ops w))
    take_fatal_now
    (fun x w => at_ k q R w /\ tc_done (cw_chain w) = D0 ++ d /\
       match x with
       | Some x => stopped d raw x (ops w)
       | None => processed (d ++ [(raw, ys)]) (ops w)
       end).
Proof.
  apply ens_run_ops. intros w x s' (Ha & Hd & He) [= E]. pose proof (take_step_ok _ _ _ _ He) as Ht.
  cbv zeta in Ht. unfold fatal_of in Ht. rewrite E in Ht. cbn in Ht.
  destruct Ha. split_and!; [by split|done|]. by destruct x.
Qed.

Lemma ens_settle d raw ys k q R :
  ensures (fun w => at_ k q R w /\ tc_done (cw_chain w) = D0 ++ d /\ emitted d raw ys (ops w))
    (settle_payload raw ys Continue) (after d raw k q R).
Proof.
  eapply ens_bind; [apply ens_take|]. intros [x|].
  { apply ens_ret. intros w (Ha & _ & Hs). by split. }
  eapply ens_bind; [apply (ens_modify _ _ (fun _ w => at_ k q R w /\
    tc_done (cw_chain w) = D0 ++ d ++ [(raw, ys)] /\ processed (d ++ [(raw, ys)]) (ops w)))|].
  { intros w (Ha & Hd & Hp). destruct Ha. split_and!; [by split|cbn; by rewrite Hd, app_assoc|done]. }
  intros []. eapply ens_bind; [apply (ens_run_ops _ _ (fun _ w => at_ k q R w /\
    tc_done (cw_chain w) = D0 ++ d ++ [(raw, ys)] /\ processed (d ++ [(raw, ys)]) (ops w)))|].
  { intros w x s' (Ha & Hd & Hp) E. destruct (sl_relieve _ _ _ (pr_wf _ _ Hp) (pr_clear _ _ Hp) E).
    destruct Ha. split_and!; [by split|done|]. by eapply processed_quiet. }
  intros fl. apply ens_ret. intros w (Ha & Hd & Hp). split; [done|]. destruct fl; eauto.
Qed.

Lemma ens_deser_fatal d raw ys k q R e :
  component e = "deserializer" ->
  ensures (fun w => at_ k q R w /\ tc_done (cw_chain w) = D0 ++ d /\ emitted d raw ys (ops w))
    (x ← take_fatal_now; mret (StepFatal (default e x))) (after d raw k q R).
Proof.
  intros Hc. eapply ens_bind; [apply ens_take|]. intros x. apply ens_ret.
  intros w (Ha & _ & Hs). split; [done|]. destruct x as [x|]; [done|].
  destruct Hs as [A B (new & C1 & C2) D F]. split; [done|done| |done].
  exists ys, new, []. split_and!; [done|by rewrite app_nil_r|]. by right; right.
Qed.

Lemma ens_deser d raw k q R :
  ensures (before d k q R) (deser_step raw) (after d raw k q R).
Proof.
  eapply ens_bind; [apply (ens_ask _ _ (fun x w => deser_answer x = Some x /\ before d k q R w))|].
  { intros x y w Hx HP. split; [|done].
    destruct x as [[|] [[]|]]; cbn in Hx; by simplify_eq. }
  intros [ys res]. apply ens_get_bind. intros w.
  eapply ens_bind; [apply (ens_run_ops _ _ (fun fl w' => fl = Continue /\
    deser_answer (ys, res) = Some (ys, res) /\ at_ k q R w' /\ tc_done (cw_chain w') = D0 ++ d /\
    emitted d raw ys (ops w') /\ (ys = [] -> processed d (ops w'))))|].
  { intros w' x s' (-> & Hans & Ha & Hd & Hp) E. destruct Ha as [A1 A2 A3 A4 A5 A6].
    rewrite A5, A6 in E. destruct (emit_step _ _ _ _ _ _ HK Hp E) as (-> & He & Hn).
    split_and!; done. }
  intros fl w' t' st w'' t'' (-> & Hans & Ha & Hd & He & Hn).
  assert (Hpre : at_ k q R w' /\ tc_done (cw_chain w') = D0 ++ d /\ emitted d raw ys (ops w')) by done.
  revert Hpre. destruct res as [[e|e|e|e]|].
  - destruct (tc_policy (cw_chain w)); [apply ens_settle|by apply ens_deser_fatal].
  - destruct (tc_policy (cw_chain w)); [apply ens_settle|by apply ens_deser_fatal].
  - intros _ E. injection E as <- <- _. split; [done|]. split; [done|]. apply Hn.
    by destruct ys.
  - by apply ens_deser_fatal.
  - apply ens_settle.
Qed.

(** ** A push of the batch *)

(** The chain is inside the batch: [d] is processed, and the stashed payload and
    what the batch has yet to yield are the rest of it. *)
Definition inside (d : list (RawPayload * list T)) q R (w : W) : Prop :=
  before d (Z.of_nat (length d)) q R w /\ d.*1 ++ (as_raw <$> option_list q) ++ R = ps.

Definition came_to (R : list RawPayload) (o : option ChainOutcome) (w : W) : Prop :=
  match o with
  | None => exists d, inside d None R w
  | Some ChainDone => False
  | Some (ChainBlocked k nr) => exists d q,
      inside d q R w /\ k = Z.of_nat (length d) /\ nr = bool_decide (is_Some q)
  | Some (ChainFatal x) => exists d raw,
      d.*1 ++ raw :: R = ps /\ cw_ack w = a /\ stopped d raw x (ops w)
  end.

Lemma from_as_raw p : as_raw (from_raw p) = p.
Proof. by destruct p. Qed.

Lemma at_with_cursor k k' q R w :
  at_ k q R w ->
  at_ k' q R (mkCWorld (with_cursor k' (cw_chain w)) (cw_rest w) (cw_ack w) (cw_batch w)).
Proof. intros []. by split. Qed.

Lemma ens_take_step d raw again x R :
  as_raw again = raw -> d.*1 ++ raw :: R = ps ->
  ensures (after d raw (Z.of_nat (length d)) None R x) (take_step again x) (came_to R).
Proof.
  intros Ha Hps. assert (Hlen : Z.of_nat (length d) + 1 <= U64_MAX).
  { rewrite <- Hps, length_app, length_fmap in Hsize. cbn in Hsize. lia. }
  assert (Hone : forall w, after d raw (Z.of_nat (length d)) None R StepContinue w ->
    exists d', inside d' None R
      (mkCWorld (with_cursor (wrap_u64 (tc_cursor (cw_chain w) + 1)) (cw_chain w))
         (cw_rest w) (cw_ack w) (cw_batch w))).
  { intros w (Hat & ys & Hd & Hp). exists (d ++ [(raw, ys)]). split; [split_and!|].
    - rewrite length_app, (at_cursor _ _ _ _ Hat), wrap_u64_small by (unfold_int; lia). cbn [length].
      rewrite Nat2Z.inj_add. by apply at_with_cursor with (Z.of_nat (length d)).
    - done.
    - done.
    - rewrite fmap_app, <- app_assoc. done. }
  destruct x as [| | |x]; unfold take_step.
  - eapply ens_bind; [apply (ens_modify _ _ (fun _ => came_to R None))|intros []; by apply ens_ret].
    exact Hone.
  - eapply ens_bind; [apply (ens_modify _ _ (fun _ w => exists d', inside d' None R w)), Hone|].
    intros []. apply ens_get_bind. intros w. apply ens_ret. intros w' (-> & d' & Hin).
    exists d', None. split; [done|]. split; [apply Hin|done].
  - eapply ens_bind; [apply (ens_modify _ _ (fun _ w => inside d (Some again) R w))|].
    { intros w ([] & Hd & Hp). split; [|cbn; by rewrite Ha]. split_and!; [by split|done|done]. }
    intros []. apply ens_get_bind. intros w. apply ens_ret. intros w' [-> Hin].
    exists d, (Some again). split; [done|]. split; [apply Hin|done].
  - apply ens_ret. intros w [[] Hs]. by exists d, raw.
Qed.

Lemma ens_replay d q R : ensures (inside d q R) replay (came_to R).
Proof.
  apply ens_get_bind. intros w.
  destruct (tc_pending (cw_chain w)) as [p|] eqn:Hp.
  2:{ apply ens_ret. intros w' (-> & [([] & Hd & Hpr) Hps]). exists d.
      assert (q = None) as -> by congruence. split; [|done]. split_and!; [by split|done|done]. }
  intros w1 t o w2 t' [-> Hin] Hrun. assert (q = Some p) as ->.
  { destruct Hin as [([] & _) _]. congruence. }
  destruct Hin as [([] & Hd & Hpr) Hps]. revert Hrun.
  apply (ens_bind (fun w' => w' = w) _ _ (fun _ => before d (Z.of_nat (length d)) None R)); [| |done].
  { apply ens_modify. intros ? ->. split_and!; [by split|done|done]. }
  intros []. eapply ens_bind; [apply ens_deser|]. intros x. by apply ens_take_step.
Qed.

Definition round_post d R (r : option (option ChainOutcome)) (w : W) : Prop :=
  match r with
  | Some None => R = [] /\ inside d None [] w
  | None => R <> [] /\ came_to (tail R) None w
  | Some (Some o) => came_to (tail R) (Some o) w
  end.

Lemma ens_next_round d R : ensures (inside d None R) next_round (round_post d R).
Proof.
  apply ens_get_bind. intros w w1 t o w2 t' [-> Hin] Hrun.
  pose proof Hin as [([] & Hd & Hpr) Hps]. revert Hrun.
  destruct (cw_rest w) as [|raw rest] eqn:Hr; subst R.
  { intros [= <- <- <-]. done. }
  apply (ens_bind (fun w' => w' = w) _ _ (fun _ => before d (Z.of_nat (length d)) None rest)); [| |done].
  { apply ens_modify. intros ? ->. split_and!; [by split|done|done]. }
  intros []. eapply ens_bind; [apply ens_deser|]. intros x.
  eapply ens_bind; [apply ens_take_step; [apply from_as_raw|done]|].
  intros o1. apply ens_ret. intros w' Hc. by destruct o1.
Qed.

Lemma ens_pull n : forall d R, (length R < n)%nat ->
  ensures (inside d None R) (pull n)
    (fun o w => match o with
                | None => exists d, inside d None [] w
                | Some _ => exists R', came_to R' o w
                end).
Proof.
  induction n as [|n IH]; intros d R Hn; [lia|]. cbn [pull].
  eapply ens_bind; [apply ens_next_round|]. intros [[o|]|].
  - apply ens_ret. eauto.
  - apply ens_ret. intros w [_ Hw]. eauto.
  - intros w t o w' t' [HR [d' Hin]]. apply (IH d' (tail R)); [|done].
    destruct R; [done|]. cbn in *. lia.
Qed.

(** What a push of the batch comes to. A fatal one fails the batch's handle in
    the store, and nothing else of the stack [s] it stopped on. *)
Definition push_post (o : ChainOutcome) (w : W) : Prop :=
  match o with
  | ChainDone => exists d, d.*1 = ps /\ tc_done (cw_chain w) = D0 ++ d /\ processed d (ops w) /\
      tc_mid_batch (cw_chain w) = false /\ tc_pending (cw_chain w) = None
  | ChainBlocked k nr => exists d q R,
      inside d q R w /\ k = Z.of_nat (length d) /\ (nr = true -> is_Some q)
  | ChainFatal x => exists d raw R s, d.*1 ++ raw :: R = ps /\ stopped d raw x s /\
      ops w = st_with_store (AckRef_fail a (st_store s)) s /\
      tc_mid_batch (cw_chain w) = false /\ tc_pending (cw_chain w) = None
  end.

Lemma ens_conclude R o :
  ensures (came_to R (Some o))
    match o with
    | ChainFatal x =>
        fail_batch ;;; on_chain (fun c => with_mid false (with_pending None c)) ;;;
        mret (ChainFatal x)
    | blocked => mret blocked
    end push_post.
Proof.
  destruct o as [|k nr|x].
  - apply ens_ret. done.
  - apply ens_ret. intros w (d & q & Hin & -> & ->). exists d, q, R. split_and!; [done|done|].
    apply bool_decide_eq_true_1.
  - eapply ens_bind; [apply ens_get_bind; intros w; apply (ens_modify _ _ (fun _ w' => exists w0,
      came_to R (Some (ChainFatal x)) w0 /\
      ops w' = st_with_store (AckRef_fail a (st_store (ops w0))) (ops w0)))|].
    { intros w' (-> & d & raw & Hps & Hack & Hs). exists w. split; [by exists d, raw|].
      cbn. by rewrite Hack. }
    intros []. eapply ens_bind; [apply (ens_modify _ _ (fun _ => push_post (ChainFatal x)))|].
    { intros w' (w0 & (d & raw & Hps & _ & Hs) & Hops). by exists d, raw, R, (ops w0). }
    intros []. by apply ens_ret.
Qed.

(** The chain before the batch's first push. *)
Record start (w : W) : Prop := mk_start {
  st_mid : tc_mid_batch (cw_chain w) = false;
  st_rest : cw_rest w = ps;
  st_ack : cw_ack w = a;
  st_batch : cw_batch w = bid;
  st_done : tc_done (cw_chain w) = D0;
  st_ops : processed [] (ops w);
}.

Lemma ens_push d q R from (P : W -> Prop) :
  (forall w, P w -> inside d q R w \/ start w /\ d = [] /\ q = None /\ R = ps) ->
  ensures P (push_batch from) push_post.
Proof.
  intros HP. eapply ens_bind; [apply (ens_modify _ _ (fun _ => inside d q R))|].
  { intros w [[([] & Hd & Hp) Hps]|([] & -> & -> & ->)]%HP.
    - rewrite at_mid0. by split; [split_and!; [split|..]|].
    - rewrite st_mid0. by split; [split_and!; [split|cbn; by rewrite app_nil_r|]|]. }
  intros []. eapply ens_bind; [apply (ens_run_ops _ _ (fun _ => inside d q R))|].
  { intros w x s' [([] & Hd & Hp) Hps] E.
    destruct (sl_relieve _ _ _ (pr_wf _ _ Hp) (pr_clear _ _ Hp) E).
    split; [|done]. split_and!; [by split|done|]. by eapply processed_quiet. }
  intros [].
  2:{ apply ens_get_bind. intros w. apply ens_ret. intros w' [-> Hin]. exists d, q, R.
      split; [done|]. split; [apply Hin|done]. }
  eapply ens_bind; [apply ens_replay|]. intros o. apply ens_get_bind. intros w.
  destruct o as [o|].
  { eapply ens_bind; [apply (ens_ret _ _ (fun x w' => x = Some o /\ came_to R (Some o) w'));
      by intros ? [-> ?]|].
    intros x. intros w1 t1 o1 w2 t2 [-> Hc]. pose proof (ens_conclude R o) as He.
    destruct o; exact (He w1 t1 o1 w2 t2 Hc). }
  eapply (ens_bind _ _ _ (fun o w => match o with
                | None => exists d, inside d None [] w
                | Some _ => exists R', came_to R' o w
                end)).
  { intros w1 t1 o1 w2 t2 [-> [d' Hin]]. apply (ens_pull _ d' R); [|done].
    destruct Hin as [([] & _) _]. subst R. lia. }
  intros [o|].
  - intros w1 t1 o1 w2 t2 [R' Hc]. pose proof (ens_conclude R' o) as He.
    destruct o; exact (He w1 t1 o1 w2 t2 Hc).
  - eapply ens_bind; [apply (ens_modify _ _ (fun _ => push_post ChainDone))|].
    { intros w' (d' & ([] & Hd & Hp) & Hps). exists d'. rewrite app_nil_r in Hps. done. }
    intros []. by apply ens_ret.
Qed.

Lemma ens_attempts n from (P : W -> Prop) :
  (forall w, P w -> start w \/ exists d q R, inside d q R w) ->
  ensures P (attempts n from) push_post.
Proof.
  assert (Hpush : forall from (P : W -> Prop), (forall w, P w -> start w \/ exists d q R, inside d q R w) ->
    ensures P (push_batch from) push_post).
  { intros f P' HP w t o w' t' [Hs|(d & q & R & Hi)]%HP E.
    - by apply (ens_push [] None ps f start) with w t t'; auto.
    - by apply (ens_push d q R f (inside d q R)) with w t t'; auto. }
  revert from P. induction n as [|n IH]; intros from P HP; cbn [attempts];
    (eapply ens_bind; [by apply Hpush|]; intros [|k nr|x]); try (by apply ens_ret).
  apply IH. intros w (d & q & R & Hi & _). eauto.
Qed.
End chain.
