(* ===== verification/ChainTotal.v ===== *)
(** * The chain as a whole

    [StageLive] is the rest of what a stage promises: its operations return.
    Each combinator and both terminals keep that promise too. With it, a batch
    pushed into a chain of any stages comes to an end, and the properties of the
    chain are stated of whole batches: what reaches the terminal, in which order,
    what is reported, and which handles are left. *)

From stdpp Require Import base list gmap strings.
From Stdlib Require Import ZArith Lia.
From S2P Require Import Prelude Ack EndCheck Handoff Oracle Chain ChainProofs.

(** ** Stages return *)

Class StageLive (S T : Type) `{Collector S T} `{StageLifecycle S} := {
  live : S -> Prop;
  lv_push : forall r s, live s -> exists fl s', st_push r s = Some (fl, s') /\ live s';
  lv_take : forall s, live s -> live (st_take_fatal s).2;
  lv_relieve : forall s, live s -> exists fl s', st_relieve s = Some (fl, s') /\ live s';
  lv_flush : forall s, live s -> exists fl s', st_flush_terminal s = Some (fl, s') /\ live s';
  lv_store : forall w s, live s -> live (st_with_store w s);
}.

Lemma emit_all_live {S T} `{StageLive S T} rs : forall flow s,
  live s -> exists fl s', emit_all rs flow s = Some (fl, s') /\ live s'.
Proof.
  induction rs as [|r rs IH]; intros flow s Hs; cbn [emit_all]; [eauto|].
  destruct (lv_push r (clone_handle (rec_ack r) s)) as (fl & s1 & -> & Hs1); [by apply lv_store|].
  by apply IH.
Qed.

Section live.
Context {G T U N : Type} `{HN : StageLive N U}.

(** A combinator that passes the lifecycle on. *)
Definition delegate_live {S} `{HC : Collector S T} (next : S -> N) (put : N -> S -> S) :
  (forall n s, next (put n s) = n) ->
  (forall r s, live (next s) -> exists fl s', st_push r s = Some (fl, s') /\ live (next s')) ->
  @StageLive S T HC (delegate next put).
Proof.
  intros Hput Hpush. refine (@Build_StageLive S T HC (delegate next put) (fun s => live (next s)) _ _ _ _ _).
  - exact Hpush.
  - intros s Hs. cbn. pose proof (lv_take _ Hs). destruct (st_take_fatal (next s)). cbn. by rewrite Hput.
  - intros s Hs. cbn. destruct (lv_relieve _ Hs) as (fl & n & -> & Hn). cbn.
    eexists _, _. split; [done|]. by rewrite Hput.
  - intros s Hs. cbn. destruct (lv_flush _ Hs) as (fl & n & -> & Hn). cbn.
    eexists _, _. split; [done|]. by rewrite Hput.
  - intros w s Hs. cbn. rewrite Hput. by apply lv_store.
Defined.

#[export] Instance map_live (f : G -> T -> U * G) : StageLive (Map f N) T.
Proof.
  apply delegate_live; [done|]. intros r s Hs. cbn. destruct (f (map_f s) (payload r)) as [u g].
  destruct (lv_push (with_payload u r) _ Hs) as (fl & n & -> & Hn). cbn. eauto.
Defined.

#[export] Instance flat_live (g : G -> T -> list U * G) : StageLive (FlatMap g N) T.
Proof.
  apply delegate_live; [done|]. intros r s Hs. cbn. destruct (g (flat_g s) (payload r)) as [us st].
  destruct (emit_all_live ((fun u => with_payload u r) <$> us) Continue _ Hs) as (fl & n & -> & Hn).
  cbn. eexists _, _. split; [done|]. by apply lv_store.
Defined.

#[export] Instance try_live (f : G -> T -> (U + string) * G) : StageLive (TryMap f N) T.
Proof.
  refine (Build_StageLive _ _ _ _ (fun s => live (try_next s)) _ _ _ _ _).
  - intros r s Hs. cbn. destruct (try_fatal s) as [x|].
    { eexists _, _. split; [done|]. by apply lv_store. }
    destruct (f (try_f s) (payload r)) as [[u|e] g].
    + destruct (lv_push (with_payload u r) _ Hs) as (fl & n & -> & Hn). cbn. eauto.
    + eexists _, _. split; [done|]. by apply lv_store.
  - intros s Hs. cbn. pose proof (lv_take _ Hs). by destruct (st_take_fatal (try_next s)).
  - intros s Hs. cbn. destruct (lv_relieve _ Hs) as (fl & n & -> & Hn). cbn. eauto.
  - intros s Hs. cbn. destruct (lv_flush _ Hs) as (fl & n & -> & Hn). cbn. eauto.
  - intros w s Hs. by apply lv_store.
Defined.
End live.

#[export] Instance inspect_live {G T N} `{StageLive N T} (f : G -> T -> G) :
  StageLive (Inspect f N) T.
Proof.
  apply delegate_live; [done|]. intros r s Hs. cbn.
  destruct (lv_push r _ Hs) as (fl & n & -> & Hn). cbn. eauto.
Defined.

#[export] Instance filter_live {G T N} `{StageLive N T} (p : G -> T -> bool * G) :
  StageLive (Filter p N) T.
Proof.
  apply delegate_live; [done|]. intros r s Hs. cbn.
  destruct (p (filter_p s) (payload r)) as [[|] g].
  - destruct (lv_push r _ Hs) as (fl & n & -> & Hn). cbn. eauto.
  - eexists _, _. split; [done|]. by apply lv_store.
Defined.

(** ** The terminal of one sink returns *)

Section handoff.
Context {T E C : Type} `{RowEncoder T E} `{FrameCodec C}.
Variable route : Rec T -> nat -> nat.
Variable cfg : ChunkConfig.
Variable name : string.
Hypothesis router : routes_in_range route.
Local Notation SinkHandoff := (SinkHandoff (T := T) (E := E) (C := C)).

(** There is a queue for each shard, and parked chunks belong to shards. *)
Record shape (h : SinkHandoff) : Prop := mk_shape {
  sh_queues : length (shards h) = num_shards (queues h);
  sh_some : (0 < length (shards h))%nat;
  sh_parked : Forall (fun x => (x.1 < length (shards h))%nat) (parked h);
}.

Lemma shape_frame (h h' : SinkHandoff) :
  shape h -> length (shards h') = length (shards h) -> parked h' = parked h ->
  num_shards (queues h') = num_shards (queues h) -> shape h'.
Proof. intros [A B D] E1 E2 E3. split; [congruence|by rewrite E1|by rewrite E1, E2]. Qed.

Lemma hand_over_shape idx c s h :
  shape h -> (idx < length (shards h))%nat ->
  exists h', hand_over idx c s h = Some h' /\ shape h' /\ length (shards h') = length (shards h).
Proof.
  intros HS Hi. pose proof HS as [A B D]. unfold hand_over.
  assert (Hpark : forall s', shape (mkHandoff (<[idx := s']> (shards h)) (parked h ++ [(idx, c)])
    (codec h) (fatal h) (queues h) (budget h) (world h) (sent h) (accepted h))).
  { intros s'. split; cbn; rewrite length_insert; [done|done|]. apply Forall_app; by split; [|constructor]. }
  destruct (decide (0 < sb_parked s)).
  { eexists. split; [done|]. split; [apply Hpark|cbn; by rewrite length_insert]. }
  destruct (try_send_total idx c (queues h)) as [r Hr]; [by rewrite <- A|]. rewrite Hr.
  apply try_send_Some in Hr. cbn. eexists. split; [done|]. destruct r as [c'|qs].
  - split; [apply Hpark|cbn; by rewrite length_insert].
  - split; [|cbn; by rewrite length_insert]. apply (shape_frame h); [done|cbn; by rewrite length_insert|done|done].
Qed.

Lemma seal_shape now idx h :
  shape h -> (idx < length (shards h))%nat ->
  exists h', seal_and_send now idx h = Some h' /\ shape h' /\ length (shards h') = length (shards h).
Proof.
  intros HS Hi. unfold seal_and_send. destruct (lookup_lt_is_Some_2 _ _ Hi) as [s Hs]. rewrite Hs. cbn.
  destruct (decide (rows s = 0)); [by eauto|].
  destruct (if decide (finished_rows s = Some (rows s)) then _ else _) as [[e b] [x|]].
  { eexists. split; [done|]. cbn. rewrite length_insert. split; [|done].
    apply (shape_frame h); [done|cbn; by rewrite length_insert|done|done]. }
  destruct (codec h) as [k|].
  - destruct (encode_frame k b) as [k' [x|coded]].
    + eexists. split; [done|]. cbn. rewrite length_insert. split; [|done].
      apply (shape_frame h); [done|cbn; by rewrite length_insert|done|done].
    + unfold ship. eapply (hand_over_shape idx _ _ (mkHandoff (shards h) _ _ _ _ _ _ _ _));
        [by apply (shape_frame h)|done].
  - unfold ship. eapply (hand_over_shape idx _ _ (mkHandoff (shards h) _ _ _ _ _ _ _ _));
      [by apply (shape_frame h)|done].
Qed.

Lemma seal_all_shape now idxs : forall h,
  shape h -> Forall (fun i => (i < length (shards h))%nat) idxs ->
  exists h', seal_all now idxs h = Some h' /\ shape h'.
Proof.
  induction idxs as [|i idxs IH]; intros h HS HF; cbn [seal_all]; [eauto|].
  apply Forall_cons in HF as [Hi HF]. destruct (seal_shape now i h HS Hi) as (h1 & -> & HS1 & L1).
  cbn. apply IH; [done|by rewrite L1].
Qed.

Lemma drain_shape fuel : forall h, shape h -> exists ok h', drain_loop fuel h = Some (ok, h') /\ shape h'.
Proof.
  induction fuel as [|fuel IH]; intros h HS; cbn [drain_loop]; [eauto|].
  destruct (parked h) as [|[idx c] rest] eqn:Hp; [eauto|]. pose proof HS as [A B D].
  rewrite Hp in D. apply Forall_cons in D as [Hi D]. cbn in Hi.
  destruct (try_send_total idx c (queues h)) as [r Hr]; [by rewrite <- A|]. rewrite Hr.
  apply try_send_Some in Hr. cbn. destruct r as [c'|qs]; [eauto|].
  destruct (lookup_lt_is_Some_2 _ _ Hi) as [s ->]. cbn. apply IH.
  split; cbn; rewrite length_insert; [congruence|done|done].
Qed.

Lemma push_shape now r h : shape h -> exists fl h', Handoff.push route cfg now r h = Some (fl, h') /\ shape h'.
Proof.
  intros HS. unfold Handoff.push. destruct (fatal h).
  { eexists _, _. split; [done|]. by apply (shape_frame h). }
  pose proof (router r (length (shards h)) (sh_some _ HS)) as Hi.
  destruct (lookup_lt_is_Some_2 _ _ Hi) as [s ->]. cbn.
  destruct (encode (encoder s) r (buf s)) as [[e b] [x|]].
  { eexists _, _. split; [done|].
    destruct (encode_policy cfg), (se_class x);
      (apply (shape_frame h); [done|cbn; by rewrite length_insert|done|done]). }
  assert (HS1 : shape (take_record now (route r (length (shards h))) r (set_enc e b s) h)).
  { apply (shape_frame h); [done|cbn; by rewrite length_insert|done|done]. }
  destruct (decide _).
  - destruct (seal_shape now (route r (length (shards h))) _ HS1) as (h2 & -> & HS2 & _).
    { cbn. by rewrite length_insert. }
    cbn. eexists _, _. split; [done|]. by apply (shape_frame h2).
  - cbn. eexists _, _. split; [done|]. by apply (shape_frame _ _ HS1).
Qed.

Lemma queue_event_shape (q : QueueEvent T) h :
  shape h -> shape (default h (handoff_step route cfg (queue_op q) h)).
Proof.
  intros HS. destruct q as [i c|i|i]; cbn.
  - destruct (try_send i c (queues h)) as [[c'|qs]|] eqn:Et; cbn; [done| |done].
    apply try_send_Some in Et. by apply (shape_frame h).
  - destruct (senders (queues h) !! i); cbn; [|done]. apply (shape_frame h); [done..|].
    unfold num_shards. cbn. by rewrite length_insert.
  - destruct (senders (queues h) !! i); cbn; [|done]. apply (shape_frame h); [done..|].
    unfold num_shards. cbn. by rewrite length_insert.
Qed.

Lemma enter_shape (s : HandoffStage route cfg name E C) :
  shape (hs_base s) -> shape (hs_enter route cfg name s).2.
Proof.
  unfold hs_enter. destruct (hs_script s (hs_ticks s)) as [now qs]. cbn.
  generalize (hs_base s) as h. induction qs as [|q qs IH]; intros h HS; [done|].
  cbn [foldl]. by apply IH, queue_event_shape.
Qed.

#[export] Instance handoff_live : StageLive (HandoffStage route cfg name E C) T.
Proof.
  refine (Build_StageLive _ _ _ _ (fun s => shape (hs_base s)) _ _ _ _ _).
  - intros r s HS%enter_shape. cbn. destruct (hs_enter route cfg name s) as [now h].
    destruct (push_shape now r h HS) as (fl & h' & -> & H'). cbn. eauto.
  - intros s HS. by apply (shape_frame (hs_base s)).
  - intros s HS%enter_shape. cbn. destruct (hs_enter route cfg name s) as [now h]. cbn in HS.
    unfold Handoff.relieve. destruct (decide _); cbn; [eauto|].
    destruct (drain_shape (length (parked h)) h HS) as (ok & h' & E1 & H').
    unfold drain_parked. rewrite E1. cbn. eauto.
  - intros s HS%enter_shape. cbn. destruct (hs_enter route cfg name s) as [now h]. cbn in HS.
    unfold Handoff.flush_terminal.
    destruct (seal_all_shape now (seq 0 (length (shards h))) h HS) as (h1 & -> & HS1).
    { apply Forall_forall. intros i Hi%elem_of_seq. lia. }
    cbn. destruct (drain_shape (length (parked h1)) h1 HS1) as (ok & h' & E1 & H').
    unfold drain_parked. rewrite E1. cbn. eauto.
  - intros w s HS. by apply (shape_frame (hs_base s)).
Defined.
End handoff.

(** ** The terminal of several sinks returns *)

Section split.
Context {G T R B : Type} `{HB : StageLive B R}.
Variable route : G -> T -> list (nat * nat * R) * G.
(** The branches' record families, and that rows go to a branch of theirs: what
    the typed handles give. *)
Variable families : list nat.
Hypothesis typed : forall g x, Forall (fun y => families !! y.1.1 = Some y.1.2) (route g x).1.

Definition branches_live (bs : list (nat * B)) : Prop :=
  bs.*1 = families /\ Forall (fun x => live x.2) bs.

Lemma split_emits_live (r : Rec T) xs : forall em,
  Forall (fun y : nat * nat * R => families !! y.1.1 = Some y.1.2) xs ->
  branches_live (em_branches em) ->
  exists em', split_emits r xs em = Some em' /\ branches_live (em_branches em').
Proof.
  induction xs as [|[[idx fam] row] xs IH]; intros em HF [Hf Hl]; cbn [split_emits]; [by exists em|].
  apply Forall_cons in HF as [Hi HF]. cbn in Hi. unfold split_emit. rewrite <- Hf in Hi.
  rewrite list_lookup_fmap in Hi.
  destruct (em_branches em !! idx) as [[fam' b]|] eqn:Eb; [|done]. cbn in Hi. injection Hi as ->.
  cbn. rewrite bool_decide_true by done. cbn. destruct (em_latched em); [by apply IH|].
  pose proof (proj1 (Forall_lookup _ _) Hl _ _ Eb) as Hb. cbn in Hb.
  edestruct (lv_push (with_payload row r)) as (fl & b' & -> & Hb');
    [by apply lv_store, lv_store|]. cbn. apply IH; [done|]. split; cbn.
  - rewrite list_fmap_insert, <- Hf. apply list_insert_id. by rewrite list_lookup_fmap, Eb.
  - by apply Forall_insert.
Qed.

Lemma each_branch_live (f : B -> option (Flow * B)) bs :
  (forall b, live b -> exists fl b', f b = Some (fl, b') /\ live b') -> Forall (fun x => live x.2) bs ->
  exists fl bs', each_branch f bs = Some (fl, bs') /\ bs'.*1 = bs.*1 /\ Forall (fun x => live x.2) bs'.
Proof.
  intros Hf. induction bs as [|[fam b] bs IH]; intros HF; cbn [each_branch]; [by eexists _, _|].
  apply Forall_cons in HF as [Hb HF]. cbn in Hb. destruct (Hf b Hb) as (fl & b' & -> & Hb').
  destruct (IH HF) as (fl' & bs' & -> & E1 & F1). cbn. eexists _, _. split; [done|].
  split; [cbn; by rewrite E1|by constructor].
Qed.

#[export] Instance split_live : StageLive (Split route B) T.
Proof.
  refine (Build_StageLive _ _ _ _ (fun s => branches_live (sp_branches s)) _ _ _ _ _).
  - intros r s Hs. cbn. destruct (bool_decide _ || _); [by eexists _, _|].
    pose proof (typed (sp_route s) (payload r)) as Ht. destruct (route _ _) as [xs g]. cbn in Ht.
    destruct (split_emits_live r xs (mkEmitter (sp_branches s) 0 Continue false (sp_store s) (sp_seen s)))
      as (em & -> & He); [done|done|]. cbn. eauto.
  - intros s [Hf Hl]. cbn. split.
    + by rewrite <- list_fmap_compose.
    + apply Forall_fmap. eapply Forall_impl; [exact Hl|]. intros x. apply lv_take.
  - intros s [Hf Hl]. cbn. edestruct (each_branch_live
      (fun b => st_relieve (st_with_store (sp_store s) b))) as (fl & bs & -> & E1 & F1); [|done|].
    + intros b Hb. by apply lv_relieve, lv_store.
    + cbn. eexists _, _. split; [done|]. split; cbn; [congruence|done].
  - intros s [Hf Hl]. cbn. edestruct (each_branch_live
      (fun b => st_flush_terminal (st_with_store (sp_store s) b))) as (fl & bs & -> & E1 & F1); [|done|].
    + intros b Hb. by apply lv_flush, lv_store.
    + cbn. eexists _, _. split; [done|]. split; cbn; [congruence|done].
  - by intros w s Hs.
Defined.
End split.

(** ** A batch comes to an end *)

Section total.
Context {S T : Type} `{HL : StageLive S T}.
Local Notation W := (CWorld S T).
Local Notation ops w := (tc_ops (cw_chain w)).

(** An answer the deserializer's contract allows. *)
Definition answers (q : list T * option DeserError) : Prop := is_Some (deser_answer q).

(** The stages return, and [n] payloads at most are to come. *)
Definition going (n : nat) (w : W) : Prop := live (ops w) /\ (length (cw_rest w) <= n)%nat.

Lemma com_run_ops {A} n (f : S -> option (A * S)) :
  (forall s, live s -> exists x s', f s = Some (x, s') /\ live s') ->
  completes answers 0 (going n) (run_ops f) (fun _ => going n).
Proof.
  intros Hf w t [Hl Hr] HV _. destruct (Hf _ Hl) as (x & s' & Ef & Hs').
  exists x, (mkCWorld (with_ops s' (cw_chain w)) (cw_rest w) (cw_ack w) (cw_batch w)), t.
  unfold run_ops, mbind, prog_bind, get. rewrite Ef. split_and!; [done|done|lia|done].
Qed.

Lemma com_take n : completes answers 0 (going n) take_fatal_now (fun _ => going n).
Proof.
  apply com_run_ops. intros s Hs. exists (st_take_fatal s).1, (st_take_fatal s).2.
  split; [by rewrite <- surjective_pairing|]. by apply lv_take.
Qed.

(** An update of the chain that leaves the stack alone. *)
Lemma com_on_chain n (f : TypedChain S T -> TypedChain S T) :
  (forall c, tc_ops (f c) = tc_ops c) ->
  completes answers 0 (going n) (on_chain f) (fun _ => going n).
Proof. intros Hf. apply com_modify. intros w [Hl Hr]. split; [cbn; by rewrite Hf|done]. Qed.

Lemma com_then {A B} n k (m : Prog W (list T * option DeserError) A)
    (f : A -> Prog W (list T * option DeserError) B) (P : W -> Prop) :
  completes answers 0 P m (fun _ => P) -> (forall a, completes answers k P (f a) (fun _ => going n)) ->
  completes answers k P (m ≫= f) (fun _ => going n).
Proof. intros Hm Hf. by apply (com_bind _ 0 k P m f (fun _ => P)). Qed.

Lemma com_get_then {B} n k (f : W -> Prog W (list T * option DeserError) B) (P : W -> Prop) :
  (forall w, completes answers k P (f w) (fun _ => going n)) ->
  completes answers k P (get ≫= f) (fun _ => going n).
Proof.
  intros Hf. apply com_get_bind. intros w. eapply com_weaken; [apply (Hf w)|done| |done].
  by intros w' [-> HP].
Qed.

Lemma com_done {A} n (x : A) : completes answers 0 (going n) (mret x) (fun _ => going n).
Proof. by apply com_ret. Qed.

Lemma com_done_le {A} n k (x : A) (P : W -> Prop) :
  (forall w, P w -> going n w) -> completes answers k P (mret x) (fun _ => going n).
Proof. intros HP. eapply (com_weaken _ 0); [apply com_done|lia|exact HP|by intros]. Qed.

Ltac chain_steps := repeat first
  [ apply com_done
  | apply com_then; [first [apply com_take | apply com_on_chain; done]|intros ?]
  | apply com_get_then; intros ? ].

Lemma com_settle n raw ys flow :
  completes answers 0 (going n) (settle_payload raw ys flow) (fun _ => going n).
Proof.
  unfold settle_payload. apply com_then; [apply com_take|]. intros [x|]; [chain_steps|].
  apply com_then; [by apply com_on_chain|]. intros []. destruct flow; [|chain_steps].
  apply com_then; [apply com_run_ops, lv_relieve|]. intros fl. chain_steps.
Qed.

Lemma com_deser n raw : completes answers 1 (going n) (deser_step raw) (fun _ => going n).
Proof.
  apply (com_bind _ 1 0 _ _ _ (fun _ => going n)); [by apply com_ask|]. intros [ys res].
  apply com_get_then. intros w. apply com_then.
  { apply com_run_ops. intros s. apply emit_all_live. }
  intros flow. destruct res as [[e|e|e|e]|]; try apply com_settle; try (destruct (tc_policy _));
    try apply com_settle; chain_steps.
Qed.

Lemma com_take_step n p x : completes answers 0 (going n) (take_step p x) (fun _ => going n).
Proof. destruct x; unfold take_step; chain_steps. Qed.

Lemma com_replay n : completes answers 1 (going n) replay (fun _ => going n).
Proof.
  unfold replay. apply com_get_then. intros w. destruct (tc_pending _) as [p|].
  - apply com_then; [by apply com_on_chain|]. intros [].
    apply (com_bind _ 1 0 _ _ _ (fun _ => going n)); [apply com_deser|]. intros x. apply com_take_step.
  - by apply com_done_le.
Qed.

Lemma com_next_round n : completes answers 1 (going n) next_round (fun _ => going n).
Proof.
  unfold next_round. apply com_get_bind. intros w.
  destruct (cw_rest w) as [|raw rest] eqn:Hr.
  { apply com_done_le. by intros w' [-> Hw]. }
  apply (com_bind _ 0 1 _ _ _ (fun _ => going n)).
  { apply com_modify. intros w' (-> & Hl & Hn). split; [done|]. rewrite Hr in Hn. cbn in *. lia. }
  intros []. apply (com_bind _ 1 0 _ _ _ (fun _ => going n)); [apply com_deser|]. intros x.
  apply com_then; [apply com_take_step|]. intros o. apply com_done.
Qed.

Lemma com_pull n k : completes answers k (going n) (pull k) (fun _ => going n).
Proof.
  induction k as [|k IH]; [apply com_done|]. cbn [pull].
  apply (com_bind _ 1 k _ _ _ (fun _ => going n)); [apply com_next_round|]. intros [o|]; [|done].
  by apply com_done_le.
Qed.

Lemma com_fail n : completes answers 0 (going n) fail_batch (fun _ => going n).
Proof.
  unfold fail_batch. apply com_get_then. intros w. apply com_modify. intros w' [Hl Hr].
  split; [by apply lv_store|done].
Qed.

Lemma com_push n from :
  completes answers (n + 2) (going n) (push_batch from) (fun _ => going n).
Proof.
  unfold push_batch. apply com_then.
  { apply com_on_chain. intros c. by destruct (tc_mid_batch c). }
  intros []. apply com_then; [apply com_run_ops, lv_relieve|]. intros [].
  2:{ apply com_get_then. intros w. by apply com_done_le. }
  replace (n + 2)%nat with (1 + (n + 1))%nat by lia.
  apply (com_bind _ 1 _ _ _ _ (fun _ => going n)); [apply com_replay|]. intros o.
  apply com_get_bind. intros w.
  replace (n + 1)%nat with (n + 1 + 0)%nat by lia.
  apply (com_bind _ _ 0 _ _ _ (fun _ => going n)).
  - destruct o as [o|].
    + apply com_done_le. by intros w' [-> Hw].
    + intros w' t [-> [Hl Hr]] HV Hn.
      destruct (com_pull n (Datatypes.S (length (cw_rest w))) w t) as (x & w2 & t2 & E2 & V2 & L2 & G2);
        [done|done|lia|]. exists x, w2, t2. split_and!; [done|done|lia|done].
  - intros [[|k nr|x]|]; chain_steps. apply com_then; [apply com_fail|]. intros ?. chain_steps.
Qed.

Lemma com_attempts n k : forall from,
  completes answers ((n + 2) * (k + 1)) (going n) (attempts k from) (fun _ => going n).
Proof.
  induction k as [|k IH]; intros from; cbn [attempts].
  - replace ((n + 2) * (0 + 1))%nat with ((n + 2) + 0)%nat by lia.
    apply (com_bind _ _ _ _ _ _ (fun _ => going n)); [apply com_push|]. intros []; apply com_done.
  - replace ((n + 2) * (Datatypes.S k + 1))%nat with ((n + 2) + (n + 2) * (k + 1))%nat by lia.
    apply (com_bind _ _ _ _ _ _ (fun _ => going n)); [apply com_push|].
    intros []; [|apply IH|]; by apply com_done_le.
Qed.
End total.

(** ** Whole batches *)

Section batches.
Context {S T O : Type} `{HS : StageLaws S T O} {HL : StageLive S T}.
Local Notation W := (CWorld S T).
Local Notation ops w := (tc_ops (cw_chain w)).

(** The handles of [c]'s batch that are not the terminal's. *)
Definition elsewhere (c : AckRef) (s : S) : Z := Z.of_nat (strong c (st_store s)) - Z.of_nat (held c s).

(** A chain between batches, given a batch that holds a handle of its own. *)
Record ready (w : W) : Prop := mk_ready {
  rd_mid : tc_mid_batch (cw_chain w) = false;
  rd_wf : stage_wf (ops w);
  rd_live : live (ops w);
  rd_clear : fatal_of (ops w) = None;
  rd_handle : 0 < elsewhere (cw_ack w) (ops w);
  rd_size : Z.of_nat (length (cw_rest w)) <= U64_MAX;
}.

(** What the closures make of the payloads [d] of [w]'s batch. *)
Definition batch_events (w : W) (d : list (RawPayload * list T)) : list (Event O) :=
  (all_events (cw_ack w) (cw_batch w) (upper (ops w)) d).1.

Definition enough (n : nat) (w : W) (t : list (list T * option DeserError)) : Prop :=
  Forall answers t /\ ((length (cw_rest w) + 2) * (n + 1) <= length t)%nat.

Lemma attempts_end (w : W) t n :
  ready w -> enough n w t ->
  exists o w' t', attempts n 0 w t = Ran o w' t' /\
    push_post (cw_ack w) (cw_batch w) (cw_rest w) (seen (ops w)) (upper (ops w))
      (tc_done (cw_chain w)) (fun c => elsewhere c (ops w)) o w'.
Proof.
  intros [A B C D F G] [HV Hn].
  destruct (com_attempts (length (cw_rest w)) n 0 w t) as (o & w' & t' & E & _ & _ & _); [done|done|done|].
  exists o, w', t'. split; [done|]. eapply ens_attempts with (P := fun w' => w' = w); [done|done| |done|done].
  intros ? ->. left. split; try done. split; try done. exists []. by rewrite app_nil_r.
Qed.

(** C19: exactly once through the operator chain. A batch pushed into a chain of
    any stages, and pushed again as often as it was blocked, comes to an end.
    Done: every payload was processed once, in order, and what reached the
    terminal is exactly what the closures make of their records, in order.
    Blocked: that holds of the payloads before the resume index, and the stashed
    payload and what the batch has yet to yield are the others. Fatal: nothing
    after the first fatal reached the terminal, the error reported is that one,
    and the batch is marked failed. *)
Theorem chain_exactly_once (w : W) t n :
  ready w -> enough n w t ->
  exists o w' t', attempts n 0 w t = Ran o w' t' /\
    match o with
    | ChainDone => exists d new,
        d.*1 = cw_rest w /\ tc_done (cw_chain w') = tc_done (cw_chain w) ++ d /\
        seen (ops w') = seen (ops w) ++ new /\ batch_events w d = Out <$> new
    | ChainBlocked k nr => exists d new,
        k = Z.of_nat (length d) /\ (nr = true -> is_Some (tc_pending (cw_chain w'))) /\
        d.*1 ++ (as_raw <$> option_list (tc_pending (cw_chain w'))) ++ cw_rest w' = cw_rest w /\
        tc_done (cw_chain w') = tc_done (cw_chain w) ++ d /\
        seen (ops w') = seen (ops w) ++ new /\ batch_events w d = Out <$> new
    | ChainFatal x => exists d raw rest ys new after s,
        d.*1 ++ raw :: rest = cw_rest w /\
        seen (ops w') = seen (ops w) ++ new /\
        batch_events w (d ++ [(raw, ys)]) = (Out <$> new) ++ after /\ why after x s /\
        ops w' = st_with_store (AckRef_fail (cw_ack w) (st_store s)) s /\ fatal_of (ops w') = None
    end.
Proof.
  intros Hr He. destruct (attempts_end w t n Hr He) as (o & w' & t' & E & HP).
  exists o, w', t'. split; [done|]. destruct o as [|k nr|x].
  - destruct HP as (d & Hd & Hdone & [_ _ (new & N1 & N2) _ _] & _). by exists d, new.
  - destruct HP as (d & q & R & [([] & Hd & [_ _ (new & N1 & N2) _ _]) Hps] & -> & Hnr).
    exists d, new. subst q R. done.
  - destruct HP as (d & raw & R & s & Hps & [W1 W2 (ys & new & rest & N1 & N2 & N3) _] & Hops & _).
    exists d, raw, R, ys, new, rest, s. rewrite Hops.
    destruct (store_quiet (AckRef_fail (cw_ack w) (st_store s)) s W1) as (_ & -> & _ & _ & -> & _).
    done.
Qed.

(** C20: the chain neither leaks nor forges an acknowledgement. Whatever the
    closures dropped, multiplied or failed on, and however the pushes of a batch
    ended, the handles of every batch outside the terminal are as many as
    before: each record's handle was dropped, or is one the terminal holds until
    its chunk is delivered. *)
Theorem chain_handles_balanced (w : W) t n (c : AckRef) :
  ready w -> enough n w t ->
  exists o w' t', attempts n 0 w t = Ran o w' t' /\ elsewhere c (ops w') = elsewhere c (ops w).
Proof.
  intros Hr He. destruct (attempts_end w t n Hr He) as (o & w' & t' & E & HP).
  exists o, w', t'. split; [done|]. destruct o as [|k nr|x].
  - destruct HP as (d & _ & _ & [_ _ _ _ Hb] & _). apply Hb.
  - destruct HP as (d & q & R & [(_ & _ & [_ _ _ _ Hb]) _] & _). apply Hb.
  - destruct HP as (d & raw & R & s & _ & [W1 _ _ Hb] & -> & _). unfold elsewhere.
    destruct (store_quiet (AckRef_fail (cw_ack w) (st_store s)) s W1) as (_ & _ & _ & -> & _).
    rewrite sl_store, strong_fail. apply Hb.
Qed.
End batches.

(** ** Chains that run *)

Section demo.
Local Notation Sink := (HandoffStage demo_route demo_cfg "sink" unit Z).

#[local] Instance demo_sink_live : StageLive Sink Z := handoff_live demo_route demo_cfg "sink" demo_routes.

(** Each payload's number and its double; a number over 100 cannot be converted;
    zero is filtered out. *)
Definition demo_double (g : unit) (x : Z) : list Z * unit := ([x; 2 * x], g).
Definition demo_check (g : nat) (x : Z) : (Z + string) * nat :=
  (if decide (100 < x) then inr "too large" else inl x, S g).
Definition demo_nonzero (g : unit) (x : Z) : bool * unit := (bool_decide (x <> 0), g).

Local Notation Stack := (FlatMap demo_double (TryMap demo_check (Filter demo_nonzero Sink))).

Definition demo_sink : Sink :=
  mkStage demo_start (fun i => (Z.of_nat i, if decide (i = 4%nat) then [QReceive 0] else [])) 0 [].
Definition demo_stack : Stack :=
  mkFlatMap tt (mkTryMap 0%nat (mkFilter tt demo_sink) FailPolicy "check" None).

Definition demo_payload (off : Z) : RawPayload := mkRaw [off] None 0 off (100 + off).
Definition demo_batch : CWorld Stack Z :=
  mkCWorld (mkChain demo_stack Skip 0 false None [])
    [demo_payload 0; demo_payload 1; demo_payload 2] 0%nat (mkBatchId 0 1 0).
(** Two records, one payload not ready at first, one malformed. *)
Definition demo_tape : list (list Z * option DeserError) :=
  [([2; 0], None); ([], Some (DeserNotReady "schema")); ([4], None); ([], Some (Malformed "truncated"))]
  ++ replicate 11 ([], None).

Lemma demo_ready : ready demo_batch.
Proof.
  split; [done|done| |done|by vm_compute|by vm_compute].
  by split; [reflexivity|vm_compute; lia|constructor].
Qed.

Lemma demo_enough : enough 2 demo_batch demo_tape.
Proof.
  split; [|vm_compute; lia]. unfold demo_tape. apply Forall_app. split.
  - repeat constructor; by eexists.
  - apply Forall_replicate. by eexists.
Qed.

Definition demo_ran : option (ChainOutcome * CWorld Stack Z) :=
  match attempts 2 0 demo_batch demo_tape with Ran o w _ => Some (o, w) | _ => None end.

Lemma chain_exactly_once_witness :
  payload <$> (match demo_ran with Some (ChainDone, w) => seen (tc_ops (cw_chain w)) | _ => [] end)
    = [2; 4; 4; 8].
Proof.
  destruct (chain_exactly_once demo_batch demo_tape 2 demo_ready demo_enough)
    as (o & w & t & E & HP). unfold demo_ran. rewrite E.
  assert (Ho : o = ChainDone) by (vm_compute in E; congruence). subst o.
  destruct HP as (d & new & Hd & Hdone & -> & Hev).
  assert (Hd' : d = [(demo_payload 0, [2; 0]); (demo_payload 1, [4]); (demo_payload 2, [])]).
  { etrans; [symmetry; exact Hdone|]. vm_compute in E. injection E as <- _. reflexivity. }
  subst d. vm_compute in Hev. destruct new as [|r1 [|r2 [|r3 [|r4 [|]]]]]; try discriminate Hev.
  injection Hev as <- <- <- <-. reflexivity.
Defined.

(** A split on the sign and the size: a large number goes to both branches, zero
    to none. *)
Definition demo_split (g : unit) (x : Z) : list (nat * nat * Z) * unit :=
  ((if decide (0 < x) then [(0%nat, 7%nat, x)] else []) ++
   (if decide (10 < Z.abs x) then [(1%nat, 8%nat, x)] else []), g).

Lemma demo_split_short g x : Z.of_nat (length (demo_split g x).1) <= U32_MAX.
Proof. unfold demo_split. destruct (decide _), (decide _); cbn; unfold_int; lia. Qed.

Lemma demo_split_typed g x :
  Forall (fun y => [7%nat; 8%nat] !! y.1.1 = Some y.1.2) (demo_split g x).1.
Proof. unfold demo_split. destruct (decide _), (decide _); by repeat constructor. Qed.

#[local] Instance demo_split_laws : StageLaws (Split demo_split Sink) Z (nat * Z) :=
  split_laws demo_split demo_split_short.
#[local] Instance demo_split_live : StageLive (Split demo_split Sink) Z :=
  split_live demo_split [7%nat; 8%nat] demo_split_typed.

Definition demo_fork : CWorld (Split demo_split Sink) Z :=
  mkCWorld (mkChain (mkSplit tt [(7%nat, demo_sink); (8%nat, demo_sink)] FailPolicy None false "split"
                       demo_world []) Skip 0 false None [])
    [demo_payload 0; demo_payload 1] 0%nat (mkBatchId 0 1 0).
(** The second payload's record matches no branch. *)
Definition demo_fork_tape : list (list Z * option DeserError) :=
  [([5; 12; -20], None); ([0], None)] ++ replicate 6 ([], None).

Lemma demo_fork_ready : ready demo_fork.
Proof.
  split; [done| | |done|by vm_compute|by vm_compute].
  - split; [by repeat constructor|]. cbn. split; [by intros [? [=]]|]. split; [done|].
    by intros [? [=]].
  - split; [done|]. repeat constructor; vm_compute; lia.
Qed.

Lemma demo_fork_enough : enough 1 demo_fork demo_fork_tape.
Proof.
  split; [|vm_compute; lia]. unfold demo_fork_tape. apply Forall_app. split.
  - repeat constructor; by eexists.
  - apply Forall_replicate. by eexists.
Qed.

Lemma chain_handles_balanced_witness :
  elsewhere 0%nat (tc_ops (cw_chain demo_fork)) = 1 /\
  match attempts 1 0 demo_fork demo_fork_tape with
  | Ran (ChainFatal x) w _ => Some (x, elsewhere 0%nat (tc_ops (cw_chain w)))
  | _ => None
  end = Some (no_branch "split", 1).
Proof.
  split; [by vm_compute|].
  destruct (chain_handles_balanced demo_fork demo_fork_tape 1 0%nat demo_fork_ready demo_fork_enough)
    as (o & w & t & E & HP). rewrite E, HP. clear HP.
  assert (Ho : o = ChainFatal (no_branch "split")) by (vm_compute in E; injection E as <- _ _; reflexivity). subst o.
  reflexivity.
Defined.
End demo.
