(* ===== verification/AvroDatum.v ===== *)
(** * The Avro datum decoder ([spate-avro/src/de.rs])

    A bounds-checked cursor over a datum's bytes, and the serde deserializer that
    the writer schema drives over it. A deserializer method answers with the
    visitor call it makes, [Call]: for a leaf the value it passes, for a
    collection the access object, whose methods are definitions of their own. So
    a visitor, which is the caller's, is whatever consumes those calls;
    [record_datum] is the one that asks for [deserialize_any] everywhere and
    writes down what it is called with.

    A program of the decoder maps a cursor to a result and the cursor after it,
    to an error, or to a panic. Errors are named by their site, their wording is
    left out. Payload text is its bytes, names of the schema are strings; a float
    is its bit pattern. The uuid crate is a parameter. *)

From stdpp Require Import base list gmap strings.
From Stdlib Require Import ZArith Lia.
From S2P Require Import Prelude.

(** ** Schemas *)

Record Name := mkName {
  namespace : option string;
  simple_name : string;
}.

Inductive UuidSchema := UuidString | UuidBytes | UuidFixed (size : Z).
Inductive InnerDecimalSchema := DecimalBytes | DecimalFixed (size : Z).

Inductive Schema :=
  | SNull
  | SBoolean
  | SInt
  | SLong
  | SFloat
  | SDouble
  | SBytes
  | SString
  | SArray (items : Schema)
  | SMap (types : Schema)
  | SUnion (variants : list Schema)
  | SRecord (name : Name) (fields : list (string * Schema))
  | SEnum (symbols : list string)
  | SFixed (size : Z)
  | SDecimal (inner : InnerDecimalSchema)
  | SBigDecimal
  | SUuid (backing : UuidSchema)
  | SDate
  | STimeMillis
  | STimeMicros
  | STimestampMillis
  | STimestampMicros
  | STimestampNanos
  | SLocalTimestampMillis
  | SLocalTimestampMicros
  | SLocalTimestampNanos
  | SDuration
  | SRef (name : Name).

(** Named types by namespace and simple name. *)
Definition Names : Type := gmap string (gmap string Schema).

Definition MAX_DEPTH : Z := 128.
Definition MIN_ITEMS_BUDGET : Z := Z.shiftl 1 16.

Inductive DatumError :=
  | Truncated (needed left : Z)
  | VarintTooLong
  | NotAnInt (v : Z)
  | NegativeLength (v : Z)
  | InvalidBool (b : Z)
  | NotUtf8
  | DepthLimit
  | ItemBudget (count left : Z)
  | NegativeUnionIndex (v : Z)
  | UnionRange (idx variants : Z)
  | NegativeEnumIndex (v : Z)
  | EnumRange (idx symbols : Z)
  | MissingRef (ns : option string) (name : string)
  | NegativeBlockSize (v : Z)
  | BlockCountOverflow
  | InvalidUuid
  | Unsupported (s : Schema)
  | Expected (what : string) (got : Schema)
  | VariantRange (idx variants : Z)
  | OnlyUnitVariants
  | NoPendingKey
  | NoChar
  | Looping.

(** ** The cursor *)

Record Cursor := mkCursor {
  cur_buf : list Z;
  items_budget : Z;
}.

Inductive DResult (A : Type) :=
  | DOk (a : A) (c : Cursor)
  | DErr (e : DatumError)
  | DPanic.
Arguments DOk {A}.
Arguments DErr {A}.
Arguments DPanic {A}.

Definition Dec (A : Type) : Type := Cursor -> DResult A.

#[export] Instance dec_ret : MRet Dec := fun A a c => DOk a c.
#[export] Instance dec_bind : MBind Dec := fun A B k m c =>
  match m c with
  | DOk a c => k a c
  | DErr e => DErr e
  | DPanic => DPanic
  end.

#[export] Instance dec_fmap : FMap Dec := fun A B f m c =>
  match m c with
  | DOk a c => DOk (f a) c
  | DErr e => DErr e
  | DPanic => DPanic
  end.

Definition dfail {A} (e : DatumError) : Dec A := fun _ => DErr e.
Definition dpanic {A} : Dec A := fun _ => DPanic.
Definition lift {A} (r : DatumError + A) : Dec A :=
  match r with inl e => dfail e | inr a => mret a end.

Notation "m ;;; k" := (m ≫= fun _ => k) (at level 90, right associativity).

(** [for x in l { f(x)?; }] and [for _ in 0..n { m?; }]. *)
Fixpoint deach {A} (f : A -> Dec unit) (l : list A) : Dec unit :=
  match l with
  | [] => mret tt
  | x :: l => f x ;;; deach f l
  end.
Fixpoint dtimes (n : nat) (m : Dec unit) : Dec unit :=
  match n with
  | O => mret tt
  | S n => m ;;; dtimes n m
  end.

Definition cursor_new (buf : list Z) : Cursor :=
  mkCursor buf (Z.max (Z.of_nat (length buf)) MIN_ITEMS_BUDGET).

Definition remaining_bytes (c : Cursor) : Z := Z.of_nat (length (cur_buf c)).

Definition charge_items (count : Z) : Dec unit := fun c =>
  if decide (count <= items_budget c)
  then DOk tt (mkCursor (cur_buf c) (items_budget c - count))
  else DErr (ItemBudget count (items_budget c)).

Definition take_n (n : Z) : Dec (list Z) := fun c =>
  if decide (Z.of_nat (length (cur_buf c)) < n)
  then DErr (Truncated n (Z.of_nat (length (cur_buf c))))
  else DOk (take (Z.to_nat n) (cur_buf c))
         (mkCursor (drop (Z.to_nat n) (cur_buf c)) (items_budget c)).

Definition next_byte : Dec Z := fun c =>
  match cur_buf c with
  | b :: tail => DOk b (mkCursor tail (items_budget c))
  | [] => DErr (Truncated 1 0)
  end.

(** The rounds of the loop from [shift] on; there are [n] left. *)
Fixpoint var_loop (n : nat) (shift value : Z) : Dec Z :=
  match n with
  | O => dfail VarintTooLong
  | S n =>
      b ← next_byte;
      let value := Z.lor value (wrap_u64 (Z.shiftl (Z.land b 127) (shift * 7))) in
      if decide (Z.land b 128 = 0) then mret value else var_loop n (shift + 1) value
  end.
Definition var_u64 : Dec Z := var_loop 10 0 0.

Definition zag (z : Z) : Z :=
  if decide (Z.land z 1 = 0) then wrap_i64 (Z.shiftr z 1)
  else wrap_i64 (U64_MAX - Z.shiftr z 1).
Definition zag_i64 : Dec Z := z ← var_u64; mret (zag z).

Definition is_i32 (v : Z) : bool := bool_decide (- 2 ^ 31 <= v < 2 ^ 31).
Definition zag_i32 : Dec Z :=
  v ← zag_i64; if is_i32 v then mret v else dfail (NotAnInt v).

Definition len_prefixed : Dec (list Z) :=
  len ← zag_i64; if decide (len < 0) then dfail (NegativeLength len) else take_n len.

Definition read_f32 : Dec Z := b ← take_n 4; mret (le_val b).
Definition read_f64 : Dec Z := b ← take_n 8; mret (le_val b).

Definition read_bool : Dec bool :=
  b ← next_byte;
  if decide (b = 0) then mret false else if decide (b = 1) then mret true else dfail (InvalidBool b).

Definition utf8 : Dec (list Z) :=
  b ← len_prefixed; if valid_utf8 b then mret b else dfail NotUtf8.

(** ** Schemas the decoder supports *)

Section supported.

(** [true] where [scan_supported] is [Ok]. *)
Fixpoint scan_supported (s : Schema) : bool :=
  match s with
  | SDuration | SBigDecimal => false
  | SRecord _ fields => forallb (fun f => scan_supported f.2) fields
  | SArray items => scan_supported items
  | SMap types => scan_supported types
  | SUnion variants => forallb scan_supported variants
  | _ => true
  end.

(** [compile_spec], from the named types [ResolvedSchema] found. *)
Definition compile_spec (s : Schema) (found : list (Name * Schema)) : option Names :=
  let names := foldl (fun m x =>
    let ns := default "" (namespace x.1) in
    <[ns := <[simple_name x.1 := x.2]> (default ∅ (m !! ns))]> m) ∅ found in
  if scan_supported s && forallb (fun t => forallb (fun x => scan_supported x.2) (map_to_list t.2))
                           (map_to_list names)
  then Some names else None.
End supported.

(** ** Positions *)

(** [a.or(b)]. *)
Definition or_else {A} (a b : option A) : option A :=
  match a with Some x => Some x | None => b end.

Section decoder.

(** The uuid crate: parsing of text, a value from its bytes, its bytes and its
    hyphenated lower-case form. *)
Context {Uuid : Type}.
Variable parse_str : list Z -> option Uuid.
Variable from_slice : list Z -> option Uuid.
Variable as_bytes : Uuid -> list Z.
Variable hyphenated : Uuid -> string.

Variable names : Names.

Definition lookup_named (name : Name) (enclosing : option string) : option Schema :=
  types ← names !! default "" (or_else (namespace name) enclosing);
  types !! simple_name name.

Definition missing_ref (name : Name) (enclosing : option string) : DatumError :=
  MissingRef (or_else (namespace name) enclosing) (simple_name name).

Definition resolve_schema (s : Schema) (enclosing : option string)
    : DatumError + (Schema * option string) :=
  match s with
  | SRef name =>
      match lookup_named name enclosing with
      | Some target => inr (target, or_else (namespace name) enclosing)
      | None => inl (missing_ref name enclosing)
      end
  | other => inr (other, enclosing)
  end.

(** [DatumDeserializer], without the cursor it borrows. *)
Record De := mkDe {
  de_schema : Schema;
  de_enclosing : option string;
  de_depth : Z;
}.

Definition check_depth (depth : Z) : DatumError + unit :=
  if decide (MAX_DEPTH <= depth) then inl DepthLimit else inr tt.
Definition deeper (d : De) : DatumError + Z :=
  match check_depth (de_depth d) with inl e => inl e | inr _ => inr (de_depth d + 1) end.
Definition child (d : De) (s : Schema) (enclosing : option string) : DatumError + De :=
  match deeper d with inl e => inl e | inr depth => inr (mkDe s enclosing depth) end.
Definition resolved (d : De) : DatumError + (Schema * option string) :=
  resolve_schema (de_schema d) (de_enclosing d).

Definition union_branch (variants : list Schema) : Dec (nat * Schema) :=
  index ← zag_i64;
  if decide (index < 0) then dfail (NegativeUnionIndex index)
  else match variants !! Z.to_nat index with
       | Some s => mret (Z.to_nat index, s)
       | None => dfail (UnionRange index (Z.of_nat (length variants)))
       end.

Definition enum_symbol (symbols : list string) : Dec string :=
  raw ← zag_i32;
  if decide (raw < 0) then dfail (NegativeEnumIndex raw)
  else match symbols !! Z.to_nat raw with
       | Some s => mret s
       | None => dfail (EnumRange raw (Z.of_nat (length symbols)))
       end.

Definition uuid_or_err (u : option Uuid) : Dec Uuid :=
  match u with Some u => mret u | None => dfail InvalidUuid end.
Definition uuid_value (backing : UuidSchema) : Dec Uuid :=
  match backing with
  | UuidString => s ← utf8; uuid_or_err (parse_str s)
  | UuidBytes => b ← len_prefixed; uuid_or_err (from_slice b)
  | UuidFixed size => b ← take_n size; uuid_or_err (from_slice b)
  end.

Definition decimal_bytes (inner : InnerDecimalSchema) : Dec (list Z) :=
  match inner with
  | DecimalBytes => len_prefixed
  | DecimalFixed size => take_n size
  end.

(** ** Skipping *)

(** The [loop] over the blocks of a collection whose items [item] skips. Each
    round reads a byte at least, so the bytes left bound the rounds. *)
Fixpoint skip_blocks (fuel : nat) (item : Dec unit) : Dec unit :=
  match fuel with
  | O => dfail Looping
  | S fuel =>
      count ← zag_i64;
      if decide (count = 0) then mret tt
      else if decide (count < 0) then
        size ← zag_i64;
        if decide (size < 0) then dfail (NegativeBlockSize size)
        else take_n size ;;; skip_blocks fuel item
      else
        charge_items count ;;;
        dtimes (Z.to_nat count) item ;;;
        skip_blocks fuel item
  end.
Definition skip_collection (item : Dec unit) : Dec unit := fun c =>
  skip_blocks (S (length (cur_buf c))) item c.

(** [skip_datum]; a nested position is one level deeper, so [lv] levels, one
    more than the limit leaves, are enough. *)
Fixpoint skip_datum (lv : nat) (s : Schema) (enclosing : option string) (depth : Z) : Dec unit :=
  match lv with
  | O => dfail Looping
  | S lv =>
      lift (check_depth depth) ;;;
      match s with
      | SNull => mret tt
      | SBoolean => read_bool ;;; mret tt
      | SInt | SDate | STimeMillis => zag_i32 ;;; mret tt
      | SEnum symbols => enum_symbol symbols ;;; mret tt
      | SLong | STimeMicros | STimestampMillis | STimestampMicros | STimestampNanos
      | SLocalTimestampMillis | SLocalTimestampMicros | SLocalTimestampNanos =>
          zag_i64 ;;; mret tt
      | SFloat => take_n 4 ;;; mret tt
      | SDouble => take_n 8 ;;; mret tt
      | SBytes | SString | SUuid UuidString | SUuid UuidBytes => len_prefixed ;;; mret tt
      | SFixed size | SUuid (UuidFixed size) => take_n size ;;; mret tt
      | SDecimal inner => decimal_bytes inner ;;; mret tt
      | SRecord name fields =>
          deach (fun f => skip_datum lv f.2 (or_else (namespace name) enclosing) (depth + 1)) fields
      | SArray items => skip_collection (skip_datum lv items enclosing (depth + 1))
      | SMap types => skip_collection (len_prefixed ;;; skip_datum lv types enclosing (depth + 1))
      | SUnion variants =>
          '(_, branch) ← union_branch variants; skip_datum lv branch enclosing (depth + 1)
      | SRef name =>
          match lookup_named name enclosing with
          | None => dfail (missing_ref name enclosing)
          | Some target => skip_datum lv target (or_else (namespace name) enclosing) (depth + 1)
          end
      | SDuration | SBigDecimal => dfail (Unsupported s)
      end
  end.

Definition levels_left (depth : Z) : nat := S (Z.to_nat (MAX_DEPTH - depth)).

(** ** Access objects *)

(** [RecordAccess]: the fields yet to come, and the one whose key was read. *)
Record RecordAccess := mkRecordAccess {
  ra_fields : list (string * Schema);
  ra_pending : option (string * Schema);
  ra_enclosing : option string;
  ra_depth : Z;
}.

Definition record_new (name : Name) (fields : list (string * Schema)) (enclosing : option string)
    (depth : Z) : RecordAccess :=
  mkRecordAccess fields None (or_else (namespace name) enclosing) depth.
Definition record_empty (depth : Z) : RecordAccess := mkRecordAccess [] None None depth.

Definition record_next_key (a : RecordAccess) : option string * RecordAccess :=
  match ra_fields a with
  | f :: rest => (Some f.1, mkRecordAccess rest (Some f) (ra_enclosing a) (ra_depth a))
  | [] => (None, a)
  end.
Definition record_next_value (a : RecordAccess) : DatumError + (De * RecordAccess) :=
  match ra_pending a with
  | None => inl NoPendingKey
  | Some f => inr (mkDe f.2 (ra_enclosing a) (ra_depth a),
                   mkRecordAccess (ra_fields a) None (ra_enclosing a) (ra_depth a))
  end.
Definition record_size_hint (a : RecordAccess) : Z := Z.of_nat (length (ra_fields a)).

(** [BlockSeqAccess] and [BlockMapAccess]: [ba_schema] is the items', or the
    values', schema. *)
Record BlockAccess := mkBlockAccess {
  ba_schema : Schema;
  ba_enclosing : option string;
  ba_depth : Z;
  ba_remaining : Z;
  ba_done : bool;
}.

Definition with_block (remaining : Z) (done : bool) (a : BlockAccess) : BlockAccess :=
  mkBlockAccess (ba_schema a) (ba_enclosing a) (ba_depth a) remaining done.

(** [refill]: the state of the block after its header. *)
Definition refill (remaining : Z) (done : bool) : Dec (Z * bool) :=
  count ← zag_i64;
  '(remaining, done) ←
    (if decide (count = 0) then mret (remaining, true)
     else if decide (count < 0) then
       _ ← zag_i64;
       if decide (count = I64_MIN) then dfail BlockCountOverflow else mret (- count, done)
     else mret (count, done));
  charge_items remaining ;;;
  mret (remaining, done).

(** [while self.remaining == 0 { ... }]: [None] when the collection is over.
    Each round reads a byte at least. *)
Fixpoint refill_loop (fuel : nat) (remaining : Z) (done : bool) : Dec (option Z * bool) :=
  if decide (remaining = 0) then
    if done then mret (None, true)
    else match fuel with
         | O => dfail Looping
         | S fuel => '(remaining, done) ← refill remaining done; refill_loop fuel remaining done
         end
  else mret (Some remaining, done).

Definition next_item (a : BlockAccess) : Dec (bool * BlockAccess) := fun c =>
  match refill_loop (S (length (cur_buf c))) (ba_remaining a) (ba_done a) c with
  | DOk (None, done) c => DOk (false, with_block 0 done a) c
  | DOk (Some remaining, done) c => DOk (true, with_block (remaining - 1) done a) c
  | DErr e => DErr e
  | DPanic => DPanic
  end.

Definition item_de (a : BlockAccess) : De := mkDe (ba_schema a) (ba_enclosing a) (ba_depth a).

Definition seq_new (item : Schema) (enclosing : option string) (depth : Z) : BlockAccess :=
  mkBlockAccess item enclosing depth 0 false.
Definition seq_empty (item : Schema) (depth : Z) : BlockAccess :=
  mkBlockAccess item None depth 0 true.

(** [next_element_seed]. *)
Definition next_element (a : BlockAccess) : Dec (option De * BlockAccess) :=
  '(some, a) ← next_item a;
  mret (if (some : bool) then Some (item_de a) else None, a).

(** [BlockMapAccess::new] reads the first header. *)
Definition map_new (value : Schema) (enclosing : option string) (depth : Z) : Dec BlockAccess :=
  '(remaining, done) ← refill 0 false;
  mret (mkBlockAccess value enclosing depth remaining done).

(** [next_key_seed] and [next_value_seed]. *)
Definition map_next_key (a : BlockAccess) : Dec (option (list Z) * BlockAccess) :=
  '(some, a) ← next_item a;
  if (some : bool) then key ← utf8; mret (Some key, a) else mret (None, a).
Definition map_next_value (a : BlockAccess) : De := item_de a.

Definition block_size_hint (a : BlockAccess) (c : Cursor) : Z :=
  Z.min (ba_remaining a) (remaining_bytes c).

(** ** The deserializer's methods *)

(** A symbol of the schema, or a string of the payload. *)
Inductive Text :=
  | FromSchema (s : string)
  | FromPayload (b : list Z).

(** The visitor call a method makes. *)
Inductive Call :=
  | VisitUnit
  | VisitBool (b : bool)
  | VisitI32 (v : Z)
  | VisitI64 (v : Z)
  | VisitF32 (bits : Z)
  | VisitF64 (bits : Z)
  | VisitBorrowedStr (b : list Z)
  | VisitStr (s : string)
  | VisitBorrowedBytes (b : list Z)
  | VisitBytes (b : list Z)
  | VisitNone
  | VisitSome (d : De)
  | VisitNewtype (d : De)
  | VisitSeq (a : BlockAccess)
  | VisitRecord (a : RecordAccess)
  | VisitMap (a : BlockAccess)
  | VisitUnionVariant (variant : string) (d : De)
  | VisitSymbol (symbol : Text).

(** A union position's branch, one level deeper, for a method [m] that descends
    into it. *)
Definition into_branch (d : De) (variants : list Schema) (enclosing : option string)
    (m : De -> Dec Call) : Dec Call :=
  '(_, branch) ← union_branch variants;
  d ← lift (child d branch enclosing);
  m d.

(** Each descends a union at a time, a level deeper each, so [lv] levels are
    enough. *)
Fixpoint deserialize_any (lv : nat) (d : De) : Dec Call :=
  '(s, enclosing) ← lift (resolved d);
  match s with
  | SNull => mret VisitUnit
  | SBoolean => b ← read_bool; mret (VisitBool b)
  | SInt | SDate | STimeMillis => v ← zag_i32; mret (VisitI32 v)
  | SLong | STimeMicros | STimestampMillis | STimestampMicros | STimestampNanos
  | SLocalTimestampMillis | SLocalTimestampMicros | SLocalTimestampNanos =>
      v ← zag_i64; mret (VisitI64 v)
  | SFloat => v ← read_f32; mret (VisitF32 v)
  | SDouble => v ← read_f64; mret (VisitF64 v)
  | SString => b ← utf8; mret (VisitBorrowedStr b)
  | SBytes => b ← len_prefixed; mret (VisitBorrowedBytes b)
  | SFixed size => b ← take_n size; mret (VisitBorrowedBytes b)
  | SEnum symbols => x ← enum_symbol symbols; mret (VisitStr x)
  | SUuid backing => u ← uuid_value backing; mret (VisitStr (hyphenated u))
  | SDecimal inner => b ← decimal_bytes inner; mret (VisitBorrowedBytes b)
  | SRecord name fields =>
      depth ← lift (deeper d); mret (VisitRecord (record_new name fields enclosing depth))
  | SArray items => depth ← lift (deeper d); mret (VisitSeq (seq_new items enclosing depth))
  | SMap types =>
      depth ← lift (deeper d); a ← map_new types enclosing depth; mret (VisitMap a)
  | SUnion variants =>
      into_branch d variants enclosing
        (fun d => match lv with O => dfail Looping | S lv => deserialize_any lv d end)
  | SDuration | SBigDecimal => dfail (Unsupported s)
  | SRef _ => dpanic
  end.

Definition deserialize_char : Dec Call := dfail NoChar.

Fixpoint deserialize_str (lv : nat) (d : De) : Dec Call :=
  '(s, enclosing) ← lift (resolved d);
  match s with
  | SString => b ← utf8; mret (VisitBorrowedStr b)
  | SBytes =>
      b ← len_prefixed; if valid_utf8 b then mret (VisitBorrowedStr b) else dfail NotUtf8
  | SFixed size =>
      b ← take_n size; if valid_utf8 b then mret (VisitBorrowedStr b) else dfail NotUtf8
  | SEnum symbols => x ← enum_symbol symbols; mret (VisitStr x)
  | SUuid backing => u ← uuid_value backing; mret (VisitStr (hyphenated u))
  | SUnion variants =>
      into_branch d variants enclosing
        (fun d => match lv with O => dfail Looping | S lv => deserialize_str lv d end)
  | other => dfail (Expected "string-shaped" other)
  end.

Fixpoint deserialize_bytes (lv : nat) (d : De) : Dec Call :=
  '(s, enclosing) ← lift (resolved d);
  match s with
  | SString | SBytes => b ← len_prefixed; mret (VisitBorrowedBytes b)
  | SFixed size => b ← take_n size; mret (VisitBorrowedBytes b)
  | SUuid backing => u ← uuid_value backing; mret (VisitBytes (as_bytes u))
  | SDecimal inner => b ← decimal_bytes inner; mret (VisitBorrowedBytes b)
  | SUnion variants =>
      into_branch d variants enclosing
        (fun d => match lv with O => dfail Looping | S lv => deserialize_bytes lv d end)
  | other => dfail (Expected "bytes-shaped" other)
  end.

Definition deserialize_option (d : De) : Dec Call :=
  '(s, enclosing) ← lift (resolved d);
  match s with
  | SUnion variants =>
      '(_, branch) ← union_branch variants;
      match branch with
      | SNull => mret VisitNone
      | _ => d ← lift (child d branch enclosing); mret (VisitSome d)
      end
  | other => dfail (Expected "union" other)
  end.

Definition deserialize_unit (d : De) : Dec Call :=
  '(s, enclosing) ← lift (resolved d);
  match s with
  | SNull => mret VisitUnit
  | SUnion variants =>
      '(_, branch) ← union_branch variants;
      '(target, _) ← lift (resolve_schema branch enclosing);
      match target with
      | SNull => mret VisitUnit
      | other => dfail (Expected "null union branch" other)
      end
  | other => dfail (Expected "null-shaped" other)
  end.

Definition deserialize_newtype_struct (d : De) : Dec Call := mret (VisitNewtype d).

Fixpoint deserialize_seq (lv : nat) (d : De) : Dec Call :=
  '(s, enclosing) ← lift (resolved d);
  match s with
  | SArray items => depth ← lift (deeper d); mret (VisitSeq (seq_new items enclosing depth))
  | SUnion variants =>
      '(_, branch) ← union_branch variants;
      match branch with
      | SNull => mret (VisitSeq (seq_empty SNull (de_depth d)))
      | _ =>
          d ← lift (child d branch enclosing);
          match lv with O => dfail Looping | S lv => deserialize_seq lv d end
      end
  | other => dfail (Expected "array" other)
  end.

Fixpoint deserialize_map (lv : nat) (d : De) : Dec Call :=
  '(s, enclosing) ← lift (resolved d);
  match s with
  | SMap types =>
      depth ← lift (deeper d); a ← map_new types enclosing depth; mret (VisitMap a)
  | SRecord name fields =>
      depth ← lift (deeper d); mret (VisitRecord (record_new name fields enclosing depth))
  | SUnion variants =>
      into_branch d variants enclosing
        (fun d => match lv with O => dfail Looping | S lv => deserialize_map lv d end)
  | other => dfail (Expected "map or record" other)
  end.

Definition deserialize_struct (d : De) : Dec Call :=
  '(s, enclosing) ← lift (resolved d);
  match s with
  | SRecord name fields =>
      depth ← lift (deeper d); mret (VisitRecord (record_new name fields enclosing depth))
  | SUnion variants =>
      '(_, branch) ← union_branch variants;
      depth ← lift (deeper d);
      '(target, ns) ← lift (resolve_schema branch enclosing);
      match target with
      | SNull => mret (VisitRecord (record_empty depth))
      | SRecord name fields => mret (VisitRecord (record_new name fields ns depth))
      | other => dfail (Expected "record or null union branch" other)
      end
  | other => dfail (Expected "record" other)
  end.

Definition deserialize_enum (variants_of_target : list string) (d : De) : Dec Call :=
  '(s, enclosing) ← lift (resolved d);
  match s with
  | SUnion variants =>
      '(idx, branch) ← union_branch variants;
      match variants_of_target !! idx with
      | None => dfail (VariantRange (Z.of_nat idx) (Z.of_nat (length variants_of_target)))
      | Some variant => d ← lift (child d branch enclosing); mret (VisitUnionVariant variant d)
      end
  | SEnum symbols => x ← enum_symbol symbols; mret (VisitSymbol (FromSchema x))
  | SString => b ← utf8; mret (VisitSymbol (FromPayload b))
  | other => dfail (Expected "union, enum, or string" other)
  end.

Definition deserialize_ignored_any (d : De) : Dec Call :=
  skip_datum (levels_left (de_depth d)) (de_schema d) (de_enclosing d) (de_depth d) ;;;
  mret VisitUnit.

(** [UnionAccess]'s variant methods; a newtype variant's seed gets [d] itself. *)
Definition union_unit_variant (d : De) : DatumError + unit :=
  match resolved d with
  | inl e => inl e
  | inr (SNull, _) => inr tt
  | inr (other, _) => inl (Expected "null union branch for a unit variant" other)
  end.
Definition union_tuple_variant (d : De) : Dec Call := deserialize_seq (levels_left (de_depth d)) d.
Definition union_struct_variant (d : De) : Dec Call := deserialize_struct d.

(** [SymbolAccess]'s other variant methods. *)
Definition symbol_data_variant {A} : Dec A := dfail OnlyUnitVariants.

(** ** The visitor that records *)

Inductive Seen :=
  | SeenUnit
  | SeenBool (b : bool)
  | SeenI32 (v : Z)
  | SeenI64 (v : Z)
  | SeenF32 (bits : Z)
  | SeenF64 (bits : Z)
  | SeenStr (x : Text)
  | SeenBytes (b : list Z)
  | SeenSeq (l : list Seen)
  | SeenMap (l : list (Text * Seen)).

(** The elements of a sequence, the entries of a map and of a record. *)
Fixpoint visit_seq (fuel : nat) (value : De -> Dec Seen) (a : BlockAccess) : Dec (list Seen) :=
  match fuel with
  | O => dfail Looping
  | S fuel =>
      '(d, a) ← next_element a;
      match d with
      | None => mret []
      | Some d => x ← value d; l ← visit_seq fuel value a; mret (x :: l)
      end
  end.
Fixpoint visit_map (fuel : nat) (value : De -> Dec Seen) (a : BlockAccess)
    : Dec (list (Text * Seen)) :=
  match fuel with
  | O => dfail Looping
  | S fuel =>
      '(k, a) ← map_next_key a;
      match k with
      | None => mret []
      | Some k =>
          x ← value (map_next_value a); l ← visit_map fuel value a; mret ((FromPayload k, x) :: l)
      end
  end.
Fixpoint visit_record (fuel : nat) (value : De -> Dec Seen) (a : RecordAccess)
    : Dec (list (Text * Seen)) :=
  match fuel with
  | O => dfail Looping
  | S fuel =>
      let '(k, a) := record_next_key a in
      match k with
      | None => mret []
      | Some k =>
          '(d, a) ← lift (record_next_value a);
          x ← value d; l ← visit_record fuel value a; mret ((FromSchema k, x) :: l)
      end
  end.

(** As many items as the open block and the budget allow. *)
Definition item_fuel (a : BlockAccess) (c : Cursor) : nat :=
  S (Z.to_nat (ba_remaining a + items_budget c)).

Fixpoint record_datum (lv : nat) (d : De) : Dec Seen :=
  match lv with
  | O => dfail Looping
  | S lv =>
      call ← deserialize_any (levels_left (de_depth d)) d;
      match call with
      | VisitUnit => mret SeenUnit
      | VisitBool b => mret (SeenBool b)
      | VisitI32 v => mret (SeenI32 v)
      | VisitI64 v => mret (SeenI64 v)
      | VisitF32 v => mret (SeenF32 v)
      | VisitF64 v => mret (SeenF64 v)
      | VisitBorrowedStr b => mret (SeenStr (FromPayload b))
      | VisitStr x => mret (SeenStr (FromSchema x))
      | VisitBorrowedBytes b | VisitBytes b => mret (SeenBytes b)
      | VisitSeq a => fun c => (SeenSeq <$> visit_seq (item_fuel a c) (record_datum lv) a) c
      | VisitMap a => fun c => (SeenMap <$> visit_map (item_fuel a c) (record_datum lv) a) c
      | VisitRecord a =>
          SeenMap <$> visit_record (S (length (ra_fields a))) (record_datum lv) a
      | VisitNone | VisitSome _ | VisitNewtype _ | VisitUnionVariant _ _ | VisitSymbol _ => dpanic
      end
  end.

(** [decode_datum] with that visitor. *)
Definition decode_datum (s : Schema) (datum : list Z) : DResult Seen :=
  record_datum (levels_left 0) (mkDe s None 0) (cursor_new datum).
End decoder.
