(* ===== verification/AvroProofs.v ===== *)
(** * Properties of the Avro datum decoder

    [Datum] is a value of Avro's data model with the blocks its collections are
    written in, [encode_datum] the binary encoding of the specification, and [trace]
    what a recording visitor is to see of it under a schema. The decoder reads
    every encoding whose nesting the depth limit allows back to its trace, and a
    skip the same bytes under its own count of levels; past the limit each fails
    with it. *)

From stdpp Require Import base list gmap strings.
From Stdlib Require Import ZArith Lia.
From S2P Require Import Prelude AvroDatum.

(** ** Programs that read a fixed input *)

(** [m] consumes exactly [bs], charges [k] items and answers [a]. *)
Definition reads {A} (m : Dec A) (bs : list Z) (k : Z) (a : A) : Prop :=
  forall rest B, k <= B -> m (mkCursor (bs ++ rest) B) = DOk a (mkCursor rest (B - k)).

Lemma reads_ret {A} (a : A) : reads (mret a) [] 0 a.
Proof. intros rest B _. cbn. by rewrite Z.sub_0_r. Qed.

Lemma reads_bind {A B} (m : Dec A) (f : A -> Dec B) b1 b2 k1 k2 a x :
  0 <= k2 -> reads m b1 k1 a -> reads (f a) b2 k2 x -> reads (m ≫= f) (b1 ++ b2) (k1 + k2) x.
Proof.
  intros Hk Hm Hf rest B' HB. unfold mbind, dec_bind. rewrite <- app_assoc, Hm by lia.
  rewrite Hf by lia. by rewrite Z.sub_add_distr.
Qed.

(** The common cases: nothing charged before, or nothing after. *)
Lemma reads_then {A B} (m : Dec A) (f : A -> Dec B) b1 b2 k a x :
  0 <= k -> reads m b1 0 a -> reads (f a) b2 k x -> reads (m ≫= f) (b1 ++ b2) k x.
Proof. intros Hk Hm Hf. by apply (reads_bind m f b1 b2 0 k a x). Qed.

Lemma reads_map {A B} (m : Dec A) (g : A -> B) bs k a :
  reads m bs k a -> reads (x ← m; mret (g x)) bs k (g a).
Proof.
  intros Hm rest B' HB. unfold mbind, dec_bind. by rewrite Hm.
Qed.

Lemma reads_fmap {A B} (m : Dec A) (g : A -> B) bs k a :
  reads m bs k a -> reads (g <$> m) bs k (g a).
Proof. intros Hm rest B' HB. unfold fmap, dec_fmap. by rewrite Hm. Qed.

Lemma reads_ext {A} (m m' : Dec A) bs k a :
  (forall c, m c = m' c) -> reads m' bs k a -> reads m bs k a.
Proof. intros He Hm rest B HB. rewrite He. by apply Hm. Qed.

(** A step that reads nothing. *)
Lemma reads_lift {A B} (a : A) (f : A -> Dec B) bs k x :
  reads (f a) bs k x -> reads (lift (inr a) ≫= f) bs k x.
Proof. intros Hf. exact Hf. Qed.

(** The same where the walk may meet the depth limit: [ok] says that it does not. *)
Definition tries {A} (m : Dec A) (bs : list Z) (k : Z) (ok : bool) (a : A) : Prop :=
  forall rest B, k <= B -> m (mkCursor (bs ++ rest) B) =
    if ok then DOk a (mkCursor rest (B - k)) else DErr DepthLimit.

Lemma tries_reads {A} (m : Dec A) bs k a : reads m bs k a <-> tries m bs k true a.
Proof. done. Qed.

Lemma tries_bind {A B} (m : Dec A) (f : A -> Dec B) b1 b2 k1 k2 ok1 ok2 a x :
  0 <= k2 -> tries m b1 k1 ok1 a -> tries (f a) b2 k2 ok2 x ->
  tries (m ≫= f) (b1 ++ b2) (k1 + k2) (ok1 && ok2) x.
Proof.
  intros Hk Hm Hf rest B' HB. unfold mbind, dec_bind. rewrite <- app_assoc, Hm by lia.
  destruct ok1; [|done]. cbn [andb]. rewrite Hf by lia. by rewrite Z.sub_add_distr.
Qed.

Lemma tries_then {A B} (m : Dec A) (f : A -> Dec B) b1 b2 k ok a x :
  0 <= k -> reads m b1 0 a -> tries (f a) b2 k ok x -> tries (m ≫= f) (b1 ++ b2) k ok x.
Proof. intros Hk Hm%tries_reads Hf. by apply (tries_bind m f b1 b2 0 k true ok a x). Qed.

Lemma tries_map {A B} (m : Dec A) (g : A -> B) bs k ok a :
  tries m bs k ok a -> tries (x ← m; mret (g x)) bs k ok (g a).
Proof. intros Hm rest B' HB. unfold mbind, dec_bind. rewrite Hm by done. by destruct ok. Qed.

Lemma tries_fmap {A B} (m : Dec A) (g : A -> B) bs k ok a :
  tries m bs k ok a -> tries (g <$> m) bs k ok (g a).
Proof. intros Hm rest B' HB. unfold fmap, dec_fmap. rewrite Hm by done. by destruct ok. Qed.

Lemma tries_ext {A} (m m' : Dec A) bs k ok a :
  (forall c, m c = m' c) -> tries m' bs k ok a -> tries m bs k ok a.
Proof. intros He Hm rest B HB. rewrite He. by apply Hm. Qed.

Lemma tries_lift {A B} (a : A) (f : A -> Dec B) bs k ok x :
  tries (f a) bs k ok x -> tries (lift (inr a) ≫= f) bs k ok x.
Proof. intros Hf. exact Hf. Qed.

(** A walk that is at the limit already. *)
Lemma tries_limit {A} (m : Dec A) bs k a : (forall c, m c = DErr DepthLimit) -> tries m bs k false a.
Proof. intros Hm rest B _. apply Hm. Qed.

(** ** Variable-length integers *)

Fixpoint var_bytes (n : nat) (z : Z) : list Z :=
  match n with
  | O => []
  | S n => if decide (z < 128) then [z] else (z mod 128 + 128) :: var_bytes n (z / 128)
  end.

(** The zigzag encoding of a [long]. *)
Definition zigzag (v : Z) : Z := if decide (0 <= v) then 2 * v else - (2 * v) - 1.
Definition long (v : Z) : list Z := var_bytes 10 (zigzag v).

Lemma lor_shift a b n : 0 <= a < 2 ^ n -> 0 <= n -> 0 <= b -> Z.lor a (Z.shiftl b n) = a + b * 2 ^ n.
Proof.
  intros Ha Hn Hb. rewrite <- Z.shiftl_mul_pow2 by done.
  rewrite Z.add_nocarry_lxor, Z.lxor_lor; [done| |].
  all: apply Z.bits_inj'; intros i Hi; rewrite Z.land_spec, Z.bits_0.
  all: destruct (decide (i < n)); [rewrite (Z.shiftl_spec_low _ _ i) by lia; by rewrite andb_false_r|].
  all: replace a with (a mod 2 ^ n) by (by apply Z.mod_small).
  all: by rewrite Z.mod_pow2_bits_high by lia.
Qed.

Lemma land_127 b : Z.land b 127 = b mod 128.
Proof. change 127 with (Z.ones 7). by rewrite Z.land_ones by lia. Qed.

Lemma land_128 b : 0 <= b < 256 -> Z.land b 128 = 0 <-> b < 128.
Proof.
  intros Hb. change 128 with (2 ^ 7) at 1.
  split.
  - intros Hl. destruct (decide (b < 128)) as [|Hge]; [done|]. exfalso.
    assert (Ht : Z.testbit b 7 = true).
    { rewrite Z.testbit_true by lia. change (2 ^ 7) with 128.
      replace (b / 128) with 1; [done|]. apply (Z.div_unique b 128 1 (b - 128)); lia. }
    assert (Hz : Z.testbit (Z.land b (2 ^ 7)) 7 = false) by (by rewrite Hl, Z.bits_0).
    rewrite Z.land_spec, Ht, Z.pow2_bits_true in Hz by lia. done.
  - intros Hlt. apply Z.bits_inj'. intros i Hi. rewrite Z.land_spec, Z.bits_0.
    destruct (decide (i = 7)) as [->|Hne]; [|by rewrite Z.pow2_bits_false, andb_false_r by lia].
    replace b with (b mod 2 ^ 7) by (apply Z.mod_small; lia). by rewrite Z.mod_pow2_bits_high by lia.
Qed.

Lemma next_byte_reads b : reads next_byte [b] 0 b.
Proof. intros rest B _. cbn. by rewrite Z.sub_0_r. Qed.

Lemma var_loop_reads n : forall shift value z,
  shift + Z.of_nat n = 10 -> 0 <= shift -> (0 < n)%nat ->
  0 <= value < 2 ^ (shift * 7) -> 0 <= z -> z * 2 ^ (shift * 7) < 2 ^ 64 ->
  reads (var_loop n shift value) (var_bytes n z) 0 (value + z * 2 ^ (shift * 7)).
Proof.
  induction n as [|n IH]; intros shift value z Hs Hs0 Hn Hv Hz Hb; [lia|]. cbn [var_bytes var_loop].
  assert (Hpow : 0 < 2 ^ (shift * 7)) by (apply Z.pow_pos_nonneg; lia).
  destruct (decide (z < 128)) as [Hlt|Hge].
  - eapply (reads_bind _ _ [z] [] 0 0); [lia|apply next_byte_reads|]. cbv beta.
    rewrite decide_True by (apply land_128; lia).
    rewrite land_127, Z.mod_small, wrap_u64_small, lor_shift by
      (try rewrite Z.shiftl_mul_pow2 by lia; unfold_int; nia).
    apply reads_ret.
  - assert (Hm : 0 <= z mod 128 < 128) by (apply Z.mod_pos_bound; lia).
    pose proof (Z.div_mod z 128 ltac:(lia)) as Hdm.
    assert (Hq : 0 < z / 128) by (apply Z.div_str_pos; lia).
    destruct (decide (n = 0%nat)) as [->|Hn0].
    { exfalso. replace shift with 9 in * by lia. change (2 ^ (9 * 7)) with (2 ^ 63) in Hb. lia. }
    eapply (reads_bind _ _ [z mod 128 + 128] (var_bytes n (z / 128)) 0 0); [lia|apply next_byte_reads|].
    cbv beta. rewrite decide_False by (rewrite land_128; lia).
    rewrite land_127. replace ((z mod 128 + 128) mod 128) with (z mod 128)
      by (apply (Z.mod_unique _ 128 1); lia).
    rewrite wrap_u64_small, lor_shift by
      (try rewrite Z.shiftl_mul_pow2 by lia; unfold_int; nia).
    assert (Hp : 2 ^ ((shift + 1) * 7) = 128 * 2 ^ (shift * 7)).
    { replace ((shift + 1) * 7) with (7 + shift * 7) by lia. rewrite Z.pow_add_r by lia. done. }
    replace (value + z * 2 ^ (shift * 7))
      with (value + z mod 128 * 2 ^ (shift * 7) + z / 128 * 2 ^ ((shift + 1) * 7)) by (rewrite Hp; nia).
    apply IH; try lia; rewrite ?Hp; nia.
Qed.

Lemma zag_zigzag v : is_i64 v -> zag (zigzag v) = v /\ 0 <= zigzag v < 2 ^ 64.
Proof.
  intros Hv. unfold zag, zigzag. unfold_int. destruct (decide (0 <= v)) as [Hp|Hp].
  - rewrite Z.land_ones with (n := 1) by lia. change (2 ^ 1) with 2.
    rewrite decide_True by (rewrite Z.mul_comm; apply Z.mod_mul; lia).
    rewrite Z.shiftr_div_pow2 by lia. change (2 ^ 1) with 2.
    rewrite Z.mul_comm, Z.div_mul by lia. rewrite wrap_i64_small by (unfold_int; lia). lia.
  - rewrite Z.land_ones with (n := 1) by lia. change (2 ^ 1) with 2.
    assert (Hm : (- (2 * v) - 1) mod 2 = 1) by (symmetry; apply (Z.mod_unique _ 2 (- v - 1) 1); lia).
    rewrite decide_False by lia. rewrite Z.shiftr_div_pow2 by lia. change (2 ^ 1) with 2.
    replace ((- (2 * v) - 1) / 2) with (- v - 1) by (apply (Z.div_unique _ 2 (- v - 1) 1); lia).
    unfold wrap_i64. replace (2 ^ 64 - 1 - (- v - 1) + 2 ^ 63) with (v + 2 ^ 63 + 1 * 2 ^ 64) by lia.
    rewrite Z.mod_add, Z.mod_small by lia. lia.
Qed.

Lemma zag_i64_reads v : is_i64 v -> reads zag_i64 (long v) 0 v.
Proof.
  intros Hv. destruct (zag_zigzag v Hv) as [Hz Hr]. unfold zag_i64, long.
  rewrite <- Hz at 2. apply (reads_map var_u64 zag).
  replace (zigzag v) with (0 + zigzag v * 2 ^ (0 * 7)) at 2 by (change (2 ^ (0 * 7)) with 1; lia).
  apply var_loop_reads; change (2 ^ (0 * 7)) with 1; lia.
Qed.

Lemma zag_i32_reads v : is_i32 v = true -> reads zag_i32 (long v) 0 v.
Proof.
  intros Hv. pose proof (bool_decide_eq_true_1 _ Hv) as Hr. unfold zag_i32.
  rewrite <- (app_nil_r (long v)).
  eapply reads_then; [lia|apply zag_i64_reads; unfold_int; lia|]. cbv beta. rewrite Hv. apply reads_ret.
Qed.

Lemma take_n_reads b : reads (take_n (Z.of_nat (length b))) b 0 b.
Proof.
  intros rest B _. unfold take_n. cbn [cur_buf items_budget].
  rewrite decide_False by (rewrite length_app; lia).
  by rewrite Nat2Z.id, take_app_length, drop_app_length, Z.sub_0_r.
Qed.

Definition short (b : list Z) : bool := bool_decide (Z.of_nat (length b) <= I64_MAX).

Lemma len_prefixed_reads b :
  short b = true -> reads len_prefixed (long (Z.of_nat (length b)) ++ b) 0 b.
Proof.
  intros Hb%bool_decide_eq_true_1. eapply reads_then; [lia|apply zag_i64_reads; unfold_int; lia|].
  cbv beta. rewrite decide_False by lia. apply take_n_reads.
Qed.

Lemma utf8_reads b :
  short b = true -> valid_utf8 b = true -> reads utf8 (long (Z.of_nat (length b)) ++ b) 0 b.
Proof.
  intros Hb Hv. unfold utf8. rewrite <- (app_nil_r (_ ++ b)).
  eapply reads_then; [lia|by apply len_prefixed_reads|]. cbv beta. rewrite Hv. apply reads_ret.
Qed.

Lemma read_bool_reads (b : bool) : reads read_bool [if b then 1 else 0] 0 b.
Proof. intros rest B _. destruct b; cbn; by rewrite Z.sub_0_r. Qed.

Lemma read_float_reads k bits :
  0 <= bits < 256 ^ Z.of_nat k ->
  reads (b ← take_n (Z.of_nat k); mret (le_val b)) (le_bytes k bits) 0 bits.
Proof.
  intros Hb. rewrite <- (le_val_bytes k bits Hb) at 2. apply (reads_map _ le_val).
  rewrite <- (le_bytes_length k bits) at 1. apply take_n_reads.
Qed.

Lemma enum_symbol_reads symbols idx :
  (idx < length symbols)%nat -> is_i32 (Z.of_nat idx) = true ->
  reads (enum_symbol symbols) (long (Z.of_nat idx)) 0 (default "" (symbols !! idx)).
Proof.
  intros Hi Hv. destruct (lookup_lt_is_Some_2 _ _ Hi) as [x Hx]. unfold enum_symbol.
  rewrite <- (app_nil_r (long _)). eapply reads_then; [done|by apply zag_i32_reads|]. cbv beta.
  rewrite decide_False, Nat2Z.id, Hx by lia. apply reads_ret.
Qed.

Lemma charge_reads k : reads (charge_items k) [] k tt.
Proof. intros rest B HB. unfold charge_items. cbn. by rewrite decide_True. Qed.

(** ** Values and their encoding *)

(** A collection's items come in blocks; a sized block says its length in bytes. *)
Inductive Datum :=
  | DNull
  | DBool (b : bool)
  | DInt (v : Z)
  | DLong (v : Z)
  | DFloat (bits : Z)
  | DDouble (bits : Z)
  | DBytes (b : list Z)
  | DString (b : list Z)
  | DFixed (b : list Z)
  | DEnum (idx : nat)
  | DRecord (fields : list Datum)
  | DArray (blocks : list (bool * list Datum))
  | DMap (blocks : list (bool * list (list Z * Datum)))
  | DUnion (idx : nat) (x : Datum).

Section datum_ind.
Variable P : Datum -> Prop.
Hypothesis Hleaf : forall x : Datum,
  match x with DRecord _ | DArray _ | DMap _ | DUnion _ _ => True | _ => P x end.
Hypothesis Hrecord : forall fields, Forall P fields -> P (DRecord fields).
Hypothesis Harray : forall blocks, Forall (fun b => Forall P b.2) blocks -> P (DArray blocks).
Hypothesis Hmap : forall blocks,
  Forall (fun b => Forall (fun e => P e.2) b.2) blocks -> P (DMap blocks).
Hypothesis Hunion : forall idx x, P x -> P (DUnion idx x).

Fixpoint datum_ind (x : Datum) : P x :=
  match x return P x with
  | DRecord fields => Hrecord fields
      ((fix go l : Forall P l := match l with
        | [] => List.Forall_nil _ | y :: l => List.Forall_cons _ _ _ (datum_ind y) (go l) end) fields)
  | DArray blocks => Harray blocks
      ((fix go bs : Forall (fun b => Forall P b.2) bs := match bs with
        | [] => List.Forall_nil _
        | b :: bs => List.Forall_cons _ _ _
            ((fix go l : Forall P l := match l with
              | [] => List.Forall_nil _ | y :: l => List.Forall_cons _ _ _ (datum_ind y) (go l)
              end) b.2) (go bs) end) blocks)
  | DMap blocks => Hmap blocks
      ((fix go bs : Forall (fun b => Forall (fun e => P e.2) b.2) bs := match bs with
        | [] => List.Forall_nil _
        | b :: bs => List.Forall_cons _ _ _
            ((fix go (l : list (list Z * Datum)) : Forall (fun e => P e.2) l := match l with
              | [] => List.Forall_nil _ | e :: l => List.Forall_cons _ _ _ (datum_ind e.2) (go l)
              end) b.2) (go bs) end) blocks)
  | DUnion idx y => Hunion idx y (datum_ind y)
  | DNull => Hleaf DNull
  | DBool b => Hleaf (DBool b)
  | DInt v => Hleaf (DInt v)
  | DLong v => Hleaf (DLong v)
  | DFloat v => Hleaf (DFloat v)
  | DDouble v => Hleaf (DDouble v)
  | DBytes b => Hleaf (DBytes b)
  | DString b => Hleaf (DString b)
  | DFixed b => Hleaf (DFixed b)
  | DEnum i => Hleaf (DEnum i)
  end.
End datum_ind.

(** A block of [n] items written as [body]. *)
Definition header (sized : bool) (n : nat) (body : list Z) : list Z :=
  if sized then long (- Z.of_nat n) ++ long (Z.of_nat (length body)) else long (Z.of_nat n).
Definition block (sized : bool) (n : nat) (body : list Z) : list Z := header sized n body ++ body.
Definition prefixed (b : list Z) : list Z := long (Z.of_nat (length b)) ++ b.

Fixpoint encode_datum (x : Datum) : list Z :=
  match x with
  | DNull => []
  | DBool b => [if b then 1 else 0]
  | DInt v | DLong v => long v
  | DFloat bits => le_bytes 4 bits
  | DDouble bits => le_bytes 8 bits
  | DBytes b | DString b => prefixed b
  | DFixed b => b
  | DEnum idx => long (Z.of_nat idx)
  | DRecord fields => concat (encode_datum <$> fields)
  | DArray blocks =>
      concat ((fun b : bool * list Datum => block b.1 (length b.2) (concat (encode_datum <$> b.2))) <$> blocks)
      ++ long 0
  | DMap blocks =>
      concat ((fun b : bool * list (list Z * Datum) => block b.1 (length b.2)
        (concat ((fun e : list Z * Datum => prefixed e.1 ++ encode_datum e.2) <$> b.2))) <$> blocks)
      ++ long 0
  | DUnion idx x => long (Z.of_nat idx) ++ encode_datum x
  end.

Definition sum {A} (f : A -> Z) (l : list A) : Z := foldr (fun x n => f x + n) 0 l.
Definition deepest {A} (f : A -> nat) (l : list A) : nat := foldr (fun x n => f x `max` n)%nat 0%nat l.

Lemma sum_cons {A} (f : A -> Z) x l : sum f (x :: l) = f x + sum f l.
Proof. done. Qed.
Lemma sum_nil {A} (f : A -> Z) : sum f [] = 0.
Proof. done. Qed.
#[global] Arguments sum : simpl never.

Lemma deepest_elem {A} (f : A -> nat) l x : x ∈ l -> (f x <= deepest f l)%nat.
Proof. unfold deepest. induction 1 as [|x y l _ IH]; cbn [foldr]; lia. Qed.

(** Whether [n] more levels stay within the limit at [depth]. *)
Definition within_depth (depth : Z) (n : nat) : bool := bool_decide (depth + Z.of_nat n <= MAX_DEPTH).

Lemma within_deepest {A} depth (f : A -> nat) l :
  depth <= MAX_DEPTH -> within_depth depth (deepest f l) = forallb (fun y => within_depth depth (f y)) l.
Proof.
  intros Hd. unfold within_depth. induction l as [|y l IH]; cbn [forallb].
  - apply bool_decide_eq_true. cbn. lia.
  - rewrite <- IH. unfold deepest. cbn [foldr]. rewrite Nat2Z.inj_max.
    destruct (bool_decide_reflect (depth + Z.of_nat (f y) <= MAX_DEPTH));
      [apply bool_decide_ext; lia|apply bool_decide_eq_false; lia].
Qed.

Lemma within_blocks {A} depth (f : A -> nat) (blocks : list (bool * list A)) :
  depth <= MAX_DEPTH ->
  within_depth depth (deepest (fun b : bool * list A => deepest f b.2) blocks) =
    forallb (fun b : bool * list A => forallb (fun y => within_depth depth (f y)) b.2) blocks.
Proof.
  intros Hd. rewrite within_deepest by done. induction blocks as [|b blocks IH]; [done|].
  cbn [forallb]. by rewrite IH, within_deepest.
Qed.

Lemma within_S depth n : within_depth depth (S n) = within_depth (depth + 1) n.
Proof. unfold within_depth. apply bool_decide_ext. lia. Qed.

Lemma within_none depth : depth <= MAX_DEPTH -> within_depth depth 0 = true.
Proof. intros Hd. apply bool_decide_eq_true. lia. Qed.

Lemma within_over depth n : MAX_DEPTH < depth -> within_depth depth n = false.
Proof. intros Hd. apply bool_decide_eq_false. lia. Qed.
#[global] Arguments deepest : simpl never.

(** The items a walk charges for, and the levels it goes down. *)
Fixpoint items (x : Datum) : Z :=
  match x with
  | DRecord fields => sum items fields
  | DArray blocks => sum (fun b : bool * list Datum => Z.of_nat (length b.2) + sum items b.2) blocks
  | DMap blocks =>
      sum (fun b : bool * list (list Z * Datum) => Z.of_nat (length b.2) + sum (fun e => items e.2) b.2) blocks
  | DUnion _ x => items x
  | _ => 0
  end.
Fixpoint levels (x : Datum) : nat :=
  match x with
  | DRecord fields => S (deepest levels fields)
  | DArray blocks => S (deepest (fun b : bool * list Datum => deepest levels b.2) blocks)
  | DMap blocks =>
      S (deepest (fun b : bool * list (list Z * Datum) => deepest (fun e => levels e.2) b.2) blocks)
  | DUnion _ x => S (levels x)
  | _ => 0
  end.

Definition all2 {A B} (f : A -> B -> bool) : list A -> list B -> bool :=
  fix go l1 l2 {struct l2} :=
    match l1, l2 with
    | [], [] => true
    | a :: l1, b :: l2 => f a b && go l1 l2
    | _, _ => false
    end.
Definition map2 {A B C} (f : A -> B -> C) : list A -> list B -> list C :=
  fix go l1 l2 {struct l2} :=
    match l1, l2 with
    | a :: l1, b :: l2 => f a b :: go l1 l2
    | _, _ => []
    end.

Definition block_ok (sized : bool) (n : nat) (body : list Z) : bool :=
  bool_decide (0 < Z.of_nat n <= I64_MAX) && (negb sized || short body).

(** ** Reading a collection *)
Lemma refill_reads sized n body done :
  block_ok sized n body = true ->
  reads (refill 0 done) (header sized n body) (Z.of_nat n) (Z.of_nat n, done).
Proof.
  intros [Hn Hs]%andb_true_iff. apply bool_decide_eq_true_1 in Hn. unfold refill, header.
  destruct sized; cbn in Hs.
  - apply bool_decide_eq_true_1 in Hs. eapply (reads_then _ _ _ _ _ (- Z.of_nat n)); [lia| |].
    { apply zag_i64_reads. unfold_int; lia. }
    rewrite decide_False, decide_True by lia. rewrite <- (app_nil_r (long _)).
    eapply (reads_then _ _ (long _) [] _ (- - Z.of_nat n, done)); [lia| |].
    { rewrite <- (app_nil_r (long _)). eapply reads_then; [lia|apply zag_i64_reads; unfold_int; lia|].
      cbv beta. rewrite decide_False by (unfold_int; lia). apply reads_ret. }
    cbv beta iota. rewrite Z.opp_involutive.
    rewrite <- (Z.add_0_r (Z.of_nat n)) at 2. by eapply (reads_bind _ _ [] []); [lia|apply charge_reads|apply reads_ret].
  - rewrite <- (app_nil_r (long _)). eapply (reads_then _ _ _ _ _ (Z.of_nat n)); [lia| |].
    { apply zag_i64_reads. unfold_int; lia. }
    rewrite !decide_False by lia. eapply (reads_then _ _ [] [] _ (Z.of_nat n, done)); [lia|apply reads_ret|].
    cbv beta iota.
    rewrite <- (Z.add_0_r (Z.of_nat n)) at 2. by eapply (reads_bind _ _ [] []); [lia|apply charge_reads|apply reads_ret].
Qed.

Lemma refill_end_reads done : reads (refill 0 done) (long 0) 0 (0, true).
Proof.
  unfold refill. rewrite <- (app_nil_r (long _)).
  eapply (reads_then _ _ _ _ _ 0); [lia|apply zag_i64_reads; unfold_int; lia|].
  rewrite decide_True by done. eapply (reads_then _ _ [] [] _ (0, true)); [lia|apply reads_ret|].
  cbv beta iota. by eapply (reads_bind _ _ [] [] 0 0); [lia|apply charge_reads|apply reads_ret].
Qed.

Lemma long_cons v : exists b l, long v = b :: l.
Proof. unfold long. cbn [var_bytes]. destruct (decide _); eauto. Qed.

Lemma next_item_open r done a :
  0 < r -> reads (next_item (with_block r done a)) [] 0 (true, with_block (r - 1) done a).
Proof.
  intros Hr rest B HB. unfold next_item. cbn [ba_remaining ba_done with_block refill_loop].
  rewrite decide_False by lia. cbn. by rewrite Z.sub_0_r.
Qed.

Lemma next_item_over a : reads (next_item (with_block 0 true a)) [] 0 (false, with_block 0 true a).
Proof. intros rest B HB. cbn. by rewrite Z.sub_0_r. Qed.

Lemma next_item_block sized n body a :
  block_ok sized n body = true ->
  reads (next_item (with_block 0 false a)) (header sized n body) (Z.of_nat n)
    (true, with_block (Z.of_nat n - 1) false a).
Proof.
  intros Hb rest B HB. unfold next_item.
  cbn [cur_buf ba_remaining ba_done with_block refill_loop]. rewrite decide_True by done.
  unfold mbind at 1, dec_bind at 1. rewrite (refill_reads _ _ _ false Hb rest B HB).
  apply andb_true_iff in Hb as [Hn%bool_decide_eq_true_1 _].
  destruct (length (header sized n body ++ rest)); cbn [refill_loop];
    rewrite decide_False by lia; reflexivity.
Qed.

Lemma next_item_end a :
  reads (next_item (with_block 0 false a)) (long 0) 0 (false, with_block 0 true a).
Proof.
  intros rest B HB. unfold next_item.
  cbn [cur_buf ba_remaining ba_done with_block refill_loop]. rewrite decide_True by done.
  unfold mbind at 1, dec_bind at 1. rewrite (refill_end_reads false rest B HB).
  by destruct (length (long 0 ++ rest)).
Qed.

(** A visitor's walk of a collection whose entries [entry] reads. *)
Fixpoint visit_items {X} (fuel : nat) (entry : Dec X) (a : BlockAccess) : Dec (list X) :=
  match fuel with
  | O => dfail Looping
  | S fuel =>
      '(some, a) ← next_item a;
      if (some : bool) then x ← entry; l ← visit_items fuel entry a; mret (x :: l) else mret []
  end.

Section collection.
Context {X Y : Type}.
Variable entry : Dec X.
Variables (eb : Y -> list Z) (ek : Y -> Z) (eo : Y -> bool) (ev : Y -> X).

Definition entry_ok (y : Y) : Prop := 0 <= ek y /\ tries entry (eb y) (ek y) (eo y) (ev y).
Definition block_bytes (b : bool * list Y) : list Z :=
  block b.1 (length b.2) (concat (eb <$> b.2)).
Definition block_items (b : bool * list Y) : Z := Z.of_nat (length b.2) + sum ek b.2.
Definition block_good (b : bool * list Y) : Prop :=
  block_ok b.1 (length b.2) (concat (eb <$> b.2)) = true /\ Forall entry_ok b.2.

Lemma sum_entries ys : Forall entry_ok ys -> 0 <= sum ek ys.
Proof. induction 1 as [|y ys [Hy _] _ IH]; [done|]. rewrite sum_cons. lia. Qed.

Lemma sum_blocks blocks : Forall block_good blocks ->
  Z.of_nat (length (concat (snd <$> blocks))) <= sum block_items blocks.
Proof.
  induction 1 as [|b blocks [_ Hb] _ IH]; [done|]. rewrite sum_cons, fmap_cons. cbn [concat].
  rewrite length_app. pose proof (sum_entries _ Hb). unfold block_items at 1. lia.
Qed.

Lemma visit_item_step a n fuel y bs k ok l :
  entry_ok y -> 0 <= k ->
  tries (visit_items fuel entry (with_block (Z.of_nat n) false a)) bs k ok l ->
  tries (visit_items (S fuel) entry (with_block (Z.of_nat (S n)) false a)) (eb y ++ bs) (ek y + k)
    (eo y && ok) (ev y :: l).
Proof.
  intros [Hk Hy] Hk' Hl. cbn [visit_items].
  eapply (tries_then _ _ [] _ _ _ (true, _)); [lia|apply next_item_open; lia|]. cbv beta iota.
  eapply tries_bind; [lia|exact Hy|]. cbv beta. apply (tries_map _ (cons (ev y))).
  by replace (Z.of_nat (S n) - 1) with (Z.of_nat n) by lia.
Qed.

Lemma visit_block_step a sized n body fuel bs k ok l :
  block_ok sized n body = true -> 0 <= k ->
  tries (visit_items fuel entry (with_block (Z.of_nat n) false a)) bs k ok l ->
  tries (visit_items fuel entry (with_block 0 false a)) (header sized n body ++ bs) (Z.of_nat n + k) ok l.
Proof.
  intros Hb Hk Hl rest B HB.
  destruct fuel as [|fuel]; [specialize (Hl [] k (Z.le_refl k)); cbn in Hl; by destruct ok|].
  rewrite <- app_assoc. cbn [visit_items] in *. unfold mbind at 1, dec_bind at 1.
  rewrite (next_item_block sized n body a Hb (bs ++ rest) B) by lia.
  specialize (Hl rest (B - Z.of_nat n) ltac:(lia)). unfold mbind at 1, dec_bind at 1 in Hl.
  pose proof Hb as [Hn%bool_decide_eq_true_1 _]%andb_true_iff.
  pose proof (next_item_open (Z.of_nat n) false a ltac:(lia) (bs ++ rest) (B - Z.of_nat n)) as Ho.
  cbn [app] in Ho. rewrite Ho in Hl by lia. rewrite Z.sub_0_r in Hl. rewrite Hl.
  destruct ok; by rewrite ?Z.sub_add_distr.
Qed.

Lemma visit_end_step a fuel :
  reads (visit_items (S fuel) entry (with_block 0 false a)) (long 0) 0 [].
Proof.
  cbn [visit_items]. rewrite <- (app_nil_r (long 0)).
  eapply (reads_then _ _ _ _ _ (false, _)); [lia|apply next_item_end|]. apply reads_ret.
Qed.

Lemma visit_items_reads (a : BlockAccess) (blocks : list (bool * list Y)) :
  Forall block_good blocks -> forall (ys : list Y) fuel, Forall entry_ok ys -> (length ys + length (concat (snd <$> blocks)) < fuel)%nat ->
  tries (visit_items fuel entry (with_block (Z.of_nat (length ys)) false a))
    (concat (eb <$> ys) ++ concat (block_bytes <$> blocks) ++ long 0)
    (sum ek ys + sum block_items blocks)
    (forallb eo ys && forallb (fun b : bool * list Y => forallb eo b.2) blocks)
    ((ev <$> ys) ++ concat ((fun b : bool * list Y => ev <$> b.2) <$> blocks)).
Proof.
  induction 1 as [|[sized zs] blocks [Hok Hzs] HF IHb].
  all: induction ys as [|y ys IHy]; intros [|fuel] Hys Hfuel; try (cbn in Hfuel; lia).
  2,4: apply Forall_cons in Hys as [Hy Hys]; rewrite !fmap_cons, sum_cons; cbn [concat length app forallb];
       rewrite <- app_assoc, <- Z.add_assoc, <- andb_assoc; apply visit_item_step;
       [done| |apply IHy; [done|cbn in *; lia]].
  - apply visit_end_step.
  - pose proof (sum_entries _ Hys). rewrite sum_nil. lia.
  - pose proof (sum_entries _ Hys). pose proof (sum_blocks ((sized, zs) :: blocks)
      (Forall_cons_2 _ _ _ (conj Hok Hzs) HF)). lia.
  - rewrite !fmap_cons, sum_nil, sum_cons. cbn [fmap list_fmap concat app length forallb andb].
    unfold block_bytes at 1, block, block_items at 1. cbn [fst snd] in *. rewrite <- !app_assoc, <- Z.add_assoc.
    apply visit_block_step; [done| |].
    + pose proof (sum_entries _ Hzs). pose proof (sum_blocks _ HF). cbn. lia.
    + apply IHb; [done|]. rewrite fmap_cons in Hfuel. cbn in Hfuel.
      rewrite length_app in Hfuel. lia.
Qed.
End collection.

Section roundtrip.
Context {Uuid : Type}.
Variable parse_str : list Z -> option Uuid.
Variable from_slice : list Z -> option Uuid.
Variable as_bytes : Uuid -> list Z.
Variable hyphenated : Uuid -> string.
Variable names : Names.

Local Notation resolve := (resolve_schema names).
Local Notation any := (deserialize_any parse_str from_slice hyphenated names).
Local Notation record := (record_datum parse_str from_slice hyphenated names).

(** The datum is one of the schema. *)
Fixpoint fits (ns : option string) (s : Schema) (x : Datum) {struct x} : bool :=
  match resolve s ns with
  | inl _ => false
  | inr (s, ns) =>
      match x with
      | DNull => match s with SNull => true | _ => false end
      | DBool _ => match s with SBoolean => true | _ => false end
      | DInt v => match s with SInt | SDate | STimeMillis => is_i32 v | _ => false end
      | DLong v =>
          match s with
          | SLong | STimeMicros | STimestampMillis | STimestampMicros | STimestampNanos
          | SLocalTimestampMillis | SLocalTimestampMicros | SLocalTimestampNanos =>
              bool_decide (I64_MIN <= v <= I64_MAX)
          | _ => false
          end
      | DFloat bits => match s with SFloat => bool_decide (0 <= bits < 2 ^ 32) | _ => false end
      | DDouble bits => match s with SDouble => bool_decide (0 <= bits < 2 ^ 64) | _ => false end
      | DBytes b =>
          match s with
          | SBytes | SDecimal DecimalBytes => short b
          | SUuid UuidBytes => short b && bool_decide (is_Some (from_slice b))
          | _ => false
          end
      | DString b =>
          match s with
          | SString => short b && valid_utf8 b
          | SUuid UuidString => short b && valid_utf8 b && bool_decide (is_Some (parse_str b))
          | _ => false
          end
      | DFixed b =>
          match s with
          | SFixed size | SDecimal (DecimalFixed size) => bool_decide (size = Z.of_nat (length b))
          | SUuid (UuidFixed size) =>
              bool_decide (size = Z.of_nat (length b)) && bool_decide (is_Some (from_slice b))
          | _ => false
          end
      | DEnum idx =>
          match s with
          | SEnum symbols => bool_decide (idx < length symbols)%nat && is_i32 (Z.of_nat idx)
          | _ => false
          end
      | DRecord fs =>
          match s with
          | SRecord name fields =>
              all2 (fun f y => fits (or_else (namespace name) ns) f.2 y) fields fs
          | _ => false
          end
      | DArray blocks =>
          match s with
          | SArray item =>
              forallb (fun b : bool * list Datum =>
                block_ok b.1 (length b.2) (concat (encode_datum <$> b.2)) && forallb (fits ns item) b.2) blocks
          | _ => false
          end
      | DMap blocks =>
          match s with
          | SMap value =>
              forallb (fun b : bool * list (list Z * Datum) =>
                block_ok b.1 (length b.2)
                  (concat ((fun e : list Z * Datum => prefixed e.1 ++ encode_datum e.2) <$> b.2)) &&
                forallb (fun e => short e.1 && valid_utf8 e.1 && fits ns value e.2) b.2) blocks
          | _ => false
          end
      | DUnion idx y =>
          match s with
          | SUnion variants =>
              bool_decide (Z.of_nat idx <= I64_MAX) &&
              match variants !! idx with Some v => fits ns v y | None => false end
          | _ => false
          end
      end
  end.

Definition uuid_text (u : option Uuid) : Seen :=
  SeenStr (FromSchema match u with Some u => hyphenated u | None => "" end).

(** What the recording visitor is to see of it. *)
Fixpoint trace (ns : option string) (s : Schema) (x : Datum) {struct x} : Seen :=
  match resolve s ns with
  | inl _ => SeenUnit
  | inr (s, ns) =>
      match x with
      | DNull => SeenUnit
      | DBool b => SeenBool b
      | DInt v => SeenI32 v
      | DLong v => SeenI64 v
      | DFloat bits => SeenF32 bits
      | DDouble bits => SeenF64 bits
      | DBytes b | DFixed b =>
          match s with SUuid _ => uuid_text (from_slice b) | _ => SeenBytes b end
      | DString b =>
          match s with SUuid _ => uuid_text (parse_str b) | _ => SeenStr (FromPayload b) end
      | DEnum idx =>
          match s with
          | SEnum symbols => SeenStr (FromSchema (default "" (symbols !! idx)))
          | _ => SeenUnit
          end
      | DRecord fs =>
          match s with
          | SRecord name fields =>
              SeenMap (map2 (fun f y => (FromSchema f.1, trace (or_else (namespace name) ns) f.2 y))
                         fields fs)
          | _ => SeenUnit
          end
      | DArray blocks =>
          match s with
          | SArray item =>
              SeenSeq (concat ((fun b : bool * list Datum => trace ns item <$> b.2) <$> blocks))
          | _ => SeenUnit
          end
      | DMap blocks =>
          match s with
          | SMap value =>
              SeenMap (concat ((fun b : bool * list (list Z * Datum) =>
                (fun e => (FromPayload e.1, trace ns value e.2)) <$> b.2) <$> blocks))
          | _ => SeenUnit
          end
      | DUnion idx y =>
          match s with
          | SUnion variants =>
              match variants !! idx with Some v => trace ns v y | None => SeenUnit end
          | _ => SeenUnit
          end
      end
  end.

Lemma next_item_de a c b a' c' : next_item a c = DOk (b, a') c' -> item_de a' = item_de a.
Proof.
  unfold next_item. destruct (refill_loop _ _ _ c) as [[[r|] dn] c1|e|]; try done;
    intros [= <- <- <-]; done.
Qed.

Lemma visit_seq_items value fuel : forall a c,
  visit_seq fuel value a c = visit_items fuel (value (item_de a)) a c.
Proof.
  induction fuel as [|fuel IH]; intros a c; [done|]. cbn [visit_seq visit_items].
  unfold next_element, mbind, dec_bind.
  destruct (next_item a c) as [[[|] a'] c1|e|] eqn:En; try done.
  cbn [mret dec_ret]. rewrite (next_item_de _ _ _ _ _ En).
  destruct (value (item_de a) c1) as [x c2|e|]; try done. by rewrite IH, (next_item_de _ _ _ _ _ En).
Qed.

Definition map_entry (value : De -> Dec Seen) (d : De) : Dec (Text * Seen) :=
  k ← utf8; x ← value d; mret (FromPayload k, x).

Lemma visit_map_items value fuel : forall a c,
  visit_map fuel value a c = visit_items fuel (map_entry value (item_de a)) a c.
Proof.
  induction fuel as [|fuel IH]; intros a c; [done|]. cbn [visit_map visit_items].
  unfold map_next_key, map_entry, map_next_value, mbind, dec_bind.
  destruct (next_item a c) as [[[|] a'] c1|e|] eqn:En; try done.
  destruct (utf8 c1) as [k c2|e|]; try done. cbn [mret dec_ret]. rewrite (next_item_de _ _ _ _ _ En).
  destruct (value (item_de a) c2) as [x c3|e|]; try done.
  rewrite IH, (next_item_de _ _ _ _ _ En). done.
Qed.

Lemma visit_record_reads value ns depth (eo : Datum -> bool) fields : forall fs fuel,
  all2 (fun f y => fits ns f.2 y) fields fs = true -> (length fields < fuel)%nat ->
  (forall s y, y ∈ fs -> fits ns s y = true -> 0 <= items y /\
     tries (value (mkDe s ns depth)) (encode_datum y) (items y) (eo y) (trace ns s y)) ->
  tries (visit_record fuel value (mkRecordAccess fields None ns depth)) (concat (encode_datum <$> fs))
    (sum items fs) (forallb eo fs) (map2 (fun f y => (FromSchema f.1, trace ns f.2 y)) fields fs) /\
  0 <= sum items fs.
Proof.
  induction fields as [|f fields IH]; intros [|y fs] [|fuel] Ha Hf Hv; try done; cbn in Hf; try lia.
  { split; [apply reads_ret|done]. }
  cbn in Ha. apply andb_true_iff in Ha as [Hy Ha].
  destruct (Hv f.2 y ltac:(left) Hy) as [Hk Hr].
  destruct (IH fs fuel Ha ltac:(lia)) as [IHr IHk].
  { intros s z Hz. apply Hv. by right. }
  rewrite sum_cons. split; [|lia]. cbn [visit_record record_next_key ra_fields fst forallb].
  apply tries_lift. cbv beta iota. cbn [ra_fields ra_enclosing ra_depth fmap list_fmap concat].
  eapply tries_bind; [lia|exact Hr|]. cbv beta.
  apply (tries_map _ (cons (FromSchema f.1, trace ns f.2 y))). exact IHr.
Qed.

Lemma items_nonneg x : 0 <= items x.
Proof.
  assert (Hsum : forall A (f : A -> Z) l, Forall (fun y => 0 <= f y) l -> 0 <= sum f l).
  { intros A f l. induction 1; rewrite ?sum_cons; [done|lia]. }
  revert x. apply datum_ind; [by intros []|intros fs IH|intros bs IH|intros bs IH|by intros i x IH];
    cbn [items].
  - by apply Hsum.
  - apply Hsum. eapply Forall_impl; [exact IH|]. intros b Hb. pose proof (Hsum _ _ _ Hb). lia.
  - apply Hsum. eapply Forall_impl; [exact IH|]. intros b Hb. cbn in Hb.
    pose proof (Hsum _ (fun e => items e.2) _ Hb). lia.
Qed.

(** What [record] does once [deserialize_any] has made its call. *)
Lemma record_call lv s ns depth bs1 bs2 k1 k2 ok call x :
  0 <= k2 ->
  reads (any (levels_left depth) (mkDe s ns depth)) bs1 k1 call ->
  tries (match call with
         | VisitUnit => mret SeenUnit
         | VisitBool b => mret (SeenBool b)
         | VisitI32 v => mret (SeenI32 v)
         | VisitI64 v => mret (SeenI64 v)
         | VisitF32 v => mret (SeenF32 v)
         | VisitF64 v => mret (SeenF64 v)
         | VisitBorrowedStr b => mret (SeenStr (FromPayload b))
         | VisitStr x => mret (SeenStr (FromSchema x))
         | VisitBorrowedBytes b | VisitBytes b => mret (SeenBytes b)
         | VisitSeq a => fun c => (SeenSeq <$> visit_seq (item_fuel a c) (record lv) a) c
         | VisitMap a => fun c => (SeenMap <$> visit_map (item_fuel a c) (record lv) a) c
         | VisitRecord a => SeenMap <$> visit_record (S (length (ra_fields a))) (record lv) a
         | _ => dpanic
         end) bs2 k2 ok x ->
  tries (record (S lv) (mkDe s ns depth)) (bs1 ++ bs2) (k1 + k2) ok x.
Proof.
  intros Hk Hany Hcall. cbn [record_datum de_depth]. apply (tries_bind _ _ _ _ _ _ true _ call); [done|exact Hany|exact Hcall].
Qed.

(** A position whose call passes a value, read by [m]. *)
Lemma record_leaf {A} lv s ns depth (m : Dec A) (f : A -> Call) bs a x :
  any (levels_left depth) (mkDe s ns depth) = (v ← m; mret (f v)) -> reads m bs 0 a ->
  match f a with
  | VisitUnit => x = SeenUnit
  | VisitBool b => x = SeenBool b
  | VisitI32 v => x = SeenI32 v
  | VisitI64 v => x = SeenI64 v
  | VisitF32 v => x = SeenF32 v
  | VisitF64 v => x = SeenF64 v
  | VisitBorrowedStr b => x = SeenStr (FromPayload b)
  | VisitStr y => x = SeenStr (FromSchema y)
  | VisitBorrowedBytes b => x = SeenBytes b
  | _ => False
  end ->
  reads (record (S lv) (mkDe s ns depth)) bs 0 x.
Proof.
  intros He Hm Hx. rewrite <- (app_nil_r bs). apply tries_reads.
  apply (record_call lv s ns depth bs [] 0 0 true (f a)); [done|rewrite He; by apply (reads_map m f)|].
  destruct (f a); subst; try done; apply tries_reads, reads_ret.
Qed.

Lemma any_resolves s ns s' ns' depth :
  resolve s ns = inr (s', ns') ->
  any (levels_left depth) (mkDe s ns depth) =
    match s' with
    | SRecord name fields =>
        d ← lift (deeper (mkDe s ns depth)); mret (VisitRecord (record_new name fields ns' d))
    | SArray it => d ← lift (deeper (mkDe s ns depth)); mret (VisitSeq (seq_new it ns' d))
    | SMap ty =>
        d ← lift (deeper (mkDe s ns depth)); a ← map_new ty ns' d; mret (VisitMap a)
    | _ => any (levels_left depth) (mkDe s ns depth)
    end.
Proof.
  intros Hr. destruct s'; try done; unfold levels_left; cbn [deserialize_any]; unfold resolved;
    cbn [de_schema de_enclosing]; rewrite Hr; done.
Qed.

(** The walk goes down [levels x] levels, and no further than the limit. *)
Definition record_ok (x : Datum) : Prop := forall s ns depth lv,
  fits ns s x = true -> 0 <= depth <= MAX_DEPTH -> MAX_DEPTH < depth + Z.of_nat lv ->
  tries (record lv (mkDe s ns depth)) (encode_datum x) (items x) (within_depth depth (levels x))
    (trace ns s x).

Ltac leaf Hr m f tac :=
  eapply (record_leaf _ _ _ _ m f);
    [unfold levels_left; cbn [deserialize_any]; unfold resolved; cbn [de_schema de_enclosing];
     rewrite Hr; reflexivity|tac|cbn [trace]; rewrite ?Hr; cbn; try done].

Lemma record_scalar x :
  match x with DNull | DBool _ | DInt _ | DLong _ | DFloat _ | DDouble _ => record_ok x | _ => True end.
Proof.
  destruct x as [|b|v|v|bits|bits| | | | | | | |]; try done; intros s ns depth lv Hf Hd Hlv;
    destruct lv as [|lv]; try lia; cbn [fits] in Hf; cbn [encode_datum items levels];
    rewrite (within_none depth (proj2 Hd)); apply tries_reads;
    destruct (resolve s ns) as [e|[s' ns']] eqn:Hr; try done; destruct s'; try discriminate Hf.
  all: try (leaf Hr (mret tt : Dec unit) (fun _ : unit => VisitUnit) ltac:(apply reads_ret); fail).
  all: try (leaf Hr read_bool VisitBool ltac:(apply read_bool_reads); fail).
  all: try (leaf Hr zag_i32 VisitI32 ltac:(apply zag_i32_reads; exact Hf); fail).
  all: try (leaf Hr zag_i64 VisitI64
         ltac:(apply zag_i64_reads; exact (bool_decide_eq_true_1 _ Hf)); fail).
  - leaf Hr read_f32 VisitF32 ltac:(apply (read_float_reads 4); exact (bool_decide_eq_true_1 _ Hf)).
  - leaf Hr read_f64 VisitF64 ltac:(apply (read_float_reads 8); exact (bool_decide_eq_true_1 _ Hf)).
Qed.

Lemma uuid_reads m (f : list Z -> option Uuid) bs b :
  reads m bs 0 b -> is_Some (f b) ->
  exists u, f b = Some u /\ reads (x ← m; uuid_or_err (f x)) bs 0 u.
Proof.
  intros Hm [u Hu]. exists u. split; [done|]. rewrite <- (app_nil_r bs).
  eapply reads_then; [done|exact Hm|]. cbv beta. rewrite Hu. apply reads_ret.
Qed.

Lemma record_text x :
  match x with DBytes _ | DString _ | DFixed _ | DEnum _ => record_ok x | _ => True end.
Proof.
  destruct x as [| | | | | |b|b|b|idx| | | |]; try done; intros s ns depth lv Hf Hd Hlv;
    destruct lv as [|lv]; try lia; cbn [fits] in Hf; cbn [encode_datum items levels];
    rewrite (within_none depth (proj2 Hd)); apply tries_reads;
    destruct (resolve s ns) as [e|[s' ns']] eqn:Hr; try done;
    destruct s' as [| | | | | | | | | | | | | |[|size]| |[| |size]| | | | | | | | | | |];
    try discriminate Hf.
  - leaf Hr len_prefixed VisitBorrowedBytes ltac:(by apply len_prefixed_reads).
  - leaf Hr len_prefixed VisitBorrowedBytes ltac:(by apply len_prefixed_reads).
  - apply andb_true_iff in Hf as [Hb Hu%bool_decide_eq_true_1].
    destruct (uuid_reads _ from_slice _ _ (len_prefixed_reads b Hb) Hu) as (u & Eu & Hread).
    leaf Hr (uuid_value parse_str from_slice UuidBytes) (fun u => VisitStr (hyphenated u)) ltac:(exact Hread).
    by rewrite Eu.
  - apply andb_true_iff in Hf as [Hb Hv].
    leaf Hr utf8 VisitBorrowedStr ltac:(by apply utf8_reads).
  - apply andb_true_iff in Hf as [[Hb Hv]%andb_true_iff Hu%bool_decide_eq_true_1].
    destruct (uuid_reads _ parse_str _ _ (utf8_reads b Hb Hv) Hu) as (u & Eu & Hread).
    leaf Hr (uuid_value parse_str from_slice UuidString) (fun u => VisitStr (hyphenated u)) ltac:(exact Hread).
    by rewrite Eu.
  - apply bool_decide_eq_true_1 in Hf. subst.
    leaf Hr (take_n (Z.of_nat (length b))) VisitBorrowedBytes ltac:(by apply take_n_reads).
  - apply bool_decide_eq_true_1 in Hf. subst.
    leaf Hr (take_n (Z.of_nat (length b))) VisitBorrowedBytes ltac:(by apply take_n_reads).
  - apply andb_true_iff in Hf as [Hb%bool_decide_eq_true_1 Hu%bool_decide_eq_true_1]. subst.
    destruct (uuid_reads _ from_slice _ _ (take_n_reads b) Hu) as (u & Eu & Hread).
    leaf Hr (uuid_value parse_str from_slice (UuidFixed (Z.of_nat (length b))))
      (fun u => VisitStr (hyphenated u)) ltac:(exact Hread).
    by rewrite Eu.
  - apply andb_true_iff in Hf as [Hi%bool_decide_eq_true_1 Hv].
    leaf Hr (enum_symbol symbols) VisitStr ltac:(by apply enum_symbol_reads).
Qed.

(** The cursor-dependent fuel of a collection is enough. *)
Lemma tries_fuel {X} (g : list X -> Seen) (m : nat -> Dec (list X)) (fuel : Cursor -> nat) bs k ok l n :
  (forall c, k <= items_budget c -> (n < fuel c)%nat) ->
  (forall f, (n < f)%nat -> tries (m f) bs k ok l) ->
  tries (fun c => (g <$> m (fuel c)) c) bs k ok (g l).
Proof.
  intros Hf Hm rest B HB. unfold fmap, dec_fmap.
  rewrite (Hm (fuel (mkCursor (bs ++ rest) B)) (Hf (mkCursor (bs ++ rest) B) HB)) by done.
  by destruct ok.
Qed.

(** At the limit a position that opens a level fails. *)
Lemma any_limit s ns s' ns' depth c :
  resolve s ns = inr (s', ns') -> depth = MAX_DEPTH ->
  match s' with SRecord _ _ | SArray _ | SMap _ => True | _ => False end ->
  any (levels_left depth) (mkDe s ns depth) c = DErr DepthLimit.
Proof.
  intros Hr -> Hs. rewrite (any_resolves _ _ _ _ _ Hr).
  destruct s'; try done; unfold deeper, check_depth; cbn [de_depth]; rewrite decide_True by lia; done.
Qed.

Lemma record_limit lv s ns s' ns' depth bs k x :
  resolve s ns = inr (s', ns') -> depth = MAX_DEPTH ->
  match s' with SRecord _ _ | SArray _ | SMap _ => True | _ => False end ->
  tries (record (S lv) (mkDe s ns depth)) bs k false x.
Proof.
  intros Hr Hd Hs. apply tries_limit. intros c. cbn [record_datum de_depth].
  unfold mbind, dec_bind. by rewrite (any_limit _ _ _ _ _ c Hr Hd Hs).
Qed.

Lemma deeper_ok s ns depth :
  0 <= depth -> depth + 1 <= MAX_DEPTH -> deeper (mkDe s ns depth) = inr (depth + 1).
Proof. intros. unfold deeper, check_depth. cbn. by rewrite decide_False by lia. Qed.

Lemma union_branch_reads variants idx v :
  Z.of_nat idx <= I64_MAX -> variants !! idx = Some v ->
  reads (union_branch variants) (long (Z.of_nat idx)) 0 (idx, v).
Proof.
  intros Hi Hv. unfold union_branch. rewrite <- (app_nil_r (long _)).
  eapply reads_then; [done|apply zag_i64_reads; unfold_int; lia|]. cbv beta.
  rewrite decide_False, Nat2Z.id, Hv by lia. apply reads_ret.
Qed.

Lemma any_union s ns variants ns' depth idx v bs B :
  resolve s ns = inr (SUnion variants, ns') -> 0 <= depth -> depth + 1 <= MAX_DEPTH ->
  Z.of_nat idx <= I64_MAX -> variants !! idx = Some v -> 0 <= B ->
  any (levels_left depth) (mkDe s ns depth) (mkCursor (long (Z.of_nat idx) ++ bs) B) =
  any (levels_left (depth + 1)) (mkDe v ns' (depth + 1)) (mkCursor bs B).
Proof.
  intros Hr Hd Hl Hi Hv HB.
  replace (levels_left depth) with (S (levels_left (depth + 1)))
    by (unfold levels_left; rewrite <- Z2Nat.inj_succ by lia; f_equal; lia).
  cbn [deserialize_any]. unfold resolved at 1. cbn [de_schema de_enclosing]. rewrite Hr.
  change (into_branch (mkDe s ns depth) variants ns' (fun d => any (levels_left (depth + 1)) d)
    (mkCursor (long (Z.of_nat idx) ++ bs) B) = any (levels_left (depth + 1)) (mkDe v ns' (depth + 1)) (mkCursor bs B)).
  unfold into_branch, mbind, dec_bind. rewrite (union_branch_reads variants idx v Hi Hv bs B HB).
  unfold child. rewrite deeper_ok by done. cbn [lift mret dec_ret]. by rewrite Z.sub_0_r.
Qed.

Lemma union_limit s ns variants ns' idx v bs B :
  resolve s ns = inr (SUnion variants, ns') -> Z.of_nat idx <= I64_MAX -> variants !! idx = Some v ->
  0 <= B ->
  any (levels_left MAX_DEPTH) (mkDe s ns MAX_DEPTH) (mkCursor (long (Z.of_nat idx) ++ bs) B) =
    DErr DepthLimit.
Proof.
  intros Hr Hi Hv HB. unfold levels_left. cbn [deserialize_any]. unfold resolved at 1.
  cbn [de_schema de_enclosing]. rewrite Hr. unfold into_branch, mbind, dec_bind. cbn [lift mret dec_ret].
  rewrite (union_branch_reads variants idx v Hi Hv bs B HB). done.
Qed.

Lemma record_union idx x : record_ok x -> record_ok (DUnion idx x).
Proof.
  intros IH s ns depth lv Hf Hd Hlv. cbn [fits levels] in *. cbn [encode_datum items].
  destruct (resolve s ns) as [e|[s' ns']] eqn:Hr; [done|]. destruct s'; try discriminate Hf.
  apply andb_true_iff in Hf as [Hi%bool_decide_eq_true_1 Hf].
  destruct (variants !! idx) as [v|] eqn:Hv; [|done].
  destruct lv as [|lv]; [lia|]. intros rest B HB. cbn [trace]. rewrite Hr, Hv, <- app_assoc, within_S.
  pose proof (items_nonneg x). destruct (decide (depth = MAX_DEPTH)) as [->|Hne].
  - rewrite within_over by lia. cbn [record_datum de_depth]. unfold mbind at 1, dec_bind at 1.
    by rewrite (union_limit s ns variants ns' idx v) by (done || lia).
  - rewrite <- (IH v ns' (depth + 1) (S lv) Hf ltac:(lia) ltac:(lia) rest B HB).
    cbn [record_datum de_depth]. unfold mbind at 1 2, dec_bind at 1 2.
    by rewrite (any_union s ns variants ns' depth idx v) by (done || lia).
Qed.

Lemma record_record fs : Forall record_ok fs -> record_ok (DRecord fs).
Proof.
  intros IH s ns depth lv Hf Hd Hlv. cbn [fits levels] in *. cbn [encode_datum items trace].
  destruct (resolve s ns) as [e|[s' ns']] eqn:Hr; [done|]. destruct s'; try discriminate Hf.
  destruct lv as [|lv]; [lia|]. rewrite within_S. destruct (decide (depth = MAX_DEPTH)) as [->|Hne].
  { rewrite within_over by lia. by eapply record_limit. }
  rewrite within_deepest by lia.
  destruct (visit_record_reads (record lv) (or_else (namespace name) ns') (depth + 1)
    (fun y => within_depth (depth + 1) (levels y)) fields fs (S (length fields)) Hf) as [Hread Hk]; [lia| |].
  { intros v y Hy Hfy. split; [apply items_nonneg|].
    apply (proj1 (Forall_forall _ _) IH y Hy); [done|lia|lia]. }
  apply (record_call lv s ns depth [] _ 0 _ _
    (VisitRecord (record_new name fields ns' (depth + 1)))); [done| |].
  - rewrite (any_resolves _ _ _ _ _ Hr), deeper_ok by lia. apply reads_ret.
  - apply tries_fmap. exact Hread.
Qed.

Lemma forallb_Forall {A} (f : A -> bool) l : forallb f l = true -> Forall (fun x => f x = true) l.
Proof. intros Hf. apply Forall_forall. intros x Hx%list_elem_of_In. by eapply forallb_forall in Hx. Qed.

Lemma record_array blocks : Forall (fun b => Forall record_ok b.2) blocks -> record_ok (DArray blocks).
Proof.
  intros IH s ns depth lv Hf Hd Hlv. cbn [fits levels] in *. cbn [encode_datum items trace].
  destruct (resolve s ns) as [e|[s' ns']] eqn:Hr; [done|]. destruct s' as [| | | | | | | |item| | | | | | | | | | | | | | | | | | |];
    try discriminate Hf.
  destruct lv as [|lv]; [lia|]. rewrite within_S. destruct (decide (depth = MAX_DEPTH)) as [->|Hne].
  { rewrite within_over by lia. by eapply record_limit. }
  rewrite within_blocks by lia.
  set (entry := record lv (mkDe item ns' (depth + 1))).
  set (eo := fun y => within_depth (depth + 1) (levels y)).
  assert (HF : Forall (block_good entry encode_datum items eo (trace ns' item)) blocks).
  { apply Forall_forall. intros b Hb. pose proof (proj1 (Forall_forall _ _) IH b Hb) as IHb. cbn in IHb.
    pose proof (proj1 (Forall_forall _ _) (forallb_Forall _ _ Hf) b Hb) as Hfb. cbn in Hfb.
    apply andb_true_iff in Hfb as [Hok Hfb]. split; [done|]. apply Forall_forall. intros y Hy.
    split; [apply items_nonneg|].
    pose proof (proj1 (Forall_forall _ _) (forallb_Forall _ _ Hfb) y Hy).
    apply (proj1 (Forall_forall _ _) IHb y Hy); [done|lia|lia]. }
  pose proof (sum_blocks _ _ _ _ _ _ HF) as Hcount.
  set (k := sum (fun b : bool * list Datum => Z.of_nat (length b.2) + sum items b.2) blocks) in *.
  change (Z.of_nat (length (concat (snd <$> blocks))) <= k) in Hcount.
  apply (record_call lv s ns depth [] _ 0 k _ (VisitSeq (seq_new item ns' (depth + 1)))); [lia| |].
  - rewrite (any_resolves _ _ _ _ _ Hr), deeper_ok by lia. apply reads_ret.
  - apply (tries_fuel SeenSeq (fun f => visit_seq f (record lv) (seq_new item ns' (depth + 1))) _ _ _ _ _
      (length (concat (snd <$> blocks)))).
    + intros c Hc. unfold item_fuel. cbn [ba_remaining seq_new]. lia.
    + intros f Hlen. eapply tries_ext; [apply visit_seq_items|].
      exact (visit_items_reads entry encode_datum items eo (trace ns' item) (seq_new item ns' (depth + 1)) blocks HF
        [] f (List.Forall_nil _) Hlen).
Qed.

Lemma map_entry_reads lv value ns depth ok (e : list Z * Datum) :
  short e.1 && valid_utf8 e.1 = true ->
  tries (record lv (mkDe value ns depth)) (encode_datum e.2) (items e.2) ok (trace ns value e.2) ->
  tries (map_entry (record lv) (mkDe value ns depth)) (prefixed e.1 ++ encode_datum e.2) (items e.2) ok
    (FromPayload e.1, trace ns value e.2).
Proof.
  intros [Hs Hv]%andb_true_iff Hr. unfold map_entry.
  eapply tries_then; [apply items_nonneg|by apply utf8_reads|]. cbv beta.
  apply (tries_map _ (fun x => (FromPayload e.1, x))). exact Hr.
Qed.

Lemma map_new_reads value ns depth bs k r dn :
  reads (refill 0 false) bs k (r, dn) ->
  reads (map_new value ns depth) bs k (mkBlockAccess value ns depth r dn).
Proof. intros Hr rest B HB. unfold map_new, mbind, dec_bind. by rewrite Hr. Qed.

Lemma record_map_nil lv s ns depth value ns' :
  any (levels_left depth) (mkDe s ns depth) = (a ← map_new value ns' (depth + 1); mret (VisitMap a)) ->
  reads (record (S lv) (mkDe s ns depth)) (long 0) 0 (SeenMap []).
Proof.
  intros Hany. rewrite <- (app_nil_r (long 0)). apply tries_reads.
  apply (record_call lv s ns depth (long 0) [] 0 0 true
    (VisitMap (with_block 0 true (seq_new value ns' (depth + 1))))); [done| |].
  - rewrite Hany. apply (reads_map _ VisitMap). by apply map_new_reads, refill_end_reads.
  - apply (tries_fuel SeenMap (fun f => visit_map f (record lv) (with_block 0 true (seq_new value ns' (depth + 1))))
      _ [] 0 true [] 0%nat).
    + intros c Hc. unfold item_fuel. lia.
    + intros [|f] Hf; [lia|]. eapply tries_ext; [apply visit_map_items|]. cbn [visit_items].
      apply tries_reads.
      by eapply (reads_then _ _ [] [] _ (false, _)); [|apply next_item_over|apply reads_ret].
Qed.

Lemma record_map blocks :
  Forall (fun b => Forall (fun e => record_ok e.2) b.2) blocks -> record_ok (DMap blocks).
Proof.
  intros IH s ns depth lv Hf Hd Hlv. cbn [fits levels] in *. cbn [encode_datum items trace].
  destruct (resolve s ns) as [e|[s' ns']] eqn:Hr; [done|].
  destruct s' as [| | | | | | | | |value| | | | | | | | | | | | | | | | | |]; try discriminate Hf.
  destruct lv as [|lv]; [lia|]. rewrite within_S. destruct (decide (depth = MAX_DEPTH)) as [->|Hne].
  { rewrite within_over by lia. by eapply record_limit. }
  rewrite (within_blocks (depth + 1) (fun e : list Z * Datum => levels e.2)) by lia.
  set (eo := fun e : list Z * Datum => within_depth (depth + 1) (levels e.2)).
  set (entry := map_entry (record lv) (mkDe value ns' (depth + 1))).
  set (eb := fun e : list Z * Datum => prefixed e.1 ++ encode_datum e.2).
  set (ek := fun e : list Z * Datum => items e.2).
  set (ev := fun e : list Z * Datum => (FromPayload e.1, trace ns' value e.2)).
  assert (HF : Forall (block_good entry eb ek eo ev) blocks).
  { apply Forall_forall. intros b Hb. pose proof (proj1 (Forall_forall _ _) IH b Hb) as IHb. cbn in IHb.
    pose proof (proj1 (Forall_forall _ _) (forallb_Forall _ _ Hf) b Hb) as Hfb. cbn in Hfb.
    apply andb_true_iff in Hfb as [Hok Hfb]. split; [done|]. apply Forall_forall. intros y Hy.
    split; [apply items_nonneg|].
    pose proof (proj1 (Forall_forall _ _) (forallb_Forall _ _ Hfb) y Hy) as Hy'. cbn in Hy'.
    apply andb_true_iff in Hy' as [Hk Hfy]. apply map_entry_reads; [done|].
    apply (proj1 (Forall_forall _ _) IHb y Hy); [done|lia|lia]. }
  assert (Hany : any (levels_left depth) (mkDe s ns depth) =
    (a ← map_new value ns' (depth + 1); mret (VisitMap a))).
  { rewrite (any_resolves _ _ _ _ _ Hr), deeper_ok by lia. reflexivity. }
  destruct blocks as [|[sized es] blocks]; [apply tries_reads, (record_map_nil _ _ _ _ _ _ Hany)|].
  apply Forall_cons in HF as [[Hok Hes] HF]. cbn [fst snd] in Hok, Hes.
  rewrite !fmap_cons, sum_cons. cbn [concat fst snd forallb]. unfold block. rewrite <- !app_assoc, <- Z.add_assoc.
  set (a := mkBlockAccess value ns' (depth + 1) (Z.of_nat (length es)) false).
  pose proof (sum_entries _ _ _ _ _ _ Hes). pose proof (sum_blocks _ _ _ _ _ _ HF) as Hcount.
  change (0 <= sum ek es) in H.
  apply (record_call lv s ns depth _ _ _ _ _ (VisitMap a)).
  - change (0 <= sum ek es + sum (block_items ek) blocks). lia.
  - rewrite Hany. apply (reads_map _ VisitMap). by apply map_new_reads, refill_reads.
  - apply (tries_fuel SeenMap (fun f => visit_map f (record lv) a) _ _ _ _ _
      (length es + length (concat (snd <$> blocks)))).
    + intros c Hc. change (sum ek es + sum (block_items ek) blocks <= items_budget c) in Hc.
      unfold item_fuel. cbn [ba_remaining a]. lia.
    + intros f Hlen. eapply tries_ext; [apply visit_map_items|].
      exact (visit_items_reads entry eb ek eo ev a blocks HF es f Hes Hlen).
Qed.

Lemma record_reads x : record_ok x.
Proof.
  revert x. apply datum_ind.
  - intros x. pose proof (record_scalar x). pose proof (record_text x). by destruct x.
  - apply record_record.
  - apply record_array.
  - apply record_map.
  - intros idx x. apply record_union.
Qed.
End roundtrip.

(** ** Skipping *)

(** A walk that skips trusts a sized block, and charges nothing for it. *)
Fixpoint skipped_items (x : Datum) : Z :=
  match x with
  | DRecord fields => sum skipped_items fields
  | DArray blocks =>
      sum (fun b : bool * list Datum =>
        if b.1 then 0 else Z.of_nat (length b.2) + sum skipped_items b.2) blocks
  | DMap blocks =>
      sum (fun b : bool * list (list Z * Datum) =>
        if b.1 then 0 else Z.of_nat (length b.2) + sum (fun e => skipped_items e.2) b.2) blocks
  | DUnion _ x => skipped_items x
  | _ => 0
  end.

Lemma sum_le {A} (f g : A -> Z) l : Forall (fun x => 0 <= f x <= g x) l -> 0 <= sum f l <= sum g l.
Proof. induction 1 as [|x l Hx _ IH]; [done|]. rewrite !sum_cons. lia. Qed.

Lemma skipped_le x : 0 <= skipped_items x <= items x.
Proof.
  revert x. apply datum_ind; [by intros []|intros fs IH|intros bs IH|intros bs IH|by intros i x IH];
    cbn [items skipped_items].
  - by apply sum_le.
  - apply sum_le. eapply Forall_impl; [exact IH|]. intros b Hb. pose proof (sum_le _ _ _ Hb).
    destruct b.1; lia.
  - apply sum_le. eapply Forall_impl; [exact IH|]. intros b Hb. cbn in Hb.
    pose proof (sum_le (fun e => skipped_items e.2) (fun e => items e.2) _ Hb). destruct b.1; lia.
Qed.

Lemma reads_unit {A} (m : Dec A) bs k a : reads m bs k a -> reads (m ;;; mret tt) bs k tt.
Proof. intros Hm. by apply (reads_map m (fun _ => tt) bs k a). Qed.

Section skip_collection.
Context {Y : Type}.
Variable item : Dec unit.
Variables (eb : Y -> list Z) (ek : Y -> Z) (eo : Y -> bool).

Definition skip_entry (y : Y) : Prop := 0 <= ek y /\ tries item (eb y) (ek y) (eo y) tt.
Definition skip_passes (b : bool * list Y) : bool := b.1 || forallb eo b.2.
Definition skip_charge (b : bool * list Y) : Z :=
  if b.1 then 0 else Z.of_nat (length b.2) + sum ek b.2.
Definition skip_good (b : bool * list Y) : Prop :=
  block_ok b.1 (length b.2) (concat (eb <$> b.2)) = true /\ Forall skip_entry b.2.

Lemma dtimes_reads ys : Forall skip_entry ys ->
  0 <= sum ek ys /\ tries (dtimes (length ys) item) (concat (eb <$> ys)) (sum ek ys) (forallb eo ys) tt.
Proof.
  induction 1 as [|y ys [Hk Hy] _ [IHk IH]]; [split; [done|apply tries_reads, reads_ret]|].
  rewrite sum_cons. split; [lia|]. by apply (tries_bind _ _ _ _ _ _ _ _ tt).
Qed.

Lemma skip_blocks_reads blocks : Forall skip_good blocks -> forall fuel,
  (length blocks < fuel)%nat ->
  0 <= sum skip_charge blocks /\
  tries (skip_blocks fuel item) (concat (block_bytes eb <$> blocks) ++ long 0)
    (sum skip_charge blocks) (forallb skip_passes blocks) tt.
Proof.
  induction 1 as [|[sized ys] blocks [Hok Hys] _ IH]; intros [|fuel] Hf; cbn in Hf; try lia.
  { split; [done|]. cbn [skip_blocks]. rewrite <- (app_nil_r (_ ++ long 0)). apply tries_reads.
    eapply reads_then; [done|apply zag_i64_reads; unfold_int; lia|]. apply reads_ret. }
  destruct (IH fuel ltac:(lia)) as [IHk IHr]. destruct (dtimes_reads _ Hys) as [Hk Hr].
  cbn [fst snd] in *. apply andb_true_iff in Hok as [Hn%bool_decide_eq_true_1 Hs].
  rewrite sum_cons. unfold skip_charge at 1 3. cbn [fst snd].
  rewrite fmap_cons. cbn [concat skip_blocks forallb]. unfold skip_passes at 1.
  unfold block_bytes at 1, block, header. cbn [fst snd].
  destruct sized; rewrite <- !app_assoc.
  - apply bool_decide_eq_true_1 in Hs. split; [lia|]. rewrite Z.add_0_l.
    eapply tries_then; [done|apply zag_i64_reads; unfold_int; lia|]. cbv beta.
    rewrite decide_False, decide_True by lia.
    eapply tries_then; [done|apply zag_i64_reads; unfold_int; lia|]. cbv beta.
    rewrite decide_False by lia. by eapply tries_then; [done|apply take_n_reads|].
  - split; [lia|]. eapply tries_then; [lia|apply zag_i64_reads; unfold_int; lia|]. cbv beta.
    rewrite !decide_False, Nat2Z.id by lia. rewrite <- Z.add_assoc.
    apply (tries_bind _ _ [] _ _ _ true _ tt); [lia|apply tries_reads, charge_reads|].
    by apply (tries_bind _ _ _ _ _ _ _ _ tt).
Qed.

Lemma skip_collection_reads blocks : Forall skip_good blocks ->
  tries (skip_collection item) (concat (block_bytes eb <$> blocks) ++ long 0)
    (sum skip_charge blocks) (forallb skip_passes blocks) tt.
Proof.
  intros HF rest B HB. unfold skip_collection. apply skip_blocks_reads; [done| |done].
  cbn [cur_buf]. rewrite !length_app.
  assert (Hlen : (length blocks <= length (concat (block_bytes eb <$> blocks)))%nat); [|lia].
  clear. induction blocks as [|[sized ys] blocks IH]; [done|]. rewrite fmap_cons. cbn [concat length].
  rewrite length_app. assert (0 < length (block_bytes eb (sized, ys)))%nat; [|lia].
  unfold block_bytes, block, header. cbn [fst snd].
  destruct sized; [destruct (long_cons (- Z.of_nat (length ys))) as (b & l & ->)
                  |destruct (long_cons (Z.of_nat (length ys))) as (b & l & ->)]; cbn; lia.
Qed.
End skip_collection.

Section skip.
Context {Uuid : Type}.
Variable parse_str : list Z -> option Uuid.
Variable from_slice : list Z -> option Uuid.
Variable names : Names.
Local Notation resolve := (resolve_schema names).
Local Notation fits := (fits parse_str from_slice names).
Local Notation skip := (skip_datum names).

Definition is_ref (s : Schema) : bool := match s with SRef _ => true | _ => false end.

Lemma resolve_node s ns : is_ref s = false -> resolve s ns = inr (s, ns).
Proof. by destruct s. Qed.

Lemma fits_resolved s ns s' ns' x :
  resolve s ns = inr (s', ns') -> fits ns s x = true -> is_ref s' = false /\ fits ns' s' x = true.
Proof.
  intros Hr Hf. assert (Hn : is_ref s' = false).
  { destruct x; cbn in Hf; rewrite Hr in Hf; by destruct s'. }
  split; [done|]. destruct x; cbn in Hf |- *; rewrite Hr in Hf; by rewrite resolve_node.
Qed.

(** The levels a skip counts: every position is one, a reference one more, and a
    sized block is not entered. *)
Fixpoint skip_levels (ns : option string) (s : Schema) (x : Datum) {struct x} : nat :=
  (if is_ref s then 1 else 0) +
  S match resolve s ns with
    | inl _ => 0
    | inr (s, ns) =>
        match x with
        | DRecord fs =>
            match s with
            | SRecord name fields =>
                deepest id (map2 (fun f y => skip_levels (or_else (namespace name) ns) f.2 y) fields fs)
            | _ => 0
            end
        | DArray blocks =>
            match s with
            | SArray item =>
                deepest (fun b : bool * list Datum =>
                  if b.1 then 0 else deepest (skip_levels ns item) b.2)%nat blocks
            | _ => 0
            end
        | DMap blocks =>
            match s with
            | SMap value =>
                deepest (fun b : bool * list (list Z * Datum) =>
                  if b.1 then 0 else deepest (fun e => skip_levels ns value e.2) b.2)%nat blocks
            | _ => 0
            end
        | DUnion idx y =>
            match s with
            | SUnion variants =>
                match variants !! idx with Some v => skip_levels ns v y | None => 0 end
            | _ => 0
            end
        | _ => 0
        end
    end.

Lemma deepest_le {A} (f : A -> nat) l n :
  Forall (fun y => f y <= n)%nat l -> (deepest f l <= n)%nat.
Proof. unfold deepest. induction 1 as [|y l Hy _ IH]; cbn [foldr]; lia. Qed.

Lemma deepest_skipped {A} (f g : A -> nat) (blocks : list (bool * list A)) :
  Forall (fun b => Forall (fun y => f y <= 2 * g y + 2)%nat b.2) blocks ->
  (deepest (fun b : bool * list A => if b.1 then 0 else deepest f b.2) blocks <=
   2 * deepest (fun b : bool * list A => deepest g b.2) blocks + 2)%nat.
Proof.
  intros HF. apply deepest_le, Forall_forall. intros b Hb. destruct b.1; [lia|].
  apply deepest_le, Forall_forall. intros y Hy.
  pose proof (proj1 (Forall_forall _ _) (proj1 (Forall_forall _ _) HF b Hb) y Hy).
  pose proof (deepest_elem (fun b : bool * list A => deepest g b.2) blocks b Hb).
  pose proof (deepest_elem g b.2 y Hy). cbn in *. lia.
Qed.

Lemma deepest_fields {A} (f : A -> Datum -> nat) (fields : list A) : forall fs n,
  Forall (fun y => (forall a, f a y <= 2 * levels y + 2) /\ levels y <= n)%nat fs ->
  (deepest id (map2 f fields fs) <= 2 * n + 2)%nat.
Proof.
  induction fields as [|a fields IH]; intros [|y fs] n HF; try (unfold deepest; cbn; lia).
  apply Forall_cons in HF as [[Ha Hy] HF]. specialize (IH fs n HF). specialize (Ha a).
  unfold deepest in *. cbn [map2 foldr]. unfold id at 1. lia.
Qed.

(** A skip counts at most two levels where a decode counts one. *)
Lemma skip_levels_le x : forall ns s, (skip_levels ns s x <= 2 * levels x + 2)%nat.
Proof.
  revert x. apply (datum_ind (fun x => forall ns s, skip_levels ns s x <= 2 * levels x + 2)%nat).
  - intros x. destruct x; try done; intros ns s; cbn [skip_levels levels]; destruct (is_ref s);
      destruct (resolve s ns) as [|[]]; lia.
  - intros fs IH ns s. cbn [skip_levels levels].
    destruct (is_ref s), (resolve s ns) as [|[[] ns']]; try lia;
      pose proof (deepest_fields (fun f y => skip_levels (or_else (namespace name) ns') f.2 y) fields fs
        (deepest levels fs)) as Hd; cbn in Hd |- *; (enough (Hall : Forall _ fs) by (specialize (Hd Hall); lia));
      apply Forall_forall; intros y Hy; (split; [intros f|by apply deepest_elem]);
      apply (proj1 (Forall_forall _ _) IH y Hy).
  - intros bs IH ns s. cbn [skip_levels levels].
    destruct (is_ref s), (resolve s ns) as [|[[] ns']]; try lia;
      pose proof (deepest_skipped (skip_levels ns' items0) levels bs) as Hd;
      (enough (Hall : Forall _ bs) by (specialize (Hd Hall); lia));
      (eapply Forall_impl; [exact IH|]); intros b Hb; (eapply Forall_impl; [exact Hb|]); intros y Hy;
      apply Hy.
  - intros bs IH ns s. cbn [skip_levels levels].
    destruct (is_ref s), (resolve s ns) as [|[[] ns']]; try lia;
      pose proof (deepest_skipped (fun e : list Z * Datum => skip_levels ns' types e.2)
        (fun e => levels e.2) bs) as Hd;
      (enough (Hall : Forall _ bs) by (specialize (Hd Hall); lia));
      (eapply Forall_impl; [exact IH|]); intros b Hb; (eapply Forall_impl; [exact Hb|]); intros e He;
      apply He.
  - intros idx x IH ns s. cbn [skip_levels levels].
    destruct (is_ref s), (resolve s ns) as [|[[] ns']]; try lia;
      destruct (variants !! idx) as [v|]; try lia; specialize (IH ns' v); lia.
Qed.

(** At a position, and at one that is not a reference. *)
Definition skip_ok (x : Datum) : Prop := forall s ns depth lv,
  fits ns s x = true -> 0 <= depth <= MAX_DEPTH -> MAX_DEPTH < depth + Z.of_nat lv ->
  tries (skip lv s ns depth) (encode_datum x) (skipped_items x)
    (within_depth depth (skip_levels ns s x)) tt.
Definition skip_node (x : Datum) : Prop := forall s ns depth lv,
  is_ref s = false -> fits ns s x = true -> 0 <= depth <= MAX_DEPTH ->
  MAX_DEPTH < depth + Z.of_nat lv ->
  tries (skip lv s ns depth) (encode_datum x) (skipped_items x)
    (within_depth depth (skip_levels ns s x)) tt.

(** A position checks the limit before it reads. *)
Lemma check_tries {A} depth (f : unit -> Dec A) bs k n x :
  depth <= MAX_DEPTH ->
  (depth < MAX_DEPTH -> tries (f tt) bs k (within_depth (depth + 1) n) x) ->
  tries (lift (check_depth depth) ≫= f) bs k (within_depth depth (S n)) x.
Proof.
  intros Hd Hf. rewrite within_S. unfold check_depth. destruct (decide (MAX_DEPTH <= depth)).
  - rewrite within_over by lia. by apply tries_limit.
  - apply tries_lift, Hf. lia.
Qed.

Lemma node_ok x : skip_node x -> skip_ok x.
Proof.
  intros Hn s ns depth lv Hf Hd Hlv. destruct (is_ref s) eqn:Es; [|apply Hn; (done || lia)].
  destruct s; try discriminate Es.
  destruct (resolve (SRef name) ns) as [e|[s' ns']] eqn:Hr.
  { destruct x; cbn in Hf; cbn in Hr; by rewrite Hr in Hf. }
  destruct (fits_resolved _ _ _ _ _ Hr Hf) as [Hs Hf']. destruct lv as [|lv]; [lia|].
  assert (Hlev : skip_levels ns (SRef name) x = S (skip_levels ns' s' x)).
  { destruct x; cbn [skip_levels is_ref]; rewrite Hr, resolve_node, Hs by done; done. }
  rewrite Hlev. cbn [skip_datum]. apply check_tries; [lia|]. intros Hlt. cbn in Hr.
  destruct (lookup_named names name ns) as [target|]; [|done]. injection Hr as -> <-.
  apply Hn; (done || lia).
Qed.

Lemma skip_leaf x :
  match x with DRecord _ | DArray _ | DMap _ | DUnion _ _ => True | _ => skip_node x end.
Proof.
  destruct x as [|b|v|v|bits|bits|b|b|b|idx| | | |]; try done; intros s ns depth lv Hs Hf Hd Hlv;
    (destruct lv as [|lv]; [lia|]); cbn [AvroProofs.fits skip_levels] in *; rewrite resolve_node in * by done;
    rewrite Hs; cbn [skip_datum encode_datum skipped_items]; (apply check_tries; [lia|]); intros Hlt;
    rewrite within_none by lia; apply tries_reads;
    destruct s as [| | | | | | | | | | | | | |[|size]| |[| |size]| | | | | | | | | | |];
    try discriminate Hf.
  all: repeat match goal with
       | H : _ && _ = true |- _ => apply andb_true_iff in H as [? ?]
       end.
  all: try apply reads_ret.
  all: try (eapply reads_unit, read_bool_reads; fail).
  all: try (by eapply reads_unit, zag_i32_reads).
  all: try (eapply reads_unit, zag_i64_reads; by apply bool_decide_eq_true_1 in Hf).
  all: try (by eapply reads_unit, len_prefixed_reads).
  all: try (eapply reads_unit; cbn [decimal_bytes];
    match goal with H : bool_decide (_ = Z.of_nat (length ?b)) = true |- _ =>
      apply bool_decide_eq_true_1 in H; rewrite H; apply take_n_reads end).
  - pose proof (take_n_reads (le_bytes 4 bits)) as Ht. rewrite le_bytes_length in Ht.
    by eapply reads_unit.
  - pose proof (take_n_reads (le_bytes 8 bits)) as Ht. rewrite le_bytes_length in Ht.
    by eapply reads_unit.
  - eapply reads_unit, enum_symbol_reads; [by eapply bool_decide_eq_true_1|done].
Qed.

Lemma skip_record fs : Forall skip_ok fs -> skip_node (DRecord fs).
Proof.
  intros IH s ns depth lv Hs Hf Hd Hlv. destruct lv as [|lv]; [lia|].
  cbn [AvroProofs.fits skip_levels] in *. rewrite resolve_node in * by done. rewrite Hs.
  cbn [skip_datum encode_datum skipped_items]. apply check_tries; [lia|]. intros Hlt.
  destruct s; try discriminate Hf. clear Hs. rewrite within_deepest by lia. revert fields Hf.
  induction fs as [|y fs IHf]; intros [|f fields] Hf; try done; [apply tries_reads, reads_ret|].
  cbn in Hf. apply andb_true_iff in Hf as [Hy Hf]. apply Forall_cons in IH as [IHy IH].
  rewrite sum_cons. cbn [fmap list_fmap concat deach map2 forallb].
  pose proof (sum_le skipped_items items fs ltac:(apply Forall_forall; intros; apply skipped_le)).
  apply (tries_bind _ _ _ _ _ _ _ _ tt); [lia|apply IHy; (done || lia)|]. by apply IHf.
Qed.

(** A sized block passes whatever it holds. *)
Lemma within_skipped {A} depth (f : A -> nat) (blocks : list (bool * list A)) :
  depth <= MAX_DEPTH ->
  within_depth depth (deepest (fun b : bool * list A => if b.1 then 0 else deepest f b.2)%nat blocks) =
    forallb (skip_passes (fun y => within_depth depth (f y))) blocks.
Proof.
  intros Hd. rewrite within_deepest by done. induction blocks as [|[[] ys] blocks IH]; [done| |];
    cbn [forallb]; unfold skip_passes at 1; cbn [fst snd orb];
    by rewrite IH, ?within_none, ?within_deepest.
Qed.

Lemma skip_array blocks : Forall (fun b => Forall skip_ok b.2) blocks -> skip_node (DArray blocks).
Proof.
  intros IH s ns depth lv Hs Hf Hd Hlv. destruct lv as [|lv]; [lia|].
  cbn [AvroProofs.fits skip_levels] in *. rewrite resolve_node in * by done. rewrite Hs.
  cbn [skip_datum encode_datum skipped_items]. apply check_tries; [lia|]. intros Hlt.
  destruct s as [| | | | | | | |item| | | | | | | | | | | | | | | | | | |]; try discriminate Hf.
  rewrite within_skipped by lia.
  apply (skip_collection_reads (skip lv item ns (depth + 1)) encode_datum skipped_items).
  apply Forall_forall. intros b Hb. pose proof (proj1 (Forall_forall _ _) IH b Hb) as IHb.
  pose proof (proj1 (Forall_forall _ _) (forallb_Forall _ _ Hf) b Hb) as Hfb. cbn in Hfb, IHb.
  apply andb_true_iff in Hfb as [Hok Hfb]. split; [done|]. apply Forall_forall. intros y Hy.
  split; [apply skipped_le|]. pose proof (proj1 (Forall_forall _ _) (forallb_Forall _ _ Hfb) y Hy).
  apply (proj1 (Forall_forall _ _) IHb y Hy); [done|lia|lia].
Qed.

Lemma skip_map blocks :
  Forall (fun b => Forall (fun e => skip_ok e.2) b.2) blocks -> skip_node (DMap blocks).
Proof.
  intros IH s ns depth lv Hs Hf Hd Hlv. destruct lv as [|lv]; [lia|].
  cbn [AvroProofs.fits skip_levels] in *. rewrite resolve_node in * by done. rewrite Hs.
  cbn [skip_datum encode_datum skipped_items]. apply check_tries; [lia|]. intros Hlt.
  destruct s as [| | | | | | | | |value| | | | | | | | | | | | | | | | | |]; try discriminate Hf.
  rewrite (within_skipped (depth + 1) (fun e : list Z * Datum => skip_levels ns value e.2)) by lia.
  apply (skip_collection_reads (len_prefixed ;;; skip lv value ns (depth + 1))
    (fun e : list Z * Datum => prefixed e.1 ++ encode_datum e.2) (fun e => skipped_items e.2)).
  apply Forall_forall. intros b Hb. pose proof (proj1 (Forall_forall _ _) IH b Hb) as IHb.
  pose proof (proj1 (Forall_forall _ _) (forallb_Forall _ _ Hf) b Hb) as Hfb. cbn in Hfb, IHb.
  apply andb_true_iff in Hfb as [Hok Hfb]. split; [done|]. apply Forall_forall. intros e He.
  pose proof (proj1 (Forall_forall _ _) (forallb_Forall _ _ Hfb) e He) as Hfe. cbn in Hfe.
  apply andb_true_iff in Hfe as [[Hk _]%andb_true_iff Hfe]. pose proof (skipped_le e.2).
  split; [lia|]. eapply tries_then; [lia|by apply len_prefixed_reads|].
  apply (proj1 (Forall_forall _ _) IHb e He); [done|lia|lia].
Qed.

Lemma skip_union idx x : skip_ok x -> skip_node (DUnion idx x).
Proof.
  intros IH s ns depth lv Hs Hf Hd Hlv. destruct lv as [|lv]; [lia|].
  cbn [AvroProofs.fits skip_levels] in *. rewrite resolve_node in * by done. rewrite Hs.
  cbn [skip_datum encode_datum skipped_items]. apply check_tries; [lia|]. intros Hlt.
  destruct s; try discriminate Hf. apply andb_true_iff in Hf as [Hi%bool_decide_eq_true_1 Hf].
  destruct (variants !! idx) as [v|] eqn:Hv; [|done]. pose proof (skipped_le x).
  eapply (tries_then _ _ _ _ _ _ (idx, v)); [lia|by apply union_branch_reads|]. cbv beta iota.
  apply IH; (done || lia).
Qed.

Lemma skip_reads x : skip_ok x.
Proof.
  revert x. apply datum_ind.
  - intros x. pose proof (skip_leaf x). destruct x; try done; by apply node_ok.
  - intros fs IH. by apply node_ok, skip_record.
  - intros bs IH. by apply node_ok, skip_array.
  - intros bs IH. by apply node_ok, skip_map.
  - intros idx x IH. by apply node_ok, skip_union.
Qed.
End skip.
