(* ===== verification/AvroSafety.v ===== *)
(** * The Avro datum decoder on arbitrary bytes

    Whatever the payload, a decode or a skip under a compiled schema ends: it
    never panics, no loop outruns its bound, no node the compiler refuses is met,
    the cursor only moves forward, and the items of all collections together are
    paid for by the budget. *)

From stdpp Require Import base list gmap strings.
From Stdlib Require Import ZArith Lia.
From S2P Require Import Prelude AvroDatum AvroProofs.

(** The errors that say something about the payload. *)
Definition harmless (e : DatumError) : Prop :=
  match e with Looping | Unsupported _ => False | _ => True end.

(** From a cursor that satisfies [P] the program errs harmlessly or answers some
    [a], having spent [w a] of the budget, with [Q a]. *)
Definition tame {A} (P : Cursor -> Prop) (m : Dec A) (w : A -> Z) (Q : A -> Prop) : Prop :=
  forall c, 0 <= items_budget c -> P c ->
    match m c with
    | DOk a c' =>
        0 <= items_budget c' /\ items_budget c' + w a = items_budget c /\
        cur_buf c' `suffix_of` cur_buf c /\ Q a
    | DErr e => harmless e
    | DPanic => False
    end.

Local Notation always := (fun _ => True).
Local Notation nothing := (fun _ => 0).

Lemma tame_ret {A} P (a : A) w (Q : A -> Prop) : w a = 0 -> Q a -> tame P (mret a) w Q.
Proof. intros Hw HQ c Hc _. cbn. split_and!; [done|lia|done|done]. Qed.

Lemma tame_fail {A} P e w (Q : A -> Prop) : harmless e -> tame P (dfail e) w Q.
Proof. intros He c _ _. exact He. Qed.

Lemma tame_bind {A B} P P2 (m : Dec A) (f : A -> Dec B) w1 w Q1 Q :
  tame P m w1 Q1 ->
  (forall a c c', P c -> items_budget c' + w1 a = items_budget c -> P2 a c') ->
  (forall a, Q1 a -> tame (P2 a) (f a) (fun b => w b - w1 a) Q) ->
  tame P (m ≫= f) w Q.
Proof.
  intros Hm HP Hf c Hc HPc. specialize (Hm c Hc HPc). unfold mbind, dec_bind.
  destruct (m c) as [a c1|e|]; [|done|done]. destruct Hm as (Hb & Hw & Hs & Hq).
  specialize (Hf a Hq c1 Hb (HP _ _ _ HPc Hw)). destruct (f a c1) as [b c2|e|]; [|done|done].
  destruct Hf as (Hb2 & Hw2 & Hs2 & Hq2). split_and!; [done|lia|by etrans|done].
Qed.

(** The program before spends nothing. *)
Lemma tame_then {A B} (m : Dec A) (f : A -> Dec B) w Q1 Q :
  tame always m nothing Q1 -> (forall a, Q1 a -> tame always (f a) w Q) ->
  tame always (m ≫= f) w Q.
Proof.
  intros Hm Hf. apply (tame_bind _ (fun _ => always) _ _ nothing w Q1); [done|done|].
  intros a Ha c Hc _. specialize (Hf a Ha c Hc I).
  destruct (f a c); [|done|done]. destruct Hf as (? & ? & ? & ?). split_and!; (done || lia).
Qed.

Lemma tame_weaken {A} (P P' : Cursor -> Prop) (m : Dec A) w w' (Q Q' : A -> Prop) :
  tame P m w Q -> (forall c, P' c -> P c) -> (forall a, Q a -> w a = w' a /\ Q' a) -> tame P' m w' Q'.
Proof.
  intros Hm HP HQ c Hc HPc. specialize (Hm c Hc (HP _ HPc)). destruct (m c) as [a c'|e|]; [|done|done].
  destruct Hm as (? & ? & ? & Ha). destruct (HQ a Ha). split_and!; (done || lia).
Qed.

Lemma tame_lift {A} P (r : DatumError + A) w (Q : A -> Prop) :
  match r with inl e => harmless e | inr a => w a = 0 /\ Q a end -> tame P (lift r) w Q.
Proof. destruct r as [e|a]; [by apply tame_fail|]. intros [Hw HQ]. by apply tame_ret. Qed.

Lemma tame_map {A B} (m : Dec A) (f : A -> B) :
  tame always m nothing always -> tame always (x ← m; mret (f x)) nothing always.
Proof. intros Hm. eapply tame_then; [exact Hm|]. intros a _. by apply tame_ret. Qed.

(** ** The primitives *)
Lemma next_byte_tame : tame always next_byte nothing always.
Proof.
  intros [[|b l] B] Hc _; cbn; [done|]. split_and!; [done|lia|by apply suffix_cons_r|done].
Qed.

Lemma take_n_tame n : tame always (take_n n) nothing always.
Proof.
  intros c Hc _. unfold take_n. destruct (decide _); [done|]. cbn.
  split_and!; [done|lia| |done]. exists (take (Z.to_nat n) (cur_buf c)). by rewrite take_drop.
Qed.

Lemma var_loop_tame n : forall shift value, tame always (var_loop n shift value) nothing always.
Proof.
  induction n as [|n IH]; intros shift value; cbn [var_loop]; [by apply tame_fail|].
  eapply tame_then; [apply next_byte_tame|]. intros b _. destruct (decide _); [by apply tame_ret|apply IH].
Qed.

Lemma zag_i64_tame : tame always zag_i64 nothing always.
Proof. apply tame_map, var_loop_tame. Qed.

Lemma zag_i32_tame : tame always zag_i32 nothing always.
Proof.
  eapply tame_then; [apply zag_i64_tame|]. intros v _. destruct (is_i32 v); [by apply tame_ret|by apply tame_fail].
Qed.

Lemma len_prefixed_tame : tame always len_prefixed nothing always.
Proof.
  eapply tame_then; [apply zag_i64_tame|]. intros v _.
  destruct (decide _); [by apply tame_fail|apply take_n_tame].
Qed.

Lemma utf8_tame : tame always utf8 nothing always.
Proof.
  eapply tame_then; [apply len_prefixed_tame|]. intros b _.
  destruct (valid_utf8 b); [by apply tame_ret|by apply tame_fail].
Qed.

Lemma read_bool_tame : tame always read_bool nothing always.
Proof.
  eapply tame_then; [apply next_byte_tame|]. intros b _.
  destruct (decide _); [by apply tame_ret|]. destruct (decide _); [by apply tame_ret|by apply tame_fail].
Qed.

Lemma read_f32_tame : tame always read_f32 nothing always.
Proof. apply tame_map, take_n_tame. Qed.
Lemma read_f64_tame : tame always read_f64 nothing always.
Proof. apply tame_map, take_n_tame. Qed.

Lemma enum_symbol_tame symbols : tame always (enum_symbol symbols) nothing always.
Proof.
  eapply tame_then; [apply zag_i32_tame|]. intros v _. destruct (decide _); [by apply tame_fail|].
  destruct (symbols !! _); [by apply tame_ret|by apply tame_fail].
Qed.

Lemma union_branch_tame variants :
  tame always (union_branch variants) nothing (fun x => x.2 ∈ variants).
Proof.
  eapply tame_then; [apply zag_i64_tame|]. intros v _. destruct (decide _); [by apply tame_fail|].
  destruct (variants !! _) as [s|] eqn:Hv; [|by apply tame_fail]. apply tame_ret; [done|].
  by eapply list_elem_of_lookup_2.
Qed.

Lemma decimal_bytes_tame inner : tame always (decimal_bytes inner) nothing always.
Proof. destruct inner; [apply len_prefixed_tame|apply take_n_tame]. Qed.

#[local] Hint Resolve next_byte_tame take_n_tame zag_i64_tame zag_i32_tame len_prefixed_tame utf8_tame
  read_bool_tame read_f32_tame read_f64_tame enum_symbol_tame decimal_bytes_tame : tame.

Lemma charge_tame n : 0 <= n -> tame always (charge_items n) (fun _ => n) always.
Proof.
  intros Hn c Hc _. unfold charge_items. destruct (decide _); [|done]. cbn.
  split_and!; [lia|lia|done|done].
Qed.

(** ** Collections *)

(** A header opens a block or ends the collection. *)
Lemma refill_tame :
  tame always (refill 0 false) (fun x => x.1) (fun x => 0 <= x.1 /\ (x.1 = 0 -> x.2 = true)).
Proof.
  unfold refill. eapply tame_then; [apply zag_i64_tame|]. intros count _.
  apply (tame_then _ _ _ (fun x => 0 <= x.1 /\ (x.1 = 0 -> x.2 = true))).
  - destruct (decide (count = 0)); [by apply tame_ret|]. destruct (decide (count < 0)).
    + eapply tame_then; [apply zag_i64_tame|]. intros _ _. destruct (decide _); [by apply tame_fail|].
      apply tame_ret; [done|]. cbn. split; lia.
    + apply tame_ret; [done|]. cbn. split; lia.
  - intros [r dn] Hr. cbn in Hr.
    apply (tame_bind _ (fun _ => always) _ _ (fun _ => r) _ always); [apply charge_tame; lia|done|].
    intros _ _. apply tame_ret; [cbn; lia|done].
Qed.

Lemma refill_loop_tame fuel r dn :
  0 <= r -> tame always (refill_loop (S fuel) r dn) (fun x => default 0 x.1 - r)
    (fun x => match x.1 with Some n => 0 < n | None => True end).
Proof.
  intros Hr. cbn [refill_loop]. destruct (decide (r = 0)) as [->|Hne].
  2:{ apply tame_ret; cbn; lia. }
  destruct dn; [by apply tame_ret|].
  apply (tame_bind _ (fun _ => always) _ _ _ _ _ _ refill_tame); [done|].
  intros [r' dn'] [Hr' Hd]. cbn in Hr', Hd.
  destruct fuel as [|fuel]; cbn [refill_loop]; (destruct (decide (r' = 0)) as [->|Hne];
    [rewrite (Hd eq_refl); apply tame_ret; cbn; (lia || done)|apply tame_ret; cbn; lia]).
Qed.

Lemma next_item_tame a :
  0 <= ba_remaining a ->
  tame always (next_item a)
    (fun x => (if x.1 : bool then 1 else 0) + ba_remaining x.2 - ba_remaining a)
    (fun x => 0 <= ba_remaining x.2 /\ (x.1 = false -> ba_remaining x.2 = 0)).
Proof.
  intros Hr c Hc _. unfold next_item.
  pose proof (refill_loop_tame (length (cur_buf c)) (ba_remaining a) (ba_done a) Hr c Hc I) as Ht.
  destruct (refill_loop _ _ _ c) as [[[r|] dn] c1|e|]; [| |done|done]; cbn in Ht |- *;
    destruct Ht as (? & ? & ? & ?); split_and!; (done || lia).
Qed.

Lemma visit_items_tame {X} (entry : Dec X) (wx : X -> Z) (Qx : X -> Prop) fuel : forall a,
  tame always entry wx Qx -> (forall x, 0 <= wx x) -> 0 <= ba_remaining a ->
  tame (fun c => items_budget c + ba_remaining a < Z.of_nat fuel) (visit_items fuel entry a)
    (fun l => Z.of_nat (length l) + sum wx l - ba_remaining a) (Forall Qx).
Proof.
  induction fuel as [|fuel IH]; intros a He Hwx Hr; [intros c Hc HP; lia|]. cbn [visit_items].
  eapply (tame_bind _ (fun x c => items_budget c + ba_remaining x.2 + (if x.1 : bool then 1 else 0)
      < Z.of_nat (S fuel))).
  - eapply tame_weaken; [by apply next_item_tame|done|]. intros x Hx. split; [reflexivity|exact Hx].
  - intros [b a'] c c' HP Hw. cbn in *. lia.
  - intros [b a'] [Hr' Hend]. cbn [fst snd] in *. destruct b.
    2:{ apply tame_ret; [|constructor]. rewrite sum_nil, Hend by done. cbn. lia. }
    eapply (tame_bind _ (fun x c => items_budget c + wx x + ba_remaining a' + 1 < Z.of_nat (S fuel))).
    + eapply tame_weaken; [exact He|done|]. intros x Hx. split; [reflexivity|exact Hx].
    + intros x c c' HP Hw. cbn in *. lia.
    + intros x Hx. apply (tame_bind _ (fun _ => always) _ _
        (fun l => Z.of_nat (length l) + sum wx l - ba_remaining a') _ (Forall Qx)); [|done|].
      * eapply tame_weaken; [by apply (IH a')| |by intros].
        intros c Hc. specialize (Hwx x). cbv beta in *. lia.
      * intros l Hl. apply tame_ret; [|by constructor]. rewrite sum_cons. cbn [length]. lia.
Qed.

(** What the visitor saw of collections: their items, at every level. *)
Fixpoint weight (x : Seen) : Z :=
  match x with
  | SeenSeq l => Z.of_nat (length l) + sum weight l
  | SeenMap l =>
      sum (fun e : Text * Seen =>
        (match e.1 with FromPayload _ => 1 | FromSchema _ => 0 end) + weight e.2) l
  | _ => 0
  end.

Section seen_ind.
Variable P : Seen -> Prop.
Hypothesis Hleaf : forall x : Seen, match x with SeenSeq _ | SeenMap _ => True | _ => P x end.
Hypothesis Hseq : forall l, Forall P l -> P (SeenSeq l).
Hypothesis Hmap : forall l, Forall (fun e : Text * Seen => P e.2) l -> P (SeenMap l).

Fixpoint seen_ind (x : Seen) : P x :=
  match x return P x with
  | SeenSeq l => Hseq l
      ((fix go l : Forall P l := match l with
        | [] => List.Forall_nil _ | y :: l => List.Forall_cons _ _ _ (seen_ind y) (go l) end) l)
  | SeenMap l => Hmap l
      ((fix go (l : list (Text * Seen)) : Forall (fun e => P e.2) l := match l with
        | [] => List.Forall_nil _ | e :: l => List.Forall_cons _ _ _ (seen_ind e.2) (go l) end) l)
  | SeenUnit => Hleaf SeenUnit
  | SeenBool b => Hleaf (SeenBool b)
  | SeenI32 v => Hleaf (SeenI32 v)
  | SeenI64 v => Hleaf (SeenI64 v)
  | SeenF32 v => Hleaf (SeenF32 v)
  | SeenF64 v => Hleaf (SeenF64 v)
  | SeenStr v => Hleaf (SeenStr v)
  | SeenBytes v => Hleaf (SeenBytes v)
  end.
End seen_ind.

Lemma sum_nonneg {A} (f : A -> Z) l : Forall (fun x => 0 <= f x) l -> 0 <= sum f l.
Proof. induction 1; rewrite ?sum_cons; [done|lia]. Qed.

Lemma weight_nonneg x : 0 <= weight x.
Proof.
  revert x. apply seen_ind; [by intros []|intros l IH|intros l IH]; cbn [weight].
  - pose proof (sum_nonneg _ _ IH). lia.
  - apply sum_nonneg. eapply Forall_impl; [exact IH|]. intros [[] y] Hy; cbn in *; lia.
Qed.

(** ** The deserializer *)

Section decode.
Context {Uuid : Type}.
Variable parse_str : list Z -> option Uuid.
Variable from_slice : list Z -> option Uuid.
Variable hyphenated : Uuid -> string.
Variable names : Names.

Local Notation any := (deserialize_any parse_str from_slice hyphenated names).
Local Notation record := (record_datum parse_str from_slice hyphenated names).

(** A named type is supported and is not itself a reference. *)
Definition names_ok : Prop := forall ns types nm s,
  names !! ns = Some types -> types !! nm = Some s -> scan_supported s = true /\ is_ref s = false.
Hypothesis Hnames : names_ok.

Lemma resolve_tame s ns :
  scan_supported s = true ->
  match resolve_schema names s ns with
  | inl e => harmless e
  | inr x => scan_supported x.1 = true /\ is_ref x.1 = false
  end.
Proof.
  intros Hs. destruct s; try done. cbn. unfold lookup_named.
  destruct (names !! _) as [types|] eqn:Ht; cbn; [|done].
  destruct (types !! _) as [t|] eqn:Ex; [|done]. cbn. by eapply Hnames.
Qed.

(** What a call hands the visitor, the positions being of depth [depth] at least. *)
Definition call_ok (depth : Z) (c : Call) : Prop :=
  match c with
  | VisitSeq a | VisitMap a =>
      0 <= ba_remaining a /\ scan_supported (ba_schema a) = true /\ depth < ba_depth a <= MAX_DEPTH
  | VisitRecord a =>
      Forall (fun f => scan_supported f.2 = true) (ra_fields a) /\ ra_pending a = None /\
      depth < ra_depth a <= MAX_DEPTH
  | VisitNone | VisitSome _ | VisitNewtype _ | VisitUnionVariant _ _ | VisitSymbol _ => False
  | _ => True
  end.
Definition call_cost (c : Call) : Z :=
  match c with VisitSeq a | VisitMap a => ba_remaining a | _ => 0 end.

Lemma uuid_tame b : tame always (uuid_value parse_str from_slice b) nothing always.
Proof.
  assert (Hu : forall (m : Dec (list Z)) (f : list Z -> option Uuid), tame always m nothing always ->
    tame always (x ← m; uuid_or_err (f x)) nothing always).
  { intros m f Hm. eapply tame_then; [exact Hm|]. intros x _. destruct (f x); [by apply tame_ret|by apply tame_fail]. }
  destruct b; apply Hu; auto with tame.
Qed.

Lemma call_leaf {A} depth (m : Dec A) (f : A -> Call) :
  tame always m nothing always -> (forall a, call_ok depth (f a) /\ call_cost (f a) = 0) ->
  tame always (x ← m; mret (f x)) call_cost (call_ok depth).
Proof. intros Hm Hf. eapply tame_then; [exact Hm|]. intros a _. by apply tame_ret; apply Hf. Qed.

Lemma deeper_tame d :
  match deeper d with inl e => harmless e | inr n => n = de_depth d + 1 /\ n <= MAX_DEPTH end.
Proof. unfold deeper, check_depth. destruct (decide _); [done|]. lia. Qed.

Lemma map_call_tame depth s ns n :
  scan_supported s = true -> depth < n <= MAX_DEPTH ->
  tame always (a ← map_new s ns n; mret (VisitMap a)) call_cost (call_ok depth).
Proof.
  intros Hs Hn. apply (tame_bind _ (fun _ => always) _ _ (fun a => ba_remaining a) _
    (fun a => 0 <= ba_remaining a /\ ba_schema a = s /\ ba_depth a = n)); [|done|].
  - unfold map_new. apply (tame_bind _ (fun _ => always) _ _ _ _ _ _ refill_tame); [done|].
    intros [r dn] [Hr _]. apply tame_ret; [cbn; lia|done].
  - intros a (Hr & Ha & Hd). apply tame_ret; [cbn; lia|]. cbn. by rewrite Ha, Hd.
Qed.

Lemma branch_tame d variants ns (f : De -> Dec Call) :
  forallb scan_supported variants = true ->
  (forall d', de_depth d' = de_depth d + 1 -> de_depth d' <= MAX_DEPTH ->
     scan_supported (de_schema d') = true -> tame always (f d') call_cost (call_ok (de_depth d'))) ->
  tame always (into_branch d variants ns f) call_cost (call_ok (de_depth d)).
Proof.
  intros Hv Hf. unfold into_branch. eapply tame_then; [apply union_branch_tame|].
  intros [idx branch] Hb. cbn in Hb. unfold child. pose proof (deeper_tame d) as Hd.
  destruct (deeper d) as [e|n]; [by apply tame_fail|]. destruct Hd as [-> Hn].
  apply (tame_then _ _ _ (fun d' => d' = mkDe branch ns (de_depth d + 1))); [by apply tame_lift|].
  intros ? ->. eapply tame_weaken; [apply Hf; try done|done|].
  - by apply (proj1 (Forall_forall _ _) (forallb_Forall _ _ Hv) branch).
  - cbn. intros c Hc. split; [done|].
    destruct c; cbn in *; try done; destruct_and!; split_and!; (done || lia).
Qed.

Lemma any_tame lv : forall d,
  MAX_DEPTH < de_depth d + Z.of_nat lv + 1 -> scan_supported (de_schema d) = true ->
  tame always (any lv d) call_cost (call_ok (de_depth d)).
Proof.
  induction lv as [|lv IH]; intros d Hlv Hs; cbn [deserialize_any].
  all: pose proof (resolve_tame (de_schema d) (de_enclosing d) Hs) as Hres;
    unfold resolved; destruct (resolve_schema _ _ _) as [e|[s ns]]; [by apply tame_fail|];
    cbn in Hres; destruct Hres as [Hsup Href].
  all: apply (tame_then _ _ _ (fun x => x = (s, ns))); [by apply tame_lift|]; intros ? ->.
  all: pose proof (deeper_tame d) as Hdeep.
  all: destruct s; try discriminate Hsup; try discriminate Href.
  all: try (apply tame_ret; done).
  all: try (apply call_leaf; [by auto using uuid_tame with tame|done]).
  all: try (destruct (deeper d) as [e|n]; [by apply tame_fail|]; destruct Hdeep as [-> Hn];
    apply (tame_then _ _ _ (fun x => x = de_depth d + 1)); [by apply tame_lift|]; intros ? ->).
  all: cbn [scan_supported] in Hsup.
  all: try (apply tame_ret; [done|]; cbn; split_and!;
    first [done | by apply forallb_Forall | lia]).
  - by apply map_call_tame; [|lia].
  - apply branch_tame; [done|]. intros d' Hd Hm _. lia.
  - by apply map_call_tame; [|lia].
  - apply branch_tame; [done|]. intros d' Hd Hm Hd'. apply IH; [lia|done].
Qed.

(** The walks of the recording visitor. *)
Lemma collection_tame {X} (g : list X -> Seen) (m : nat -> Dec (list X)) entry (wx : X -> Z)
    (Qx : X -> Prop) a :
  (forall l, Forall Qx l -> weight (g l) = Z.of_nat (length l) + sum wx l) ->
  (forall fuel c, m fuel c = visit_items fuel entry a c) ->
  tame always entry wx Qx -> (forall x, 0 <= wx x) -> 0 <= ba_remaining a ->
  tame always (fun c => (g <$> m (item_fuel a c)) c) (fun x => weight x - ba_remaining a) always.
Proof.
  intros Hg Hm He Hwx Hr c Hc _. unfold fmap, dec_fmap. rewrite Hm.
  pose proof (visit_items_tame entry wx Qx (item_fuel a c) a He Hwx Hr c Hc) as Ht.
  specialize (Ht ltac:(unfold item_fuel; lia)).
  destruct (visit_items _ entry a c) as [l c'|e|]; [|done|done].
  destruct Ht as (? & ? & ? & Hl). rewrite Hg by done. split_and!; (done || lia).
Qed.

Lemma visit_record_tame value ns depth fields : forall fuel,
  (length fields < fuel)%nat -> Forall (fun f => scan_supported f.2 = true) fields ->
  (forall s, scan_supported s = true -> tame always (value (mkDe s ns depth)) weight always) ->
  tame always (visit_record fuel value (mkRecordAccess fields None ns depth))
    (fun l => weight (SeenMap l)) always.
Proof.
  induction fields as [|f fields IH]; intros [|fuel] Hf Hs Hv; cbn in Hf; try lia; cbn [visit_record].
  { by apply tame_ret. }
  apply Forall_cons in Hs as [Hs1 Hs]. cbn [record_next_key ra_fields fst].
  apply (tame_then _ _ _ (fun x => x = (mkDe f.2 ns depth, mkRecordAccess fields None ns depth)));
    [by apply tame_lift|]. intros ? ->.
  apply (tame_bind _ (fun _ => always) _ _ weight _ always); [by apply Hv|done|]. intros x _.
  apply (tame_bind _ (fun _ => always) _ _ (fun l => weight (SeenMap l)) _ always);
    [apply IH; (done || lia)|done|].
  intros l _. apply tame_ret; [|done]. cbn [weight]. rewrite sum_cons. cbn. lia.
Qed.

Lemma map_entry_tame value d :
  tame always (value d) weight always ->
  tame always (map_entry value d) (fun e => weight e.2) (fun e => exists k, e.1 = FromPayload k).
Proof.
  intros Hv. eapply tame_then; [apply utf8_tame|]. intros k _.
  apply (tame_bind _ (fun _ => always) _ _ weight _ always); [done|done|]. intros x _.
  apply tame_ret; [cbn; lia|]. by exists k.
Qed.

Lemma record_tame lv : forall d,
  de_depth d <= MAX_DEPTH -> MAX_DEPTH < de_depth d + Z.of_nat lv ->
  scan_supported (de_schema d) = true -> tame always (record lv d) weight always.
Proof.
  induction lv as [|lv IH]; intros d Hd Hlv Hs; [lia|]. cbn [record_datum].
  apply (tame_bind _ (fun _ => always) _ _ call_cost _ (call_ok (de_depth d))); [|done|].
  { apply any_tame; [unfold levels_left; lia|done]. }
  intros call Hc. destruct call; cbn in Hc; try done; try (by apply tame_ret).
  - destruct Hc as (Hr & Hsa & Hda).
    apply (collection_tame SeenSeq (fun f => visit_seq f (record lv) a) (record lv (item_de a)) weight always);
      [done|intros; apply visit_seq_items|apply IH; cbn; (done || lia)|apply weight_nonneg|done].
  - destruct Hc as (Hf & Hp & Hda). destruct a as [fields pending ns depth].
    cbn [ra_fields ra_pending ra_depth] in *. subst pending.
    intros c Hc _. unfold fmap, dec_fmap.
    pose proof (visit_record_tame (record lv) ns depth fields (S (length fields)) ltac:(lia) Hf
      ltac:(intros s Hss; apply IH; cbn; (done || lia)) c Hc I) as Ht.
    destruct (visit_record _ _ _ c) as [l c'|e|]; [|done|done].
    destruct Ht as (? & ? & ? & _). cbn [call_cost]. split_and!; (done || lia).
  - destruct Hc as (Hr & Hsa & Hda).
    apply (collection_tame SeenMap (fun f => visit_map f (record lv) a)
      (map_entry (record lv) (item_de a)) (fun e => weight e.2) (fun e => exists k, e.1 = FromPayload k));
      [|intros; apply visit_map_items| |intros; apply weight_nonneg|done].
    + intros l. induction 1 as [|[k x] l [k' Hk] _ IHl]; [done|]. cbn in Hk. subst k.
      cbn [weight] in *. rewrite !sum_cons. cbn [length fst snd]. lia.
    + apply map_entry_tame, IH; cbn; (done || lia).
Qed.

(** ** Skipping *)

(** The result of a program run at [c]: no panic, no loop without end, and a
    cursor that moved forward and gained no budget. *)
Definition onward (c : Cursor) {A} (r : DResult A) : Prop :=
  match r with
  | DOk _ c' => 0 <= items_budget c' <= items_budget c /\ cur_buf c' `suffix_of` cur_buf c
  | DErr e => harmless e
  | DPanic => False
  end.

Definition mild {A} (m : Dec A) : Prop := forall c, 0 <= items_budget c -> onward c (m c).

Lemma mild_tame {A} (m : Dec A) w Q : (forall a, 0 <= w a) -> tame always m w Q -> mild m.
Proof.
  intros Hw Hm c Hc. specialize (Hm c Hc I). destruct (m c) as [a c'|e|]; [|done|done].
  destruct Hm as (? & ? & ? & _). specialize (Hw a). split; [lia|done].
Qed.

Lemma mild_ret {A} (a : A) : mild (mret a).
Proof. intros c Hc. by split; [cbn; lia|]. Qed.

Lemma mild_fail {A} e : harmless e -> mild (dfail e : Dec A).
Proof. by intros He c Hc. Qed.

Lemma mild_bind {A B} (m : Dec A) (f : A -> Dec B) :
  mild m -> (forall a, mild (f a)) -> mild (m ≫= f).
Proof.
  intros Hm Hf c Hc. specialize (Hm c Hc). unfold mbind, dec_bind.
  destruct (m c) as [a c1|e|]; [|done|done]. destruct Hm as [Hb Hs].
  specialize (Hf a c1 ltac:(lia)). destruct (f a c1) as [b c2|e|]; [|done|done].
  destruct Hf as [Hb2 Hs2]. split; [lia|by etrans].
Qed.

Lemma mild_leaf {A} (m : Dec A) : tame always m nothing always -> mild (m ;;; mret tt).
Proof. intros Hm. apply mild_bind; [by apply (mild_tame m nothing always)|]. intros _. apply mild_ret. Qed.

Lemma mild_times n m : mild m -> mild (dtimes n m).
Proof.
  intros Hm. induction n as [|n IH]; cbn [dtimes]; [apply mild_ret|]. by apply mild_bind.
Qed.

Lemma mild_each {A} (f : A -> Dec unit) l : (forall x, x ∈ l -> mild (f x)) -> mild (deach f l).
Proof.
  induction l as [|x l IH]; intros Hf; cbn [deach]; [apply mild_ret|].
  apply mild_bind; [apply Hf; left|]. intros _. apply IH. intros y Hy. apply Hf. by right.
Qed.

Lemma var_loop_progress n shift value c v c' :
  0 <= items_budget c -> var_loop (S n) shift value c = DOk v c' ->
  (length (cur_buf c') < length (cur_buf c))%nat.
Proof.
  intros Hc. cbn [var_loop]. unfold mbind at 1, dec_bind at 1.
  destruct (next_byte c) as [b c1|e|] eqn:Eb; [|done|done].
  assert (Hlt : (length (cur_buf c1) < length (cur_buf c))%nat /\ items_budget c1 = items_budget c).
  { unfold next_byte in Eb. destruct (cur_buf c) as [|x l]; [done|]. injection Eb as <- <-. cbn. lia. }
  destruct (decide _); [intros [= _ <-]; lia|]. intros Hv.
  match type of Hv with var_loop _ ?s ?x _ = _ =>
    pose proof (var_loop_tame n s x c1 ltac:(lia) I) as Ht end.
  rewrite Hv in Ht. destruct Ht as (_ & _ & Hs & _). apply suffix_length in Hs. lia.
Qed.

Lemma zag_progress c v c' :
  0 <= items_budget c -> zag_i64 c = DOk v c' -> (length (cur_buf c') < length (cur_buf c))%nat.
Proof.
  intros Hc. unfold zag_i64, var_u64, mbind, dec_bind.
  destruct (var_loop 10 0 0 c) as [z c1|e|] eqn:Ev; [|done|done]. intros [= _ <-].
  by eapply var_loop_progress.
Qed.

Lemma mild_blocks item fuel : mild item -> forall c,
  0 <= items_budget c -> (length (cur_buf c) < fuel)%nat -> onward c (skip_blocks fuel item c).
Proof.
  intros Hi. induction fuel as [|fuel IH]; intros c Hc Hlen; [lia|]. cbn [skip_blocks].
  assert (Hrest : forall A (m : Dec A) c1, mild m -> 0 <= items_budget c1 <= items_budget c ->
    cur_buf c1 `suffix_of` cur_buf c -> (length (cur_buf c1) < length (cur_buf c))%nat ->
    onward c ((m ;;; skip_blocks fuel item) c1)).
  { intros A m c1 Hm Hb Hs Hp. specialize (Hm c1 ltac:(lia)). unfold mbind, dec_bind.
    destruct (m c1) as [u c2|e|]; [|done|done]. destruct Hm as [Hb2 Hs2].
    pose proof (suffix_length _ _ Hs2). specialize (IH c2 ltac:(lia) ltac:(lia)).
    destruct (skip_blocks fuel item c2) as [u' c3|e|]; [|done|done]. destruct IH as [Hb3 Hs3].
    split; [lia|]. etrans; [done|]. by etrans. }
  unfold mbind at 1, dec_bind at 1. pose proof (zag_i64_tame c Hc I) as Hz.
  destruct (zag_i64 c) as [count c1|e|] eqn:Ez; [|done|done]. destruct Hz as (Hb & Hw & Hs & _).
  pose proof (zag_progress _ _ _ Hc Ez) as Hp.
  destruct (decide (count = 0)); [split; [cbn; lia|done]|]. destruct (decide (count < 0)).
  - unfold mbind at 1, dec_bind at 1. pose proof (zag_i64_tame c1 Hb I) as Hz.
    destruct (zag_i64 c1) as [size c2|e|] eqn:Ez2; [|done|done]. destruct Hz as (Hb2 & Hw2 & Hs2 & _).
    pose proof (zag_progress _ _ _ Hb Ez2) as Hp2. destruct (decide (size < 0)); [done|].
    apply (Hrest _ (take_n size)); [|lia|by etrans|lia].
    by apply (mild_tame _ nothing always); [|apply take_n_tame].
  - unfold mbind at 1, dec_bind at 1. pose proof (charge_tame count ltac:(lia) c1 Hb I) as Hz.
    destruct (charge_items count c1) as [u c2|e|]; [|done|done]. destruct Hz as (Hb2 & Hw2 & Hs2 & _).
    pose proof (suffix_length _ _ Hs2).
    apply Hrest; [by apply mild_times|lia|by etrans|lia].
Qed.

Lemma skip_mild lv : forall s ns depth,
  depth <= MAX_DEPTH -> MAX_DEPTH < depth + Z.of_nat lv -> scan_supported s = true ->
  mild (skip_datum names lv s ns depth).
Proof.
  induction lv as [|lv IH]; intros s ns depth Hd Hlv Hs; [lia|]. cbn [skip_datum].
  unfold check_depth. destruct (decide (MAX_DEPTH <= depth)) as [|Hlt]; [by apply mild_fail|].
  apply mild_bind; [apply mild_ret|]. intros _.
  assert (Hcol : forall item, mild item -> mild (skip_collection item)).
  { intros item Hi c Hc. apply mild_blocks; [done|done|lia]. }
  destruct s; try discriminate Hs; cbn [scan_supported] in Hs.
  all: try apply mild_ret.
  all: try (destruct backing).
  all: try (apply mild_leaf; auto with tame; fail).
  - apply Hcol, IH; (done || lia).
  - apply Hcol, mild_bind; [by apply (mild_tame _ nothing always); [|apply len_prefixed_tame]|].
    intros _. apply IH; (done || lia).
  - intros c Hc. unfold mbind, dec_bind. pose proof (union_branch_tame variants c Hc I) as Hu.
    destruct (union_branch variants c) as [[idx branch] c1|e|]; [|done|done].
    destruct Hu as (Hb & Hw & Hsf & Hin). cbn in Hin.
    pose proof (proj1 (Forall_forall _ _) (forallb_Forall _ _ Hs) branch Hin) as Hsb.
    pose proof (IH branch ns (depth + 1) ltac:(lia) ltac:(lia) Hsb c1 Hb) as Hm.
    destruct (skip_datum _ _ _ _ _ c1) as [u c2|e|]; [|done|done].
    destruct Hm as [? ?]. split; [lia|by etrans].
  - apply mild_each. intros f Hf. apply IH; [lia|lia|].
    by apply (proj1 (Forall_forall _ _) (forallb_Forall _ _ Hs) f).
  - unfold lookup_named. destruct (names !! _) as [types|] eqn:Ht; cbn; [|by apply mild_fail].
    destruct (types !! _) as [t|] eqn:Ex; [|by apply mild_fail].
    apply IH; [lia|lia|]. by eapply Hnames.
Qed.
End decode.

(** ** The decoder *)
Lemma compile_spec_ok s found names :
  Forall (fun x => is_ref x.2 = false) found -> compile_spec s found = Some names ->
  scan_supported s = true /\ names_ok names.
Proof.
  unfold compile_spec. set (step := fun (m : Names) (x : Name * Schema) => _).
  intros Hf Hc. destruct (scan_supported s && _) eqn:E; [|done]. injection Hc as <-.
  apply andb_true_iff in E as [Hs Hn]. split; [done|].
  assert (Href : forall m, (forall ns types nm t, m !! ns = Some types -> types !! nm = Some t ->
      is_ref t = false) -> forall ns types nm t, foldl step m found !! ns = Some types ->
      types !! nm = Some t -> is_ref t = false).
  { clear Hn Hs. induction Hf as [|[n t] found Ht _ IH]; intros m Hm; [done|]. cbn [foldl]. apply IH.
    intros ns types nm t'. unfold step at 1. cbn [fst snd]. intros Hl Hl'.
    apply lookup_insert_Some in Hl as [[<- <-]|[_ Hl]]; [|by eapply Hm].
    apply lookup_insert_Some in Hl' as [[_ <-]|[_ Hl']]; [done|].
    destruct (m !! _) as [types'|] eqn:Em; [by eapply Hm|done]. }
  intros ns types nm t Hl Hl'. split; [|by eapply (Href ∅)].
  apply forallb_Forall, Forall_forall with (x := (ns, types)) in Hn; [|by apply elem_of_map_to_list].
  apply forallb_Forall, Forall_forall with (x := (nm, t)) in Hn; [done|].
  by apply elem_of_map_to_list.
Qed.

(** a datum that fits the schema and whose collections stay within the item budget
    is decoded from its encoding, in whatever blocks its collections were written
    and whatever follows it, to exactly the visitor calls of its value, unless it
    is nested more than 128 levels deep: then the decode fails with the depth
    limit. *)
Theorem datum_roundtrip {Uuid} (parse_str from_slice : list Z -> option Uuid)
    (hyphenated : Uuid -> string) names s x rest :
  fits parse_str from_slice names None s x = true ->
  let budget := Z.max (Z.of_nat (length (encode_datum x ++ rest))) 65536 in
  items x <= budget ->
  decode_datum parse_str from_slice hyphenated names s (encode_datum x ++ rest) =
    if bool_decide (Z.of_nat (levels x) <= 128)
    then DOk (trace parse_str from_slice hyphenated names None s x) (mkCursor rest (budget - items x))
    else DErr DepthLimit.
Proof.
  intros Hf budget Hi. unfold decode_datum, cursor_new.
  by apply (record_reads parse_str from_slice hyphenated names x s None 0).
Qed.

Lemma decode_and_skip {Uuid} (parse_str from_slice : list Z -> option Uuid)
    (hyphenated : Uuid -> string) names s ns depth x rest budget :
  fits parse_str from_slice names ns s x = true -> 0 <= depth <= 128 -> items x <= budget ->
  record_datum parse_str from_slice hyphenated names (levels_left depth) (mkDe s ns depth)
      (mkCursor (encode_datum x ++ rest) budget) =
    (if bool_decide (depth + Z.of_nat (levels x) <= 128)
     then DOk (trace parse_str from_slice hyphenated names ns s x) (mkCursor rest (budget - items x))
     else DErr DepthLimit) /\
  deserialize_ignored_any names (mkDe s ns depth) (mkCursor (encode_datum x ++ rest) budget) =
    (if bool_decide (depth + Z.of_nat (skip_levels names ns s x) <= 128)
     then DOk VisitUnit (mkCursor rest (budget - skipped_items x))
     else DErr DepthLimit).
Proof.
  intros Hf Hd Hi. pose proof (skipped_le x) as Hsk.
  assert (Hlv : MAX_DEPTH < depth + Z.of_nat (levels_left depth)) by (unfold levels_left, MAX_DEPTH; lia).
  split; [by apply record_reads|].
  pose proof (skip_reads parse_str from_slice names x s ns depth (levels_left depth) Hf Hd Hlv rest budget
    ltac:(lia)) as Hr.
  unfold deserialize_ignored_any, mbind, dec_bind. cbn [de_depth de_schema de_enclosing].
  rewrite Hr. unfold within_depth. change MAX_DEPTH with 128. by destruct (bool_decide _).
Qed.

(** C37: skipping and decoding on a well-formed encoding. For every datum that
    fits the schema, in whatever blocks, at any depth and with an item budget that
    covers it: decoding consumes exactly its encoding, and skipping the same bytes,
    charging no more. Each fails only with the depth limit, and does so exactly
    where the levels it counts pass 128: a decode counts the datum's [levels], a
    skip its [skip_levels], one for every position and one more for every
    reference, at most twice as many and two. *)
Theorem skip_matches_decode {Uuid} (parse_str from_slice : list Z -> option Uuid)
    (hyphenated : Uuid -> string) names s ns depth x rest budget :
  fits parse_str from_slice names ns s x = true -> 0 <= depth <= 128 -> items x <= budget ->
  let c := mkCursor (encode_datum x ++ rest) budget in
  let d := mkDe s ns depth in
  record_datum parse_str from_slice hyphenated names (levels_left depth) d c =
    (if bool_decide (depth + Z.of_nat (levels x) <= 128)
     then DOk (trace parse_str from_slice hyphenated names ns s x) (mkCursor rest (budget - items x))
     else DErr DepthLimit) /\
  deserialize_ignored_any names d c =
    (if bool_decide (depth + Z.of_nat (skip_levels names ns s x) <= 128)
     then DOk VisitUnit (mkCursor rest (budget - skipped_items x))
     else DErr DepthLimit) /\
  0 <= skipped_items x <= items x /\ (skip_levels names ns s x <= 2 * levels x + 2)%nat.
Proof.
  intros Hf Hd Hi c d.
  destruct (decode_and_skip parse_str from_slice hyphenated names s ns depth x rest budget Hf Hd Hi).
  split_and!; [done|done|apply skipped_le|apply skipped_le|apply skip_levels_le].
Qed.

Lemma decode_outcome {Uuid} (parse_str from_slice : list Z -> option Uuid)
    (hyphenated : Uuid -> string) s names datum :
  scan_supported s = true -> names_ok names ->
  match decode_datum parse_str from_slice hyphenated names s datum with
  | DOk x c => weight x <= Z.max (Z.of_nat (length datum)) MIN_ITEMS_BUDGET /\
               cur_buf c `suffix_of` datum
  | DErr e => harmless e
  | DPanic => False
  end.
Proof.
  intros Hs Hn. assert (Hb : 0 <= items_budget (cursor_new datum)) by (cbn; lia).
  pose proof (record_tame parse_str from_slice hyphenated names Hn (levels_left 0) (mkDe s None 0)
    ltac:(vm_compute; done) ltac:(vm_compute; done) Hs (cursor_new datum) Hb I) as Ht.
  unfold decode_datum. destruct (record_datum _ _ _ _ _ _ _) as [x c|e|]; [|done|done].
  destruct Ht as (? & Hw & Hsuf & _). cbn [cursor_new items_budget cur_buf] in *. split; [lia|done].
Qed.

(** C36: under a schema that [compile_spec] accepts, and whatever the payload, a
    decode and a skip end without a panic, without a loop outrunning its bound
    and without meeting a node the compiler refuses. What is decoded has no more
    collection items than the larger of the payload's length and 65536, and the
    cursor ends inside the payload. *)
Theorem decode_safe {Uuid} (parse_str from_slice : list Z -> option Uuid)
    (hyphenated : Uuid -> string) s found names datum :
  Forall (fun x => is_ref x.2 = false) found -> compile_spec s found = Some names ->
  match decode_datum parse_str from_slice hyphenated names s datum with
  | DOk x c => weight x <= Z.max (Z.of_nat (length datum)) MIN_ITEMS_BUDGET /\
               cur_buf c `suffix_of` datum
  | DErr e => harmless e
  | DPanic => False
  end /\
  onward (cursor_new datum) (deserialize_ignored_any names (mkDe s None 0) (cursor_new datum)).
Proof.
  intros Hf Hc. destruct (compile_spec_ok s found names Hf Hc) as [Hs Hn].
  split; [by apply decode_outcome|].
  assert (Hb : 0 <= items_budget (cursor_new datum)) by (cbn; lia).
  pose proof (skip_mild names Hn (levels_left 0) s None 0 ltac:(vm_compute; done)
    ltac:(vm_compute; done) Hs (cursor_new datum) Hb) as Hm.
  unfold deserialize_ignored_any, mbind, dec_bind. cbn [de_depth de_schema de_enclosing].
  by destruct (skip_datum _ _ _ _ _ _) as [[] c|e|].
Qed.

(** ** Examples *)

(** Recursion through a union, as in the module's tests. *)
Definition long_list_name : Name := mkName None "LongList".
Definition long_list : Schema :=
  SRecord long_list_name [("value", SLong); ("next", SUnion [SNull; SRef long_list_name])].
Definition long_list_names : Names := {[ "" := {[ "LongList" := long_list ]} ]}.
Fixpoint long_nodes (n : nat) : Datum :=
  match n with
  | O => DRecord [DLong 7; DUnion 0 DNull]
  | S n => DRecord [DLong 7; DUnion 1 (long_nodes n)]
  end.

Definition no_uuid (b : list Z) : option unit := None.
Definition no_text (u : unit) : string := "".

Lemma long_nodes_levels n : levels (long_nodes n) = (2 * n + 2)%nat.
Proof. induction n as [|n IH]; [done|]. cbn [long_nodes levels]. unfold deepest. cbn [foldr levels]. lia. Qed.

Lemma long_nodes_skip n : skip_levels long_list_names None long_list (long_nodes n) = (3 * n + 3)%nat.
Proof.
  induction n as [|n IH]; [done|].
  transitivity (3 + skip_levels long_list_names None long_list (long_nodes n))%nat; [|lia].
  destruct n; done.
Qed.

Lemma long_nodes_fits n : fits no_uuid no_uuid long_list_names None long_list (long_nodes n) = true.
Proof.
  induction n as [|n IH]; [done|]. change (true && ((true &&
    fits no_uuid no_uuid long_list_names None (SRef long_list_name) (long_nodes n)) && true) = true).
  rewrite andb_true_r. by destruct n.
Qed.

Lemma long_nodes_items n : items (long_nodes n) = 0.
Proof. induction n as [|n IH]; [done|]. cbn [long_nodes items]. rewrite !sum_cons, sum_nil. cbn [items]. lia. Qed.

(** a reference is a level of its own for a skip and not for a decode: a list of up
    to 63 nodes after its first decodes, and past 41 fails with the depth limit
    where the target ignores it. *)
Lemma recursive_skip_depth n :
  let c := mkCursor (encode_datum (long_nodes n)) MIN_ITEMS_BUDGET in
  record_datum no_uuid no_uuid no_text long_list_names (levels_left 0) (mkDe long_list None 0) c =
    (if bool_decide (Z.of_nat n <= 63)
     then DOk (trace no_uuid no_uuid no_text long_list_names None long_list (long_nodes n))
            (mkCursor [] MIN_ITEMS_BUDGET)
     else DErr DepthLimit) /\
  deserialize_ignored_any long_list_names (mkDe long_list None 0) c =
    (if bool_decide (Z.of_nat n <= 41)
     then DOk VisitUnit (mkCursor [] MIN_ITEMS_BUDGET) else DErr DepthLimit).
Proof.
  pose proof (skipped_le (long_nodes n)) as Hs. pose proof (long_nodes_items n) as Hi.
  assert (Hi' : items (long_nodes n) <= MIN_ITEMS_BUDGET) by (by rewrite Hi).
  destruct (decode_and_skip no_uuid no_uuid no_text long_list_names long_list None 0 (long_nodes n) []
    MIN_ITEMS_BUDGET (long_nodes_fits n) ltac:(lia) Hi') as [Hd Hk].
  rewrite app_nil_r in Hd, Hk. cbv zeta. rewrite Hd, Hk, long_nodes_levels, long_nodes_skip, Hi.
  replace (skipped_items (long_nodes n)) with 0 by lia. rewrite Z.sub_0_r.
  split; (repeat case_bool_decide; try done; lia).
Qed.

(** A record with collections in sized and unsized blocks, a union, an enum and a
    recursive field. *)
Definition order : Schema :=
  SRecord (mkName None "Order")
    [("id", SLong); ("tags", SArray SString); ("notes", SMap (SUnion [SNull; SDouble]));
     ("state", SEnum ["new"; "done"]); ("line", long_list)].
Definition order_datum : Datum :=
  DRecord [DLong (-3); DArray [(true, [DString [104; 105]; DString []]); (false, [DString [195; 169]])];
           DMap [(true, [([97], DUnion 0 DNull)]); (false, [([98], DUnion 1 (DDouble 4607182418800017408))])];
           DEnum 1; long_nodes 2].
Definition order_found : list (Name * Schema) :=
  [(long_list_name, long_list); (mkName None "Order", order)].

Definition order_names : Names := default ∅ (compile_spec order order_found).

Lemma order_compiles : compile_spec order order_found = Some order_names.
Proof. vm_compute. reflexivity. Qed.

Lemma datum_roundtrip_witness :
  decode_datum no_uuid no_uuid no_text order_names order (encode_datum order_datum ++ [1; 2]) =
    DOk (trace no_uuid no_uuid no_text order_names None order order_datum)
      (mkCursor [1; 2] (65536 - items order_datum)).
Proof. apply datum_roundtrip; vm_compute; (reflexivity || discriminate). Defined.

(** A list of 50 nodes after its first decodes, and is too deep to skip. *)
Lemma skip_matches_decode_witness :
  record_datum no_uuid no_uuid no_text long_list_names (levels_left 2) (mkDe long_list None 2)
    (mkCursor (encode_datum (long_nodes 50) ++ [9]) 100) =
    DOk (trace no_uuid no_uuid no_text long_list_names None long_list (long_nodes 50)) (mkCursor [9] 100) /\
  deserialize_ignored_any long_list_names (mkDe long_list None 2)
    (mkCursor (encode_datum (long_nodes 50) ++ [9]) 100) = DErr DepthLimit.
Proof.
  destruct (skip_matches_decode no_uuid no_uuid no_text long_list_names long_list None 2 (long_nodes 50)
    [9] 100) as (Hd & Hs & _); [vm_compute; reflexivity|lia|vm_compute; discriminate|].
  split; [exact Hd|exact Hs].
Defined.

Lemma decode_safe_witness :
  onward (cursor_new [5; 8; 255; 255]) (deserialize_ignored_any order_names (mkDe order None 0)
    (cursor_new [5; 8; 255; 255])).
Proof.
  apply (decode_safe no_uuid no_uuid no_text order order_found); [|exact order_compiles].
  by repeat constructor.
Defined.
