(* ===== verification/AvroSource.v ===== *)
(** * Avro payloads: framing, schema cache, registry fetcher and deserializers

    [spate-avro/src/wire.rs], [cache.rs], [registry.rs], [deser.rs] and
    [datum.rs]. Pipeline threads look schemas up in a cache that a fetcher task
    and a pre-warm task fill with the registry's answers. An operation of a
    thread or task between two suspensions is one definition; [sys_step] runs
    them in any interleaving, the registry's answers, the passing of time and a
    task's panic being labels.

    The [apache-avro] crate is a record of operations, [AvroLib]; an HTTP exchange
    is its [Response]. The order in which a hash map is iterated is a parameter.
    [None] is a panic. *)

From stdpp Require Import base list gmap strings pretty.
From Stdlib Require Import ZArith Lia.
From S2P Require Import Prelude EndCheck Backoff Chain AvroDatum.

(** ** Framings *)

Definition hex_digit (d : Z) : string :=
  default "" (["0"; "1"; "2"; "3"; "4"; "5"; "6"; "7"; "8"; "9"; "a"; "b"; "c"; "d"; "e"; "f"]
    !! Z.to_nat d).
(** [k] hexadecimal digits. *)
Fixpoint hex (k : nat) (x : Z) : string :=
  match k with
  | O => ""
  | S k => hex k (x / 16) +:+ hex_digit (x mod 16)
  end.
#[global] Arguments hex : simpl never.

Definition parse_confluent (payload : list Z) : DeserError + (Z * list Z) :=
  match payload with
  | magic :: _ =>
      if decide (magic <> 0) then
        inl (Malformed ("not Confluent wire format: magic byte 0x" +:+ hex 2 magic +:+ ", expected 0x00"))
      else if decide (length payload < 5)%nat then
        inl (Malformed ("truncated Confluent header: " +:+ pretty (length payload) +:+
          " bytes, need at least 5"))
      else inr (be_val (take 4 (drop 1 payload)), drop 5 payload)
  | [] => inl (Malformed "truncated Confluent header: 0 bytes, need at least 5")
  end.

Definition parse_single_object (payload : list Z) : DeserError + (Z * list Z) :=
  if decide (length payload < 10)%nat then
    inl (Malformed ("truncated single-object header: " +:+ pretty (length payload) +:+
      " bytes, need at least 10"))
  else
    let b0 := default 0 (payload !! 0%nat) in
    let b1 := default 0 (payload !! 1%nat) in
    if decide (b0 <> 0xC3 \/ b1 <> 0x01) then
      inl (Malformed ("not Avro single-object encoding: magic 0x" +:+ hex 2 b0 +:+ " 0x" +:+ hex 2 b1
        +:+ ", expected 0xc3 0x01"))
    else inr (le_val (take 8 (drop 2 payload)), drop 10 payload).

(** ** Compiled schemas *)

(** What is used of [apache-avro]'s schemas: parsing a schema's JSON and finding
    the named types of a schema, each with its rendered error, [None] being a
    panic; and the rendering of the node [scan_supported] refuses. *)
Record AvroLib := mkAvroLib {
  parse_schema : string -> option (string + Schema);
  resolved_names : Schema -> option (string + list (Name * Schema));
  refusal : Schema -> list (Name * Schema) -> string;
}.

Record CompiledSchema := mkCompiled {
  cs_id : Z;
  cs_schema : string + Schema;
  cs_datum : string + Names;
}.

(** [de::compile_spec] with its errors. *)
Definition datum_spec (L : AvroLib) (s : Schema) : option (string + Names) :=
  found ← resolved_names L s;
  Some match found with
       | inl e => inl ("schema references cannot be resolved: " +:+ e)
       | inr found =>
           match compile_spec s found with
           | Some names => inr names
           | None => inl (refusal L s found)
           end
       end.

(** The closure under [catch_unwind]. *)
Definition try_compile (L : AvroLib) (id : Z) (json : string)
    : option ((string + Schema) * (string + Names)) :=
  schema ← parse_schema L json;
  match schema with
  | inl e => Some (inl e, inl ("schema " +:+ pretty id +:+ " is not usable: " +:+ e))
  | inr s =>
      spec ← datum_spec L s;
      Some (inr s, match spec with
        | inl reason =>
            inl ("schema " +:+ pretty id +:+ " is not usable on the datum path: " +:+ reason)
        | inr names => inr names
        end)
  end.

Definition compile (L : AvroLib) (id : Z) (json : string) : CompiledSchema :=
  match try_compile L id json with
  | Some (inr s, datum) => mkCompiled id (inr s) datum
  | Some (inl e, datum) => mkCompiled id (inl ("schema " +:+ pretty id +:+ " is not usable: " +:+ e)) datum
  | None =>
      let reason := "schema " +:+ pretty id +:+ " is not usable: the parser panicked" in
      mkCompiled id (inl reason) (inl reason)
  end.

Definition unusable_reason (c : CompiledSchema) : option string :=
  match cs_schema c with inr _ => None | inl reason => Some reason end.

(** ** The cache *)

Inductive Lookup :=
  | Ready (c : CompiledSchema)
  | LookupFailed (reason : string)
  | Missing.

Inductive Entry :=
  | EReady (c : CompiledSchema)
  | EFailed (reason : string) (at_ : Z).

Definition MAX_NEGATIVE_ENTRIES : nat := 1024.

Section iteration.
(** The order a hash map is iterated in: a permutation of its entries. *)
Variable iter : forall A : Type, gmap Z A -> list (Z * A).

(** A negative entry answers until its time to live is over. *)
Definition entry_live (ttl now : Z) (e : Entry) : bool :=
  match e with
  | EReady _ => true
  | EFailed _ at_ => bool_decide (sat_sub now at_ < ttl)
  end.

Definition eval (m : gmap Z Entry) (id ttl now : Z) : option Lookup :=
  match m !! id with
  | Some (EReady c) => Some (Ready c)
  | Some (EFailed reason at_) =>
      if decide (ttl <= sat_sub now at_) then None else Some (LookupFailed reason)
  | None => None
  end.

Definition cache_get (m : gmap Z Entry) (id ttl now : Z) : Lookup := default Missing (eval m id ttl now).

(** [lookup]: the answer, and the caller's memo after it. *)
Definition lookup_memo (cache memo : gmap Z Entry) (id ttl now : Z) : Lookup * gmap Z Entry :=
  match eval memo id ttl now with
  | Some (Ready c) => (Ready c, memo)
  | _ => (default Missing (eval cache id ttl now), cache)
  end.

Definition live_copy (ttl now : Z) (m : gmap Z Entry) : gmap Z Entry :=
  filter (fun x : Z * Entry => entry_live ttl now x.2 = true) m.

Definition insert_ready (ttl now : Z) (c : CompiledSchema) (m : gmap Z Entry) : gmap Z Entry :=
  <[cs_id c := EReady c]> (live_copy ttl now m).

(** The negative entries in iteration order, with their stamps. *)
Definition negative (m : gmap Z Entry) : list (Z * Z) :=
  omap (fun x => match x.2 with EFailed _ at_ => Some (x.1, at_) | EReady _ => None end)
    (iter Entry m).

(** [min_by_key]: the first of the least. *)
Fixpoint oldest_negative (l : list (Z * Z)) : option (Z * Z) :=
  match l with
  | [] => None
  | x :: l =>
      match oldest_negative l with
      | Some y => Some (if decide (y.2 < x.2) then y else x)
      | None => Some x
      end
  end.

Definition make_room (id : Z) (m : gmap Z Entry) : gmap Z Entry :=
  if bool_decide (m !! id = None) && bool_decide (MAX_NEGATIVE_ENTRIES <= length (negative m))%nat
  then match oldest_negative (negative m) with Some x => delete x.1 m | None => m end
  else m.

(** The clock is read for the copy at [now] and for the stamp at [stamp]. *)
Definition insert_failed (ttl now stamp id : Z) (reason : string) (m : gmap Z Entry) : gmap Z Entry :=
  match m !! id with
  | Some (EReady _) => m
  | _ => <[id := EFailed reason stamp]> (make_room id (live_copy ttl now m))
  end.

(** ** The fetcher *)

Definition MILLIS : Z := 1000000.
Definition FETCH_INITIAL : Z := 200 * MILLIS.
Definition FETCH_MAX : Z := 5 * SECOND.
Definition FETCH_BACKOFF : Backoff := backoff_new FETCH_INITIAL FETCH_MAX.
Definition MAX_CONCURRENT_FETCHES : nat := 4.

(** A response body: [references] is the length of the list. *)
Record RegistrySchema := mkRegistered {
  rs_id : option Z;
  rs_schema : string;
  rs_schema_type : option string;
  rs_references : option Z;
}.

Definition unsupported (r : RegistrySchema) (id : Z) : option string :=
  match (kind ← rs_schema_type r; if decide (kind = "AVRO") then None else Some kind) with
  | Some kind => Some ("schema " +:+ pretty id +:+ " is a " +:+ kind +:+
      " schema, which spate-avro does not decode")
  | None =>
      let references := default 0 (rs_references r) in
      if decide (0 < references) then
        Some ("schema " +:+ pretty id +:+ " uses " +:+ pretty references +:+
          " registry reference(s), which spate-avro does not support yet")
      else None
  end.

(** What [Endpoint::get] ends with; [text] is a failure's rendering. *)
Inductive Response :=
  | Registered (r : RegistrySchema)
  | Status (code : Z) (text : string)
  | Rejected (reason : string)
  | TransientFailure (text : string).

Inductive FetchOutcome := Resolved | Transient.

Record IdBackoff := mkIdBackoff {
  schedule : Backoff;
  next_allowed : Z;
}.

Definition grow (now : Z) (b : IdBackoff) : option IdBackoff :=
  '(d, schedule) ← next_delay (schedule b);
  Some (mkIdBackoff schedule (default now (checked_add now d))).
Definition first_backoff (now : Z) : option IdBackoff := grow now (mkIdBackoff FETCH_BACKOFF now).
Definition admits (now : Z) (b : IdBackoff) : bool := bool_decide (next_allowed b <= now).

Definition settle_backoff (backoff : gmap Z IdBackoff) (id : Z) (outcome : FetchOutcome) (now : Z)
    : option (gmap Z IdBackoff) :=
  match outcome with
  | Resolved => Some (delete id backoff)
  | Transient =>
      b ← match backoff !! id with Some b => grow now b | None => first_backoff now end;
      Some (<[id := b]> backoff)
  end.

(** A task of the fetcher's [JoinSet]. *)
Inductive FetchTask :=
  | Running (id : Z)
  | Finished (id : Z) (outcome : FetchOutcome)
  | TaskPanicked.

Record Fetcher := mkFetcher {
  in_flight : gset Z;
  backoffs : gmap Z IdBackoff;
  tasks : list FetchTask;
}.

(** What the handles, the fetcher and the pre-warm share: the cache, the
    rejection and the channel; the fetcher's own state is [None] once it ended. *)
Record Registry := mkRegistry {
  r_cache : gmap Z Entry;
  r_rejection : option string;
  r_queue : list Z;
  r_fetcher : option Fetcher;
}.

Definition with_cache (m : gmap Z Entry) (r : Registry) : Registry :=
  mkRegistry m (r_rejection r) (r_queue r) (r_fetcher r).
Definition with_rejection (x : option string) (r : Registry) : Registry :=
  mkRegistry (r_cache r) x (r_queue r) (r_fetcher r).
Definition with_queue (q : list Z) (r : Registry) : Registry :=
  mkRegistry (r_cache r) (r_rejection r) q (r_fetcher r).
Definition with_fetcher (f : option Fetcher) (r : Registry) : Registry :=
  mkRegistry (r_cache r) (r_rejection r) (r_queue r) f.

Definition request_fetch (id : Z) (r : Registry) : Registry :=
  match r_fetcher r with
  | Some _ => with_queue (r_queue r ++ [id]) r
  | None => r
  end.

(** [record]: the first reason stays. *)
Definition record_rejection (reason : string) (r : Registry) : Registry :=
  match r_rejection r with Some _ => r | None => with_rejection (Some reason) r end.

Section registry.
Variable L : AvroLib.
Variable ttl : Z.
(** The registry's URL without credentials. *)
Variable url : string.

(** [fetch_one] from the registry's answer on. *)
Definition fetch_one (id : Z) (answer : Response) (now stamp : Z) (r : Registry)
    : FetchOutcome * Registry :=
  let failed reason := with_cache (insert_failed ttl now stamp id reason (r_cache r)) r in
  match answer with
  | Registered x =>
      (Resolved,
       match unsupported x id with
       | Some reason => failed reason
       | None =>
           let c := compile L id (rs_schema x) in
           match unusable_reason c with
           | None => with_cache (insert_ready ttl now c (r_cache r)) r
           | Some reason => failed reason
           end
       end)
  | Status code text =>
      if decide (code = 404) then
        (Resolved, failed ("registry fetch for schema " +:+ pretty id +:+ " failed: " +:+ text))
      else if decide (code = 401 \/ code = 403) then
        (Transient, record_rejection ("schema registry " +:+ url +:+ " refused the fetch of schema " +:+
          pretty id +:+ ": " +:+ text) r)
      else (Transient, r)
  | Rejected reason => (Transient, record_rejection reason r)
  | TransientFailure _ => (Transient, r)
  end.

Definition finished (t : FetchTask) : bool := match t with Running _ => false | _ => true end.

(** The two branches of the loop's [select!]: a finished task, and an id of the
    channel. *)
Definition fetcher_join (i : nat) (t : FetchTask) (now : Z) (f : Fetcher) : option Fetcher :=
  match t with
  | Finished id outcome =>
      b ← settle_backoff (backoffs f) id outcome now;
      Some (mkFetcher (in_flight f ∖ {[id]}) b (delete i (tasks f)))
  | _ => Some (mkFetcher (in_flight f) (backoffs f) (delete i (tasks f)))
  end.

Definition held_off (now id : Z) (f : Fetcher) : bool :=
  match backoffs f !! id with Some b => negb (admits now b) | None => false end.

Definition fetcher_recv (id now later : Z) (cache : gmap Z Entry) (f : Fetcher) : Fetcher :=
  if decide (id ∈ in_flight f) then f
  else match cache_get cache id ttl now with
       | Missing =>
           if held_off later id f then f
           else mkFetcher ({[id]} ∪ in_flight f) (backoffs f) (tasks f ++ [Running id])
       | _ => f
       end.

(** ** The pre-warm *)

(** The subjects to come, with the one asked for. *)
Inductive Prewarm :=
  | PreNext (subjects : list string)
  | PreAsked (subject : string) (subjects : list string)
  | PreDone.

(** The head of the loop, up to the request. *)
Definition prewarm_next (subjects : list string) (r : Registry) : Prewarm :=
  match subjects with
  | [] => PreDone
  | subject :: rest =>
      match r_rejection r with Some _ => PreDone | None => PreAsked subject rest end
  end.

(** The loop's body from the answer on. *)
Definition prewarm_answer (subject : string) (answer : Response) (now : Z) (r : Registry) : Registry :=
  match answer with
  | Registered x =>
      match rs_id x with
      | None => r
      | Some id =>
          match unsupported x id with
          | Some _ => r
          | None =>
              let c := compile L id (rs_schema x) in
              match unusable_reason c with
              | None => with_cache (insert_ready ttl now c (r_cache r)) r
              | Some _ => r
              end
          end
      end
  | Status code text =>
      if decide (code = 401) then
        record_rejection ("schema registry " +:+ url +:+ " refused the pre-warm of subject " +:+
          subject +:+ ": " +:+ text) r
      else r
  | Rejected reason => record_rejection reason r
  | TransientFailure _ => r
  end.

(** ** Resolving a payload *)

(** [SchemaSourceMode]; the registry handle is the shared [Registry]. *)
Inductive Mode :=
  | Confluent (memo : gmap Z Entry)
  | RawDatum (schema : CompiledSchema)
  | SingleObject (schema : CompiledSchema) (fingerprint : Z).

Definition Resolution : Type := DeserError + option (CompiledSchema * list Z).

Definition resolve_confluent (payload : list Z) (memo : gmap Z Entry) (now : Z) (r : Registry)
    : Resolution * gmap Z Entry * Registry :=
  match parse_confluent payload with
  | inl e => (inl e, memo, r)
  | inr (id, datum) =>
      let '(found, memo) := lookup_memo (r_cache r) memo id ttl now in
      match found with
      | Ready c => (inr (Some (c, datum)), memo, r)
      | Missing =>
          match r_rejection r with
          | Some reason => (inl (DeserFatal reason), memo, r)
          | None =>
              (inl (DeserNotReady ("schema " +:+ pretty id +:+ " is being fetched from the registry")),
               memo, request_fetch id r)
          end
      | LookupFailed reason => (inl (SchemaUnavailable reason), memo, r)
      end
  end.

Definition resolve_payload (payload : list Z) (m : Mode) (now : Z) (r : Registry) : Resolution * Mode * Registry :=
  match payload with
  | [] => (inr None, m, r)
  | _ =>
      match m with
      | Confluent memo =>
          let '(x, memo, r) := resolve_confluent payload memo now r in (x, Confluent memo, r)
      | RawDatum schema => (inr (Some (schema, payload)), m, r)
      | SingleObject schema fingerprint =>
          (match parse_single_object payload with
           | inl e => inl e
           | inr (fp, datum) =>
               if decide (fp <> fingerprint) then
                 inl (SchemaUnavailable ("single-object fingerprint 0x" +:+ hex 16 fp +:+
                   " does not match the configured schema (0x" +:+ hex 16 fingerprint +:+ ")"))
               else inr (Some (schema, datum))
           end, m, r)
      end
  end.

(** ** The deserializers *)

(** What [deserialize] emitted and its error, as the chain reads it. *)
Definition Answer (T : Type) : Type := list T * option DeserError.

(** [AvroDatumDeserializer::deserialize], [decode] being [decode_datum] for the
    record type and [wording] the rendering of its errors. *)
Definition datum_deserialize {T} (decode : Schema -> Names -> list Z -> option (DatumError + T))
    (wording : DatumError -> string) (payload : list Z) (m : Mode) (now : Z) (r : Registry)
    : option (Answer T * Mode * Registry) :=
  let '(x, m, r) := resolve_payload payload m now r in
  answer ← match x with
    | inl e => Some ([], Some e)
    | inr None => Some ([], None)
    | inr (Some (writer, datum)) =>
        match cs_datum writer, cs_schema writer with
        | inl reason, _ => Some ([], Some (SchemaUnavailable reason))
        | inr _, inl reason => Some ([], Some (SchemaUnavailable reason))
        | inr names, inr schema =>
            decoded ← decode schema names datum;
            Some match decoded with
                 | inl e => ([], Some (Malformed ("avro datum decode failed: " +:+ wording e)))
                 | inr x => ([x], None)
                 end
        end
    end;
  Some (answer, m, r).

Definition MAX_HELD_READERS : nat := 64.

(** [GenericDatumReader]: building one, and reading a value, with whether an exact
    read met the end of the datum. *)
Context {Reader Value : Type}.
Variable build_reader : Schema -> option Schema -> string + Reader.
Variable read_value : Reader -> list Z -> bool * (string + Value).

(** [HeldReader::compile]. *)
Definition held_compile (writer : CompiledSchema) (reader_schema : option Schema) : DeserError + Reader :=
  match cs_schema writer with
  | inl reason => inl (SchemaUnavailable reason)
  | inr schema =>
      match build_reader schema reader_schema with
      | inl e => inl (SchemaUnavailable ("schema " +:+ pretty (cs_id writer) +:+
          " cannot be resolved: " +:+ e))
      | inr reader => inr reader
      end
  end.

Definition read_datum (reader : Reader) (datum : list Z) : DeserError + Value :=
  let '(truncated, result) := read_value reader datum in
  if truncated : bool then inl (Malformed "avro datum is truncated")
  else match result with
       | inl e => inl (Malformed ("avro datum decode failed: " +:+ e))
       | inr v => inr v
       end.

Record DecoderCore := mkCore {
  core_mode : Mode;
  core_reader_schema : option Schema;
  core_held : gmap Z Reader;
}.

Definition core_new (m : Mode) (s : option Schema) : DecoderCore := mkCore m s ∅.
Definition core_clone (c : DecoderCore) : DecoderCore := core_new (core_mode c) (core_reader_schema c).

(** A full map loses the first resident id of its iteration. *)
Definition evict (held : gmap Z Reader) : gmap Z Reader :=
  if decide (MAX_HELD_READERS <= size held)%nat then
    match iter Reader held with (victim, _) :: _ => delete victim held | [] => held end
  else held.

Definition core_decode (payload : list Z) (now : Z) (c : DecoderCore) (r : Registry)
    : (DeserError + option Value) * DecoderCore * Registry :=
  let '(x, m, r) := resolve_payload payload (core_mode c) now r in
  let c := mkCore m (core_reader_schema c) (core_held c) in
  match x with
  | inl e => (inl e, c, r)
  | inr None => (inr None, c, r)
  | inr (Some (writer, datum)) =>
      let read reader := match read_datum reader datum with inl e => inl e | inr v => inr (Some v) end in
      match core_held c !! cs_id writer with
      | Some reader => (read reader, c, r)
      | None =>
          match held_compile writer (core_reader_schema c) with
          | inl e => (inl e, c, r)
          | inr built =>
              (read built,
               mkCore m (core_reader_schema c) (<[cs_id writer := built]> (evict (core_held c))), r)
          end
      end
  end.

(** [AvroValueDeserializer::deserialize] and [AvroSerdeDeserializer::deserialize],
    the latter's [from_value] with its rendered error. *)
Definition value_deserialize (payload : list Z) (now : Z) (c : DecoderCore) (r : Registry)
    : Answer Value * DecoderCore * Registry :=
  let '(x, c, r) := core_decode payload now c r in
  (match x with
   | inl e => ([], Some e)
   | inr None => ([], None)
   | inr (Some v) => ([v], None)
   end, c, r).
Definition serde_deserialize {T} (from_value : Value -> string + T) (payload : list Z) (now : Z)
    (c : DecoderCore) (r : Registry) : Answer T * DecoderCore * Registry :=
  let '(x, c, r) := core_decode payload now c r in
  (match x with
   | inl e => ([], Some e)
   | inr None => ([], None)
   | inr (Some v) =>
       match from_value v with
       | inl e => ([], Some (Malformed ("avro record does not match the target type: " +:+ e)))
       | inr x => ([x], None)
       end
   end, c, r).

(** ** The running system *)

(** An answer the registry gave, to the fetch of an id or to the pre-warm of a
    subject, and when it was applied. *)
Inductive Heard :=
  | HFetch (id : Z) (answer : Response) (at_ : Z)
  | HPre (subject : string) (answer : Response) (at_ : Z).

(** [sy_handles] are the memos of the live handles; [sy_heard], [sy_lost] (the
    ids whose fetch panicked) and [sy_panicked] (the fetcher itself did) are
    history. *)
Record Sys := mkSys {
  sy_reg : Registry;
  sy_now : Z;
  sy_handles : gmap nat (gmap Z Entry);
  sy_pre : Prewarm;
  sy_heard : list Heard;
  sy_lost : gset Z;
  sy_panicked : bool;
}.

Definition sys_new (now : Z) (subjects : list string) : Sys :=
  mkSys (mkRegistry ∅ None [] (Some (mkFetcher ∅ ∅ []))) now {[ 0%nat := ∅ ]} (PreNext subjects) [] ∅ false.

Definition with_reg (r : Registry) (s : Sys) : Sys :=
  mkSys r (sy_now s) (sy_handles s) (sy_pre s) (sy_heard s) (sy_lost s) (sy_panicked s).
Definition with_now (now : Z) (s : Sys) : Sys :=
  mkSys (sy_reg s) now (sy_handles s) (sy_pre s) (sy_heard s) (sy_lost s) (sy_panicked s).
Definition with_handles (m : gmap nat (gmap Z Entry)) (s : Sys) : Sys :=
  mkSys (sy_reg s) (sy_now s) m (sy_pre s) (sy_heard s) (sy_lost s) (sy_panicked s).
Definition with_pre (p : Prewarm) (s : Sys) : Sys :=
  mkSys (sy_reg s) (sy_now s) (sy_handles s) p (sy_heard s) (sy_lost s) (sy_panicked s).
Definition hear (h : Heard) (s : Sys) : Sys :=
  mkSys (sy_reg s) (sy_now s) (sy_handles s) (sy_pre s) (sy_heard s ++ [h]) (sy_lost s) (sy_panicked s).
Definition lose (id : Z) (s : Sys) : Sys :=
  mkSys (sy_reg s) (sy_now s) (sy_handles s) (sy_pre s) (sy_heard s) ({[id]} ∪ sy_lost s) (sy_panicked s).

(** The fetcher is over: its channel's ids and its tasks go with it. *)
Definition fetcher_end (panicked : bool) (s : Sys) : Sys :=
  mkSys (mkRegistry (r_cache (sy_reg s)) (r_rejection (sy_reg s)) [] None)
    (sy_now s) (sy_handles s) (sy_pre s) (sy_heard s) (sy_lost s) (sy_panicked s || panicked).

Inductive Label :=
  | LTime (d : Z)
  | LPayload (h : nat) (payload : list Z)
  | LClone (h h' : nat)
  | LDrop (h : nat)
  | LRecv (d : Z)
  | LJoin (i : nat)
  | LClose
  | LAnswer (i : nat) (answer : Response) (d : Z)
  | LTaskPanic (i : nat)
  | LPreNext
  | LPreAnswer (answer : Response).

(** [recv] is polled when no task has finished and a slot is free. *)
Definition receiving (f : Fetcher) : bool :=
  negb (existsb finished (tasks f)) && bool_decide (length (tasks f) < MAX_CONCURRENT_FETCHES)%nat.

Definition on_tasks (ts : list FetchTask) (f : Fetcher) : Fetcher := mkFetcher (in_flight f) (backoffs f) ts.

(** The fetcher's own steps, [f] being its state. *)
Definition fetcher_step (l : Label) (f : Fetcher) (s : Sys) : option Sys :=
  let r := sy_reg s in
  match l with
  | LRecv d =>
      if receiving f && bool_decide (0 <= d) then
        match r_queue r with
        | id :: queue =>
            let f := fetcher_recv id (sy_now s) (sy_now s + d) (r_cache r) f in
            Some (with_now (sy_now s + d) (with_reg (with_fetcher (Some f) (with_queue queue r)) s))
        | [] => None
        end
      else None
  | LJoin i =>
      t ← tasks f !! i;
      if finished t then
        Some match fetcher_join i t (sy_now s) f with
             | Some f => with_reg (with_fetcher (Some f) r) s
             | None => fetcher_end true s
             end
      else None
  | LClose =>
      if receiving f && bool_decide (r_queue r = []) && bool_decide (sy_handles s = ∅)
      then Some (fetcher_end false s) else None
  | LAnswer i answer d =>
      match tasks f !! i with
      | Some (Running id) =>
          if decide (0 <= d) then
            let '(outcome, r) := fetch_one id answer (sy_now s) (sy_now s + d) r in
            let f := on_tasks (<[i := Finished id outcome]> (tasks f)) f in
            Some (hear (HFetch id answer (sy_now s + d))
              (with_now (sy_now s + d) (with_reg (with_fetcher (Some f) r) s)))
          else None
      | _ => None
      end
  | LTaskPanic i =>
      match tasks f !! i with
      | Some (Running id) =>
          Some (lose id (with_reg (with_fetcher (Some (on_tasks (<[i := TaskPanicked]> (tasks f)) f)) r) s))
      | _ => None
      end
  | _ => None
  end.

Definition sys_step (l : Label) (s : Sys) : option Sys :=
  match l with
  | LTime d => if decide (0 <= d) then Some (with_now (sy_now s + d) s) else None
  | LPayload h payload =>
      memo ← sy_handles s !! h;
      match resolve_payload payload (Confluent memo) (sy_now s) (sy_reg s) with
      | (_, Confluent memo, r) => Some (with_handles (<[h := memo]> (sy_handles s)) (with_reg r s))
      | _ => None
      end
  | LClone h h' =>
      memo ← sy_handles s !! h;
      if decide (sy_handles s !! h' = None) then Some (with_handles (<[h' := memo]> (sy_handles s)) s)
      else None
  | LDrop h => Some (with_handles (delete h (sy_handles s)) s)
  | LPreNext =>
      match sy_pre s with
      | PreNext subjects => Some (with_pre (prewarm_next subjects (sy_reg s)) s)
      | _ => None
      end
  | LPreAnswer answer =>
      match sy_pre s with
      | PreAsked subject rest =>
          Some (hear (HPre subject answer (sy_now s)) (with_pre (PreNext rest)
            (with_reg (prewarm_answer subject answer (sy_now s) (sy_reg s)) s)))
      | _ => None
      end
  | _ => f ← r_fetcher (sy_reg s); fetcher_step l f s
  end.

Definition sys_next (s s' : Sys) : Prop := exists l, sys_step l s = Some s'.
Definition sys_reach (s : Sys) : Prop :=
  exists now subjects, rtc sys_next (sys_new now subjects) s.
End registry.
End iteration.
