(* ===== verification/AvroSourceProofs.v ===== *)
(** * Properties of the Avro schema cache, fetcher and deserializers

    Every schema a payload is resolved to, every payload called undecodable and
    every fatal rejection is justified by an answer the registry gave, in every
    interleaving of pipeline threads, the fetcher and the pre-warm; the fetcher's
    books and the cache stay within their bounds; a payload whose schema the
    registry can serve is resolved; and the deserializers' caches change nothing
    about what they decode. *)

From stdpp Require Import base list gmap strings pretty.
From Stdlib Require Import ZArith Lia.
From S2P Require Import Prelude EndCheck Backoff Chain AvroDatum AvroProofs AvroSafety AvroSource.

(** ** The cache *)

Definition is_failed (e : Entry) : bool := match e with EFailed _ _ => true | EReady _ => false end.

Section cache.
Variable iter : forall A : Type, gmap Z A -> list (Z * A).
Hypothesis Hiter : forall A (m : gmap Z A), iter A m ≡ₚ map_to_list m.

Definition failed_stamp (x : Z * Entry) : option (Z * Z) :=
  match x.2 with EFailed _ at_ => Some (x.1, at_) | EReady _ => None end.

(** The negative entries, counted over any listing. *)
Definition failures (m : gmap Z Entry) : nat := length (omap failed_stamp (map_to_list m)).

Lemma negative_length m : length (negative iter m) = failures m.
Proof. unfold negative, failures. apply Permutation_length. by rewrite Hiter. Qed.

Lemma negative_elem m id t :
  (id, t) ∈ negative iter m -> exists reason, m !! id = Some (EFailed reason t).
Proof.
  unfold negative. rewrite list_elem_of_omap. intros ([i e] & Hin & He). cbn in He.
  destruct e as [|reason t']; [done|]. injection He as -> ->. exists reason.
  rewrite Hiter in Hin. by apply elem_of_map_to_list in Hin.
Qed.

Lemma oldest_elem l : l <> [] -> exists x, oldest_negative l = Some x /\ x ∈ l.
Proof.
  induction l as [|x l IH]; [done|]. intros _. cbn [oldest_negative]. destruct l as [|y l].
  - exists x. split; [done|left].
  - destruct IH as (z & -> & Hz); [done|]. case_decide; eexists; (split; [done|]); [by right|left].
Qed.

Lemma failures_insert m id e :
  m !! id = None -> failures (<[id := e]> m) = ((if is_failed e then 1 else 0) + failures m)%nat.
Proof.
  intros Hm. unfold failures. rewrite (Permutation_length (l' := omap failed_stamp ((id, e) :: map_to_list m))).
  - by destruct e.
  - by rewrite map_to_list_insert.
Qed.

Lemma failures_delete m id e :
  m !! id = Some e -> failures m = ((if is_failed e then 1 else 0) + failures (delete id m))%nat.
Proof.
  intros Hm. rewrite <- (insert_delete_id m id e Hm) at 1. apply failures_insert, lookup_delete_eq.
Qed.

Lemma failures_insert_le m id e :
  (failures (<[id := e]> m) <= (if is_failed e then 1 else 0) + failures m)%nat.
Proof.
  rewrite <- insert_delete_eq, failures_insert by apply lookup_delete_eq.
  destruct (m !! id) as [e'|] eqn:Em; [rewrite (failures_delete m id e' Em); lia|].
  by rewrite delete_id.
Qed.

Lemma failures_replace m id e reason t :
  m !! id = Some (EFailed reason t) -> (failures (<[id := e]> m) <= failures m)%nat.
Proof.
  intros Hm. rewrite <- insert_delete_eq, failures_insert by apply lookup_delete_eq.
  rewrite (failures_delete m id _ Hm). destruct (is_failed e); cbn; lia.
Qed.

Lemma failures_live ttl now m : (failures (live_copy ttl now m) <= failures m)%nat.
Proof.
  unfold live_copy. induction m as [|id e m Hm IH] using map_ind; [done|].
  rewrite failures_insert by done. destruct (entry_live ttl now e) eqn:El.
  - rewrite map_filter_insert_True by done. rewrite failures_insert; [lia|].
    by apply map_lookup_filter_None_2; left.
  - rewrite map_filter_insert_False by (cbn; congruence). rewrite delete_id by done. lia.
Qed.

Lemma live_lookup ttl now m id e :
  live_copy ttl now m !! id = Some e <-> m !! id = Some e /\ entry_live ttl now e = true.
Proof. unfold live_copy. by rewrite map_lookup_filter_Some. Qed.

Lemma room_lookup id m i e :
  make_room iter id m !! i = Some e -> m !! i = Some e.
Proof.
  unfold make_room. destruct (_ && _); [|done]. destruct (oldest_negative _) as [x|]; [|done].
  intros H. by apply lookup_delete_Some in H as [_ H].
Qed.

Lemma room_ready id m i c : m !! i = Some (EReady c) -> make_room iter id m !! i = Some (EReady c).
Proof.
  intros Hm. unfold make_room. destruct (_ && _) eqn:E; [|done]. apply andb_true_iff in E as [_ E].
  apply bool_decide_eq_true_1 in E.
  destruct (oldest_elem (negative iter m)) as ([j t] & Ho & Hin).
  { intros Hn. rewrite Hn in E. unfold MAX_NEGATIVE_ENTRIES in E. cbn in E. lia. }
  rewrite Ho. destruct (negative_elem _ _ _ Hin) as [reason Hj].
  cbn. rewrite lookup_delete_ne; [done|]. intros ->. by rewrite Hm in Hj.
Qed.

Lemma room_count id m :
  (failures m <= MAX_NEGATIVE_ENTRIES)%nat -> m !! id = None ->
  (failures (make_room iter id m) < MAX_NEGATIVE_ENTRIES)%nat.
Proof.
  intros Hf Hm. unfold make_room. rewrite negative_length, bool_decide_true by done. cbn [andb].
  destruct (bool_decide _) eqn:E; [apply bool_decide_eq_true_1 in E|apply bool_decide_eq_false_1 in E; lia].
  destruct (oldest_elem (negative iter m)) as ([j t] & -> & Hin).
  { intros Hn. apply (f_equal length) in Hn. rewrite negative_length in Hn.
    unfold MAX_NEGATIVE_ENTRIES in *. cbn in Hn. lia. }
  destruct (negative_elem _ _ _ Hin) as [reason Hj]. pose proof (failures_delete _ _ _ Hj) as Hd.
  cbn in Hd |- *. lia.
Qed.

(** *** What an insertion leaves *)
Lemma failed_ready ttl now stamp id reason m i c :
  insert_failed iter ttl now stamp id reason m !! i = Some (EReady c) <-> m !! i = Some (EReady c).
Proof.
  unfold insert_failed. destruct (m !! id) as [[c0|r0 t0]|] eqn:Em; [done| |].
  all: rewrite lookup_insert_Some; split.
  all: try (intros [[_ H]|[_ H]]; [done|]; apply room_lookup, live_lookup in H; apply H).
  all: intros Hi; right; split; [intros ->; by rewrite Em in Hi|]; apply room_ready, live_lookup; done.
Qed.

Lemma failed_failed ttl now stamp id reason m i r t :
  insert_failed iter ttl now stamp id reason m !! i = Some (EFailed r t) ->
  (i = id /\ r = reason /\ t = stamp) \/ m !! i = Some (EFailed r t).
Proof.
  unfold insert_failed. destruct (m !! id) as [[c0|r0 t0]|] eqn:Em; [by right| |].
  all: rewrite lookup_insert_Some; intros [[-> [= -> ->]]|[_ H]]; [by left|right].
  all: apply room_lookup, live_lookup in H; apply H.
Qed.

Lemma room_insert_count id m reason stamp :
  (failures m <= MAX_NEGATIVE_ENTRIES)%nat -> (forall c, m !! id <> Some (EReady c)) ->
  (failures (<[id := EFailed reason stamp]> (make_room iter id m)) <= MAX_NEGATIVE_ENTRIES)%nat.
Proof.
  intros Hm Hr. destruct (m !! id) as [[c|r t]|] eqn:Em; [by destruct (Hr c)| |].
  - unfold make_room. rewrite bool_decide_false by (by rewrite Em). cbn [andb].
    pose proof (failures_replace m id (EFailed reason stamp) r t Em). lia.
  - pose proof (room_count id m Hm Em). pose proof (failures_insert_le (make_room iter id m) id (EFailed reason stamp)).
    cbn in *. lia.
Qed.

Lemma failed_count ttl now stamp id reason m :
  (failures m <= MAX_NEGATIVE_ENTRIES)%nat ->
  (failures (insert_failed iter ttl now stamp id reason m) <= MAX_NEGATIVE_ENTRIES)%nat.
Proof.
  intros Hm. unfold insert_failed. pose proof (failures_live ttl now m) as Hl.
  destruct (m !! id) as [[c0|r0 t0]|] eqn:Em; [done| |].
  all: apply room_insert_count; [lia|]; intros c [Hc _]%live_lookup; congruence.
Qed.

Lemma ready_lookup ttl now c m i e :
  insert_ready ttl now c m !! i = Some e ->
  (i = cs_id c /\ e = EReady c) \/ m !! i = Some e.
Proof.
  unfold insert_ready. rewrite lookup_insert_Some. intros [[<- <-]|[_ H]]; [by left|right].
  by apply live_lookup in H as [H _].
Qed.

Lemma ready_ready ttl now c m i :
  (i = cs_id c \/ exists c', m !! i = Some (EReady c')) ->
  exists c', insert_ready ttl now c m !! i = Some (EReady c').
Proof.
  unfold insert_ready. intros Hi. destruct (decide (i = cs_id c)) as [->|Hne].
  - exists c. apply lookup_insert_eq.
  - destruct Hi as [|[c' Hc]]; [done|]. exists c'. rewrite lookup_insert_ne by done.
    by apply live_lookup.
Qed.

Lemma ready_count ttl now c m :
  (failures m <= MAX_NEGATIVE_ENTRIES)%nat ->
  (failures (insert_ready ttl now c m) <= MAX_NEGATIVE_ENTRIES)%nat.
Proof.
  intros Hm. unfold insert_ready. pose proof (failures_live ttl now m).
  pose proof (failures_insert_le (live_copy ttl now m) (cs_id c) (EReady c)). cbn in *. lia.
Qed.

(** ** The registry's answers *)

Variable L : AvroLib.
Variable ttl : Z.
Variable url : string.

(** The schema an answer about [id] carries, if the deserializers can use it. *)
Definition serves (id : Z) (x : RegistrySchema) : option CompiledSchema :=
  let c := compile L id (rs_schema x) in
  match unsupported x id, unusable_reason c with
  | None, None => Some c
  | _, _ => None
  end.

(** It taught the schema of [id]; it is a permanent verdict that [id] has none; it
    turned the client away. *)
Definition teaches (e : Heard) (id : Z) (c : CompiledSchema) : Prop :=
  match e with
  | HFetch id' (Registered x) _ => id' = id /\ serves id x = Some c
  | HPre _ (Registered x) _ => rs_id x = Some id /\ serves id x = Some c
  | _ => False
  end.

Definition verdict (id : Z) (answer : Response) : option string :=
  match answer with
  | Registered x =>
      match unsupported x id with
      | Some reason => Some reason
      | None => unusable_reason (compile L id (rs_schema x))
      end
  | Status code text =>
      if decide (code = 404)
      then Some ("registry fetch for schema " +:+ pretty id +:+ " failed: " +:+ text) else None
  | _ => None
  end.

Definition refuses (e : Heard) : option string :=
  match e with
  | HFetch id (Status code text) _ =>
      if decide (code = 401 \/ code = 403) then
        Some ("schema registry " +:+ url +:+ " refused the fetch of schema " +:+ pretty id +:+ ": " +:+ text)
      else None
  | HPre subject (Status code text) _ =>
      if decide (code = 401) then
        Some ("schema registry " +:+ url +:+ " refused the pre-warm of subject " +:+ subject +:+ ": " +:+ text)
      else None
  | HFetch _ (Rejected reason) _ | HPre _ (Rejected reason) _ => Some reason
  | _ => None
  end.

Lemma compile_id id json : cs_id (compile L id json) = id.
Proof. unfold compile. by destruct (try_compile L id json) as [[[e|s] d]|]. Qed.

Lemma serves_id id x c : serves id x = Some c -> cs_id c = id.
Proof.
  unfold serves. destruct (unsupported x id); [done|].
  destruct (unusable_reason (compile L id (rs_schema x))); [done|]. intros [= <-]. apply compile_id.
Qed.

(** *** What an answer does to the registry *)

Inductive Effect :=
  | Learn (c : CompiledSchema)
  | Condemn (id : Z) (reason : string)
  | Turned (reason : string)
  | Nothing.

Definition effect (e : Heard) : Effect :=
  match e with
  | HFetch id answer _ =>
      match answer, verdict id answer, refuses e with
      | Registered x, None, _ => Learn (compile L id (rs_schema x))
      | _, Some reason, _ => Condemn id reason
      | _, _, Some reason => Turned reason
      | _, _, _ => Nothing
      end
  | HPre _ answer _ =>
      match answer, refuses e with
      | Registered x, _ =>
          match rs_id x with
          | Some id => match serves id x with Some c => Learn c | None => Nothing end
          | None => Nothing
          end
      | _, Some reason => Turned reason
      | _, _ => Nothing
      end
  end.

Definition apply_effect (x : Effect) (now stamp : Z) (r : Registry) : Registry :=
  match x with
  | Learn c => with_cache (insert_ready ttl now c (r_cache r)) r
  | Condemn id reason => with_cache (insert_failed iter ttl now stamp id reason (r_cache r)) r
  | Turned reason => record_rejection reason r
  | Nothing => r
  end.

Lemma fetch_effect id answer now stamp r :
  (fetch_one iter L ttl url id answer now stamp r).2 =
    apply_effect (effect (HFetch id answer stamp)) now stamp r.
Proof.
  unfold fetch_one, effect, verdict, refuses. destruct answer as [x|code text|reason|text]; try done.
  - cbn. destruct (unsupported x id) as [reason|]; [done|]. by destruct (unusable_reason _).
  - destruct (decide (code = 404)) as [->|]; [done|]. by destruct (decide _).
Qed.

Lemma prewarm_effect subject answer now r :
  prewarm_answer L ttl url subject answer now r =
    apply_effect (effect (HPre subject answer now)) now now r.
Proof.
  unfold prewarm_answer, effect, refuses. destruct answer as [x|code text|reason|text]; try done.
  - destruct (rs_id x) as [id|]; [|done]. unfold serves.
    destruct (unsupported x id) as [reason|]; [done|]. by destruct (unusable_reason _).
  - by destruct (decide _).
Qed.

Lemma teaches_effect e id c : teaches e id c <-> effect e = Learn c /\ cs_id c = id.
Proof.
  unfold teaches, effect, verdict, serves.
  destruct e as [i [x|code text|reason|text] t|subject [x|code text|reason|text] t]; cbn [refuses].
  - destruct (unsupported x i) as [r|] eqn:Eu.
    { split; [intros [<- H]; by rewrite Eu in H|by intros [[=] _]]. }
    destruct (unusable_reason (compile L i (rs_schema x))) eqn:Er.
    { split; [intros [<- H]; by rewrite Eu, Er in H|by intros [[=] _]]. }
    split; [intros [<- H]; rewrite Eu, Er in H; injection H as <-; by rewrite compile_id|].
    intros [[= <-] <-]. rewrite compile_id. by rewrite Eu, Er.
  - split; [done|]. by destruct (decide (code = 404)), (decide (code = 401 \/ code = 403)); intros [[=] _].
  - by split; [|intros [[=] _]].
  - by split; [|intros [[=] _]].
  - destruct (rs_id x) as [i|]; [|split; [by intros [[=] _]|by intros [[=] _]]].
    destruct (unsupported x i) as [r|] eqn:Eu.
    { split; [intros [[= <-] H]; by rewrite Eu in H|by intros [[=] _]]. }
    destruct (unusable_reason (compile L i (rs_schema x))) eqn:Er.
    { split; [intros [[= <-] H]; by rewrite Eu, Er in H|by intros [[=] _]]. }
    split; [intros [[= <-] H]; rewrite Eu, Er in H; injection H as <-; by rewrite compile_id|].
    intros [[= <-] <-]. rewrite compile_id. by rewrite Eu, Er.
  - split; [done|]. by destruct (decide (code = 401)); intros [[=] _].
  - by split; [|intros [[=] _]].
  - by split; [|intros [[=] _]].
Qed.

Definition heard_at (e : Heard) : Z := match e with HFetch _ _ t | HPre _ _ t => t end.

Lemma condemn_effect e id reason :
  effect e = Condemn id reason ->
  exists answer, e = HFetch id answer (heard_at e) /\ verdict id answer = Some reason.
Proof.
  destruct e as [i answer t|subject [x|code text|r|text] t]; cbn.
  - intros H. exists answer. destruct answer as [x|code text|r|text]; cbn in *; try done.
    + destruct (unsupported x i) as [r|] eqn:Eu; [injection H as -> ->; by rewrite Eu|].
      destruct (unusable_reason (compile L i (rs_schema x))) eqn:Er; [|done].
      injection H as -> ->. by rewrite Eu, Er.
    + destruct (decide (code = 404)); [by injection H as -> <-|]. by destruct (decide _).
  - destruct (rs_id x); [|done]. by destruct (serves _ x).
  - by destruct (decide _).
  - done.
  - done.
Qed.

Lemma turned_effect e reason : effect e = Turned reason -> refuses e = Some reason.
Proof.
  destruct e as [i [x|code text|r|text] t|subject [x|code text|r|text] t]; cbn; try done.
  - destruct (unsupported x i); [done|]. by destruct (unusable_reason _).
  - destruct (decide (code = 404)); [done|]. by destruct (decide _); intros [= ->].
  - by intros [= ->].
  - destruct (rs_id x); [|done]. by destruct (serves _ x).
  - by destruct (decide _); intros [= ->].
  - by intros [= ->].
Qed.

(** ** Every entry is justified *)

Definition taught (hs : list Heard) (id : Z) (c : CompiledSchema) : Prop :=
  exists e, e ∈ hs /\ teaches e id c.

Record sound (s : Sys) : Prop := mk_sound {
  so_ready : forall id c, r_cache (sy_reg s) !! id = Some (EReady c) -> taught (sy_heard s) id c;
  so_memo : forall h memo id c, sy_handles s !! h = Some memo -> memo !! id = Some (EReady c) ->
    taught (sy_heard s) id c;
  so_taught : forall id c, taught (sy_heard s) id c ->
    exists c', r_cache (sy_reg s) !! id = Some (EReady c');
  so_failed : forall id reason t, r_cache (sy_reg s) !! id = Some (EFailed reason t) ->
    t <= sy_now s /\ exists answer, HFetch id answer t ∈ sy_heard s /\ verdict id answer = Some reason;
  so_rejected : forall reason, r_rejection (sy_reg s) = Some reason ->
    exists e, e ∈ sy_heard s /\ refuses e = Some reason;
  so_count : (failures (r_cache (sy_reg s)) <= MAX_NEGATIVE_ENTRIES)%nat;
}.

Lemma taught_app hs e id c : taught hs id c -> taught (hs ++ [e]) id c.
Proof. intros (x & Hx & Ht). exists x. split; [apply elem_of_app; by left|done]. Qed.

Lemma taught_snoc hs e id c : taught (hs ++ [e]) id c -> taught hs id c \/ teaches e id c.
Proof.
  intros (x & [Hx|Hx%list_elem_of_singleton]%elem_of_app & Ht); [left; by exists x|subst x; by right].
Qed.

Lemma sound_quiet s s' :
  sound s -> r_cache (sy_reg s') = r_cache (sy_reg s) ->
  r_rejection (sy_reg s') = r_rejection (sy_reg s) -> sy_heard s' = sy_heard s ->
  sy_now s <= sy_now s' ->
  (forall h memo, sy_handles s' !! h = Some memo ->
     memo = r_cache (sy_reg s) \/ exists h', sy_handles s !! h' = Some memo) ->
  sound s'.
Proof.
  intros [Hr Hm Ht Hf Hj Hc] Ec Ej Eh Hnow Hh. constructor; rewrite ?Ec, ?Ej, ?Eh; try done.
  - intros h memo id c Hl. destruct (Hh h memo Hl) as [->|[h' Hl']]; [apply Hr|by apply (Hm h')].
  - intros id reason t Hl. destruct (Hf id reason t Hl). split; [lia|done].
Qed.

Lemma sound_answer s s' e :
  sound s ->
  r_cache (sy_reg s') = r_cache (apply_effect (effect e) (sy_now s) (sy_now s') (sy_reg s)) ->
  r_rejection (sy_reg s') = r_rejection (apply_effect (effect e) (sy_now s) (sy_now s') (sy_reg s)) ->
  sy_heard s' = sy_heard s ++ [e] -> heard_at e = sy_now s' -> sy_now s <= sy_now s' ->
  sy_handles s' = sy_handles s -> sound s'.
Proof.
  intros [Hr Hm Ht Hf Hj Hc] Ec Ej Eh Eat Hnow Ehs.
  assert (Hold : forall x, x ∈ sy_heard s -> x ∈ sy_heard s').
  { intros x Hx. rewrite Eh. apply elem_of_app. by left. }
  assert (Hnew : e ∈ sy_heard s') by (rewrite Eh; apply elem_of_app; right; by left).
  assert (Hmono : forall id c, taught (sy_heard s) id c -> taught (sy_heard s') id c).
  { intros id c. rewrite Eh. apply taught_app. }
  constructor; rewrite ?Ec, ?Ej, ?Ehs.
  - intros id c Hl. destruct (effect e) as [c0|i reason|reason|] eqn:Ee; cbn in Hl; try by apply Hmono, Hr.
    + apply ready_lookup in Hl as [[-> [= ->]]|Hl]; [|by apply Hmono, Hr].
      exists e. split; [done|]. by apply teaches_effect.
    + apply Hmono, Hr. by apply failed_ready in Hl.
    + unfold record_rejection in Hl. destruct (r_rejection _); by apply Hmono, Hr.
  - intros h memo id c Hl Hl'. by apply Hmono, (Hm h memo).
  - intros id c Hx. rewrite Eh in Hx. apply taught_snoc in Hx as [Hx|[Hx Hid]%teaches_effect].
    + destruct (Ht id c Hx) as [c' Hl]. destruct (effect e) as [c0|i reason|reason|]; cbn.
      * apply ready_ready. right. by exists c'.
      * exists c'. by apply failed_ready.
      * exists c'. unfold record_rejection. by destruct (r_rejection _).
      * by exists c'.
    + rewrite Hx. cbn. apply ready_ready. by left.
  - intros id reason t Hl. destruct (effect e) as [c0|i r|r|] eqn:Ee; cbn in Hl.
    + apply ready_lookup in Hl as [[_ [=]]|Hl]. destruct (Hf _ _ _ Hl) as (? & a & ? & ?).
      split; [lia|]. exists a. eauto.
    + apply failed_failed in Hl as [(-> & -> & ->)|Hl].
      * destruct (condemn_effect _ _ _ Ee) as (a & He & Hv). split; [lia|]. exists a.
        rewrite <- Eat, <- He. done.
      * destruct (Hf _ _ _ Hl) as (? & a & ? & ?). split; [lia|]. exists a. eauto.
    + assert (Hl' : r_cache (sy_reg s) !! id = Some (EFailed reason t)).
      { revert Hl. unfold record_rejection. by destruct (r_rejection _). }
      destruct (Hf _ _ _ Hl') as (? & a & ? & ?). split; [lia|]. exists a. eauto.
    + destruct (Hf _ _ _ Hl) as (? & a & ? & ?). split; [lia|]. exists a. eauto.
  - intros reason Hl. assert (Hkeep : r_rejection (sy_reg s) = Some reason ->
      exists x, x ∈ sy_heard s' /\ refuses x = Some reason).
    { intros H. destruct (Hj _ H) as (x & ? & ?). exists x. eauto. }
    destruct (effect e) as [c0|i r|r|] eqn:Ee; cbn in Hl; try by apply Hkeep.
    unfold record_rejection in Hl. destruct (r_rejection (sy_reg s)) eqn:Er; cbn in Hl.
    + apply Hkeep. congruence.
    + injection Hl as ->. exists e. split; [done|]. by apply turned_effect.
  - destruct (effect e); cbn; [by apply ready_count|by apply failed_count| |done].
    unfold record_rejection. by destruct (r_rejection _).
Qed.

(** *** Every step keeps it *)

Local Notation step := (sys_step iter L ttl url).
Local Notation next := (sys_next iter L ttl url).

(** A payload leaves the cache as it is, and its handle with its memo or the
    cache's. *)
Lemma confluent_frame payload memo now r x memo' r' :
  resolve_payload ttl payload (Confluent memo) now r = (x, Confluent memo', r') ->
  r_cache r' = r_cache r /\ r_rejection r' = r_rejection r /\ r_fetcher r' = r_fetcher r /\
  (memo' = memo \/ memo' = r_cache r).
Proof.
  unfold resolve_payload. destruct payload as [|b payload]; [intros [= _ <- <-]; by eauto|].
  unfold resolve_confluent. destruct (parse_confluent _) as [e|[id datum]]; [intros [= _ <- <-]; by eauto|].
  unfold lookup_memo. destruct (eval memo id ttl now) as [[c|reason|]|] eqn:Em.
  1: intros [= _ <- <-]; by eauto.
  all: destruct (default Missing (eval (r_cache r) id ttl now)) as [c|reason'|]; cbn.
  all: try (intros [= _ <- <-]; by eauto).
  all: destruct (r_rejection r) eqn:Er; intros [= _ <- <-]; try by eauto.
  all: unfold request_fetch; destruct (r_fetcher r) eqn:Ef; cbn; rewrite ?Ef; by eauto.
Qed.

Lemma confluent_mode payload memo now r :
  exists x memo' r', resolve_payload ttl payload (Confluent memo) now r = (x, Confluent memo', r').
Proof.
  unfold resolve_payload. destruct payload as [|b payload]; [by eauto|].
  destruct (resolve_confluent _ _ _ _ _) as [[x memo'] r']. by eauto.
Qed.

Lemma effect_frame e now stamp r :
  r_queue (apply_effect e now stamp r) = r_queue r /\ r_fetcher (apply_effect e now stamp r) = r_fetcher r.
Proof. destruct e; try done. cbn. unfold record_rejection. by destruct (r_rejection r). Qed.

Lemma sound_step l s s' : step l s = Some s' -> sound s -> sound s'.
Proof.
  intros Hst Hs.
  destruct l as [d|h payload|h h'|h|d|i| |i answer d|i| |answer]; cbn [sys_step] in Hst.
  - destruct (decide (0 <= d)); [|done]. injection Hst as <-.
    apply (sound_quiet s); try done; [cbn; lia|by eauto].
  - destruct (sy_handles s !! h) as [memo|] eqn:Eh; [|done]. cbn in Hst.
    destruct (confluent_mode payload memo (sy_now s) (sy_reg s)) as (x & memo' & r' & Hx).
    rewrite Hx in Hst. injection Hst as <-. destruct (confluent_frame _ _ _ _ _ _ _ Hx) as (? & ? & ? & Hm).
    apply (sound_quiet s); try done. cbn. intros h' m [[<- <-]|[_ Hl]]%lookup_insert_Some; [|by eauto].
    destruct Hm as [-> | ->]; by eauto.
  - destruct (sy_handles s !! h) as [memo|] eqn:Eh; [|done]. cbn in Hst.
    destruct (decide _); [|done]. injection Hst as <-. apply (sound_quiet s); try done.
    cbn. intros h2 m [[<- <-]|[_ Hl]]%lookup_insert_Some; by eauto.
  - injection Hst as <-. apply (sound_quiet s); try done.
    cbn. intros h2 m [_ Hl]%lookup_delete_Some. by eauto.
  - destruct (r_fetcher _) as [f|]; [|done]. cbn in Hst. destruct (receiving f && _) eqn:E; [|done].
    apply andb_true_iff in E as [_ E%bool_decide_eq_true_1].
    destruct (r_queue (sy_reg s)) as [|id q]; [done|]. injection Hst as <-.
    apply (sound_quiet s); try done; [cbn; lia|by eauto].
  - destruct (r_fetcher _) as [f|]; [|done]. cbn in Hst. destruct (tasks f !! i) as [t|]; [|done].
    cbn in Hst. destruct (finished t); [|done]. injection Hst as <-.
    destruct (fetcher_join i t (sy_now s) f); (apply (sound_quiet s); [done..|by eauto]).
  - destruct (r_fetcher _) as [f|]; [|done]. cbn in Hst. destruct (_ && _); [|done]. injection Hst as <-.
    apply (sound_quiet s); [done..|by eauto].
  - destruct (r_fetcher _) as [f|]; [|done]. cbn in Hst. destruct (tasks f !! i) as [[id| |]|]; try done.
    destruct (decide (0 <= d)); [|done].
    pose proof (fetch_effect id answer (sy_now s) (sy_now s + d) (sy_reg s)) as He.
    destruct (fetch_one _ _ _ _ _ _ _ _ _) as [o r]. cbn in He. injection Hst as <-.
    apply (sound_answer s _ (HFetch id answer (sy_now s + d))); try done; cbn; [by rewrite <- He..|lia].
  - destruct (r_fetcher _) as [f|]; [|done]. cbn in Hst. destruct (tasks f !! i) as [[id| |]|]; try done.
    injection Hst as <-. apply (sound_quiet s); [done..|by eauto].
  - destruct (sy_pre s); try done. injection Hst as <-. apply (sound_quiet s); [done..|by eauto].
  - destruct (sy_pre s) as [| |]; try done. injection Hst as <-.
    apply (sound_answer s _ (HPre subject answer (sy_now s))); try done; cbn; by rewrite prewarm_effect.
Qed.

Lemma sound_new now subjects : sound (sys_new now subjects).
Proof.
  constructor; cbn; try done.
  - by intros h memo id c [<- <-]%lookup_singleton_Some Hl.
  - intros id c (e & He & _). by apply elem_of_nil in He.
  - unfold failures. rewrite map_to_list_empty. cbn. lia.
Qed.

Lemma sound_reach s : sys_reach iter L ttl url s -> sound s.
Proof.
  intros (now & subjects & Hr). assert (Hs : sound (sys_new now subjects)) by apply sound_new.
  induction Hr as [s|s s1 s2 [l Hl] _ IH]; [done|]. apply IH. by eapply sound_step.
Qed.

(** *** What a payload is told *)

Definition justified (s : Sys) (payload : list Z) (x : Resolution) (after : Registry) : Prop :=
  match x with
  | inr None => payload = []
  | inr (Some (c, datum)) =>
      exists id, parse_confluent payload = inr (id, datum) /\ taught (sy_heard s) id c
  | inl e =>
      payload <> [] /\
      match parse_confluent payload with
      | inl e' => e = e'
      | inr (id, _) =>
          (forall c, ~ taught (sy_heard s) id c) /\
          match e with
          | Malformed _ => False
          | SchemaUnavailable reason => exists answer t,
              HFetch id answer t ∈ sy_heard s /\ verdict id answer = Some reason /\
              t <= sy_now s < t + ttl
          | DeserNotReady _ =>
              r_rejection (sy_reg s) = None /\
              (is_Some (r_fetcher (sy_reg s)) -> id ∈ r_queue after)
          | DeserFatal reason => exists e, e ∈ sy_heard s /\ refuses e = Some reason
          end
      end
  end.

Lemma memo_eval memo id now :
  (exists c, memo !! id = Some (EReady c) /\ eval memo id ttl now = Some (Ready c)) \/
  ((forall c, memo !! id <> Some (EReady c)) /\ forall c, eval memo id ttl now <> Some (Ready c)).
Proof.
  unfold eval. destruct (memo !! id) as [[c|reason t]|]; [left; by exists c| |by right].
  right. split; [done|]. by destruct (decide _).
Qed.

Lemma lookup_told s h memo id :
  sound s -> sy_handles s !! h = Some memo ->
  match (lookup_memo (r_cache (sy_reg s)) memo id ttl (sy_now s)).1 with
  | Ready c => taught (sy_heard s) id c
  | LookupFailed reason => (forall c, ~ taught (sy_heard s) id c) /\ exists answer t,
      HFetch id answer t ∈ sy_heard s /\ verdict id answer = Some reason /\ t <= sy_now s < t + ttl
  | Missing => forall c, ~ taught (sy_heard s) id c
  end.
Proof.
  intros [Hr Hm Ht Hf Hj Hc] Hh. unfold lookup_memo.
  destruct (memo_eval memo id (sy_now s)) as [(c & Hl & ->)|[_ Hno]]; [by apply (Hm h memo)|].
  assert (Hun : (forall c, r_cache (sy_reg s) !! id <> Some (EReady c)) ->
    forall c, ~ taught (sy_heard s) id c).
  { intros Hcold c Hx. destruct (Ht id c Hx) as [c' Hl]. by apply (Hcold c'). }
  assert (Hcache : match default Missing (eval (r_cache (sy_reg s)) id ttl (sy_now s)) with
    | Ready c => taught (sy_heard s) id c
    | LookupFailed reason => (forall c, ~ taught (sy_heard s) id c) /\ exists answer t,
        HFetch id answer t ∈ sy_heard s /\ verdict id answer = Some reason /\ t <= sy_now s < t + ttl
    | Missing => forall c, ~ taught (sy_heard s) id c
    end).
  { unfold eval. destruct (r_cache (sy_reg s) !! id) as [[c|reason t]|] eqn:El; cbn; [by apply Hr| |by apply Hun].
    destruct (decide _) as [|Hlive]; cbn; [by apply Hun|]. split; [by apply Hun|].
    destruct (Hf _ _ _ El) as (Hle & a & Ha & Hv). exists a, t. split_and!; try done.
    unfold sat_sub in Hlive. lia. }
  destruct (eval memo id ttl (sy_now s)) as [[c| |]|]; [by destruct (Hno c)|done..].
Qed.

(** C33: what a payload is told is what the registry said. In every interleaving
    of pipeline threads, fetcher and pre-warm, and for any answers, a payload in
    Confluent framing is resolved to a schema compiled from an answer for its id.
    It is called undecodable only when its framing is broken, or when nothing
    taught its id and a permanent verdict about it is less than the negative TTL
    old: an outage never condemns a record. Otherwise it is told to wait, its id
    being in the fetcher's queue, or stops the pipeline if the registry turned
    the client away. Once taught, an id is resolved by every handle for good. *)
Theorem resolve_justified s h memo payload x m r :
  sys_reach iter L ttl url s -> sy_handles s !! h = Some memo ->
  resolve_payload ttl payload (Confluent memo) (sy_now s) (sy_reg s) = (x, m, r) ->
  justified s payload x r.
Proof.
  intros Hs%sound_reach Hh. unfold resolve_payload. destruct payload as [|b rest] eqn:Ep; [by intros [= <- _ _]|].
  rewrite <- Ep. assert (Hne : payload <> []) by (by rewrite Ep). clear Ep b rest.
  unfold resolve_confluent, justified. destruct (parse_confluent payload) as [e|[id datum]] eqn:Epar.
  { by intros [= <- _ _]. }
  pose proof (lookup_told s h memo id Hs Hh) as Ht.
  destruct (lookup_memo _ _ _ _ _) as [[c|reason|] memo']; cbn in Ht.
  - intros [= <- _ _]. by exists id.
  - by intros [= <- _ _].
  - destruct (r_rejection (sy_reg s)) as [reason|] eqn:Er; intros [= <- _ <-]; (split; [done|]); (split; [done|]).
    + by apply (so_rejected s Hs).
    + split; [done|]. intros [f Hf]. unfold request_fetch. rewrite Hf. cbn. apply elem_of_app. right. by left.
Qed.

(** ** The fetcher's books *)

Definition task_id (t : FetchTask) : option Z :=
  match t with Running id | Finished id _ => Some id | TaskPanicked => None end.
Definition task_ids (ts : list FetchTask) : list Z := omap task_id ts.

Lemma task_ids_app a b : task_ids (a ++ b) = task_ids a ++ task_ids b.
Proof. apply omap_app. Qed.

Lemma task_split (ts : list FetchTask) i t :
  ts !! i = Some t -> exists a b, ts = a ++ t :: b /\ delete i ts = a ++ b /\
    forall t' : FetchTask, <[i := t']> ts = a ++ t' :: b.
Proof.
  intros Hi. exists (take i ts), (drop (S i) ts). pose proof (lookup_lt_Some _ _ _ Hi) as Hlt.
  split; [by rewrite take_drop_middle|]. split; [apply delete_take_drop|].
  intros t'. by apply insert_take_drop.
Qed.

Lemma task_ids_split (ts : list FetchTask) i t id :
  ts !! i = Some t -> task_id t = Some id ->
  task_ids ts ≡ₚ id :: task_ids (delete i ts) /\
  task_ids (<[i := TaskPanicked]> ts) = task_ids (delete i ts).
Proof.
  intros Hi Hid. destruct (task_split _ _ _ Hi) as (a & b & E & -> & ->).
  rewrite E, !task_ids_app. split; [|done]. unfold task_ids at 2. cbn. rewrite Hid.
  symmetry. apply Permutation_middle.
Qed.

Record well_kept (now : Z) (lost : gset Z) (f : Fetcher) : Prop := mk_well_kept {
  wk_tasks : (length (tasks f) <= MAX_CONCURRENT_FETCHES)%nat;
  wk_once : NoDup (task_ids (tasks f));
  wk_flight : in_flight f = list_to_set (task_ids (tasks f)) ∪ lost;
  wk_lost : forall id, id ∈ task_ids (tasks f) -> id ∉ lost;
  wk_backoff : forall id b, backoffs f !! id = Some b ->
    backoff_ok FETCH_INITIAL FETCH_MAX (schedule b) /\ next_allowed b <= now + FETCH_MAX;
}.

Definition books (s : Sys) : Prop :=
  sy_panicked s = false /\
  forall f, r_fetcher (sy_reg s) = Some f -> well_kept (sy_now s) (sy_lost s) f.

Lemma grow_ok now b :
  backoff_ok FETCH_INITIAL FETCH_MAX (schedule b) ->
  exists b', grow now b = Some b' /\ backoff_ok FETCH_INITIAL FETCH_MAX (schedule b') /\
    now <= next_allowed b' <= now + FETCH_MAX.
Proof.
  intros Hb. destruct (next_delay_ok _ _ _ Hb) as (d & s' & Hd & Hr & Hb').
  unfold grow. rewrite Hd. cbn. eexists. split; [done|]. split; [done|]. cbn.
  pose proof (bo_current _ _ _ Hb). unfold checked_add.
  assert (0 <= FETCH_MAX) by (vm_compute; done).
  destruct (decide _); cbn; lia.
Qed.

Lemma settle_ok now lost f id o :
  well_kept now lost f -> exists b, settle_backoff (backoffs f) id o now = Some b /\
    forall i x, b !! i = Some x ->
      backoff_ok FETCH_INITIAL FETCH_MAX (schedule x) /\ next_allowed x <= now + FETCH_MAX.
Proof.
  intros Hf. destruct o; cbn.
  - eexists. split; [done|]. intros i x [_ Hx]%lookup_delete_Some. by eapply wk_backoff.
  - assert (Hb : exists x, match backoffs f !! id with Some b => grow now b | None => first_backoff now end
      = Some x /\ backoff_ok FETCH_INITIAL FETCH_MAX (schedule x) /\ next_allowed x <= now + FETCH_MAX).
    { destruct (backoffs f !! id) as [b|] eqn:Eb.
      - destruct (grow_ok now b) as (x & ? & ? & ?); [by eapply wk_backoff|]. exists x. split_and!; (done || lia).
      - destruct (grow_ok now (mkIdBackoff FETCH_BACKOFF now)) as (x & ? & ? & ?);
          [by apply backoff_new_ok|]. exists x. split_and!; (done || lia). }
    destruct Hb as (x & -> & Hx). cbn. eexists. split; [done|].
    intros i y [[<- <-]|[_ Hy]]%lookup_insert_Some; [done|]. by eapply wk_backoff.
Qed.

Lemma kept_later now now' lost f : now <= now' -> well_kept now lost f -> well_kept now' lost f.
Proof.
  intros Hn [Ht Ho Hf Hl Hb]. constructor; try done. intros id b Hx.
  destruct (Hb id b Hx). split; [done|lia].
Qed.

Lemma kept_swap now lost f i t t' :
  tasks f !! i = Some t -> task_id t' = task_id t -> well_kept now lost f ->
  well_kept now lost (on_tasks (<[i := t']> (tasks f)) f).
Proof.
  intros Hi Hid [Ht Ho Hf Hl Hb]. destruct (task_split _ _ _ Hi) as (a & b & E & _ & Hins).
  assert (Hsame : task_ids (<[i := t']> (tasks f)) = task_ids (tasks f)).
  { rewrite Hins, E, !task_ids_app. unfold task_ids. cbn [omap]. cbn. by rewrite Hid. }
  constructor; cbn [on_tasks tasks in_flight backoffs]; rewrite ?Hsame; try done.
  by rewrite length_insert.
Qed.

(** A task of [id] ends: the others are as before. *)
Lemma kept_rest now lost f i t id :
  tasks f !! i = Some t -> task_id t = Some id -> well_kept now lost f ->
  NoDup (task_ids (delete i (tasks f))) /\ id ∉ task_ids (delete i (tasks f)) /\ id ∉ lost /\
  (forall j, j ∈ task_ids (delete i (tasks f)) -> j ∉ lost) /\
  in_flight f = {[id]} ∪ list_to_set (task_ids (delete i (tasks f))) ∪ lost.
Proof.
  intros Hi Hid [Ht Ho Hf Hl Hb]. destruct (task_ids_split _ _ _ _ Hi Hid) as [Hp _].
  rewrite Hp in Ho. apply NoDup_cons in Ho as [Hni Ho]. split_and!; try done.
  - apply Hl. rewrite Hp. left.
  - intros j Hj. apply Hl. rewrite Hp. by right.
  - rewrite Hf. apply leibniz_equiv. rewrite Hp. cbn. set_solver.
Qed.

Lemma kept_panic now lost f i id :
  tasks f !! i = Some (Running id) -> well_kept now lost f ->
  well_kept now ({[id]} ∪ lost) (on_tasks (<[i := TaskPanicked]> (tasks f)) f).
Proof.
  intros Hi Hw. destruct (kept_rest _ _ _ _ _ id Hi eq_refl Hw) as (Hnd & Hni & Hnl & Hl & Hf).
  destruct (task_ids_split _ _ _ id Hi eq_refl) as [_ Heq].
  constructor; cbn [on_tasks tasks in_flight backoffs]; rewrite ?Heq.
  - rewrite length_insert. apply Hw.
  - done.
  - rewrite Hf. set_solver.
  - intros j Hj. specialize (Hl j Hj). set_solver.
  - apply Hw.
Qed.

Lemma delete_shorter {A} (l : list A) i : (length (delete i l) <= length l)%nat.
Proof. rewrite delete_take_drop, length_app, length_take, length_drop. lia. Qed.

Lemma kept_join now lost f i t :
  tasks f !! i = Some t -> finished t = true -> well_kept now lost f ->
  exists f', fetcher_join i t now f = Some f' /\ well_kept now lost f'.
Proof.
  intros Hi Hfin Hw. destruct t as [id|id o|]; [done| |].
  - destruct (settle_ok now lost f id o Hw) as (b & Hb & Hok). unfold fetcher_join. rewrite Hb. cbn.
    eexists. split; [done|].
    destruct (kept_rest _ _ _ _ _ id Hi eq_refl Hw) as (Hnd & Hni & Hnl & Hl & Hf).
    constructor; cbn [tasks in_flight backoffs]; try done.
    + etrans; [apply delete_shorter|apply Hw].
    + rewrite Hf. set_solver.
  - eexists. split; [done|]. destruct (task_split _ _ _ Hi) as (a & b & E & Hd & _).
    assert (Hsame : task_ids (delete i (tasks f)) = task_ids (tasks f)).
    { by rewrite Hd, E, !task_ids_app. }
    destruct Hw as [Ht Ho Hf Hl Hb]. constructor; cbn [tasks in_flight backoffs]; rewrite ?Hsame; try done.
    etrans; [apply delete_shorter|done].
Qed.

Lemma kept_recv now later lost f id cache :
  now <= later -> receiving f = true -> well_kept now lost f ->
  well_kept later lost (fetcher_recv ttl id now later cache f).
Proof.
  intros Hn Hrec Hw. apply andb_true_iff in Hrec as [_ Hlen%bool_decide_eq_true_1].
  pose proof (kept_later now later lost f Hn Hw) as Hw'. unfold fetcher_recv.
  destruct (decide _) as [|Hni]; [done|]. destruct (cache_get _ _ _ _); [done|done|].
  destruct (held_off _ _ _); [done|]. destruct Hw' as [Ht Ho Hf Hl Hb].
  assert (Hids : task_ids (tasks f ++ [Running id]) = task_ids (tasks f) ++ [id]) by apply task_ids_app.
  rewrite Hf in Hni. apply not_elem_of_union in Hni as [Hni Hnl]. rewrite elem_of_list_to_set in Hni.
  constructor; cbn [tasks in_flight backoffs]; rewrite ?Hids; try done.
  - rewrite length_app. cbn. lia.
  - apply NoDup_app. split_and!; [done| |apply NoDup_singleton].
    intros j Hj ->%list_elem_of_singleton. done.
  - rewrite Hf, list_to_set_app_L. cbn. set_solver.
  - intros j [Hj| ->%list_elem_of_singleton]%elem_of_app; [by apply Hl|done].
Qed.

Lemma books_quiet s s' :
  books s -> r_fetcher (sy_reg s') = r_fetcher (sy_reg s) -> sy_lost s' = sy_lost s ->
  sy_panicked s' = sy_panicked s -> sy_now s <= sy_now s' -> books s'.
Proof.
  intros [Hp Hf] Ef El Ep Hn. split; [by rewrite Ep|]. intros f. rewrite Ef, El. intros Hx.
  eapply kept_later; [done|by apply Hf].
Qed.

Lemma books_some s' f :
  sy_panicked s' = false -> r_fetcher (sy_reg s') = Some f -> well_kept (sy_now s') (sy_lost s') f -> books s'.
Proof. intros Hp Hf Hw. split; [done|]. intros f'. rewrite Hf. by intros [= <-]. Qed.

Lemma books_step l s s' : step l s = Some s' -> books s -> books s'.
Proof.
  intros Hst Hs. pose proof Hs as [Hp Hf].
  destruct l as [d|h payload|h h'|h|d|i| |i answer d|i| |answer]; cbn [sys_step] in Hst.
  - destruct (decide (0 <= d)); [|done]. injection Hst as <-. apply (books_quiet s); try done. cbn. lia.
  - destruct (sy_handles s !! h) as [memo|] eqn:Eh; [|done]. cbn in Hst.
    destruct (confluent_mode payload memo (sy_now s) (sy_reg s)) as (x & memo' & r' & Hx).
    rewrite Hx in Hst. injection Hst as <-. destruct (confluent_frame _ _ _ _ _ _ _ Hx) as (? & ? & ? & Hm).
    by apply (books_quiet s).
  - destruct (sy_handles s !! h) as [memo|] eqn:Eh; [|done]. cbn in Hst.
    destruct (decide _); [|done]. injection Hst as <-. by apply (books_quiet s).
  - injection Hst as <-. by apply (books_quiet s).
  - destruct (r_fetcher _) as [f|] eqn:Ef; [|done]. cbn in Hst. destruct (receiving f && _) eqn:E; [|done].
    apply andb_true_iff in E as [Hrec E%bool_decide_eq_true_1].
    destruct (r_queue (sy_reg s)) as [|id q]; [done|]. injection Hst as <-.
    eapply books_some; [done..|]. cbn. apply kept_recv; [lia|done|by apply Hf].
  - destruct (r_fetcher _) as [f|] eqn:Ef; [|done]. cbn in Hst. destruct (tasks f !! i) as [t|] eqn:Ei; [|done].
    cbn in Hst. destruct (finished t) eqn:Efin; [|done]. injection Hst as <-.
    destruct (kept_join _ _ _ _ _ Ei Efin (Hf f eq_refl)) as (f' & -> & Hw). by eapply books_some.
  - destruct (r_fetcher _) as [f|] eqn:Ef; [|done]. cbn in Hst. destruct (_ && _); [|done]. injection Hst as <-.
    split; [cbn; by rewrite Hp|done].
  - destruct (r_fetcher _) as [f|] eqn:Ef; [|done]. cbn in Hst.
    destruct (tasks f !! i) as [[id| |]|] eqn:Ei; try done.
    destruct (decide (0 <= d)); [|done]. destruct (fetch_one _ _ _ _ _ _ _ _ _) as [o r]. injection Hst as <-.
    eapply books_some; [done..|]. cbn. eapply kept_later; [|by eapply kept_swap; [..|apply Hf]]. lia.
  - destruct (r_fetcher _) as [f|] eqn:Ef; [|done]. cbn in Hst.
    destruct (tasks f !! i) as [[id| |]|] eqn:Ei; try done. injection Hst as <-.
    eapply books_some; [done..|]. cbn. apply kept_panic; [done|by apply Hf].
  - destruct (sy_pre s); try done. injection Hst as <-. by apply (books_quiet s).
  - destruct (sy_pre s) as [| |]; try done. injection Hst as <-. apply (books_quiet s); try done. cbn.
    rewrite prewarm_effect. apply effect_frame.
Qed.

Lemma books_new now subjects : books (sys_new now subjects).
Proof.
  split; [done|]. cbn. intros f [= <-]. constructor; cbn.
  - lia.
  - by apply NoDup_nil.
  - set_solver.
  - intros id Hid. by apply elem_of_nil in Hid.
  - intros id b Hb. by rewrite lookup_empty in Hb.
Qed.

Lemma books_reach s : sys_reach iter L ttl url s -> books s.
Proof.
  intros (now & subjects & Hr). assert (Hs : books (sys_new now subjects)) by apply books_new.
  induction Hr as [s|s s1 s2 [l Hl] _ IH]; [done|]. apply IH. by eapply books_step.
Qed.

Lemma held_off_over now lost f id later :
  well_kept now lost f -> now + FETCH_MAX <= later -> held_off later id f = false.
Proof.
  intros Hw Hl. unfold held_off. destruct (backoffs f !! id) as [b|] eqn:Eb; [|done].
  destruct (wk_backoff _ _ _ Hw id b Eb) as [_ Hle]. unfold admits. by rewrite bool_decide_true by lia.
Qed.

(** the fetcher's books are exact. It never panics; it runs at most four
    fetches and never two of one id; an id is marked in flight exactly while its
    fetch runs or waits to be joined, or its fetch panicked; and no id is held off
    for more than five seconds. The cache never holds more than 1024 negative
    entries, whatever ids payloads name. *)
Theorem fetcher_books_exact s :
  sys_reach iter L ttl url s ->
  sy_panicked s = false /\
  (length (negative iter (r_cache (sy_reg s))) <= MAX_NEGATIVE_ENTRIES)%nat /\
  forall f, r_fetcher (sy_reg s) = Some f ->
    (length (tasks f) <= MAX_CONCURRENT_FETCHES)%nat /\ NoDup (task_ids (tasks f)) /\
    in_flight f = list_to_set (task_ids (tasks f)) ∪ sy_lost s /\
    forall id d, FETCH_MAX <= d -> held_off (sy_now s + d) id f = false.
Proof.
  intros Hs. pose proof (sound_reach s Hs) as Hso. destruct (books_reach s Hs) as [Hp Hf].
  split; [done|]. split; [rewrite negative_length; apply Hso|].
  intros f Ef. specialize (Hf f Ef). split_and!; try apply Hf.
  intros id d Hd. eapply held_off_over; [done|lia].
Qed.

(** ** A payload gets its schema *)

(** The fetcher working on its own: it is answered, joins and receives. *)
Definition work_label (answers : Z -> Response) (f : Fetcher) : Label :=
  match tasks f with
  | Running id :: _ => LAnswer 0 (answers id) 0
  | _ :: _ => LJoin 0
  | [] => LRecv 0
  end.

Fixpoint work (answers : Z -> Response) (n : nat) (s : Sys) : Sys :=
  match n with
  | O => s
  | S n =>
      match (f ← r_fetcher (sy_reg s); step (work_label answers f) s) with
      | Some s' => work answers n s'
      | None => s
      end
  end.

(** The rounds it has before it. *)
Definition task_rounds (t : FetchTask) : nat := match t with Running _ => 2 | _ => 1 end.
Definition rounds (s : Sys) : nat :=
  3 * length (r_queue (sy_reg s)) +
  match r_fetcher (sy_reg s) with Some f => sum_list_with task_rounds (tasks f) | None => 0 end.

Lemma reach_step l s s' : sys_reach iter L ttl url s -> step l s = Some s' -> sys_reach iter L ttl url s'.
Proof. intros (now & subjects & Hr) Hl. exists now, subjects. eapply rtc_r; [done|by eexists]. Qed.

Lemma reach_steps s s' : sys_reach iter L ttl url s -> rtc next s s' -> sys_reach iter L ttl url s'.
Proof. intros (now & subjects & Hr) Hl. exists now, subjects. by etrans. Qed.

Lemma idle_fetcher s f :
  r_fetcher (sy_reg s) = Some f -> rounds s = 0%nat -> tasks f = [] /\ r_queue (sy_reg s) = [].
Proof.
  intros Ef. unfold rounds. rewrite Ef. destruct (tasks f) as [|t ts]; [|by destruct t; cbn; lia].
  by destruct (r_queue _); cbn; [|lia].
Qed.

Section working.
Variable answers : Z -> Response.
Variable target : Z.
Hypothesis Hwelcome : forall id t, refuses (HFetch id (answers id) t) = None.
Hypothesis Hserved : exists x c, answers target = Registered x /\ serves target x = Some c.

(** The registry condemned the target in no answer so far. *)
Definition uncondemned (s : Sys) : Prop :=
  forall answer t, HFetch target answer t ∈ sy_heard s -> verdict target answer = None.

(** What the fetcher's own work leaves as it is. *)
Record untouched (s s' : Sys) : Prop := mk_untouched {
  un_lost : sy_lost s' = sy_lost s;
  un_now : sy_now s' = sy_now s;
  un_handles : sy_handles s' = sy_handles s;
  un_rejection : r_rejection (sy_reg s') = r_rejection (sy_reg s);
  un_heard : forall e, e ∈ sy_heard s -> e ∈ sy_heard s';
  un_condemned : uncondemned s -> uncondemned s';
  un_up : is_Some (r_fetcher (sy_reg s'));
}.

Lemma untouched_trans s1 s2 s3 : untouched s1 s2 -> untouched s2 s3 -> untouched s1 s3.
Proof. intros [] []. constructor; try congruence; eauto. Qed.

Lemma served_verdict x c : serves target x = Some c -> verdict target (Registered x) = None.
Proof.
  unfold serves, verdict. destruct (unsupported x target); [done|]. by destruct (unusable_reason _).
Qed.

Lemma effect_welcome id t now stamp r :
  r_rejection (apply_effect (effect (HFetch id (answers id) t)) now stamp r) = r_rejection r.
Proof.
  destruct (effect _) as [c|i reason|reason|] eqn:Ee; try done.
  apply turned_effect in Ee. by rewrite Hwelcome in Ee.
Qed.

Lemma uncondemned_hear s id t :
  uncondemned s -> uncondemned (hear (HFetch id (answers id) t) s).
Proof.
  intros Hu answer t' [Hin|Hin%list_elem_of_singleton]%elem_of_app; [by eapply Hu|].
  injection Hin as Hid -> _. rewrite <- Hid. destruct Hserved as (x & c & Hx & Hs). rewrite Hx.
  by eapply served_verdict.
Qed.

Lemma work_step s f :
  books s -> r_fetcher (sy_reg s) = Some f -> (0 < rounds s)%nat ->
  exists s', step (work_label answers f) s = Some s' /\ untouched s s' /\ (rounds s' < rounds s)%nat.
Proof.
  intros [Hp Hb] Ef Hr. pose proof (Hb f Ef) as Hw. unfold work_label, rounds in *. rewrite Ef in *.
  destruct (tasks f) as [|t ts] eqn:Et; [|destruct t as [id|id o|]].
  - cbn [sys_step]. rewrite Ef. cbn. unfold receiving. rewrite Et. cbn.
    destruct (r_queue (sy_reg s)) as [|id q] eqn:Eq; [cbn in Hr; lia|]. eexists. split; [done|]. split.
    + constructor; cbn; try done; [lia|eauto..].
    + cbn. unfold fetcher_recv. rewrite Z.add_0_r.
      destruct (decide _); [rewrite Et; cbn; lia|].
      destruct (cache_get _ _ _ _); [rewrite Et; cbn; lia|rewrite Et; cbn; lia|].
      destruct (held_off _ _ _); cbn; rewrite Et; cbn; lia.
  - cbn [sys_step]. rewrite Ef. cbn. rewrite Et. cbn.
    pose proof (fetch_effect id (answers id) (sy_now s) (sy_now s + 0) (sy_reg s)) as He.
    destruct (fetch_one _ _ _ _ _ _ _ _ _) as [o r]. cbn [snd] in He. eexists. split; [done|].
    pose proof (effect_frame (effect (HFetch id (answers id) (sy_now s + 0))) (sy_now s) (sy_now s + 0) (sy_reg s))
      as [Hq Hf]. rewrite <- He in Hq, Hf. split.
    + constructor; [done|cbn; lia|done| | | |by eexists].
      * cbn [hear with_now with_reg sy_reg with_fetcher r_rejection]. rewrite He. apply effect_welcome.
      * intros e Hin. apply elem_of_app. by left.
      * exact (uncondemned_hear s id (sy_now s + 0)).
    + cbn. rewrite Hq. lia.
  - destruct (kept_join _ _ _ 0%nat (Finished id o) ltac:(by rewrite Et) eq_refl Hw) as (f' & Hj & Hk).
    exists (with_reg (with_fetcher (Some f') (sy_reg s)) s).
    cbn [sys_step]. rewrite Ef. cbn [mbind option_bind fetcher_step]. rewrite Et.
    cbn [lookup list_lookup finished mbind option_bind]. rewrite Hj. split; [done|]. split.
    + constructor; cbn; try done; eauto.
    + unfold fetcher_join in Hj. destruct (settle_backoff _ _ _ _); [|done]. injection Hj as <-.
      cbn. rewrite Et. cbn. lia.
  - cbn [sys_step]. rewrite Ef. cbn. rewrite Et. cbn. eexists. split; [done|]. split.
    + constructor; cbn; try done; eauto.
    + cbn. rewrite Et. cbn. lia.
Qed.

Lemma work_ends n : forall s,
  books s -> is_Some (r_fetcher (sy_reg s)) -> (rounds s <= n)%nat ->
  untouched s (work answers n s) /\ rounds (work answers n s) = 0%nat /\ rtc next s (work answers n s).
Proof.
  induction n as [|n IH]; intros s Hb [f Ef] Hn.
  { cbn [work]. split_and!; [|lia|done]. constructor; try done; eauto. }
  cbn [work]. rewrite Ef. cbn [mbind option_bind].
  destruct (decide (rounds s = 0%nat)) as [Hz|Hz].
  - unfold rounds in Hz. rewrite Ef in Hz. unfold work_label.
    destruct (tasks f) as [|t ts] eqn:Et; [|destruct t; cbn in Hz; lia].
    destruct (r_queue (sy_reg s)) as [|id q] eqn:Eq; [|cbn in Hz; lia].
    assert (Hno : step (LRecv 0) s = None).
    { cbn. rewrite Ef. cbn. rewrite Eq. by destruct (_ && _). }
    rewrite Hno. split_and!; [|unfold rounds; by rewrite Ef, Et, Eq|done]. constructor; try done; eauto.
  - destruct (work_step s f Hb Ef ltac:(lia)) as (s1 & Hs1 & Hu & Hlt). rewrite Hs1.
    destruct (IH s1) as (Hu2 & Hz2 & Hr2); [by eapply books_step|apply Hu|lia|].
    split_and!; [by eapply untouched_trans|done|]. eapply rtc_l; [by eexists|done].
Qed.

(** Idle, the fetcher takes up the target at once. *)
Lemma fetch_now s f :
  r_fetcher (sy_reg s) = Some f -> tasks f = [] -> r_queue (sy_reg s) = [target] ->
  target ∉ in_flight f -> cache_get (r_cache (sy_reg s)) target ttl (sy_now s) = Missing ->
  held_off (sy_now s) target f = false ->
  (exists c, taught (sy_heard (work answers 2 s)) target c) /\
  sy_handles (work answers 2 s) = sy_handles s /\ rtc next s (work answers 2 s).
Proof.
  intros Ef Et Eq Hni Hg Hh. destruct Hserved as (x & c & Hx & Hs).
  set (f1 := mkFetcher ({[target]} ∪ in_flight f) (backoffs f) [Running target]).
  set (s1 := with_now (sy_now s + 0) (with_reg (with_fetcher (Some f1) (with_queue [] (sy_reg s))) s)).
  assert (H1 : step (work_label answers f) s = Some s1).
  { unfold work_label. rewrite Et. cbn [sys_step]. rewrite Ef. cbn [mbind option_bind fetcher_step].
    unfold receiving. rewrite Et, Eq. cbn [existsb negb length]. rewrite !bool_decide_true by (vm_compute; lia).
    cbn [andb]. unfold fetcher_recv. rewrite decide_False, Hg, Z.add_0_r, Hh, Et by done.
    unfold s1. by rewrite Z.add_0_r. }
  destruct (fetch_one iter L ttl url target (answers target) (sy_now s1) (sy_now s1 + 0) (sy_reg s1))
    as [o r] eqn:Efe.
  set (s2 := hear (HFetch target (answers target) (sy_now s1 + 0)) (with_now (sy_now s1 + 0)
    (with_reg (with_fetcher (Some (on_tasks [Finished target o] f1)) r) s1))).
  assert (H2 : step (work_label answers f1) s1 = Some s2).
  { change (work_label answers f1) with (LAnswer 0 (answers target) 0). cbn [sys_step].
    change (r_fetcher (sy_reg s1)) with (Some f1). cbn [mbind option_bind fetcher_step].
    change (tasks f1 !! 0%nat) with (Some (Running target)). cbv iota.
    rewrite decide_True by lia. by rewrite Efe. }
  assert (Hw : work answers 2 s = s2).
  { cbn [work]. rewrite Ef. cbn [mbind option_bind]. rewrite H1.
    change (r_fetcher (sy_reg s1)) with (Some f1). cbn [mbind option_bind]. by rewrite H2. }
  rewrite Hw. split_and!; [|done|].
  - exists c, (HFetch target (answers target) (sy_now s1 + 0)).
    split; [apply elem_of_app; right; by left|]. rewrite Hx. done.
  - eapply rtc_l; [by eexists|]. eapply rtc_l; [by eexists|done].
Qed.

Lemma taught_resolves s h memo payload datum c :
  sound s -> sy_handles s !! h = Some memo -> parse_confluent payload = inr (target, datum) ->
  taught (sy_heard s) target c ->
  exists c' memo', resolve_payload ttl payload (Confluent memo) (sy_now s) (sy_reg s)
    = (inr (Some (c', datum)), Confluent memo', sy_reg s) /\ taught (sy_heard s) target c'.
Proof.
  intros Hs Hh Hp Ht. destruct payload as [|b payload]; [done|]. unfold resolve_payload, resolve_confluent.
  rewrite Hp. pose proof (lookup_told s h memo target Hs Hh) as Hl.
  destruct (lookup_memo _ _ _ _ _) as [[c'|reason|] memo']; cbn in Hl.
  - by eexists _, _.
  - destruct Hl as [Hl _]. by destruct (Hl c).
  - by destruct (Hl c).
Qed.

(** No negative entry for the target is in force. *)
Definition lapsed (s : Sys) : Prop :=
  forall reason t, r_cache (sy_reg s) !! target = Some (EFailed reason t) -> ttl <= sat_sub (sy_now s) t.

(** Asked for an id the cache holds no answer for, an idle fetcher is handed the id. *)
Lemma untaught_requests s h memo payload datum f :
  sound s -> lapsed s -> sy_handles s !! h = Some memo ->
  parse_confluent payload = inr (target, datum) -> (forall c, ~ taught (sy_heard s) target c) ->
  r_rejection (sy_reg s) = None -> r_fetcher (sy_reg s) = Some f ->
  step (LPayload h payload) s = Some (with_handles (<[h := r_cache (sy_reg s)]> (sy_handles s))
    (with_reg (with_queue (r_queue (sy_reg s) ++ [target]) (sy_reg s)) s)) /\
  cache_get (r_cache (sy_reg s)) target ttl (sy_now s) = Missing.
Proof.
  intros Hs Hu Hh Hp Hno Hrej Ef.
  assert (Hev : eval (r_cache (sy_reg s)) target ttl (sy_now s) = None).
  { unfold eval. destruct (r_cache (sy_reg s) !! target) as [[c|reason t]|] eqn:El; [| |done].
    - by destruct (Hno c (so_ready s Hs _ _ El)).
    - by rewrite decide_True by (by eapply Hu). }
  split; [|unfold cache_get; by rewrite Hev]. cbn [sys_step]. rewrite Hh. cbn [mbind option_bind].
  destruct payload as [|b payload]; [done|]. unfold resolve_payload, resolve_confluent. rewrite Hp.
  unfold lookup_memo. destruct (memo_eval memo target (sy_now s)) as [(c & Hl & _)|[_ Hmiss]].
  { by destruct (Hno c (so_memo s Hs _ _ _ _ Hh Hl)). }
  rewrite Hev. cbn [default].
  assert (Hm : forall (A : Type) (f : CompiledSchema -> A) (y : A),
    match eval memo target ttl (sy_now s) with Some (Ready c) => f c | _ => y end = y).
  { intros A g y. destruct (eval memo target ttl (sy_now s)) as [[c| |]|]; try done. by destruct (Hmiss c). }
  rewrite Hm, Hrej. unfold request_fetch. by rewrite Ef.
Qed.

(** A push of the payload in [s], then two rounds of the fetcher, then a push that
    is resolved, to a schema the registry sent under the payload's id. *)
Definition resolved_after (s : Sys) (h : nat) (payload datum : list Z) : Prop :=
  exists s2, step (LPayload h payload) s = Some s2 /\
  exists memo1 memo2 c, sy_handles (work answers 2 s2) !! h = Some memo1 /\
    resolve_payload ttl payload (Confluent memo1) (sy_now (work answers 2 s2)) (sy_reg (work answers 2 s2))
      = (inr (Some (c, datum)), Confluent memo2, sy_reg (work answers 2 s2)) /\
    taught (sy_heard (work answers 2 s2)) target c.

Lemma push_taught s h memo payload datum c :
  sys_reach iter L ttl url s -> is_Some (r_fetcher (sy_reg s)) -> rounds s = 0%nat ->
  sy_handles s !! h = Some memo -> parse_confluent payload = inr (target, datum) ->
  taught (sy_heard s) target c -> resolved_after s h payload datum.
Proof.
  intros Hr Hup Hz Hh Hp Ht.
  destruct (taught_resolves s h memo payload datum c (sound_reach s Hr) Hh Hp Ht) as (c1 & memo1 & Hres & _).
  assert (H2 : step (LPayload h payload) s = Some
    (with_handles (<[h := memo1]> (sy_handles s)) (with_reg (sy_reg s) s))).
  { cbn [sys_step]. rewrite Hh. cbn [mbind option_bind]. by rewrite Hres. }
  eexists. split; [exact H2|]. set (s2 := with_handles _ _) in *.
  pose proof (reach_step _ _ _ Hr H2) as Hr2.
  destruct (work_ends 2 s2 (books_reach s2 Hr2)) as (Hu & _ & Hsteps);
    [done|change (rounds s2) with (rounds s); lia|].
  assert (Hh2 : sy_handles (work answers 2 s2) !! h = Some memo1).
  { rewrite (un_handles _ _ Hu). apply lookup_insert_eq. }
  destruct (taught_resolves (work answers 2 s2) h memo1 payload datum c) as (c2 & memo2 & Hres2 & Ht2);
    [by eapply sound_reach, reach_steps|done|done| |by exists memo1, memo2, c2].
  destruct Ht as (e & He & Hte). exists e. split; [|done]. by apply (un_heard _ _ Hu).
Qed.

Lemma push_untaught s h memo payload datum f :
  sys_reach iter L ttl url s -> r_fetcher (sy_reg s) = Some f -> rounds s = 0%nat ->
  sy_handles s !! h = Some memo -> parse_confluent payload = inr (target, datum) ->
  (forall c, ~ taught (sy_heard s) target c) -> lapsed s -> r_rejection (sy_reg s) = None ->
  target ∉ sy_lost s -> held_off (sy_now s) target f = false -> resolved_after s h payload datum.
Proof.
  intros Hr Ef Hz Hh Hp Hno Hun Hrej Hlost Hho.
  destruct (idle_fetcher s f Ef Hz) as [Et Eq]. destruct (books_reach s Hr) as [_ Hb]. specialize (Hb f Ef).
  destruct (untaught_requests s h memo payload datum f (sound_reach s Hr) Hun Hh Hp Hno Hrej Ef) as [H2 Hg].
  eexists. split; [exact H2|]. set (s2 := with_handles _ _) in *.
  assert (Hni : target ∉ in_flight f).
  { rewrite (wk_flight _ _ _ Hb), Et. cbn. set_solver. }
  destruct (fetch_now s2 f Ef Et) as ([c2 Ht2] & Hh2 & Hr2); [cbn; by rewrite Eq|done|exact Hg|done|].
  assert (Hh3 : sy_handles (work answers 2 s2) !! h = Some (r_cache (sy_reg s))).
  { rewrite Hh2. apply lookup_insert_eq. }
  destruct (taught_resolves (work answers 2 s2) h (r_cache (sy_reg s)) payload datum c2) as (c3 & memo3 & Hres & Ht3);
    [by eapply sound_reach, reach_steps; [eapply reach_step|]|done|done|done|].
  by exists (r_cache (sy_reg s)), memo3, c3.
Qed.
End working.

(** C34: a payload gets its schema. In every reachable state whose fetcher is up,
    and has not lost a fetch of the payload's id to a panic, with no rejection of
    the client on record: if from now on the registry serves the id and refuses the
    client nothing, then once the fetcher has worked off what it had, which takes
    at most [rounds] rounds, and [d] later, the payload's next push has the fetcher
    fetch the schema, and the push after it is resolved to a schema the registry
    sent under that id. Five seconds are enough for [d] when no answer so far
    condemned the id; when one did, [d] has to reach the negative TTL as well. *)
Theorem payload_gets_schema answers s h memo payload id datum x c n d :
  (forall i t, refuses (HFetch i (answers i) t) = None) ->
  answers id = Registered x -> serves id x = Some c ->
  sys_reach iter L ttl url s -> is_Some (r_fetcher (sy_reg s)) -> id ∉ sy_lost s ->
  r_rejection (sy_reg s) = None -> sy_handles s !! h = Some memo ->
  parse_confluent payload = inr (id, datum) -> (rounds s <= n)%nat ->
  FETCH_MAX <= d -> uncondemned id s \/ ttl <= d ->
  exists s1, step (LTime d) (work answers n s) = Some s1 /\
    resolved_after answers id s1 h payload datum.
Proof.
  intros Hwel Hx Hc Hs Hup Hlost Hrej Hh Hp Hn Hd Hun.
  assert (Hserved : exists x c, answers id = Registered x /\ serves id x = Some c) by (by exists x, c).
  destruct (work_ends answers id Hwel Hserved n s (books_reach s Hs) Hup Hn) as (Hu & Hz & Hsteps).
  set (s0 := work answers n s) in *. set (s1 := with_now (sy_now s0 + d) s0).
  pose proof (reach_steps _ _ Hs Hsteps) as Hr0. destruct Hu as [Hul Hut Huh Hurj _ Hucon [f Ef]].
  assert (H1 : step (LTime d) s0 = Some s1).
  { cbn [sys_step]. rewrite decide_True; [done|]. etrans; [|exact Hd]. vm_compute. discriminate. }
  pose proof (reach_step _ _ _ Hr0 H1) as Hr1. exists s1. split; [done|].
  assert (Hh1 : sy_handles s1 !! h = Some memo) by (cbn; by rewrite Huh).
  destruct (memo_eval (r_cache (sy_reg s1)) id 0) as [(c0 & El & _)|[Hcold _]].
  { eapply (push_taught answers id Hwel Hserved s1 h memo); [done|by exists f|done..|].
    by apply (so_ready s1 (sound_reach s1 Hr1)). }
  apply (push_untaught answers id Hwel Hserved s1 h memo payload datum f); try done.
  - intros c0 Hx0. destruct (so_taught s1 (sound_reach s1 Hr1) _ _ Hx0) as [c1 Hl1]. by destruct (Hcold c1).
  - intros reason t El. destruct (so_failed s0 (sound_reach s0 Hr0) _ _ _ El) as (Ht & a & Ha & Hv).
    destruct Hun as [Hun|Hun]; [by rewrite (Hucon Hun a t Ha) in Hv|]. unfold sat_sub. cbn. lia.
  - cbn. by rewrite Hurj.
  - cbn. by rewrite Hul.
  - destruct (books_reach s0 Hr0) as [_ Hb0].
    apply (held_off_over (sy_now s0) (sy_lost s0)); [by apply Hb0|cbn; lia].
Qed.
End cache.

(** ** Held readers *)

Section held.
Variable iter : forall A : Type, gmap Z A -> list (Z * A).
Hypothesis Hiter : forall A (m : gmap Z A), iter A m ≡ₚ map_to_list m.
Variable ttl : Z.
Context {Reader Value : Type}.
Variable build_reader : Schema -> option Schema -> string + Reader.
Variable read_value : Reader -> list Z -> bool * (string + Value).

Local Notation Core := (@DecoderCore Reader).
Local Notation decode := (core_decode iter ttl build_reader read_value).

(** The payloads of one deserializer, each with the instant and the registry's
    state it meets. With [cached = false] it starts from a clone each time. *)
Fixpoint core_run (cached : bool) (visits : list (list Z * Z * Registry)) (c : Core)
    : list (DeserError + option Value) * Core :=
  match visits with
  | [] => ([], c)
  | (payload, now, r) :: visits =>
      let '(x, c, _) := decode payload now (if cached then c else core_clone c) r in
      let '(xs, c) := core_run cached visits c in (x :: xs, c)
  end.

(** An id stands for one schema. *)
Variable schema_of : Z -> string + Schema.
Definition writer_ok (c : CompiledSchema) : Prop := cs_schema c = schema_of (cs_id c).
Definition entries_ok (m : gmap Z Entry) : Prop :=
  forall id c, m !! id = Some (EReady c) -> writer_ok c.
Definition mode_ok (m : Mode) : Prop :=
  match m with
  | Confluent memo => entries_ok memo
  | RawDatum c | SingleObject c _ => writer_ok c
  end.

Definition readers_ok (c : Core) : Prop :=
  (size (core_held c) <= MAX_HELD_READERS)%nat /\
  forall id reader, core_held c !! id = Some reader ->
    exists s, schema_of id = inr s /\ build_reader s (core_reader_schema c) = inr reader.

Lemma eval_ready m id now c : eval m id ttl now = Some (Ready c) -> m !! id = Some (EReady c).
Proof. unfold eval. destruct (m !! id) as [[c'|]|]; [by intros [= ->]|by destruct (decide _)|done]. Qed.

Lemma resolve_ok payload m now r x m' r' :
  mode_ok m -> entries_ok (r_cache r) -> resolve_payload ttl payload m now r = (x, m', r') ->
  mode_ok m' /\ forall c datum, x = inr (Some (c, datum)) -> writer_ok c.
Proof.
  intros Hm Hr. unfold resolve_payload. destruct payload as [|b payload]; [by intros [= <- <- _]|].
  destruct m as [memo|c|c fp]; cbn in Hm.
  - unfold resolve_confluent. destruct (parse_confluent _) as [e|[id datum]]; [by intros [= <- <- _]|].
    unfold lookup_memo. destruct (eval memo id ttl now) as [[c|reason|]|] eqn:Em.
    1: intros [= <- <- _]; split; [done|]; intros ? ? [= <- _]; by eapply Hm, eval_ready.
    all: destruct (eval (r_cache r) id ttl now) as [[c|reason'|]|] eqn:Ec; cbn.
    all: try (intros [= <- <- _]; split; [done|]; intros ? ? [= <- _]; by eapply Hr, eval_ready).
    all: try (by intros [= <- <- _]).
    all: destruct (r_rejection r); by intros [= <- <- _].
  - intros [= <- <- _]. split; [done|]. by intros ? ? [= <- _].
  - destruct (parse_single_object _) as [e|[f datum]]; [by intros [= <- <- _]|].
    destruct (decide _); intros [= <- <- _]; (split; [done|]); [done|]. by intros ? ? [= <- _].
Qed.

Lemma evict_size (held : gmap Z Reader) id reader :
  (size held <= MAX_HELD_READERS)%nat -> held !! id = None ->
  (size (<[id := reader]> (evict iter held)) <= MAX_HELD_READERS)%nat.
Proof.
  intros Hs Hn. unfold evict. destruct (decide _) as [Hfull|Hroom].
  - assert (Hlen : length (iter Reader held) = size held).
    { rewrite (Permutation_length (Hiter _ held)). by rewrite length_map_to_list. }
    destruct (iter Reader held) as [|[victim rd] l] eqn:Ei; [unfold MAX_HELD_READERS in *; cbn in Hlen; lia|].
    assert (Hv : held !! victim = Some rd).
    { apply elem_of_map_to_list. rewrite <- Hiter, Ei. left. }
    pose proof (map_size_delete_S held victim rd Hv). rewrite map_size_insert_None; [lia|].
    rewrite lookup_delete_None. by right.
  - rewrite map_size_insert_None by done. lia.
Qed.

Lemma evict_lookup (held : gmap Z Reader) id reader :
  evict iter held !! id = Some reader -> held !! id = Some reader.
Proof.
  unfold evict. destruct (decide _) as [_|]; [|done]. destruct (iter Reader held) as [|[v rd] l]; [done|].
  intros H. by apply lookup_delete_Some in H as [_ H].
Qed.

(** One payload: the held reader is the one a fresh compilation gives. *)
Lemma decode_transparent payload now c c0 r :
  core_mode c0 = core_mode c -> core_reader_schema c0 = core_reader_schema c -> core_held c0 = ∅ ->
  mode_ok (core_mode c) -> entries_ok (r_cache r) -> readers_ok c ->
  exists x c1 c1' r1, decode payload now c r = (x, c1, r1) /\ decode payload now c0 r = (x, c1', r1) /\
    core_mode c1' = core_mode c1 /\ core_reader_schema c1' = core_reader_schema c1 /\
    core_reader_schema c1 = core_reader_schema c /\ mode_ok (core_mode c1) /\ readers_ok c1.
Proof.
  intros Em Es Eh Hm Hr [Hsz Hheld]. unfold core_decode. rewrite Em, Es.
  destruct (resolve_payload ttl payload (core_mode c) now r) as [[x m] r1] eqn:Hres.
  destruct (resolve_ok _ _ _ _ _ _ _ Hm Hr Hres) as [Hm' Hw].
  destruct x as [e|[[writer datum]|]]; cbn [core_held core_reader_schema].
  1, 3: eexists _, _, _, _; by split_and!.
  specialize (Hw writer datum eq_refl). rewrite Eh, lookup_empty.
  destruct (core_held c !! cs_id writer) as [reader|] eqn:El.
  - destruct (Hheld _ _ El) as (sch & Hsch & Hb).
    assert (Hc : held_compile build_reader writer (core_reader_schema c) = inr reader).
    { unfold held_compile. by rewrite Hw, Hsch, Hb. }
    rewrite Hc. eexists _, _, _, _. by split_and!.
  - destruct (held_compile _ _ _) as [e|built] eqn:Hc; eexists _, _, _, _; split_and!; try done.
    split; [by apply evict_size|]. cbn [core_held core_reader_schema].
    intros id reader [[<- <-]|[_ Hl]]%lookup_insert_Some; [|by apply Hheld, evict_lookup].
    unfold held_compile in Hc. rewrite Hw in Hc. destruct (schema_of (cs_id writer)) as [e|sch]; [done|].
    exists sch. split; [done|]. by destruct (build_reader sch _); [|injection Hc as ->].
Qed.

Lemma core_run_transparent visits : forall c c0,
  core_mode c0 = core_mode c -> core_reader_schema c0 = core_reader_schema c ->
  mode_ok (core_mode c) -> readers_ok c -> Forall (fun v => entries_ok (r_cache v.2)) visits ->
  (core_run true visits c).1 = (core_run false visits c0).1 /\ readers_ok (core_run true visits c).2.
Proof.
  induction visits as [|[[payload now] r] visits IH]; intros c c0 Em Es Hm Hc Hv; [done|].
  apply Forall_cons in Hv as [Hr Hv]. cbn [core_run].
  destruct (decode_transparent payload now c (core_clone c0) r) as (x & c1 & c1' & r1 & H1 & H2 & Em1 & Es1 & _ & Hm1 & Hc1);
    [done..|]. rewrite H1, H2. destruct (IH c1 c1' Em1 Es1 Hm1 Hc1 Hv) as [Heq Hok].
  destruct (core_run true visits c1) as [xs c2], (core_run false visits c1') as [xs' c2'].
  cbn in *. by rewrite Heq.
Qed.

(** holding readers changes nothing. Whatever payloads a deserializer is given
    and whatever the registry's cache holds when they come, it answers as one that
    compiles a reader for every payload, as long as an id stands for one schema;
    and it never holds more than 64 readers. *)
Theorem held_readers_transparent m reader_schema visits :
  mode_ok m -> Forall (fun v => entries_ok (r_cache v.2)) visits ->
  (core_run true visits (core_new m reader_schema)).1 =
    (core_run false visits (core_new m reader_schema)).1 /\
  (size (core_held (core_run true visits (core_new m reader_schema)).2) <= MAX_HELD_READERS)%nat.
Proof.
  intros Hm Hv.
  destruct (core_run_transparent visits (core_new m reader_schema) (core_new m reader_schema)) as [Heq Hok];
    try done; [|by split; [|apply Hok]].
  split; [|done]. cbn [core_new core_held]. rewrite map_size_empty. unfold MAX_HELD_READERS. lia.
Qed.
End held.

(** ** From payload to record *)

Definition confluent_frame_of (id : Z) (datum : list Z) : list Z := 0 :: rev (le_bytes 4 id) ++ datum.

Lemma parse_confluent_frame id datum :
  0 <= id < 2 ^ 32 -> parse_confluent (confluent_frame_of id datum) = inr (id, datum).
Proof.
  intros Hid. unfold confluent_frame_of, parse_confluent.
  assert (Hl : length (rev (le_bytes 4 id)) = 4%nat) by (by rewrite length_rev, le_bytes_length).
  rewrite decide_False by lia. cbn [length]. rewrite length_app, Hl. rewrite decide_False by lia.
  change (drop 1 (0 :: rev (le_bytes 4 id) ++ datum)) with (rev (le_bytes 4 id) ++ datum).
  change (drop 5 (0 :: rev (le_bytes 4 id) ++ datum)) with (drop 4 (rev (le_bytes 4 id) ++ datum)).
  rewrite take_app_length', drop_app_length' by done. unfold be_val. rewrite rev_involutive, le_val_bytes; [done|].
  change (256 ^ Z.of_nat 4) with (2 ^ 32). lia.
Qed.

Section payloads.
Variable iter : forall A : Type, gmap Z A -> list (Z * A).
Hypothesis Hiter : forall A (m : gmap Z A), iter A m ≡ₚ map_to_list m.
Variable L : AvroLib.
Variable ttl : Z.
Variable url : string.
Context {Uuid : Type}.
Variables (parse_str from_slice : list Z -> option Uuid) (hyphenated : Uuid -> string).
Variable wording : DatumError -> string.

(** The record type of the recording visitor. *)
Definition recorded (s : Schema) (names : Names) (datum : list Z) : option (DatumError + Seen) :=
  match decode_datum parse_str from_slice hyphenated names s datum with
  | DOk x _ => Some (inr x)
  | DErr e => Some (inl e)
  | DPanic => None
  end.

Lemma compile_ready id json sch found names :
  parse_schema L json = Some (inr sch) -> resolved_names L sch = Some (inr found) ->
  compile_spec sch found = Some names -> compile L id json = mkCompiled id (inr sch) (inr names).
Proof.
  intros Hp Hf Hc. unfold compile, try_compile, datum_spec. rewrite Hp. cbn. rewrite Hf. cbn. by rewrite Hc.
Qed.

Lemma compile_parts id json sch names :
  cs_schema (compile L id json) = inr sch -> cs_datum (compile L id json) = inr names ->
  exists found, resolved_names L sch = Some (inr found) /\ compile_spec sch found = Some names.
Proof.
  unfold compile, try_compile, datum_spec. destruct (parse_schema L json) as [[e|s]|]; cbn; try done.
  destruct (resolved_names L s) as [[e|found]|] eqn:Ef; cbn; [done| |done].
  destruct (compile_spec s found) as [ns|] eqn:Ec; cbn; [|done].
  intros [= <-] [= <-]. by exists found.
Qed.

(** C35: from payload to record. Take an id the registry has taught, always with one
    schema, which the compiler accepts; and a Confluent payload of that id whose
    datum fits the schema and has no more collection items than the larger of the
    datum's length and 65536. In every later state and by every handle, the datum
    deserializer turns it into exactly one record, the datum's value, if the datum
    is nested at most 128 levels deep, and refuses it with the depth limit if it is
    deeper. *)
Theorem avro_payload_roundtrip s h memo id json sch found names x rest :
  sys_reach iter L ttl url s -> sy_handles s !! h = Some memo -> 0 <= id < 2 ^ 32 ->
  (exists c, taught L (sy_heard s) id c) ->
  (forall c, taught L (sy_heard s) id c -> c = compile L id json) ->
  parse_schema L json = Some (inr sch) -> resolved_names L sch = Some (inr found) ->
  compile_spec sch found = Some names ->
  fits parse_str from_slice names None sch x = true ->
  items x <= Z.max (Z.of_nat (length (encode_datum x ++ rest))) 65536 ->
  exists m, datum_deserialize ttl recorded wording (confluent_frame_of id (encode_datum x ++ rest))
      (Confluent memo) (sy_now s) (sy_reg s) =
    Some (if bool_decide (Z.of_nat (levels x) <= 128)
          then ([trace parse_str from_slice hyphenated names None sch x], None)
          else ([], Some (Malformed ("avro datum decode failed: " +:+ wording DepthLimit))),
          m, sy_reg s).
Proof.
  intros Hr Hh Hid [c Ht] Hone Hp Hf Hc Hfit Hi. pose proof (sound_reach iter Hiter L ttl url s Hr) as Hs.
  pose proof (parse_confluent_frame id (encode_datum x ++ rest) Hid) as Hpar.
  destruct (taught_resolves L ttl url id s h memo _ _ c Hs Hh Hpar Ht) as (c' & memo' & Hres & Ht').
  exists (Confluent memo'). unfold datum_deserialize. rewrite Hres, (Hone c' Ht').
  rewrite (compile_ready id json sch found names Hp Hf Hc). cbn [cs_datum cs_schema].
  unfold recorded, decode_datum, cursor_new.
  rewrite (record_reads parse_str from_slice hyphenated names x sch None 0); try done.
  unfold within_depth. change MAX_DEPTH with 128. rewrite Z.add_0_l. by destruct (bool_decide _).
Qed.

(** A mode of a running deserializer: a handle's memo, or a schema compiled when it
    was built. *)
Definition mode_of (s : Sys) (m : Mode) : Prop :=
  match m with
  | Confluent memo => exists h, sy_handles s !! h = Some memo
  | RawDatum c | SingleObject c _ => exists id json, c = compile L id json
  end.

Lemma teaches_compile e id c : teaches L e id c -> exists json, c = compile L id json.
Proof.
  assert (Hs : forall x, serves L id x = Some c -> exists json, c = compile L id json).
  { intros x. unfold serves. destruct (unsupported x id); [done|].
    destruct (unusable_reason (compile L id (rs_schema x))); [done|]. intros [= <-]. by eexists. }
  destruct e as [i [y| | |] t|sub [y| | |] t]; cbn; try done; intros [_ H]; by eapply Hs.
Qed.

Lemma resolve_compiled s payload m m' r' c datum :
  sound L url s -> mode_of s m ->
  resolve_payload ttl payload m (sy_now s) (sy_reg s) = (inr (Some (c, datum)), m', r') ->
  exists id json, c = compile L id json.
Proof.
  intros Hs Hm. unfold resolve_payload. destruct payload as [|b payload]; [done|].
  destruct m as [memo|c0|c0 fp]; cbn in Hm.
  - destruct Hm as [h Hh]. unfold resolve_confluent. destruct (parse_confluent _) as [e|[id d]]; [done|].
    pose proof (lookup_told L ttl url s h memo id Hs Hh) as Ht.
    destruct (lookup_memo _ _ _ _ _) as [[c0|reason|] memo']; cbn in Ht; [|done|by destruct (r_rejection _)].
    intros [= -> _ _ _]. exists id. destruct Ht as (e & _ & Ht). by eapply teaches_compile.
  - by intros [= <- _ _ _].
  - destruct (parse_single_object _) as [e|[f d]]; [done|]. destruct (decide _); [done|].
    by intros [= <- _ _ _].
Qed.

(** no payload breaks the datum deserializer. In every reachable state, in
    every mode and whatever the bytes, it does not panic, emits at most one
    record, and emits none when it reports an error, which is what the chain
    relies on to replay a payload that was not ready. *)
Theorem avro_payload_safe s m payload :
  (forall sch found, resolved_names L sch = Some (inr found) ->
     Forall (fun x => is_ref x.2 = false) found) ->
  sys_reach iter L ttl url s -> mode_of s m ->
  exists a m' r', datum_deserialize ttl recorded wording payload m (sy_now s) (sy_reg s) = Some (a, m', r') /\
    (length a.1 <= 1)%nat /\ (is_Some a.2 -> a.1 = []) /\ deser_answer a = Some a.
Proof.
  intros HL Hr Hm. pose proof (sound_reach iter Hiter L ttl url s Hr) as Hs. unfold datum_deserialize.
  destruct (resolve_payload ttl payload m (sy_now s) (sy_reg s)) as [[x m'] r'] eqn:Hres.
  assert (Herr : forall (e : DeserError) (T : Type), let a : Answer T := ([], Some e) in
    (length a.1 <= 1)%nat /\ (is_Some a.2 -> a.1 = []) /\ deser_answer a = Some a).
  { intros e T a. split_and!; [cbn; lia|done|done]. }
  destruct x as [e|[[writer datum]|]]; [by do 3 eexists| |].
  2: do 3 eexists; split; [done|]; split_and!; [cbn; lia|done|done].
  destruct (resolve_compiled s payload m m' r' writer datum Hs Hm Hres) as (id & json & Hc).
  destruct (cs_datum writer) as [reason|names] eqn:Ed; [by do 3 eexists|].
  destruct (cs_schema writer) as [reason|sch] eqn:Es; [by do 3 eexists|].
  rewrite Hc in Ed, Es. destruct (compile_parts _ _ _ _ Es Ed) as (found & Hf & Hspec).
  destruct (compile_spec_ok sch found names (HL _ _ Hf) Hspec) as [Hsup Hnm].
  pose proof (decode_outcome parse_str from_slice hyphenated sch names datum Hsup Hnm) as Ho.
  unfold recorded. destruct (decode_datum _ _ _ _ _ _) as [y cur|e|]; [| |done].
  - do 3 eexists. split; [done|]. split_and!; [cbn; lia|by intros [? [=]]|done].
  - by do 3 eexists.
Qed.
End payloads.

(** ** Examples *)

Fixpoint sys_run iter L ttl url (ls : list Label) (s : Sys) : option Sys :=
  match ls with
  | [] => Some s
  | l :: ls => s ← sys_step iter L ttl url l s; sys_run iter L ttl url ls s
  end.

Lemma run_reach iter L ttl url now subjects ls s :
  sys_run iter L ttl url ls (sys_new now subjects) = Some s -> sys_reach iter L ttl url s.
Proof.
  intros Hr. exists now, subjects. revert Hr. generalize (sys_new now subjects).
  induction ls as [|l ls IH]; intros s0; cbn; [by intros [= ->]|].
  destruct (sys_step iter L ttl url l s0) as [s1|] eqn:E; [|done]. cbn. intros Hr.
  eapply rtc_l; [by exists l|by apply IH].
Qed.

Definition demo_iter (A : Type) (m : gmap Z A) : list (Z * A) := map_to_list m.
Definition demo_lib : AvroLib :=
  mkAvroLib (fun json => if decide (json = "order") then Some (inr order) else Some (inl "not a schema"))
    (fun s => Some (inr order_found)) (fun _ _ => "unsupported").
Definition demo_ttl : Z := 30 * SECOND.
Definition demo_answer (text : string) : Response := Registered (mkRegistered None text None None).
Definition demo_bytes : list Z := confluent_frame_of 7 (encode_datum order_datum ++ []).
Local Notation demo_sys_run := (sys_run demo_iter demo_lib demo_ttl "http://registry").

(** Id 7 fails transiently and is asked for again; id 9 is unknown. *)
Definition busy_labels : list Label :=
  [LClone 0 1; LPayload 0 demo_bytes; LPayload 1 demo_bytes; LRecv 0; LRecv 1;
   LAnswer 0 (TransientFailure "timeout") 0; LPayload 1 (confluent_frame_of 9 [0]); LJoin 0; LRecv 0;
   LAnswer 0 (Status 404 "the registry answered 404") 3; LTime 10; LPayload 0 demo_bytes].
Definition busy_sys : Sys := default (sys_new 0 []) (demo_sys_run busy_labels (sys_new 0 [])).
(** The pre-warm taught id 7. *)
Definition warm_labels : list Label :=
  [LPreNext; LPreAnswer (Registered (mkRegistered (Some 7) "order" None None)); LClone 0 1].
Definition warm : Sys := default (sys_new 0 []) (demo_sys_run warm_labels (sys_new 0 ["orders"])).

Lemma busy_reach : sys_reach demo_iter demo_lib demo_ttl "http://registry" busy_sys.
Proof. apply (run_reach _ _ _ _ 0 [] busy_labels). vm_compute. reflexivity. Qed.
Lemma warm_reach : sys_reach demo_iter demo_lib demo_ttl "http://registry" warm.
Proof. apply (run_reach _ _ _ _ 0 ["orders"] warm_labels). vm_compute. reflexivity. Qed.

Lemma demo_perm A (m : gmap Z A) : demo_iter A m ≡ₚ map_to_list m.
Proof. done. Qed.

Lemma resolve_justified_witness :
  let x := resolve_payload demo_ttl (confluent_frame_of 9 [0]) (Confluent ∅) (sy_now busy_sys) (sy_reg busy_sys) in
  x.1.1 = inl (SchemaUnavailable "registry fetch for schema 9 failed: the registry answered 404") /\
  justified demo_lib demo_ttl "http://registry" busy_sys (confluent_frame_of 9 [0]) x.1.1 x.2.
Proof.
  intros x. split; [vm_compute; reflexivity|].
  apply (resolve_justified demo_iter demo_perm demo_lib demo_ttl "http://registry" busy_sys 1 ∅
    (confluent_frame_of 9 [0]) x.1.1 x.1.2 x.2); [exact busy_reach|vm_compute; reflexivity|].
  by rewrite <- !surjective_pairing.
Defined.

Lemma fetcher_books_exact_witness :
  (length (negative demo_iter (r_cache (sy_reg busy_sys))) <= MAX_NEGATIVE_ENTRIES)%nat /\
  exists f, r_fetcher (sy_reg busy_sys) = Some f /\ in_flight f = list_to_set (task_ids (tasks f)) ∪ sy_lost busy_sys.
Proof.
  destruct (fetcher_books_exact demo_iter demo_perm demo_lib demo_ttl "http://registry" busy_sys busy_reach)
    as (_ & Hn & Hf).
  split; [exact Hn|]. destruct (r_fetcher (sy_reg busy_sys)) as [f|] eqn:E; [|vm_compute in E; discriminate].
  exists f. split; [done|]. by apply Hf.
Defined.

(** Id 7 was never condemned; id 9 was, and is served again past the negative TTL. *)
Lemma payload_gets_schema_witness :
  let run d := sys_step demo_iter demo_lib demo_ttl "http://registry" (LTime d)
    (work demo_iter demo_lib demo_ttl "http://registry" (fun _ => demo_answer "order") 8 busy_sys) in
  let resolved id s1 := resolved_after demo_iter demo_lib demo_ttl "http://registry"
    (fun _ => demo_answer "order") id s1 1 in
  (exists s1, run FETCH_MAX = Some s1 /\ resolved 7 s1 demo_bytes (encode_datum order_datum ++ [])) /\
  (exists s1, run demo_ttl = Some s1 /\ resolved 9 s1 (confluent_frame_of 9 [0]) [0]).
Proof.
  intros run resolved.
  assert (Hone : forall id, serves demo_lib id (mkRegistered None "order" None None)
    = Some (compile demo_lib id "order")) by done.
  split.
  - apply (payload_gets_schema demo_iter demo_perm demo_lib demo_ttl "http://registry"
      (fun _ => demo_answer "order") busy_sys 1 ∅ demo_bytes 7 (encode_datum order_datum ++ [])
      (mkRegistered None "order" None None) (compile demo_lib 7 "order"));
      [done|done|exact (Hone 7)|exact busy_reach|vm_compute; by eexists| | | | | |done|left].
    6: { assert (Hh : sy_heard busy_sys = [HFetch 7 (TransientFailure "timeout") 1;
           HFetch 9 (Status 404 "the registry answered 404") 4]) by (vm_compute; reflexivity).
         intros answer t. rewrite Hh, !elem_of_cons, elem_of_nil. by intros [[= -> _]|[[=]|[]]]. }
    5: by apply Nat.leb_le; vm_compute.
    all: by vm_compute.
  - apply (payload_gets_schema demo_iter demo_perm demo_lib demo_ttl "http://registry"
      (fun _ => demo_answer "order") busy_sys 1 ∅ (confluent_frame_of 9 [0]) 9 [0]
      (mkRegistered None "order" None None) (compile demo_lib 9 "order"));
      [done|done|exact (Hone 9)|exact busy_reach|vm_compute; by eexists| | | | | |done|by right].
    5: by apply Nat.leb_le; vm_compute.
    all: by vm_compute.
Defined.

Lemma held_readers_transparent_witness :
  let visits := [([1; 2], 0, sy_reg warm); ([3], 1, sy_reg busy_sys)] in
  let c := core_new (RawDatum (compile demo_lib 0 "order")) None in
  let build (s : Schema) (_ : option Schema) : string + Schema := inr s in
  let read (s : Schema) (b : list Z) : bool * (string + list Z) := (false, inr b) in
  (core_run demo_iter demo_ttl build read true visits c).1 =
    (core_run demo_iter demo_ttl build read false visits c).1.
Proof.
  intros visits c build read.
  apply (held_readers_transparent demo_iter demo_perm demo_ttl build read (fun _ => inr order));
    [vm_compute; reflexivity|].
  assert (Hw : r_cache (sy_reg warm) = {[ 7 := EReady (compile demo_lib 7 "order") ]}) by (vm_compute; reflexivity).
  assert (Hb : r_cache (sy_reg busy_sys) = {[ 9 := EFailed "registry fetch for schema 9 failed: the registry answered 404" 4 ]})
    by (vm_compute; reflexivity).
  repeat apply List.Forall_cons; [..|apply List.Forall_nil]; intros id c'; cbn [snd].
  - rewrite Hw. intros [_ [= <-]]%lookup_singleton_Some. vm_compute. reflexivity.
  - rewrite Hb. by intros [_ [=]]%lookup_singleton_Some.
Defined.

Lemma avro_payload_roundtrip_witness :
  exists m, datum_deserialize demo_ttl (recorded no_uuid no_uuid no_text) (fun _ => "error") demo_bytes
      (Confluent ∅) (sy_now warm) (sy_reg warm) =
    Some (([trace no_uuid no_uuid no_text order_names None order order_datum], None), m, sy_reg warm).
Proof.
  assert (Hh : sy_heard warm = [HPre "orders" (Registered (mkRegistered (Some 7) "order" None None)) 0])
    by (vm_compute; reflexivity).
  apply (avro_payload_roundtrip demo_iter demo_perm demo_lib demo_ttl "http://registry" no_uuid no_uuid
    no_text (fun _ => "error") warm 1 ∅ 7 "order" order order_found order_names order_datum []).
  - exact warm_reach.
  - vm_compute. reflexivity.
  - lia.
  - exists (compile demo_lib 7 "order"). rewrite Hh. eexists. split; [left|].
    split; [done|vm_compute; reflexivity].
  - intros c (e & He & Ht). rewrite Hh in He. apply list_elem_of_singleton in He as ->.
    destruct Ht as [_ Ht]. revert Ht. unfold serves.
    destruct (unsupported _ _); [done|]. destruct (unusable_reason _); [done|]. by intros [= <-].
  - reflexivity.
  - reflexivity.
  - exact order_compiles.
  - vm_compute. reflexivity.
  - vm_compute. discriminate.
Defined.

Lemma avro_payload_safe_witness :
  exists a m r, datum_deserialize demo_ttl (recorded no_uuid no_uuid no_text) (fun _ => "error")
      [0; 0; 0; 0; 7; 255; 255] (Confluent ∅) (sy_now warm) (sy_reg warm) = Some (a, m, r) /\
    (length a.1 <= 1)%nat /\ (is_Some a.2 -> a.1 = []) /\ deser_answer a = Some a.
Proof.
  apply (avro_payload_safe demo_iter demo_perm demo_lib demo_ttl "http://registry" no_uuid no_uuid
    no_text (fun _ => "error")).
  - intros sch found [= <-]. by repeat constructor.
  - exact warm_reach.
  - exists 1%nat. vm_compute. reflexivity.
Defined.
