(* ===== verification/AvroConfig.v ===== *)
(** * Building the Avro deserializers ([spate-avro/src/config.rs])

    The settings of the [avro] component, the checks and loads a builder makes of
    them, and the deserializers it hands out. Reading a file, parsing a URL,
    building an HTTP client and fingerprinting a schema are parameters; so is
    [AvroLib], as in [AvroSource]. The outer [option] of a load is a panic, which
    only an uncaught parse of the reader schema can raise. *)

From stdpp Require Import base list gmap strings pretty.
From Stdlib Require Import ZArith Lia.
From S2P Require Import Prelude Backoff Chain AvroDatum AvroSource.

Inductive AvroMode := ModeConfluent | ModeRaw | ModeSingleObject.
#[export] Instance avro_mode_eq : EqDecision AvroMode.
Proof. solve_decision. Defined.

Record SchemaSource := mkSchemaSource {
  inline : option string;
  path : option string;
}.

(** [root_ca] is the [tls] section's. *)
Record RegistrySection := mkRegistrySection {
  rg_url : string;
  rg_username : option string;
  rg_password : option string;
  rg_root_ca : option string;
}.

Record AvroSettings := mkSettings {
  mode : AvroMode;
  registry : option RegistrySection;
  prewarm_subjects : list string;
  negative_cache_ttl : Z;
  reader_schema : option SchemaSource;
  schema : option SchemaSource;
}.

Definition MIN_NEGATIVE_CACHE_TTL : Z := 100 * MILLIS.

Inductive AvroConfigError :=
  | SchemaLoad (detail : string)
  | ConfigInvalid (detail : string)
  | RegistryClient (detail : string).

(** A parsed URL. *)
Record Url := mkUrl {
  scheme : string;
  username_of : string;
  password_of : option string;
}.

(** What the builder calls: [read_file] and [http_client] with their rendered
    errors, [url_parse] with its own, and the bytes of the Rabin fingerprint. *)
Record ConfigEnv := mkConfigEnv {
  env_lib : AvroLib;
  read_file : string -> string + string;
  url_parse : string -> string + Url;
  http_client : option string -> option AvroConfigError;
  rabin : Schema -> list Z;
}.

(** What a Confluent build starts: the fetcher's endpoint and time to live, and
    the subjects of the pre-warm, which is not spawned without any. *)
Record Started := mkStarted {
  st_url : string;
  st_basic_auth : option (string * option string);
  st_ttl : Z;
  st_subjects : list string;
}.

(** [AvroDeserializerBuilder], its core without held readers. *)
Record Builder := mkBuilder {
  b_mode : Mode;
  b_reader_schema : option Schema;
  b_started : option Started;
}.

Section config.
Variable E : ConfigEnv.

Definition load_text (s : SchemaSource) : AvroConfigError + string :=
  match inline s, path s with
  | Some text, None => inr text
  | None, Some p =>
      match read_file E p with
      | inl e => inl (SchemaLoad (p +:+ ": " +:+ e))
      | inr text => inr text
      end
  | _, _ => inl (ConfigInvalid "a schema source needs exactly one of `inline` or `path`")
  end.

(** [SchemaSource::load]. *)
Definition load (s : SchemaSource) : option (AvroConfigError + Schema) :=
  match load_text s with
  | inl e => Some (inl e)
  | inr text =>
      parsed ← parse_schema (env_lib E) text;
      Some match parsed with
           | inl e => inl (SchemaLoad ("schema failed to parse: " +:+ e))
           | inr s => inr s
           end
  end.

(** [Endpoint::new]. *)
Definition endpoint_new (url : string) : option AvroConfigError :=
  match url_parse E url with
  | inl e => Some (ConfigInvalid ("registry.url is not a URL: " +:+ e))
  | inr u =>
      if decide (scheme u = "http" \/ scheme u = "https") then None
      else Some (ConfigInvalid "registry.url must be an http:// or https:// URL")
  end.

Definition fixed_schema (settings : AvroSettings) (name : string) : AvroConfigError + CompiledSchema :=
  match schema settings with
  | None => inl (ConfigInvalid ("mode `" +:+ name +:+ "` requires a `schema` (inline or path)"))
  | Some source =>
      match registry settings with
      | Some _ => inl (ConfigInvalid ("mode `" +:+ name +:+ "` does not use a `registry` section"))
      | None =>
          match load_text source with
          | inl e => inl e
          | inr json =>
              let compiled := compile (env_lib E) 0 json in
              match unusable_reason compiled with
              | Some reason => inl (SchemaLoad reason)
              | None => inr compiled
              end
          end
      end
  end.

Definition url_has_credentials (url : string) : bool :=
  match url_parse E url with
  | inl _ => false
  | inr u => negb (bool_decide (username_of u = "")) || bool_decide (is_Some (password_of u))
  end.

(** The [Confluent] arm. *)
Definition confluent_mode_of (settings : AvroSettings) : AvroConfigError + (Mode * Started) :=
  match registry settings with
  | None => inl (ConfigInvalid "mode `confluent` requires a `registry` section")
  | Some rg =>
      if schema settings then
        inl (ConfigInvalid "`schema` is only used in `raw`/`single_object` modes; in `confluent` mode writer schemas come from the registry (use `reader_schema` to pin the resolved shape)")
      else if bool_decide (is_Some (rg_root_ca rg)) &&
        negb match url_parse E (rg_url rg) with inl _ => false | inr u => bool_decide (scheme u = "https") end then
        inl (ConfigInvalid "registry.tls.root_ca is set, but registry.url is not https://")
      else
        match endpoint_new (rg_url rg) with
        | Some e => inl e
        | None =>
            match http_client E (rg_root_ca rg) with
            | Some e => inl e
            | None => inr (Confluent ∅,
                mkStarted (rg_url rg) ((fun u => (u, rg_password rg)) <$> rg_username rg)
                  (negative_cache_ttl settings) (prewarm_subjects settings))
            end
        end
  end.

(** The [Raw] and [SingleObject] arms. *)
Definition fixed_mode_of (settings : AvroSettings) : AvroConfigError + Mode :=
  let single := bool_decide (mode settings = ModeSingleObject) in
  match fixed_schema settings (if single then "single_object" else "raw") with
  | inl e => inl e
  | inr c =>
      if decide (prewarm_subjects settings <> []) then
        inl (ConfigInvalid "`prewarm_subjects` requires mode `confluent`")
      else if negb single then inr (RawDatum c)
      else if reader_schema settings then
        inl (ConfigInvalid "single_object mode decodes with the configured schema directly; `reader_schema` is not supported")
      else
        match cs_schema c with
        | inl reason => inl (SchemaLoad ("mode `single_object` computes the header fingerprint with the apache parser, which rejected the schema: " +:+ reason))
        | inr s =>
            if decide (length (rabin E s) = 8%nat) then inr (SingleObject c (le_val (rabin E s)))
            else inl (ConfigInvalid "unexpected Rabin fingerprint width")
        end
  end.

Definition from_settings_on (settings : AvroSettings) : option (AvroConfigError + Builder) :=
  let confluent := bool_decide (mode settings = ModeConfluent) in
  let on_registry (p : RegistrySection -> bool) :=
    match registry settings with Some rg => p rg | None => false end in
  if confluent && on_registry (fun rg => url_has_credentials (rg_url rg)) then
    Some (inl (ConfigInvalid "registry.url contains credentials; set them in registry.username and registry.password"))
  else if confluent &&
    on_registry (fun rg => bool_decide (is_Some (rg_password rg)) && bool_decide (rg_username rg = None)) then
    Some (inl (ConfigInvalid "registry.password is set, but registry.username is not"))
  else if negb (check_duration (negative_cache_ttl settings) (at_least MIN_NEGATIVE_CACHE_TTL)) then
    Some (inl (ConfigInvalid "`negative_cache_ttl`: a shorter entry can expire before the blocked record is replayed, and each replay then fetches the schema id again"))
  else
    reader ← match reader_schema settings with
      | None => Some (inr None)
      | Some source =>
          loaded ← load source;
          Some match loaded with inl e => inl e | inr s => inr (Some s) end
      end;
    Some match reader with
         | inl e => inl e
         | inr reader =>
             if confluent then
               match confluent_mode_of settings with
               | inl e => inl e
               | inr (m, started) => inr (mkBuilder m reader (Some started))
               end
             else
               match fixed_mode_of settings with
               | inl e => inl e
               | inr m => inr (mkBuilder m reader None)
               end
         end.

Definition fixed_schema_error (b : Builder) : option string :=
  match b_mode b with
  | RawDatum c | SingleObject c _ => match cs_schema c with inl reason => Some reason | inr _ => None end
  | Confluent _ => None
  end.
Definition fixed_datum_error (b : Builder) : option string :=
  match b_mode b with
  | RawDatum c | SingleObject c _ => match cs_datum c with inl reason => Some reason | inr _ => None end
  | Confluent _ => None
  end.

(** [build_value] and [build_serde]: a clone of the core. *)
Definition build_value (b : Builder) : AvroConfigError + Builder :=
  match fixed_schema_error b with
  | Some reason => inl (ConfigInvalid reason)
  | None => inr b
  end.

(** [build_datum] and [build_serde_datum]. *)
Definition build_datum (b : Builder) : AvroConfigError + Builder :=
  if b_reader_schema b then
    inl (ConfigInvalid "the datum deserializer does not apply a `reader_schema` (records decode in the writer schema's shape; use `#[serde(default)]`/`#[serde(alias)]` on the record type, or `build_serde` for Avro schema resolution)")
  else match fixed_schema_error b with
  | Some reason => inl (ConfigInvalid reason)
  | None =>
      match fixed_datum_error b with
      | Some reason => inl (ConfigInvalid reason)
      | None => inr b
      end
  end.

(** ** What an accepted configuration gives *)
Lemma fixed_schema_usable settings name c :
  fixed_schema settings name = inr c ->
  registry settings = None /\ exists json s, c = compile (env_lib E) 0 json /\ cs_schema c = inr s.
Proof.
  unfold fixed_schema. destruct (schema settings) as [source|]; [|done].
  destruct (registry settings); [done|]. destruct (load_text source) as [e|json]; [done|].
  unfold unusable_reason. destruct (cs_schema (compile (env_lib E) 0 json)) as [e|s] eqn:Es; [done|].
  intros [= <-]. by eauto.
Qed.

Lemma fixed_mode_usable settings m :
  fixed_mode_of settings = inr m ->
  registry settings = None /\ prewarm_subjects settings = [] /\
  exists json s, cs_schema (compile (env_lib E) 0 json) = inr s /\
    match m with
    | RawDatum c => mode settings <> ModeSingleObject /\ c = compile (env_lib E) 0 json
    | SingleObject c fp => mode settings = ModeSingleObject /\ c = compile (env_lib E) 0 json /\
        reader_schema settings = None /\ fp = le_val (rabin E s)
    | Confluent _ => False
    end.
Proof.
  unfold fixed_mode_of. destruct (fixed_schema _ _) as [e|c] eqn:Ef; [done|].
  apply fixed_schema_usable in Ef as (Hr & json & s & -> & Hs).
  destruct (decide _) as [|Hp]; [done|].
  assert (prewarm_subjects settings = []) by (destruct (prewarm_subjects settings); [done|by destruct Hp]).
  destruct (bool_decide _) eqn:Em; cbn [negb].
  - apply bool_decide_eq_true_1 in Em. destruct (reader_schema settings); [done|]. rewrite Hs.
    destruct (decide _); [|done]. intros [= <-]. split_and!; try done. by exists json, s.
  - apply bool_decide_eq_false_1 in Em. intros [= <-]. split_and!; try done. by exists json, s.
Qed.

Lemma confluent_accepted settings m st :
  confluent_mode_of settings = inr (m, st) ->
  m = Confluent ∅ /\ schema settings = None /\ exists rg u, registry settings = Some rg /\
    url_parse E (rg_url rg) = inr u /\ (scheme u = "http" \/ scheme u = "https") /\
    (is_Some (rg_root_ca rg) -> scheme u = "https") /\
    st_ttl st = negative_cache_ttl settings /\ st_subjects st = prewarm_subjects settings /\
    st_basic_auth st = ((fun u => (u, rg_password rg)) <$> rg_username rg).
Proof.
  unfold confluent_mode_of. destruct (registry settings) as [rg|]; [|done].
  destruct (schema settings); [done|]. destruct (_ && _) eqn:Eca; [done|].
  unfold endpoint_new. destruct (url_parse E (rg_url rg)) as [e|u] eqn:Eu; [done|].
  destruct (decide _) as [Hsch|]; [|done]. destruct (http_client E _); [done|]. intros [= <- <-].
  split_and!; [done|done|]. exists rg, u. split_and!; try done. intros Hca.
  rewrite (bool_decide_true _ Hca) in Eca. cbn in Eca. apply negb_false_iff in Eca.
  by apply bool_decide_eq_true_1 in Eca.
Qed.

(** The outermost test of the equation to be refuted or pursued. *)
Local Ltac top_if E :=
  match goal with |- (if ?b then _ else _) = _ -> _ => destruct b eqn:E end.

(** Accepted settings are consistent. A Confluent build has a registry with an
    http or https URL that carries no credentials, no password without a user name,
    https where a root CA is set, and a negative TTL that outlives a replay; a
    fixed build has a schema that compiled, and no registry, subjects or, for
    single objects, reader schema. *)
Theorem accepted_settings settings b :
  from_settings_on settings = Some (inr b) ->
  MIN_NEGATIVE_CACHE_TTL <= negative_cache_ttl settings /\
  match b_mode b with
  | Confluent memo => memo = ∅ /\ mode settings = ModeConfluent /\ schema settings = None /\
      exists rg u st, registry settings = Some rg /\ b_started b = Some st /\
        url_parse E (rg_url rg) = inr u /\ (scheme u = "http" \/ scheme u = "https") /\
        username_of u = "" /\ password_of u = None /\
        (is_Some (rg_password rg) -> is_Some (rg_username rg)) /\
        (is_Some (rg_root_ca rg) -> scheme u = "https") /\
        st_ttl st = negative_cache_ttl settings /\ st_subjects st = prewarm_subjects settings
  | RawDatum c => mode settings = ModeRaw /\ registry settings = None /\ prewarm_subjects settings = [] /\
      exists json s, c = compile (env_lib E) 0 json /\ cs_schema c = inr s
  | SingleObject c fp => mode settings = ModeSingleObject /\ registry settings = None /\
      prewarm_subjects settings = [] /\ reader_schema settings = None /\
      exists json s, c = compile (env_lib E) 0 json /\ cs_schema c = inr s /\ fp = le_val (rabin E s)
  end.
Proof.
  unfold from_settings_on. cbv zeta. top_if Ecred; [done|]. top_if Epass; [done|].
  unfold check_duration. cbn [at_least or_zero_ floor ceiling andb].
  destruct (bool_decide (negative_cache_ttl settings < _)) eqn:Ettl; cbn [orb negb]; [done|].
  apply bool_decide_eq_false_1 in Ettl.
  destruct (match reader_schema settings with Some _ => _ | None => _ end) as [[e|reader]|]; [done| |done].
  cbn [mbind option_bind]. destruct (bool_decide (mode settings = ModeConfluent)) eqn:Em.
  - apply bool_decide_eq_true_1 in Em. destruct (confluent_mode_of settings) as [e|[m st]] eqn:Ec; [done|].
    intros [= <-]. split; [lia|].
    apply confluent_accepted in Ec as (-> & Hsc & rg & u & Hrg & Hu & Hsch & Hca & Httl & Hsub & _).
    cbn. rewrite Hrg in Ecred, Epass. cbn in Ecred, Epass. unfold url_has_credentials in Ecred. rewrite Hu in Ecred.
    apply orb_false_iff in Ecred as [Hun%negb_false_iff%bool_decide_eq_true_1 Hpw%bool_decide_eq_false_1].
    split_and!; try done. exists rg, u, st. split_and!; try done.
    + by apply eq_None_not_Some.
    + intros Hp. rewrite (bool_decide_true _ Hp) in Epass. cbn in Epass. apply bool_decide_eq_false_1 in Epass.
      by apply not_eq_None_Some.
  - apply bool_decide_eq_false_1 in Em. destruct (fixed_mode_of settings) as [e|m] eqn:Ef; [done|].
    intros [= <-]. split; [lia|].
    apply fixed_mode_usable in Ef as (Hr & Hp & json & s & Hs & Hm). cbn.
    destruct m as [memo|c|c fp]; [done| |].
    + destruct Hm as [Hm ->]. split_and!; try done; [|by exists json, s].
      revert Hm Em. by destruct (mode settings).
    + destruct Hm as (Hm & -> & Hrs & Hfp). split_and!; try done. by exists json, s.
Qed.

Lemma fixed_mode_settings settings b :
  from_settings_on settings = Some (inr b) -> mode settings <> ModeConfluent ->
  match b_mode b with Confluent _ => False | _ => True end.
Proof.
  unfold from_settings_on. intros Hb Hm. rewrite bool_decide_false in Hb by done. cbn [andb] in Hb.
  destruct (negb _); [done|].
  destruct (match reader_schema settings with Some _ => _ | None => _ end) as [[e|reader]|]; [done| |done].
  cbn in Hb. destruct (fixed_mode_of settings) as [e|m] eqn:Ef; [done|]. injection Hb as <-. cbn.
  apply fixed_mode_usable in Ef as (_ & _ & json & s & _ & H). by destruct m.
Qed.

Lemma single_object_malformed payload e : parse_single_object payload = inl e -> exists why, e = Malformed why.
Proof.
  unfold parse_single_object. destruct (decide _); [intros [= <-]; by eexists|].
  destruct (decide _); [intros [= <-]; by eexists|done].
Qed.

(** A deserializer built for a fixed schema needs nobody: it asks no registry, and
    calls a payload's schema unavailable only for a fingerprint that is not its
    schema's. *)
Theorem fixed_build_decodes {T} settings b b' ttl
    (decode : Schema -> Names -> list Z -> option (DatumError + T)) wording payload now r a m' r' :
  from_settings_on settings = Some (inr b) -> mode settings <> ModeConfluent -> build_datum b = inr b' ->
  datum_deserialize ttl decode wording payload (b_mode b') now r = Some (a, m', r') ->
  r' = r /\ m' = b_mode b' /\
  match a.2 with
  | Some (SchemaUnavailable _) => exists c fp fp' datum, b_mode b' = SingleObject c fp /\
      parse_single_object payload = inr (fp', datum) /\ fp' <> fp
  | Some (DeserNotReady _) | Some (DeserFatal _) => False
  | _ => True
  end.
Proof.
  intros Hb Hmode Hbd Hde.
  assert (Hm : match b_mode b' with
    | Confluent _ => False
    | RawDatum c | SingleObject c _ => exists s names, cs_schema c = inr s /\ cs_datum c = inr names
    end).
  { apply fixed_mode_settings in Hb; [|done]. unfold build_datum, fixed_schema_error, fixed_datum_error in Hbd.
    destruct (b_reader_schema b); [done|]. destruct (b_mode b) as [memo|c|c fp] eqn:Em; [done| |].
    all: destruct (cs_schema c) eqn:Es; [done|]; destruct (cs_datum c) eqn:Ed; [done|].
    all: injection Hbd as <-; rewrite Em; by eauto. }
  revert Hde. unfold datum_deserialize, resolve_payload. destruct payload as [|x payload]; [by intros [= <- <- <-]|].
  destruct (b_mode b') as [memo|c|c fp]; [done| |].
  - destruct Hm as (s & names & -> & ->). destruct (decode s names _) as [[e|y]|]; cbn; [..|done].
    all: by intros [= <- <- <-].
  - destruct (parse_single_object (x :: payload)) as [e|[fp' datum]] eqn:Ep.
    { apply single_object_malformed in Ep as [why ->]. by intros [= <- <- <-]. }
    destruct (decide (fp' <> fp)) as [Hne|]; [intros [= <- <- <-]; split_and!; [done|done|by do 4 eexists]|].
    destruct Hm as (s & names & -> & ->). destruct (decode s names _) as [[e|y]|]; cbn; [..|done].
    all: by intros [= <- <- <-].
Qed.
End config.

(** ** Examples *)

Definition demo_env (L : AvroLib) : ConfigEnv :=
  mkConfigEnv L (fun p => inl "no such file")
    (fun u => if decide (u = "http://registry") then inr (mkUrl "http" "" None) else inl "not a URL")
    (fun _ => None) (fun _ => [1; 2; 3; 4; 5; 6; 7; 8]).
Definition long_lib : AvroLib :=
  mkAvroLib (fun _ => Some (inr SLong)) (fun _ => Some (inr [])) (fun _ _ => "unsupported").
Definition single_settings : AvroSettings :=
  mkSettings ModeSingleObject None [] (100 * MILLIS) None (Some (mkSchemaSource (Some "long") None)).
Definition demo_settings : AvroSettings :=
  mkSettings ModeConfluent (Some (mkRegistrySection "http://registry" (Some "u") (Some "p") None)) ["orders"]
    (30000 * MILLIS) None None.

Lemma accepted_settings_witness :
  exists b, from_settings_on (demo_env long_lib) demo_settings = Some (inr b) /\
    MIN_NEGATIVE_CACHE_TTL <= negative_cache_ttl demo_settings.
Proof.
  eexists. split; [vm_compute; reflexivity|].
  eapply (accepted_settings (demo_env long_lib)). vm_compute. reflexivity.
Defined.

Definition single_builder : Builder :=
  mkBuilder (SingleObject (mkCompiled 0 (inr SLong) (inr ∅)) (le_val [1; 2; 3; 4; 5; 6; 7; 8])) None None.
Definition idle_registry : Registry := mkRegistry ∅ None [] None.
Definition unit_decode (_ : Schema) (_ : Names) (_ : list Z) : option (DatumError + unit) := Some (inr tt).
Definition foreign_payload : list Z := [0xC3; 1; 0; 0; 0; 0; 0; 0; 0; 0; 4].

Lemma fixed_build_decodes_witness :
  from_settings_on (demo_env long_lib) single_settings = Some (inr single_builder) /\
  exists a why, datum_deserialize 0 unit_decode (fun _ => "") foreign_payload (b_mode single_builder) 0
      idle_registry = Some (a, b_mode single_builder, idle_registry) /\
    a.2 = Some (SchemaUnavailable why) /\
    exists c fp fp' datum, b_mode single_builder = SingleObject c fp /\
      parse_single_object foreign_payload = inr (fp', datum) /\ fp' <> fp.
Proof.
  split; [vm_compute; reflexivity|]. do 2 eexists.
  split; [vm_compute; reflexivity|]. split; [vm_compute; reflexivity|].
  destruct (fixed_build_decodes (demo_env long_lib) single_settings single_builder single_builder 0 unit_decode
    (fun _ => "") foreign_payload 0 idle_registry
    ([], Some (SchemaUnavailable "single-object fingerprint 0x0000000000000000 does not match the configured schema (0x0807060504030201)"))
    (b_mode single_builder) idle_registry) as (_ & _ & H); [vm_compute; reflexivity|discriminate|done|vm_compute; reflexivity|].
  exact H.
Defined.
