(* ===== verification/S3Unit.v ===== *)
(** * Work units of the object-store source ([spate-s3/src/unit.rs], the
    identities and cutting rule of [split.rs], [Codec::resolve] of [framer.rs])

    What a lister publishes and what a reader makes of a delivery: [parts_of]
    and [Cursor], the [Packer] of small objects, the unit ids, [decode] of a
    descriptor or a storage notification, and [re_enqueue_body], the
    notification a worker writes for an overwritten key. Keys, ETags and bodies
    are byte strings. JSON, [object_store]'s paths, [chrono], SHA-256 and
    base64 are the class [UnitLib]; [UnitLaws] is what they document. *)

From stdpp Require Import base gmap sorting strings countable list.
From Stdlib Require Import ZArith Lia Ascii.
From S2P Require Import Prelude Framing S3Split S3Offset MemoryFeed.

(** The bytes of an ASCII literal. *)
Definition ascii_bytes (s : string) : list Z :=
  (fun a => Z.of_N (N_of_ascii a)) <$> String.list_ascii_of_string s.

Record ObjectEntry := mkEntry {
  e_key : list Z;
  e_size : Z;
  e_etag : option (list Z);
  e_last_modified_ms : Z;
}.

Record Overwrite := mkOverwrite {
  o_key : list Z;
  o_etag : option (list Z);
  o_size : Z;
  o_last_modified_ms : Z;
}.

(** [SplitDescriptor::to_entries], and the member a listed entry becomes. *)
Definition to_entries (d : SplitDescriptor) : list ObjectEntry :=
  (fun o => mkEntry (key o) (S3Offset.size o) (etag o) (last_modified_ms o)) <$> objects d.
Definition descriptor_object (e : ObjectEntry) : DescriptorObject :=
  mkObject (e_key e) (e_size e) (e_etag e) (e_last_modified_ms e).

(** ** Codecs and the cutting rule *)

Inductive Compression := CompressionNone | CompressionGzip | CompressionZstd | CompressionAuto.
Inductive Codec := Plain | Gzip | Zstd.

#[export] Instance Codec_eq_dec : EqDecision Codec.
Proof. solve_decision. Defined.

(** [str::ends_with] and [str::strip_prefix]. *)
Definition ends_with (suffix s : list Z) : bool :=
  bool_decide (suffix = drop (length s - length suffix) s).
Fixpoint strip_prefix (p s : list Z) : option (list Z) :=
  match p, s with
  | [], _ => Some s
  | a :: p, b :: s => if bool_decide (a = b) then strip_prefix p s else None
  | _ :: _, [] => None
  end.

Definition codec_resolve (config : Compression) (key : list Z) : Codec :=
  match config with
  | CompressionNone => Plain
  | CompressionGzip => Gzip
  | CompressionZstd => Zstd
  | CompressionAuto =>
      if ends_with (ascii_bytes ".gz") key || ends_with (ascii_bytes ".gzip") key then Gzip
      else if ends_with (ascii_bytes ".zst") key || ends_with (ascii_bytes ".zstd") key then Zstd
      else Plain
  end.

Definition MAX_UNIT_MEMBERS : nat := 4096.
Definition PACK_MEMBERS : nat := 16.
Definition PACK_KEY_MAX_BYTES : nat := 1024.
Definition PACK_ETAG_MAX_BYTES : nat := 256.
Definition PACKING_VERSION : Z := 2.
Definition MAX_SUBDIVIDABLE_BYTES : Z := Z.shiftl 50000 30.
#[global] Arguments MAX_UNIT_MEMBERS : simpl never.
#[global] Arguments PACK_MEMBERS : simpl never.

Record Packing := mkPacking {
  target_bytes : Z;
  compression : Compression;
  pk_delimiter : option Z;
}.

(** [Packing::delimiter_for]. *)
Definition delimiter_for (p : Packing) (e : ObjectEntry) : option Z :=
  d ← pk_delimiter p;
  if bool_decide (target_bytes p < e_size e) && bool_decide (e_size e <= MAX_SUBDIVIDABLE_BYTES) &&
     bool_decide (is_Some (e_etag e)) && bool_decide (codec_resolve (compression p) (e_key e) = Plain)
  then Some d else None.

(** ** What the code takes from other crates *)

(** [serde_json::Value]; an object's keys are distinct. *)
Inductive Json :=
  | JNull
  | JBool (b : bool)
  | JInt (n : Z)
  | JFloat (bits : Z)
  | JString (s : list Z)
  | JArray (l : list Json)
  | JObject (m : list (list Z * Json)).

(** [Value::get] of a name, [as_str] and [as_array]. *)
Fixpoint assoc_get (name : list Z) (m : list (list Z * Json)) : option Json :=
  match m with
  | [] => None
  | (k, j) :: m => if bool_decide (k = name) then Some j else assoc_get name m
  end.
Definition json_get (name : string) (j : Json) : option Json :=
  match j with JObject m => assoc_get (ascii_bytes name) m | _ => None end.
Definition json_str (j : Json) : option (list Z) := match j with JString s => Some s | _ => None end.
Definition json_array (j : Json) : option (list Json) := match j with JArray l => Some l | _ => None end.

(** [Record], with the structs nested in it. *)
Record RecordFields := mkRecord {
  event_source : option (list Z);
  event_time : option (list Z);
  re_enqueues : option Z;
  bucket_name : list Z;
  r_key : list Z;
  r_size : option Z;
  r_etag : option (list Z);
  version_id : option (list Z);
}.

(** An optional field of an object: absent and null are [None]. *)
Definition json_opt {A} (f : Json -> option A) (name : string) (j : Json) : option (option A) :=
  match json_get name j with
  | None | Some JNull => Some None
  | Some x => Some <$> f x
  end.
Definition json_uint (bits : Z) (j : Json) : option Z :=
  match j with JInt n => if bool_decide (0 <= n < 2 ^ bits) then Some n else None | _ => None end.

(** The fields of a record written as objects, by their names. *)
Definition record_by_name (j : Json) : option RecordFields :=
  src ← json_opt json_str "eventSource" j;
  time ← json_opt json_str "eventTime" j;
  n ← json_opt (json_uint 32) "spateReEnqueues" j;
  s3 ← json_get "s3" j;
  bucket ← json_get "bucket" s3;
  name ← json_get "name" bucket ≫= json_str;
  object ← json_get "object" s3;
  key ← json_get "key" object ≫= json_str;
  size ← json_opt (json_uint 64) "size" object;
  etag ← json_opt json_str "eTag" object;
  version ← json_opt json_str "versionId" object;
  Some (mkRecord src time n name key size etag version).

(** The libraries: [Path::parse], [serde_json] on values, records and
    descriptors, [chrono]'s RFC 3339 text of a time in milliseconds, and the
    digest of an id. *)
Class UnitLib := {
  path_parse : list Z -> option (list Z);
  json_from_slice : list Z -> option Json;
  json_to_vec : Json -> list Z;
  record_deserialize : Json -> option RecordFields;
  descriptor_to_vec : SplitDescriptor -> list Z;
  descriptor_probe : list Z -> option Z;
  descriptor_from_slice : list Z -> option SplitDescriptor;
  time_parse : list Z -> option Z;
  time_text : Z -> option (list Z);
  sha256 : list Z -> list Z;
  base64url : list Z -> string;
}.

(** What they document: JSON reads back as written, a derived [Deserialize]
    reads an object's fields by name, a descriptor is an object whose field
    [v] is its version, and a time reads back as printed. *)
Class UnitLaws `{UnitLib} := {
  json_roundtrip : forall j, json_from_slice (json_to_vec j) = Some j;
  record_fields : forall j r, record_by_name j = Some r -> record_deserialize j = Some r;
  descriptor_json : json_roundtrips descriptor_to_vec descriptor_probe descriptor_from_slice;
  descriptor_object_v : forall d, exists j,
    json_from_slice (descriptor_to_vec d) = Some j /\ is_Some (json_get "v" j);
  time_roundtrip : forall ms t, time_text ms = Some t -> time_parse t = Some ms;
}.

Section units.
Context `{UnitLib}.

(** [addressable]. *)
Definition addressable (key : list Z) : bool :=
  match path_parse key with Some p => bool_decide (p = key) | None => false end.

(** ** Parts *)

Inductive Origin :=
  | Lister
  | Notification (version : option (list Z)) (re_enqueues : Z).

Record Part := mkPart {
  p_object : list ObjectEntry;
  p_range : option SplitRange;
  p_origin : Origin;
}.

(** [ranges] is what is still to yield; [None] when the objects are read
    whole. *)
Record Cursor := mkCursor {
  c_object : list ObjectEntry;
  c_ranges : option (list SplitRange);
  c_whole : bool;
  c_origin : Origin;
}.

Definition cursor_whole (object : list ObjectEntry) (origin : Origin) : Cursor :=
  mkCursor object None true origin.
Definition cursor_ranges (object : list ObjectEntry) (ranges : list SplitRange) (origin : Origin)
    : Cursor :=
  mkCursor object (Some ranges) false origin.
Definition cursor_range (object : list ObjectEntry) (range : SplitRange) (origin : Origin) : Cursor :=
  cursor_ranges object [range] origin.

(** [Cursor::key]: the first object's; [None] is the index panic. *)
Definition cursor_key (c : Cursor) : option (list Z) := e_key <$> head (c_object c).

(** [Cursor::is_exhausted]. *)
Definition is_exhausted (c : Cursor) : bool :=
  match c_ranges c with
  | Some rs => bool_decide (rs = [])
  | None => negb (c_whole c)
  end.

(** [Iterator::next]. *)
Definition cursor_next (c : Cursor) : option (Part * Cursor) :=
  match c_ranges c with
  | Some [] => None
  | Some (r :: rs) =>
      Some (mkPart (c_object c) (Some r) (c_origin c),
            mkCursor (c_object c) (Some rs) (c_whole c) (c_origin c))
  | None =>
      if c_whole c
      then Some (mkPart (c_object c) None (c_origin c), mkCursor (c_object c) None false (c_origin c))
      else None
  end.

(** What a cursor has still to yield. *)
Definition cursor_parts (c : Cursor) : list Part :=
  match c_ranges c with
  | Some rs => (fun r => mkPart (c_object c) (Some r) (c_origin c)) <$> rs
  | None => if c_whole c then [mkPart (c_object c) None (c_origin c)] else []
  end.

(** [parts_of] the one object [e]. *)
Definition parts_of (e : ObjectEntry) (packing : Packing) (origin : Origin) : Cursor :=
  match delimiter_for packing e with
  | Some d =>
      if addressable (e_key e)
      then cursor_ranges [e] (tile (e_size e) (target_bytes packing) d) origin
      else cursor_whole [e] origin
  | None => cursor_whole [e] origin
  end.

(** ** Unit ids *)

(** [digest_member]: what it feeds the hasher. *)
Definition len_prefixed (s : list Z) : list Z :=
  le_bytes 4 (Z.min (Z.of_nat (length s)) U32_MAX) ++ s.
Definition digest_member (key : list Z) (etag : option (list Z)) : list Z :=
  len_prefixed key ++ match etag with Some t => 1 :: len_prefixed t | None => [0] end.

(** The order of [str], byte by byte. *)
Fixpoint bytes_le (a b : list Z) : bool :=
  match a, b with
  | [], _ => true
  | _ :: _, [] => false
  | x :: a, y :: b =>
      if bool_decide (x < y) then true else if bool_decide (x = y) then bytes_le a b else false
  end.
Definition member_le (a b : list Z * option (list Z)) : Prop := bytes_le a.1 b.1 = true.
#[global] Instance member_le_dec : RelDecision member_le.
Proof. intros a b. unfold member_le. apply _. Defined.

(** What [split_id_for] and [split_id_for_range] digest. *)
Definition split_preimage (members : list (list Z * option (list Z))) : list Z :=
  ascii_bytes "spate-s3-split" ++ [10] ++ le_bytes 4 PACKING_VERSION ++
  concat ((fun m => digest_member m.1 m.2) <$> merge_sort member_le members).
Definition range_preimage (key etag : list Z) (range : SplitRange) : list Z :=
  ascii_bytes "spate-s3-range" ++ [10] ++ le_bytes 4 PACKING_VERSION ++
  digest_member key (Some etag) ++
  le_bytes 8 (sr_start range) ++ le_bytes 8 (sr_end range) ++ [sr_delimiter range].

Definition id_from_digest (preimage : list Z) : string :=
  "s3-" +:+ base64url (take 16 (sha256 preimage)).

Inductive IdError := EmptyMembers | EmptyRange (range : SplitRange).

Definition split_id_for (members : list (list Z * option (list Z))) : IdError + string :=
  if bool_decide (members = []) then inl EmptyMembers
  else inr (id_from_digest (split_preimage members)).
Definition split_id_for_range (key etag : list Z) (range : SplitRange) : IdError + string :=
  if bool_decide (sr_end range <= sr_start range) then inl (EmptyRange range)
  else inr (id_from_digest (range_preimage key etag range)).

(** ** Minting *)

Inductive MintError := BadId (e : IdError) | BadDescriptor (e : SplitError).

(** [Unit::new(id?, descriptor.encode()?)]. *)
Definition mint (id : IdError + string) (d : SplitDescriptor) : MintError + WorkUnit :=
  match id with
  | inl e => inl (BadId e)
  | inr id =>
      match descriptor_encode descriptor_to_vec d with
      | inl e => inl (BadDescriptor e)
      | inr body => inr (mkUnit id body)
      end
  end.

Definition entry_member (e : ObjectEntry) : list Z * option (list Z) := (e_key e, e_etag e).

(** [units]: one per part; [None] is the panic on a cut object with no ETag. *)
Definition unit_of_part (entry : ObjectEntry) (part : Part) : option (MintError + WorkUnit) :=
  let object := descriptor_object entry in
  match p_range part with
  | None => Some (mint (split_id_for [entry_member entry]) (descriptor_new [object]))
  | Some range =>
      t ← e_etag entry;
      Some (mint (split_id_for_range (e_key entry) t range) (with_range object range))
  end.
Definition units (entry : ObjectEntry) (packing : Packing) : option (list (MintError + WorkUnit)) :=
  mapM (unit_of_part entry) (cursor_parts (parts_of entry packing Lister)).

Record Minted := mkMinted {
  m_unit : WorkUnit;
  first_key : list Z;
  m_objects : nat;
  m_listed : nat;
}.

(** [alone_units]. *)
Definition alone_units (entry : ObjectEntry) (packing : Packing)
    : option (list (MintError + Minted)) :=
  us ← units entry packing;
  Some (imap (fun i u =>
    match u with
    | inl e => inl e
    | inr u => inr (mkMinted u (e_key entry) 1 (if bool_decide (i = O) then 1 else 0))
    end) us).

(** [packed_unit]; [None] is the index panic on no member. *)
Definition packed_unit (members : list ObjectEntry) : option (MintError + Minted) :=
  match mint (split_id_for (entry_member <$> members))
             (descriptor_new (descriptor_object <$> members)) with
  | inl e => Some (inl e)
  | inr u =>
      m ← head members;
      Some (inr (mkMinted u (e_key m) (length members) (length members)))
  end.

(** ** The packer *)

Record Packer := mkPacker {
  packing_of : Packing;
  open_ : list ObjectEntry;
  open_bytes : Z;
}.

Definition packer_new (packing : Packing) : Packer := mkPacker packing [] 0.

(** [sendable]. *)
Definition sendable (etag : list Z) : bool :=
  forallb (fun b => bool_decide (b = 9) || bool_decide (32 <= b) && bool_decide (b <> 127)) etag.

(** [Packer::shares]. *)
Definition shares (k : Packer) (e : ObjectEntry) : bool :=
  bool_decide (delimiter_for (packing_of k) e = None) && addressable (e_key e) &&
  bool_decide (length (e_key e) <= PACK_KEY_MAX_BYTES)%nat &&
  match e_etag e with
  | None => true
  | Some t => bool_decide (length t <= PACK_ETAG_MAX_BYTES)%nat && sendable t
  end.

(** [Packer::close]: the unit it mints, if an object waits; the outer [None]
    is a panic. *)
Definition packer_close (k : Packer) : option (list (MintError + Minted) * Packer) :=
  let k' := mkPacker (packing_of k) [] 0 in
  match open_ k with
  | [] => Some ([], k)
  | [e] => us ← alone_units e (packing_of k); Some (take 1 us, k')
  | members => u ← packed_unit members; Some ([u], k')
  end.

(** [Packer::push]. *)
Definition packer_push (e : ObjectEntry) (k : Packer) : option (list (MintError + Minted) * Packer) :=
  let shared := shares k e in
  '(before, k) ←
    (if negb shared || bool_decide (target_bytes (packing_of k) < sat_add_u64 (open_bytes k) (e_size e))
     then packer_close k else Some ([], k));
  if shared then
    let k := mkPacker (packing_of k) (open_ k ++ [e]) (sat_add_u64 (open_bytes k) (e_size e)) in
    '(after, k) ← (if bool_decide (length (open_ k) = PACK_MEMBERS) then packer_close k
                   else Some ([], k));
    Some (before ++ after, k)
  else
    alone ← alone_units e (packing_of k);
    Some (before ++ alone, k).

(** A listing pushed in order, then the close. *)
Fixpoint pack_listing (es : list ObjectEntry) (k : Packer) : option (list (MintError + Minted)) :=
  match es with
  | [] => fst <$> packer_close k
  | e :: es =>
      '(us, k) ← packer_push e k;
      rest ← pack_listing es k;
      Some (us ++ rest)
  end.

(** ** Reading a delivery *)

(** [None] matches no record; the empty prefix is the whole bucket. *)
Record Scope := mkScope {
  bucket : option (list Z);
  prefix : list Z;
}.

Inductive RecordFailure :=
  | NoEventName
  | Unreadable
  | OtherBucket (name : list Z)
  | MalformedEscape
  | NotUtf8
  | OutsidePrefix (key : list Z)
  | NoSize (key : list Z)
  | NotAddressable (key : list Z)
  | EtagNotSendable (key : list Z)
  | VersionTooLong (key : list Z)
  | VersionBytes (key : list Z).

Inductive UnitFailure :=
  | NotAUnit
  | NotADescriptor (e : SplitError)
  | MemberCount (n : nat)
  | MemberEtag (key : list Z)
  | OtherDelimiter (got : Z) (own : option Z)
  | CompressedRange (key : list Z) (codec : Codec)
  | BadRecord (i : nat) (why : RecordFailure).

Inductive AckReason := TestEvent | NothingToRead.

Inductive Decoded :=
  | Read (cursors : list Cursor)
  | Acknowledge (reason : AckReason)
  | Fail (why : UnitFailure).

Definition MAX_VERSION_BYTES : nat := 1024.
Definition CEPH_SOURCE : list Z := ascii_bytes "ceph:s3".

(** [char::to_digit(16)] of a byte. *)
Definition hex_value (b : Z) : option Z :=
  if between 48 57 b then Some (b - 48)
  else if between 97 102 b then Some (b - 87)
  else if between 65 70 b then Some (b - 55)
  else None.

(** The loop of [form_decoded]: [None] is a malformed escape. *)
Fixpoint form_bytes (l : list Z) : option (list Z) :=
  match l with
  | [] => Some []
  | b :: l1 =>
      if bool_decide (b = 43) then cons 32 <$> form_bytes l1
      else if bool_decide (b = 37) then
        match l1 with
        | h :: (w :: l3) =>
            high ← hex_value h; low ← hex_value w; cons (high * 16 + low) <$> form_bytes l3
        | _ => None
        end
      else cons b <$> form_bytes l1
  end.

Definition form_decoded (key : list Z) : RecordFailure + list Z :=
  match form_bytes key with
  | None => inl MalformedEscape
  | Some out => if valid_utf8 out then inr out else inl NotUtf8
  end.

(** [form_encoded]: a byte as it stands, or [%HH]. *)
Definition unreserved (b : Z) : bool :=
  between 48 57 b || between 65 90 b || between 97 122 b ||
  bool_decide (b ∈ [45; 46; 95; 126; 47]).
Definition hex_upper (n : Z) : Z := if bool_decide (n < 10) then 48 + n else 55 + n.
Definition form_encoded (key : list Z) : list Z :=
  concat ((fun b => if unreserved b then [b] else [37; hex_upper (b / 16); hex_upper (b mod 16)])
            <$> key).

(** [quoted]. *)
Definition quoted (etag : list Z) : list Z :=
  if bool_decide (2 <= length etag)%nat && bool_decide (head etag = Some 34) &&
     bool_decide (last etag = Some 34)
  then etag else 34 :: etag ++ [34].

(** The version a record names, or why it fails. *)
Definition record_version (key : list Z) (version : option (list Z))
    : RecordFailure + option (list Z) :=
  match version with
  | None => inr None
  | Some t =>
      if bool_decide (t = []) || bool_decide (t = ascii_bytes "null") then inr None
      else if bool_decide (MAX_VERSION_BYTES < length t)%nat then inl (VersionTooLong key)
      else if existsb (fun b => bool_decide (b = 32) || between 0 31 b || bool_decide (b = 127)) t
           then inl (VersionBytes key)
      else inr (Some t)
  end.

(** Whether [key] is outside the source's prefix. *)
Definition outside_prefix (scope : Scope) (key : list Z) : bool :=
  bool_decide (prefix scope <> []) &&
  negb (match strip_prefix (prefix scope) key with
        | Some rest => bool_decide (head rest = Some 47)
        | None => false
        end).

(** [record_part]. *)
Definition record_part (record : Json) (scope : Scope) (packing : Packing)
    : RecordFailure + option Cursor :=
  match json_get "eventName" record ≫= json_str with
  | None => inl NoEventName
  | Some event =>
  let event := default event (strip_prefix (ascii_bytes "s3:") event) in
  match strip_prefix (ascii_bytes "ObjectCreated:") event with
  | None => inr None
  | Some _ =>
  match record_deserialize record with
  | None => inl Unreadable
  | Some r =>
  if bool_decide (bucket scope <> Some (bucket_name r)) then inl (OtherBucket (bucket_name r))
  else
  match (if bool_decide (event_source r = Some CEPH_SOURCE) then inr (r_key r)
         else form_decoded (r_key r)) with
  | inl e => inl e
  | inr key =>
  if outside_prefix scope key then inl (OutsidePrefix key)
  else
  match r_size r with
  | None => inl (NoSize key)
  | Some size =>
  if bool_decide (size = 0) then inr None
  else if negb (addressable key) then inl (NotAddressable key)
  else if match r_etag r with Some t => negb (sendable t) | None => false end
  then inl (EtagNotSendable key)
  else
  match record_version key (version_id r) with
  | inl e => inl e
  | inr version =>
      let last_modified_ms := default 0 (event_time r ≫= time_parse) in
      let entry := mkEntry key size (quoted <$> r_etag r) last_modified_ms in
      inr (Some (parts_of entry packing (Notification version (default 0 (re_enqueues r)))))
  end end end end end end.

(** [descriptor_parts]. *)
Definition etag_refused (e : ObjectEntry) : bool :=
  match e_etag e with Some t => negb (sendable t) | None => false end.
Definition descriptor_parts (body : list Z) (packing : Packing) : UnitFailure + Cursor :=
  match descriptor_decode descriptor_probe descriptor_from_slice body with
  | inl e => inl (NotADescriptor e)
  | inr d =>
      let entries := to_entries d in
      if bool_decide (entries = []) || bool_decide (MAX_UNIT_MEMBERS < length entries)%nat
      then inl (MemberCount (length entries))
      else
      match list_find etag_refused entries with
      | Some (_, e) => inl (MemberEtag (e_key e))
      | None =>
      match entries with
      | [object] =>
          match range d with
          | None => inr (parts_of object packing Lister)
          | Some range =>
              if bool_decide (pk_delimiter packing <> Some (sr_delimiter range))
              then inl (OtherDelimiter (sr_delimiter range) (pk_delimiter packing))
              else
              let codec := codec_resolve (compression packing) (e_key object) in
              if bool_decide (codec <> Plain) then inl (CompressedRange (e_key object) codec)
              else inr (cursor_range [object] range Lister)
          end
      | _ => inr (cursor_whole entries Lister)
      end
      end
  end.

(** The loop of [decode] over the records of a notification, from the [i]th. *)
Fixpoint record_parts (i : nat) (records : list Json) (scope : Scope) (packing : Packing)
    : UnitFailure + list Cursor :=
  match records with
  | [] => inr []
  | r :: rs =>
      match record_part r scope packing with
      | inl e => inl (BadRecord i e)
      | inr c =>
          match record_parts (S i) rs scope packing with
          | inl e => inl e
          | inr cs => inr (option_list c ++ cs)
          end
      end
  end.

(** [decode]. *)
Definition decode_unit (body : list Z) (scope : Scope) (packing : Packing) : Decoded :=
  match json_from_slice body with
  | None => Fail NotAUnit
  | Some value =>
      if bool_decide (is_Some (json_get "v" value)) then
        match descriptor_parts body packing with
        | inr cursor => Read [cursor]
        | inl why => Fail why
        end
      else if bool_decide (json_get "Event" value ≫= json_str = Some (ascii_bytes "s3:TestEvent"))
      then Acknowledge TestEvent
      else
      match json_get "Records" value ≫= json_array with
      | None => Fail NotAUnit
      | Some records =>
          match record_parts 0 records scope packing with
          | inl why => Fail why
          | inr [] => Acknowledge NothingToRead
          | inr parts => Read parts
          end
      end
  end.

(** [re_enqueue_body]. *)
Definition re_enqueue_record (bucket : list Z) (o : Overwrite) (n : Z) : Json :=
  let object := [(ascii_bytes "key", JString (form_encoded (o_key o)));
                 (ascii_bytes "size", JInt (o_size o))] ++
                match o_etag o with Some t => [(ascii_bytes "eTag", JString t)] | None => [] end in
  JObject ([(ascii_bytes "eventName", JString (ascii_bytes "ObjectCreated:Put"));
            (ascii_bytes "spateReEnqueues", JInt n);
            (ascii_bytes "s3", JObject [(ascii_bytes "bucket", JObject [(ascii_bytes "name", JString bucket)]);
                                  (ascii_bytes "object", JObject object)])] ++
           match time_text (o_last_modified_ms o) with
           | Some t => [(ascii_bytes "eventTime", JString t)]
           | None => []
           end).
Definition re_enqueue_body (bucket : list Z) (o : Overwrite) (n : Z) : list Z :=
  json_to_vec (JObject [(ascii_bytes "Records", JArray [re_enqueue_record bucket o n])]).
End units.
