(* ===== verification/S3UnitProofs.v ===== *)
(** * Units read back: the form encoding of a key, the notification a worker
    re-enqueues, the descriptors a lister packs, and the preimages of the ids *)

From stdpp Require Import base gmap sorting strings countable list.
From Stdlib Require Import ZArith Lia Ascii.
From S2P Require Import Prelude Framing S3Split S3Offset MemoryFeed S3Unit.

(** ** Form encoding *)
Lemma between_true a b x : between a b x = true <-> a <= x <= b.
Proof. unfold between. rewrite andb_true_iff, !bool_decide_eq_true. lia. Qed.

Lemma between_false a b x : between a b x = false <-> ~ a <= x <= b.
Proof. rewrite <- between_true. by destruct (between a b x). Qed.

Lemma hex_value_upper n : 0 <= n < 16 -> hex_value (hex_upper n) = Some n.
Proof.
  intros Hn. unfold hex_value, hex_upper. case_bool_decide.
  - by rewrite (proj2 (between_true 48 57 _)) by lia; f_equal; lia.
  - rewrite (proj2 (between_false 48 57 _)), (proj2 (between_false 97 102 _)),
      (proj2 (between_true 65 70 _)) by lia. f_equal; lia.
Qed.

Lemma unreserved_plain b : unreserved b = true -> b <> 43 /\ b <> 37.
Proof.
  unfold unreserved. rewrite !orb_true_iff, !between_true, bool_decide_eq_true.
  rewrite !list_elem_of_In. cbn. lia.
Qed.

Lemma form_bytes_encoded key : Forall is_byte key -> form_bytes (form_encoded key) = Some key.
Proof.
  unfold form_encoded. induction key as [|b key IH]; intros HF; [done|].
  apply Forall_cons in HF as [Hb HF]. rewrite fmap_cons. cbn [concat].
  destruct (unreserved b) eqn:Hu.
  - apply unreserved_plain in Hu as [H1 H2]. cbn [app form_bytes].
    rewrite !bool_decide_false by done. by rewrite IH.
  - cbn [app form_bytes]. rewrite (bool_decide_false (37 = 43)), bool_decide_true by done.
    unfold is_byte in Hb. pose proof (Z.mod_pos_bound b 16).
    assert (0 <= b / 16 < 16) by (split; [apply Z.div_pos|apply Z.div_lt_upper_bound]; lia).
    rewrite !hex_value_upper by lia.
    cbn. rewrite IH by done. cbn. do 2 f_equal. pose proof (Z.div_mod b 16). lia.
Qed.

Lemma valid_utf8_bytes l : valid_utf8 l = true -> Forall is_byte l.
Proof.
  remember (length l) as n eqn:Hn. revert l Hn.
  induction n as [n IH] using lt_wf_ind. intros l -> Hv. destruct l as [|a l]; [constructor|].
  cbn in Hv. unfold is_byte.
  assert (Hr : forall l', (length l' < S (length l))%nat -> valid_utf8 l' = true -> Forall is_byte l').
  { intros l' Hl. by apply (IH (length l') Hl). }
  destruct (between 0 127 a) eqn:Ha.
  { apply between_true in Ha. constructor; [unfold is_byte; lia|]. apply Hr; [lia|done]. }
  destruct l as [|b l]; [done|]. destruct (between 194 223 a) eqn:H2.
  { apply andb_true_iff in Hv as [Hb Hv]. apply between_true in H2, Hb.
    repeat (constructor; [unfold is_byte; lia|]). apply Hr; [cbn; lia|done]. }
  destruct l as [|c l]; [done|]. destruct (between 224 239 a) eqn:H3.
  { rewrite !andb_true_iff in Hv. destruct Hv as [[Hb Hc] Hv]. apply between_true in H3, Hc.
    assert (128 <= b <= 191) by (repeat case_bool_decide; apply between_true in Hb; lia).
    repeat (constructor; [unfold is_byte; lia|]). apply Hr; [cbn; lia|done]. }
  destruct l as [|d l]; [done|]. rewrite !andb_true_iff in Hv.
  destruct Hv as [[[[H4 Hb] Hc] Hd] Hv]. apply between_true in H4, Hc, Hd.
  assert (128 <= b <= 191) by (repeat case_bool_decide; apply between_true in Hb; lia).
  repeat (constructor; [unfold is_byte; lia|]). apply Hr; [cbn; lia|done].
Qed.

Lemma form_roundtrip key : valid_utf8 key = true -> form_decoded (form_encoded key) = inr key.
Proof.
  intros Hv. unfold form_decoded. rewrite form_bytes_encoded by (by apply valid_utf8_bytes).
  by rewrite Hv.
Qed.

(** ** The re-enqueued notification *)

Section re_enqueue.
Context `{UnitLaws}.

(** What a record that yields a part says of its key. *)
Lemma record_part_inv record scope packing c :
  record_part record scope packing = inr (Some c) ->
  exists e version n,
    c = parts_of e packing (Notification version n) /\
    is_Some (bucket scope) /\ addressable (e_key e) = true /\
    outside_prefix scope (e_key e) = false.
Proof.
  unfold record_part. intros Hp.
  destruct (json_get _ record ≫= json_str) as [event|]; [|done]. cbn zeta in Hp.
  destruct (strip_prefix (ascii_bytes "ObjectCreated:") _); [|done].
  destruct (record_deserialize record) as [r|]; [|done].
  case_bool_decide as Hb; [done|]. destruct (if bool_decide _ then _ else _) as [|key]; [done|].
  destruct (outside_prefix scope key) eqn:Ho; [done|]. destruct (r_size r) as [size|]; [|done].
  case_bool_decide; [done|]. destruct (addressable key) eqn:Ha; [|done]. cbn in Hp.
  destruct (match r_etag r with Some _ => _ | None => _ end); [done|].
  destruct (record_version key (version_id r)) as [|v]; [done|]. injection Hp as <-.
  eexists _, _, _. split; [done|]. split_and!; [|done..].
  rewrite Hb. by eexists.
Qed.

Lemma record_parts_inv records : forall i scope packing cs c,
  record_parts i records scope packing = inr cs -> c ∈ cs ->
  exists r, record_part r scope packing = inr (Some c).
Proof.
  induction records as [|r rs IH]; intros i scope packing cs c; cbn.
  { intros [= <-] Hc. by apply not_elem_of_nil in Hc. }
  destruct (record_part r scope packing) as [|oc] eqn:Hr; [done|].
  destruct (record_parts _ rs scope packing) as [|cs'] eqn:Hrs; [done|].
  intros [= <-] [Hc|Hc]%elem_of_app.
  - destruct oc as [c'|]; cbn in Hc; [|by apply not_elem_of_nil in Hc].
    apply list_elem_of_singleton in Hc as ->. eauto.
  - by eapply IH.
Qed.

(** A descriptor's cursor is a lister's. *)
Lemma parts_of_origin e packing origin : c_origin (parts_of e packing origin) = origin.
Proof. unfold parts_of. destruct (delimiter_for packing e); [destruct (addressable _)|]; done. Qed.
Lemma parts_of_object e packing origin : c_object (parts_of e packing origin) = [e].
Proof. unfold parts_of. destruct (delimiter_for packing e); [destruct (addressable _)|]; done. Qed.

Lemma descriptor_parts_origin body packing c :
  descriptor_parts body packing = inr c -> c_origin c = Lister.
Proof.
  unfold descriptor_parts. destruct (descriptor_decode _ _ body) as [|d]; [done|]. cbn zeta.
  destruct (_ || _); [done|]. destruct (list_find _ _) as [[]|]; [done|].
  destruct (to_entries d) as [|e [|]]; [by intros [= <-]| |by intros [= <-]].
  destruct (range d) as [r|]; [|intros [= <-]; apply parts_of_origin].
  case_bool_decide; [done|]. case_bool_decide; [done|]. by intros [= <-].
Qed.

(** A part of a notification that was read names a key of the source. *)
Lemma decode_notification body scope packing cs c version n :
  decode_unit body scope packing = Read cs -> c ∈ cs -> c_origin c = Notification version n ->
  exists e, c_object c = [e] /\ is_Some (bucket scope) /\ addressable (e_key e) = true /\
    outside_prefix scope (e_key e) = false.
Proof.
  unfold decode_unit. intros Hd Hc Ho.
  destruct (json_from_slice body) as [value|]; [|done]. case_bool_decide.
  { destruct (descriptor_parts body packing) as [|c'] eqn:Hp; [done|]. injection Hd as <-.
    apply list_elem_of_singleton in Hc as ->.
    apply descriptor_parts_origin in Hp. congruence. }
  case_bool_decide; [done|]. destruct (_ ≫= json_array) as [records|]; [|done].
  destruct (record_parts 0 records scope packing) as [|cs'] eqn:Hr; [done|].
  assert (cs' = cs) as -> by (destruct cs'; [done|by injection Hd]).
  destruct (record_parts_inv _ _ _ _ _ _ Hr Hc) as (r & Hp).
  apply record_part_inv in Hp as (e & v' & n' & -> & Hs & Ha & Hp).
  exists e. by rewrite parts_of_object.
Qed.

(** Reading the fields the writer wrote. *)
Lemma assoc_hit k j m : assoc_get k ((k, j) :: m) = Some j.
Proof. cbn. by rewrite bool_decide_true. Qed.
Lemma assoc_miss k k' j m : k' <> k -> assoc_get k ((k', j) :: m) = assoc_get k m.
Proof. intros. cbn. by rewrite bool_decide_false. Qed.
Ltac fields :=
  cbn [json_get app];
  repeat first
    [ rewrite assoc_hit
    | rewrite assoc_miss by (vm_compute; discriminate)
    | change (assoc_get _ []) with (@None Json) ].

Lemma re_enqueue_fields b o n :
  0 < o_size o < 2 ^ 64 -> 0 <= n < 2 ^ 32 ->
  record_by_name (re_enqueue_record b o n) =
    Some (mkRecord None (time_text (o_last_modified_ms o)) (Some n) b (form_encoded (o_key o))
            (Some (o_size o)) (o_etag o) None).
Proof.
  intros Hs Hn. unfold record_by_name, re_enqueue_record, json_opt. fields.
  destruct (time_text _) as [t|], (o_etag o) as [g|];
    do 4 (fields; cbn [mbind option_bind fmap option_fmap option_map json_str json_uint];
          rewrite ?bool_decide_true by lia); done.
Qed.

(** The body a worker writes is a notification of the one record. *)
Lemma re_enqueue_decodes scope packing o n b :
  bucket scope = Some b -> valid_utf8 (o_key o) = true -> outside_prefix scope (o_key o) = false ->
  addressable (o_key o) = true -> 0 < o_size o < 2 ^ 64 -> 0 <= n < 2 ^ 32 ->
  (forall t, o_etag o = Some t -> sendable t = true) ->
  decode_unit (re_enqueue_body b o n) scope packing =
    Read [parts_of (mkEntry (o_key o) (o_size o) (quoted <$> o_etag o)
            (if time_text (o_last_modified_ms o) then o_last_modified_ms o else 0))
            packing (Notification None n)].
Proof.
  intros Hb Hu Hp Ha Hs Hn Ht. unfold decode_unit, re_enqueue_body. rewrite json_roundtrip. fields.
  rewrite (bool_decide_false (is_Some None)) by (by intros []).
  rewrite bool_decide_false by done. cbn [mbind option_bind json_array record_parts].
  enough (record_part (re_enqueue_record b o n) scope packing =
    inr (Some (parts_of (mkEntry (o_key o) (o_size o) (quoted <$> o_etag o)
            (if time_text (o_last_modified_ms o) then o_last_modified_ms o else 0))
            packing (Notification None n)))) as -> by done.
  unfold record_part. rewrite (record_fields _ _ (re_enqueue_fields b o n Hs Hn)).
  unfold re_enqueue_record at 1. fields. cbn [mbind option_bind json_str]. cbn zeta.
  change (strip_prefix (ascii_bytes "s3:") (ascii_bytes "ObjectCreated:Put")) with (@None (list Z)).
  cbn [default from_option]. cbn [bucket_name event_source r_key r_size r_etag version_id event_time re_enqueues].
  change (strip_prefix (ascii_bytes "ObjectCreated:") (ascii_bytes "ObjectCreated:Put"))
    with (Some (ascii_bytes "Put")). cbn iota.
  rewrite (bool_decide_false (_ <> _)) by (by rewrite Hb; intros []).
  rewrite (bool_decide_false (None = _)), (form_roundtrip _ Hu), Hp by done.
  rewrite bool_decide_false, Ha by lia.
  cbn [negb record_version].
  destruct (o_etag o) as [g|]; [rewrite (Ht g eq_refl)|]; cbn;
    destruct (time_text _) as [tt|] eqn:Htt; cbn; rewrite ?(time_roundtrip _ _ Htt); done.
Qed.
End re_enqueue.

(** ** A packed listing is read back *)

(** What a part, a cursor and a listed object read: each object with the byte
    range of it, if not the whole. *)
Definition part_reads (p : Part) : list (ObjectEntry * option SplitRange) :=
  (fun o => (o, p_range p)) <$> p_object p.
Definition cursor_reads (c : Cursor) : list (ObjectEntry * option SplitRange) :=
  concat (part_reads <$> cursor_parts c).
Definition entry_reads `{UnitLib} (packing : Packing) (e : ObjectEntry)
    : list (ObjectEntry * option SplitRange) :=
  cursor_reads (parts_of e packing Lister).

(** A listed object, with an ETag [If-Match] can send if it has one. *)
Definition entry_ok (e : ObjectEntry) : Prop :=
  is_u64 (e_size e) /\ (forall t, e_etag e = Some t -> sendable t = true).

Definition total_bytes (es : list ObjectEntry) : Z := foldr (fun e n => e_size e + n) 0 es.

Section packing.
Context `{UnitLaws} (packing : Packing).
Hypothesis Htarget : 0 < target_bytes packing < U64_MAX.

(** A minted unit that decodes to one cursor over [rs]; a shared one is within
    the packer's bounds. *)
Definition minted_for (m : Minted) (rs : list (ObjectEntry * option SplitRange)) : Prop :=
  (forall scope, exists c, decode_unit (body (m_unit m)) scope packing = Read [c] /\
                           cursor_reads c = rs) /\
  (m_objects m <= PACK_MEMBERS)%nat /\
  ((1 < m_objects m)%nat -> total_bytes rs.*1 <= target_bytes packing).

(** The units [us] read [rs] in order, and count [n] objects listed. *)
Definition covers (us : list (MintError + Minted)) (rs : list (ObjectEntry * option SplitRange))
    (n : nat) : Prop :=
  exists ms rss, us = inr <$> ms /\ Forall2 minted_for ms rss /\ concat rss = rs /\
    sum_list (m_listed <$> ms) = n.

Lemma covers_no_parts : covers [] [] 0.
Proof. by exists [], []. Qed.

Lemma covers_app us us' rs rs' n n' :
  covers us rs n -> covers us' rs' n' -> covers (us ++ us') (rs ++ rs') (n + n').
Proof.
  intros (ms & rss & -> & Hf & <- & <-) (ms' & rss' & -> & Hf' & <- & <-).
  exists (ms ++ ms'), (rss ++ rss'). rewrite !fmap_app, concat_app, sum_list_with_app.
  split_and!; try done. by apply Forall2_app.
Qed.

(** ** One descriptor *)
Lemma to_entries_new es : to_entries (descriptor_new (descriptor_object <$> es)) = es.
Proof.
  unfold to_entries, descriptor_new. cbn [objects]. rewrite <- list_fmap_compose.
  rewrite <- (list_fmap_id es) at 2. apply list_fmap_ext. by intros i [] _.
Qed.

Lemma mint_decodes id d :
  v d = DESCRIPTOR_VERSION -> validate_range d = None ->
  exists u, mint (inr id) d = inr u /\ descriptor_decode descriptor_probe descriptor_from_slice (body u) = inr d /\
    exists j, json_from_slice (body u) = Some j /\ is_Some (json_get "v" j).
Proof.
  unfold mint. intros Hv Hr.
  pose proof (descriptor_json d) as [Hf Hp].
  unfold descriptor_encode. rewrite Hr, bool_decide_false by (by intros []).
  eexists. split; [done|]. cbn. split; [|apply descriptor_object_v].
  unfold descriptor_decode. rewrite Hp, Hf, Hr. by rewrite bool_decide_false by (by intros []).
Qed.

Lemma decode_descriptor u d scope c :
  descriptor_decode descriptor_probe descriptor_from_slice (body u) = inr d ->
  (exists j, json_from_slice (body u) = Some j /\ is_Some (json_get "v" j)) ->
  descriptor_parts (body u) packing = inr c ->
  decode_unit (body u) scope packing = Read [c].
Proof.
  intros Hd (j & Hj & Hv) Hp. unfold decode_unit. rewrite Hj, bool_decide_true by done.
  by rewrite Hp.
Qed.

Lemma etags_sent es : Forall entry_ok es -> list_find etag_refused es = None.
Proof.
  intros HF. apply list_find_None. apply (Forall_impl _ _ _ HF). intros e [_ He].
  unfold etag_refused. destruct (e_etag e) as [t|]; [rewrite (He t eq_refl)|]; by intros [].
Qed.

(** The descriptor of whole objects. *)
Lemma whole_decodes id es u :
  mint (inr id) (descriptor_new (descriptor_object <$> es)) = inr u ->
  es <> [] -> (length es <= MAX_UNIT_MEMBERS)%nat -> Forall entry_ok es -> forall scope,
  decode_unit (body u) scope packing =
    Read [match es with [e] => parts_of e packing Lister | _ => cursor_whole es Lister end].
Proof.
  intros Hm Hne Hlen Hok scope.
  destruct (mint_decodes id (descriptor_new (descriptor_object <$> es))) as (u' & Hu & Hd & Hj); [done..|].
  rewrite Hm in Hu. injection Hu as <-.
  apply (decode_descriptor _ _ _ _ Hd Hj). unfold descriptor_parts. rewrite Hd, to_entries_new.
  cbn zeta. rewrite !bool_decide_false by (done || lia). cbn [orb]. rewrite etags_sent by done.
  by destruct es as [|e [|]].
Qed.

Lemma delimiter_for_Some e d :
  delimiter_for packing e = Some d ->
  pk_delimiter packing = Some d /\ target_bytes packing < e_size e /\ is_Some (e_etag e) /\
  codec_resolve (compression packing) (e_key e) = Plain.
Proof.
  unfold delimiter_for. destruct (pk_delimiter packing) as [d'|]; [|done]. cbn.
  intros Hc. destruct (_ && _) eqn:Hb in Hc; [|done]. injection Hc as <-.
  rewrite !andb_true_iff, !bool_decide_eq_true in Hb. tauto.
Qed.

(** The ranges of a cut object, each pinned and within it. *)
Lemma tile_within size d r :
  0 < size -> r ∈ tile size (target_bytes packing) d ->
  0 <= sr_start r < sr_end r /\ sr_end r <= size /\ sr_delimiter r = d.
Proof.
  intros Hs Hr. destruct (tile_facts size (target_bytes packing) d) as (_ & _ & HF); [lia..|].
  rewrite Forall_forall in HF. destruct (HF r Hr) as (Hlt & _ & _ & Hd).
  unfold tile in Hr. apply list_elem_of_fmap in Hr as (i & -> & Hi).
  apply elem_of_seq in Hi. cbn in *.
  destruct (tiles_count size (target_bytes packing)) as [Hn _]; [lia..|].
  set (n := (size + target_bytes packing - 1) / target_bytes packing) in *.
  pose proof (boundary_mono size n 0 (Z.of_nat i)) as H1. rewrite boundary_0 in H1.
  pose proof (boundary_mono size n (Z.of_nat i + 1) n) as H2. rewrite boundary_n in H2 by lia.
  split_and!; try done; try lia; (apply H1 || apply H2); lia.
Qed.

Lemma range_unit e d r :
  entry_ok e -> delimiter_for packing e = Some d ->
  r ∈ tile (e_size e) (target_bytes packing) d ->
  exists u, unit_of_part e (mkPart [e] (Some r) Lister) = Some (inr u) /\
    forall scope, decode_unit (body u) scope packing = Read [cursor_range [e] r Lister].
Proof.
  intros [Hsz Hok] Hd Hr. destruct (delimiter_for_Some e d Hd) as (Hpd & Hlt & [t Ht] & Hc).
  destruct (tile_within (e_size e) d r ltac:(lia) Hr) as (Hr1 & Hr2 & Hr3).
  unfold unit_of_part. cbn [p_range]. rewrite Ht. cbn [mbind option_bind].
  unfold split_id_for_range. rewrite bool_decide_false by lia.
  assert (Hv : validate_range (with_range (descriptor_object e) r) = None).
  { unfold validate_range, with_range, descriptor_object. cbn. rewrite Ht.
    by rewrite !bool_decide_false by lia. }
  destruct (mint_decodes (id_from_digest (range_preimage (e_key e) t r))
    (with_range (descriptor_object e) r) eq_refl Hv) as (u & Hu & Hdec & Hj).
  exists u. split; [by rewrite Hu|]. intros scope. apply (decode_descriptor _ _ _ _ Hdec Hj).
  unfold descriptor_parts. rewrite Hdec.
  assert (to_entries (with_range (descriptor_object e) r) = [e]) as -> by (by destruct e).
  cbn zeta. rewrite !bool_decide_false by (done || (unfold MAX_UNIT_MEMBERS; cbn [length]; lia)).
  cbn [orb]. rewrite etags_sent by (by apply Forall_singleton). cbn [with_range range].
  rewrite bool_decide_false by (by rewrite Hpd, Hr3; intros []).
  by rewrite bool_decide_false by (by rewrite Hc; intros []).
Qed.

(** ** One object *)

(** The units of the ranges [rs] of a cut object. *)
Lemma range_units e d rs :
  entry_ok e -> delimiter_for packing e = Some d ->
  rs ⊆ tile (e_size e) (target_bytes packing) d ->
  exists us,
    mapM (unit_of_part e) ((fun r => mkPart [e] (Some r) Lister) <$> rs) = Some (inr <$> us) /\
    Forall2 (fun u c => forall scope, decode_unit (body u) scope packing = Read [c]) us
      ((fun r => cursor_range [e] r Lister) <$> rs).
Proof.
  intros Hok Hd. induction rs as [|r rs IH]; intros Hrs; [by exists []|].
  destruct (range_unit e d r Hok Hd) as (u & Hu & Hdec); [apply Hrs; left|].
  destruct IH as (us & Hus & HF); [intros x Hx; apply Hrs; by right|].
  exists (u :: us). rewrite !fmap_cons. cbn [mapM]. rewrite Hu. cbn [mbind option_bind].
  rewrite Hus. split; [done|]. by constructor.
Qed.

(** The first unit of an object counts it as listed, the later ones do not. *)
Lemma later_listed (us : list WorkUnit) k f :
  (forall i, f i <> O) ->
  sum_list (m_listed <$> imap (fun i u => mkMinted u k 1 (if bool_decide (f i = O) then 1 else 0)) us)
    = O.
Proof.
  revert f. induction us as [|u us IH]; intros f Hf; [done|]. cbn.
  rewrite bool_decide_false by apply Hf. cbn. apply (IH (f ∘ S)). intros i. apply Hf.
Qed.

Lemma alone_listed (us : list WorkUnit) k : us <> [] ->
  sum_list (m_listed <$> imap (fun i u => mkMinted u k 1 (if bool_decide (i = O) then 1 else 0)) us)
    = 1%nat.
Proof. destruct us as [|u us]; [done|]. intros _. cbn. f_equal. by apply (later_listed us k S). Qed.

Lemma parts_of_cases e :
  parts_of e packing Lister = cursor_whole [e] Lister \/
  exists d, delimiter_for packing e = Some d /\
    parts_of e packing Lister =
      cursor_ranges [e] (tile (e_size e) (target_bytes packing) d) Lister.
Proof.
  unfold parts_of. destruct (delimiter_for packing e) as [d|]; [|by left].
  destruct (addressable (e_key e)); [right; by exists d|by left].
Qed.

Lemma alone_covers e :
  entry_ok e -> exists us, alone_units e packing = Some us /\ covers us (entry_reads packing e) 1.
Proof.
  intros Hok.
  enough (exists us, units e packing = Some (inr <$> us) /\ us <> [] /\
    exists cs, Forall2 (fun u c => forall scope, decode_unit (body u) scope packing = Read [c]) us cs /\
      concat (cursor_reads <$> cs) = entry_reads packing e) as (us & Hu & Hne & cs & Hcs & Hr).
  { unfold alone_units. rewrite Hu. cbn [mbind option_bind]. eexists. split; [done|].
    exists (imap (fun i u => mkMinted u (e_key e) 1 (if bool_decide (i = O) then 1 else 0)) us),
      (cursor_reads <$> cs).
    split_and!; [|..|by apply alone_listed]; [| |done].
    - apply list_eq. intros i. rewrite list_lookup_fmap, !list_lookup_imap, list_lookup_fmap.
      by destruct (us !! i).
    - apply Forall2_same_length_lookup. split.
      { rewrite length_imap, length_fmap. by eapply Forall2_length. }
      intros i m rs Hm Hrs. rewrite list_lookup_imap in Hm. rewrite list_lookup_fmap in Hrs.
      destruct (us !! i) as [u|] eqn:Hui; [|done]. destruct (cs !! i) as [c|] eqn:Hci; [|done].
      injection Hm as <-. injection Hrs as <-.
      pose proof (Forall2_lookup_lr _ _ _ _ _ _ Hcs Hui Hci) as Hd.
      split_and!; [intros scope; exists c; by split; [apply Hd|]|..]; cbn;
        unfold PACK_MEMBERS; lia. }
  unfold units, entry_reads. destruct (parts_of_cases e) as [Hp|(d & Hd & Hp)]; rewrite Hp.
  - cbn [cursor_whole cursor_parts c_ranges c_whole].
    unfold mapM, unit_of_part. cbn [p_range mapM].
    destruct (mint_decodes (id_from_digest (split_preimage [entry_member e]))
      (descriptor_new (descriptor_object <$> [e]))) as (u & Hu & _); [done..|].
    exists [u]. cbn in Hu |- *. unfold split_id_for. cbn. rewrite Hu. split_and!; [done..|].
    exists [cursor_whole [e] Lister]. split; [|done]. constructor; [|done]. intros scope.
    rewrite <- Hp. apply (whole_decodes _ [e] u Hu); [done| |by apply Forall_singleton].
    unfold MAX_UNIT_MEMBERS. cbn. lia.
  - cbn [cursor_ranges cursor_parts c_ranges c_object c_origin]. destruct (delimiter_for_Some e d Hd) as (_ & Hlt & _).
    destruct (range_units e d (tile (e_size e) (target_bytes packing) d) Hok Hd) as (us & -> & HF);
      [done|].
    exists us. split_and!; [done|..].
    + intros ->. apply Forall2_nil_inv_l, fmap_nil_inv in HF.
      destruct (tile_facts (e_size e) (target_bytes packing) d) as (_ & Hl & _); [lia..|].
      by rewrite HF in Hl.
    + eexists. split; [exact HF|]. clear.
      change (cursor_reads (cursor_ranges [e] ?rs Lister)) with
        (concat (part_reads <$> ((fun r => mkPart [e] (Some r) Lister) <$> rs))).
      rewrite <- !list_fmap_compose. done.
Qed.

(** ** Shared units *)
Lemma shares_whole k e :
  packing_of k = packing -> shares k e = true -> parts_of e packing Lister = cursor_whole [e] Lister.
Proof.
  intros Hk Hs. unfold shares in Hs. rewrite Hk, !andb_true_iff, bool_decide_eq_true in Hs.
  destruct Hs as [[[Hd _] _] _]. unfold parts_of. by rewrite Hd.
Qed.

Lemma packed_covers es :
  (2 <= length es <= PACK_MEMBERS)%nat -> Forall entry_ok es ->
  Forall (fun e => parts_of e packing Lister = cursor_whole [e] Lister) es ->
  total_bytes es <= target_bytes packing ->
  exists u, packed_unit es = Some u /\ covers [u] (concat (entry_reads packing <$> es)) (length es).
Proof.
  intros Hlen Hok Hw Hb. unfold packed_unit.
  destruct es as [|e0 [|e1 es]]; [cbn in Hlen; lia..|]. set (l := e0 :: e1 :: es) in *.
  destruct (mint_decodes (id_from_digest (split_preimage (entry_member <$> l)))
    (descriptor_new (descriptor_object <$> l))) as (u & Hu & _); [done..|].
  unfold split_id_for. rewrite bool_decide_false by done. rewrite Hu. cbn [head l mbind option_bind].
  eexists. split; [done|]. exists [mkMinted u (e_key e0) (length l) (length l)], [(.,None) <$> l].
  assert (Hr : concat (entry_reads packing <$> l) = (., None) <$> l).
  { clear -Hw. clearbody l. induction Hw as [|e l' He HF IH]; [done|]. cbn. rewrite IH.
    unfold entry_reads. by rewrite He. }
  split_and!; [done| |cbn; by rewrite app_nil_r|cbn; lia]. constructor; [|constructor].
  split_and!; [|exact (proj2 Hlen)|].
  - intros scope. exists (cursor_whole l Lister). split; [|by cbn; rewrite app_nil_r].
    rewrite (whole_decodes _ l u Hu); [done|done| |done]. unfold MAX_UNIT_MEMBERS, PACK_MEMBERS in *. lia.
  - intros _. rewrite <- list_fmap_compose. cbn. by rewrite list_fmap_id.
Qed.

(** ** The packer *)

Record packer_ok (k : Packer) : Prop := mk_packer_ok {
  pk_same : packing_of k = packing;
  pk_room : (length (open_ k) < PACK_MEMBERS)%nat;
  pk_entries : Forall entry_ok (open_ k);
  pk_whole : Forall (fun e => parts_of e packing Lister = cursor_whole [e] Lister) (open_ k);
  pk_bytes : open_bytes k = total_bytes (open_ k);
  pk_target : (2 <= length (open_ k))%nat -> total_bytes (open_ k) <= target_bytes packing;
}.

Lemma packer_new_ok : packer_ok (packer_new packing).
Proof. split; cbn; try done; unfold PACK_MEMBERS; lia. Qed.

Lemma close_covers (es : list ObjectEntry) b :
  (length es <= PACK_MEMBERS)%nat -> Forall entry_ok es ->
  Forall (fun e => parts_of e packing Lister = cursor_whole [e] Lister) es ->
  ((2 <= length es)%nat -> total_bytes es <= target_bytes packing) ->
  exists us k', packer_close (mkPacker packing es b) = Some (us, k') /\
    covers us (concat (entry_reads packing <$> es)) (length es) /\
    packing_of k' = packing /\ open_ k' = [] /\ (es <> [] -> open_bytes k' = 0) /\
    (es = [] -> open_bytes k' = b).
Proof.
  intros Hlen Hok Hw Hb. unfold packer_close. cbn [open_ packing_of].
  destruct es as [|e [|e1 es]].
  - eexists _, _. split; [done|]. split; [apply covers_no_parts|done].
  - apply Forall_inv in Hok, Hw. destruct (alone_covers e Hok) as (us & Hu & Hc). rewrite Hu.
    eexists _, _. split; [done|]. cbn. rewrite app_nil_r. split; [|done].
    unfold alone_units, units in Hu. rewrite Hw in Hu. cbn in Hu.
    by destruct us as [|u [|]].
  - destruct (packed_covers (e :: e1 :: es)) as (u & -> & Hc); [cbn in *; lia|done..|apply Hb; cbn; lia|].
    by eexists _, _.
Qed.

(** The open unit after an object joined it. *)
Lemma fill_covers es b :
  (length es <= PACK_MEMBERS)%nat -> es <> [] -> Forall entry_ok es ->
  Forall (fun e => parts_of e packing Lister = cursor_whole [e] Lister) es ->
  b = total_bytes es -> ((2 <= length es)%nat -> total_bytes es <= target_bytes packing) ->
  exists us k' done_ waiting,
    (if bool_decide (length es = PACK_MEMBERS) then packer_close (mkPacker packing es b)
     else Some ([], mkPacker packing es b)) = Some (us, k') /\ packer_ok k' /\
    es = done_ ++ waiting /\ open_ k' = waiting /\
    covers us (concat (entry_reads packing <$> done_)) (length done_).
Proof.
  intros Hlen Hne Hok Hw Hb Ht. case_bool_decide as Hfull.
  - destruct (close_covers es b) as (us & k' & Hcl & Hcov & Hp' & Ho' & Hb1 & _); [done..|].
    exists us, k', es, []. rewrite app_nil_r. split_and!; try done.
    split; rewrite ?Ho'; cbn; try done; [unfold PACK_MEMBERS; lia|by apply Hb1|lia].
  - eexists [], _, [], es. split_and!; try done; [|apply covers_no_parts]. split; cbn; try done. lia.
Qed.

Lemma total_bytes_app es es' : total_bytes (es ++ es') = total_bytes es + total_bytes es'.
Proof. induction es as [|e es IH]; cbn; [done|]. unfold total_bytes in *. lia. Qed.

Lemma push_covers e k :
  entry_ok e -> packer_ok k ->
  exists us k' done_ waiting, packer_push e k = Some (us, k') /\ packer_ok k' /\
    open_ k ++ [e] = done_ ++ waiting /\ open_ k' = waiting /\
    covers us (concat (entry_reads packing <$> done_)) (length done_).
Proof.
  intros Hok [Hp Hroom Hes Hw Hby Ht]. destruct k as [pk es b]. cbn [packing_of open_ open_bytes] in *.
  subst pk. unfold packer_push.
  destruct (close_covers es b) as (us & k' & Hcl & Hcov & Hp' & Ho' & Hb1 & Hb2);
    [lia|done..|].
  destruct (shares _ e) eqn:Hsh.
  2:{ cbn [negb orb]. rewrite Hcl. cbn [mbind option_bind]. rewrite Hp'.
      destruct (alone_covers e Hok) as (us' & -> & Hc'). cbn [mbind option_bind].
      eexists _, _, (es ++ [e]), []. split; [done|]. split_and!.
      - split; rewrite ?Ho', ?Hp'; cbn; try done; [unfold PACK_MEMBERS; lia| |lia].
        destruct es; [by rewrite Hb2, Hby|by apply Hb1].
      - by rewrite app_nil_r.
      - done.
      - rewrite fmap_app, concat_app, length_app. apply covers_app; [done|].
        cbn. by rewrite app_nil_r. }
  assert (Hwe : parts_of e packing Lister = cursor_whole [e] Lister)
    by (by eapply (shares_whole (mkPacker packing es b))).
  destruct Hok as [Hsz Het] eqn:Hok'. cbn [negb orb]. unfold is_u64 in Hsz.
  case_bool_decide as Hover; cbn [packing_of open_bytes] in Hover.
  - rewrite Hcl. cbn [mbind option_bind]. rewrite Hp', Ho'. cbn [app].
    assert (Hb0 : open_bytes k' = 0) by (destruct es; [by rewrite Hb2, Hby|by apply Hb1]).
    destruct (fill_covers [e] (sat_add_u64 (open_bytes k') (e_size e)))
      as (us' & k2 & dn & wt & Hf & Hk2 & Hsp & Hop & Hc2);
      [unfold PACK_MEMBERS; cbn; lia|done|by apply Forall_singleton|by apply Forall_singleton| |cbn; lia|].
    { rewrite Hb0. unfold sat_add_u64. cbn. lia. }
    cbn zeta. cbn [open_]. rewrite Hf. eexists _, _, (es ++ dn), wt. split; [done|]. split_and!; try done.
    + by rewrite <- app_assoc, <- Hsp.
    + rewrite fmap_app, concat_app, length_app. by apply covers_app.
  - cbn [mbind option_bind packing_of open_ open_bytes].
    assert (Hsat : sat_add_u64 b (e_size e) = b + e_size e) by (unfold sat_add_u64 in *; lia).
    destruct (fill_covers (es ++ [e]) (sat_add_u64 b (e_size e)))
      as (us' & k2 & dn & wt & Hf & Hk2 & Hsp & Hop & Hc2).
    + rewrite length_app. cbn. lia.
    + by destruct es.
    + apply Forall_app. by split; [|apply Forall_singleton].
    + apply Forall_app. by split; [|apply Forall_singleton].
    + rewrite total_bytes_app, Hsat, Hby. cbn. lia.
    + intros _. rewrite total_bytes_app, <- Hby. cbn. lia.
    + cbn zeta. cbn [open_]. rewrite Hf. by eexists _, _, dn, wt.
Qed.

Lemma listing_covers es : forall k,
  Forall entry_ok es -> packer_ok k ->
  exists us, pack_listing es k = Some us /\
    covers us (concat (entry_reads packing <$> (open_ k ++ es))) (length (open_ k ++ es)).
Proof.
  induction es as [|e es IH]; intros k Hes Hk.
  - destruct k as [pk os b]. destruct Hk as [Hp Hroom Ho Hw Hby Ht]. cbn in *. subst pk.
    destruct (close_covers os b) as (us & k' & -> & Hc & _); [lia|done..|].
    exists us. by rewrite app_nil_r.
  - apply Forall_cons in Hes as [He Hes].
    destruct (push_covers e k He Hk) as (us & k' & dn & wt & Hp & Hk' & Hsp & Ho & Hc).
    destruct (IH k' Hes Hk') as (us' & Hl & Hc'). cbn [pack_listing]. rewrite Hp.
    cbn [mbind option_bind]. rewrite Hl. eexists. split; [done|].
    assert (open_ k ++ e :: es = dn ++ wt ++ es) as ->.
    { rewrite (app_assoc dn), <- Hsp, <- app_assoc. done. }
    rewrite fmap_app, concat_app, length_app. apply covers_app; [done|]. by rewrite <- Ho.
Qed.
End packing.

(** C31: a packed listing is read back whole, in order, once. Packing a listing
    whose objects carry ETags [If-Match] can send mints a unit for every object
    without an error; each unit's body decodes, at any reader of the same
    settings, to one cursor; and what the cursors read, one after another, is
    what each listed object is read as on its own: whole, or range by range.
    A unit shared by several objects names at most [PACK_MEMBERS] and no more
    bytes than the split target, and the units count every object as listed
    exactly once. *)
Theorem packed_listing_reads_back `{UnitLaws} (packing : Packing) (es : list ObjectEntry) :
  0 < target_bytes packing < U64_MAX -> Forall entry_ok es ->
  exists ms rss,
    pack_listing es (packer_new packing) = Some (inr <$> ms) /\
    Forall2 (fun m rs =>
      (forall scope, exists c, decode_unit (body (m_unit m)) scope packing = Read [c] /\
                               cursor_reads c = rs) /\
      (m_objects m <= PACK_MEMBERS)%nat /\
      ((1 < m_objects m)%nat -> total_bytes rs.*1 <= target_bytes packing)) ms rss /\
    concat rss = concat (entry_reads packing <$> es) /\
    sum_list (m_listed <$> ms) = length es.
Proof.
  intros Ht Hes.
  destruct (listing_covers packing Ht es (packer_new packing) Hes (packer_new_ok packing))
    as (us & Hp & ms & rss & -> & Hc & Hr & Hn).
  by exists ms, rss.
Qed.

(** ** Unit ids *)

(** A string a digest's length prefix holds exactly. *)
Definition short (s : list Z) : Prop := Z.of_nat (length s) <= U32_MAX.

Lemma app_inv_length {A} (a b x y : list A) :
  length a = length b -> a ++ x = b ++ y -> a = b /\ x = y.
Proof. intros Hl He. by apply app_inj_1. Qed.

Lemma le_bytes_inj k n m :
  0 <= n < 256 ^ Z.of_nat k -> 0 <= m < 256 ^ Z.of_nat k -> le_bytes k n = le_bytes k m -> n = m.
Proof. intros Hn Hm He. by rewrite <- (le_val_bytes k n), <- (le_val_bytes k m), He. Qed.

Lemma len_prefixed_inj s s' x y :
  short s -> short s' -> len_prefixed s ++ x = len_prefixed s' ++ y -> s = s' /\ x = y.
Proof.
  unfold short, len_prefixed, U32_MAX. intros Hs Hs'. rewrite !Z.min_l by lia.
  rewrite <- !app_assoc. intros He.
  apply app_inv_length in He as [Hl He]; [|by rewrite !le_bytes_length].
  apply le_bytes_inj in Hl; [|change (256 ^ Z.of_nat 4) with (2 ^ 32); lia..].
  apply app_inv_length in He; [done|lia].
Qed.

Lemma digest_member_inj k t k' t' x y :
  short k -> short k' -> (forall s, t = Some s -> short s) -> (forall s, t' = Some s -> short s) ->
  digest_member k t ++ x = digest_member k' t' ++ y -> k = k' /\ t = t' /\ x = y.
Proof.
  intros Hk Hk' Ht Ht'. unfold digest_member. rewrite <- !app_assoc. intros He.
  apply len_prefixed_inj in He as [-> He]; [|done..].
  destruct t as [s|], t' as [s'|]; try done.
  - apply (app_inv_head [1]), len_prefixed_inj in He as [-> ->]; auto.
  - by injection He as ->.
Qed.

Definition member_short (m : list Z * option (list Z)) : Prop :=
  short m.1 /\ forall s, m.2 = Some s -> short s.

Lemma digest_members_inj l : forall l',
  Forall member_short l -> Forall member_short l' ->
  concat ((fun m => digest_member m.1 m.2) <$> l) =
    concat ((fun m => digest_member m.1 m.2) <$> l') -> l = l'.
Proof.
  assert (Hne : forall m x, digest_member m.1 m.2 ++ x <> []).
  { intros m x He. apply (f_equal length) in He. unfold digest_member, len_prefixed in He.
    rewrite !length_app, le_bytes_length in He. cbn in He. lia. }
  induction l as [|m l IH]; intros [|m' l'] HF HF' He; [done| | |].
  - symmetry in He. by apply Hne in He.
  - by apply Hne in He.
  - apply Forall_cons in HF as [[H1 H2] HF], HF' as [[H1' H2'] HF'].
    rewrite !fmap_cons in He. cbn [concat] in He.
    apply digest_member_inj in He as (Hk & Ht & He); [|done..].
    f_equal; [by destruct m, m'; cbn in *; subst|by apply IH].
Qed.

#[export] Instance member_le_total : Total member_le.
Proof.
  intros [a ?] [b ?]. unfold member_le. cbn. revert b.
  induction a as [|x a IH]; intros [|y b]; cbn; auto.
  repeat case_bool_decide; try lia; auto.
Qed.

Lemma bytes_le_trans a : forall b c,
  bytes_le a b = true -> bytes_le b c = true -> bytes_le a c = true.
Proof.
  induction a as [|x a IH]; intros [|y b] [|z c]; cbn; try done.
  repeat case_bool_decide; try done; try lia. intros. by eapply IH.
Qed.
#[export] Instance member_le_trans : Transitive member_le.
Proof. intros a b c. apply bytes_le_trans. Qed.

Lemma bytes_le_antisym a : forall b, bytes_le a b = true -> bytes_le b a = true -> a = b.
Proof.
  induction a as [|x a IH]; intros [|y b]; cbn; try done.
  repeat case_bool_decide; try done; try lia. intros. subst. f_equal. by apply IH.
Qed.

(** Sorting a set of members by key does not depend on their order. *)
Lemma sorted_members_eq l l' :
  NoDup l.*1 -> l ≡ₚ l' -> merge_sort member_le l = merge_sort member_le l'.
Proof.
  intros Hnd Hp.
  assert (HSl := StronglySorted_merge_sort member_le l).
  assert (HSl' := StronglySorted_merge_sort member_le l').
  assert (Hq : merge_sort member_le l ≡ₚ merge_sort member_le l') by (by rewrite !merge_sort_Permutation).
  assert (Hnd' : NoDup (merge_sort member_le l).*1) by (by rewrite merge_sort_Permutation).
  revert HSl HSl' Hq Hnd'. generalize (merge_sort member_le l), (merge_sort member_le l'). clear.
  intros a. induction a as [|x a IH]; intros b Ha Hb Hq Hnd.
  { by apply Permutation_nil_l in Hq as ->. }
  destruct b as [|y b]; [by apply Permutation_nil_r in Hq|].
  inversion Ha as [|? ? Ha' Hxa]; inversion Hb as [|? ? Hb' Hyb]; subst.
  cbn in Hnd. apply NoDup_cons in Hnd as [Hx Hnd].
  assert (x = y) as <-.
  { assert (Hy : y ∈ x :: a) by (rewrite Hq; left). assert (Hx' : x ∈ y :: b) by (rewrite <- Hq; left).
    apply elem_of_cons in Hy as [->|Hy]; [done|]. apply elem_of_cons in Hx' as [->|Hx']; [done|].
    rewrite Forall_forall in Hxa, Hyb.
    assert (x.1 = y.1) by (apply bytes_le_antisym; [by apply Hxa|by apply Hyb]).
    exfalso. apply Hx. rewrite H. apply list_elem_of_fmap. by exists y. }
  f_equal. apply IH; try done. by eapply Permutation_cons_inv.
Qed.

(** unit ids depend on exactly what they name. Two member sets of distinct
    keys digest the same bytes just when one is a permutation of the other, two
    ranges just when key, ETag and range agree, and the id of a range never
    digests what the id of whole objects does. *)
Theorem unit_ids_identify :
  (forall l l', Forall member_short l -> Forall member_short l' -> NoDup l.*1 ->
     split_preimage l = split_preimage l' <-> l ≡ₚ l') /\
  (forall k t r k' t' r', short k -> short k' -> short t -> short t' ->
     is_u64 (sr_start r) -> is_u64 (sr_end r) -> is_u64 (sr_start r') -> is_u64 (sr_end r') ->
     range_preimage k t r = range_preimage k' t' r' <-> k = k' /\ t = t' /\ r = r') /\
  (forall l k t r, split_preimage l <> range_preimage k t r).
Proof.
  split_and!.
  - intros l l' HF HF' Hnd. split.
    + unfold split_preimage. intros He. apply app_inv_head, app_inv_head, app_inv_head in He.
      apply digest_members_inj in He; [|by rewrite merge_sort_Permutation..].
      by rewrite <- (merge_sort_Permutation member_le l), He, merge_sort_Permutation.
    + intros Hp. unfold split_preimage. by rewrite (sorted_members_eq l l' Hnd Hp).
  - intros k t r k' t' r' Hk Hk' Ht Ht' H1 H2 H3 H4. split; [|by intros (-> & -> & ->)].
    unfold range_preimage. intros He. do 3 apply app_inv_head in He.
    apply digest_member_inj in He as (-> & [= ->] & He); [|done|done|by intros ? [= <-]..].
    apply app_inv_length in He as [Hs He]; [|by rewrite !le_bytes_length].
    apply app_inv_length in He as [Hn He]; [|by rewrite !le_bytes_length].
    apply le_bytes_inj in Hs, Hn; [|unfold_int; change (256 ^ Z.of_nat 8) with (2 ^ 64); lia..].
    injection He as Hd. destruct r, r'; cbn in *. by subst.
  - intros l k t r He. unfold split_preimage, range_preimage in He.
    by apply app_inv_length in He as [He _].
Qed.

(** C32: an overwritten key is re-enqueued as work the source reads. For a part
    of a notification the source decoded, the unit a worker publishes after an
    overwrite of its key decodes, in the same scope, to that key alone, at the
    content the overwrite found and with its re-enqueue count, and names no
    version. The bucket the writer asks for is there. *)
Theorem re_enqueue_reads_back `{UnitLaws} body scope packing cs c version m (o : Overwrite) n :
  decode_unit body scope packing = Read cs -> c ∈ cs -> c_origin c = Notification version m ->
  cursor_key c = Some (o_key o) -> valid_utf8 (o_key o) = true -> 0 < o_size o < 2 ^ 64 ->
  0 <= n < 2 ^ 32 -> (forall t, o_etag o = Some t -> sendable t = true) ->
  exists b, bucket scope = Some b /\
    decode_unit (re_enqueue_body b o n) scope packing =
      Read [parts_of (mkEntry (o_key o) (o_size o) (quoted <$> o_etag o)
              (if time_text (o_last_modified_ms o) then o_last_modified_ms o else 0))
              packing (Notification None n)].
Proof.
  intros Hd Hc Ho Hk Hu Hs Hn Ht.
  destruct (decode_notification _ _ _ _ _ _ _ Hd Hc Ho) as (e & He & [b Hb] & Ha & Hp).
  unfold cursor_key in Hk. rewrite He in Hk. injection Hk as Hk. rewrite Hk in Ha, Hp.
  exists b. split; [done|]. by apply re_enqueue_decodes.
Qed.

(** ** Libraries to compute with *)

Fixpoint json_tree (j : Json) : gen_tree (Z + list Z) :=
  match j with
  | JNull => GenNode 0 []
  | JBool b => GenNode 1 [GenLeaf (inl (if b then 1 else 0))]
  | JInt n => GenNode 2 [GenLeaf (inl n)]
  | JFloat n => GenNode 3 [GenLeaf (inl n)]
  | JString s => GenNode 4 [GenLeaf (inr s)]
  | JArray l => GenNode 5 (json_tree <$> l)
  | JObject m => GenNode 6 ((fun kv => GenNode 7 [GenLeaf (inr kv.1); json_tree kv.2]) <$> m)
  end.

Fixpoint tree_json (t : gen_tree (Z + list Z)) : Json :=
  match t with
  | GenNode 1 [GenLeaf (inl b)] => JBool (bool_decide (b = 1))
  | GenNode 2 [GenLeaf (inl n)] => JInt n
  | GenNode 3 [GenLeaf (inl n)] => JFloat n
  | GenNode 4 [GenLeaf (inr s)] => JString s
  | GenNode 5 l => JArray (tree_json <$> l)
  | GenNode 6 m => JObject ((fun t => match t with
                                      | GenNode 7 [GenLeaf (inr k); v] => (k, tree_json v)
                                      | _ => ([], JNull)
                                      end) <$> m)
  | _ => JNull
  end.

Lemma tree_json_tree : forall j, tree_json (json_tree j) = j.
Proof.
  fix IH 1. intros [|[]|n|n|s|l|m]; try reflexivity.
  - cbn. f_equal. induction l as [|j l IHl]; cbn; [reflexivity|]. rewrite IH, IHl. reflexivity.
  - cbn. f_equal. induction m as [|[k j] m IHm]; cbn; [reflexivity|]. rewrite IH, IHm. reflexivity.
Qed.

(** Bodies of one number: even ones are JSON, odd ones descriptors. *)
Definition code_json (j : Json) : list Z := [0; Zpos (countable.encode (json_tree j))].
Definition read_json (l : list Z) : option Json :=
  match l with
  | [0; Zpos p] => tree_json <$> (countable.decode p : option (gen_tree (Z + list Z)))
  | 1 :: _ => Some (JObject [(ascii_bytes "v", JInt DESCRIPTOR_VERSION)])
  | _ => None
  end.
Definition in_descriptor {A} (f : list Z -> option A) (l : list Z) : option A :=
  match l with 1 :: l => f l | _ => None end.

#[export] Instance ToyUnitLib : UnitLib := {|
  path_parse := Some;
  json_from_slice := read_json;
  json_to_vec := code_json;
  record_deserialize := record_by_name;
  descriptor_to_vec d := 1 :: toy_vec d;
  descriptor_probe := in_descriptor toy_probe;
  descriptor_from_slice := in_descriptor toy_slice;
  time_parse := fun l => head l;
  time_text := fun ms => Some [ms];
  sha256 := fun l => l;
  base64url := fun _ => "";
|}.

#[export] Instance ToyUnitLaws : UnitLaws.
Proof.
  split.
  - intros j. cbn. rewrite decode_encode. cbn. by rewrite tree_json_tree.
  - done.
  - intros d. apply toy_roundtrips.
  - intros d. eexists. split; [done|]. by eexists.
  - by intros ms t [= <-].
Defined.

Definition toy_packing : Packing := mkPacking 8 CompressionAuto (Some 10).
Definition toy_listing : list ObjectEntry :=
  [mkEntry [97] 3 None 0; mkEntry [98] 5 (Some [34; 34]) 1; mkEntry [99] 20 (Some [34; 34]) 2;
   mkEntry [100; 46; 103; 122] 20 (Some [34; 34]) 3].

Lemma packed_listing_reads_back_witness :
  exists ms rss,
    pack_listing toy_listing (packer_new toy_packing) = Some (inr <$> ms) /\
    Forall2 (fun m rs =>
      (forall scope, exists c, decode_unit (body (m_unit m)) scope toy_packing = Read [c] /\
                               cursor_reads c = rs) /\
      (m_objects m <= PACK_MEMBERS)%nat /\
      ((1 < m_objects m)%nat -> total_bytes rs.*1 <= target_bytes toy_packing)) ms rss /\
    concat rss = concat (entry_reads toy_packing <$> toy_listing) /\
    sum_list (m_listed <$> ms) = length toy_listing.
Proof.
  apply (packed_listing_reads_back toy_packing toy_listing).
  - vm_compute. by split.
  - repeat (apply Forall_cons; split); [..|constructor];
      (split; [split; vm_compute; discriminate|by intros t [= <-]]).
Defined.

(** The notification of one object, as the store writes it, and what an
    overwrite of it finds. *)
Definition toy_scope : Scope := mkScope (Some [98]) [].
Definition toy_overwrite : Overwrite := mkOverwrite [97; 32] (Some [34; 34]) 7 5.
Definition toy_body : list Z := re_enqueue_body [98] (mkOverwrite [97; 32] None 4 3) 0.
Definition toy_cursor : Cursor :=
  parts_of (mkEntry [97; 32] 4 None 3) toy_packing (Notification None 0).

Lemma toy_body_decodes : decode_unit toy_body toy_scope toy_packing = Read [toy_cursor].
Proof.
  pose proof (re_enqueue_decodes toy_scope toy_packing (mkOverwrite [97; 32] None 4 3) 0 [98]) as Hd.
  cbn [time_text ToyUnitLib o_key o_etag o_size o_last_modified_ms fmap option_fmap option_map] in Hd.
  unfold toy_body, toy_cursor. apply Hd; solve [reflexivity | lia | discriminate].
Qed.

Lemma re_enqueue_reads_back_witness :
  exists b, bucket toy_scope = Some b /\
    decode_unit (re_enqueue_body b toy_overwrite 1) toy_scope toy_packing =
      Read [parts_of (mkEntry (o_key toy_overwrite) (o_size toy_overwrite)
              (quoted <$> o_etag toy_overwrite)
              (if time_text (o_last_modified_ms toy_overwrite)
               then o_last_modified_ms toy_overwrite else 0)) toy_packing (Notification None 1)].
Proof.
  refine (re_enqueue_reads_back toy_body toy_scope toy_packing [toy_cursor] toy_cursor None 0
    toy_overwrite 1 toy_body_decodes _ _ _ _ _ _ _).
  - left.
  - reflexivity.
  - reflexivity.
  - reflexivity.
  - split; reflexivity.
  - lia.
  - by intros t [= <-].
Defined.

Lemma unit_ids_identify_witness :
  split_preimage [([97], None); ([98], Some [34; 34])] =
    split_preimage [([98], Some [34; 34]); ([97], None)].
Proof.
  assert (Ha : member_short ([97], None)).
  { split; [unfold short, U32_MAX; cbn; lia|intros s [=]]. }
  assert (Hb : member_short ([98], Some [34; 34])).
  { split; [|intros s [= <-]]; unfold short, U32_MAX; cbn; lia. }
  apply (proj1 unit_ids_identify).
  - by apply Forall_cons; split; [|apply Forall_singleton].
  - by apply Forall_cons; split; [|apply Forall_singleton].
  - apply NoDup_cons. split; [|apply NoDup_singleton]. cbn. by rewrite list_elem_of_singleton.
  - constructor.
Defined.
