(* ===== verification/UnitReader.v ===== *)
(** * The unit reader of the object-store source
    ([spate-s3/src/unit_reader.rs], [lane_ctx.rs])

    [UnitReader] holds deliveries of a feed, opens a lane per part, and settles
    each delivery once its lanes are done. Its operations are programs of
    [Oracle]: the feed's answers and the clock are read from the answers, and
    before every read of what a lane or the feed shares with the reader (a
    terminal watermark, the report channel, a publish's confirmation) the other
    threads may have moved ([meanwhile]). A lane is what it shares: how far it
    emitted, how far that is delivered downstream, its end, and the reports it
    sent. [Book] is a record of each delivery that no operation reads: the parts
    it came with, the lanes opened for it, and the parts an overwrite dropped. *)

From stdpp Require Import base gmap sorting strings list relations.
From Stdlib Require Import ZArith Lia.
From S2P Require Import Prelude EndCheck MemoryFeed JobEnd S3Split S3Offset S3Unit Oracle.

(** ** What the lanes share with the reader *)

Inductive PoisonKind := NotFound | EtagDrift | Undecodable | RetriesExhausted.

Record PoisonReport := mkReport {
  rp_partition : Z;
  rp_kind : PoisonKind;
  rp_reason : string;
  rp_overwrite : option Overwrite;
}.

Inductive LaneMode := LaneReading | LanePoisoned | LaneEnded.

#[export] Instance LaneMode_eq_dec : EqDecision LaneMode.
Proof. solve_decision. Defined.

(** One past the last offset emitted; the offset below which downstream has
    delivered; the overwrite the lane reported. *)
Record Lane := mkLane {
  ln_delivery : Z;
  ln_part : Part;
  ln_paused : bool;
  ln_emitted : Z;
  ln_delivered : Z;
  ln_mode : LaneMode;
  ln_cut : option Overwrite;
}.

(** [SplitTracker::terminal]. *)
Definition terminal (l : Lane) : option Z :=
  match ln_mode l with LaneEnded => Some (ln_emitted l) | _ => None end.

#[export] Instance FeedErrorKind_eq_dec : EqDecision FeedErrorKind.
Proof. solve_decision. Defined.

(** ** What the reader holds *)

(** [Publishing] has the number of the feed call that published. *)
Inductive ReEnqueue := Publishing (call : nat) | ReEnqueued.

Definition is_publishing (r : ReEnqueue) : bool :=
  match r with Publishing _ => true | ReEnqueued => false end.

Record HeldUnit := mkHeld {
  h_receipt : Z;
  h_unit : string;
  h_pending : list Cursor;
  h_lanes : gset Z;
  h_failing : option string;
  h_overwritten : gmap (list Z) ReEnqueue;
}.

(** No re-enqueue waits for the feed. *)
Definition re_enqueues_settled (h : HeldUnit) : bool :=
  negb (existsb is_publishing (map_to_list (h_overwritten h)).*2).

(** [HeldUnit::finished], [idle] and [read_to_its_end]. *)
Definition unit_finished (h : HeldUnit) : bool :=
  bool_decide (h_failing h = None) && bool_decide (h_pending h = []) &&
  bool_decide (h_lanes h = ∅) && re_enqueues_settled h.
Definition unit_idle (h : HeldUnit) : bool :=
  bool_decide (h_lanes h = ∅) && bool_decide (h_pending h = []).
Definition read_to_its_end (ended : gset Z) (h : HeldUnit) : bool :=
  bool_decide (h_failing h = None) && bool_decide (h_pending h = []) &&
  re_enqueues_settled h && bool_decide (h_lanes h ⊆ ended).

Record LaneState := mkLaneState {
  ls_delivery : Z;
  ls_lane : Z;
  ls_last_committed : option Z;
  ls_hinted : bool;
  ls_re_enqueues : Z;
  ls_members : Z;
}.

(** What is fixed when the reader is made. *)
Record ReaderConfig := mkReaderConfig {
  units_held : nat;
  re_enqueue_cap : Z;
  reader_scope : Scope;
  reader_packing : Packing;
  hands_back : bool;
}.

Record UnitReader := mkReader {
  started : bool;
  next_delivery : Z;
  next_lane : Z;
  deliveries : gmap Z HeldUnit;
  lanes : gmap Z LaneState;
  revoked : list Z;
  renew_error : option SourceError;
  retired : list Z;
  unsent_fails : list (Z * string);
  end_ : option JobEnd;
  stopping : bool;
}.

Definition reader_new (e : option JobEnd) : UnitReader :=
  mkReader false 0 0 ∅ ∅ [] None [] [] e false.

Definition set_started (b : bool) (r : UnitReader) : UnitReader :=
  mkReader b (next_delivery r) (next_lane r) (deliveries r) (lanes r) (revoked r) (renew_error r)
    (retired r) (unsent_fails r) (end_ r) (stopping r).
Definition set_next_delivery (n : Z) (r : UnitReader) : UnitReader :=
  mkReader (started r) n (next_lane r) (deliveries r) (lanes r) (revoked r) (renew_error r)
    (retired r) (unsent_fails r) (end_ r) (stopping r).
Definition set_next_lane (n : Z) (r : UnitReader) : UnitReader :=
  mkReader (started r) (next_delivery r) n (deliveries r) (lanes r) (revoked r) (renew_error r)
    (retired r) (unsent_fails r) (end_ r) (stopping r).
Definition set_deliveries (m : gmap Z HeldUnit) (r : UnitReader) : UnitReader :=
  mkReader (started r) (next_delivery r) (next_lane r) m (lanes r) (revoked r) (renew_error r)
    (retired r) (unsent_fails r) (end_ r) (stopping r).
Definition set_lanes (m : gmap Z LaneState) (r : UnitReader) : UnitReader :=
  mkReader (started r) (next_delivery r) (next_lane r) (deliveries r) m (revoked r) (renew_error r)
    (retired r) (unsent_fails r) (end_ r) (stopping r).
Definition set_revoked (l : list Z) (r : UnitReader) : UnitReader :=
  mkReader (started r) (next_delivery r) (next_lane r) (deliveries r) (lanes r) l (renew_error r)
    (retired r) (unsent_fails r) (end_ r) (stopping r).
Definition set_renew_error (e : option SourceError) (r : UnitReader) : UnitReader :=
  mkReader (started r) (next_delivery r) (next_lane r) (deliveries r) (lanes r) (revoked r) e
    (retired r) (unsent_fails r) (end_ r) (stopping r).
Definition set_retired (l : list Z) (r : UnitReader) : UnitReader :=
  mkReader (started r) (next_delivery r) (next_lane r) (deliveries r) (lanes r) (revoked r)
    (renew_error r) l (unsent_fails r) (end_ r) (stopping r).
Definition set_unsent_fails (l : list (Z * string)) (r : UnitReader) : UnitReader :=
  mkReader (started r) (next_delivery r) (next_lane r) (deliveries r) (lanes r) (revoked r)
    (renew_error r) (retired r) l (end_ r) (stopping r).
Definition set_end (e : option JobEnd) (r : UnitReader) : UnitReader :=
  mkReader (started r) (next_delivery r) (next_lane r) (deliveries r) (lanes r) (revoked r)
    (renew_error r) (retired r) (unsent_fails r) e (stopping r).
Definition set_stopping (b : bool) (r : UnitReader) : UnitReader :=
  mkReader (started r) (next_delivery r) (next_lane r) (deliveries r) (lanes r) (revoked r)
    (renew_error r) (retired r) (unsent_fails r) (end_ r) b.

Definition set_pending (l : list Cursor) (h : HeldUnit) : HeldUnit :=
  mkHeld (h_receipt h) (h_unit h) l (h_lanes h) (h_failing h) (h_overwritten h).
Definition set_h_lanes (s : gset Z) (h : HeldUnit) : HeldUnit :=
  mkHeld (h_receipt h) (h_unit h) (h_pending h) s (h_failing h) (h_overwritten h).
Definition set_failing (why : string) (h : HeldUnit) : HeldUnit :=
  mkHeld (h_receipt h) (h_unit h) (h_pending h) (h_lanes h) (Some why) (h_overwritten h).
Definition set_overwritten (m : gmap (list Z) ReEnqueue) (h : HeldUnit) : HeldUnit :=
  mkHeld (h_receipt h) (h_unit h) (h_pending h) (h_lanes h) (h_failing h) m.

(** The keys of an ordered map, in order. *)
Definition keys {A} (m : gmap Z A) : list Z := merge_sort Z.le (map_to_list m).*1.
Definition text_le (a b : list Z) : Prop := bytes_le a b = true.
#[export] Instance text_le_dec : RelDecision text_le.
Proof. intros a b. unfold text_le. apply _. Defined.
Definition text_keys {A} (m : gmap (list Z) A) : list (list Z) := merge_sort text_le (map_to_list m).*1.

(** ** The world of a reader *)

(** How an overwritten key was dealt with. *)
Inductive Cut :=
  | CutFailing
  | CutEmpty (o : Overwrite)
  | CutCapped (o : Overwrite) (re_enqueues : Z)
  | CutPublished (o : Overwrite) (call : nat).

Record Book := mkBook {
  bk_receipt : Z;
  bk_parts : list Part;
  bk_opened : list Z;
  bk_dropped : list Part;
  bk_cuts : gmap (list Z) Cut;
}.

(** What the reader asked of the feed, with the feed's answer. *)
Inductive FeedCall :=
  | StoppedReceiving
  | Received (max : nat)
  | Renewed (delivery receipt : Z) (answer : option FeedError)
  | Acknowledged (delivery receipt : Z) (answer : option FeedError)
  | Failed (delivery : option Z) (receipt : Z) (reason : string) (answer : option FeedError)
  | HandedBack (delivery receipt : Z) (answer : option FeedError)
  | Published (delivery : Z) (unit : WorkUnit)
  | Parked (within : Z).

(** [w_confirmed]: the publishes the feed has settled. [w_depths]: what the
    feed would answer a depth read after so many calls. *)
Record World := mkWorld {
  w_reader : UnitReader;
  w_lanes : gmap Z Lane;
  w_reports : list PoisonReport;
  w_confirmed : gmap nat (option FeedError);
  w_calls : list FeedCall;
  w_books : gmap Z Book;
  w_depths : nat -> DepthOf -> option (option (FeedError + Depth));
}.

Definition on_reader (f : UnitReader -> UnitReader) (w : World) : World :=
  mkWorld (f (w_reader w)) (w_lanes w) (w_reports w) (w_confirmed w) (w_calls w) (w_books w) (w_depths w).
Definition set_w_lanes (m : gmap Z Lane) (w : World) : World :=
  mkWorld (w_reader w) m (w_reports w) (w_confirmed w) (w_calls w) (w_books w) (w_depths w).
Definition set_reports (l : list PoisonReport) (w : World) : World :=
  mkWorld (w_reader w) (w_lanes w) l (w_confirmed w) (w_calls w) (w_books w) (w_depths w).
Definition set_confirmed (m : gmap nat (option FeedError)) (w : World) : World :=
  mkWorld (w_reader w) (w_lanes w) (w_reports w) m (w_calls w) (w_books w) (w_depths w).
Definition add_call (c : FeedCall) (w : World) : World :=
  mkWorld (w_reader w) (w_lanes w) (w_reports w) (w_confirmed w) (w_calls w ++ [c]) (w_books w)
    (w_depths w).
Definition set_books (m : gmap Z Book) (w : World) : World :=
  mkWorld (w_reader w) (w_lanes w) (w_reports w) (w_confirmed w) (w_calls w) m (w_depths w).
Definition set_depths f (w : World) : World :=
  mkWorld (w_reader w) (w_lanes w) (w_reports w) (w_confirmed w) (w_calls w) (w_books w) f.

(** ** The other threads *)

(** A lane emits, downstream delivers, a lane reports or ends; the feed
    settles a publish, or holds something else. *)
Inductive EnvEvent :=
  | LEmit (p w : Z)
  | LDeliver (p w : Z)
  | LOverwrite (p : Z) (o : Overwrite)
  | LPoison (p : Z) (kind : PoisonKind) (reason : string)
  | LEnd (p : Z)
  | FSettle (call : nat) (r : option FeedError)
  | FDepths (f : nat -> DepthOf -> option (option (FeedError + Depth))).

(** Only a notification's part that names no version is cut by an overwrite,
    of the one key it reads, and once. *)
Definition may_cut (l : Lane) (o : Overwrite) : bool :=
  bool_decide (ln_cut l = None) &&
  match p_origin (ln_part l), p_object (ln_part l) with
  | Notification None _, [e] => bool_decide (e_key e = o_key o)
  | _, _ => false
  end.

Definition set_lane (p : Z) (l : Lane) (w : World) : World := set_w_lanes (<[p := l]> (w_lanes w)) w.

Definition env_step (e : EnvEvent) (w : World) : option World :=
  match e with
  | LEmit p n =>
      l ← w_lanes w !! p;
      guard (ln_mode l = LaneReading /\ ln_emitted l < n);;
      Some (set_lane p (mkLane (ln_delivery l) (ln_part l) (ln_paused l) n (ln_delivered l)
                          (ln_mode l) (ln_cut l)) w)
  | LDeliver p n =>
      l ← w_lanes w !! p;
      guard (ln_delivered l < n <= ln_emitted l);;
      Some (set_lane p (mkLane (ln_delivery l) (ln_part l) (ln_paused l) (ln_emitted l) n
                          (ln_mode l) (ln_cut l)) w)
  | LOverwrite p o =>
      l ← w_lanes w !! p;
      guard (ln_mode l = LaneReading /\ may_cut l o = true);;
      Some (set_reports (w_reports w ++ [mkReport p EtagDrift "overwritten" (Some o)])
              (set_lane p (mkLane (ln_delivery l) (ln_part l) (ln_paused l) (ln_emitted l)
                             (ln_delivered l) (ln_mode l) (Some o)) w))
  | LPoison p kind reason =>
      l ← w_lanes w !! p;
      guard (ln_mode l = LaneReading);;
      Some (set_reports (w_reports w ++ [mkReport p kind reason None])
              (set_lane p (mkLane (ln_delivery l) (ln_part l) (ln_paused l) (ln_emitted l)
                             (ln_delivered l) LanePoisoned (ln_cut l)) w))
  | LEnd p =>
      l ← w_lanes w !! p;
      guard (ln_mode l = LaneReading);;
      Some (set_lane p (mkLane (ln_delivery l) (ln_part l) (ln_paused l) (ln_emitted l)
                          (ln_delivered l) LaneEnded (ln_cut l)) w)
  | FSettle call r =>
      match w_calls w !! call, w_confirmed w !! call with
      | Some (Published _ _), None => Some (set_confirmed (<[call := r]> (w_confirmed w)) w)
      | _, _ => None
      end
  | FDepths f => Some (set_depths f w)
  end.

Fixpoint env_run (es : list EnvEvent) (w : World) : option World :=
  match es with [] => Some w | e :: es => w ← env_step e w; env_run es w end.

Inductive Answer :=
  | Meanwhile (es : list EnvEvent)
  | FeedSaid (r : option FeedError)
  | FeedGave (r : FeedError + list Delivery)
  | Clock (now : Z)
  | EndAnswers (stop : bool) (marker : option (option (SourceError + option string)))
      (depth : option (FeedError + Depth)).

(** ** Operations *)

Notation M := (Prog World Answer).

Definition reader : M UnitReader := w ← get; mret (w_reader w).
Definition upd (f : UnitReader -> UnitReader) : M unit := modify (on_reader f).

(** [expect], and the index of a map. *)
Definition expect {A} (o : option A) : M A := match o with Some a => mret a | None => panic end.

(** [?]. *)
Definition try {A B} (m : M (SourceError + A)) (k : A -> M (SourceError + B)) : M (SourceError + B) :=
  m ≫= fun r => match r with inl e => mret (inl e) | inr a => k a end.
Notation "x <-? m ; k" := (try m (fun x => k)) (at level 90, m at level 89, right associativity).
Fixpoint each_try {A} (f : A -> M (SourceError + unit)) (l : list A) : M (SourceError + unit) :=
  match l with [] => mret (inr tt) | x :: l => _ <-? f x; each_try f l end.

Definition meanwhile : M unit :=
  es ← ask (fun a => match a with Meanwhile es => Some es | _ => None end);
  w ← get;
  match env_run es w with Some w' => modify (fun _ => w') | None => stuck end.

(** A call answered with a [Result<(), FeedError>]. *)
Definition feed_said (call : option FeedError -> FeedCall) : M (option FeedError) :=
  r ← ask (fun a => match a with FeedSaid r => Some r | _ => None end);
  modify (add_call (call r));;;
  mret r.

(** An instant within the clock's range. *)
Definition clock : M Z :=
  ask (fun a => match a with
                | Clock now => if bool_decide (now <= near) then Some now else None
                | _ => None
                end).

Definition feed_error (doing : string) (e : FeedError) : SourceError := ErrOther (EndCheck.class e) doing.

Definition set_held (d : Z) (h : HeldUnit) (r : UnitReader) : UnitReader :=
  set_deliveries (<[d := h]> (deliveries r)) r.
Definition set_state (p : Z) (s : LaneState) (r : UnitReader) : UnitReader :=
  set_lanes (<[p := s]> (lanes r)) r.

(** [tracker.terminal()] of the lane on [p]. *)
Definition terminal_of (p : Z) : M (option Z) :=
  meanwhile;;;
  w ← get;
  mret (w_lanes w !! p ≫= terminal).

(** [iter().filter(f).map(key).collect()], where [f] reads shared state. *)
Fixpoint filter_by {A} (f : A -> M bool) (l : list A) : M (list A) :=
  match l with
  | [] => mret []
  | x :: l => b ← f x; rest ← filter_by f l; mret (if b : bool then x :: rest else rest)
  end.

(** [settled]. *)
Definition settled (answer : option FeedError) : SourceError + bool :=
  match answer with
  | None => inr true
  | Some e =>
      match kind e with
      | Gone => inr true
      | Retryable => inr false
      | _ => inl (feed_error "settling a unit" e)
      end
  end.

(** [retire]. *)
Definition retire (p : Z) : M unit :=
  r ← reader;
  match lanes r !! p with
  | None => mret tt
  | Some s =>
      upd (fun r => set_lanes (delete p (lanes r)) r);;;
      upd (fun r => match deliveries r !! ls_delivery s with
                    | Some h => set_held (ls_delivery s) (set_h_lanes (h_lanes h ∖ {[p]}) h) r
                    | None => r
                    end);;;
      upd (fun r => set_retired (retired r ++ [ls_lane s]) r)
  end.

(** [release]. *)
Definition release (d : Z) : M unit :=
  r ← reader;
  match deliveries r !! d with
  | None => mret tt
  | Some h =>
      upd (fun r => set_deliveries (delete d (deliveries r)) r);;;
      each (fun p =>
        upd (fun r => match lanes r !! p with
                      | Some s => set_revoked (revoked r ++ [ls_lane s]) (set_lanes (delete p (lanes r)) r)
                      | None => r
                      end)) (merge_sort Z.le (elements (h_lanes h)))
  end.

(** [acknowledge]. *)
Definition acknowledge (d : Z) : M (SourceError + unit) :=
  r ← reader;
  h ← expect (deliveries r !! d);
  a ← feed_said (Acknowledged d (h_receipt h));
  match settled a with
  | inl e => mret (inl e)
  | inr true => upd (fun r => set_deliveries (delete d (deliveries r)) r);;; mret (inr tt)
  | inr false => mret (inr tt)
  end.

(** [fail_unread]. *)
Definition fail_unread (receipt : Z) (reason : string) : M (SourceError + unit) :=
  a ← feed_said (Failed None receipt reason);
  match settled a with
  | inl e => mret (inl e)
  | inr true => mret (inr tt)
  | inr false => upd (fun r => set_unsent_fails (unsent_fails r ++ [(receipt, reason)]) r);;; mret (inr tt)
  end.

(** [renew_each]. *)
Definition renew_each : M (SourceError + unit) :=
  r ← reader;
  each_try (fun '(d, receipt) =>
    a ← feed_said (Renewed d receipt);
    match a with
    | None => mret (inr tt)
    | Some e =>
        match kind e with
        | Gone => release d;;; mret (inr tt)
        | Retryable => mret (inr tt)
        | _ => mret (inl (feed_error "renewing a held unit" e))
        end
    end)
    (omap (fun d => h ← deliveries r !! d; Some (d, h_receipt h)) (keys (deliveries r))).

(** [renew_held]. *)
Definition renew_held : M unit :=
  r ← reader;
  match renew_error r with
  | Some _ => mret tt
  | None =>
      x ← renew_each;
      upd (set_renew_error (match x with inl e => Some e | inr _ => None end))
  end.

Section reader.
Context `{UnitLib} (cfg : ReaderConfig).

(** The book of delivery [d], which nothing reads. *)
Definition note (d : Z) (f : Book -> Book) : M unit :=
  modify (fun w => set_books (alter f d (w_books w)) w).
Definition note_cut (key : list Z) (dropped : list Part) (c : Cut) (b : Book) : Book :=
  mkBook (bk_receipt b) (bk_parts b) (bk_opened b) (bk_dropped b ++ dropped) (<[key := c]> (bk_cuts b)).
Definition note_opened (p : Z) (b : Book) : Book :=
  mkBook (bk_receipt b) (bk_parts b) (bk_opened b ++ [p]) (bk_dropped b) (bk_cuts b).

(** The re-enqueue of [o], overwritten under a lane of the held unit [h]. *)
Definition re_enqueue (d : Z) (s : LaneState) (h : HeldUnit) (o : Overwrite) : M (ReEnqueue * Cut) :=
  match h_failing h with
  | Some _ => mret (ReEnqueued, CutFailing)
  | None =>
      if bool_decide (o_size o = 0) then mret (ReEnqueued, CutEmpty o)
      else if bool_decide (re_enqueue_cap cfg <= ls_re_enqueues s)
      then mret (ReEnqueued, CutCapped o (ls_re_enqueues s))
      else
        b ← expect (bucket (reader_scope cfg));
        w ← get;
        let call := length (w_calls w) in
        let unit := mkUnit (h_unit h) (re_enqueue_body b o (wrap_u32 (ls_re_enqueues s + 1))) in
        modify (add_call (Published d unit));;;
        mret (Publishing call, CutPublished o call)
  end.

(** [on_overwrite]. *)
Definition on_overwrite (p : Z) (o : Overwrite) : M unit :=
  r ← reader;
  match lanes r !! p with
  | None => mret tt
  | Some s =>
  match deliveries r !! ls_delivery s with
  | None => mret tt
  | Some h =>
  if bool_decide (is_Some (h_overwritten h !! o_key o)) then mret tt
  else
    _ ← expect (mapM cursor_key (h_pending h));
    let d := ls_delivery s in
    let pending := filter (fun c => cursor_key c <> Some (o_key o)) (h_pending h) in
    let dropped := filter (fun c => cursor_key c = Some (o_key o)) (h_pending h) in
    x ← re_enqueue d s h o;
    upd (set_held d (set_overwritten (<[o_key o := x.1]> (h_overwritten h)) (set_pending pending h)));;;
    note d (note_cut (o_key o) (concat (cursor_parts <$> dropped)) x.2)
  end
  end.

(** One report: an overwrite, or poison. *)
Definition on_report (rep : PoisonReport) : M unit :=
  match rp_overwrite rep with
  | Some o => on_overwrite (rp_partition rep) o
  | None =>
      upd (fun r =>
        match lanes r !! rp_partition rep with
        | None => r
        | Some s =>
            match deliveries r !! ls_delivery s with
            | None => r
            | Some h => set_held (ls_delivery s) (set_failing (rp_reason rep) h) r
            end
        end)
  end.

(** [read_reports]. *)
Definition read_report : M (option unit) :=
  meanwhile;;;
  w ← get;
  match w_reports w with
  | [] => mret (Some tt)
  | rep :: rest => modify (set_reports rest);;; on_report rep;;; mret None
  end.
Definition read_reports : M unit := loop read_report.

(** [check_re_enqueues], one key of one delivery. *)
Definition check_re_enqueue (d : Z) (key : list Z) : M (SourceError + unit) :=
  r ← reader;
  match deliveries r !! d with
  | None => mret (inr tt)
  | Some h =>
      match h_overwritten h !! key with
      | Some (Publishing call) =>
          meanwhile;;;
          w ← get;
          match w_confirmed w !! call with
          | None => mret (inr tt)
          | Some None =>
              upd (set_held d (set_overwritten (<[key := ReEnqueued]> (h_overwritten h)) h));;;
              mret (inr tt)
          | Some (Some e) =>
              if bool_decide (kind e = Fatal)
              then mret (inl (feed_error "re-enqueueing an overwritten object" e))
              else
                when (bool_decide (h_failing h = None))
                  (upd (set_held d (set_failing "re-enqueueing an overwritten object failed" h)));;;
                mret (inr tt)
          end
      | _ => mret (inr tt)
      end
  end.
Definition check_re_enqueues : M (SourceError + unit) :=
  r ← reader;
  each_try (fun d =>
    r ← reader;
    each_try (check_re_enqueue d)
      (from_option (fun h => text_keys (h_overwritten h)) [] (deliveries r !! d)))
    (keys (deliveries r)).

(** The deliveries that satisfy [f], oldest first. *)
Definition select (f : HeldUnit -> bool) (r : UnitReader) : list Z :=
  filter (fun d => from_option f false (deliveries r !! d)) (keys (deliveries r)).

Definition is_failing (h : HeldUnit) : bool := bool_decide (is_Some (h_failing h)).

(** The lanes [settle] retires: ended at the last watermark committed, or
    having emitted nothing, in a delivery that is not failing. *)
Definition may_retire (p : Z) : M bool :=
  r ← reader;
  s ← expect (lanes r !! p);
  h ← expect (deliveries r !! ls_delivery s);
  if is_failing h then mret false
  else
    t ← terminal_of p;
    mret (match t with
          | Some t => bool_decide (t = 0) || bool_decide (ls_last_committed s = Some t)
          | None => false
          end).

(** [settle], a failing delivery and an ended lane. *)
Definition fail_held (d : Z) : M (SourceError + unit) :=
  r ← reader;
  h ← expect (deliveries r !! d);
  a ← feed_said (Failed (Some d) (h_receipt h) (default EmptyString (h_failing h)));
  match settled a with
  | inl e => mret (inl e)
  | inr true => release d;;; mret (inr tt)
  | inr false => mret (inr tt)
  end.
Definition retire_unfailing (p : Z) : M unit :=
  r ← reader;
  match lanes r !! p with
  | None => mret tt
  | Some s =>
      h ← expect (deliveries r !! ls_delivery s);
      when (negb (is_failing h)) (retire p)
  end.

(** [settle]. *)
Definition settle : M (SourceError + unit) :=
  r ← reader;
  match renew_error r with
  | Some e => upd (set_renew_error None);;; mret (inl e)
  | None =>
  read_reports;;;
  _ <-? check_re_enqueues;
  r ← reader;
  _ <-? each_try fail_held (select is_failing r);
  r ← reader;
  upd (set_unsent_fails []);;;
  _ <-? each_try (fun '(receipt, reason) => fail_unread receipt reason) (unsent_fails r);
  r ← reader;
  ended ← filter_by may_retire (keys (lanes r));
  read_reports;;;
  each retire_unfailing ended;;;
  r ← reader;
  _ <-? each_try acknowledge (select unit_finished r);
  renew_each
  end.

(** [room]. *)
Definition room (r : UnitReader) : nat :=
  units_held cfg -
    (base.size (lanes r) + base.size (filter (fun dh => unit_idle dh.2 = true) (deliveries r))).

(** [hold]. *)
Definition hold (dl : Delivery) (cursors : list Cursor) : M unit :=
  r ← reader;
  let n := next_delivery r in
  if bool_decide (n = U32_MAX) then panic
  else
    upd (set_next_delivery (n + 1));;;
    upd (set_held n (mkHeld (receipt dl) (id (unit_ dl)) cursors ∅ None ∅));;;
    modify (fun w => set_books
      (<[n := mkBook (receipt dl) (concat (cursor_parts <$> cursors)) [] [] ∅]> (w_books w)) w).

(** [open]: the lane's number. *)
Definition open (d : Z) (part : Part) : M Z :=
  r ← reader;
  let n := next_lane r in
  if bool_decide (n = U32_MAX) then panic
  else
    upd (set_next_lane (n + 1));;;
    let re_enqueues := match p_origin part with Notification _ k => k | Lister => 0 end in
    let members := if p_range part then 1 else Z.of_nat (length (p_object part)) in
    modify (fun w => set_lane n (mkLane d part false 0 0 LaneReading None) w);;;
    upd (set_state n (mkLaneState d n None false re_enqueues members));;;
    r ← reader;
    h ← expect (deliveries r !! d);
    upd (set_held d (set_h_lanes (h_lanes h ∪ {[n]}) h));;;
    note d (note_opened n);;;
    mret n.

(** [open_pending]; the room bounds the lanes it opens. *)
Definition openable (h : HeldUnit) : bool :=
  bool_decide (h_failing h = None) && bool_decide (h_pending h <> []).
Fixpoint open_loop (fuel : nat) : M (list Z) :=
  r ← reader;
  if bool_decide (room r = O) then mret []
  else
    match fuel, select openable r with
    | S fuel, d :: _ =>
        h ← expect (deliveries r !! d);
        match h_pending h with
        | [] => panic
        | c :: cs =>
            '(part, c) ← expect (cursor_next c);
            upd (set_held d (set_pending (if is_exhausted c then cs else c :: cs) h));;;
            p ← open d part;
            rest ← open_loop fuel;
            mret (p :: rest)
        end
    | _, [] => mret []
    | O, _ :: _ => panic
    end.
Definition open_pending : M (list Z) := r ← reader; open_loop (room r).

(** [receive]: how many the feed handed over, [None] where it failed
    retryably. A feed hands over at most what it is asked for. *)
Definition receive (max : nat) : M (SourceError + option Z) :=
  r ← ask (fun a => match a with
                    | FeedGave (inl e) => Some (inl e)
                    | FeedGave (inr l) => if bool_decide (length l <= max)%nat then Some (inr l) else None
                    | _ => None
                    end);
  modify (add_call (Received max));;;
  match r with
  | inl e =>
      if bool_decide (kind e = Retryable) then mret (inr None)
      else mret (inl (feed_error "receiving from the feed" e))
  | inr l =>
      _ <-? each_try (fun dl =>
              match decode_unit (body (unit_ dl)) (reader_scope cfg) (reader_packing cfg) with
              | Read cursors => hold dl cursors;;; mret (inr tt)
              | Acknowledge _ => hold dl [];;; mret (inr tt)
              | Fail _ => fail_unread (receipt dl) "unreadable"
              end) l;
      mret (inr (Some (Z.of_nat (length l))))
  end.

(** [holds_work]. *)
Definition holds_work (r : UnitReader) : bool :=
  negb (bool_decide (deliveries r = ∅) && bool_decide (lanes r = ∅) && bool_decide (revoked r = []) &&
        bool_decide (retired r = []) && bool_decide (unsent_fails r = [])).

(** A call of the end check, if the job has one. *)
Definition on_end (f : Z -> JobEnd -> option JobEnd) : M unit :=
  r ← reader;
  match end_ r with
  | None => mret tt
  | Some j => now ← clock; j ← expect (f now j); upd (set_end (Some j))
  end.

(** [lister_finished]. *)
Definition reader_lister_finished : M unit :=
  upd (fun r => set_end (JobEnd.lister_finished <$> end_ r) r).

Inductive SourceEvent :=
  | LanesAssigned (ls : list Z)
  | LanesRevoked (ls : list Z)
  | LanesRetired (ls : list Z)
  | LanesAdded (ls : list Z)
  | CommitReady (ps : list Z)
  | Drained
  | EventIdle.

(** The feed as the end check sees it, from a run in progress: its depth, and
    the reader's own receive. *)
#[export] Instance World_Feed : Feed (Outcome World Answer unit) := {|
  feed_read_depth which f :=
    match f with Ran _ w _ => w_depths w (length (w_calls w)) which | _ => None end
|}.
Definition receive_in (f : Outcome World Answer unit)
    : (SourceError + option Z) * Outcome World Answer unit :=
  match f with
  | Ran _ w t =>
      match receive (room (w_reader w)) w t with
      | Ran x w t => (x, Ran tt w t)
      | Oracle.Panicked w => (inl ErrNoDepth, Oracle.Panicked w)
      | Stuck => (inl ErrNoDepth, Stuck)
      end
  | f => (inl ErrNoDepth, f)
  end.

(** [end.idle(feed, || self.receive(self.room()))], the check put back. *)
Definition idle_in (now : Z) (stop : bool) (marker : option (option (SourceError + option string)))
    (depth : option (FeedError + Depth)) (j : JobEnd) : M (SourceError + bool) := fun w t =>
  match idle receive_in now stop marker depth j (Ran tt w t) with
  | Out x j' (Ran _ w t) => Ran x (on_reader (set_end (Some j')) w) t
  | Out _ _ (Oracle.Panicked w) => Oracle.Panicked w
  | Out _ _ Stuck => Stuck
  | JobEnd.Panicked => Oracle.Panicked w
  | OutOfFuel => Oracle.Panicked w
  end.
Definition run_idle (j : JobEnd) : M (SourceError + bool) :=
  now ← clock;
  a ← ask (fun a => match a with EndAnswers s m d => Some (s, m, d) | _ => None end);
  idle_in now a.1.1 a.1.2 a.2 j.

(** The lanes whose end has not been reported through [CommitReady]. *)
Definition unhinted (p : Z) : M bool :=
  r ← reader;
  s ← expect (lanes r !! p);
  if ls_hinted s then mret false
  else t ← terminal_of p; mret (bool_decide (is_Some t)).
Definition hint (p : Z) (r : UnitReader) : UnitReader :=
  match lanes r !! p with
  | Some s => set_state p (mkLaneState (ls_delivery s) (ls_lane s) (ls_last_committed s) true
                             (ls_re_enqueues s) (ls_members s)) r
  | None => r
  end.

(** The tail of [poll_events]: the end check, then the park. *)
Definition poll_idle (timeout : Z) : M (SourceError + SourceEvent) :=
  r ← reader;
  ended <-? (match negb (stopping r) && negb (holds_work r), end_ r with
             | true, Some j => upd (set_end None);;; run_idle j
             | _, _ => mret (inr false)
             end);
  if ended : bool then mret (inr Drained)
  else
    r ← reader;
    within ← (match end_ r with
              | Some j => now ← clock; mret (park_within timeout now j)
              | None => mret timeout
              end);
    modify (add_call (Parked within));;;
    mret (inr EventIdle).

(** [poll_events] after the settled lanes left: open, receive, open. *)
Definition open_and_receive : M (SourceError + list Z) :=
  opened ← open_pending;
  r ← reader;
  let max := room r in
  if bool_decide (max <> O) && negb (stopping r) then
    took <-? receive max;
    (match took with
     | Some 0 => mret tt
     | Some _ => on_end busy
     | None => on_end receive_failed
     end);;;
    more ← open_pending;
    mret (inr (opened ++ more))
  else mret (inr opened).

(** [poll_events]. *)
Definition poll_events (timeout : Z) : M (SourceError + SourceEvent) :=
  r ← reader;
  if negb (started r) then upd (set_started true);;; mret (inr (LanesAssigned []))
  else
  _ <-? settle;
  r ← reader;
  when (holds_work r) (on_end busy);;;
  r ← reader;
  if bool_decide (revoked r <> []) then
    upd (set_revoked []);;; mret (inr (LanesRevoked (revoked r)))
  else if bool_decide (retired r <> []) then
    upd (set_retired []);;; mret (inr (LanesRetired (retired r)))
  else
  opened <-? open_and_receive;
  if bool_decide (opened <> []) then mret (inr (LanesAdded opened))
  else
  r ← reader;
  ps ← filter_by unhinted (keys (lanes r));
  each (fun p => upd (hint p)) ps;;;
  if bool_decide (ps <> []) then mret (inr (CommitReady ps))
  else poll_idle timeout.

(** [commit]. *)
Definition commit_one (wm : Z * Z) : M (SourceError + unit) :=
  let '(p, watermark) := wm in
  r ← reader;
  match lanes r !! p with
  | None => mret (inr tt)
  | Some s =>
      upd (set_state p (mkLaneState (ls_delivery s) (ls_lane s) (Some watermark) (ls_hinted s)
                          (ls_re_enqueues s) (ls_members s)));;;
      let d := ls_delivery s in
      t ← terminal_of p;
      if bool_decide (t <> Some watermark) then mret (inr tt)
      else
        read_reports;;;
        r ← reader;
        h ← expect (deliveries r !! d);
        if is_failing h then mret (inr tt)
        else
          retire p;;;
          r ← reader;
          h ← expect (deliveries r !! d);
          if unit_finished h then acknowledge d else mret (inr tt)
  end.
Definition commit (watermarks : list (Z * Z)) : M (SourceError + unit) := each_try commit_one watermarks.

(** [set_paused]. *)
Definition set_paused (ls : list Z) (paused : bool) : M unit :=
  modify (fun w => set_w_lanes
    (map_imap (fun p l =>
       Some (if from_option (fun s => bool_decide (ls_lane s ∈ ls)) false (lanes (w_reader w) !! p)
             then mkLane (ln_delivery l) (ln_part l) paused (ln_emitted l) (ln_delivered l) (ln_mode l)
                    (ln_cut l)
             else l)) (w_lanes w)) w).

(** [begin_stop] and [ended_then_reports]. *)
Definition begin_stop : M unit :=
  r ← reader;
  when (negb (stopping r)) (upd (set_stopping true);;; modify (add_call StoppedReceiving)).
Definition ended_then_reports : M (gset Z) :=
  r ← reader;
  ended ← filter_by (fun p => t ← terminal_of p; mret (bool_decide (is_Some t))) (keys (lanes r));
  read_reports;;;
  mret (list_to_set ended).

(** [reading_on_stop]. *)
Definition reading_on_stop : M bool :=
  if negb (hands_back cfg) then mret false
  else
    begin_stop;;;
    ended ← ended_then_reports;
    r ← reader;
    mret (bool_decide (unsent_fails r <> []) ||
          bool_decide (select (fun h => negb (read_to_its_end ended h)) r <> [])).

(** [stop_reading]. *)
Definition hand_back_one (d : Z) : M (SourceError + unit) :=
  r ← reader;
  h ← expect (deliveries r !! d);
  a ← feed_said (HandedBack d (h_receipt h));
  match a with
  | Some e =>
      match kind e with
      | Gone | Retryable => release d;;; mret (inr tt)
      | _ => mret (inl (feed_error "handing back a held unit" e))
      end
  | None => release d;;; mret (inr tt)
  end.
Definition stop_reading : M (SourceError + unit) :=
  if negb (hands_back cfg) then
    r ← reader;
    upd (set_renew_error None);;;
    mret (match renew_error r with Some e => inl e | None => inr tt end)
  else
    begin_stop;;;
    ended ← ended_then_reports;
    first ← check_re_enqueues;
    r ← reader;
    _ <-? each_try hand_back_one
            (select (fun h => negb (is_failing h) && negb (read_to_its_end ended h)) r);
    settled_ ← settle;
    r ← reader;
    each release (select is_failing r);;;
    mret (match first with inl e => inl e | inr _ => settled_ end).

(** ** The system *)

Inductive Op :=
  | OpPoll (timeout : Z)
  | OpCommit (watermarks : list (Z * Z))
  | OpRenewHeld
  | OpReadingOnStop
  | OpStopReading
  | OpListerFinished
  | OpSetPaused (ls : list Z) (paused : bool)
  | OpMeanwhile.

Definition run_op (o : Op) : M unit :=
  match o with
  | OpPoll timeout => poll_events timeout;;; mret tt
  | OpCommit wms => commit wms;;; mret tt
  | OpRenewHeld => renew_held
  | OpReadingOnStop => reading_on_stop;;; mret tt
  | OpStopReading => stop_reading;;; mret tt
  | OpListerFinished => reader_lister_finished
  | OpSetPaused ls b => set_paused ls b
  | OpMeanwhile => meanwhile
  end.

(** A commit names watermarks below which downstream has delivered. *)
Definition covered (wms : list (Z * Z)) (w : World) : Prop :=
  Forall (fun '(p, n) => forall l, w_lanes w !! p = Some l -> n <= ln_delivered l) wms.
Definition allowed (o : Op) (w : World) : Prop :=
  match o with OpCommit wms => covered wms w | _ => True end.

Definition world_new (e : option JobEnd) : World := mkWorld (reader_new e) ∅ [] ∅ [] ∅ (fun _ _ => None).

Inductive reader_step : World -> World -> Prop :=
  | reader_op o w t x w' t' :
      allowed o w -> run_op o w t = Ran x w' t' -> reader_step w w'.
Definition reader_reachable (fin : option Finish) : World -> Prop :=
  rtc reader_step (world_new (job_new <$> fin)).
End reader.
