(* ===== verification/UnitReaderProofs.v ===== *)
(** * The unit reader's invariant

    What holds of a reader, its lanes and its feed at every step, and that each
    operation keeps it, whatever the lanes and the feed do meanwhile. *)

From stdpp Require Import base gmap sorting strings list relations.
From Stdlib Require Import ZArith Lia.
From S2P Require Import Prelude EndCheck MemoryFeed JobEnd S3Split S3Offset S3Unit S3UnitProofs Oracle UnitReader.

(** ** Ordered keys *)
Lemma elem_of_keys {A} (m : gmap Z A) k : k ∈ keys m <-> is_Some (m !! k).
Proof.
  unfold keys. rewrite merge_sort_Permutation, list_elem_of_fmap. split.
  - intros ([k' x] & -> & Hx). apply elem_of_map_to_list in Hx. by eexists.
  - intros [x Hx]. exists (k, x). split; [done|]. by apply elem_of_map_to_list.
Qed.

Lemma elem_of_select f r d :
  d ∈ select f r <-> exists h, deliveries r !! d = Some h /\ f h = true.
Proof.
  unfold select. rewrite list_elem_of_filter, elem_of_keys. split.
  - intros [Hf [h Hh]]. rewrite Hh in Hf. exists h. split; [done|]. by apply Is_true_true.
  - intros (h & Hh & Hf). rewrite Hh. split; [by apply Is_true_true|by eexists].
Qed.

Lemma select_NoDup f r : NoDup (select f r).
Proof.
  unfold select, keys. apply NoDup_filter. rewrite merge_sort_Permutation. apply NoDup_fst_map_to_list.
Qed.

(** ** The invariant *)

(** The key of a part's first object. *)
Definition part_key (p : Part) : option (list Z) := e_key <$> head (p_object p).

(** A lane read to its end, everything it emitted delivered, and what an
    overwrite cut off it noted in [cuts]. *)
Definition lane_done (cuts : gmap (list Z) Cut) (l : Lane) : Prop :=
  ln_mode l = LaneEnded /\ ln_delivered l = ln_emitted l /\
  (forall o, ln_cut l = Some o -> is_Some (cuts !! o_key o)).

(** The parts of the lanes [ps]. *)
Definition lane_parts (ls : gmap Z Lane) (ps : list Z) : list Part :=
  omap (fun p => ln_part <$> ls !! p) ps.

(** The feed call that re-enqueues [o] for the unit of delivery [d]. *)
Definition published `{UnitLib} (cfg : ReaderConfig) (w : World) (d : Z) (o : Overwrite) (call : nat)
    : Prop :=
  exists u b n, w_calls w !! call = Some (Published d u) /\ bucket (reader_scope cfg) = Some b /\
    body u = re_enqueue_body b o n.

(** How a noted cut stands, by the reader's re-enqueue of the key. *)
Definition cut_ok `{UnitLib} (cfg : ReaderConfig) (w : World) (d : Z) (h : HeldUnit) (key : list Z)
    (r : ReEnqueue) (c : Cut) : Prop :=
  match c with
  | CutFailing => r = ReEnqueued /\ is_Some (h_failing h)
  | CutEmpty o => r = ReEnqueued /\ o_key o = key /\ o_size o = 0
  | CutCapped o n => r = ReEnqueued /\ o_key o = key /\ re_enqueue_cap cfg <= n
  | CutPublished o call =>
      o_key o = key /\ published cfg w d o call /\
      (r = Publishing call \/ r = ReEnqueued /\ w_confirmed w !! call = Some None)
  end.

(** A cut that needs nothing more. *)
Definition cut_settled `{UnitLib} (cfg : ReaderConfig) (w : World) (d : Z) (key : list Z) (c : Cut)
    : Prop :=
  match c with
  | CutFailing => False
  | CutEmpty o => o_key o = key /\ o_size o = 0
  | CutCapped o n => o_key o = key /\ re_enqueue_cap cfg <= n
  | CutPublished o call =>
      o_key o = key /\ published cfg w d o call /\ w_confirmed w !! call = Some None
  end.

Section inv.
Context `{UnitLib} (cfg : ReaderConfig).

(** A lane of a held delivery: its cut, if it has one, is noted or still in
    the channel. *)
Definition reading_ok (w : World) (cuts : gmap (list Z) Cut) (p : Z) (l : Lane) : Prop :=
  forall o, ln_cut l = Some o ->
    is_Some (cuts !! o_key o) \/
    exists rep, rep ∈ w_reports w /\ rp_partition rep = p /\ rp_overwrite rep = Some o.

(** A cursor of a held delivery has a part left, of a key there is; a
    notification's names the source's bucket. *)
Definition from_notification (origin : Origin) : Prop :=
  match origin with Notification _ _ => True | Lister => False end.
Definition cursor_live (c : Cursor) : Prop :=
  is_exhausted c = false /\ c_object c <> [] /\
  (from_notification (c_origin c) -> is_Some (bucket (reader_scope cfg))).

Record book_ok (w : World) (d : Z) (h : HeldUnit) (b : Book) : Prop := mk_book_ok {
  bo_receipt : bk_receipt b = h_receipt h;
  bo_parts : bk_parts b ≡ₚ lane_parts (w_lanes w) (bk_opened b) ++
                           concat (cursor_parts <$> h_pending h) ++ bk_dropped b;
  bo_opened : forall p, p ∈ bk_opened b -> exists l, w_lanes w !! p = Some l /\ ln_delivery l = d /\
                (p ∈ h_lanes h /\ reading_ok w (bk_cuts b) p l \/ lane_done (bk_cuts b) l);
  bo_dropped : forall part, part ∈ bk_dropped b ->
                 exists key, part_key part = Some key /\ is_Some (bk_cuts b !! key);
  bo_keys : dom (h_overwritten h) = dom (bk_cuts b);
  bo_cuts : forall key r c, h_overwritten h !! key = Some r -> bk_cuts b !! key = Some c ->
              cut_ok cfg w d h key r c;
}.

Record held_ok (w : World) (d : Z) (h : HeldUnit) : Prop := mk_held_ok {
  ho_pending : Forall cursor_live (h_pending h);
  ho_lanes : forall p, p ∈ h_lanes h -> exists s, lanes (w_reader w) !! p = Some s /\ ls_delivery s = d;
  ho_book : exists b, w_books w !! d = Some b /\ book_ok w d h b /\ (forall p, p ∈ h_lanes h -> p ∈ bk_opened b);
}.

Definition lane_ok (w : World) (p : Z) (s : LaneState) : Prop :=
  exists h l, deliveries (w_reader w) !! ls_delivery s = Some h /\ p ∈ h_lanes h /\
    w_lanes w !! p = Some l /\ ln_delivery l = ls_delivery s /\
    (forall n, ls_last_committed s = Some n -> n <= ln_delivered l).

Definition env_ok (w : World) (p : Z) (l : Lane) : Prop :=
  p < next_lane (w_reader w) /\ 0 <= ln_delivered l <= ln_emitted l /\
  (forall o, ln_cut l = Some o -> part_key (ln_part l) = Some (o_key o)) /\
  (from_notification (p_origin (ln_part l)) -> is_Some (bucket (reader_scope cfg))) /\
  (is_Some (ln_cut l) -> from_notification (p_origin (ln_part l))).

Definition report_ok (w : World) (rep : PoisonReport) : Prop :=
  forall o, rp_overwrite rep = Some o ->
    exists l, w_lanes w !! rp_partition rep = Some l /\ ln_cut l = Some o.

(** A delivery all of whose parts were read: each part was read to its end on
    a lane, with all it emitted delivered, or was dropped for an overwrite of
    its key; and every overwrite is settled. *)
Record read_out (w : World) (d : Z) (b : Book) : Prop := mk_read_out {
  ro_parts : bk_parts b ≡ₚ lane_parts (w_lanes w) (bk_opened b) ++ bk_dropped b;
  ro_lanes : forall p, p ∈ bk_opened b ->
               exists l, w_lanes w !! p = Some l /\ ln_delivery l = d /\ lane_done (bk_cuts b) l;
  ro_dropped : forall part, part ∈ bk_dropped b ->
                 exists key, part_key part = Some key /\ is_Some (bk_cuts b !! key);
  ro_cuts : forall key c, bk_cuts b !! key = Some c -> cut_settled cfg w d key c;
}.

Definition acked_ok (w : World) (d receipt : Z) : Prop :=
  exists b, w_books w !! d = Some b /\ bk_receipt b = receipt /\ read_out w d b /\
    forall h, deliveries (w_reader w) !! d = Some h -> unit_finished h = true.

Record inv (w : World) : Prop := mk_inv {
  inv_lane : forall p s, lanes (w_reader w) !! p = Some s -> lane_ok w p s;
  inv_held : forall d h, deliveries (w_reader w) !! d = Some h -> held_ok w d h;
  inv_env : forall p l, w_lanes w !! p = Some l -> env_ok w p l;
  inv_book : forall d b, w_books w !! d = Some b -> d < next_delivery (w_reader w);
  inv_report : forall rep, rep ∈ w_reports w -> report_ok w rep;
  inv_acked : forall d rc a, Acknowledged d rc a ∈ w_calls w -> acked_ok w d rc;
  inv_end : from_option job_ok True (end_ (w_reader w));
  inv_next : 0 <= next_lane (w_reader w) <= U32_MAX /\ 0 <= next_delivery (w_reader w) <= U32_MAX;
}.

Lemma inv_world_new e : from_option job_ok True e -> inv (world_new e).
Proof.
  intros He. split; cbn; try done.
  - intros rep Hr. by apply not_elem_of_nil in Hr.
  - intros d rc a Ha. by apply not_elem_of_nil in Ha.
Qed.

(** ** What only grows *)

Definition lane_le (l l' : Lane) : Prop :=
  ln_delivery l' = ln_delivery l /\ ln_part l' = ln_part l /\ ln_delivered l <= ln_delivered l' /\
  (ln_mode l = LaneEnded ->
     ln_mode l' = LaneEnded /\ ln_emitted l' = ln_emitted l /\ ln_cut l' = ln_cut l).

Record grows (w w' : World) : Prop := mk_grows {
  g_lanes : forall p l, w_lanes w !! p = Some l ->
    exists l', w_lanes w' !! p = Some l' /\ lane_le l l' /\
      forall o, ln_cut l' = Some o -> ln_cut l = Some o \/
        exists rep, rep ∈ w_reports w' /\ rp_partition rep = p /\ rp_overwrite rep = Some o;
  g_reports : forall rep, rep ∈ w_reports w -> rep ∈ w_reports w';
  g_confirmed : w_confirmed w ⊆ w_confirmed w';
  g_calls : w_calls w `prefix_of` w_calls w';
  g_wf : forall p l, w_lanes w' !! p = Some l -> ln_delivered l <= ln_emitted l;
}.

Lemma lane_le_refl l : lane_le l l.
Proof. by split_and!. Qed.

Lemma lane_le_trans l1 l2 l3 : lane_le l1 l2 -> lane_le l2 l3 -> lane_le l1 l3.
Proof.
  intros (A1 & A2 & A3 & A4) (B1 & B2 & B3 & B4). split_and!; [congruence..|lia|].
  intros Hm. destruct (A4 Hm) as (Hm2 & ? & ?). destruct (B4 Hm2) as (? & ? & ?). split_and!; congruence.
Qed.

Lemma lane_done_le cuts l l' :
  lane_le l l' -> ln_delivered l' <= ln_emitted l' -> lane_done cuts l -> lane_done cuts l'.
Proof.
  intros (_ & _ & Hd & He) Hwf (Hm & Hall & Hcut). destruct (He Hm) as (Hm' & Hem & Hc).
  split_and!; [done|lia|]. by rewrite Hc.
Qed.

Section mono.
Context (w w' : World) (Hg : grows w w').

Lemma published_mono d o call : published cfg w d o call -> published cfg w' d o call.
Proof.
  intros (u & b & n & Hc & Hb). exists u, b, n. split; [|done].
  destruct (g_calls _ _ Hg) as [k ->]. by apply lookup_app_l_Some.
Qed.

Lemma confirmed_mono call : w_confirmed w !! call = Some None -> w_confirmed w' !! call = Some None.
Proof. intros Hc. by eapply lookup_weaken, (g_confirmed _ _ Hg). Qed.

Lemma cut_ok_mono d h key r c : cut_ok cfg w d h key r c -> cut_ok cfg w' d h key r c.
Proof.
  destruct c; [done..|]. intros (Hk & Hp & Hr). split_and!; [done|by apply published_mono|].
  destruct Hr as [->|[-> Hr]]; [by left|right]. split; [done|]. by apply confirmed_mono.
Qed.

Lemma cut_settled_mono d key c : cut_settled cfg w d key c -> cut_settled cfg w' d key c.
Proof.
  destruct c; [done..|]. intros (Hk & Hp & Hr).
  split_and!; [done|by apply published_mono|by apply confirmed_mono].
Qed.

Lemma lane_parts_mono ps :
  (forall p, p ∈ ps -> is_Some (w_lanes w !! p)) ->
  lane_parts (w_lanes w') ps = lane_parts (w_lanes w) ps.
Proof.
  unfold lane_parts. induction ps as [|p ps IH]; intros Hp; [done|]. cbn.
  destruct (Hp p) as [l Hl]; [left|]. rewrite Hl. cbn.
  destruct (g_lanes _ _ Hg p l Hl) as (l' & -> & (_ & Hpart & _) & _). cbn. rewrite Hpart.
  f_equal. apply IH. intros q Hq. apply Hp. by right.
Qed.

Lemma book_ok_mono d h b : book_ok w d h b -> book_ok w' d h b.
Proof.
  intros [Hrc Hpt Ho Hdr Hk Hc]. split; try done.
  - rewrite lane_parts_mono; [done|]. intros p Hp. destruct (Ho p Hp) as (l & Hl & _). by eexists.
  - intros p Hp. destruct (Ho p Hp) as (l & Hl & Hd & Hcase).
    destruct (g_lanes _ _ Hg p l Hl) as (l' & Hl' & Hle & Hcut).
    exists l'. split; [done|]. split; [by rewrite (proj1 Hle)|].
    destruct Hcase as [[Hin Hr]|Hdone]; [left|right].
    + split; [done|]. intros o Hoc. destruct (Hcut o Hoc) as [Hold|Hnew]; [|by right].
      destruct (Hr o Hold) as [?|(rep & Hrep & ?)]; [by left|right].
      exists rep. split; [by apply (g_reports _ _ Hg)|done].
    + eapply lane_done_le; [done| |done]. by eapply (g_wf _ _ Hg).
  - intros key r c H1 H2. by eapply cut_ok_mono, Hc.
Qed.

Lemma read_out_mono d b : read_out w d b -> read_out w' d b.
Proof.
  intros [Hpt Hl Hdr Hc]. split.
  - rewrite lane_parts_mono; [done|]. intros p Hp. destruct (Hl p Hp) as (l & ? & _). by eexists.
  - intros p Hp. destruct (Hl p Hp) as (l & Hlp & Hd & Hdone).
    destruct (g_lanes _ _ Hg p l Hlp) as (l' & Hl' & Hle & _).
    exists l'. split_and!; [done|by rewrite (proj1 Hle)|].
    eapply lane_done_le; [done| |done]. by eapply (g_wf _ _ Hg).
  - done.
  - intros key c Hk. by apply cut_settled_mono, Hc.
Qed.
End mono.

(** The parts of the reader the invariant is about. *)
Record same_core (r r' : UnitReader) : Prop := mk_same_core {
  sc_deliveries : deliveries r' = deliveries r;
  sc_lanes : lanes r' = lanes r;
  sc_next_delivery : next_delivery r' = next_delivery r;
  sc_next_lane : next_lane r' = next_lane r;
  sc_end : from_option job_ok True (end_ r) -> from_option job_ok True (end_ r');
}.

Lemma inv_grows w w' :
  inv w -> grows w w' -> same_core (w_reader w) (w_reader w') -> w_books w' = w_books w ->
  (forall d rc a, Acknowledged d rc a ∈ w_calls w' -> Acknowledged d rc a ∈ w_calls w) ->
  (forall p l, w_lanes w' !! p = Some l -> env_ok w' p l) ->
  (forall rep, rep ∈ w_reports w' -> report_ok w' rep) -> inv w'.
Proof.
  intros [Hl Hh He Hb Hr Ha Hj Hn] Hg [Sd Sl Snd Snl Se] Hbk Hcalls He' Hr'. split; try done.
  - intros p s Hs. rewrite Sl in Hs. destruct (Hl p s Hs) as (h & l & Hd & Hp & Hlp & Hdl & Hlc).
    destruct (g_lanes _ _ Hg p l Hlp) as (l' & Hlp' & (H1 & _ & H3 & _) & _).
    exists h, l'. rewrite Sd. split_and!; try done; [congruence|]. intros n Hnn. specialize (Hlc n Hnn). lia.
  - intros d h Hd. rewrite Sd in Hd. destruct (Hh d h Hd) as [H1 H2 (b & H3 & H4 & H5)].
    split; [done| |]. { by rewrite Sl. }
    exists b. rewrite Hbk. split_and!; [done|by eapply book_ok_mono|done].
  - intros d b. rewrite Hbk, Snd. apply Hb.
  - intros d rc a Hin. destruct (Ha d rc a (Hcalls _ _ _ Hin)) as (b & H1 & H2 & H3 & H4).
    exists b. rewrite Hbk, Sd. split_and!; try done. by eapply read_out_mono.
  - by apply Se.
  - by rewrite Snl, Snd.
Qed.

Lemma grows_refl_on (w w' : World) :
  inv w -> w_lanes w' = w_lanes w -> w_reports w' = w_reports w -> w_confirmed w' = w_confirmed w ->
  w_calls w `prefix_of` w_calls w' -> grows w w'.
Proof.
  intros Hi Hl Hr Hc Hp. split; rewrite ?Hl, ?Hr, ?Hc; try done.
  - intros p l Hlp. exists l. split_and!; [done|apply lane_le_refl|by left].
  - intros p l Hlp. destruct (inv_env w Hi p l Hlp) as (_ & ? & _). lia.
Qed.

(** A step of the reader outside the books: another field, or a feed call
    other than an acknowledgement. *)
Lemma inv_aside w w' :
  inv w -> same_core (w_reader w) (w_reader w') -> w_lanes w' = w_lanes w ->
  w_reports w' = w_reports w -> w_confirmed w' = w_confirmed w -> w_books w' = w_books w ->
  w_calls w `prefix_of` w_calls w' ->
  (forall d rc a, Acknowledged d rc a ∈ w_calls w' -> Acknowledged d rc a ∈ w_calls w) -> inv w'.
Proof.
  intros Hi Hs Hl Hr Hc Hb Hp Ha. pose proof (grows_refl_on w w' Hi Hl Hr Hc Hp) as Hg.
  apply (inv_grows w w' Hi Hg Hs Hb Ha).
  - intros p l Hlp. rewrite Hl in Hlp. destruct (inv_env w Hi p l Hlp) as (H1 & H2).
    split; [by rewrite (sc_next_lane _ _ Hs)|done].
  - intros rep Hrep. rewrite Hr in Hrep. intros o Ho. rewrite Hl. by apply (inv_report w Hi rep Hrep).
Qed.

(** ** The other threads keep it *)

(** The lane on [p] moved from [l] to [l'] and sent [reps]. *)
Definition moved (p : Z) (l' : Lane) (reps : list PoisonReport) (w : World) : World :=
  set_reports (w_reports w ++ reps) (set_lane p l' w).

Lemma moved_inv w p l l' reps :
  inv w -> w_lanes w !! p = Some l -> lane_le l l' -> 0 <= ln_delivered l' <= ln_emitted l' ->
  (forall o, ln_cut l' = Some o -> ln_cut l = Some o \/ ln_cut l = None /\
     from_notification (p_origin (ln_part l)) /\ part_key (ln_part l) = Some (o_key o) /\
     exists rep, rep ∈ reps /\ rp_partition rep = p /\ rp_overwrite rep = Some o) ->
  (forall o, ln_cut l = Some o -> ln_cut l' = Some o) ->
  (forall rep o, rep ∈ reps -> rp_overwrite rep = Some o -> rp_partition rep = p /\ ln_cut l' = Some o) ->
  inv (moved p l' reps w) /\ grows w (moved p l' reps w).
Proof.
  intros Hi Hl Hle Hwf Hcut Hkeep Hreps.
  assert (Hlk : forall q lq, w_lanes (moved p l' reps w) !! q = Some lq ->
    q = p /\ lq = l' \/ q <> p /\ w_lanes w !! q = Some lq).
  { intros q lq. cbn. intros [[-> <-]|[Hne Hq]]%lookup_insert_Some; [by left|by right]. }
  assert (Hg : grows w (moved p l' reps w)).
  { split; cbn.
    - intros q lq Hq. destruct (decide (q = p)) as [->|Hne].
      + rewrite lookup_insert_eq. assert (lq = l) as -> by congruence. exists l'. split_and!; [done..|].
        intros o Ho. destruct (Hcut o Ho) as [?|(_ & _ & _ & rep & H1 & H2)]; [by left|right].
        exists rep. split; [apply elem_of_app; by right|done].
      + rewrite lookup_insert_ne by done. exists lq. split_and!; [done|apply lane_le_refl|by left].
    - intros rep Hr. apply elem_of_app. by left.
    - done.
    - done.
    - intros q lq Hq. destruct (Hlk q lq Hq) as [[_ ->]|[_ Hq']]; [lia|].
      destruct (inv_env w Hi q lq Hq') as (_ & ? & _). lia. }
  split; [|done]. destruct (inv_env w Hi p l Hl) as (Hp & _ & Hc & Hn & Hcn).
  destruct Hle as (_ & Hpart & _). apply (inv_grows w _ Hi Hg); try done.
  - intros q lq Hq. destruct (Hlk q lq Hq) as [[-> ->]|[_ Hq']]; [|by apply (inv_env w Hi)].
    split_and!; try done; rewrite ?Hpart; try lia; [|done|].
    + intros o Ho. destruct (Hcut o Ho) as [Hold|(_ & _ & ? & _)]; [by apply Hc|done].
    + intros [o Ho]. destruct (Hcut o Ho) as [Hold|(_ & ? & _)]; [|done]. apply Hcn. by eexists.
  - intros rep [Hr|Hr]%elem_of_app o Ho; cbn.
    + destruct (inv_report w Hi rep Hr o Ho) as (lr & Hlr & Hlo).
      destruct (decide (rp_partition rep = p)) as [Heq|Hne].
      * rewrite Heq in Hlr |- *. rewrite lookup_insert_eq. exists l'. split; [done|].
        apply Hkeep. congruence.
      * rewrite lookup_insert_ne by done. by exists lr.
    + destruct (Hreps rep o Hr Ho) as [-> Ho']. rewrite lookup_insert_eq. by exists l'.
Qed.

(** An ended lane whose reports have been read. *)
Definition quiet (w : World) (p : Z) : Prop :=
  (exists l, w_lanes w !! p = Some l /\ ln_mode l = LaneEnded) /\
  forall rep, rep ∈ w_reports w -> rp_partition rep <> p.

(** What the other threads leave alone: the reader, its books and its calls;
    and a quiet lane stays quiet. *)
Record undisturbed (w w' : World) : Prop := mk_undisturbed {
  un_reader : w_reader w' = w_reader w;
  un_books : w_books w' = w_books w;
  un_calls : w_calls w' = w_calls w;
  un_quiet : forall p, quiet w p -> quiet w' p;
}.

Lemma moved_undisturbed w p l l' reps :
  w_lanes w !! p = Some l -> lane_le l l' -> (reps <> [] -> ln_mode l = LaneReading) ->
  (forall rep, rep ∈ reps -> rp_partition rep = p) ->
  undisturbed w (moved p l' reps w).
Proof.
  intros Hl Hle Hm Hreps. split; try done. intros q [(lq & Hq & Hend) Hno]. split; cbn.
  - destruct (decide (q = p)) as [->|Hne].
    + rewrite lookup_insert_eq. exists l'. split; [done|]. assert (lq = l) as -> by congruence.
      by apply Hle.
    + rewrite lookup_insert_ne by done. eauto.
  - intros rep [Hr|Hr]%elem_of_app; [by apply Hno|]. rewrite (Hreps rep Hr). intros ->.
    assert (lq = l) as -> by congruence. rewrite Hm in Hend; [done|]. by intros ->; apply not_elem_of_nil in Hr.
Qed.

Lemma moved_nil p l' w : set_lane p l' w = moved p l' [] w.
Proof. unfold moved. rewrite app_nil_r. by destruct w. Qed.

Lemma env_step_keeps e w w' :
  inv w -> env_step e w = Some w' -> inv w' /\ grows w w' /\ undisturbed w w'.
Proof.
  intros Hi He.
  assert (Hmv : forall p l l' reps, w_lanes w !! p = Some l -> lane_le l l' ->
    0 <= ln_delivered l' <= ln_emitted l' -> ln_mode l = LaneReading \/ ln_cut l' = ln_cut l /\ reps = [] ->
    (forall rep o, rep ∈ reps -> rp_partition rep = p /\ (rp_overwrite rep = Some o -> ln_cut l' = Some o)) ->
    (ln_cut l' = ln_cut l \/ exists o, ln_cut l' = Some o /\ ln_cut l = None /\
       from_notification (p_origin (ln_part l)) /\ part_key (ln_part l) = Some (o_key o) /\
       exists rep, rep ∈ reps /\ rp_overwrite rep = Some o) ->
    w' = moved p l' reps w -> inv w' /\ grows w w' /\ undisturbed w w').
  { intros p l l' reps Hl Hle Hwf Hm Hreps Hcut ->.
    destruct (moved_inv w p l l' reps Hi Hl Hle Hwf) as [H1 H2].
    - intros o Ho. destruct Hcut as [Heq|(o' & Ho' & Hn & Hfn & Hpk & rep & Hr & Hro)]; [left; congruence|].
      right. assert (o' = o) as -> by congruence. split_and!; try done. exists rep.
      split_and!; [done|by apply (Hreps rep o)|done].
    - intros o Ho. destruct Hcut as [Heq|(o' & Ho' & Hn & _)]; congruence.
    - intros rep o Hr Ho. destruct (Hreps rep o Hr) as [? Hx]. split; [done|by apply Hx].
    - split_and!; [done|done|]. eapply moved_undisturbed; [done|done| |].
      + intros Hne. destruct Hm as [|[_ ->]]; done.
      + intros rep Hr. by apply (Hreps rep (mkOverwrite [] None 0 0)). }
  destruct e as [p n|p n|p o|p kd why|p|call x|f]; cbn in He.
  1-5: destruct (w_lanes w !! p) as [l|] eqn:Hl; [|done]; cbn in He;
       case_guard as Hgd; [|done]; cbn in He; injection He as <-;
       destruct (inv_env w Hi p l Hl) as (_ & Hwf & _).
  - destruct Hgd as [Hm Hlt].
    eapply (Hmv p l); [done|..|apply moved_nil]; [|cbn; lia|by left| |by left].
    + split_and!; try done; by rewrite Hm.
    + intros rep o Hr. by apply not_elem_of_nil in Hr.
  - eapply (Hmv p l); [done|..|apply moved_nil]; [|cbn; lia|by right| |by left].
    + split_and!; try done. cbn. lia.
    + intros rep o Hr. by apply not_elem_of_nil in Hr.
  - destruct Hgd as [Hm Hmay]. unfold may_cut in Hmay. apply andb_true_iff in Hmay as [Hc Hmay].
    apply bool_decide_eq_true in Hc.
    destruct (p_origin (ln_part l)) as [|[|] k] eqn:Ho; [done..|].
    destruct (p_object (ln_part l)) as [|e [|]] eqn:Hob; [done| |done].
    apply bool_decide_eq_true in Hmay.
    eapply (Hmv p l); [done|..|reflexivity]; [|cbn; lia|by left| |].
    + split_and!; try done; by rewrite Hm.
    + intros rep o' ->%list_elem_of_singleton. split; [done|]. cbn. by intros [= ->].
    + right. exists o. cbn. split_and!; try done; [by rewrite Ho| |].
      * unfold part_key. rewrite Hob. cbn. by f_equal.
      * eexists. split; [by apply list_elem_of_singleton|done].
  - eapply (Hmv p l); [done|..|reflexivity]; [|cbn; lia|by left| |by left].
    + split_and!; try done; by rewrite Hgd.
    + intros rep o' ->%list_elem_of_singleton. by split.
  - eapply (Hmv p l); [done|..|apply moved_nil]; [|cbn; lia|by left| |by left].
    + split_and!; try done; by rewrite Hgd.
    + intros rep o Hr. by apply not_elem_of_nil in Hr.
  - destruct (w_calls w !! call) as [[]|] eqn:Hcl; try done.
    destruct (w_confirmed w !! call) eqn:Hcf; [done|]. injection He as <-.
    assert (Hg : grows w (set_confirmed (<[call:=x]> (w_confirmed w)) w)).
    { split; cbn; try done.
      - intros p l Hl. exists l. split_and!; [done|apply lane_le_refl|by left].
      - by apply insert_subseteq.
      - intros p l Hl. destruct (inv_env w Hi p l Hl) as (_ & ? & _). lia. }
    split_and!; [|done|by split]. apply (inv_grows w _ Hi Hg); try done.
    + apply Hi.
    + apply (inv_report w Hi).
  - injection He as <-. split_and!; [|by apply grows_refl_on|by split].
    by apply (inv_aside w).
Qed.

Lemma env_run_keeps es : forall w w',
  inv w -> env_run es w = Some w' -> inv w' /\ undisturbed w w' /\
    (forall p l, w_lanes w !! p = Some l -> exists l', w_lanes w' !! p = Some l' /\ lane_le l l').
Proof.
  induction es as [|e es IH]; intros w w' Hi He; cbn in He.
  { injection He as <-. split_and!; [done|by split|]. intros p l Hl. exists l. by split; [|apply lane_le_refl]. }
  destruct (env_step e w) as [w1|] eqn:H1; [|done]. cbn in He.
  destruct (env_step_keeps e w w1 Hi H1) as (Hi1 & Hg1 & [U1 U2 U3 U4]).
  destruct (IH w1 w' Hi1 He) as (Hi' & [V1 V2 V3 V4] & Hl'). split_and!; [done| |].
  - split; [congruence..|]. auto.
  - intros p l Hl. destruct (g_lanes _ _ Hg1 p l Hl) as (l1 & Hl1 & Hle1 & _).
    destruct (Hl' p l1 Hl1) as (l2 & Hl2 & Hle2). exists l2. split; [done|].
    destruct Hle1 as (A1 & A2 & A3 & A4), Hle2 as (B1 & B2 & B3 & B4).
    split_and!; [congruence|congruence|lia|]. intros Hm. destruct (A4 Hm) as (C1 & C2 & C3).
    destruct (B4 C1) as (D1 & D2 & D3). split_and!; congruence.
Qed.

(** ** The reader's own steps *)
Lemma held_ok_mono w w' d h :
  grows w w' -> w_books w' !! d = w_books w !! d ->
  (forall p, p ∈ h_lanes h -> lanes (w_reader w') !! p = lanes (w_reader w) !! p) ->
  held_ok w d h -> held_ok w' d h.
Proof.
  intros Hg Hb Hl [H1 H2 (b & H3 & H4 & H5)]. split; [done| |].
  - intros p Hp. rewrite Hl by done. by apply H2.
  - exists b. rewrite Hb. split_and!; [done|by eapply book_ok_mono|done].
Qed.

Lemma acked_ok_mono w w' d rc :
  grows w w' -> w_books w' !! d = w_books w !! d ->
  (forall h', deliveries (w_reader w') !! d = Some h' -> unit_finished h' = true \/
     deliveries (w_reader w) !! d = Some h') ->
  acked_ok w d rc -> acked_ok w' d rc.
Proof.
  intros Hg Hb Hd (b & H1 & H2 & H3 & H4). exists b. rewrite Hb.
  split_and!; [done|done|by eapply read_out_mono|]. intros h' Hh'. destruct (Hd h' Hh'); auto.
Qed.

(** A report read that leaves nothing to note. *)
Lemma drop_report w rep :
  inv (set_reports (rep :: w_reports w) w) ->
  (forall o s b, rp_overwrite rep = Some o -> lanes (w_reader w) !! rp_partition rep = Some s ->
     w_books w !! ls_delivery s = Some b -> is_Some (bk_cuts b !! o_key o)) ->
  inv w.
Proof.
  intros [Hl Hh He Hb Hr Ha Hj Hn] Hok. split; try done.
  - intros d h Hd. destruct (Hh d h Hd) as [H1 H2 (b & H3 & [B1 B2 B3 B4 B5 B6] & H5)].
    split; [done|done|]. exists b. split_and!; [done| |done]. split; try done.
    intros p Hp. destruct (B3 p Hp) as (l & Hlp & Hdl & Hcase). exists l. split_and!; [done|done|].
    destruct Hcase as [[Hin Hrd]|]; [left|by right]. split; [done|]. intros o Ho.
    destruct (Hrd o Ho) as [?|(rep' & Hrep & Hp' & Ho')]; [by left|].
    apply elem_of_cons in Hrep as [->|Hrep]; [left|right; by exists rep'].
    destruct (H2 p Hin) as (s & Hs & <-). subst p. by eapply Hok.
  - intros rep' Hrep'. apply Hr. by right.
  - intros d rc a Hin. destruct (Ha d rc a Hin) as (b & H1 & H2 & [R1 R2 R3 R4] & H4).
    exists b. split_and!; [done|done| |done]. by split.
Qed.

(** A held unit changed, its lanes kept. *)
Lemma inv_set_held w d h h' :
  inv w -> deliveries (w_reader w) !! d = Some h -> h_lanes h' = h_lanes h ->
  (unit_finished h = true -> unit_finished h' = true) -> held_ok w d h' ->
  inv (on_reader (set_held d h') w).
Proof.
  intros Hi Hd Hls Hfin Hok. pose proof Hi as [Hl Hh He Hb Hr Ha Hj Hn].
  assert (Hg : grows w (on_reader (set_held d h') w)) by (by apply grows_refl_on).
  split; try done; cbn.
  - intros p s Hs. destruct (Hl p s Hs) as (hs & l & H1 & H2 & H3). destruct (decide (ls_delivery s = d)) as [Heq|Hne].
    + exists h', l. rewrite Heq in *. cbn. rewrite lookup_insert_eq. assert (hs = h) as -> by congruence.
      by rewrite Hls.
    + exists hs, l. cbn. by rewrite lookup_insert_ne.
  - intros d' h''. intros [[<- <-]|[Hne Hd']]%lookup_insert_Some.
    + by apply (held_ok_mono w).
    + apply (held_ok_mono w); [done|done|done|]. by apply Hh.
  - intros d' rc a Hin. apply (acked_ok_mono w); [done|done| |by eapply Ha].
    intros hx. cbn. intros [[<- <-]|[Hne Hx]]%lookup_insert_Some; [left|by right].
    destruct (Ha _ _ _ Hin) as (b & _ & _ & _ & Hf). by apply Hfin, Hf.
Qed.

(** A lane's state changed: its last watermark, or its hint. *)
Lemma inv_set_state w p s s' :
  inv w -> lanes (w_reader w) !! p = Some s -> ls_delivery s' = ls_delivery s ->
  (forall n l, ls_last_committed s' = Some n -> w_lanes w !! p = Some l -> n <= ln_delivered l) ->
  inv (on_reader (set_state p s') w).
Proof.
  intros Hi Hs Hsd Hlc. pose proof Hi as [Hl Hh He Hb Hr Ha Hj Hn].
  assert (Hg : grows w (on_reader (set_state p s') w)) by (by apply grows_refl_on).
  split; try done; cbn.
  - intros q sq [[<- <-]|[Hne Hq]]%lookup_insert_Some.
    + destruct (Hl p s Hs) as (h & l & H1 & H2 & H3 & H4 & _). exists h, l. rewrite Hsd.
      split_and!; try done. intros n Hnn. by eapply Hlc.
    + exact (Hl q sq Hq).
  - intros d h Hd. destruct (Hh d h Hd) as [H1 H2 (b & H3 & H4 & H5)]. split; [done| |].
    + intros q Hq. cbn. destruct (H2 q Hq) as (sq & Hsq & Hdq). destruct (decide (q = p)) as [->|Hne].
      * rewrite lookup_insert_eq. exists s'. split; [done|]. congruence.
      * rewrite lookup_insert_ne by done. by exists sq.
    + exists b. split_and!; [done|by eapply book_ok_mono|done].
  - intros d rc a Hin. apply (acked_ok_mono w); [done|done| |by eapply Ha]. intros hx Hx. by right.
Qed.

(** A call other than an acknowledgement, another field of the reader. *)
Definition is_ack (c : FeedCall) : bool := match c with Acknowledged _ _ _ => true | _ => false end.

Lemma inv_call w c : inv w -> is_ack c = false -> inv (add_call c w).
Proof.
  intros Hi Hc. apply (inv_aside w); try done; cbn; [by eexists|].
  intros d rc a [Hin|Hin]%elem_of_app; [done|]. apply list_elem_of_singleton in Hin as <-. done.
Qed.

Lemma inv_field w f :
  inv w -> (forall r, same_core r (f r)) -> inv (on_reader f w).
Proof. intros Hi Hf. by apply (inv_aside w). Qed.

Lemma finished_spec h :
  unit_finished h = true <->
  h_failing h = None /\ h_pending h = [] /\ h_lanes h = ∅ /\ re_enqueues_settled h = true.
Proof. unfold unit_finished. rewrite !andb_true_iff, !bool_decide_eq_true. tauto. Qed.

Lemma re_enqueues_spec h :
  re_enqueues_settled h = true <-> forall key r, h_overwritten h !! key = Some r -> r = ReEnqueued.
Proof.
  unfold re_enqueues_settled. rewrite negb_true_iff, <- not_true_iff_false, existsb_exists. split.
  - intros Hn key r Hr. destruct r as [call|]; [|done]. exfalso. apply Hn. exists (Publishing call).
    split; [|done]. apply list_elem_of_In, list_elem_of_fmap. exists (key, Publishing call).
    split; [done|]. by apply elem_of_map_to_list.
  - intros Ha (r & Hr & Hp). apply list_elem_of_In, list_elem_of_fmap in Hr as ([key r'] & -> & Hr).
    apply elem_of_map_to_list in Hr. by rewrite (Ha _ _ Hr) in Hp.
Qed.

(** A finished unit has been read out. *)
Lemma finished_read_out w d h b : book_ok w d h b -> unit_finished h = true -> read_out w d b.
Proof.
  intros [B1 B2 B3 B4 B5 B6] (Hf & Hp & Hl & Hs)%finished_spec. split; try done.
  - by rewrite Hp in B2.
  - intros p Hin. destruct (B3 p Hin) as (l & H1 & H2 & [[H3 _]|H3]); [|by exists l].
    rewrite Hl in H3. set_solver.
  - intros key c Hc. assert (is_Some (h_overwritten h !! key)) as [r Hr].
    { apply elem_of_dom. rewrite B5. apply elem_of_dom. by eexists. }
    pose proof (B6 key r c Hr Hc) as Hok. rewrite re_enqueues_spec in Hs. rewrite (Hs _ _ Hr) in Hok.
    destruct c; cbn in *; [destruct Hok as [_ [? ?]]; congruence|naive_solver..].
Qed.

Lemma inv_ack w d h a :
  inv w -> deliveries (w_reader w) !! d = Some h -> unit_finished h = true ->
  inv (add_call (Acknowledged d (h_receipt h) a) w).
Proof.
  intros Hi Hd Hf. set (w' := add_call _ w).
  assert (Hg : grows w w') by (apply grows_refl_on; try done; by eexists).
  pose proof Hi as [Hl Hh He Hb Hr Ha Hj Hn]. split; try done.
  - intros d' h' Hd'. apply (held_ok_mono w); [done..|]. by apply Hh.
  - intros d' rc a' [Hin|Hin]%elem_of_app.
    + apply (acked_ok_mono w); [done|done| |by eapply Ha]. by right.
    + apply list_elem_of_singleton in Hin as [= -> -> ->].
      destruct (Hh d h Hd) as [_ _ (b & H3 & H4 & _)]. exists b.
      split_and!; [done|apply H4|by eapply read_out_mono, finished_read_out|].
      intros h' Hh'. cbn in Hh'. by simplify_eq.
Qed.

(** A held unit with no lane leaves. *)
Lemma inv_delete w d h :
  inv w -> deliveries (w_reader w) !! d = Some h -> h_lanes h = ∅ ->
  inv (on_reader (fun r => set_deliveries (delete d (deliveries r)) r) w).
Proof.
  intros Hi Hd Hls. set (w' := on_reader _ w). pose proof Hi as [Hl Hh He Hb Hr Ha Hj Hn].
  assert (Hg : grows w w') by (by apply grows_refl_on). split; try done; cbn.
  - intros p s Hs. destruct (Hl p s Hs) as (hs & l & H1 & H2 & H3). exists hs, l. cbn.
    rewrite lookup_delete_ne; [done|]. intros Heq. rewrite <- Heq in H1. simplify_eq.
    rewrite Hls in H2. set_solver.
  - intros d' h' [Hne Hd']%lookup_delete_Some. apply (held_ok_mono w); [done..|]. by apply Hh.
  - intros d' rc a Hin. apply (acked_ok_mono w); [done|done| |by eapply Ha].
    intros h'. cbn. intros [_ ?]%lookup_delete_Some. by right.
Qed.

(** A held unit leaves with its lanes. *)
Lemma inv_release w d h ls rv :
  inv w -> deliveries (w_reader w) !! d = Some h ->
  (forall p, ls !! p = if decide (p ∈ h_lanes h) then None else lanes (w_reader w) !! p) ->
  inv (on_reader (fun r => set_revoked rv (set_lanes ls (set_deliveries (delete d (deliveries r)) r))) w).
Proof.
  intros Hi Hd Hls. set (w' := on_reader _ w). pose proof Hi as [Hl Hh He Hb Hr Ha Hj Hn].
  assert (Hg : grows w w') by (by apply grows_refl_on). split; try done; cbn.
  - intros p s Hs. rewrite Hls in Hs. case_decide as Hp; [done|].
    destruct (Hl p s Hs) as (hs & l & H1 & H2 & H3). exists hs, l. cbn.
    rewrite lookup_delete_ne; [done|]. intros Heq. rewrite <- Heq in H1. by simplify_eq.
  - intros d' h' [Hne Hd']%lookup_delete_Some. apply (held_ok_mono w); [done|done| |by apply Hh].
    intros p Hp. cbn. rewrite Hls. rewrite decide_False; [done|]. intros Hp'.
    destruct (Hh d h Hd) as [_ H2 _]. destruct (H2 p Hp') as (s & Hs & Hsd).
    destruct (Hh d' h' Hd') as [_ H2' _]. destruct (H2' p Hp) as (s' & Hs' & Hsd'). congruence.
  - intros d' rc a Hin. apply (acked_ok_mono w); [done|done| |by eapply Ha].
    intros h'. cbn. intros [_ ?]%lookup_delete_Some. by right.
Qed.

(** A lane read to its end, its reports read, leaves. *)
Lemma inv_retire w p s h l rt :
  inv w -> lanes (w_reader w) !! p = Some s -> deliveries (w_reader w) !! ls_delivery s = Some h ->
  w_lanes w !! p = Some l -> ln_mode l = LaneEnded -> ln_delivered l = ln_emitted l -> quiet w p ->
  inv (on_reader (fun r => set_retired rt (set_held (ls_delivery s) (set_h_lanes (h_lanes h ∖ {[p]}) h)
         (set_lanes (delete p (lanes r)) r))) w).
Proof.
  intros Hi Hs Hd Hlp Hend Hall [_ Hq]. set (w' := on_reader _ w).
  pose proof Hi as [Hl Hh He Hb Hr Ha Hj Hn].
  assert (Hg : grows w w') by (by apply grows_refl_on).
  assert (Hp : p ∈ h_lanes h).
  { destruct (Hl p s Hs) as (h' & ? & H1 & H2 & _). by assert (h' = h) as -> by congruence. }
  split; try done; cbn.
  - intros q sq [Hne Hsq]%lookup_delete_Some. destruct (Hl q sq Hsq) as (hq & lq & H1 & H2 & H3).
    destruct (decide (ls_delivery sq = ls_delivery s)) as [Heq|Hdne].
    + exists (set_h_lanes (h_lanes h ∖ {[p]}) h), lq. cbn. rewrite Heq in *. rewrite lookup_insert_eq.
      assert (hq = h) as -> by congruence. split_and!; [done|set_solver|apply H3..].
    + exists hq, lq. cbn. by rewrite lookup_insert_ne.
  - intros d' h' [[<- <-]|[Hne Hd']]%lookup_insert_Some.
    + destruct (Hh _ h Hd) as [H1 H2 (b & H3 & [B1 B2 B3 B4 B5 B6] & H5)]. split; [done| |].
      * intros q Hin. cbn in Hin. destruct (H2 q) as (sq & Hsq & Hsd); [set_solver|].
        exists sq. split; [|done]. cbn. rewrite lookup_delete_ne; [done|set_solver].
      * exists b. split_and!; [done| |cbn; set_solver]. apply (book_ok_mono w w' Hg).
        split; try done. intros q Hin. destruct (B3 q Hin) as (lq & Hlq & Hdq & Hcase).
        exists lq. split_and!; [done|done|]. destruct Hcase as [[Hqin Hrd]|]; [|by right].
        destruct (decide (q = p)) as [->|Hqp]; [right|left; split; [cbn; set_solver|done]].
        assert (lq = l) as -> by congruence. split_and!; [done|done|]. intros o Ho.
        destruct (Hrd o Ho) as [?|(rep & Hrep & Hpr & _)]; [done|]. by destruct (Hq rep Hrep).
    + apply (held_ok_mono w); [done|done| |by apply Hh]. intros q Hin. cbn.
      rewrite lookup_delete_ne; [done|]. intros <-. destruct (Hh d' h' Hd') as [_ H2 _].
      destruct (H2 p Hin) as (s' & Hs' & ?). congruence.
  - intros d' rc a Hin. apply (acked_ok_mono w); [done|done| |by eapply Ha].
    intros h'. cbn. intros [[<- <-]|[_ ?]]%lookup_insert_Some; [|by right]. exfalso.
    destruct (Ha _ _ _ Hin) as (b & _ & _ & _ & Hf). apply Hf, finished_spec in Hd.
    destruct Hd as (_ & _ & Hls & _). rewrite Hls in Hp. set_solver.
Qed.

(** The failing mark or a re-enqueue of a held unit changed. *)
Lemma inv_mark w d h h' :
  inv w -> deliveries (w_reader w) !! d = Some h -> unit_finished h = false ->
  h_receipt h' = h_receipt h -> h_pending h' = h_pending h -> h_lanes h' = h_lanes h ->
  dom (h_overwritten h') = dom (h_overwritten h) ->
  (forall key r r' c, h_overwritten h !! key = Some r -> h_overwritten h' !! key = Some r' ->
     cut_ok cfg w d h key r c -> cut_ok cfg w d h' key r' c) ->
  inv (on_reader (set_held d h') w).
Proof.
  intros Hi Hd Hf Hrc Hp Hl Hdom Hc. apply (inv_set_held w d h); [done..|by rewrite Hf|].
  destruct (inv_held w Hi d h Hd) as [H1 H2 (b & H3 & [B1 B2 B3 B4 B5 B6] & H5)].
  split; [by rewrite Hp|by rewrite Hl|]. exists b. rewrite Hl. split_and!; [done| |done].
  split; rewrite ?Hrc, ?Hp, ?Hl, ?Hdom; try done.
  intros key r' c Hr' Hcut. assert (is_Some (h_overwritten h !! key)) as [r Hr].
  { apply elem_of_dom. rewrite <- Hdom. apply elem_of_dom. by eexists. }
  by eapply Hc; [| |eapply B6].
Qed.

Lemma inv_failing w d h why :
  inv w -> deliveries (w_reader w) !! d = Some h -> unit_finished h = false ->
  inv (on_reader (set_held d (set_failing why h)) w).
Proof.
  intros Hi Hd Hf. apply (inv_mark w d h); try done. cbn. intros key r r' c Hr Hr' Hc.
  assert (r' = r) as -> by congruence. destruct c; cbn in *; naive_solver.
Qed.

Lemma inv_confirm w d h key call :
  inv w -> deliveries (w_reader w) !! d = Some h -> h_overwritten h !! key = Some (Publishing call) ->
  w_confirmed w !! call = Some None ->
  inv (on_reader (set_held d (set_overwritten (<[key := ReEnqueued]> (h_overwritten h)) h)) w).
Proof.
  intros Hi Hd Hk Hcf. apply (inv_mark w d h); try done.
  - apply not_true_iff_false. intros (_ & _ & _ & Hs)%finished_spec.
    rewrite re_enqueues_spec in Hs. by specialize (Hs _ _ Hk).
  - cbn. rewrite dom_insert_L. apply (elem_of_dom_2 (D := gset (list Z))) in Hk. set_solver.
  - cbn. intros key' r r' c Hr [[<- <-]|[Hne Hr']]%lookup_insert_Some.
    + assert (r = Publishing call) as -> by congruence. destruct c as [|o|o n|o call'];
        [by intros [? _]..|]. intros (H1 & H2 & [[= <-]|[? _]]); [|done]. split_and!; try done. by right.
    + assert (r' = r) as -> by congruence. by destruct c.
Qed.

(** An overwritten key noted: its pending parts are dropped. *)
Lemma cursor_parts_key c part : part ∈ cursor_parts c -> part_key part = cursor_key c.
Proof.
  unfold cursor_parts, part_key, cursor_key. destruct (c_ranges c) as [rs|].
  - intros (r & -> & _)%list_elem_of_fmap. done.
  - destruct (c_whole c); [|by intros ?%not_elem_of_nil]. by intros ->%list_elem_of_singleton.
Qed.

Lemma concat_fmap_perm {A B} (f : A -> list B) l l' :
  l ≡ₚ l' -> concat (f <$> l) ≡ₚ concat (f <$> l').
Proof.
  induction 1 as [|x l l' _ IH|x y l|l1 l2 l3 _ IH1 _ IH2]; cbn; [done|by rewrite IH| |by rewrite IH1].
  by rewrite !app_assoc, (Permutation_app_comm (f y) (f x)).
Qed.

Lemma inv_cut w d h key r c :
  inv w -> deliveries (w_reader w) !! d = Some h -> unit_finished h = false ->
  h_overwritten h !! key = None -> cut_ok cfg w d h key r c ->
  inv (set_books (alter (note_cut key
        (concat (cursor_parts <$> filter (fun c => cursor_key c = Some key) (h_pending h))) c) d (w_books w))
      (on_reader (set_held d (set_overwritten (<[key := r]> (h_overwritten h))
        (set_pending (filter (fun c => cursor_key c <> Some key) (h_pending h)) h))) w)).
Proof.
  intros Hi Hd Hf Hno Hok. set (w' := set_books _ _). pose proof Hi as [Hl Hh He Hb Hr Ha Hj Hn].
  assert (Hg : grows w w') by (by apply grows_refl_on). split; try done; cbn.
  - intros p s Hs. destruct (Hl p s Hs) as (hs & l & H1 & H2 & H3).
    destruct (decide (ls_delivery s = d)) as [Heq|Hne].
    + rewrite Heq in H1. assert (hs = h) as -> by congruence. eexists _, l. cbn.
      rewrite Heq, lookup_insert_eq. split_and!; [done|done|apply H3|rewrite <- Heq; apply H3|apply H3].
    + exists hs, l. cbn. by rewrite lookup_insert_ne.
  - intros d' h' [[<- <-]|[Hne Hd']]%lookup_insert_Some.
    2:{ apply (held_ok_mono w); [done| |done|by apply Hh]. cbn. by rewrite lookup_alter_ne. }
    destruct (Hh d h Hd) as [H1 H2 (b & H3 & [B1 B2 B3 B4 B5 B6] & H5)]. split; [|done|].
    { cbn. apply Forall_forall. intros cu [_ Hcu]%list_elem_of_filter. by eapply Forall_forall in H1. }
    eexists. cbn. rewrite lookup_alter_eq, H3. split_and!; [done| |done].
    assert (Hsub : forall k, is_Some (bk_cuts b !! k) -> is_Some (<[key := c]> (bk_cuts b) !! k)).
    { intros k. rewrite lookup_insert_is_Some'. by right. }
    split; cbn; try done.
    + rewrite B2. apply Permutation_app_head.
      rewrite (Permutation_app_comm (bk_dropped b)), app_assoc. apply Permutation_app_tail.
      rewrite <- concat_app, <- fmap_app. apply concat_fmap_perm.
      by rewrite Permutation_app_comm, filter_app_complement.
    + intros p Hp. destruct (B3 p Hp) as (l & Hlp & Hdl & Hcase). exists l. split_and!; [done|done|].
      destruct Hcase as [[Hin Hrd]|(D1 & D2 & D3)]; [left|right].
      * split; [done|]. intros o Ho. destruct (Hrd o Ho) as [?|?]; [left; by apply Hsub|by right].
      * split_and!; try done. intros o Ho. by apply Hsub, D3.
    + intros part [Hp|Hp]%elem_of_app.
      * destruct (B4 part Hp) as (k & Hk & Hn'). exists k. split; [done|by apply Hsub].
      * apply list_elem_of_In, in_concat in Hp as (ps & Hps & Hp). apply list_elem_of_In in Hps. apply list_elem_of_In in Hp.
        apply list_elem_of_fmap in Hps as (cu & -> & Hcu). apply list_elem_of_filter in Hcu as [Hck _].
        exists key. split; [by rewrite (cursor_parts_key _ _ Hp)|]. rewrite lookup_insert_eq. by eexists.
    + by rewrite !dom_insert_L, B5.
    + intros k r' c' [[<- <-]|[Hne Hr']]%lookup_insert_Some.
      * rewrite lookup_insert_eq. intros [= <-]. by destruct c.
      * rewrite lookup_insert_ne by done. intros Hc'. pose proof (B6 k r' c' Hr' Hc') as Hco.
        apply (cut_ok_mono w w' Hg) in Hco. by destruct c'.
  - intros d' bk. rewrite lookup_alter_Some. intros [(<- & b & Hbk & _)|[_ Hbk]]; by eapply Hb.
  - intros d' rc a Hin. destruct (decide (d' = d)) as [->|Hne].
    { exfalso. destruct (Ha _ _ _ Hin) as (b & _ & _ & _ & Hx). rewrite Hx in Hf by done. done. }
    apply (acked_ok_mono w); [done| | |by eapply Ha]; cbn; [by rewrite lookup_alter_ne|].
    intros h'. rewrite lookup_insert_ne by done. by right.
Qed.

(** A delivery received. *)
Lemma inv_hold w rc u cursors :
  inv w -> next_delivery (w_reader w) <> U32_MAX -> Forall cursor_live cursors ->
  let n := next_delivery (w_reader w) in
  inv (set_books (<[n := mkBook rc (concat (cursor_parts <$> cursors)) [] [] ∅]> (w_books w))
        (on_reader (set_held n (mkHeld rc u cursors ∅ None ∅))
          (on_reader (set_next_delivery (n + 1)) w))).
Proof.
  intros Hi Hmax Hlive n. set (w' := set_books _ _). pose proof Hi as [Hl Hh He Hb Hr Ha Hj Hn].
  assert (Hg : grows w w') by (by apply grows_refl_on).
  assert (Hnew : w_books w !! n = None).
  { destruct (w_books w !! n) as [b|] eqn:Hbn; [|done]. apply Hb in Hbn. unfold n in Hbn. lia. }
  assert (Hnd : deliveries (w_reader w) !! n = None).
  { destruct (deliveries (w_reader w) !! n) as [h|] eqn:Hdn; [|done].
    destruct (Hh n h Hdn) as [_ _ (b & Hbk & _)]. congruence. }
  split; try done; cbn.
  - intros p s Hs. destruct (Hl p s Hs) as (hs & l & H1 & H2). exists hs, l. cbn.
    rewrite lookup_insert_ne by congruence. done.
  - intros d h [[<- <-]|[Hne Hd]]%lookup_insert_Some.
    + split; cbn; [done|set_solver|]. eexists. rewrite lookup_insert_eq. split_and!; [done| |set_solver].
      split; cbn; [done|by rewrite app_nil_r|by intros p ?%not_elem_of_nil..| |done].
      by rewrite !dom_empty_L.
    + apply (held_ok_mono w); [done| |done|by apply Hh]. cbn. by rewrite lookup_insert_ne.
  - intros d b [[<- <-]|[Hne Hd]]%lookup_insert_Some; [lia|]. apply Hb in Hd. lia.
  - intros d rc' a Hin. destruct (Ha _ _ _ Hin) as (b & Hbk & _).
    assert (Hne : n <> d) by congruence.
    apply (acked_ok_mono w); [done| | |by eapply Ha]; cbn; [by rewrite lookup_insert_ne|].
    intros h. rewrite lookup_insert_ne by done. by right.
  - unfold n in *. destruct Hn. lia.
Qed.

Lemma cursor_next_parts c part c' :
  cursor_next c = Some (part, c') ->
  cursor_parts c = part :: cursor_parts c' /\ c_object c' = c_object c /\ c_origin c' = c_origin c /\
  p_origin part = c_origin c /\ p_object part = c_object c.
Proof.
  unfold cursor_next, cursor_parts. destruct c as [ob [[|r rs]|] whole og]; cbn; [done| |].
  - by intros [= <- <-].
  - destruct whole; [|done]. by intros [= <- <-].
Qed.

Lemma exhausted_parts c : is_exhausted c = true -> cursor_parts c = [].
Proof.
  unfold is_exhausted, cursor_parts. destruct (c_ranges c) as [rs|].
  - intros ->%bool_decide_eq_true. done.
  - by destruct (c_whole c).
Qed.

Lemma live_next c : cursor_live c -> is_Some (cursor_next c).
Proof.
  intros (He & _). unfold is_exhausted, cursor_next in *. destruct (c_ranges c) as [[|]|]; [done|by eexists|].
  destruct (c_whole c); [by eexists|done].
Qed.

(** A part opened on the lane [n]. *)
Lemma inv_open w d h c cs part c' :
  inv w -> next_lane (w_reader w) <> U32_MAX -> deliveries (w_reader w) !! d = Some h ->
  h_pending h = c :: cs -> cursor_next c = Some (part, c') ->
  let n := next_lane (w_reader w) in
  let h1 := set_pending (if is_exhausted c' then cs else c' :: cs) h in
  forall k m,
  inv (set_books (alter (note_opened n) d (w_books w))
        (on_reader (set_held d (set_h_lanes (h_lanes h1 ∪ {[n]}) h1))
          (on_reader (set_state n (mkLaneState d n None false k m))
            (set_lane n (mkLane d part false 0 0 LaneReading None)
              (on_reader (set_next_lane (n + 1)) (on_reader (set_held d h1) w)))))).
Proof.
  intros Hi Hmax Hd Hpd Hnx n h1 k m. set (w' := set_books _ _).
  pose proof Hi as [Hl Hh He Hb Hr Ha Hj Hn].
  assert (Hfl : w_lanes w !! n = None).
  { destruct (w_lanes w !! n) as [l|] eqn:Hln; [|done]. destruct (He n l Hln). unfold n in *. lia. }
  assert (Hfs : lanes (w_reader w) !! n = None).
  { destruct (lanes (w_reader w) !! n) as [s|] eqn:Hsn; [|done].
    destruct (Hl n s Hsn) as (? & ? & _ & _ & ? & _). congruence. }
  assert (Hold : forall p l, w_lanes w !! p = Some l -> w_lanes w' !! p = Some l).
  { intros p l Hp. cbn. rewrite lookup_insert_ne by congruence. done. }
  assert (Hg : grows w w').
  { split; try done.
    - intros p l Hp. exists l. split_and!; [by apply Hold|apply lane_le_refl|by left].
    - intros p l. cbn. intros [[<- <-]|[Hne Hp]]%lookup_insert_Some; [done|].
      destruct (He p l Hp) as (_ & ? & _). lia. }
  assert (Hfin : unit_finished h = false).
  { apply not_true_iff_false. intros (_ & Hp & _)%finished_spec. congruence. }
  destruct (Hh d h Hd) as [H1 H2 (b & H3 & H4 & H5)].
  assert (Hcl : cursor_live c) by (rewrite Hpd in H1; by apply Forall_cons in H1 as [? _]).
  destruct (cursor_next_parts c part c' Hnx) as (Hparts & Hob & Hog & Hpo & Hpob).
  split; try done; cbn.
  - intros p s [[<- <-]|[Hne Hs]]%lookup_insert_Some.
    + eexists _, _. cbn. rewrite !lookup_insert_eq. split_and!; [done|cbn; set_solver|done..].
    + destruct (Hl p s Hs) as (hs & l & A1 & A2 & A3 & A4). apply Hold in A3.
      destruct (decide (ls_delivery s = d)) as [Heq|Hdn].
      * rewrite Heq in A1. assert (hs = h) as -> by congruence.
        eexists _, l. cbn. rewrite Heq, lookup_insert_eq. split_and!; [done|cbn; set_solver|done|..];
          [rewrite <- Heq|]; apply A4.
      * exists hs, l. split_and!; [|done|done|apply A4..]. cbn. by rewrite !lookup_insert_ne.
  - intros d' h' [[<- <-]|[Hne Hd']]%lookup_insert_Some.
    + split; cbn.
      * rewrite Hpd in H1. apply Forall_cons in H1 as [(L1 & L2 & L3) H1].
        destruct (is_exhausted c') eqn:Hex; [done|]. apply Forall_cons. split; [|done].
        split; [done|]. by rewrite Hob, Hog.
      * intros p [Hp|Hp]%elem_of_union.
        -- destruct (H2 p Hp) as (s & Hs & Hsd). exists s. rewrite lookup_insert_ne by congruence. done.
        -- apply elem_of_singleton in Hp as ->. rewrite lookup_insert_eq. by eexists.
      * exists (note_opened n b). rewrite lookup_alter_eq, H3. split_and!; [done| |].
        2:{ cbn. intros p [Hp|Hp]%elem_of_union; apply elem_of_app; [left; by apply H5|right]. set_solver. }
        destruct (book_ok_mono w w' Hg d h b H4) as [B1 B2 B3 B4 B5 B6]. split; cbn; try done.
        -- rewrite B2, Hpd. rewrite fmap_cons. cbn [concat]. rewrite Hparts.
           assert (Hlp : lane_parts (w_lanes w') (bk_opened b ++ [n]) =
                         lane_parts (w_lanes w') (bk_opened b) ++ [part]).
           { unfold lane_parts. rewrite omap_app. f_equal. cbn. by rewrite lookup_insert_eq. }
           change (omap _ (bk_opened b ++ [n])) with (lane_parts (w_lanes w') (bk_opened b ++ [n])).
           rewrite Hlp, <- (app_assoc (lane_parts _ _) [part]). apply Permutation_app_head. cbn. apply Permutation_skip.
           apply Permutation_app_tail. destruct (is_exhausted c') eqn:Hex; cbn; [|done].
           by rewrite (exhausted_parts c' Hex).
        -- intros p [Hp|Hp]%elem_of_app.
           ++ destruct (B3 p Hp) as (l & Hlp & Hdl & [[Hin Hrd]|Hdone]); exists l; split_and!; try done;
                [left; split; [set_solver|done]|by right].
           ++ apply list_elem_of_singleton in Hp as ->. eexists. rewrite lookup_insert_eq.
              split_and!; [done|done|]. left. split; [set_solver|]. by intros o [=].
    + rewrite lookup_insert_ne in Hd' by done. apply (held_ok_mono w); [done| | |by apply Hh]; cbn.
      * by rewrite lookup_alter_ne.
      * intros p Hp. destruct (Hh d' h' Hd') as [_ X _]. destruct (X p Hp) as (s & Hs & _).
        rewrite lookup_insert_ne by congruence. done.
  - intros p l [[<- <-]|[Hne Hp]]%lookup_insert_Some.
    + split_and!; cbn; try lia; try done. rewrite Hpo. apply Hcl.
    + destruct (He p l Hp) as (A1 & A2). split; [cbn; lia|done].
  - intros d' bk. rewrite lookup_alter_Some. intros [(<- & b' & Hbk & _)|[_ Hbk]]; by eapply Hb.
  - intros rep Hrep o Ho. destruct (Hr rep Hrep o Ho) as (l & Hlr & Hlo). exists l.
    split; [by apply Hold|done].
  - intros d' rc a Hin. destruct (decide (d' = d)) as [->|Hne].
    { exfalso. destruct (Ha _ _ _ Hin) as (b' & _ & _ & _ & Hx). rewrite Hx in Hfin by done. done. }
    apply (acked_ok_mono w); [done| | |by eapply Ha]; cbn; [by rewrite lookup_alter_ne|].
    intros h'. rewrite !lookup_insert_ne by done. by right.
  - unfold n in *. destruct Hn. lia.
Qed.
End inv.
