(* ===== verification/UnitReaderSafety.v ===== *)
(** * The unit reader is safe

    Every operation keeps the invariant and panics only where a sequence number
    is used up, so an acknowledged delivery was read out. *)

From stdpp Require Import base gmap sorting strings list relations.
From Stdlib Require Import ZArith Lia.
From S2P Require Import Prelude EndCheck MemoryFeed JobEnd S3Split S3Offset S3Unit S3UnitProofs Oracle UnitReader UnitReaderProofs.

(** A sequence number is used up: the reader's own panic. *)
Definition exhausted (w : World) : Prop :=
  next_delivery (w_reader w) = U32_MAX \/ next_lane (w_reader w) = U32_MAX.

Notation tr := (upto (W := World) (Q := Answer) exhausted).

(** ** Rules *)

Section rules.
Context {A B : Type}.

Lemma tr_reader (P : World -> Prop) (k : UnitReader -> Prog World Answer A) R :
  (forall w, P w -> tr (at_world w) (k (w_reader w)) R) -> tr P (reader ≫= k) R.
Proof. intros Hk w t HP. by apply (Hk w HP w t). Qed.

Lemma tr_expect (P : World -> Prop) (o : option A) (k : A -> Prog World Answer B) R a :
  o = Some a -> tr P (k a) R -> tr P (expect o ≫= k) R.
Proof. intros -> Hk. exact Hk. Qed.

Lemma tr_upd w f (k : unit -> Prog World Answer A) R :
  tr (at_world (on_reader f w)) (k tt) R -> tr (at_world w) (upd f ≫= k) R.
Proof. intros Hk w' t ->. by apply (Hk (on_reader f w) t). Qed.

Lemma tr_feed_said w c (k : option FeedError -> Prog World Answer A) R :
  (forall a, tr (at_world (add_call (c a) w)) (k a) R) -> tr (at_world w) (feed_said c ≫= k) R.
Proof.
  intros Hk w' t ->. unfold feed_said, mbind, prog_bind, ask. destruct t as [|q t]; [done|].
  destruct q as [|a| | |]; try done. by apply (Hk a (add_call (c a) w) t).
Qed.
End rules.

Lemma tr_try {A B} w (m : M (SourceError + A)) (k : A -> M (SourceError + B)) S R :
  tr (at_world w) m S -> (forall e w', S (inl e) w' -> R (inl e) w') ->
  (forall a w', S (inr a) w' -> tr (at_world w') (k a) R) ->
  tr (at_world w) (try m k) R.
Proof.
  intros Hm He Hk. apply (tr_then _ _ _ _ S); [exact Hm|]. intros [e|a] w' Hs; [|by apply Hk].
  by apply tr_ret_at, He.
Qed.

(** The body of a loop whose invariant is on what is left of the list. *)
Lemma tr_each_try {A} (I : list A -> World -> Prop) (J : World -> Prop) f l :
  (forall x l', x :: l' `suffix_of` l ->
     tr (I (x :: l')) (f x) (fun r w => match r with inl _ => J w | inr _ => I l' w end)) ->
  tr (I l) (each_try f l) (fun r w => match r with inl _ => J w | inr _ => I [] w end).
Proof.
  induction l as [|x l IH]; intros Hf; cbn; [by apply upto_ret|]. unfold try.
  eapply upto_bind; [by apply Hf|]. intros [e|[]]; [by apply upto_ret|]. apply IH.
  intros y l' Hs. apply Hf. by apply suffix_cons_r.
Qed.

Lemma tr_each {A} (I : list A -> World -> Prop) f l :
  (forall x l', x :: l' `suffix_of` l -> tr (I (x :: l')) (f x) (fun _ => I l')) ->
  tr (I l) (each f l) (fun _ => I []).
Proof.
  induction l as [|x l IH]; intros Hf; cbn; [by apply upto_ret|].
  eapply upto_bind; [by apply Hf|]. intros []. apply IH. intros y l' Hs. apply Hf.
  by apply suffix_cons_r.
Qed.

Lemma tr_filter_by {A} (I : World -> Prop) (T : World -> World -> Prop) `{!PreOrder T}
    (Q : A -> World -> Prop) f l :
  (forall x w, x ∈ l -> I w -> tr (at_world w) (f x) (fun b w' => I w' /\ T w w' /\ (b = true -> Q x w'))) ->
  (forall x w w', I w' -> T w w' -> Q x w -> Q x w') -> forall w, I w ->
  tr (at_world w) (filter_by f l) (fun res w' =>
    I w' /\ T w w' /\ forall x, x ∈ res -> Q x w' /\ x ∈ l).
Proof.
  intros Hf Hst. induction l as [|x l IH]; intros w HI; cbn.
  { apply tr_ret_at. split_and!; [done..|]. by intros y ?%not_elem_of_nil. }
  eapply tr_then; [apply Hf; [left|done]|]. intros b w1 (HI1 & HT1 & Hb). cbn.
  eapply tr_then; [apply IH; [|done]|]. { intros y w' Hy. apply Hf. by right. }
  intros rest w2 (HI2 & HT2 & Hr). apply tr_ret_at. split_and!; [done|by etrans|]. intros y Hy.
  destruct b; [apply elem_of_cons in Hy as [->|Hy]|].
  - split; [|left]. by eapply Hst, Hb.
  - destruct (Hr y Hy). split; [done|by right].
  - destruct (Hr y Hy). split; [done|by right].
Qed.

(** ** What the reader holds open *)

Definition idle_of (m : gmap Z HeldUnit) : gmap Z HeldUnit := filter (fun dh => unit_idle dh.2 = true) m.

(** Lanes, and deliveries with no lane and none to open: what [room] counts. *)
Definition load (r : UnitReader) : nat := base.size (lanes r) + base.size (idle_of (deliveries r)).

Lemma idle_insert m d h :
  (base.size (idle_of (<[d := h]> m)) <= base.size (idle_of m) + (if unit_idle h then 1 else 0))%nat.
Proof.
  unfold idle_of. rewrite map_filter_insert. cbn. destruct (unit_idle h) eqn:Hh.
  - rewrite decide_True by done. rewrite map_size_insert. case_match; unfold base.size; cbn; lia.
  - rewrite decide_False by done. rewrite Nat.add_0_r. apply map_subseteq_size.
    by apply map_filter_subseteq_mono, delete_subseteq.
Qed.

Lemma idle_delete m d : (base.size (idle_of (delete d m)) <= base.size (idle_of m))%nat.
Proof. by apply map_subseteq_size, map_filter_subseteq_mono, delete_subseteq. Qed.

Lemma load_held r d h h' :
  deliveries r !! d = Some h -> (unit_idle h' = true -> unit_idle h = true) ->
  (load (set_held d h' r) <= load r)%nat.
Proof.
  intros Hd Hh. unfold load. cbn. destruct (unit_idle h') eqn:Hi.
  - unfold idle_of. rewrite map_filter_insert_True by done. rewrite map_size_insert.
    by rewrite (map_lookup_filter_Some_2 _ _ d h Hd (Hh eq_refl)).
  - pose proof (idle_insert (deliveries r) d h'). rewrite Hi in *. lia.
Qed.

(** ** The other threads, between any two reads *)

Definition calm (w w' : World) : Prop :=
  undisturbed w w' /\
  forall p l, w_lanes w !! p = Some l -> exists l', w_lanes w' !! p = Some l' /\ lane_le l l'.

#[export] Instance calm_preorder : PreOrder calm.
Proof.
  split.
  - intros w. split; [done|]. intros p l Hl. exists l. split; [done|apply lane_le_refl].
  - intros w1 w2 w3 [[A1 A2 A3 A4] A5] [[B1 B2 B3 B4] B5]. split; [split; [congruence..|]; auto|].
    intros p l Hl. destruct (A5 p l Hl) as (l2 & Hl2 & H12). destruct (B5 p l2 Hl2) as (l3 & Hl3 & H23).
    exists l3. split; [done|]. by eapply lane_le_trans.
Qed.

(** A unit that is failing, or has nothing left to read or to report. *)
Definition ready (w : World) (h : HeldUnit) : Prop :=
  is_failing h = true \/
  h_pending h = [] /\ re_enqueues_settled h = true /\ forall p, p ∈ h_lanes h -> quiet w p.

(** Steps that open nothing: lanes only move on and leave the reader, and a
    unit that is ready stays so. *)
Record moves (w w' : World) : Prop := mk_moves {
  mv_lanes : forall p l, w_lanes w !! p = Some l -> exists l', w_lanes w' !! p = Some l' /\ lane_le l l';
  mv_load : (load (w_reader w') <= load (w_reader w))%nat;
  mv_dom : dom (lanes (w_reader w')) ⊆ dom (lanes (w_reader w));
  mv_quiet : forall p, quiet w p -> quiet w' p;
  mv_calls : w_calls w `prefix_of` w_calls w';
  mv_ready : forall d h', deliveries (w_reader w') !! d = Some h' ->
    exists h, deliveries (w_reader w) !! d = Some h /\ (ready w h -> ready w' h');
}.

#[export] Instance moves_preorder : PreOrder moves.
Proof.
  split.
  - intros w. split; [|lia|done|done|done|eauto]. intros p l Hl. exists l. split; [done|apply lane_le_refl].
  - intros w1 w2 w3 [A1 A2 A3 A5 A6 A4] [B1 B2 B3 B5 B6 B4]. split; [|lia|by etrans|auto|by etrans|].
    + intros p l Hl. destruct (A1 p l Hl) as (l2 & Hl2 & H12). destruct (B1 p l2 Hl2) as (l3 & Hl3 & H23).
      exists l3. split; [done|]. by eapply lane_le_trans.
    + intros d h3 Hd3. destruct (B4 d h3 Hd3) as (h2 & Hd2 & H23). destruct (A4 d h2 Hd2) as (h1 & Hd1 & H12).
      eauto.
Qed.

Lemma ready_quiet w w' h : (forall p, quiet w p -> quiet w' p) -> ready w h -> ready w' h.
Proof. intros Hq [Hf|(Hp & Hs & Hl)]; [by left|right]. split_and!; [done..|]. eauto. Qed.

Lemma calm_moves w w' : calm w w' -> moves w w'.
Proof.
  intros [[Hr _ Hc Hq] Hl]. split; [done|by rewrite Hr..|done|by rewrite Hc|]. rewrite Hr. intros d h Hd. exists h.
  split; [done|by apply ready_quiet].
Qed.

(** A step of the reader that leaves the lanes and the channel as they are. *)
Record local (w w' : World) : Prop := mk_local {
  lo_lanes : w_lanes w' = w_lanes w;
  lo_reports : w_reports w' = w_reports w;
  lo_calls : w_calls w `prefix_of` w_calls w';
}.

#[export] Instance local_preorder : PreOrder local.
Proof. split; [done|]. intros w1 w2 w3 [A1 A2 A3] [B1 B2 B3]. split; [congruence..|by etrans]. Qed.

Lemma quiet_local w w' p : local w w' -> quiet w p -> quiet w' p.
Proof. intros [Hl Hr _]. unfold quiet. by rewrite Hl, Hr. Qed.

Lemma local_moves w w' :
  local w w' -> (load (w_reader w') <= load (w_reader w))%nat ->
  dom (lanes (w_reader w')) ⊆ dom (lanes (w_reader w)) ->
  (forall d h', deliveries (w_reader w') !! d = Some h' ->
     exists h, deliveries (w_reader w) !! d = Some h /\ (ready w h -> ready w h')) ->
  moves w w'.
Proof.
  intros Hloc Hload Hd Hrd. assert (Hq : forall p, quiet w p -> quiet w' p) by (intros p; by apply quiet_local).
  split; [|done|done|done|by apply lo_calls|].
  - intros p l Hp. exists l. rewrite (lo_lanes _ _ Hloc). split; [done|apply lane_le_refl].
  - intros d h' Hd'. destruct (Hrd d h' Hd') as (h & Hdh & Hh). exists h. split; [done|]. intros Hrh.
    by apply (ready_quiet w), Hh.
Qed.

(** Steps that leave the reader its lanes and its deliveries. *)
Record kept (w w' : World) : Prop := mk_kept {
  kp_moves : moves w w';
  kp_lanes : lanes (w_reader w') = lanes (w_reader w);
  kp_dom : dom (deliveries (w_reader w')) = dom (deliveries (w_reader w));
}.

#[export] Instance kept_preorder : PreOrder kept.
Proof.
  split; [done|]. intros w1 w2 w3 [A1 A2 A3] [B1 B2 B3]. split; [by etrans|congruence..].
Qed.

Lemma calm_kept w w' : calm w w' -> kept w w'.
Proof. intros Hc. split; [by apply calm_moves|by rewrite (un_reader _ _ (proj1 Hc))..]. Qed.

Lemma kept_aside w w' :
  local w w' -> lanes (w_reader w') = lanes (w_reader w) ->
  deliveries (w_reader w') = deliveries (w_reader w) -> kept w w'.
Proof.
  intros Hl Hr Hd. split; [|done|by rewrite Hd].
  apply local_moves; [done|unfold load; by rewrite Hr, Hd|by rewrite Hr|]. rewrite Hd. eauto.
Qed.

Lemma dom_set_held d h h' r :
  deliveries r !! d = Some h -> dom (deliveries (set_held d h' r)) = dom (deliveries r).
Proof.
  intros Hd. cbn. rewrite dom_insert_L. apply (elem_of_dom_2 (D := gset Z)) in Hd. set_solver.
Qed.

Lemma held_ready w d h h' m :
  m = deliveries (w_reader w) -> m !! d = Some h -> (ready w h -> ready w h') ->
  forall d' h2, <[d := h']> m !! d' = Some h2 ->
    exists h1, deliveries (w_reader w) !! d' = Some h1 /\ (ready w h1 -> ready w h2).
Proof.
  intros -> Hd Hr d' h2 [[-> <-]|[Hne Hd']]%lookup_insert_Some; eauto.
Qed.

Lemma kept_held w d h h' :
  deliveries (w_reader w) !! d = Some h -> (unit_idle h' = true -> unit_idle h = true) ->
  (ready w h -> ready w h') -> kept w (on_reader (set_held d h') w).
Proof.
  intros Hd Hidle Hr. split; [|done|by apply (dom_set_held d h)].
  apply local_moves; [done|by apply (load_held _ d h)|done|]. by apply (held_ready _ _ h).
Qed.

(** Facts about a lane that nothing undoes. *)
Definition at_lane (Q : Lane -> Prop) (w : World) (p : Z) : Prop :=
  exists l, w_lanes w !! p = Some l /\ Q l.
Definition monotone (Q : Lane -> Prop) : Prop :=
  forall l l', lane_le l l' -> ln_delivered l' <= ln_emitted l' -> Q l -> Q l'.

Definition lane_ended (l : Lane) : Prop := ln_mode l = LaneEnded.
Definition lane_settled (l : Lane) : Prop := ln_mode l = LaneEnded /\ ln_delivered l = ln_emitted l.

Lemma ended_monotone : monotone lane_ended.
Proof. intros l l' (_ & _ & _ & He) _ Hm. by apply He. Qed.
Lemma settled_monotone : monotone lane_settled.
Proof. intros l l' (_ & _ & Hd & He) Hwf [Hm Hall]. destruct (He Hm) as (? & ? & _). split; [done|lia]. Qed.

Lemma at_lane_local Q w w' p : local w w' -> at_lane Q w p -> at_lane Q w' p.
Proof. intros [Hl _ _]. unfold at_lane. by rewrite Hl. Qed.

Section ops.
Context `{UnitLib} (cfg : ReaderConfig).
Notation inv := (inv cfg).

Lemma at_lane_moves Q w w' p :
  monotone Q -> inv w' -> moves w w' -> at_lane Q w p -> at_lane Q w' p.
Proof.
  intros HQ Hi [Hl _ _ _ _ _] (l & Hlp & Hq). destruct (Hl p l Hlp) as (l' & Hl' & Hle). exists l'.
  split; [done|]. apply (HQ l l' Hle); [|done]. destruct (inv_env cfg w' Hi p l' Hl') as (_ & ? & _). lia.
Qed.

Lemma tr_meanwhile w : inv w -> tr (at_world w) meanwhile (fun _ w' => inv w' /\ calm w w').
Proof.
  intros Hi w' t ->. unfold meanwhile, mbind, prog_bind, ask. destruct t as [|q t]; [done|].
  destruct q as [es| | | |]; try done. cbn. destruct (env_run es w) as [w'|] eqn:He; [|done]. cbn.
  by destruct (env_run_keeps cfg es w w' Hi He) as (Hi' & Hu & Hl).
Qed.

Lemma tr_terminal_of w p :
  inv w -> tr (at_world w) (terminal_of p) (fun t w' =>
    inv w' /\ calm w w' /\ forall n, t = Some n ->
      exists l, w_lanes w' !! p = Some l /\ ln_mode l = LaneEnded /\ ln_emitted l = n).
Proof.
  intros Hi. unfold terminal_of. eapply tr_then; [by apply tr_meanwhile|]. intros _ w' [Hi' Hc]. cbn.
  apply upto_get. intros ? ->. apply tr_ret_at. split_and!; [done..|]. intros n Hn.
  destruct (w_lanes w' !! p) as [l|]; [|done]. cbn in Hn. unfold terminal in Hn.
  exists l. destruct (ln_mode l) eqn:Hm; [done..|]. by injection Hn.
Qed.

(** ** Lanes leave *)

(** The lanes of a released delivery, taken out one by one. *)
Definition revoke_lane (p : Z) (r : UnitReader) : UnitReader :=
  match lanes r !! p with
  | Some s => set_revoked (revoked r ++ [ls_lane s]) (set_lanes (delete p (lanes r)) r)
  | None => r
  end.

Lemma each_upd (g : Z -> UnitReader -> UnitReader) l : forall w t,
  each (fun p => upd (g p)) l w t = Ran tt (on_reader (fun r => foldl (fun r p => g p r) r l) w) t.
Proof.
  induction l as [|p l IH]; intros w t; cbn; [by destruct w|].
  unfold mbind, prog_bind, upd, modify in *. rewrite IH. by destruct w.
Qed.

Lemma revoke_lanes l : forall r, exists ls rv,
  foldl (fun r p => revoke_lane p r) r l = set_revoked rv (set_lanes ls r) /\
  forall p, ls !! p = if decide (p ∈ l) then None else lanes r !! p.
Proof.
  induction l as [|q l IH]; intros r; cbn.
  { exists (lanes r), (revoked r). split; [by destruct r|]. intros p.
    by rewrite decide_False by apply not_elem_of_nil. }
  destruct (IH (revoke_lane q r)) as (ls & rv & -> & Hls). exists ls, rv. split.
  - unfold revoke_lane. destruct (lanes r !! q); [|done]. by destruct r.
  - intros p. rewrite Hls. destruct (decide (p ∈ l)) as [Hp|Hp].
    + by rewrite decide_True by (by right).
    + destruct (decide (p ∈ q :: l)) as [Hpq|Hpq].
      * apply elem_of_cons in Hpq as [->|?]; [|done]. unfold revoke_lane.
        destruct (lanes r !! q) eqn:Hq; [cbn; apply lookup_delete_eq|done].
      * apply not_elem_of_cons in Hpq as [Hne _]. unfold revoke_lane.
        destruct (lanes r !! q); [cbn; by rewrite lookup_delete_ne|done].
Qed.

(** What [release] does. *)
Record released (d : Z) (w w' : World) : Prop := mk_released {
  re_inv : inv w';
  re_local : local w w';
  re_moves : moves w w';
  re_deliveries : deliveries (w_reader w') = delete d (deliveries (w_reader w));
  re_calls : w_calls w' = w_calls w;
}.

Lemma tr_release d w : inv w -> tr (at_world w) (release d) (fun _ w' => released d w w').
Proof.
  intros Hi. unfold release. apply tr_reader. intros ? ->.
  destruct (deliveries (w_reader w) !! d) as [h|] eqn:Hd.
  2:{ apply tr_ret_at. split; [done|done|done| |done]. by rewrite delete_id. }
  apply tr_upd. intros w' t ->. rewrite (each_upd revoke_lane).
  destruct (revoke_lanes (merge_sort Z.le (elements (h_lanes h)))
    (set_deliveries (delete d (deliveries (w_reader w))) (w_reader w))) as (ls & rv & Hf & Hls).
  assert (Hw : on_reader (fun r => foldl (fun r p => revoke_lane p r) r (merge_sort Z.le (elements (h_lanes h))))
      (on_reader (fun r => set_deliveries (delete d (deliveries r)) r) w) =
    on_reader (fun r => set_revoked rv (set_lanes ls (set_deliveries (delete d (deliveries r)) r))) w).
  { unfold on_reader. cbn [w_reader]. by rewrite Hf. }
  assert (Hrest : forall p, ls !! p = if decide (p ∈ h_lanes h) then None else lanes (w_reader w) !! p).
  { intros p. rewrite Hls. cbn.
    destruct (decide (p ∈ merge_sort _ _)) as [Hp|Hp], (decide (p ∈ h_lanes h)) as [Hp'|Hp'];
      rewrite merge_sort_Permutation in Hp; set_solver. }
  assert (Hsub : ls ⊆ lanes (w_reader w)).
  { apply map_subseteq_spec. intros p s. rewrite Hrest. by destruct (decide _). }
  rewrite Hw. split; [by apply (inv_release cfg w d h)|done| |done|done].
  apply local_moves; [done| |by apply subseteq_dom|].
  - unfold load. cbn. pose proof (map_subseteq_size _ _ Hsub).
    pose proof (idle_delete (deliveries (w_reader w)) d). lia.
  - cbn. intros d' h' [_ Hd']%lookup_delete_Some. eauto.
Qed.

(** What [retire] does to a lane read to its end, its reports read. *)
Lemma tr_retire p w :
  inv w -> at_lane lane_settled w p -> quiet w p ->
  tr (at_world w) (retire p) (fun _ w' => inv w' /\ local w w' /\ moves w w' /\
    dom (deliveries (w_reader w')) = dom (deliveries (w_reader w))).
Proof.
  intros Hi (l & Hl & Hend & Hall) Hq. unfold retire. apply tr_reader. intros ? ->.
  destruct (lanes (w_reader w) !! p) as [s|] eqn:Hs; [|by apply tr_ret_at].
  apply tr_upd, tr_upd. destruct (inv_lane cfg w Hi p s Hs) as (h & l' & Hd & Hp & _).
  intros w' t ->. cbn. rewrite Hd.
  set (w' := on_reader _ _). assert (Hw : w' = on_reader (fun r => set_retired
      (retired (w_reader w) ++ [ls_lane s]) (set_held (ls_delivery s) (set_h_lanes (h_lanes h ∖ {[p]}) h)
      (set_lanes (delete p (lanes r)) r))) w).
  { subst w'. unfold on_reader. cbn [w_reader]. cbn. by rewrite Hd. }
  rewrite Hw. split_and!; [by apply (inv_retire cfg w p s h l)|done| |].
  - apply local_moves; [done| |by apply subseteq_dom, delete_subseteq|].
    + unfold load. cbn. rewrite map_size_delete_Some by (by eexists).
      pose proof (idle_insert (deliveries (w_reader w)) (ls_delivery s) (set_h_lanes (h_lanes h ∖ {[p]}) h)).
      assert (base.size (lanes (w_reader w)) <> 0%nat).
      { intros Hz%map_size_empty_inv. by rewrite Hz in Hs. }
      destruct (unit_idle _); lia.
    + apply (held_ready w _ h); [done..|]. intros [?|(? & ? & Hls)]; [by left|right].
      split_and!; [done..|]. intros q Hqin. apply Hls. cbn in Hqin. set_solver.
  - by apply (dom_set_held (ls_delivery s) h _ (w_reader w)).
Qed.

(** ** Reports *)
Lemma tr_re_enqueue d s h o w :
  is_Some (bucket (reader_scope cfg)) ->
  tr (at_world w) (re_enqueue cfg d s h o) (fun x w' =>
    cut_ok cfg w' d h (o_key o) x.1 x.2 /\ (w' = w \/ exists u, w' = add_call (Published d u) w)).
Proof.
  intros [b Hb]. unfold re_enqueue. destruct (h_failing h) as [why|] eqn:Hf.
  { apply tr_ret_at. cbn. rewrite Hf. split; [by split; [|eexists]|by left]. }
  case_bool_decide as Hs; [by apply tr_ret_at; cbn; split; [|left]|].
  case_bool_decide as Hc; [by apply tr_ret_at; cbn; split; [|left]|].
  apply (tr_expect _ _ _ _ b Hb). apply upto_get. intros ? ->. cbn zeta.
  apply tr_step, tr_ret_at. split; [|right; by eexists]. cbn.
  split_and!; [done| |by left]. eexists (mkUnit _ _), b, _. split_and!; [|done|].
  - cbn. rewrite lookup_app_r by lia. by rewrite Nat.sub_diag.
  - done.
Qed.

Lemma live_keys (cs : list Cursor) : Forall (cursor_live cfg) cs -> is_Some (mapM cursor_key cs).
Proof.
  intros HF. apply mapM_is_Some_2. apply (Forall_impl _ _ _ HF). intros c (_ & Hne & _).
  destruct c as [[|e es] ???]; [done|]. by exists (e_key e).
Qed.

Lemma not_finished w p s h :
  inv w -> lanes (w_reader w) !! p = Some s -> deliveries (w_reader w) !! ls_delivery s = Some h ->
  unit_finished h = false.
Proof.
  intros Hi Hs Hd. apply not_true_iff_false. intros (_ & _ & Hl & _)%finished_spec.
  destruct (inv_lane cfg w Hi p s Hs) as (h' & l & Hd' & Hp & _). simplify_eq. rewrite Hl in Hp. set_solver.
Qed.


(** A report taken off the channel. *)
Lemma kept_read rep w : kept (set_reports (rep :: w_reports w) w) w.
Proof.
  split; [split|done|done]; try done; cbn.
  - intros p l Hl. exists l. split; [done|apply lane_le_refl].
  - intros p [Hl Hr]. split; [done|]. intros x Hx. apply Hr. by right.
  - intros d h Hd. exists h. split; [done|]. apply ready_quiet. intros p [Hl Hr].
    split; [done|]. intros x Hx. apply Hr. by right.
Qed.

Lemma tr_on_report rep w :
  inv (set_reports (rep :: w_reports w) w) ->
  tr (at_world w) (on_report cfg rep) (fun _ w' => inv w' /\ kept (set_reports (rep :: w_reports w) w) w').
Proof.
  intros Hi. set (w0 := set_reports (rep :: w_reports w) w) in Hi. unfold on_report.
  destruct (rp_overwrite rep) as [o|] eqn:Ho.
  2:{ assert (Hw : inv w) by (apply (drop_report cfg w rep Hi); by rewrite Ho).
      intros w' t ->. cbn. unfold on_reader.
      assert (Hn : inv w /\ kept w0 w) by (split; [done|apply kept_read]).
      destruct (lanes (w_reader w) !! rp_partition rep) as [s|] eqn:Hs; [|by destruct w].
      destruct (deliveries (w_reader w) !! ls_delivery s) as [h|] eqn:Hd; [|by destruct w].
      split; [apply (inv_failing cfg w); [done|done|by eapply not_finished]|].
      etrans; [apply kept_read|]. apply (kept_held w _ h); [done|done|]. intros _. by left. }
  unfold on_overwrite. apply tr_reader. intros ? ->.
  destruct (lanes (w_reader w) !! rp_partition rep) as [s|] eqn:Hs.
  2:{ apply tr_ret_at. split; [|apply kept_read]. apply (drop_report cfg w rep Hi). congruence. }
  destruct (inv_lane cfg w0 Hi _ s Hs) as (h & l & Hd & Hp & Hl & Hld & _). cbn in Hd, Hl. rewrite Hd.
  destruct (inv_held cfg w0 Hi _ h Hd) as [H1 H2 (b & Hb & HB & _)]. cbn in Hb.
  destruct (inv_report cfg w0 Hi rep ltac:(left) o Ho) as (l' & Hl' & Hcut). cbn in Hl'.
  assert (l' = l) as -> by congruence.
  destruct (inv_env cfg w0 Hi _ l Hl) as (_ & _ & _ & Hbk & Hfn).
  assert (Hbucket : is_Some (bucket (reader_scope cfg))) by (apply Hbk, Hfn; by eexists).
  case_bool_decide as Hkey.
  { apply tr_ret_at. split; [|apply kept_read]. apply (drop_report cfg w rep Hi). intros o' s' b' Ho' Hs' Hb'.
    simplify_eq. apply elem_of_dom. rewrite <- (bo_keys _ _ _ _ _ HB). by apply elem_of_dom. }
  destruct (live_keys (h_pending h) H1) as [ks Hks]. apply (tr_expect _ _ _ _ ks Hks). cbn zeta.
  eapply upto_bind; [by apply tr_re_enqueue|]. intros [r c]. apply tr_at. intros w1 [Hok Hw1]. cbn in Hok.
  assert (Hi1 : inv (set_reports (rep :: w_reports w1) w1)).
  { destruct Hw1 as [->|[u ->]]; [done|]. by apply (inv_call cfg w0 (Published (ls_delivery s) u) Hi). }
  assert (Hsame : w_reader w1 = w_reader w /\ w_books w1 = w_books w /\ local w w1)
    by (destruct Hw1 as [->|[u ->]]; [done|]; split_and!; [done..|]; split; [done..|]; by apply prefix_app_r).
  destruct Hsame as (Hr1 & Hb1 & Hloc).
  apply tr_upd. intros w' t ->. unfold note, modify. cbn.
  set (wf := set_books _ _).
  assert (Hfin : inv (set_reports (rep :: w_reports wf) wf)).
  { refine (inv_cut cfg (set_reports (rep :: w_reports w1) w1) (ls_delivery s) h (o_key o) r c Hi1 _ _ _ _).
    - cbn. by rewrite Hr1.
    - eapply (not_finished w0); [done|exact Hs|exact Hd].
    - destruct (h_overwritten h !! o_key o) eqn:He; [|done]. exfalso. apply Hkey. by eexists.
    - by destruct c. }
  split.
  - apply (drop_report cfg wf rep Hfin). intros o' s' b' Ho' Hs' Hb'. cbn in Hs', Hb'.
    rewrite Hr1 in Hs'. simplify_eq. rewrite Hb1, lookup_alter_eq, Hb in Hb'. injection Hb' as <-.
    cbn. rewrite lookup_insert_eq. by eexists.
  - etrans; [|apply (kept_read rep)]. etrans.
    + apply (kept_held w0 (ls_delivery s) h (set_overwritten (<[o_key o := r]> (h_overwritten h))
        (set_pending (filter (fun c => cursor_key c <> Some (o_key o)) (h_pending h)) h)));
        [done|unfold unit_idle; cbn; rewrite (bool_decide_false (h_lanes h = ∅)); [done|set_solver]|].
      intros [Hf|(_ & _ & Hq)]; [by left|]. destruct (Hq _ Hp) as [_ Hno]. by destruct (Hno rep ltac:(left)).
    + destruct Hloc as [Hlo1 Hlo2 Hlo3].
      apply kept_aside; [split; cbn; by rewrite ?Hlo1, ?Hlo2|cbn; by rewrite Hr1..].
Qed.

Lemma tr_read_reports w :
  inv w -> tr (at_world w) (read_reports cfg) (fun _ w' => inv w' /\ kept w w' /\ w_reports w' = []).
Proof.
  intros Hi.
  enough (tr (fun w' => inv w' /\ kept w w') (read_reports cfg) (fun _ w' => inv w' /\ kept w w' /\ w_reports w' = []))
    as Hr by (eapply upto_weaken; [exact Hr| |done]; by intros w' ->).
  apply upto_loop.
  apply tr_at. intros w1 [Hi1 Hk1]. unfold read_report.
  eapply tr_then; [by apply tr_meanwhile|]. intros _ w2 [Hi2 Hc2]. cbn.
  assert (Hk2 : kept w w2) by (etrans; [done|by apply calm_kept]).
  apply upto_get. intros ? ->. destruct (w_reports w2) as [|rep rest] eqn:Hr; [by apply tr_ret_at|].
  assert (Hw2 : set_reports (rep :: w_reports (set_reports rest w2)) (set_reports rest w2) = w2)
    by (cbn; rewrite <- Hr; by destruct w2).
  apply tr_step. eapply tr_then; [apply tr_on_report; by rewrite Hw2|]. rewrite Hw2.
  intros [] w3 [Hi3 Hk3]. apply tr_ret_at. split; [done|by etrans].
Qed.

Lemma quiet_when_read w p : w_reports w = [] -> at_lane lane_ended w p -> quiet w p.
Proof. intros Hr Hl. split; [exact Hl|]. rewrite Hr. by intros rep ?%not_elem_of_nil. Qed.

Lemma publishing_unfinished h key call :
  h_overwritten h !! key = Some (Publishing call) -> unit_finished h = false.
Proof.
  intros Hk. apply not_true_iff_false. intros (_ & _ & _ & Hs)%finished_spec.
  by pose proof (proj1 (re_enqueues_spec h) Hs _ _ Hk).
Qed.

Lemma tr_check_re_enqueue d key w :
  inv w -> tr (at_world w) (check_re_enqueue d key) (fun _ w' => inv w' /\ kept w w').
Proof.
  intros Hi. unfold check_re_enqueue. apply tr_reader. intros ? ->.
  destruct (deliveries (w_reader w) !! d) as [h|] eqn:Hd; [|by apply tr_ret_at].
  destruct (h_overwritten h !! key) as [[call|]|] eqn:Hk; [|by apply tr_ret_at..].
  eapply tr_then; [by apply tr_meanwhile|]. intros _ w1 [Hi1 Hc]. cbn.
  pose proof (calm_kept _ _ Hc) as Hk1. rewrite <- (un_reader _ _ (proj1 Hc)) in Hd.
  apply upto_get. intros ? ->. destruct (w_confirmed w1 !! call) as [[e|]|] eqn:Hcf; [| |by apply tr_ret_at].
  - case_bool_decide; [by apply tr_ret_at|].
    eapply (tr_then _ _ _ _ (fun _ w' => inv w' /\ kept w w')); [|by intros; apply tr_ret_at].
    apply tr_when; [|done]. intros _ w' t ->. cbn. split.
    + apply inv_failing; [done|done|]. by eapply publishing_unfinished.
    + etrans; [exact Hk1|]. apply (kept_held _ _ h); [done|done|]. intros _. by left.
  - apply tr_upd, tr_ret_at. split; [by eapply inv_confirm|]. etrans; [exact Hk1|].
    apply (kept_held _ _ h); [done|done|]. intros [?|(_ & Hs & _)]; [by left|].
    by pose proof (proj1 (re_enqueues_spec h) Hs _ _ Hk).
Qed.

(** A loop whose steps keep a relation to where it began. *)
Lemma tr_each_try_rel {A} (T : World -> World -> Prop) `{!PreOrder T} (f : A -> M (SourceError + unit)) l :
  (forall x w, x ∈ l -> inv w -> tr (at_world w) (f x) (fun _ w' => inv w' /\ T w w')) ->
  forall w, inv w -> tr (at_world w) (each_try f l) (fun _ w' => inv w' /\ T w w').
Proof.
  intros Hf. induction l as [|x l IH]; intros w Hi; cbn; [by apply tr_ret_at|].
  eapply tr_try; [apply Hf; [left|done]|done|]. intros _ w1 [Hi1 HT1].
  eapply tr_weaken_post; [apply IH; [|done]|]. { intros y w' Hy. apply Hf. by right. }
  intros _ w2 [Hi2 HT2]. split; [done|]. by etrans.
Qed.

Lemma tr_check_re_enqueues w :
  inv w -> tr (at_world w) check_re_enqueues (fun _ w' => inv w' /\ kept w w').
Proof.
  intros Hi. unfold check_re_enqueues. apply tr_reader. intros ? ->.
  apply (tr_each_try_rel kept); [|done]. intros d w1 _ Hi1. apply tr_reader. intros ? ->.
  apply (tr_each_try_rel kept); [|done]. intros key w2 _ Hi2. by apply tr_check_re_enqueue.
Qed.

(** ** Settling *)

(** A loop over held deliveries, each step of which changes its own only. *)
Lemma tr_each_held (P : HeldUnit -> Prop) (f : Z -> M (SourceError + unit)) l :
  (forall d h w, inv w -> deliveries (w_reader w) !! d = Some h -> P h ->
     tr (at_world w) (f d) (fun _ w' => inv w' /\ moves w w' /\
       forall d', d' <> d -> deliveries (w_reader w') !! d' = deliveries (w_reader w) !! d')) ->
  NoDup l -> forall w, inv w -> (forall d, d ∈ l -> exists h, deliveries (w_reader w) !! d = Some h /\ P h) ->
  tr (at_world w) (each_try f l) (fun _ w' => inv w' /\ moves w w').
Proof.
  intros Hf. induction 1 as [|d l Hd Hnd IH]; intros w Hi HP; cbn; [by apply tr_ret_at|].
  destruct (HP d ltac:(left)) as (h & Hh & Hp).
  eapply tr_try; [by eapply Hf|by intros e w' (? & ? & _)|]. intros _ w1 (Hi1 & Hm1 & Ho1).
  eapply tr_weaken_post; [apply IH; [done|]|].
  - intros d' Hd'. rewrite Ho1 by congruence. apply HP. by right.
  - intros _ w2 [Hi2 Hm2]. split; [done|]. by etrans.
Qed.

Lemma tr_release_moves d w :
  inv w -> tr (at_world w) (release d) (fun _ w' => inv w' /\ moves w w' /\
    forall d', d' <> d -> deliveries (w_reader w') !! d' = deliveries (w_reader w) !! d').
Proof.
  intros Hi. eapply tr_weaken_post; [by apply tr_release|]. intros _ w' [H1 H2 H3 H4 H5].
  split_and!; [done..|]. intros d' Hne. rewrite H4. by apply lookup_delete_ne.
Qed.

Lemma local_call f c w : local w (on_reader f (add_call c w)).
Proof. split; [done..|]. by apply prefix_app_r. Qed.

Lemma kept_call w c : kept w (add_call c w).
Proof. apply kept_aside; [apply (local_call (fun r => r))|done..]. Qed.

Lemma released_after_call d c w :
  inv w -> is_ack c = false ->
  tr (at_world (add_call c w)) (release d;;; mret (inr tt))
    (fun (_ : SourceError + unit) w' => inv w' /\ moves w w' /\
       forall d', d' <> d -> deliveries (w_reader w') !! d' = deliveries (w_reader w) !! d').
Proof.
  intros Hi Hc. eapply tr_then; [by apply tr_release_moves, inv_call|]. intros [] w' (Hi' & Hm & Ho).
  apply tr_ret_at. split_and!; [done| |done]. etrans; [apply kept_call|exact Hm].
Qed.

Lemma tr_fail_held d h w :
  inv w -> deliveries (w_reader w) !! d = Some h ->
  tr (at_world w) (fail_held d) (fun _ w' => inv w' /\ moves w w' /\
    forall d', d' <> d -> deliveries (w_reader w') !! d' = deliveries (w_reader w) !! d').
Proof.
  intros Hi Hd. unfold fail_held. apply tr_reader. intros ? ->. apply (tr_expect _ _ _ _ h Hd).
  apply tr_feed_said. intros a. destruct (settled a) as [e|[]].
  - apply tr_ret_at. split_and!; [by apply inv_call|apply kept_call|done].
  - by apply released_after_call.
  - apply tr_ret_at. split_and!; [by apply inv_call|apply kept_call|done].
Qed.

(** A unit handed back has left the reader. *)
Lemma tr_hand_back_one d h w :
  inv w -> deliveries (w_reader w) !! d = Some h ->
  tr (at_world w) (hand_back_one d) (fun x w' => inv w' /\ moves w w' /\
    (x = inr tt -> deliveries (w_reader w') = delete d (deliveries (w_reader w)))).
Proof.
  intros Hi Hd. unfold hand_back_one. apply tr_reader. intros ? ->. apply (tr_expect _ _ _ _ h Hd).
  apply tr_feed_said. intros a. set (c := HandedBack d (h_receipt h) a).
  assert (Hrel : tr (at_world (add_call c w)) (release d;;; mret (inr tt)) (fun (x : SourceError + unit) w' =>
    inv w' /\ moves w w' /\ (x = inr tt -> deliveries (w_reader w') = delete d (deliveries (w_reader w))))).
  { eapply tr_then; [by apply tr_release, inv_call|]. intros [] w' [H1 H2 H3 H4 H5]. apply tr_ret_at.
    split_and!; [done| |done]. etrans; [apply kept_call|exact H3]. }
  destruct a as [e|]; [|exact Hrel]. destruct (kind e); try exact Hrel;
    (apply tr_ret_at; split_and!; [by apply inv_call|apply kept_call|done]).
Qed.

(** The feed has refused to settle [d] for now, since [w]. *)
Definition refused (w w' : World) (d : Z) : Prop :=
  exists rc e, kind e = Retryable /\ Acknowledged d rc (Some e) ∈ drop (length (w_calls w)) (w_calls w').

Lemma refused_weaken w1 w2 w3 w4 d :
  w_calls w1 `prefix_of` w_calls w2 -> w_calls w3 `prefix_of` w_calls w4 ->
  refused w2 w3 d -> refused w1 w4 d.
Proof.
  intros [k Hk] [k' Hk'] (rc & e & He & Hin). exists rc, e. split; [done|]. rewrite Hk', drop_app.
  apply elem_of_app. left. rewrite Hk, length_app, <- drop_drop in Hin.
  by eapply subseteq_drop.
Qed.

(** A finished unit is gone once acknowledged, or the feed refused it. *)
Lemma tr_acknowledge d h w :
  inv w -> deliveries (w_reader w) !! d = Some h -> unit_finished h = true ->
  tr (at_world w) (acknowledge d) (fun x w' => inv w' /\ moves w w' /\
    deliveries (w_reader w') ⊆ deliveries (w_reader w) /\
    (forall d', d' <> d -> deliveries (w_reader w') !! d' = deliveries (w_reader w) !! d') /\
    (x = inr tt -> is_Some (deliveries (w_reader w') !! d) -> refused w w' d)).
Proof.
  intros Hi Hd Hf. unfold acknowledge. apply tr_reader. intros ? ->. apply (tr_expect _ _ _ _ h Hd).
  apply tr_feed_said. intros a. pose proof (inv_ack cfg w d h a Hi Hd Hf) as Hia.
  destruct (settled a) as [e|[]] eqn:Hs.
  - apply tr_ret_at. split_and!; [done|apply kept_call|done|done|done].
  - apply tr_upd, tr_ret_at. split_and!.
    + apply (inv_delete cfg _ d h Hia Hd). by apply finished_spec in Hf as (_ & _ & ? & _).
    + apply local_moves; [apply local_call| |done|].
      * unfold load. cbn. pose proof (idle_delete (deliveries (w_reader w)) d). lia.
      * cbn. intros d' h' [_ Hd']%lookup_delete_Some. eauto.
    + cbn. apply delete_subseteq.
    + intros d' Hne. cbn. by apply lookup_delete_ne.
    + cbn. rewrite lookup_delete_eq. by intros _ [].
  - apply tr_ret_at. split_and!; [done|apply kept_call|done|done|]. intros _ _.
    destruct a as [e|]; [|done]. exists (h_receipt h), e. split.
    + cbn in Hs. by destruct (kind e).
    + cbn. rewrite drop_app_length. left.
Qed.

Lemma tr_acknowledge_all l : forall w, NoDup l -> inv w ->
  (forall d, d ∈ l -> exists h, deliveries (w_reader w) !! d = Some h /\ unit_finished h = true) ->
  tr (at_world w) (each_try acknowledge l) (fun x w' => inv w' /\ moves w w' /\
    deliveries (w_reader w') ⊆ deliveries (w_reader w) /\
    (x = inr tt -> forall d, d ∈ l -> is_Some (deliveries (w_reader w') !! d) -> refused w w' d)).
Proof.
  induction l as [|d l IH]; intros w Hnd Hi Hl; cbn.
  { apply tr_ret_at. split_and!; [done..|]. by intros _ d ?%not_elem_of_nil. }
  apply NoDup_cons in Hnd as [Hd Hnd]. destruct (Hl d ltac:(left)) as (h & Hh & Hf).
  eapply tr_try; [by eapply tr_acknowledge| |]; [by intros e w1 (? & ? & ? & _); split_and!|].
  intros [] w1 (Hi1 & Hm1 & Hs1 & Ho1 & Hr1).
  eapply tr_weaken_post; [apply IH; [done|done|]|].
  - intros d' Hd'. rewrite Ho1 by (by intros ->). apply Hl. by right.
  - intros x w2 (Hi2 & Hm2 & Hs2 & Hr2). split_and!; [done|by etrans|by etrans|]. intros Hx d' Hd' Hin.
    apply elem_of_cons in Hd' as [->|Hd'].
    + destruct Hin as [h' Hin]. eapply refused_weaken; [done|apply Hm2|]. apply Hr1; [done|].
      exists h'. by eapply lookup_weaken.
    + eapply refused_weaken; [apply Hm1|done|]. by apply Hr2.
Qed.

Lemma tr_fail_unread receipt reason w :
  inv w -> tr (at_world w) (fail_unread receipt reason) (fun _ w' => inv w' /\ kept w w').
Proof.
  intros Hi. unfold fail_unread. apply tr_feed_said. intros a.
  pose proof (inv_call cfg w (Failed None receipt reason a) Hi eq_refl) as Hi'.
  destruct (settled a) as [e|[]]; [by apply tr_ret_at; split; [|apply kept_call]..|].
  apply tr_upd, tr_ret_at. split; [by apply inv_field|]. apply kept_aside; [apply local_call|done..].
Qed.

(** Steps after which the reader holds no delivery it did not hold. *)
Definition drops (w w' : World) : Prop := moves w w' /\ deliveries (w_reader w') ⊆ deliveries (w_reader w).
#[local] Instance drops_preorder : PreOrder drops.
Proof. split; [done|]. intros w1 w2 w3 [? ?] [? ?]. split; by etrans. Qed.

Lemma tr_renew_each w : inv w -> tr (at_world w) renew_each (fun _ w' => inv w' /\ drops w w').
Proof.
  intros Hi. unfold renew_each. apply tr_reader. intros ? ->.
  apply (tr_each_try_rel drops); [|done]. intros [d rc] w1 _ Hi1. apply tr_feed_said. intros a.
  assert (Hend : forall x : SourceError + unit, tr (at_world (add_call (Renewed d rc a) w1)) (mret x)
    (fun _ w' => inv w' /\ drops w1 w'))
    by (intros x; apply tr_ret_at; split; [by apply inv_call|]; split; [apply kept_call|done]).
  destruct a as [e|]; [|apply Hend]. destruct (kind e); try apply Hend.
  eapply tr_then; [by apply tr_release, inv_call|]. intros [] w' [H1 H2 H3 H4 H5]. apply tr_ret_at.
  split; [done|]. split; [etrans; [apply kept_call|exact H3]|]. rewrite H4. apply delete_subseteq.
Qed.

Lemma tr_renew_held w : inv w -> tr (at_world w) renew_held (fun _ w' => inv w' /\ moves w w').
Proof.
  intros Hi. unfold renew_held. apply tr_reader. intros ? ->.
  destruct (renew_error (w_reader w)); [by apply tr_ret_at|].
  eapply tr_then; [by apply tr_renew_each|]. intros x w1 [Hi1 [Hm1 _]].
  intros w' t ->. cbn. split; [by apply inv_field|]. etrans; [exact Hm1|]. by apply kept_aside.
Qed.

Lemma tr_may_retire r p w :
  inv w -> w_reader w = r -> p ∈ keys (lanes r) ->
  tr (at_world w) (may_retire p) (fun b w' =>
    (inv w' /\ w_reader w' = r) /\ calm w w' /\ (b = true -> at_lane lane_settled w' p)).
Proof.
  intros Hi Hr [s Hs]%elem_of_keys. unfold may_retire. apply tr_reader. intros ? ->. rewrite Hr.
  apply (tr_expect _ _ _ _ s Hs). rewrite <- Hr in Hs.
  destruct (inv_lane cfg w Hi p s Hs) as (h & l & Hd & _ & Hl & _ & Hc). rewrite Hr in Hd.
  apply (tr_expect _ _ _ _ h Hd). destruct (is_failing h); [by apply tr_ret_at|].
  eapply tr_then; [by apply tr_terminal_of|]. intros t w1 (Hi1 & Hc1 & Ht). apply tr_ret_at.
  split_and!; [done|by rewrite (un_reader _ _ (proj1 Hc1))|done|].
  destruct t as [n|]; [|done]. destruct (Ht n eq_refl) as (l1 & Hl1 & Hm & He).
  intros Hb. exists l1. split; [done|split; [done|]].
  destruct (proj2 Hc1 p l Hl) as (l1' & Hl1' & _ & _ & Hle & _). assert (l1' = l1) as -> by congruence.
  destruct (inv_env cfg w1 Hi1 p l1 Hl1) as (_ & Hwf & _).
  apply orb_true_iff in Hb as [Hz|Hz]; apply bool_decide_eq_true in Hz; [lia|].
  specialize (Hc _ Hz). lia.
Qed.

Lemma tr_retire_unfailing l w :
  inv w -> (forall p, p ∈ l -> at_lane lane_settled w p /\ quiet w p) ->
  tr (at_world w) (each retire_unfailing l) (fun _ w' => inv w' /\ moves w w').
Proof.
  revert w. induction l as [|p l IH]; intros w Hi Hq; cbn; [by apply tr_ret_at|].
  eapply (tr_then _ _ _ _ (fun _ w' => inv w' /\ local w w' /\ moves w w')).
  - unfold retire_unfailing. apply tr_reader. intros ? ->.
    destruct (lanes (w_reader w) !! p) as [s|] eqn:Hs; [|by apply tr_ret_at].
    destruct (inv_lane cfg w Hi p s Hs) as (h & _ & Hd & _). apply (tr_expect _ _ _ _ h Hd).
    apply tr_when; [|done]. intros _. destruct (Hq p ltac:(left)).
    eapply tr_weaken_post; [by apply tr_retire|]. by intros [] w' (? & ? & ? & _).
  - intros [] w1 (Hi1 & Hl1 & Hm1). eapply tr_weaken_post; [apply IH; [done|]|].
    + intros q Hqr. destruct (Hq q) as [Ha Hb]; [by right|].
      split; [by eapply at_lane_local|by eapply quiet_local].
    + intros [] w2 [Hi2 Hm2]. split; [done|]. by etrans.
Qed.

Lemma select_held f r d : d ∈ select f r -> exists h, deliveries r !! d = Some h /\ f h = true.
Proof. by intros (h & ? & ?)%elem_of_select; eauto. Qed.

Lemma at_lane_calm Q w w' p :
  monotone Q -> inv w' -> calm w w' -> at_lane Q w p -> at_lane Q w' p.
Proof. intros HQ Hi Hc. apply at_lane_moves; [done|done|]. by apply calm_moves. Qed.

(** Each finished unit still held was refused since [w]. *)
Definition finished_refused (w w' : World) : Prop :=
  forall d h, deliveries (w_reader w') !! d = Some h -> unit_finished h = true -> refused w w' d.

Lemma tr_settle_lanes w w5 :
  inv w5 -> moves w w5 ->
  tr (at_world w5) (r ← reader;
    ended ← filter_by may_retire (keys (lanes r));
    read_reports cfg;;;
    each retire_unfailing ended;;;
    r ← reader;
    _ <-? each_try acknowledge (select unit_finished r);
    renew_each) (fun x w' => inv w' /\ moves w w' /\ (x = inr tt -> finished_refused w w')).
Proof.
  intros Hi5 Hm5. apply tr_reader. intros ? ->.
  eapply tr_then.
  { apply (tr_filter_by (fun w' => inv w' /\ w_reader w' = w_reader w5) calm (fun p w' => at_lane lane_settled w' p)).
    - intros p w' Hp [Hi' Hr']. by apply tr_may_retire.
    - intros p w1 w2 [Hi2 _] Hc. by apply at_lane_calm; [apply settled_monotone|..].
    - done. }
  intros ended w6 ([Hi6 _] & Hc6 & Hended). cbn.
  eapply tr_then; [by apply tr_read_reports|]. intros [] w7 (Hi7 & Hk7 & Hr7). cbn.
  assert (Hq7 : forall p, p ∈ ended -> at_lane lane_settled w7 p /\ quiet w7 p).
  { intros p [Hp _]%Hended.
    assert (Hp7 : at_lane lane_settled w7 p) by (eapply at_lane_moves; [apply settled_monotone|done|apply Hk7|done]).
    split; [done|]. apply quiet_when_read; [done|]. destruct Hp7 as (l & ? & ? & _). by exists l. }
  eapply tr_then; [by apply tr_retire_unfailing|]. intros [] w8 [Hi8 Hm8]. cbn.
  apply tr_reader. intros ? ->.
  assert (Hmw8 : moves w w8) by (etrans; [exact Hm5|etrans; [by apply calm_moves|etrans; [apply Hk7|done]]]).
  eapply tr_try; [apply tr_acknowledge_all; [apply select_NoDup|done|by intros d ?%select_held]| |].
  { intros e w9 (Hi9 & Hm9 & _). split_and!; [done|by etrans|done]. }
  intros [] w9 (Hi9 & Hm9 & Hs9 & Hr9). eapply tr_weaken_post; [by apply tr_renew_each|].
  intros x w10 [Hi10 [Hm10 Hs10]]. split_and!; [done|etrans; [exact Hmw8|by etrans]|].
  intros _ d h Hd Hf. assert (Hd9 : deliveries (w_reader w9) !! d = Some h) by (by eapply lookup_weaken).
  eapply refused_weaken; [apply Hmw8|apply Hm10|]. apply Hr9; [done| |by eexists].
  apply elem_of_select. exists h. split; [by eapply lookup_weaken|done].
Qed.

Lemma tr_settle w :
  inv w -> tr (at_world w) (settle cfg) (fun x w' =>
    inv w' /\ moves w w' /\ (x = inr tt -> finished_refused w w')).
Proof.
  intros Hi. unfold settle. apply tr_reader. intros ? ->.
  destruct (renew_error (w_reader w)).
  { apply tr_upd, tr_ret_at. split_and!; [by apply inv_field|by apply kept_aside|done]. }
  eapply tr_then; [by apply tr_read_reports|]. intros [] w1 (Hi1 & Hm1%kp_moves & _).
  eapply tr_try; [by apply tr_check_re_enqueues| |].
  { intros e w2 [Hi2 Hm2%kp_moves]. split_and!; [done|by etrans|done]. }
  intros [] w2 [Hi2 Hm2%kp_moves]. assert (moves w w2) as Hm by (by etrans). clear w1 Hi1 Hm1 Hm2.
  apply tr_reader. intros ? ->.
  eapply tr_try; [apply (tr_each_held (fun h => is_failing h = true));
    [intros; by eapply tr_fail_held|apply select_NoDup|done|by intros d ?%select_held]| |].
  { intros e w3 [Hi3 Hm3]. split_and!; [done|by etrans|done]. }
  intros [] w3 [Hi3 Hm3]. assert (moves w w3) as Hmw3 by (by etrans). clear w2 Hi2 Hm Hm3.
  apply tr_reader. intros ? ->. apply tr_upd. set (w4 := on_reader _ w3).
  assert (Hi4 : inv w4) by (by apply inv_field). assert (Hm4 : moves w w4) by (etrans; [exact Hmw3|by apply kept_aside]).
  clearbody w4. eapply tr_try; [apply (tr_each_try_rel kept); [|exact Hi4]| |].
  { intros [rc why] w' _ Hi'. by apply tr_fail_unread. }
  { intros e w5 [Hi5 Hm5%kp_moves]. split_and!; [done|by etrans|done]. }
  intros [] w5 [Hi5 Hm5%kp_moves]. assert (moves w w5) as Hmw5 by (by etrans). clear dependent w3 w4.
  by apply tr_settle_lanes.
Qed.
End ops.
