(* ===== verification/UnitReaderRuns.v ===== *)
(** * The runs of the unit reader

    What the reader opens, receives, commits and hands back: every operation
    keeps the invariant and what the reader may hold open, so the properties
    hold in every reachable state. *)

From stdpp Require Import base gmap sorting strings list relations.
From Stdlib Require Import ZArith Lia.
From S2P Require Import Prelude EndCheck MemoryFeed JobEnd S3Split S3Offset S3Unit S3UnitProofs Oracle UnitReader UnitReaderProofs UnitReaderSafety.

Section runs.
Context `{UnitLib} (cfg : ReaderConfig) (Hpack : 0 < target_bytes (reader_packing cfg)).
Notation inv := (inv cfg).

(** ** What a decoded unit holds *)
Lemma parts_of_live e origin :
  (from_notification origin -> is_Some (bucket (reader_scope cfg))) ->
  cursor_live cfg (parts_of e (reader_packing cfg) origin).
Proof.
  intros Ho. unfold cursor_live. rewrite parts_of_origin, parts_of_object. split_and!; [|done|done].
  unfold parts_of. destruct (delimiter_for _ e) as [d|] eqn:Hd; [|done].
  destruct (addressable _); [|done]. cbn. apply bool_decide_eq_false. intros Ht.
  unfold delimiter_for in Hd. destruct (pk_delimiter _); [|done]. cbn in Hd.
  destruct (bool_decide (_ < _)) eqn:Hs; [apply bool_decide_eq_true in Hs|done].
  destruct (tile_facts (e_size e) (target_bytes (reader_packing cfg)) d) as (_ & Hl & _); [lia..|].
  by rewrite Ht in Hl.
Qed.

Lemma decode_live body cs :
  decode_unit body (reader_scope cfg) (reader_packing cfg) = Read cs -> Forall (cursor_live cfg) cs.
Proof.
  unfold decode_unit. intros Hd. destruct (json_from_slice body) as [value|]; [|done]. case_bool_decide.
  { destruct (descriptor_parts body _) as [|c] eqn:Hp; [done|]. injection Hd as <-.
    apply Forall_singleton. revert Hp. unfold descriptor_parts.
    destruct (descriptor_decode _ _ body) as [|x]; [done|]. cbn zeta.
    destruct (bool_decide (to_entries x = [])) eqn:Hne; [done|]. apply bool_decide_eq_false in Hne.
    destruct (_ || _); [done|]. destruct (list_find _ _) as [[]|]; [done|].
    destruct (to_entries x) as [|e [|]]; [done| |by intros [= <-]].
    destruct (range x) as [r|]; [|intros [= <-]; by apply parts_of_live].
    case_bool_decide; [done|]. case_bool_decide; [done|]. by intros [= <-]. }
  case_bool_decide; [done|]. destruct (_ ≫= json_array) as [records|]; [|done].
  destruct (record_parts 0 records _ _) as [|cs'] eqn:Hr; [done|].
  assert (cs' = cs) as -> by (destruct cs'; [done|by injection Hd]).
  apply Forall_forall. intros c Hc. destruct (record_parts_inv _ _ _ _ _ _ Hr Hc) as (r & Hp).
  apply record_part_inv in Hp as (e & v' & n' & -> & Hs & _). by apply parts_of_live.
Qed.

(** ** Opening *)

(** The invariant, and no more held open than the reader may. *)
Record good (w : World) : Prop := mk_good {
  gd_inv : inv w;
  gd_load : (load (w_reader w) <= units_held cfg)%nat;
}.

Lemma good_moves w w' : good w -> inv w' -> moves w w' -> good w'.
Proof. intros [_ Hl] Hi [_ Hm _ _ _ _]. split; [done|lia]. Qed.

Lemma idle_insert_same m d h h' :
  m !! d = Some h -> unit_idle h = false -> unit_idle h' = false -> idle_of (<[d := h']> m) = idle_of m.
Proof.
  intros Hd Hh Hh'. unfold idle_of. rewrite map_filter_insert_False by (cbn; congruence).
  apply map_filter_delete_not. intros h2 Hh2. cbn. congruence.
Qed.

Lemma lane_fresh w n : inv w -> n = next_lane (w_reader w) -> lanes (w_reader w) !! n = None.
Proof.
  intros Hi ->. destruct (lanes (w_reader w) !! _) as [s|] eqn:Hs; [|done].
  destruct (inv_lane cfg w Hi _ s Hs) as (h & l & _ & _ & Hl & _).
  destruct (inv_env cfg w Hi _ l Hl) as (? & _). lia.
Qed.

Lemma room_load r : room cfg r = (units_held cfg - load r)%nat.
Proof. done. Qed.

(** A part off the front of a held delivery, on a lane of its own. *)
Lemma tr_open w d h c cs part c' :
  good w -> room cfg (w_reader w) <> O -> deliveries (w_reader w) !! d = Some h ->
  h_pending h = c :: cs -> cursor_next c = Some (part, c') ->
  tr (at_world (on_reader (set_held d (set_pending (if is_exhausted c' then cs else c' :: cs) h)) w))
    (open d part) (fun _ w' => good w' /\ load (w_reader w') = S (load (w_reader w))).
Proof.
  intros [Hi Hload] Hroom Hd Hp Hn. unfold open. apply tr_reader. intros ? ->. cbn zeta.
  case_bool_decide as Hx; [by apply upto_panic; intros ? ->; right|]. cbn in Hx.
  apply tr_upd, tr_step, tr_upd, tr_reader. intros ? ->. cbn.
  eapply tr_expect; [apply lookup_insert_eq|]. apply tr_upd, tr_step, tr_ret_at.
  rewrite room_load in Hroom.
  match goal with |- good ?w' /\ _ => assert (Hl' : load (w_reader w') = S (load (w_reader w))) end.
  { unfold load. cbn. rewrite map_size_insert_None by (by apply lane_fresh).
    rewrite insert_insert_eq. erewrite idle_insert_same; [done|exact Hd| |].
    - unfold unit_idle. rewrite Hp. by rewrite andb_false_r.
    - unfold unit_idle. cbn. rewrite (bool_decide_false (_ = ∅)); [done|set_solver]. }
  split; [split|exact Hl'].
  - by apply (inv_open cfg w d h c cs part c').
  - rewrite Hl'. lia.
Qed.

Lemma tr_open_loop fuel : forall w, good w -> (room cfg (w_reader w) <= fuel)%nat ->
  tr (at_world w) (open_loop cfg fuel) (fun _ w' => good w').
Proof.
  induction fuel as [|fuel IH]; intros w Hg Hroom; cbn; apply tr_reader; intros ? ->.
  { rewrite bool_decide_true by lia. by apply tr_ret_at. }
  case_bool_decide as Hfull; [by apply tr_ret_at|].
  destruct (select openable (w_reader w)) as [|d ds] eqn:Hsel; [by apply tr_ret_at|].
  destruct (select_held openable (w_reader w) d) as (h & Hd & Ho); [rewrite Hsel; left|].
  apply (tr_expect _ _ _ _ h Hd). apply andb_true_iff in Ho as [_ Hp]. apply bool_decide_eq_true in Hp.
  destruct (h_pending h) as [|c cs] eqn:Hpc; [done|].
  destruct Hg as [Hi Hload]. destruct (inv_held cfg w Hi d h Hd) as [Hlive _ _].
  rewrite Hpc in Hlive. apply Forall_cons in Hlive as [Hc _].
  destruct (live_next cfg c Hc) as [[part c'] Hn]. apply (tr_expect _ _ _ _ _ Hn). cbn zeta.
  apply tr_upd. eapply tr_then; [by eapply tr_open|]. intros p w1 [Hg1 Hl1].
  eapply tr_then; [apply IH; [done|]|].
  { rewrite room_load in *. lia. }
  intros ps w2 Hg2. by apply tr_ret_at.
Qed.

Lemma tr_open_pending w : good w -> tr (at_world w) (open_pending cfg) (fun _ w' => good w').
Proof. intros Hg. unfold open_pending. apply tr_reader. intros ? ->. by apply tr_open_loop. Qed.

(** ** Receiving *)

(** Room for [n] more. *)
Definition room_for (n : nat) (w : World) : Prop := inv w /\ (load (w_reader w) + n <= units_held cfg)%nat.

Lemma tr_hold n dl cursors w :
  room_for (S n) w -> Forall (cursor_live cfg) cursors ->
  tr (at_world w) (hold dl cursors) (fun _ w' => room_for n w').
Proof.
  intros [Hi Hl] Hc. unfold hold. apply tr_reader. intros ? ->. cbn zeta.
  case_bool_decide as Hx; [by apply upto_panic; intros ? ->; left|].
  apply tr_upd, tr_upd. intros w' t ->. cbn. split; [by apply inv_hold|].
  unfold load in *. cbn.
  pose proof (idle_insert (deliveries (w_reader w)) (next_delivery (w_reader w))
    (mkHeld (receipt dl) (id (unit_ dl)) cursors ∅ None ∅)). destruct (unit_idle _); lia.
Qed.

Lemma tr_receive max w :
  room_for max w -> tr (at_world w) (receive cfg max) (fun _ w' => good w').
Proof.
  intros [Hi Hl]. unfold receive.
  eapply (tr_then _ _ _ _ (fun r w' => w' = w /\ match r with inr l => length l <= max | _ => True end)%nat).
  { apply upto_ask. intros q a w' Hq ->. split; [done|].
    destruct q as [| |[e|l]| |]; try done; [by injection Hq as <-|]. case_bool_decide; [|done].
    by injection Hq as <-. }
  intros r w' [-> Hmax]. apply tr_step.
  assert (Hi' : inv (add_call (Received max) w)) by (by apply inv_call).
  destruct r as [e|l].
  { case_bool_decide; (apply tr_ret_at; split; [done|cbn; lia]). }
  assert (Hg : forall w', room_for 0 w' -> good w') by (intros w' [? ?]; split; [done|lia]).
  eapply (tr_try _ _ _ (fun r w' => good w')); [|done|by intros; apply tr_ret_at].
  eapply upto_weaken; [apply (tr_each_try (fun rest w' => room_for (length rest) w') good)|..].
  - intros dl l' _. apply tr_at. intros w1 Hw1.
    destruct (decode_unit _ _ _) as [cs|why|why] eqn:Hd.
    + eapply tr_then; [apply (tr_hold (length l')); [done|by eapply decode_live]|].
      intros [] w2 Hw2. by apply tr_ret_at.
    + eapply tr_then; [by apply (tr_hold (length l'))|]. intros [] w2 Hw2. by apply tr_ret_at.
    + destruct Hw1 as [Hi1 Hl1]. eapply tr_weaken_post; [by apply tr_fail_unread|].
      cbn in Hl1. intros [e|[]] w2 [Hi2 [[_ Hm _ _ _ _] _ _]]; split; try done; lia.
  - intros w' ->. split; [done|]. cbn. lia.
  - by intros [e|[]] w' Hw'; [|apply Hg].
Qed.

(** ** The end check *)
Lemma good_room w : good w -> room_for (room cfg (w_reader w)) w.
Proof. intros [Hi Hl]. split; [done|]. rewrite room_load. lia. Qed.

Lemma good_field w f :
  good w -> (forall r, same_core r (f r)) -> good (on_reader f w).
Proof.
  intros [Hi Hl] Hf. split; [by apply inv_field|]. unfold load in *. cbn.
  destruct (Hf (w_reader w)) as [-> -> _ _ _]. done.
Qed.

Lemma good_call w c : good w -> is_ack c = false -> good (add_call c w).
Proof. intros [Hi Hl] Hc. split; [by apply inv_call|done]. Qed.

Lemma set_end_same j : job_ok j -> forall r, same_core r (set_end (Some j) r).
Proof. intros Hj r. by split. Qed.

Lemma tr_clock w (R : Z -> World -> Prop) :
  (forall now, now <= near -> R now w) -> tr (at_world w) clock R.
Proof.
  intros HR. apply upto_ask. intros q a w' Hq ->. destruct q as [| | |now|]; try done.
  case_bool_decide; [|done]. injection Hq as <-. by apply HR.
Qed.

Lemma tr_on_end f w :
  (forall now j, now <= near -> job_ok j -> exists j', f now j = Some j' /\ job_ok j') ->
  good w -> tr (at_world w) (on_end f) (fun _ w' => good w' /\ stopping (w_reader w') = stopping (w_reader w)).
Proof.
  intros Hf Hg. unfold on_end. apply tr_reader. intros ? ->.
  destruct (end_ (w_reader w)) as [j|] eqn:He; [|by apply tr_ret_at].
  pose proof (inv_end cfg w (gd_inv _ Hg)) as Hj. rewrite He in Hj. cbn in Hj.
  eapply (tr_then _ _ _ _ (fun now w' => w' = w /\ now <= near)); [by apply tr_clock|].
  intros now w' [-> Hn]. destruct (Hf now j Hn Hj) as (j' & Hfj & Hj'). apply (tr_expect _ _ _ _ j' Hfj).
  intros w' t ->. cbn. split; [|done]. by apply good_field, set_end_same.
Qed.

Lemma busy_step now j : now <= near -> job_ok j -> exists j', busy now j = Some j' /\ job_ok j'.
Proof. intros Hn Hj. destruct (busy_ok now j Hn Hj) as (j' & ? & _ & ?). eauto. Qed.
Lemma receive_failed_step now j :
  now <= near -> job_ok j -> exists j', receive_failed now j = Some j' /\ job_ok j'.
Proof. intros Hn Hj. unfold receive_failed. destruct (closed_ j); [by apply busy_step|eauto]. Qed.

(** How a run in progress stands. *)
Definition outcome_good (f : Outcome World Answer unit) : Prop :=
  match f with Ran _ w _ => good w | Oracle.Panicked w => exhausted w | Stuck => True end.

Lemma receive_in_good f : outcome_good f -> outcome_good (receive_in cfg f).2.
Proof.
  destruct f as [[] w t| |]; [|done..]. cbn. intros Hg.
  pose proof (tr_receive _ w (good_room w Hg) w t eq_refl) as Hr.
  by destruct (receive cfg (room cfg (w_reader w)) w t).
Qed.

Lemma idle_good now stop m dp j f r j' f' :
  idle (receive_in cfg) now stop m dp j f = Out r j' f' -> outcome_good f -> outcome_good f'.
Proof. intros Hi Hf. eapply (idle_feed _ outcome_good); [apply receive_in_good|done..]. Qed.

Lemma tr_run_idle j w :
  job_ok j -> good w -> tr (at_world w) (run_idle cfg j) (fun _ w' => good w').
Proof.
  intros Hj Hg. unfold run_idle.
  eapply (tr_then _ _ _ _ (fun now w' => w' = w /\ now <= near)); [by apply tr_clock|].
  intros now w' [-> Hn]. eapply (tr_then _ _ _ _ (fun _ w' => w' = w)).
  { by apply upto_ask. }
  intros [[stop m] dp] ? -> ? t ->. unfold idle_in. cbn.
  destruct (idle_total (receive_in cfg) now stop m dp j (Ran tt w t) Hj Hn) as (r & j' & f' & He & _ & Hj').
  rewrite He. pose proof (idle_good _ _ _ _ _ _ _ _ _ He Hg) as Hf.
  destruct f' as [[] w' t'| |]; [|done..]. by apply good_field, set_end_same.
Qed.

Lemma tr_poll_idle timeout w :
  good w -> tr (at_world w) (poll_idle cfg timeout) (fun _ w' => good w').
Proof.
  intros Hg. unfold poll_idle. apply tr_reader. intros ? ->.
  eapply (tr_try _ _ _ (fun _ w' => good w')); [|done|].
  - destruct (_ && _); [|by apply tr_ret_at]. destruct (end_ (w_reader w)) as [j|] eqn:He; [|by apply tr_ret_at].
    apply tr_upd, tr_run_idle; [|by apply good_field; [|by split]].
    pose proof (inv_end cfg w (gd_inv _ Hg)) as Hj. by rewrite He in Hj.
  - intros [] w1 Hg1; [by apply tr_ret_at|]. apply tr_reader. intros ? ->.
    eapply (tr_then _ _ _ _ (fun _ w' => w' = w1)).
    + destruct (end_ (w_reader w1)); [|by apply tr_ret_at].
      eapply (tr_then _ _ _ _ (fun _ w' => w' = w1)); [by apply tr_clock|].
      intros now w' ->. by apply tr_ret_at.
    + intros within w' ->. apply tr_step, tr_ret_at. by apply good_call.
Qed.

Lemma tr_open_and_receive w : good w -> tr (at_world w) (open_and_receive cfg) (fun _ w' => good w').
Proof.
  intros Hg. unfold open_and_receive. eapply tr_then; [by apply tr_open_pending|].
  intros opened w1 Hg1. cbn. apply tr_reader. intros ? ->. destruct (_ && _); [|by apply tr_ret_at].
  eapply (tr_try _ _ _ (fun _ w' => good w')); [by apply tr_receive, good_room|done|].
  intros took w2 Hg2. eapply (tr_then _ _ _ _ (fun _ w' => good w')).
  - assert (Hend : forall f, (forall now j, now <= near -> job_ok j -> exists j', f now j = Some j' /\ job_ok j') ->
      tr (at_world w2) (on_end f) (fun _ w' => good w'))
      by (intros f Hf; eapply tr_weaken_post; [by apply tr_on_end|]; by intros ? ? [? _]).
    destruct took as [[|n|n]|]; [by apply tr_ret_at|apply Hend, busy_step|apply Hend, busy_step|
      apply Hend, receive_failed_step].
  - intros [] w3 Hg3. eapply tr_then; [by apply tr_open_pending|]. intros more w4 Hg4. by apply tr_ret_at.
Qed.

(** ** Polling *)
Lemma tr_unhinted r p w :
  inv w -> w_reader w = r -> p ∈ keys (lanes r) ->
  tr (at_world w) (unhinted p) (fun _ w' => (inv w' /\ w_reader w' = r) /\ calm w w' /\ True).
Proof.
  intros Hi Hr [s Hs]%elem_of_keys. unfold unhinted. apply tr_reader. intros ? ->. rewrite Hr.
  apply (tr_expect _ _ _ _ s Hs). destruct (ls_hinted s); [by apply tr_ret_at|].
  eapply tr_then; [by apply tr_terminal_of|]. intros t w1 (Hi1 & Hc1 & _). apply tr_ret_at.
  split_and!; [done|by rewrite (un_reader _ _ (proj1 Hc1))|done|done].
Qed.

Lemma load_state r p s s' : lanes r !! p = Some s -> load (set_state p s' r) = load r.
Proof. intros Hs. unfold load. cbn. by rewrite map_size_insert_Some by (by eexists). Qed.

Lemma tr_hint ps w : good w -> tr (at_world w) (each (fun p => upd (hint p)) ps) (fun _ w' => good w').
Proof.
  intros Hg. eapply upto_weaken; [apply (upto_each exhausted good)|by intros ? ->|done].
  intros p _ w1 t Hg1. cbn. unfold on_reader, hint.
  destruct (lanes (w_reader w1) !! p) as [s|] eqn:Hs; [|by destruct w1].
  destruct Hg1 as [Hi1 Hl1]. split; [|cbn; by rewrite (load_state _ _ s)].
  apply (inv_set_state cfg w1 p s); [done|done|done|]. cbn. intros n l Hn Hl.
  destruct (inv_lane cfg w1 Hi1 p s Hs) as (h & l' & _ & _ & Hl' & _ & Hc). simplify_eq. by apply Hc.
Qed.

Lemma tr_poll_events timeout w :
  good w -> tr (at_world w) (poll_events cfg timeout) (fun _ w' => good w').
Proof.
  intros Hg. unfold poll_events. apply tr_reader. intros ? ->.
  destruct (negb _); [by apply tr_upd, tr_ret_at, good_field; [|by split]|].
  eapply (tr_try _ _ _ (fun _ w' => good w')); [|done|].
  { eapply tr_weaken_post; [apply tr_settle, Hg|]. intros ? w' (Hi' & Hm & _). by eapply good_moves. }
  intros [] w1 Hg1. apply tr_reader. intros ? ->.
  eapply (tr_then _ _ _ _ (fun _ w' => good w')).
  { apply tr_when; [|done]. intros _. eapply tr_weaken_post; [by apply (tr_on_end busy); [apply busy_step|]|].
    by intros _ w' [? _]. }
  intros [] w2 Hg2. apply tr_reader. intros ? ->.
  case_bool_decide; [by apply tr_upd, tr_ret_at, good_field; [|by split]|].
  case_bool_decide; [by apply tr_upd, tr_ret_at, good_field; [|by split]|].
  eapply (tr_try _ _ _ (fun _ w' => good w')); [by apply tr_open_and_receive|done|].
  intros opened w3 Hg3. case_bool_decide; [by apply tr_ret_at|]. apply tr_reader. intros ? ->.
  eapply (tr_then _ _ _ _ (fun _ w' => good w')).
  { eapply tr_weaken_post; [apply (tr_filter_by (fun w' => inv w' /\ w_reader w' = w_reader w3) calm (fun _ _ => True))|].
    - intros p w' Hp [Hi' Hr']. eapply tr_weaken_post; [by apply tr_unhinted|]. naive_solver.
    - done.
    - by destruct Hg3.
    - intros ps w' ([Hi' _] & Hc & _). eapply good_moves; [exact Hg3|done|by apply calm_moves]. }
  intros ps w4 Hg4. eapply tr_then; [by apply tr_hint|]. intros [] w5 Hg5.
  case_bool_decide; [by apply tr_ret_at|by apply tr_poll_idle].
Qed.

(** ** Committing *)
Lemma covered_later wms w w' p n s :
  covered wms w -> inv w -> inv w' -> moves w w' -> (p, n) ∈ wms -> lanes (w_reader w') !! p = Some s ->
  forall l, w_lanes w' !! p = Some l -> n <= ln_delivered l.
Proof.
  intros Hc Hi Hi' [Hl _ Hd _ _ _] Hp Hs l Hl'.
  assert (is_Some (lanes (w_reader w) !! p)) as [s0 Hs0].
  { apply elem_of_dom, Hd, elem_of_dom. by eexists. }
  destruct (inv_lane cfg w Hi p s0 Hs0) as (h & l0 & _ & _ & Hl0 & _).
  destruct (Hl p l0 Hl0) as (l1 & Hl1 & _ & _ & Hle & _). simplify_eq.
  unfold covered in Hc. rewrite Forall_forall in Hc. pose proof (Hc _ Hp l0 Hl0). cbn in *. lia.
Qed.

(** The lane ended at the committed watermark: it is retired, and its delivery
    acknowledged where that was the last of it. *)
Lemma tr_commit_end p s w n l :
  inv w -> lanes (w_reader w) !! p = Some s -> w_lanes w !! p = Some l -> ln_mode l = LaneEnded ->
  ln_emitted l = n -> n <= ln_delivered l ->
  tr (at_world w) (read_reports cfg;;;
    r ← reader;
    h ← expect (deliveries r !! ls_delivery s);
    if is_failing h then mret (inr tt)
    else
      retire p;;;
      r ← reader;
      h ← expect (deliveries r !! ls_delivery s);
      if unit_finished h then acknowledge (ls_delivery s) else mret (inr tt))
    (fun _ w' => inv w' /\ moves w w').
Proof.
  intros Hi Hs Hl Hend Hem Hn. eapply tr_then; [by apply tr_read_reports|].
  intros [] w1 (Hi1 & Hk1 & Hr1). rewrite <- (kp_lanes _ _ Hk1) in Hs.
  assert (Hset : at_lane lane_settled w1 p).
  { eapply at_lane_moves; [apply settled_monotone|done|apply Hk1|]. exists l. split; [done|split; [done|]].
    destruct (inv_env cfg w Hi p l Hl) as (_ & ? & _). lia. }
  assert (Hq : quiet w1 p).
  { apply quiet_when_read; [done|]. destruct Hset as (l1 & ? & ? & _). by exists l1. }
  destruct (inv_lane cfg w1 Hi1 p s Hs) as (h & _ & Hd & _).
  apply tr_reader. intros ? ->. apply (tr_expect _ _ _ _ h Hd).
  destruct (is_failing h); [by apply tr_ret_at; split; [|apply Hk1]|].
  eapply tr_then; [by apply tr_retire|]. intros [] w2 (Hi2 & _ & Hm2 & Hdom). apply tr_reader. intros ? ->.
  assert (is_Some (deliveries (w_reader w2) !! ls_delivery s)) as [h2 Hd2].
  { apply elem_of_dom. rewrite Hdom. apply elem_of_dom. by eexists. }
  apply (tr_expect _ _ _ _ h2 Hd2). assert (Hm : moves w w2) by (etrans; [apply Hk1|done]).
  destruct (unit_finished h2) eqn:Hf; [|by apply tr_ret_at].
  eapply tr_weaken_post; [by eapply tr_acknowledge|]. intros _ w3 (Hi3 & Hm3 & _). split; [done|by etrans].
Qed.

Lemma tr_commit_one wms w0 w p n :
  covered wms w0 -> inv w0 -> moves w0 w -> inv w -> (p, n) ∈ wms ->
  tr (at_world w) (commit_one cfg (p, n)) (fun _ w' => inv w' /\ moves w w').
Proof.
  intros Hc Hi0 Hm Hi Hp. unfold commit_one. apply tr_reader. intros ? ->.
  destruct (lanes (w_reader w) !! p) as [s|] eqn:Hs; [|by apply tr_ret_at].
  pose proof (covered_later wms w0 w p n s Hc Hi0 Hi Hm Hp Hs) as Hn. apply tr_upd.
  set (s' := mkLaneState _ _ _ _ _ _). set (w1 := on_reader _ w).
  assert (Hi1 : inv w1).
  { apply (inv_set_state cfg w p s); [done|done|done|]. intros n' l [= <-]. apply Hn. }
  assert (Hs1 : lanes (w_reader w1) !! p = Some s') by (apply lookup_insert_eq).
  assert (Hm1 : moves w w1).
  { apply local_moves; [done|by rewrite <- (load_state (w_reader w) p s s' Hs)| |cbn; eauto].
    cbn. rewrite dom_insert_L. apply (elem_of_dom_2 (D := gset Z)) in Hs. set_solver. }
  destruct (inv_lane cfg w Hi p s Hs) as (h & l & _ & _ & Hl & _).
  assert (Hl1 : w_lanes w1 !! p = Some l) by done. clearbody w1.
  eapply tr_then; [by apply tr_terminal_of|]. intros t w2 (Hi2 & Hc2 & Ht). cbn zeta.
  assert (Hm2 : moves w w2) by (etrans; [exact Hm1|by apply calm_moves]).
  case_bool_decide as Hw; [by apply tr_ret_at|].
  destruct (Ht n Hw) as (l2 & Hl2 & Hend & Hem). rewrite <- (un_reader _ _ (proj1 Hc2)) in Hs1.
  eapply tr_weaken_post; [apply (tr_commit_end p s' w2 n l2); [done..|]|].
  - destruct (proj2 Hc2 p l Hl1) as (l2' & Hl2' & _ & _ & Hle & _). simplify_eq.
    specialize (Hn l Hl). lia.
  - intros _ w3 [Hi3 Hm3]. split; [done|by etrans].
Qed.

Lemma tr_commit wms w :
  covered wms w -> inv w -> tr (at_world w) (commit cfg wms) (fun _ w' => inv w' /\ moves w w').
Proof.
  intros Hc Hi. unfold commit.
  enough (forall l, l ⊆ wms -> forall w', inv w' -> moves w w' ->
    tr (at_world w') (each_try (commit_one cfg) l) (fun _ w' => inv w' /\ moves w w')) as Hall by (by apply Hall).
  induction l as [|[p n] l IH]; intros Hl w' Hi' Hm; cbn; [by apply tr_ret_at|].
  eapply tr_try; [eapply tr_commit_one; [done|done|done|done|apply Hl; left]| |].
  - intros e w1 [Hi1 Hm1]. split; [done|by etrans].
  - intros [] w1 [Hi1 Hm1]. apply IH; [|done|by etrans]. intros x Hx. apply Hl. by right.
Qed.

(** ** Stopping *)
Lemma tr_begin_stop w : inv w -> tr (at_world w) begin_stop (fun _ w' => inv w' /\ kept w w').
Proof.
  intros Hi. unfold begin_stop. apply tr_reader. intros ? ->. apply tr_when; [|done]. intros _.
  apply tr_upd. intros w' t ->. cbn. split; [|apply kept_aside; [exact (local_call (set_stopping true) StoppedReceiving w)|done..]].
  by apply inv_call; [apply inv_field|].
Qed.

Lemma tr_ended_then_reports w :
  inv w -> tr (at_world w) (ended_then_reports cfg) (fun ended w' =>
    inv w' /\ kept w w' /\ forall p, p ∈ ended -> quiet w' p).
Proof.
  intros Hi. unfold ended_then_reports. apply tr_reader. intros ? ->.
  eapply tr_then.
  { apply (tr_filter_by inv calm (fun p w' => at_lane lane_ended w' p)); [| |done].
    - intros p w' _ Hi'. eapply tr_then; [by apply tr_terminal_of|]. intros t w1 (Hi1 & Hc1 & Ht).
      apply tr_ret_at. split_and!; [done..|]. intros [n Hn]%bool_decide_eq_true.
      destruct (Ht n Hn) as (l & ? & ? & _). by exists l.
    - intros p w1 w2 Hi2 Hc. by apply (at_lane_calm cfg); [apply ended_monotone|..]. }
  intros ended w1 (Hi1 & Hc1 & He). eapply tr_then; [by apply tr_read_reports|].
  intros [] w2 (Hi2 & Hk2 & Hr2). apply tr_ret_at. split_and!; [done|by etrans; [apply calm_kept|]|].
  intros p Hp%elem_of_list_to_set. apply quiet_when_read; [done|]. destruct (He p Hp) as [Hl _].
  eapply at_lane_moves; [apply ended_monotone|done|apply Hk2|done].
Qed.

Lemma tr_reading_on_stop w :
  inv w -> tr (at_world w) (reading_on_stop cfg) (fun _ w' => inv w' /\ moves w w').
Proof.
  intros Hi. unfold reading_on_stop. destruct (negb _); [by apply tr_ret_at|].
  eapply tr_then; [by apply tr_begin_stop|]. intros [] w1 [Hi1 Hk1].
  eapply tr_then; [by apply tr_ended_then_reports|]. intros ended w2 (Hi2 & Hk2 & _).
  apply tr_reader. intros ? ->. apply tr_ret_at. split; [done|]. by etrans; [apply Hk1|apply Hk2].
Qed.

Lemma tr_each_release l : forall w,
  inv w -> tr (at_world w) (each release l) (fun _ w' => inv w' /\ moves w w' /\
    forall d h, deliveries (w_reader w') !! d = Some h -> d ∉ l /\ deliveries (w_reader w) !! d = Some h).
Proof.
  induction l as [|d l IH]; intros w Hi; cbn.
  { apply tr_ret_at. split_and!; [done..|]. intros d h Hd. split; [apply not_elem_of_nil|done]. }
  eapply tr_then; [by apply tr_release|]. intros [] w1 [H1 H2 H3 H4 H5].
  eapply tr_weaken_post; [by apply IH|]. intros _ w2 (Hi2 & Hm2 & Hd2). split_and!; [done|by etrans|].
  intros d' h Hd'. destruct (Hd2 d' h Hd') as [Hl Hd1]. rewrite H4 in Hd1.
  apply lookup_delete_Some in Hd1 as [Hne Hd1]. split; [|done]. apply not_elem_of_cons. by split.
Qed.

Lemma tr_hand_back_all l : forall w, NoDup l -> inv w -> (forall d, d ∈ l -> is_Some (deliveries (w_reader w) !! d)) ->
  tr (at_world w) (each_try hand_back_one l) (fun x w' => inv w' /\ moves w w' /\
    (x = inr tt -> forall d h, deliveries (w_reader w') !! d = Some h ->
       d ∉ l /\ deliveries (w_reader w) !! d = Some h)).
Proof.
  induction l as [|d l IH]; intros w Hnd Hi Hl; cbn.
  { apply tr_ret_at. split_and!; [done..|]. intros _ d h Hd. split; [apply not_elem_of_nil|done]. }
  apply NoDup_cons in Hnd as [Hd Hnd]. destruct (Hl d ltac:(left)) as [h Hh].
  eapply tr_try; [by eapply tr_hand_back_one| |]; [intros e w1 (? & ? & _); by split_and!|].
  intros [] w1 (Hi1 & Hm1 & Hdel). specialize (Hdel eq_refl).
  eapply tr_weaken_post; [apply IH; [done|done|]|].
  - intros d' Hd'. rewrite Hdel, lookup_delete_ne by (by intros ->). apply Hl. by right.
  - intros x w2 (Hi2 & Hm2 & Hx). split_and!; [done|by etrans|]. intros -> d' h' Hd'.
    destruct (Hx eq_refl d' h' Hd') as [Hl' Hd1]. rewrite Hdel in Hd1.
    apply lookup_delete_Some in Hd1 as [Hne Hd1]. split; [|done]. apply not_elem_of_cons. by split.
Qed.

(** What the hand-back leaves is failing, or ended and quiet. *)
Lemma left_ready ended w h :
  (forall p, p ∈ ended -> quiet w p) ->
  negb (is_failing h) && negb (read_to_its_end ended h) = false -> ready w h.
Proof.
  intros Hq. destruct (is_failing h) eqn:Hf; [by left|]. cbn. intros Hr%negb_false_iff. right.
  unfold read_to_its_end in Hr. rewrite !andb_true_iff, !bool_decide_eq_true in Hr.
  destruct Hr as [[[_ Hp] Hs] Hl]. split_and!; [done..|]. intros p Hpl. by apply Hq, Hl.
Qed.

(** A stop that hands back, and did not fail to, holds only units read to
    their end. *)
Definition only_read (w : World) : Prop :=
  forall d h, deliveries (w_reader w) !! d = Some h -> is_failing h = false /\ ready w h.

Lemma tr_stop_reading w :
  inv w -> tr (at_world w) (stop_reading cfg) (fun x w' => inv w' /\ moves w w' /\
    (hands_back cfg = true -> x = inr tt -> only_read w')).
Proof.
  intros Hi. unfold stop_reading. destruct (hands_back cfg); cbn.
  2:{ apply tr_reader. intros ? ->. apply tr_upd, tr_ret_at.
      split_and!; [by apply inv_field|by apply kept_aside|done]. }
  eapply tr_then; [by apply tr_begin_stop|]. intros [] w1 [Hi1 Hk1%kp_moves].
  eapply tr_then; [by apply tr_ended_then_reports|]. intros ended w2 (Hi2 & Hk2%kp_moves & Hq).
  eapply tr_then; [by apply tr_check_re_enqueues|]. intros first w3 [Hi3 Hk3%kp_moves].
  assert (Hq3 : forall p, p ∈ ended -> quiet w3 p) by (intros p Hp; by apply (mv_quiet _ _ Hk3), Hq).
  assert (Hm3 : moves w w3) by (etrans; [exact Hk1|by etrans]). clear Hk1 Hk2 Hk3 w1 w2 Hi1 Hi2 Hq.
  apply tr_reader. intros ? ->.
  eapply tr_try; [apply tr_hand_back_all; [apply select_NoDup|done|]| |].
  { intros d (h & ? & _)%select_held. by exists h. }
  { intros e w4 (Hi4 & Hm4 & _). split_and!; [done|by etrans|done]. }
  intros [] w4 (Hi4 & Hm4 & Hx4). eapply tr_then; [by apply tr_settle|]. intros settled_ w5 (Hi5 & Hm5 & _).
  apply tr_reader. intros ? ->. eapply tr_then; [by apply tr_each_release|]. intros [] w6 (Hi6 & Hm6 & Hx6).
  apply tr_ret_at. split_and!; [done|etrans; [exact Hm3|]; etrans; [exact Hm4|by etrans]|].
  intros _ _ d h6 Hd6. destruct (Hx6 d h6 Hd6) as [Hns Hd5]. split.
  - apply not_true_iff_false. intros Hf. apply Hns, elem_of_select. eauto.
  - assert (Hm46 : moves w4 w6) by (by etrans).
    destruct (mv_ready _ _ Hm46 d h6 Hd6) as (h4 & Hd4 & H46). apply H46.
    destruct (mv_ready _ _ Hm4 d h4 Hd4) as (h3 & Hd3 & H34). apply H34.
    destruct (Hx4 eq_refl d h4 Hd4) as [Hnu Hd3']. simplify_eq. apply (left_ready ended); [done|].
    apply not_true_iff_false. intros Hu. apply Hnu, elem_of_select. eauto.
Qed.

(** ** Pausing *)
Lemma tr_set_paused ls b w : good w -> tr (at_world w) (set_paused ls b) (fun _ w' => good w').
Proof.
  intros [Hi Hl]. intros w' t ->. cbn. split; [|done].
  set (w' := set_w_lanes _ w).
  assert (Hfwd : forall p l, w_lanes w !! p = Some l -> exists b, w_lanes w' !! p =
    Some (mkLane (ln_delivery l) (ln_part l) b (ln_emitted l) (ln_delivered l) (ln_mode l) (ln_cut l))).
  { intros p l Hp. cbn. rewrite map_lookup_imap, Hp. cbn. case_match; [by eexists|].
    exists (ln_paused l). by destruct l. }
  assert (Hbwd : forall p l', w_lanes w' !! p = Some l' -> exists l b, w_lanes w !! p = Some l /\
    l' = mkLane (ln_delivery l) (ln_part l) b (ln_emitted l) (ln_delivered l) (ln_mode l) (ln_cut l)).
  { intros p l' Hp. destruct (w_lanes w !! p) as [l|] eqn:Hpl.
    - destruct (Hfwd p l Hpl) as [b' Hb']. exists l, b'. split; [done|]. congruence.
    - cbn in Hp. rewrite map_lookup_imap, Hpl in Hp. done. }
  apply (inv_grows cfg w); [done| |done|done|done| |].
  - split; [|done..|].
    + intros p l Hp. destruct (Hfwd p l Hp) as [b' Hb']. eexists. split; [exact Hb'|].
      split; [split_and!; cbn; try done; lia|]. intros o Ho. by left.
    + intros p l' Hp. destruct (Hbwd p l' Hp) as (l & b' & Hpl & ->).
      destruct (inv_env cfg w Hi p l Hpl) as (_ & ? & _). cbn. lia.
  - intros p l' Hp. destruct (Hbwd p l' Hp) as (l & b' & Hpl & ->). exact (inv_env cfg w Hi p l Hpl).
  - intros rep Hrep o Ho. destruct (inv_report cfg w Hi rep Hrep o Ho) as (l & Hpl & Hc).
    destruct (Hfwd _ l Hpl) as [b' Hb']. eexists. split; [exact Hb'|done].
Qed.

(** ** Every operation *)
Lemma tr_run_op o w : good w -> allowed o w -> tr (at_world w) (run_op cfg o) (fun _ w' => good w').
Proof.
  intros Hg Ha. pose proof (gd_inv _ Hg) as Hi.
  assert (Hmv : forall A (m : M A), tr (at_world w) m (fun _ w' => inv w' /\ moves w w') ->
    tr (at_world w) m (fun _ w' => good w')).
  { intros A m Hm. eapply tr_weaken_post; [exact Hm|]. intros a w' [Hi' Hm']. by eapply good_moves. }
  assert (Hbind : forall A (m : M A), tr (at_world w) m (fun _ w' => good w') ->
    tr (at_world w) (m;;; mret tt) (fun _ w' => good w')).
  { intros A m Hm. eapply tr_then; [exact Hm|]. intros a w' Hw'. by apply tr_ret_at. }
  destruct o as [timeout|wms| | | | |ls b|]; cbn.
  - by apply Hbind, tr_poll_events.
  - by apply Hbind, Hmv, tr_commit.
  - by apply Hmv, tr_renew_held.
  - by apply Hbind, Hmv, tr_reading_on_stop.
  - apply Hbind, Hmv. eapply tr_weaken_post; [by apply tr_stop_reading|]. by intros x w' (? & ? & _).
  - intros w' t ->. cbn. apply good_field; [done|]. intros r. split; try done. cbn.
    destruct (end_ r); [apply lister_ok|done].
  - by apply tr_set_paused.
  - eapply tr_weaken_post; [by apply tr_meanwhile|]. intros _ w' [Hi' Hc].
    eapply good_moves; [done|done|by apply calm_moves].
Qed.

Lemma reachable_good fin w : reader_reachable cfg fin w -> good w.
Proof.
  intros Hr. assert (Hg : good (world_new (job_new <$> fin))).
  { split; [apply inv_world_new; by destruct fin|]. unfold load, idle_of. cbn [world_new w_reader reader_new lanes deliveries]. rewrite map_filter_empty, !map_size_empty. lia. }
  unfold reader_reachable in Hr. revert Hg Hr. generalize (world_new (job_new <$> fin)). intros w0 Hg Hr.
  induction Hr as [|w1 w2 w3 Hs _ IH]; [done|]. apply IH. destruct Hs as [o w1 t x w2 t' Ha Hrun].
  pose proof (tr_run_op o w1 Hg Ha w1 t eq_refl) as Ho. by rewrite Hrun in Ho.
Qed.

(** ** What every run has *)

(** C10: In every reachable state, a delivery the reader acknowledged was read
    out: each part it came with was read to its end on a lane of its own, with
    everything the lane emitted delivered downstream, or was dropped because
    its object was overwritten under a lane of the delivery; and for every
    overwritten key the new object's re-enqueue was confirmed by the feed, or
    the new object is empty, or the cap on re-enqueues was reached. *)
Theorem acknowledged_was_read fin w d rc a :
  reader_reachable cfg fin w -> Acknowledged d rc a ∈ w_calls w ->
  exists b, w_books w !! d = Some b /\ bk_receipt b = rc /\ read_out cfg w d b.
Proof.
  intros Hr Hin. destruct (inv_acked cfg w (gd_inv _ (reachable_good fin w Hr)) d rc a Hin)
    as (b & Hb & Hrc & Hro & _). by exists b.
Qed.

(** C16: No operation of the reader panics, from any reachable state and
    whatever the feed answers and the lanes do meanwhile, except where one of
    its two sequence numbers is used up. *)
Theorem reader_panics_only_exhausted fin w o t :
  reader_reachable cfg fin w -> allowed o w ->
  match run_op cfg o w t with Oracle.Panicked w' => exhausted w' | _ => True end.
Proof.
  intros Hr Ha. pose proof (tr_run_op o w (reachable_good fin w Hr) Ha w t eq_refl) as Ho.
  by destruct (run_op cfg o w t).
Qed.

(** The open lanes and the deliveries held with no lane open and none to
    open never exceed the number of units the reader may hold. *)
Theorem reader_capacity fin w :
  reader_reachable cfg fin w ->
  (base.size (lanes (w_reader w)) +
   base.size (filter (fun dh : Z * HeldUnit => unit_idle dh.2 = true) (deliveries (w_reader w)))
   <= units_held cfg)%nat.
Proof. intros Hr. apply (gd_load _ (reachable_good fin w Hr)). Qed.

(** C15: After a stop that hands back and succeeds, every unit the reader still
    holds was read to its end: it is not failing, has no part to open and no
    re-enqueue to wait for, and each lane it has left has ended, with no report
    of the lane unread. *)
Theorem stop_keeps_only_read fin w t w' t' d h :
  reader_reachable cfg fin w -> hands_back cfg = true ->
  stop_reading cfg w t = Ran (inr tt) w' t' -> deliveries (w_reader w') !! d = Some h ->
  h_failing h = None /\ h_pending h = [] /\ re_enqueues_settled h = true /\
  forall p, p ∈ h_lanes h -> quiet w' p.
Proof.
  intros Hr Hh Hrun Hd. pose proof (tr_stop_reading w (gd_inv _ (reachable_good fin w Hr)) w t eq_refl) as Hs.
  rewrite Hrun in Hs. destruct Hs as (_ & _ & Hs). destruct (Hs Hh eq_refl d h Hd) as [Hf Hrd].
  destruct Hrd as [Hf'|(? & ? & ?)]; [by rewrite Hf in Hf'|]. split_and!; [|done..].
  unfold is_failing in Hf. apply bool_decide_eq_false in Hf. by apply eq_None_not_Some.
Qed.

(** A settling pass that succeeds forgets no unit: each unit that is
    finished and still held after it was acknowledged during the pass, and the
    feed answered that it could not settle it yet. *)
Theorem settle_forgets_none fin w t w' t' d h :
  reader_reachable cfg fin w -> settle cfg w t = Ran (inr tt) w' t' ->
  deliveries (w_reader w') !! d = Some h -> unit_finished h = true ->
  exists rc e, kind e = Retryable /\
    Acknowledged d rc (Some e) ∈ drop (length (w_calls w)) (w_calls w').
Proof.
  intros Hr Hrun Hd Hf. pose proof (tr_settle cfg w (gd_inv _ (reachable_good fin w Hr)) w t eq_refl) as Hs.
  rewrite Hrun in Hs. destruct Hs as (_ & _ & Hs). exact (Hs eq_refl d h Hd Hf).
Qed.
End runs.

(** ** A run *)

Section play.
Context `{UnitLib} (cfg : ReaderConfig).

Definition is_covered (w : World) (wm : Z * Z) : bool :=
  from_option (fun l => bool_decide (wm.2 <= ln_delivered l)) true (w_lanes w !! wm.1).
Definition is_allowed (o : Op) (w : World) : bool :=
  match o with OpCommit wms => forallb (is_covered w) wms | _ => true end.

(** Operations with the answers each one gets, from [w]. *)
Fixpoint play (ops : list (Op * list Answer)) (w : World) : option World :=
  match ops with
  | [] => Some w
  | (o, t) :: ops =>
      if is_allowed o w then
        match run_op cfg o w t with Ran _ w' _ => play ops w' | _ => None end
      else None
  end.

Lemma is_allowed_spec o w : is_allowed o w = true -> allowed o w.
Proof.
  destruct o as [|wms| | | | | |]; cbn; try done. intros Hc. unfold covered. apply Forall_forall.
  intros [p n] Hp l Hl. rewrite forallb_forall in Hc. specialize (Hc (p, n)). unfold is_covered in Hc.
  cbn in Hc. rewrite Hl in Hc. cbn in Hc. apply (bool_decide_eq_true (n <= ln_delivered l)), Hc.
  by apply list_elem_of_In.
Qed.

Lemma play_reachable ops : forall w w', play ops w = Some w' -> rtc (reader_step cfg) w w'.
Proof.
  induction ops as [|[o t] ops IH]; intros w w'; cbn; [by intros [= ->]|].
  destruct (is_allowed o w) eqn:Ha; [|done]. destruct (run_op cfg o w t) as [x w1 t'| |] eqn:Ho; [|done..].
  intros Hp. eapply rtc_l; [|by apply IH]. eapply (reader_op cfg o); [by apply is_allowed_spec|done].
Qed.
End play.

(** A notification of two objects, the second read in ranges. *)
Definition demo_json : Json :=
  JObject [(ascii_bytes "Records", JArray
    [JObject [(ascii_bytes "eventName", JString (ascii_bytes "ObjectCreated:Put"));
       (ascii_bytes "s3", JObject [(ascii_bytes "bucket", JObject [(ascii_bytes "name", JString [98])]);
          (ascii_bytes "object", JObject [(ascii_bytes "key", JString [97]); (ascii_bytes "size", JInt 4)])])];
     JObject [(ascii_bytes "eventName", JString (ascii_bytes "ObjectCreated:Put"));
       (ascii_bytes "s3", JObject [(ascii_bytes "bucket", JObject [(ascii_bytes "name", JString [98])]);
          (ascii_bytes "object", JObject [(ascii_bytes "key", JString [99]); (ascii_bytes "size", JInt 20);
             (ascii_bytes "eTag", JString [120])])])]])].
#[local] Instance DemoUnitLib : UnitLib := {|
  path_parse := Some;
  json_from_slice := fun _ => Some demo_json;
  json_to_vec := fun _ => [];
  record_deserialize := record_by_name;
  descriptor_to_vec := fun _ => [];
  descriptor_probe := fun _ => None;
  descriptor_from_slice := fun _ => None;
  time_parse := fun l => head l;
  time_text := fun ms => Some [ms];
  sha256 := fun l => l;
  base64url := fun _ => "";
|}.
Definition demo_config : ReaderConfig :=
  mkReaderConfig 3 2 (mkScope (Some [98]) []) (mkPacking 8 CompressionAuto (Some 10)) true.

(** The second object is overwritten under its first range, so its last range
    is not opened; the re-enqueue is confirmed, and the unit acknowledged. *)
Definition demo_overwrite : Overwrite := mkOverwrite [99] (Some [121]) 30 5.
Definition demo_ops : list (Op * list Answer) :=
  [(OpPoll 0, []);
   (OpPoll 0, [Meanwhile []; Meanwhile []; FeedGave (inr [mkDelivery (mkUnit "u" []) 7 1])]);
   (OpMeanwhile, [Meanwhile [LEmit 0 3; LDeliver 0 3; LEnd 0; LEmit 1 5; LOverwrite 1 demo_overwrite; LEnd 1;
                             LDeliver 1 5; LEnd 2]]);
   (OpCommit [(0, 3); (1, 5)], [Meanwhile []; Meanwhile []; Meanwhile []; Meanwhile []; Meanwhile []]);
   (OpMeanwhile, [Meanwhile [FSettle 1 None]]);
   (OpPoll 0, [Meanwhile []; Meanwhile []; Meanwhile []; Meanwhile []; FeedSaid None])].
Definition demo_world : World := default (world_new None) (play demo_config demo_ops (world_new None)).

Lemma reader_demo_reachable : reader_reachable demo_config None demo_world.
Proof. apply (play_reachable demo_config demo_ops). vm_compute. reflexivity. Qed.

Lemma acknowledged_was_read_witness :
  exists b, w_books demo_world !! 0 = Some b /\ bk_receipt b = 7 /\ read_out demo_config demo_world 0 b.
Proof.
  apply (acknowledged_was_read demo_config ltac:(reflexivity) None demo_world 0 7 None reader_demo_reachable).
  vm_compute. right. right. left.
Defined.

Lemma reader_panics_only_exhausted_witness :
  match run_op demo_config (OpCommit [(0, 3)]) demo_world [] with
  | Oracle.Panicked w' => exhausted w'
  | _ => True
  end.
Proof.
  apply (reader_panics_only_exhausted demo_config ltac:(reflexivity) None demo_world _ [] reader_demo_reachable).
  apply is_allowed_spec. vm_compute. reflexivity.
Defined.

Lemma reader_capacity_witness :
  (base.size (lanes (w_reader demo_world)) +
   base.size (filter (fun dh : Z * HeldUnit => unit_idle dh.2 = true) (deliveries (w_reader demo_world)))
   <= units_held demo_config)%nat.
Proof. apply (reader_capacity demo_config ltac:(reflexivity) None demo_world reader_demo_reachable). Defined.

(** A stop that keeps a unit: its last lane ended with records not delivered. *)
Definition stop_ops : list (Op * list Answer) :=
  [(OpPoll 0, []);
   (OpPoll 0, [Meanwhile []; Meanwhile []; FeedGave (inr [mkDelivery (mkUnit "u" []) 7 1])]);
   (OpMeanwhile, [Meanwhile [LEmit 0 3; LDeliver 0 3; LEnd 0; LEmit 1 5; LOverwrite 1 demo_overwrite; LEnd 1;
                             LDeliver 1 5; LEmit 2 4; LEnd 2]]);
   (OpCommit [(0, 3); (1, 5)], [Meanwhile []; Meanwhile []; Meanwhile []; Meanwhile []; Meanwhile []]);
   (OpMeanwhile, [Meanwhile [FSettle 1 None]])].
Definition stop_world : World := default (world_new None) (play demo_config stop_ops (world_new None)).
Definition stop_tape : list Answer :=
  [Meanwhile []; Meanwhile []; Meanwhile []; Meanwhile []; Meanwhile []; Meanwhile []; FeedSaid None].
Definition after {A} (o : Outcome World Answer A) : World :=
  match o with Ran _ w _ => w | _ => world_new None end.
Definition stopped_world : World := after (stop_reading demo_config stop_world stop_tape).
Definition stopped_unit : HeldUnit := default (mkHeld 0 "" [] ∅ None ∅) (deliveries (w_reader stopped_world) !! 0).

Lemma stop_reachable : reader_reachable demo_config None stop_world.
Proof. apply (play_reachable demo_config stop_ops). vm_compute. reflexivity. Qed.
Lemma stop_runs : stop_reading demo_config stop_world stop_tape = Ran (inr tt) stopped_world [].
Proof. vm_compute. reflexivity. Qed.

Lemma stop_keeps_only_read_witness :
  h_failing stopped_unit = None /\ h_pending stopped_unit = [] /\ re_enqueues_settled stopped_unit = true /\
  forall p, p ∈ h_lanes stopped_unit -> quiet stopped_world p.
Proof.
  apply (stop_keeps_only_read demo_config ltac:(reflexivity) None stop_world stop_tape stopped_world [] 0);
    [exact stop_reachable|reflexivity|exact stop_runs|]. vm_compute. reflexivity.
Defined.

(** A settling pass whose acknowledgement the feed cannot take yet. *)
Definition busy_feed : FeedError := mkFeedError Retryable "busy".
Definition settle_world : World :=
  default (world_new None) (play demo_config (take 5 demo_ops) (world_new None)).
Definition settle_tape : list Answer :=
  [Meanwhile []; Meanwhile []; Meanwhile []; Meanwhile []; FeedSaid (Some busy_feed); FeedSaid None].
Definition settled_world : World := after (settle demo_config settle_world settle_tape).
Definition settled_unit : HeldUnit := default (mkHeld 0 "" [] ∅ None ∅) (deliveries (w_reader settled_world) !! 0).

Lemma settle_reachable : reader_reachable demo_config None settle_world.
Proof. apply (play_reachable demo_config (take 5 demo_ops)). vm_compute. reflexivity. Qed.
Lemma settle_runs : settle demo_config settle_world settle_tape = Ran (inr tt) settled_world [].
Proof. vm_compute. reflexivity. Qed.

Lemma settle_forgets_none_witness :
  exists rc e, kind e = Retryable /\
    Acknowledged 0 rc (Some e) ∈ drop (length (w_calls settle_world)) (w_calls settled_world).
Proof.
  apply (settle_forgets_none demo_config ltac:(reflexivity) None settle_world settle_tape settled_world [] 0
    settled_unit); [exact settle_reachable|exact settle_runs| |]; vm_compute; reflexivity.
Defined.
