(* ===== verification/S3Fetch.v ===== *)
(** * Fetching an object's bytes ([spate-s3/src/fetch.rs], [error.rs])

    A fetcher reads the member objects of a unit's part in order and sends
    their bytes to its lane in chunks: an object pinned by an ETag in windows,
    each a ranged GET conditioned on the ETag, the next window read while one is
    handed on; an object without an ETag as one stream. What the object store
    answers, whether the lane is still there, and whether the window read ahead
    has arrived are the environment's. A pause is a wait with no other effect.
    The text of a failure is a short name. *)

From stdpp Require Import base gmap strings list.
From Stdlib Require Import ZArith Lia.
From S2P Require Import Prelude EndCheck Framing S3Split S3Unit Oracle Backoff UnitReader.

(** ** Errors of the object store *)

(** The variants of [object_store::Error]. *)
Inductive StoreVariant :=
  | EGeneric | ENotFound | EInvalidPath | EJoinError | ENotSupported | EAlreadyExists
  | EPrecondition | ENotModified | ENotImplemented | EPermissionDenied | EUnauthenticated
  | EUnknownConfigurationKey.

(** An error: its variant, the messages of its chain from its own on, and
    whether [tls_rejection!] finds a TLS rejection in the chain. *)
Record StoreError := mkStoreError {
  se_variant : StoreVariant;
  se_chain : list (list Z);
  se_tls : bool;
}.

Definition starts_with (p s : list Z) : bool := bool_decide (is_Some (strip_prefix p s)).
Fixpoint contains (p s : list Z) : bool :=
  starts_with p s || match s with [] => false | _ :: s => contains p s end.

Definition STATUS : list Z := ascii_bytes "Server returned non-2xx status code: ".

(** [list_rejected]: the second and the fourth message of the chain. *)
Definition list_rejected (e : StoreError) : bool :=
  match se_variant e, se_chain e !! 1%nat, se_chain e !! 3%nat with
  | EGeneric, Some source, Some status =>
      starts_with (ascii_bytes "Error performing list request: ") source &&
      match strip_prefix STATUS status with
      | Some code => starts_with (ascii_bytes "401 ") code || starts_with (ascii_bytes "403 ") code
      | None => false
      end
  | _, _, _ => false
  end.

(** [delete_rejected]. *)
Definition delete_rejected (e : StoreError) : bool :=
  match se_variant e, se_chain e !! 1%nat with
  | EGeneric, Some text =>
      starts_with (ascii_bytes "DeleteObjects request failed for key ") text &&
      ends_with (ascii_bytes "(code: AccessDenied)") text
  | _, _ => false
  end.

(** [classify]. *)
Definition classify (e : StoreError) : ErrorClass :=
  if list_rejected e || delete_rejected e || se_tls e then ClassFatal
  else match se_variant e with
       | ENotFound | EPrecondition | ENotModified | EAlreadyExists | EInvalidPath | ENotSupported
       | ENotImplemented | EPermissionDenied | EUnauthenticated | EUnknownConfigurationKey => ClassFatal
       | EGeneric | EJoinError => ClassRetryable
       end.

(** [is_pipeline_fatal]. *)
Definition is_pipeline_fatal (e : StoreError) : bool :=
  se_tls e ||
  match se_variant e with
  | EInvalidPath | ENotSupported | ENotImplemented | EPermissionDenied | EUnauthenticated
  | EUnknownConfigurationKey => true
  | _ => false
  end.

(** [range_not_satisfiable] and [is_overwrite]. *)
Definition range_not_satisfiable (e : StoreError) : bool :=
  existsb (contains (STATUS ++ ascii_bytes "416 ")) (se_chain e).
Definition is_overwrite (e : StoreError) (origin : Origin) : bool :=
  (match se_variant e with EPrecondition => true | _ => false end || range_not_satisfiable e) &&
  match origin with Notification None _ => true | _ => false end.

(** [poison_kind]. *)
Definition poison_kind (e : StoreError) : PoisonKind :=
  match se_variant e with
  | ENotFound => NotFound
  | EPrecondition | ENotModified | EAlreadyExists => EtagDrift
  | _ => Undecodable
  end.

(** ** The fetcher *)

(** How a read fails. *)
Inductive SplitFailure :=
  | SPoison (kind : PoisonKind) (reason : string)
  | SFatal (class : ErrorClass) (reason : string)
  | SOverwritten (o : Overwrite).

Inductive ChunkMsg :=
  | ObjectStart (ordinal : Z) (key : list Z) (last_modified_ms : Z)
  | Chunk (bytes : list Z)
  | ObjectEnd
  | LaneFailed (f : SplitFailure).

Definition Window : Type := SplitFailure + list Z.

Record WindowRead := mkWindowRead {
  wr_entry : ObjectEntry;
  wr_etag : list Z;
  wr_start : Z;
  wr_end : Z;
}.

Inductive Ahead := Reading (r : WindowRead) | ReadIn (w : Window).

(** What a HEAD answers. *)
Record ObjectMeta := mkMeta {
  mt_etag : option (list Z);
  mt_size : Z;
  mt_last_modified_ms : Z;
}.

(** A request to the store. *)
Inductive StoreCall :=
  | CGet (key etag : list Z) (start stop : Z) (version : option (list Z))
  | CHead (key : list Z)
  | COpen (key : list Z) (version : option (list Z)).

(** The messages sent, the window read ahead, the requests made, the waits
    between attempts, and whether the lane was found gone. *)
Record Fetch := mkFetch {
  ft_sent : list ChunkMsg;
  ft_ahead : option Ahead;
  ft_calls : list StoreCall;
  ft_waits : list Z;
  ft_gone : bool;
}.

Definition fetch_new : Fetch := mkFetch [] None [] [] false.
Definition set_ahead (a : option Ahead) (w : Fetch) : Fetch :=
  mkFetch (ft_sent w) a (ft_calls w) (ft_waits w) (ft_gone w).
Definition add_sent (m : ChunkMsg) (w : Fetch) : Fetch :=
  mkFetch (ft_sent w ++ [m]) (ft_ahead w) (ft_calls w) (ft_waits w) (ft_gone w).
Definition add_request (c : StoreCall) (w : Fetch) : Fetch :=
  mkFetch (ft_sent w) (ft_ahead w) (ft_calls w ++ [c]) (ft_waits w) (ft_gone w).
Definition add_wait (d : Z) (w : Fetch) : Fetch :=
  mkFetch (ft_sent w) (ft_ahead w) (ft_calls w) (ft_waits w ++ [d]) (ft_gone w).
Definition set_gone (w : Fetch) : Fetch :=
  mkFetch (ft_sent w) (ft_ahead w) (ft_calls w) (ft_waits w) true.

Inductive FetchAnswer :=
  | AGet (r : StoreError + list Z)
  | AHead (r : StoreError + ObjectMeta)
  | AOpen (r : option StoreError)
  | ANext (r : option (StoreError + list Z))
  | ASend (ok : bool)
  | APause (ok : bool)
  | AReady (b : bool).

Notation F := (Prog Fetch FetchAnswer).

Definition MAX_ATTEMPTS : Z := 8.
Definition RETRY_BASE : Z := 200 * 10 ^ 6.
Definition BACKOFF_CAP : Z := 5 * 10 ^ 9.

Record ReadBudget := mkBudget {
  attempt : Z;
  backoff : Backoff;
}.

Definition retry_backoff (base : Z) : Backoff := backoff_new base BACKOFF_CAP.
Definition budget_new (retry_base : Z) : ReadBudget := mkBudget 0 (retry_backoff retry_base).

(** [version_of]. *)
Definition version_of (origin : Origin) : option (list Z) :=
  match origin with Notification version _ => version | Lister => None end.

(** [fatal_or_poison]. *)
Definition fatal_or_poison (e : StoreError) (kind : PoisonKind) (reason : string) : SplitFailure :=
  if is_pipeline_fatal e then SFatal ClassFatal reason else SPoison kind reason.

(** [retry_or_fail]. *)
Definition retry_or_fail (e : StoreError) (b : ReadBudget) : F (SplitFailure + ReadBudget) :=
  if bool_decide (classify e <> ClassRetryable)
  then mret (inl (fatal_or_poison e (poison_kind e) "reading failed"))
  else
    let n := wrap_u32 (attempt b + 1) in
    if bool_decide (MAX_ATTEMPTS <= n) then mret (inl (SPoison RetriesExhausted "still failing"))
    else
      match next_delay (backoff b) with
      | None => panic
      | Some (delay, bo) => modify (add_wait delay);;; mret (inr (mkBudget n bo))
      end.

(** [pause_gate] and [gated_send]: [false] is the lane gone. *)
Definition pause_gate : F bool :=
  ok ← ask (fun a => match a with APause ok => Some ok | _ => None end);
  when (negb ok) (modify set_gone);;;
  mret ok.
Definition send (m : ChunkMsg) : F bool :=
  ok ← ask (fun a => match a with ASend ok => Some ok | _ => None end);
  modify (if ok : bool then add_sent m else set_gone);;;
  mret ok.
Definition gated_send (m : ChunkMsg) : F bool :=
  ok ← pause_gate;
  if ok : bool then send m else mret false.

Record FetcherParams := mkFetcherParams {
  slice : list ObjectEntry;
  start_ordinal : Z;
  resume_etag : option (list Z);
  chunk_bytes : Z;
  range_bytes : Z;
  retry_base : Z;
  fp_range : option SplitRange;
  fp_origin : Origin;
}.

(** The store: the content an ETag of a key names. *)
Class ObjectStore := {
  content : list Z -> list Z -> list Z;
}.

Section fetcher.
Context `{UnitLib} `{ObjectStore} (P : FetcherParams).

(** A ranged GET pinned to an ETag is answered with an error, or with bytes
    from the start of the range of the content the ETag names. *)
Definition get_pinned (r : WindowRead) : F (StoreError + list Z) :=
  let key := e_key (wr_entry r) in
  modify (add_request (CGet key (wr_etag r) (wr_start r) (wr_end r) (version_of (fp_origin P))));;;
  ask (fun a => match a with
                | AGet (inr b) =>
                    if bool_decide (b = take (length b) (sub_bytes (content key (wr_etag r)) (wr_start r) (wr_end r)))
                    then Some (inr b) else None
                | AGet (inl e) => Some (inl e)
                | _ => None
                end).

(** [head_after_overwrite]. *)
Definition head_round (entry : ObjectEntry) (pinned : list Z) (b : ReadBudget)
    : F (ReadBudget + SplitFailure) :=
  modify (add_request (CHead (e_key entry)));;;
  r ← ask (fun a => match a with AHead r => Some r | _ => None end);
  match r with
  | inr meta =>
      let etag := quoted <$> mt_etag meta in
      if bool_decide (etag = Some pinned) then mret (inr (SPoison EtagDrift "the ETag is unchanged"))
      else mret (inr (SOverwritten (mkOverwrite (e_key entry) etag (mt_size meta) (mt_last_modified_ms meta))))
  | inl e =>
      x ← retry_or_fail e b;
      match x with inl f => mret (inr f) | inr b => mret (inl b) end
  end.
Definition head_after_overwrite (entry : ObjectEntry) (pinned : list Z) : F SplitFailure :=
  loop_from (head_round entry pinned) (budget_new (retry_base P)).

(** [WindowRead::fetch]. *)
Definition fetch_round (r : WindowRead) (b : ReadBudget) : F (ReadBudget + Window) :=
  got ← get_pinned r;
  match got with
  | inr bytes =>
      if bool_decide (bytes = []) then mret (inr (inl (SPoison Undecodable "no bytes")))
      else mret (inr (inr bytes))
  | inl e =>
      if is_overwrite e (fp_origin P)
      then f ← head_after_overwrite (wr_entry r) (wr_etag r); mret (inr (inl f))
      else
        x ← retry_or_fail e b;
        match x with inl f => mret (inr (inl f)) | inr b => mret (inl b) end
  end.
Definition fetch (r : WindowRead) : F Window := loop_from (fetch_round r) (budget_new (retry_base P)).

(** [ReadAhead]: [start], [alongside] and [take]. The read's requests are made
    when it has arrived. *)
Definition ahead_start (r : WindowRead) : F unit := modify (set_ahead (Some (Reading r))).
Definition alongside {A} (work : F A) : F A :=
  w ← get;
  match ft_ahead w with
  | Some (Reading r) =>
      ready ← ask (fun a => match a with AReady b => Some b | _ => None end);
      when ready (win ← fetch r; modify (set_ahead (Some (ReadIn win))));;;
      work
  | _ => work
  end.
Definition ahead_take : F (option Window) :=
  w ← get;
  modify (set_ahead None);;;
  match ft_ahead w with
  | None => mret None
  | Some (Reading r) => win ← fetch r; mret (Some win)
  | Some (ReadIn win) => mret (Some win)
  end.

(** [object_path]. *)
Definition object_path (entry : ObjectEntry) : option SplitFailure :=
  if addressable (e_key entry) then None else Some (SPoison NotFound "not an object key").

(** The chunks of [bytes], one send each; [false] is the lane gone. *)
Definition chunk_round (go : ChunkMsg -> F bool) (bytes : list Z) : F (list Z + bool) :=
  if bool_decide (bytes = []) then mret (inr true)
  else
    let n := Z.to_nat (Z.min (Z.of_nat (length bytes)) (chunk_bytes P)) in
    ok ← go (Chunk (take n bytes));
    if ok : bool then mret (inl (drop n bytes)) else mret (inr false).
Definition send_chunks (go : ChunkMsg -> F bool) (bytes : list Z) : F bool :=
  loop_from (chunk_round go) bytes.

(** [stream_object_ranged]: the end of the window at [at_], the windows, the
    loop. *)
Definition window_size : Z := Z.max (range_bytes P) 1.
Definition window_end (entry : ObjectEntry) (trim : option RangeTrim) (at_ : Z) : option Z :=
  match trim with
  | Some t => next_window t at_ window_size (chunk_bytes P)
  | None => if bool_decide (at_ < e_size entry) then Some (Z.min (sat_add_u64 at_ window_size) (e_size entry))
            else None
  end.
Definition trim_window (trim : option RangeTrim) (delivered : Z) (buffered : list Z)
    : option RangeTrim * list Z :=
  match trim with
  | Some t => let '(t, owned) := feed t delivered buffered in (Some t, owned)
  | None => (None, buffered)
  end.
Definition ranged_round (entry : ObjectEntry) (etag : list Z)
    (s : Z * list Z * option RangeTrim * option WindowRead)
    : F ((Z * list Z * option RangeTrim * option WindowRead) + (SplitFailure + bool)) :=
  let '(delivered, buffered, trim, next) := s in
  let '(trim, bytes) := trim_window trim delivered buffered in
  let following := wrap_u64 (delivered + Z.of_nat (length buffered)) in
  let own_next := window_end entry trim following in
  ok ← pause_gate;
  if negb ok then mret (inr (inr false))
  else
    next ← (match own_next with
            | Some stop => ahead_start (mkWindowRead entry etag following stop);;; mret next
            | None => match next with
                      | Some r => ahead_start r;;; mret None
                      | None => mret None
                      end
            end);
    ok ← send_chunks (fun m => alongside (gated_send m)) bytes;
    if negb ok then mret (inr (inr false))
    else
      match own_next with
      | None => mret (inr (inr true))
      | Some _ =>
          window ← ahead_take;
          match window with
          | None => panic
          | Some (inl f) => mret (inr (inl f))
          | Some (inr buffered) => mret (inl (following, buffered, trim, next))
          end
      end.
Definition stream_object_ranged (entry : ObjectEntry) (etag : list Z) (trim : option RangeTrim)
    (next : option WindowRead) : F (SplitFailure + bool) :=
  match object_path entry with
  | Some f => mret (inl f)
  | None =>
      let delivered := from_option first_byte 0 trim in
      ahead ← ahead_take;
      first ← (match ahead with
               | Some win => mret (Some win)
               | None => match window_end entry trim delivered with
                         | Some stop => win ← fetch (mkWindowRead entry etag delivered stop); mret (Some win)
                         | None => mret None
                         end
               end);
      match first with
      | None => mret (inr true)
      | Some (inl f) => mret (inl f)
      | Some (inr buffered) =>
          loop_from (ranged_round entry etag) (delivered, buffered, trim, next)
      end
  end.

(** [stream_object_streaming]: one body, and the attempts to open one. *)
Definition body_round (delivered : Z) : F (Z + (SplitFailure + (bool + (StoreError * Z)))) :=
  r ← ask (fun a => match a with ANext r => Some r | _ => None end);
  match r with
  | None => mret (inr (inr (inl true)))
  | Some (inr bytes) =>
      ok ← send_chunks gated_send bytes;
      if ok : bool then mret (inl (wrap_u64 (delivered + Z.of_nat (length bytes))))
      else mret (inr (inr (inl false)))
  | Some (inl e) =>
      if bool_decide (0 < delivered)
      then mret (inr (inl (fatal_or_poison e Undecodable "failed mid-object")))
      else mret (inr (inr (inr (e, delivered))))
  end.
Definition streaming_round (entry : ObjectEntry) (s : Z * ReadBudget)
    : F ((Z * ReadBudget) + (SplitFailure + bool)) :=
  let '(delivered, b) := s in
  modify (add_request (COpen (e_key entry) (version_of (fp_origin P))));;;
  opened ← ask (fun a => match a with AOpen r => Some r | _ => None end);
  outcome ← (match opened with
             | Some e => mret (inr (inr (e, delivered)))
             | None => loop_from body_round delivered
             end);
  match outcome with
  | inl f => mret (inr (inl f))
  | inr (inl ok) => mret (inr (inr ok))
  | inr (inr (e, delivered)) =>
      x ← retry_or_fail e b;
      match x with inl f => mret (inr (inl f)) | inr b => mret (inl (delivered, b)) end
  end.
Definition stream_object_streaming (entry : ObjectEntry) : F (SplitFailure + bool) :=
  match object_path entry with
  | Some f => mret (inl f)
  | None => loop_from (streaming_round entry) (0, budget_new (retry_base P))
  end.

(** [stream_object]. *)
Definition stream_object (entry : ObjectEntry) (pinned : option (list Z)) (next : option WindowRead)
    : F (SplitFailure + bool) :=
  if bool_decide (e_size entry = 0) && bool_decide (fp_range P = None) then mret (inr true)
  else
    match pinned, fp_range P with
    | Some etag, range => stream_object_ranged entry etag ((fun r => trim_new r (e_size entry)) <$> range) next
    | None, Some _ => mret (inl (SFatal ClassFatal "no ETag pin"))
    | None, None => stream_object_streaming entry
    end.

(** [run_fetcher]: the window to read ahead after member [i], and a member. *)
Definition next_in (members : list ObjectEntry) : option WindowRead :=
  '(_, later) ← list_find (fun e => 0 < e_size e) members;
  etag ← e_etag later;
  if object_path later then None
  else Some (mkWindowRead later etag 0 (Z.min (Z.max (range_bytes P) 1) (e_size later))).
Definition next_read (ordinal : Z) : option WindowRead :=
  match fp_range P with
  | Some _ => None
  | None => next_in (drop (Z.to_nat (ordinal + 1)) (slice P))
  end.
Definition pinned_etag (ordinal : Z) (entry : ObjectEntry) : option (list Z) :=
  if bool_decide (ordinal = start_ordinal P) && bool_decide (is_Some (resume_etag P))
  then resume_etag P else e_etag entry.
Definition fetch_member (i : nat) (entry : ObjectEntry) : F bool :=
  let ordinal := wrap_u32 (Z.of_nat i) in
  ok ← alongside (gated_send (ObjectStart ordinal (e_key entry) (e_last_modified_ms entry)));
  if negb ok then mret false
  else
    r ← stream_object entry (pinned_etag ordinal entry) (next_read ordinal);
    match r with
    | inl f => send (LaneFailed f);;; mret false
    | inr false => mret false
    | inr true => alongside (send ObjectEnd)
    end.
Fixpoint fetch_members (i : nat) (entries : list ObjectEntry) : F unit :=
  match entries with
  | [] => mret tt
  | e :: es =>
      ok ← fetch_member i e;
      if ok : bool then fetch_members (S i) es else mret tt
  end.
Definition run_fetcher : F unit :=
  let n := Z.to_nat (start_ordinal P) in fetch_members n (drop n (slice P)).
End fetcher.
