(* ===== verification/S3FetchProofs.v ===== *)
(** * What a fetcher sends ([spate-s3/src/fetch.rs])

    The messages a fetcher sends are whole member objects in order, each an
    [ObjectStart], the object's bytes in chunks of at most [chunk_bytes] and an
    [ObjectEnd], then at most one object begun and not ended. An object pinned
    by an ETag is sent as the content the ETag names, or the part of it the
    unit's byte range owns; one begun and not ended is a prefix of that. The
    messages stop early only when the lane is gone or a failure is sent. *)

From stdpp Require Import base gmap strings list.
From Stdlib Require Import ZArith Lia.
From S2P Require Import Prelude EndCheck Framing S3Split S3Unit S3UnitProofs Oracle Backoff UnitReader S3Fetch.

Notation tr := (upto (fun _ : Fetch => False)).

Section fetch_proofs.
Context `{UnitLib} `{ObjectStore} (P : FetcherParams).
Hypothesis Hbase : 0 <= retry_base P.
Hypothesis Hchunk : 0 < chunk_bytes P.

(** ** The state between sends *)

(** A failure names the member it is about where it reports an overwrite, and
    only a notification that names no version reports one. *)
Definition fail_ok (e : ObjectEntry) (f : SplitFailure) : Prop :=
  match f with
  | SOverwritten o => o_key o = e_key e /\ exists b, fp_origin P = Notification None b
  | _ => True
  end.

(** A window's outcome: bytes from its start, or a failure. *)
Definition win_ok (r : WindowRead) (win : Window) : Prop :=
  match win with
  | inl f => fail_ok (wr_entry r) f
  | inr b => b <> [] /\
      b = take (length b) (sub_bytes (content (e_key (wr_entry r)) (wr_etag r)) (wr_start r) (wr_end r))
  end.

(** The read ahead is of the window [o]. *)
Definition ahead_ok (o : option WindowRead) (a : option Ahead) : Prop :=
  match o, a with
  | None, None => True
  | Some r, Some (Reading r') => r' = r
  | Some r, Some (ReadIn win) => win_ok r win
  | _, _ => False
  end.

Definition waits_ok (w : Fetch) : Prop := Forall (fun d => 0 <= d <= BACKOFF_CAP) (ft_waits w).

(** [ms] is sent and the window [o] is read ahead, the lane being there; or
    [ms] is sent and the lane is gone. *)
Record st (o : option WindowRead) (ms : list ChunkMsg) (w : Fetch) : Prop := {
  st_sent : ft_sent w = ms;
  st_ahead : ahead_ok o (ft_ahead w);
  st_there : ft_gone w = false;
  st_waits : waits_ok w;
}.
Record lost (ms : list ChunkMsg) (w : Fetch) : Prop := {
  ls_sent : ft_sent w = ms;
  ls_gone : ft_gone w = true;
  ls_waits : waits_ok w;
}.

(** ** Reading a window *)

Definition budget_ok (b : ReadBudget) : Prop := backoff_ok (retry_base P) BACKOFF_CAP (backoff b).

Lemma budget_new_ok : budget_ok (budget_new (retry_base P)).
Proof. apply backoff_new_ok; [done|]. unfold BACKOFF_CAP. lia. Qed.

Lemma tr_retry_or_fail o ms e b entry :
  budget_ok b ->
  tr (st o ms) (retry_or_fail e b)
    (fun r w => st o ms w /\ match r with inl f => fail_ok entry f | inr b => budget_ok b end).
Proof.
  intros Hb. unfold retry_or_fail. case_bool_decide.
  { apply upto_ret. intros w Hw. split; [done|]. unfold fatal_or_poison. by case_match. }
  case_bool_decide; [by apply upto_ret|].
  destruct (next_delay_ok _ _ _ Hb) as (d & bo & -> & Hd & Hbo).
  eapply upto_bind; [apply (upto_modify _ _ _ (fun _ => st o ms))|].
  - intros w [? ? ? Hw]. constructor; [done..|]. apply Forall_app. split; [done|].
    constructor; [|done]. pose proof (bo_current _ _ _ Hb). lia.
  - intros []. by apply upto_ret.
Qed.

Lemma tr_request {A} o ms c (k : F A) R :
  tr (st o ms) k R -> tr (st o ms) (modify (add_request c);;; k) R.
Proof.
  intros Hk. eapply upto_bind; [apply (upto_modify _ _ _ (fun _ => st o ms))|by intros []].
  intros w [? ? ? ?]. by constructor.
Qed.

(** Another attempt, or the failure. *)
Lemma tr_again {A} o ms e b entry (g : SplitFailure -> A) R :
  budget_ok b -> (forall f w, fail_ok entry f -> st o ms w -> R (inr (g f)) w) ->
  (forall b w, budget_ok b -> st o ms w -> R (inl b) w) ->
  tr (st o ms) (x ← retry_or_fail e b;
                match x with inl f => mret (inr (g f)) | inr b => mret (inl b) end) R.
Proof.
  intros Hb Hf Hn. eapply upto_bind; [by apply (tr_retry_or_fail _ _ _ _ entry)|].
  intros [f|b']; apply upto_ret; intros w [Hw Hx]; [by apply Hf|by apply Hn].
Qed.

Lemma tr_head o ms entry pinned :
  (exists b, fp_origin P = Notification None b) ->
  tr (st o ms) (head_after_overwrite P entry pinned) (fun f w => st o ms w /\ fail_ok entry f).
Proof.
  intros Ho. unfold head_after_overwrite.
  eapply upto_weaken; [apply (upto_loop_from _ (fun b w => budget_ok b /\ st o ms w))| |intros a w Hr; exact Hr].
  2: { intros w Hw. split; [apply budget_new_ok|exact Hw]. }
  intros b. apply upto_pure. intros Hb. apply tr_request.
  eapply upto_bind; [by apply (upto_ask _ _ _ (fun _ => st o ms))|].
  intros [e|meta]; [|cbv zeta; case_bool_decide; by apply upto_ret].
  by apply (tr_again _ _ _ _ entry (fun f => f)).
Qed.

Lemma tr_fetch o ms r : tr (st o ms) (fetch P r) (fun win w => st o ms w /\ win_ok r win).
Proof.
  unfold fetch.
  eapply upto_weaken; [apply (upto_loop_from _ (fun b w => budget_ok b /\ st o ms w))| |intros a w Hr; exact Hr].
  2: { intros w Hw. split; [apply budget_new_ok|exact Hw]. }
  intros b. apply upto_pure. intros Hb. unfold fetch_round, get_pinned.
  eapply (upto_bind _ _ _ _ (fun got w => st o ms w /\ forall b, got = inr b ->
    b = take (length b) (sub_bytes (content (e_key (wr_entry r)) (wr_etag r)) (wr_start r) (wr_end r)))).
  { apply tr_request, upto_ask. intros q a w Hq Hw. split; [done|]. intros x ->.
    repeat case_match; simplify_eq. by case_bool_decide. }
  intros [e|bytes].
  - apply (upto_weaken _ (st o ms) _ _ _ _) with (2 := fun w Hw => proj1 Hw) (3 := fun _ _ Hr => Hr).
    destruct (is_overwrite e (fp_origin P)) eqn:Ho; [|by apply (tr_again _ _ _ _ (wr_entry r))].
    eapply upto_bind; [apply tr_head|].
    + unfold is_overwrite in Ho. destruct (fp_origin P) as [|[v|] b']; [by destruct (_ || _)..|]. eauto.
    + intros f. by apply upto_ret.
  - case_bool_decide as Hbytes; apply upto_ret; intros w [Hw Hp]; [done|]. split; [done|]. split; auto.
Qed.

(** ** The window read ahead *)
Lemma tr_ahead_start r ms :
  tr (st None ms) (ahead_start r) (fun _ => st (Some r) ms).
Proof. apply upto_modify. intros w [? ? ? ?]. by constructor. Qed.

Lemma tr_alongside {A} o ms (work : F A) R :
  tr (st o ms) work R -> tr (st o ms) (alongside P work) R.
Proof.
  intros Hk. apply upto_get. intros w Hw.
  assert (Hat : tr (at_world w) work R) by (eapply upto_weaken; [exact Hk|by intros ? ->|done]).
  destruct (ft_ahead w) as [[r|win]|] eqn:Ha; [|exact Hat..].
  pose proof (st_ahead _ _ _ Hw) as Ho. rewrite Ha in Ho. destruct o as [r'|]; [|done]. cbn in Ho. subst r'.
  eapply upto_weaken with (P := st (Some r) ms); [|by intros ? ->|done].
  eapply upto_bind; [by apply (upto_ask _ _ _ (fun _ => st (Some r) ms))|].
  intros ready. eapply (upto_bind _ _ _ _ (fun _ => st (Some r) ms)); [|by intros []].
  destruct ready; [|by apply upto_ret]. cbn [when].
  eapply upto_bind; [apply tr_fetch|]. intros win. apply upto_modify.
  intros w' [[? ? ? ?] Hwin]. by constructor.
Qed.

Lemma tr_ahead_take o ms :
  tr (st o ms) (ahead_take P)
    (fun a w => st None ms w /\ match o, a with
                               | None, None => True
                               | Some r, Some win => win_ok r win
                               | _, _ => False
                               end).
Proof.
  apply upto_get. intros w Hw. pose proof (st_ahead _ _ _ Hw) as Ho.
  eapply (upto_bind _ _ _ _ (fun _ => st None ms)).
  { apply upto_modify. intros w' ->. by destruct Hw. }
  intros []. destruct o as [r|], (ft_ahead w) as [[r'|win]|]; try done; cbn in Ho; subst;
    try by apply upto_ret.
  eapply upto_bind; [apply tr_fetch|]. intros win. by apply upto_ret.
Qed.

(** ** Sending *)

(** What follows a send: the message is sent, or the lane is gone. *)
Definition sent_or_lost (o : option WindowRead) (ms : list ChunkMsg) (m : ChunkMsg) (ok : bool) (w : Fetch) : Prop :=
  if ok then st o (ms ++ [m]) w else lost ms w.

Lemma tr_pause_gate o ms :
  tr (st o ms) pause_gate (fun ok w => if ok then st o ms w else lost ms w).
Proof.
  unfold pause_gate. eapply upto_bind; [by apply (upto_ask _ _ _ (fun _ => st o ms))|]. intros ok.
  eapply (upto_bind _ _ _ _ (fun _ w => if ok then st o ms w else lost ms w)).
  - destruct ok; [by apply upto_ret|]. apply upto_modify. intros w [? ? ? ?]. by constructor.
  - intros []. by apply upto_ret.
Qed.

Lemma tr_send o ms m : tr (st o ms) (send m) (sent_or_lost o ms m).
Proof.
  unfold send. eapply upto_bind; [by apply (upto_ask _ _ _ (fun _ => st o ms))|]. intros ok.
  eapply (upto_bind _ _ _ _ (fun _ => sent_or_lost o ms m ok)).
  - destruct ok; apply upto_modify; intros w [? ? ? ?]; (constructor; cbn; [congruence|done..]).
  - intros []. by apply upto_ret.
Qed.

Lemma tr_gated_send o ms m : tr (st o ms) (gated_send m) (sent_or_lost o ms m).
Proof.
  unfold gated_send. eapply upto_bind; [apply tr_pause_gate|].
  intros []; [apply tr_send|by apply upto_ret].
Qed.

(** Chunks no larger than [chunk_bytes], none empty. *)
Definition chunks (cs : list (list Z)) : Prop :=
  Forall (fun c => 0 < Z.of_nat (length c) <= chunk_bytes P) cs.

Lemma tr_send_chunks o ms go bytes :
  (forall ms m, tr (st o ms) (go m) (sent_or_lost o ms m)) ->
  tr (st o ms) (send_chunks P go bytes)
    (fun ok w => exists cs, chunks cs /\
       if ok : bool then concat cs = bytes /\ st o (ms ++ (Chunk <$> cs)) w
       else concat cs `prefix_of` bytes /\ lost (ms ++ (Chunk <$> cs)) w).
Proof.
  intros Hgo. unfold send_chunks.
  eapply upto_weaken; [apply (upto_loop_from _ (fun left w => exists cs, (chunks cs /\ concat cs ++ left = bytes) /\
    st o (ms ++ (Chunk <$> cs)) w))| |intros a w Hr; exact Hr].
  2: { intros w Hw. exists []. rewrite app_nil_r. split_and!; [constructor|done|done]. }
  intros left. apply upto_ex. intros cs. apply upto_pure. intros [Hcs Hb]. unfold chunk_round.
  case_bool_decide as Hl.
  { subst left. rewrite app_nil_r in Hb. apply upto_ret. intros w Hw. eauto. }
  set (n := Z.to_nat _). assert (Hn : chunks (cs ++ [take n left])).
  { apply Forall_app. split; [done|]. constructor; [|done]. rewrite length_take.
    destruct left as [|z left]; [done|]. cbn [length] in *. lia. }
  eapply upto_bind; [apply Hgo|]. intros [].
  - apply upto_ret. intros w Hw. exists (cs ++ [take n left]). split_and!; [done| |].
    + by rewrite concat_app, <- app_assoc; cbn; rewrite app_nil_r, take_drop.
    + by rewrite fmap_app, app_assoc.
  - apply upto_ret. intros w Hw. exists cs. split_and!; [done| |done]. rewrite <- Hb. by apply prefix_app_r.
Qed.

(** How the read of an object ends, its bytes being [exp] where they are
    known: whole with [next] read ahead, or part of it sent. *)
Definition reads (exp : option (list Z)) (cs : list (list Z)) : Prop :=
  match exp with Some o => concat cs = o | None => True end.
Definition begins (exp : option (list Z)) (cs : list (list Z)) : Prop :=
  match exp with Some o => concat cs `prefix_of` o | None => True end.
Definition object_end (e : ObjectEntry) (exp : option (list Z)) (next : option WindowRead) (ms : list ChunkMsg)
    (r : SplitFailure + bool) (w : Fetch) : Prop :=
  match r with
  | inl f => fail_ok e f /\ exists cs o, chunks cs /\ begins exp cs /\ st o (ms ++ (Chunk <$> cs)) w
  | inr true => exists cs, chunks cs /\ reads exp cs /\ st next (ms ++ (Chunk <$> cs)) w
  | inr false => exists cs, chunks cs /\ begins exp cs /\ lost (ms ++ (Chunk <$> cs)) w
  end.

(** ** Reading a pinned object *)

Section object.
Context (e : ObjectEntry) (etag : list Z).
Notation obj := (content (e_key e) etag).
Notation size := (Z.of_nat (length obj)).
Hypothesis Hsize : e_size e = size.
Hypothesis Hwidth : size <= U64_MAX.
Hypothesis Hrange : forall r, fp_range P = Some r -> 0 <= sr_start r < sr_end r /\ sr_end r <= size.

(** The bytes of the object that are the unit's. *)
Definition owned : list Z :=
  match fp_range P with
  | None => obj
  | Some r => sub_bytes obj (cut obj (sr_delimiter r) (sr_start r)) (cut obj (sr_delimiter r) (sr_end r))
  end.

(** The bytes before [pos] are read, and [out] of them handed on. *)
Definition at_pos (trim : option RangeTrim) (pos : Z) (out : list Z) : Prop :=
  0 <= pos <= size /\
  match trim, fp_range P with
  | None, None => out = sub_bytes obj 0 pos
  | Some t, Some r => exists ph,
      t = the_trim obj (sr_delimiter r) (sr_start r) (sr_end r) ph /\
      trim_at obj (sr_delimiter r) (sr_start r) (sr_end r) ph pos out
  | _, _ => False
  end.

Lemma sub_bytes_take b pos wend :
  0 <= pos <= wend -> wend <= size -> b = take (length b) (sub_bytes obj pos wend) ->
  b = sub_bytes obj pos (pos + Z.of_nat (length b)) /\ pos + Z.of_nat (length b) <= wend.
Proof.
  intros Hp Hw Hb. assert (Hl : (length b <= length (sub_bytes obj pos wend))%nat).
  { rewrite Hb, length_take at 1. lia. }
  rewrite sub_bytes_length in Hl by lia. split; [|lia]. rewrite Hb at 1.
  unfold sub_bytes. rewrite take_take. f_equal. lia.
Qed.

Lemma window_end_some trim pos out wend :
  at_pos trim pos out -> window_end P e trim pos = Some wend -> pos < wend <= size.
Proof.
  intros [Hp Ht] Hw. unfold window_end in Hw. destruct trim as [t|].
  - destruct (fp_range P) as [r|] eqn:Hr; [|done]. destruct (Hrange r eq_refl) as [Hr1 Hr2].
    destruct Ht as (ph & -> & _). pose proof Hw as Hw'. unfold next_window in Hw'. cbn [the_trim rt_phase rt_size] in Hw'.
    destruct (bool_decide (ph = Done)) eqn:Hd; [done|]. destruct (bool_decide (size <= pos)) eqn:Hs; [done|].
    apply bool_decide_eq_false in Hd, Hs.
    destruct (next_window_spec obj (sr_delimiter r) (sr_start r) (sr_end r) Hr2 Hwidth ph pos
                (window_size P) (chunk_bytes P)) as (w & Hw2 & ?); [lia|done|lia|]. congruence.
  - rewrite Hsize in Hw. case_bool_decide; [|done]. injection Hw as <-. unfold window_size. unfold_int. lia.
Qed.

Lemma window_end_none trim pos out :
  at_pos trim pos out -> window_end P e trim pos = None -> out = owned.
Proof.
  unfold owned. intros [Hp Ht] Hw. unfold window_end in Hw. destruct trim as [t|].
  - destruct (fp_range P) as [r|] eqn:Hr; [|done]. destruct (Hrange r eq_refl) as [Hr1 Hr2].
    destruct Ht as (ph & -> & Ht). unfold next_window in Hw. cbn [the_trim rt_phase rt_size] in Hw.
    destruct (bool_decide (ph = Done)) eqn:Hd; [apply bool_decide_eq_true in Hd as ->; by cbn in Ht|].
    destruct (bool_decide (size <= pos)) eqn:Hs; [|done]. apply bool_decide_eq_true in Hs.
    destruct ph; cbn in Ht; [lia| |done]. destruct Ht as (HS & Hpos & Hno & ->).
    assert (pos = size) as -> by lia. by rewrite (cut_none obj _ (sr_end r)) by (done || lia).
  - destruct (fp_range P); [done|]. rewrite Hsize in Hw. case_bool_decide; [done|].
    assert (pos = size) as -> by lia. by rewrite Ht, sub_bytes_all.
Qed.

Lemma trim_window_at trim pos out wend b :
  at_pos trim pos out -> window_end P e trim pos = Some wend -> b <> [] ->
  b = take (length b) (sub_bytes obj pos wend) ->
  let '(trim', bytes) := trim_window trim pos b in at_pos trim' (pos + Z.of_nat (length b)) (out ++ bytes).
Proof.
  intros Hat Hw Hne Hb. pose proof (window_end_some _ _ _ _ Hat Hw) as Hlt.
  destruct Hat as [Hp Ht]. apply sub_bytes_take in Hb as [Hb Hle]; [|lia..].
  assert (Hl : 0 < Z.of_nat (length b)) by (destruct b; [done|cbn; lia]).
  unfold trim_window, at_pos. destruct trim as [t|].
  - destruct (fp_range P) as [r|] eqn:Hr; [|done]. destruct (Hrange r eq_refl) as [Hr1 Hr2].
    destruct Ht as (ph & -> & Ht).
    pose proof (feed_spec obj (sr_delimiter r) (sr_start r) (sr_end r) Hr1 Hr2 Hwidth ph pos
                  (pos + Z.of_nat (length b)) out) as Hf. rewrite <- Hb in Hf.
    destruct (feed _ _ _) as [t' o]. destruct Hf as (ph' & -> & Ht'); [lia|lia| |done|].
    + intros ->. by unfold window_end, next_window in Hw.
    + split; [lia|]. eauto.
  - destruct (fp_range P); [done|]. split; [lia|]. rewrite Ht, Hb at 1.
    apply sub_bytes_app; lia.
Qed.

Lemma sub_bytes_prefix (o : list Z) a b c :
  0 <= a <= b -> b <= c -> sub_bytes o a b `prefix_of` sub_bytes o a c.
Proof. intros. rewrite <- (sub_bytes_app o a b c) by done. by apply prefix_app_r. Qed.

Lemma at_prefix trim pos out : at_pos trim pos out -> out `prefix_of` owned.
Proof.
  unfold owned. intros [Hp Ht]. destruct trim as [t|], (fp_range P) as [r|] eqn:Hr; try done.
  - destruct (Hrange r eq_refl) as [Hr1 Hr2].
    destruct Ht as (ph & _ & Ht), ph; cbn in Ht; [|destruct Ht as (HS & Hpos & Hno & ->)|by rewrite Ht].
    { destruct Ht as (_ & _ & _ & ->). apply prefix_nil. }
    destruct (cut_spec obj (sr_delimiter r) (sr_start r)) as (HS1 & _ & _); [lia|].
    destruct (cut_spec obj (sr_delimiter r) (sr_end r)) as (HE1 & HE2 & _); [lia|].
    apply sub_bytes_prefix; [lia|]. destruct HE2 as [HE2|[HE2|[HE2 HE3]]]; [lia|lia|].
    destruct (decide (pos <= cut obj (sr_delimiter r) (sr_end r))) as [|Hn]; [done|].
    exfalso. apply (Hno (Z.to_nat (cut obj (sr_delimiter r) (sr_end r) - 1))); [lia|done].
  - subst out. pose proof (sub_bytes_prefix obj 0 pos size) as Hpre. rewrite sub_bytes_all in Hpre. apply Hpre; lia.
Qed.

Lemma at_start :
  fp_range P <> None \/ 0 < e_size e ->
  let trim := (fun r => trim_new r (e_size e)) <$> fp_range P in
  let pos := from_option first_byte 0 trim in
  at_pos trim pos [] /\ is_Some (window_end P e trim pos).
Proof.
  intros Hne. cbv zeta. unfold at_pos, window_end. destruct (fp_range P) as [r|] eqn:Hr; cbn [fmap option_fmap option_map from_option].
  - destruct (Hrange r eq_refl) as [Hr1 Hr2]. unfold trim_new, first_byte. cbn [rt_start]. rewrite Hsize.
    set (ph := if bool_decide (sr_start r = 0) then Emit else Seek). split; [split; [unfold sat_sub; lia|]|].
    + exists ph. split; [done|]. unfold ph, sat_sub. case_bool_decide as Hz; cbn.
      * rewrite Hz. unfold cut at 1 2. cbn. rewrite sub_bytes_nil. split_and!; try done; try lia. intros i Hi. lia.
      * split_and!; try done; try lia. intros i Hi. lia.
    + destruct (next_window_spec obj (sr_delimiter r) (sr_start r) (sr_end r) Hr2 Hwidth ph
        (sat_sub (sr_start r) 1) (window_size P) (chunk_bytes P)) as (w & Hw & _);
        [unfold sat_sub; lia|by unfold ph; case_bool_decide|unfold sat_sub; lia|].
      exists w. exact Hw.
  - split; [split; [lia|by rewrite sub_bytes_nil]|]. destruct Hne as [|Hne]; [done|].
    rewrite bool_decide_true by done. eauto.
Qed.

(** Before a round: a window's bytes in hand. *)
Definition in_hand (ms : list ChunkMsg) (next : option WindowRead)
    (s : Z * list Z * option RangeTrim * option WindowRead) (w : Fetch) : Prop :=
  let '(pos, b, trim, next') := s in
  exists cs wend, (chunks cs /\ at_pos trim pos (concat cs) /\ window_end P e trim pos = Some wend /\
    win_ok (mkWindowRead e etag pos wend) (inr b) /\ next' = next) /\ st None (ms ++ (Chunk <$> cs)) w.

(** The read started before a window is handed on. *)
Lemma tr_start_next ms pos own_next next :
  tr (st None ms)
    (match own_next with
     | Some stop => ahead_start (mkWindowRead e etag pos stop);;; mret next
     | None => match next with Some r => ahead_start r;;; mret None | None => mret None end
     end)
    (fun next' w => (own_next <> None -> next' = next) /\
       st (match own_next with Some stop => Some (mkWindowRead e etag pos stop) | None => next end) ms w).
Proof.
  destruct own_next as [stop|]; [|destruct next; [|by apply upto_ret]];
    (eapply upto_bind; [apply tr_ahead_start|]; intros []; by apply upto_ret).
Qed.

Lemma tr_ranged_round ms next s :
  tr (in_hand ms next s) (ranged_round P e etag s)
    (fun r w => match r with inl s => in_hand ms next s w
                           | inr r => object_end e (Some owned) next ms r w end).
Proof.
  destruct s as [[[pos b] trim] next']. cbn [in_hand]. apply upto_ex. intros cs. apply upto_ex. intros wend.
  apply upto_pure. intros (Hcs & Hat & Hw & [Hne Hb] & ->). cbn [wr_entry wr_etag wr_start wr_end] in Hb.
  pose proof (trim_window_at _ _ _ _ _ Hat Hw Hne Hb) as Hat'. unfold ranged_round.
  destruct (trim_window trim pos b) as [trim' bytes]. pose proof Hat' as [Hpos _].
  rewrite (wrap_u64_small (pos + _)) by (unfold_int; destruct Hat; lia). cbv zeta.
  set (own_next := window_end P e trim' (pos + Z.of_nat (length b))) in *.
  eapply upto_bind; [apply tr_pause_gate|]. intros []; cbn [negb].
  2: { apply upto_ret. intros w Hl. exists cs. split_and!; [done|by eapply at_prefix|done]. }
  eapply upto_bind; [apply tr_start_next|]. intros nx. apply upto_pure. intros Hnx.
  eapply upto_bind; [apply tr_send_chunks; intros; apply tr_alongside, tr_gated_send|].
  intros ok. apply upto_ex. intros cs2. apply upto_pure. intros Hcs2.
  assert (Hcs' : chunks (cs ++ cs2)) by by apply Forall_app.
  rewrite <- !app_assoc, <- !fmap_app. destruct ok; cbn [negb]; apply upto_pure; intros Hc.
  2: { apply upto_ret. intros w Hl. exists (cs ++ cs2). split_and!; [done| |done]. cbn. rewrite concat_app.
       etrans; [apply prefix_app, Hc|]. by eapply at_prefix. }
  rewrite <- Hc, <- concat_app in Hat'. destruct own_next as [stop|] eqn:Hown.
  2: { apply upto_ret. intros w Hl. exists (cs ++ cs2). split_and!; [done| |done]. by eapply window_end_none. }
  eapply upto_bind; [apply tr_ahead_take|]. intros [[f|b2]|]; [| |by intros w t [_ []]]; apply upto_ret; intros w [Hl Hwin].
  - split; [done|]. exists (cs ++ cs2), None. split_and!; [done|by eapply at_prefix|done].
  - exists (cs ++ cs2), stop. split_and!; try done; [apply Hwin..|]. by apply Hnx.
Qed.

(** The object's first window, as the fetcher reads it ahead. *)
Definition first_read : WindowRead :=
  mkWindowRead e etag 0 (Z.min (Z.max (range_bytes P) 1) (e_size e)).

Lemma first_read_window : fp_range P = None -> 0 < e_size e ->
  window_end P e ((fun r => trim_new r (e_size e)) <$> fp_range P) 0 = Some (wr_end first_read).
Proof.
  intros Hr Hne. unfold window_end. rewrite Hr. cbn [fmap option_fmap option_map].
  rewrite bool_decide_true by done. cbn [first_read wr_end]. unfold window_size. unfold_int. f_equal. lia.
Qed.

Lemma tr_stream_ranged o ms next :
  fp_range P <> None \/ 0 < e_size e -> o = None \/ (fp_range P = None /\ o = Some first_read) ->
  tr (st o ms) (stream_object_ranged P e etag ((fun r => trim_new r (e_size e)) <$> fp_range P) next)
    (object_end e (Some owned) next ms).
Proof.
  intros Hne Ho. unfold stream_object_ranged. destruct (object_path e) as [f|] eqn:Hpath.
  { apply upto_ret. intros w Hw. split.
    - unfold object_path in Hpath. destruct (addressable _); [done|]. by injection Hpath as <-.
    - exists [], o. split_and!; [constructor|apply prefix_nil|by rewrite app_nil_r]. }
  destruct (at_start Hne) as [Hat [wend Hw]]. set (trim := _ <$> fp_range P) in *. cbv zeta.
  set (pos := from_option _ _ _) in *.
  eapply upto_bind; [apply tr_ahead_take|]. intros a. apply tr_at. intros w0 [Hst Ha].
  eapply (upto_bind _ _ _ _ (fun first w => exists win, first = Some win /\
    win_ok (mkWindowRead e etag pos wend) win /\ st None ms w)).
  { destruct a as [win|].
    - apply tr_ret_at. exists win. split_and!; [done| |done]. destruct Ho as [->|[Hr ->]]; [done|].
      destruct Hne as [Hne|Hne]; [done|]. pose proof (first_read_window Hr Hne) as Hf. fold trim in Hf.
      assert (Hz : pos = 0) by (unfold pos, trim; by rewrite Hr). rewrite Hz in Hw |- *.
      rewrite Hw in Hf. injection Hf as ->. exact Ha.
    - rewrite Hw. eapply upto_bind; [eapply upto_weaken; [apply tr_fetch|by intros ? ->|intros ? ? Hr; exact Hr]|].
      intros win. apply upto_ret. intros w [? ?]. eauto. }
  intros first. apply upto_ex. intros win. apply upto_pure. intros ->. apply upto_pure. intros Hwin.
  destruct win as [f|b].
  { apply upto_ret. intros w Hl. split; [done|]. exists [], None.
    split_and!; [constructor|apply prefix_nil|by rewrite app_nil_r]. }
  eapply upto_weaken; [apply upto_loop_from, tr_ranged_round| |intros ? ? Hr; exact Hr].
  intros w Hl. exists [], wend. rewrite app_nil_r. split_and!; try done; [constructor|apply Hwin..].
Qed.
End object.

(** ** Reading an object no ETag pins *)

Definition streaming (o : option WindowRead) (ms : list ChunkMsg) (w : Fetch) : Prop :=
  exists cs, chunks cs /\ st o (ms ++ (Chunk <$> cs)) w.

Lemma tr_body o ms delivered :
  tr (streaming o ms) (loop_from (body_round P) delivered)
    (fun r w => match r with
                | inr (inl false) => exists cs, chunks cs /\ lost (ms ++ (Chunk <$> cs)) w
                | inl f => (forall e, fail_ok e f) /\ streaming o ms w
                | _ => streaming o ms w
                end).
Proof.
  eapply upto_weaken; [apply (upto_loop_from _ (fun _ => streaming o ms))|done|intros ? ? Hr; exact Hr].
  intros d. unfold body_round. eapply upto_bind; [by apply (upto_ask _ _ _ (fun _ => streaming o ms))|].
  intros [[e|b]|]; [|..|by apply upto_ret].
  - case_bool_decide; apply upto_ret; [|done]. intros w Hw. split; [|done].
    intros e'. unfold fatal_or_poison. by case_match.
  - apply upto_ex. intros cs. apply upto_pure. intros Hcs.
    eapply upto_bind; [apply tr_send_chunks; intros; apply tr_gated_send|].
    intros ok. apply upto_ex. intros cs2. apply upto_pure. intros Hcs2.
    assert (Hcs' : chunks (cs ++ cs2)) by by apply Forall_app.
    rewrite <- !app_assoc, <- !fmap_app.
    destruct ok; apply upto_ret; intros w [_ Hl]; eexists; eauto.
Qed.

Lemma tr_streaming_round o ms e s :
  tr (fun w => budget_ok (snd s) /\ streaming o ms w) (streaming_round P e s)
    (fun r w => match r with
                | inl s => budget_ok (snd s) /\ streaming o ms w
                | inr r => object_end e None o ms r w
                end).
Proof.
  destruct s as [d b]. apply upto_pure. intros Hb. cbn [snd] in Hb. unfold streaming_round.
  eapply (upto_bind _ _ _ _ (fun _ => streaming o ms)).
  { apply upto_modify. intros w (cs & ? & [? ? ? ?]). by exists cs. }
  intros []. eapply upto_bind; [by apply (upto_ask _ _ _ (fun _ => streaming o ms))|]. intros opened.
  eapply (upto_bind _ _ _ _ (fun r w => match r with
    | inr (inl false) => exists cs, chunks cs /\ lost (ms ++ (Chunk <$> cs)) w
    | inl f => (forall e, fail_ok e f) /\ streaming o ms w
    | _ => streaming o ms w end)).
  { destruct opened; [by apply upto_ret|apply tr_body]. }
  intros [f|[[]|[e' d']]].
  - apply upto_ret. intros w (Hf & cs & ? & ?). split; [apply Hf|]. by exists cs, o.
  - apply upto_ret. intros w (cs & ? & ?). by exists cs.
  - apply upto_ret. intros w (cs & ? & ?). by exists cs.
  - apply upto_ex. intros cs. apply upto_pure. intros Hcs.
    eapply upto_bind; [by apply (tr_retry_or_fail _ _ _ _ e)|].
    intros [f|b']; apply upto_ret; intros w [Hw Hx]; [|split; [done|by exists cs]].
    split; [done|]. by exists cs, o.
Qed.

Lemma tr_stream_streaming o ms e :
  tr (st o ms) (stream_object_streaming P e) (object_end e None o ms).
Proof.
  assert (Hnil : forall w, st o ms w -> streaming o ms w).
  { intros w Hw. exists []. split; [constructor|]. by rewrite app_nil_r. }
  unfold stream_object_streaming. destruct (object_path e) as [f|] eqn:Hpath.
  { apply upto_ret. intros w Hw. destruct (Hnil w Hw) as (cs & ? & ?). split; [|by exists cs, o].
    unfold object_path in Hpath. destruct (addressable _); [done|]. by injection Hpath as <-. }
  eapply upto_weaken; [apply upto_loop_from, tr_streaming_round| |intros ? ? Hr; exact Hr].
  intros w Hw. split; [apply budget_new_ok|by apply Hnil].
Qed.

(** ** The unit *)

(** A unit as the reader hands it over: a size for every member, the content a
    pin names of that size, a byte range inside the member, ordinals that fit. *)
Record unit_ok : Prop := {
  uo_members : Z.of_nat (length (slice P)) <= U32_MAX;
  uo_sizes i e : slice P !! i = Some e -> 0 <= e_size e <= U64_MAX;
  uo_pinned i e t : slice P !! i = Some e -> pinned_etag P (Z.of_nat i) e = Some t ->
    e_size e = Z.of_nat (length (content (e_key e) t));
  uo_range r i e : fp_range P = Some r -> slice P !! i = Some e ->
    0 <= sr_start r < sr_end r /\ sr_end r <= e_size e;
}.
Hypothesis Hunit : unit_ok.

(** The bytes a member is to be sent as, where they are known. *)
Definition expected (i : nat) (e : ObjectEntry) : option (list Z) :=
  if bool_decide (e_size e = 0) && bool_decide (fp_range P = None) then Some []
  else owned e <$> pinned_etag P (Z.of_nat i) e.

(** Before member [i], [l] being the members left: what is read ahead. *)
Definition pend (i : nat) (l : list ObjectEntry) (o : option WindowRead) : Prop :=
  o = None \/ (start_ordinal P < Z.of_nat i /\ fp_range P = None /\ o = next_in P l).

Lemma next_in_cons e l :
  next_in P (e :: l) =
    if bool_decide (0 < e_size e)
    then t ← e_etag e; if object_path e then None else Some (first_read e t)
    else next_in P l.
Proof.
  unfold next_in. cbn [list_find]. destruct (decide (0 < e_size e)) as [Hs|Hs].
  - rewrite bool_decide_true by done. reflexivity.
  - rewrite bool_decide_false by done. by destruct (list_find _ l) as [[k x]|].
Qed.

Lemma tr_stream_object i e l o ms next :
  slice P !! i = Some e -> pend i (e :: l) o ->
  tr (st o ms) (stream_object P e (pinned_etag P (Z.of_nat i) e) next)
    (fun r w => exists o', (o' = None \/ o' = next \/ (e_size e = 0 /\ fp_range P = None /\ o' = o)) /\
       object_end e (expected i e) o' ms r w).
Proof.
  intros Hi Hp. unfold stream_object, expected. pose proof (uo_sizes Hunit _ _ Hi) as Hs.
  destruct (bool_decide (e_size e = 0) && bool_decide (fp_range P = None)) eqn:Hz.
  { apply andb_prop in Hz as [Hz1%bool_decide_eq_true Hz2%bool_decide_eq_true]. apply upto_ret. intros w Hw. exists o. split; [by right; right|].
    exists []. split_and!; [constructor|done|by rewrite app_nil_r]. }
  assert (Hne : fp_range P <> None \/ 0 < e_size e).
  { apply andb_false_iff in Hz as [Hz|Hz]; apply bool_decide_eq_false in Hz; [right; lia|by left]. }
  destruct (pinned_etag P (Z.of_nat i) e) as [t|] eqn:Hpin; cbn [fmap option_fmap option_map].
  - pose proof (uo_pinned Hunit _ _ _ Hi Hpin) as Hsz.
    eapply upto_weaken; [apply tr_stream_ranged; [done|lia| |done|]|done|].
    + intros r Hr. rewrite <- Hsz. by apply (uo_range Hunit r i).
    + destruct Hp as [->|(Hlt & Hr & ->)]; [by left|]. destruct Hne as [|Hne]; [done|].
      rewrite next_in_cons, bool_decide_true by done. unfold pinned_etag in Hpin.
      rewrite bool_decide_false in Hpin by lia. cbn in Hpin. rewrite Hpin. cbn.
      destruct (object_path e); [by left|by right].
    + intros r w Hr. exists next. eauto.
  - destruct (fp_range P) as [r|] eqn:Hr.
    + apply upto_ret. intros w Hw. exists None. split; [by left|]. split; [done|].
      exists [], o. split_and!; [constructor|done|by rewrite app_nil_r].
    + eapply upto_weaken; [apply tr_stream_streaming|done|]. intros r w Ho. exists o. split; [|done].
      destruct Hp as [->|(Hlt & _ & ->)]; [by left|]. destruct Hne as [|Hne]; [done|].
      left. rewrite next_in_cons, bool_decide_true by done. unfold pinned_etag in Hpin.
      rewrite bool_decide_false in Hpin by lia. cbn in Hpin. by rewrite Hpin.
Qed.

(** ** The messages of a unit *)

Definition start_msg (i : nat) (e : ObjectEntry) : ChunkMsg :=
  ObjectStart (Z.of_nat i) (e_key e) (e_last_modified_ms e).

(** The messages of the members from [i] on: each whole, in order, to the end;
    or one cut short, by a failure or because the lane is gone. *)
Inductive delivered (gone : bool) : nat -> list ObjectEntry -> list ChunkMsg -> Prop :=
  | del_all i : gone = false -> delivered gone i [] []
  | del_next i e l cs ms :
      chunks cs -> reads (expected i e) cs -> delivered gone (S i) l ms ->
      delivered gone i (e :: l) (start_msg i e :: (Chunk <$> cs) ++ ObjectEnd :: ms)
  | del_failed i e l cs f :
      gone = false -> chunks cs -> begins (expected i e) cs -> fail_ok e f ->
      delivered gone i (e :: l) (start_msg i e :: (Chunk <$> cs) ++ [LaneFailed f])
  | del_cut i e l cs :
      gone = true -> chunks cs -> begins (expected i e) cs ->
      delivered gone i (e :: l) (start_msg i e :: (Chunk <$> cs))
  | del_none i e l : gone = true -> delivered gone i (e :: l) [].

(** The fetcher's end: what it sent after [ms]. *)
Definition ended (ms : list ChunkMsg) (i : nat) (l : list ObjectEntry) (w : Fetch) : Prop :=
  waits_ok w /\ exists tail, ft_sent w = ms ++ tail /\ delivered (ft_gone w) i l tail.

Lemma ended_lost i e l ms cs w :
  chunks cs -> begins (expected i e) cs -> lost (ms ++ start_msg i e :: (Chunk <$> cs)) w ->
  ended ms i (e :: l) w.
Proof. intros Hcs Hb [Hs Hg Hw]. split; [done|]. eexists. split; [exact Hs|]. by apply del_cut. Qed.

Lemma reads_begins exp cs : reads exp cs -> begins exp cs.
Proof. destruct exp; [|done]. cbn. by intros ->. Qed.

Lemma ordinal_small i e : slice P !! i = Some e -> wrap_u32 (Z.of_nat i) = Z.of_nat i.
Proof.
  intros Hi%lookup_lt_Some. pose proof (uo_members Hunit). apply wrap_u32_small. unfold_int. lia.
Qed.

Lemma tr_fetch_member i e l o ms :
  slice P !! i = Some e -> drop (S i) (slice P) = l -> start_ordinal P <= Z.of_nat i -> pend i (e :: l) o ->
  tr (st o ms) (fetch_member P i e)
    (fun ok w => if ok : bool
       then exists o' cs, (pend (S i) l o' /\ chunks cs /\ reads (expected i e) cs) /\
              st o' (ms ++ start_msg i e :: (Chunk <$> cs) ++ [ObjectEnd]) w
       else ended ms i (e :: l) w).
Proof.
  intros Hi Hl Hst Hp. unfold fetch_member. rewrite (ordinal_small _ _ Hi).
  eapply upto_bind; [apply tr_alongside, tr_gated_send|]. intros []; cbn [negb].
  2: { apply upto_ret. intros w [Hs Hg Hw]. split; [done|]. exists []. rewrite app_nil_r. split; [done|]. by apply del_none. }
  cbn [sent_or_lost]. eapply upto_bind; [by eapply tr_stream_object|]. intros r. apply upto_ex. intros o'.
  apply upto_pure. intros Ho. assert (Hp' : pend (S i) l o').
  { destruct Ho as [->|[->|(Hz & Hr & ->)]]; [by left| |].
    - unfold next_read. destruct (fp_range P) eqn:Hr; [by left|]. right. split_and!; [lia|done|].
      rewrite <- Hl. do 2 f_equal. lia.
    - destruct Hp as [->|(? & ? & ->)]; [by left|]. right. split_and!; [lia|done|].
      by rewrite next_in_cons, bool_decide_false by lia. }
  destruct r as [f|[]]; cbn [object_end].
  - apply upto_pure. intros Hf. apply upto_ex. intros cs. apply upto_ex. intros o2.
    apply upto_pure. intros Hcs. apply upto_pure. intros Hb. rewrite <- app_assoc.
    eapply upto_bind; [apply tr_send|]. intros ok. apply upto_ret. intros w Hw. destruct ok; cbn in Hw; [|by eapply ended_lost].
    destruct Hw as [Hs _ Hg Hw]. split; [done|]. eexists. rewrite Hs, <- app_assoc. split; [done|]. by apply del_failed.
  - apply upto_ex. intros cs. apply upto_pure. intros Hcs. apply upto_pure. intros Hr. rewrite <- app_assoc.
    eapply upto_weaken; [apply tr_alongside, tr_send|done|]. intros ok w Hw. destruct ok; cbn in Hw.
    + exists o', cs. split; [done|]. by rewrite <- app_assoc in Hw.
    + eapply ended_lost; [done| |done]. by apply reads_begins.
  - apply upto_ret. intros w (cs & Hcs & Hb & Hw). rewrite <- app_assoc in Hw. by eapply ended_lost.
Qed.

Lemma tr_fetch_members l : forall i o ms,
  drop i (slice P) = l -> start_ordinal P <= Z.of_nat i -> pend i l o ->
  tr (st o ms) (fetch_members P i l) (fun _ => ended ms i l).
Proof.
  induction l as [|e l IH]; intros i o ms Hl Hst Hp; cbn [fetch_members].
  { apply upto_ret. intros w [Hs _ Hg Hw]. split; [done|]. exists []. rewrite app_nil_r. split; [done|]. by apply del_all. }
  assert (Hi : slice P !! i = Some e) by (by rewrite <- (Nat.add_0_r i), <- lookup_drop, Hl).
  assert (Hd : drop (S i) (slice P) = l) by (by rewrite <- (Nat.add_1_r i), <- drop_drop, Hl).
  eapply upto_bind; [by eapply tr_fetch_member|]. intros []; [|by apply upto_ret].
  apply upto_ex. intros o'. apply upto_ex. intros cs. apply upto_pure. intros (Hp' & Hcs & Hr).
  eapply upto_weaken; [apply (IH (S i) o'); [done|lia|done]|intros w Hw; exact Hw|].
  intros _ w (Hw & tail & Hs & Hdel). split; [done|]. eexists. rewrite Hs, <- app_assoc. cbn.
  rewrite <- app_assoc. split; [done|]. by apply del_next.
Qed.

Lemma tr_run_fetcher :
  0 <= start_ordinal P ->
  tr (at_world fetch_new) (run_fetcher P)
    (fun _ => ended [] (Z.to_nat (start_ordinal P)) (drop (Z.to_nat (start_ordinal P)) (slice P))).
Proof.
  intros Hst. eapply upto_weaken; [apply (tr_fetch_members _ _ None []); [done|lia|by left]| |done].
  intros w ->. constructor; [done|done|done|constructor].
Qed.
End fetch_proofs.

(** C17: a fetcher sends whole objects, in order. Whatever the store answers
    and however the lane takes its messages, the fetcher does not panic, waits
    at most [BACKOFF_CAP] between attempts, and what it sends is the unit's
    members from the start ordinal on: each an [ObjectStart], chunks of at most
    [chunk_bytes], none empty, and an [ObjectEnd]. The chunks of a pinned member
    are the content its ETag names, or the part of it the byte range owns. The
    messages stop early only where the lane is gone or a failure is sent, after
    a prefix of that member's bytes. *)
Theorem fetcher_sends_members `{UnitLib} `{ObjectStore} (P : FetcherParams) (t : list FetchAnswer) :
  0 <= retry_base P -> 0 < chunk_bytes P -> 0 <= start_ordinal P -> unit_ok P ->
  match run_fetcher P fetch_new t with
  | Ran _ w _ =>
      Forall (fun d => 0 <= d <= BACKOFF_CAP) (ft_waits w) /\
      delivered P (ft_gone w) (Z.to_nat (start_ordinal P)) (drop (Z.to_nat (start_ordinal P)) (slice P)) (ft_sent w)
  | Panicked _ => False
  | Stuck => True
  end.
Proof.
  intros Hbase Hchunk Hst Hunit. pose proof (tr_run_fetcher P Hbase Hchunk Hunit Hst fetch_new t eq_refl) as Hr.
  destruct (run_fetcher P fetch_new t) as [? w ?| |]; [|done..]. destruct Hr as (Hw & tail & Hs & Hd).
  split; [done|]. by rewrite Hs.
Qed.

(** Two pinned members, read in windows of three bytes and sent in chunks of
    two; the first GET fails once. *)
Definition demo_entry (k size : Z) : ObjectEntry := mkEntry [k] size (Some [k]) 7.
#[local] Instance demo_store : ObjectStore :=
  {| content := fun key _ => if bool_decide (key = [97]) then [1; 2; 10; 3; 4] else [5; 10; 6] |}.
Definition demo_fetch : FetcherParams :=
  mkFetcherParams [demo_entry 97 5; demo_entry 98 3] 0 None 2 3 RETRY_BASE None Lister.
Definition sends (n : nat) : list FetchAnswer := concat (replicate n [APause true; ASend true]).
Definition demo_answers : list FetchAnswer :=
  sends 1 ++ [AGet (inl (mkStoreError EGeneric [] false)); AGet (inr [1; 2; 10])] ++
  [APause true; AReady false] ++ sends 1 ++ [AReady true; AGet (inr [3; 4])] ++ sends 1 ++
  [APause true; AReady false] ++ sends 1 ++ [AReady false; ASend true] ++
  [AReady false] ++ sends 1 ++ [AGet (inr [5; 10; 6])] ++ [APause true] ++ sends 2 ++ [ASend true].
Definition demo_messages : list ChunkMsg :=
  [ObjectStart 0 [97] 7; Chunk [1; 2]; Chunk [10]; Chunk [3; 4]; ObjectEnd;
   ObjectStart 1 [98] 7; Chunk [5; 10]; Chunk [6]; ObjectEnd].

Lemma demo_unit_ok : unit_ok demo_fetch.
Proof.
  split; cbn.
  - unfold_int. lia.
  - intros [|[|i]] e [= <-]; cbn; unfold_int; lia.
  - intros [|[|i]] e t [= <-] _; reflexivity.
  - done.
Qed.

Lemma fetcher_sends_members_witness :
  exists w, run_fetcher demo_fetch fetch_new demo_answers = Ran tt w [] /\ ft_sent w = demo_messages /\
    delivered demo_fetch (ft_gone w) 0 (slice demo_fetch) demo_messages.
Proof.
  pose proof (fetcher_sends_members demo_fetch demo_answers ltac:(done) ltac:(done) ltac:(done) demo_unit_ok) as H.
  destruct (run_fetcher demo_fetch fetch_new demo_answers) as [u w r| |] eqn:E; [|done|vm_compute in E; discriminate E].
  destruct H as [_ H]. assert (Hr : r = [] /\ ft_sent w = demo_messages) by (vm_compute in E; injection E as <- <- <-; split; reflexivity).
  destruct Hr as [-> Hs]. exists w. split; [by destruct u|]. split; [exact Hs|]. rewrite Hs in H. exact H.
Defined.
