(* ===== verification/S3Framer.v ===== *)
(** * Decoding and framing an object's chunks ([spate-s3/src/framer.rs])

    [ObjectFramer] feeds the chunks of one object after another through a
    decompressor into a record framer, a bounded number of steps at a time, and
    queues the records. The gzip and zstd decoders are parameters ([Decoders],
    with [DecoderLaws] the documented behaviour of a streaming decoder); the
    record framer is one that keeps [FramerSteps], the framer's contract state
    by state, which [NdjsonFramer] is shown to keep. [rest] is what is still to
    come out of a sink, and every operation keeps it. *)

From stdpp Require Import base strings list.
From Stdlib Require Import ZArith Lia.
From S2P Require Import Prelude Framing S3Split S3Unit.

(** ** The record framer, state by state *)

(** The records queued in a framer. *)
Class FramerQueue (F : Type) := framer_queue : F -> list (list Z).

(** The framer contract from any state: [framer_rest] is what the framer frames
    from the bytes that follow. A push queues the records it completes, also
    where it fails, and popping takes them in order and changes nothing else. *)
Class FramerSteps {F} `{RecordFramer F} `{FramerQueue F} (f0 : F) := {
  framer_ok : F -> Prop;
  framer_rest : F -> list Z -> Framed;
  framer_start : framer_ok f0 /\ framer_queue f0 = [];
  framer_push_steps c f : framer_ok f ->
    let '(f', ok) := framer_push c f in
    exists new, framer_queue f' = framer_queue f ++ new /\ (ok = true -> framer_ok f') /\
      forall more, framer_rest f (c ++ more) = if ok then then_framed (new, true) (framer_rest f' more) else (new, false);
  framer_finish_steps f : framer_ok f ->
    let '(f', ok) := framer_finish f in
    exists new, framer_queue f' = framer_queue f ++ new /\ framer_rest f [] = (new, ok);
  framer_pop_steps f :
    match framer_queue f with
    | [] => framer_pop f = None
    | r :: rs => exists f', framer_pop f = Some (r, f') /\ framer_queue f' = rs /\
        (framer_ok f -> framer_ok f') /\ forall more, framer_rest f' more = framer_rest f more
    end;
}.

#[export] Instance NdjsonFramer_queue : FramerQueue NdjsonFramer := ready.

(** The NDJSON framer keeps it. *)
#[export] Instance NdjsonFramer_steps max (Hmax : 0 <= max) : FramerSteps (ndjson_new max).
Proof.
  refine {| framer_ok := nd_ok; framer_rest := outstanding |}.
  - split; [|done]. split; cbn; [apply not_elem_of_nil|done].
  - intros c f Hf. cbn [framer_push NdjsonFramer_RecordFramer].
    pose proof (fun more => ndjson_push_spec c f more Hf) as Hp.
    destruct (ndjson_push c f) as [f' ok]. destruct (Hp []) as (new & [Hq Hm] & _ & Hok).
    exists new. split_and!; [done|done|]. intros more. destruct (Hp more) as (new' & [Hq' _] & Hr & _).
    assert (new' = new) as -> by (rewrite Hq in Hq'; by apply (inj (app (ready f))) in Hq'). done.
  - intros f Hf. destruct (ndjson_feed [] f Hf) as (f' & Hfeed & Hr). cbn [feed_chunks concat] in *.
    change framer_finish with ndjson_finish in *. destruct (ndjson_finish f) as [g ok].
    injection Hfeed as -> ->. exists (outstanding f []).1. split; [done|]. by destruct (outstanding f []).
  - intros f. unfold framer_queue, NdjsonFramer_queue. cbn [framer_pop NdjsonFramer_RecordFramer].
    unfold ndjson_pop. destruct f as [p [|r rs] d m]; cbn; [done|]. eexists. split_and!; [done|done|by intros []|done].
Defined.

(** ** The decoders *)

(** A streaming decoder: a step consumes some of the input and hands its writer
    decoded bytes; [None] is an error. *)
Class Decoders := {
  decoder : Type;
  decoder_new : Codec -> option decoder;
  decoder_write : list Z -> decoder -> decoder * list Z * option nat;
  decoder_finish : decoder -> decoder * list Z * bool;
}.

(** What a decoder still decodes from the input that follows, and whether it
    ends well: the same however the input is cut into steps. *)
Class DecoderLaws `{Decoders} := {
  decoder_rest : decoder -> list Z -> list Z * bool;
  decoder_write_steps b d : b <> [] ->
    let '(d', out, n) := decoder_write b d in
    forall more, decoder_rest d (b ++ more) =
      match n with
      | Some (S k) => let '(out', ok) := decoder_rest d' (drop (S k) b ++ more) in (out ++ out', ok)
      | _ => (out, false)
      end;
  decoder_finish_steps d :
    let '(_, out, ok) := decoder_finish d in decoder_rest d [] = (out, ok);
}.

(** ** [Sink] *)

Section framer.
Context {F : Type} `{HF : RecordFramer F} `{HQ : FramerQueue F} `{HD : Decoders}.

(** [None] is [Sink::Plain]. *)
Record Sink := mkSink {
  sk_decoder : option decoder;
  sk_framer : F;
}.

(** [Sink::new]. *)
Definition sink_new (codec : Codec) (framer : F) : option Sink :=
  match codec with
  | Plain => Some (mkSink None framer)
  | _ => d ← decoder_new codec; Some (mkSink (Some d) framer)
  end.

(** The decoder's write to the framer. *)
Definition pass (out : list Z) (f : F) : F * bool :=
  if bool_decide (out = []) then (f, true) else framer_push out f.

(** [Sink::write]: [None] is an error. *)
Definition sink_write (buf : list Z) (s : Sink) : Sink * option nat :=
  match sk_decoder s with
  | None =>
      let '(f, ok) := framer_push buf (sk_framer s) in
      (mkSink None f, if ok : bool then Some (length buf) else None)
  | Some d =>
      let '(d, out, n) := decoder_write buf d in
      let '(f, ok) := pass out (sk_framer s) in
      (mkSink (Some d) f, if ok : bool then n else None)
  end.

(** [Sink::try_finish]. *)
Definition try_finish (s : Sink) : Sink * bool :=
  match sk_decoder s with
  | None => (s, true)
  | Some d =>
      let '(d, out, fin) := decoder_finish d in
      let '(f, ok) := pass out (sk_framer s) in
      (mkSink (Some d) f, ok && fin)
  end.

(** ** [ObjectFramer] *)

Definition PUMP_DECODED_BYTES : Z := 256 * 1024.
Definition PUMP_STEPS : nat := 256.

Record ObjectFramer := mkFramer {
  of_sink : option Sink;
  of_ready : list (list Z);
  of_pending : list Z;
  of_finished_decoded_bytes : Z;
}.

Definition framer_new : ObjectFramer := mkFramer None [] [] 0.

(** [while let Some(record) = framer.pop()]: one pass per record queued. *)
Fixpoint drain_sink (fuel : nat) (f : F) (ready : list (list Z)) : F * list (list Z) :=
  match fuel with
  | O => (f, ready)
  | S fuel => match framer_pop f with
              | Some (r, f) => drain_sink fuel f (ready ++ [r])
              | None => (f, ready)
              end
  end.
Definition drained (s : Sink) (ready : list (list Z)) : Sink * list (list Z) :=
  let '(f, ready) := drain_sink (S (length (framer_queue (sk_framer s)))) (sk_framer s) ready in
  (mkSink (sk_decoder s) f, ready).

Section make.
Context (make_framer : F).

(** [begin_object]: [None] is an error. *)
Definition begin_object (codec : Codec) (o : ObjectFramer) : option ObjectFramer :=
  s ← sink_new codec make_framer;
  Some (mkFramer (Some s) (of_ready o) (of_pending o) (of_finished_decoded_bytes o)).
End make.

Definition has_pending_input (o : ObjectFramer) : bool := bool_decide (of_pending o <> []).

(** The loop of [pump], [steps] being the steps left. *)
Fixpoint pump_loop (steps queued : nat) (start : Z) (s : Sink) (ready : list (list Z)) (pending : list Z)
    : Sink * list (list Z) * list Z * bool :=
  match steps with
  | O => (s, ready, pending, true)
  | S steps =>
      if bool_decide (pending = []) then (s, ready, pending, true)
      else
        let '(s, n) := sink_write pending s in
        let '(s, ready) := drained s ready in
        match n with
        | None | Some O => (s, ready, [], false)
        | Some n =>
            let pending := drop n pending in
            if bool_decide (queued < length ready)%nat ||
               bool_decide (PUMP_DECODED_BYTES <= wrap_u64 (framer_decoded_bytes (sk_framer s) - start))
            then (s, ready, pending, true)
            else pump_loop steps queued start s ready pending
        end
  end.

(** [pump]: [None] is its panic outside an object. *)
Definition pump (o : ObjectFramer) : option (ObjectFramer * bool) :=
  s ← of_sink o;
  let '(s, ready, pending, ok) :=
    pump_loop PUMP_STEPS (length (of_ready o)) (framer_decoded_bytes (sk_framer s)) s (of_ready o) (of_pending o) in
  Some (mkFramer (Some s) ready pending (of_finished_decoded_bytes o), ok).

#[global] Arguments pump : simpl never.

(** [push_chunk]. *)
Definition push_chunk (chunk : list Z) (o : ObjectFramer) : option (ObjectFramer * bool) :=
  pump (mkFramer (of_sink o) (of_ready o) chunk (of_finished_decoded_bytes o)).

(** [finish_object]. *)
Definition finish_object (o : ObjectFramer) : option (ObjectFramer * bool) :=
  s ← of_sink o;
  let '(s, fin) := try_finish s in
  let '(s, finished) := if fin : bool then let '(f, ok) := framer_finish (sk_framer s) in (mkSink (sk_decoder s) f, ok)
                        else (s, false) in
  let '(s, ready) := drained s (of_ready o) in
  Some (mkFramer None ready (of_pending o)
          (wrap_u64 (of_finished_decoded_bytes o + framer_decoded_bytes (sk_framer s))), finished).

(** [pop_record], [queued], [decoded_bytes]. *)
Definition pop_record (o : ObjectFramer) : option (list Z * ObjectFramer) :=
  match of_ready o with
  | [] => None
  | r :: rs => Some (r, mkFramer (of_sink o) rs (of_pending o) (of_finished_decoded_bytes o))
  end.
Definition queued (o : ObjectFramer) : nat := length (of_ready o).
Definition decoded_bytes (o : ObjectFramer) : Z :=
  wrap_u64 (of_finished_decoded_bytes o + from_option (fun s => framer_decoded_bytes (sk_framer s)) 0 (of_sink o)).
End framer.

(** ** What a sink still yields *)

Section framer_proofs.
Context {F : Type} `{HF : RecordFramer F} `{HQ : FramerQueue F} (f0 : F) `{HS : !FramerSteps f0}.
Context `{HD : Decoders} `{HL : !DecoderLaws}.

Definition sink_ok (s : Sink) : Prop :=
  framer_ok (f0 := f0) (sk_framer s) /\ framer_queue (sk_framer s) = [].

Definition sink_rest (s : Sink) (b : list Z) : Framed :=
  match sk_decoder s with
  | None => framer_rest (f0 := f0) (sk_framer s) b
  | Some d => let '(out, ok) := decoder_rest d b in
              ((framer_rest (f0 := f0) (sk_framer s) out).1, (framer_rest (f0 := f0) (sk_framer s) out).2 && ok)
  end.

(** An object's records, and whether all of it decodes and frames. *)
Definition object_frame (codec : Codec) (b : list Z) : Framed :=
  from_option (fun s => sink_rest s b) ([], false) (sink_new codec f0).

(** The records [new] are the first of [a]; what follows is [b], or nothing
    after an error. *)
Definition yields (a : Framed) (new : list (list Z)) (b : option Framed) : Prop :=
  match b with
  | Some b => a = then_framed (new, true) b
  | None => new `prefix_of` a.1 /\ a.2 = false
  end.

Lemma yields_nothing a : yields a [] (Some a).
Proof. by destruct a. Qed.

Lemma yields_trans a n1 b n2 c : yields a n1 (Some b) -> yields b n2 c -> yields a (n1 ++ n2) c.
Proof.
  cbn. intros -> Hb. destruct c as [c|]; cbn in *; subst; unfold then_framed; cbn.
  - by rewrite app_assoc.
  - destruct Hb. split; [by apply prefix_app|done].
Qed.

Lemma drain_sink_spec n : forall f ready,
  (length (framer_queue f) < n)%nat ->
  exists f', drain_sink n f ready = (f', ready ++ framer_queue f) /\ framer_queue f' = [] /\
    (framer_ok (f0 := f0) f -> framer_ok (f0 := f0) f') /\
    forall more, framer_rest (f0 := f0) f' more = framer_rest (f0 := f0) f more.
Proof.
  induction n as [|n IH]; intros f ready Hn; [lia|]. cbn [drain_sink].
  pose proof (framer_pop_steps (f0 := f0) f) as Hp. destruct (framer_queue f) as [|r rs] eqn:Hq.
  - rewrite Hp. exists f. by rewrite app_nil_r.
  - destruct Hp as (f1 & -> & Hq1 & Hok1 & Hr1).
    destruct (IH f1 (ready ++ [r])) as (f2 & -> & Hq2 & Hok2 & Hr2); [rewrite Hq1; cbn in Hn; lia|].
    exists f2. rewrite Hq1, <- app_assoc. split_and!; [done|done|auto|]. intros more. by rewrite Hr2, Hr1.
Qed.

Lemma drained_spec s ready :
  exists f', drained s ready = (mkSink (sk_decoder s) f', ready ++ framer_queue (sk_framer s)) /\
    framer_queue f' = [] /\ (framer_ok (f0 := f0) (sk_framer s) -> framer_ok (f0 := f0) f') /\
    forall more, framer_rest (f0 := f0) f' more = framer_rest (f0 := f0) (sk_framer s) more.
Proof.
  unfold drained. destruct (drain_sink_spec (S (length (framer_queue (sk_framer s)))) (sk_framer s) ready)
    as (f' & -> & H); [lia|]. by exists f'.
Qed.

(** A write to the framer, drained. *)
Lemma pass_spec out f :
  framer_ok (f0 := f0) f ->
  let '(f', ok) := pass out f in
  exists new, framer_queue f' = framer_queue f ++ new /\ (ok = true -> framer_ok (f0 := f0) f') /\
    forall more, framer_rest (f0 := f0) f (out ++ more) =
      if ok then then_framed (new, true) (framer_rest (f0 := f0) f' more) else (new, false).
Proof.
  intros Hf. unfold pass. case_bool_decide as Ho; [|by apply framer_push_steps].
  exists []. subst out. rewrite app_nil_r. split_and!; [done|done|]. intros more. by rewrite then_framed_empty_l.
Qed.

Lemma sink_write_spec buf s ready :
  buf <> [] -> sink_ok s ->
  let '(s1, n) := sink_write buf s in let '(s2, ready') := drained s1 ready in
  exists new, ready' = ready ++ new /\
    match n with
    | Some (S k) => sink_ok s2 /\ forall more, yields (sink_rest s (buf ++ more)) new (Some (sink_rest s2 (drop (S k) buf ++ more)))
    | _ => forall more, yields (sink_rest s (buf ++ more)) new None
    end.
Proof.
  intros Hne [Hok Hq]. unfold sink_write, sink_rest. destruct (sk_decoder s) as [d|] eqn:Hd.
  - pose proof (decoder_write_steps buf d Hne) as Hw. destruct (decoder_write buf d) as [[d1 out] n].
    pose proof (pass_spec out (sk_framer s) Hok) as Hp. destruct (pass out (sk_framer s)) as [f1 ok].
    destruct Hp as (new & Hq1 & Hok1 & Hr). rewrite Hq in Hq1. cbn [app] in Hq1.
    destruct (drained_spec (mkSink (Some d1) f1) ready) as (f2 & -> & Hq2 & Hok2 & Hr2).
    cbn [sk_framer sk_decoder] in *. exists new. rewrite Hq1. split; [done|].
    destruct ok; [destruct n as [[|k]|]|].
    + intros more. rewrite Hw. specialize (Hr []). rewrite app_nil_r in Hr. rewrite Hr. cbn. split; [by apply prefix_app_r|]. apply andb_false_r.
    + split; [by split; auto|]. intros more. rewrite Hw. destruct (decoder_rest d1 _) as [out' ok'].
      rewrite Hr, Hr2. by destruct (framer_rest f1 out').
    + intros more. rewrite Hw. specialize (Hr []). rewrite app_nil_r in Hr. rewrite Hr. cbn. split; [by apply prefix_app_r|]. apply andb_false_r.
    + intros more. rewrite Hw. destruct n as [[|k]|]; [|destruct (decoder_rest d1 _) as [out' ok']|];
        [specialize (Hr []); rewrite app_nil_r in Hr|..|specialize (Hr []); rewrite app_nil_r in Hr]; by rewrite Hr.
  - pose proof (framer_push_steps (f0 := f0) buf (sk_framer s) Hok) as Hp.
    destruct (framer_push buf (sk_framer s)) as [f1 ok]. destruct Hp as (new & Hq1 & Hok1 & Hr).
    rewrite Hq in Hq1. cbn [app] in Hq1.
    destruct (drained_spec (mkSink None f1) ready) as (f2 & -> & Hq2 & Hok2 & Hr2).
    cbn [sk_framer sk_decoder] in *. exists new. rewrite Hq1. split; [done|].
    destruct ok; [|intros more; by rewrite Hr].
    destruct buf as [|z buf]; [done|]. cbn [length]. split; [by split; auto|]. intros more.
    rewrite Hr, Hr2. cbn [drop]. by rewrite drop_all.
Qed.

Lemma pump_loop_spec steps q start : forall s ready pending,
  sink_ok s ->
  let '(s', ready', pending', ok) := pump_loop steps q start s ready pending in
  exists new, ready' = ready ++ new /\
    if ok then sink_ok s' /\ forall more, yields (sink_rest s (pending ++ more)) new (Some (sink_rest s' (pending' ++ more)))
    else pending' = [] /\ forall more, yields (sink_rest s (pending ++ more)) new None.
Proof.
  induction steps as [|steps IH]; intros s ready pending Hs.
  { cbn [pump_loop]. exists []. rewrite app_nil_r. split_and!; [done..|]. intros more. apply yields_nothing. }
  cbn [pump_loop]. case_bool_decide as Hp.
  { exists []. rewrite app_nil_r. split_and!; [done..|]. intros more. apply yields_nothing. }
  pose proof (sink_write_spec pending s ready Hp Hs) as Hw. destruct (sink_write pending s) as [s1 n].
  destruct (drained s1 ready) as [s2 ready']. destruct Hw as (new & -> & Hw).
  destruct n as [[|k]|]; [by exists new| |by exists new]. destruct Hw as [Hs2 Hw].
  destruct (_ || _); [by exists new|]. specialize (IH s2 (ready ++ new) (drop (S k) pending) Hs2).
  destruct (pump_loop _ _ _ _ _ _) as [[[s3 r3] p3] ok3]. destruct IH as (new2 & -> & IH).
  exists (new ++ new2). rewrite app_assoc. split; [done|]. destruct ok3.
  - destruct IH as [Hs3 IH]. split; [done|]. intros more. by eapply yields_trans.
  - destruct IH as [-> IH]. split; [done|]. intros more. by eapply yields_trans.
Qed.

Lemma pump_spec o s :
  of_sink o = Some s -> sink_ok s ->
  exists o' ok new, pump o = Some (o', ok) /\ of_ready o' = of_ready o ++ new /\
    if ok then exists s', of_sink o' = Some s' /\ sink_ok s' /\
           forall more, yields (sink_rest s (of_pending o ++ more)) new (Some (sink_rest s' (of_pending o' ++ more)))
    else of_pending o' = [] /\ forall more, yields (sink_rest s (of_pending o ++ more)) new None.
Proof.
  intros Hs Hok. unfold pump. rewrite Hs. cbn [mbind option_bind].
  pose proof (pump_loop_spec PUMP_STEPS (length (of_ready o)) (framer_decoded_bytes (sk_framer s)) s
                (of_ready o) (of_pending o) Hok) as Hp.
  destruct (pump_loop _ _ _ _ _ _) as [[[s' r'] p'] ok]. destruct Hp as (new & -> & Hp).
  eexists _, ok, new. split_and!; [done|done|]. destruct ok; [|done]. exists s'. by destruct Hp.
Qed.

Lemma finish_object_spec o s :
  of_sink o = Some s -> sink_ok s ->
  exists o' ok new, finish_object o = Some (o', ok) /\ of_ready o' = of_ready o ++ new /\
    of_sink o' = None /\ of_pending o' = of_pending o /\
    yields (sink_rest s []) new (if ok then Some ([], true) else None).
Proof.
  intros Hs [Hok Hq]. unfold finish_object. rewrite Hs. cbn [mbind option_bind].
  assert (Hfin : exists s1 fin new, try_finish s = (s1, fin) /\ framer_queue (sk_framer s1) = new /\
    if fin : bool then framer_ok (f0 := f0) (sk_framer s1) /\
      yields (sink_rest s []) new (Some (framer_rest (f0 := f0) (sk_framer s1) []))
    else yields (sink_rest s []) new None).
  { unfold try_finish, sink_rest. destruct (sk_decoder s) as [d|].
    2: { exists s, true, []. split_and!; [done|done|done|apply yields_nothing]. }
    pose proof (decoder_finish_steps d) as Hd. destruct (decoder_finish d) as [[d1 out] fin]. rewrite Hd.
    pose proof (pass_spec out (sk_framer s) Hok) as Hp. destruct (pass out (sk_framer s)) as [f1 ok].
    destruct Hp as (new & Hq1 & Hok1 & Hr). rewrite Hq in Hq1. specialize (Hr []). rewrite app_nil_r in Hr.
    eexists _, _, new. split_and!; [done|done|]. rewrite Hr. destruct ok, fin; cbn.
    - split; [auto|]. rewrite andb_true_r. by destruct (framer_rest f1 []).
    - split; [by apply prefix_app_r|apply andb_false_r].
    - done.
    - done. }
  destruct Hfin as (s1 & fin & new & -> & Hq1 & Hfin).
  assert (Hend : exists s2 ok new2, (if fin then let '(f, ok) := framer_finish (sk_framer s1) in
      (mkSink (sk_decoder s1) f, ok) else (s1, false)) = (s2, ok) /\ framer_queue (sk_framer s2) = new ++ new2 /\
    yields (sink_rest s []) (new ++ new2) (if ok then Some ([], true) else None)).
  { destruct fin.
    2: { exists s1, false, []. by rewrite !app_nil_r. }
    destruct Hfin as [Hok1 Hy]. pose proof (framer_finish_steps (f0 := f0) (sk_framer s1) Hok1) as Hf.
    destruct (framer_finish (sk_framer s1)) as [f2 ok]. destruct Hf as (new2 & Hq2 & Hr).
    eexists _, ok, new2. split; [done|]. cbn [sk_framer]. split; [by rewrite Hq2, Hq1|].
    eapply yields_trans; [exact Hy|]. rewrite Hr. destruct ok; [|done]. unfold yields, then_framed. cbn. by rewrite app_nil_r. }
  destruct Hend as (s2 & ok & new2 & -> & Hq2 & Hy).
  destruct (drained_spec s2 (of_ready o)) as (f3 & -> & _). eexists _, ok, (new ++ new2). by rewrite Hq2.
Qed.
End framer_proofs.
