(* ===== verification/S3Lane.v ===== *)
(** * The lane ([spate-s3/src/lane.rs], [SplitTracker] of [lane_ctx.rs])

    A lane takes its fetcher's messages off a channel, frames the chunks,
    gives every record its composite offset, and hands out batches, one poll at
    a time. The channel is the list of the messages the fetcher sends, in order;
    whether the next has arrived, and the clock, are the environment's. What
    the lane does that others see is a list of acts: an ack issued, a report
    sent, the terminal watermark set, the control plane woken. Metrics, log
    lines and the debug assertions, which a release build leaves out, are not
    modelled. *)

From stdpp Require Import base gmap strings list.
From Stdlib Require Import ZArith Lia.
From S2P Require Import Prelude EndCheck JobEnd Framing S3Split S3Offset S3Unit Oracle UnitReader S3Fetch S3Framer.

(** ** [SplitTracker] *)

Definition CLOSED : Z := 2 ^ 31.

Record SplitTracker := mkTracker {
  tk_terminal : option Z;
  tk_objects_done : Z;
}.

Definition tracker_new : SplitTracker := mkTracker None 0.
Definition set_terminal (watermark : Z) (t : SplitTracker) : SplitTracker :=
  mkTracker (Some watermark) (tk_objects_done t).
Definition object_done (t : SplitTracker) : bool * SplitTracker :=
  (bool_decide (Z.land (tk_objects_done t) CLOSED = 0),
   mkTracker (tk_terminal t) (wrap_u32 (tk_objects_done t + 1))).
Definition tracker_close (t : SplitTracker) : Z * SplitTracker :=
  (Z.land (tk_objects_done t) (CLOSED - 1), mkTracker (tk_terminal t) (Z.lor (tk_objects_done t) CLOSED)).

(** ** The lane *)

Record CurrentObject := mkCurrent {
  co_ordinal : Z;
  co_key : list Z;
  co_next_record : Z;
  co_event_time_ms : Z;
}.

Record HeldRecord := mkRecord {
  hr_offset : Z;
  hr_event_time_ms : Z;
  hr_bytes : list Z;
}.

Inductive LaneAct :=
  | Issued (last : Z)
  | Reported (kind : PoisonKind) (reason : string) (overwrite : option Overwrite)
  | SetTerminal (watermark : Z)
  | Woke.

Section lane.
Context {F : Type} `{HF : RecordFramer F} `{HQ : FramerQueue F} `{HD : Decoders}.
Context (make_framer : F) (compression : Compression).

Record S3Lane := mkS3Lane {
  l_framer : ObjectFramer (F := F);
  l_resume : option Position;
  l_pending_discard : Z;
  l_current : option CurrentObject;
  l_pending_end : bool;
  l_held : list HeldRecord;
  l_woken : bool;
  l_poisoned : bool;
  l_truncated : bool;
  l_watermark_candidate : Z;
  l_failed : option (ErrorClass * string);
}.

(** The lane, the messages still to come, the shared tracker, the acts. *)
Record LaneWorld := mkLaneWorld {
  lw_lane : S3Lane;
  lw_rx : list ChunkMsg;
  lw_tracker : SplitTracker;
  lw_acts : list LaneAct;
}.

(** Now; the next message, or the end of the channel, is there; it came
    before the deadline. *)
Inductive LaneAnswer :=
  | LNow (now : Z)
  | LArrived (b : bool)
  | LWaited (b : bool).

Notation L := (Prog LaneWorld LaneAnswer).

(** [S3Lane::new]; [None] is its panic. *)
Definition lane_new (resume : option Position) : option S3Lane :=
  candidate ← match resume with
              | None => Some 0
              | Some p => match encode p with inr o => Some o | inl _ => None end
              end;
  Some (mkS3Lane framer_new resume 0 None false [] false false false candidate None).

Definition lane : L S3Lane := w ← get; mret (lw_lane w).
Definition on_lane (f : S3Lane -> S3Lane) : L unit :=
  modify (fun w => mkLaneWorld (f (lw_lane w)) (lw_rx w) (lw_tracker w) (lw_acts w)).
Definition act (a : LaneAct) : L unit :=
  modify (fun w => mkLaneWorld (lw_lane w) (lw_rx w) (lw_tracker w) (lw_acts w ++ [a])).
Definition on_tracker (f : SplitTracker -> SplitTracker) : L unit :=
  modify (fun w => mkLaneWorld (lw_lane w) (lw_rx w) (f (lw_tracker w)) (lw_acts w)).

Definition set_framer (o : ObjectFramer) (l : S3Lane) : S3Lane :=
  mkS3Lane o (l_resume l) (l_pending_discard l) (l_current l) (l_pending_end l) (l_held l) (l_woken l)
    (l_poisoned l) (l_truncated l) (l_watermark_candidate l) (l_failed l).
Definition set_discard (n : Z) (l : S3Lane) : S3Lane :=
  mkS3Lane (l_framer l) (l_resume l) n (l_current l) (l_pending_end l) (l_held l) (l_woken l)
    (l_poisoned l) (l_truncated l) (l_watermark_candidate l) (l_failed l).
Definition set_current_object (c : option CurrentObject) (l : S3Lane) : S3Lane :=
  mkS3Lane (l_framer l) (l_resume l) (l_pending_discard l) c (l_pending_end l) (l_held l) (l_woken l)
    (l_poisoned l) (l_truncated l) (l_watermark_candidate l) (l_failed l).
Definition set_pending_end (b : bool) (l : S3Lane) : S3Lane :=
  mkS3Lane (l_framer l) (l_resume l) (l_pending_discard l) (l_current l) b (l_held l) (l_woken l)
    (l_poisoned l) (l_truncated l) (l_watermark_candidate l) (l_failed l).
Definition set_held_records (h : list HeldRecord) (l : S3Lane) : S3Lane :=
  mkS3Lane (l_framer l) (l_resume l) (l_pending_discard l) (l_current l) (l_pending_end l) h (l_woken l)
    (l_poisoned l) (l_truncated l) (l_watermark_candidate l) (l_failed l).
Definition set_woken (l : S3Lane) : S3Lane :=
  mkS3Lane (l_framer l) (l_resume l) (l_pending_discard l) (l_current l) (l_pending_end l) (l_held l) true
    (l_poisoned l) (l_truncated l) (l_watermark_candidate l) (l_failed l).
Definition set_truncated (b : bool) (l : S3Lane) : S3Lane :=
  mkS3Lane (l_framer l) (l_resume l) (l_pending_discard l) (l_current l) (l_pending_end l) (l_held l) (l_woken l)
    (l_poisoned l) b (l_watermark_candidate l) (l_failed l).
Definition set_failed (class : ErrorClass) (reason : string) (l : S3Lane) : S3Lane :=
  mkS3Lane (l_framer l) (l_resume l) (l_pending_discard l) (l_current l) (l_pending_end l) (l_held l) (l_woken l)
    (l_poisoned l) (l_truncated l) (l_watermark_candidate l) (Some (class, reason)).
Definition set_resume (r : option Position) (l : S3Lane) : S3Lane :=
  mkS3Lane (l_framer l) r (l_pending_discard l) (l_current l) (l_pending_end l) (l_held l) (l_woken l)
    (l_poisoned l) (l_truncated l) (l_watermark_candidate l) (l_failed l).

(** [LaneWaker::wake]. *)
Definition wake : L unit :=
  l ← lane;
  when (negb (l_woken l)) (on_lane set_woken;;; act Woke).

(** [fail]. *)
Definition fail (class : ErrorClass) (reason : string) : L SourceError :=
  on_lane (set_failed class reason);;; mret (ErrOther class reason).

(** [poison] and [overwritten]. *)
Definition quiesce (l : S3Lane) : S3Lane :=
  mkS3Lane (l_framer l) (l_resume l) 0 None false [] (l_woken l) true (l_truncated l)
    (l_watermark_candidate l) (l_failed l).
Definition poison (kind : PoisonKind) (reason : string) : L unit :=
  on_lane quiesce;;; act (Reported kind reason None);;; wake.
Definition overwritten (o : Overwrite) : L unit :=
  on_lane (fun l => set_pending_end false (set_truncated true l));;;
  act (Reported EtagDrift "overwritten" (Some o));;; wake.

(** A step of [drain_framer]: [inl] goes on. *)
Definition emit (r : list Z) (c : CurrentObject) (offset : Z) (l : S3Lane) : S3Lane :=
  mkS3Lane (l_framer l) (l_resume l) (l_pending_discard l)
    (Some (mkCurrent (co_ordinal c) (co_key c) (wrap_u64 (co_next_record c + 1)) (co_event_time_ms c)))
    (l_pending_end l) (l_held l ++ [mkRecord offset (co_event_time_ms c) r]) (l_woken l)
    (l_poisoned l) (l_truncated l) (wrap_i64 (offset + 1)) (l_failed l).
Definition drain_step (max_records : nat) : L (unit + (SourceError + unit)) :=
  l ← lane;
  if bool_decide (max_records <= length (l_held l))%nat then mret (inr (inr tt))
  else
    match pop_record (l_framer l) with
    | None => mret (inr (inr tt))
    | Some (bytes, o) =>
        on_lane (set_framer o);;;
        if bool_decide (0 < l_pending_discard l)
        then on_lane (set_discard (l_pending_discard l - 1));;; mret (inl tt)
        else
          match l_current l with
          | None => panic
          | Some c =>
              if bool_decide (MAX_RECORD_INDEX < co_next_record c)
              then poison Undecodable "too many records";;; mret (inr (inr tt))
              else
                match encode (mkPosition (co_ordinal c) (co_next_record c)) with
                | inl _ => e ← fail ClassFatal "composite offset overflow"; mret (inr (inl e))
                | inr offset => on_lane (emit bytes c offset);;; mret (inl tt)
                end
          end
    end.

(** [drain_framer]: a pass takes a record off the queue, so one pass more than
    the queue holds is enough. *)
Fixpoint drain_loop (n max_records : nat) : L (SourceError + unit) :=
  match n with
  | O => stuck
  | S n => r ← drain_step max_records;
           match r with inl _ => drain_loop n max_records | inr r => mret r end
  end.
Definition drain_framer (max_records : nat) : L (SourceError + unit) :=
  l ← lane; drain_loop (S (queued (l_framer l))) max_records.

(** [finalize_object]. *)
Definition finalize_object : L unit :=
  l ← lane;
  match l_current l with
  | None => panic
  | Some _ =>
      on_lane (fun l => set_pending_end false (set_current_object None l));;;
      if bool_decide (0 < l_pending_discard l) then poison EtagDrift "records short of its committed position"
      else on_tracker (fun t => (object_done t).2)
  end.

(** [on_msg]. *)
Definition on_start (ordinal : Z) (key : list Z) (last_modified_ms : Z) : L (SourceError + unit) :=
  l ← lane;
  match begin_object make_framer (codec_resolve compression key) (l_framer l) with
  | None => poison Undecodable "starting decode";;; mret (inr tt)
  | Some o =>
      on_lane (fun l => set_resume None (set_framer o l));;;
      let discard := match l_resume l with
                     | Some pos => if bool_decide (S3Offset.ordinal pos = ordinal) then Some (record pos) else None
                     | None => Some 0
                     end in
      match discard with
      | None => e ← fail ClassFatal "internal wiring bug"; mret (inl e)
      | Some n =>
          on_lane (fun l => set_current_object (Some (mkCurrent ordinal key n last_modified_ms)) (set_discard n l));;;
          mret (inr tt)
      end
  end.
Definition on_msg (m : ChunkMsg) : L (SourceError + unit) :=
  match m with
  | ObjectStart ordinal key ms => on_start ordinal key ms
  | Chunk bytes =>
      l ← lane;
      match push_chunk bytes (l_framer l) with
      | None => panic
      | Some (o, ok) =>
          on_lane (set_framer o);;;
          when (negb ok) (poison Undecodable "decoding");;;
          mret (inr tt)
      end
  | ObjectEnd =>
      l ← lane;
      match finish_object (l_framer l) with
      | None => panic
      | Some (o, ok) =>
          on_lane (set_framer o);;;
          if ok : bool then on_lane (set_pending_end true);;; mret (inr tt)
          else poison Undecodable "finishing decode";;; mret (inr tt)
      end
  | LaneFailed (SPoison kind reason) => poison kind reason;;; mret (inr tt)
  | LaneFailed (SOverwritten o) => overwritten o;;; mret (inr tt)
  | LaneFailed (SFatal class reason) => e ← fail class reason; mret (inl e)
  end.

(** The clock, [try_recv] and the bounded wait: [None] is the channel closed. *)
Definition now : L Z := ask (fun a => match a with LNow t => Some t | _ => None end).
Definition receive : L (option ChunkMsg) :=
  w ← get;
  match lw_rx w with
  | [] => mret None
  | m :: rx => modify (fun w => mkLaneWorld (lw_lane w) rx (lw_tracker w) (lw_acts w));;; mret (Some m)
  end.
Inductive Received := Message (m : ChunkMsg) | Closed | Nothing.
Definition arrived (b : bool) : L Received :=
  if b then m ← receive; mret (from_option Message Closed m) else mret Nothing.
Definition try_recv : L Received :=
  b ← ask (fun a => match a with LArrived b => Some b | _ => None end); arrived b.
Definition recv_until : L Received :=
  b ← ask (fun a => match a with LWaited b => Some b | _ => None end); arrived b.

(** How a pass of [poll] goes on: round again, a return, or to the batch. *)
Inductive PollStep := Idle | Erred (e : SourceError) | Emit.

(** The top of the loop: drain, end the object, settle the truncation. *)
Definition poll_drain (max_records : nat) : L (option PollStep) :=
  r ← drain_framer max_records;
  match r with
  | inl e => mret (Some (Erred e))
  | inr _ =>
      l ← lane;
      when (l_pending_end l && negb (l_poisoned l) && bool_decide (queued (l_framer l) = 0)%nat) finalize_object;;;
      l ← lane;
      when (l_truncated l && bool_decide (queued (l_framer l) = 0)%nat)
        (on_lane (fun l => set_current_object None (set_truncated false l)));;;
      l ← lane;
      mret (if l_poisoned l then Some Idle
            else if bool_decide (max_records <= length (l_held l))%nat then Some Emit else None)
  end.

(** The end-of-input decision. *)
Definition on_closed : L (bool + PollStep) :=
  l ← lane;
  if bool_decide (is_Some (l_current l))
  then e ← fail ClassFatal "object stream ended mid-object"; mret (inr (Erred e))
  else if bool_decide (0 < queued (l_framer l))%nat then mret (inl true)
  else if bool_decide (l_held l <> []) then mret (inr Emit)
  else
    on_tracker (set_terminal (l_watermark_candidate l));;;
    act (SetTerminal (l_watermark_candidate l));;;
    wake;;;
    mret (inr Idle).

Definition on_received (r : Received) : L (bool + PollStep) :=
  match r with
  | Nothing => mret (inr Idle)
  | Closed => on_closed
  | Message m =>
      r ← on_msg m;
      match r with
      | inl e => mret (inr (Erred e))
      | inr _ => l ← lane; mret (if l_poisoned l then inr Idle else inl true)
      end
  end.

(** A pass of the loop, [attempted] being [recv_attempted]. *)
Definition poll_round (max_records : nat) (deadline : Z) (attempted : bool) : L (bool + PollStep) :=
  r ← poll_drain max_records;
  match r with
  | Some s => mret (inr s)
  | None =>
      late ← (if attempted then t ← now; mret (bool_decide (deadline <= t)) else mret false);
      l ← lane;
      if late : bool then mret (inr (if bool_decide (l_held l = []) then Idle else Emit))
      else if has_pending_input (l_framer l) then
        match pump (l_framer l) with
        | None => panic
        | Some (o, ok) =>
            on_lane (set_framer o);;;
            if ok : bool then mret (inl true) else poison Undecodable "decoding";;; mret (inr Idle)
        end
      else
        r ← try_recv;
        match r with
        | Nothing =>
            if bool_decide (l_held l <> []) then mret (inr Emit)
            else
              t ← now;
              if bool_decide (deadline <= t) then mret (inr Idle)
              else r ← recv_until; on_received r
        | r => on_received r
        end
  end.

(** [poll]: a batch is the records held, and its ack is for the last. The instant
    of the call plus the timeout is taken to be in [Instant]'s range. *)
Definition poll (max_records : nat) (timeout : Z) : L (SourceError + option (list HeldRecord)) :=
  l ← lane;
  match l_failed l with
  | Some (class, reason) => mret (inl (ErrOther class reason))
  | None =>
      if l_poisoned l then mret (inr None)
      else
        on_lane (set_held_records []);;;
        t ← now;
        s ← loop_from (poll_round max_records (t + timeout)) false;
        match s with
        | Erred e => mret (inl e)
        | Idle => mret (inr None)
        | Emit =>
            l ← lane;
            match last (l_held l) with
            | None => panic
            | Some r => act (Issued (hr_offset r));;; mret (inr (Some (l_held l)))
            end
        end
  end.

(** [finished]. *)
Definition lane_finished (w : LaneWorld) : bool := bool_decide (is_Some (tk_terminal (lw_tracker w))).

(** The driver's polls of the lane: until it is finished or fails. *)
Fixpoint lane_run (polls : list (nat * Z)) : L (list HeldRecord) :=
  match polls with
  | [] => mret []
  | (max_records, timeout) :: polls =>
      w ← get;
      if lane_finished w then mret []
      else
        r ← poll max_records timeout;
        match r with
        | inl _ => mret []
        | inr b => rest ← lane_run polls; mret (default [] b ++ rest)
        end
  end.

(** A lane of a fresh unit on the messages [ms]. *)
Definition lane_start (ms : list ChunkMsg) : LaneWorld :=
  mkLaneWorld (mkS3Lane framer_new None 0 None false [] false false false 0 None) ms tracker_new [].
End lane.
