(* ===== verification/S3LaneProofs.v ===== *)
(** * What a lane emits ([spate-s3/src/lane.rs])

    [stream_records] is the records of a channel's messages: each object
    decoded and framed as a whole, its records numbered. Every pass of a poll
    keeps the equation that what is emitted, then what is queued, then what the
    messages still to come yield is that list; a failure or an overwrite leaves
    a prefix of it. Beside it goes the contract the unit reader assumes of a
    lane, as an automaton over the lane's acts. *)

From stdpp Require Import base gmap strings list.
From Stdlib Require Import ZArith Lia.
From S2P Require Import Prelude EndCheck JobEnd Framing S3Split S3Offset S3Unit Oracle UnitReader S3Fetch S3Framer S3Lane.

(** ** The records of a stream *)

(** The records [rs] of object [o], numbered from [k]. *)
Fixpoint stamp (o t k : Z) (rs : list (list Z)) : list HeldRecord :=
  match rs with
  | [] => []
  | r :: rs => mkRecord (o * 2 ^ 40 + k) t r :: stamp o t (k + 1) rs
  end.

Lemma stamp_app o t k a b : stamp o t k (a ++ b) = stamp o t k a ++ stamp o t (k + Z.of_nat (length a)) b.
Proof.
  revert k. induction a as [|r a IH]; intros k; cbn [stamp app length]; [by rewrite Z.add_0_r|].
  rewrite IH. do 3 f_equal. lia.
Qed.

(** The bytes of the object in progress. *)
Fixpoint object_bytes (ms : list ChunkMsg) : list Z :=
  match ms with
  | Chunk b :: ms => b ++ object_bytes ms
  | _ => []
  end.

(** One past the last offset. *)
Definition end_of (out : list HeldRecord) : Z := from_option (fun r => hr_offset r + 1) 0 (last out).

Lemma end_of_snoc out r : end_of (out ++ [r]) = hr_offset r + 1.
Proof. unfold end_of. by rewrite last_snoc. Qed.

(** The messages of a fetcher from object [i] on, in the middle of it or not.
    A failure is the last message. *)
Inductive proto (cut_ok : Overwrite -> bool) : nat -> bool -> list ChunkMsg -> Prop :=
  | pr_done i : proto cut_ok i false []
  | pr_start i k t ms : proto cut_ok i true ms -> proto cut_ok i false (ObjectStart (Z.of_nat i) k t :: ms)
  | pr_chunk i b ms : proto cut_ok i true ms -> proto cut_ok i true (Chunk b :: ms)
  | pr_end i ms : proto cut_ok (S i) false ms -> proto cut_ok i true (ObjectEnd :: ms)
  | pr_failed i f : (forall o, f = SOverwritten o -> cut_ok o = true) -> proto cut_ok i true [LaneFailed f]
  | pr_cut i : proto cut_ok i true [].

(** ** The contract: what the lane's acts may be *)

(** One past the last offset an ack was issued for, the mode, the overwrite
    reported. *)
Definition Seen : Type := Z * LaneMode * option Overwrite.

Definition see (cut_ok : Overwrite -> bool) (a : LaneAct) (s : Seen) : option Seen :=
  let '(e, m, c) := s in
  match a with
  | Woke => Some s
  | Issued last => guard (m = LaneReading /\ e < last + 1);; Some (last + 1, m, c)
  | Reported _ _ None => guard (m = LaneReading);; Some (e, LanePoisoned, c)
  | Reported _ _ (Some o) => guard (m = LaneReading /\ c = None /\ cut_ok o = true);; Some (e, m, Some o)
  | SetTerminal t => guard (m = LaneReading /\ t = e);; Some (e, LaneEnded, c)
  end.
Definition seen (cut_ok : Overwrite -> bool) (acts : list LaneAct) : option Seen :=
  foldl (fun s a => s ≫= see cut_ok a) (Some (0, LaneReading, None)) acts.

#[global] Arguments seen : simpl never.

Lemma seen_snoc cut_ok acts a : seen cut_ok (acts ++ [a]) = seen cut_ok acts ≫= see cut_ok a.
Proof. unfold seen. by rewrite foldl_app. Qed.

Section lane_proofs.
Context {F : Type} `{HF : RecordFramer F} `{HQ : FramerQueue F} (f0 : F) `{HS : !FramerSteps f0}.
Context `{HD : Decoders} `{HL : !DecoderLaws}.
Context (compression : Compression) (cut_ok : Overwrite -> bool).

Notation LW := (LaneWorld (F := F)).
Notation LaneOf := (S3Lane (F := F)).
Notation tr := (upto (fun _ : LW => False)).

(** The records of an object, and of a stream of messages. *)
Definition framed (key : list Z) (b : list Z) : Framed := object_frame f0 (codec_resolve compression key) b.
Fixpoint stream_records (ms : list ChunkMsg) : list HeldRecord :=
  match ms with
  | ObjectStart o k t :: ms => stamp o t 0 (framed k (object_bytes ms)).1 ++ stream_records ms
  | _ :: ms => stream_records ms
  | [] => []
  end.


(** All objects end, and all of them decode and frame. *)
Fixpoint closes (ms : list ChunkMsg) : bool :=
  match ms with
  | Chunk _ :: ms => closes ms
  | ObjectEnd :: _ => true
  | _ => false
  end.
Fixpoint stream_ok (ms : list ChunkMsg) : bool :=
  match ms with
  | ObjectStart _ k _ :: ms => (framed k (object_bytes ms)).2 && closes ms && stream_ok ms
  | LaneFailed _ :: _ => false
  | _ :: ms => stream_ok ms
  | [] => true
  end.

(** ** The invariant *)

Context (exp : list HeldRecord) (fine : bool).

(** Nothing has gone wrong, and nothing is replayed. *)
Record sound (l : LaneOf) : Prop := {
  so_resume : l_resume l = None;
  so_discard : l_pending_discard l = 0;
  so_poisoned : l_poisoned l = false;
  so_failed : l_failed l = None;
}.

(** Between objects. *)
Record between (l : LaneOf) : Prop := {
  bw_current : l_current l = None;
  bw_end : l_pending_end l = false;
  bw_cut : l_truncated l = false;
  bw_ready : of_ready (l_framer l) = [];
  bw_pending : of_pending (l_framer l) = [];
}.

(** In object [i]: [tail] follows the records queued. *)
Record inside (out : list HeldRecord) (i : nat) (c : CurrentObject) (tail : list HeldRecord) (l : LaneOf) : Prop := {
  in_current : l_current l = Some c;
  in_ordinal : co_ordinal c = Z.of_nat i;
  in_next : 0 <= co_next_record c <= MAX_RECORD_INDEX + 1;
  in_after : end_of out <= Z.of_nat i * 2 ^ 40 + co_next_record c;
  in_exp : out ++ stamp (Z.of_nat i) (co_event_time_ms c) (co_next_record c) (of_ready (l_framer l)) ++ tail = exp;
}.

(** Its chunks are read; its end is read; it is cut short. *)
Inductive Stage := Reads | Ends | Cuts.
Definition stage_ok (st : Stage) (i : nat) (c : CurrentObject) (tail : list HeldRecord) (l : LaneOf)
    (rx : list ChunkMsg) (cut : option Overwrite) : Prop :=
  match st with
  | Reads => l_pending_end l = false /\ l_truncated l = false /\ cut = None /\ proto cut_ok i true rx /\
      exists s, of_sink (l_framer l) = Some s /\ sink_ok f0 s /\
        tail = stamp (Z.of_nat i) (co_event_time_ms c) (co_next_record c + Z.of_nat (length (of_ready (l_framer l))))
                 (sink_rest f0 s (of_pending (l_framer l) ++ object_bytes rx)).1 ++ stream_records rx /\
        (sink_rest f0 s (of_pending (l_framer l) ++ object_bytes rx)).2 && closes rx && stream_ok rx = fine
  | Ends => l_pending_end l = true /\ l_truncated l = false /\ cut = None /\ proto cut_ok (S i) false rx /\
      of_pending (l_framer l) = [] /\ tail = stream_records rx /\ stream_ok rx = fine
  | Cuts => l_pending_end l = false /\ l_truncated l = true /\ cut <> None /\ rx = [] /\
      of_pending (l_framer l) = []
  end.

Inductive live (out : list HeldRecord) (cut : option Overwrite) (l : LaneOf) (rx : list ChunkMsg) : Prop :=
  | live_between i : between l -> proto cut_ok i false rx -> cut = None ->
      end_of out <= Z.of_nat i * 2 ^ 40 -> out ++ stream_records rx = exp -> stream_ok rx = fine -> live out cut l rx
  | live_inside st i c tail : inside out i c tail l -> stage_ok st i c tail l rx cut -> live out cut l rx
  | live_cut : between l -> rx = [] -> cut <> None -> out `prefix_of` exp -> live out cut l rx.

(** The watermark is one past [out], which is [done] or goes beyond it. *)
Definition risen (done out : list HeldRecord) (candidate : Z) : Prop :=
  candidate = end_of out /\ (out = done \/ end_of done < end_of out).

(** [done] is handed out, [out] is taken off the queue, [rx] is to come. *)
Record going (done out : list HeldRecord) (rx : list ChunkMsg) (w : LW) : Prop := {
  go_sound : sound (lw_lane w);
  go_candidate : risen done out (l_watermark_candidate (lw_lane w));
  go_terminal : tk_terminal (lw_tracker w) = None;
  go_seen : exists cut, seen cut_ok (lw_acts w) = Some (end_of done, LaneReading, cut) /\
    live out cut (lw_lane w) rx;
}.

(** The lane has stopped short. *)
Record halted (done : list HeldRecord) (w : LW) : Prop := {
  ha_stopped : l_poisoned (lw_lane w) = true \/ l_failed (lw_lane w) <> None;
  ha_terminal : tk_terminal (lw_tracker w) = None;
  ha_prefix : done `prefix_of` exp;
  ha_seen : exists m cut, seen cut_ok (lw_acts w) = Some (end_of done, m, cut) /\ m <> LaneEnded;
}.

(** The lane has decided the end of its input. *)
Record ended_at (done : list HeldRecord) (w : LW) : Prop := {
  ed_terminal : tk_terminal (lw_tracker w) = Some (end_of done);
  ed_prefix : done `prefix_of` exp;
  ed_seen : exists cut, seen cut_ok (lw_acts w) = Some (end_of done, LaneEnded, cut) /\
    (cut = None -> done = exp /\ fine = true);
}.

(** ** Stopping *)

(** What a stop needs of the state before it. *)
Record pausable (done : list HeldRecord) (w : LW) : Prop := {
  pa_terminal : tk_terminal (lw_tracker w) = None;
  pa_prefix : done `prefix_of` exp;
  pa_seen : exists cut, seen cut_ok (lw_acts w) = Some (end_of done, LaneReading, cut);
}.

Lemma live_prefix out cut l rx : live out cut l rx -> out `prefix_of` exp.
Proof. intros [i _ _ _ _ <- _|st i c tail [_ _ _ _ <-] _|_ _ _ ?]; [by apply prefix_app_r..|done]. Qed.

(** Inside a poll: the records held are taken and not handed out. *)
Definition mid_rx (done : list HeldRecord) (rx : list ChunkMsg) (w : LW) : Prop :=
  going done (done ++ l_held (lw_lane w)) rx w.
Notation mid done w := (mid_rx done (lw_rx w) w).

Lemma mid_pausable done rx w : mid_rx done rx w -> pausable done w.
Proof.
  intros [_ _ Ht (cut & Hs & Hl)]. split; [done| |by exists cut].
  apply live_prefix in Hl. etrans; [|exact Hl]. by apply prefix_app_r.
Qed.

Lemma pausable_on_lane done f w :
  pausable done w -> pausable done (mkLaneWorld f (lw_rx w) (lw_tracker w) (lw_acts w)).
Proof. by intros [? ? ?]. Qed.

Definition quiet (done : list HeldRecord) (w : LW) : Prop := halted done w /\ l_poisoned (lw_lane w) = true.

Lemma tr_lane {A} w (k : LaneOf -> Prog LW LaneAnswer A) R :
  tr (at_world w) (k (lw_lane w)) R -> tr (at_world w) (lane ≫= k) R.
Proof. intros Hk w' t ->. by apply (Hk w t). Qed.

Lemma tr_wake w (R : unit -> LW -> Prop) :
  (l_woken (lw_lane w) = true -> R tt w) ->
  R tt (mkLaneWorld (set_woken (lw_lane w)) (lw_rx w) (lw_tracker w) (lw_acts w ++ [Woke])) ->
  tr (at_world w) wake R.
Proof.
  intros H1 H2 w' t ->. unfold wake, lane, when, mbind, prog_bind, get, mret, prog_ret.
  destruct (l_woken (lw_lane w)) eqn:Hw; cbn; auto.
Qed.

Lemma seen_woke acts s : seen cut_ok acts = Some s -> seen cut_ok (acts ++ [Woke]) = Some s.
Proof. intros Hs. rewrite seen_snoc, Hs. by destruct s as [[? ?] ?]. Qed.

Lemma tr_poison done w kind reason :
  pausable done w -> tr (at_world w) (poison kind reason) (fun _ => quiet done).
Proof.
  intros [Ht Hp (cut & Hs)]. unfold poison, on_lane, act. do 2 apply tr_step. cbn.
  assert (Hs' : seen cut_ok (lw_acts w ++ [Reported kind reason None]) = Some (end_of done, LanePoisoned, cut)).
  { rewrite seen_snoc, Hs. done. }
  apply tr_wake; [intros _|]; cbn; (split; [split; cbn; [by left|done|done|]|done]); exists LanePoisoned, cut; (split; [|done]);
    [exact Hs'|by apply seen_woke].
Qed.

Lemma tr_fail done w class reason :
  pausable done w -> tr (at_world w) (fail class reason) (fun _ => halted done).
Proof.
  intros [Ht Hp (cut & Hs)] w' t ->. cbn. split; cbn; [by right|done|done|]. exists LaneReading, cut. by split.
Qed.

(** ** Draining the queue *)
Lemma mid_emit done w i c tail st cut r rs o offset :
  sound (lw_lane w) -> risen done (done ++ l_held (lw_lane w)) (l_watermark_candidate (lw_lane w)) ->
  tk_terminal (lw_tracker w) = None -> seen cut_ok (lw_acts w) = Some (end_of done, LaneReading, cut) ->
  inside (done ++ l_held (lw_lane w)) i c tail (lw_lane w) -> stage_ok st i c tail (lw_lane w) (lw_rx w) cut ->
  of_ready (l_framer (lw_lane w)) = r :: rs -> of_ready o = rs ->
  of_sink o = of_sink (l_framer (lw_lane w)) -> of_pending o = of_pending (l_framer (lw_lane w)) ->
  co_next_record c <= MAX_RECORD_INDEX -> offset = Z.of_nat i * 2 ^ 40 + co_next_record c -> offset + 1 <= I64_MAX ->
  mid done (mkLaneWorld (emit r c offset (set_framer o (lw_lane w))) (lw_rx w) (lw_tracker w) (lw_acts w)).
Proof.
  intros [? ? ? ?] [_ Hri] Ht Hs [Hc Hi Hn Ha He] Hst Hr Ho1 Ho2 Ho3 Hmax -> Hb.
  unfold mid_rx, emit. cbn [lw_lane l_held set_framer]. rewrite app_assoc. set (out := done ++ l_held (lw_lane w)) in *.
  rewrite wrap_i64_small by (unfold_int; lia). rewrite wrap_u64_small by (unfold_int; lia).
  split; cbn; [done| |done|].
  { unfold risen. rewrite end_of_snoc. split; [done|]. right. cbn. destruct Hri as [Hri|Hri]; [rewrite <- Hri|]; lia. }
  exists cut. split; [done|].
  eapply (live_inside _ _ _ _ st i (mkCurrent (co_ordinal c) (co_key c) (co_next_record c + 1) (co_event_time_ms c)) tail).
  - split; cbn -[MAX_RECORD_INDEX]; [done|done|lia|rewrite end_of_snoc; cbn; lia|]. rewrite Ho1. rewrite Hr in He. cbn in He.
    by rewrite <- He, <- !app_assoc.
  - destruct st; cbn in *; rewrite ?Ho1, ?Ho2, ?Ho3; [|done..].
    destruct Hst as (? & ? & ? & ? & s & Hs1 & Hs2 & Hs3 & Hs4). split_and!; try done. exists s. split_and!; try done.
    rewrite Hs3, Hr. cbn [length]. do 2 f_equal. lia.
Qed.

Lemma encode_inside (i : nat) k v :
  0 <= k <= MAX_RECORD_INDEX -> encode (mkPosition (Z.of_nat i) k) = inr v ->
  v = Z.of_nat i * 2 ^ 40 + k /\ v + 1 <= I64_MAX.
Proof.
  intros Hk He. destruct (decide (MAX_ORDINAL < Z.of_nat i)) as [Hlt|Hge].
  { unfold encode in He. cbn [ordinal] in He. by rewrite bool_decide_true in He. }
  destruct (encode_value (mkPosition (Z.of_nat i) k)) as [Hv _]; cbn [ordinal record]; [lia|lia|].
  rewrite Hv in He. injection He as <-. cbn [ordinal record]. split; [done|].
  change MAX_RECORD_INDEX with (2 ^ 40 - 2) in *. change MAX_ORDINAL with (2 ^ 23 - 1) in *. unfold_int. lia.
Qed.

(** What a pass of the drain, and the drain, leave. *)
Definition after_drain (done : list HeldRecord) (max : nat) (r : SourceError + unit) (w : LW) : Prop :=
  match r with
  | inl _ => halted done w
  | inr _ => quiet done w \/ mid done w /\ (of_ready (l_framer (lw_lane w)) = [] \/ max <= length (l_held (lw_lane w)))%nat
  end.

Lemma tr_drain_step done max w :
  mid done w ->
  tr (at_world w) (drain_step max)
    (fun r w' => match r with
       | inl _ => mid done w' /\ S (queued (l_framer (lw_lane w'))) = queued (l_framer (lw_lane w))
       | inr r => after_drain done max r w'
       end).
Proof.
  intros Hm. pose proof (mid_pausable _ _ _ Hm) as Hpa. unfold drain_step. apply tr_lane.
  case_bool_decide as Hfull; [apply tr_ret_at; cbn; auto|].
  unfold pop_record. destruct (of_ready (l_framer (lw_lane w))) as [|r rs] eqn:Hr; [apply tr_ret_at; cbn; auto|].
  destruct Hm as [Hso Hca Ht (cut & Hs & Hl)].
  destruct Hl as [i Hb _ _ _ _ _|st i c tail Hin Hst|Hb _ _ _]; [by rewrite (bw_ready _ Hb) in Hr| |by rewrite (bw_ready _ Hb) in Hr].
  rewrite (so_discard _ Hso), (in_current _ _ _ _ _ Hin), (in_ordinal _ _ _ _ _ Hin). unfold on_lane. apply tr_step.
  rewrite bool_decide_false by lia. pose proof (in_next _ _ _ _ _ Hin) as Hn. case_bool_decide as Hmax.
  - eapply tr_then; [apply (tr_poison done); by apply pausable_on_lane|]. intros ? w' Hq. apply tr_ret_at. by left.
  - destruct (encode _) as [ov|v] eqn:He.
    + eapply tr_then; [apply (tr_fail done); by apply pausable_on_lane|]. intros e w' Hh. by apply tr_ret_at.
    + apply encode_inside in He as [Hv Hb]; [|lia]. apply tr_step. apply tr_ret_at. split.
      * eapply (mid_emit done w i c tail st cut r rs); try done. lia.
      * unfold queued. by rewrite Hr.
Qed.

Lemma tr_drain_framer done max w :
  mid done w -> tr (at_world w) (drain_framer max) (after_drain done max).
Proof.
  intros Hm. unfold drain_framer. apply tr_lane.
  generalize (S (queued (l_framer (lw_lane w)))). intros n. revert w Hm.
  induction n as [|n IH]; intros w Hm; cbn [drain_loop]; [apply upto_stuck|].
  eapply tr_then; [by apply tr_drain_step|]. intros [u|r] w'; [|by intros; apply tr_ret_at].
  intros [Hm' _]. by apply IH.
Qed.

(** A pass asks nothing, and the passes allowed are enough. *)
Lemma drain_step_asks_nothing max (w : LW) t :
  match drain_step max w t with
  | Ran (inl _) w' t' => t' = t /\ S (queued (l_framer (lw_lane w'))) = queued (l_framer (lw_lane w))
  | Ran (inr _) _ t' => t' = t
  | Panicked _ => True
  | Stuck => False
  end.
Proof.
  unfold drain_step, queued, pop_record, lane, mbind, prog_bind, get, mret, prog_ret.
  case_bool_decide; [done|]. destruct (of_ready (l_framer (lw_lane w))) as [|r rs]; [done|]. cbn.
  case_bool_decide; [done|]. destruct (l_current (lw_lane w)) as [c|]; [|done]. case_bool_decide; [|by destruct (encode _)].
  unfold poison, wake, lane, when, on_lane, act, modify, mbind, prog_bind, get, mret, prog_ret. cbn.
  by destruct (l_woken (lw_lane w)).
Qed.

Lemma drain_framer_total max (w : LW) t : drain_framer max w t <> Stuck.
Proof.
  unfold drain_framer, lane, mbind at 1, prog_bind, get. cbn [mret prog_ret].
  enough (Hn : forall n w, (queued (l_framer (lw_lane w)) < n)%nat -> drain_loop n max w t <> Stuck) by (apply Hn; lia).
  induction n as [|n IH]; intros w' Hlt; [lia|]. cbn [drain_loop]. unfold mbind, prog_bind.
  pose proof (drain_step_asks_nothing max w' t) as Hd. destruct (drain_step max w' t) as [[u|r] w2 t2| |]; [|done..].
  destruct Hd as [-> Hq]. apply IH. lia.
Qed.

(** ** The top of the loop *)

(** Nothing is queued, no object's end is pending. *)
Definition emptied (l : LaneOf) : Prop :=
  of_ready (l_framer l) = [] /\ l_pending_end l = false /\ l_truncated l = false.

Definition after_top (done : list HeldRecord) (max : nat) (r : option PollStep) (w : LW) : Prop :=
  match r with
  | Some Idle => quiet done w
  | Some (Erred _) => halted done w
  | Some Emit => mid done w /\ (max <= length (l_held (lw_lane w)))%nat
  | None => mid done w /\ emptied (lw_lane w)
  end.

Lemma MAX_RECORD_INDEX_value : MAX_RECORD_INDEX = 2 ^ 40 - 2.
Proof. done. Qed.

Lemma tr_finalize done w :
  mid done w -> l_pending_end (lw_lane w) = true -> of_ready (l_framer (lw_lane w)) = [] ->
  tr (at_world w) finalize_object
    (fun _ w' => mid done w' /\ between (lw_lane w') /\ l_held (lw_lane w') = l_held (lw_lane w)).
Proof.
  intros [Hso Hca Ht (cut & Hs & Hl)] Hpe Hr.
  destruct Hl as [i Hb|st i c tail Hin Hst|Hb]; [by rewrite (bw_end _ Hb) in Hpe| |by rewrite (bw_end _ Hb) in Hpe].
  destruct st; cbn in Hst; destruct Hst as (Hpe' & Hst); try congruence. destruct Hst as (Htr & Hcut & Hpr & Hpend & -> & Hok).
  unfold finalize_object. apply tr_lane. rewrite (in_current _ _ _ _ _ Hin), (so_discard _ Hso). unfold on_lane.
  apply tr_step. rewrite bool_decide_false by lia. destruct Hso. intros w' t ->. cbn.
  split; [|by split; [split|]]. split; cbn; [done|done|done|]. exists cut. split; [done|].
  destruct Hin as [_ _ Hn Ha He]. rewrite Hr in He. cbn in He. rewrite MAX_RECORD_INDEX_value in Hn.
  apply (live_between _ _ _ _ (S i)); [by split|done|done|lia|done|done].
Qed.

Lemma mid_settle_cut done w :
  mid done w -> l_truncated (lw_lane w) = true -> of_ready (l_framer (lw_lane w)) = [] ->
  mid done (mkLaneWorld (set_current_object None (set_truncated false (lw_lane w))) (lw_rx w) (lw_tracker w) (lw_acts w))
    /\ l_pending_end (lw_lane w) = false.
Proof.
  intros [[? ? ? ?] Hca Ht (cut & Hs & Hl)] Htr Hr. pose proof (live_prefix _ _ _ _ Hl) as Hp.
  destruct Hl as [i Hb|st i c tail Hin Hst|Hb]; [by rewrite (bw_cut _ Hb) in Htr| |by rewrite (bw_cut _ Hb) in Htr].
  destruct st; cbn in Hst; destruct Hst as (Hpe & Htr' & Hst); try congruence. destruct Hst as (Hcut & Hrx & Hpend).
  split; [|done]. split; cbn; [done|done|done|]. exists cut. split; [done|]. by apply live_cut; [split|..].
Qed.

Lemma tr_top_end done max w :
  mid done w -> of_ready (l_framer (lw_lane w)) = [] \/ (max <= length (l_held (lw_lane w)))%nat ->
  tr (at_world w)
    (when (l_pending_end (lw_lane w) && negb (l_poisoned (lw_lane w)) && bool_decide (queued (l_framer (lw_lane w)) = 0)%nat)
       finalize_object)
    (fun _ w' => mid done w' /\ (of_ready (l_framer (lw_lane w')) = [] /\ l_pending_end (lw_lane w') = false \/
                               (max <= length (l_held (lw_lane w')))%nat)).
Proof.
  intros Hm Hdr. apply tr_when.
  - intros [[Hpe _]%andb_prop Hq%bool_decide_eq_true]%andb_prop.
    eapply tr_weaken_post; [apply (tr_finalize done); [done|done|by apply nil_length_inv]|].
    intros ? w2 (Hm2 & Hb & _). split; [done|]. left. split; [apply (bw_ready _ Hb)|apply (bw_end _ Hb)].
  - intros Hb. split; [done|]. destruct Hdr as [Hr|Hfull]; [|by right]. left. split; [done|].
    unfold queued in Hb. rewrite (so_poisoned _ (go_sound _ _ _ _ Hm)), Hr in Hb.
    by rewrite !andb_true_r in Hb.
Qed.

Lemma tr_top_cut done max w :
  mid done w -> (of_ready (l_framer (lw_lane w)) = [] /\ l_pending_end (lw_lane w) = false \/
                 (max <= length (l_held (lw_lane w)))%nat) ->
  tr (at_world w)
    (when (l_truncated (lw_lane w) && bool_decide (queued (l_framer (lw_lane w)) = 0)%nat)
       (on_lane (fun l => set_current_object None (set_truncated false l))))
    (fun _ w' => mid done w' /\ (emptied (lw_lane w') \/ (max <= length (l_held (lw_lane w')))%nat)).
Proof.
  intros Hm Hdr. apply tr_when.
  - intros [Htr Hq%bool_decide_eq_true]%andb_prop. apply nil_length_inv in Hq.
    destruct (mid_settle_cut done w Hm Htr Hq) as [Hm' Hpe]. intros w' t ->. split; [exact Hm'|].
    cbn. left. by split_and!.
  - intros Hb. split; [done|]. destruct Hdr as [[Hr Hpe]|Hfull]; [|by right]. left. split_and!; [done|done|].
    unfold queued in Hb. rewrite Hr in Hb. by rewrite andb_true_r in Hb.
Qed.

Lemma tr_poll_drain done max w : mid done w -> tr (at_world w) (poll_drain max) (after_top done max).
Proof.
  intros Hm. unfold poll_drain. eapply tr_then; [by apply tr_drain_framer|]. intros [e|u] w1.
  { intros Hh. by apply tr_ret_at. }
  intros [[Hh Hpo]|[Hm1 Hdr]]; apply tr_lane.
  - rewrite Hpo. cbn [negb]. rewrite andb_false_r. cbn [andb when]. eapply (tr_then _ _ _ _ (fun _ => quiet done)).
    { by apply tr_ret_at. }
    intros ? w2 [Hh2 Hpo2]. apply tr_lane. eapply (tr_then _ _ _ _ (fun _ => quiet done)).
    { apply tr_when; [|done]. intros _ w' t ->. split; [|done]. destruct Hh2. by split; [left|..]. }
    intros ? w3 [Hh3 Hpo3]. apply tr_lane, tr_ret_at. rewrite Hpo3. by split.
  - eapply tr_then; [by eapply tr_top_end|]. intros ? w2 [Hm2 Hd2]. apply tr_lane.
    eapply tr_then; [by eapply tr_top_cut|]. intros ? w3 [Hm3 Hd3]. apply tr_lane, tr_ret_at.
    rewrite (so_poisoned _ (go_sound _ _ _ _ Hm3)). case_bool_decide; [by split|]. destruct Hd3; [by split|done].
Qed.

(** ** The framer fed *)

Definition with_framer (o : ObjectFramer) (w : LW) : LW :=
  mkLaneWorld (set_framer o (lw_lane w)) (lw_rx w) (lw_tracker w) (lw_acts w).

(** In the middle of object [i], [b] being its bytes not yet fed to its sink. *)
Record reading (done : list HeldRecord) (i : nat) (c : CurrentObject) (s : Sink) (b : list Z) (fin : bool)
    (rx : list ChunkMsg) (w : LW) : Prop := {
  rd_sound : sound (lw_lane w);
  rd_candidate : risen done (done ++ l_held (lw_lane w)) (l_watermark_candidate (lw_lane w));
  rd_terminal : tk_terminal (lw_tracker w) = None;
  rd_seen : seen cut_ok (lw_acts w) = Some (end_of done, LaneReading, None);
  rd_end : l_pending_end (lw_lane w) = false;
  rd_cut : l_truncated (lw_lane w) = false;
  rd_sink : of_sink (l_framer (lw_lane w)) = Some s;
  rd_ok : sink_ok f0 s;
  rd_inside : inside (done ++ l_held (lw_lane w)) i c
    (stamp (Z.of_nat i) (co_event_time_ms c) (co_next_record c + Z.of_nat (length (of_ready (l_framer (lw_lane w)))))
       (sink_rest f0 s b).1 ++ stream_records rx) (lw_lane w);
  rd_fine : (sink_rest f0 s b).2 && fin && stream_ok rx = fine;
}.

Lemma mid_reading done m rx w :
  mid_rx done (m :: rx) w -> emptied (lw_lane w) -> l_current (lw_lane w) <> None ->
  exists i c s, reading done i c s (of_pending (l_framer (lw_lane w)) ++ object_bytes (m :: rx)) (closes (m :: rx)) (m :: rx) w /\
    proto cut_ok i true (m :: rx).
Proof.
  intros [Hso Hca Ht (cut & Hs & Hl)] (Hr & Hpe & Htr) Hcur.
  destruct Hl as [i Hb|st i c tail Hin Hst|Hb]; [by rewrite (bw_current _ Hb) in Hcur| |by rewrite (bw_current _ Hb) in Hcur].
  destruct st; cbn [stage_ok] in Hst; [|destruct Hst; congruence|destruct Hst as (? & ? & _); congruence].
  destruct Hst as (_ & _ & -> & Hpr & s & Hsk & Hok & -> & Hf). exists i, c, s. by split.
Qed.

Lemma reading_mid done i c s rx w :
  reading done i c s (of_pending (l_framer (lw_lane w)) ++ object_bytes rx) (closes rx) rx w ->
  proto cut_ok i true rx -> mid_rx done rx w.
Proof.
  intros [? ? ? ? ? ? ? ? ? ?] Hpr. split; [done..|]. exists None. split; [done|].
  eapply (live_inside _ _ _ _ Reads); [done|]. cbn. split_and!; try done. by exists s.
Qed.

Lemma reading_fed done i c s b fin rx w o s' b' new :
  reading done i c s b fin rx w -> of_ready o = of_ready (l_framer (lw_lane w)) ++ new ->
  of_sink o = Some s' -> sink_ok f0 s' -> yields (sink_rest f0 s b) new (Some (sink_rest f0 s' b')) ->
  reading done i c s' b' fin rx (with_framer o w).
Proof.
  intros [[? ? ? ?] ? ? ? ? ? ? ? Hin Hf] Hr Hs Hok Hy. cbn in Hy.
  rewrite Hy in Hin, Hf. unfold then_framed in Hin, Hf. cbn in Hin, Hf. destruct Hin as [? ? ? ? He].
  split; cbn; try done. split; cbn; try done. rewrite Hr. rewrite <- He, !stamp_app, length_app, <- !app_assoc.
  do 6 f_equal. lia.
Qed.

Lemma reading_pausable done i c s b fin rx w : reading done i c s b fin rx w -> pausable done w.
Proof.
  intros [? ? ? ? ? ? ? ? Hin ?]. split; [done| |by exists None]. rewrite <- (in_exp _ _ _ _ _ Hin), <- app_assoc.
  by apply prefix_app_r.
Qed.

(** A pump that succeeds leaves the object read, one that fails can only stop. *)
Lemma pump_reading done i c s w more fin rx b (ready' := of_ready (l_framer (lw_lane w))) :
  let o := mkFramer (of_sink (l_framer (lw_lane w))) ready' b (of_finished_decoded_bytes (l_framer (lw_lane w))) in
  reading done i c s (b ++ more) fin rx w ->
  exists o' ok, pump o = Some (o', ok) /\ pausable done (with_framer o' w) /\
    (ok = true -> exists s', reading done i c s' (of_pending o' ++ more) fin rx (with_framer o' w)).
Proof.
  intros o Hr. destruct (pump_spec f0 o s) as (o' & ok & new & Hp & Hq & Hok); [apply Hr|apply Hr|].
  exists o', ok. split_and!; [done| |].
  - apply reading_pausable in Hr. by apply pausable_on_lane.
  - intros ->. destruct Hok as (s' & Hs' & Hok' & Hy). exists s'. by eapply reading_fed.
Qed.

(** ** Messages *)

Definition after_msg (done : list HeldRecord) (r : SourceError + unit) (w : LW) : Prop :=
  match r with inl _ => halted done w | inr _ => quiet done w \/ mid done w end.

Lemma tr_poison_msg done w kind reason :
  pausable done w -> tr (at_world w) (poison kind reason;;; mret (inr tt)) (after_msg done).
Proof.
  intros Hp. eapply tr_then; [by apply (tr_poison done)|]. intros ? w' Hq. apply tr_ret_at. by left.
Qed.

Lemma tr_on_start done w i k t :
  mid_rx done (ObjectStart i k t :: lw_rx w) w -> between (lw_lane w) ->
  tr (at_world w) (on_start f0 compression i k t) (after_msg done).
Proof.
  intros Hm Hb. pose proof (mid_pausable _ _ _ Hm) as Hpa. unfold on_start. apply tr_lane.
  unfold begin_object. destruct (sink_new (codec_resolve compression k) f0) as [s|] eqn:Hs; cbn [mbind option_bind];
    [|by apply tr_poison_msg].
  destruct Hm as [[? ? ? ?] Hca Ht (cut & Hse & Hl)]. unfold on_lane. apply tr_step. rewrite so_resume0.
  apply tr_step. apply tr_ret_at. right. destruct Hb as [Hb1 Hb2 Hb3 Hb4 Hb5].
  destruct Hl as [j _ Hpr -> Hle He Hf|st j c tail Hin _|_ Hrx _ _]; [|by destruct Hin; congruence|done].
  inversion Hpr as [|? ? ? ? Hpr'| | | |]; subst. assert (Hok : sink_ok f0 s).
  { split.
    - destruct (codec_resolve compression k); cbn in Hs; [injection Hs as <-; apply framer_start|..];
        (destruct (decoder_new _); [|done]; injection Hs as <-; apply framer_start). 
    - destruct (codec_resolve compression k); cbn in Hs; [injection Hs as <-; apply framer_start|..];
        (destruct (decoder_new _); [|done]; injection Hs as <-; apply framer_start). }
  assert (Hfr : framed k (object_bytes (lw_rx w)) = sink_rest f0 s (object_bytes (lw_rx w))).
  { unfold framed, object_frame. by rewrite Hs. }
  apply (reading_mid done j (mkCurrent (Z.of_nat j) k 0 t) s); cbn; [|done].
  cbn [stream_records stream_ok] in He, Hf. rewrite Hfr in He, Hf. rewrite Hb5. cbn [app].
  split; cbn; try done. split; cbn; [done|done|rewrite MAX_RECORD_INDEX_value; lia|lia|]. by rewrite Hb4.
Qed.

Lemma tr_on_chunk done w b :
  mid_rx done (Chunk b :: lw_rx w) w -> emptied (lw_lane w) -> l_current (lw_lane w) <> None ->
  of_pending (l_framer (lw_lane w)) = [] ->
  tr (at_world w) (on_msg f0 compression (Chunk b)) (after_msg done).
Proof.
  intros Hm Hem Hcur Hp. destruct (mid_reading _ _ _ _ Hm Hem Hcur) as (i & c & s & Hr & Hpr).
  rewrite Hp in Hr. cbn [app object_bytes] in Hr. inversion Hpr as [| |? ? ? Hpr'| | |]; subst.
  assert (Hr' : reading done i c s (b ++ object_bytes (lw_rx w)) (closes (lw_rx w)) (lw_rx w) w) by (by destruct Hr; split).
  cbn [on_msg]. apply tr_lane. unfold push_chunk.
  destruct (pump_reading _ _ _ _ _ _ _ _ _ Hr') as (o' & ok & -> & Hpa & Hok). unfold on_lane. apply tr_step.
  destruct ok; cbn [negb when].
  - destruct (Hok eq_refl) as [s' Hr2]. eapply (tr_then _ _ _ _ (fun _ w' => w' = with_framer o' w)); [by apply tr_ret_at|].
    intros ? w' ->. apply tr_ret_at. right. by eapply reading_mid.
  - by apply tr_poison_msg.
Qed.

Lemma tr_on_object_end done w :
  mid_rx done (ObjectEnd :: lw_rx w) w -> emptied (lw_lane w) -> l_current (lw_lane w) <> None ->
  of_pending (l_framer (lw_lane w)) = [] ->
  tr (at_world w) (on_msg f0 compression ObjectEnd) (after_msg done).
Proof.
  intros Hm Hem Hcur Hp. destruct (mid_reading _ _ _ _ Hm Hem Hcur) as (i & c & s & Hr & Hpr).
  rewrite Hp in Hr. cbn [app object_bytes closes stream_records stream_ok] in Hr. inversion Hpr as [| | |? ? Hpr'| |]; subst.
  pose proof (reading_pausable _ _ _ _ _ _ _ _ Hr) as Hpa. cbn [on_msg]. apply tr_lane.
  destruct Hr as [[? ? ? ?] Hca Ht Hse Hpe Htr Hsk Hok [Hc Hi Hn Ha He] Hf].
  destruct (finish_object_spec f0 (l_framer (lw_lane w)) s Hsk Hok) as (o' & ok & new & -> & Hq & Hs' & Hp' & Hy).
  unfold on_lane. apply tr_step. destruct ok; [|by apply tr_poison_msg, pausable_on_lane].
  apply tr_step. apply tr_ret_at. right. cbn in Hy. unfold then_framed in Hy. cbn in Hy. rewrite app_nil_r in Hy.
  rewrite Hy in He, Hf. cbn in He, Hf. split; cbn; [done|done|done|]. exists None. split; [done|].
  eapply (live_inside _ _ _ _ Ends i c (stream_records (lw_rx w))).
  - split; cbn; [done|done|done|done|]. by rewrite Hq, <- He, stamp_app, <- !app_assoc.
  - cbn. by rewrite Hp', Hp.
Qed.

Lemma tr_on_failed done w f :
  mid_rx done (LaneFailed f :: lw_rx w) w -> emptied (lw_lane w) -> l_current (lw_lane w) <> None ->
  of_pending (l_framer (lw_lane w)) = [] ->
  tr (at_world w) (on_msg f0 compression (LaneFailed f)) (after_msg done).
Proof.
  intros Hm Hem Hcur Hp. pose proof (mid_pausable _ _ _ Hm) as Hpa. destruct f as [kind reason|class reason|o]; cbn [on_msg].
  - by apply tr_poison_msg.
  - eapply tr_then; [by apply (tr_fail done)|]. intros e w' Hh. by apply tr_ret_at.
  - destruct (mid_reading _ _ _ _ Hm Hem Hcur) as (i & c & s & Hr & Hpr).
    inversion Hpr as [| | | |? ? Hcut Hrx|]; subst.
    destruct Hr as [[? ? ? ?] Hca Ht Hse Hpe Htr Hsk Hok [Hc Hi Hn Ha He] Hf].
    assert (Hse' : seen cut_ok (lw_acts w ++ [Reported EtagDrift "overwritten" (Some o)]) = Some (end_of done, LaneReading, Some o)).
    { rewrite seen_snoc, Hse. cbn. by rewrite (Hcut o eq_refl). }
    assert (Hmid : forall l acts, l_held l = l_held (lw_lane w) -> l_framer l = l_framer (lw_lane w) ->
      sound l -> l_watermark_candidate l = l_watermark_candidate (lw_lane w) -> l_current l = Some c ->
      l_pending_end l = false -> l_truncated l = true ->
      seen cut_ok acts = Some (end_of done, LaneReading, Some o) ->
      mid done (mkLaneWorld l (lw_rx w) (lw_tracker w) acts)).
    { intros l acts El Ef ? Ec ? ? ? Hs. unfold mid_rx. cbn. rewrite El. split; cbn; [done|by rewrite Ec|done|].
      eexists. split; [exact Hs|]. eapply (live_inside _ _ _ _ Cuts i c); [|by cbn; rewrite Ef].
      split; [done..|]. rewrite Ef. exact He. }
    unfold overwritten, on_lane, act. eapply tr_then.
    + do 2 apply tr_step. apply (tr_wake _ (fun _ w' => mid done w')); [intros _|]; cbn; (apply Hmid; try done); by apply seen_woke.
    + intros ? w' Hm'. apply tr_ret_at. by right.
Qed.

Lemma tr_on_msg done w m :
  mid_rx done (m :: lw_rx w) w -> emptied (lw_lane w) -> of_pending (l_framer (lw_lane w)) = [] ->
  tr (at_world w) (on_msg f0 compression m) (after_msg done).
Proof.
  intros Hm Hem Hp. destruct (decide (l_current (lw_lane w) = None)) as [Hc|Hc].
  - pose proof Hm as [_ _ _ (cut & _ & Hl)]. destruct Hl as [i Hb Hpr|st i c tail Hin|_ Hrx]; [|by destruct Hin; congruence|done].
    inversion Hpr; subst. by apply tr_on_start.
  - destruct (mid_reading _ _ _ _ Hm Hem Hc) as (i & c & s & _ & Hpr).
    inversion Hpr; subst; [by apply tr_on_chunk|by apply tr_on_object_end|by apply tr_on_failed].
Qed.

(** ** A pass of the loop *)

(** A poll that ends without a batch. *)
Definition resting (done : list HeldRecord) (w : LW) : Prop := going done done (lw_rx w) w.

Definition after_round (done : list HeldRecord) (r : bool + PollStep) (w : LW) : Prop :=
  match r with
  | inl _ => mid done w
  | inr Idle => resting done w \/ quiet done w \/ ended_at done w
  | inr (Erred _) => halted done w
  | inr Emit => mid done w /\ l_held (lw_lane w) <> []
  end.

Lemma mid_resting done w : mid done w -> l_held (lw_lane w) = [] -> resting done w.
Proof. intros Hm Hh. unfold mid_rx in Hm. by rewrite Hh, app_nil_r in Hm. Qed.

Lemma tr_on_closed done w :
  mid done w -> emptied (lw_lane w) -> lw_rx w = [] ->
  tr (at_world w) on_closed (after_round done).
Proof.
  intros Hm (Hr & _ & _) Hrx. unfold on_closed. apply tr_lane. case_bool_decide as Hc.
  { eapply tr_then; [apply (tr_fail done); by eapply mid_pausable|]. intros e w' Hh. by apply tr_ret_at. }
  rewrite bool_decide_false by (unfold queued; rewrite Hr; cbn; lia).
  case_bool_decide as Hh; [by apply tr_ret_at|].
  pose proof (mid_resting _ _ Hm Hh) as [Hso Hca Ht (cut & Hs & Hl)].
  assert (Hend : done `prefix_of` exp /\ (cut = None -> done = exp /\ fine = true)).
  { split; [by eapply live_prefix|]. intros ->. rewrite Hrx in Hl. destruct Hl as [i Hb Hpr _ _ He Hf|st i c tail Hin|]; [| |done].
    - cbn in He, Hf. by rewrite app_nil_r in He.
    - exfalso. apply Hc. rewrite (in_current _ _ _ _ _ Hin). by eexists. }
  destruct Hca as [Hca _]. unfold on_tracker, act. do 2 apply tr_step. cbn. rewrite Hca.
  assert (Hs' : seen cut_ok (lw_acts w ++ [SetTerminal (end_of done)]) = Some (end_of done, LaneEnded, cut)).
  { rewrite seen_snoc, Hs. cbn. by rewrite option_guard_True. }
  eapply (tr_then _ _ _ _ (fun _ => ended_at done)); [|intros ? w' He; apply tr_ret_at; by right; right].
  apply tr_wake; [intros _|]; (split; cbn; [done|apply Hend|]; exists cut; split; [|apply Hend]);
    [exact Hs'|by apply seen_woke].
Qed.

(** What [try_recv] and the wait give. *)
Lemma tr_arrived done w b :
  mid done w -> emptied (lw_lane w) ->
  tr (at_world w) (arrived b)
    (fun r w' => lw_lane w' = lw_lane w /\
       match r with
       | Message m => mid_rx done (m :: lw_rx w') w'
       | Closed => mid done w' /\ lw_rx w' = []
       | Nothing => mid done w'
       end).
Proof.
  intros Hm He. destruct b; cbn [arrived]; [|by apply tr_ret_at]. unfold receive. intros w' t ->.
  unfold mbind, prog_bind, get. destruct (lw_rx w) as [|m rx] eqn:Hrx; cbn.
  - rewrite Hrx. done.
  - split; [done|]. destruct Hm as [? ? ? ?]. by split.
Qed.

Lemma tr_on_received done w r :
  emptied (lw_lane w) -> of_pending (l_framer (lw_lane w)) = [] ->
  match r with
  | Message m => mid_rx done (m :: lw_rx w) w
  | Closed => mid done w /\ lw_rx w = []
  | Nothing => mid done w /\ l_held (lw_lane w) = []
  end ->
  tr (at_world w) (on_received f0 compression r) (after_round done).
Proof.
  intros He Hp Hr. destruct r as [m| |]; cbn [on_received].
  - eapply tr_then; [by apply tr_on_msg|]. intros [e|u] w' Ha; [by apply tr_ret_at|]. apply tr_lane, tr_ret_at.
    destruct Ha as [[Hh Hq]|Hm']; [rewrite Hq; by right; left|].
    by rewrite (so_poisoned _ (go_sound _ _ _ _ Hm')).
  - destruct Hr as [Hm Hrx]. by apply tr_on_closed.
  - destruct Hr as [Hm Hh]. apply tr_ret_at. left. by apply mid_resting.
Qed.

Lemma tr_now {A} w (k : Z -> Prog LW LaneAnswer A) R :
  (forall t, tr (at_world w) (k t) R) -> tr (at_world w) (now ≫= k) R.
Proof. intros Hk. apply tr_ask. intros q t _. apply Hk. Qed.

Lemma tr_pump_round done w :
  mid done w -> emptied (lw_lane w) -> has_pending_input (l_framer (lw_lane w)) = true ->
  tr (at_world w)
    (match pump (l_framer (lw_lane w)) with
     | None => panic
     | Some (o, ok) =>
         on_lane (set_framer o);;;
         if ok : bool then mret (inl true) else poison Undecodable "decoding";;; mret (inr Idle)
     end) (after_round done).
Proof.
  intros Hm He Hp%bool_decide_eq_true. pose proof (mid_pausable _ _ _ Hm) as Hpa.
  destruct Hm as [Hso Hca Ht (cut & Hs & Hl)].
  destruct Hl as [i Hb|st i c tail Hin Hst|Hb]; [by rewrite (bw_pending _ Hb) in Hp| |by rewrite (bw_pending _ Hb) in Hp].
  destruct st; cbn [stage_ok] in Hst; [|naive_solver..].
  destruct Hst as (Hpe & Htr & -> & Hpr & s & Hsk & Hok & -> & Hf).
  assert (Hr : reading done i c s (of_pending (l_framer (lw_lane w)) ++ object_bytes (lw_rx w)) (closes (lw_rx w)) (lw_rx w) w)
    by (by split).
  destruct (pump_reading _ _ _ _ _ _ _ _ _ Hr) as (o' & ok & Hpump & Hpa' & Hok').
  destruct (l_framer (lw_lane w)) as [sk rd pd fd] eqn:Ef. cbn in Hpump. rewrite Hpump. unfold on_lane. apply tr_step.
  fold (with_framer o' w). destruct ok.
  - destruct (Hok' eq_refl) as [s' Hr']. apply tr_ret_at. by eapply (reading_mid _ _ _ s' (lw_rx w) (with_framer o' w)).
  - eapply tr_then; [by apply (tr_poison done)|]. intros ? w' Hq. apply tr_ret_at. by right; left.
Qed.

Lemma tr_recv_round done w deadline :
  mid done w -> emptied (lw_lane w) -> of_pending (l_framer (lw_lane w)) = [] ->
  tr (at_world w)
    (r ← try_recv;
     match r with
     | Nothing =>
         if bool_decide (l_held (lw_lane w) <> []) then mret (inr Emit)
         else
           t ← now;
           if bool_decide (deadline <= t) then mret (inr Idle)
           else r ← recv_until; on_received f0 compression r
     | r => on_received f0 compression r
     end) (after_round done).
Proof.
  intros Hm He Hp. unfold try_recv. eapply tr_then; [apply tr_ask; intros; by apply tr_arrived|].
  intros r w1 [Hl1 Hr]. rewrite <- Hl1 in He, Hp. destruct r as [m| |]; [by apply tr_on_received..|].
  rewrite <- Hl1. case_bool_decide as Hh; [by apply tr_ret_at|]. apply tr_now. intros t.
  case_bool_decide; [apply tr_ret_at; left; by apply mid_resting|].
  unfold recv_until. eapply tr_then; [apply tr_ask; intros; by apply tr_arrived|].
  intros r w2 [Hl2 Hr2]. apply tr_on_received; rewrite ?Hl2; [done|done|]. by destruct r.
Qed.

Lemma tr_poll_round done max deadline attempted w :
  (0 < max)%nat -> mid done w ->
  tr (at_world w) (poll_round f0 compression max deadline attempted) (after_round done).
Proof.
  intros Hmax Hm. unfold poll_round. eapply tr_then; [by apply tr_poll_drain|]. intros r w1 Hr.
  destruct r as [[| |]|]; cbn in Hr.
  { apply tr_ret_at. by right; left. }
  { by apply tr_ret_at. }
  { apply tr_ret_at. destruct Hr as [Hm1 Hfull]. split; [done|]. intros Hh. rewrite Hh in Hfull. cbn in Hfull. lia. }
  destruct Hr as [Hm1 He1]. eapply (tr_then _ _ _ _ (fun _ w' => w' = w1)).
  { destruct attempted; [|by apply tr_ret_at]. apply tr_now. intros t. by apply tr_ret_at. }
  intros late w2 ->. apply tr_lane. destruct late.
  { apply tr_ret_at. case_bool_decide as Hh; [left; by apply mid_resting|by split]. }
  destruct (has_pending_input (l_framer (lw_lane w1))) eqn:Hp; [by apply tr_pump_round|].
  apply tr_recv_round; [done|done|]. unfold has_pending_input in Hp. apply bool_decide_eq_false in Hp. by apply dec_stable.
Qed.

(** ** A poll *)

Definition after_poll (done : list HeldRecord) (r : SourceError + option (list HeldRecord)) (w : LW) : Prop :=
  match r with
  | inl _ => halted done w
  | inr None => resting done w \/ quiet done w \/ ended_at done w
  | inr (Some b) => b <> [] /\ resting (done ++ b) w
  end.

Lemma end_of_app a b : b <> [] -> end_of (a ++ b) = end_of b.
Proof. intros Hb. unfold end_of. rewrite last_app. destruct (last b) eqn:Hl; [done|]. by apply last_None in Hl. Qed.

Lemma tr_emit done w :
  mid done w -> l_held (lw_lane w) <> [] ->
  tr (at_world w)
    (l ← lane;
     match last (l_held l) with
     | None => panic
     | Some r => act (Issued (hr_offset r));;; mret (inr (Some (l_held l)))
     end) (after_poll done).
Proof.
  intros [Hso [Hca Hri] Ht (cut & Hs & Hl)] Hh. apply tr_lane. set (b := l_held (lw_lane w)) in *.
  destruct (last b) as [r|] eqn:Hlast; [|by apply last_None in Hlast].
  assert (He : end_of (done ++ b) = hr_offset r + 1).
  { rewrite end_of_app by done. unfold end_of. by rewrite Hlast. }
  apply tr_step, tr_ret_at. split; [done|]. split; cbn; [done|by split; [|left]|done|]. exists cut. split; [|done].
  rewrite seen_snoc, Hs. cbn. rewrite option_guard_True; [by rewrite He|]. split; [done|].
  destruct Hri as [Hri|Hri]; [|lia]. exfalso. apply Hh. by rewrite <- (app_nil_r done) in Hri at 2; apply (inj (app done)) in Hri.
Qed.

Lemma tr_poll done max timeout w :
  (0 < max)%nat -> resting done w ->
  tr (at_world w) (poll f0 compression max timeout) (after_poll done).
Proof.
  intros Hmax Hr. unfold poll. apply tr_lane. pose proof (go_sound _ _ _ _ Hr) as Hso.
  rewrite (so_failed _ Hso), (so_poisoned _ Hso). unfold on_lane. apply tr_step. apply tr_now. intros t.
  eapply (upto_bind _ _ _ _ (fun s => after_round done (inr s))).
  - eapply upto_weaken; [apply (upto_loop_from _ (fun _ w => mid done w))| |intros a w' Ha; exact Ha].
    + intros attempted. apply tr_at. intros w' Hm. eapply tr_weaken_post; [by apply tr_poll_round|].
      by intros [b|s] w2.
    + intros w' ->. unfold mid_rx. cbn. rewrite app_nil_r. destruct Hr as [[? ? ? ?] ? ? (cut & ? & Hl)].
      split; cbn; [done..|]. exists cut. split; [done|].
      destruct Hl as [i [? ? ? ? ?]|st i c tail [? ? ? ? ?] Hst|[? ? ? ? ?]]; [by eapply live_between|by eapply (live_inside _ _ _ _ st)|by apply live_cut].
  - intros s. apply tr_at. intros w' Ha. destruct s; cbn in Ha; [by apply tr_ret_at..|]. destruct Ha. by apply tr_emit.
Qed.

(** A lane that has stopped hands out nothing more. *)
Lemma poll_halted done max timeout w t :
  halted done w ->
  exists r, poll f0 compression max timeout w t = Ran r w t /\ forall b, r <> inr (Some b).
Proof.
  intros [Hst _ _ _]. unfold poll, lane, mbind, prog_bind, get, mret, prog_ret.
  destruct (l_failed (lw_lane w)) as [[c r]|]; [by eexists|].
  destruct Hst as [Hst|Hst]; [|done]. rewrite Hst. by eexists.
Qed.

(** ** The driver *)

(** Where a run of polls may stand. *)
Definition standing (done : list HeldRecord) (w : LW) : Prop :=
  resting done w \/ halted done w \/ ended_at done w.

Lemma tr_lane_run ps : forall done,
  Forall (fun p => 0 < p.1)%nat ps ->
  tr (standing done) (lane_run f0 compression ps) (fun rs => standing (done ++ rs)).
Proof.
  induction ps as [|[max timeout] ps IH]; intros done Hps; cbn [lane_run].
  { apply upto_ret. intros w Hw. by rewrite app_nil_r. }
  apply Forall_cons in Hps as [Hmax Hps]. apply upto_get. intros w Hw. unfold lane_finished. case_bool_decide as Hfin.
  { apply tr_ret_at. by rewrite app_nil_r. }
  assert (Hpoll : tr (at_world w) (poll f0 compression max timeout)
    (fun r w' => standing (done ++ match r with inr (Some b) => b | _ => [] end) w')).
  { destruct Hw as [Hw|[Hw|Hw]].
    - eapply tr_weaken_post; [by apply (tr_poll done)|].
      intros [e|[b|]] w' Ha; cbn in Ha; rewrite ?app_nil_r; [by right; left|left; apply Ha|].
      destruct Ha as [Ha|[[Ha _]|Ha]]; [by left|by right; left|by right; right].
    - intros w' t ->. destruct (poll_halted done max timeout w t Hw) as (r & -> & Hr).
      right; left. destruct r as [e|[b|]]; rewrite ?app_nil_r; [done| |done]. by destruct (Hr b).
    - exfalso. apply Hfin. rewrite (ed_terminal _ _ Hw). by eexists. }
  eapply tr_then; [exact Hpoll|]. intros r w' Hs. destruct r as [e|ob].
  { by apply tr_ret_at. }
  set (b := match ob with Some b => b | None => [] end).
  eapply tr_then; [eapply upto_weaken; [by apply (IH (done ++ b))|intros ? ->; by destruct ob|intros ? ? Hr; exact Hr]|].
  intros rs w2 H2. apply tr_ret_at. rewrite app_assoc. by destruct ob.
Qed.
End lane_proofs.
