(* ===== verification/S3LaneRuns.v ===== *)
(** * A unit's part from the store to the batches

    The fetcher's messages are those the lane's theorems ask for, so a fetcher
    and a lane together read a part: what the lane hands out is the records of
    the member objects, in order and numbered by object, and a lane that
    decides the end of its input without an overwrite has handed out all of
    them. What the lane shows the unit reader meanwhile is a run of the
    environment the unit reader's theorems assume. *)

From stdpp Require Import base gmap strings list.
From Stdlib Require Import ZArith Lia.
From S2P Require Import Prelude EndCheck JobEnd Framing S3Split S3Offset S3Unit S3UnitProofs Oracle Backoff UnitReader S3Fetch S3FetchProofs S3Framer S3Lane S3LaneProofs.

(** ** The lane's acts as events of the unit reader's environment *)

(** The overwrites a part may report. *)
Definition cuttable (part : Part) (o : Overwrite) : bool :=
  match p_origin part, p_object part with
  | Notification None _, [e] => bool_decide (e_key e = o_key o)
  | _, _ => false
  end.

Definition events (p : Z) (a : LaneAct) : list EnvEvent :=
  match a with
  | Issued last => [LEmit p (last + 1)]
  | Reported kind reason None => [LPoison p kind reason]
  | Reported _ _ (Some o) => [LOverwrite p o]
  | SetTerminal _ => [LEnd p]
  | Woke => []
  end.

Lemma env_run_app a b w : env_run (a ++ b) w = env_run a w ≫= env_run b.
Proof. revert w. induction a as [|e a IH]; intros w; cbn; [done|]. destruct (env_step e w); [apply IH|done]. Qed.

Lemma lookup_set_lane p l w : w_lanes (set_lane p l w) !! p = Some l.
Proof. unfold set_lane, set_w_lanes. cbn. by rewrite lookup_insert_eq. Qed.

Lemma seen_env p d part paused acts w0 e m c :
  w_lanes w0 !! p = Some (mkLane d part paused 0 0 LaneReading None) ->
  seen (cuttable part) acts = Some (e, m, c) ->
  exists w, env_run (acts ≫= events p) w0 = Some w /\ w_lanes w !! p = Some (mkLane d part paused e 0 m c).
Proof.
  intros Hw0. revert e m c. induction acts as [|a acts IH] using rev_ind; intros e m c Hs.
  { injection Hs as <- <- <-. by exists w0. }
  rewrite seen_snoc in Hs. destruct (seen (cuttable part) acts) as [[[e1 m1] c1]|]; [|done].
  destruct (IH e1 m1 c1 eq_refl) as (w1 & Hr1 & Hl1). rewrite bind_app, env_run_app, Hr1. cbn.
  destruct a as [last|kind reason [o|]|t|]; cbn in Hs |- *; [..|injection Hs as <- <- <-; by exists w1];
    rewrite Hl1; cbn.
  - case_guard; [|done]. cbn in *. simplify_eq. eexists. split; [done|]. apply lookup_set_lane.
  - case_guard as Hg; [|done]. cbn in Hs. injection Hs as <- <- <-. destruct Hg as (-> & -> & Hg).
    rewrite option_guard_True by (by split). cbn. eexists. split; [done|]. apply lookup_set_lane.
  - case_guard; [|done]. cbn in *. simplify_eq. eexists. split; [done|]. apply lookup_set_lane.
  - case_guard as Hg; [|done]. cbn in Hs. injection Hs as <- <- <-. destruct Hg as [-> ->].
    rewrite option_guard_True by done. cbn. eexists. split; [done|]. apply lookup_set_lane.
Qed.

(** A report of an overwrite is among the acts wherever one was seen. *)
Lemma seen_cut cut_ok acts e m o :
  seen cut_ok acts = Some (e, m, Some o) -> exists kind reason, Reported kind reason (Some o) ∈ acts.
Proof.
  revert e m. induction acts as [|a acts IH] using rev_ind; intros e m Hs; [done|].
  rewrite seen_snoc in Hs. destruct (seen cut_ok acts) as [[[e1 m1] c1]|]; [|done].
  assert (Hc : c1 = Some o \/ exists kind reason, a = Reported kind reason (Some o)).
  { destruct a as [last|kind reason [o'|]|t|]; cbn in Hs; try case_guard; try done; cbn in Hs; injection Hs; intros; subst; eauto. }
  destruct Hc as [->|(kind & reason & ->)].
  - destruct (IH e1 m1 eq_refl) as (kind & reason & Hin). exists kind, reason. apply elem_of_app. by left.
  - exists kind, reason. apply elem_of_app. right. by apply list_elem_of_singleton.
Qed.

Section runs.
Context {F : Type} `{HF : RecordFramer F} `{HQ : FramerQueue F} (f0 : F) `{HS : !FramerSteps f0}.
Context `{HD : Decoders} `{HL : !DecoderLaws}.
Context (compression : Compression).

Notation records := (stream_records f0 compression).
Notation well := (stream_ok f0 compression).

Lemma lane_start_rests cut_ok ms :
  proto cut_ok 0 false ms ->
  resting f0 compression cut_ok (records ms) (well ms) [] (lane_start ms) /\
  lane_new None = Some (lw_lane (lane_start (F := F) ms)).
Proof.
  intros Hp. split; [|done]. split; cbn; [done|by split; [|left]|done|]. exists None. split; [done|].
  by apply (live_between _ _ _ _ _ _ _ _ _ 0).
Qed.

(** What a run of polls leaves, from a fresh lane. *)
Lemma lane_run_stands cut_ok ms ps t :
  proto cut_ok 0 false ms -> Forall (fun p => 0 < p.1)%nat ps ->
  match lane_run f0 compression ps (lane_start ms) t with
  | Ran rs w _ => standing f0 compression cut_ok (records ms) (well ms) rs w
  | Panicked _ => False
  | Stuck => True
  end.
Proof.
  intros Hp Hps. destruct (lane_start_rests _ _ Hp) as [Hr _].
  exact (tr_lane_run f0 compression cut_ok (records ms) (well ms) ps [] Hps (lane_start ms) t (or_introl Hr)).
Qed.

Lemma standing_prefix cut_ok exp fine rs w :
  standing f0 compression cut_ok exp fine rs w -> rs `prefix_of` exp.
Proof.
  intros [[_ _ _ (cut & _ & Hl)]|[Hw|Hw]]; [by eapply live_prefix|apply Hw|apply Hw].
Qed.

Lemma standing_terminal cut_ok exp fine rs w :
  standing f0 compression cut_ok exp fine rs w ->
  exists m cut, seen cut_ok (lw_acts w) = Some (end_of rs, m, cut) /\
    tk_terminal (lw_tracker w) = match m with LaneEnded => Some (end_of rs) | _ => None end /\
    (m = LaneEnded -> cut = None -> rs = exp /\ fine = true).
Proof.
  intros [[_ _ Ht (cut & Hs & _)]|[[_ Ht _ (m & cut & Hs & Hm)]|[Ht _ (cut & Hs & He)]]].
  - by exists LaneReading, cut.
  - exists m, cut. by destruct m.
  - exists LaneEnded, cut. eauto.
Qed.
End runs.

(** a lane hands out the records of its stream, in order. Whatever the
    messages' timing and the batch sizes, a lane polled on a fetcher's stream
    does not panic, and the records of its batches are a prefix of the
    stream's: each object decoded and framed as a whole, the record numbered
    [k] of object [i] at offset [i * 2 ^ 40 + k] with the object's time. The
    terminal watermark is one past the last of them; once it is set, and no
    overwrite was reported, every object ended and decoded, and all of its
    records were handed out. *)
Theorem lane_hands_out_in_order {F} `{RecordFramer F} `{FramerQueue F} (f0 : F) `{!FramerSteps f0} `{Decoders} `{!DecoderLaws}
    (compression : Compression) (cut_ok : Overwrite -> bool) (ms : list ChunkMsg) (ps : list (nat * Z)) (t : list LaneAnswer) :
  proto cut_ok 0 false ms -> Forall (fun p => 0 < p.1)%nat ps ->
  match lane_run f0 compression ps (lane_start ms) t with
  | Ran rs w _ =>
      rs `prefix_of` stream_records f0 compression ms /\
      (forall T, tk_terminal (lw_tracker w) = Some T ->
         T = end_of rs /\
         ((forall kind reason o, Reported kind reason (Some o) ∉ lw_acts w) ->
            rs = stream_records f0 compression ms /\ stream_ok f0 compression ms = true))
  | Panicked _ => False
  | Stuck => True
  end.
Proof.
  intros Hp Hps. pose proof (lane_run_stands f0 compression cut_ok ms ps t Hp Hps) as Hr.
  destruct (lane_run f0 compression ps (lane_start ms) t) as [rs w ?| |]; [|done..].
  split; [by eapply standing_prefix|]. intros T HT.
  destruct (standing_terminal _ _ _ _ _ _ _ Hr) as (m & cut & Hs & Ht & He). rewrite HT in Ht.
  destruct m; try done. injection Ht as ->. split; [done|]. intros Hno. apply He; [done|].
  destruct cut as [o|]; [|done]. destruct (seen_cut _ _ _ _ _ Hs) as (kind & reason & Hin). by destruct (Hno kind reason o).
Qed.

(** ** The fetcher and the lane of a part *)

(** The fetcher [open] starts for a part. *)
Definition part_fetcher (part : Part) (chunk_bytes range_bytes retry_base : Z) : FetcherParams :=
  mkFetcherParams (p_object part) 0 None chunk_bytes range_bytes retry_base (p_range part) (p_origin part).

(** The bytes of a member that are the part's. *)
Definition part_bytes `{ObjectStore} (part : Part) (e : ObjectEntry) : list Z :=
  match e_etag e, p_range part with
  | Some t, None => content (e_key e) t
  | Some t, Some r =>
      sub_bytes (content (e_key e) t) (cut (content (e_key e) t) (sr_delimiter r) (sr_start r))
        (cut (content (e_key e) t) (sr_delimiter r) (sr_end r))
  | None, _ => []
  end.

Section part.
Context `{UnitLib} `{ObjectStore} (part : Part) (chunk range base : Z).
Notation P := (part_fetcher part chunk range base).
Hypothesis Hbase : 0 <= base.
Hypothesis Hchunk : 0 < chunk.
Hypothesis Hunit : unit_ok P.

(** A notification that names no version names one object. *)
Hypothesis Hone : forall b, p_origin part = Notification None b -> exists e, p_object part = [e].

Lemma cuttable_fail e o :
  e ∈ p_object part -> fail_ok P e (SOverwritten o) -> cuttable part o = true.
Proof.
  intros He [Hk [b Ho]]. cbn in Ho. destruct (Hone b Ho) as [e' Hob]. unfold cuttable. rewrite Ho, Hob.
  rewrite Hob in He. apply list_elem_of_singleton in He as ->. by apply bool_decide_eq_true.
Qed.

Lemma proto_chunks cut_ok i cs ms : proto cut_ok i true ms -> proto cut_ok i true ((Chunk <$> cs) ++ ms).
Proof. intros Hp. induction cs as [|c cs IH]; cbn; [done|by constructor]. Qed.

Lemma delivered_proto gone i l ms :
  delivered P gone i l ms -> l ⊆ p_object part -> proto (cuttable part) i false ms.
Proof.
  induction 1 as [| i e l cs ms _ _ _ IH| i e l cs f _ _ _ Hf | i e l cs _ _ _ |]; intros Hl.
  - constructor.
  - constructor. apply proto_chunks. constructor. apply IH. intros x Hx. apply Hl. by right.
  - constructor. apply proto_chunks. constructor. intros o ->. eapply cuttable_fail; [|exact Hf]. apply Hl. by left.
  - constructor. rewrite <- (app_nil_r (Chunk <$> cs)). apply proto_chunks. constructor.
  - constructor.
Qed.

Lemma fetcher_proto t u w t' :
  run_fetcher P fetch_new t = Ran u w t' ->
  delivered P (ft_gone w) 0 (p_object part) (ft_sent w) /\ proto (cuttable part) 0 false (ft_sent w).
Proof.
  intros Hr. pose proof (tr_run_fetcher P Hbase Hchunk Hunit (Z.le_refl 0) fetch_new t eq_refl) as He.
  rewrite Hr in He. destruct He as (_ & tail & Hs & Hd). cbn in Hs, Hd. rewrite <- Hs in Hd.
  split; [done|]. by eapply delivered_proto.
Qed.

Context {F : Type} `{HF : RecordFramer F} `{HQ : FramerQueue F} (f0 : F) `{HS : !FramerSteps f0}.
Context `{HD : Decoders} `{HL : !DecoderLaws}.
Context (compression : Compression).

(** The records of the members from ordinal [i] on. *)
Fixpoint member_records (i : nat) (l : list ObjectEntry) : list HeldRecord :=
  match l with
  | [] => []
  | e :: l =>
      stamp (Z.of_nat i) (e_last_modified_ms e) 0 (framed f0 compression (e_key e) (part_bytes part e)).1 ++
      member_records (S i) l
  end.

Lemma object_bytes_chunks cs m ms :
  (forall b, m <> Chunk b) -> object_bytes ((Chunk <$> cs) ++ m :: ms) = concat cs.
Proof. intros Hm. induction cs as [|c cs IH]; cbn; [|by rewrite IH]. destruct m; [done| |done..]. by destruct (Hm bytes). Qed.
Lemma stream_records_chunks cs ms :
  stream_records f0 compression ((Chunk <$> cs) ++ ms) = stream_records f0 compression ms.
Proof. induction cs; cbn; auto. Qed.
Lemma stream_ok_chunks cs ms : stream_ok f0 compression ((Chunk <$> cs) ++ ms) = stream_ok f0 compression ms.
Proof. induction cs; cbn; auto. Qed.

Lemma expected_bytes i e b :
  p_object part !! i = Some e -> is_Some (e_etag e) -> expected P i e = Some b -> b = part_bytes part e.
Proof.
  intros Hi [t Ht]. unfold expected, part_bytes, pinned_etag, owned. cbn. rewrite andb_false_r, Ht. cbn.
  destruct (bool_decide (e_size e = 0) && bool_decide (p_range part = None)) eqn:Hz; [|by intros [= <-]].
  apply andb_prop in Hz as [Hz%bool_decide_eq_true Hr%bool_decide_eq_true]. intros [= <-]. rewrite Hr.
  pose proof (uo_pinned _ Hunit i e t Hi) as Hs. unfold pinned_etag in Hs. cbn in Hs. rewrite andb_false_r in Hs.
  specialize (Hs Ht). destruct (content (e_key e) t); [done|]. cbn in Hs. lia.
Qed.

Lemma delivered_records i l ms :
  delivered P false i l ms -> drop i (p_object part) = l ->
  (forall e, e ∈ l -> is_Some (e_etag e)) -> stream_ok f0 compression ms = true ->
  stream_records f0 compression ms = member_records i l.
Proof.
  intros Hd. remember false as gone eqn:Hg. revert Hg.
  induction Hd as [| i e l cs ms _ Hr _ IH| i e l cs f _ _ _ _| |]; intros Hg Hl Hp Hok; [done|..]; [| |congruence..].
  - cbn in Hok |- *. apply andb_prop in Hok as [_ Hok]. rewrite stream_ok_chunks in Hok. cbn in Hok.
    rewrite object_bytes_chunks, stream_records_chunks by done. cbn.
    assert (Hi : p_object part !! i = Some e) by (by rewrite <- (Nat.add_0_r i), <- lookup_drop, Hl).
    f_equal; [|apply IH; [done| |by intros; apply Hp; right|done]].
    + destruct (expected P i e) as [b|] eqn:He; cbn in Hr.
      * rewrite Hr, (expected_bytes i e b); [done|done|by apply Hp; left|done].
      * destruct (Hp e (list_elem_of_here _ _)) as [t Ht]. unfold expected, pinned_etag in He. cbn in He.
        rewrite andb_false_r, Ht in He. cbn in He. by case_match.
    + by rewrite <- (Nat.add_1_r i), <- drop_drop, Hl.
  - cbn in Hok. apply andb_prop in Hok as [Hok _]. apply andb_prop in Hok as [_ Hc].
    exfalso. clear -Hc. by induction cs; cbn in Hc; [|auto].
Qed.
End part.

(** C12: a lane and its fetcher keep the contract the unit reader relies on.
    Whatever the object store answers and however the two interleave, the acts
    of the lane on a part (acks issued, reports sent, the terminal watermark
    set) are events the unit reader's environment allows, in the order they
    happen: offsets only grow, an overwrite is reported once, of the part's own
    key, and only where the part may be cut, nothing follows a poison report,
    and the terminal watermark is what was emitted. *)
Theorem lane_keeps_contract `{UnitLib} `{ObjectStore} {F} `{RecordFramer F} `{FramerQueue F} (f0 : F) `{!FramerSteps f0}
    `{Decoders} `{!DecoderLaws} (compression : Compression) (part : Part) (chunk range base p d : Z) (paused : bool)
    (tf tf' : list FetchAnswer) (wf : Fetch) (ps : list (nat * Z)) (tl tl' : list LaneAnswer)
    (rs : list HeldRecord) (w : LaneWorld (F := F)) (w0 : World) :
  0 <= base -> 0 < chunk -> unit_ok (part_fetcher part chunk range base) ->
  (forall b, p_origin part = Notification None b -> exists e, p_object part = [e]) ->
  Forall (fun q => 0 < q.1)%nat ps ->
  run_fetcher (part_fetcher part chunk range base) fetch_new tf = Ran tt wf tf' ->
  lane_run f0 compression ps (lane_start (ft_sent wf)) tl = Ran rs w tl' ->
  w_lanes w0 !! p = Some (mkLane d part paused 0 0 LaneReading None) ->
  exists w1 l, env_run (lw_acts w ≫= events p) w0 = Some w1 /\ w_lanes w1 !! p = Some l /\
    ln_emitted l = end_of rs /\ terminal l = tk_terminal (lw_tracker w).
Proof.
  intros Hb Hc Hu Ho Hps Hf Hl Hw0. destruct (fetcher_proto part chunk range base Hb Hc Hu Ho _ _ _ _ Hf) as [_ Hp].
  pose proof (lane_run_stands f0 compression _ _ ps tl Hp Hps) as Hr. rewrite Hl in Hr.
  destruct (standing_terminal _ _ _ _ _ _ _ Hr) as (m & c & Hs & Ht & _).
  destruct (seen_env p d part paused _ _ _ _ _ Hw0 Hs) as (w1 & He & Hl1).
  exists w1, (mkLane d part paused (end_of rs) 0 m c). split_and!; [done..|]. by rewrite Ht.
Qed.

(** C11: a part is read to its last record. When the lane of a part whose
    members are pinned by ETags decides the end of its input, and no overwrite
    was reported, the records it handed out are exactly those of the members'
    contents, or of the bytes of them the part's range owns, each object
    decoded and framed as a whole, in order: none lost, none twice, none
    invented. The terminal watermark is one past the last. *)
Theorem part_read_whole `{UnitLib} `{ObjectStore} {F} `{RecordFramer F} `{FramerQueue F} (f0 : F) `{!FramerSteps f0}
    `{Decoders} `{!DecoderLaws} (compression : Compression) (part : Part) (chunk range base T : Z)
    (tf tf' : list FetchAnswer) (wf : Fetch) (ps : list (nat * Z)) (tl tl' : list LaneAnswer)
    (rs : list HeldRecord) (w : LaneWorld (F := F)) :
  0 <= base -> 0 < chunk -> unit_ok (part_fetcher part chunk range base) ->
  (forall b, p_origin part = Notification None b -> exists e, p_object part = [e]) ->
  (forall e, e ∈ p_object part -> is_Some (e_etag e)) -> Forall (fun q => 0 < q.1)%nat ps ->
  run_fetcher (part_fetcher part chunk range base) fetch_new tf = Ran tt wf tf' -> ft_gone wf = false ->
  lane_run f0 compression ps (lane_start (ft_sent wf)) tl = Ran rs w tl' ->
  tk_terminal (lw_tracker w) = Some T -> (forall kind reason o, Reported kind reason (Some o) ∉ lw_acts w) ->
  rs = member_records part f0 compression 0 (p_object part) /\ T = end_of rs.
Proof.
  intros Hb Hc Hu Ho Hpin Hps Hf Hg Hl HT Hno.
  destruct (fetcher_proto part chunk range base Hb Hc Hu Ho _ _ _ _ Hf) as [Hd Hp]. rewrite Hg in Hd.
  pose proof (lane_run_stands f0 compression _ _ ps tl Hp Hps) as Hr. rewrite Hl in Hr.
  destruct (standing_terminal _ _ _ _ _ _ _ Hr) as (m & c & Hs & Ht & He). rewrite HT in Ht.
  destruct m; try done. injection Ht as ->. split; [|done]. destruct c as [o|].
  { destruct (seen_cut _ _ _ _ _ Hs) as (kind & reason & Hin). by destruct (Hno kind reason o). }
  destruct (He eq_refl eq_refl) as [-> Hok]. by eapply delivered_records.
Qed.

(** ** A run *)

(** Decoders that copy their input. *)
#[local] Instance copying : Decoders := {|
  decoder := unit;
  decoder_new := fun _ => Some tt;
  decoder_write := fun b d => (d, b, Some (length b));
  decoder_finish := fun d => (d, [], true);
|}.
#[local] Instance copying_laws : DecoderLaws.
Proof.
  refine {| decoder_rest := fun _ b => (b, true) |}.
  - intros [|z b] [] Hb; [done|]. intros more. cbn. by rewrite drop_all.
  - done.
Defined.
#[local] Instance demo_framer : FramerSteps (ndjson_new 100).
Proof. apply NdjsonFramer_steps. lia. Defined.
#[local] Existing Instance demo_store.

Definition demo_part : Part := mkPart [demo_entry 97 5; demo_entry 98 3] None Lister.
Definition demo_polls : list (nat * Z) := [(1%nat, 5); (10%nat, 5); (10%nat, 5); (10%nat, 5)].
(** One message, then [n] more, each after a look at the clock. *)
Definition arrivals (n : nat) : list LaneAnswer :=
  LNow 0 :: LArrived true :: concat (replicate n [LNow 1; LArrived true]).
Definition demo_arrivals : list LaneAnswer := arrivals 2 ++ arrivals 6 ++ arrivals 0.
Definition demo_records : list HeldRecord :=
  [mkRecord 0 7 [1; 2]; mkRecord 1 7 [3; 4]; mkRecord (2 ^ 40) 7 [5]; mkRecord (2 ^ 40 + 1) 7 [6]].

Lemma demo_polls_ok : Forall (fun p => 0 < p.1)%nat demo_polls.
Proof. repeat constructor. Qed.

Lemma demo_proto : proto (fun _ => false) 0 false demo_messages.
Proof. apply (pr_start _ 0). do 4 constructor. apply (pr_start _ 1). repeat constructor. Qed.

Notation demo_lane := (lane_run (ndjson_new 100) CompressionNone demo_polls (lane_start demo_messages) demo_arrivals).

Lemma demo_lane_runs :
  match demo_lane with
  | Ran rs w rest => rs = demo_records /\ rest = [] /\ tk_terminal (lw_tracker w) = Some (2 ^ 40 + 2) /\
      lw_acts w = [Issued 0; Issued (2 ^ 40 + 1); SetTerminal (2 ^ 40 + 2); Woke]
  | _ => False
  end.
Proof. vm_compute. repeat split. Qed.

Lemma demo_no_overwrite kind reason o :
  Reported kind reason (Some o) ∉ [Issued 0; Issued (2 ^ 40 + 1); SetTerminal (2 ^ 40 + 2); Woke].
Proof.
  intros Hin. repeat (apply elem_of_cons in Hin as [Hin|Hin]; [discriminate|]). by apply not_elem_of_nil in Hin.
Qed.

Lemma lane_hands_out_in_order_witness :
  demo_records = stream_records (ndjson_new 100) CompressionNone demo_messages.
Proof.
  pose proof (lane_hands_out_in_order (ndjson_new 100) CompressionNone (fun _ => false) demo_messages demo_polls
                demo_arrivals demo_proto demo_polls_ok) as H.
  pose proof demo_lane_runs as Hr.
  destruct demo_lane as [rs w rest| |]; [|destruct Hr..].
  destruct Hr as (-> & _ & Ht & Ha). destruct H as [_ H]. destruct (H _ Ht) as [_ He]. rewrite Ha in He.
  destruct (He demo_no_overwrite) as [Hx _]. exact Hx.
Defined.

(** The same part read by its fetcher, lane and all. *)
Definition demo_fetched : Fetch :=
  match run_fetcher (part_fetcher demo_part 2 3 RETRY_BASE) fetch_new demo_answers with
  | Ran _ w _ => w
  | _ => fetch_new
  end.
Definition demo_lane_end : LaneWorld :=
  match demo_lane with Ran _ w _ => w | _ => lane_start [] end.

Lemma demo_fetch_runs :
  run_fetcher (part_fetcher demo_part 2 3 RETRY_BASE) fetch_new demo_answers = Ran tt demo_fetched [] /\
  ft_gone demo_fetched = false /\ ft_sent demo_fetched = demo_messages.
Proof. split; [|split]; vm_compute; reflexivity. Qed.

Lemma demo_lane_ends :
  lane_run (ndjson_new 100) CompressionNone demo_polls (lane_start demo_messages) demo_arrivals =
    Ran demo_records demo_lane_end [] /\
  tk_terminal (lw_tracker demo_lane_end) = Some (2 ^ 40 + 2) /\
  lw_acts demo_lane_end = [Issued 0; Issued (2 ^ 40 + 1); SetTerminal (2 ^ 40 + 2); Woke].
Proof.
  pose proof demo_lane_runs as Hr. unfold demo_lane_end.
  destruct demo_lane as [rs w rest| |]; [|destruct Hr..]. destruct Hr as (-> & -> & ? & ?). by split_and!.
Qed.

Lemma demo_pinned e : e ∈ p_object demo_part -> is_Some (e_etag e).
Proof. intros He. repeat (apply elem_of_cons in He as [->|He]; [by eexists|]). by apply not_elem_of_nil in He. Qed.

Lemma part_read_whole_witness :
  demo_records = member_records demo_part (ndjson_new 100) CompressionNone 0 (p_object demo_part).
Proof.
  destruct demo_fetch_runs as (Hf & Hg & Hs). destruct demo_lane_ends as (Hl & Ht & Ha). rewrite <- Hs in Hl.
  assert (Hno : forall kind reason o, Reported kind reason (Some o) ∉ lw_acts demo_lane_end) by (rewrite Ha; exact demo_no_overwrite).
  destruct (part_read_whole (ndjson_new 100) CompressionNone demo_part 2 3 RETRY_BASE (2 ^ 40 + 2) demo_answers [] demo_fetched
    demo_polls demo_arrivals [] demo_records demo_lane_end ltac:(done) ltac:(done) demo_unit_ok ltac:(done) demo_pinned
    demo_polls_ok Hf Hg Hl Ht Hno) as [Hx _]. exact Hx.
Defined.

Definition demo_reader_world : World :=
  set_lane 4 (mkLane 1 demo_part false 0 0 LaneReading None) (world_new None).

Lemma lane_keeps_contract_witness :
  exists w1 l, env_run [LEmit 4 1; LEmit 4 (2 ^ 40 + 2); LEnd 4] demo_reader_world = Some w1 /\
    w_lanes w1 !! 4 = Some l /\ terminal l = Some (2 ^ 40 + 2).
Proof.
  destruct demo_fetch_runs as (Hf & Hg & Hs). destruct demo_lane_ends as (Hl & Ht & Ha). rewrite <- Hs in Hl.
  destruct (lane_keeps_contract (ndjson_new 100) CompressionNone demo_part 2 3 RETRY_BASE 4 1 false demo_answers [] demo_fetched
    demo_polls demo_arrivals [] demo_records demo_lane_end demo_reader_world ltac:(done) ltac:(done) demo_unit_ok ltac:(done)
    demo_polls_ok Hf Hl (lookup_set_lane _ _ _)) as (w1 & l & He & Hw & _ & Hterm).
  exists w1, l. rewrite Ha in He. rewrite Ht in Hterm. split; [exact He|]. split; [exact Hw|exact Hterm].
Defined.
