(* ===== verification/S3Lister.v ===== *)
(** * The lister and the job location ([spate-s3/src/lister.rs], [location.rs])

    A lister run checks or creates the job's fingerprint at the job location,
    reads the checkpoint beside it, deletes an end marker left there, publishes
    every listed object's units to the feed, moving the checkpoint over keys
    whose units the feed has confirmed, and writes the end marker. The bucket is
    a list of objects in the order the store lists them; the store lists it in
    pages, from which the client's filter takes and records the objects whose
    keys it cannot address. What the stores and the feed answer is the
    environment's, a failed write or delete may have been applied, and the run
    may be killed wherever it waits. Log lines and the wording of errors are not
    modelled. *)

From stdpp Require Import base gmap strings list.
From Stdlib Require Import ZArith Lia.
From S2P Require Import Prelude EndCheck MemoryFeed JobEnd S3Split S3Unit Oracle Backoff S3Fetch.

(** ** The job *)

Inductive LocationObject := FingerprintObject | CheckpointObject | EndObject.

#[export] Instance LocationObject_eq_dec : EqDecision LocationObject.
Proof. solve_decision. Defined.

(** What a run does that others see. *)
Inductive JobEvent :=
  | Published (u : WorkUnit)
  | Confirmed (u : WorkUnit)
  | Wrote (o : LocationObject) (body : list Z)
  | Deleted (o : LocationObject).

(** The store's listing: what no page has held yet, whether another page
    follows, and the objects of the last page not yielded yet; and
    [UnaddressableKeys], what the filter took out of the pages. *)
Record Listing := mkListing {
  ls_rest : list ObjectEntry;
  ls_more : bool;
  ls_page : list ObjectEntry;
  ls_recorded : list ObjectEntry;
}.

(** [Pending], its confirmation aside, and [Published]. *)
Record Pending := mkPending {
  pd_unit : WorkUnit;
  pd_first_key : list Z;
  pd_objects : nat;
}.
Record PublishedCount := mkCount {
  n_units : Z;
  n_objects : Z;
}.

(** The locals of [publish_listing]. *)
Record Locals := mkLocals {
  pending : list Pending;
  published : PublishedCount;
  packer : Packer;
  written : option (list Z);
  candidate : option (list Z);
  since_write : Z;
  unaddressable_seen : gset (list Z);
}.

(** The objects at the location, the listing, the locals, and what was done. *)
Record Job := mkJob {
  jb_at : LocationObject -> option (list Z);
  jb_listing : Listing;
  jb_locals : Locals;
  jb_log : list JobEvent;
}.

Definition put_object (o : LocationObject) (v : option (list Z)) (j : Job) : Job :=
  mkJob (fun o' => if bool_decide (o' = o) then v else jb_at j o') (jb_listing j) (jb_locals j)
    (jb_log j ++ [match v with Some b => Wrote o b | None => Deleted o end]).
Definition log_event (e : JobEvent) (j : Job) : Job :=
  mkJob (jb_at j) (jb_listing j) (jb_locals j) (jb_log j ++ [e]).
Definition set_listing (l : Listing) (j : Job) : Job := mkJob (jb_at j) l (jb_locals j) (jb_log j).
Definition with_locals (f : Locals -> Locals) (j : Job) : Job :=
  mkJob (jb_at j) (jb_listing j) (f (jb_locals j)) (jb_log j).

Definition set_pending (q : list Pending) (l : Locals) : Locals :=
  mkLocals q (published l) (packer l) (written l) (candidate l) (since_write l) (unaddressable_seen l).
Definition set_published (n : PublishedCount) (l : Locals) : Locals :=
  mkLocals (pending l) n (packer l) (written l) (candidate l) (since_write l) (unaddressable_seen l).
Definition set_packer (k : Packer) (l : Locals) : Locals :=
  mkLocals (pending l) (published l) k (written l) (candidate l) (since_write l) (unaddressable_seen l).
Definition set_written (k : option (list Z)) (n : Z) (l : Locals) : Locals :=
  mkLocals (pending l) (published l) (packer l) k (candidate l) n (unaddressable_seen l).
Definition set_candidate (k : option (list Z)) (l : Locals) : Locals :=
  mkLocals (pending l) (published l) (packer l) (written l) k (since_write l) (unaddressable_seen l).
Definition see_key (k : list Z) (l : Locals) : Locals :=
  mkLocals (pending l) (published l) (packer l) (written l) (candidate l) (since_write l) ({[k]} ∪ unaddressable_seen l).

(** A GET's body comes in chunks and may break off; a PUT or DELETE that fails
    or is cut short may have been applied; a page holds the next [n] objects
    and says whether another follows. *)
Inductive JobAnswer :=
  | OGet (r : StoreError + Z * list (list Z) * option StoreError)
  | OHead (r : option StoreError)
  | OWrite (r : option StoreError) (applied : bool)
  | OPage (r : StoreError + nat * bool)
  | OConfirm (r : option FeedError)
  | ORun (run : list Z)
  | OKilled (applied : bool).

(** Why a run ends early. *)
Inductive Stop := Failed (e : SourceError) | Killed.

Notation J := (Prog Job JobAnswer).

(** [?]. *)
Definition or_stop {A B} (m : J (Stop + A)) (k : A -> J (Stop + B)) : J (Stop + B) :=
  m ≫= fun r => match r with inl e => mret (inl e) | inr a => k a end.
Notation "x <-? m ; k" := (or_stop m (fun x => k)) (at level 90, m at level 89, right associativity).

Definition done {A} (a : A) : J (Stop + A) := mret (inr a).
Definition fail {A} (e : SourceError) : J (Stop + A) := mret (inl (Failed e)).
Definition from_result {A} (r : SourceError + A) : J (Stop + A) :=
  match r with inl e => fail e | inr a => done a end.

(** [for x in l { f(x)? }]. *)
Fixpoint each_or_stop {A} (f : A -> J (Stop + unit)) (l : list A) : J (Stop + unit) :=
  match l with
  | [] => done tt
  | x :: l => _ <-? f x; each_or_stop f l
  end.

(** A wait for an answer. *)
Definition await {A} (f : JobAnswer -> option A) : J (Stop + A) :=
  ask (fun a => match a with OKilled _ => Some (inl Killed) | _ => inr <$> f a end).

Definition store_error (doing : string) (e : StoreError) : SourceError := ErrOther (classify e) doing.
Definition fatal (why : string) : SourceError := ErrOther ClassFatal why.
Definition is_not_found (e : StoreError) : bool := match se_variant e with ENotFound => true | _ => false end.

(** ** Requests to the stores *)

(** [store.get]: the body is the object's, as far as it comes. *)
Definition store_get (o : LocationObject) : J (Stop + (StoreError + Z * list (list Z) * option StoreError)) :=
  j ← get;
  await (fun a => match a with
    | OGet (inl e) => Some (inl e)
    | OGet (inr (size, chunks, err)) =>
        b ← jb_at j o;
        if bool_decide (concat chunks = take (length (concat chunks)) b) &&
           (bool_decide (is_Some err) || bool_decide (concat chunks = b))
        then Some (inr (size, chunks, err)) else None
    | _ => None
    end).

(** [store.head]: an object reported absent is. *)
Definition truly_absent (o : LocationObject) (r : option StoreError) (j : Job) : bool :=
  match r with Some e => negb (is_not_found e) || bool_decide (jb_at j o = None) | None => true end.
Definition store_head (o : LocationObject) : J (Stop + option StoreError) :=
  j ← get;
  await (fun a => match a with
    | OHead r => if truly_absent o r j then Some r else None
    | _ => None
    end).

(** [store.put], [store.delete] and their like. *)
Definition store_write (o : LocationObject) (v : option (list Z)) : J (Stop + option StoreError) :=
  j ← get;
  a ← ask (fun a => match a with
    | OKilled applied => Some (inl Killed, applied)
    | OWrite r applied =>
        if bool_decide (is_Some v) || truly_absent o r j
        then Some (inr r, bool_decide (r = None) || applied) else None
    | _ => None
    end);
  when (snd a) (modify (put_object o v));;;
  mret (fst a).

(** ** [location.rs] *)

Definition LOCATION_OBJECT_MAX_BYTES : Z := 4096.
Definition FINGERPRINT_TAG : list Z := ascii_bytes "spate-s3:feed".

(** [compare]. *)
Definition compare (mine stored : list Z) : SourceError + unit :=
  if bool_decide (stored = mine) then inr tt
  else if negb (starts_with FINGERPRINT_TAG stored) then inl (fatal "not a feed fingerprint")
  else inl (fatal "another fingerprint").

(** [read_object], and its loop over the body. *)
Fixpoint read_body (chunks : list (list Z)) (err : option StoreError) (body : list Z) : SourceError + list Z :=
  match chunks with
  | [] => match err with Some e => inl (store_error "reading a location object" e) | None => inr body end
  | chunk :: chunks =>
      if bool_decide (LOCATION_OBJECT_MAX_BYTES < Z.of_nat (length body) + Z.of_nat (length chunk))
      then inl (fatal "its body runs past the bound")
      else read_body chunks err (body ++ chunk)
  end.
Definition no_such_bucket (e : StoreError) : bool :=
  contains (ascii_bytes "<Code>NoSuchBucket</Code>") (default [] (head (se_chain e))).
Definition read_object (o : LocationObject) : J (Stop + option (list Z)) :=
  got <-? store_get o;
  match got with
  | inl e =>
      if is_not_found e && negb (no_such_bucket e) then done None
      else fail (store_error "reading a location object" e)
  | inr (size, chunks, err) =>
      if bool_decide (LOCATION_OBJECT_MAX_BYTES < size) then fail (fatal "above the bound")
      else b <-? from_result (read_body chunks err []); done (Some b)
  end.

(** [read_end]'s reading of a marker's body, and [write_end]'s body. *)
Definition hex_lower (b : Z) : bool := between 48 57 b || between 97 102 b.
Definition parse_end (body : list Z) : option (list Z) :=
  if valid_utf8 body then
    rest ← strip_prefix (ascii_bytes "run=") body;
    if ends_with [10] rest then
      let run := take (length rest - 1) rest in
      if bool_decide (length run = 32%nat) && forallb hex_lower run then Some run else None
    else None
  else None.
Definition end_body (run : list Z) : list Z := ascii_bytes "run=" ++ run ++ [10].
Definition read_end : J (Stop + option (list Z)) :=
  b <-? read_object EndObject;
  match b with
  | None => done None
  | Some body =>
      match parse_end body with
      | Some run => done (Some run)
      | None => fail (fatal "not an end marker")
      end
  end.

(** ** [lister.rs] *)

Definition LISTER_IN_FLIGHT : nat := 32.
Definition CHECKPOINT_EVERY : Z := 1000.
Definition LISTER_PUBLISH_ATTEMPTS : Z := 5.

(** [Lister]: [located] is whether it has a location, [filtered] whether its
    store's pages are filtered. *)
Record ListerRun := mkLister {
  l_prefix : list Z;
  l_packing : Packing;
  located : bool;
  l_resume : bool;
  checkpoint_every : Z;
  filtered : bool;
  l_fingerprint : list Z;
  l_retry_base : Z;
}.

(** The bucket, the listing after a key ([list_with_offset]), and the segments
    of a path ([Path::parts]). *)
Class BucketStore := {
  bucket : list ObjectEntry;
  list_after : list Z -> list ObjectEntry;
  path_parts : list Z -> list (list Z);
}.

(** [largest_per_key]; [None] is the index panic. *)
Definition keep_largest (s : list ObjectEntry * gmap (list Z) nat) (e : ObjectEntry)
    : option (list ObjectEntry * gmap (list Z) nat) :=
  let '(kept, at_) := s in
  match at_ !! e_key e with
  | Some i =>
      old ← kept !! i;
      Some (if bool_decide (e_size old < e_size e) then <[i := e]> kept else kept, at_)
  | None => Some (kept ++ [e], <[e_key e := length kept]> at_)
  end.
Fixpoint keep_all (es : list ObjectEntry) (s : list ObjectEntry * gmap (list Z) nat)
    : option (list ObjectEntry * gmap (list Z) nat) :=
  match es with
  | [] => Some s
  | e :: es => keep_largest s e ≫= keep_all es
  end.
Definition largest_per_key (es : list ObjectEntry) : option (list ObjectEntry) := fst <$> keep_all es ([], ∅).

Section lister.
Context `{UnitLib} `{BucketStore} (L : ListerRun).

(** [feed.publish]. *)
Definition feed_publish (u : WorkUnit) : J unit := modify (log_event (Published u)).

(** [settle]: one wait for a confirmation, and the loop of at most
    [LISTER_PUBLISH_ATTEMPTS] of them. *)
Definition settle_round (p : Pending) (s : Z * Backoff) : J ((Z * Backoff) + (Stop + unit)) :=
  let '(attempt, backoff) := s in
  r ← await (fun a => match a with OConfirm r => Some r | _ => None end);
  match r with
  | inl stop => mret (inr (inl stop))
  | inr None => modify (log_event (Confirmed (pd_unit p)));;; mret (inr (inr tt))
  | inr (Some e) =>
      if match kind e with Retryable => true | _ => false end && bool_decide (attempt < LISTER_PUBLISH_ATTEMPTS) then
        match next_delay backoff with
        | None => panic
        | Some (_, backoff) => feed_publish (pd_unit p);;; mret (inl (attempt + 1, backoff))
        end
      else mret (inr (inl (Failed (ErrOther (class e) "publishing a unit"))))
  end.
Definition settle (p : Pending) : J (Stop + unit) :=
  loop_from (settle_round p) (1, retry_backoff (l_retry_base L)).

(** [settle_all]. *)
Fixpoint settle_each (n : nat) : J (Stop + unit) :=
  match n with
  | O => stuck
  | S n =>
      j ← get;
      match pending (jb_locals j) with
      | [] => done tt
      | oldest :: q => modify (with_locals (set_pending q));;; _ <-? settle oldest; settle_each n
      end
  end.
Definition settle_all : J (Stop + unit) :=
  j ← get; settle_each (S (length (pending (jb_locals j)))).

(** [publish_unit]. *)
Definition publish_unit (minted : MintError + Minted) : J (Stop + unit) :=
  match minted with
  | inl _ => fail (fatal "minting a unit")
  | inr m =>
      j ← get;
      _ <-? match pending (jb_locals j) with
            | oldest :: q =>
                if bool_decide (length (pending (jb_locals j)) = LISTER_IN_FLIGHT)
                then modify (with_locals (set_pending q));;; settle oldest
                else done tt
            | [] => done tt
            end;
      feed_publish (m_unit m);;;
      modify (with_locals (fun l =>
        set_published (mkCount (wrap_u64 (n_units (published l) + 1))
                         (wrap_u64 (n_objects (published l) + Z.of_nat (m_listed m))))
          (set_pending (pending l ++ [mkPending (m_unit m) (first_key m) (m_objects m)]) l)));;;
      done tt
  end.

(** The publishes of what the packer or [alone_units] mints; [None] is their
    panic. *)
Definition publish_minted {A} (minted : option (list (MintError + Minted) * A)) (set : A -> Locals -> Locals)
    : J (Stop + unit) :=
  match minted with
  | None => panic
  | Some (us, a) => modify (with_locals (set a));;; each_or_stop publish_unit us
  end.
Definition close_packer : J (Stop + unit) :=
  j ← get; publish_minted (packer_close (packer (jb_locals j))) set_packer.

(** [publish_unaddressable], and its loop's body. *)
Definition publish_alone (e : ObjectEntry) : J (Stop + unit) :=
  if bool_decide (e_size e = 0) then done tt
  else
    j ← get;
    if bool_decide (e_key e ∈ unaddressable_seen (jb_locals j)) then done tt
    else publish_minted ((.,e_key e) <$> alone_units e (l_packing L)) see_key.
Definition publish_unaddressable : J (Stop + unit) :=
  if negb (filtered L) then done tt
  else
    j ← get;
    let l := jb_listing j in
    modify (set_listing (mkListing (ls_rest l) (ls_more l) (ls_page l) []));;;
    match largest_per_key (ls_recorded l) with
    | None => panic
    | Some es => each_or_stop publish_alone es
    end.

(** [write_checkpoint]. *)
Definition write_checkpoint (key : option (list Z)) : J (Stop + unit) :=
  match key with
  | Some key =>
      if located L && l_resume L then
        r <-? store_write CheckpointObject (Some key);
        match r with
        | Some e => fail (store_error "writing the checkpoint" e)
        | None => done tt
        end
      else done tt
  | None => done tt
  end.

(** [listing.next()]: the next object of the page, or of the next page that
    has one. *)
Definition page_round : J (option (Stop + (StoreError + option ObjectEntry))) :=
  j ← get;
  let l := jb_listing j in
  match ls_page l with
  | e :: page => modify (set_listing (mkListing (ls_rest l) (ls_more l) page (ls_recorded l)));;; mret (Some (inr (inr (Some e))))
  | [] =>
      if negb (ls_more l) then mret (Some (inr (inr None)))
      else
        r ← await (fun a => match a with
              | OPage (inl e) => Some (inl e)
              | OPage (inr (n, more)) =>
                  if more || bool_decide (length (ls_rest l) <= n)%nat then Some (inr (n, more)) else None
              | _ => None
              end);
        match r with
        | inl stop => mret (Some (inl stop))
        | inr (inl e) => mret (Some (inr (inl e)))
        | inr (inr (n, more)) =>
            let page := take n (ls_rest l) in
            let yielded e := negb (filtered L) || addressable (e_key e) in
            modify (set_listing (mkListing (drop n (ls_rest l)) more (filter (fun e => yielded e = true) page)
                                   (ls_recorded l ++ filter (fun e => yielded e = false) page)));;;
            mret None
        end
  end.
Definition listing_next : J (Stop + (StoreError + option ObjectEntry)) :=
  loop_from (fun _ : unit => r ← page_round; mret (match r with Some x => inr x | None => inl tt end)) tt.

(** [publish_listing]: what it does with an object, a round of its loop, and
    the rest. *)
Definition checkpoint_due (l : Locals) : bool :=
  bool_decide (checkpoint_every L <= since_write l) && bool_decide (candidate l <> written l).
Definition move_checkpoint : J (Stop + unit) :=
  _ <-? close_packer;
  _ <-? settle_all;
  j ← get;
  let candidate := candidate (jb_locals j) in
  _ <-? write_checkpoint candidate;
  modify (with_locals (set_written candidate 0));;; done tt.
Definition publish_object (e : ObjectEntry) : J (Stop + unit) :=
  modify (with_locals (fun l => set_written (written l) (wrap_u64 (since_write l + 1)) l));;;
  if bool_decide (e_size e = 0) then done tt
  else
    let fits := addressable (e_key e) && bool_decide (Z.of_nat (length (e_key e)) <= LOCATION_OBJECT_MAX_BYTES) in
    j ← get;
    _ <-? publish_minted (packer_push e (packer (jb_locals j))) set_packer;
    when fits (modify (with_locals (set_candidate (Some (e_key e)))));;; done tt.
Definition listing_round : J (unit + (Stop + unit)) :=
  r ← listing_next;
  match r with
  | inl stop => mret (inr (inl stop))
  | inr (inl e) => mret (inr (inl (Failed (store_error "listing" e))))
  | inr (inr None) => mret (inr (inr tt))
  | inr (inr (Some e)) =>
      r ← (_ <-? publish_unaddressable;
           j ← get;
           _ <-? (if checkpoint_due (jb_locals j) then move_checkpoint else done tt);
           publish_object e);
      mret (match r with inl stop => inr (inl stop) | inr _ => inl tt end)
  end.
Definition listing_left (l : Listing) : nat := (length (ls_rest l) + length (ls_page l))%nat.
Definition listing_loop : J (Stop + unit) :=
  j ← get; turns (S (listing_left (jb_listing j))) (fun _ : unit => listing_round) tt.
Definition publish_listing (start : option (list Z)) : J (Stop + PublishedCount) :=
  modify (fun j => set_listing (mkListing (match start with Some k => list_after k | None => bucket end) true []
                                  (ls_recorded (jb_listing j)))
                     (with_locals (fun _ => mkLocals [] (mkCount 0 0) (packer_new (l_packing L)) start None 0 ∅) j));;;
  _ <-? listing_loop;
  _ <-? publish_unaddressable;
  _ <-? close_packer;
  _ <-? settle_all;
  j ← get;
  let l := jb_locals j in
  _ <-? (if bool_decide (is_Some (candidate l)) && bool_decide (candidate l <> written l)
         then write_checkpoint (candidate l) else done tt);
  done (published l).

(** [delete_checkpoint] and [delete_end]. *)
Definition delete_object (o : LocationObject) : J (Stop + unit) :=
  h <-? store_head o;
  match h with
  | Some e => if is_not_found e then done tt else fail (store_error "reading a location object" e)
  | None =>
      d <-? store_write o None;
      match d with
      | Some e => if is_not_found e then done tt else fail (store_error "deleting a location object" e)
      | None => done tt
      end
  end.

(** [Fingerprint]. *)
Inductive Fingerprint := Created | Matched.

(** [write_fingerprint]: a pass over the conditional create, and the two. *)
Definition create_fingerprint : J (Stop + option Fingerprint) :=
  put <-? store_write FingerprintObject (Some (l_fingerprint L));
  match put with
  | None => done (Some Created)
  | Some e =>
      match se_variant e with
      | EAlreadyExists =>
          stored <-? read_object FingerprintObject;
          match stored with
          | Some stored => _ <-? from_result (compare (l_fingerprint L) stored); done (Some Matched)
          | None => done None
          end
      | ENotImplemented => fail (fatal "conditional put is off")
      | _ => fail (store_error "writing the fingerprint" e)
      end
  end.
Definition write_fingerprint : J (Stop + Fingerprint) :=
  a <-? create_fingerprint;
  match a with
  | Some f => done f
  | None =>
      b <-? create_fingerprint;
      match b with Some f => done f | None => fail (fatal "present and then absent twice") end
  end.

(** [starts_with] of paths, and [read_checkpoint]. *)
Definition path_starts_with (path prefix : list Z) : bool :=
  bool_decide (take (length (path_parts prefix)) (path_parts path) = path_parts prefix).
Definition checkpoint_key (body : list Z) : option (list Z) :=
  if valid_utf8 body && addressable body then
    key ← path_parse body;
    if path_starts_with key (l_prefix L) &&
       bool_decide (length (path_parts (l_prefix L)) < length (path_parts key))%nat
    then Some key else None
  else None.
Definition read_checkpoint : J (Stop + option (list Z)) :=
  b <-? read_object CheckpointObject;
  match b with
  | None => done None
  | Some body =>
      match checkpoint_key body with
      | Some key => done (Some key)
      | None => fail (fatal "not a key under the listing prefix")
      end
  end.

(** [Lister::run]: up to the first publish, and the whole. *)
Definition check_fingerprint : J (Stop + Fingerprint) :=
  stored <-? read_object FingerprintObject;
  match stored with
  | Some stored => _ <-? from_result (compare (l_fingerprint L) stored); done Matched
  | None => _ <-? delete_object CheckpointObject; write_fingerprint
  end.
Definition prepare : J (Stop + option (list Z)) :=
  if located L then
    found <-? check_fingerprint;
    start <-? match found with
              | Matched => if l_resume L then read_checkpoint else done None
              | Created => done None
              end;
    _ <-? delete_object EndObject;
    done start
  else done None.
Definition write_end : J (Stop + unit) :=
  run <-? await (fun a => match a with ORun run => Some run | _ => None end);
  r <-? store_write EndObject (Some (end_body run));
  match r with
  | Some e => fail (store_error "writing the end marker" e)
  | None => done tt
  end.
Definition run : J (Stop + unit) :=
  start <-? prepare;
  _ <-? publish_listing start;
  if located L then write_end else done tt.
End lister.

(** Runs one after another at one location, each killed, failed or done, with
    the answers it gets. *)
Fixpoint job_runs `{UnitLib} `{BucketStore} (rs : list (ListerRun * list JobAnswer)) (j : Job) : option Job :=
  match rs with
  | [] => Some j
  | (L, t) :: rs =>
      match run L j t with
      | Ran _ j _ => job_runs rs j
      | _ => None
      end
  end.
