(* ===== verification/S3ListerProofs.v ===== *)
(** * What a lister confirms ([spate-s3/src/lister.rs])

    Whatever the stores and the feed answer, and wherever runs fail or are
    killed: the checkpoint beside the job's fingerprint names a listed object
    such that the units of it and of every object listed before it are
    confirmed; a run that succeeds has every object's units confirmed, by it or
    by an earlier run; and once a run has published, an end marker at the
    location means the same. *)

From stdpp Require Import base gmap strings list.
From Stdlib Require Import ZArith Lia.
From S2P Require Import Prelude EndCheck MemoryFeed JobEnd S3Split S3Unit S3UnitProofs Oracle Backoff S3Fetch S3Lister.

Notation tr := (upto (fun _ : Job => False)).

(** ** What is confirmed *)

Definition confirmed (log : list JobEvent) : list WorkUnit :=
  omap (fun e => match e with Confirmed u => Some u | _ => None end) log.
Definition publishes (log : list JobEvent) : list WorkUnit :=
  omap (fun e => match e with Published u => Some u | _ => None end) log.

(** The units not settled yet count as held. *)
Definition held (j : Job) : list WorkUnit := confirmed (jb_log j) ++ (pd_unit <$> pending (jb_locals j)).

Section served.
Context `{UnitLib} `{BucketStore} (pk : Packing).

(** Every read of the object [e] is one of a unit of [us], at a reader of any
    scope. *)
Definition read_by (us : list WorkUnit) (e : ObjectEntry) : Prop :=
  forall r, r ∈ entry_reads pk e -> exists u, u ∈ us /\
    forall scope, exists c, decode_unit (body u) scope pk = Read [c] /\ r ∈ cursor_reads c.

(** An object is served when its reads are in [us]; one whose key the client
    cannot address, when those of a non-empty object with that key are, since
    the listing may decode two keys to one. *)
Definition served (us : list WorkUnit) (e : ObjectEntry) : Prop :=
  exists e', e' ∈ bucket /\ e_key e' = e_key e /\ 0 < e_size e' /\
    (addressable (e_key e) = true -> e' = e) /\ read_by us e'.
Definition all_served (us : list WorkUnit) (es : list ObjectEntry) : Prop :=
  forall e, e ∈ es -> 0 < e_size e -> served us e.

(** A checkpoint that may be resumed from. *)
Definition covered_to (us : list WorkUnit) (key : list Z) : Prop :=
  exists l1 e l2, bucket = l1 ++ e :: l2 /\ e_key e = key /\ addressable key = true /\ all_served us (l1 ++ [e]).

Lemma read_by_mono us us' e : us ⊆ us' -> read_by us e -> read_by us' e.
Proof. intros Hs Hr r Hin. destruct (Hr r Hin) as (u & Hu & Hd). exists u. auto. Qed.

Lemma served_mono us us' e : us ⊆ us' -> served us e -> served us' e.
Proof.
  intros Hs (e' & ? & ? & ? & ? & ?). exists e'. split_and!; try done. by eapply read_by_mono.
Qed.

Lemma covered_mono us us' k : us ⊆ us' -> covered_to us k -> covered_to us' k.
Proof.
  intros Hs (l1 & e & l2 & ? & ? & ? & Ha). exists l1, e, l2. split_and!; try done.
  intros x Hx Hp. eapply served_mono; eauto.
Qed.

(** Units minted for reads have them. *)
Lemma covers_read_by us rs n e :
  covers pk us rs n -> entry_reads pk e ⊆ rs ->
  exists ms, us = inr <$> ms /\ read_by (m_unit <$> ms) e.
Proof.
  intros (ms & rss & -> & HF & <- & _) Hsub. exists ms. split; [done|]. intros r Hr.
  apply Hsub, list_elem_of_In, in_concat in Hr as (rs & Hrs & Hr).
  apply list_elem_of_In in Hrs. apply list_elem_of_In in Hr.
  apply list_elem_of_lookup in Hrs as [i Hi].
  destruct (Forall2_lookup_r _ _ _ _ _ HF Hi) as (m & Hm & Hd & _).
  exists (m_unit m). split; [apply list_elem_of_fmap; exists m; split; [done|by eapply list_elem_of_lookup_2]|].
  intros scope. destruct (Hd scope) as (c & Hc & <-). by exists c.
Qed.

(** What stands between runs: the recorded objects are the bucket's, and a
    checkpoint beside the fingerprint may be resumed from. *)
Record safe (mine : list Z) (j : Job) : Prop := mk_safe {
  sf_recorded : forall e, e ∈ ls_recorded (jb_listing j) -> e ∈ bucket /\ addressable (e_key e) = false;
  sf_checkpoint : jb_at j FingerprintObject = Some mine ->
    forall key, jb_at j CheckpointObject = Some key -> covered_to (confirmed (jb_log j)) key;
}.
End served.

Lemma confirmed_app l l' : confirmed (l ++ l') = confirmed l ++ confirmed l'.
Proof. apply omap_app. Qed.
Lemma publishes_app l l' : publishes (l ++ l') = publishes l ++ publishes l'.
Proof. apply omap_app. Qed.

(** ** Publishing *)

(** A step that settles and publishes: what it leaves alone. *)
Record onward (w w' : Job) : Prop := mk_onward {
  on_at : jb_at w' = jb_at w;
  on_listing : jb_listing w' = jb_listing w;
  on_packer : packer (jb_locals w') = packer (jb_locals w);
  on_written : written (jb_locals w') = written (jb_locals w);
  on_candidate : candidate (jb_locals w') = candidate (jb_locals w);
  on_since : since_write (jb_locals w') = since_write (jb_locals w);
  on_seen : unaddressable_seen (jb_locals w') = unaddressable_seen (jb_locals w);
  on_confirmed : confirmed (jb_log w) ⊆ confirmed (jb_log w');
}.

Lemma onward_refl w : onward w w.
Proof. by constructor. Qed.

Lemma onward_trans w1 w2 w3 : onward w1 w2 -> onward w2 w3 -> onward w1 w3.
Proof. intros [] []. constructor; etrans; eauto. Qed.

Lemma onward_log w e : onward w (log_event e w).
Proof. constructor; try done. cbn. rewrite confirmed_app. set_solver. Qed.

Lemma onward_locals w f :
  (forall l, packer (f l) = packer l /\ written (f l) = written l /\ candidate (f l) = candidate l /\
     since_write (f l) = since_write l /\ unaddressable_seen (f l) = unaddressable_seen l) ->
  onward w (with_locals f w).
Proof. intros Hf. destruct (Hf (jb_locals w)) as (? & ? & ? & ? & ?). by constructor. Qed.

#[local] Hint Resolve onward_refl onward_log : core.

(** [?] in a triple: the steps after it start from where the first got to. *)
Lemma tr_stop {A B} w (m : J (Stop + A)) (k : A -> J (Stop + B)) (S : Stop + A -> Job -> Prop) R :
  tr (at_world w) m S -> (forall e w', S (inl e) w' -> R (inl e) w') ->
  (forall a w', S (inr a) w' -> tr (at_world w') (k a) R) ->
  tr (at_world w) (or_stop m k) R.
Proof.
  intros Hm He Hk. eapply tr_then; [exact Hm|]. intros [e|a] w' HS; [by apply tr_ret_at, He|by apply Hk].
Qed.

Lemma tr_await {A} w (f : JobAnswer -> option A) (R : Stop + A -> Job -> Prop) :
  R (inl Killed) w -> (forall q a, f q = Some a -> R (inr a) w) -> tr (at_world w) (await f) R.
Proof.
  intros Hk Ha. apply upto_ask. intros q a w' Hq ->.
  destruct q; try (injection Hq as <-; exact Hk);
    (destruct (f _) as [x|] eqn:Hf; [|done]; injection Hq as <-; by eapply Ha).
Qed.

Lemma tr_get_at {A} w (k : Job -> J A) R : tr (at_world w) (k w) R -> tr (at_world w) (get ≫= k) R.
Proof. intros Hk. apply upto_get. by intros w' ->. Qed.

(** A write or a delete at the location. *)
Lemma tr_store_write o v w (R : Stop + option StoreError -> Job -> Prop) :
  (forall r w', w' = w \/ w' = put_object o v w -> (r = inr None -> w' = put_object o v w) ->
     (v = None -> forall e, r = inr (Some e) -> is_not_found e = true -> jb_at w' o = None) -> R r w') ->
  tr (at_world w) (store_write o v) R.
Proof.
  intros HR. apply tr_get_at, tr_ask. intros q [r applied] Hq. cbn [fst snd].
  assert (Hr : (r = inr None -> applied = true) /\
    (v = None -> forall e, r = inr (Some e) -> is_not_found e = true -> jb_at w o = None)).
  { destruct q; try done; [|by simplify_eq].
    destruct (_ || _) eqn:Hv in Hq; [|done]. injection Hq as <- <-. split.
    - intros [= ->]. by rewrite bool_decide_true.
    - intros -> e [= ->] Hnf. apply orb_true_iff in Hv as [Hv|Hv]; [by apply bool_decide_eq_true in Hv as []|].
      cbn in Hv. rewrite Hnf in Hv. by apply bool_decide_eq_true in Hv. }
  destruct Hr as [Hr1 Hr2]. eapply (tr_then _ _ _ _ (fun _ w' => w' = if applied then put_object o v w else w)).
  { destruct applied; [by apply upto_modify; intros w' ->|by apply tr_ret_at]. }
  intros [] w' ->. apply tr_ret_at, HR.
  - destruct applied; tauto.
  - intros Hn. by rewrite (Hr1 Hn).
  - intros Hv e He Hnf. destruct applied; [|by eapply Hr2]. cbn. by rewrite bool_decide_true.
Qed.

Lemma confirmed_put o v w : confirmed (jb_log (put_object o v w)) = confirmed (jb_log w).
Proof. cbn. rewrite confirmed_app. destruct v; apply app_nil_r. Qed.
Lemma publishes_put o v w : publishes (jb_log (put_object o v w)) = publishes (jb_log w).
Proof. cbn. rewrite publishes_app. destruct v; apply app_nil_r. Qed.

Section lister_proofs.
Context `{UnitLaws} `{BucketStore} (L : ListerRun).
Hypothesis Hbase : 0 <= l_retry_base L.

Lemma tr_settle_one p w :
  tr (at_world w) (settle L p) (fun r w' => onward w w' /\ pending (jb_locals w') = pending (jb_locals w) /\
    (r = inr tt -> pd_unit p ∈ confirmed (jb_log w'))).
Proof.
  unfold settle. eapply upto_weaken; [apply (upto_loop_from _ (fun s w' =>
    backoff_ok (l_retry_base L) BACKOFF_CAP s.2 /\ onward w w' /\ pending (jb_locals w') = pending (jb_locals w)))
    | |intros a w' Hr; exact Hr].
  2: { intros w' ->. split; [|done]. apply backoff_new_ok; [done|]. unfold BACKOFF_CAP. lia. }
  intros [n b]. apply upto_pure. cbn [snd]. intros Hb. apply tr_at. intros w1 [Ho Hp]. unfold settle_round.
  eapply tr_then; [apply (tr_await _ _ (fun _ w' => w' = w1)); done|].
  intros [stop|[e|]] w' ->.
  - by apply tr_ret_at.
  - destruct (_ && _); [|by apply tr_ret_at].
    destruct (next_delay_ok _ _ _ Hb) as (d & bo & -> & _ & Hbo).
    apply tr_step, tr_ret_at. split; [done|]. split; [by eapply onward_trans|done].
  - apply tr_step, tr_ret_at. split; [by eapply onward_trans|]. split; [done|]. intros _.
    cbn. rewrite confirmed_app. set_solver.
Qed.

(** Dropping the oldest before it is settled. *)
Lemma onward_set_pending w q : onward w (with_locals (set_pending q) w).
Proof. by apply onward_locals. Qed.

Lemma tr_settle_each n : forall w,
  tr (at_world w) (settle_each L n) (fun r w' => onward w w' /\
    (r = inr tt -> pending (jb_locals w') = [] /\ held w ⊆ confirmed (jb_log w'))).
Proof.
  induction n as [|n IH]; intros w; cbn [settle_each]; [apply upto_stuck|]. apply tr_get_at.
  destruct (pending (jb_locals w)) as [|p q] eqn:Hq.
  { apply tr_ret_at. split; [done|]. intros _. split; [done|]. unfold held. rewrite Hq. set_solver. }
  apply tr_step. eapply tr_stop; [apply tr_settle_one|..].
  { intros e w' [Ho _]. split; [|done]. eapply onward_trans; [apply onward_set_pending|exact Ho]. }
  intros [] w' (Ho & Hp & Hc). eapply tr_weaken_post; [apply IH|]. intros r w2 [Ho2 Hr].
  split; [eapply onward_trans; [apply onward_set_pending|by eapply onward_trans]|].
  intros ->. destruct (Hr eq_refl) as [He Hs]. split; [done|].
  pose proof (on_confirmed _ _ Ho) as Hc1. cbn in Hp, Hc1. specialize (Hc eq_refl).
  unfold held in *. rewrite Hq. rewrite Hp in Hs. intros u Hu. apply Hs.
  rewrite fmap_cons in Hu. set_solver.
Qed.

Lemma tr_settle_all w :
  tr (at_world w) (settle_all L) (fun r w' => onward w w' /\
    (r = inr tt -> pending (jb_locals w') = [] /\ held w ⊆ confirmed (jb_log w'))).
Proof. apply tr_get_at, tr_settle_each. Qed.

Lemma tr_publish_unit m w :
  tr (at_world w) (publish_unit L (inr m)) (fun r w' => onward w w' /\
    (r = inr tt -> m_unit m ∈ held w' /\ held w ⊆ held w')).
Proof.
  unfold publish_unit. apply tr_get_at.
  eapply (tr_stop _ _ _ (fun r w' => onward w w' /\ (r = inr tt -> held w ⊆ held w'))).
  - destruct (pending (jb_locals w)) as [|p q] eqn:Hq; [by apply tr_ret_at|].
    case_bool_decide; [|by apply tr_ret_at]. apply tr_step.
    eapply tr_weaken_post; [apply tr_settle_one|]. intros r w' (Ho & Hp & Hc).
    split; [eapply onward_trans; [apply onward_set_pending|exact Ho]|]. intros ->.
    specialize (Hc eq_refl). pose proof (on_confirmed _ _ Ho) as Hc1. cbn in Hp, Hc1.
    unfold held. rewrite Hp, Hq. intros u. rewrite fmap_cons. set_solver.
  - by intros e w' [Ho _].
  - intros [] w' [Ho Hs]. specialize (Hs eq_refl). do 2 apply tr_step. apply tr_ret_at.
    split.
    + eapply onward_trans; [exact Ho|]. eapply onward_trans; [apply onward_log|]. by apply onward_locals.
    + intros _. unfold held in *. cbn. rewrite confirmed_app, fmap_app. set_solver.
Qed.

Lemma tr_publish_each ms : forall w,
  tr (at_world w) (each_or_stop (publish_unit L) (inr <$> ms)) (fun r w' => onward w w' /\
    (r = inr tt -> (m_unit <$> ms) ++ held w ⊆ held w')).
Proof.
  induction ms as [|m ms IH]; intros w; rewrite ?fmap_cons; cbn [each_or_stop].
  { apply tr_ret_at. by split. }
  eapply tr_stop; [apply tr_publish_unit|by intros e w' [Ho _]|].
  intros [] w' [Ho Hm]. eapply tr_weaken_post; [apply IH|]. intros r w2 [Ho2 Hr].
  split; [by eapply onward_trans|]. intros ->. specialize (Hr eq_refl). specialize (Hm eq_refl).
  set_solver.
Qed.

(** ** The listing's books *)

Notation pk := (l_packing L).
Notation mine := (l_fingerprint L).
Hypothesis Htarget : 0 < target_bytes pk < U64_MAX.
Hypothesis Hbucket : Forall entry_ok bucket.
Hypothesis Hfilter : filtered L = true \/ Forall (fun e => addressable (e_key e) = true) bucket.

(** Whether the listing yields an object. *)
Definition yielded (e : ObjectEntry) : bool := negb (filtered L) || addressable (e_key e).

(** A key some non-empty object of which is read by [us]. *)
Definition keyed (us : list WorkUnit) (k : list Z) : Prop :=
  exists e, e ∈ bucket /\ e_key e = k /\ 0 < e_size e /\ read_by pk us e.

(** What a run leaves, however it ends, once it deleted the end marker. *)
Definition stopped (w : Job) : Prop := safe pk mine w /\ (located L = true -> jb_at w EndObject = None).

(** The bucket is what was dealt with, the object in hand, the rest of the
    pages read, and what no page has held. Of what was dealt with, an object
    waits in the packer, or in [lim] for [publish_unaddressable], or its units
    are held; of the pages, [lim] or the units have what is not yielded. *)
Record inv (lim before cur after : list ObjectEntry) (w : Job) : Prop := mk_inv {
  iv_stopped : stopped w;
  iv_bucket : bucket = before ++ cur ++ after ++ ls_rest (jb_listing w);
  iv_more : ls_more (jb_listing w) = false -> ls_rest (jb_listing w) = [];
  iv_page : ls_page (jb_listing w) = filter (fun e => yielded e = true) after;
  iv_packer : packer_ok pk (packer (jb_locals w));
  iv_before : forall e, e ∈ before -> 0 < e_size e ->
    e ∈ open_ (packer (jb_locals w)) \/ e ∈ lim \/ served pk (held w) e;
  iv_after : forall e, e ∈ after -> yielded e = false -> 0 < e_size e -> e ∈ lim \/ served pk (held w) e;
  iv_lim : forall e, e ∈ lim -> e ∈ bucket /\ addressable (e_key e) = false;
  iv_seen : forall k, k ∈ unaddressable_seen (jb_locals w) -> keyed (held w) k;
  iv_candidate : forall k, candidate (jb_locals w) = Some k -> addressable k = true /\
    exists l1 e l2, before = l1 ++ e :: l2 /\ e_key e = k;
}.

Lemma keyed_mono us us' k : us ⊆ us' -> keyed us k -> keyed us' k.
Proof. intros Hs (e & ? & ? & ? & ?). exists e. split_and!; try done. by eapply read_by_mono. Qed.

Lemma not_yielded e : yielded e = false -> addressable (e_key e) = false.
Proof. unfold yielded. by intros [_ ?]%orb_false_iff. Qed.

Lemma stopped_onward f w w' : onward (with_locals f w) w' -> stopped w -> stopped w'.
Proof.
  intros [Ha Hl _ _ _ _ _ Hc] [[Hr Hk] Hm]. cbn in Ha, Hl.
  split; [constructor|]; rewrite ?Ha, ?Hl; [done| |done].
  intros Hf key Hkey. by eapply covered_mono; [|apply Hk].
Qed.

Lemma bucket_entry lim b c a w e : inv lim b c a w -> e ∈ b -> e ∈ bucket.
Proof. intros Hi He. rewrite (iv_bucket _ _ _ _ _ Hi). set_solver. Qed.

Lemma read_served us e : e ∈ bucket -> 0 < e_size e -> read_by pk us e -> served pk us e.
Proof. intros. by exists e. Qed.

(** The packer changed, and the units of what left it are held. *)
Lemma inv_repack lim b new c a w w' k :
  inv lim b (new ++ c) a w -> packer_ok pk k -> onward (with_locals (set_packer k) w) w' -> held w ⊆ held w' ->
  (forall e, e ∈ open_ (packer (jb_locals w)) ++ new -> 0 < e_size e -> e ∈ open_ k \/ read_by pk (held w') e) ->
  inv lim (b ++ new) c a w'.
Proof.
  intros Hi Hk Ho Hs Hn.
  pose proof Hi as [Hst Hb Hm Hp _ Hbf Haf Hl Hse Hca].
  pose proof Ho as [Ho1 Ho2 Ho3 Ho4 Ho5 Ho6 Ho7 Ho8]. cbn in Ho1, Ho2, Ho3, Ho4, Ho5, Ho6, Ho7.
  constructor; rewrite ?Ho2, ?Ho3, ?Ho5, ?Ho7; try done.
  - by eapply stopped_onward.
  - rewrite Hb, <- !app_assoc. done.
  - intros e [He|He]%elem_of_app Hz.
    + destruct (Hbf e He Hz) as [Hop|[?|?]]; [|tauto|right; right; by eapply served_mono].
      destruct (Hn e) as [?|?]; [set_solver|done|tauto|]. right; right. apply read_served; try done.
      by eapply bucket_entry.
    + destruct (Hn e) as [?|?]; [set_solver|done|tauto|]. right; right. apply read_served; try done.
      rewrite Hb. set_solver.
  - intros e He Hy Hz. destruct (Haf e He Hy Hz); [tauto|]. right. by eapply served_mono.
  - intros x Hx. eapply keyed_mono; [exact Hs|by apply Hse].
  - intros x Hx. destruct (Hca x Hx) as [Hadd (l1 & e & l2 & -> & He)]. split; [done|].
    exists l1, e, (l2 ++ new). by rewrite <- app_assoc.
Qed.

Lemma inv_onward lim b c a w w' : inv lim b c a w -> onward w w' -> held w ⊆ held w' -> inv lim b c a w'.
Proof.
  intros Hi Ho Hs. rewrite <- (app_nil_r b).
  apply (inv_repack lim b [] c a w w' (packer (jb_locals w))); [done|apply Hi| |done|].
  - destruct Ho. by constructor.
  - intros e. rewrite app_nil_r. by left.
Qed.

Lemma inv_locals lim b c a w f :
  inv lim b c a w ->
  (forall l, pending (f l) = pending l /\ packer (f l) = packer l /\ candidate (f l) = candidate l /\
     unaddressable_seen (f l) = unaddressable_seen l) ->
  inv lim b c a (with_locals f w).
Proof.
  intros [Hst Hb Hm Hp Hpk Hbf Haf Hl Hse Hca] Hf. destruct (Hf (jb_locals w)) as (Hf1 & Hf2 & Hf3 & Hf4).
  assert (Hh : held (with_locals f w) = held w) by (unfold held; cbn; by rewrite Hf1).
  constructor; rewrite ?Hh; cbn; rewrite ?Hf2, ?Hf3, ?Hf4; try done.
  by apply (stopped_onward f w).
Qed.

(** What an operation of the loop promises. *)
Definition promises {A} (Q : A -> Job -> Prop) (r : Stop + A) (w : Job) : Prop :=
  match r with inl _ => stopped w | inr x => Q x w end.

(** Publishing what the packer gives up. *)
Lemma tr_repack lim b new c a w us k dn :
  inv lim b (new ++ c) a w -> packer_ok pk k ->
  (forall e, e ∈ open_ (packer (jb_locals w)) ++ new -> 0 < e_size e -> e ∈ open_ k \/ e ∈ dn) ->
  covers pk us (concat (entry_reads pk <$> dn)) (length dn) ->
  tr (at_world w) (publish_minted L (Some (us, k)) set_packer)
    (promises (fun _ w' => inv lim (b ++ new) c a w' /\ packer (jb_locals w') = k /\
       candidate (jb_locals w') = candidate (jb_locals w) /\ ls_recorded (jb_listing w') = ls_recorded (jb_listing w))).
Proof.
  intros Hi Hk Hn Hc. pose proof Hc as (ms & rss & -> & _ & _ & _). apply tr_step.
  eapply tr_weaken_post; [apply tr_publish_each|]. intros [e|[]] w' [Ho Hr]; cbn [promises].
  { eapply stopped_onward; [exact Ho|apply Hi]. }
  specialize (Hr eq_refl). change (held (with_locals (set_packer k) w)) with (held w) in Hr.
  split; [|by rewrite (on_packer _ _ Ho), (on_candidate _ _ Ho), (on_listing _ _ Ho)].
  apply (inv_repack lim b new c a w w' k); try done; [set_solver|].
  intros e He Hz. destruct (Hn e He Hz) as [?|Hd]; [by left|]. right.
  destruct (covers_read_by pk _ _ _ e Hc) as (ms' & Hms & Hrd).
  { intros r Hr'. apply list_elem_of_In, in_concat. exists (entry_reads pk e).
    split; apply list_elem_of_In; [by apply list_elem_of_fmap_2|done]. }
  apply (inj (fmap inr)) in Hms. subst ms'. eapply read_by_mono; [|exact Hrd]. set_solver.
Qed.

Lemma tr_close_packer lim b c a w :
  inv lim b c a w ->
  tr (at_world w) (close_packer L)
    (promises (fun _ w' => inv lim b c a w' /\ open_ (packer (jb_locals w')) = [] /\
       candidate (jb_locals w') = candidate (jb_locals w) /\ ls_recorded (jb_listing w') = ls_recorded (jb_listing w))).
Proof.
  intros Hi. pose proof (iv_packer _ _ _ _ _ Hi) as [Hp Hroom He Hw Hby Ht]. apply tr_get_at.
  destruct (packer (jb_locals w)) as [pk' es by_] eqn:Hpk. cbn in Hp, Hroom, He, Hw, Hby, Ht. subst pk'.
  destruct (close_covers pk Htarget es by_) as (us & k' & -> & Hc & Hp' & Ho' & Hb1 & Hb2); [lia|done..|].
  eapply tr_weaken_post; [apply (tr_repack lim b [] c a w us k' es); [done| | |done]|].
  - split; rewrite ?Hp', ?Ho'; cbn; try done; [unfold PACK_MEMBERS; lia| |lia].
    destruct es; [by rewrite Hb2, Hby|by apply Hb1].
  - intros e Hin _. rewrite Hpk, app_nil_r in Hin. by right.
  - intros [e|[]] w'; cbn [promises]; [done|]. rewrite app_nil_r. by intros (Hi' & -> & Hrest).
Qed.

Lemma tr_settle_inv lim b c a w :
  inv lim b c a w ->
  tr (at_world w) (settle_all L)
    (promises (fun _ w' => inv lim b c a w' /\ pending (jb_locals w') = [] /\ onward w w')).
Proof.
  intros Hi. eapply tr_weaken_post; [apply tr_settle_all|]. intros [e|[]] w' [Ho Hr]; cbn [promises].
  { apply (stopped_onward (fun l => l) w); [|apply Hi]. by destruct Ho; constructor. }
  destruct (Hr eq_refl) as [Hp Hs]. split; [|done]. apply (inv_onward lim b c a w); try done.
  unfold held at 2. set_solver.
Qed.

(** ** The objects no key addresses *)

Definition kept_for (es kept : list ObjectEntry) : Prop :=
  (forall e, e ∈ kept -> e ∈ es) /\ (forall e, e ∈ es -> exists e', e' ∈ kept /\ e_key e' = e_key e /\ e_size e <= e_size e').

Definition index_ok (s : list ObjectEntry * gmap (list Z) nat) : Prop :=
  forall k i, s.2 !! k = Some i -> exists e, s.1 !! i = Some e /\ e_key e = k.

Lemma keep_largest_ok done_ s e :
  index_ok s -> kept_for done_ s.1 ->
  exists s', keep_largest s e = Some s' /\ index_ok s' /\ kept_for (done_ ++ [e]) s'.1.
Proof.
  destruct s as [kept at_]. unfold index_ok. cbn [fst snd keep_largest]. intros Hx [Hk1 Hk2].
  destruct (at_ !! e_key e) as [i|] eqn:Hat.
  - destruct (Hx _ _ Hat) as (old & Hold & Hkey). rewrite Hold. cbn [mbind option_bind].
    pose proof (lookup_lt_Some _ _ _ Hold) as Hlt. eexists. split; [done|]. cbn [fst snd].
    case_bool_decide as Hsz.
    + split; [|split].
      * intros k j Hj. destruct (Hx k j Hj) as (x & Hxj & Hxk).
        destruct (decide (i = j)) as [->|Hne]; [|exists x; by rewrite list_lookup_insert_ne].
        exists e. rewrite list_lookup_insert_eq by done. split; [done|]. congruence.
      * intros x Hin%list_elem_of_lookup. destruct Hin as [j Hj].
        destruct (decide (i = j)) as [->|Hne].
        { rewrite list_lookup_insert_eq in Hj by done. set_solver. }
        rewrite list_lookup_insert_ne in Hj by done. apply elem_of_app. left.
        apply Hk1. by eapply list_elem_of_lookup_2.
      * intros x [Hin| ->%list_elem_of_singleton]%elem_of_app.
        2: { exists e. split; [|split; [done|lia]]. apply list_elem_of_lookup. exists i.
             by apply list_lookup_insert_eq. }
        destruct (Hk2 x Hin) as (x' & Hx' & Hkx & Hsx). apply list_elem_of_lookup in Hx' as [j Hj].
        destruct (decide (i = j)) as [->|Hne].
        { exists e. split; [apply list_elem_of_lookup; exists j; by apply list_lookup_insert_eq|].
          simplify_eq. split; [congruence|lia]. }
        exists x'. split; [|done]. apply list_elem_of_lookup. exists j. by rewrite list_lookup_insert_ne.
    + split; [done|]. split; [intros x Hin; apply elem_of_app; left; by apply Hk1|].
      intros x [Hin| ->%list_elem_of_singleton]%elem_of_app; [by apply Hk2|].
      exists old. split; [by eapply list_elem_of_lookup_2|]. split; [done|lia].
  - eexists. split; [done|]. cbn [fst snd]. split; [|split].
    + intros k j [[<- <-]|[Hne Hj]]%lookup_insert_Some.
      * exists e. by rewrite list_lookup_middle.
      * destruct (Hx k j Hj) as (x & Hxj & Hxk). exists x. split; [|done]. by apply lookup_app_l_Some.
    + set_solver.
    + intros x [Hin| ->%list_elem_of_singleton]%elem_of_app; [|exists e; set_solver by lia].
      destruct (Hk2 x Hin) as (x' & Hx' & Hr). exists x'. split; [set_solver|done].
Qed.

Lemma largest_per_key_ok es : exists kept, largest_per_key es = Some kept /\ kept_for es kept.
Proof.
  enough (forall es done_ s, index_ok s -> kept_for done_ s.1 ->
    exists s', keep_all es s = Some s' /\ kept_for (done_ ++ es) s'.1) as Hall.
  { destruct (Hall es [] ([], ∅)) as (s' & Hs & Hk).
    - intros k i. cbn. by rewrite lookup_empty.
    - split; set_solver.
    - exists s'.1. unfold largest_per_key. by rewrite Hs. }
  clear es. induction es as [|e es IH]; intros done_ s Hx Hk; cbn [keep_all].
  { exists s. by rewrite app_nil_r. }
  destruct (keep_largest_ok done_ s e Hx Hk) as (s1 & -> & Hx1 & Hk1). cbn [mbind option_bind].
  destruct (IH _ _ Hx1 Hk1) as (s' & Hs & Hk'). exists s'. split; [done|]. by rewrite <- app_assoc in Hk'.
Qed.

(** One object published alone, unless its key was. *)
Lemma inv_seen lim b c a w w' k :
  inv lim b c a w -> onward (with_locals (see_key k) w) w' -> held w ⊆ held w' -> keyed (held w') k ->
  inv lim b c a w'.
Proof.
  intros [Hst Hb Hm Hp Hpk Hbf Haf Hl Hse Hca] Ho Hs Hk.
  pose proof Ho as [Ho1 Ho2 Ho3 Ho4 Ho5 Ho6 Ho7 Ho8]. cbn in Ho1, Ho2, Ho3, Ho4, Ho5, Ho6, Ho7.
  constructor; rewrite ?Ho2, ?Ho3, ?Ho5, ?Ho7; try done.
  - by eapply stopped_onward.
  - intros e He Hz. destruct (Hbf e He Hz) as [?|[?|?]]; [tauto..|]. right; right. by eapply served_mono.
  - intros e He Hy Hz. destruct (Haf e He Hy Hz); [tauto|]. right. by eapply served_mono.
  - intros x [-> %elem_of_singleton|Hx]%elem_of_union; [done|]. eapply keyed_mono; [exact Hs|by apply Hse].
Qed.

Lemma tr_publish_alone lim b c a w e :
  inv lim b c a w -> e ∈ bucket ->
  tr (at_world w) (publish_alone L e)
    (promises (fun _ w' => inv lim b c a w' /\ held w ⊆ held w' /\ (0 < e_size e -> keyed (held w') (e_key e)) /\
       ls_recorded (jb_listing w') = ls_recorded (jb_listing w))).
Proof.
  intros Hi He. unfold publish_alone. case_bool_decide as Hz; [apply tr_ret_at; split_and!; try done; lia|].
  apply tr_get_at. case_bool_decide as Hs.
  { apply tr_ret_at. split_and!; try done. intros _. by apply Hi. }
  assert (Hok : entry_ok e) by (rewrite Forall_forall in Hbucket; by apply Hbucket).
  destruct (alone_covers pk Htarget e Hok) as (us & -> & Hc). cbn [fmap option_fmap option_map].
  destruct (covers_read_by pk _ _ _ e Hc) as (ms & -> & Hrd); [done|]. apply tr_step.
  eapply tr_weaken_post; [apply tr_publish_each|]. intros [x|[]] w' [Ho Hr]; cbn [promises].
  { eapply stopped_onward; [exact Ho|apply Hi]. }
  specialize (Hr eq_refl). change (held (with_locals _ w)) with (held w) in Hr.
  assert (Hk : keyed (held w') (e_key e)).
  { exists e. split_and!; try done; [destruct Hok as [Hu _]; unfold is_u64 in Hu; lia|].
    eapply read_by_mono; [|exact Hrd]. set_solver. }
  split_and!; [|set_solver|done|by rewrite (on_listing _ _ Ho)].
  eapply inv_seen; [exact Hi|exact Ho|set_solver|done].
Qed.

Lemma tr_publish_alones lim b c a es : forall w,
  inv lim b c a w -> (forall e, e ∈ es -> e ∈ bucket) ->
  tr (at_world w) (each_or_stop (publish_alone L) es)
    (promises (fun _ w' => inv lim b c a w' /\ held w ⊆ held w' /\
       (forall e, e ∈ es -> 0 < e_size e -> keyed (held w') (e_key e)) /\
       ls_recorded (jb_listing w') = ls_recorded (jb_listing w))).
Proof.
  induction es as [|e es IH]; intros w Hi Hin; cbn [each_or_stop].
  { apply tr_ret_at. split_and!; try done. set_solver. }
  eapply tr_stop; [apply (tr_publish_alone _ _ _ _ _ _ Hi); set_solver|done|].
  intros [] w1 (Hi1 & Hs1 & Hk1 & Hr1). eapply tr_weaken_post; [apply (IH w1 Hi1); set_solver|].
  intros [x|[]] w2; cbn [promises]; [done|]. intros (Hi2 & Hs2 & Hk2 & Hr2).
  split_and!; [done|set_solver| |congruence]. intros x [->|Hx]%elem_of_cons Hz; [|by apply Hk2].
  eapply keyed_mono; [exact Hs2|by apply Hk1].
Qed.

(** Nothing waits once the keys in [lim] are published. *)
Lemma inv_unlim lim b c a w :
  inv lim b c a w -> (forall e, e ∈ lim -> 0 < e_size e -> keyed (held w) (e_key e)) -> inv [] b c a w.
Proof.
  intros [Hst Hb Hm Hp Hpk Hbf Haf Hl Hse Hca] Hk.
  assert (Hsv : forall e, e ∈ lim -> 0 < e_size e -> served pk (held w) e).
  { intros e He Hz. destruct (Hk e He Hz) as (e' & ? & ? & ? & ?). exists e'. split_and!; try done.
    destruct (Hl e He) as [_ Hadd]. congruence. }
  constructor; try done.
  - intros e He Hz. destruct (Hbf e He Hz) as [?|[?|?]]; auto.
  - intros e He Hy Hz. destruct (Haf e He Hy Hz) as [?|?]; auto.
  - set_solver.
Qed.

Lemma inv_taken lim b c a w l :
  inv lim b c a w -> l = jb_listing w ->
  inv (ls_recorded l) b c a w -> inv (ls_recorded l) b c a
    (set_listing (mkListing (ls_rest l) (ls_more l) (ls_page l) []) w).
Proof.
  intros _ -> [[[Hs1 Hs2] Hst] Hb Hm Hp Hpk Hbf Haf Hl Hse Hca]. constructor; try done.
  split; [constructor; [set_solver|done]|done].
Qed.

Lemma inv_lim_mono lim lim' b c a w :
  inv lim b c a w -> lim ⊆ lim' -> (forall e, e ∈ lim' -> e ∈ bucket /\ addressable (e_key e) = false) ->
  inv lim' b c a w.
Proof.
  intros [Hst Hb Hm Hp Hpk Hbf Haf Hl Hse Hca] Hs Hl'. constructor; try done.
  - intros e He Hz. destruct (Hbf e He Hz) as [?|[?|?]]; auto.
  - intros e He Hy Hz. destruct (Haf e He Hy Hz) as [?|?]; auto.
Qed.

Lemma tr_publish_unaddressable lim b c a w :
  inv lim b c a w -> lim ⊆ ls_recorded (jb_listing w) ->
  tr (at_world w) (publish_unaddressable L) (promises (fun _ w' => inv [] b c a w')).
Proof.
  intros Hi Hl. unfold publish_unaddressable. case_eq (filtered L); intros Hf; cbn [negb].
  2: { apply tr_ret_at. apply (inv_unlim lim); [done|]. intros e He _.
       destruct (iv_lim _ _ _ _ _ Hi e He) as [Hin Hadd]. pose proof Hfilter as [?|HF]; [congruence|].
       rewrite Forall_forall in HF. rewrite (HF e Hin) in Hadd. done. }
  apply tr_get_at. apply tr_step.
  pose proof (iv_stopped _ _ _ _ _ Hi) as [[Hrec _] _].
  destruct (largest_per_key_ok (ls_recorded (jb_listing w))) as (es & -> & Hk1 & Hk2).
  eapply tr_weaken_post; [apply tr_publish_alones|].
  - apply (inv_taken lim); [done..|]. by apply (inv_lim_mono lim).
  - intros e He. by apply Hrec, Hk1.
  - intros [x|[]] w'; cbn [promises]; [done|]. intros (Hi' & _ & Hk & _).
    apply (inv_unlim _ _ _ _ _ Hi'). intros e He Hz. destruct (Hk2 e He) as (e' & He' & <- & Hsz).
    apply Hk; [done|lia].
Qed.

(** ** The checkpoint *)
Lemma stopped_checkpoint w k :
  stopped w -> covered_to pk (confirmed (jb_log w)) k -> stopped (put_object CheckpointObject (Some k) w).
Proof.
  intros [[Hs1 Hs2] Hm] Hk. split; [constructor|]; rewrite ?confirmed_put; cbn; [done| |done].
  intros _ key [= <-]. exact Hk.
Qed.

Lemma inv_checkpoint lim b c a w k :
  inv lim b c a w -> covered_to pk (confirmed (jb_log w)) k ->
  inv lim b c a (put_object CheckpointObject (Some k) w).
Proof.
  intros [Hst Hb Hm Hp Hpk Hbf Haf Hl Hse Hca] Hk.
  assert (Hh : held (put_object CheckpointObject (Some k) w) = held w)
    by (unfold held; by rewrite confirmed_put).
  constructor; rewrite ?Hh; try done. by apply stopped_checkpoint.
Qed.

(** Once the packer is closed and everything is settled, the candidate may be
    resumed from. *)
Lemma candidate_covered b c a w k :
  inv [] b c a w -> open_ (packer (jb_locals w)) = [] -> pending (jb_locals w) = [] ->
  candidate (jb_locals w) = Some k -> covered_to pk (confirmed (jb_log w)) k.
Proof.
  intros Hi Ho Hp Hc. destruct (iv_candidate _ _ _ _ _ Hi k Hc) as [Ha (l1 & e & l2 & Hb & He)].
  exists l1, e, (l2 ++ c ++ a ++ ls_rest (jb_listing w)). split_and!; try done.
  { rewrite (iv_bucket _ _ _ _ _ Hi), Hb, <- !app_assoc. done. }
  intros x Hx Hz. destruct (iv_before _ _ _ _ _ Hi x) as [Hin|[Hin|Hin]]; [rewrite Hb; set_solver|done| | |].
  - rewrite Ho in Hin. set_solver.
  - set_solver.
  - unfold held in Hin. rewrite Hp in Hin. by rewrite app_nil_r in Hin.
Qed.

Lemma tr_write_checkpoint w k :
  stopped w -> (forall key, k = Some key -> covered_to pk (confirmed (jb_log w)) key) ->
  tr (at_world w) (write_checkpoint L k)
    (promises (fun _ w' => w' = w \/ exists key, k = Some key /\ w' = put_object CheckpointObject (Some key) w)).
Proof.
  intros Hs Hk. unfold write_checkpoint. destruct k as [key|]; [|apply tr_ret_at; by left].
  destruct (_ && _); [|apply tr_ret_at; by left].
  eapply (tr_stop _ _ _ (promises (fun r w' => w' = w \/ w' = put_object CheckpointObject (Some key) w))).
  - apply tr_store_write. intros [r|r] w' Hw _ _; cbn [promises]; [|done].
    destruct Hw as [-> | ->]; [done|]. by apply stopped_checkpoint, Hk.
  - done.
  - intros [e|] w' Hw; apply tr_ret_at; cbn [promises].
    + destruct Hw as [-> | ->]; [done|]. by apply stopped_checkpoint, Hk.
    + destruct Hw as [-> | ->]; [by left|]. right. by exists key.
Qed.

Lemma tr_move_checkpoint b c a w :
  inv [] b c a w -> tr (at_world w) (move_checkpoint L) (promises (fun _ w' => inv [] b c a w')).
Proof.
  intros Hi. eapply tr_stop; [by apply tr_close_packer|done|]. intros [] w1 (Hi1 & Ho1 & _).
  eapply tr_stop; [by apply tr_settle_inv|done|]. intros [] w2 (Hi2 & Hp2 & Ho2). apply tr_get_at.
  assert (Hc : forall key, candidate (jb_locals w2) = Some key -> covered_to pk (confirmed (jb_log w2)) key).
  { intros key. eapply candidate_covered; try done. by rewrite (on_packer _ _ Ho2). }
  eapply tr_stop; [apply tr_write_checkpoint; [apply Hi2|done]|done|].
  intros [] w3 Hw. cbn [promises] in Hw.
  assert (Hi3 : inv [] b c a w3).
  { destruct Hw as [->|(key & Hkey & ->)]; [done|]. apply inv_checkpoint; [done|by apply Hc]. }
  apply tr_step, tr_ret_at. by apply inv_locals.
Qed.

(** ** A listed object *)
Lemma tr_publish_object lim b a w e :
  inv lim b [e] a w -> yielded e = true ->
  tr (at_world w) (publish_object L e)
    (promises (fun _ w' => inv lim (b ++ [e]) [] a w')).
Proof.
  intros Hi Hy. unfold publish_object. apply tr_step.
  set (w1 := with_locals _ w). assert (Hi1 : inv lim b [e] a w1) by (by apply inv_locals). clearbody w1. clear w Hi.
  assert (He : e ∈ bucket) by (rewrite (iv_bucket _ _ _ _ _ Hi1); set_solver).
  case_bool_decide as Hz.
  { apply tr_ret_at. rewrite <- (app_nil_r []). eapply (inv_repack lim b [e] [] a w1); [done|apply Hi1| |done|].
    - by destruct w1 as [? ? []]; constructor.
    - intros x [Hx| ->%list_elem_of_singleton]%elem_of_app Hlt; [by left|lia]. }
  assert (Hok : entry_ok e) by (rewrite Forall_forall in Hbucket; by apply Hbucket).
  apply tr_get_at.
  destruct (push_covers pk Htarget e (packer (jb_locals w1)) Hok (iv_packer _ _ _ _ _ Hi1))
    as (us & k & dn & wt & -> & Hk & Hsp & Ho & Hc).
  eapply tr_stop; [apply (tr_repack lim b [e] [] a w1 us k dn Hi1 Hk); [|done]|done|].
  { intros x Hx _. rewrite Hsp in Hx. rewrite Ho. set_solver. }
  intros [] w2 (Hi2 & _). destruct (addressable (e_key e) && _) eqn:Hf; cbn [when].
  - apply tr_step, tr_ret_at. apply andb_true_iff in Hf as [Ha _].
    destruct Hi2 as [Hst Hb Hm Hp Hpk Hbf Haf Hl Hse Hca]. constructor; try done.
    + by eapply (stopped_onward (set_candidate (Some (e_key e))) w2).
    + intros x [= <-]. split; [done|]. by exists b, e, [].
  - by apply tr_ret_at.
Qed.

(** ** The listing *)

(** The objects passed over before the next the page yields. *)
Lemma page_split (a : list ObjectEntry) e page :
  filter (fun e => yielded e = true) a = e :: page ->
  exists pre post, a = pre ++ e :: post /\ yielded e = true /\ (forall x, x ∈ pre -> yielded x = false) /\
    filter (fun e => yielded e = true) post = page.
Proof.
  induction a as [|x a IH]; [done|]. rewrite filter_cons. destruct (decide (yielded x = true)) as [Hx|Hx].
  - intros [= <- <-]. exists [], a. split_and!; try done. set_solver.
  - intros Hf. destruct (IH Hf) as (pre & post & -> & He & Hp & Hq). exists (x :: pre), post.
    split_and!; try done. apply not_true_is_false in Hx. set_solver.
Qed.

Lemma inv_yield lim b a w e page :
  inv lim b [] a w -> ls_page (jb_listing w) = e :: page ->
  exists b' a', yielded e = true /\
    inv lim b' [e] a' (set_listing (mkListing (ls_rest (jb_listing w)) (ls_more (jb_listing w)) page
                                      (ls_recorded (jb_listing w))) w).
Proof.
  intros [[[Hs1 Hs2] Hst] Hb Hm Hp Hpk Hbf Haf Hl Hse Hca] Hpage. rewrite Hpage in Hp. symmetry in Hp.
  destruct (page_split a e page Hp) as (pre & post & -> & He & Hpre & Hpost).
  exists (b ++ pre), post. split; [done|]. constructor; cbn; try done.
  - rewrite Hb. cbn. by rewrite <- !app_assoc.
  - intros x [Hx|Hx]%elem_of_app Hz; [by apply Hbf|]. right. apply Haf; [set_solver|by apply Hpre|done].
  - intros x Hx. apply Haf. set_solver.
  - intros k Hk. destruct (Hca k Hk) as [Hadd (l1 & x & l2 & -> & Hx)]. split; [done|].
    exists l1, x, (l2 ++ pre). by rewrite <- app_assoc.
Qed.

Lemma inv_page lim b a w n more :
  inv lim b [] a w -> lim ⊆ ls_recorded (jb_listing w) -> ls_page (jb_listing w) = [] ->
  more || bool_decide (length (ls_rest (jb_listing w)) <= n)%nat = true ->
  let l := jb_listing w in
  let w' := set_listing (mkListing (drop n (ls_rest l)) more (filter (fun e => yielded e = true) (take n (ls_rest l)))
     (ls_recorded l ++ filter (fun e => yielded e = false) (take n (ls_rest l)))) w in
  exists lim' a', inv lim' b [] a' w' /\ lim' ⊆ ls_recorded (jb_listing w').
Proof.
  intros [[[Hs1 Hs2] Hst] Hb Hm Hp Hpk Hbf Haf Hl Hse Hca] Hlim Hpage Hmore l w'. cbn in Hb.
  set (new := filter (fun e => yielded e = false) (take n (ls_rest l))).
  assert (Hnew : forall e, e ∈ new -> e ∈ bucket /\ addressable (e_key e) = false).
  { intros e [Hy Hin]%list_elem_of_filter. split; [|by apply not_yielded].
    rewrite Hb. apply elem_of_app; right. apply elem_of_app; right. by apply (subseteq_take n). }
  exists (lim ++ new), (a ++ take n (ls_rest l)). split; [|subst w'; cbn; set_solver].
  constructor; cbn; try done.
  - split; [constructor; [|done]|done]. cbn. intros e [He|He]%elem_of_app; [by apply Hs1|by apply Hnew].
  - by rewrite <- app_assoc, take_drop.
  - intros ->. cbn in Hmore. apply bool_decide_eq_true in Hmore. by apply drop_ge.
  - rewrite filter_app, <- Hp, Hpage. done.
  - intros e He Hz. destruct (Hbf e He Hz) as [?|[?|?]]; [tauto|set_solver|tauto].
  - intros e [He|He]%elem_of_app Hy Hz; [destruct (Haf e He Hy Hz); [set_solver|tauto]|].
    left. apply elem_of_app; right. by apply list_elem_of_filter.
  - intros e [He|He]%elem_of_app; [by apply Hl|by apply Hnew].
Qed.

(** Between objects: what the pages hold is in the books. *)
Definition listed (w : Job) : Prop :=
  exists lim b a, inv lim b [] a w /\ lim ⊆ ls_recorded (jb_listing w).

(** What [listing_next] yields, or where it leaves off. *)
Definition next_ok (r : StoreError + option ObjectEntry) (w : Job) : Prop :=
  match r with
  | inl _ => stopped w
  | inr (Some e) => exists lim b a, inv lim b [e] a w /\ lim ⊆ ls_recorded (jb_listing w) /\ yielded e = true
  | inr None => listed w /\ ls_page (jb_listing w) = [] /\ ls_rest (jb_listing w) = []
  end.

Lemma tr_next_round w :
  listed w -> tr (at_world w) (page_round L) (fun r w' => match r with Some x => promises next_ok x w' | None => listed w' end).
Proof.
  intros (lim & b & a & Hi & Hl). unfold page_round. apply tr_get_at.
  destruct (ls_page (jb_listing w)) as [|e page] eqn:Hp.
  2: { apply tr_step, tr_ret_at. destruct (inv_yield lim b a w e page Hi Hp) as (b' & a' & Hy & Hi').
       by exists lim, b', a'. }
  destruct (ls_more (jb_listing w)) eqn:Hm; cbn [negb].
  2: { apply tr_ret_at. split_and!; [by exists lim, b, a|done|by apply Hi]. }
  eapply tr_then; [apply (tr_await _ _ (fun r w' => w' = w /\ forall n more, r = inr (inr (n, more)) ->
    more || bool_decide (length (ls_rest (jb_listing w)) <= n)%nat = true)); [done|]|].
  { intros q x Hq. split; [done|]. intros n more [= ->]. destruct q as [| | |[e|[n' m']]| | |]; try done.
    destruct (_ || _) eqn:Hb in Hq; [|done]. by simplify_eq. }
  intros [stop|[e|[n more]]] w' [-> Hn]; [apply tr_ret_at, Hi..|].
  apply tr_step, tr_ret_at.
  destruct (inv_page lim b a w n more Hi Hl Hp (Hn n more eq_refl)) as (lim' & a' & Hi' & Hl').
  by exists lim', b, a'.
Qed.

Lemma tr_listing_next w : listed w -> tr (at_world w) (listing_next L) (promises next_ok).
Proof.
  intros Hw. eapply upto_weaken; [apply (upto_loop_from _ (fun _ => listed))|by intros w' ->|done].
  intros []. apply tr_at. intros w' Hw'. eapply tr_then; [by apply tr_next_round|].
  intros [x|] w2 Hx; by apply tr_ret_at.
Qed.

Lemma tr_listing_round w :
  listed w -> tr (at_world w) (listing_round L)
    (fun r w' => match r with inl _ => listed w' | inr x => promises (fun _ => next_ok (inr None)) x w' end).
Proof.
  intros Hw. eapply tr_then; [by apply tr_listing_next|].
  intros [stop|[e|[e|]]] w1 Hn; try by apply tr_ret_at. destruct Hn as (lim & b & a & Hi & Hl & Hy).
  eapply (tr_then _ _ _ _ (promises (fun _ => listed))); [|by intros [stop|[]] w2 Hw2; apply tr_ret_at].
  eapply tr_stop; [by apply (tr_publish_unaddressable lim b [e] a)|done|]. intros [] w2 Hi2. apply tr_get_at.
  eapply (tr_stop _ _ _ (promises (fun _ => inv [] b [e] a))); [|done|].
  { destruct (checkpoint_due _ _); [by apply tr_move_checkpoint|by apply tr_ret_at]. }
  intros [] w3 Hi3. eapply tr_weaken_post; [by apply (tr_publish_object [] b a w3 e)|].
  intros [stop|[]] w4; [done|]. intros Hi4. exists [], (b ++ [e]), a. split; [done|set_solver].
Qed.

Hypothesis Hafter : forall l1 e l2, bucket = l1 ++ e :: l2 -> addressable (e_key e) = true -> list_after (e_key e) = l2.

(** The start of a listing: what the checkpoint covers is dealt with. *)
Lemma listed_start start w :
  stopped w -> (forall k, start = Some k -> covered_to pk (confirmed (jb_log w)) k) ->
  listed (set_listing (mkListing (match start with Some k => list_after k | None => bucket end) true []
                         (ls_recorded (jb_listing w)))
            (with_locals (fun _ => mkLocals [] (mkCount 0 0) (packer_new pk) start None 0 ∅) w)).
Proof.
  intros [[Hs1 Hs2] Hst] Hk.
  assert (Hb : exists b, bucket = b ++ (match start with Some k => list_after k | None => bucket end) /\
    all_served pk (confirmed (jb_log w)) b).
  { destruct start as [k|]; [|by exists []; split; [|intros e He%elem_of_nil]].
    destruct (Hk k eq_refl) as (l1 & e & l2 & Hb & <- & Ha & Hall). exists (l1 ++ [e]).
    rewrite (Hafter l1 e l2 Hb Ha), <- app_assoc. done. }
  destruct Hb as (b & Hb & Hall). exists [], b, []. split; [|by intros e He%elem_of_nil].
  constructor; cbn; try done.
  - apply packer_new_ok.
  - intros e He Hz. right; right. eapply served_mono; [|by apply Hall]. unfold held. cbn. by rewrite app_nil_r.
  - by intros e He%elem_of_nil.
  - by intros e He%elem_of_nil.
Qed.

(** Nothing of the bucket is left. *)
Lemma all_confirmed b a w :
  inv [] b [] a w -> ls_page (jb_listing w) = [] -> ls_rest (jb_listing w) = [] ->
  open_ (packer (jb_locals w)) = [] -> pending (jb_locals w) = [] ->
  all_served pk (confirmed (jb_log w)) bucket.
Proof.
  intros [_ Hb _ Hp _ Hbf Haf _ _ _] Hpage Hrest Ho Hpend e He Hz.
  rewrite Hb, Hrest, app_nil_r in He. rewrite Hpage in Hp. unfold held in *. rewrite Hpend, app_nil_r in *.
  rewrite Ho in Hbf. cbn in He. apply elem_of_app in He as [He|He].
  - destruct (Hbf e He Hz) as [Hin%elem_of_nil|[Hin%elem_of_nil|?]]; done.
  - destruct (yielded e) eqn:Hy; [|by destruct (Haf e He Hy Hz) as [Hin%elem_of_nil|?]].
    assert (Hf : e ∈ filter (fun e => yielded e = true) a) by (by apply list_elem_of_filter).
    rewrite <- Hp in Hf. by apply elem_of_nil in Hf.
Qed.

(** The books determine what the pages hold. *)
Lemma inv_same lim lim' b a w w' :
  inv lim b [] a w -> inv lim' b [] a w' ->
  ls_page (jb_listing w') = ls_page (jb_listing w) /\ ls_rest (jb_listing w') = ls_rest (jb_listing w).
Proof.
  intros Hi Hi'. split; [by rewrite (iv_page _ _ _ _ _ Hi), (iv_page _ _ _ _ _ Hi')|].
  pose proof (iv_bucket _ _ _ _ _ Hi) as Hb. rewrite (iv_bucket _ _ _ _ _ Hi') in Hb.
  by do 3 apply app_inv_head in Hb.
Qed.

Lemma tr_publish_listing start w :
  stopped w -> (forall k, start = Some k -> covered_to pk (confirmed (jb_log w)) k) ->
  tr (at_world w) (publish_listing L start)
    (promises (fun _ w' => stopped w' /\ all_served pk (confirmed (jb_log w')) bucket)).
Proof.
  intros Hst Hk. unfold publish_listing. apply tr_step. set (w0 := set_listing _ _).
  assert (Hw0 : listed w0) by (by apply listed_start). clearbody w0.
  eapply (tr_stop _ _ _ (promises (fun _ => next_ok (inr None)))).
  { apply tr_get_at. eapply upto_weaken; [apply (upto_turns _ (fun _ => listed))|by intros w' ->|done].
    intros []. apply tr_at. apply tr_listing_round. }
  { done. }
  intros [] w1 ((lim & b & a & Hi1 & Hl1) & Hp1 & Hr1).
  eapply tr_stop; [by apply (tr_publish_unaddressable lim b [] a)|done|]. intros [] w2 Hi2.
  eapply tr_stop; [by apply tr_close_packer|done|]. intros [] w3 (Hi3 & Ho3 & _).
  eapply tr_stop; [by apply tr_settle_inv|done|]. intros [] w4 (Hi4 & Hp4 & Ho4). apply tr_get_at.
  assert (Hopen : open_ (packer (jb_locals w4)) = []) by (by rewrite (on_packer _ _ Ho4)).
  assert (Hall : all_served pk (confirmed (jb_log w4)) bucket).
  { destruct (inv_same _ _ _ _ _ _ Hi1 Hi4) as [Hp Hr]. by apply (all_confirmed b a); rewrite ?Hp, ?Hr. }
  assert (Hc : forall key, candidate (jb_locals w4) = Some key -> covered_to pk (confirmed (jb_log w4)) key)
    by (intros key; by eapply candidate_covered).
  eapply (tr_stop _ _ _ (promises (fun _ w' => stopped w' /\ all_served pk (confirmed (jb_log w')) bucket)));
    [|done|by intros [] w5 Hw5; apply tr_ret_at].
  destruct (_ && _); [|apply tr_ret_at; split; [apply Hi4|done]].
  eapply tr_weaken_post; [apply tr_write_checkpoint; [apply Hi4|done]|].
  intros [stop|[]] w5; cbn [promises]; [done|]. intros [->|(key & Hkey & ->)]; [split; [apply Hi4|done]|].
  rewrite confirmed_put. split; [apply stopped_checkpoint; [apply Hi4|by apply Hc]|done].
Qed.
End lister_proofs.
