(* ===== verification/S3ListerRuns.v ===== *)
(** * Lister runs at a job location ([spate-s3/src/lister.rs], [location.rs])

    A run from its reads of the location to its end marker, and runs one after
    another at one location, each done, failed or killed. *)

From stdpp Require Import base gmap strings list.
From Stdlib Require Import ZArith Lia.
From S2P Require Import Prelude EndCheck MemoryFeed JobEnd S3Split S3Unit S3UnitProofs Oracle Backoff S3Fetch S3Lister S3ListerProofs.

(** ** Reads of the location *)
Lemma read_body_whole chunks : forall err body b, read_body chunks err body = inr b -> err = None /\ b = body ++ concat chunks.
Proof.
  induction chunks as [|c chunks IH]; intros err body b; cbn [read_body concat].
  { destruct err; [done|]. intros [= ->]. by rewrite app_nil_r. }
  case_bool_decide; [done|]. intros Hr. destruct (IH _ _ _ Hr) as [-> ->]. by rewrite <- app_assoc.
Qed.

Lemma tr_read_object o w :
  tr (at_world w) (read_object o) (fun r w' => w' = w /\ forall b, r = inr (Some b) -> jb_at w o = Some b).
Proof.
  unfold read_object. eapply (tr_stop _ _ _ (fun r w' => w' = w /\
    forall size chunks, r = inr (inr (size, chunks, None)) -> jb_at w o = Some (concat chunks))).
  - apply tr_get_at. apply tr_await; [done|]. intros q a Hq. split; [done|]. intros size chunks [= ->].
    destruct q as [[e|[[size' chunks'] err']]| | | | | |]; try done.
    destruct (jb_at w o) as [b|]; [|done]. cbn in Hq. destruct (_ && _) eqn:Hb in Hq; [|done]. simplify_eq.
    apply andb_true_iff in Hb as [_ Hb]. cbn in Hb. apply bool_decide_eq_true in Hb. by rewrite Hb.
  - by intros e w' [-> _].
  - intros [e|[[size chunks] err]] w' [-> Hc]; [destruct (_ && _); by apply tr_ret_at|].
    case_bool_decide; [by apply tr_ret_at|].
    destruct (read_body chunks err []) as [e|b] eqn:Hr; cbn [from_result]; [by apply tr_ret_at|].
    apply tr_ret_at. split; [done|]. intros b' [= <-]. apply read_body_whole in Hr as [-> ->]. by eapply Hc.
Qed.

Section lister_runs.
Context `{UnitLaws} `{BucketStore}.

(** What holds of every run of a job, whatever its settings: the units are cut
    alike, and the bucket's listing is as the store documents it. *)
Record run_ok (pk : Packing) (mine : list Z) (L : ListerRun) : Prop := mk_run_ok {
  ro_packing : l_packing L = pk;
  ro_mine : l_fingerprint L = mine;
  ro_base : 0 <= l_retry_base L;
  ro_filter : filtered L = true \/ Forall (fun e => addressable (e_key e) = true) bucket;
}.

Definition after_ok : Prop :=
  forall l1 e l2, bucket = l1 ++ e :: l2 -> addressable (e_key e) = true -> list_after (e_key e) = l2.

Context (L : ListerRun).
Notation pk := (l_packing L).
Notation mine := (l_fingerprint L).
Notation safe := (safe pk mine).

(** ** Before the first publish *)

(** Safe, and nothing published or confirmed since [w]. *)
Definition unpublished (w w' : Job) : Prop :=
  safe w' /\ publishes (jb_log w') = publishes (jb_log w) /\ confirmed (jb_log w') = confirmed (jb_log w).

Lemma unpublished_refl w : safe w -> unpublished w w.
Proof. by intros Hs. Qed.

Lemma safe_delete o w : safe w -> o <> FingerprintObject -> safe (put_object o None w).
Proof.
  intros [Hr Hk] Ho. constructor; [done|]. rewrite confirmed_put. cbn.
  case_bool_decide; [done|]. intros Hf key. case_bool_decide; [done|]. by apply Hk.
Qed.

Lemma tr_delete_object o w :
  safe w -> o <> FingerprintObject ->
  tr (at_world w) (delete_object o) (fun r w' => unpublished w w' /\ (r = inr tt -> jb_at w' o = None) /\
    (forall o', o' <> o -> jb_at w' o' = jb_at w o')).
Proof.
  intros Hs Ho. unfold delete_object.
  eapply (tr_stop _ _ _ (fun r w' => w' = w /\ forall e, r = inr (Some e) -> is_not_found e = true -> jb_at w o = None)).
  - apply tr_get_at, tr_await; [done|]. intros q a Hq. split; [done|]. intros e [= ->] Hnf.
    destruct q; try done. destruct (truly_absent o r w) eqn:Ht; [|done]. injection Hq as ->. cbn in Ht.
    rewrite Hnf in Ht. by apply bool_decide_eq_true in Ht.
  - by intros e w' [-> _].
  - intros [e|] w' [-> Hn].
    { destruct (is_not_found e) eqn:Hnf; apply tr_ret_at; [|by split_and!].
      split_and!; [done..| |done]. intros _. by eapply Hn. }
    eapply (tr_stop _ _ _ (fun r w' => (unpublished w w' /\ forall o', o' <> o -> jb_at w' o' = jb_at w o') /\
      (forall e, r = inr e -> match e with Some e => is_not_found e = true | None => True end -> jb_at w' o = None))).
    + apply tr_store_write. intros r w' Hw Hr Hnf. split.
      * destruct Hw as [-> | ->]; [split; [by apply unpublished_refl|done]|].
        split; [split_and!; [by apply safe_delete|apply publishes_put|apply confirmed_put]|].
        intros o' Hne. cbn. by rewrite bool_decide_false.
      * intros [e|] -> He; [by apply (Hnf eq_refl e)|]. rewrite (Hr eq_refl). cbn. by rewrite bool_decide_true.
    + intros e w' [[Hu Hr] _]. by split_and!.
    + intros [e|] w' [[Hu Hr] Hn']; [destruct (is_not_found e) eqn:Hnf|]; apply tr_ret_at; split_and!; try done;
        intros _; by eapply Hn'.
Qed.

(** Where there is no checkpoint, writing the fingerprint is safe. *)
Definition unchecked (w w' : Job) : Prop := unpublished w w' /\ jb_at w' CheckpointObject = None.

Lemma safe_create w : safe w -> jb_at w CheckpointObject = None -> safe (put_object FingerprintObject (Some mine) w).
Proof. intros [Hr Hk] Hn. constructor; [done|]. cbn. intros _ key. by rewrite Hn. Qed.

Lemma tr_create w0 w :
  unchecked w0 w ->
  tr (at_world w) (create_fingerprint L) (fun r w' => unchecked w0 w' /\
    (r = inr (Some Matched) -> jb_at w' FingerprintObject = Some mine)).
Proof.
  intros Hw. unfold create_fingerprint.
  eapply (tr_stop _ _ _ (fun _ => unchecked w0)); [|done|].
  - apply tr_store_write. intros r w' [-> | ->] _ _; [done|]. destruct Hw as [(Hs & Hp & Hcf) Hc].
    split; [|done]. split_and!; [by apply safe_create|by rewrite publishes_put|by rewrite confirmed_put].
  - intros [e|] w1 Hw1; [|by apply tr_ret_at].
    destruct (se_variant e); try by apply tr_ret_at.
    eapply tr_stop; [apply tr_read_object|by intros x w' [-> _]|].
    intros [b|] w' [-> Hb]; [|by apply tr_ret_at].
    unfold compare. case_bool_decide as Heq; [|by destruct (negb _); apply tr_ret_at].
    apply tr_ret_at. split; [done|]. intros _. rewrite <- Heq. by apply Hb.
Qed.

Lemma tr_check_fingerprint w :
  safe w -> tr (at_world w) (check_fingerprint L) (fun r w' => unpublished w w' /\
    (r = inr Matched -> jb_at w' FingerprintObject = Some mine)).
Proof.
  intros Hs. unfold check_fingerprint. eapply tr_stop; [apply tr_read_object|by intros x w' [-> _]|].
  intros [b|] w' [-> Hb].
  { unfold compare. case_bool_decide as Heq; [|by destruct (negb _); apply tr_ret_at].
    apply tr_ret_at. split; [done|]. intros _. rewrite <- Heq. by apply Hb. }
  eapply tr_stop; [by apply tr_delete_object|by intros x w' (Hu & _)|].
  intros [] w1 (Hu & Hn & _). specialize (Hn eq_refl). unfold write_fingerprint.
  eapply tr_stop; [by apply (tr_create w)|by intros x w' [[Hu' _] _]|].
  intros [f|] w2 [Hw2 Hm2].
  { apply tr_ret_at. split; [apply Hw2|]. intros [= ->]. by apply Hm2. }
  eapply tr_stop; [by apply (tr_create w)|by intros x w' [[Hu' _] _]|].
  intros [f|] w3 [Hw3 Hm3]; apply tr_ret_at; (split; [apply Hw3|]); [|done].
  intros [= ->]. by apply Hm3.
Qed.

Lemma checkpoint_key_same body key : checkpoint_key L body = Some key -> key = body.
Proof.
  unfold checkpoint_key, addressable. destruct (valid_utf8 body); [|done]. cbn.
  destruct (path_parse body) as [p|]; [|done]. case_bool_decide; [|done]. subst p. cbn.
  destruct (_ && _); [|done]. by intros [= ->].
Qed.

(** What a run knows when it starts to list. *)
Lemma tr_prepare w :
  safe w -> tr (at_world w) (prepare L) (fun r w' => unpublished w w' /\
    forall start, r = inr start -> (located L = true -> jb_at w' EndObject = None) /\
      (forall k, start = Some k -> covered_to pk (confirmed (jb_log w')) k)).
Proof.
  intros Hs. unfold prepare. destruct (located L).
  2: { apply tr_ret_at. split; [done|]. by intros start [= <-]. }
  eapply tr_stop; [by apply tr_check_fingerprint|by intros e w' [Hu _]|]. intros f w1 [Hu1 Hm].
  eapply (tr_stop _ _ _ (fun r w' => w' = w1 /\ forall k, r = inr (Some k) -> covered_to pk (confirmed (jb_log w1)) k)).
  - destruct f; [by apply tr_ret_at|]. destruct (l_resume L); [|by apply tr_ret_at].
    eapply tr_stop; [apply tr_read_object|by intros e w' [-> _]|]. intros [b|] w' [-> Hb]; [|by apply tr_ret_at].
    destruct (checkpoint_key L b) as [key|] eqn:Hkey; [|by apply tr_ret_at].
    apply tr_ret_at. split; [done|]. intros k [= <-]. apply checkpoint_key_same in Hkey as ->.
    destruct Hu1 as [[_ Hck] _]. apply Hck; [by apply Hm|by apply Hb].
  - by intros e w' [-> _].
  - intros start w' [-> Hk]. destruct Hu1 as (Hs1 & Hp1 & Hc1).
    eapply tr_stop; [by apply tr_delete_object|..].
    + intros e w2 ((Hs2 & Hp2 & Hc2) & _). split; [|done]. split_and!; [done|congruence..].
    + intros [] w2 ((Hs2 & Hp2 & Hc2) & Hn2 & _). apply tr_ret_at.
      split; [split_and!; [done|congruence..]|]. intros start' [= <-]. split; [intros _; by apply Hn2|].
      intros k ->. rewrite Hc2. by apply Hk.
Qed.

(** ** The run *)

(** What a run leaves: safe; done, if it succeeded; and an end marker only
    where it published nothing, or everything is confirmed. *)
Definition run_leaves (w : Job) (r : Stop + unit) (w' : Job) : Prop :=
  safe w' /\ (r = inr tt -> all_served pk (confirmed (jb_log w')) bucket) /\
  (located L = true -> is_Some (jb_at w' EndObject) ->
     publishes (jb_log w') = publishes (jb_log w) \/ all_served pk (confirmed (jb_log w')) bucket).

Lemma safe_end w body : safe w -> safe (put_object EndObject (Some body) w).
Proof. intros [Hr Hk]. constructor; [done|]. rewrite confirmed_put. done. Qed.

Lemma tr_run w :
  0 < target_bytes pk < U64_MAX -> Forall entry_ok bucket -> after_ok -> run_ok pk mine L -> safe w ->
  tr (at_world w) (run L) (run_leaves w).
Proof.
  intros Ht Hb Ha [_ _ Hbase Hfilter] Hs. unfold run. eapply tr_stop; [by apply tr_prepare|..].
  { intros e w' [(Hs' & Hp & _) _]. split_and!; [done|done|]. intros _ _. by left. }
  intros start w1 [(Hs1 & Hp1 & Hc1) Hst]. destruct (Hst start eq_refl) as [Hend Hk].
  eapply tr_stop; [by apply (tr_publish_listing L)|..].
  { intros e w' [Hs' Hn]. split_and!; [done|done|]. intros Hl Hsome. rewrite (Hn Hl) in Hsome. by destruct Hsome. }
  intros n w2 [[Hs2 Hn2] Hall]. destruct (located L) eqn:Hloc; [|apply tr_ret_at; split_and!; [done..|congruence]].
  unfold write_end. eapply tr_stop; [by apply (tr_await _ _ (fun _ w' => w' = w2))|..].
  { intros e w' ->. split_and!; [done|done|]. by right. }
  intros id w' ->. eapply (tr_stop _ _ _ (fun _ w' => safe w' /\ all_served pk (confirmed (jb_log w')) bucket)).
  - apply tr_store_write. intros r w' [-> | ->] _ _; [done|]. rewrite confirmed_put. split; [by apply safe_end|done].
  - intros e w' [Hs' Hall']. split_and!; [done|done|]. by right.
  - intros [e|] w' [Hs' Hall']; apply tr_ret_at; (split_and!; [done|done|]); by right.
Qed.
End lister_runs.

(** ** The rounds of the listing loop

    Every round but the last takes an object out of the listing, so a round per
    object and one more are enough. *)

Section listing_rounds.
Context `{UnitLib} `{BucketStore} (L : ListerRun).

Notation left_of := (fun j : Job => listing_left (jb_listing j)).
Notation kept m := (keeps left_of m).

Lemma keeps_or_stop {A B} (m : J (Stop + A)) (k : A -> J (Stop + B)) :
  kept m -> (forall a, kept (k a)) -> kept (or_stop m k).
Proof. intros Hm Hk. apply keeps_bind; [done|]. intros [e|a]; [apply keeps_ret|apply Hk]. Qed.

Lemma keeps_each_or_stop {A} (f : A -> J (Stop + unit)) l : (forall x, kept (f x)) -> kept (each_or_stop f l).
Proof. intros Hf. induction l as [|x l IH]; [apply keeps_ret|]. by apply keeps_or_stop. Qed.

Lemma keeps_loop_from {S A} (body : S -> J (S + A)) s : (forall s, kept (body s)) -> kept (loop_from body s).
Proof.
  intros Hb. enough (forall n s, kept (turns n body s)) as Hn by (intros w t; apply Hn).
  induction n as [|n IH]; intros s'; [apply keeps_stuck|]. apply keeps_bind; [done|].
  intros [s1|a]; [apply IH|apply keeps_ret].
Qed.

Ltac keep := repeat first
  [ apply keeps_ret | apply keeps_stuck | apply keeps_get | apply keeps_ask | by apply keeps_modify | done
  | match goal with
    | |- keeps _ (or_stop _ _) => apply keeps_or_stop
    | |- keeps _ (_ ≫= _) => apply keeps_bind
    | |- keeps _ (each_or_stop _ _) => apply keeps_each_or_stop
    | |- keeps _ (match ?x with _ => _ end) => destruct x
    | |- forall _, keeps _ _ => intros ?
    end
  | progress unfold done, fail, when, feed_publish, await, panic ].

Lemma keeps_settle p : kept (settle L p).
Proof. apply keeps_loop_from. intros [n b]. unfold settle_round. keep. Qed.

Lemma keeps_settle_each n : kept (settle_each L n).
Proof.
  induction n as [|n IH]; cbn [settle_each]; keep. apply keeps_settle.
Qed.

Lemma keeps_publish_unit m : kept (publish_unit L m).
Proof. unfold publish_unit. keep. apply keeps_settle. Qed.

Lemma keeps_publish_minted {A} o (f : A -> Locals -> Locals) : kept (publish_minted L o f).
Proof. unfold publish_minted. keep. apply keeps_publish_unit. Qed.

Lemma keeps_publish_unaddressable : kept (publish_unaddressable L).
Proof.
  unfold publish_unaddressable. destruct (negb _); [apply keeps_ret|].
  intros w t a w' t'. unfold mbind, prog_bind. cbn [get modify].
  destruct (largest_per_key _) as [es|]; [|done].
  enough (kept (each_or_stop (publish_alone L) es)) as Hk by (intros Hr; by rewrite (Hk _ _ _ _ _ Hr)).
  apply keeps_each_or_stop. intros e. unfold publish_alone. keep. apply keeps_publish_minted.
Qed.

Lemma keeps_move_checkpoint : kept (move_checkpoint L).
Proof.
  unfold move_checkpoint, close_packer, settle_all, write_checkpoint, store_write. keep;
    first [apply keeps_publish_minted|apply keeps_settle_each].
Qed.

Lemma keeps_publish_object e : kept (publish_object L e).
Proof. unfold publish_object. keep. apply keeps_publish_minted. Qed.

Lemma next_round_left w t r w' t' :
  page_round L w t = Ran r w' t' -> (left_of w' <= left_of w)%nat /\
    forall e, r = Some (inr (inr (Some e))) -> (left_of w' < left_of w)%nat.
Proof.
  unfold page_round, mbind, prog_bind. cbn [get]. unfold listing_left.
  destruct (ls_page (jb_listing w)) as [|e page] eqn:Hp.
  2: { intros [= <- <- <-]. cbn. split; [lia|]. intros. lia. }
  destruct (negb _); [intros [= <- <- <-]; by rewrite Hp|].
  destruct (await _ w t) as [[stop|[e|[n more]]] w1 t1| |] eqn:Ha; try done;
    (assert (w1 = w) as -> by (unfold await, ask in Ha; destruct t; [done|]; destruct (match j with OKilled _ => _ | _ => _ end);
       [|done]; by injection Ha as _ <- _));
    intros [= <- <- <-]; (split; [|done]); [by rewrite Hp..|].
  cbn. rewrite length_drop. pose proof (length_filter (fun e => negb (filtered L) || addressable (e_key e) = true)
    (take n (ls_rest (jb_listing w)))) as Hf. rewrite length_take in Hf. lia.
Qed.

Lemma listing_next_left w t r w' t' :
  listing_next L w t = Ran r w' t' -> (left_of w' <= left_of w)%nat /\
    forall e, r = inr (inr (Some e)) -> (left_of w' < left_of w)%nat.
Proof.
  unfold listing_next, loop_from. generalize (2 + length t)%nat. intros n. revert w t.
  induction n as [|n IH]; intros w t; cbn [turns]; [done|]. unfold mbind, prog_bind.
  destruct (page_round L w t) as [[x|] w1 t1| |] eqn:Hn; try done; cbn [mret prog_ret]; apply next_round_left in Hn as [Hle Hlt].
  - intros [= <- <- <-]. split; [done|]. intros e ->. by apply (Hlt e).
  - intros Hr. destruct (IH w1 t1 Hr) as [Hle' Hlt']. split; [lia|]. intros e He. specialize (Hlt' e He). lia.
Qed.

Lemma listing_round_left w t w' t' : listing_round L w t = Ran (inl tt) w' t' -> (left_of w' < left_of w)%nat.
Proof.
  unfold listing_round. unfold mbind at 1, prog_bind at 1.
  destruct (listing_next L w t) as [r w1 t1| |] eqn:Hn; try done. apply listing_next_left in Hn as [_ Hlt].
  destruct r as [stop|[e|[e|]]]; try done. specialize (Hlt e eq_refl).
  unfold mbind at 1, prog_bind at 1. destruct (or_stop _ _ w1 t1) as [[stop|[]] w2 t2| |] eqn:Hb; try done.
  intros [= <- <-]. enough (left_of w2 = left_of w1) as -> by done. revert Hb. apply keeps_or_stop.
  - apply keeps_publish_unaddressable.
  - intros []. keep; [apply keeps_move_checkpoint|apply keeps_publish_object].
Qed.

(** More rounds change nothing. *)
Lemma listing_loop_rounds k w t :
  turns (k + S (left_of w)) (fun _ : unit => listing_round L) tt w t = listing_loop L w t.
Proof.
  apply (turns_enough (fun j => listing_left (jb_listing j))); [|lia].
  intros [] w1 t1 [] w2 t2. apply listing_round_left.
Qed.
End listing_rounds.

(** ** Runs one after another *)
Lemma job_runs_safe `{UnitLaws} `{BucketStore} pk mine rs : forall j j',
  0 < target_bytes pk < U64_MAX -> Forall entry_ok bucket -> after_ok -> Forall (fun r => run_ok pk mine r.1) rs ->
  safe pk mine j -> job_runs rs j = Some j' -> safe pk mine j'.
Proof.
  induction rs as [|[L t] rs IH]; intros j j' Ht Hb Ha Hrs Hs Hj; cbn [job_runs] in Hj; [by simplify_eq|].
  apply Forall_cons in Hrs as [HL Hrs]. cbn in HL. pose proof HL as [<- <- _ _].
  pose proof (tr_run L j Ht Hb Ha HL Hs j t eq_refl) as Hr.
  destruct (run L j t) as [r w t'| |]; try done. by apply (IH w j' Ht Hb Ha Hrs (proj1 Hr)).
Qed.

Lemma safe_fresh `{UnitLib} `{BucketStore} pk mine j :
  jb_at j FingerprintObject = None -> ls_recorded (jb_listing j) = [] -> safe pk mine j.
Proof. intros Hf Hr. constructor; [rewrite Hr; by intros e He%elem_of_nil|]. by rewrite Hf. Qed.

(** C13: a lister that succeeds has the whole bucket confirmed, and a checkpoint
    never passes what is not. Take any runs of one job at a location that had
    no fingerprint, each ended by an error, by a kill, or done, with any
    answers from the stores and the feed, and a run after them. It does not
    panic; if it succeeds, every object of the bucket that is not empty is
    read by units the feed has confirmed, in this run or an earlier one; and
    wherever it stops, the checkpoint beside the job's fingerprint is the key
    of a listed object such that the same holds of it and all listed before
    it. *)
Theorem lister_confirms_all `{UnitLaws} `{BucketStore} (pk : Packing) (mine : list Z)
    (rs : list (ListerRun * list JobAnswer)) (L : ListerRun) (j0 j : Job) (t : list JobAnswer) :
  0 < target_bytes pk < U64_MAX -> Forall entry_ok bucket -> after_ok ->
  Forall (fun r => run_ok pk mine r.1) rs -> run_ok pk mine L ->
  jb_at j0 FingerprintObject = None -> ls_recorded (jb_listing j0) = [] -> job_runs rs j0 = Some j ->
  match run L j t with
  | Ran r j' _ =>
      (r = inr tt -> all_served pk (confirmed (jb_log j')) bucket) /\
      (jb_at j' FingerprintObject = Some mine -> forall key, jb_at j' CheckpointObject = Some key ->
         covered_to pk (confirmed (jb_log j')) key)
  | Panicked _ => False
  | Stuck => True
  end.
Proof.
  intros Ht Hb Ha Hrs HL Hf Hr Hj. pose proof (job_runs_safe pk mine rs j0 j Ht Hb Ha Hrs) as Hs.
  specialize (Hs (safe_fresh pk mine j0 Hf Hr) Hj). pose proof HL as [<- <- _ _].
  pose proof (tr_run L j Ht Hb Ha HL Hs j t eq_refl) as Hrun. destruct (run L j t) as [r j' t'| |]; try done.
  destruct Hrun as (Hs' & Hok & _). split; [exact Hok|apply Hs'].
Qed.

(** C14: an end marker follows the confirmations. After any runs of a job as
    above, once a lister run has published a unit, an end marker found at the
    location means that every object of the bucket that is not empty is read
    by confirmed units: a marker found there at the start is gone before the
    first publish, and the run's own comes after its last confirmation. *)
Theorem end_marker_confirmed `{UnitLaws} `{BucketStore} (pk : Packing) (mine : list Z)
    (rs : list (ListerRun * list JobAnswer)) (L : ListerRun) (j0 j j' : Job) (t t' : list JobAnswer) (r : Stop + unit) :
  0 < target_bytes pk < U64_MAX -> Forall entry_ok bucket -> after_ok ->
  Forall (fun r => run_ok pk mine r.1) rs -> run_ok pk mine L -> located L = true ->
  jb_at j0 FingerprintObject = None -> ls_recorded (jb_listing j0) = [] -> job_runs rs j0 = Some j ->
  run L j t = Ran r j' t' -> publishes (jb_log j') <> publishes (jb_log j) -> is_Some (jb_at j' EndObject) ->
  all_served pk (confirmed (jb_log j')) bucket.
Proof.
  intros Ht Hb Ha Hrs HL Hloc Hf Hr Hj Hrun Hp He. pose proof (job_runs_safe pk mine rs j0 j Ht Hb Ha Hrs) as Hs.
  specialize (Hs (safe_fresh pk mine j0 Hf Hr) Hj). pose proof HL as [<- <- _ _].
  pose proof (tr_run L j Ht Hb Ha HL Hs j t eq_refl) as Hl. rewrite Hrun in Hl. destruct Hl as (_ & _ & Hm).
  by destruct (Hm Hloc He).
Qed.

(** ** A job *)

#[local] Instance SlashLib : UnitLib := {|
  path_parse := fun k => if bool_decide (list.last k = Some 47) then None else Some k;
  json_from_slice := @json_from_slice ToyUnitLib;
  json_to_vec := @json_to_vec ToyUnitLib;
  record_deserialize := @record_deserialize ToyUnitLib;
  descriptor_to_vec := @descriptor_to_vec ToyUnitLib;
  descriptor_probe := @descriptor_probe ToyUnitLib;
  descriptor_from_slice := @descriptor_from_slice ToyUnitLib;
  time_parse := @time_parse ToyUnitLib;
  time_text := @time_text ToyUnitLib;
  sha256 := @sha256 ToyUnitLib;
  base64url := @base64url ToyUnitLib;
|}.
#[local] Instance SlashLaws : UnitLaws.
Proof. destruct ToyUnitLaws as [H1 H2 H3 H4 H5]. by split. Defined.

Fixpoint after_key (es : list ObjectEntry) (k : list Z) : list ObjectEntry :=
  match es with
  | [] => []
  | e :: es => if bool_decide (e_key e = k) then es else after_key es k
  end.
Definition demo_bucket : list ObjectEntry :=
  [mkEntry [97] 3 None 0; mkEntry [97; 47] 4 None 0; mkEntry [98] 5 (Some [34; 34]) 1; mkEntry [99] 0 None 1;
   mkEntry [100] 20 (Some [34; 34]) 2].
#[local] Instance DemoBucket : BucketStore := {|
  bucket := demo_bucket;
  list_after := after_key demo_bucket;
  path_parts := fun k => match k with [] => [] | _ => [k] end;
|}.

Definition demo_fp : list Z := ascii_bytes "spate-s3:feed1".
Definition demo_lister : ListerRun := mkLister [] toy_packing true true 1 true demo_fp 0.
Definition demo_job : Job :=
  mkJob (fun o => match o with FingerprintObject => None | CheckpointObject => Some [120] | EndObject => Some [0] end)
    (mkListing [] false [] []) (mkLocals [] (mkCount 0 0) (packer_new toy_packing) None None 0 ∅) [].
Definition missing : StoreError := mkStoreError ENotFound [] false.
Definition demo_busy : FeedError := mkFeedError Retryable "busy".

(** The first run replaces a checkpoint that is not the job's, is refused a
    unit once, moves the checkpoint to the first key, and is killed. *)
Definition demo_killed : list JobAnswer :=
  [OGet (inl missing); OHead None; OWrite None true; OWrite None true; OHead None; OWrite None true;
   OPage (inr (2%nat, true)); OPage (inr (3%nat, false)); OConfirm (Some demo_busy); OConfirm None; OConfirm None;
   OWrite None true; OConfirm None; OKilled false].
Definition demo_done : list JobAnswer :=
  [OGet (inr (14, [demo_fp], None)); OGet (inr (1, [[97]], None)); OHead (Some missing);
   OPage (inr (9%nat, false)); OConfirm None; OConfirm None; OWrite None true; OConfirm None; OConfirm None;
   OConfirm None; OWrite None true; ORun [120]; OWrite None true].

Lemma demo_bucket_ok : Forall entry_ok demo_bucket /\ after_ok.
Proof.
  split.
  - repeat (apply Forall_cons; split); [..|constructor]; (split; [split; vm_compute; discriminate|by intros t [= <-]]).
  - intros l1 e l2 Hb _. cbn [bucket DemoBucket] in Hb.
    repeat (destruct l1 as [|? l1]; [injection Hb as <- <-; done|injection Hb as <- Hb]).
    by destruct l1.
Qed.

Lemma demo_run_ok : run_ok toy_packing demo_fp demo_lister.
Proof. constructor; try done. by left. Qed.

Lemma demo_runs_ok : Forall (fun r => run_ok toy_packing demo_fp r.1) [(demo_lister, demo_killed)].
Proof. constructor; [exact demo_run_ok|constructor]. Qed.

Definition demo_between : Job := Eval vm_compute in default demo_job (job_runs [(demo_lister, demo_killed)] demo_job).

Definition demo_end : Job := Eval vm_compute in
  match run demo_lister demo_between demo_done with Ran _ j _ => j | _ => demo_job end.

Lemma demo_lister_runs :
  job_runs [(demo_lister, demo_killed)] demo_job = Some demo_between /\
  run demo_lister demo_between demo_done = Ran (inr tt) demo_end [].
Proof. split; vm_compute; reflexivity. Qed.

Lemma lister_confirms_all_witness :
  run demo_lister demo_between demo_done = Ran (inr tt) demo_end [] /\
  jb_at demo_end CheckpointObject = Some [100] /\
  all_served toy_packing (confirmed (jb_log demo_end)) demo_bucket.
Proof.
  pose proof (lister_confirms_all toy_packing demo_fp [(demo_lister, demo_killed)] demo_lister demo_job demo_between
    demo_done) as Ht.
  destruct demo_lister_runs as [Hk Hr]. rewrite Hr in Ht. split; [exact Hr|]. split; [reflexivity|].
  destruct demo_bucket_ok as [Hb Ha].
  destruct (Ht (conj eq_refl eq_refl) Hb Ha demo_runs_ok demo_run_ok eq_refl eq_refl Hk) as [Hok _].
  exact (Hok eq_refl).
Defined.

Lemma end_marker_confirmed_witness :
  jb_at demo_end EndObject = Some (end_body [120]) /\ all_served toy_packing (confirmed (jb_log demo_end)) demo_bucket.
Proof.
  split; [reflexivity|]. destruct demo_lister_runs as [Hk Hr].
  destruct demo_bucket_ok as [Hb Ha].
  pose proof (end_marker_confirmed toy_packing demo_fp [(demo_lister, demo_killed)] demo_lister demo_job demo_between
    demo_end demo_done [] (inr tt)) as Ht.
  apply (Ht (conj eq_refl eq_refl) Hb Ha demo_runs_ok demo_run_ok eq_refl eq_refl eq_refl Hk Hr).
  - vm_compute. discriminate.
  - eexists. reflexivity.
Defined.
