(* ===== verification/S3Location.v ===== *)
(** * A worker at the job location ([spate-s3/src/location.rs])

    The fingerprint that the instances of a job compare, what it identifies,
    and a worker's wait for it: reads at each step of a fixed schedule until
    the fingerprint is there, the window has passed or the worker is stopped;
    the wait always ends. The outcome of a read and whether it comes before the
    next step, how late a sleep ends and the stop signal are the environment's.
    The wording of errors is a short name. *)

From stdpp Require Import base gmap strings list.
From Stdlib Require Import ZArith Lia.
From S2P Require Import Prelude EndCheck MemoryFeed JobEnd S3Split S3Offset S3Unit Oracle S3Fetch S3Lister.

(** ** The fingerprint *)

(** [{compression:?}], a decimal and [{d:02x}]. *)
Definition compression_name (c : Compression) : list Z :=
  match c with
  | CompressionNone => ascii_bytes "None"
  | CompressionGzip => ascii_bytes "Gzip"
  | CompressionZstd => ascii_bytes "Zstd"
  | CompressionAuto => ascii_bytes "Auto"
  end.
Fixpoint digits (k : nat) (n : Z) : list Z :=
  match k with
  | O => []
  | S k => if bool_decide (n < 10) then [48 + n] else digits k (n / 10) ++ [48 + n mod 10]
  end.
Definition decimal (n : Z) : list Z := digits 20 n.
Definition hex_digit (n : Z) : Z := if bool_decide (n < 10) then 48 + n else 87 + n.
Definition hex_byte (d : Z) : list Z := [hex_digit (d / 16); hex_digit (d mod 16)].

(** [feed_fingerprint], of the URL as [redact::url] shows it. *)
Definition feed_fingerprint (url : list Z) (compression : Compression) (split_target_bytes : Z) (delimiter : option Z) : list Z :=
  FINGERPRINT_TAG ++ ascii_bytes "1:d" ++ decimal DESCRIPTOR_VERSION ++ ascii_bytes ":url=" ++ url ++
  ascii_bytes ":compression=" ++ compression_name compression ++
  ascii_bytes ":target=" ++ decimal split_target_bytes ++
  ascii_bytes ":delim=" ++ from_option hex_byte (ascii_bytes "none") delimiter.

(** ** The wait *)

Definition FINGERPRINT_POLL : Z := 5 * 10 ^ 9.

(** The stop signal; a read's outcome, unless the next step comes first; how
    late a sleep ends. Each wait takes of an answer what it needs. *)
Record WaitAnswer := mkWait {
  wa_stop : bool;
  wa_read : option (SourceError + option (list Z));
  wa_late : Z;
}.

(** The clock, the reads answered and whether the stop was seen. *)
Record WaitWorld := mkWaitWorld {
  ww_now : Z;
  ww_reads : list (SourceError + option (list Z));
  ww_stopped : bool;
}.
Definition ww_set_now (now : Z) (w : WaitWorld) : WaitWorld := mkWaitWorld now (ww_reads w) (ww_stopped w).
Definition ww_add_read (o : SourceError + option (list Z)) (w : WaitWorld) : WaitWorld :=
  mkWaitWorld (ww_now w) (ww_reads w ++ [o]) (ww_stopped w).
Definition ww_see_stop (b : bool) (w : WaitWorld) : WaitWorld :=
  mkWaitWorld (ww_now w) (ww_reads w) (ww_stopped w || b).

Notation WT := (Prog WaitWorld WaitAnswer).

(** [stop.is_set()], and [clock.sleep_until(t)] with [clock.now()] after it. *)
Definition stop_is_set : WT bool :=
  b ← ask (fun a => Some (wa_stop a)); modify (ww_see_stop b);;; mret b.
Definition sleep_until (t : Z) : WT Z :=
  w ← get;
  late ← ask (fun a => Some (wa_late a));
  let now := Z.max (ww_now w) t + Z.max 0 late in
  modify (ww_set_now now);;; mret now.

Section await.
Context (mine : list Z) (deadline : Z).

Record Waiting := mkWaiting {
  wt_next : Z;
  wt_last_error : option SourceError;
  wt_answered : bool;
}.

Definition timed_out (last_error : option SourceError) : SourceError :=
  match last_error with
  | Some _ => fatal "no read succeeded"
  | None => fatal "none appeared"
  end.
Definition step_of (next : Z) : Z := Z.min (next + FINGERPRINT_POLL) deadline.

(** The inner loop's round: the read's outcome, or how the wait ends, or
    another step. *)
Definition read_round (s : Waiting) (next : Z) : WT (Z + (SourceError + unit) + Z * (SourceError + option (list Z))) :=
  r ← ask (fun a => Some (wa_read a));
  match r with
  | Some outcome => modify (ww_add_read outcome);;; mret (inr (next, outcome))
  | None =>
      let next := step_of next in
      now ← sleep_until next;
      if bool_decide (deadline <= now) then
        mret (inl (inr (inl (if wt_answered s then timed_out (wt_last_error s) else fatal "the store answered no read"))))
      else
        set ← stop_is_set;
        mret (if set : bool then inl (inr (inr tt)) else inl (inl next))
  end.
Definition await_read (s : Waiting) : WT ((SourceError + unit) + Z * (SourceError + option (list Z))) :=
  loop_from (fun next =>
    r ← read_round s next;
    mret (match r with
          | inl (inl next) => inl next
          | inl (inr e) => inr (inl e)
          | inr o => inr (inr o)
          end)) (wt_next s).

(** The sleep to the next read. *)
Definition sleep_on (next : Z) (last_error : option SourceError) : WT (Waiting + (SourceError + unit)) :=
  now ← sleep_until (step_of next);
  mret (if bool_decide (deadline <= now) then inr (inl (timed_out last_error))
        else inl (mkWaiting (step_of next) last_error true)).

(** The outer loop's round. *)
Definition wait_round (s : Waiting) : WT (Waiting + (SourceError + unit)) :=
  set ← stop_is_set;
  if set : bool then mret (inr (inr tt))
  else
    r ← await_read s;
    match r with
    | inl e => mret (inr e)
    | inr (_, inr (Some stored)) => mret (inr (compare mine stored))
    | inr (next, inr None) => sleep_on next None
    | inr (next, inl e) =>
        match source_class e with
        | ClassRetryable => sleep_on next (Some e)
        | _ => mret (inr (inl e))
        end
    end.
End await.

(** [await_fingerprint]. The window is a setting of at most a day, and the start
    of the wait a clock reading: the deadline and the steps of the schedule, none
    past the deadline by more than a step, are taken to be in [Instant]'s range. *)
Definition await_fingerprint (mine : list Z) (window : Z) : WT (SourceError + unit) :=
  w ← get;
  loop_from (wait_round mine (ww_now w + window)) (mkWaiting (ww_now w) None false).

(** ** What the fingerprint identifies *)
Lemma digits_range k : forall n, 0 <= n -> Forall (fun d => 48 <= d <= 57) (digits k n).
Proof.
  induction k as [|k IH]; intros n Hn; cbn [digits]; [done|]. case_bool_decide.
  - constructor; [lia|done].
  - apply Forall_app. split; [apply IH, Z.div_pos; lia|].
    constructor; [|done]. pose proof (Z.mod_pos_bound n 10). lia.
Qed.

Definition undigits (l : list Z) : Z := foldl (fun a d => 10 * a + (d - 48)) 0 l.

Lemma undigits_digits k : forall n, 0 <= n < 10 ^ Z.of_nat k -> undigits (digits k n) = n.
Proof.
  induction k as [|k IH]; intros n Hn; cbn [digits]; [change (10 ^ Z.of_nat 0) with 1 in Hn; cbn; lia|].
  rewrite Nat2Z.inj_succ, Z.pow_succ_r in Hn by lia. case_bool_decide; [cbn; lia|].
  unfold undigits in *. rewrite foldl_app, IH; cbn; [pose proof (Z.div_mod n 10); lia|].
  split; [apply Z.div_pos; lia|apply Z.div_lt_upper_bound; lia].
Qed.

Lemma decimal_inj n n' : is_u64 n -> is_u64 n' -> decimal n = decimal n' -> n = n'.
Proof.
  unfold is_u64, U64_MAX. intros Hn Hn' He. rewrite <- (undigits_digits 20 n), <- (undigits_digits 20 n');
    [by unfold decimal in He; rewrite He|change (10 ^ Z.of_nat 20) with 100000000000000000000; lia..].
Qed.

Lemma no_colon l : Forall (fun d => 48 <= d <= 57) l -> 58 ∉ l.
Proof. intros HF Hin. rewrite Forall_forall in HF. specialize (HF _ Hin). lia. Qed.

(** The field after the last colon. *)
Lemma last_field (x : list Z) : forall x' y y',
  58 ∉ y -> 58 ∉ y' -> x ++ 58 :: y = x' ++ 58 :: y' -> x = x' /\ y = y'.
Proof.
  induction x as [|a x IH]; intros [|a' x'] y y' Hy Hy' He; cbn in He; simplify_eq; try done.
  - exfalso. apply Hy. set_solver.
  - exfalso. apply Hy'. set_solver.
  - destruct (IH x' y y' Hy Hy') as [-> ->]; done.
Qed.

Lemma hex_digit_range n : 0 <= n < 16 -> hex_digit n <> 58.
Proof. unfold hex_digit. case_bool_decide; lia. Qed.

Lemma hex_digit_inj n n' : 0 <= n < 16 -> 0 <= n' < 16 -> hex_digit n = hex_digit n' -> n = n'.
Proof. unfold hex_digit. repeat case_bool_decide; lia. Qed.

Lemma delimiter_field (d d' : option Z) :
  (forall x, d = Some x -> is_byte x) -> (forall x, d' = Some x -> is_byte x) ->
  from_option hex_byte (ascii_bytes "none") d = from_option hex_byte (ascii_bytes "none") d' -> d = d'.
Proof.
  unfold is_byte. destruct d as [x|], d' as [x'|]; cbn; intros Hx Hx' He; try done.
  specialize (Hx x eq_refl). specialize (Hx' x' eq_refl). injection He as He1 He2. f_equal.
  rewrite (Z.div_mod x 16), (Z.div_mod x' 16) by lia.
  rewrite (hex_digit_inj (x / 16) (x' / 16)), (hex_digit_inj (x mod 16) (x' mod 16)); try done;
    solve [apply Z.mod_pos_bound; lia|split; [apply Z.div_pos; lia|apply Z.div_lt_upper_bound; lia]].
Qed.

Lemma delimiter_no_colon d : (forall x, d = Some x -> is_byte x) -> 58 ∉ from_option hex_byte (ascii_bytes "none") d.
Proof.
  unfold is_byte. destruct d as [x|]; intros Hx.
  2: { change (58 ∉ [110; 111; 110; 101]). rewrite !not_elem_of_cons. split_and!; try lia. apply not_elem_of_nil. }
  specialize (Hx x eq_refl). cbn. intros [He|[He|[]%elem_of_nil]%elem_of_cons]%elem_of_cons; symmetry in He; revert He;
    apply hex_digit_range; [split; [apply Z.div_pos; lia|apply Z.div_lt_upper_bound; lia]|apply Z.mod_pos_bound; lia].
Qed.

(** The fields of a fingerprint, from its end. *)
Lemma fingerprint_fields url c n d :
  feed_fingerprint url c n d =
    ((((FINGERPRINT_TAG ++ ascii_bytes "1:d" ++ decimal DESCRIPTOR_VERSION ++ ascii_bytes ":url=") ++ url) ++
       58 :: (ascii_bytes "compression=" ++ compression_name c)) ++
      58 :: (ascii_bytes "target=" ++ decimal n)) ++
    58 :: (ascii_bytes "delim=" ++ from_option hex_byte (ascii_bytes "none") d).
Proof. unfold feed_fingerprint. rewrite <- !app_assoc. done. Qed.

Lemma ascii_no_colon (s : string) : forallb (fun b => negb (b =? 58)) (ascii_bytes s) = true -> 58 ∉ ascii_bytes s.
Proof. intros Hs Hin. rewrite forallb_forall in Hs. apply list_elem_of_In in Hin. by specialize (Hs _ Hin). Qed.

Lemma field_no_colon (s : string) l : forallb (fun b => negb (b =? 58)) (ascii_bytes s) = true -> 58 ∉ l -> 58 ∉ ascii_bytes s ++ l.
Proof. intros Hs Hl [Hin|Hin]%elem_of_app; [|done]. by apply ascii_no_colon in Hin. Qed.

Lemma compression_name_inj c c' : compression_name c = compression_name c' -> c = c'.
Proof. by destruct c, c'. Qed.

(** Instances with one fingerprint agree on the URL shown, the compression, the
    split target and the delimiter. *)
Lemma fingerprint_identifies url c n d url' c' n' d' :
  is_u64 n -> is_u64 n' -> (forall x, d = Some x -> is_byte x) -> (forall x, d' = Some x -> is_byte x) ->
  feed_fingerprint url c n d = feed_fingerprint url' c' n' d' ->
  url = url' /\ c = c' /\ n = n' /\ d = d'.
Proof.
  intros Hn Hn' Hd Hd' He. rewrite !fingerprint_fields in He.
  assert (Hc : forall c, 58 ∉ ascii_bytes "compression=" ++ compression_name c).
  { intros x. apply field_no_colon; [done|]. destruct x; by apply ascii_no_colon. }
  assert (Ht : forall n, is_u64 n -> 58 ∉ ascii_bytes "target=" ++ decimal n).
  { intros x [Hx _]. apply field_no_colon; [done|]. by apply no_colon, digits_range. }
  apply last_field in He as [He H1]; [|by apply field_no_colon; [|apply delimiter_no_colon]..].
  apply last_field in He as [He H2]; [|by apply Ht..].
  apply last_field in He as [He H3]; [|apply Hc..].
  apply app_inv_head in He. apply app_inv_head, delimiter_field in H1; [|done..].
  apply app_inv_head, decimal_inj in H2; [|done..]. apply app_inv_head, compression_name_inj in H3. done.
Qed.

(** So runs of one fingerprint cut their units alike. *)
Corollary same_fingerprint_same_packing url url' p p' :
  is_u64 (target_bytes p) -> is_u64 (target_bytes p') ->
  (forall x, pk_delimiter p = Some x -> is_byte x) -> (forall x, pk_delimiter p' = Some x -> is_byte x) ->
  feed_fingerprint url (compression p) (target_bytes p) (pk_delimiter p) =
  feed_fingerprint url' (compression p') (target_bytes p') (pk_delimiter p') -> p = p'.
Proof.
  intros Hn Hn' Hd Hd' He. apply fingerprint_identifies in He as (_ & H1 & H2 & H3); [|done..].
  destruct p, p'. cbn in *. by subst.
Qed.

(** ** The wait ends *)

Section wait_ends.
Context (mine : list Z) (deadline : Z).
Notation any := (fun _ : WaitAnswer => True).

(** The steps of the schedule left. *)
Definition steps_left (next : Z) : nat := Z.to_nat ((deadline - next) / FINGERPRINT_POLL).

Lemma step_on next now :
  next <= deadline -> step_of deadline next <= now -> now < deadline ->
  step_of deadline next <= deadline /\ (steps_left (step_of deadline next) < steps_left next)%nat.
Proof.
  unfold step_of, steps_left, FINGERPRINT_POLL. intros Hn H1 H2.
  replace (Z.min (next + 5 * 10 ^ 9) deadline) with (next + 5 * 10 ^ 9) in * by lia. split; [lia|].
  replace (deadline - next) with (deadline - (next + 5 * 10 ^ 9) + 1 * (5 * 10 ^ 9)) by lia.
  rewrite Z.div_add by lia. pose proof (Z.div_pos (deadline - (next + 5 * 10 ^ 9)) (5 * 10 ^ 9)). lia.
Qed.

(** How a wait may end. *)
Definition wait_result (r : SourceError + unit) (w : WaitWorld) : Prop :=
  match r with
  | inr _ => ww_stopped w = true \/ last (ww_reads w) = Some (inr (Some mine))
  | inl e => deadline <= ww_now w \/ (last (ww_reads w) = Some (inl e) /\ source_class e <> ClassRetryable) \/
      (exists stored, last (ww_reads w) = Some (inr (Some stored)) /\ stored <> mine)
  end.

Lemma com_sleep t P : completes any 1 P (sleep_until t) (fun now w => t <= now /\ ww_now w = now).
Proof.
  unfold sleep_until. apply com_get_bind. intros w0. change 1%nat with (1 + 0)%nat.
  eapply com_bind; [by apply (com_ask any)|]. intros late. change 0%nat with (0 + 0)%nat.
  eapply com_bind; [apply (com_modify any _ _ (fun _ w => ww_now w = Z.max (ww_now w0) t + Z.max 0 late)); done|].
  intros []. apply com_ret. intros w Hw. cbv zeta. split; [lia|done].
Qed.

Lemma com_stop P : completes any 1 P stop_is_set (fun b w => b = true -> ww_stopped w = true).
Proof.
  unfold stop_is_set. change 1%nat with (1 + 0)%nat.
  eapply com_bind; [by apply (com_ask any)|]. intros b. change 0%nat with (0 + 0)%nat.
  eapply com_bind; [apply (com_modify any _ _ (fun _ w => b = true -> ww_stopped w = true))|].
  - intros w _ ->. cbn. apply orb_true_r.
  - intros []. by apply com_ret.
Qed.

(** What a round of the inner loop leaves. *)
Definition after_round (s : Waiting) (next : Z) (r : Z + (SourceError + unit) + Z * (SourceError + option (list Z)))
    (w : WaitWorld) : Prop :=
  match r with
  | inl (inl next') => next' <= deadline /\ (steps_left next' < steps_left next)%nat
  | inl (inr e) => wait_result e w
  | inr (next', o) => next' = next /\ last (ww_reads w) = Some o
  end.

Lemma com_read_round s next :
  next <= deadline -> completes any 3 (fun _ => True) (read_round deadline s next) (after_round s next).
Proof.
  intros Hn. unfold read_round. apply (com_bind any 1 2 _ _ _ (fun _ _ => True)); [by apply com_ask|].
  intros [o|].
  - apply (com_weaken any (0 + 0) _ (fun _ => True) _ _ (after_round s next)); [|lia|done|done].
    eapply com_bind; [apply (com_modify any _ _ (fun _ w => last (ww_reads w) = Some o))|].
    + intros w _. cbn. by rewrite last_snoc.
    + intros []. by apply com_ret.
  - cbv zeta. apply (com_bind any 1 1 _ _ _ (fun now w => step_of deadline next <= now /\ ww_now w = now)); [apply com_sleep|].
    intros now. case_bool_decide as Hd.
    + apply (com_weaken any 0 _ (fun w => step_of deadline next <= now /\ ww_now w = now) _ _ (after_round s next)); [|lia|done|done].
      apply com_ret. intros w [_ Hw]. left. by rewrite Hw.
    + intros w t [Hs Hw]. revert w t Hw. apply (com_bind any 1 0 (fun w => ww_now w = now) _ _ (fun b w => b = true -> ww_stopped w = true)); [apply com_stop|].
      intros b. apply com_ret. intros w Hb. destruct b; [left; by apply Hb|]. eapply step_on; [done|exact Hs|lia].
Qed.

Lemma com_await_read s :
  wt_next s <= deadline ->
  completes any (3 * S (steps_left (wt_next s))) (fun _ => True) (await_read deadline s)
    (fun r w => match r with
                | inl e => wait_result e w
                | inr (next, o) => next <= deadline /\ (steps_left next <= steps_left (wt_next s))%nat /\
                                   last (ww_reads w) = Some o
                end).
Proof.
  intros Hs. unfold await_read.
  eapply com_weaken; [apply (com_loop_from any 3 (fun next _ => next <= deadline /\
    (steps_left next <= steps_left (wt_next s))%nat) steps_left); [lia|]|done|done|intros a w Hr; exact Hr].
  intros next. apply com_pure. intros [Hn Hl].
  apply (com_bind any 3 0 _ _ _ (after_round s next)); [by apply com_read_round|].
  intros [[next'|e]|[next' o]]; apply com_ret; intros w Hw; cbn in Hw; [|done|].
  - split; [split; [tauto|lia]|tauto].
  - destruct Hw as [-> Hw]. done.
Qed.

Definition after_wait (n : nat) (r : Waiting + (SourceError + unit)) (w : WaitWorld) : Prop :=
  match r with
  | inl s' => wt_next s' <= deadline /\ (steps_left (wt_next s') < n)%nat
  | inr e => wait_result e w
  end.

Lemma com_sleep_on next e n :
  next <= deadline -> (steps_left next <= n)%nat ->
  completes any 1 (fun _ => True) (sleep_on deadline next e) (after_wait n).
Proof.
  intros Hn Hl. unfold sleep_on.
  apply (com_bind any 1 0 _ _ _ (fun now w => step_of deadline next <= now /\ ww_now w = now)); [apply com_sleep|].
  intros now. apply com_ret. intros w [Hs Hw]. case_bool_decide as Hd; [left; by rewrite Hw|].
  destruct (step_on next now Hn Hs) as [H1 H2]; [lia|]. cbn. split; [done|lia].
Qed.

Lemma compare_result stored w :
  last (ww_reads w) = Some (inr (Some stored)) -> wait_result (compare mine stored) w.
Proof.
  intros Hw. unfold compare. case_bool_decide as Heq; [right; by rewrite Hw, Heq|].
  destruct (negb _); right; right; by exists stored.
Qed.

Lemma com_wait_round s :
  wt_next s <= deadline ->
  completes any (5 + 3 * steps_left (wt_next s)) (fun _ => True) (wait_round mine deadline s)
    (after_wait (steps_left (wt_next s))).
Proof.
  intros Hs. unfold wait_round.
  assert (Hend : forall P (e : SourceError + unit), (forall w, P w -> wait_result e w) ->
    completes any 1 P (mret (inr e) : WT _) (after_wait (steps_left (wt_next s)))).
  { intros P e He. eapply (com_weaken any 0); [by apply (com_ret any P _ (after_wait (steps_left (wt_next s))))|lia|done|done]. }
  apply (com_bind any 1 (4 + 3 * steps_left (wt_next s)) _ _ _ (fun b w => b = true -> ww_stopped w = true)); [apply com_stop|].
  intros [|].
  { eapply com_weaken; [apply (Hend (fun w => true = true -> ww_stopped w = true))|lia|done|done].
    intros w Hw. left. by apply Hw. }
  eapply com_weaken; [eapply (com_bind any (3 * S (steps_left (wt_next s))) 1 (fun _ => True)); [by apply com_await_read|]|lia|done|done].
  assert (Hgo : forall next o e, completes any 1 (fun w => next <= deadline /\ (steps_left next <= steps_left (wt_next s))%nat /\
      last (ww_reads w) = Some o) (sleep_on deadline next e) (after_wait (steps_left (wt_next s)))).
  { intros next o e w t (H1 & H2 & _). by apply (com_sleep_on next e _ H1 H2). }
  intros [e|[next [e|[stored|]]]]; [by apply Hend| |by apply Hend; intros w (_ & _ & Hw); apply compare_result|apply Hgo].
  destruct (source_class e) eqn:He; [apply Hgo|..]; apply Hend; intros w (_ & _ & Hw); right; left; split; congruence.
Qed.
End wait_ends.

(** C39: a worker's wait for the fingerprint ends, and only as it should. In a
    window of [n] poll steps, whatever the store answers and however late
    sleeps end, the wait is over after at most [(5 + 3 n) (n + 1)] answers. It
    succeeds only if the worker was stopped or the last read found this
    instance's fingerprint; it fails only once the window has passed, or
    because the last read failed for good or found another fingerprint. *)
Theorem fingerprint_wait_ends (mine : list Z) (window : Z) (w : WaitWorld) (t : list WaitAnswer) :
  let n := Z.to_nat (window / FINGERPRINT_POLL) in
  0 <= window -> ((5 + 3 * n) * (n + 1) <= length t)%nat ->
  exists r w' t', await_fingerprint mine window w t = Ran r w' t' /\
    (length t <= length t' + (5 + 3 * n) * (n + 1))%nat /\
    match r with
    | inr _ => ww_stopped w' = true \/ last (ww_reads w') = Some (inr (Some mine))
    | inl e => ww_now w + window <= ww_now w' \/
        (last (ww_reads w') = Some (inl e) /\ source_class e <> ClassRetryable) \/
        (exists stored, last (ww_reads w') = Some (inr (Some stored)) /\ stored <> mine)
    end.
Proof.
  intros n Hw Ht. set (D := ww_now w + window).
  assert (Hn : steps_left D (ww_now w) = n) by (unfold steps_left, D; by replace (ww_now w + window - ww_now w) with window by lia).
  pose proof (com_loop_from (fun _ : WaitAnswer => True) (5 + 3 * n)
    (fun s _ => wt_next s <= D /\ (steps_left D (wt_next s) <= n)%nat) (fun s => steps_left D (wt_next s))
    (wait_round mine D) (wait_result mine D) (mkWaiting (ww_now w) None false)) as Hc.
  cbn [wt_next] in Hc. rewrite Hn in Hc. destruct Hc with (w := w) (t := t) as (r & w' & t' & Hr & _ & Hl & HR).
  - lia.
  - intros s. apply com_pure. intros [H1 H2]. eapply com_weaken; [by apply com_wait_round|lia|done|].
    intros [s'|e] w'; cbn; [|done]. intros [H3 H4]. split; [split; [done|lia]|done].
  - split; [unfold D; lia|done].
  - by apply Forall_forall.
  - lia.
  - exists r, w', t'. split; [exact Hr|]. split; [lia|]. by destruct r.
Qed.

(** The lister's fingerprint appears at the second read. *)
Definition demo_mine : list Z := feed_fingerprint (ascii_bytes "s3://b/p") CompressionAuto 8 (Some 10).
Definition demo_wait : list WaitAnswer :=
  [mkWait false None 0; mkWait false (Some (inr None)) 0; mkWait false None 7; mkWait false None 0;
   mkWait false (Some (inr (Some demo_mine))) 0] ++ replicate 40 (mkWait true None 0).

Lemma fingerprint_wait_ends_witness :
  exists w' t', await_fingerprint demo_mine (2 * FINGERPRINT_POLL) (mkWaitWorld 3 [] false) demo_wait = Ran (inr tt) w' t' /\
    ww_stopped w' = false /\ (ww_stopped w' = true \/ last (ww_reads w') = Some (inr (Some demo_mine))).
Proof.
  destruct (fingerprint_wait_ends demo_mine (2 * FINGERPRINT_POLL) (mkWaitWorld 3 [] false) demo_wait) as (r & w' & t' & Hr & _ & HR).
  - unfold FINGERPRINT_POLL. lia.
  - vm_compute. lia.
  - assert (Hrun : exists w1 t1, await_fingerprint demo_mine (2 * FINGERPRINT_POLL) (mkWaitWorld 3 [] false) demo_wait =
      Ran (inr tt) w1 t1 /\ ww_stopped w1 = false) by (vm_compute; eexists _, _; split; reflexivity).
    destruct Hrun as (w1 & t1 & H1 & H2). rewrite H1 in Hr. injection Hr as <- <- <-. exists w1, t1. split_and!; done.
Defined.
